(* ===== verification/_CoqProject ===== *)
-Q . S2P
Prelude.v
RustStr.v
Ordered.v
Unicode.v
Text.v
CodePoints.v
Utf8.v
Shell.v
Elision.v
Blocks.v
Apply.v
Natural.v
Unidiff.v
Vote.v
Diff.v
JsonFloat.v
JsonParse.v
JsonSpec.v
JsonWrite.v
Kernel.v
Contain.v
Txn.v
Disk.v
Tarjan.v
Symbols.v
Cycles.v
Flood.v
Owners.v
Interrupt.v
Globs.v
CsvLines.v
Csv.v
PathSearch.v
Lexer.v
FactValues.v
StableId.v
ModulePaths.v
ImportTargets.v
Names.v
RustPaths.v
Scopes.v
CallSites.v
Resolver.v
Lookup.v
Nargs.v
ArgParse.v
Tokenize.v
Changes.v
IndexPlan.v
Twister.v
TreeWalk.v
GitCalls.v
GitHistory.v
GitWalk.v
