(* ===== verification/Prelude.v ===== *)
(** * Agentless MCP: the verification of its core

    The program answers questions of coding agents about a repository and applies the patches
    they send.  It is a Rust workspace of layered crates (src/crates).  This library models the
    crates' own logic as functions on lists, integers and finite maps, with the names of the
    source, and proves what each part promises.

    ** The parts and their files

    - Prelude.v: [result] and its [let?], list searches and the tactics and hints that the other
      files share.
    - RustStr.v: Rust strings as lists of code points, their UTF-8 lengths, and the functions of
      [str] the program calls.  Ordered.v: the byte order of strings, sorting, and [BTreeMap] as a
      [gmap] iterated in key order.
    - Text.v, Unicode.v, CodePoints.v, Shell.v, Diff.v: crates/text.  Whitespace, one-line escapes,
      margins, integers and POSIX paths; the Unicode tables; strings that can hold lone surrogates
      and their Python-quoted form; shell words; the sequence matcher and unified diffs.
    - Elision.v, Blocks.v, Apply.v, Natural.v, Unidiff.v, Vote.v: crates/patch.  Finding a block of
      lines in a text, reading SEARCH/REPLACE blocks, applying edits, unbounded hunk arithmetic,
      reading unified diffs, and ranking candidate patches.
    - JsonFloat.v, JsonParse.v, JsonSpec.v, JsonWrite.v: crates/json.  Float text on exact IEEE
      doubles, the parser with its explicit stack, the grammar it is proved against, and the writer
      and formatter.
    - Kernel.v: crates/kernel.  Errors, spans, limits, cut rows, digests, and call deadlines, whose
      concurrent credits are a step relation of one atomic access at a time.
    - Contain.v, Txn.v, Disk.v: crates/io.  Which paths stay inside a root, the all-or-none write of
      a patch, and its steps as system calls.
    - Interrupt.v: crates/io, interrupt.rs.  The SIGINT watch: the accesses of its threads and of
      the signal handlers, interleaved.
    - Tarjan.v, Symbols.v, Cycles.v, Flood.v, Owners.v: crates/graph.  Strongly connected
      components; symbol edges, ambiguous references and their queries; import cycles and chains;
      the file graph and its backward flood; which symbol a line is in.  Symbols.v takes what the
      resolver finds and Flood.v what the name index weighs as inputs; Cycles.v runs Tarjan.v on the
      import edges of Symbols.v.
    - TreeWalk.v: crates/io, walk.rs.  The bounded walk of a directory tree, over the world of Contain.v.
    - Utf8.v: crates/io, the strict decoder of read.rs with the errors it reports.
    - PathSearch.v: crates/graph, path.rs.  Fewest-hop paths over the symbol edges of Symbols.v.
    - Globs.v: crates/checks, globs.rs.  The globs of a boundary against declarative matching.
    - Lexer.v, CallSites.v: crates/patchcheck, lexer.rs, and crates/facts, declared.rs.  Literals,
      brackets, parameters and call sites in fragments of Python, and the names a patch declares.
    - Nargs.v, ArgParse.v: crates/cli, args.rs and its modules.  Argument counts and the parse of a
      command line with subcommands, option clusters and checked actions.
    - Tokenize.v: crates/metrics, tokenize.rs.  The scanner of Python code lines.
    - CsvLines.v, Csv.v: crates/hook, report/csv.rs.  The labeling file: its lines from chunks of
      bytes, its fields and its records by name.
    - Twister.v: crates/hook, report/random.rs.  The generator seeded by a text and its samples.
    - Changes.v: crates/git, changes.rs.  The listings of git diff-tree and git ls-files.
    - GitCalls.v, GitHistory.v, GitWalk.v: crates/git, run.rs, toplevel.rs, snapshot.rs, history.rs,
      churn.rs and walk.rs.  How a call ends, the receipt, the logs of spans and files, and the walk of
      a repository, which TreeWalk.v serves where git does not.
    - IndexPlan.v: crates/store, plan.rs and the write of writer.rs.  Which files an index run parses,
      and the rows it leaves.
    - FactValues.v, StableId.v: crates/facts, values.rs and stable_id.rs, the languages of
      crates/syntax and the scanned file of crates/graph.  Stable ids and the ordinals of repeated names.
    - ModulePaths.v, ImportTargets.v, RustPaths.v: crates/graph, paths.rs, imports.rs and
      rust_paths.rs.  Normal paths, the index of a scan's paths, the file that a module names, and the
      walks through the module tree of Rust.
    - Scopes.v: crates/graph, scopes.rs and entries.rs.  What the import statements of each file bind,
      with the passes that follow re-exports.
    - Names.v, Resolver.v, Lookup.v: crates/graph, names.rs, resolver.rs and lookup.rs.  The index of
      the names of a scan, which definitions a name in a file means, and what a caller's target means.
    The blocks and diffs of patch text become [Edit]s (Blocks.v, Unidiff.v); Apply.v turns edits
    and the texts of files into new texts with Elision.v's search; Vote.v ranks the candidates that
    applied; Txn.v writes the new texts below a root with Contain.v's resolution.  JsonWrite.v
    prints what JsonParse.v reads.

    ** Modelling

    - A [&str] is a list of Unicode scalar values and a path or file a list of bytes; where the code
      works at byte offsets (the JSON parser, code point strings, paths) so does the model.
      Machine integers are [Z] with their widths written out where a bound matters ([usize] counts of
      unidiff.rs, the [u32] of spans and limits); a count of elements in memory is a [nat].
    - A [Result] is [result], an [Option] is [option]; a panic is [None] or an outcome of its own
      ([Panicked] of JsonParse.v), never a default value.
    - A loop that is not structural takes fuel, and [None] is running out.  A theorem gives the fuel
      that suffices for each: the length of the command (Shell.v), the lines of the text (Unidiff.v),
      twice the lines (Diff.v), the length of the text (JsonParse.v), a bound computed from the links
      that exist (Contain.v), the bytes left plus the interruptions to come (Disk.v), twice the edges
      (Tarjan.v), the nodes to reach (Cycles.v, PathSearch.v up to its bound of visits), twice the
      length of the text (the f-strings of Lexer.v, the turns of Tokenize.v), the arguments (ArgParse.v:
      one level of subcommands for each, and the letters of a cluster of options), the bytes left and
      the pending ones (CsvLines.v), the fields (Changes.v).
    - The world outside is a class of queries and calls on an abstract state ([Files] of Contain.v,
      [Steps] of Txn.v, [Os] of Disk.v); its documented behaviour is a class of laws
      ([StepsLaws], [OsLaws], [HandlerLaws] of Interrupt.v).  Theorems of a client are proved against
      the laws of the interface; [disk_steps_laws] derives the laws of [Steps] from those of the system calls, and Module [Ram]
      of Disk.v is a file system in memory for which the laws are proved and on which the write runs.

    ** The theorems

    - Reading and writing lose nothing: [parse_blocks_rendered], [parse_rendered_diff],
      [value_text_roundtrip], [code_points_pushed], [quoted_roundtrip], [shell_words_roundtrip],
      [key_text_exact]; and what is read is what the format says: [parse_grammar],
      [parse_blocks_sound], [hunk_body_exact].
    - Optimised code is its reference: [apply_edits_spec] (slots against one map of texts),
      [locate_lines] (padded search against lines), [resolve_walks] (stack and cache against links
      one by one), [credits_linearized] (compare-and-exchange against some order of credits).
    - Every input is answered: [parse_unified_diff_total], [parse_total], [resolve_total],
      [components_correct], [drop_flat], and the [Some] of [write_all_or_none] and [unified_diff_empty].
    - The repository is safe: [contained_inside], [write_all_or_none], [disk_steps_laws].
    - Bounds and order: [natural_ops], [fixed_exact], [float_text_exact], [matching_blocks_valid],
      [opcodes_rebuild], [vote_clusters], [rank_order_independent].
    - The graph answers what its definition says: [components_correct], [import_cycles_exact],
      [import_chain_shortest], [flood_exact] against paths of edges; [graph_queries],
      [ambiguous_degrees_exact] against filters and scans; [owners_exact]: the innermost symbol of a line.
    - A hold keeps the process alive unless a handler was already past its test: [sigint_exact], by
      induction on the steps of all threads and handlers.
    - An index run that reuses rows leaves what a whole index would: [incremental_is_full].
    - Command lines: [command_line_total] (no parse panics, and a result has a command),
      [parse_written] (written settings are taken in order), [match_partial_exact] (the counts are
      the greatest that match).
    - Scanners and readers against what they read: [literal_end_exact] (a stack of f-strings against
      their recursion), [call_sites_exact], [in_boundary_exact], [csv_lines_exact] (whatever the
      chunks), [labels_roundtrip], [parse_changes_exact], [decode_strict_exact] (which byte breaks a
      text), [python_sloc_total] and [scanner_bounds] (the scanner ends within its limits).
    - [shortest_path_exact]: no path has fewer hops, and none is reported only where none is or the
      bound was reached.  [credit_ends]: a credit is retried only for a spurious failure or
      the credit of another thread.
    - Names find their definitions: [name_index_exact] (one pass against filters of the scan),
      [bind_file_exact], [scopes_scanned], [resolve_import_exact], [rust_resolve_exact] (what
      imports and paths name, always a scanned file), [follow_exact] (the walk along re-exports ends
      and loses nothing within its bound), [resolve_exact] (the tiers in their order), and
      [resolved_sites_safe], which joins them.
    - Symbols are found by what is written for them: [stable_id_exact], [ids_distinct], [target_forms],
      [own_id_found] (an id finds its own definition alone, or not at all when its name has a dot), [innermost_line].
    - A seed draws distinct rows, the same ones with more fuel: [seed_sample], on [below_first] and
      [key_words].
    - Walks end and answer the files they should: [tree_walk_exact] (the stack of the walker against a
      description of the tree that shares none of its functions), [admitted_spec] and [repo_walk_exact], which composes both with the
      listing of git ([listing_exact]).
    - What git prints is read as it was meant: [parse_log_cut] (whatever the cap cut off),
      [parse_log_sound], [tally_exact], [receipt_whole], [git_environment_exact].
    [float_text_misreads] shows where the code does not do what its comment says: the text of some
    powers of two parses back to another float; [lua_id_missed], [set_id_lost] and [hold_race] do so
    for the ids of Lua functions, the set-ID bits of written files and a hold taken under a handler.

    ** Assumptions

    The laws of [OsLaws] leave out what other processes do to the files meanwhile, hard links among
    the names of a patch, and a crash of the machine.  Writes are interrupted finitely often.  The
    working directory is the canonical path the operating system reports.  serde_json calls the
    formatter's methods in the order its trait documents.  signal-hook runs the actions registered
    for a signal in their order ([HandlerLaws]).  Two texts that meet in an index run, stored
    and new, have different digests; the names of languages differ; an encoded analysis has metrics
    exactly when the file is measured ([incremental_is_full]).

    ** Not modelled

    Input and output with no logic of its own; generated tables of messages and languages; the
    syntax crate, whose trees are those of the tree-sitter parsers, and what reads these trees (facts
    but for its values, ids and declared names, metrics but for its scanner, the checks over trees and
    matches); the store's SQL, its encoding of blobs, its locks and migrations; the processes themselves
    (git, test runs, hooks) and the work trees of git; the server; the help texts of the command line.
    *)

From Stdlib Require Export ZArith List Lia Bool Sorting.Sorted.
From stdpp Require Export base option list numbers strings sets gmap sorting.

(** * Scopes and notations *)

Declare Scope rs_scope.
Delimit Scope rs_scope with rs.

(** The result of a fallible Rust function. *)
Inductive result (A E : Type) : Type :=
| Ok (a : A)
| Err (e : E).
Arguments Ok {A E} a.
Arguments Err {A E} e.

(** The [?] operator: go on with the value, or return the error. *)
Definition result_bind {A B E} (r : result A E) (k : A -> result B E) : result B E :=
  match r with Ok a => k a | Err e => Err e end.

Definition map_err {A E F} (f : E -> F) (r : result A E) : result A F :=
  match r with Ok a => Ok a | Err e => Err (f e) end.

Notation "'let?' p := r 'in' k" := (result_bind r (fun p => k))
  (at level 10, p pattern, r at level 100, k at level 200) : rs_scope.

#[export] Instance result_eq_dec {A E} `{EqDecision A} `{EqDecision E} : EqDecision (result A E).
Proof. solve_decision. Defined.

(** * Automation *)

Create HintDb rs discriminated.

(** Splits boolean conjunctions, disjunctions and negations in the context. *)
Ltac bool_hyps :=
  repeat match goal with
  | H : _ && _ = true |- _ => apply andb_true_iff in H as [? ?]
  | H : _ || _ = false |- _ => apply orb_false_iff in H as [? ?]
  | H : negb _ = true |- _ => apply negb_true_iff in H
  | H : negb _ = false |- _ => apply negb_false_iff in H
  | H : bool_decide _ = true |- _ => apply bool_decide_eq_true in H
  | H : bool_decide _ = false |- _ => apply bool_decide_eq_false in H
  end.

(** Case analysis on the scrutinee of the first match or [if] of the goal, or of a hypothesis. *)
Ltac case_goal :=
  match goal with
  | |- context [match ?x with _ => _ end] => destruct x eqn:?
  end.
Ltac case_hyp H :=
  match type of H with
  | context [match ?x with _ => _ end] => destruct x eqn:?
  end.

(** Inverts equations between results and between options. *)
Ltac inv H := inversion H; subst; clear H.

Lemma result_bind_Ok {A B E} (r : result A E) (k : A -> result B E) b :
  result_bind r k = Ok b <-> exists a, r = Ok a /\ k a = Ok b.
Proof. destruct r; simpl; naive_solver. Qed.

Lemma result_bind_Err {A B E} (r : result A E) (k : A -> result B E) e :
  result_bind r k = Err e <-> r = Err e \/ exists a, r = Ok a /\ k a = Err e.
Proof. destruct r; simpl; naive_solver. Qed.

(** * Lists *)

(** Induction two elements at a time. *)
Lemma pair_list_ind {A} (P : list A -> Prop) :
  P [] -> (forall x, P [x]) -> (forall x y l, P l -> P (x :: y :: l)) -> forall l, P l.
Proof. intros H0 H1 H2. fix IH 1. intros [|x [|y l]]; [done|apply H1|apply H2, IH]. Qed.

Lemma filter_nil_iff_false {A} (f : A -> bool) l :
  (forall x, In x l -> f x = false) -> List.filter f l = [].
Proof.
  induction l as [|x l IH]; intros H; simpl; [done|].
  rewrite H by by left. apply IH. intros y Hy. apply H. by right.
Qed.

Lemma filter_map_comm {A B} (g : A -> B) (f : B -> bool) l :
  List.filter f (map g l) = map g (List.filter (fun x => f (g x)) l).
Proof. induction l as [|x l IH]; simpl; [done|]. destruct (f (g x)); simpl; by rewrite IH. Qed.

Lemma filter_ext_in_list {A} (f g : A -> bool) l :
  (forall x, In x l -> f x = g x) -> List.filter f l = List.filter g l.
Proof.
  induction l as [|x l IH]; intros H; simpl; [done|].
  rewrite H by by left. rewrite IH; [done|]. intros y Hy. apply H. by right.
Qed.

Lemma omap_fmap_ext {A B C} (f : B -> option C) (g : A -> B) (h : A -> option C) (l : list A) :
  (forall x, f (g x) = h x) -> omap f (g <$> l) = omap h l.
Proof. intros H. induction l as [|x l IH]; [done|]. csimpl. rewrite H. by destruct (h x); f_equal. Qed.

Lemma elem_of_concat {A} (x : A) ls : x ∈ concat ls <-> exists l, x ∈ l /\ l ∈ ls.
Proof.
  rewrite list_elem_of_In, in_concat. split; intros (l & H1 & H2); exists l; by rewrite !list_elem_of_In in *.
Qed.

Lemma sum_with_le {A} (f g : A -> nat) l : (forall x, x ∈ l -> f x <= g x)%nat -> (sum_list_with f l <= sum_list_with g l)%nat.
Proof.
  induction l as [|x l IH]; intros H; [done|]. cbn. pose proof (H x ltac:(left)).
  assert (sum_list_with f l <= sum_list_with g l)%nat by (apply IH; intros y ?; apply H; by right). lia.
Qed.

Lemma sum_with_ext {A} (f g : A -> nat) l : (forall x, x ∈ l -> f x = g x) -> sum_list_with f l = sum_list_with g l.
Proof. intros H. apply Nat.le_antisymm; apply sum_with_le; intros x Hx; by rewrite H. Qed.

Lemma sum_with_app {A} (f : A -> nat) l1 l2 : sum_list_with f (l1 ++ l2) = (sum_list_with f l1 + sum_list_with f l2)%nat.
Proof. induction l1 as [|x l1 IH]; [done|]. cbn. lia. Qed.

Lemma sum_with_perm {A} (f : A -> nat) l1 l2 : l1 ≡ₚ l2 -> sum_list_with f l1 = sum_list_with f l2.
Proof. induction 1; cbn; lia. Qed.

Lemma sum_with_plus {A} (f g : A -> nat) l : sum_list_with (fun x => f x + g x)%nat l = (sum_list_with f l + sum_list_with g l)%nat.
Proof. induction l as [|x l IH]; [done|]. cbn. lia. Qed.

Lemma sum_with_zero {A} (f : A -> nat) l : (forall x, x ∈ l -> f x = 0)%nat -> sum_list_with f l = 0%nat.
Proof. intros H. induction l as [|x l IH]; [done|]. cbn. rewrite H, IH; [done|intros y ?; apply H; by right|left]. Qed.

Lemma sum_with_filter {A} (f : A -> nat) (p : A -> bool) l :
  sum_list_with f (List.filter p l) = sum_list_with (fun x => if p x then f x else 0)%nat l.
Proof. induction l as [|x l IH]; [done|]. cbn. destruct (p x); cbn; lia. Qed.

Lemma sum_with_map {A B} (f : B -> nat) (g : A -> B) l : sum_list_with f (map g l) = sum_list_with (fun x => f (g x)) l.
Proof. induction l as [|x l IH]; [done|]. cbn. by rewrite IH. Qed.

(** The sums over the groups of a list add up to the sum over the list. *)
Lemma sum_with_groups {A K} `{EqDecision K} (f : A -> nat) (key : A -> K) keys l :
  NoDup keys -> (forall x, x ∈ l -> key x ∈ keys) ->
  sum_list_with (fun k => sum_list_with f (List.filter (fun x => bool_decide (key x = k)) l)) keys = sum_list_with f l.
Proof.
  intros Hn. induction l as [|x l IH]; intros Hk; cbn [List.filter sum_list_with].
  { apply sum_with_zero. done. }
  rewrite <- IH by (intros y ?; apply Hk; by right).
  rewrite (sum_with_ext _ (fun k => (if bool_decide (key x = k) then f x else 0) +
    sum_list_with f (List.filter (fun x => bool_decide (key x = k)) l))%nat) by (intros k _; by case_bool_decide).
  rewrite sum_with_plus. f_equal. specialize (Hk x ltac:(left)). clear IH. induction Hn as [|k keys Hkk Hn IH].
  - by apply elem_of_nil in Hk.
  - cbn. apply elem_of_cons in Hk as [->|Hk].
    + rewrite bool_decide_true by done. rewrite sum_with_zero; [lia|]. intros k' Hk'. rewrite bool_decide_false; [done|by intros ->].
    + rewrite bool_decide_false by (by intros <-). cbn. by apply IH.
Qed.

Lemma NoDup_concat_filter {A} (p : list A -> bool) ls : NoDup (concat ls) -> NoDup (concat (List.filter p ls)).
Proof.
  induction ls as [|l ls IH]; intros Hn; [done|]. cbn [concat List.filter] in *. apply NoDup_app in Hn as (H1 & H2 & H3).
  destruct (p l); [|by apply IH]. cbn [concat]. apply NoDup_app. split; [done|]. split; [|by apply IH].
  intros x Hx Hin. apply (H2 x Hx). apply elem_of_concat in Hin as (l' & Hx' & Hl'). apply elem_of_concat. exists l'.
  split; [done|]. rewrite list_elem_of_In, filter_In in Hl'. destruct Hl' as [Hl' _]. by apply list_elem_of_In in Hl'.
Qed.

Lemma sum_with_const {A} (c : nat) (l : list A) : sum_list_with (fun _ => c) l = (length l * c)%nat.
Proof. induction l as [|x l IH]; [done|]. cbn. lia. Qed.

Lemma filter_filter_comm {A} (p q : A -> bool) l : List.filter p (List.filter q l) = List.filter q (List.filter p l).
Proof. induction l as [|x l IH]; [done|]. cbn. destruct (p x) eqn:Ep, (q x) eqn:Eq; cbn; rewrite ?Ep, ?Eq; by rewrite IH. Qed.

Lemma length_flat_map {A B} (f : A -> list B) l : length (flat_map f l) = sum_list_with (fun x => length (f x)) l.
Proof. induction l as [|x l IH]; [done|]. cbn. by rewrite length_app, IH. Qed.

Lemma length_omap {A B} (f : A -> option B) (l : list A) :
  length (omap f l) = sum_list_with (fun x => if f x is Some _ then 1 else 0)%nat l.
Proof. induction l as [|x l IH]; [done|]. cbn. by destruct (f x); cbn; rewrite <- IH. Qed.

#[export] Instance list_filter_perm {A} (f : A -> bool) : Proper (Permutation ==> Permutation) (List.filter f).
Proof.
  intros l1 l2 H. induction H as [|x l1 l2 _ IH|x y l|l1 l2 l3 _ IH1 _ IH2]; [done| | |by rewrite IH1]; cbn; [by destruct (f x); rewrite IH|].
  destruct (f x), (f y); try done. apply Permutation_swap.
Qed.

Lemma filter_all {A} (f : A -> bool) l : Forall (fun x => f x = true) l -> List.filter f l = l.
Proof. induction 1 as [|x l Hx _ IH]; [done|]. cbn. by rewrite Hx, IH. Qed.

Lemma filter_none {A} (f : A -> bool) l : Forall (fun x => f x = false) l -> List.filter f l = [].
Proof. induction 1 as [|x l Hx _ IH]; [done|]. cbn. by rewrite Hx. Qed.

Lemma flat_map_filter {A B} (f : A -> list B) (p : A -> bool) (q : B -> bool) l :
  (forall x y, x ∈ l -> y ∈ f x -> q y = p x) -> flat_map f (List.filter p l) = List.filter q (flat_map f l).
Proof.
  induction l as [|x l IH]; intros H; [done|]. cbn [List.filter flat_map]. rewrite List.filter_app, <- IH by (intros y z ?; apply H; by right).
  assert (List.filter q (f x) = if p x then f x else []) as ->.
  { assert (forall y, y ∈ f x -> q y = p x) as Hq by (intros y ?; apply H; [left|done]). clear -Hq.
    induction (f x) as [|y m IHm]; [by destruct (p x)|]. cbn. rewrite Hq by left.
    rewrite IHm by (intros z ?; apply Hq; by right). by destruct (p x). }
  by destruct (p x).
Qed.

Lemma flat_map_ext_in {A B} (f g : A -> list B) l : (forall x, x ∈ l -> f x = g x) -> flat_map f l = flat_map g l.
Proof.
  induction l as [|x l IH]; intros H; [done|]. cbn. rewrite H by left. f_equal. apply IH. intros y ?. apply H. by right.
Qed.

Lemma flat_map_swap {A B C} (f : A -> B -> list C) xs ys :
  flat_map (fun x => flat_map (f x) ys) xs ≡ₚ flat_map (fun y => flat_map (fun x => f x y) xs) ys.
Proof.
  induction xs as [|x xs IH]; cbn.
  - induction ys as [|y ys IH]; [done|]. by cbn.
  - rewrite IH. clear IH. induction ys as [|y ys IH]; [done|]. cbn. rewrite <- IH. solve_Permutation.
Qed.

(** The elements in the order of their first occurrences. *)
Definition first_occurrences {A} `{EqDecision A} (l : list A) : list A := reverse (remove_dups (reverse l)).

Section FirstOccurrences.
Context {A : Type} `{EqDecision A}.
Implicit Types (l : list A) (x : A).

Lemma first_occurrences_snoc l x :
  first_occurrences (l ++ [x]) = if decide (x ∈ l) then first_occurrences l else first_occurrences l ++ [x].
Proof.
  unfold first_occurrences. rewrite reverse_snoc. cbn [remove_dups].
  destruct (decide_rel _ x (reverse l)) as [H|H]; rewrite elem_of_reverse in H.
  - by rewrite decide_True.
  - by rewrite decide_False, reverse_cons.
Qed.

Lemma first_occurrences_elem l x : x ∈ first_occurrences l <-> x ∈ l.
Proof. unfold first_occurrences. by rewrite elem_of_reverse, elem_of_remove_dups, elem_of_reverse. Qed.

Lemma first_occurrences_NoDup l : NoDup (first_occurrences l).
Proof. apply NoDup_Permutation_proper with (remove_dups (reverse l)); [apply reverse_Permutation|apply NoDup_remove_dups]. Qed.
End FirstOccurrences.

(** [Iterator::find_map]. *)
Fixpoint find_map {A B} (f : A -> option B) (l : list A) : option B :=
  match l with
  | [] => None
  | x :: l => match f x with Some y => Some y | None => find_map f l end
  end.

Lemma find_map_Some {A B} (f : A -> option B) l y :
  find_map f l = Some y -> exists l1 x l2, l = l1 ++ x :: l2 /\ f x = Some y /\ forall x', x' ∈ l1 -> f x' = None.
Proof.
  induction l as [|x l IH]; [done|]. cbn. destruct (f x) as [z|] eqn:E.
  - intros [= ->]. exists [], x, l. split; [done|]. split; [done|]. intros x' Hx'. by apply elem_of_nil in Hx'.
  - intros Hf. destruct (IH Hf) as (l1 & x0 & l2 & -> & Hx & Hno). exists (x :: l1), x0, l2. split; [done|]. split; [done|].
    intros x' [->|Hx']%elem_of_cons; [done|by apply Hno].
Qed.

Lemma find_map_None {A B} (f : A -> option B) l : find_map f l = None -> forall x, x ∈ l -> f x = None.
Proof.
  induction l as [|y l IH]; cbn; intros H x Hx; [by apply elem_of_nil in Hx|]. destruct (f y) eqn:E; [done|].
  apply elem_of_cons in Hx as [->|Hx]; [done|by apply IH].
Qed.

Lemma find_map_elem {A B} (f : A -> option B) l y : find_map f l = Some y -> exists x, x ∈ l /\ f x = Some y.
Proof. intros (l1 & x & l2 & -> & Hx & _)%find_map_Some. exists x. split; [|done]. apply elem_of_app. right. left. Qed.

(** * Stable sorting: [slice::sort_by_key] *)

Section SortBy.
Context {A : Type} (leb : A -> A -> bool).

Fixpoint insert_by (x : A) (l : list A) : list A :=
  match l with
  | [] => [x]
  | y :: l' => if leb x y then x :: l else y :: insert_by x l'
  end.

(** The sorted list, equal elements in their original order. *)
Definition sort_by (l : list A) : list A := foldr insert_by [] l.

Lemma insert_by_perm x l : insert_by x l ≡ₚ x :: l.
Proof.
  induction l as [|y l IH]; [done|]. simpl. destruct (leb x y); [done|]. rewrite IH. apply Permutation_swap.
Qed.

Lemma sort_by_perm l : sort_by l ≡ₚ l.
Proof. induction l as [|x l IH]; [done|]. cbn [sort_by foldr]. fold (sort_by l). by rewrite insert_by_perm, IH. Qed.

(** Elements that are below each other keep their order. *)
Lemma sort_by_stable (f : A -> bool) l :
  (forall x y, f x = true -> f y = true -> leb x y = true) -> List.filter f (sort_by l) = List.filter f l.
Proof.
  intros Hf.
  assert (forall x l, List.filter f (insert_by x l) = List.filter f (x :: l)) as Hins.
  { intros x l0. induction l0 as [|y l0 IH]; [done|]. cbn [insert_by]. destruct (leb x y) eqn:E; [done|].
    cbn [List.filter] in *. rewrite IH. destruct (f y) eqn:Hy, (f x) eqn:Hx; try done. by rewrite Hf in E. }
  induction l as [|x l IH]; [done|]. cbn [sort_by foldr]. fold (sort_by l). rewrite Hins. simpl. by rewrite IH.
Qed.

Hypothesis leb_total : forall x y, leb x y = true \/ leb y x = true.
Hypothesis leb_trans : forall x y z, leb x y = true -> leb y z = true -> leb x z = true.

Lemma insert_by_sorted x l :
  StronglySorted (fun x y => leb x y = true) l -> StronglySorted (fun x y => leb x y = true) (insert_by x l).
Proof.
  induction 1 as [|y l Hl IH Hy]; [repeat constructor|]. simpl. destruct (leb x y) eqn:E.
  - constructor; [by constructor|]. constructor; [done|]. eapply Forall_impl; [exact Hy|].
    intros z ?. by eapply leb_trans.
  - constructor; [done|]. rewrite insert_by_perm. constructor; [|done].
    destruct (leb_total x y) as [?|?]; [congruence|done].
Qed.

Lemma sort_by_sorted l : StronglySorted (fun x y => leb x y = true) (sort_by l).
Proof. induction l as [|x l IH]; [constructor|]. by apply insert_by_sorted. Qed.

(** Elements that are below each other keep the order that they had. *)
Lemma sort_by_lex (R : A -> A -> Prop) l : StronglySorted R l ->
  StronglySorted (fun x y => leb x y = true /\ (leb y x = true -> R x y)) (sort_by l).
Proof.
  assert (forall x l0, Forall (R x) l0 -> StronglySorted (fun x y => leb x y = true /\ (leb y x = true -> R x y)) l0 ->
    StronglySorted (fun x y => leb x y = true /\ (leb y x = true -> R x y)) (insert_by x l0)) as Hins.
  { intros x l0 HR H. induction H as [|y l0 Hl IH Hy]; [repeat constructor|]. cbn [insert_by].
    apply Forall_cons in HR as [HR HRs]. destruct (leb x y) eqn:E.
    - constructor; [by constructor|]. constructor; [done|]. rewrite Forall_forall in *. intros z Hz. split; [|intros _; by apply HRs].
      eapply leb_trans; [exact E|]. by apply Hy.
    - constructor; [by apply IH|]. rewrite insert_by_perm. constructor; [|done]. split; [|congruence]. by destruct (leb_total x y) as [?|?]; [congruence|]. }
  induction 1 as [|x l Hl IH Hx]; [constructor|]. cbn [sort_by foldr]. fold (sort_by l). apply Hins; [|done]. by rewrite sort_by_perm.
Qed.
End SortBy.

Lemma filter_perm {A} (p : A -> bool) (l1 l2 : list A) : l1 ≡ₚ l2 -> List.filter p l1 ≡ₚ List.filter p l2.
Proof. induction 1; cbn; repeat case_match; try done; first [by constructor|by etrans]. Qed.

Lemma strongly_sorted_filter {A} (R : A -> A -> Prop) (f : A -> bool) l : StronglySorted R l -> StronglySorted R (List.filter f l).
Proof.
  induction 1 as [|x l Hs IH Hx]; [constructor|]. cbn. destruct (f x); [|done]. constructor; [done|]. rewrite Forall_forall in *.
  intros y Hy. apply list_elem_of_In, filter_In in Hy as [Hy _]. by apply Hx, list_elem_of_In.
Qed.

Lemma strongly_sorted_lookup {A} (R : A -> A -> Prop) l i j x y : StronglySorted R l -> (i < j)%nat -> l !! i = Some x -> l !! j = Some y -> R x y.
Proof.
  intros Hs. revert i j. induction Hs as [|z l Hs IH Hf]; intros i [|j] Hij Hi Hj; try done; [lia|]. destruct i as [|i].
  - injection Hi as ->. rewrite Forall_forall in Hf. by eapply Hf, list_elem_of_lookup_2.
  - eapply (IH i j); [lia|done|done].
Qed.

Lemma sorted_weaken {A} (R1 R2 : A -> A -> Prop) (l : list A) :
  (forall x y, x ∈ l -> y ∈ l -> R1 x y -> R2 x y) -> StronglySorted R1 l -> StronglySorted R2 l.
Proof.
  intros H Hs. induction Hs as [|x l Hl IH Hx]; [constructor|]. constructor.
  - apply IH. intros y z ? ?. apply H; by right.
  - rewrite Forall_forall in *. intros y Hy. apply H; [left|by right|by apply Hx].
Qed.

(** Two sorted permutations agree when no two elements have one key. *)
Lemma sorted_perm_eq {A} (R : A -> A -> Prop) l1 l2 :
  (forall x y, x ∈ l1 -> y ∈ l1 -> R x y -> R y x -> x = y) ->
  StronglySorted R l1 -> StronglySorted R l2 -> l1 ≡ₚ l2 -> l1 = l2.
Proof.
  intros Hanti H1. revert l2 Hanti. induction H1 as [|x l1 H1 IH Hx]; intros l2 Hanti H2 Hp.
  - by apply Permutation_nil_l in Hp as ->.
  - destruct l2 as [|y l2]; [by apply Permutation_nil_r in Hp|]. inversion H2 as [|? ? H2' Hy]; subst.
    assert (x = y) as <-.
    { assert (x ∈ y :: l2) as Hxin by (rewrite <-Hp; left). assert (y ∈ x :: l1) as Hyin by (rewrite Hp; left).
      apply elem_of_cons in Hxin as [?|Hxin]; [done|]. apply elem_of_cons in Hyin as [?|Hyin]; [done|].
      rewrite Forall_forall in Hx, Hy. apply Hanti; [left|by right|by apply Hx|by apply Hy]. }
    f_equal. apply IH; [|done|by eapply Permutation_cons_inv]. intros a b ? ?. apply Hanti; by right.
Qed.
