(* ===== verification/RustStr.v ===== *)
(** Rust strings as lists of characters, and the functions of the standard
    library's [str] that the program calls.

    A [&str] is a sequence of Unicode scalar values; [str] is the list of their code
    points.  An offset into a text is counted in characters.  The program uses a byte
    offset only to slice the text the offset came from, so the unit does not show, and
    where a byte length matters it is [utf8_len]. *)

From Stdlib Require Import Ascii String.
From S2P Require Import Prelude.

Notation char := Z (only parsing).
Notation str := (list Z).

(** A string literal of the source. *)
Definition lit (s : string) : str :=
  (fun c => Z.of_N (N_of_ascii c)) <$> list_ascii_of_string s.

Definition c_lf : char := 10.
Definition c_cr : char := 13.
Definition c_space : char := 32.
Definition c_dquote : char := 34.
Definition c_squote : char := 39.
Definition c_dot : char := 46.
Definition c_slash : char := 47.
Definition c_backslash : char := 92.

(** The scalar values: what a [char] holds. *)
Definition is_scalar (c : Z) : bool :=
  ((0 <=? c) && (c <? 0xD800) || (0xE000 <=? c) && (c <=? 0x10FFFF))%Z.

Definition is_str (s : str) : Prop := Forall (fun c => is_scalar c = true) s.

(** [char::len_utf8] and [str::len]. *)
Definition utf8_width (c : char) : nat :=
  if (c <? 0x80)%Z then 1 else if (c <? 0x800)%Z then 2 else if (c <? 0x10000)%Z then 3 else 4.
Definition utf8_len (s : str) : nat := sum_list_with utf8_width s.

(** * Prefixes and searching *)

Section Pattern.
Context {A : Type} `{EqDecision A}.

(** [str::strip_prefix]. *)
Fixpoint strip_prefix (p s : list A) : option (list A) :=
  match p, s with
  | [], _ => Some s
  | x :: p', y :: s' => if decide (x = y) then strip_prefix p' s' else None
  | _ :: _, [] => None
  end.

(** [str::starts_with]. *)
Definition starts_with (p s : list A) : bool :=
  match strip_prefix p s with Some _ => true | None => false end.

(** [str::find] of a text: the offset of its first occurrence. *)
Fixpoint find_str (p s : list A) : option nat :=
  if starts_with p s then Some 0 else
  match s with
  | [] => None
  | _ :: s' => S <$> find_str p s'
  end.

(** [str::contains] of a text. *)
Definition contains (p s : list A) : bool :=
  match find_str p s with Some _ => true | None => false end.

(** [str::split] at a text that is not empty: the leftmost occurrences that do not
    overlap.  [skip] counts the characters of an occurrence still to pass over. *)
Fixpoint split_str_from (p : list A) (acc : list A) (skip : nat) (s : list A) : list (list A) :=
  match s with
  | [] => [reverse acc]
  | c :: s' =>
      match skip with
      | S k => split_str_from p acc k s'
      | O => if starts_with p s then reverse acc :: split_str_from p [] (pred (length p)) s'
             else split_str_from p (c :: acc) 0 s'
      end
  end.
Definition split_str (p s : list A) : list (list A) := split_str_from p [] 0 s.

(** [str::match_indices] of a text that is not empty: the offsets of the occurrences at
    which [split] cuts. *)
Fixpoint match_indices_from (p : list A) (at_ : nat) (skip : nat) (s : list A) : list nat :=
  match s with
  | [] => []
  | c :: s' =>
      match skip with
      | S k => match_indices_from p (S at_) k s'
      | O => if starts_with p s then at_ :: match_indices_from p (S at_) (pred (length p)) s'
             else match_indices_from p (S at_) 0 s'
      end
  end.
Definition match_indices (p s : list A) : list nat := match_indices_from p 0 0 s.

(** [str::split] at each character that [f] selects. *)
Fixpoint split_on (f : A -> bool) (s : list A) : list (list A) :=
  match s with
  | [] => [[]]
  | c :: s' =>
      if f c then [] :: split_on f s'
      else match split_on f s' with
           | w :: ws => (c :: w) :: ws
           | [] => [[c]]
           end
  end.

(** [slice::join]. *)
Fixpoint join_with (sep : list A) (parts : list (list A)) : list A :=
  match parts with
  | [] => []
  | [p] => p
  | p :: rest => p ++ sep ++ join_with sep rest
  end.

(** [str::trim_start_matches] of a character class, and the two other trims. *)
Fixpoint trim_start (f : A -> bool) (s : list A) : list A :=
  match s with
  | c :: s' => if f c then trim_start f s' else s
  | [] => []
  end.
Definition trim_end_of (f : A -> bool) (s : list A) : list A := reverse (trim_start f (reverse s)).
Definition trim (f : A -> bool) (s : list A) : list A := trim_end_of f (trim_start f s).

Fixpoint take_while (f : A -> bool) (s : list A) : list A :=
  match s with
  | c :: s' => if f c then c :: take_while f s' else []
  | [] => []
  end.

(** [slice::partition_point], for a slice that the predicate partitions. *)
Definition partition_point (f : A -> bool) (s : list A) : nat := length (take_while f s).

(** [Iterator::any] and [Iterator::all]. *)
Definition any (f : A -> bool) (s : list A) : bool := existsb f s.
Definition all (f : A -> bool) (s : list A) : bool := forallb f s.

(** The number of the characters that [f] selects. *)
Definition count (f : A -> bool) (s : list A) : nat := length (List.filter f s).

End Pattern.
Arguments starts_with : simpl never.

(** A character class that holds one character. *)
Definition is_char (c d : char) : bool := (c =? d)%Z.
Arguments is_char : simpl never.

(** [str::split] at one character. *)
Definition split_char (c : char) (s : str) : list str := split_on (is_char c) s.

(** [str::ends_with] of one character. *)
Definition ends_with_char (f : char -> bool) (s : str) : bool :=
  match last s with Some c => f c | None => false end.

(** * Lemmas *)

Section PatternLemmas.
Context {A : Type} `{EqDecision A}.
Implicit Types (p s r : list A) (f : A -> bool).

Lemma strip_prefix_Some p s r : strip_prefix p s = Some r <-> s = p ++ r.
Proof.
  revert s; induction p as [|x p IH]; intros [|y s]; simpl; try naive_solver.
  case_decide; subst; [rewrite IH|]; naive_solver.
Qed.

Lemma strip_prefix_app p r : strip_prefix p (p ++ r) = Some r.
Proof. by apply strip_prefix_Some. Qed.

Lemma starts_with_spec p s : starts_with p s = true <-> p `prefix_of` s.
Proof.
  unfold starts_with. split.
  - destruct (strip_prefix p s) as [r|] eqn:E; [|done].
    intros _. exists r. by apply strip_prefix_Some.
  - intros [r ->]. by rewrite strip_prefix_app.
Qed.

Lemma starts_with_false p s : starts_with p s = false <-> ~ p `prefix_of` s.
Proof. rewrite <-starts_with_spec. by destruct (starts_with p s). Qed.

Lemma starts_with_app p r : starts_with p (p ++ r) = true.
Proof. apply starts_with_spec. by exists r. Qed.

Lemma starts_with_cons x p y s :
  starts_with (x :: p) (y :: s) = bool_decide (x = y) && starts_with p s.
Proof. unfold starts_with. simpl. case_decide; by case_bool_decide. Qed.

Lemma find_str_Some p s n :
  find_str p s = Some n <->
  p `prefix_of` drop n s /\ n <= length s /\ forall m, m < n -> ~ p `prefix_of` drop m s.
Proof.
  revert n; induction s as [|c s IH]; intros n; simpl.
  - destruct (starts_with p []) eqn:E.
    + apply starts_with_spec in E. split.
      * intros [= <-]. repeat split; [done|simpl; lia|lia].
      * intros (_ & Hn & _). f_equal. lia.
    + apply starts_with_false in E. split; [done|].
      intros (Hp & Hn & _). rewrite drop_nil in Hp. done.
  - destruct (starts_with p (c :: s)) eqn:E.
    + apply starts_with_spec in E. split.
      * intros [= <-]. repeat split; [done|simpl; lia|lia].
      * intros (_ & _ & Hn). destruct n as [|n]; [done|].
        exfalso. by apply (Hn 0); [lia|].
    + apply starts_with_false in E. rewrite fmap_Some. setoid_rewrite IH. split.
      * intros (m & (Hp & Hm & Hlt) & ->). repeat split; [done|simpl; lia|].
        intros [|k] Hk; simpl; [done|apply Hlt; lia].
      * intros (Hp & Hm & Hlt). destruct n as [|n]; [done|].
        exists n. repeat split; [done|simpl in Hm; lia|].
        intros m Hmn. apply (Hlt (S m)). lia.
Qed.

Lemma find_str_None p s : find_str p s = None <-> forall n, n <= length s -> ~ p `prefix_of` drop n s.
Proof.
  induction s as [|c s IH]; simpl.
  - destruct (starts_with p []) eqn:E.
    + apply starts_with_spec in E. split; [done|]. intros H. by destruct (H 0 ltac:(lia)).
    + apply starts_with_false in E. split; [|done]. intros _ n ?. by rewrite drop_nil.
  - destruct (starts_with p (c :: s)) eqn:E.
    + apply starts_with_spec in E. split; [done|]. intros H. by destruct (H 0 ltac:(lia)).
    + apply starts_with_false in E. rewrite fmap_None, IH. split.
      * intros H [|n] Hn; simpl; [done|apply H; lia].
      * intros H n Hn. apply (H (S n)). lia.
Qed.

Lemma contains_spec p s : contains p s = true <-> exists l r, s = l ++ p ++ r.
Proof.
  unfold contains. split.
  - destruct (find_str p s) as [n|] eqn:E; [|done]. intros _.
    apply find_str_Some in E as ([r Hr] & _ & _).
    exists (take n s), r. by rewrite <-Hr, take_drop.
  - intros (l & r & ->). destruct (find_str p (l ++ p ++ r)) eqn:E; [done|].
    exfalso. apply (proj1 (find_str_None _ _) E (length l)); [rewrite length_app; lia|].
    rewrite drop_app_length. by exists r.
Qed.

Lemma contains_cons p c s : contains p (c :: s) = starts_with p (c :: s) || contains p s.
Proof. unfold contains. simpl. destruct (starts_with _ _); [done|]. by destruct (find_str p s). Qed.

(** ** Splitting at a class and joining *)

Lemma split_on_nonempty f s : split_on f s <> [].
Proof. destruct s as [|c s]; simpl; [congruence|]. destruct (f c), (split_on f s); congruence. Qed.

Lemma split_on_free f s : Forall (Forall (fun c => f c = false)) (split_on f s).
Proof.
  induction s as [|c s IH]; simpl; [by repeat constructor|].
  destruct (f c) eqn:E; [by constructor|].
  destruct (split_on f s) as [|w ws]; [by repeat constructor|].
  apply Forall_cons in IH as [? ?]. by repeat constructor.
Qed.

Lemma split_on_of_free f s : Forall (fun c => f c = false) s -> split_on f s = [s].
Proof. induction 1 as [|c s Hc _ IH]; simpl; [done|]. by rewrite Hc, IH. Qed.

Lemma split_on_app f w c s :
  Forall (fun c => f c = false) w -> f c = true ->
  split_on f (w ++ c :: s) = w :: split_on f s.
Proof.
  induction 1 as [|d w Hd _ IH]; intros Hc; simpl; [by rewrite Hc|].
  by rewrite Hd, IH.
Qed.

Lemma join_with_cons (sep p : list A) parts :
  parts <> [] -> join_with sep (p :: parts) = p ++ sep ++ join_with sep parts.
Proof. by destruct parts. Qed.

Lemma join_with_app (sep : list A) l1 l2 :
  l1 <> [] -> l2 <> [] -> join_with sep (l1 ++ l2) = join_with sep l1 ++ sep ++ join_with sep l2.
Proof.
  intros H1 H2. induction l1 as [|p l1 IH]; [done|].
  destruct l1 as [|q l1]; [by apply join_with_cons|].
  change ((p :: q :: l1) ++ l2) with (p :: ((q :: l1) ++ l2)).
  rewrite !join_with_cons by done. rewrite IH by done. by rewrite <-!app_assoc.
Qed.

Lemma trim_start_suffix f s : exists p, s = p ++ trim_start f s /\ Forall (fun c => f c = true) p.
Proof.
  induction s as [|c s (p & Hp & Hf)]; simpl; [by exists []|].
  destruct (f c) eqn:E; [|by exists []].
  exists (c :: p). simpl. split; [by f_equal|by constructor].
Qed.

Lemma trim_start_id f c s : f c = false -> trim_start f (c :: s) = c :: s.
Proof. simpl. by intros ->. Qed.

Lemma trim_start_free f s : Forall (fun c => f c = false) s -> trim_start f s = s.
Proof. destruct 1 as [|c s Hc]; [done|]. by apply trim_start_id. Qed.

Lemma trim_end_free f s : Forall (fun c => f c = false) s -> trim_end_of f s = s.
Proof.
  intros H. unfold trim_end_of. rewrite trim_start_free; [by rewrite reverse_involutive|].
  by apply Forall_reverse.
Qed.

Lemma trim_free f s : Forall (fun c => f c = false) s -> trim f s = s.
Proof. intros H. unfold trim. by rewrite trim_start_free, trim_end_free. Qed.

Lemma trim_start_all f s : trim_start f s = [] <-> Forall (fun c => f c = true) s.
Proof.
  induction s as [|c s IH]; simpl; [by split|].
  destruct (f c) eqn:E; rewrite ?IH, Forall_cons; naive_solver congruence.
Qed.

Lemma trim_start_head f s c r : trim_start f s = c :: r -> f c = false.
Proof. induction s as [|d s IH]; simpl; [done|]. destruct (f d) eqn:E; naive_solver. Qed.

Lemma any_spec f s : any f s = true <-> exists c, c ∈ s /\ f c = true.
Proof. unfold any. rewrite existsb_exists. by setoid_rewrite list_elem_of_In. Qed.

Lemma any_false f s : any f s = false <-> Forall (fun c => f c = false) s.
Proof.
  unfold any. induction s as [|c s IH]; simpl; [done|].
  rewrite orb_false_iff, IH, Forall_cons. done.
Qed.

Lemma all_spec f s : all f s = true <-> Forall (fun c => f c = true) s.
Proof.
  unfold all. induction s as [|c s IH]; simpl; [done|].
  rewrite andb_true_iff, IH, Forall_cons. done.
Qed.

Lemma count_app f s1 s2 : count f (s1 ++ s2) = count f s1 + count f s2.
Proof. unfold count. by rewrite List.filter_app, length_app. Qed.

Lemma count_free f s : Forall (fun c => f c = false) s -> count f s = 0.
Proof. unfold count. induction 1 as [|c s Hc _ IH]; simpl; [done|]. by rewrite Hc. Qed.

(** ** Splitting at a text *)

Lemma split_str_from_skip p acc k l s :
  length l = k -> split_str_from p acc k (l ++ s) = split_str_from p acc 0 s.
Proof. revert k; induction l as [|c l IH]; intros k <-; simpl; [done|]. by apply IH. Qed.

(** One piece: no occurrence starts in [w] before the one at its end. *)
Lemma split_str_from_app p acc w s :
  p <> [] ->
  (forall n, n < length w -> ~ p `prefix_of` drop n (w ++ p ++ s)) ->
  split_str_from p acc 0 (w ++ p ++ s) = (reverse acc ++ w) :: split_str_from p [] 0 s.
Proof.
  intros Hp. revert acc. induction w as [|c w IH]; intros acc Hno; simpl app.
  - destruct p as [|x p]; [done|]. simpl app.
    change (split_str_from (x :: p) acc 0 (x :: p ++ s)) with
      (if starts_with (x :: p) (x :: p ++ s) then
         reverse acc :: split_str_from (x :: p) [] (length p) (p ++ s)
       else split_str_from (x :: p) (x :: acc) 0 (p ++ s)).
    rewrite (starts_with_app (x :: p) s : starts_with (x :: p) (x :: p ++ s) = true).
    by rewrite split_str_from_skip, app_nil_r.
  - cbn [split_str_from].
    rewrite (proj2 (starts_with_false p (c :: w ++ p ++ s))).
    + rewrite IH.
      * by rewrite reverse_cons, <-app_assoc.
      * intros n Hn. apply (Hno (S n)). simpl. lia.
    + apply (Hno 0). simpl. lia.
Qed.

Lemma split_str_from_last p acc w :
  (forall n, n < length w -> ~ p `prefix_of` drop n w) ->
  split_str_from p acc 0 w = [reverse acc ++ w].
Proof.
  revert acc. induction w as [|c w IH]; intros acc Hno; simpl.
  - by rewrite app_nil_r.
  - rewrite (proj2 (starts_with_false p (c :: w))).
    + rewrite IH.
      * by rewrite reverse_cons, <-app_assoc.
      * intros n Hn. apply (Hno (S n)). simpl. lia.
    + apply (Hno 0). simpl. lia.
Qed.

Lemma split_str_nonempty p s : split_str p s <> [].
Proof.
  unfold split_str. generalize (@nil A) at 1 as acc. generalize 0 as k.
  induction s as [|c s IH]; intros k acc; simpl; [done|].
  destruct k; [|apply IH].
  destruct (starts_with p (c :: s)); [congruence|apply IH].
Qed.
End PatternLemmas.

(** ** Splitting at one character *)

Definition char_free (c : char) (s : str) : Prop := Forall (fun d => is_char c d = false) s.

Lemma is_char_true c d : is_char c d = true <-> c = d.
Proof. apply Z.eqb_eq. Qed.
Lemma is_char_refl c : is_char c c = true.
Proof. apply Z.eqb_refl. Qed.
Lemma is_char_false c d : is_char c d = false <-> c <> d.
Proof. apply Z.eqb_neq. Qed.

Lemma split_char_free c s : Forall (char_free c) (split_char c s).
Proof. apply split_on_free. Qed.

Lemma split_char_nonempty c s : split_char c s <> [].
Proof. apply split_on_nonempty. Qed.

Lemma join_split_char c s : join_with [c] (split_char c s) = s.
Proof.
  unfold split_char. induction s as [|d s IH]; simpl; [done|].
  destruct (is_char c d) eqn:E.
  - apply is_char_true in E as <-.
    rewrite join_with_cons by apply split_on_nonempty. simpl. by rewrite IH.
  - destruct (split_on (is_char c) s) as [|w ws]; simpl in *; [by subst|].
    destruct ws; simpl in *; by subst.
Qed.

Lemma split_join_char c parts :
  parts <> [] -> Forall (char_free c) parts -> split_char c (join_with [c] parts) = parts.
Proof.
  intros Hne Hf. unfold split_char. induction Hf as [|p parts Hp Hf IH]; [done|].
  destruct parts as [|q parts]; simpl.
  - by apply split_on_of_free.
  - rewrite split_on_app by (done || apply is_char_refl). f_equal. by apply IH.
Qed.

Lemma split_char_app c w s : char_free c w -> split_char c (w ++ c :: s) = w :: split_char c s.
Proof. intros. apply split_on_app; [done|apply is_char_refl]. Qed.

Lemma count_join_char c parts :
  parts <> [] -> Forall (char_free c) parts ->
  S (count (is_char c) (join_with [c] parts)) = length parts.
Proof.
  intros Hne Hf. induction Hf as [|p parts Hp Hf IH]; [done|].
  destruct parts as [|q parts].
  - simpl. by rewrite count_free.
  - rewrite join_with_cons by done.
    rewrite !count_app, (count_free _ p Hp).
    unfold count at 1. simpl. rewrite is_char_refl. simpl.
    specialize (IH ltac:(done)). simpl in *. lia.
Qed.

Lemma count_split_char c s : S (count (is_char c) s) = length (split_char c s).
Proof.
  rewrite <-(join_split_char c s) at 1.
  apply count_join_char; [apply split_char_nonempty|apply split_char_free].
Qed.

(** [str::split_once] at a character. *)
Fixpoint split_once (c : char) (s : str) : option (str * str) :=
  match s with
  | [] => None
  | d :: rest =>
      if is_char c d then Some ([], rest)
      else '(before, after) ← split_once c rest; Some (d :: before, after)
  end.

Lemma split_once_free c w s : char_free c w -> split_once c (w ++ c :: s) = Some (w, s).
Proof.
  induction 1 as [|d w Hd _ IH]; cbn [split_once app]; [by rewrite is_char_refl|]. rewrite Hd, IH. done.
Qed.

(** A prefix of one element. *)
Lemma prefix_single {A} (c : A) at_ (l : list A) : [c] `prefix_of` drop at_ l <-> l !! at_ = Some c.
Proof.
  split.
  - intros [r Hr]. rewrite <- (Nat.add_0_r at_), <- lookup_drop, Hr. done.
  - intros Hm. exists (drop (S at_) l). by rewrite (drop_S _ _ _ Hm).
Qed.

Arguments lit : simpl never.

(** Proves that every character of a literal is in a class. *)
Ltac lit_forall := vm_compute; repeat constructor.

(** * Formatting numbers *)

Definition hex_digit (d : Z) : char := (if d <? 10 then 48 + d else 87 + d)%Z.

(** The digits of [n] in [base] below the accumulated ones; [steps] bounds their number. *)
Fixpoint digits_go (base : Z) (steps : nat) (n : Z) (acc : list Z) : list Z :=
  match steps with
  | O => acc
  | S rest =>
      if (n <? base)%Z then n :: acc
      else digits_go base rest (n / base)%Z ((n mod base)%Z :: acc)
  end.

(** The digits of [n], the most significant first; one digit for zero. *)
Definition digits_of (base n : Z) : list Z := digits_go base (S (Z.to_nat (Z.log2 n))) n [].

(** [{n}]: the decimal text of a number that is not negative. *)
Definition dec_text (n : Z) : str := (fun d => 48 + d)%Z <$> digits_of 10 n.
Definition nat_text (n : nat) : str := dec_text (Z.of_nat n).

(** [{n:0wx}]: lowercase hexadecimal, padded with zeros to [width]. *)
Definition hex_padded (width : nat) (n : Z) : str :=
  let text := hex_digit <$> digits_of 16 n in replicate (width - length text) 48%Z ++ text.

(** The number that a list of digits spells. *)
Definition value_of (base : Z) (digits : list Z) : Z :=
  fold_left (fun v d => v * base + d)%Z digits 0%Z.

Lemma value_of_single base d : value_of base [d] = d.
Proof. unfold value_of. simpl. lia. Qed.

Lemma value_of_app base l d : value_of base (l ++ [d]) = (value_of base l * base + d)%Z.
Proof. unfold value_of. by rewrite fold_left_app. Qed.

Lemma fold_value base l v :
  fold_left (fun v d => v * base + d)%Z l v = (v * base ^ Z.of_nat (length l) + value_of base l)%Z.
Proof.
  unfold value_of. revert v. induction l as [|d l IH]; intros v; simpl fold_left; simpl length.
  - rewrite Z.pow_0_r. lia.
  - rewrite (IH (v * base + d)%Z), (IH (0 * base + d)%Z).
    rewrite Nat2Z.inj_succ, Z.pow_succ_r by lia. ring.
Qed.

Lemma value_of_cons base d l :
  value_of base (d :: l) = (d * base ^ Z.of_nat (length l) + value_of base l)%Z.
Proof. unfold value_of at 1. simpl. rewrite fold_value. lia. Qed.

Section Digits.
Local Open Scope Z_scope.

Lemma digits_go_spec base steps n acc :
  2 <= base -> 0 <= n < 2 ^ Z.of_nat steps -> (steps <> 0)%nat ->
  exists l, digits_go base steps n acc = l ++ acc /\ l <> [] /\ value_of base l = n /\
    Forall (fun d => 0 <= d < base) l /\ (n <> 0 -> head l <> Some 0).
Proof.
  intros Hb. revert n acc. induction steps as [|steps IH]; intros n acc Hn Hs; [done|].
  cbn [digits_go]. destruct (Z.ltb_spec n base).
  - exists [n]. split; [done|]. split; [done|]. split; [apply value_of_single|].
    split; [repeat constructor; lia|]. simpl. intros ? [= ?]. lia.
  - assert (n / base <= n / 2) by (apply Z.div_le_compat_l; lia).
    assert (2 * 2 ^ Z.of_nat steps = 2 ^ Z.of_nat (S steps)) as Hpow
      by (rewrite Nat2Z.inj_succ, Z.pow_succ_r; lia).
    assert (n / 2 < 2 ^ Z.of_nat steps) by (apply Z.div_lt_upper_bound; lia).
    assert (0 < n / base) by (apply Z.div_str_pos; lia).
    destruct steps as [|steps'].
    { change (2 ^ Z.of_nat 1) with 2 in Hn. lia. }
    destruct (IH (n / base) (n mod base :: acc)) as (l & -> & Hne & Hv & Hf & Hh); [lia|done|].
    exists (l ++ [n mod base]). rewrite <-app_assoc. split; [done|]. split; [by destruct l|].
    split; [|split].
    + rewrite value_of_app, Hv. pose proof (Z.div_mod n base). lia.
    + apply Forall_app; split; [done|]. constructor; [|done]. apply Z.mod_pos_bound. lia.
    + intros _. destruct l; [done|]. simpl in *. apply Hh. lia.
Qed.

Lemma digits_of_spec base n :
  2 <= base -> 0 <= n ->
  digits_of base n <> [] /\ value_of base (digits_of base n) = n /\
  Forall (fun d => 0 <= d < base) (digits_of base n) /\
  (n <> 0 -> head (digits_of base n) <> Some 0).
Proof.
  intros Hb Hn. unfold digits_of.
  destruct (digits_go_spec base (S (Z.to_nat (Z.log2 n))) n []) as (l & -> & H); [done| |done|].
  - split; [done|]. rewrite Nat2Z.inj_succ, Z2Nat.id by apply Z.log2_nonneg.
    destruct (decide (n = 0)) as [->|]; [done|]. by apply Z.log2_spec; lia.
  - by rewrite app_nil_r.
Qed.

Lemma value_of_bound base l :
  2 <= base -> Forall (fun d => 0 <= d < base) l -> 0 <= value_of base l < base ^ Z.of_nat (length l).
Proof.
  intros Hb. induction l as [|d l IH] using rev_ind; intros Hf.
  { change (0 <= 0 < base ^ 0). rewrite Z.pow_0_r. lia. }
  apply Forall_app in Hf as [Hl Hd]. apply Forall_cons in Hd as [Hd _]. specialize (IH Hl).
  rewrite value_of_app, length_app, Nat2Z.inj_add, Z.pow_add_r, Z.pow_1_r by lia. nia.
Qed.

(** Digits without a leading zero are as many as the number needs. *)
Lemma value_of_lower base d l :
  2 <= base -> 0 < d < base -> Forall (fun d => 0 <= d < base) l ->
  base ^ Z.of_nat (length l) <= value_of base (d :: l).
Proof.
  intros Hb Hd Hf. rewrite value_of_cons. pose proof (value_of_bound base l Hb Hf).
  assert (0 < base ^ Z.of_nat (length l)) by (apply Z.pow_pos_nonneg; lia). nia.
Qed.

Lemma digits_of_0 base : 0 < base -> digits_of base 0 = [0].
Proof. intros. unfold digits_of. cbn [digits_go]. by rewrite (proj2 (Z.ltb_lt 0 base)). Qed.

(** The length of a number's digits, when it is between two powers. *)
Lemma length_digits_of base n k :
  2 <= base -> 0 <= n -> n < base ^ Z.of_nat k -> (0 < k)%nat -> (length (digits_of base n) <= k)%nat.
Proof.
  intros Hb Hn Hk Hk0. destruct (digits_of_spec base n Hb Hn) as (Hne & Hv & Hf & Hh).
  destruct (digits_of base n) as [|d l] eqn:E; [done|]. simpl.
  destruct (decide (n = 0)) as [Hn0|Hn0].
  - rewrite Hn0, digits_of_0 in E by lia. injection E as <- <-. simpl. lia.
  - apply Forall_cons in Hf as [Hd Hf].
    assert (d <> 0) by (intros ->; by apply Hh). 
    pose proof (value_of_lower base d l Hb ltac:(lia) Hf).
    assert (base ^ Z.of_nat (length l) < base ^ Z.of_nat k) as Hlt by lia.
    apply Z.pow_lt_mono_r_iff in Hlt; lia.
Qed.
End Digits.

(** ** Searching a text across a separator that the pattern does not contain *)

Section Separator.
Context {A : Type} `{EqDecision A}.
Implicit Types (p s w : list A).

Lemma starts_with_sep p w c s : c ∉ p -> starts_with p (w ++ c :: s) = starts_with p w.
Proof.
  revert w. induction p as [|x p IH]; intros w Hc; [by destruct w|].
  apply not_elem_of_cons in Hc as [Hx Hc]. destruct w as [|y w]; simpl app.
  - rewrite starts_with_cons, bool_decide_eq_false_2 by congruence. done.
  - rewrite !starts_with_cons, IH by done. done.
Qed.

Lemma contains_sep p w c s : c ∉ p -> contains p (w ++ c :: s) = contains p w || contains p s.
Proof.
  intros Hc. induction w as [|y w IH]; simpl app.
  - rewrite contains_cons. rewrite (starts_with_sep p [] c s Hc : starts_with p (c :: s) = _).
    unfold contains at 2. simpl. by destruct (starts_with p []).
  - rewrite !contains_cons, IH. rewrite (starts_with_sep p (y :: w) c s Hc : starts_with p (y :: w ++ c :: s) = _).
    by rewrite orb_assoc.
Qed.

Lemma contains_drop p w n : contains p w = false -> starts_with p (drop n w) = false.
Proof.
  intros Hc. apply starts_with_false. intros [r Hr].
  assert (contains p w = true); [|congruence].
  apply contains_spec. exists (take n w), r. by rewrite <-Hr, take_drop.
Qed.

Lemma split_str_free p w : contains p w = false -> split_str p w = [w].
Proof.
  intros Hc. unfold split_str. rewrite split_str_from_last; [done|].
  intros n _. apply starts_with_false. by apply contains_drop.
Qed.

(** A piece that ends in a separator, then the pattern. *)
Lemma split_str_sep p w c s :
  p <> [] -> c ∉ p -> contains p w = false ->
  split_str p (w ++ c :: p ++ s) = (w ++ [c]) :: split_str p s.
Proof.
  intros Hp Hc Hw. replace (w ++ c :: p ++ s) with ((w ++ [c]) ++ p ++ s) by by rewrite <-app_assoc.
  unfold split_str at 1. rewrite split_str_from_app; [done|done|].
  intros n Hn. apply starts_with_false. rewrite length_app in Hn. simpl in Hn.
  rewrite <-app_assoc, drop_app_le by lia.
  change ([c] ++ p ++ s) with (c :: (p ++ s)). rewrite starts_with_sep by done. by apply contains_drop.
Qed.
End Separator.

(** * Runs of a class *)

(** The text does not go on with the class. *)
Definition stops {A} (f : A -> bool) (s : list A) : Prop :=
  match s with c :: _ => f c = false | [] => True end.

Lemma take_while_app {A} (f : A -> bool) w s :
  Forall (fun c => f c = true) w -> stops f s -> take_while f (w ++ s) = w.
Proof.
  intros Hw Hs. induction Hw as [|c w Hc _ IH]; [|cbn; rewrite Hc; by f_equal].
  destruct s as [|c s]; [done|]. cbn. by rewrite Hs.
Qed.

Lemma take_while_split {A} (f : A -> bool) s :
  exists rest, s = take_while f s ++ rest /\ Forall (fun c => f c = true) (take_while f s) /\ stops f rest.
Proof.
  induction s as [|c s (rest & E & Hf & Hr)]; [by exists []|]. cbn. destruct (f c) eqn:Hc.
  - exists rest. split; [by rewrite E at 1|]. split; [by constructor|done].
  - exists (c :: s). done.
Qed.
