(* ===== verification/Ordered.v ===== *)
(** The order of byte strings, and the ordered map of the standard library.

    Rust compares [str] and byte slices byte by byte, a prefix first.  A [BTreeMap] keyed by
    strings is a [gmap] here, whose iteration is its list of entries sorted by key. *)

From S2P Require Import Prelude RustStr.
Local Open Scope Z_scope.

(** * The order of bytes *)

Fixpoint bytes_le (a b : list Z) : bool :=
  match a, b with
  | [], _ => true
  | _ :: _, [] => false
  | x :: a', y :: b' => if x <? y then true else if x =? y then bytes_le a' b' else false
  end.

Lemma bytes_le_prefix p a b : bytes_le (p ++ a) (p ++ b) = bytes_le a b.
Proof. induction p as [|x p IH]; [done|]. cbn. by rewrite Z.ltb_irrefl, Z.eqb_refl. Qed.

Lemma bytes_le_refl a : bytes_le a a = true.
Proof. induction a as [|x a IH]; [done|]. cbn. by rewrite Z.ltb_irrefl, Z.eqb_refl. Qed.

Lemma bytes_le_total a b : bytes_le a b = true \/ bytes_le b a = true.
Proof.
  revert b. induction a as [|x a IH]; intros [|y b]; cbn; auto.
  destruct (Z.ltb_spec x y), (Z.ltb_spec y x), (Z.eqb_spec x y), (Z.eqb_spec y x); auto; lia.
Qed.

Lemma bytes_le_trans a b c : bytes_le a b = true -> bytes_le b c = true -> bytes_le a c = true.
Proof.
  revert b c. induction a as [|x a IH]; intros [|y b] [|z c]; cbn; try done.
  destruct (Z.ltb_spec x y), (Z.ltb_spec y z), (Z.ltb_spec x z), (Z.eqb_spec x y), (Z.eqb_spec y z), (Z.eqb_spec x z);
    try done; try lia. apply IH.
Qed.

Lemma bytes_le_antisym a b : bytes_le a b = true -> bytes_le b a = true -> a = b.
Proof.
  revert b. induction a as [|x a IH]; intros [|y b]; cbn; try done.
  destruct (Z.ltb_spec x y), (Z.ltb_spec y x), (Z.eqb_spec x y), (Z.eqb_spec y x); try done; try lia.
  intros H1 H2. subst. f_equal. by apply IH.
Qed.

(** * Sorted strings *)

(** [slice::sort_unstable] of strings; equal strings are indistinguishable. *)
Definition sort_strings (l : list str) : list str := sort_by bytes_le l.

(** [Vec::dedup]: of equal neighbours the first stays. *)
Fixpoint dedup {A} `{EqDecision A} (l : list A) : list A :=
  match l with
  | x :: (y :: _) as l' => if decide (x = y) then dedup l' else x :: dedup l'
  | _ => l
  end.

Notation sorted_strings := (StronglySorted (fun a b => bytes_le a b = true)).

Lemma sort_strings_perm l : sort_strings l ≡ₚ l.
Proof. apply sort_by_perm. Qed.

Lemma sort_strings_sorted l : sorted_strings (sort_strings l).
Proof. apply sort_by_sorted; [apply bytes_le_total|apply bytes_le_trans]. Qed.

Lemma sort_strings_elem l x : x ∈ sort_strings l <-> x ∈ l.
Proof. by rewrite sort_strings_perm. Qed.

(** Sorting forgets the order. *)
Lemma sort_strings_permutation l1 l2 : l1 ≡ₚ l2 -> sort_strings l1 = sort_strings l2.
Proof.
  intros Hp. apply (sorted_perm_eq (fun a b => bytes_le a b = true)).
  - intros x y _ _. apply bytes_le_antisym.
  - apply sort_strings_sorted.
  - apply sort_strings_sorted.
  - by rewrite !sort_strings_perm.
Qed.

Lemma dedup_elem {A} `{EqDecision A} (l : list A) x : x ∈ dedup l <-> x ∈ l.
Proof.
  induction l as [|y l IH]; [done|]. destruct l as [|z l]; [done|].
  change (dedup (y :: z :: l)) with (if decide (y = z) then dedup (z :: l) else y :: dedup (z :: l)).
  destruct (decide (y = z)) as [<-|].
  - rewrite IH. split; [by right|]. rewrite elem_of_cons. intros [->|?]; [left|done].
  - by rewrite !elem_of_cons, IH, elem_of_cons.
Qed.

Lemma dedup_sorted {A} `{EqDecision A} (R : A -> A -> Prop) (l : list A) : StronglySorted R l -> StronglySorted R (dedup l).
Proof.
  induction 1 as [|x l Hl IH Hx]; [constructor|]. destruct l as [|y l]; [by repeat constructor|].
  change (dedup (x :: y :: l)) with (if decide (x = y) then dedup (y :: l) else x :: dedup (y :: l)).
  case_decide; [done|]. constructor; [done|]. rewrite Forall_forall in *. intros z Hz. apply Hx. by apply dedup_elem.
Qed.

(** In a sorted list equal elements are neighbours. *)
Lemma dedup_NoDup {A} `{EqDecision A} (R : A -> A -> Prop) (l : list A) :
  (forall x y, R x y -> R y x -> x = y) -> StronglySorted R l -> NoDup (dedup l).
Proof.
  intros Hanti. induction 1 as [|x l Hl IH Hx]; [constructor|]. destruct l as [|y l]; [by apply NoDup_singleton|].
  change (dedup (x :: y :: l)) with (if decide (x = y) then dedup (y :: l) else x :: dedup (y :: l)).
  destruct (decide (x = y)) as [|Hne]; [done|]. apply NoDup_cons. split; [|done]. rewrite dedup_elem.
  apply Forall_cons in Hx as [Hxy _]. apply StronglySorted_inv in Hl as [_ Hy].
  rewrite elem_of_cons. intros [?|Hin]; [done|]. rewrite Forall_forall in Hy. by apply Hne, Hanti; [|apply Hy].
Qed.

Lemma dedup_sorted_NoDup (l : list str) : sorted_strings l -> NoDup (dedup l).
Proof. apply dedup_NoDup. intros x y. apply bytes_le_antisym. Qed.

(** Tuples of strings and numbers compare as the lists of their fields do; a number is a string of
    one element. *)
Fixpoint keys_le (a b : list (list Z)) : bool :=
  match a, b with
  | [], _ => true
  | _ :: _, [] => false
  | x :: a', y :: b' => if decide (x = y) then keys_le a' b' else bytes_le x y
  end.

Lemma keys_le_refl a : keys_le a a = true.
Proof. induction a as [|x a IH]; [done|]. cbn. by rewrite decide_True. Qed.

Lemma keys_le_total a b : keys_le a b = true \/ keys_le b a = true.
Proof.
  revert b. induction a as [|x a IH]; intros [|y b]; cbn; auto. destruct (decide (x = y)) as [->|Hne].
  - by rewrite decide_True.
  - rewrite decide_False by done. apply bytes_le_total.
Qed.

Lemma keys_le_trans a b c : keys_le a b = true -> keys_le b c = true -> keys_le a c = true.
Proof.
  revert b c. induction a as [|x a IH]; intros [|y b] [|z c]; cbn; try done.
  destruct (decide (x = y)) as [->|Hxy], (decide (y = z)) as [->|Hyz]; intros H1 H2.
  - by eapply IH.
  - exact H2.
  - by rewrite decide_False.
  - rewrite decide_False; [by eapply bytes_le_trans|]. intros ->. by apply Hxy, bytes_le_antisym.
Qed.

Lemma keys_le_antisym a b : keys_le a b = true -> keys_le b a = true -> a = b.
Proof.
  revert b. induction a as [|x a IH]; intros [|y b]; cbn; try done. destruct (decide (x = y)) as [->|Hne].
  - rewrite decide_True by done. intros H1 H2. f_equal. by apply IH.
  - rewrite decide_False by done. intros H1 H2. by destruct Hne; apply bytes_le_antisym.
Qed.

(** The slice of a sorted list between two partition points holds the elements with the key. *)
Definition key_slice {A} (key : A -> str) (k : str) (l : list A) : list A :=
  let start := partition_point (fun x => negb (bytes_le k (key x))) l in
  let end_ := partition_point (fun x => bytes_le (key x) k) l in
  drop start (take end_ l).

Lemma key_slice_filter {A} (key : A -> str) k (l : list A) :
  StronglySorted (fun x y => bytes_le (key x) (key y) = true) l ->
  key_slice key k l = List.filter (fun x => bool_decide (key x = k)) l.
Proof.
  unfold key_slice, partition_point. induction 1 as [|x l Hl IH Hx]; [done|]. cbn [take_while List.filter].
  destruct (bytes_le (key x) k) eqn:E1; cbn [length take].
  - destruct (bytes_le k (key x)) eqn:E2; cbn [negb length drop].
    + assert (key x = k) as Ek by (by apply bytes_le_antisym). rewrite bool_decide_true by done. f_equal.
      rewrite <- IH. assert (take_while (fun x => negb (bytes_le k (key x))) l = []) as ->; [|done].
      destruct l as [|y l]; [done|]. apply Forall_cons in Hx as [Hxy _]. cbn. by rewrite <- Ek, Hxy.
    + rewrite bool_decide_false; [exact IH|]. intros <-. by rewrite bytes_le_refl in E2.
  - destruct (bytes_le_total (key x) k) as [?|E2]; [congruence|]. rewrite E2. cbn.
    rewrite bool_decide_false by (intros Ek; by rewrite Ek, bytes_le_refl in E1).
    symmetry. apply filter_nil_iff_false. intros y Hy. apply list_elem_of_In in Hy. apply bool_decide_eq_false. intros Ey.
    rewrite Forall_forall in Hx. specialize (Hx y Hy). rewrite Ey in Hx. congruence.
Qed.

(** * Ordered maps *)

Section BTree.
Context {V : Type}.
Implicit Types (m : gmap str V).

Definition entry_le (a b : str * V) : bool := bytes_le a.1 b.1.

(** The entries of a [BTreeMap] in key order. *)
Definition btree_iter m : list (str * V) := sort_by entry_le (map_to_list m).

(** [collect] into a [BTreeMap]: a later entry for a key replaces an earlier one. *)
Definition btree_collect (entries : list (str * V)) : gmap str V :=
  foldl (fun m entry => <[entry.1 := entry.2]> m) ∅ entries.

Lemma btree_iter_perm m : btree_iter m ≡ₚ map_to_list m.
Proof. apply sort_by_perm. Qed.

Lemma btree_iter_elem m k v : (k, v) ∈ btree_iter m <-> m !! k = Some v.
Proof. by rewrite btree_iter_perm, elem_of_map_to_list. Qed.

Lemma btree_iter_sorted m : StronglySorted (fun a b => entry_le a b = true) (btree_iter m).
Proof. apply sort_by_sorted; intros *; [apply bytes_le_total|apply bytes_le_trans]. Qed.

Lemma btree_iter_NoDup m : NoDup (btree_iter m).*1.
Proof. rewrite btree_iter_perm. apply NoDup_fst_map_to_list. Qed.

Lemma btree_collect_snoc entries k v : btree_collect (entries ++ [(k, v)]) = <[k := v]> (btree_collect entries).
Proof. unfold btree_collect. by rewrite foldl_app. Qed.
End BTree.

(** * Maps of lists: [entry(k).or_default().push(v)] *)

Section Groups.
Context {V : Type}.
Implicit Types (m : gmap str (list V)) (entries : list (str * V)).

Definition push_entry m (k : str) (v : V) : gmap str (list V) := <[k := default [] (m !! k) ++ [v]]> m.

Definition group_entries entries : gmap str (list V) :=
  foldl (fun m entry => push_entry m entry.1 entry.2) ∅ entries.

Lemma group_entries_snoc entries k v : group_entries (entries ++ [(k, v)]) = push_entry (group_entries entries) k v.
Proof. unfold group_entries. by rewrite foldl_app. Qed.

(** A key has the values pushed under it, in their order. *)
Lemma group_entries_lookup entries k :
  default [] (group_entries entries !! k) = map snd (List.filter (fun entry => bool_decide (entry.1 = k)) entries).
Proof.
  induction entries as [|[k' v] entries IH] using rev_ind; [done|]. rewrite group_entries_snoc, List.filter_app, map_app.
  unfold push_entry. cbn. destruct (decide (k' = k)) as [->|Hne].
  - rewrite lookup_insert_eq, bool_decide_true by done. cbn. by rewrite IH.
  - rewrite lookup_insert_ne, bool_decide_false by done. cbn. by rewrite app_nil_r.
Qed.

Lemma group_entries_Some entries k : is_Some (group_entries entries !! k) <-> k ∈ entries.*1.
Proof.
  induction entries as [|[k' v] entries IH] using rev_ind; [split; [by intros [? ?]|by intros ?%elem_of_nil]|].
  rewrite group_entries_snoc, fmap_app, elem_of_app. unfold push_entry. rewrite lookup_insert_is_Some', IH. cbn.
  rewrite list_elem_of_singleton. naive_solver.
Qed.
End Groups.

(** Sorting by a key that an injective one refines leaves no choice, and removes duplicates. *)
Lemma dedup_by_key {A} `{EqDecision A} (key : A -> list (list Z)) (l : list A) :
  (forall x y, key x = key y -> x = y) ->
  let l' := dedup (sort_by (fun x y => keys_le (key x) (key y)) l) in
  StronglySorted (fun x y => keys_le (key x) (key y) = true) l' /\ NoDup l' /\ forall x, x ∈ l' <-> x ∈ l.
Proof.
  intros Hinj l'. assert (StronglySorted (fun x y => keys_le (key x) (key y) = true)
    (sort_by (fun x y => keys_le (key x) (key y)) l)) as Hs.
  { apply (sort_by_sorted (fun x y => keys_le (key x) (key y))); intros *; [apply keys_le_total|apply keys_le_trans]. }
  split; [by apply dedup_sorted|]. split.
  - eapply dedup_NoDup; [|exact Hs]. intros x y H1 H2. by apply Hinj, keys_le_antisym.
  - intros x. unfold l'. by rewrite dedup_elem, sort_by_perm.
Qed.
