(* ===== verification/Unicode.v ===== *)
(** The Unicode 15.1 character classes of crates/text: the printable rule
    (printable.rs), the word and decimal-digit classes (word.rs) and the identifier
    classes (identifier.rs).  Each class is a sorted table of run bounds that is searched
    with [partition_point]; [in_runs_spec] and [is_printable_spec] show that the parity of
    the search result is membership in a run. *)

From S2P Require Import Prelude RustStr.
From Stdlib Require Import Sorting.Sorted.
Local Open Scope Z_scope.

(** Printable code points: printable.rs. *)

Definition NOT_PRINTABLE_BOUNDS : list Z := [
  0x0; 0x20; 0x7f; 0xa1; 0xad; 0xae; 0x378; 0x37a; 0x380; 0x384; 0x38b; 0x38c; 0x38d; 0x38e;
  0x3a2; 0x3a3; 0x530; 0x531; 0x557; 0x559; 0x58b; 0x58d; 0x590; 0x591; 0x5c8; 0x5d0; 0x5eb;
  0x5ef; 0x5f5; 0x606; 0x61c; 0x61d; 0x6dd; 0x6de; 0x70e; 0x710; 0x74b; 0x74d; 0x7b2; 0x7c0;
  0x7fb; 0x7fd; 0x82e; 0x830; 0x83f; 0x840; 0x85c; 0x85e; 0x85f; 0x860; 0x86b; 0x870; 0x88f;
  0x898; 0x8e2; 0x8e3; 0x984; 0x985; 0x98d; 0x98f; 0x991; 0x993; 0x9a9; 0x9aa; 0x9b1; 0x9b2;
  0x9b3; 0x9b6; 0x9ba; 0x9bc; 0x9c5; 0x9c7; 0x9c9; 0x9cb; 0x9cf; 0x9d7; 0x9d8; 0x9dc; 0x9de;
  0x9df; 0x9e4; 0x9e6; 0x9ff; 0xa01; 0xa04; 0xa05; 0xa0b; 0xa0f; 0xa11; 0xa13; 0xa29; 0xa2a;
  0xa31; 0xa32; 0xa34; 0xa35; 0xa37; 0xa38; 0xa3a; 0xa3c; 0xa3d; 0xa3e; 0xa43; 0xa47; 0xa49;
  0xa4b; 0xa4e; 0xa51; 0xa52; 0xa59; 0xa5d; 0xa5e; 0xa5f; 0xa66; 0xa77; 0xa81; 0xa84; 0xa85;
  0xa8e; 0xa8f; 0xa92; 0xa93; 0xaa9; 0xaaa; 0xab1; 0xab2; 0xab4; 0xab5; 0xaba; 0xabc; 0xac6;
  0xac7; 0xaca; 0xacb; 0xace; 0xad0; 0xad1; 0xae0; 0xae4; 0xae6; 0xaf2; 0xaf9; 0xb00; 0xb01;
  0xb04; 0xb05; 0xb0d; 0xb0f; 0xb11; 0xb13; 0xb29; 0xb2a; 0xb31; 0xb32; 0xb34; 0xb35; 0xb3a;
  0xb3c; 0xb45; 0xb47; 0xb49; 0xb4b; 0xb4e; 0xb55; 0xb58; 0xb5c; 0xb5e; 0xb5f; 0xb64; 0xb66;
  0xb78; 0xb82; 0xb84; 0xb85; 0xb8b; 0xb8e; 0xb91; 0xb92; 0xb96; 0xb99; 0xb9b; 0xb9c; 0xb9d;
  0xb9e; 0xba0; 0xba3; 0xba5; 0xba8; 0xbab; 0xbae; 0xbba; 0xbbe; 0xbc3; 0xbc6; 0xbc9; 0xbca;
  0xbce; 0xbd0; 0xbd1; 0xbd7; 0xbd8; 0xbe6; 0xbfb; 0xc00; 0xc0d; 0xc0e; 0xc11; 0xc12; 0xc29;
  0xc2a; 0xc3a; 0xc3c; 0xc45; 0xc46; 0xc49; 0xc4a; 0xc4e; 0xc55; 0xc57; 0xc58; 0xc5b; 0xc5d;
  0xc5e; 0xc60; 0xc64; 0xc66; 0xc70; 0xc77; 0xc8d; 0xc8e; 0xc91; 0xc92; 0xca9; 0xcaa; 0xcb4;
  0xcb5; 0xcba; 0xcbc; 0xcc5; 0xcc6; 0xcc9; 0xcca; 0xcce; 0xcd5; 0xcd7; 0xcdd; 0xcdf; 0xce0;
  0xce4; 0xce6; 0xcf0; 0xcf1; 0xcf4; 0xd00; 0xd0d; 0xd0e; 0xd11; 0xd12; 0xd45; 0xd46; 0xd49;
  0xd4a; 0xd50; 0xd54; 0xd64; 0xd66; 0xd80; 0xd81; 0xd84; 0xd85; 0xd97; 0xd9a; 0xdb2; 0xdb3;
  0xdbc; 0xdbd; 0xdbe; 0xdc0; 0xdc7; 0xdca; 0xdcb; 0xdcf; 0xdd5; 0xdd6; 0xdd7; 0xdd8; 0xde0;
  0xde6; 0xdf0; 0xdf2; 0xdf5; 0xe01; 0xe3b; 0xe3f; 0xe5c; 0xe81; 0xe83; 0xe84; 0xe85; 0xe86;
  0xe8b; 0xe8c; 0xea4; 0xea5; 0xea6; 0xea7; 0xebe; 0xec0; 0xec5; 0xec6; 0xec7; 0xec8; 0xecf;
  0xed0; 0xeda; 0xedc; 0xee0; 0xf00; 0xf48; 0xf49; 0xf6d; 0xf71; 0xf98; 0xf99; 0xfbd; 0xfbe;
  0xfcd; 0xfce; 0xfdb; 0x1000; 0x10c6; 0x10c7; 0x10c8; 0x10cd; 0x10ce; 0x10d0; 0x1249;
  0x124a; 0x124e; 0x1250; 0x1257; 0x1258; 0x1259; 0x125a; 0x125e; 0x1260; 0x1289; 0x128a;
  0x128e; 0x1290; 0x12b1; 0x12b2; 0x12b6; 0x12b8; 0x12bf; 0x12c0; 0x12c1; 0x12c2; 0x12c6;
  0x12c8; 0x12d7; 0x12d8; 0x1311; 0x1312; 0x1316; 0x1318; 0x135b; 0x135d; 0x137d; 0x1380;
  0x139a; 0x13a0; 0x13f6; 0x13f8; 0x13fe; 0x1400; 0x1680; 0x1681; 0x169d; 0x16a0; 0x16f9;
  0x1700; 0x1716; 0x171f; 0x1737; 0x1740; 0x1754; 0x1760; 0x176d; 0x176e; 0x1771; 0x1772;
  0x1774; 0x1780; 0x17de; 0x17e0; 0x17ea; 0x17f0; 0x17fa; 0x1800; 0x180e; 0x180f; 0x181a;
  0x1820; 0x1879; 0x1880; 0x18ab; 0x18b0; 0x18f6; 0x1900; 0x191f; 0x1920; 0x192c; 0x1930;
  0x193c; 0x1940; 0x1941; 0x1944; 0x196e; 0x1970; 0x1975; 0x1980; 0x19ac; 0x19b0; 0x19ca;
  0x19d0; 0x19db; 0x19de; 0x1a1c; 0x1a1e; 0x1a5f; 0x1a60; 0x1a7d; 0x1a7f; 0x1a8a; 0x1a90;
  0x1a9a; 0x1aa0; 0x1aae; 0x1ab0; 0x1acf; 0x1b00; 0x1b4d; 0x1b50; 0x1b7f; 0x1b80; 0x1bf4;
  0x1bfc; 0x1c38; 0x1c3b; 0x1c4a; 0x1c4d; 0x1c89; 0x1c90; 0x1cbb; 0x1cbd; 0x1cc8; 0x1cd0;
  0x1cfb; 0x1d00; 0x1f16; 0x1f18; 0x1f1e; 0x1f20; 0x1f46; 0x1f48; 0x1f4e; 0x1f50; 0x1f58;
  0x1f59; 0x1f5a; 0x1f5b; 0x1f5c; 0x1f5d; 0x1f5e; 0x1f5f; 0x1f7e; 0x1f80; 0x1fb5; 0x1fb6;
  0x1fc5; 0x1fc6; 0x1fd4; 0x1fd6; 0x1fdc; 0x1fdd; 0x1ff0; 0x1ff2; 0x1ff5; 0x1ff6; 0x1fff;
  0x2010; 0x2028; 0x2030; 0x205f; 0x2070; 0x2072; 0x2074; 0x208f; 0x2090; 0x209d; 0x20a0;
  0x20c1; 0x20d0; 0x20f1; 0x2100; 0x218c; 0x2190; 0x2427; 0x2440; 0x244b; 0x2460; 0x2b74;
  0x2b76; 0x2b96; 0x2b97; 0x2cf4; 0x2cf9; 0x2d26; 0x2d27; 0x2d28; 0x2d2d; 0x2d2e; 0x2d30;
  0x2d68; 0x2d6f; 0x2d71; 0x2d7f; 0x2d97; 0x2da0; 0x2da7; 0x2da8; 0x2daf; 0x2db0; 0x2db7;
  0x2db8; 0x2dbf; 0x2dc0; 0x2dc7; 0x2dc8; 0x2dcf; 0x2dd0; 0x2dd7; 0x2dd8; 0x2ddf; 0x2de0;
  0x2e5e; 0x2e80; 0x2e9a; 0x2e9b; 0x2ef4; 0x2f00; 0x2fd6; 0x2ff0; 0x3000; 0x3001; 0x3040;
  0x3041; 0x3097; 0x3099; 0x3100; 0x3105; 0x3130; 0x3131; 0x318f; 0x3190; 0x31e4; 0x31ef;
  0x321f; 0x3220; 0xa48d; 0xa490; 0xa4c7; 0xa4d0; 0xa62c; 0xa640; 0xa6f8; 0xa700; 0xa7cb;
  0xa7d0; 0xa7d2; 0xa7d3; 0xa7d4; 0xa7d5; 0xa7da; 0xa7f2; 0xa82d; 0xa830; 0xa83a; 0xa840;
  0xa878; 0xa880; 0xa8c6; 0xa8ce; 0xa8da; 0xa8e0; 0xa954; 0xa95f; 0xa97d; 0xa980; 0xa9ce;
  0xa9cf; 0xa9da; 0xa9de; 0xa9ff; 0xaa00; 0xaa37; 0xaa40; 0xaa4e; 0xaa50; 0xaa5a; 0xaa5c;
  0xaac3; 0xaadb; 0xaaf7; 0xab01; 0xab07; 0xab09; 0xab0f; 0xab11; 0xab17; 0xab20; 0xab27;
  0xab28; 0xab2f; 0xab30; 0xab6c; 0xab70; 0xabee; 0xabf0; 0xabfa; 0xac00; 0xd7a4; 0xd7b0;
  0xd7c7; 0xd7cb; 0xd7fc; 0xf900; 0xfa6e; 0xfa70; 0xfada; 0xfb00; 0xfb07; 0xfb13; 0xfb18;
  0xfb1d; 0xfb37; 0xfb38; 0xfb3d; 0xfb3e; 0xfb3f; 0xfb40; 0xfb42; 0xfb43; 0xfb45; 0xfb46;
  0xfbc3; 0xfbd3; 0xfd90; 0xfd92; 0xfdc8; 0xfdcf; 0xfdd0; 0xfdf0; 0xfe1a; 0xfe20; 0xfe53;
  0xfe54; 0xfe67; 0xfe68; 0xfe6c; 0xfe70; 0xfe75; 0xfe76; 0xfefd; 0xff01; 0xffbf; 0xffc2;
  0xffc8; 0xffca; 0xffd0; 0xffd2; 0xffd8; 0xffda; 0xffdd; 0xffe0; 0xffe7; 0xffe8; 0xffef;
  0xfffc; 0xfffe; 0x10000; 0x1000c; 0x1000d; 0x10027; 0x10028; 0x1003b; 0x1003c; 0x1003e;
  0x1003f; 0x1004e; 0x10050; 0x1005e; 0x10080; 0x100fb; 0x10100; 0x10103; 0x10107; 0x10134;
  0x10137; 0x1018f; 0x10190; 0x1019d; 0x101a0; 0x101a1; 0x101d0; 0x101fe; 0x10280; 0x1029d;
  0x102a0; 0x102d1; 0x102e0; 0x102fc; 0x10300; 0x10324; 0x1032d; 0x1034b; 0x10350; 0x1037b;
  0x10380; 0x1039e; 0x1039f; 0x103c4; 0x103c8; 0x103d6; 0x10400; 0x1049e; 0x104a0; 0x104aa;
  0x104b0; 0x104d4; 0x104d8; 0x104fc; 0x10500; 0x10528; 0x10530; 0x10564; 0x1056f; 0x1057b;
  0x1057c; 0x1058b; 0x1058c; 0x10593; 0x10594; 0x10596; 0x10597; 0x105a2; 0x105a3; 0x105b2;
  0x105b3; 0x105ba; 0x105bb; 0x105bd; 0x10600; 0x10737; 0x10740; 0x10756; 0x10760; 0x10768;
  0x10780; 0x10786; 0x10787; 0x107b1; 0x107b2; 0x107bb; 0x10800; 0x10806; 0x10808; 0x10809;
  0x1080a; 0x10836; 0x10837; 0x10839; 0x1083c; 0x1083d; 0x1083f; 0x10856; 0x10857; 0x1089f;
  0x108a7; 0x108b0; 0x108e0; 0x108f3; 0x108f4; 0x108f6; 0x108fb; 0x1091c; 0x1091f; 0x1093a;
  0x1093f; 0x10940; 0x10980; 0x109b8; 0x109bc; 0x109d0; 0x109d2; 0x10a04; 0x10a05; 0x10a07;
  0x10a0c; 0x10a14; 0x10a15; 0x10a18; 0x10a19; 0x10a36; 0x10a38; 0x10a3b; 0x10a3f; 0x10a49;
  0x10a50; 0x10a59; 0x10a60; 0x10aa0; 0x10ac0; 0x10ae7; 0x10aeb; 0x10af7; 0x10b00; 0x10b36;
  0x10b39; 0x10b56; 0x10b58; 0x10b73; 0x10b78; 0x10b92; 0x10b99; 0x10b9d; 0x10ba9; 0x10bb0;
  0x10c00; 0x10c49; 0x10c80; 0x10cb3; 0x10cc0; 0x10cf3; 0x10cfa; 0x10d28; 0x10d30; 0x10d3a;
  0x10e60; 0x10e7f; 0x10e80; 0x10eaa; 0x10eab; 0x10eae; 0x10eb0; 0x10eb2; 0x10efd; 0x10f28;
  0x10f30; 0x10f5a; 0x10f70; 0x10f8a; 0x10fb0; 0x10fcc; 0x10fe0; 0x10ff7; 0x11000; 0x1104e;
  0x11052; 0x11076; 0x1107f; 0x110bd; 0x110be; 0x110c3; 0x110d0; 0x110e9; 0x110f0; 0x110fa;
  0x11100; 0x11135; 0x11136; 0x11148; 0x11150; 0x11177; 0x11180; 0x111e0; 0x111e1; 0x111f5;
  0x11200; 0x11212; 0x11213; 0x11242; 0x11280; 0x11287; 0x11288; 0x11289; 0x1128a; 0x1128e;
  0x1128f; 0x1129e; 0x1129f; 0x112aa; 0x112b0; 0x112eb; 0x112f0; 0x112fa; 0x11300; 0x11304;
  0x11305; 0x1130d; 0x1130f; 0x11311; 0x11313; 0x11329; 0x1132a; 0x11331; 0x11332; 0x11334;
  0x11335; 0x1133a; 0x1133b; 0x11345; 0x11347; 0x11349; 0x1134b; 0x1134e; 0x11350; 0x11351;
  0x11357; 0x11358; 0x1135d; 0x11364; 0x11366; 0x1136d; 0x11370; 0x11375; 0x11400; 0x1145c;
  0x1145d; 0x11462; 0x11480; 0x114c8; 0x114d0; 0x114da; 0x11580; 0x115b6; 0x115b8; 0x115de;
  0x11600; 0x11645; 0x11650; 0x1165a; 0x11660; 0x1166d; 0x11680; 0x116ba; 0x116c0; 0x116ca;
  0x11700; 0x1171b; 0x1171d; 0x1172c; 0x11730; 0x11747; 0x11800; 0x1183c; 0x118a0; 0x118f3;
  0x118ff; 0x11907; 0x11909; 0x1190a; 0x1190c; 0x11914; 0x11915; 0x11917; 0x11918; 0x11936;
  0x11937; 0x11939; 0x1193b; 0x11947; 0x11950; 0x1195a; 0x119a0; 0x119a8; 0x119aa; 0x119d8;
  0x119da; 0x119e5; 0x11a00; 0x11a48; 0x11a50; 0x11aa3; 0x11ab0; 0x11af9; 0x11b00; 0x11b0a;
  0x11c00; 0x11c09; 0x11c0a; 0x11c37; 0x11c38; 0x11c46; 0x11c50; 0x11c6d; 0x11c70; 0x11c90;
  0x11c92; 0x11ca8; 0x11ca9; 0x11cb7; 0x11d00; 0x11d07; 0x11d08; 0x11d0a; 0x11d0b; 0x11d37;
  0x11d3a; 0x11d3b; 0x11d3c; 0x11d3e; 0x11d3f; 0x11d48; 0x11d50; 0x11d5a; 0x11d60; 0x11d66;
  0x11d67; 0x11d69; 0x11d6a; 0x11d8f; 0x11d90; 0x11d92; 0x11d93; 0x11d99; 0x11da0; 0x11daa;
  0x11ee0; 0x11ef9; 0x11f00; 0x11f11; 0x11f12; 0x11f3b; 0x11f3e; 0x11f5a; 0x11fb0; 0x11fb1;
  0x11fc0; 0x11ff2; 0x11fff; 0x1239a; 0x12400; 0x1246f; 0x12470; 0x12475; 0x12480; 0x12544;
  0x12f90; 0x12ff3; 0x13000; 0x13430; 0x13440; 0x13456; 0x14400; 0x14647; 0x16800; 0x16a39;
  0x16a40; 0x16a5f; 0x16a60; 0x16a6a; 0x16a6e; 0x16abf; 0x16ac0; 0x16aca; 0x16ad0; 0x16aee;
  0x16af0; 0x16af6; 0x16b00; 0x16b46; 0x16b50; 0x16b5a; 0x16b5b; 0x16b62; 0x16b63; 0x16b78;
  0x16b7d; 0x16b90; 0x16e40; 0x16e9b; 0x16f00; 0x16f4b; 0x16f4f; 0x16f88; 0x16f8f; 0x16fa0;
  0x16fe0; 0x16fe5; 0x16ff0; 0x16ff2; 0x17000; 0x187f8; 0x18800; 0x18cd6; 0x18d00; 0x18d09;
  0x1aff0; 0x1aff4; 0x1aff5; 0x1affc; 0x1affd; 0x1afff; 0x1b000; 0x1b123; 0x1b132; 0x1b133;
  0x1b150; 0x1b153; 0x1b155; 0x1b156; 0x1b164; 0x1b168; 0x1b170; 0x1b2fc; 0x1bc00; 0x1bc6b;
  0x1bc70; 0x1bc7d; 0x1bc80; 0x1bc89; 0x1bc90; 0x1bc9a; 0x1bc9c; 0x1bca0; 0x1cf00; 0x1cf2e;
  0x1cf30; 0x1cf47; 0x1cf50; 0x1cfc4; 0x1d000; 0x1d0f6; 0x1d100; 0x1d127; 0x1d129; 0x1d173;
  0x1d17b; 0x1d1eb; 0x1d200; 0x1d246; 0x1d2c0; 0x1d2d4; 0x1d2e0; 0x1d2f4; 0x1d300; 0x1d357;
  0x1d360; 0x1d379; 0x1d400; 0x1d455; 0x1d456; 0x1d49d; 0x1d49e; 0x1d4a0; 0x1d4a2; 0x1d4a3;
  0x1d4a5; 0x1d4a7; 0x1d4a9; 0x1d4ad; 0x1d4ae; 0x1d4ba; 0x1d4bb; 0x1d4bc; 0x1d4bd; 0x1d4c4;
  0x1d4c5; 0x1d506; 0x1d507; 0x1d50b; 0x1d50d; 0x1d515; 0x1d516; 0x1d51d; 0x1d51e; 0x1d53a;
  0x1d53b; 0x1d53f; 0x1d540; 0x1d545; 0x1d546; 0x1d547; 0x1d54a; 0x1d551; 0x1d552; 0x1d6a6;
  0x1d6a8; 0x1d7cc; 0x1d7ce; 0x1da8c; 0x1da9b; 0x1daa0; 0x1daa1; 0x1dab0; 0x1df00; 0x1df1f;
  0x1df25; 0x1df2b; 0x1e000; 0x1e007; 0x1e008; 0x1e019; 0x1e01b; 0x1e022; 0x1e023; 0x1e025;
  0x1e026; 0x1e02b; 0x1e030; 0x1e06e; 0x1e08f; 0x1e090; 0x1e100; 0x1e12d; 0x1e130; 0x1e13e;
  0x1e140; 0x1e14a; 0x1e14e; 0x1e150; 0x1e290; 0x1e2af; 0x1e2c0; 0x1e2fa; 0x1e2ff; 0x1e300;
  0x1e4d0; 0x1e4fa; 0x1e7e0; 0x1e7e7; 0x1e7e8; 0x1e7ec; 0x1e7ed; 0x1e7ef; 0x1e7f0; 0x1e7ff;
  0x1e800; 0x1e8c5; 0x1e8c7; 0x1e8d7; 0x1e900; 0x1e94c; 0x1e950; 0x1e95a; 0x1e95e; 0x1e960;
  0x1ec71; 0x1ecb5; 0x1ed01; 0x1ed3e; 0x1ee00; 0x1ee04; 0x1ee05; 0x1ee20; 0x1ee21; 0x1ee23;
  0x1ee24; 0x1ee25; 0x1ee27; 0x1ee28; 0x1ee29; 0x1ee33; 0x1ee34; 0x1ee38; 0x1ee39; 0x1ee3a;
  0x1ee3b; 0x1ee3c; 0x1ee42; 0x1ee43; 0x1ee47; 0x1ee48; 0x1ee49; 0x1ee4a; 0x1ee4b; 0x1ee4c;
  0x1ee4d; 0x1ee50; 0x1ee51; 0x1ee53; 0x1ee54; 0x1ee55; 0x1ee57; 0x1ee58; 0x1ee59; 0x1ee5a;
  0x1ee5b; 0x1ee5c; 0x1ee5d; 0x1ee5e; 0x1ee5f; 0x1ee60; 0x1ee61; 0x1ee63; 0x1ee64; 0x1ee65;
  0x1ee67; 0x1ee6b; 0x1ee6c; 0x1ee73; 0x1ee74; 0x1ee78; 0x1ee79; 0x1ee7d; 0x1ee7e; 0x1ee7f;
  0x1ee80; 0x1ee8a; 0x1ee8b; 0x1ee9c; 0x1eea1; 0x1eea4; 0x1eea5; 0x1eeaa; 0x1eeab; 0x1eebc;
  0x1eef0; 0x1eef2; 0x1f000; 0x1f02c; 0x1f030; 0x1f094; 0x1f0a0; 0x1f0af; 0x1f0b1; 0x1f0c0;
  0x1f0c1; 0x1f0d0; 0x1f0d1; 0x1f0f6; 0x1f100; 0x1f1ae; 0x1f1e6; 0x1f203; 0x1f210; 0x1f23c;
  0x1f240; 0x1f249; 0x1f250; 0x1f252; 0x1f260; 0x1f266; 0x1f300; 0x1f6d8; 0x1f6dc; 0x1f6ed;
  0x1f6f0; 0x1f6fd; 0x1f700; 0x1f777; 0x1f77b; 0x1f7da; 0x1f7e0; 0x1f7ec; 0x1f7f0; 0x1f7f1;
  0x1f800; 0x1f80c; 0x1f810; 0x1f848; 0x1f850; 0x1f85a; 0x1f860; 0x1f888; 0x1f890; 0x1f8ae;
  0x1f8b0; 0x1f8b2; 0x1f900; 0x1fa54; 0x1fa60; 0x1fa6e; 0x1fa70; 0x1fa7d; 0x1fa80; 0x1fa89;
  0x1fa90; 0x1fabe; 0x1fabf; 0x1fac6; 0x1face; 0x1fadc; 0x1fae0; 0x1fae9; 0x1faf0; 0x1faf9;
  0x1fb00; 0x1fb93; 0x1fb94; 0x1fbcb; 0x1fbf0; 0x1fbfa; 0x20000; 0x2a6e0; 0x2a700; 0x2b73a;
  0x2b740; 0x2b81e; 0x2b820; 0x2cea2; 0x2ceb0; 0x2ebe1; 0x2ebf0; 0x2ee5e; 0x2f800; 0x2fa1e;
  0x30000; 0x3134b; 0x31350; 0x323b0; 0xe0100; 0xe01f0; 0x110000
]%Z.

Definition is_printable (code : Z) : bool :=
  (partition_point (fun bound => (bound <=? code)%Z) NOT_PRINTABLE_BOUNDS mod 2 =? 0)%nat.

(** Word characters and decimal digits: word.rs. *)

Definition in_runs (bounds : list Z) (c : char) : bool :=
  (partition_point (fun bound => (bound <=? c)%Z) bounds mod 2 =? 1)%nat.

Definition WORD_BOUNDS : list Z := [
  0x30; 0x3a; 0x41; 0x5b; 0x5f; 0x60; 0x61; 0x7b; 0xaa; 0xab; 0xb2; 0xb4; 0xb5; 0xb6; 0xb9;
  0xbb; 0xbc; 0xbf; 0xc0; 0xd7; 0xd8; 0xf7; 0xf8; 0x2c2; 0x2c6; 0x2d2; 0x2e0; 0x2e5; 0x2ec;
  0x2ed; 0x2ee; 0x2ef; 0x370; 0x375; 0x376; 0x378; 0x37a; 0x37e; 0x37f; 0x380; 0x386; 0x387;
  0x388; 0x38b; 0x38c; 0x38d; 0x38e; 0x3a2; 0x3a3; 0x3f6; 0x3f7; 0x482; 0x48a; 0x530; 0x531;
  0x557; 0x559; 0x55a; 0x560; 0x589; 0x5d0; 0x5eb; 0x5ef; 0x5f3; 0x620; 0x64b; 0x660; 0x66a;
  0x66e; 0x670; 0x671; 0x6d4; 0x6d5; 0x6d6; 0x6e5; 0x6e7; 0x6ee; 0x6fd; 0x6ff; 0x700; 0x710;
  0x711; 0x712; 0x730; 0x74d; 0x7a6; 0x7b1; 0x7b2; 0x7c0; 0x7eb; 0x7f4; 0x7f6; 0x7fa; 0x7fb;
  0x800; 0x816; 0x81a; 0x81b; 0x824; 0x825; 0x828; 0x829; 0x840; 0x859; 0x860; 0x86b; 0x870;
  0x888; 0x889; 0x88f; 0x8a0; 0x8ca; 0x904; 0x93a; 0x93d; 0x93e; 0x950; 0x951; 0x958; 0x962;
  0x966; 0x970; 0x971; 0x981; 0x985; 0x98d; 0x98f; 0x991; 0x993; 0x9a9; 0x9aa; 0x9b1; 0x9b2;
  0x9b3; 0x9b6; 0x9ba; 0x9bd; 0x9be; 0x9ce; 0x9cf; 0x9dc; 0x9de; 0x9df; 0x9e2; 0x9e6; 0x9f2;
  0x9f4; 0x9fa; 0x9fc; 0x9fd; 0xa05; 0xa0b; 0xa0f; 0xa11; 0xa13; 0xa29; 0xa2a; 0xa31; 0xa32;
  0xa34; 0xa35; 0xa37; 0xa38; 0xa3a; 0xa59; 0xa5d; 0xa5e; 0xa5f; 0xa66; 0xa70; 0xa72; 0xa75;
  0xa85; 0xa8e; 0xa8f; 0xa92; 0xa93; 0xaa9; 0xaaa; 0xab1; 0xab2; 0xab4; 0xab5; 0xaba; 0xabd;
  0xabe; 0xad0; 0xad1; 0xae0; 0xae2; 0xae6; 0xaf0; 0xaf9; 0xafa; 0xb05; 0xb0d; 0xb0f; 0xb11;
  0xb13; 0xb29; 0xb2a; 0xb31; 0xb32; 0xb34; 0xb35; 0xb3a; 0xb3d; 0xb3e; 0xb5c; 0xb5e; 0xb5f;
  0xb62; 0xb66; 0xb70; 0xb71; 0xb78; 0xb83; 0xb84; 0xb85; 0xb8b; 0xb8e; 0xb91; 0xb92; 0xb96;
  0xb99; 0xb9b; 0xb9c; 0xb9d; 0xb9e; 0xba0; 0xba3; 0xba5; 0xba8; 0xbab; 0xbae; 0xbba; 0xbd0;
  0xbd1; 0xbe6; 0xbf3; 0xc05; 0xc0d; 0xc0e; 0xc11; 0xc12; 0xc29; 0xc2a; 0xc3a; 0xc3d; 0xc3e;
  0xc58; 0xc5b; 0xc5d; 0xc5e; 0xc60; 0xc62; 0xc66; 0xc70; 0xc78; 0xc7f; 0xc80; 0xc81; 0xc85;
  0xc8d; 0xc8e; 0xc91; 0xc92; 0xca9; 0xcaa; 0xcb4; 0xcb5; 0xcba; 0xcbd; 0xcbe; 0xcdd; 0xcdf;
  0xce0; 0xce2; 0xce6; 0xcf0; 0xcf1; 0xcf3; 0xd04; 0xd0d; 0xd0e; 0xd11; 0xd12; 0xd3b; 0xd3d;
  0xd3e; 0xd4e; 0xd4f; 0xd54; 0xd57; 0xd58; 0xd62; 0xd66; 0xd79; 0xd7a; 0xd80; 0xd85; 0xd97;
  0xd9a; 0xdb2; 0xdb3; 0xdbc; 0xdbd; 0xdbe; 0xdc0; 0xdc7; 0xde6; 0xdf0; 0xe01; 0xe31; 0xe32;
  0xe34; 0xe40; 0xe47; 0xe50; 0xe5a; 0xe81; 0xe83; 0xe84; 0xe85; 0xe86; 0xe8b; 0xe8c; 0xea4;
  0xea5; 0xea6; 0xea7; 0xeb1; 0xeb2; 0xeb4; 0xebd; 0xebe; 0xec0; 0xec5; 0xec6; 0xec7; 0xed0;
  0xeda; 0xedc; 0xee0; 0xf00; 0xf01; 0xf20; 0xf34; 0xf40; 0xf48; 0xf49; 0xf6d; 0xf88; 0xf8d;
  0x1000; 0x102b; 0x103f; 0x104a; 0x1050; 0x1056; 0x105a; 0x105e; 0x1061; 0x1062; 0x1065;
  0x1067; 0x106e; 0x1071; 0x1075; 0x1082; 0x108e; 0x108f; 0x1090; 0x109a; 0x10a0; 0x10c6;
  0x10c7; 0x10c8; 0x10cd; 0x10ce; 0x10d0; 0x10fb; 0x10fc; 0x1249; 0x124a; 0x124e; 0x1250;
  0x1257; 0x1258; 0x1259; 0x125a; 0x125e; 0x1260; 0x1289; 0x128a; 0x128e; 0x1290; 0x12b1;
  0x12b2; 0x12b6; 0x12b8; 0x12bf; 0x12c0; 0x12c1; 0x12c2; 0x12c6; 0x12c8; 0x12d7; 0x12d8;
  0x1311; 0x1312; 0x1316; 0x1318; 0x135b; 0x1369; 0x137d; 0x1380; 0x1390; 0x13a0; 0x13f6;
  0x13f8; 0x13fe; 0x1401; 0x166d; 0x166f; 0x1680; 0x1681; 0x169b; 0x16a0; 0x16eb; 0x16ee;
  0x16f9; 0x1700; 0x1712; 0x171f; 0x1732; 0x1740; 0x1752; 0x1760; 0x176d; 0x176e; 0x1771;
  0x1780; 0x17b4; 0x17d7; 0x17d8; 0x17dc; 0x17dd; 0x17e0; 0x17ea; 0x17f0; 0x17fa; 0x1810;
  0x181a; 0x1820; 0x1879; 0x1880; 0x1885; 0x1887; 0x18a9; 0x18aa; 0x18ab; 0x18b0; 0x18f6;
  0x1900; 0x191f; 0x1946; 0x196e; 0x1970; 0x1975; 0x1980; 0x19ac; 0x19b0; 0x19ca; 0x19d0;
  0x19db; 0x1a00; 0x1a17; 0x1a20; 0x1a55; 0x1a80; 0x1a8a; 0x1a90; 0x1a9a; 0x1aa7; 0x1aa8;
  0x1b05; 0x1b34; 0x1b45; 0x1b4d; 0x1b50; 0x1b5a; 0x1b83; 0x1ba1; 0x1bae; 0x1be6; 0x1c00;
  0x1c24; 0x1c40; 0x1c4a; 0x1c4d; 0x1c7e; 0x1c80; 0x1c89; 0x1c90; 0x1cbb; 0x1cbd; 0x1cc0;
  0x1ce9; 0x1ced; 0x1cee; 0x1cf4; 0x1cf5; 0x1cf7; 0x1cfa; 0x1cfb; 0x1d00; 0x1dc0; 0x1e00;
  0x1f16; 0x1f18; 0x1f1e; 0x1f20; 0x1f46; 0x1f48; 0x1f4e; 0x1f50; 0x1f58; 0x1f59; 0x1f5a;
  0x1f5b; 0x1f5c; 0x1f5d; 0x1f5e; 0x1f5f; 0x1f7e; 0x1f80; 0x1fb5; 0x1fb6; 0x1fbd; 0x1fbe;
  0x1fbf; 0x1fc2; 0x1fc5; 0x1fc6; 0x1fcd; 0x1fd0; 0x1fd4; 0x1fd6; 0x1fdc; 0x1fe0; 0x1fed;
  0x1ff2; 0x1ff5; 0x1ff6; 0x1ffd; 0x2070; 0x2072; 0x2074; 0x207a; 0x207f; 0x208a; 0x2090;
  0x209d; 0x2102; 0x2103; 0x2107; 0x2108; 0x210a; 0x2114; 0x2115; 0x2116; 0x2119; 0x211e;
  0x2124; 0x2125; 0x2126; 0x2127; 0x2128; 0x2129; 0x212a; 0x212e; 0x212f; 0x213a; 0x213c;
  0x2140; 0x2145; 0x214a; 0x214e; 0x214f; 0x2150; 0x218a; 0x2460; 0x249c; 0x24ea; 0x2500;
  0x2776; 0x2794; 0x2c00; 0x2ce5; 0x2ceb; 0x2cef; 0x2cf2; 0x2cf4; 0x2cfd; 0x2cfe; 0x2d00;
  0x2d26; 0x2d27; 0x2d28; 0x2d2d; 0x2d2e; 0x2d30; 0x2d68; 0x2d6f; 0x2d70; 0x2d80; 0x2d97;
  0x2da0; 0x2da7; 0x2da8; 0x2daf; 0x2db0; 0x2db7; 0x2db8; 0x2dbf; 0x2dc0; 0x2dc7; 0x2dc8;
  0x2dcf; 0x2dd0; 0x2dd7; 0x2dd8; 0x2ddf; 0x2e2f; 0x2e30; 0x3005; 0x3008; 0x3021; 0x302a;
  0x3031; 0x3036; 0x3038; 0x303d; 0x3041; 0x3097; 0x309d; 0x30a0; 0x30a1; 0x30fb; 0x30fc;
  0x3100; 0x3105; 0x3130; 0x3131; 0x318f; 0x3192; 0x3196; 0x31a0; 0x31c0; 0x31f0; 0x3200;
  0x3220; 0x322a; 0x3248; 0x3250; 0x3251; 0x3260; 0x3280; 0x328a; 0x32b1; 0x32c0; 0x3400;
  0x4dc0; 0x4e00; 0xa48d; 0xa4d0; 0xa4fe; 0xa500; 0xa60d; 0xa610; 0xa62c; 0xa640; 0xa66f;
  0xa67f; 0xa69e; 0xa6a0; 0xa6f0; 0xa717; 0xa720; 0xa722; 0xa789; 0xa78b; 0xa7cb; 0xa7d0;
  0xa7d2; 0xa7d3; 0xa7d4; 0xa7d5; 0xa7da; 0xa7f2; 0xa802; 0xa803; 0xa806; 0xa807; 0xa80b;
  0xa80c; 0xa823; 0xa830; 0xa836; 0xa840; 0xa874; 0xa882; 0xa8b4; 0xa8d0; 0xa8da; 0xa8f2;
  0xa8f8; 0xa8fb; 0xa8fc; 0xa8fd; 0xa8ff; 0xa900; 0xa926; 0xa930; 0xa947; 0xa960; 0xa97d;
  0xa984; 0xa9b3; 0xa9cf; 0xa9da; 0xa9e0; 0xa9e5; 0xa9e6; 0xa9ff; 0xaa00; 0xaa29; 0xaa40;
  0xaa43; 0xaa44; 0xaa4c; 0xaa50; 0xaa5a; 0xaa60; 0xaa77; 0xaa7a; 0xaa7b; 0xaa7e; 0xaab0;
  0xaab1; 0xaab2; 0xaab5; 0xaab7; 0xaab9; 0xaabe; 0xaac0; 0xaac1; 0xaac2; 0xaac3; 0xaadb;
  0xaade; 0xaae0; 0xaaeb; 0xaaf2; 0xaaf5; 0xab01; 0xab07; 0xab09; 0xab0f; 0xab11; 0xab17;
  0xab20; 0xab27; 0xab28; 0xab2f; 0xab30; 0xab5b; 0xab5c; 0xab6a; 0xab70; 0xabe3; 0xabf0;
  0xabfa; 0xac00; 0xd7a4; 0xd7b0; 0xd7c7; 0xd7cb; 0xd7fc; 0xf900; 0xfa6e; 0xfa70; 0xfada;
  0xfb00; 0xfb07; 0xfb13; 0xfb18; 0xfb1d; 0xfb1e; 0xfb1f; 0xfb29; 0xfb2a; 0xfb37; 0xfb38;
  0xfb3d; 0xfb3e; 0xfb3f; 0xfb40; 0xfb42; 0xfb43; 0xfb45; 0xfb46; 0xfbb2; 0xfbd3; 0xfd3e;
  0xfd50; 0xfd90; 0xfd92; 0xfdc8; 0xfdf0; 0xfdfc; 0xfe70; 0xfe75; 0xfe76; 0xfefd; 0xff10;
  0xff1a; 0xff21; 0xff3b; 0xff41; 0xff5b; 0xff66; 0xffbf; 0xffc2; 0xffc8; 0xffca; 0xffd0;
  0xffd2; 0xffd8; 0xffda; 0xffdd; 0x10000; 0x1000c; 0x1000d; 0x10027; 0x10028; 0x1003b;
  0x1003c; 0x1003e; 0x1003f; 0x1004e; 0x10050; 0x1005e; 0x10080; 0x100fb; 0x10107; 0x10134;
  0x10140; 0x10179; 0x1018a; 0x1018c; 0x10280; 0x1029d; 0x102a0; 0x102d1; 0x102e1; 0x102fc;
  0x10300; 0x10324; 0x1032d; 0x1034b; 0x10350; 0x10376; 0x10380; 0x1039e; 0x103a0; 0x103c4;
  0x103c8; 0x103d0; 0x103d1; 0x103d6; 0x10400; 0x1049e; 0x104a0; 0x104aa; 0x104b0; 0x104d4;
  0x104d8; 0x104fc; 0x10500; 0x10528; 0x10530; 0x10564; 0x10570; 0x1057b; 0x1057c; 0x1058b;
  0x1058c; 0x10593; 0x10594; 0x10596; 0x10597; 0x105a2; 0x105a3; 0x105b2; 0x105b3; 0x105ba;
  0x105bb; 0x105bd; 0x10600; 0x10737; 0x10740; 0x10756; 0x10760; 0x10768; 0x10780; 0x10786;
  0x10787; 0x107b1; 0x107b2; 0x107bb; 0x10800; 0x10806; 0x10808; 0x10809; 0x1080a; 0x10836;
  0x10837; 0x10839; 0x1083c; 0x1083d; 0x1083f; 0x10856; 0x10858; 0x10877; 0x10879; 0x1089f;
  0x108a7; 0x108b0; 0x108e0; 0x108f3; 0x108f4; 0x108f6; 0x108fb; 0x1091c; 0x10920; 0x1093a;
  0x10980; 0x109b8; 0x109bc; 0x109d0; 0x109d2; 0x10a01; 0x10a10; 0x10a14; 0x10a15; 0x10a18;
  0x10a19; 0x10a36; 0x10a40; 0x10a49; 0x10a60; 0x10a7f; 0x10a80; 0x10aa0; 0x10ac0; 0x10ac8;
  0x10ac9; 0x10ae5; 0x10aeb; 0x10af0; 0x10b00; 0x10b36; 0x10b40; 0x10b56; 0x10b58; 0x10b73;
  0x10b78; 0x10b92; 0x10ba9; 0x10bb0; 0x10c00; 0x10c49; 0x10c80; 0x10cb3; 0x10cc0; 0x10cf3;
  0x10cfa; 0x10d24; 0x10d30; 0x10d3a; 0x10e60; 0x10e7f; 0x10e80; 0x10eaa; 0x10eb0; 0x10eb2;
  0x10f00; 0x10f28; 0x10f30; 0x10f46; 0x10f51; 0x10f55; 0x10f70; 0x10f82; 0x10fb0; 0x10fcc;
  0x10fe0; 0x10ff7; 0x11003; 0x11038; 0x11052; 0x11070; 0x11071; 0x11073; 0x11075; 0x11076;
  0x11083; 0x110b0; 0x110d0; 0x110e9; 0x110f0; 0x110fa; 0x11103; 0x11127; 0x11136; 0x11140;
  0x11144; 0x11145; 0x11147; 0x11148; 0x11150; 0x11173; 0x11176; 0x11177; 0x11183; 0x111b3;
  0x111c1; 0x111c5; 0x111d0; 0x111db; 0x111dc; 0x111dd; 0x111e1; 0x111f5; 0x11200; 0x11212;
  0x11213; 0x1122c; 0x1123f; 0x11241; 0x11280; 0x11287; 0x11288; 0x11289; 0x1128a; 0x1128e;
  0x1128f; 0x1129e; 0x1129f; 0x112a9; 0x112b0; 0x112df; 0x112f0; 0x112fa; 0x11305; 0x1130d;
  0x1130f; 0x11311; 0x11313; 0x11329; 0x1132a; 0x11331; 0x11332; 0x11334; 0x11335; 0x1133a;
  0x1133d; 0x1133e; 0x11350; 0x11351; 0x1135d; 0x11362; 0x11400; 0x11435; 0x11447; 0x1144b;
  0x11450; 0x1145a; 0x1145f; 0x11462; 0x11480; 0x114b0; 0x114c4; 0x114c6; 0x114c7; 0x114c8;
  0x114d0; 0x114da; 0x11580; 0x115af; 0x115d8; 0x115dc; 0x11600; 0x11630; 0x11644; 0x11645;
  0x11650; 0x1165a; 0x11680; 0x116ab; 0x116b8; 0x116b9; 0x116c0; 0x116ca; 0x11700; 0x1171b;
  0x11730; 0x1173c; 0x11740; 0x11747; 0x11800; 0x1182c; 0x118a0; 0x118f3; 0x118ff; 0x11907;
  0x11909; 0x1190a; 0x1190c; 0x11914; 0x11915; 0x11917; 0x11918; 0x11930; 0x1193f; 0x11940;
  0x11941; 0x11942; 0x11950; 0x1195a; 0x119a0; 0x119a8; 0x119aa; 0x119d1; 0x119e1; 0x119e2;
  0x119e3; 0x119e4; 0x11a00; 0x11a01; 0x11a0b; 0x11a33; 0x11a3a; 0x11a3b; 0x11a50; 0x11a51;
  0x11a5c; 0x11a8a; 0x11a9d; 0x11a9e; 0x11ab0; 0x11af9; 0x11c00; 0x11c09; 0x11c0a; 0x11c2f;
  0x11c40; 0x11c41; 0x11c50; 0x11c6d; 0x11c72; 0x11c90; 0x11d00; 0x11d07; 0x11d08; 0x11d0a;
  0x11d0b; 0x11d31; 0x11d46; 0x11d47; 0x11d50; 0x11d5a; 0x11d60; 0x11d66; 0x11d67; 0x11d69;
  0x11d6a; 0x11d8a; 0x11d98; 0x11d99; 0x11da0; 0x11daa; 0x11ee0; 0x11ef3; 0x11f02; 0x11f03;
  0x11f04; 0x11f11; 0x11f12; 0x11f34; 0x11f50; 0x11f5a; 0x11fb0; 0x11fb1; 0x11fc0; 0x11fd5;
  0x12000; 0x1239a; 0x12400; 0x1246f; 0x12480; 0x12544; 0x12f90; 0x12ff1; 0x13000; 0x13430;
  0x13441; 0x13447; 0x14400; 0x14647; 0x16800; 0x16a39; 0x16a40; 0x16a5f; 0x16a60; 0x16a6a;
  0x16a70; 0x16abf; 0x16ac0; 0x16aca; 0x16ad0; 0x16aee; 0x16b00; 0x16b30; 0x16b40; 0x16b44;
  0x16b50; 0x16b5a; 0x16b5b; 0x16b62; 0x16b63; 0x16b78; 0x16b7d; 0x16b90; 0x16e40; 0x16e97;
  0x16f00; 0x16f4b; 0x16f50; 0x16f51; 0x16f93; 0x16fa0; 0x16fe0; 0x16fe2; 0x16fe3; 0x16fe4;
  0x17000; 0x187f8; 0x18800; 0x18cd6; 0x18d00; 0x18d09; 0x1aff0; 0x1aff4; 0x1aff5; 0x1affc;
  0x1affd; 0x1afff; 0x1b000; 0x1b123; 0x1b132; 0x1b133; 0x1b150; 0x1b153; 0x1b155; 0x1b156;
  0x1b164; 0x1b168; 0x1b170; 0x1b2fc; 0x1bc00; 0x1bc6b; 0x1bc70; 0x1bc7d; 0x1bc80; 0x1bc89;
  0x1bc90; 0x1bc9a; 0x1d2c0; 0x1d2d4; 0x1d2e0; 0x1d2f4; 0x1d360; 0x1d379; 0x1d400; 0x1d455;
  0x1d456; 0x1d49d; 0x1d49e; 0x1d4a0; 0x1d4a2; 0x1d4a3; 0x1d4a5; 0x1d4a7; 0x1d4a9; 0x1d4ad;
  0x1d4ae; 0x1d4ba; 0x1d4bb; 0x1d4bc; 0x1d4bd; 0x1d4c4; 0x1d4c5; 0x1d506; 0x1d507; 0x1d50b;
  0x1d50d; 0x1d515; 0x1d516; 0x1d51d; 0x1d51e; 0x1d53a; 0x1d53b; 0x1d53f; 0x1d540; 0x1d545;
  0x1d546; 0x1d547; 0x1d54a; 0x1d551; 0x1d552; 0x1d6a6; 0x1d6a8; 0x1d6c1; 0x1d6c2; 0x1d6db;
  0x1d6dc; 0x1d6fb; 0x1d6fc; 0x1d715; 0x1d716; 0x1d735; 0x1d736; 0x1d74f; 0x1d750; 0x1d76f;
  0x1d770; 0x1d789; 0x1d78a; 0x1d7a9; 0x1d7aa; 0x1d7c3; 0x1d7c4; 0x1d7cc; 0x1d7ce; 0x1d800;
  0x1df00; 0x1df1f; 0x1df25; 0x1df2b; 0x1e030; 0x1e06e; 0x1e100; 0x1e12d; 0x1e137; 0x1e13e;
  0x1e140; 0x1e14a; 0x1e14e; 0x1e14f; 0x1e290; 0x1e2ae; 0x1e2c0; 0x1e2ec; 0x1e2f0; 0x1e2fa;
  0x1e4d0; 0x1e4ec; 0x1e4f0; 0x1e4fa; 0x1e7e0; 0x1e7e7; 0x1e7e8; 0x1e7ec; 0x1e7ed; 0x1e7ef;
  0x1e7f0; 0x1e7ff; 0x1e800; 0x1e8c5; 0x1e8c7; 0x1e8d0; 0x1e900; 0x1e944; 0x1e94b; 0x1e94c;
  0x1e950; 0x1e95a; 0x1ec71; 0x1ecac; 0x1ecad; 0x1ecb0; 0x1ecb1; 0x1ecb5; 0x1ed01; 0x1ed2e;
  0x1ed2f; 0x1ed3e; 0x1ee00; 0x1ee04; 0x1ee05; 0x1ee20; 0x1ee21; 0x1ee23; 0x1ee24; 0x1ee25;
  0x1ee27; 0x1ee28; 0x1ee29; 0x1ee33; 0x1ee34; 0x1ee38; 0x1ee39; 0x1ee3a; 0x1ee3b; 0x1ee3c;
  0x1ee42; 0x1ee43; 0x1ee47; 0x1ee48; 0x1ee49; 0x1ee4a; 0x1ee4b; 0x1ee4c; 0x1ee4d; 0x1ee50;
  0x1ee51; 0x1ee53; 0x1ee54; 0x1ee55; 0x1ee57; 0x1ee58; 0x1ee59; 0x1ee5a; 0x1ee5b; 0x1ee5c;
  0x1ee5d; 0x1ee5e; 0x1ee5f; 0x1ee60; 0x1ee61; 0x1ee63; 0x1ee64; 0x1ee65; 0x1ee67; 0x1ee6b;
  0x1ee6c; 0x1ee73; 0x1ee74; 0x1ee78; 0x1ee79; 0x1ee7d; 0x1ee7e; 0x1ee7f; 0x1ee80; 0x1ee8a;
  0x1ee8b; 0x1ee9c; 0x1eea1; 0x1eea4; 0x1eea5; 0x1eeaa; 0x1eeab; 0x1eebc; 0x1f100; 0x1f10d;
  0x1fbf0; 0x1fbfa; 0x20000; 0x2a6e0; 0x2a700; 0x2b73a; 0x2b740; 0x2b81e; 0x2b820; 0x2cea2;
  0x2ceb0; 0x2ebe1; 0x2ebf0; 0x2ee5e; 0x2f800; 0x2fa1e; 0x30000; 0x3134b; 0x31350; 0x323b0
]%Z.

Definition DECIMAL_BOUNDS : list Z := [
  0x30; 0x3a; 0x660; 0x66a; 0x6f0; 0x6fa; 0x7c0; 0x7ca; 0x966; 0x970; 0x9e6; 0x9f0; 0xa66;
  0xa70; 0xae6; 0xaf0; 0xb66; 0xb70; 0xbe6; 0xbf0; 0xc66; 0xc70; 0xce6; 0xcf0; 0xd66; 0xd70;
  0xde6; 0xdf0; 0xe50; 0xe5a; 0xed0; 0xeda; 0xf20; 0xf2a; 0x1040; 0x104a; 0x1090; 0x109a;
  0x17e0; 0x17ea; 0x1810; 0x181a; 0x1946; 0x1950; 0x19d0; 0x19da; 0x1a80; 0x1a8a; 0x1a90;
  0x1a9a; 0x1b50; 0x1b5a; 0x1bb0; 0x1bba; 0x1c40; 0x1c4a; 0x1c50; 0x1c5a; 0xa620; 0xa62a;
  0xa8d0; 0xa8da; 0xa900; 0xa90a; 0xa9d0; 0xa9da; 0xa9f0; 0xa9fa; 0xaa50; 0xaa5a; 0xabf0;
  0xabfa; 0xff10; 0xff1a; 0x104a0; 0x104aa; 0x10d30; 0x10d3a; 0x11066; 0x11070; 0x110f0;
  0x110fa; 0x11136; 0x11140; 0x111d0; 0x111da; 0x112f0; 0x112fa; 0x11450; 0x1145a; 0x114d0;
  0x114da; 0x11650; 0x1165a; 0x116c0; 0x116ca; 0x11730; 0x1173a; 0x118e0; 0x118ea; 0x11950;
  0x1195a; 0x11c50; 0x11c5a; 0x11d50; 0x11d5a; 0x11da0; 0x11daa; 0x11f50; 0x11f5a; 0x16a60;
  0x16a6a; 0x16ac0; 0x16aca; 0x16b50; 0x16b5a; 0x1d7ce; 0x1d800; 0x1e140; 0x1e14a; 0x1e2f0;
  0x1e2fa; 0x1e4f0; 0x1e4fa; 0x1e950; 0x1e95a; 0x1fbf0; 0x1fbfa
]%Z.

Definition is_word (c : char) : bool := in_runs WORD_BOUNDS c.
Definition is_decimal (c : char) : bool := in_runs DECIMAL_BOUNDS c.

(** The first code point of the unbroken run of decimal digits that ends just below
    [code], which [steps] bounds; [start] is the last one found. *)
Fixpoint decimal_run_start (steps : nat) (start : Z) : Z :=
  match steps with
  | O => start
  | S rest =>
      let before := start - 1 in
      if is_scalar before && is_decimal before then decimal_run_start rest before else start
  end.

Definition decimal_value (c : char) : option Z :=
  if negb (is_decimal c) then None
  else Some ((c - decimal_run_start (Z.to_nat c) c) mod 10).

(** Identifiers: identifier.rs. *)

Definition START_BOUNDS : list Z := [
  0x41; 0x5b; 0x5f; 0x60; 0x61; 0x7b; 0xaa; 0xab; 0xb5; 0xb6; 0xba; 0xbb; 0xc0; 0xd7; 0xd8;
  0xf7; 0xf8; 0x2c2; 0x2c6; 0x2d2; 0x2e0; 0x2e5; 0x2ec; 0x2ed; 0x2ee; 0x2ef; 0x370; 0x375;
  0x376; 0x378; 0x37b; 0x37e; 0x37f; 0x380; 0x386; 0x387; 0x388; 0x38b; 0x38c; 0x38d; 0x38e;
  0x3a2; 0x3a3; 0x3f6; 0x3f7; 0x482; 0x48a; 0x530; 0x531; 0x557; 0x559; 0x55a; 0x560; 0x589;
  0x5d0; 0x5eb; 0x5ef; 0x5f3; 0x620; 0x64b; 0x66e; 0x670; 0x671; 0x6d4; 0x6d5; 0x6d6; 0x6e5;
  0x6e7; 0x6ee; 0x6f0; 0x6fa; 0x6fd; 0x6ff; 0x700; 0x710; 0x711; 0x712; 0x730; 0x74d; 0x7a6;
  0x7b1; 0x7b2; 0x7ca; 0x7eb; 0x7f4; 0x7f6; 0x7fa; 0x7fb; 0x800; 0x816; 0x81a; 0x81b; 0x824;
  0x825; 0x828; 0x829; 0x840; 0x859; 0x860; 0x86b; 0x870; 0x888; 0x889; 0x88f; 0x8a0; 0x8ca;
  0x904; 0x93a; 0x93d; 0x93e; 0x950; 0x951; 0x958; 0x962; 0x971; 0x981; 0x985; 0x98d; 0x98f;
  0x991; 0x993; 0x9a9; 0x9aa; 0x9b1; 0x9b2; 0x9b3; 0x9b6; 0x9ba; 0x9bd; 0x9be; 0x9ce; 0x9cf;
  0x9dc; 0x9de; 0x9df; 0x9e2; 0x9f0; 0x9f2; 0x9fc; 0x9fd; 0xa05; 0xa0b; 0xa0f; 0xa11; 0xa13;
  0xa29; 0xa2a; 0xa31; 0xa32; 0xa34; 0xa35; 0xa37; 0xa38; 0xa3a; 0xa59; 0xa5d; 0xa5e; 0xa5f;
  0xa72; 0xa75; 0xa85; 0xa8e; 0xa8f; 0xa92; 0xa93; 0xaa9; 0xaaa; 0xab1; 0xab2; 0xab4; 0xab5;
  0xaba; 0xabd; 0xabe; 0xad0; 0xad1; 0xae0; 0xae2; 0xaf9; 0xafa; 0xb05; 0xb0d; 0xb0f; 0xb11;
  0xb13; 0xb29; 0xb2a; 0xb31; 0xb32; 0xb34; 0xb35; 0xb3a; 0xb3d; 0xb3e; 0xb5c; 0xb5e; 0xb5f;
  0xb62; 0xb71; 0xb72; 0xb83; 0xb84; 0xb85; 0xb8b; 0xb8e; 0xb91; 0xb92; 0xb96; 0xb99; 0xb9b;
  0xb9c; 0xb9d; 0xb9e; 0xba0; 0xba3; 0xba5; 0xba8; 0xbab; 0xbae; 0xbba; 0xbd0; 0xbd1; 0xc05;
  0xc0d; 0xc0e; 0xc11; 0xc12; 0xc29; 0xc2a; 0xc3a; 0xc3d; 0xc3e; 0xc58; 0xc5b; 0xc5d; 0xc5e;
  0xc60; 0xc62; 0xc80; 0xc81; 0xc85; 0xc8d; 0xc8e; 0xc91; 0xc92; 0xca9; 0xcaa; 0xcb4; 0xcb5;
  0xcba; 0xcbd; 0xcbe; 0xcdd; 0xcdf; 0xce0; 0xce2; 0xcf1; 0xcf3; 0xd04; 0xd0d; 0xd0e; 0xd11;
  0xd12; 0xd3b; 0xd3d; 0xd3e; 0xd4e; 0xd4f; 0xd54; 0xd57; 0xd5f; 0xd62; 0xd7a; 0xd80; 0xd85;
  0xd97; 0xd9a; 0xdb2; 0xdb3; 0xdbc; 0xdbd; 0xdbe; 0xdc0; 0xdc7; 0xe01; 0xe31; 0xe32; 0xe33;
  0xe40; 0xe47; 0xe81; 0xe83; 0xe84; 0xe85; 0xe86; 0xe8b; 0xe8c; 0xea4; 0xea5; 0xea6; 0xea7;
  0xeb1; 0xeb2; 0xeb3; 0xebd; 0xebe; 0xec0; 0xec5; 0xec6; 0xec7; 0xedc; 0xee0; 0xf00; 0xf01;
  0xf40; 0xf48; 0xf49; 0xf6d; 0xf88; 0xf8d; 0x1000; 0x102b; 0x103f; 0x1040; 0x1050; 0x1056;
  0x105a; 0x105e; 0x1061; 0x1062; 0x1065; 0x1067; 0x106e; 0x1071; 0x1075; 0x1082; 0x108e;
  0x108f; 0x10a0; 0x10c6; 0x10c7; 0x10c8; 0x10cd; 0x10ce; 0x10d0; 0x10fb; 0x10fc; 0x1249;
  0x124a; 0x124e; 0x1250; 0x1257; 0x1258; 0x1259; 0x125a; 0x125e; 0x1260; 0x1289; 0x128a;
  0x128e; 0x1290; 0x12b1; 0x12b2; 0x12b6; 0x12b8; 0x12bf; 0x12c0; 0x12c1; 0x12c2; 0x12c6;
  0x12c8; 0x12d7; 0x12d8; 0x1311; 0x1312; 0x1316; 0x1318; 0x135b; 0x1380; 0x1390; 0x13a0;
  0x13f6; 0x13f8; 0x13fe; 0x1401; 0x166d; 0x166f; 0x1680; 0x1681; 0x169b; 0x16a0; 0x16eb;
  0x16ee; 0x16f9; 0x1700; 0x1712; 0x171f; 0x1732; 0x1740; 0x1752; 0x1760; 0x176d; 0x176e;
  0x1771; 0x1780; 0x17b4; 0x17d7; 0x17d8; 0x17dc; 0x17dd; 0x1820; 0x1879; 0x1880; 0x18a9;
  0x18aa; 0x18ab; 0x18b0; 0x18f6; 0x1900; 0x191f; 0x1950; 0x196e; 0x1970; 0x1975; 0x1980;
  0x19ac; 0x19b0; 0x19ca; 0x1a00; 0x1a17; 0x1a20; 0x1a55; 0x1aa7; 0x1aa8; 0x1b05; 0x1b34;
  0x1b45; 0x1b4d; 0x1b83; 0x1ba1; 0x1bae; 0x1bb0; 0x1bba; 0x1be6; 0x1c00; 0x1c24; 0x1c4d;
  0x1c50; 0x1c5a; 0x1c7e; 0x1c80; 0x1c89; 0x1c90; 0x1cbb; 0x1cbd; 0x1cc0; 0x1ce9; 0x1ced;
  0x1cee; 0x1cf4; 0x1cf5; 0x1cf7; 0x1cfa; 0x1cfb; 0x1d00; 0x1dc0; 0x1e00; 0x1f16; 0x1f18;
  0x1f1e; 0x1f20; 0x1f46; 0x1f48; 0x1f4e; 0x1f50; 0x1f58; 0x1f59; 0x1f5a; 0x1f5b; 0x1f5c;
  0x1f5d; 0x1f5e; 0x1f5f; 0x1f7e; 0x1f80; 0x1fb5; 0x1fb6; 0x1fbd; 0x1fbe; 0x1fbf; 0x1fc2;
  0x1fc5; 0x1fc6; 0x1fcd; 0x1fd0; 0x1fd4; 0x1fd6; 0x1fdc; 0x1fe0; 0x1fed; 0x1ff2; 0x1ff5;
  0x1ff6; 0x1ffd; 0x2071; 0x2072; 0x207f; 0x2080; 0x2090; 0x209d; 0x2102; 0x2103; 0x2107;
  0x2108; 0x210a; 0x2114; 0x2115; 0x2116; 0x2118; 0x211e; 0x2124; 0x2125; 0x2126; 0x2127;
  0x2128; 0x2129; 0x212a; 0x213a; 0x213c; 0x2140; 0x2145; 0x214a; 0x214e; 0x214f; 0x2160;
  0x2189; 0x2c00; 0x2ce5; 0x2ceb; 0x2cef; 0x2cf2; 0x2cf4; 0x2d00; 0x2d26; 0x2d27; 0x2d28;
  0x2d2d; 0x2d2e; 0x2d30; 0x2d68; 0x2d6f; 0x2d70; 0x2d80; 0x2d97; 0x2da0; 0x2da7; 0x2da8;
  0x2daf; 0x2db0; 0x2db7; 0x2db8; 0x2dbf; 0x2dc0; 0x2dc7; 0x2dc8; 0x2dcf; 0x2dd0; 0x2dd7;
  0x2dd8; 0x2ddf; 0x3005; 0x3008; 0x3021; 0x302a; 0x3031; 0x3036; 0x3038; 0x303d; 0x3041;
  0x3097; 0x309d; 0x30a0; 0x30a1; 0x30fb; 0x30fc; 0x3100; 0x3105; 0x3130; 0x3131; 0x318f;
  0x31a0; 0x31c0; 0x31f0; 0x3200; 0x3400; 0x4dc0; 0x4e00; 0xa48d; 0xa4d0; 0xa4fe; 0xa500;
  0xa60d; 0xa610; 0xa620; 0xa62a; 0xa62c; 0xa640; 0xa66f; 0xa67f; 0xa69e; 0xa6a0; 0xa6f0;
  0xa717; 0xa720; 0xa722; 0xa789; 0xa78b; 0xa7cb; 0xa7d0; 0xa7d2; 0xa7d3; 0xa7d4; 0xa7d5;
  0xa7da; 0xa7f2; 0xa802; 0xa803; 0xa806; 0xa807; 0xa80b; 0xa80c; 0xa823; 0xa840; 0xa874;
  0xa882; 0xa8b4; 0xa8f2; 0xa8f8; 0xa8fb; 0xa8fc; 0xa8fd; 0xa8ff; 0xa90a; 0xa926; 0xa930;
  0xa947; 0xa960; 0xa97d; 0xa984; 0xa9b3; 0xa9cf; 0xa9d0; 0xa9e0; 0xa9e5; 0xa9e6; 0xa9f0;
  0xa9fa; 0xa9ff; 0xaa00; 0xaa29; 0xaa40; 0xaa43; 0xaa44; 0xaa4c; 0xaa60; 0xaa77; 0xaa7a;
  0xaa7b; 0xaa7e; 0xaab0; 0xaab1; 0xaab2; 0xaab5; 0xaab7; 0xaab9; 0xaabe; 0xaac0; 0xaac1;
  0xaac2; 0xaac3; 0xaadb; 0xaade; 0xaae0; 0xaaeb; 0xaaf2; 0xaaf5; 0xab01; 0xab07; 0xab09;
  0xab0f; 0xab11; 0xab17; 0xab20; 0xab27; 0xab28; 0xab2f; 0xab30; 0xab5b; 0xab5c; 0xab6a;
  0xab70; 0xabe3; 0xac00; 0xd7a4; 0xd7b0; 0xd7c7; 0xd7cb; 0xd7fc; 0xf900; 0xfa6e; 0xfa70;
  0xfada; 0xfb00; 0xfb07; 0xfb13; 0xfb18; 0xfb1d; 0xfb1e; 0xfb1f; 0xfb29; 0xfb2a; 0xfb37;
  0xfb38; 0xfb3d; 0xfb3e; 0xfb3f; 0xfb40; 0xfb42; 0xfb43; 0xfb45; 0xfb46; 0xfbb2; 0xfbd3;
  0xfc5e; 0xfc64; 0xfd3e; 0xfd50; 0xfd90; 0xfd92; 0xfdc8; 0xfdf0; 0xfdfa; 0xfe71; 0xfe72;
  0xfe73; 0xfe74; 0xfe77; 0xfe78; 0xfe79; 0xfe7a; 0xfe7b; 0xfe7c; 0xfe7d; 0xfe7e; 0xfe7f;
  0xfefd; 0xff21; 0xff3b; 0xff41; 0xff5b; 0xff66; 0xff9e; 0xffa0; 0xffbf; 0xffc2; 0xffc8;
  0xffca; 0xffd0; 0xffd2; 0xffd8; 0xffda; 0xffdd; 0x10000; 0x1000c; 0x1000d; 0x10027;
  0x10028; 0x1003b; 0x1003c; 0x1003e; 0x1003f; 0x1004e; 0x10050; 0x1005e; 0x10080; 0x100fb;
  0x10140; 0x10175; 0x10280; 0x1029d; 0x102a0; 0x102d1; 0x10300; 0x10320; 0x1032d; 0x1034b;
  0x10350; 0x10376; 0x10380; 0x1039e; 0x103a0; 0x103c4; 0x103c8; 0x103d0; 0x103d1; 0x103d6;
  0x10400; 0x1049e; 0x104b0; 0x104d4; 0x104d8; 0x104fc; 0x10500; 0x10528; 0x10530; 0x10564;
  0x10570; 0x1057b; 0x1057c; 0x1058b; 0x1058c; 0x10593; 0x10594; 0x10596; 0x10597; 0x105a2;
  0x105a3; 0x105b2; 0x105b3; 0x105ba; 0x105bb; 0x105bd; 0x10600; 0x10737; 0x10740; 0x10756;
  0x10760; 0x10768; 0x10780; 0x10786; 0x10787; 0x107b1; 0x107b2; 0x107bb; 0x10800; 0x10806;
  0x10808; 0x10809; 0x1080a; 0x10836; 0x10837; 0x10839; 0x1083c; 0x1083d; 0x1083f; 0x10856;
  0x10860; 0x10877; 0x10880; 0x1089f; 0x108e0; 0x108f3; 0x108f4; 0x108f6; 0x10900; 0x10916;
  0x10920; 0x1093a; 0x10980; 0x109b8; 0x109be; 0x109c0; 0x10a00; 0x10a01; 0x10a10; 0x10a14;
  0x10a15; 0x10a18; 0x10a19; 0x10a36; 0x10a60; 0x10a7d; 0x10a80; 0x10a9d; 0x10ac0; 0x10ac8;
  0x10ac9; 0x10ae5; 0x10b00; 0x10b36; 0x10b40; 0x10b56; 0x10b60; 0x10b73; 0x10b80; 0x10b92;
  0x10c00; 0x10c49; 0x10c80; 0x10cb3; 0x10cc0; 0x10cf3; 0x10d00; 0x10d24; 0x10e80; 0x10eaa;
  0x10eb0; 0x10eb2; 0x10f00; 0x10f1d; 0x10f27; 0x10f28; 0x10f30; 0x10f46; 0x10f70; 0x10f82;
  0x10fb0; 0x10fc5; 0x10fe0; 0x10ff7; 0x11003; 0x11038; 0x11071; 0x11073; 0x11075; 0x11076;
  0x11083; 0x110b0; 0x110d0; 0x110e9; 0x11103; 0x11127; 0x11144; 0x11145; 0x11147; 0x11148;
  0x11150; 0x11173; 0x11176; 0x11177; 0x11183; 0x111b3; 0x111c1; 0x111c5; 0x111da; 0x111db;
  0x111dc; 0x111dd; 0x11200; 0x11212; 0x11213; 0x1122c; 0x1123f; 0x11241; 0x11280; 0x11287;
  0x11288; 0x11289; 0x1128a; 0x1128e; 0x1128f; 0x1129e; 0x1129f; 0x112a9; 0x112b0; 0x112df;
  0x11305; 0x1130d; 0x1130f; 0x11311; 0x11313; 0x11329; 0x1132a; 0x11331; 0x11332; 0x11334;
  0x11335; 0x1133a; 0x1133d; 0x1133e; 0x11350; 0x11351; 0x1135d; 0x11362; 0x11400; 0x11435;
  0x11447; 0x1144b; 0x1145f; 0x11462; 0x11480; 0x114b0; 0x114c4; 0x114c6; 0x114c7; 0x114c8;
  0x11580; 0x115af; 0x115d8; 0x115dc; 0x11600; 0x11630; 0x11644; 0x11645; 0x11680; 0x116ab;
  0x116b8; 0x116b9; 0x11700; 0x1171b; 0x11740; 0x11747; 0x11800; 0x1182c; 0x118a0; 0x118e0;
  0x118ff; 0x11907; 0x11909; 0x1190a; 0x1190c; 0x11914; 0x11915; 0x11917; 0x11918; 0x11930;
  0x1193f; 0x11940; 0x11941; 0x11942; 0x119a0; 0x119a8; 0x119aa; 0x119d1; 0x119e1; 0x119e2;
  0x119e3; 0x119e4; 0x11a00; 0x11a01; 0x11a0b; 0x11a33; 0x11a3a; 0x11a3b; 0x11a50; 0x11a51;
  0x11a5c; 0x11a8a; 0x11a9d; 0x11a9e; 0x11ab0; 0x11af9; 0x11c00; 0x11c09; 0x11c0a; 0x11c2f;
  0x11c40; 0x11c41; 0x11c72; 0x11c90; 0x11d00; 0x11d07; 0x11d08; 0x11d0a; 0x11d0b; 0x11d31;
  0x11d46; 0x11d47; 0x11d60; 0x11d66; 0x11d67; 0x11d69; 0x11d6a; 0x11d8a; 0x11d98; 0x11d99;
  0x11ee0; 0x11ef3; 0x11f02; 0x11f03; 0x11f04; 0x11f11; 0x11f12; 0x11f34; 0x11fb0; 0x11fb1;
  0x12000; 0x1239a; 0x12400; 0x1246f; 0x12480; 0x12544; 0x12f90; 0x12ff1; 0x13000; 0x13430;
  0x13441; 0x13447; 0x14400; 0x14647; 0x16800; 0x16a39; 0x16a40; 0x16a5f; 0x16a70; 0x16abf;
  0x16ad0; 0x16aee; 0x16b00; 0x16b30; 0x16b40; 0x16b44; 0x16b63; 0x16b78; 0x16b7d; 0x16b90;
  0x16e40; 0x16e80; 0x16f00; 0x16f4b; 0x16f50; 0x16f51; 0x16f93; 0x16fa0; 0x16fe0; 0x16fe2;
  0x16fe3; 0x16fe4; 0x17000; 0x187f8; 0x18800; 0x18cd6; 0x18d00; 0x18d09; 0x1aff0; 0x1aff4;
  0x1aff5; 0x1affc; 0x1affd; 0x1afff; 0x1b000; 0x1b123; 0x1b132; 0x1b133; 0x1b150; 0x1b153;
  0x1b155; 0x1b156; 0x1b164; 0x1b168; 0x1b170; 0x1b2fc; 0x1bc00; 0x1bc6b; 0x1bc70; 0x1bc7d;
  0x1bc80; 0x1bc89; 0x1bc90; 0x1bc9a; 0x1d400; 0x1d455; 0x1d456; 0x1d49d; 0x1d49e; 0x1d4a0;
  0x1d4a2; 0x1d4a3; 0x1d4a5; 0x1d4a7; 0x1d4a9; 0x1d4ad; 0x1d4ae; 0x1d4ba; 0x1d4bb; 0x1d4bc;
  0x1d4bd; 0x1d4c4; 0x1d4c5; 0x1d506; 0x1d507; 0x1d50b; 0x1d50d; 0x1d515; 0x1d516; 0x1d51d;
  0x1d51e; 0x1d53a; 0x1d53b; 0x1d53f; 0x1d540; 0x1d545; 0x1d546; 0x1d547; 0x1d54a; 0x1d551;
  0x1d552; 0x1d6a6; 0x1d6a8; 0x1d6c1; 0x1d6c2; 0x1d6db; 0x1d6dc; 0x1d6fb; 0x1d6fc; 0x1d715;
  0x1d716; 0x1d735; 0x1d736; 0x1d74f; 0x1d750; 0x1d76f; 0x1d770; 0x1d789; 0x1d78a; 0x1d7a9;
  0x1d7aa; 0x1d7c3; 0x1d7c4; 0x1d7cc; 0x1df00; 0x1df1f; 0x1df25; 0x1df2b; 0x1e030; 0x1e06e;
  0x1e100; 0x1e12d; 0x1e137; 0x1e13e; 0x1e14e; 0x1e14f; 0x1e290; 0x1e2ae; 0x1e2c0; 0x1e2ec;
  0x1e4d0; 0x1e4ec; 0x1e7e0; 0x1e7e7; 0x1e7e8; 0x1e7ec; 0x1e7ed; 0x1e7ef; 0x1e7f0; 0x1e7ff;
  0x1e800; 0x1e8c5; 0x1e900; 0x1e944; 0x1e94b; 0x1e94c; 0x1ee00; 0x1ee04; 0x1ee05; 0x1ee20;
  0x1ee21; 0x1ee23; 0x1ee24; 0x1ee25; 0x1ee27; 0x1ee28; 0x1ee29; 0x1ee33; 0x1ee34; 0x1ee38;
  0x1ee39; 0x1ee3a; 0x1ee3b; 0x1ee3c; 0x1ee42; 0x1ee43; 0x1ee47; 0x1ee48; 0x1ee49; 0x1ee4a;
  0x1ee4b; 0x1ee4c; 0x1ee4d; 0x1ee50; 0x1ee51; 0x1ee53; 0x1ee54; 0x1ee55; 0x1ee57; 0x1ee58;
  0x1ee59; 0x1ee5a; 0x1ee5b; 0x1ee5c; 0x1ee5d; 0x1ee5e; 0x1ee5f; 0x1ee60; 0x1ee61; 0x1ee63;
  0x1ee64; 0x1ee65; 0x1ee67; 0x1ee6b; 0x1ee6c; 0x1ee73; 0x1ee74; 0x1ee78; 0x1ee79; 0x1ee7d;
  0x1ee7e; 0x1ee7f; 0x1ee80; 0x1ee8a; 0x1ee8b; 0x1ee9c; 0x1eea1; 0x1eea4; 0x1eea5; 0x1eeaa;
  0x1eeab; 0x1eebc; 0x20000; 0x2a6e0; 0x2a700; 0x2b73a; 0x2b740; 0x2b81e; 0x2b820; 0x2cea2;
  0x2ceb0; 0x2ebe1; 0x2ebf0; 0x2ee5e; 0x2f800; 0x2fa1e; 0x30000; 0x3134b; 0x31350; 0x323b0
]%Z.

Definition CONTINUE_BOUNDS : list Z := [
  0x30; 0x3a; 0x41; 0x5b; 0x5f; 0x60; 0x61; 0x7b; 0xaa; 0xab; 0xb5; 0xb6; 0xb7; 0xb8; 0xba;
  0xbb; 0xc0; 0xd7; 0xd8; 0xf7; 0xf8; 0x2c2; 0x2c6; 0x2d2; 0x2e0; 0x2e5; 0x2ec; 0x2ed; 0x2ee;
  0x2ef; 0x300; 0x375; 0x376; 0x378; 0x37b; 0x37e; 0x37f; 0x380; 0x386; 0x38b; 0x38c; 0x38d;
  0x38e; 0x3a2; 0x3a3; 0x3f6; 0x3f7; 0x482; 0x483; 0x488; 0x48a; 0x530; 0x531; 0x557; 0x559;
  0x55a; 0x560; 0x589; 0x591; 0x5be; 0x5bf; 0x5c0; 0x5c1; 0x5c3; 0x5c4; 0x5c6; 0x5c7; 0x5c8;
  0x5d0; 0x5eb; 0x5ef; 0x5f3; 0x610; 0x61b; 0x620; 0x66a; 0x66e; 0x6d4; 0x6d5; 0x6dd; 0x6df;
  0x6e9; 0x6ea; 0x6fd; 0x6ff; 0x700; 0x710; 0x74b; 0x74d; 0x7b2; 0x7c0; 0x7f6; 0x7fa; 0x7fb;
  0x7fd; 0x7fe; 0x800; 0x82e; 0x840; 0x85c; 0x860; 0x86b; 0x870; 0x888; 0x889; 0x88f; 0x898;
  0x8e2; 0x8e3; 0x964; 0x966; 0x970; 0x971; 0x984; 0x985; 0x98d; 0x98f; 0x991; 0x993; 0x9a9;
  0x9aa; 0x9b1; 0x9b2; 0x9b3; 0x9b6; 0x9ba; 0x9bc; 0x9c5; 0x9c7; 0x9c9; 0x9cb; 0x9cf; 0x9d7;
  0x9d8; 0x9dc; 0x9de; 0x9df; 0x9e4; 0x9e6; 0x9f2; 0x9fc; 0x9fd; 0x9fe; 0x9ff; 0xa01; 0xa04;
  0xa05; 0xa0b; 0xa0f; 0xa11; 0xa13; 0xa29; 0xa2a; 0xa31; 0xa32; 0xa34; 0xa35; 0xa37; 0xa38;
  0xa3a; 0xa3c; 0xa3d; 0xa3e; 0xa43; 0xa47; 0xa49; 0xa4b; 0xa4e; 0xa51; 0xa52; 0xa59; 0xa5d;
  0xa5e; 0xa5f; 0xa66; 0xa76; 0xa81; 0xa84; 0xa85; 0xa8e; 0xa8f; 0xa92; 0xa93; 0xaa9; 0xaaa;
  0xab1; 0xab2; 0xab4; 0xab5; 0xaba; 0xabc; 0xac6; 0xac7; 0xaca; 0xacb; 0xace; 0xad0; 0xad1;
  0xae0; 0xae4; 0xae6; 0xaf0; 0xaf9; 0xb00; 0xb01; 0xb04; 0xb05; 0xb0d; 0xb0f; 0xb11; 0xb13;
  0xb29; 0xb2a; 0xb31; 0xb32; 0xb34; 0xb35; 0xb3a; 0xb3c; 0xb45; 0xb47; 0xb49; 0xb4b; 0xb4e;
  0xb55; 0xb58; 0xb5c; 0xb5e; 0xb5f; 0xb64; 0xb66; 0xb70; 0xb71; 0xb72; 0xb82; 0xb84; 0xb85;
  0xb8b; 0xb8e; 0xb91; 0xb92; 0xb96; 0xb99; 0xb9b; 0xb9c; 0xb9d; 0xb9e; 0xba0; 0xba3; 0xba5;
  0xba8; 0xbab; 0xbae; 0xbba; 0xbbe; 0xbc3; 0xbc6; 0xbc9; 0xbca; 0xbce; 0xbd0; 0xbd1; 0xbd7;
  0xbd8; 0xbe6; 0xbf0; 0xc00; 0xc0d; 0xc0e; 0xc11; 0xc12; 0xc29; 0xc2a; 0xc3a; 0xc3c; 0xc45;
  0xc46; 0xc49; 0xc4a; 0xc4e; 0xc55; 0xc57; 0xc58; 0xc5b; 0xc5d; 0xc5e; 0xc60; 0xc64; 0xc66;
  0xc70; 0xc80; 0xc84; 0xc85; 0xc8d; 0xc8e; 0xc91; 0xc92; 0xca9; 0xcaa; 0xcb4; 0xcb5; 0xcba;
  0xcbc; 0xcc5; 0xcc6; 0xcc9; 0xcca; 0xcce; 0xcd5; 0xcd7; 0xcdd; 0xcdf; 0xce0; 0xce4; 0xce6;
  0xcf0; 0xcf1; 0xcf4; 0xd00; 0xd0d; 0xd0e; 0xd11; 0xd12; 0xd45; 0xd46; 0xd49; 0xd4a; 0xd4f;
  0xd54; 0xd58; 0xd5f; 0xd64; 0xd66; 0xd70; 0xd7a; 0xd80; 0xd81; 0xd84; 0xd85; 0xd97; 0xd9a;
  0xdb2; 0xdb3; 0xdbc; 0xdbd; 0xdbe; 0xdc0; 0xdc7; 0xdca; 0xdcb; 0xdcf; 0xdd5; 0xdd6; 0xdd7;
  0xdd8; 0xde0; 0xde6; 0xdf0; 0xdf2; 0xdf4; 0xe01; 0xe3b; 0xe40; 0xe4f; 0xe50; 0xe5a; 0xe81;
  0xe83; 0xe84; 0xe85; 0xe86; 0xe8b; 0xe8c; 0xea4; 0xea5; 0xea6; 0xea7; 0xebe; 0xec0; 0xec5;
  0xec6; 0xec7; 0xec8; 0xecf; 0xed0; 0xeda; 0xedc; 0xee0; 0xf00; 0xf01; 0xf18; 0xf1a; 0xf20;
  0xf2a; 0xf35; 0xf36; 0xf37; 0xf38; 0xf39; 0xf3a; 0xf3e; 0xf48; 0xf49; 0xf6d; 0xf71; 0xf85;
  0xf86; 0xf98; 0xf99; 0xfbd; 0xfc6; 0xfc7; 0x1000; 0x104a; 0x1050; 0x109e; 0x10a0; 0x10c6;
  0x10c7; 0x10c8; 0x10cd; 0x10ce; 0x10d0; 0x10fb; 0x10fc; 0x1249; 0x124a; 0x124e; 0x1250;
  0x1257; 0x1258; 0x1259; 0x125a; 0x125e; 0x1260; 0x1289; 0x128a; 0x128e; 0x1290; 0x12b1;
  0x12b2; 0x12b6; 0x12b8; 0x12bf; 0x12c0; 0x12c1; 0x12c2; 0x12c6; 0x12c8; 0x12d7; 0x12d8;
  0x1311; 0x1312; 0x1316; 0x1318; 0x135b; 0x135d; 0x1360; 0x1369; 0x1372; 0x1380; 0x1390;
  0x13a0; 0x13f6; 0x13f8; 0x13fe; 0x1401; 0x166d; 0x166f; 0x1680; 0x1681; 0x169b; 0x16a0;
  0x16eb; 0x16ee; 0x16f9; 0x1700; 0x1716; 0x171f; 0x1735; 0x1740; 0x1754; 0x1760; 0x176d;
  0x176e; 0x1771; 0x1772; 0x1774; 0x1780; 0x17d4; 0x17d7; 0x17d8; 0x17dc; 0x17de; 0x17e0;
  0x17ea; 0x180b; 0x180e; 0x180f; 0x181a; 0x1820; 0x1879; 0x1880; 0x18ab; 0x18b0; 0x18f6;
  0x1900; 0x191f; 0x1920; 0x192c; 0x1930; 0x193c; 0x1946; 0x196e; 0x1970; 0x1975; 0x1980;
  0x19ac; 0x19b0; 0x19ca; 0x19d0; 0x19db; 0x1a00; 0x1a1c; 0x1a20; 0x1a5f; 0x1a60; 0x1a7d;
  0x1a7f; 0x1a8a; 0x1a90; 0x1a9a; 0x1aa7; 0x1aa8; 0x1ab0; 0x1abe; 0x1abf; 0x1acf; 0x1b00;
  0x1b4d; 0x1b50; 0x1b5a; 0x1b6b; 0x1b74; 0x1b80; 0x1bf4; 0x1c00; 0x1c38; 0x1c40; 0x1c4a;
  0x1c4d; 0x1c7e; 0x1c80; 0x1c89; 0x1c90; 0x1cbb; 0x1cbd; 0x1cc0; 0x1cd0; 0x1cd3; 0x1cd4;
  0x1cfb; 0x1d00; 0x1f16; 0x1f18; 0x1f1e; 0x1f20; 0x1f46; 0x1f48; 0x1f4e; 0x1f50; 0x1f58;
  0x1f59; 0x1f5a; 0x1f5b; 0x1f5c; 0x1f5d; 0x1f5e; 0x1f5f; 0x1f7e; 0x1f80; 0x1fb5; 0x1fb6;
  0x1fbd; 0x1fbe; 0x1fbf; 0x1fc2; 0x1fc5; 0x1fc6; 0x1fcd; 0x1fd0; 0x1fd4; 0x1fd6; 0x1fdc;
  0x1fe0; 0x1fed; 0x1ff2; 0x1ff5; 0x1ff6; 0x1ffd; 0x200c; 0x200e; 0x203f; 0x2041; 0x2054;
  0x2055; 0x2071; 0x2072; 0x207f; 0x2080; 0x2090; 0x209d; 0x20d0; 0x20dd; 0x20e1; 0x20e2;
  0x20e5; 0x20f1; 0x2102; 0x2103; 0x2107; 0x2108; 0x210a; 0x2114; 0x2115; 0x2116; 0x2118;
  0x211e; 0x2124; 0x2125; 0x2126; 0x2127; 0x2128; 0x2129; 0x212a; 0x213a; 0x213c; 0x2140;
  0x2145; 0x214a; 0x214e; 0x214f; 0x2160; 0x2189; 0x2c00; 0x2ce5; 0x2ceb; 0x2cf4; 0x2d00;
  0x2d26; 0x2d27; 0x2d28; 0x2d2d; 0x2d2e; 0x2d30; 0x2d68; 0x2d6f; 0x2d70; 0x2d7f; 0x2d97;
  0x2da0; 0x2da7; 0x2da8; 0x2daf; 0x2db0; 0x2db7; 0x2db8; 0x2dbf; 0x2dc0; 0x2dc7; 0x2dc8;
  0x2dcf; 0x2dd0; 0x2dd7; 0x2dd8; 0x2ddf; 0x2de0; 0x2e00; 0x3005; 0x3008; 0x3021; 0x3030;
  0x3031; 0x3036; 0x3038; 0x303d; 0x3041; 0x3097; 0x3099; 0x309b; 0x309d; 0x30a0; 0x30a1;
  0x3100; 0x3105; 0x3130; 0x3131; 0x318f; 0x31a0; 0x31c0; 0x31f0; 0x3200; 0x3400; 0x4dc0;
  0x4e00; 0xa48d; 0xa4d0; 0xa4fe; 0xa500; 0xa60d; 0xa610; 0xa62c; 0xa640; 0xa670; 0xa674;
  0xa67e; 0xa67f; 0xa6f2; 0xa717; 0xa720; 0xa722; 0xa789; 0xa78b; 0xa7cb; 0xa7d0; 0xa7d2;
  0xa7d3; 0xa7d4; 0xa7d5; 0xa7da; 0xa7f2; 0xa828; 0xa82c; 0xa82d; 0xa840; 0xa874; 0xa880;
  0xa8c6; 0xa8d0; 0xa8da; 0xa8e0; 0xa8f8; 0xa8fb; 0xa8fc; 0xa8fd; 0xa92e; 0xa930; 0xa954;
  0xa960; 0xa97d; 0xa980; 0xa9c1; 0xa9cf; 0xa9da; 0xa9e0; 0xa9ff; 0xaa00; 0xaa37; 0xaa40;
  0xaa4e; 0xaa50; 0xaa5a; 0xaa60; 0xaa77; 0xaa7a; 0xaac3; 0xaadb; 0xaade; 0xaae0; 0xaaf0;
  0xaaf2; 0xaaf7; 0xab01; 0xab07; 0xab09; 0xab0f; 0xab11; 0xab17; 0xab20; 0xab27; 0xab28;
  0xab2f; 0xab30; 0xab5b; 0xab5c; 0xab6a; 0xab70; 0xabeb; 0xabec; 0xabee; 0xabf0; 0xabfa;
  0xac00; 0xd7a4; 0xd7b0; 0xd7c7; 0xd7cb; 0xd7fc; 0xf900; 0xfa6e; 0xfa70; 0xfada; 0xfb00;
  0xfb07; 0xfb13; 0xfb18; 0xfb1d; 0xfb29; 0xfb2a; 0xfb37; 0xfb38; 0xfb3d; 0xfb3e; 0xfb3f;
  0xfb40; 0xfb42; 0xfb43; 0xfb45; 0xfb46; 0xfbb2; 0xfbd3; 0xfc5e; 0xfc64; 0xfd3e; 0xfd50;
  0xfd90; 0xfd92; 0xfdc8; 0xfdf0; 0xfdfa; 0xfe00; 0xfe10; 0xfe20; 0xfe30; 0xfe33; 0xfe35;
  0xfe4d; 0xfe50; 0xfe71; 0xfe72; 0xfe73; 0xfe74; 0xfe77; 0xfe78; 0xfe79; 0xfe7a; 0xfe7b;
  0xfe7c; 0xfe7d; 0xfe7e; 0xfe7f; 0xfefd; 0xff10; 0xff1a; 0xff21; 0xff3b; 0xff3f; 0xff40;
  0xff41; 0xff5b; 0xff65; 0xffbf; 0xffc2; 0xffc8; 0xffca; 0xffd0; 0xffd2; 0xffd8; 0xffda;
  0xffdd; 0x10000; 0x1000c; 0x1000d; 0x10027; 0x10028; 0x1003b; 0x1003c; 0x1003e; 0x1003f;
  0x1004e; 0x10050; 0x1005e; 0x10080; 0x100fb; 0x10140; 0x10175; 0x101fd; 0x101fe; 0x10280;
  0x1029d; 0x102a0; 0x102d1; 0x102e0; 0x102e1; 0x10300; 0x10320; 0x1032d; 0x1034b; 0x10350;
  0x1037b; 0x10380; 0x1039e; 0x103a0; 0x103c4; 0x103c8; 0x103d0; 0x103d1; 0x103d6; 0x10400;
  0x1049e; 0x104a0; 0x104aa; 0x104b0; 0x104d4; 0x104d8; 0x104fc; 0x10500; 0x10528; 0x10530;
  0x10564; 0x10570; 0x1057b; 0x1057c; 0x1058b; 0x1058c; 0x10593; 0x10594; 0x10596; 0x10597;
  0x105a2; 0x105a3; 0x105b2; 0x105b3; 0x105ba; 0x105bb; 0x105bd; 0x10600; 0x10737; 0x10740;
  0x10756; 0x10760; 0x10768; 0x10780; 0x10786; 0x10787; 0x107b1; 0x107b2; 0x107bb; 0x10800;
  0x10806; 0x10808; 0x10809; 0x1080a; 0x10836; 0x10837; 0x10839; 0x1083c; 0x1083d; 0x1083f;
  0x10856; 0x10860; 0x10877; 0x10880; 0x1089f; 0x108e0; 0x108f3; 0x108f4; 0x108f6; 0x10900;
  0x10916; 0x10920; 0x1093a; 0x10980; 0x109b8; 0x109be; 0x109c0; 0x10a00; 0x10a04; 0x10a05;
  0x10a07; 0x10a0c; 0x10a14; 0x10a15; 0x10a18; 0x10a19; 0x10a36; 0x10a38; 0x10a3b; 0x10a3f;
  0x10a40; 0x10a60; 0x10a7d; 0x10a80; 0x10a9d; 0x10ac0; 0x10ac8; 0x10ac9; 0x10ae7; 0x10b00;
  0x10b36; 0x10b40; 0x10b56; 0x10b60; 0x10b73; 0x10b80; 0x10b92; 0x10c00; 0x10c49; 0x10c80;
  0x10cb3; 0x10cc0; 0x10cf3; 0x10d00; 0x10d28; 0x10d30; 0x10d3a; 0x10e80; 0x10eaa; 0x10eab;
  0x10ead; 0x10eb0; 0x10eb2; 0x10efd; 0x10f1d; 0x10f27; 0x10f28; 0x10f30; 0x10f51; 0x10f70;
  0x10f86; 0x10fb0; 0x10fc5; 0x10fe0; 0x10ff7; 0x11000; 0x11047; 0x11066; 0x11076; 0x1107f;
  0x110bb; 0x110c2; 0x110c3; 0x110d0; 0x110e9; 0x110f0; 0x110fa; 0x11100; 0x11135; 0x11136;
  0x11140; 0x11144; 0x11148; 0x11150; 0x11174; 0x11176; 0x11177; 0x11180; 0x111c5; 0x111c9;
  0x111cd; 0x111ce; 0x111db; 0x111dc; 0x111dd; 0x11200; 0x11212; 0x11213; 0x11238; 0x1123e;
  0x11242; 0x11280; 0x11287; 0x11288; 0x11289; 0x1128a; 0x1128e; 0x1128f; 0x1129e; 0x1129f;
  0x112a9; 0x112b0; 0x112eb; 0x112f0; 0x112fa; 0x11300; 0x11304; 0x11305; 0x1130d; 0x1130f;
  0x11311; 0x11313; 0x11329; 0x1132a; 0x11331; 0x11332; 0x11334; 0x11335; 0x1133a; 0x1133b;
  0x11345; 0x11347; 0x11349; 0x1134b; 0x1134e; 0x11350; 0x11351; 0x11357; 0x11358; 0x1135d;
  0x11364; 0x11366; 0x1136d; 0x11370; 0x11375; 0x11400; 0x1144b; 0x11450; 0x1145a; 0x1145e;
  0x11462; 0x11480; 0x114c6; 0x114c7; 0x114c8; 0x114d0; 0x114da; 0x11580; 0x115b6; 0x115b8;
  0x115c1; 0x115d8; 0x115de; 0x11600; 0x11641; 0x11644; 0x11645; 0x11650; 0x1165a; 0x11680;
  0x116b9; 0x116c0; 0x116ca; 0x11700; 0x1171b; 0x1171d; 0x1172c; 0x11730; 0x1173a; 0x11740;
  0x11747; 0x11800; 0x1183b; 0x118a0; 0x118ea; 0x118ff; 0x11907; 0x11909; 0x1190a; 0x1190c;
  0x11914; 0x11915; 0x11917; 0x11918; 0x11936; 0x11937; 0x11939; 0x1193b; 0x11944; 0x11950;
  0x1195a; 0x119a0; 0x119a8; 0x119aa; 0x119d8; 0x119da; 0x119e2; 0x119e3; 0x119e5; 0x11a00;
  0x11a3f; 0x11a47; 0x11a48; 0x11a50; 0x11a9a; 0x11a9d; 0x11a9e; 0x11ab0; 0x11af9; 0x11c00;
  0x11c09; 0x11c0a; 0x11c37; 0x11c38; 0x11c41; 0x11c50; 0x11c5a; 0x11c72; 0x11c90; 0x11c92;
  0x11ca8; 0x11ca9; 0x11cb7; 0x11d00; 0x11d07; 0x11d08; 0x11d0a; 0x11d0b; 0x11d37; 0x11d3a;
  0x11d3b; 0x11d3c; 0x11d3e; 0x11d3f; 0x11d48; 0x11d50; 0x11d5a; 0x11d60; 0x11d66; 0x11d67;
  0x11d69; 0x11d6a; 0x11d8f; 0x11d90; 0x11d92; 0x11d93; 0x11d99; 0x11da0; 0x11daa; 0x11ee0;
  0x11ef7; 0x11f00; 0x11f11; 0x11f12; 0x11f3b; 0x11f3e; 0x11f43; 0x11f50; 0x11f5a; 0x11fb0;
  0x11fb1; 0x12000; 0x1239a; 0x12400; 0x1246f; 0x12480; 0x12544; 0x12f90; 0x12ff1; 0x13000;
  0x13430; 0x13440; 0x13456; 0x14400; 0x14647; 0x16800; 0x16a39; 0x16a40; 0x16a5f; 0x16a60;
  0x16a6a; 0x16a70; 0x16abf; 0x16ac0; 0x16aca; 0x16ad0; 0x16aee; 0x16af0; 0x16af5; 0x16b00;
  0x16b37; 0x16b40; 0x16b44; 0x16b50; 0x16b5a; 0x16b63; 0x16b78; 0x16b7d; 0x16b90; 0x16e40;
  0x16e80; 0x16f00; 0x16f4b; 0x16f4f; 0x16f88; 0x16f8f; 0x16fa0; 0x16fe0; 0x16fe2; 0x16fe3;
  0x16fe5; 0x16ff0; 0x16ff2; 0x17000; 0x187f8; 0x18800; 0x18cd6; 0x18d00; 0x18d09; 0x1aff0;
  0x1aff4; 0x1aff5; 0x1affc; 0x1affd; 0x1afff; 0x1b000; 0x1b123; 0x1b132; 0x1b133; 0x1b150;
  0x1b153; 0x1b155; 0x1b156; 0x1b164; 0x1b168; 0x1b170; 0x1b2fc; 0x1bc00; 0x1bc6b; 0x1bc70;
  0x1bc7d; 0x1bc80; 0x1bc89; 0x1bc90; 0x1bc9a; 0x1bc9d; 0x1bc9f; 0x1cf00; 0x1cf2e; 0x1cf30;
  0x1cf47; 0x1d165; 0x1d16a; 0x1d16d; 0x1d173; 0x1d17b; 0x1d183; 0x1d185; 0x1d18c; 0x1d1aa;
  0x1d1ae; 0x1d242; 0x1d245; 0x1d400; 0x1d455; 0x1d456; 0x1d49d; 0x1d49e; 0x1d4a0; 0x1d4a2;
  0x1d4a3; 0x1d4a5; 0x1d4a7; 0x1d4a9; 0x1d4ad; 0x1d4ae; 0x1d4ba; 0x1d4bb; 0x1d4bc; 0x1d4bd;
  0x1d4c4; 0x1d4c5; 0x1d506; 0x1d507; 0x1d50b; 0x1d50d; 0x1d515; 0x1d516; 0x1d51d; 0x1d51e;
  0x1d53a; 0x1d53b; 0x1d53f; 0x1d540; 0x1d545; 0x1d546; 0x1d547; 0x1d54a; 0x1d551; 0x1d552;
  0x1d6a6; 0x1d6a8; 0x1d6c1; 0x1d6c2; 0x1d6db; 0x1d6dc; 0x1d6fb; 0x1d6fc; 0x1d715; 0x1d716;
  0x1d735; 0x1d736; 0x1d74f; 0x1d750; 0x1d76f; 0x1d770; 0x1d789; 0x1d78a; 0x1d7a9; 0x1d7aa;
  0x1d7c3; 0x1d7c4; 0x1d7cc; 0x1d7ce; 0x1d800; 0x1da00; 0x1da37; 0x1da3b; 0x1da6d; 0x1da75;
  0x1da76; 0x1da84; 0x1da85; 0x1da9b; 0x1daa0; 0x1daa1; 0x1dab0; 0x1df00; 0x1df1f; 0x1df25;
  0x1df2b; 0x1e000; 0x1e007; 0x1e008; 0x1e019; 0x1e01b; 0x1e022; 0x1e023; 0x1e025; 0x1e026;
  0x1e02b; 0x1e030; 0x1e06e; 0x1e08f; 0x1e090; 0x1e100; 0x1e12d; 0x1e130; 0x1e13e; 0x1e140;
  0x1e14a; 0x1e14e; 0x1e14f; 0x1e290; 0x1e2af; 0x1e2c0; 0x1e2fa; 0x1e4d0; 0x1e4fa; 0x1e7e0;
  0x1e7e7; 0x1e7e8; 0x1e7ec; 0x1e7ed; 0x1e7ef; 0x1e7f0; 0x1e7ff; 0x1e800; 0x1e8c5; 0x1e8d0;
  0x1e8d7; 0x1e900; 0x1e94c; 0x1e950; 0x1e95a; 0x1ee00; 0x1ee04; 0x1ee05; 0x1ee20; 0x1ee21;
  0x1ee23; 0x1ee24; 0x1ee25; 0x1ee27; 0x1ee28; 0x1ee29; 0x1ee33; 0x1ee34; 0x1ee38; 0x1ee39;
  0x1ee3a; 0x1ee3b; 0x1ee3c; 0x1ee42; 0x1ee43; 0x1ee47; 0x1ee48; 0x1ee49; 0x1ee4a; 0x1ee4b;
  0x1ee4c; 0x1ee4d; 0x1ee50; 0x1ee51; 0x1ee53; 0x1ee54; 0x1ee55; 0x1ee57; 0x1ee58; 0x1ee59;
  0x1ee5a; 0x1ee5b; 0x1ee5c; 0x1ee5d; 0x1ee5e; 0x1ee5f; 0x1ee60; 0x1ee61; 0x1ee63; 0x1ee64;
  0x1ee65; 0x1ee67; 0x1ee6b; 0x1ee6c; 0x1ee73; 0x1ee74; 0x1ee78; 0x1ee79; 0x1ee7d; 0x1ee7e;
  0x1ee7f; 0x1ee80; 0x1ee8a; 0x1ee8b; 0x1ee9c; 0x1eea1; 0x1eea4; 0x1eea5; 0x1eeaa; 0x1eeab;
  0x1eebc; 0x1fbf0; 0x1fbfa; 0x20000; 0x2a6e0; 0x2a700; 0x2b73a; 0x2b740; 0x2b81e; 0x2b820;
  0x2cea2; 0x2ceb0; 0x2ebe1; 0x2ebf0; 0x2ee5e; 0x2f800; 0x2fa1e; 0x30000; 0x3134b; 0x31350;
  0x323b0; 0xe0100; 0xe01f0
]%Z.

Definition starts_identifier (c : char) : bool := in_runs START_BOUNDS c.
Definition continues_identifier (c : char) : bool := in_runs CONTINUE_BOUNDS c.

Definition is_identifier (text : str) : bool :=
  match text with
  | [] => false
  | c :: rest => starts_identifier c && all continues_identifier rest
  end.

(** * The search is membership in a run *)

(** The runs that the bounds pair up. *)
Fixpoint runs (bounds : list Z) : list (Z * Z) :=
  match bounds with
  | lo :: hi :: rest => (lo, hi) :: runs rest
  | _ => []
  end.

Definition in_run (c : Z) (run : Z * Z) : bool := (run.1 <=? c) && (c <? run.2).

(** Strictly increasing, in one pass. *)
Fixpoint increasing (bounds : list Z) : bool :=
  match bounds with
  | x :: (y :: _) as rest => (x <? y) && increasing rest
  | _ => true
  end.

(** A table of bounds: strictly increasing, with each run closed. *)
Definition well_formed (bounds : list Z) : bool :=
  increasing bounds && Nat.even (length bounds).

Lemma increasing_lt x rest : increasing (x :: rest) = true -> Forall (Z.lt x) rest.
Proof.
  revert x. induction rest as [|y rest IH]; intros x; [done|].
  change (increasing (x :: y :: rest)) with ((x <? y) && increasing (y :: rest)).
  intros [Hxy%Z.ltb_lt Hr]%andb_true_iff. constructor; [done|].
  eapply Forall_impl; [by apply IH|]. intros z ?. lia.
Qed.

Lemma increasing_tail x rest : increasing (x :: rest) = true -> increasing rest = true.
Proof. destruct rest; [done|]. simpl. by intros [_ ?]%andb_true_iff. Qed.

(** Above every bound that is left, the search stops at once. *)
Lemma take_while_below c bounds :
  Forall (Z.lt c) bounds -> take_while (fun b => b <=? c) bounds = [].
Proof. destruct 1 as [|b bs Hb]; simpl; [done|]. destruct (Z.leb_spec b c); [lia|done]. Qed.

Lemma no_run_below c bounds : Forall (Z.lt c) bounds -> existsb (in_run c) (runs bounds) = false.
Proof.
  induction bounds as [|lo|lo hi rest IH] using pair_list_ind; [done..|].
  rewrite !Forall_cons. intros (Hlo & Hhi & H). simpl. rewrite (IH H). unfold in_run. simpl. destruct (Z.leb_spec lo c); [lia|done].
Qed.

Lemma mod2_SS n : (S (S n) mod 2 = n mod 2)%nat.
Proof. replace (S (S n)) with (n + 1 * 2)%nat by lia. by rewrite Nat.Div0.mod_add. Qed.

Lemma partition_parity bounds c :
  well_formed bounds = true ->
  (partition_point (fun b => (b <=? c)%Z) bounds mod 2 =? 1)%nat = existsb (in_run c) (runs bounds).
Proof.
  unfold partition_point, well_formed. induction bounds as [|lo|lo hi rest IH] using pair_list_ind; intros Hwf.
  - done.
  - apply andb_true_iff in Hwf as [_ Hwf]. done.
  - apply andb_true_iff in Hwf as [Hinc Heven].
    pose proof (increasing_lt _ _ Hinc) as Hlo.
    pose proof (increasing_lt _ _ (increasing_tail _ _ Hinc)) as Hhi.
    assert (lo < hi) as Hlt by by inversion Hlo.
    cbn [take_while runs existsb]. unfold in_run at 1. cbn [fst snd].
    destruct (Z.leb_spec lo c) as [?|?]; [destruct (Z.leb_spec hi c) as [?|?]|].
    + cbn [length]. rewrite mod2_SS, IH.
      * destruct (Z.ltb_spec c hi); [lia|done].
      * rewrite (increasing_tail _ _ (increasing_tail _ _ Hinc)). done.
    + destruct (Z.ltb_spec c hi); [done|lia].
    + rewrite no_run_below; [done|]. eapply Forall_impl; [done|]. simpl; intros; lia.
Qed.

Lemma in_runs_spec bounds c :
  well_formed bounds = true -> in_runs bounds c = existsb (in_run c) (runs bounds).
Proof. apply partition_parity. Qed.

Lemma tables_well_formed :
  Forall (fun bounds => well_formed bounds = true)
    [NOT_PRINTABLE_BOUNDS; WORD_BOUNDS; DECIMAL_BOUNDS; START_BOUNDS; CONTINUE_BOUNDS].
Proof. repeat constructor; vm_compute; reflexivity. Qed.

Lemma is_printable_runs code :
  is_printable code = negb (existsb (in_run code) (runs NOT_PRINTABLE_BOUNDS)).
Proof.
  rewrite <-partition_parity by (vm_compute; reflexivity). unfold is_printable.
  set (n := partition_point _ _).
  pose proof (Nat.mod_upper_bound n 2 ltac:(lia)).
  destruct (n mod 2)%nat as [|[|?]]; [done|done|lia].
Qed.

(** [existsb] over the runs of a table, as a proposition. *)
Lemma in_some_run c bounds :
  existsb (in_run c) (runs bounds) = true <-> exists lo hi, (lo, hi) ∈ runs bounds /\ lo <= c < hi.
Proof.
  rewrite existsb_exists. unfold in_run. split.
  - intros ([lo hi] & Hin%list_elem_of_In & [? ?]%andb_true_iff). exists lo, hi. simpl in *. lia || (split; [done|lia]).
  - intros (lo & hi & Hin & ?). exists (lo, hi). split; [by apply list_elem_of_In|]. simpl. lia.
Qed.

(** A run of the table goes back without a break to its first code point, and the code
    point before that is in no run. *)
Definition isolated (bounds : list Z) : Prop :=
  forall lo hi, (lo, hi) ∈ runs bounds -> forall c, lo <= c < hi ->
  in_runs bounds c = true /\ in_runs bounds (lo - 1) = false /\ 0 < lo.

Lemma runs_bounds x bounds lo hi :
  increasing (x :: bounds) = true -> (lo, hi) ∈ runs bounds -> x < lo < hi.
Proof.
  revert x. induction bounds as [|l|l h rest IH] using pair_list_ind; intros x Hinc Hin;
    [by apply elem_of_nil in Hin..|].
  cbn [runs] in Hin. pose proof (increasing_tail _ _ Hinc) as Hinc1.
  pose proof (increasing_tail _ _ Hinc1) as Hinc2.
  pose proof (increasing_lt _ _ Hinc) as Hx. apply Forall_cons in Hx as [? _].
  pose proof (increasing_lt _ _ Hinc1) as Hl. apply Forall_cons in Hl as [? _].
  apply elem_of_cons in Hin as [[= -> ->]|Hin]; [lia|].
  specialize (IH h Hinc2 Hin). lia.
Qed.

(** Two runs of one table never touch. *)
Lemma runs_apart bounds lo hi lo' hi' :
  increasing bounds = true -> (lo, hi) ∈ runs bounds -> (lo', hi') ∈ runs bounds ->
  lo' <= lo - 1 < hi' -> False.
Proof.
  induction bounds as [|l|l h rest IH] using pair_list_ind; intros Hinc Hin Hin' Hc;
    [by apply elem_of_nil in Hin..|].
  cbn [runs] in *. pose proof (increasing_tail _ _ Hinc) as Hinc1.
  pose proof (increasing_lt _ _ Hinc) as Hl. apply Forall_cons in Hl as [? _].
  apply elem_of_cons in Hin as [[= -> ->]|Hin]; apply elem_of_cons in Hin' as [[= -> ->]|Hin'].
  - lia.
  - pose proof (runs_bounds _ _ _ _ Hinc1 Hin'). lia.
  - pose proof (runs_bounds _ _ _ _ Hinc1 Hin). lia.
  - apply IH; [|done..]. by eapply increasing_tail.
Qed.

Lemma isolated_table bounds :
  well_formed bounds = true -> increasing (0 :: bounds) = true -> isolated bounds.
Proof.
  intros Hwf Hpos lo hi Hin c Hc. rewrite !in_runs_spec by done.
  assert (increasing bounds = true) as Hinc by by apply increasing_tail in Hpos.
  repeat split.
  - apply in_some_run. eauto.
  - apply not_true_is_false. rewrite in_some_run. intros (lo' & hi' & Hin' & ?).
    by eapply (runs_apart bounds lo hi lo' hi').
  - pose proof (runs_bounds _ _ _ _ Hpos Hin). lia.
Qed.

(** No run of decimal digits reaches a surrogate. *)
Lemma decimal_runs_scalar lo hi c :
  (lo, hi) ∈ runs DECIMAL_BOUNDS -> lo <= c < hi -> is_scalar c = true.
Proof.
  intros Hin Hc.
  assert (forallb (fun run => (0 <=? run.1) && ((run.2 <=? 0xD800) || (0xE000 <=? run.1))
    && (run.2 <=? 0x110000)) (runs DECIMAL_BOUNDS) = true) as Hall by (vm_compute; reflexivity).
  rewrite forallb_forall in Hall. specialize (Hall _ (proj1 (list_elem_of_In _ _) Hin)).
  simpl in Hall. unfold is_scalar. lia.
Qed.

Lemma decimal_run_start_spec lo hi c steps :
  (lo, hi) ∈ runs DECIMAL_BOUNDS -> lo <= c < hi -> c - lo < Z.of_nat steps ->
  decimal_run_start steps c = lo.
Proof.
  intros Hin. revert c. induction steps as [|steps IH]; intros c Hc Hs; [lia|].
  assert (isolated DECIMAL_BOUNDS) as Hiso
    by (apply isolated_table; vm_compute; reflexivity).
  cbn [decimal_run_start]. unfold is_decimal.
  destruct (decide (c = lo)) as [->|?].
  - destruct (Hiso lo hi Hin lo ltac:(lia)) as (_ & -> & _). by rewrite andb_false_r.
  - rewrite (decimal_runs_scalar lo hi) by (done || lia).
    destruct (Hiso lo hi Hin (c - 1) ltac:(lia)) as (-> & _ & _). simpl. apply IH; lia.
Qed.

Lemma decimal_value_run lo hi c :
  (lo, hi) ∈ runs DECIMAL_BOUNDS -> lo <= c < hi -> decimal_value c = Some ((c - lo) mod 10).
Proof.
  intros Hin Hc. unfold decimal_value.
  assert (isolated DECIMAL_BOUNDS) as Hiso
    by (apply isolated_table; vm_compute; reflexivity).
  destruct (Hiso lo hi Hin c Hc) as (Hd & _ & Hpos). unfold is_decimal. rewrite Hd. simpl.
  rewrite (decimal_run_start_spec lo hi) by (done || lia). done.
Qed.

Lemma decimal_value_digit c d : decimal_value c = Some d -> 0 <= d < 10.
Proof. unfold decimal_value. destruct (negb _); [done|]. intros [= <-]. apply Z.mod_pos_bound. lia. Qed.

Lemma decimal_value_is_decimal c : is_decimal c = true <-> is_Some (decimal_value c).
Proof. unfold decimal_value. destruct (is_decimal c); simpl; [by split|]. split; [done|]. by intros [? ?]. Qed.

Lemma is_decimal_ascii c : 0x30 <= c < 0x3a -> decimal_value c = Some (c - 0x30).
Proof.
  intros Hc. rewrite (decimal_value_run 0x30 0x3a); [|vm_compute; left|done].
  f_equal. apply Z.mod_small. lia.
Qed.

(** The table searches are exact: a character is printable exactly when it is in none of
    the runs of its table, it is a word character, a decimal digit, an identifier start or
    an identifier continuation exactly when it is in a run of that class's table, and the
    value of a decimal digit is its distance from the start of its run modulo 10. *)
Theorem character_classes c :
  (is_printable c = true <-> ~ exists lo hi, (lo, hi) ∈ runs NOT_PRINTABLE_BOUNDS /\ lo <= c < hi) /\
  (is_word c = true <-> exists lo hi, (lo, hi) ∈ runs WORD_BOUNDS /\ lo <= c < hi) /\
  (is_decimal c = true <-> exists lo hi, (lo, hi) ∈ runs DECIMAL_BOUNDS /\ lo <= c < hi) /\
  (starts_identifier c = true <-> exists lo hi, (lo, hi) ∈ runs START_BOUNDS /\ lo <= c < hi) /\
  (continues_identifier c = true <-> exists lo hi, (lo, hi) ∈ runs CONTINUE_BOUNDS /\ lo <= c < hi) /\
  (forall v, decimal_value c = Some v <->
    exists lo hi, (lo, hi) ∈ runs DECIMAL_BOUNDS /\ lo <= c < hi /\ v = (c - lo) mod 10).
Proof.
  pose proof tables_well_formed as Hwf.
  apply Forall_cons in Hwf as [Hwf1 Hwf]. apply Forall_cons in Hwf as [Hwf2 Hwf].
  apply Forall_cons in Hwf as [Hwf3 Hwf]. apply Forall_cons in Hwf as [Hwf4 Hwf].
  apply Forall_cons in Hwf as [Hwf5 _].
  unfold is_word, is_decimal, starts_identifier, continues_identifier.
  rewrite is_printable_runs, negb_true_iff, <-not_true_iff_false, !in_runs_spec, !in_some_run by done.
  repeat split; try done.
  - intros Hv. assert (is_decimal c = true) as Hd by (apply decimal_value_is_decimal; eauto).
    unfold is_decimal in Hd. rewrite in_runs_spec, in_some_run in Hd by done. destruct Hd as (lo & hi & Hin & Hc).
    exists lo, hi. split; [done|]. split; [done|]. rewrite (decimal_value_run lo hi) in Hv by done. congruence.
  - intros (lo & hi & Hin & Hc & ->). by rewrite (decimal_value_run lo hi).
Qed.
