(* ===== verification/Text.v ===== *)
(** The text rules of crates/text that every other crate shares: whitespace and line
    breaks (whitespace.rs), the one-line escape (textsafe.rs), the common indentation
    (indent.rs), decimal integer texts (integer.rs) and pure POSIX paths
    (posix_path.rs). *)

From S2P Require Import Prelude RustStr Unicode.

(** * Whitespace and line breaks: whitespace.rs *)

Definition is_space (c : char) : bool :=
  ((9 <=? c) && (c <=? 13) || (0x1c <=? c) && (c <=? 0x1f) || (c =? 32) || (c =? 0x85)
   || (c =? 0xa0) || (c =? 0x1680) || (0x2000 <=? c) && (c <=? 0x200a) || (c =? 0x2028)
   || (c =? 0x2029) || (c =? 0x202f) || (c =? 0x205f) || (c =? 0x3000))%Z.

Definition is_line_break (c : char) : bool :=
  ((c =? 10) || (c =? 13) || (c =? 0x0b) || (c =? 0x0c) || (c =? 0x1c) || (c =? 0x1d)
   || (c =? 0x1e) || (c =? 0x85) || (c =? 0x2028) || (c =? 0x2029))%Z.

(** The lines of [s] after the characters [line], kept reversed, that are read of the
    line in progress. *)
Fixpoint splitlines_from (keepends : bool) (line : str) (s : str) : list str :=
  match s with
  | [] => match line with [] => [] | _ => [reverse line] end
  | c :: rest =>
      if negb (is_line_break c) then splitlines_from keepends (c :: line) rest
      else
        match rest with
        | d :: rest' =>
            if is_char c_cr c && is_char c_lf d
            then (reverse line ++ if keepends then [c; d] else []) :: splitlines_from keepends [] rest'
            else (reverse line ++ if keepends then [c] else []) :: splitlines_from keepends [] rest
        | [] => [reverse line ++ if keepends then [c] else []]
        end
  end.

Definition splitlines (s : str) (keepends : bool) : list str := splitlines_from keepends [] s.

Definition is_nonempty {A} (s : list A) : bool := match s with [] => false | _ => true end.

Definition split_whitespace (s : str) : list str := List.filter is_nonempty (split_on is_space s).

Definition strip (s : str) : str := trim is_space s.

Definition is_ascii_space (byte : Z) : bool :=
  ((byte =? 9) || (byte =? 10) || (byte =? 0x0b) || (byte =? 0x0c) || (byte =? 13) || (byte =? 32))%Z.

(** [Iterator::position] and [rposition] of the first and last byte that is not a space,
    and the slice between them. *)
Fixpoint position {A} (f : A -> bool) (l : list A) : option nat :=
  match l with
  | [] => None
  | x :: l' => if f x then Some 0 else S <$> position f l'
  end.
Fixpoint rposition {A} (f : A -> bool) (l : list A) : option nat :=
  match l with
  | [] => None
  | x :: l' => match rposition f l' with
               | Some n => Some (S n)
               | None => if f x then Some 0 else None
               end
  end.
Definition strip_bytes (bytes : list Z) : list Z :=
  let start := default (length bytes) (position (fun byte => negb (is_ascii_space byte)) bytes) in
  let stop := match rposition (fun byte => negb (is_ascii_space byte)) bytes with
              | Some last => last + 1
              | None => start
              end in
  take (stop - start) (drop start bytes).

(** * The one-line escape: textsafe.rs *)

Definition is_unsafe (c : char) : bool :=
  ((0 <=? c) && (c <=? 8) || (10 <=? c) && (c <=? 0x1f) || (0x7f <=? c) && (c <=? 0x9f)
   || (c =? 0x2028) || (c =? 0x2029))%Z.

Definition code_escape (c : char) : str :=
  if (c <=? 0xff)%Z then lit "\x" ++ hex_padded 2 c else lit "\u" ++ hex_padded 4 c.

Definition one_line (text : str) : str :=
  if negb (any is_unsafe text) then text
  else concat ((fun c =>
    if is_char c_lf c then lit "\n"
    else if is_char c_cr c then lit "\r"
    else if is_unsafe c then code_escape c
    else [c]) <$> text).

(** * The common indentation: indent.rs *)

Definition is_margin (c : char) : bool := is_char 32 c || is_char 9 c.

Definition blanked (line : str) : str := if all is_margin line then [] else line.

Definition indent (line : str) : str := take (length line - length (trim_start is_margin line)) line.

Fixpoint common_prefix (left right : str) : str :=
  match left, right with
  | x :: left', y :: right' => if (x =? y)%Z then x :: common_prefix left' right' else []
  | _, _ => []
  end.

(** [Iterator::reduce]. *)
Definition reduce {A} (f : A -> A -> A) (l : list A) : option A :=
  match l with
  | [] => None
  | x :: rest => Some (fold_left f rest x)
  end.

Definition dedent_margin (lines : list str) : str :=
  default [] (reduce common_prefix (indent <$> List.filter is_nonempty lines)).

Definition dedent (text : str) : str :=
  let lines := blanked <$> split_char c_lf text in
  let margin := dedent_margin lines in
  join_with [c_lf] ((fun line => default line (strip_prefix margin line)) <$> lines).

(** * Decimal integer texts: integer.rs *)

Definition MAX_CONVERTIBLE_DIGITS : nat := 4300.

Record IntText := { negative : bool; grouped : list Z }.

Definition digits (t : IntText) : list Z :=
  (fun byte => byte - 48)%Z <$> List.filter (fun byte => negb (is_char 95 byte)) (grouped t).

Definition is_ascii_digit (c : char) : bool := ((48 <=? c) && (c <=? 57))%Z.

Definition is_int_space (c : char) : bool :=
  if (c <? 0x80)%Z then is_ascii_space c else is_space c.

Definition signed (text : list Z) : option IntText :=
  let '(neg, grp) :=
    match text with
    | c :: rest => if is_char 45 c then (true, rest)
                   else if is_char 43 c then (false, rest) else (false, text)
    | [] => (false, text)
    end in
  if all (fun group => is_nonempty group && all is_ascii_digit group) (split_char 95 grp)
  then Some {| negative := neg; grouped := grp |} else None.

Definition int_text (text : str) : option IntText := signed (trim is_int_space text).

Definition convertible_int (text : str) : option IntText :=
  match int_text text with
  | Some found => if length (digits found) <=? MAX_CONVERTIBLE_DIGITS then Some found else None
  | None => None
  end.

Definition int_bytes (bytes : list Z) : option IntText := signed (strip_bytes bytes).

(** * Pure POSIX paths: posix_path.rs *)

Module PosixPath.

Record PosixPath := { anchor : str; parts : list str }.

Definition posix_anchor (path : str) : str :=
  if starts_with (lit "//") path && negb (starts_with (lit "///") path) then lit "//"
  else if starts_with (lit "/") path then lit "/"
  else [].

Definition is_posix_part (part : str) : bool :=
  is_nonempty part && negb (bool_decide (part = lit ".")).

Definition parse (text : str) : PosixPath :=
  {| anchor := posix_anchor text;
     parts := List.filter is_posix_part (split_char c_slash text) |}.

Definition parent (p : PosixPath) : PosixPath :=
  {| anchor := anchor p; parts := take (length (parts p) - 1) (parts p) |}.

Definition part_count (p : PosixPath) : nat :=
  length (parts p) + (if is_nonempty (anchor p) then 1 else 0).

Definition render (p : PosixPath) : str :=
  let joined := join_with [c_slash] (parts p) in
  if negb (is_nonempty (anchor p)) && negb (is_nonempty joined) then lit "."
  else anchor p ++ joined.

Definition join (p : PosixPath) (tail : str) : str :=
  if starts_with [c_slash] tail then tail else render p ++ [c_slash] ++ tail.

(** [str::rfind] of one character. *)
Definition rfind_char (c : char) (s : str) : option nat := rposition (is_char c) s.

Definition split_suffix (name : str) : str * str :=
  match rfind_char c_dot name with
  | Some dot => if (0 <? dot) && (dot + 1 <? length name)
                then (take dot name, drop dot name) else (name, [])
  | None => (name, [])
  end.

Definition without_suffix (p : PosixPath) : PosixPath :=
  {| anchor := anchor p;
     parts := match last (parts p) with
              | Some name => take (length (parts p) - 1) (parts p) ++ [(split_suffix name).1]
              | None => parts p
              end |}.

Definition posix_name (path : str) : str :=
  default [] (List.find is_posix_part (reverse (split_char c_slash path))).

End PosixPath.

(** [str::rsplit_once] at a character. *)
Definition rsplit_once (c : char) (s : str) : option (str * str) :=
  match rposition (is_char c) s with
  | Some n => Some (take n s, drop (S n) s)
  | None => None
  end.

Lemma position_spec {A} (f : A -> bool) (l : list A) :
  match position f l with
  | Some n => (exists x, l !! n = Some x /\ f x = true) /\ forall i x, i < n -> l !! i = Some x -> f x = false
  | None => forall i x, l !! i = Some x -> f x = false
  end.
Proof.
  induction l as [|y l IH]; [done|]. cbn [position]. destruct (f y) eqn:E.
  - split; [by exists y|]. intros i x Hi. lia.
  - destruct (position f l) as [n|]; cbn.
    + destruct IH as [(x & Hx & Hf) Hno]. split; [by exists x|]. intros [|i] z Hi; cbn; [by intros [= ->]|]. apply Hno. lia.
    + intros [|i] z; cbn; [by intros [= ->]|]. apply IH.
Qed.

Lemma rposition_last {A} (f : A -> bool) l x r :
  f x = true -> Forall (fun y => f y = false) r -> rposition f (l ++ x :: r) = Some (length l).
Proof.
  intros Hx Hr.
  assert (rposition f r = None) as E by (clear -Hr; induction Hr as [|y r Hy _ IH]; [done|]; cbn; by rewrite IH, Hy).
  induction l as [|y l IH]; cbn; [by rewrite E, Hx|by rewrite IH].
Qed.

Arguments is_space : simpl never.
Arguments is_line_break : simpl never.
Arguments is_unsafe : simpl never.
Arguments is_margin : simpl never.
Arguments is_ascii_digit : simpl never.
Arguments is_ascii_space : simpl never.
Arguments is_int_space : simpl never.

(** * Lemmas *)

(** ** Lines *)

(** What a line break of the text is: one break character, or a carriage return and a
    line feed. *)
Definition is_break_text (brk : str) : Prop :=
  brk = [c_cr; c_lf] \/ exists c, brk = [c] /\ is_line_break c = true.

Lemma position_app_false {A} (P : A -> bool) l1 l2 : Forall (fun x => P x = false) l1 ->
  position P (l1 ++ l2) = Nat.add (length l1) <$> position P l2.
Proof.
  induction 1 as [|x l Hx _ IH]; cbn; [by destruct (position P l2)|]. rewrite Hx, IH. by destruct (position P l2).
Qed.

Lemma splitlines_from_spec line s :
  Forall (fun c => is_line_break c = false) line ->
  concat (splitlines_from true line s) = reverse line ++ s /\
  Forall (Forall (fun c => is_line_break c = false)) (splitlines_from false line s) /\
  Forall2 (fun kept bare => exists brk, kept = bare ++ brk /\ (brk = [] \/ is_break_text brk))
    (splitlines_from true line s) (splitlines_from false line s).
Proof.
  remember (length s) as n eqn:Hn. revert line s Hn.
  induction n as [n IH] using lt_wf_ind. intros line s -> Hline.
  destruct s as [|c rest].
  - destruct line as [|d line]; [by simpl|]. cbn [splitlines_from].
    split; [by simpl|]. split.
    + constructor; [by apply Forall_reverse|constructor].
    + constructor; [|constructor]. exists []. rewrite app_nil_r. eauto.
  - cbn [splitlines_from]. destruct (is_line_break c) eqn:Hc; cbn [negb].
    + assert (forall rest' brk, length rest' < length (c :: rest) -> is_break_text brk ->
        concat ((reverse line ++ brk) :: splitlines_from true [] rest') = reverse line ++ brk ++ rest' /\
        Forall (Forall (fun c => is_line_break c = false))
          ((reverse line ++ []) :: splitlines_from false [] rest') /\
        Forall2 (fun kept bare => exists brk, kept = bare ++ brk /\ (brk = [] \/ is_break_text brk))
          ((reverse line ++ brk) :: splitlines_from true [] rest')
          ((reverse line ++ []) :: splitlines_from false [] rest')) as Hstep.
      { intros rest' brk Hlt Hbrk. destruct (IH _ Hlt [] rest' eq_refl ltac:(done)) as (Hj & Hf & H2).
        cbn [concat]. rewrite app_nil_r. rewrite reverse_nil in Hj. simpl in Hj.
        split; [by rewrite Hj, <-app_assoc|]. split.
        - constructor; [by apply Forall_reverse|done].
        - constructor; [by exists brk; auto|done]. }
      destruct rest as [|d rest'].
      * apply (Hstep [] [c]); [simpl; lia|]. right. eauto.
      * destruct (is_char c_cr c && is_char c_lf d) eqn:E.
        -- bool_hyps. apply is_char_true in H, H0. subst.
           apply (Hstep rest' [c_cr; c_lf]); [simpl; lia|]. by left.
        -- apply (Hstep (d :: rest') [c]); [simpl; lia|]. right. eauto.
    + destruct (IH (length rest) ltac:(simpl; lia) (c :: line) rest eq_refl) as (Hj & ? & ?);
        [by constructor|].
      rewrite reverse_cons, <-app_assoc in Hj. done.
Qed.

(** ** Whitespace *)

Lemma is_space_lf : is_space c_lf = true. Proof. done. Qed.

Lemma strip_free s : Forall (fun c => is_space c = false) s -> strip s = s.
Proof. apply trim_free. Qed.

(** A text that starts and ends with a character that is not whitespace. *)
Lemma strip_id s :
  (forall c, head s = Some c -> is_space c = false) ->
  (forall c, last s = Some c -> is_space c = false) -> strip s = s.
Proof.
  intros Hh Hl. unfold strip, trim, trim_end_of.
  assert (trim_start is_space s = s) as ->.
  { destruct s as [|c s]; [done|]. apply trim_start_id. by apply Hh. }
  destruct s as [|c s _] using rev_ind; [done|].
  rewrite reverse_snoc, trim_start_id by (apply Hl; by rewrite last_snoc).
  by rewrite reverse_cons, reverse_involutive.
Qed.

Lemma strip_nil_iff s : strip s = [] <-> Forall (fun c => is_space c = true) s.
Proof.
  unfold strip, trim, trim_end_of. split.
  - intros H. apply (f_equal reverse) in H. rewrite reverse_involutive in H.
    apply trim_start_all in H. apply Forall_reverse in H. rewrite reverse_involutive in H.
    destruct (trim_start_suffix is_space s) as (p & Hp & Hf).
    rewrite Hp. apply Forall_app. done.
  - intros H. apply trim_start_all in H. by rewrite H.
Qed.

(** ** The one-line escape *)

Lemma hex_digit_safe d : (0 <= d < 16)%Z -> is_unsafe (hex_digit d) = false.
Proof. intros. unfold is_unsafe, hex_digit. destruct (Z.ltb_spec d 10); lia. Qed.

Lemma hex_padded_safe w n : (0 <= n)%Z -> Forall (fun c => is_unsafe c = false) (hex_padded w n).
Proof.
  intros Hn. destruct (digits_of_spec 16 n ltac:(lia) Hn) as (_ & _ & Hf & _).
  unfold hex_padded. apply Forall_app. split; [by apply Forall_replicate|].
  apply Forall_fmap. eapply Forall_impl; [exact Hf|]. intros d Hd. by apply hex_digit_safe.
Qed.

Lemma code_escape_safe c : (0 <= c)%Z -> Forall (fun c => is_unsafe c = false) (code_escape c).
Proof.
  intros. unfold code_escape.
  case_match; (apply Forall_app; split; [by lit_forall|by apply hex_padded_safe]).
Qed.

Lemma one_line_safe_lines text : Forall (fun c => is_unsafe c = false) (one_line text).
Proof.
  unfold one_line. destruct (any is_unsafe text) eqn:E; simpl; [|by apply any_false].
  apply Forall_concat, Forall_fmap, Forall_forall. intros c _. simpl.
  destruct (is_char c_lf c); [by lit_forall|].
  destruct (is_char c_cr c); [by lit_forall|].
  destruct (is_unsafe c) eqn:Hc; [|by repeat constructor].
  apply code_escape_safe. unfold is_unsafe in Hc. lia.
Qed.

(** ** The common indentation *)

Lemma indent_spec line : line = indent line ++ trim_start is_margin line.
Proof.
  unfold indent. destruct (trim_start_suffix is_margin line) as (p & Hp & _).
  generalize dependent (trim_start is_margin line). intros t ->. rewrite length_app.
  replace (length p + length t - length t) with (length p) by lia. by rewrite take_app_length.
Qed.

Lemma indent_margin line : Forall (fun c => is_margin c = true) (indent line).
Proof.
  destruct (trim_start_suffix is_margin line) as (p & Hp & Hf).
  pose proof (indent_spec line) as Hi. rewrite Hp in Hi at 1.
  apply app_inv_tail in Hi. by rewrite <-Hi.
Qed.

Lemma common_prefix_l l r : common_prefix l r `prefix_of` l.
Proof.
  revert r. induction l as [|x l IH]; intros [|y r]; simpl; try apply prefix_nil.
  destruct (Z.eqb_spec x y); [apply prefix_cons, IH|apply prefix_nil].
Qed.

Lemma common_prefix_r l r : common_prefix l r `prefix_of` r.
Proof.
  revert r. induction l as [|x l IH]; intros [|y r]; simpl; try apply prefix_nil.
  destruct (Z.eqb_spec x y) as [->|]; [apply prefix_cons, IH|apply prefix_nil].
Qed.

Lemma common_prefix_max p l r : p `prefix_of` l -> p `prefix_of` r -> p `prefix_of` common_prefix l r.
Proof.
  revert l r. induction p as [|c p IH]; intros l r Hl Hr; [apply prefix_nil|].
  destruct Hl as [l' ->], Hr as [r' ->]. simpl. rewrite Z.eqb_refl.
  apply prefix_cons, IH; by eexists.
Qed.

Lemma fold_common_prefix ls acc :
  fold_left common_prefix ls acc `prefix_of` acc /\
  Forall (fun l => fold_left common_prefix ls acc `prefix_of` l) ls /\
  forall p, p `prefix_of` acc -> Forall (fun l => p `prefix_of` l) ls ->
    p `prefix_of` fold_left common_prefix ls acc.
Proof.
  revert acc. induction ls as [|l ls IH]; intros acc; simpl; [by repeat constructor|].
  destruct (IH (common_prefix acc l)) as (H1 & H2 & H3). split; [|split].
  - etrans; [exact H1|apply common_prefix_l].
  - constructor; [etrans; [exact H1|apply common_prefix_r]|done].
  - intros p Hp [Hl Hls]%Forall_cons. apply H3; [by apply common_prefix_max|done].
Qed.

Lemma dedent_margin_prefix lines :
  Forall (fun line => line <> [] -> dedent_margin lines `prefix_of` indent line) lines.
Proof.
  apply Forall_forall. intros line Hin Hne. unfold dedent_margin.
  assert (indent line ∈ indent <$> List.filter is_nonempty lines) as Hin'.
  { apply list_elem_of_fmap. exists line. split; [done|].
    apply list_elem_of_In, filter_In. split; [by apply list_elem_of_In|]. by destruct line. }
  destruct (indent <$> List.filter is_nonempty lines) as [|i inds]; [by apply elem_of_nil in Hin'|].
  simpl. destruct (fold_common_prefix inds i) as (H1 & H2 & _).
  apply elem_of_cons in Hin' as [->|Hin']; [done|]. by eapply Forall_forall in H2.
Qed.

Lemma dedent_margin_max lines p :
  Forall (fun c => is_margin c = true) p ->
  (exists line, line ∈ lines /\ line <> []) ->
  Forall (fun line => line <> [] -> p `prefix_of` line) lines -> p `prefix_of` dedent_margin lines.
Proof.
  intros Hp (l0 & Hl0 & Hne0) Hall.
  assert (Forall (fun i => p `prefix_of` i) (indent <$> List.filter is_nonempty lines)) as Hind.
  { apply Forall_fmap, Forall_forall. intros line Hin%list_elem_of_In.
    apply filter_In in Hin as [Hin%list_elem_of_In Hne]. simpl.
    assert (p `prefix_of` line) as Hpl by (eapply Forall_forall in Hall; [apply Hall|done]; by destruct line).
    pose proof (indent_spec line) as Hi. destruct (trim_start is_margin line) as [|c r] eqn:E.
    - rewrite app_nil_r in Hi. by rewrite <-Hi.
    - destruct (prefix_weak_total p (indent line) line) as [?|[k Hk]]; [done|by eexists|done|].
      rewrite Hk. destruct k as [|d k]; [rewrite app_nil_r; done|].
      exfalso. destruct Hpl as [t Ht]. rewrite Hk, <-app_assoc in Ht.
      pose proof (eq_trans (eq_sym Hi) Ht) as Heq. apply app_inv_head in Heq. injection Heq as -> _.
      apply trim_start_head in E. rewrite Hk in Hp. apply Forall_app in Hp as [_ Hp].
      apply Forall_cons in Hp as [? _]. congruence. }
  unfold dedent_margin.
  assert (indent l0 ∈ indent <$> List.filter is_nonempty lines) as Hin.
  { apply list_elem_of_fmap. exists l0. split; [done|].
    apply list_elem_of_In, filter_In. split; [by apply list_elem_of_In|]. by destruct l0. }
  destruct (indent <$> List.filter is_nonempty lines) as [|i inds]; [by apply elem_of_nil in Hin|].
  simpl. apply Forall_cons in Hind as [Hi Hinds].
  destruct (fold_common_prefix inds i) as (_ & _ & H3). by apply H3.
Qed.

Lemma is_margin_lf : is_margin c_lf = false. Proof. done. Qed.

Lemma blanked_free line : char_free c_lf line -> char_free c_lf (blanked line).
Proof. unfold blanked. case_match; [by constructor|done]. Qed.

Lemma blanked_blanked line : blanked (blanked line) = blanked line.
Proof. unfold blanked. destruct (all is_margin line) eqn:E; [done|]. by rewrite E. Qed.

Lemma blanked_nonempty line : blanked line <> [] -> all is_margin line = false /\ blanked line = line.
Proof. unfold blanked. by destruct (all is_margin line). Qed.

(** Removing a margin prefix from a line that is not blank leaves a line that is not
    blank. *)
Lemma blanked_drop_margin m l :
  Forall (fun c => is_margin c = true) m -> blanked (m ++ l) = m ++ l -> m ++ l <> [] ->
  blanked l = l /\ l <> [].
Proof.
  intros Hm Hb Hne. unfold blanked in *.
  destruct (all is_margin (m ++ l)) eqn:E; [by destruct (m ++ l)|].
  destruct (all is_margin l) eqn:E'.
  - exfalso. apply all_spec in E'. apply not_true_iff_false in E. apply E, all_spec.
    by apply Forall_app.
  - split; [done|]. by intros ->.
Qed.

Lemma dedent_margin_is_margin lines : Forall (fun c => is_margin c = true) (dedent_margin lines).
Proof.
  unfold dedent_margin. destruct (List.filter is_nonempty lines) as [|l ls] eqn:E; [constructor|].
  simpl. destruct (fold_common_prefix (indent <$> ls) (indent l)) as ([k Hk] & _).
  pose proof (indent_margin l) as Hm. rewrite Hk in Hm. by apply Forall_app in Hm as [? _].
Qed.

(** The lines of a dedented text, from the blanked lines of the text. *)
Definition dedent_lines (lines : list str) : list str :=
  (fun line => default line (strip_prefix (dedent_margin lines) line)) <$> lines.

Lemma dedent_lines_spec lines line :
  line ∈ lines -> line <> [] ->
  exists l, line = dedent_margin lines ++ l /\ default line (strip_prefix (dedent_margin lines) line) = l.
Proof.
  intros Hin Hne. pose proof (dedent_margin_prefix lines) as Hall. rewrite Forall_forall in Hall.
  destruct (Hall line Hin Hne) as [k Hk]. pose proof (indent_spec line) as Hi.
  rewrite Hk, <-app_assoc in Hi. eexists. split; [exact Hi|].
  rewrite (proj2 (strip_prefix_Some (dedent_margin lines) line _) Hi). done.
Qed.

Lemma dedent_eq text : dedent text = join_with [c_lf] (dedent_lines (blanked <$> split_char c_lf text)).
Proof. done. Qed.

Lemma dedent_lines_blank lines : default [] (strip_prefix (dedent_margin lines) []) = [].
Proof. by destruct (dedent_margin lines). Qed.

Lemma split_dedent text :
  split_char c_lf (dedent text) = dedent_lines (blanked <$> split_char c_lf text).
Proof.
  rewrite dedent_eq. set (lines := blanked <$> split_char c_lf text).
  assert (Forall (char_free c_lf) lines) as Hfree.
  { apply Forall_fmap. eapply Forall_impl; [apply split_char_free|]. intros l ?. by apply blanked_free. }
  apply split_join_char.
  - unfold dedent_lines, lines. pose proof (split_char_nonempty c_lf text).
    by destruct (split_char c_lf text).
  - apply Forall_fmap. rewrite Forall_forall in Hfree |- *. intros l Hl. simpl.
    destruct (strip_prefix (dedent_margin lines) l) as [r|] eqn:E; [|by apply Hfree].
    apply strip_prefix_Some in E. specialize (Hfree l Hl). rewrite E in Hfree.
    by apply Forall_app in Hfree as [_ ?].
Qed.

(** The dedented lines are blanked already, and share no margin. *)
Lemma dedent_lines_blanked lines :
  Forall (fun l => blanked l = l) lines -> Forall (fun l => blanked l = l) (dedent_lines lines).
Proof.
  intros Hb. apply Forall_fmap. rewrite Forall_forall in Hb |- *. intros l Hl. simpl.
  destruct (decide (l = [])) as [->|Hne].
  - by rewrite dedent_lines_blank.
  - destruct (dedent_lines_spec lines l Hl Hne) as (k & Hk & ->).
    eapply blanked_drop_margin; [apply dedent_margin_is_margin| |]; rewrite <-Hk; auto.
Qed.

Lemma dedent_lines_no_margin lines :
  Forall (fun l => blanked l = l) lines -> dedent_margin (dedent_lines lines) = [].
Proof.
  intros Hb. set (m := dedent_margin lines). set (p := dedent_margin (dedent_lines lines)).
  destruct (List.filter is_nonempty (dedent_lines lines)) as [|l0 ls0] eqn:Ef.
  { unfold p, dedent_margin. by rewrite Ef. }
  assert (m ++ p `prefix_of` m) as [k Hk].
  - apply dedent_margin_max.
    + apply Forall_app. split; apply dedent_margin_is_margin.
    + assert (l0 ∈ List.filter is_nonempty (dedent_lines lines)) as Hin by (rewrite Ef; left).
      apply list_elem_of_In, filter_In in Hin as [Hin%list_elem_of_In Hne].
      apply list_elem_of_fmap in Hin as (l & -> & Hl). exists l. split; [done|].
      intros ->. by rewrite dedent_lines_blank in Hne.
    + apply Forall_forall. intros l Hl Hne.
      destruct (dedent_lines_spec lines l Hl Hne) as (k & Hk & Hd). rewrite Hk at 1.
      apply prefix_app.
      assert (k ∈ dedent_lines lines) as Hin by (apply list_elem_of_fmap; eauto).
      rewrite Forall_forall in Hb. specialize (Hb l Hl).
      destruct (blanked_drop_margin (dedent_margin lines) k) as [_ Hkne];
        [apply dedent_margin_is_margin|rewrite <-Hk; done..|].
      pose proof (dedent_margin_prefix (dedent_lines lines)) as Hp. rewrite Forall_forall in Hp.
      etrans; [by apply Hp|]. rewrite (indent_spec k) at 2. by eexists.
  - apply (f_equal length) in Hk. rewrite !length_app in Hk. fold p m in Hk.
    by destruct p; [|simpl in Hk; lia].
Qed.

Lemma strip_prefix_nil {A} `{EqDecision A} (s : list A) : strip_prefix [] s = Some s.
Proof. done. Qed.

(** [dedent] is idempotent: once a text's common margin is gone, no margin is left to
    remove, and its blank lines are empty already. *)
Theorem dedent_idempotent text : dedent (dedent text) = dedent text.
Proof.
  rewrite (dedent_eq (dedent text)), split_dedent.
  set (lines := blanked <$> split_char c_lf text).
  assert (Forall (fun l => blanked l = l) lines) as Hb
    by (apply Forall_fmap, Forall_forall; intros l _; apply blanked_blanked).
  assert (blanked <$> dedent_lines lines = dedent_lines lines) as ->.
  { pose proof (dedent_lines_blanked lines Hb) as H. induction H as [|l ls Hl _ IH]; [done|].
    rewrite fmap_cons. by f_equal. }
  unfold dedent_lines at 1. rewrite dedent_lines_no_margin by done.
  rewrite dedent_eq. fold lines. f_equal.
  rewrite <-(list_fmap_id (dedent_lines lines)) at 2. by apply list_fmap_ext.
Qed.

(** Every line of the text that is not blank loses exactly the margin, the longest run
    of spaces and tabs that starts all of them; a blank line becomes empty, and no line
    is added or dropped. *)
Theorem dedent_removes_common_margin text :
  let lines := blanked <$> split_char c_lf text in
  let m := dedent_margin lines in
  Forall2 (fun line out => (all is_margin line = true /\ out = []) \/
                           (all is_margin line = false /\ line = m ++ out))
    (split_char c_lf text) (split_char c_lf (dedent text)) /\
  (forall p, Forall (fun c => is_margin c = true) p ->
     (exists line, line ∈ split_char c_lf text /\ all is_margin line = false) ->
     Forall (fun line => all is_margin line = false -> p `prefix_of` line) (split_char c_lf text) ->
     p `prefix_of` m).
Proof.
  cbn zeta. rewrite split_dedent. split.
  - unfold dedent_lines. rewrite <-list_fmap_compose. apply Forall2_fmap_r, Forall_Forall2_diag, Forall_forall.
    intros line Hl. simpl. set (lines := blanked <$> split_char c_lf text).
    destruct (all is_margin line) eqn:E; [left|right]; (split; [done|]).
    + unfold blanked at 1 2. rewrite E. apply dedent_lines_blank.
    + assert (blanked line = line) as Hbl by (unfold blanked; by rewrite E).
      destruct (dedent_lines_spec lines (blanked line)) as (l & Hl' & ->).
      * apply list_elem_of_fmap. eauto.
      * rewrite Hbl. by intros ->.
      * by rewrite Hbl in Hl'.
  - intros p Hp (line & Hin & Hline) Hall. apply dedent_margin_max; [done| |].
    + exists (blanked line). split; [apply list_elem_of_fmap; eauto|].
      unfold blanked. rewrite Hline. by intros ->.
    + apply Forall_fmap. eapply Forall_impl; [exact Hall|]. intros l Hl Hne. simpl in *.
      apply blanked_nonempty in Hne as [? ->]. auto.
Qed.

(** [splitlines] loses nothing: the lines with their ends join back to the text, no
    line holds a break, and a kept end is one line break of the text, or empty. *)
Theorem splitlines_lossless s :
  concat (splitlines s true) = s /\
  Forall (Forall (fun c => is_line_break c = false)) (splitlines s false) /\
  Forall2 (fun kept bare => exists brk, kept = bare ++ brk /\ (brk = [] \/ is_break_text brk))
    (splitlines s true) (splitlines s false).
Proof. apply (splitlines_from_spec [] s). constructor. Qed.

(** Text from a repository cannot open a line in an answer: [one_line] leaves no
    control character and no line terminator, and it leaves a text without them as it
    is, so it is idempotent. *)
Theorem one_line_safe text :
  any is_unsafe (one_line text) = false /\
  (any is_unsafe text = false -> one_line text = text) /\
  one_line (one_line text) = one_line text.
Proof.
  assert (any is_unsafe (one_line text) = false) as Hs by apply any_false, one_line_safe_lines.
  split; [done|]. split.
  - intros H. unfold one_line. by rewrite H.
  - unfold one_line at 1. by rewrite Hs.
Qed.

(** ** Decimal integer texts *)

(** The number that an integer text spells. *)
Definition int_value (t : IntText) : Z :=
  ((if negative t then -1 else 1) * value_of 10 (digits t))%Z.

(** The decimal text of any integer. *)
Definition signed_text (n : Z) : str := if (n <? 0)%Z then 45%Z :: dec_text (- n) else dec_text n.

Lemma dec_text_digits n : (0 <= n)%Z -> Forall (fun c => is_ascii_digit c = true) (dec_text n).
Proof.
  intros Hn. destruct (digits_of_spec 10 n ltac:(lia) Hn) as (_ & _ & Hf & _).
  apply Forall_fmap. eapply Forall_impl; [exact Hf|]. intros d Hd. simpl in *. unfold is_ascii_digit. lia.
Qed.

Lemma dec_text_nonempty n : (0 <= n)%Z -> dec_text n <> [].
Proof.
  intros Hn. destruct (digits_of_spec 10 n ltac:(lia) Hn) as (Hne & _).
  unfold dec_text. by destruct (digits_of 10 n).
Qed.

Lemma ascii_digit_range c : is_ascii_digit c = true -> (48 <= c <= 57)%Z.
Proof. unfold is_ascii_digit. lia. Qed.

Lemma digits_of_ascii l : Forall (fun c => is_ascii_digit c = true) l ->
  List.filter (fun byte => negb (is_char 95 byte)) l = l.
Proof.
  induction 1 as [|c l Hc _ IH]; simpl; [done|]. apply ascii_digit_range in Hc.
  rewrite (proj2 (is_char_false 95 c)) by lia. simpl. by rewrite IH.
Qed.

Lemma signed_digits l :
  l <> [] -> Forall (fun c => is_ascii_digit c = true) l ->
  all (fun group => is_nonempty group && all is_ascii_digit group) (split_char 95 l) = true.
Proof.
  intros Hne Hf. unfold split_char. rewrite split_on_of_free.
  - unfold all. cbn [forallb]. rewrite andb_true_r. apply andb_true_iff.
    split; [by destruct l|]. by apply all_spec.
  - eapply Forall_impl; [exact Hf|]. intros c Hc%ascii_digit_range. apply is_char_false. lia.
Qed.

Lemma signed_signed_text n :
  exists t, signed (signed_text n) = Some t /\ int_value t = n /\ digits t = digits_of 10 (Z.abs n).
Proof.
  assert (forall neg m, (0 <= m)%Z -> int_value {| negative := neg; grouped := dec_text m |}
    = ((if neg then -1 else 1) * m)%Z /\ digits {| negative := neg; grouped := dec_text m |}
    = digits_of 10 m) as Hval.
  { intros neg m Hm. unfold int_value, digits. cbn [negative grouped].
    rewrite digits_of_ascii by by apply dec_text_digits.
    unfold dec_text. rewrite <-list_fmap_compose.
    assert ((((fun byte => byte - 48) ∘ (fun d => 48 + d)) <$> digits_of 10 m)%Z = digits_of 10 m) as ->.
    { rewrite <-(list_fmap_id (digits_of 10 m)) at 2. apply list_fmap_ext. intros ? d _. simpl. lia. }
    split; [|done]. by destruct (digits_of_spec 10 m ltac:(lia) Hm) as (_ & -> & _). }
  unfold signed_text. destruct (Z.ltb_spec n 0).
  - unfold signed. rewrite is_char_refl. cbn iota beta.
    rewrite signed_digits by (apply dec_text_nonempty || apply dec_text_digits; lia).
    eexists. split; [done|]. destruct (Hval true (- n)%Z ltac:(lia)) as [-> ->]. split; [lia|f_equal; lia].
  - pose proof (dec_text_digits n ltac:(lia)) as Hd. pose proof (dec_text_nonempty n ltac:(lia)) as Hne.
    unfold signed. destruct (dec_text n) as [|c l] eqn:E; [done|].
    pose proof Hd as Hd'. apply Forall_cons in Hd' as [Hc%ascii_digit_range _].
    rewrite !(proj2 (is_char_false _ c)) by lia. cbn iota beta.
    rewrite signed_digits by done. rewrite <-E.
    eexists. split; [done|]. destruct (Hval false n ltac:(lia)) as [-> ->]. split; [lia|f_equal; lia].
Qed.

Lemma signed_text_no_space n : Forall (fun c => is_int_space c = false) (signed_text n).
Proof.
  assert (forall m, (0 <= m)%Z -> Forall (fun c => is_int_space c = false) (dec_text m)) as H.
  { intros m Hm. eapply Forall_impl; [by apply dec_text_digits|].
    intros c Hc%ascii_digit_range. unfold is_int_space, is_ascii_space. destruct (Z.ltb_spec c 128); lia. }
  unfold signed_text. destruct (Z.ltb_spec n 0); [constructor; [done|]|]; apply H; lia.
Qed.

Lemma trim_padded (f : char -> bool) a b s :
  Forall (fun c => f c = true) a -> Forall (fun c => f c = true) b ->
  Forall (fun c => f c = false) s -> s <> [] -> trim f (a ++ s ++ b) = s.
Proof.
  intros Ha Hb Hs Hne. unfold trim, trim_end_of.
  assert (forall p r, Forall (fun c => f c = true) p -> trim_start f (p ++ r) = trim_start f r) as Hskip.
  { intros p r. induction 1 as [|c p Hc _ IH]; simpl; [done|]. by rewrite Hc. }
  rewrite Hskip by done. destruct s as [|c s]; [done|].
  simpl app. rewrite trim_start_id by by apply Forall_cons in Hs as [? _].
  change (c :: s ++ b) with ((c :: s) ++ b). rewrite reverse_app, Hskip by by apply Forall_reverse.
  rewrite trim_start_free by by apply Forall_reverse. by rewrite reverse_involutive.
Qed.

Lemma split_groups_digits l :
  all (fun group => is_nonempty group && all is_ascii_digit group) (split_char 95 l) = true ->
  Forall (fun c => is_ascii_digit c = true \/ c = 95%Z) l /\
  List.filter (fun byte => negb (is_char 95 byte)) l <> [].
Proof.
  intros H. apply all_spec in H. split.
  - rewrite <-(join_split_char 95 l).
    induction H as [|g gs Hg Hgs IH]; [constructor|]. bool_hyps. apply all_spec in H0.
    assert (Forall (fun c => is_ascii_digit c = true \/ c = 95%Z) g)
      by (eapply Forall_impl; [exact H0|]; auto).
    destruct gs as [|g' gs]; [done|]. rewrite join_with_cons by done.
    apply Forall_app; split; [done|]. constructor; [by right|done].
  - destruct l as [|c l]; [by apply Forall_cons in H as [? _]|].
    unfold split_char in H. simpl in H. simpl. destruct (is_char 95 c) eqn:E; [|done].
    by apply Forall_cons in H as [? _].
Qed.

(** An integer text reads back as its number: the decimal text of any integer, with
    any whitespace around it, reads as that integer, and it converts exactly when it has
    at most 4300 digits. *)
Theorem int_text_roundtrip n before after
  (Hb : Forall (fun c => is_int_space c = true) before)
  (Ha : Forall (fun c => is_int_space c = true) after) :
  exists t, int_text (before ++ signed_text n ++ after) = Some t /\ int_value t = n /\
    (is_Some (convertible_int (before ++ signed_text n ++ after)) <->
     (Z.abs n < 10 ^ Z.of_nat MAX_CONVERTIBLE_DIGITS)%Z).
Proof.
  destruct (signed_signed_text n) as (t & Ht & Hv & Hd). exists t.
  assert (int_text (before ++ signed_text n ++ after) = Some t) as Hi.
  { unfold int_text. rewrite trim_padded; [done..|apply signed_text_no_space|].
    unfold signed_text. case_match; [done|]. apply dec_text_nonempty. lia. }
  split; [done|]. split; [done|]. unfold convertible_int. rewrite Hi, Hd.
  destruct (Nat.leb_spec (length (digits_of 10 (Z.abs n))) MAX_CONVERTIBLE_DIGITS) as [Hle|Hgt].
  - split; [intros _|by eauto].
    destruct (digits_of_spec 10 (Z.abs n) ltac:(lia) ltac:(lia)) as (_ & Hval & Hf & _).
    pose proof (value_of_bound 10 _ ltac:(lia) Hf) as Hbound. rewrite Hval in Hbound.
    eapply Z.lt_le_trans; [apply Hbound|]. apply Z.pow_le_mono_r; lia.
  - split; [by intros [? ?]|]. intros Hlt.
    apply (length_digits_of 10 _ MAX_CONVERTIBLE_DIGITS) in Hlt; [lia|lia..|unfold MAX_CONVERTIBLE_DIGITS; lia].
Qed.

Lemma int_text_roundtrip_witness :
  Forall (fun c => is_int_space c = true) [32%Z; 0x85%Z] /\
  exists t, int_text ([32; 0x85]%Z ++ signed_text (-120) ++ []) = Some t /\ int_value t = (-120)%Z /\
    (is_Some (convertible_int ([32; 0x85]%Z ++ signed_text (-120) ++ [])) <->
     (Z.abs (-120) < 10 ^ Z.of_nat MAX_CONVERTIBLE_DIGITS)%Z).
Proof.
  split; [repeat constructor|]. apply (int_text_roundtrip (-120) [32; 0x85]%Z []); repeat constructor.
Defined.

Lemma int_text_sound text t :
  int_text text = Some t ->
  exists sign, trim is_int_space text = sign ++ grouped t /\
    (sign = [45%Z] /\ negative t = true \/ sign ∈ [[]; [43%Z]] /\ negative t = false) /\
    digits t <> [] /\ Forall (fun d => (0 <= d < 10)%Z) (digits t).
Proof.
  unfold int_text. generalize (trim is_int_space text). intros s. unfold signed.
  destruct (match s with [] => _ | _ => _ end) as [neg grp] eqn:E.
  destruct (all _ _) eqn:Hall; [|done]. intros [= <-]. cbn [negative grouped].
  apply split_groups_digits in Hall as [Hf Hne].
  assert (exists sign, s = sign ++ grp /\
    (sign = [45%Z] /\ neg = true \/ sign ∈ [[]; [43%Z]] /\ neg = false)) as (sign & Hs & Hsign).
  { destruct s as [|c rest]; [injection E as <- <-; exists []; split; [done|]; right; set_solver|].
    destruct (is_char 45 c) eqn:E1; [|destruct (is_char 43 c) eqn:E2]; injection E as <- <-.
    - apply is_char_true in E1 as <-. exists [45%Z]. auto.
    - apply is_char_true in E2 as <-. exists [43%Z]. split; [done|]. right. set_solver.
    - exists []. split; [done|]. right. set_solver. }
  exists sign. split; [done|]. split; [done|]. unfold digits. cbn [grouped]. split.
  - by destruct (List.filter _ grp).
  - apply Forall_fmap, Forall_forall. intros c Hc%list_elem_of_In. apply filter_In in Hc as [Hc%list_elem_of_In Hn].
    rewrite Forall_forall in Hf. simpl. destruct (Hf c Hc) as [Hd%ascii_digit_range| ->]; [lia|done].
Qed.

(** ** POSIX paths *)

Module PosixPathFacts.
Import PosixPath.

(** What [parse] returns: an anchor of the three, and parts that [is_posix_part] keeps
    and that hold no slash. *)
Definition normal (p : PosixPath) : Prop :=
  anchor p ∈ [[]; lit "/"; lit "//"] /\
  Forall (fun part => is_posix_part part = true /\ char_free c_slash part) (parts p).

Lemma posix_anchor_cases path : posix_anchor path ∈ [[]; lit "/"; lit "//"].
Proof. unfold posix_anchor. repeat case_match; set_solver. Qed.

Lemma parse_normal text : normal (parse text).
Proof.
  split; [apply posix_anchor_cases|]. unfold parse. cbn [parts].
  apply Forall_forall. intros part Hin%list_elem_of_In. apply filter_In in Hin as [Hin%list_elem_of_In Hp].
  split; [done|]. pose proof (split_char_free c_slash text) as Hf. rewrite Forall_forall in Hf. by apply Hf.
Qed.

Lemma part_head part : is_posix_part part = true -> char_free c_slash part ->
  exists c r, part = c :: r /\ c <> c_slash.
Proof.
  destruct part as [|c r]; [done|]. intros _ [Hc _]%Forall_cons. exists c, r. split; [done|].
  apply is_char_false in Hc. congruence.
Qed.

Lemma filter_parts l : Forall (fun part => is_posix_part part = true /\ char_free c_slash part) l ->
  List.filter is_posix_part l = l.
Proof. induction 1 as [|p l [Hp _] _ IH]; simpl; [done|]. by rewrite Hp, IH. Qed.

Lemma split_joined l : Forall (fun part => is_posix_part part = true /\ char_free c_slash part) l ->
  List.filter is_posix_part (split_char c_slash (join_with [c_slash] l)) = l.
Proof.
  intros H. destruct l as [|p l]; [done|].
  rewrite split_join_char; [by apply filter_parts|done|].
  eapply Forall_impl; [exact H|]. by intros ? [_ ?].
Qed.

Lemma joined_head p l : is_posix_part p = true -> char_free c_slash p ->
  exists c r, join_with [c_slash] (p :: l) = c :: r /\ c <> c_slash.
Proof.
  intros Hp Hf. destruct (part_head p Hp Hf) as (c & r & -> & Hc).
  destruct l; [by exists c, r|]. rewrite join_with_cons by done. simpl. eauto.
Qed.

Lemma lit_slash : lit "/" = [c_slash]. Proof. done. Qed.
Lemma lit_slash2 : lit "//" = [c_slash; c_slash]. Proof. done. Qed.
Lemma lit_slash3 : lit "///" = [c_slash; c_slash; c_slash]. Proof. done. Qed.

Lemma anchor_of_rendered a joined :
  a ∈ [[]; lit "/"; lit "//"] -> (forall c r, joined = c :: r -> c <> c_slash) ->
  posix_anchor (a ++ joined) = a.
Proof.
  intros Ha Hj. unfold posix_anchor. rewrite lit_slash, lit_slash2, lit_slash3 in *.
  assert (forall p, starts_with (c_slash :: p) joined = false) as Hno.
  { intros p. destruct joined as [|c r]; [done|]. rewrite starts_with_cons.
    rewrite bool_decide_eq_false_2; [done|]. intros <-. by eapply Hj. }
  rewrite !elem_of_cons, elem_of_nil in Ha. destruct Ha as [->|[->|[->|[]]]]; simpl app.
  - by rewrite !Hno.
  - rewrite !starts_with_cons, bool_decide_eq_true_2 by done. simpl. by rewrite !Hno.
  - rewrite !starts_with_cons, !bool_decide_eq_true_2 by done. simpl. by rewrite !Hno.
Qed.

Lemma split_anchored a joined :
  a ∈ [[]; lit "/"; lit "//"] ->
  List.filter is_posix_part (split_char c_slash (a ++ joined)) =
  List.filter is_posix_part (split_char c_slash joined).
Proof.
  rewrite lit_slash, lit_slash2, !elem_of_cons, elem_of_nil.
  by intros [->|[->|[->|[]]]].
Qed.

Lemma parse_rendered p : normal p -> parse (render p) = p.
Proof.
  destruct p as [a l]. intros [Ha Hl]. unfold render. cbn [anchor parts] in *.
  assert (forall c r, join_with [c_slash] l = c :: r -> c <> c_slash) as Hhead.
  { intros c r E. destruct l as [|p l]; [done|]. apply Forall_cons in Hl as [[Hp Hf] _].
    destruct (joined_head p l Hp Hf) as (c' & r' & E' & ?). congruence. }
  destruct (negb (is_nonempty a) && negb (is_nonempty (join_with [c_slash] l))) eqn:E.
  - bool_hyps. destruct a as [|? a]; [|done]. destruct l as [|p l]; [done|].
    apply Forall_cons in Hl as [[Hp Hf] _].
    destruct (joined_head p l Hp Hf) as (c' & r' & E' & ?). by rewrite E' in *.
  - unfold parse. rewrite anchor_of_rendered by done. f_equal.
    by rewrite split_anchored, split_joined.
Qed.

Lemma parent_normal p : normal p -> normal (parent p).
Proof. intros [Ha Hl]. split; [done|]. by apply Forall_take. Qed.

Lemma split_suffix_app name : (split_suffix name).1 ++ (split_suffix name).2 = name.
Proof. unfold split_suffix. repeat case_match; simpl; rewrite ?app_nil_r; [apply take_drop|done..]. Qed.

Lemma find_reverse_last (f : str -> bool) l :
  default [] (List.find f (reverse l)) = default [] (last (List.filter f l)).
Proof.
  induction l as [|x l IH] using rev_ind; [done|].
  rewrite reverse_snoc, List.filter_app. simpl. destruct (f x); simpl.
  - by rewrite last_snoc.
  - by rewrite app_nil_r.
Qed.

Lemma rposition_char_None c s : rposition (is_char c) s = None -> char_free c s.
Proof.
  induction s as [|d s IH]; simpl; [constructor|].
  destruct (rposition (is_char c) s) eqn:E1; [done|].
  destruct (is_char c d) eqn:E2; [done|]. intros _. constructor; [done|by apply IH].
Qed.

Lemma rposition_char_Some c s n :
  rposition (is_char c) s = Some n -> exists rest, drop n s = c :: rest /\ char_free c rest.
Proof.
  revert n. induction s as [|d s IH]; intros n; simpl; [done|].
  destruct (rposition (is_char c) s) as [m|] eqn:E1.
  - intros [= <-]. simpl. by apply IH.
  - destruct (is_char c d) eqn:E2; [|done]. intros [= <-]. apply is_char_true in E2 as <-.
    exists s. split; [done|]. by apply rposition_char_None.
Qed.

(** A parsed path reads back from its text: [parse] gives a normal path, [render]
    then [parse] is the identity on normal paths, so rendering is idempotent; the parent
    of a normal path is normal and its own parse; and the name is the last part. *)
Theorem posix_roundtrip text :
  let p := parse text in
  parse (render p) = p /\ render (parse (render p)) = render p /\
  parse (render (parent p)) = parent p /\
  posix_name text = default [] (last (parts p)).
Proof.
  cbn zeta. pose proof (parse_normal text) as Hn.
  rewrite !parse_rendered by (done || by apply parent_normal).
  split; [done|]. split; [done|]. split; [done|]. apply find_reverse_last.
Qed.

(** A name splits into a stem and a suffix that join back to it; the suffix is empty,
    or it is a dot and at least one more character, with no second dot, after a stem
    that is not empty. *)
Theorem split_suffix_spec name :
  let '(stem, suffix) := split_suffix name in
  stem ++ suffix = name /\
  (suffix = [] \/ exists rest, suffix = c_dot :: rest /\ rest <> [] /\ char_free c_dot rest /\ stem <> []).
Proof.
  destruct (split_suffix name) as [stem suffix] eqn:E.
  split; [by pose proof (split_suffix_app name) as H; rewrite E in H|].
  unfold split_suffix in E. destruct (rfind_char c_dot name) as [dot|] eqn:Er; [|by left; congruence].
  destruct ((0 <? dot) && (dot + 1 <? length name)) eqn:Eb; [|by left; congruence].
  injection E as <- <-. right. apply andb_true_iff in Eb as [Hpos%Nat.ltb_lt Hlt%Nat.ltb_lt].
  unfold rfind_char in Er.
  destruct (rposition_char_Some _ _ _ Er) as (rest & Hd & Hf). exists rest. split; [done|]. split; [|split; [done|]].
  - intros ->. apply (f_equal length) in Hd. rewrite length_drop in Hd. simpl in Hd. lia.
  - destruct name; [simpl in *; lia|]. by destruct dot; [lia|].
Qed.
End PosixPathFacts.
