(* ===== verification/CodePoints.v ===== *)
(** Text as code points, where a lone surrogate can occur: crates/text/src/code_point_string.rs.

    A [CodePointString] holds generalized UTF-8 bytes.  [push] appends the bytes of one code
    point and [code_points] decodes them; [code_points_pushed] is the invariant that ties the
    two.  [quoted] writes a Python string literal, and [unquote] is the reader of such
    literals that the round trip is stated against. *)

From S2P Require Import Prelude RustStr Unicode Text.
Local Open Scope Z_scope.

(** * UTF-8 in the standard library *)

(** [char::encode_utf8]. *)
Definition encode_utf8 (c : char) : list Z :=
  if c <? 0x80 then [c]
  else if c <? 0x800 then [0xc0 + c / 64; 0x80 + c mod 64]
  else if c <? 0x10000 then [0xe0 + c / 4096; 0x80 + c / 64 mod 64; 0x80 + c mod 64]
  else [0xf0 + c / 262144; 0x80 + c / 4096 mod 64; 0x80 + c / 64 mod 64; 0x80 + c mod 64].

(** [str::as_bytes]. *)
Definition as_bytes (s : str) : list Z := concat (encode_utf8 <$> s).

Definition continuation (b : Z) : bool := (0x80 <=? b) && (b <? 0xc0).

(** The scalar value whose UTF-8 form starts [bytes], and the bytes after it. *)
Definition utf8_step (bytes : list Z) : option (char * list Z) :=
  match bytes with
  | [] => None
  | b0 :: r0 =>
    if b0 <? 0x80 then Some (b0, r0) else
    match r0 with
    | [] => None
    | b1 :: r1 =>
      if negb (continuation b1) then None else
      if (0xc0 <=? b0) && (b0 <? 0xe0) then
        let v := b0 mod 32 * 64 + b1 mod 64 in
        if 0x80 <=? v then Some (v, r1) else None
      else
      match r1 with
      | [] => None
      | b2 :: r2 =>
        if negb (continuation b2) then None else
        if (0xe0 <=? b0) && (b0 <? 0xf0) then
          let v := b0 mod 16 * 4096 + b1 mod 64 * 64 + b2 mod 64 in
          if (0x800 <=? v) && is_scalar v then Some (v, r2) else None
        else
        match r2 with
        | [] => None
        | b3 :: r3 =>
          if negb (continuation b3) then None else
          if (0xf0 <=? b0) && (b0 <? 0xf8) then
            let v := b0 mod 8 * 262144 + b1 mod 64 * 4096 + b2 mod 64 * 64 + b3 mod 64 in
            if (0x10000 <=? v) && is_scalar v then Some (v, r3) else None
          else None
        end
      end
    end
  end.

(** [str::from_utf8]; each step takes at least one byte, so [fuel] of the length is
    enough. *)
Fixpoint from_utf8_steps (fuel : nat) (bytes : list Z) : option str :=
  match bytes, fuel with
  | [], _ => Some []
  | _ :: _, O => None
  | _ :: _, S fuel' =>
      match utf8_step bytes with
      | Some (c, rest) => cons c <$> from_utf8_steps fuel' rest
      | None => None
      end
  end.
Definition from_utf8 (bytes : list Z) : option str := from_utf8_steps (length bytes) bytes.

(** * CodePointString *)

Record CodePointString := { cps_bytes : list Z }.

#[export] Instance CodePointString_eq_dec : EqDecision CodePointString.
Proof. solve_decision. Defined.

Definition cps_default : CodePointString := {| cps_bytes := [] |}.

Definition push_str (text : CodePointString) (s : str) : CodePointString :=
  {| cps_bytes := cps_bytes text ++ as_bytes s |}.

Definition cps_of_str (s : str) : CodePointString := {| cps_bytes := as_bytes s |}.

Definition LAST_CODE_POINT : Z := 0x10ffff.

(** [None] is the panic for a value past the last code point. *)
Definition push (text : CodePointString) (code : Z) : option CodePointString :=
  if negb (code <=? LAST_CODE_POINT) then None
  else if is_scalar code then Some {| cps_bytes := cps_bytes text ++ encode_utf8 code |}
  else
    let low := code mod 256 in
    let high := code / 256 mod 256 in
    Some {| cps_bytes := cps_bytes text ++
      [Z.lor 0xe0 (Z.shiftr high 4);
       Z.lor (Z.lor 0x80 (Z.shiftl (Z.land high 0x0f) 2)) (Z.shiftr low 6);
       Z.lor 0x80 (Z.land low 0x3f)] |}.

(** Decodes with a byte at a time escaped where no UTF-8 form starts.  [utf8_chunks]
    yields up to three bytes of one broken form together, and each of them is escaped by
    itself: its later bytes are continuation bytes, which start no form either. *)
Fixpoint from_utf8_escaped_steps (fuel : nat) (bytes : list Z) (text : CodePointString)
  : CodePointString :=
  match bytes, fuel with
  | [], _ | _, O => text
  | byte :: rest, S fuel' =>
      match utf8_step bytes with
      | Some (c, rest') => from_utf8_escaped_steps fuel' rest' (push_str text [c])
      | None => from_utf8_escaped_steps fuel' rest (default text (push text (0xdc00 + byte)))
      end
  end.
Definition from_utf8_escaped (bytes : list Z) : CodePointString :=
  from_utf8_escaped_steps (length bytes) bytes cps_default.

Definition as_str (text : CodePointString) : option str := from_utf8 (cps_bytes text).

(** One shift and mask of the decoder; the shift is one of a [u32]. *)
Definition add_byte (code byte : Z) : Z := Z.lor (Z.shiftl code 6 mod 2 ^ 32) (Z.land byte 0x3f).

Definition lead_of (lead : Z) : Z * nat :=
  if (lead <=? 0x7f) then (lead, 0%nat)
  else if (0xc0 <=? lead) && (lead <=? 0xdf) then (Z.land lead 0x1f, 1%nat)
  else if (0xe0 <=? lead) && (lead <=? 0xef) then (Z.land lead 0x0f, 2%nat)
  else (Z.land lead 0x07, 3%nat).

(** The code points left to read; [pending] is the one in progress, with the number of
    bytes it still takes. *)
Fixpoint code_points_go (pending : option (Z * nat)) (bytes : list Z) : list Z :=
  match bytes with
  | [] => match pending with Some (code, _) => [code] | None => [] end
  | byte :: rest =>
      let '(code, tail) :=
        match pending with
        | Some (code, tail) => (add_byte code byte, pred tail)
        | None => lead_of byte
        end in
      match tail with
      | O => code :: code_points_go None rest
      | S _ => code_points_go (Some (code, tail)) rest
      end
  end.
Definition code_points (text : CodePointString) : list Z := code_points_go None (cps_bytes text).

(** * quoted *)

Definition is_copied (c : char) : bool :=
  if c <? 0x80 then (32 <=? c) && (c <=? 126) else is_printable c.

Definition push_escape (code : Z) : str :=
  if code <=? 0xff then lit "\x" ++ hex_padded 2 code
  else if code <=? 0xffff then lit "\u" ++ hex_padded 4 code
  else lit "\U" ++ hex_padded 8 code.

(** What [push_quoted] appends for one code point. *)
Definition push_quoted (code : Z) (quote : char) : str :=
  if is_scalar code then
    if (code =? quote) || (code =? c_backslash) then [c_backslash; code]
    else if code =? 9 then lit "\t"
    else if code =? 10 then lit "\n"
    else if code =? 13 then lit "\r"
    else if is_copied code then [code]
    else push_escape code
  else push_escape code.

Definition quote_of (codes : list Z) : char :=
  let has wanted := any (fun code => code =? wanted) codes in
  if has c_squote && negb (has c_dquote) then c_dquote else c_squote.

Definition quoted_codes (codes : list Z) : str :=
  let quote := quote_of codes in
  [quote] ++ concat ((fun code => push_quoted code quote) <$> codes) ++ [quote].

Definition quoted (text : CodePointString) : str := quoted_codes (code_points text).

(** [quoted] of a [&str], as crates/patch calls it. *)
Definition quoted_str (text : str) : str := quoted (cps_of_str text).

(** * Lemmas *)

(** A code point: a scalar value or a surrogate. *)
Definition is_code_point (c : Z) : Prop := 0 <= c <= LAST_CODE_POINT.

Lemma lor_shiftl_add a r k : 0 <= k -> 0 <= r < 2 ^ k -> Z.lor (Z.shiftl a k) r = a * 2 ^ k + r.
Proof.
  intros Hk Hr. pose proof (Z.add_lor_land (Z.shiftl a k) r) as Hadd.
  assert (Z.land (Z.shiftl a k) r = 0) as Hland.
  { apply Z.bits_inj'. intros n Hn. rewrite Z.land_spec, Z.bits_0.
    destruct (Z.ltb_spec n k).
    - by rewrite Z.shiftl_spec_low.
    - assert (Z.testbit r n = false) as ->; [|apply andb_false_r].
      destruct (decide (r = 0)) as [->|]; [apply Z.bits_0|].
      apply Z.bits_above_log2; [lia|]. apply Z.log2_lt_pow2; [lia|].
      eapply Z.lt_le_trans; [apply Hr|]. by apply Z.pow_le_mono_r. }
  rewrite Hland, Z.shiftl_mul_pow2 in Hadd by done. rewrite Z.shiftl_mul_pow2 by done. lia.
Qed.

Lemma land_ones_mod a m k : m = Z.ones k -> 0 <= k -> Z.land a m = a mod 2 ^ k.
Proof. intros -> ?. by apply Z.land_ones. Qed.

Lemma add_byte_eq code r :
  0 <= code < 1048576 -> 0 <= r < 64 -> add_byte code (0x80 + r) = code * 64 + r.
Proof.
  intros Hc Hr. unfold add_byte.
  rewrite (land_ones_mod _ 0x3f 6) by done. change (2 ^ 6) with 64.
  replace (0x80 + r) with (r + 2 * 64) by lia. rewrite Z.mod_add, (Z.mod_small r) by lia.
  rewrite Z.mod_small.
  - rewrite lor_shiftl_add by (simpl; lia). done.
  - rewrite Z.shiftl_mul_pow2 by done. change (2 ^ 6) with 64. change (2 ^ 32) with 4294967296.
    lia.
Qed.

(** The bytes that [push] appends. *)
Definition encode_code_point (c : Z) : list Z :=
  if is_scalar c then encode_utf8 c
  else [0xe0 + c / 4096; 0x80 + c / 64 mod 64; 0x80 + c mod 64].

Lemma surrogate_bytes c :
  0 <= c <= LAST_CODE_POINT -> is_scalar c = false ->
  [Z.lor 0xe0 (Z.shiftr (c / 256 mod 256) 4);
   Z.lor (Z.lor 0x80 (Z.shiftl (Z.land (c / 256 mod 256) 0x0f) 2)) (Z.shiftr (c mod 256) 6);
   Z.lor 0x80 (Z.land (c mod 256) 0x3f)] =
  [0xe0 + c / 4096; 0x80 + c / 64 mod 64; 0x80 + c mod 64].
Proof.
  intros Hc Hs. assert (0xD800 <= c < 0xE000) as Hr
    by (unfold is_scalar, LAST_CODE_POINT in *; lia).
  assert (forallb (fun k => let c := 0xD800 + Z.of_nat k in
    bool_decide ([Z.lor 0xe0 (Z.shiftr (c / 256 mod 256) 4);
      Z.lor (Z.lor 0x80 (Z.shiftl (Z.land (c / 256 mod 256) 0x0f) 2)) (Z.shiftr (c mod 256) 6);
      Z.lor 0x80 (Z.land (c mod 256) 0x3f)] =
      [0xe0 + c / 4096; 0x80 + c / 64 mod 64; 0x80 + c mod 64])) (seq 0 2048) = true) as Hall
    by (vm_compute; reflexivity).
  rewrite forallb_forall in Hall. specialize (Hall (Z.to_nat (c - 0xD800))).
  cbn zeta in Hall. rewrite Z2Nat.id in Hall by lia.
  replace (0xD800 + (c - 0xD800)) with c in Hall by lia.
  rewrite bool_decide_eq_true in Hall. apply Hall. apply in_seq. lia.
Qed.

Lemma push_spec text c :
  is_code_point c -> push text c = Some {| cps_bytes := cps_bytes text ++ encode_code_point c |}.
Proof.
  intros Hc. unfold push, encode_code_point. unfold is_code_point in Hc.
  destruct (Z.leb_spec c LAST_CODE_POINT); [|lia]. simpl negb. cbn iota.
  destruct (is_scalar c) eqn:E; [done|]. cbn zeta. by rewrite surrogate_bytes.
Qed.

Lemma as_bytes_snoc s c : as_bytes (s ++ [c]) = as_bytes s ++ encode_utf8 c.
Proof. unfold as_bytes. rewrite fmap_app, concat_app. simpl. by rewrite app_nil_r. Qed.

Lemma lead_of_1 c : 0 <= c < 0x80 -> lead_of c = (c, 0%nat).
Proof. intros. unfold lead_of. destruct (Z.leb_spec c 0x7f); [done|lia]. Qed.

Lemma land_small base q k m : m = Z.ones k -> 0 <= k -> base mod 2 ^ k = 0 -> 0 <= q < 2 ^ k ->
  Z.land (base + q) m = q.
Proof.
  intros Hm Hk Hb Hq. rewrite (land_ones_mod _ m k) by done.
  rewrite Z.add_mod, Hb, Z.add_0_l, Z.mod_mod, Z.mod_small by lia. done.
Qed.

Lemma lead_of_2 q : 0 <= q < 32 -> lead_of (0xc0 + q) = (q, 1%nat).
Proof.
  intros. unfold lead_of. destruct (Z.leb_spec (0xc0 + q) 0x7f); [lia|].
  rewrite (proj2 (Z.leb_le _ _)), (proj2 (Z.leb_le (0xc0 + q) _)) by lia. cbn.
  by rewrite (land_small 0xc0 q 5).
Qed.

Lemma lead_of_3 q : 0 <= q < 16 -> lead_of (0xe0 + q) = (q, 2%nat).
Proof.
  intros. unfold lead_of. destruct (Z.leb_spec (0xe0 + q) 0x7f); [lia|].
  rewrite (proj2 (Z.leb_gt (0xe0 + q) 0xdf)), andb_false_r by lia.
  rewrite (proj2 (Z.leb_le _ _)), (proj2 (Z.leb_le (0xe0 + q) _)) by lia. cbn.
  by rewrite (land_small 0xe0 q 4).
Qed.

Lemma lead_of_4 q : 0 <= q < 8 -> lead_of (0xf0 + q) = (q, 3%nat).
Proof.
  intros. unfold lead_of. destruct (Z.leb_spec (0xf0 + q) 0x7f); [lia|].
  rewrite (proj2 (Z.leb_gt (0xf0 + q) 0xdf)), andb_false_r by lia.
  rewrite (proj2 (Z.leb_gt (0xf0 + q) 0xef)), andb_false_r by lia. cbn.
  by rewrite (land_small 0xf0 q 3).
Qed.

Lemma code_points_go_3 c rest :
  0 <= c < 0x10000 ->
  code_points_go None ([0xe0 + c / 4096; 0x80 + c / 64 mod 64; 0x80 + c mod 64] ++ rest) =
  c :: code_points_go None rest.
Proof.
  intros Hc. pose proof (Z.div_mod c 64 ltac:(lia)). pose proof (Z.mod_pos_bound c 64 ltac:(lia)).
  pose proof (Z.div_mod (c / 64) 64 ltac:(lia)). pose proof (Z.mod_pos_bound (c / 64) 64 ltac:(lia)).
  assert (c / 4096 = c / 64 / 64) as Hdiv by (rewrite Z.div_div by lia; done).
  cbn [app code_points_go]. rewrite lead_of_3 by lia. cbn [pred].
  rewrite (add_byte_eq (c / 4096)) by lia. rewrite add_byte_eq by lia. f_equal. lia.
Qed.

Lemma code_points_go_4 c rest :
  0x10000 <= c <= LAST_CODE_POINT ->
  code_points_go None ([0xf0 + c / 262144; 0x80 + c / 4096 mod 64; 0x80 + c / 64 mod 64;
    0x80 + c mod 64] ++ rest) = c :: code_points_go None rest.
Proof.
  unfold LAST_CODE_POINT. intros Hc.
  pose proof (Z.div_mod c 64 ltac:(lia)). pose proof (Z.mod_pos_bound c 64 ltac:(lia)).
  pose proof (Z.div_mod (c / 64) 64 ltac:(lia)). pose proof (Z.mod_pos_bound (c / 64) 64 ltac:(lia)).
  assert (c / 4096 = c / 64 / 64) as Hdiv by (rewrite Z.div_div by lia; done).
  pose proof (Z.div_mod (c / 4096) 64 ltac:(lia)). pose proof (Z.mod_pos_bound (c / 4096) 64 ltac:(lia)).
  assert (c / 262144 = c / 4096 / 64) as Hdiv' by (rewrite Z.div_div by lia; done).
  cbn [app code_points_go]. rewrite lead_of_4 by lia. cbn [pred].
  rewrite (add_byte_eq (c / 262144)) by lia.
  rewrite (add_byte_eq (c / 262144 * 64 + _)) by lia. rewrite add_byte_eq by lia. f_equal. lia.
Qed.

(** Each encoded code point decodes to itself. *)
Lemma code_points_go_encode c rest :
  is_code_point c -> code_points_go None (encode_code_point c ++ rest) = c :: code_points_go None rest.
Proof.
  unfold is_code_point. intros Hc. unfold encode_code_point. destruct (is_scalar c) eqn:Hs.
  - unfold encode_utf8. destruct (Z.ltb_spec c 0x80); [|destruct (Z.ltb_spec c 0x800);
      [|destruct (Z.ltb_spec c 0x10000)]].
    + cbn [app code_points_go]. by rewrite lead_of_1 by lia.
    + pose proof (Z.div_mod c 64 ltac:(lia)). pose proof (Z.mod_pos_bound c 64 ltac:(lia)).
      cbn [app code_points_go]. rewrite lead_of_2 by lia. cbn [pred].
      rewrite add_byte_eq by lia. f_equal. lia.
    + apply code_points_go_3. lia.
    + apply code_points_go_4. unfold LAST_CODE_POINT in *. lia.
  - apply code_points_go_3. unfold is_scalar, LAST_CODE_POINT in *. lia.
Qed.

Lemma code_points_encoded codes :
  Forall is_code_point codes -> code_points_go None (concat (encode_code_point <$> codes)) = codes.
Proof.
  induction 1 as [|c codes Hc _ IH]; [done|]. rewrite fmap_cons, concat_cons.
  by rewrite code_points_go_encode, IH.
Qed.

(** A text that was built with [push] and [push_str]. *)
Definition built (text : CodePointString) (codes : list Z) : Prop :=
  Forall is_code_point codes /\ cps_bytes text = concat (encode_code_point <$> codes).

Lemma is_str_code_points s : is_str s -> Forall is_code_point s.
Proof.
  unfold is_str. intros H. eapply Forall_impl; [exact H|].
  intros c. unfold is_scalar, is_code_point, LAST_CODE_POINT. lia.
Qed.

Lemma as_bytes_encode s : is_str s -> as_bytes s = concat (encode_code_point <$> s).
Proof.
  unfold as_bytes. induction 1 as [|c s Hc _ IH]; [done|]. rewrite !fmap_cons, !concat_cons, IH.
  unfold encode_code_point. by rewrite Hc.
Qed.

Lemma built_default : built cps_default [].
Proof. by split. Qed.

Lemma built_push text codes c text' :
  built text codes -> is_code_point c -> push text c = Some text' -> built text' (codes ++ [c]).
Proof.
  intros [Hf Hb] Hc. rewrite push_spec by done. intros [= <-]. split.
  - apply Forall_app. split; [done|]. by constructor.
  - cbn. rewrite Hb, fmap_app, concat_app. simpl. by rewrite app_nil_r.
Qed.

Lemma built_push_str text codes s : built text codes -> is_str s -> built (push_str text s) (codes ++ s).
Proof.
  intros [Hf Hb] Hs. split.
  - apply Forall_app. split; [done|by apply is_str_code_points].
  - cbn. by rewrite Hb, as_bytes_encode, fmap_app, concat_app.
Qed.

Lemma code_points_built text codes : built text codes -> code_points text = codes.
Proof. intros [Hf Hb]. unfold code_points. rewrite Hb. by apply code_points_encoded. Qed.

Lemma code_points_of_str s : is_str s -> code_points (cps_of_str s) = s.
Proof. intros Hs. apply code_points_built. by apply (built_push_str cps_default [] s built_default). Qed.

Lemma as_bytes_inj a b : is_str a -> is_str b -> as_bytes a = as_bytes b -> a = b.
Proof.
  intros Ha Hb E. rewrite <-(code_points_of_str a), <-(code_points_of_str b) by done.
  unfold cps_of_str. by rewrite E.
Qed.

(** ** UTF-8 decoding inverts encoding *)

Lemma continuation_byte r : 0 <= r < 64 -> continuation (0x80 + r) = true.
Proof. unfold continuation. lia. Qed.

Lemma mod_base base q m : 0 < m -> base mod m = 0 -> 0 <= q < m -> (base + q) mod m = q.
Proof. intros Hm Hb Hq. rewrite Z.add_mod, Hb, Z.add_0_l, Z.mod_mod, Z.mod_small by lia. done. Qed.

Lemma utf8_step_3 c rest :
  0x800 <= c < 0x10000 ->
  utf8_step ([0xe0 + c / 4096; 0x80 + c / 64 mod 64; 0x80 + c mod 64] ++ rest) =
  if is_scalar c then Some (c, rest) else None.
Proof.
  intros Hc. pose proof (Z.div_mod c 64 ltac:(lia)). pose proof (Z.mod_pos_bound c 64 ltac:(lia)).
  pose proof (Z.div_mod (c / 64) 64 ltac:(lia)). pose proof (Z.mod_pos_bound (c / 64) 64 ltac:(lia)).
  assert (c / 4096 = c / 64 / 64) as Hdiv by (rewrite Z.div_div by lia; done).
  cbn [app utf8_step]. rewrite !continuation_byte by lia. cbn [negb].
  rewrite (proj2 (Z.ltb_ge (0xe0 + c / 4096) 0x80)) by lia.
  rewrite (proj2 (Z.ltb_ge (0xe0 + c / 4096) 0xe0)), andb_false_r by lia.
  rewrite (proj2 (Z.leb_le 0xe0 (0xe0 + c / 4096))), (proj2 (Z.ltb_lt (0xe0 + c / 4096) 0xf0)) by lia.
  cbn [andb]. rewrite (mod_base 0xe0), !(mod_base 0x80) by (done || lia).
  replace (c / 4096 * 4096 + c / 64 mod 64 * 64 + c mod 64) with c by lia.
  by rewrite (proj2 (Z.leb_le 0x800 c)) by lia.
Qed.

Lemma utf8_step_4 c rest :
  0x10000 <= c <= LAST_CODE_POINT ->
  utf8_step ([0xf0 + c / 262144; 0x80 + c / 4096 mod 64; 0x80 + c / 64 mod 64; 0x80 + c mod 64] ++ rest)
  = Some (c, rest).
Proof.
  unfold LAST_CODE_POINT. intros Hc.
  pose proof (Z.div_mod c 64 ltac:(lia)). pose proof (Z.mod_pos_bound c 64 ltac:(lia)).
  pose proof (Z.div_mod (c / 64) 64 ltac:(lia)). pose proof (Z.mod_pos_bound (c / 64) 64 ltac:(lia)).
  assert (c / 4096 = c / 64 / 64) as Hdiv by (rewrite Z.div_div by lia; done).
  pose proof (Z.div_mod (c / 4096) 64 ltac:(lia)). pose proof (Z.mod_pos_bound (c / 4096) 64 ltac:(lia)).
  assert (c / 262144 = c / 4096 / 64) as Hdiv' by (rewrite Z.div_div by lia; done).
  cbn [app utf8_step]. rewrite !continuation_byte by lia. cbn [negb].
  set (b0 := 0xf0 + c / 262144). assert (0xf0 <= b0 < 0xf8) by (unfold b0; lia).
  rewrite (proj2 (Z.ltb_ge b0 0x80)), (proj2 (Z.ltb_ge b0 0xe0)), (proj2 (Z.ltb_ge b0 0xf0)) by lia.
  rewrite !andb_false_r, (proj2 (Z.leb_le 0xf0 b0)), (proj2 (Z.ltb_lt b0 0xf8)) by lia.
  unfold b0. cbn [andb]. rewrite (mod_base 0xf0), !(mod_base 0x80) by (done || lia).
  replace (c / 262144 * 262144 + c / 4096 mod 64 * 4096 + c / 64 mod 64 * 64 + c mod 64) with c by lia.
  rewrite (proj2 (Z.leb_le 0x10000 c)) by lia.
  assert (is_scalar c = true) as -> by (unfold is_scalar; lia). done.
Qed.

Lemma utf8_step_encode c rest :
  is_code_point c ->
  utf8_step (encode_code_point c ++ rest) = if is_scalar c then Some (c, rest) else None.
Proof.
  unfold is_code_point. intros Hc. unfold encode_code_point. destruct (is_scalar c) eqn:Hs.
  - unfold encode_utf8. destruct (Z.ltb_spec c 0x80); [|destruct (Z.ltb_spec c 0x800);
      [|destruct (Z.ltb_spec c 0x10000)]].
    + cbn [app utf8_step]. by rewrite (proj2 (Z.ltb_lt c 0x80)) by lia.
    + pose proof (Z.div_mod c 64 ltac:(lia)). pose proof (Z.mod_pos_bound c 64 ltac:(lia)).
      cbn [app utf8_step]. rewrite !continuation_byte by lia. cbn [negb].
      set (b0 := 0xc0 + c / 64). assert (0xc0 <= b0 < 0xe0) by (unfold b0; lia).
      rewrite (proj2 (Z.ltb_ge b0 0x80)), (proj2 (Z.leb_le 0xc0 b0)), (proj2 (Z.ltb_lt b0 0xe0)) by lia.
      unfold b0. cbn [andb]. rewrite (mod_base 0xc0), (mod_base 0x80) by (done || lia).
      replace (c / 64 * 64 + c mod 64) with c by lia.
      by rewrite (proj2 (Z.leb_le 0x80 c)) by lia.
    + rewrite utf8_step_3 by lia. by rewrite Hs.
    + apply utf8_step_4. lia.
  - rewrite utf8_step_3 by (unfold is_scalar, LAST_CODE_POINT in *; lia). by rewrite Hs.
Qed.

Lemma encode_nonempty c : is_code_point c -> exists b bs, encode_code_point c = b :: bs.
Proof.
  intros _. unfold encode_code_point, encode_utf8. repeat case_match; eauto.
Qed.

(** More fuel than the length changes nothing. *)
Lemma from_utf8_steps_encoded codes fuel :
  Forall is_code_point codes -> (length (concat (encode_code_point <$> codes)) <= fuel)%nat ->
  from_utf8_steps fuel (concat (encode_code_point <$> codes)) =
  if forallb is_scalar codes then Some codes else None.
Proof.
  intros Hf. revert fuel. induction Hf as [|c codes Hc _ IH]; intros fuel Hfuel; [by destruct fuel|].
  rewrite fmap_cons, concat_cons in *. rewrite length_app in Hfuel.
  destruct (encode_nonempty c Hc) as (b & bs & E). rewrite E in Hfuel. simpl in Hfuel.
  destruct fuel as [|fuel]; [lia|].
  pose proof (utf8_step_encode c (concat (encode_code_point <$> codes)) Hc) as Hs.
  rewrite E in *. simpl app in *. cbn [from_utf8_steps forallb]. rewrite Hs.
  destruct (is_scalar c); [|done]. rewrite IH by lia. cbn [andb]. by destruct (forallb is_scalar codes).
Qed.

Lemma as_str_built text codes :
  built text codes -> as_str text = if forallb is_scalar codes then Some codes else None.
Proof.
  intros [Hf Hb]. unfold as_str, from_utf8. rewrite Hb. by apply from_utf8_steps_encoded.
Qed.

(** [code_points] undoes [push]: whatever code points are pushed, lone surrogates among
    them, come back in order; the text has a [&str] form exactly when none of them is a
    surrogate, and then that form is those characters. *)
Theorem code_points_pushed codes (Hc : Forall is_code_point codes) :
  exists text, foldl (fun acc code => acc ≫= fun t => push t code) (Some cps_default) codes = Some text /\
    code_points text = codes /\
    as_str text = if forallb is_scalar codes then Some codes else None.
Proof.
  assert (forall t before, built t before -> exists text,
    foldl (fun acc code => acc ≫= fun t => push t code) (Some t) codes = Some text /\
    built text (before ++ codes)) as H.
  { induction Hc as [|c codes Hc _ IH]; intros t dn Ht.
    - exists t. by rewrite app_nil_r.
    - cbn [foldl]. simpl. destruct (push t c) as [t'|] eqn:E; [|by rewrite push_spec in E].
      destruct (IH t' (dn ++ [c])) as (text & ? & ?); [by eapply built_push|].
      exists text. by rewrite <-app_assoc in *. }
  destruct (H cps_default [] built_default) as (text & Hfold & Hb). exists text.
  split; [done|]. split; [by apply code_points_built|by apply as_str_built].
Qed.

Lemma code_points_pushed_witness :
  Forall is_code_point [0x41; 0xd800; 0x1f600] /\
  exists text, foldl (fun acc code => acc ≫= fun t => push t code) (Some cps_default)
      [0x41; 0xd800; 0x1f600] = Some text /\
    code_points text = [0x41; 0xd800; 0x1f600] /\
    as_str text = if forallb is_scalar [0x41; 0xd800; 0x1f600] then Some [0x41; 0xd800; 0x1f600] else None.
Proof.
  assert (Forall is_code_point [0x41; 0xd800; 0x1f600]) as H
    by (repeat constructor; unfold is_code_point, LAST_CODE_POINT; intros ?; discriminate).
  split; [exact H|]. apply (code_points_pushed [0x41; 0xd800; 0x1f600] H).
Defined.

(** ** Bytes that are not UTF-8 *)

Definition is_byte (b : Z) : Prop := 0 <= b < 256.

Lemma is_byte_mod32 b q : b = 0xc0 + q -> 0 <= q < 32 -> b mod 32 = q.
Proof. intros -> ?. by rewrite (mod_base 0xc0) by (done || lia). Qed.

Lemma continuation_split b : continuation b = true -> exists r, b = 0x80 + r /\ 0 <= r < 64 /\ b mod 64 = r.
Proof.
  unfold continuation. intros H. exists (b - 0x80). repeat split; [lia..|].
  replace b with (0x80 + (b - 0x80)) at 1 by lia. by rewrite mod_base by (done || lia).
Qed.

Lemma div_mod_eq a q r m : a = q * m + r -> 0 <= r < m -> a / m = q /\ a mod m = r.
Proof.
  intros -> Hr. split; symmetry.
  - apply (Z.div_unique_pos _ _ _ r); lia.
  - apply (Z.mod_unique_pos _ _ q); lia.
Qed.

(** What [utf8_step] takes is the UTF-8 form of the value it yields. *)
Lemma utf8_step_sound bytes c rest :
  Forall is_byte bytes -> utf8_step bytes = Some (c, rest) ->
  bytes = encode_utf8 c ++ rest /\ is_scalar c = true.
Proof.
  intros Hb. destruct bytes as [|b0 r0]; [done|]. apply Forall_cons in Hb as [Hb0 Hr0].
  unfold is_byte in Hb0. cbn [utf8_step].
  destruct (Z.ltb_spec b0 0x80).
  { intros [= -> ->]. unfold encode_utf8. rewrite (proj2 (Z.ltb_lt c 0x80)) by lia.
    split; [done|]. unfold is_scalar. lia. }
  destruct r0 as [|b1 r1]; [done|]. destruct (continuation b1) eqn:C1; [|done]. cbn [negb].
  apply continuation_split in C1 as (x1 & -> & Hx1 & M1). rewrite M1.
  destruct ((0xc0 <=? b0) && (b0 <? 0xe0)) eqn:E2.
  { rewrite (is_byte_mod32 b0 (b0 - 0xc0)) by lia.
    destruct (Z.leb_spec 0x80 ((b0 - 0xc0) * 64 + x1)); [|done]. intros [= <- <-].
    set (v := (b0 - 0xc0) * 64 + x1) in *.
    destruct (div_mod_eq v (b0 - 0xc0) x1 64 eq_refl Hx1) as [Hq Hm].
    unfold encode_utf8. rewrite (proj2 (Z.ltb_ge v 0x80)), (proj2 (Z.ltb_lt v 0x800)) by lia.
    rewrite Hq, Hm. split; [|unfold is_scalar; lia]. simpl. f_equal; lia. }
  destruct r1 as [|b2 r2]; [done|]. destruct (continuation b2) eqn:C2; [|done]. cbn [negb].
  apply continuation_split in C2 as (x2 & -> & Hx2 & M2). rewrite M2.
  destruct ((0xe0 <=? b0) && (b0 <? 0xf0)) eqn:E3.
  { assert (b0 mod 16 = b0 - 0xe0) as ->.
    { replace b0 with (0xe0 + (b0 - 0xe0)) at 1 by lia. by rewrite mod_base by (done || lia). }
    destruct ((0x800 <=? _) && _) eqn:Ev; [|done]. intros [= <- <-].
    set (v := (b0 - 0xe0) * 4096 + x1 * 64 + x2) in *. apply andb_true_iff in Ev as [Hv Hs].
    destruct (div_mod_eq v ((b0 - 0xe0) * 64 + x1) x2 64 ltac:(unfold v; lia) Hx2) as [Hq Hm].
    destruct (div_mod_eq ((b0 - 0xe0) * 64 + x1) (b0 - 0xe0) x1 64 eq_refl Hx1) as [Hq' Hm'].
    assert (v / 4096 = b0 - 0xe0) as Hq3 by (change 4096 with (64 * 64); rewrite <-Z.div_div, Hq by lia; done).
    unfold encode_utf8. rewrite (proj2 (Z.ltb_ge v 0x80)), (proj2 (Z.ltb_ge v 0x800)),
      (proj2 (Z.ltb_lt v 0x10000)) by lia.
    rewrite Hq3, Hq, Hm, Hm'. split; [|done]. simpl. repeat f_equal; lia. }
  destruct r2 as [|b3 r3]; [done|]. destruct (continuation b3) eqn:C3; [|done]. cbn [negb].
  apply continuation_split in C3 as (x3 & -> & Hx3 & M3). rewrite M3.
  destruct ((0xf0 <=? b0) && (b0 <? 0xf8)) eqn:E4; [|done].
  assert (b0 mod 8 = b0 - 0xf0) as ->.
  { replace b0 with (0xf0 + (b0 - 0xf0)) at 1 by lia. by rewrite mod_base by (done || lia). }
  destruct ((0x10000 <=? _) && _) eqn:Ev; [|done]. intros [= <- <-].
  set (v := (b0 - 0xf0) * 262144 + x1 * 4096 + x2 * 64 + x3) in *. apply andb_true_iff in Ev as [Hv Hs].
  set (v1 := (b0 - 0xf0) * 4096 + x1 * 64 + x2). set (v2 := (b0 - 0xf0) * 64 + x1).
  destruct (div_mod_eq v v1 x3 64 ltac:(unfold v, v1; lia) Hx3) as [Hq Hm].
  destruct (div_mod_eq v1 v2 x2 64 ltac:(unfold v1, v2; lia) Hx2) as [Hq1 Hm1].
  destruct (div_mod_eq v2 (b0 - 0xf0) x1 64 eq_refl Hx1) as [Hq2 Hm2].
  assert (v / 4096 = v2) as Hq3 by (change 4096 with (64 * 64); rewrite <-Z.div_div, Hq by lia; done).
  assert (v / 262144 = b0 - 0xf0) as Hq4
    by (change 262144 with (4096 * 64); rewrite <-Z.div_div, Hq3 by lia; done).
  unfold encode_utf8. rewrite (proj2 (Z.ltb_ge v 0x80)), (proj2 (Z.ltb_ge v 0x800)),
    (proj2 (Z.ltb_ge v 0x10000)) by lia.
  rewrite Hq4, Hq3, Hq, Hm, Hm1, Hm2. split; [|done]. simpl. repeat f_equal; lia.
Qed.

(** The bytes of a decoded file name: an escape gives back its byte. *)
Definition fs_encode (codes : list Z) : list Z :=
  concat ((fun c => if (0xdc80 <=? c) && (c <=? 0xdcff) then [c - 0xdc00] else encode_utf8 c) <$> codes).

Lemma fs_encode_app a b : fs_encode (a ++ b) = fs_encode a ++ fs_encode b.
Proof. unfold fs_encode. by rewrite fmap_app, concat_app. Qed.

Lemma from_utf8_escaped_steps_spec fuel bytes text codes :
  Forall is_byte bytes -> (length bytes <= fuel)%nat -> built text codes ->
  exists more, built (from_utf8_escaped_steps fuel bytes text) (codes ++ more) /\ fs_encode more = bytes.
Proof.
  revert bytes text codes. induction fuel as [|fuel IH]; intros bytes text codes Hb Hlen Ht.
  { destruct bytes; [|simpl in Hlen; lia]. exists []. by rewrite app_nil_r. }
  destruct bytes as [|b bytes]; [exists []; by rewrite app_nil_r|].
  cbn [from_utf8_escaped_steps]. destruct (utf8_step (b :: bytes)) as [[c rest]|] eqn:E.
  - destruct (utf8_step_sound _ _ _ Hb E) as [Heq Hs].
    assert (length rest < length (b :: bytes))%nat as Hlt.
    { rewrite Heq, length_app. unfold encode_utf8. repeat case_match; simpl; lia. }
    assert (Forall is_byte rest) as Hrest by (rewrite Heq in Hb; by apply Forall_app in Hb as [_ ?]).
    destruct (IH rest (push_str text [c]) (codes ++ [c])) as (more & Hmore & Henc);
      [done|simpl in *; lia|apply built_push_str; [done|by constructor]|].
    exists (c :: more). rewrite <-app_assoc in Hmore. split; [done|].
    change (c :: more) with ([c] ++ more). rewrite fs_encode_app, Henc, Heq. f_equal.
    unfold fs_encode. simpl. rewrite app_nil_r.
    destruct ((0xdc80 <=? c) && (c <=? 0xdcff)) eqn:Er; [|done]. unfold is_scalar in Hs. lia.
  - apply Forall_cons in Hb as [Hb0 Hb]. unfold is_byte in Hb0.
    assert (0x80 <= b) as Hhigh.
    { destruct (Z.ltb_spec b 0x80) as [Hlt|]; [|done]. cbn [utf8_step] in E.
      by rewrite (proj2 (Z.ltb_lt b 0x80)) in E. }
    assert (is_code_point (0xdc00 + b)) as Hc by (unfold is_code_point, LAST_CODE_POINT; lia).
    rewrite push_spec by done. cbn [default].
    destruct (IH bytes {| cps_bytes := cps_bytes text ++ encode_code_point (0xdc00 + b) |}
      (codes ++ [0xdc00 + b])) as (more & Hmore & Henc);
      [done|simpl in *; lia|by eapply built_push, push_spec|].
    exists ((0xdc00 + b) :: more). rewrite <-app_assoc in Hmore. split; [done|].
    change (0xdc00 + b :: more) with ([0xdc00 + b] ++ more). rewrite fs_encode_app, Henc.
    unfold fs_encode. cbn [fmap list_fmap concat app].
    rewrite (proj2 (Z.leb_le _ _)), (proj2 (Z.leb_le (0xdc00 + b) _)) by lia. cbn [andb].
    simpl. f_equal. lia.
Qed.

(** Decoding bytes with escapes loses none of them: from any bytes, the code points of
    [from_utf8_escaped] give back exactly those bytes. *)
Theorem from_utf8_escaped_lossless bytes (Hb : Forall is_byte bytes) :
  fs_encode (code_points (from_utf8_escaped bytes)) = bytes.
Proof.
  destruct (from_utf8_escaped_steps_spec (length bytes) bytes cps_default []) as (more & Hm & He);
    [done|lia|apply built_default|].
  unfold from_utf8_escaped. rewrite (code_points_built _ more) by done. done.
Qed.

Lemma from_utf8_escaped_lossless_witness :
  Forall is_byte [0x41; 0xe2; 0x82; 0x42; 0xff; 0xc3; 0xa9] /\
  fs_encode (code_points (from_utf8_escaped [0x41; 0xe2; 0x82; 0x42; 0xff; 0xc3; 0xa9])) =
  [0x41; 0xe2; 0x82; 0x42; 0xff; 0xc3; 0xa9].
Proof.
  assert (Forall is_byte [0x41; 0xe2; 0x82; 0x42; 0xff; 0xc3; 0xa9]) as H
    by (repeat constructor; intros ?; discriminate).
  split; [exact H|]. apply (from_utf8_escaped_lossless _ H).
Defined.

(** ** Quoted text reads back *)

Definition hex_value (c : char) : option Z :=
  if (48 <=? c) && (c <=? 57) then Some (c - 48)
  else if (97 <=? c) && (c <=? 102) then Some (c - 87) else None.

(** A run of [width] hexadecimal digits, and the text after it. *)
Definition read_hex (width : nat) (s : str) : option (Z * str) :=
  vs ← mapM hex_value (take width s);
  if decide (length vs = width) then Some (value_of 16 vs, drop width s) else None.

(** Reads the body of a literal up to its closing quote, which ends the text. *)
Fixpoint unquote_body (fuel : nat) (quote : char) (s : str) : option (list Z) :=
  match fuel, s with
  | S fuel', c :: rest =>
    if c =? quote then (if decide (rest = []) then Some [] else None)
    else if c =? c_backslash then
      match rest with
      | e :: rest' =>
        if (e =? quote) || (e =? c_backslash) then cons e <$> unquote_body fuel' quote rest'
        else if e =? 116 then cons 9 <$> unquote_body fuel' quote rest'
        else if e =? 110 then cons 10 <$> unquote_body fuel' quote rest'
        else if e =? 114 then cons 13 <$> unquote_body fuel' quote rest'
        else
          '(code, rest'') ← (if e =? 120 then read_hex 2 rest' else if e =? 117 then read_hex 4 rest'
                             else if e =? 85 then read_hex 8 rest' else None);
          cons code <$> unquote_body fuel' quote rest''
      | [] => None
      end
    else cons c <$> unquote_body fuel' quote rest
  | _, _ => None
  end.

(** Reads one literal in single or double quotes. *)
Definition unquote (s : str) : option (list Z) :=
  match s with
  | q :: rest => if (q =? c_squote) || (q =? c_dquote) then unquote_body (length rest) q rest else None
  | [] => None
  end.

Lemma hex_value_digit d : 0 <= d < 16 -> hex_value (hex_digit d) = Some d.
Proof.
  intros. unfold hex_value, hex_digit. destruct (Z.ltb_spec d 10).
  - rewrite (proj2 (Z.leb_le _ _)), (proj2 (Z.leb_le _ 57)) by lia. cbn [andb]. f_equal. lia.
  - rewrite (proj2 (Z.leb_gt _ 57)), andb_false_r by lia.
    rewrite (proj2 (Z.leb_le _ _)), (proj2 (Z.leb_le _ 102)) by lia. cbn [andb]. f_equal. lia.
Qed.

Lemma mapM_hex_digits ds : Forall (fun d => 0 <= d < 16) ds -> mapM hex_value (hex_digit <$> ds) = Some ds.
Proof.
  induction 1 as [|d ds Hd _ IH]; [done|]. rewrite fmap_cons. simpl.
  by rewrite hex_value_digit, IH.
Qed.

Lemma value_of_zeros base k ds : value_of base (replicate k 0 ++ ds) = value_of base ds.
Proof. induction k as [|k IH]; [done|]. simpl. rewrite value_of_cons, IH. lia. Qed.

Lemma hex_padded_digits width n :
  (0 < width)%nat -> 0 <= n < 16 ^ Z.of_nat width ->
  exists ds, hex_padded width n = hex_digit <$> ds /\ length ds = width /\
    Forall (fun d => 0 <= d < 16) ds /\ value_of 16 ds = n.
Proof.
  intros Hw Hn. destruct (digits_of_spec 16 n ltac:(lia) ltac:(lia)) as (_ & Hv & Hf & _).
  pose proof (length_digits_of 16 n width ltac:(lia) ltac:(lia) ltac:(lia) Hw) as Hl.
  exists (replicate (width - length (digits_of 16 n)) 0 ++ digits_of 16 n). split; [|split; [|split]].
  - unfold hex_padded. rewrite length_fmap, fmap_app, fmap_replicate. done.
  - rewrite length_app, length_replicate. lia.
  - apply Forall_app. split; [apply Forall_replicate; lia|done].
  - by rewrite value_of_zeros.
Qed.

Lemma read_hex_padded width n rest :
  (0 < width)%nat -> 0 <= n < 16 ^ Z.of_nat width ->
  read_hex width (hex_padded width n ++ rest) = Some (n, rest).
Proof.
  intros Hw Hn. destruct (hex_padded_digits width n Hw Hn) as (ds & -> & Hl & Hf & Hv).
  unfold read_hex. rewrite take_app_length' by by rewrite length_fmap.
  rewrite drop_app_length' by by rewrite length_fmap.
  rewrite mapM_hex_digits by done. simpl. rewrite decide_True by done. by rewrite Hv.
Qed.

Lemma hex_padded_length width n : (0 < width)%nat -> 0 <= n < 16 ^ Z.of_nat width ->
  length (hex_padded width n) = width.
Proof.
  intros Hw Hn. destruct (hex_padded_digits width n Hw Hn) as (ds & -> & <- & _). by rewrite length_fmap.
Qed.

Lemma unquote_body_mono fuel fuel' quote s codes :
  (fuel <= fuel')%nat -> unquote_body fuel quote s = Some codes -> unquote_body fuel' quote s = Some codes.
Proof.
  revert fuel' s codes. induction fuel as [|fuel IH]; intros fuel' s codes Hle; [done|].
  destruct fuel' as [|fuel']; [lia|]. cbn [unquote_body].
  assert (forall c s codes, cons c <$> unquote_body fuel quote s = Some codes ->
    cons c <$> unquote_body fuel' quote s = Some codes) as Hcons.
  { intros c s' l (l' & Hl' & ->)%fmap_Some. rewrite (IH fuel' s' l') by (done || lia). done. }
  repeat case_match; try done; try apply Hcons.
  all: try (intros ([code r] & Hr & H')%bind_Some; rewrite Hr; simpl; by apply Hcons).
Qed.

(** What is written for one code point is read as that code point. *)
Lemma unquote_pushed fuel quote code rest codes :
  (quote = c_squote \/ quote = c_dquote) -> is_code_point code ->
  unquote_body fuel quote rest = Some codes ->
  unquote_body (S fuel) quote (push_quoted code quote ++ rest) = Some (code :: codes).
Proof.
  intros Hq Hc Hrest. unfold is_code_point, LAST_CODE_POINT in Hc.
  assert (forall w e n, (e = 120 /\ w = 2%nat \/ e = 117 /\ w = 4%nat \/ e = 85 /\ w = 8%nat) ->
    0 <= n < 16 ^ Z.of_nat w ->
    unquote_body (S fuel) quote (c_backslash :: e :: hex_padded w n ++ rest) = Some (n :: codes)) as Hesc.
  { intros w e n He Hn. cbn [unquote_body].
    rewrite (proj2 (Z.eqb_neq c_backslash quote)) by (destruct Hq as [->|]; subst; done).
    rewrite Z.eqb_refl. rewrite (proj2 (Z.eqb_neq e quote)) by (unfold c_squote, c_dquote in *; lia).
    rewrite (proj2 (Z.eqb_neq e c_backslash)) by (unfold c_backslash; lia). cbn [orb].
    assert (read_hex w (hex_padded w n ++ rest) = Some (n, rest)) as Hr by (apply read_hex_padded; lia).
    destruct He as [[-> ->]|[[-> ->]|[-> ->]]]; cbn -[read_hex hex_padded unquote_body];
      rewrite Hr; cbn -[unquote_body]; by rewrite Hrest. }
  assert (unquote_body (S fuel) quote (push_escape code ++ rest) = Some (code :: codes)) as Hpe.
  { unfold push_escape. destruct (Z.leb_spec code 0xff); [|destruct (Z.leb_spec code 0xffff)];
      rewrite <-app_assoc; (apply Hesc; [tauto|]); [change (16 ^ Z.of_nat 2) with 256
      |change (16 ^ Z.of_nat 4) with 65536|change (16 ^ Z.of_nat 8) with 4294967296]; lia. }
  unfold push_quoted. destruct (is_scalar code) eqn:Hs; [|exact Hpe].
  assert (quote <> c_backslash) as Hqb by (destruct Hq; subst; done).
  destruct ((code =? quote) || (code =? c_backslash)) eqn:E1.
  { cbn [app unquote_body]. rewrite (proj2 (Z.eqb_neq c_backslash quote)) by done.
    rewrite Z.eqb_refl, E1, Hrest. done. }
  assert (forall e v, (e = 116 /\ v = 9 \/ e = 110 /\ v = 10 \/ e = 114 /\ v = 13) ->
    unquote_body (S fuel) quote (c_backslash :: e :: rest) = Some (v :: codes)) as Hshort.
  { intros e v He. cbn [unquote_body].
    rewrite (proj2 (Z.eqb_neq c_backslash quote)) by done.
    rewrite Z.eqb_refl, (proj2 (Z.eqb_neq e quote)), (proj2 (Z.eqb_neq e c_backslash))
      by (unfold c_squote, c_dquote, c_backslash in *; lia).
    destruct He as [[-> ->]|[[-> ->]|[-> ->]]]; cbn -[unquote_body]; by rewrite Hrest. }
  destruct (Z.eqb_spec code 9) as [->|]; [apply (Hshort 116 9); tauto|].
  destruct (Z.eqb_spec code 10) as [->|]; [apply (Hshort 110 10); tauto|].
  destruct (Z.eqb_spec code 13) as [->|]; [apply (Hshort 114 13); tauto|].
  destruct (is_copied code); [|exact Hpe].
  apply orb_false_iff in E1 as [E1 E2]. cbn [app unquote_body]. by rewrite E1, E2, Hrest.
Qed.

Lemma quote_of_cases codes : quote_of codes = c_squote \/ quote_of codes = c_dquote.
Proof. unfold quote_of. case_match; auto. Qed.

Lemma push_quoted_nonempty code quote : (1 <= length (push_quoted code quote))%nat.
Proof. unfold push_quoted, push_escape. repeat case_match; rewrite ?length_app; simpl; lia. Qed.

Lemma unquote_quoted_codes codes : Forall is_code_point codes -> unquote (quoted_codes codes) = Some codes.
Proof.
  intros Hf. unfold quoted_codes, unquote. set (q := quote_of codes). cbn [app].
  assert (q = c_squote \/ q = c_dquote) as Hq by apply quote_of_cases.
  assert ((q =? c_squote) || (q =? c_dquote) = true) as -> by (unfold c_squote, c_dquote in *; lia).
  clearbody q. eapply (unquote_body_mono (S (length codes))).
  - rewrite length_app. simpl.
    enough (length codes <= length (concat ((fun code => push_quoted code q) <$> codes)))%nat by lia.
    clear Hf. induction codes as [|c codes IH]; [done|]. rewrite fmap_cons. simpl. rewrite length_app.
    pose proof (push_quoted_nonempty c q). lia.
  - induction Hf as [|c codes Hc _ IH].
    + simpl. by rewrite Z.eqb_refl.
    + rewrite fmap_cons. cbn [concat length]. rewrite <-app_assoc. by apply unquote_pushed.
Qed.

(** A quoted text is a literal that reads back as exactly the code points quoted, lone
    surrogates and quotes included, so no text can close its own quotes early. *)
Theorem quoted_roundtrip text codes (Hb : built text codes) : unquote (quoted text) = Some codes.
Proof.
  unfold quoted. rewrite (code_points_built _ _ Hb). apply unquote_quoted_codes. by destruct Hb.
Qed.

Lemma quoted_roundtrip_witness :
  built (cps_of_str [0x27; 0x22; 0x5c; 0x0a; 0xe9; 0x1f600]) [0x27; 0x22; 0x5c; 0x0a; 0xe9; 0x1f600] /\
  unquote (quoted (cps_of_str [0x27; 0x22; 0x5c; 0x0a; 0xe9; 0x1f600])) =
  Some [0x27; 0x22; 0x5c; 0x0a; 0xe9; 0x1f600].
Proof.
  assert (built (cps_of_str [0x27; 0x22; 0x5c; 0x0a; 0xe9; 0x1f600]) [0x27; 0x22; 0x5c; 0x0a; 0xe9; 0x1f600])
    as H by (split; [repeat constructor; intros ?; discriminate|vm_compute; reflexivity]).
  split; [exact H|]. exact (quoted_roundtrip _ _ H).
Defined.

(** ** ASCII text *)

Lemma as_bytes_app a b : as_bytes (a ++ b) = as_bytes a ++ as_bytes b.
Proof. unfold as_bytes. by rewrite fmap_app, concat_app. Qed.

Lemma as_bytes_cons c s : as_bytes (c :: s) = encode_utf8 c ++ as_bytes s.
Proof. done. Qed.

Definition is_ascii (c : Z) : Prop := 0 <= c < 128.

Lemma encode_ascii c : is_ascii c -> encode_utf8 c = [c].
Proof. unfold is_ascii, encode_utf8. intros. by rewrite (proj2 (Z.ltb_lt c 0x80)) by lia. Qed.

Lemma as_bytes_ascii s : Forall is_ascii s -> as_bytes s = s.
Proof. induction 1 as [|c s Hc _ IH]; [done|]. by rewrite as_bytes_cons, encode_ascii, IH. Qed.

Lemma scalar_range c : is_scalar c = true -> 0 <= c <= 0x10ffff.
Proof. unfold is_scalar. lia. Qed.

(** One character's bytes: itself when ASCII; otherwise a lead byte and continuation bytes, all
    of them past ASCII. *)
Lemma encode_shape c :
  is_scalar c = true ->
  is_ascii c /\ encode_utf8 c = [c] \/
  128 <= c /\ exists b rest, encode_utf8 c = b :: rest /\ 128 <= b /\ continuation b = false /\
    Forall (fun b => continuation b = true) rest.
Proof.
  intros Hs. apply scalar_range in Hs. destruct (Z.ltb_spec c 0x80) as [|Hc]; [left; split; [|apply encode_ascii]; unfold is_ascii; lia|].
  right. split; [done|]. unfold encode_utf8. rewrite (proj2 (Z.ltb_ge c 0x80)) by lia.
  assert (forall q, continuation (0x80 + q mod 64) = true) as Hcont.
  { intros q. apply continuation_byte. by apply Z.mod_pos_bound. }
  destruct (Z.ltb_spec c 0x800); [|destruct (Z.ltb_spec c 0x10000)]; eexists _, _; (split; [done|]); unfold continuation.
  - assert (2 <= c / 64) by (apply Z.div_le_lower_bound; lia). split; [lia|]. split; [lia|]. repeat constructor; apply Hcont.
  - assert (0 <= c / 4096) by (apply Z.div_pos; lia). split; [lia|]. split; [lia|]. repeat constructor; apply Hcont.
  - assert (0 <= c / 262144) by (apply Z.div_pos; lia). split; [lia|]. split; [lia|]. repeat constructor; apply Hcont.
Qed.

(** A text whose bytes are ASCII is those bytes. *)
Lemma as_bytes_ascii_inv s l : is_str s -> Forall is_ascii l -> as_bytes s = l -> s = l.
Proof.
  intros Hs. revert l. induction Hs as [|c s Hc _ IH]; intros l Hl E; [done|]. rewrite as_bytes_cons in E.
  destruct (encode_shape c Hc) as [[_ Ec]|(_ & b & rest & Ec & Hb & _)]; rewrite Ec in E; subst l.
  - apply Forall_cons in Hl as [_ Hl]. cbn. f_equal. by apply IH.
  - apply Forall_cons in Hl as [Hl _]. unfold is_ascii in Hl. lia.
Qed.
