(* ===== verification/Utf8.v ===== *)
(** Strict UTF-8 decoding and its errors: the decoders of crates/io/src/read.rs.

    [utf8_error] is the error of the standard library's [from_utf8]: how many bytes are valid, and
    how many more are a form that a later byte breaks.  [decode_strict_exact] says what a refusal
    tells: the text before it and which bytes no UTF-8 form can go on from.  [code_point_order]: the
    order of the bytes is the order of the code points. *)

From S2P Require Import Prelude RustStr Ordered CodePoints.
Local Open Scope Z_scope.

(** * The standard library's decoder *)

(** The bytes of a form by its first byte; 0 for a byte that starts none. *)
Definition form_width (b0 : Z) : nat :=
  if b0 <? 0x80 then 1%nat
  else if (0xc2 <=? b0) && (b0 <=? 0xdf) then 2%nat
  else if (0xe0 <=? b0) && (b0 <=? 0xef) then 3%nat
  else if (0xf0 <=? b0) && (b0 <=? 0xf4) then 4%nat
  else 0%nat.

Definition second_ok (b0 b1 : Z) : bool :=
  if b0 =? 0xe0 then (0xa0 <=? b1) && (b1 <=? 0xbf)
  else if b0 =? 0xed then (0x80 <=? b1) && (b1 <=? 0x9f)
  else if b0 =? 0xf0 then (0x90 <=? b1) && (b1 <=? 0xbf)
  else if b0 =? 0xf4 then (0x80 <=? b1) && (b1 <=? 0x8f)
  else continuation b1.

(** [Utf8Error::error_len], for bytes that start with no whole form. *)
Definition error_len (bytes : list Z) : option nat :=
  match bytes with
  | [] => None
  | b0 :: r0 =>
      if (form_width b0 <? 2)%nat then Some 1%nat else
      match r0 with
      | [] => None
      | b1 :: r1 =>
          if negb (second_ok b0 b1) then Some 1%nat else
          match r1 with
          | [] => None
          | b2 :: r2 =>
              if negb (continuation b2) then Some 2%nat else
              match r2 with [] => None | _ :: _ => Some 3%nat end
          end
      end
  end.

(** The text of the valid bytes, and the bytes after them. *)
Fixpoint valid_prefix (fuel : nat) (bytes : list Z) : str * list Z :=
  match fuel with
  | O => ([], bytes)
  | S fuel =>
      match utf8_step bytes with
      | Some (c, rest) => let '(text, rest) := valid_prefix fuel rest in (c :: text, rest)
      | None => ([], bytes)
      end
  end.

Record Utf8Error := { valid_up_to : nat; utf8_error_len : option nat }.

(** The error of [str::from_utf8] on bytes that it refuses. *)
Definition utf8_error (bytes : list Z) : Utf8Error :=
  let rest := (valid_prefix (length bytes) bytes).2 in
  {| valid_up_to := length bytes - length rest; utf8_error_len := error_len rest |}.

(** [String::from_utf8_lossy]: a replacement character for each form that is broken off. *)
Fixpoint lossy_steps (fuel : nat) (bytes : list Z) : str :=
  match fuel with
  | O => []
  | S fuel =>
      let '(text, rest) := valid_prefix (length bytes) bytes in
      match rest with
      | [] => text
      | _ => text ++ 0xfffd :: match error_len rest with Some n => lossy_steps fuel (drop n rest) | None => [] end
      end
  end.

Definition from_utf8_lossy (bytes : list Z) : str := lossy_steps (S (length bytes)) bytes.

(** * The decoders *)

Inductive Utf8Reason := InvalidStart | InvalidContinuation | UnexpectedEnd.

Definition reason_text (reason : Utf8Reason) : str :=
  match reason with
  | InvalidStart => lit "invalid start byte"
  | InvalidContinuation => lit "invalid continuation byte"
  | UnexpectedEnd => lit "unexpected end of data"
  end.

Record NotUtf8 := { start : nat; end_ : nat; reason : Utf8Reason }.

(** The missing byte is the panic of an index out of the bytes. *)
Definition not_utf8 (bytes : list Z) (error : Utf8Error) : option NotUtf8 :=
  let start := valid_up_to error in
  byte ← bytes !! start;
  let reason :=
    match utf8_error_len error with
    | None => UnexpectedEnd
    | Some _ => if (0xc2 <=? byte) && (byte <=? 0xf4) then InvalidContinuation else InvalidStart
    end in
  let end_ := match utf8_error_len error with None => length bytes | Some n => (start + n)%nat end in
  Some {| start := start; end_ := end_; reason := reason |}.

Definition decode_strict (bytes : list Z) : option (result str NotUtf8) :=
  match from_utf8 bytes with
  | Some text => Some (Ok text)
  | None => Err <$> not_utf8 bytes (utf8_error bytes)
  end.

(** [NotUtf8] as text. *)
Definition not_utf8_text (error : NotUtf8) : str :=
  lit "not UTF-8 text: byte " ++ nat_text (start error) ++ lit " is " ++ reason_text (reason error).

Definition codec_text (bytes : list Z) (error : NotUtf8) : option str :=
  let at_ := nat_text (start error) in
  if decide (end_ error = S (start error)) then
    byte ← bytes !! start error;
    Some (lit "'utf-8' codec can't decode byte 0x" ++ hex_padded 2 byte ++ lit " in position " ++ at_ ++ lit ": "
            ++ reason_text (reason error))
  else
    Some (lit "'utf-8' codec can't decode bytes in position " ++ at_ ++ lit "-" ++ nat_text (end_ error - 1) ++ lit ": "
            ++ reason_text (reason error)).

(** * Forms *)

(** The bytes start a form that they do not end. *)
Definition lead_in (l : list Z) : Prop :=
  l <> [] /\ exists c more, is_scalar c = true /\ more <> [] /\ l ++ more = encode_utf8 c.

Lemma form_width_2 b : form_width b = 2%nat <-> 0xc2 <= b <= 0xdf.
Proof. unfold form_width. repeat case_match; lia. Qed.
Lemma form_width_3 b : form_width b = 3%nat <-> 0xe0 <= b <= 0xef.
Proof. unfold form_width. repeat case_match; lia. Qed.
Lemma form_width_4 b : form_width b = 4%nat <-> 0xf0 <= b <= 0xf4.
Proof. unfold form_width. repeat case_match; lia. Qed.
Lemma form_width_lead b : (2 <= form_width b)%nat <-> 0xc2 <= b <= 0xf4.
Proof. unfold form_width. repeat case_match; lia. Qed.

Lemma is_scalar_range c : is_scalar c = true <-> 0 <= c < 0xd800 \/ 0xdfff < c <= 0x10ffff.
Proof. unfold is_scalar. lia. Qed.

Lemma second_ok_range b0 b1 : second_ok b0 b1 = true <->
  (if b0 =? 0xe0 then 0xa0 else if b0 =? 0xf0 then 0x90 else 0x80) <= b1 <=
  (if b0 =? 0xed then 0x9f else if b0 =? 0xf4 then 0x8f else 0xbf).
Proof. unfold second_ok, continuation. repeat case_match; lia. Qed.

Lemma continuation_range b : continuation b = true <-> 0x80 <= b <= 0xbf.
Proof. unfold continuation. lia. Qed.

Ltac by_division := Z.to_euclidean_division_equations; lia.

(** The bounds of the second byte, by the first. *)
Ltac by_second b Hs :=
  revert Hs; destruct (Z.eqb_spec b 0xe0), (Z.eqb_spec b 0xed), (Z.eqb_spec b 0xf0), (Z.eqb_spec b 0xf4);
  intros; first [lia | by_division].

Lemma step_2 b0 b1 : form_width b0 = 2%nat -> second_ok b0 b1 = true -> exists c, utf8_step [b0; b1] = Some (c, []).
Proof.
  intros Hw%form_width_2 Hs%second_ok_range. assert (continuation b1 = true) as Hc by (apply continuation_range; repeat case_match; lia).
  cbn [utf8_step]. rewrite Hc. rewrite (proj2 (Z.ltb_ge b0 0x80)), (proj2 (Z.leb_le 0xc0 b0)), (proj2 (Z.ltb_lt b0 0xe0)) by lia.
  cbn [andb negb]. rewrite (proj2 (Z.leb_le 0x80 _)) by by_division. by eexists.
Qed.

Lemma step_3 b0 b1 b2 : form_width b0 = 3%nat -> second_ok b0 b1 = true -> continuation b2 = true ->
  exists c, utf8_step [b0; b1; b2] = Some (c, []).
Proof.
  intros Hw%form_width_3 Hs%second_ok_range Hc2. assert (continuation b1 = true) as Hc by (apply continuation_range; repeat case_match; lia).
  cbn [utf8_step]. rewrite Hc, Hc2.
  rewrite (proj2 (Z.ltb_ge b0 0x80)), (proj2 (Z.ltb_ge b0 0xe0)), (proj2 (Z.leb_le 0xe0 b0)), (proj2 (Z.ltb_lt b0 0xf0)) by lia.
  rewrite andb_false_r. cbn [andb negb]. apply continuation_range in Hc2.
  rewrite (proj2 (Z.leb_le 0x800 _)), (proj2 (is_scalar_range _)); [by eexists|..].
  - by_second b0 Hs.
  - by_second b0 Hs.
Qed.

Lemma step_4 b0 b1 b2 b3 : form_width b0 = 4%nat -> second_ok b0 b1 = true -> continuation b2 = true -> continuation b3 = true ->
  exists c, utf8_step [b0; b1; b2; b3] = Some (c, []).
Proof.
  intros Hw%form_width_4 Hs%second_ok_range Hc2 Hc3. assert (continuation b1 = true) as Hc by (apply continuation_range; repeat case_match; lia).
  cbn [utf8_step]. rewrite Hc, Hc2, Hc3.
  rewrite (proj2 (Z.ltb_ge b0 0x80)), (proj2 (Z.ltb_ge b0 0xe0)), (proj2 (Z.ltb_ge b0 0xf0)), (proj2 (Z.leb_le 0xf0 b0)),
    (proj2 (Z.ltb_lt b0 0xf8)) by lia.
  rewrite !andb_false_r. cbn [andb negb]. apply continuation_range in Hc2, Hc3.
  rewrite (proj2 (Z.leb_le 0x10000 _)), (proj2 (is_scalar_range _)); [by eexists|..].
  - by_second b0 Hs.
  - by_second b0 Hs.
Qed.

(** What the bytes of one character are. *)
Lemma encode_form c : is_scalar c = true ->
  match encode_utf8 c with
  | [b0] => b0 < 0x80
  | b0 :: b1 :: rest =>
      (2 <= form_width b0)%nat /\ form_width b0 = length (b0 :: b1 :: rest) /\ second_ok b0 b1 = true /\
      Forall (fun b => continuation b = true) rest
  | [] => False
  end.
Proof.
  intros Hs%is_scalar_range. unfold encode_utf8.
  destruct (Z.ltb_spec c 0x80); [done|]. destruct (Z.ltb_spec c 0x800); [|destruct (Z.ltb_spec c 0x10000)]; cbn [length].
  - rewrite form_width_lead, form_width_2, second_ok_range. split_and!; try by_division.
    all: first [by (destruct (Z.eqb_spec (0xc0 + c / 64) 0xe0), (Z.eqb_spec (0xc0 + c / 64) 0xf0),
      (Z.eqb_spec (0xc0 + c / 64) 0xed), (Z.eqb_spec (0xc0 + c / 64) 0xf4); by_division)
      | repeat constructor; apply continuation_range; by_division].
  - rewrite form_width_lead, form_width_3, second_ok_range. split_and!; try by_division.
    all: first [by (destruct (Z.eqb_spec (0xe0 + c / 4096) 0xe0), (Z.eqb_spec (0xe0 + c / 4096) 0xf0),
      (Z.eqb_spec (0xe0 + c / 4096) 0xed), (Z.eqb_spec (0xe0 + c / 4096) 0xf4); by_division)
      | repeat constructor; apply continuation_range; by_division].
  - rewrite form_width_lead, form_width_4, second_ok_range. split_and!; try by_division.
    all: first [by (destruct (Z.eqb_spec (0xf0 + c / 262144) 0xe0), (Z.eqb_spec (0xf0 + c / 262144) 0xf0),
      (Z.eqb_spec (0xf0 + c / 262144) 0xed), (Z.eqb_spec (0xf0 + c / 262144) 0xf4); by_division)
      | repeat constructor; apply continuation_range; by_division].
Qed.

Lemma utf8_step_form c rest : is_scalar c = true -> utf8_step (encode_utf8 c ++ rest) = Some (c, rest).
Proof.
  intros Hs. pose proof (utf8_step_encode c rest) as H. unfold encode_code_point in H. rewrite Hs in H. apply H.
  unfold is_code_point. apply scalar_range in Hs. unfold LAST_CODE_POINT. lia.
Qed.

(** A whole form at the start of the bytes is a step. *)
Lemma step_more l c rest : Forall is_byte l -> utf8_step l = Some (c, []) ->
  utf8_step (l ++ rest) = Some (c, rest) /\ l = encode_utf8 c /\ is_scalar c = true.
Proof.
  intros Hb Hl. destruct (utf8_step_sound l c [] Hb Hl) as [El Hs]. rewrite app_nil_r in El. subst l.
  split; [by apply utf8_step_form|done].
Qed.

Ltac all_bytes := repeat (apply Forall_cons; split; [assumption|]); by apply Forall_nil.

Lemma lead_in_1 b0 : is_byte b0 -> (2 <= form_width b0)%nat -> lead_in [b0].
Proof.
  intros Hb Hw. set (b1 := if b0 =? 0xe0 then 0xa0 else if b0 =? 0xf0 then 0x90 else 0x80).
  assert (second_ok b0 b1 = true) as H1 by (apply second_ok_range; unfold b1; repeat case_match; lia).
  assert (is_byte b1) as Hb1 by (unfold b1, is_byte; repeat case_match; lia).
  assert (continuation 0x80 = true) as H2 by done.
  assert (is_byte 0x80) as Hb2 by (unfold is_byte; lia).
  assert (form_width b0 = 2 \/ form_width b0 = 3 \/ form_width b0 = 4)%nat as [E|[E|E]] by (revert Hw; unfold form_width; repeat case_match; lia).
  - destruct (step_2 b0 b1 E H1) as [c [_ [Hl Hs]]%(step_more _ _ [])]; [|all_bytes]. split; [done|]. exists c, [b1]. by split_and!.
  - destruct (step_3 b0 b1 _ E H1 H2) as [c [_ [Hl Hs]]%(step_more _ _ [])]; [|all_bytes]. split; [done|]. exists c, [b1; 0x80]. by split_and!.
  - destruct (step_4 b0 b1 _ _ E H1 H2 H2) as [c [_ [Hl Hs]]%(step_more _ _ [])]; [|all_bytes].
    split; [done|]. exists c, [b1; 0x80; 0x80]. by split_and!.
Qed.

Lemma lead_in_2 b0 b1 : is_byte b0 -> is_byte b1 -> (3 <= form_width b0)%nat -> second_ok b0 b1 = true -> lead_in [b0; b1].
Proof.
  intros Hb0 Hb1 Hw H1. assert (continuation 0x80 = true) as H2 by done. assert (is_byte 0x80) as Hb2 by (unfold is_byte; lia).
  assert (form_width b0 = 3 \/ form_width b0 = 4)%nat as [E|E] by (revert Hw; unfold form_width; repeat case_match; lia).
  - destruct (step_3 b0 b1 _ E H1 H2) as [c [_ [Hl Hs]]%(step_more _ _ [])]; [|all_bytes]. split; [done|]. exists c, [0x80]. by split_and!.
  - destruct (step_4 b0 b1 _ _ E H1 H2 H2) as [c [_ [Hl Hs]]%(step_more _ _ [])]; [|all_bytes].
    split; [done|]. exists c, [0x80; 0x80]. by split_and!.
Qed.

Lemma lead_in_3 b0 b1 b2 : Forall is_byte [b0; b1; b2] -> form_width b0 = 4%nat -> second_ok b0 b1 = true -> continuation b2 = true ->
  lead_in [b0; b1; b2].
Proof.
  intros Hb Hw H1 H2. assert (continuation 0x80 = true) as H3 by done.
  destruct (step_4 b0 b1 _ _ Hw H1 H2 H3) as [c [_ [Hl Hs]]%(step_more _ _ [])]; [split; [done|]; exists c, [0x80]; by split_and!|].
  change [b0; b1; b2; 128] with ([b0; b1; b2] ++ [128]). apply Forall_app. split; [done|]. constructor; [unfold is_byte; lia|done].
Qed.

(** The bytes start no form. *)
Definition no_form (l : list Z) : Prop := forall c, is_scalar c = true -> ~ l `prefix_of` encode_utf8 c.

Lemma no_form_1 b0 : 0x80 <= b0 -> (form_width b0 < 2)%nat -> no_form [b0].
Proof.
  intros Hb Hw c Hs [more Hl]. pose proof (encode_form c Hs) as Hf. rewrite Hl in Hf. destruct more as [|b1 more]; cbn in Hf; [lia|].
  destruct Hf as [Hf _]. lia.
Qed.

Lemma no_form_2 b0 b1 : second_ok b0 b1 = false -> no_form [b0; b1].
Proof.
  intros Hb c Hs [more Hl]. pose proof (encode_form c Hs) as Hf. rewrite Hl in Hf. cbn in Hf. destruct Hf as (_ & _ & Hf & _). congruence.
Qed.

Lemma no_form_more b0 b1 l b : continuation b = false -> no_form (b0 :: b1 :: l ++ [b]).
Proof.
  intros Hb c Hs [more Hl]. pose proof (encode_form c Hs) as Hf. rewrite Hl in Hf. cbn in Hf. destruct Hf as (_ & _ & _ & Hf).
  rewrite !Forall_app, Forall_singleton in Hf. destruct Hf as [[_ Hf] _]. congruence.
Qed.

(** The error length of bytes that start with no whole form. *)
Lemma error_len_spec rest : Forall is_byte rest -> rest <> [] -> utf8_step rest = None ->
  match error_len rest with
  | None => lead_in rest
  | Some n =>
      (n < length rest)%nat /\ lead_in (take n rest) /\ no_form (take (S n) rest) /\ (2 <= form_width (hd 0%Z rest))%nat \/
      n = 1%nat /\ no_form (take 1 rest) /\ (form_width (hd 0%Z rest) < 2)%nat
  end.
Proof.
  intros Hb Hne Hstep. destruct rest as [|b0 r0]; [done|]. cbn [error_len hd]. apply Forall_cons in Hb as [Hb0 Hr0].
  destruct (Nat.ltb_spec (form_width b0) 2) as [Hw|Hw].
  { right. split; [done|]. split; [|done]. apply no_form_1; [|done]. cbn [utf8_step] in Hstep. destruct (Z.ltb_spec b0 0x80); [done|lia]. }
  destruct r0 as [|b1 r1]; [by apply lead_in_1|]. apply Forall_cons in Hr0 as [Hb1 Hr1].
  destruct (second_ok b0 b1) eqn:H1; cbn [negb]; [|left; split; [cbn; lia|]; split; [by apply lead_in_1|]; split; [by apply no_form_2|done]].
  assert (form_width b0 <> 2%nat) as Hw2.
  { intros E. destruct (step_2 b0 b1 E H1) as [c [H _]%(step_more _ _ r1)]; [|all_bytes]. cbn [app] in H. congruence. }
  destruct r1 as [|b2 r2]; [apply lead_in_2; [done..|lia|done]|]. apply Forall_cons in Hr1 as [Hb2 Hr2].
  destruct (continuation b2) eqn:H2; cbn [negb].
  2: { left. split; [cbn; lia|]. split; [apply lead_in_2; [done..|lia|done]|]. split; [by apply (no_form_more b0 b1 [])|done]. }
  assert (form_width b0 = 4%nat) as Hw4.
  { destruct (decide (form_width b0 = 3%nat)) as [E|Hw3].
    - destruct (step_3 b0 b1 b2 E H1 H2) as [c [H _]%(step_more _ _ r2)]; [|all_bytes]. cbn [app] in H. congruence.
    - revert Hw Hw2 Hw3. unfold form_width. repeat case_match; lia. }
  assert (lead_in [b0; b1; b2]) as H3 by (apply lead_in_3; [all_bytes|done..]).
  destruct r2 as [|b3 r3]; [done|]. left. split; [cbn; lia|]. split; [done|]. split; [|done].
  apply (no_form_more b0 b1 [b2]). destruct (continuation b3) eqn:E3; [|done]. apply Forall_cons in Hr2 as [Hb3 _].
  destruct (step_4 b0 b1 b2 b3 Hw4 H1 H2 E3) as [c [H _]%(step_more _ _ r3)]; [|all_bytes]. cbn [app] in H. congruence.
Qed.

(** * What a refusal tells *)

Lemma valid_prefix_spec fuel bytes : Forall is_byte bytes -> (length bytes <= fuel)%nat ->
  let '(text, rest) := valid_prefix fuel bytes in
  bytes = as_bytes text ++ rest /\ is_str text /\ utf8_step rest = None /\
  from_utf8_steps fuel bytes = match rest with [] => Some text | _ => None end.
Proof.
  revert bytes. induction fuel as [|fuel IH]; intros bytes Hb Hlen.
  - destruct bytes; [|cbn in Hlen; lia]. cbn. split_and!; [done|constructor|done..].
  - cbn [valid_prefix]. destruct (utf8_step bytes) as [[c rest]|] eqn:E.
    + destruct (utf8_step_sound _ _ _ Hb E) as [Hbytes Hs]. assert (Forall is_byte rest) as Hr by (rewrite Hbytes in Hb; by apply Forall_app in Hb as [_ Hb]).
      destruct (encode_nonempty c) as (b & bs & Ec); [unfold is_code_point; apply scalar_range in Hs; unfold LAST_CODE_POINT; lia|].
      assert (encode_utf8 c = b :: bs) as Ec' by (unfold encode_code_point in Ec; by rewrite Hs in Ec).
      assert (length rest <= fuel)%nat as Hlen' by (rewrite Hbytes, Ec', length_app in Hlen; cbn in Hlen; lia).
      specialize (IH rest Hr Hlen'). destruct (valid_prefix fuel rest) as [text rest']. destruct IH as (Hrest & Ht & Hstep & Hf).
      split_and!; [by rewrite as_bytes_cons, <- app_assoc, <- Hrest|by constructor|done|].
      destruct bytes as [|b0 bytes]; [done|]. cbn [from_utf8_steps]. rewrite E, Hf. by destruct rest'.
    + split_and!; [done|constructor|done|]. destruct bytes; [done|]. cbn [from_utf8_steps]. by rewrite E.
Qed.

(** The start of a form is refused, and only for its end. *)
Lemma lead_in_cut p : Forall is_byte p -> lead_in p -> utf8_step p = None /\ error_len p = None.
Proof.
  intros Hb [Hne (c & more & Hs & Hm & Hl)].
  assert (utf8_step p = None) as Hstep.
  { destruct (utf8_step p) as [[d rest]|] eqn:E; [|done]. destruct (utf8_step_sound _ _ _ Hb E) as [Hp Hd].
    pose proof (utf8_step_form c [] Hs) as H1. rewrite app_nil_r, <- Hl, Hp, <- app_assoc, utf8_step_form in H1 by done.
    injection H1 as _ H1. by apply app_nil in H1 as [_ ->]. }
  split; [done|]. pose proof (error_len_spec p Hb Hne Hstep) as He. destruct (error_len p) as [n|]; [|done]. exfalso.
  assert (forall k, ~ no_form (take k p)) as Hform.
  { intros k Hno. apply (Hno c Hs). rewrite <- Hl. apply prefix_app_r. exists (drop k p). by rewrite take_drop. }
  destruct He as [(_ & _ & H & _)|(_ & H & _)]; by apply Hform in H.
Qed.

Lemma as_bytes_cancel d t x : is_str d -> is_str t -> as_bytes d ++ x = as_bytes t -> exists t', t = d ++ t' /\ x = as_bytes t'.
Proof.
  intros Hd. revert t. induction Hd as [|c d Hc Hd IH]; intros t Ht E; [by exists t|].
  rewrite as_bytes_cons, <- app_assoc in E. destruct Ht as [|c' t Hc' Ht].
  - cbn in E. apply app_nil in E as [E _]. destruct (encode_shape c Hc) as [[_ H]|(_ & ? & ? & H & _)]; by rewrite H in E.
  - pose proof (utf8_step_form c (as_bytes d ++ x) Hc) as H1. rewrite E, as_bytes_cons, utf8_step_form in H1 by done.
    injection H1 as -> H1. destruct (IH t Ht (eq_sym H1)) as (t' & -> & ->). by exists t'.
Qed.

Lemma as_bytes_longer s : is_str s -> (length s <= length (as_bytes s))%nat.
Proof.
  induction 1 as [|c s Hc Hs IH]; [done|]. rewrite as_bytes_cons, length_app. cbn [length].
  destruct (encode_shape c Hc) as [[_ ->]|(_ & ? & ? & -> & _)]; cbn; lia.
Qed.

Lemma as_bytes_range s : is_str s -> Forall is_byte (as_bytes s).
Proof.
  induction 1 as [|c s Hc Hs IH]; [constructor|]. rewrite as_bytes_cons. apply Forall_app. split; [|done].
  apply is_scalar_range in Hc. unfold encode_utf8, is_byte.
  destruct (Z.ltb_spec c 0x80); [|destruct (Z.ltb_spec c 0x800); [|destruct (Z.ltb_spec c 0x10000)]];
    repeat (apply Forall_cons; split; [by_division|]); by apply Forall_nil.
Qed.

(** Bytes that start with no form are not text, whatever follows a broken one. *)
Lemma broken_not_text d data more t : is_str d -> is_str t -> Forall is_byte data -> data <> [] -> utf8_step data = None ->
  (more = [] \/ error_len data <> None) -> as_bytes d ++ data ++ more <> as_bytes t.
Proof.
  intros Hd Ht Hb Hne Hstep Hmore E. apply as_bytes_cancel in E as (t' & -> & E); [|done..].
  apply Forall_app in Ht as [_ Ht]. destruct Ht as [|c t' Hc Ht].
  { apply app_nil in E as [-> _]. done. }
  rewrite as_bytes_cons in E.
  destruct Hmore as [->|Hlen].
  { rewrite app_nil_r in E. rewrite E, utf8_step_form in Hstep by done. done. }
  assert (exists k, no_form (take k data)) as [k Hno].
  { pose proof (error_len_spec data Hb Hne Hstep) as He. destruct (error_len data); [|done].
    destruct He as [(_ & _ & H & _)|(_ & H & _)]; eauto. }
  assert (take k data `prefix_of` encode_utf8 c ++ as_bytes t') as Hp.
  { rewrite <- E. apply prefix_app_r. exists (drop k data). by rewrite take_drop. }
  destruct (prefix_weak_total (take k data) (encode_utf8 c) (encode_utf8 c ++ as_bytes t')) as [H|[more' H]];
    [done|by exists (as_bytes t')|by apply (Hno c Hc)|].
  rewrite <- (take_drop k data), H, <- app_assoc, utf8_step_form in Hstep by done. done.
Qed.

Lemma codec_text_some bytes e b : bytes !! start e = Some b -> is_Some (codec_text bytes e).
Proof. intros H. unfold codec_text. rewrite H. case_decide; by eexists. Qed.

(** What the decoder's first pass finds in bytes that it accepts, and in bytes that it refuses. *)
Lemma valid_prefix_cut text rest : is_str text -> Forall is_byte rest -> utf8_step rest = None ->
  valid_prefix (length (as_bytes text ++ rest)) (as_bytes text ++ rest) = (text, rest).
Proof.
  intros Ht Hr Hstep. generalize (Nat.le_refl (length (as_bytes text ++ rest))). generalize (length (as_bytes text ++ rest)) at 2 3.
  intros fuel Hf. revert fuel Hf. induction Ht as [|c text Hc Ht IH]; intros fuel Hf.
  - cbn [as_bytes fmap list_fmap concat app]. destruct fuel as [|fuel]; cbn [valid_prefix]; [done|]. by rewrite Hstep.
  - rewrite as_bytes_cons, <- app_assoc in *.
    assert (0 < length (encode_utf8 c))%nat by (destruct (encode_shape c Hc) as [[_ ->]|(_ & ? & ? & -> & _)]; cbn; lia).
    rewrite length_app in Hf. destruct fuel as [|fuel]; [lia|]. cbn [valid_prefix]. rewrite utf8_step_form by done.
    rewrite IH by lia. done.
Qed.

Lemma from_utf8_cut text rest : is_str text -> Forall is_byte (as_bytes text ++ rest) -> utf8_step rest = None ->
  from_utf8 (as_bytes text ++ rest) = match rest with [] => Some text | _ => None end.
Proof.
  intros Ht Hb Hstep. pose proof (valid_prefix_spec _ _ Hb (Nat.le_refl _)) as Hv.
  rewrite valid_prefix_cut in Hv; [unfold from_utf8; by destruct Hv as (_ & _ & _ & ->)|done| |done]. by apply Forall_app in Hb as [_ ?].
Qed.

Lemma decode_strict_text text : is_str text -> Forall is_byte (as_bytes text) -> decode_strict (as_bytes text) = Some (Ok text).
Proof.
  intros Ht Hb. unfold decode_strict. rewrite <- (app_nil_r (as_bytes text)) in *. by rewrite from_utf8_cut.
Qed.

Lemma decode_strict_cut text rest : is_str text -> Forall is_byte (as_bytes text ++ rest) -> utf8_step rest = None -> rest <> [] ->
  exists e, decode_strict (as_bytes text ++ rest) = Some (Err e) /\ is_Some (codec_text (as_bytes text ++ rest) e).
Proof.
  intros Ht Hb Hstep Hne. unfold decode_strict. rewrite from_utf8_cut by done. destruct rest as [|b0 rest]; [done|].
  unfold utf8_error. rewrite valid_prefix_cut; [|done|by apply Forall_app in Hb as [_ ?]|done]. cbn [snd].
  unfold not_utf8. cbn [valid_up_to utf8_error_len].
  assert ((as_bytes text ++ b0 :: rest) !! (length (as_bytes text ++ b0 :: rest) - length (b0 :: rest))%nat = Some b0) as Hb0.
  { rewrite length_app, Nat.add_sub, lookup_app_r, Nat.sub_diag by lia. done. }
  rewrite Hb0. cbn [mbind option_bind fmap option_fmap option_map]. eexists. split; [done|]. by eapply codec_text_some.
Qed.

(** A text is its own lossy decoding. *)
Lemma lossy_of_text text : is_str text -> from_utf8_lossy (as_bytes text) = text.
Proof.
  intros Ht. unfold from_utf8_lossy. cbn [lossy_steps].
  pose proof (valid_prefix_cut text [] Ht ltac:(constructor) ltac:(done)) as Hv. rewrite app_nil_r in Hv. by rewrite Hv.
Qed.

(** Decoding never panics.  It returns the text whose UTF-8 form the bytes are.  Bytes that it
    refuses start with the form of a text, up to [start]; from there on, the bytes up to [end_] are
    the start of a form that the end of the bytes cuts off ([UnexpectedEnd]) or the next byte breaks
    ([InvalidContinuation]), or they are one byte that starts no form ([InvalidStart]). *)
Theorem decode_strict_exact bytes (Hb : Forall is_byte bytes) :
  exists r, decode_strict bytes = Some r /\
  match r with
  | Ok text => is_str text /\ bytes = as_bytes text
  | Err e =>
      let bad := take (end_ e - start e) (drop (start e) bytes) in
      (start e < end_ e <= length bytes)%nat /\ is_Some (codec_text bytes e) /\
      (exists text, is_str text /\ take (start e) bytes = as_bytes text) /\
      match reason e with
      | UnexpectedEnd => end_ e = length bytes /\ lead_in bad
      | InvalidContinuation => lead_in bad /\ (end_ e < length bytes)%nat /\ no_form (take (end_ e + 1 - start e) (drop (start e) bytes))
      | InvalidStart => end_ e = S (start e) /\ no_form bad
      end
  end.
Proof.
  pose proof (valid_prefix_spec (length bytes) bytes Hb (Nat.le_refl _)) as Hv.
  unfold decode_strict, from_utf8, utf8_error. destruct (valid_prefix (length bytes) bytes) as [text rest].
  destruct Hv as (Hbytes & Ht & Hstep & ->). destruct rest as [|b0 rest].
  { exists (Ok text). rewrite app_nil_r in Hbytes. by split_and!. }
  cbn [snd]. assert (Forall is_byte (b0 :: rest)) as Hr by (rewrite Hbytes in Hb; by apply Forall_app in Hb as [_ Hb]).
  pose proof (error_len_spec _ Hr ltac:(done) Hstep) as He. set (r := b0 :: rest) in *.
  assert (length bytes - length r = length (as_bytes text))%nat as Hstart by (rewrite Hbytes, length_app; lia).
  unfold not_utf8. cbn [valid_up_to utf8_error_len]. rewrite Hstart.
  assert (bytes !! length (as_bytes text) = Some b0) as Hbyte by (rewrite Hbytes, lookup_app_r, Nat.sub_diag by lia; done).
  rewrite Hbyte. cbn [mbind option_bind fmap option_fmap option_map]. eexists. split; [done|]. cbn [start end_ reason].
  assert (drop (length (as_bytes text)) bytes = r) as Hdrop by (rewrite Hbytes; apply drop_app_length).
  assert (length bytes = length (as_bytes text) + length r)%nat as Hlen by (rewrite Hbytes; apply length_app).
  assert (0 < length r)%nat as Hpos by (unfold r; cbn; lia).
  assert (exists text', is_str text' /\ take (length (as_bytes text)) bytes = as_bytes text') as Hprefix.
  { exists text. split; [done|]. rewrite Hbytes. by rewrite take_app_length. }
  rewrite Hdrop. destruct (error_len r) as [n|].
  - destruct He as [(Hn & [Hne Hl] & Hno & Hw)|(-> & Hno & Hw)].
    + assert (n <> O) by (by intros ->). apply form_width_lead in Hw. cbn [hd r] in Hw.
      rewrite (proj2 (Z.leb_le 0xc2 b0)), (proj2 (Z.leb_le b0 0xf4)) by apply Hw. cbn [andb].
      split; [lia|]. split; [by eapply codec_text_some|]. split; [done|].
      replace (length (as_bytes text) + n - length (as_bytes text))%nat with n by lia.
      replace (length (as_bytes text) + n + 1 - length (as_bytes text))%nat with (S n) by lia. split; [by split|]. by split; [lia|].
    + assert ((0xc2 <=? b0) && (b0 <=? 0xf4) = false) as ->.
      { destruct ((0xc2 <=? b0) && (b0 <=? 0xf4)) eqn:E; [|done]. assert (2 <= form_width b0)%nat by (apply form_width_lead; lia).
        cbn [hd r] in Hw. lia. }
      split; [lia|]. split; [by eapply codec_text_some|]. split; [done|]. split; [lia|].
      by replace (length (as_bytes text) + 1 - length (as_bytes text))%nat with 1%nat by lia.
  - split; [lia|]. split; [by eapply codec_text_some|]. split; [done|]. split; [done|].
    replace (length bytes - length (as_bytes text))%nat with (length r) by lia. by rewrite firstn_all.
Qed.

(** A form cut off after two of its three bytes. *)
Lemma decode_strict_exact_witness :
  let bytes := [97; 0xe2; 0x82] in
  Forall is_byte bytes /\ decode_strict bytes = Some (Err {| start := 1; end_ := 3; reason := UnexpectedEnd |}) /\ lead_in [0xe2; 0x82].
Proof.
  intros bytes. assert (Forall is_byte bytes) as Hb by (repeat (apply Forall_cons; split; [unfold is_byte; lia|]); by apply Forall_nil).
  split; [exact Hb|]. assert (decode_strict bytes = Some (Err {| start := 1; end_ := 3; reason := UnexpectedEnd |})) as E by reflexivity.
  split; [exact E|]. destruct (decode_strict_exact bytes Hb) as (r & Hr & H). rewrite E in Hr. injection Hr as <-. apply H.
Defined.

(** * Byte order is code point order *)

(** A lone surrogate has the three bytes that the arithmetic of [encode_utf8] gives it. *)
Lemma encode_code_point_utf8 c : is_code_point c -> encode_code_point c = encode_utf8 c.
Proof.
  unfold is_code_point, encode_code_point, LAST_CODE_POINT. intros Hc. destruct (is_scalar c) eqn:E; [done|].
  assert (0xd800 <= c <= 0xdfff) as Hr by (unfold is_scalar in E; lia).
  unfold encode_utf8. by rewrite (proj2 (Z.ltb_ge c 0x80)), (proj2 (Z.ltb_ge c 0x800)), (proj2 (Z.ltb_lt c 0x10000)) by lia.
Qed.

(** The bytes of a smaller code point differ first at a smaller byte. *)
Lemma encode_lt c d :
  is_code_point c -> is_code_point d -> c < d ->
  exists p b1 b2 r1 r2, encode_code_point c = p ++ b1 :: r1 /\ encode_code_point d = p ++ b2 :: r2 /\ b1 < b2.
Proof.
  intros Hc Hd Hlt. rewrite !encode_code_point_utf8 by done. unfold is_code_point, LAST_CODE_POINT in *.
  assert (forall k x y, 0 < k -> x <= y -> x / k <= y / k) as Hmono by (intros; by apply Z.div_le_mono).
  pose proof (Hmono 64 c d ltac:(lia) ltac:(lia)). pose proof (Hmono 4096 c d ltac:(lia) ltac:(lia)).
  pose proof (Hmono 262144 c d ltac:(lia) ltac:(lia)).
  assert (forall k q x, 0 < k -> 0 < q -> x / (k * q) = x / k / q) as Hdd by (intros; by rewrite Z.div_div by lia).
  assert (forall x, x / 4096 = x / 64 / 64) as D1 by (intros; by apply (Hdd 64 64)).
  assert (forall x, x / 262144 = x / 4096 / 64) as D2 by (intros; by apply (Hdd 4096 64)).
  assert (forall x k, 0 < k -> x = k * (x / k) + x mod k /\ 0 <= x mod k < k) as Hmod
    by (intros; split; [by apply Z.div_mod; lia|by apply Z.mod_pos_bound]).
  pose proof (Hmod c 64 ltac:(lia)). pose proof (Hmod d 64 ltac:(lia)).
  pose proof (Hmod (c / 64) 64 ltac:(lia)) as Hc2. pose proof (Hmod (d / 64) 64 ltac:(lia)) as Hd2. rewrite <-!D1 in Hc2, Hd2.
  pose proof (Hmod (c / 4096) 64 ltac:(lia)) as Hc3. pose proof (Hmod (d / 4096) 64 ltac:(lia)) as Hd3. rewrite <-!D2 in Hc3, Hd3.
  unfold encode_utf8.
  assert (forall (p : list Z) b1 b2 r1 r2 l1 l2, l1 = p ++ b1 :: r1 -> l2 = p ++ b2 :: r2 -> b1 < b2 ->
    exists p b1 b2 r1 r2, l1 = p ++ b1 :: r1 /\ l2 = p ++ b2 :: r2 /\ b1 < b2) as Hat by (intros; by eexists _, _, _, _, _).
  destruct (Z.ltb_spec c 0x80), (Z.ltb_spec d 0x80); try lia;
    try (eapply (Hat []); [reflexivity|reflexivity|lia]);
    try (destruct (Z.ltb_spec d 0x800); [|destruct (Z.ltb_spec d 0x10000)]; (eapply (Hat []); [reflexivity|reflexivity|lia])).
  destruct (Z.ltb_spec c 0x800), (Z.ltb_spec d 0x800); try lia;
    try (destruct (Z.ltb_spec d 0x10000); (eapply (Hat []); [reflexivity|reflexivity|lia])).
  { destruct (Z.ltb_spec (c / 64) (d / 64)); [eapply (Hat []); [reflexivity|reflexivity|lia]|].
    assert (d / 64 = c / 64) as E by lia. eapply (Hat [_]); [reflexivity|by rewrite E|lia]. }
  destruct (Z.ltb_spec c 0x10000), (Z.ltb_spec d 0x10000); try lia;
    try (eapply (Hat []); [reflexivity|reflexivity|lia]).
  - destruct (Z.ltb_spec (c / 4096) (d / 4096)); [eapply (Hat []); [reflexivity|reflexivity|lia]|].
    assert (d / 4096 = c / 4096) as E by lia. destruct (Z.ltb_spec (c / 64 mod 64) (d / 64 mod 64)).
    + eapply (Hat [_]); [reflexivity|by rewrite E|lia].
    + assert (d / 64 mod 64 = c / 64 mod 64) as E2 by lia. eapply (Hat [_; _]); [reflexivity|by rewrite E, E2|lia].
  - destruct (Z.ltb_spec (c / 262144) (d / 262144)); [eapply (Hat []); [reflexivity|reflexivity|lia]|].
    assert (d / 262144 = c / 262144) as E by lia. destruct (Z.ltb_spec (c / 4096 mod 64) (d / 4096 mod 64)).
    + eapply (Hat [_]); [reflexivity|by rewrite E|lia].
    + assert (d / 4096 mod 64 = c / 4096 mod 64) as E2 by lia. destruct (Z.ltb_spec (c / 64 mod 64) (d / 64 mod 64)).
      * eapply (Hat [_; _]); [reflexivity|by rewrite E, E2|lia].
      * assert (d / 64 mod 64 = c / 64 mod 64) as E3 by lia. eapply (Hat [_; _; _]); [reflexivity|by rewrite E, E2, E3|lia].
Qed.

Lemma code_point_order a b : Forall is_code_point a -> Forall is_code_point b ->
  bytes_le (concat (encode_code_point <$> a)) (concat (encode_code_point <$> b)) = bytes_le a b.
Proof.
  intros Ha. revert b. induction Ha as [|c a Hc _ IH]; intros b Hb; [done|].
  destruct Hb as [|d b Hd Hb]; rewrite !fmap_cons, !concat_cons.
  { by destruct (encode_nonempty c Hc) as (? & ? & ->). }
  rewrite ?fmap_cons, ?concat_cons. cbn [bytes_le]. destruct (Z.ltb_spec c d).
  - destruct (encode_lt c d Hc Hd) as (p & b1 & b2 & r1 & r2 & -> & -> & Hlt); [done|].
    rewrite <-!app_assoc, bytes_le_prefix. cbn. by rewrite (proj2 (Z.ltb_lt _ _)).
  - destruct (Z.eqb_spec c d) as [->|]; [rewrite bytes_le_prefix; by apply IH|].
    destruct (encode_lt d c Hd Hc) as (p & b1 & b2 & r1 & r2 & -> & -> & Hlt); [lia|].
    rewrite <-!app_assoc, bytes_le_prefix. cbn. by rewrite (proj2 (Z.ltb_ge b2 b1)), (proj2 (Z.eqb_neq b2 b1)) by lia.
Qed.
