(* ===== verification/Shell.v ===== *)
(** The words of a shell command line: crates/text/src/shell.rs.

    The iterator that the functions of the source share is the list of the units left to
    read; a function that advances it returns what is left.  The main loop recurses on
    what the quoted readers leave, so it takes fuel: [split_total] shows that the length of
    the command is enough. *)

From S2P Require Import Prelude RustStr CodePoints.
Local Open Scope Z_scope.
Local Open Scope rs_scope.

Inductive ShellWordsError := NoClosingQuotation | NoEscapedCharacter.

#[export] Instance ShellWordsError_eq_dec : EqDecision ShellWordsError.
Proof. solve_decision. Defined.

Definition error_text (e : ShellWordsError) : str :=
  match e with
  | NoClosingQuotation => lit "No closing quotation"
  | NoEscapedCharacter => lit "No escaped character"
  end.

Definition is_separator (unit : Z) : bool :=
  existsb (fun byte => unit =? byte) [32; 9; 13; 10].

Definition escaped (units : list Z) : result (Z * list Z) ShellWordsError :=
  match units with
  | unit :: rest => Ok (unit, rest)
  | [] => Err NoEscapedCharacter
  end.

(** The word with the quoted text added, and the units after the closing quote. *)
Fixpoint single_quoted (units word : list Z) : result (list Z * list Z) ShellWordsError :=
  match units with
  | [] => Err NoClosingQuotation
  | unit :: rest =>
      if unit =? c_squote then Ok (word, rest) else single_quoted rest (word ++ [unit])
  end.

Fixpoint double_quoted (units word : list Z) : result (list Z * list Z) ShellWordsError :=
  match units with
  | [] => Err NoClosingQuotation
  | unit :: rest =>
      if unit =? c_dquote then Ok (word, rest)
      else if unit =? c_backslash then
        match rest with
        | [] => Err NoEscapedCharacter
        | next :: rest' =>
            let word := if negb (next =? c_backslash) && negb (next =? c_dquote)
                        then word ++ [unit] else word in
            double_quoted rest' (word ++ [next])
        end
      else double_quoted rest (word ++ [unit])
  end.

(** The loop of [split]: [None] is out of fuel. *)
Fixpoint split_steps (fuel : nat) (units : list Z) (words : list (list Z)) (word : option (list Z))
  : option (result (list (list Z)) ShellWordsError) :=
  match units with
  | [] => Some (Ok (words ++ option_list word))
  | unit :: rest =>
      match fuel with
      | O => None
      | S fuel' =>
          if is_separator unit then split_steps fuel' rest (words ++ option_list word) None
          else
            let current := default [] word in
            let read :=
              if unit =? c_squote then single_quoted rest current
              else if unit =? c_dquote then double_quoted rest current
              else if unit =? c_backslash then
                let? (next, rest') := escaped rest in Ok (current ++ [next], rest')
              else Ok (current ++ [unit], rest) in
            match read with
            | Ok (current', rest') => split_steps fuel' rest' words (Some current')
            | Err e => Some (Err e)
            end
      end
  end.

Definition split (units : list Z) : option (result (list (list Z)) ShellWordsError) :=
  split_steps (length units) units [] None.

Definition split_shell_words (command : str) : option (result (list str) ShellWordsError) :=
  split command.

Definition code_point_string (codes : list Z) : option CodePointString :=
  foldl (fun text code => text ≫= fun t => push t code) (Some cps_default) codes.

(** Each word back as a [CodePointString]; the outer [option] is the fuel and the panic of
    [push]. *)
Definition split_shell_code_points (command : CodePointString)
  : option (result (list CodePointString) ShellWordsError) :=
  words ← split (code_points command);
  match words with
  | Ok ws => Ok <$> mapM code_point_string ws
  | Err e => Some (Err e)
  end.

(** * Lemmas *)

Lemma single_quoted_shorter units word w rest :
  single_quoted units word = Ok (w, rest) -> (length rest < length units)%nat.
Proof.
  revert word. induction units as [|u units IH]; intros word; simpl; [done|].
  destruct (u =? c_squote); [intros [= _ <-]; lia|]. intros H. apply IH in H. lia.
Qed.

Lemma double_quoted_shorter units word w rest :
  double_quoted units word = Ok (w, rest) -> (length rest < length units)%nat.
Proof.
  remember (length units) as n eqn:Hn. revert units word Hn.
  induction n as [n IH] using lt_wf_ind. intros [|u units] word ->; simpl; [done|].
  destruct (u =? c_dquote); [intros [= _ <-]; lia|].
  destruct (u =? c_backslash).
  - destruct units as [|next units]; [done|]. intros H.
    apply (IH (length units)) in H; simpl in *; lia || done.
  - intros H. apply (IH (length units)) in H; simpl in *; lia || done.
Qed.

Lemma split_steps_fuel fuel fuel' units words word :
  (length units <= fuel)%nat -> (length units <= fuel')%nat ->
  split_steps fuel units words word = split_steps fuel' units words word /\
  is_Some (split_steps fuel units words word).
Proof.
  revert fuel' units words word. induction fuel as [|fuel IH]; intros fuel' units words word Hle Hle'.
  { destruct units; [|simpl in Hle; lia]. destruct fuel'; simpl; eauto. }
  destruct units as [|u rest]; [destruct fuel'; simpl; eauto|].
  destruct fuel' as [|fuel']; [simpl in Hle'; lia|]. simpl in Hle, Hle'. cbn [split_steps].
  destruct (is_separator u); [apply IH; lia|]. cbn zeta.
  destruct (if u =? c_squote then _ else _) as [[w r]|e] eqn:E; [|eauto].
  assert (length r <= length rest)%nat.
  { destruct (u =? c_squote); [apply single_quoted_shorter in E; lia|].
    destruct (u =? c_dquote); [apply double_quoted_shorter in E; lia|].
    destruct (u =? c_backslash); [|injection E as _ <-; lia].
    destruct rest as [|next rest]; [done|]. simpl in E. injection E as _ <-. simpl. lia. }
  apply IH; lia.
Qed.

(** The loop with enough fuel, without the fuel. *)
Lemma split_steps_enough fuel units words word :
  (length units <= fuel)%nat ->
  split_steps fuel units words word = split_steps (length units) units words word.
Proof. intros. by apply split_steps_fuel. Qed.

Lemma single_quoted_app w q rest :
  Forall (fun u => u <> c_squote) q -> single_quoted (q ++ c_squote :: rest) w = Ok (w ++ q, rest).
Proof.
  intros Hq. revert w. induction Hq as [|u q Hu _ IH]; intros w; simpl.
  - by rewrite app_nil_r.
  - rewrite (proj2 (Z.eqb_neq u _)) by done. by rewrite IH, <-app_assoc.
Qed.

(** * Quoting *)

(** A word in single quotes, each single quote of it in double quotes between them. *)
Definition shell_quote (word : list Z) : list Z :=
  [c_squote] ++
  concat ((fun u => if u =? c_squote then [c_squote; c_dquote; c_squote; c_dquote; c_squote] else [u]) <$> word)
  ++ [c_squote].

Definition shell_quote_body (word : list Z) : list Z :=
  concat ((fun u => if u =? c_squote then [c_squote; c_dquote; c_squote; c_dquote; c_squote] else [u]) <$> word)
  ++ [c_squote].

Lemma single_quoted_body word w rest :
  exists q word', shell_quote_body word = q ++ c_squote :: word' /\
    Forall (fun u => u <> c_squote) q /\
    single_quoted (shell_quote_body word ++ rest) w = Ok (w ++ q, word' ++ rest) /\
    ((word' = [] /\ word = q) \/
     exists more, word = q ++ c_squote :: more /\
       word' = c_dquote :: c_squote :: c_dquote :: c_squote :: shell_quote_body more).
Proof.
  revert w. induction word as [|u word IH]; intros w.
  - exists [], []. split; [done|]. split; [done|]. split; [|auto]. simpl. by rewrite app_nil_r.
  - destruct (Z.eqb_spec u c_squote) as [->|Hu].
    + exists [], (c_dquote :: c_squote :: c_dquote :: c_squote :: shell_quote_body word).
      split; [done|]. split; [done|]. split; [simpl; by rewrite app_nil_r|]. right. by exists word.
    + destruct (IH (w ++ [u])) as (q & word' & Heq & Hq & Hs & Hcase).
      assert (shell_quote_body (u :: word) = u :: shell_quote_body word) as Hcons.
      { unfold shell_quote_body. rewrite fmap_cons. simpl.
        by rewrite (proj2 (Z.eqb_neq u c_squote)) by done. }
      exists (u :: q), word'. rewrite Hcons. split; [by rewrite Heq|]. split; [by constructor|].
      split.
      * simpl. rewrite (proj2 (Z.eqb_neq u c_squote)) by done. by rewrite Hs, <-app_assoc.
      * destruct Hcase as [[-> ->]|(more & -> & ->)]; [by left|]. right. by exists more.
Qed.

(** Reading a quoted word adds exactly the word to the one in progress. *)
Lemma split_steps_quoted fuel word current rest words :
  (length (c_squote :: shell_quote_body word ++ rest) <= fuel)%nat ->
  split_steps fuel (c_squote :: shell_quote_body word ++ rest) words current =
  split_steps (length rest) rest words (Some (default [] current ++ word)).
Proof.
  remember (length word) as n eqn:Hn. revert word Hn fuel current.
  induction n as [n IH] using lt_wf_ind. intros word -> fuel current Hfuel.
  destruct fuel as [|fuel]; [simpl in Hfuel; lia|]. cbn [split_steps].
  change (is_separator c_squote) with false. cbn iota zeta. rewrite Z.eqb_refl.
  destruct (single_quoted_body word (default [] current) rest) as (q & word' & Heq & Hq & -> & Hcase).
  destruct Hcase as [[-> ->]|(more & -> & ->)].
  - simpl app. simpl in Hfuel. rewrite length_app in Hfuel.
    apply split_steps_enough. lia.
  - rewrite Heq in Hfuel. simpl in Hfuel. rewrite !length_app in Hfuel. simpl in Hfuel.
    simpl app.
    destruct fuel as [|fuel]; [lia|]. cbn [split_steps].
    change (is_separator c_dquote) with false. cbn iota zeta. cbn [double_quoted default].
    change (c_dquote =? c_squote) with false. change (c_dquote =? c_dquote) with true.
    change (c_squote =? c_dquote) with false. change (c_squote =? c_backslash) with false.
    cbn iota. rewrite (IH (length more)); [|rewrite length_app; simpl; lia|done|simpl; rewrite length_app; lia].
    simpl. by rewrite <-!app_assoc.
Qed.

(** The command line of the quoted words. *)
Definition shell_join (words : list (list Z)) : list Z := join_with [c_space] (shell_quote <$> words).

Lemma split_steps_join fuel words before :
  (length (shell_join words) <= fuel)%nat ->
  split_steps fuel (shell_join words) before None = Some (Ok (before ++ words)).
Proof.
  revert fuel before. induction words as [|w words IH]; intros fuel before Hfuel.
  { destruct fuel; simpl; by rewrite app_nil_r. }
  unfold shell_join in *. rewrite fmap_cons in *.
  change (shell_quote w) with (c_squote :: shell_quote_body w) in *.
  destruct words as [|w' words].
  - simpl join_with in *. pose proof (split_steps_quoted fuel w None [] before) as H.
    rewrite app_nil_r in H. by rewrite H by done.
  - rewrite join_with_cons in * by done. change ((c_squote :: shell_quote_body w) ++ ?l)
      with (c_squote :: shell_quote_body w ++ l) in *.
    rewrite split_steps_quoted by done. cbn [length app split_steps].
    change (is_separator c_space) with true. cbn iota. cbn [default option_list app].
    rewrite IH by done. by rewrite <-app_assoc.
Qed.

(** Splitting always ends: with the length of the command as fuel it returns words or
    one of the two errors, and more fuel changes nothing. *)
Theorem split_total units fuel (Hfuel : (length units <= fuel)%nat) :
  is_Some (split units) /\ split_steps fuel units [] None = split units.
Proof.
  unfold split. split; [by apply (split_steps_fuel _ (length units))|].
  by apply split_steps_enough.
Qed.

Lemma split_total_witness :
  (length (lit "rg 'a b") <= 10)%nat /\
  is_Some (split (lit "rg 'a b")) /\ split_steps 10 (lit "rg 'a b") [] None = split (lit "rg 'a b").
Proof. split; [vm_compute; lia|]. apply (split_total (lit "rg 'a b") 10). vm_compute. lia. Defined.

(** Words survive the trip through a command line: any words, quoted and joined with
    spaces, split back into exactly those words, empty words included. *)
Theorem shell_words_roundtrip words : split_shell_words (shell_join words) = Some (Ok words).
Proof. unfold split_shell_words, split. by rewrite split_steps_join. Qed.

Example split_mixed : split_shell_words (lit "rg -n 'a b' c\ d") =
  Some (Ok [lit "rg"; lit "-n"; lit "a b"; lit "c d"]).
Proof. vm_compute. reflexivity. Qed.
