(* ===== verification/Elision.v ===== *)
(** The two matching rules of the edit format: crates/patch/src/elision.rs.

    A block matches as whole lines: [whole_line_starts] searches the padded text for the
    padded block.  [whole_line_starts_lines] proves that search equal to a comparison of
    lists of lines, [line_matches], the specification that apply.rs and the orientation
    check of unidiff.rs are proved against. *)

From S2P Require Import Prelude RustStr Text.

Definition ELISION : str := lit "...".
Definition ELISION_PREFIX : str := ELISION ++ [c_lf].

Record Elided := { elided_search : str; elided_replace : str }.

Inductive Located :=
| Absent
| Unique (first_line last_line : nat)
| Ambiguous (matches : nat).

(** Newline sentinels around the text. *)
Definition pad (text : str) : str := [c_lf] ++ text ++ [c_lf].

(** The iterator of [whole_line_starts] from [from] on. Each step moves past the match it
    found, so the length of the haystack bounds the steps. *)
Fixpoint starts_from (fuel : nat) (haystack needle : str) (from : nat) : list nat :=
  match fuel with
  | O => []
  | S fuel' =>
      match find_str needle (drop from haystack) with
      | None => []
      | Some at_ => let found := from + at_ in found :: starts_from fuel' haystack needle (found + 1)
      end
  end.

Definition whole_line_starts (haystack block : str) : list nat :=
  starts_from (S (length haystack)) haystack (pad block) 0.

(** The 1-based line of the padded text that starts after the newline at [offset]. *)
Definition line_of (padded : str) (offset : nat) : nat := count (is_char c_lf) (take offset padded) + 1.

Definition locate (text block : str) : Located :=
  if negb (is_nonempty block) then Absent
  else
    let haystack := pad text in
    match whole_line_starts haystack block with
    | [] => Absent
    | [first] =>
        let first_line := line_of haystack first in
        Unique first_line (first_line + count (is_char c_lf) block)
    | _ :: _ :: rest => Ambiguous (2 + length rest)
    end.

Definition without_prefix (side : str) : str :=
  match strip_prefix ELISION_PREFIX side with
  | Some rest => if is_nonempty rest then rest else side
  | None => side
  end.

(** How often [line] occurs among [lines]: what the map of occurrences holds for it. *)
Definition occurrences (lines : list str) (line : str) : nat :=
  length (List.filter (fun l => bool_decide (l = line)) lines).

Definition unindented (line : str) : bool :=
  match line with [] => false | c :: _ => negb (is_space c) end.

Definition find_anchor (text : str) : option str :=
  let lines := split_char c_lf text in
  List.find (fun line => unindented line && (occurrences lines line =? 1)) lines.

Definition resolve_elisions (search replace text : str) : result Elided str :=
  let replace := without_prefix replace in
  if bool_decide (search = ELISION) then
    if match replace with [] => true | c :: _ => is_space c end
    then Err (lit "elided search block needs a replacement whose first line starts at column 1")
    else
      match find_anchor text with
      | None => Err (lit "elided search block has no unique unindented anchor line in scope")
      | Some anchor => Ok {| elided_search := anchor;
                             elided_replace := replace ++ [c_lf; c_lf] ++ anchor |}
      end
  else Ok {| elided_search := without_prefix search; elided_replace := replace |}.

(** * Whole-line matching as a comparison of lines *)

(** Where the lines [block] occur as consecutive lines of [lines]. *)
Definition line_matches (lines block : list str) : list nat :=
  List.filter (fun i => starts_with block (drop i lines)) (seq 0 (length lines)).

(** ** The search finds every occurrence *)

Lemma starts_from_spec fuel (haystack needle : str) from :
  needle <> [] -> length haystack < fuel + from ->
  starts_from fuel haystack needle from =
  List.filter (fun n => starts_with needle (drop n haystack)) (seq from (length haystack - from)).
Proof.
  intros Hne. revert from. induction fuel as [|fuel IH]; intros from Hfuel.
  { replace (length haystack - from) with 0 by lia. done. }
  cbn [starts_from]. destruct (find_str needle (drop from haystack)) as [n|] eqn:E.
  - apply find_str_Some in E as (Hp & Hn & Hno). rewrite length_drop in Hn.
    rewrite drop_drop in Hp.
    assert (n < length haystack - from).
    { destruct (decide (n = length haystack - from)) as [->|]; [|lia].
      rewrite drop_ge in Hp by lia. destruct Hp as [k Hk]. by destruct needle. }
    replace (length haystack - from) with (n + S (length haystack - (from + n + 1))) by lia.
    rewrite seq_app, List.filter_app. cbn [seq List.filter].
    rewrite (proj2 (starts_with_spec _ _)) by done.
    assert (List.filter (fun m => starts_with needle (drop m haystack)) (seq from n) = []) as ->.
    { apply filter_nil_iff_false. intros m Hm%in_seq. apply starts_with_false. intros Hpm.
      apply (Hno (m - from)); [lia|]. rewrite drop_drop. by replace (from + (m - from)) with m by lia. }
    simpl. f_equal. rewrite IH by lia. by replace (S (from + n)) with (from + n + 1) by lia.
  - symmetry. apply filter_nil_iff_false. intros m Hm%in_seq. apply starts_with_false. intros Hpm.
    apply (proj1 (find_str_None _ _) E (m - from)); [rewrite length_drop; lia|].
    rewrite drop_drop. by replace (from + (m - from)) with m by lia.
Qed.

(** ** Padded texts as lists of lines *)

(** The padded text of some lines: a newline before each line and one at the end. *)
Definition padded_lines (lines : list str) : str := concat (cons c_lf <$> lines) ++ [c_lf].

(** The offset in the padded text of the newline before line [i]. *)
Definition line_offset (lines : list str) (i : nat) : nat := length (concat (cons c_lf <$> take i lines)).

Lemma pad_lines lines : lines <> [] -> pad (join_with [c_lf] lines) = padded_lines lines.
Proof.
  unfold pad, padded_lines. induction lines as [|l lines IH]; [done|]. intros _.
  destruct lines as [|l' lines]; [simpl; by rewrite app_nil_r|].
  specialize (IH ltac:(done)). rewrite join_with_cons, fmap_cons by done.
  rewrite <-!app_assoc. cbn [concat]. rewrite <-app_assoc, <-IH. by simpl.
Qed.

Lemma pad_split text : pad text = padded_lines (split_char c_lf text).
Proof. rewrite <-pad_lines by apply split_char_nonempty. by rewrite join_split_char. Qed.

Lemma padded_lines_cons l lines : padded_lines (l :: lines) = c_lf :: l ++ padded_lines lines.
Proof. unfold padded_lines. simpl. by rewrite <-app_assoc. Qed.

Lemma padded_lines_head lines : exists r, padded_lines lines = c_lf :: r.
Proof. destruct lines; [by exists []|]. rewrite padded_lines_cons. eauto. Qed.

(** Two lines before a newline. *)
Lemma line_prefix b x B X :
  char_free c_lf b -> char_free c_lf x ->
  (exists r, B = c_lf :: r) -> (exists r, X = c_lf :: r) ->
  starts_with (b ++ B) (x ++ X) = bool_decide (b = x) && starts_with B X.
Proof.
  intros Hb Hx [rB ->] [rX ->]. revert x Hx. induction Hb as [|c b Hc Hb IH]; intros x Hx.
  - destruct x as [|d x]; simpl app; [by rewrite starts_with_cons|].
    apply Forall_cons in Hx as [Hd _]. apply is_char_false in Hd. rewrite starts_with_cons.
    by rewrite !bool_decide_eq_false_2.
  - apply is_char_false in Hc. destruct x as [|d x]; simpl app; rewrite starts_with_cons.
    + by rewrite !bool_decide_eq_false_2.
    + apply Forall_cons in Hx as [_ Hx]. rewrite IH by done. rewrite andb_assoc. f_equal.
      rewrite <-bool_decide_and. apply bool_decide_ext. naive_solver.
Qed.

Lemma padded_prefix block lines :
  Forall (char_free c_lf) block -> Forall (char_free c_lf) lines ->
  starts_with (padded_lines block) (padded_lines lines) = starts_with block lines.
Proof.
  intros Hb. revert lines. induction Hb as [|b block Hfb Hb IH]; intros lines Hl.
  - destruct (padded_lines_head lines) as [r ->]. done.
  - rewrite padded_lines_cons. destruct lines as [|l lines].
    + unfold padded_lines at 2. simpl. rewrite starts_with_cons, bool_decide_eq_true_2 by done.
      destruct b; [|done]. by destruct (padded_lines_head block) as [r ->].
    + apply Forall_cons in Hl as [Hfl Hl].
      rewrite padded_lines_cons, !starts_with_cons, bool_decide_eq_true_2 by done. simpl.
      rewrite line_prefix by (done || apply padded_lines_head). by rewrite IH.
Qed.

Lemma seq_shift_map k n : seq k n = map (Nat.add k) (seq 0 n).
Proof.
  revert k. induction n as [|n IH]; intros k; [done|]. cbn [seq map]. f_equal; [lia|].
  rewrite (IH (S k)), (IH 1), map_map. apply map_ext. lia.
Qed.

Lemma padded_occurrences block lines :
  block <> [] -> Forall (char_free c_lf) block -> Forall (char_free c_lf) lines ->
  List.filter (fun n => starts_with (padded_lines block) (drop n (padded_lines lines)))
    (seq 0 (length (padded_lines lines))) =
  map (line_offset lines) (line_matches lines block).
Proof.
  intros Hne Hb Hl. unfold line_matches. induction Hl as [|l lines Hfl Hl IH].
  - cbn [map seq List.filter length padded_lines app concat fmap list_fmap drop].
    destruct block as [|b block]; [done|]. rewrite padded_lines_cons.
    rewrite starts_with_cons, bool_decide_eq_true_2 by done. simpl.
    destruct b; [|done]. by destruct (padded_lines_head block) as [r ->].
  - rewrite padded_lines_cons. set (P := padded_lines lines) in *.
    replace (length (c_lf :: l ++ P)) with (1 + (length l + length P))
      by (simpl; rewrite length_app; lia).
    rewrite !seq_app, !List.filter_app. cbn [seq List.filter length drop Nat.add].
    replace (starts_with (padded_lines block) (c_lf :: l ++ P)) with (starts_with block (l :: lines))
      by (unfold P; rewrite <-padded_lines_cons; symmetry; apply padded_prefix; [done|by constructor]).
    assert (List.filter (fun n => starts_with (padded_lines block) (drop n (c_lf :: l ++ P)))
      (seq 1 (length l)) = []) as ->.
    { apply filter_nil_iff_false. intros n [Hn1 Hn2]%in_seq. destruct n as [|n]; [lia|]. cbn [drop].
      rewrite drop_app_le by lia.
      destruct (drop n l) as [|d r] eqn:E; [apply (f_equal length) in E; rewrite length_drop in E; simpl in E; lia|].
      assert (char_free c_lf (drop n l)) as Hd by by apply Forall_drop. rewrite E in Hd.
      apply Forall_cons in Hd as [Hd _]. apply is_char_false in Hd.
      destruct (padded_lines_head block) as [q ->]. simpl app. by rewrite starts_with_cons, bool_decide_eq_false_2. }
    rewrite app_nil_l. rewrite (seq_shift_map (S (length l))), filter_map_comm.
    assert (forall n, drop (S (length l) + n) (c_lf :: l ++ P) = drop n P) as Hdrop.
    { intros n. cbn [Nat.add drop]. rewrite <-drop_drop. by rewrite drop_app_length. }
    erewrite filter_ext_in_list by (intros n _; by rewrite Hdrop). rewrite IH.
    rewrite (seq_shift_map 1), filter_map_comm, map_map.
    assert (map (fun x => S (length l) + line_offset lines x) (List.filter (fun i => starts_with block (drop i lines))
      (seq 0 (length lines))) = map (line_offset (l :: lines)) (map (Nat.add 1)
      (List.filter (fun x => starts_with block (drop (1 + x) (l :: lines))) (seq 0 (length lines))))) as ->.
    { rewrite map_map. apply map_ext. intros n. unfold line_offset. cbn [Nat.add take].
      rewrite fmap_cons. simpl. by rewrite length_app. }
    by destruct (starts_with block (l :: lines)).
Qed.

Lemma whole_line_starts_lines text block :
  whole_line_starts (pad text) block =
  map (line_offset (split_char c_lf text)) (line_matches (split_char c_lf text) (split_char c_lf block)).
Proof.
  unfold whole_line_starts. rewrite starts_from_spec; [|done|lia].
  rewrite Nat.sub_0_r, !pad_split.
  apply padded_occurrences; [apply split_char_nonempty|apply split_char_free..].
Qed.

Lemma line_of_offset lines i :
  Forall (char_free c_lf) lines -> i <= length lines ->
  line_of (padded_lines lines) (line_offset lines i) = i + 1.
Proof.
  intros Hl Hi. unfold line_of, line_offset. f_equal.
  assert (take (length (concat (cons c_lf <$> take i lines))) (padded_lines lines) =
    concat (cons c_lf <$> take i lines)) as ->.
  { unfold padded_lines. rewrite <-(take_drop i lines) at 2. rewrite fmap_app, concat_app, <-app_assoc.
    by rewrite take_app_length. }
  rewrite <-(length_take_le lines i) at 2 by done.
  assert (Forall (char_free c_lf) (take i lines)) as Ht by by apply Forall_take.
  induction Ht as [|l ls Hfl _ IH]; [done|].
  rewrite fmap_cons. cbn [concat length]. rewrite count_app, IH.
  change (c_lf :: l) with ([c_lf] ++ l). rewrite count_app, (count_free (is_char c_lf) l Hfl).
  unfold count, is_char. simpl. lia.
Qed.

Lemma line_matches_spec lines block i :
  In i (line_matches lines block) <-> i < length lines /\ block `prefix_of` drop i lines.
Proof. unfold line_matches. rewrite filter_In, in_seq, starts_with_spec. intuition lia. Qed.

Lemma line_matches_length lines block i :
  In i (line_matches lines block) -> i + length block <= length lines.
Proof.
  intros [Hi [k Hk]]%line_matches_spec. apply (f_equal length) in Hk.
  rewrite length_app, length_drop in Hk. lia.
Qed.

(** [locate] finds a block by whole lines: it answers from the places where the lines of
    the block are consecutive lines of the text, a unique place as its 1-based first and
    last line, and an ambiguous block with the number of all its places, overlapping ones
    included. *)
Theorem locate_lines text block (Hne : block <> []) :
  locate text block =
  match line_matches (split_char c_lf text) (split_char c_lf block) with
  | [] => Absent
  | [i] => Unique (i + 1) (i + length (split_char c_lf block))
  | ms => Ambiguous (length ms)
  end.
Proof.
  unfold locate. destruct block as [|c block]; [done|]. cbn [is_nonempty negb].
  rewrite whole_line_starts_lines.
  destruct (line_matches _ _) as [|i [|j ms]] eqn:E; cbn [map].
  - done.
  - assert (In i (line_matches (split_char c_lf text) (split_char c_lf (c :: block)))) as Hi
      by (rewrite E; by left).
    apply line_matches_spec in Hi as [Hi _].
    rewrite pad_split, line_of_offset by (apply split_char_free || lia).
    f_equal. rewrite <-count_split_char. lia.
  - by rewrite length_map.
Qed.

Lemma locate_lines_witness :
  lit "b" <> [] /\
  locate (lit "ab" ++ [c_lf] ++ lit "b") (lit "b") =
  match line_matches (split_char c_lf (lit "ab" ++ [c_lf] ++ lit "b")) (split_char c_lf (lit "b")) with
  | [] => Absent
  | [i] => Unique (i + 1) (i + length (split_char c_lf (lit "b")))
  | ms => Ambiguous (length ms)
  end.
Proof. split; [discriminate|]. apply (locate_lines (lit "ab" ++ [c_lf] ++ lit "b") (lit "b")). discriminate. Defined.

(** ** Elisions *)

Lemma without_prefix_spec side :
  without_prefix side = side \/ side = ELISION_PREFIX ++ without_prefix side.
Proof.
  unfold without_prefix. destruct (strip_prefix ELISION_PREFIX side) as [rest|] eqn:E; [|by left].
  destruct (is_nonempty rest); [|by left]. right. by apply strip_prefix_Some in E.
Qed.

(** The anchor is the first line that is not indented and occurs once. *)
Lemma find_anchor_spec text anchor :
  find_anchor text = Some anchor <->
  exists before after, split_char c_lf text = before ++ anchor :: after /\
    unindented anchor = true /\ anchor ∉ before /\ anchor ∉ after /\
    Forall (fun line => unindented line = true -> 2 <= occurrences (split_char c_lf text) line) before.
Proof.
  unfold find_anchor. set (lines := split_char c_lf text).
  assert (forall ls a, occurrences ls a = 0 <-> a ∉ ls) as Hocc.
  { intros ls a. unfold occurrences. induction ls as [|l ls IH]; simpl.
    - split; [intros _ H; by apply elem_of_nil in H|done].
    - rewrite not_elem_of_cons, <-IH. case_bool_decide; simpl; naive_solver lia. }
  assert (forall ls1 a ls2, occurrences (ls1 ++ a :: ls2) a = 1 <-> a ∉ ls1 /\ a ∉ ls2) as Hone.
  { intros ls1 a ls2. rewrite <-!Hocc. unfold occurrences. rewrite List.filter_app, length_app. simpl.
    rewrite bool_decide_eq_true_2 by done. simpl. lia. }
  assert (forall ls f, List.find f ls = Some anchor <-> exists b a, ls = b ++ anchor :: a /\
    f anchor = true /\ Forall (fun l => f l = false) b) as Hfind.
  { intros ls f. induction ls as [|l ls IH]; simpl.
    - split; [done|]. intros (b & a & H & _). by destruct b.
    - destruct (f l) eqn:Hf.
      + split; [intros [= ->]; by exists [], ls|]. intros (b & a & H & ? & Hb).
        destruct b as [|l' b]; [by injection H as -> _|]. injection H as <- _.
        apply Forall_cons in Hb as [? _]. congruence.
      + rewrite IH. split.
        * intros (b & a & -> & ? & ?). exists (l :: b), a. repeat split; [done|by constructor].
        * intros (b & a & H & ? & Hb). destruct b as [|l' b]; [by injection H as -> _; congruence|].
          injection H as <- ->. apply Forall_cons in Hb as [_ ?]. by exists b, a. }
  rewrite Hfind. split.
  - intros (b & a & Hl & [Hu Ho%Nat.eqb_eq]%andb_true_iff & Hb). exists b, a.
    rewrite Hl in Ho. apply Hone in Ho as [? ?]. repeat split; [done..|].
    apply Forall_forall. intros l Hin Hul. rewrite Forall_forall in Hb. specialize (Hb l Hin).
    rewrite Hul in Hb. apply Nat.eqb_neq in Hb.
    assert (occurrences lines l <> 0); [|lia]. rewrite Hocc, Hl. set_solver.
  - intros (b & a & Hl & Hu & Hnb & Hna & Hb). exists b, a. split; [done|]. split.
    + rewrite Hu. simpl. apply Nat.eqb_eq. rewrite Hl. by apply Hone.
    + eapply Forall_impl; [exact Hb|]. intros l Hul. cbn beta in *. destruct (unindented l); [|done].
      simpl. apply Nat.eqb_neq. specialize (Hul eq_refl). lia.
Qed.
