(* ===== verification/Blocks.v ===== *)
(** SEARCH/REPLACE blocks: crates/patch/src/header.rs and crates/patch/src/blocks.rs.

    [parse_blocks] splits a patch text at its markers and reads each block into an edit or
    a refusal.  The theorems: rendered edits parse back to themselves; every block is
    accounted for, as an edit or as an error, under its own index; and an edit holds the
    lines that the block's markers and divider delimit. *)

From S2P Require Import Prelude RustStr Unicode Text CodePoints Elision.
From Stdlib Require Import Sorting.Sorted.

Arguments is_word : simpl never.
Arguments contains : simpl never.

(** * The path of a header: header.rs *)

Definition FENCE : str := lit "```".
Definition MAX_PATH_WORDS : nat := 3.
Definition MAX_EXTENSION : nat := 12.
Definition PROSE_END : str := lit ".,:;!?" ++ [c_dquote] ++ lit "')]}".
Definition PATH_START_REFUSED : str := [c_dquote] ++ lit "'([{".

Inductive HeaderPath :=
| NoPath
| Named (path : str)
| UnreadablePath (reason : str).

Inductive Shape := ShapePath | ShapeProse | ShapeUnreadable.

Definition is_alphanumeric (text : str) : bool :=
  is_nonempty text && all (fun c => negb (is_char 95 c) && is_word c) text.

Definition has_extension (name : str) : bool :=
  match rsplit_once c_dot name with
  | None => false
  | Some (stem, suffix) => is_nonempty stem && is_alphanumeric suffix && (length suffix <=? MAX_EXTENSION)
  end.

Definition shape (candidate : str) : Shape :=
  if match candidate with c :: _ => any (is_char c) PATH_START_REFUSED | [] => false end
  then ShapeUnreadable
  else if ends_with_char (fun c => any (is_char c) PROSE_END) candidate then ShapeProse
  else
    let words := length (split_whitespace candidate) in
    if words =? 1 then ShapePath
    else if (MAX_PATH_WORDS <? words) || contains (lit "  ") candidate || any (is_char 9) candidate
    then ShapeProse
    else
      let name := default candidate (last (split_char c_slash candidate)) in
      if has_extension name then ShapePath else ShapeProse.

Definition unreadable_reason (candidate : str) : str :=
  lit "the line above this block, " ++ quoted_str candidate ++
  lit ", is neither a path nor a sentence, so which file this block edits is not stated; put the path on its own line above <<<<<<< SEARCH".

(** The loop of [filename_in] over the lines that are left, the last one first. *)
Fixpoint filename_in_lines (lines : list str) : HeaderPath :=
  match lines with
  | [] => NoPath
  | line :: rest =>
      let candidate := strip line in
      if negb (is_nonempty candidate) || starts_with FENCE candidate then filename_in_lines rest
      else
        let stripped := strip (trim_start (is_char 35) candidate) in
        if negb (is_nonempty stripped) then filename_in_lines rest
        else
          match shape stripped with
          | ShapePath => Named stripped
          | ShapeProse => filename_in_lines rest
          | ShapeUnreadable => UnreadablePath (unreadable_reason stripped)
          end
  end.

Definition filename_in (header : str) : HeaderPath :=
  filename_in_lines (reverse (splitlines header false)).

(** * The blocks: blocks.rs *)

Definition SEARCH_MARKER : str := lit "<<<<<<< SEARCH".
Definition DIVIDER : str := lit "=======".
Definition REPLACE_MARKER : str := lit ">>>>>>> REPLACE".
Definition BEGIN_PATCH_MARKER : str := lit "*** Begin Patch".

Record Edit := { edit_index : Z; edit_path : str; edit_search : str; edit_replace : str }.
Record BlockError := { error_index : Z; error_path : option str; error_reason : str }.
Record ParseResult := { parse_edits : list Edit; parse_errors : list BlockError }.

#[export] Instance Edit_eq_dec : EqDecision Edit.
Proof. solve_decision. Defined.

Definition parse_ok (r : ParseResult) : bool := negb (is_nonempty (parse_errors r)).

(** [text.trim_end_matches(is_space)]: the [trim_end] of lib.rs. *)
Definition trim_end (text : str) : str := trim_end_of is_space text.

Definition is_divider (line : str) : bool := bool_decide (trim_end line = DIVIDER).

Definition crlf_reason (lines : list str) : option str :=
  if any (ends_with_char (is_char c_cr)) (take 1 lines ++ List.filter is_divider lines)
  then Some (lit "a structural line ends with a carriage return, so this patch text has CRLF line endings; convert it to LF and rerun")
  else None.

Definition divider_reason (n : nat) : str :=
  if n =? 0 then lit "block has no ======= divider between the search and replace sides"
  else lit "block has " ++ nat_text n ++ lit " ======= dividers; expected one".

Definition marker_reason (n : nat) : str :=
  if n =? 0 then lit "block has no <<<<<<< SEARCH marker"
  else lit "block has " ++ nat_text n ++ lit " <<<<<<< SEARCH markers; expected one".

(** The lines less a last line that is empty: the line break before the closing marker. *)
Definition without_last_blank (lines : list str) : list str :=
  match last lines with Some [] => removelast lines | _ => lines end.

Definition dividers_of (lines : list str) : list nat :=
  List.filter (fun at_ => is_divider (nth at_ lines [])) (seq 0 (length lines)).

Definition split_body (body : str) : result (str * str) str :=
  let lines := split_char c_lf body in
  match crlf_reason lines with
  | Some reason => Err reason
  | None =>
      if is_nonempty (strip (nth 0 lines []))
      then Err (lit "text follows the <<<<<<< SEARCH marker on its own line")
      else
        let lines := without_last_blank (drop 1 lines) in
        match dividers_of lines with
        | [at_] =>
            let search := join_with [c_lf] (take at_ lines) in
            let replace := join_with [c_lf] (drop (at_ + 1) lines) in
            if bool_decide (search = ELISION) && bool_decide (strip replace = ELISION)
            then Err (lit "both sides of this block are '...': there is nothing to write")
            else Ok (search, replace)
        | dividers => Err (divider_reason (length dividers))
        end
  end.

Definition edit_of (index : Z) (path : option str) (bodies : list str) : result Edit BlockError :=
  match bodies with
  | [body] =>
      match path with
      | None => Err {| error_index := index; error_path := None;
                       error_reason := lit "block names no file: put the path on its own line above <<<<<<< SEARCH" |}
      | Some path =>
          match split_body body with
          | Ok (search, replace) => Ok {| edit_index := index; edit_path := path;
                                          edit_search := search; edit_replace := replace |}
          | Err reason => Err {| error_index := index; error_path := Some path; error_reason := reason |}
          end
      end
  | _ => Err {| error_index := index; error_path := path; error_reason := marker_reason (length bodies) |}
  end.

Definition header_of (segment : str) : str := default [] (head (split_str SEARCH_MARKER segment)).

Definition read_block (index : Z) (segment : str) (inherited : option str)
  : option str * result Edit BlockError :=
  match filename_in (header_of segment) with
  | UnreadablePath reason =>
      (inherited, Err {| error_index := index; error_path := inherited; error_reason := reason |})
  | Named path => (Some path, edit_of index (Some path) (drop 1 (split_str SEARCH_MARKER segment)))
  | NoPath => (inherited, edit_of index inherited (drop 1 (split_str SEARCH_MARKER segment)))
  end.

Definition unterminated (index : Z) (tail : str) (current : option str) : option BlockError :=
  let header := header_of tail in
  if utf8_len header =? utf8_len tail then None
  else
    let path := match filename_in header with Named path => Some path | _ => current end in
    Some {| error_index := index; error_path := path;
            error_reason := lit "block is not terminated by >>>>>>> REPLACE (truncated output?)" |}.

Definition no_blocks_reason (text : str) : str :=
  let reason := lit "no SEARCH/REPLACE blocks found: expected " ++ SEARCH_MARKER ++ lit ", " ++ DIVIDER ++
    lit " and " ++ REPLACE_MARKER ++ lit " markers" in
  if contains BEGIN_PATCH_MARKER text
  then reason ++ lit "; this looks like " ++ BEGIN_PATCH_MARKER ++
    lit " text -- rewrite each hunk as a SEARCH/REPLACE block"
  else reason.

(** The variables of the loop of [parse_blocks]. *)
Record Reading := { parsed : ParseResult; current : option str; index : Z }.

Definition push_block (r : ParseResult) (block : result Edit BlockError) : ParseResult :=
  match block with
  | Ok edit => {| parse_edits := parse_edits r ++ [edit]; parse_errors := parse_errors r |}
  | Err error => {| parse_edits := parse_edits r; parse_errors := parse_errors r ++ [error] |}
  end.

Definition read_next (st : Reading) (segment : str) : Reading :=
  let '(path, block) := read_block (index st) segment (current st) in
  {| parsed := push_block (parsed st) block; current := path; index := index st + 1 |}.

Definition read_segments (segments : list str) : Reading :=
  foldl read_next
    {| parsed := {| parse_edits := []; parse_errors := [] |}; current := None; index := 0 |} segments.

Definition parse_blocks (text : str) : ParseResult :=
  let segments := split_str REPLACE_MARKER text in
  let tail := default [] (last segments) in
  let st := read_segments (removelast segments) in
  let result :=
    match unterminated (index st) tail (current st) with
    | Some error => push_block (parsed st) (Err error)
    | None => parsed st
    end in
  match parse_edits result, parse_errors result with
  | [], [] => push_block result
      (Err {| error_index := 0; error_path := None; error_reason := no_blocks_reason text |})
  | _, _ => result
  end.

Arguments SEARCH_MARKER : simpl never.
Arguments REPLACE_MARKER : simpl never.
Arguments DIVIDER : simpl never.

Example parse_one : parse_blocks (lit "src/a.rs
<<<<<<< SEARCH
old
=======
new
>>>>>>> REPLACE
") = {| parse_edits := [{| edit_index := 0; edit_path := lit "src/a.rs"; edit_search := lit "old"; edit_replace := lit "new" |}]; parse_errors := [] |}.
Proof. vm_compute. reflexivity. Qed.

(** * Rendered edits parse back *)

(** The block of an edit, and the patch text of some edits. *)
Definition render_block (e : Edit) : str :=
  edit_path e ++ [c_lf] ++ SEARCH_MARKER ++ [c_lf] ++ edit_search e ++ [c_lf] ++ DIVIDER ++ [c_lf] ++
  edit_replace e ++ [c_lf] ++ REPLACE_MARKER ++ [c_lf].

Definition render_edits (edits : list Edit) : str := concat (render_block <$> edits).

(** A path that a header line states: one line, stripped, of the shape of a path. *)
Definition path_line (path : str) : bool :=
  all (fun c => negb (is_line_break c)) path && bool_decide (strip path = path)
  && negb (starts_with FENCE path) && negb (match path with c :: _ => is_char 35 c | [] => true end)
  && match shape path with ShapePath => true | _ => false end.

(** A side that its block can carry: no marker in it and no divider among its lines. *)
Definition side_ok (side : str) : bool :=
  negb (contains SEARCH_MARKER side) && negb (contains REPLACE_MARKER side)
  && all (fun line => negb (is_divider line)) (split_char c_lf side).

Definition renderable (e : Edit) : bool :=
  path_line (edit_path e) && negb (contains SEARCH_MARKER (edit_path e))
  && negb (contains REPLACE_MARKER (edit_path e)) && side_ok (edit_search e) && side_ok (edit_replace e)
  && negb (bool_decide (edit_search e = ELISION) && bool_decide (strip (edit_replace e) = ELISION)).

Lemma lf_not_in_search : c_lf ∉ SEARCH_MARKER.
Proof. by apply (bool_decide_unpack _). Qed.
Lemma lf_not_in_replace : c_lf ∉ REPLACE_MARKER.
Proof. by apply (bool_decide_unpack _). Qed.

Lemma splitlines_from_line acc w s :
  Forall (fun c => is_line_break c = false) w ->
  splitlines_from false acc (w ++ c_lf :: s) = (reverse acc ++ w) :: splitlines_from false [] s.
Proof.
  intros Hw. revert acc. induction Hw as [|c w Hc _ IH]; intros acc.
  - simpl. rewrite app_nil_r. by destruct s.
  - cbn [app splitlines_from]. rewrite Hc. simpl. rewrite IH.
    by rewrite reverse_cons, <-app_assoc.
Qed.

Lemma filename_in_path before path :
  before = [] \/ before = [c_lf] -> path_line path = true -> filename_in (before ++ path ++ [c_lf]) = Named path.
Proof.
  intros Hb Hp. unfold path_line in Hp. bool_hyps.
  assert (Forall (fun c => is_line_break c = false) path) as Hf.
  { eapply Forall_impl; [by apply all_spec|]. intros c Hc. cbn beta in Hc. by apply negb_true_iff. }
  assert (exists rest, reverse (splitlines (before ++ path ++ [c_lf]) false) = path :: rest) as [rest Hrest].
  { unfold splitlines. destruct Hb as [-> | ->].
    - rewrite app_nil_l, splitlines_from_line by done. by exists [].
    - change ([c_lf] ++ path ++ [c_lf]) with ([] ++ c_lf :: (path ++ [c_lf])).
      rewrite splitlines_from_line, splitlines_from_line by done. by exists [[]]. }
  unfold filename_in. rewrite Hrest. cbn [filename_in_lines].
  assert (strip path = path) as Hs by done. rewrite Hs.
  assert (trim_start (is_char 35) path = path) as Ht.
  { destruct path as [|c path]; [done|]. by apply trim_start_id. }
  rewrite Ht, Hs. destruct path as [|c path]; [done|].
  match goal with H : starts_with FENCE _ = false |- _ => rewrite H end. simpl.
  by destruct (shape (c :: path)).
Qed.

Lemma dividers_of_one (S R : list str) d :
  Forall (fun line => is_divider line = false) S -> Forall (fun line => is_divider line = false) R ->
  is_divider d = true -> dividers_of (S ++ d :: R) = [length S].
Proof.
  intros HS HR Hd. unfold dividers_of. rewrite length_app, seq_app, List.filter_app. simpl.
  rewrite (filter_nil_iff_false _ (seq 0 (length S))).
  - rewrite app_nth2, Nat.sub_diag by lia. simpl. rewrite Hd. simpl. f_equal.
    apply filter_nil_iff_false. intros n [? ?]%in_seq. rewrite app_nth2 by lia.
    replace (n - length S) with (Datatypes.S (n - length S - 1)) by lia. simpl.
    rewrite Forall_forall in HR. apply HR, list_elem_of_In, nth_In. lia.
  - intros n [? ?]%in_seq. rewrite app_nth1 by lia. rewrite Forall_forall in HS.
    apply HS, list_elem_of_In, nth_In. lia.
Qed.

Lemma side_lines side : side_ok side = true ->
  Forall (fun line => is_divider line = false) (split_char c_lf side).
Proof.
  intros H. unfold side_ok in H. bool_hyps. eapply Forall_impl; [by apply all_spec|].
  intros l Hl. cbn beta in Hl. by apply negb_true_iff.
Qed.

Lemma divider_is_divider : is_divider DIVIDER = true.
Proof. done. Qed.

Lemma split_body_rendered search replace :
  side_ok search = true -> side_ok replace = true ->
  bool_decide (search = ELISION) && bool_decide (strip replace = ELISION) = false ->
  split_body ([c_lf] ++ search ++ [c_lf] ++ DIVIDER ++ [c_lf] ++ replace ++ [c_lf]) = Ok (search, replace).
Proof.
  intros Hs%side_lines Hr%side_lines Hel.
  assert (split_char c_lf ([c_lf] ++ search ++ [c_lf] ++ DIVIDER ++ [c_lf] ++ replace ++ [c_lf]) =
    [] :: split_char c_lf search ++ DIVIDER :: split_char c_lf replace ++ [[]]) as Hlines.
  { rewrite <-(join_split_char c_lf search) at 1. rewrite <-(join_split_char c_lf replace) at 1.
    set (S := split_char c_lf search). set (R := split_char c_lf replace).
    assert (S <> [] /\ R <> []) as [HS HR] by (split; apply split_char_nonempty).
    rewrite <-(split_join_char c_lf ([] :: S ++ DIVIDER :: R ++ [[]])).
    - f_equal. rewrite join_with_cons by by destruct S. rewrite join_with_app by done.
      rewrite join_with_cons by by destruct R. by rewrite join_with_app by done.
    - done.
    - rewrite Forall_cons, Forall_app, Forall_cons, Forall_app, Forall_cons, Forall_nil.
      repeat split; try apply split_char_free; by apply (bool_decide_unpack _). }
  unfold split_body. rewrite Hlines. cbn [nth drop]. rewrite drop_0.
  assert (without_last_blank (split_char c_lf search ++ DIVIDER :: split_char c_lf replace ++ [[]]) =
    split_char c_lf search ++ DIVIDER :: split_char c_lf replace) as ->.
  { unfold without_last_blank.
    replace (split_char c_lf search ++ DIVIDER :: split_char c_lf replace ++ [[]]) with
      ((split_char c_lf search ++ DIVIDER :: split_char c_lf replace) ++ [[]]) by by rewrite <-app_assoc.
    by rewrite last_snoc, removelast_last. }
  rewrite dividers_of_one by done. unfold crlf_reason.
  assert (List.filter is_divider ([] :: split_char c_lf search ++ DIVIDER :: split_char c_lf replace ++ [[]])
    = [DIVIDER]) as ->.
  { change ([] :: ?l) with ([[]] ++ l). rewrite !List.filter_app. cbn [List.filter].
    rewrite divider_is_divider, List.filter_app. cbn [List.filter].
    rewrite (filter_nil_iff_false is_divider (split_char c_lf replace)), (filter_nil_iff_false is_divider (split_char c_lf search)).
    - done.
    - intros l Hin%list_elem_of_In. rewrite Forall_forall in Hs. by apply Hs.
    - intros l Hin%list_elem_of_In. rewrite Forall_forall in Hr. by apply Hr. }
  replace (any _ _) with false by done. cbn [is_nonempty].
  change (strip []) with (@nil Z). cbn [is_nonempty].
  rewrite take_app_length.
  replace (drop (length (split_char c_lf search) + 1) (split_char c_lf search ++ DIVIDER :: split_char c_lf replace))
    with (split_char c_lf replace) by by rewrite <-drop_drop, drop_app_length.
  by rewrite !join_split_char, Hel.
Qed.

(** The part of a rendered block before its closing marker, after what is left of the line
    of the marker before it. *)
Definition rendered_body (e : Edit) : str :=
  [c_lf] ++ edit_search e ++ [c_lf] ++ DIVIDER ++ [c_lf] ++ edit_replace e ++ [c_lf].
Definition rendered_segment (before : str) (e : Edit) : str :=
  (before ++ edit_path e) ++ c_lf :: SEARCH_MARKER ++ rendered_body e.
Fixpoint rendered_segments (before : str) (edits : list Edit) : list str :=
  match edits with
  | [] => []
  | e :: edits' => rendered_segment before e :: rendered_segments [c_lf] edits'
  end.

Lemma contains_before p before s :
  p <> [] -> c_lf ∉ p -> before = [] \/ before = [c_lf] -> contains p (before ++ s) = contains p s.
Proof.
  intros Hp Hc [-> | ->]; [done|]. rewrite (contains_sep p [] c_lf s Hc : contains p ([c_lf] ++ s) = _).
  destruct p as [|x p]; [done|]. done.
Qed.

Lemma rendered_segment_split before e :
  before = [] \/ before = [c_lf] -> renderable e = true ->
  split_str SEARCH_MARKER (rendered_segment before e) = [before ++ edit_path e ++ [c_lf]; rendered_body e].
Proof.
  intros Hb He. unfold renderable, side_ok in He. bool_hyps. unfold rendered_segment.
  rewrite split_str_sep; [|done|apply lf_not_in_search|by rewrite contains_before by (done || apply lf_not_in_search)].
  rewrite <-app_assoc. f_equal. apply split_str_free. unfold rendered_body.
  rewrite contains_before by (auto; apply lf_not_in_search). cbn [app].
  rewrite !contains_sep by apply lf_not_in_search.
  repeat match goal with H : contains _ _ = false |- _ => rewrite H; clear H end. done.
Qed.

Lemma rendered_blocks_split before edits :
  before = [] \/ before = [c_lf] -> Forall (fun e => renderable e = true) edits ->
  split_str REPLACE_MARKER (before ++ render_edits edits) =
  rendered_segments before edits ++ [match edits with [] => before | _ => [c_lf] end].
Proof.
  intros Hb He. revert before Hb. induction He as [|e edits He _ IH]; intros before Hb.
  - unfold render_edits. simpl. rewrite app_nil_r. apply split_str_free. by destruct Hb as [-> | ->].
  - pose proof He as He'. unfold renderable, side_ok in He. bool_hyps.
    assert (before ++ render_edits (e :: edits) =
      ((before ++ edit_path e) ++ c_lf :: SEARCH_MARKER ++ c_lf :: edit_search e ++ c_lf :: DIVIDER ++
        c_lf :: edit_replace e) ++ c_lf :: REPLACE_MARKER ++ ([c_lf] ++ render_edits edits)) as ->.
    { unfold render_edits. rewrite fmap_cons. cbn [concat]. unfold render_block.
      repeat (rewrite <-app_assoc; cbn [app]). done. }
    rewrite split_str_sep; [|done|apply lf_not_in_replace|].
    + rewrite IH by auto. simpl rendered_segments. rewrite <-app_comm_cons. f_equal; [|by destruct edits].
      unfold rendered_segment, rendered_body. by repeat (rewrite <-app_assoc; cbn [app]).
    + rewrite !contains_sep, contains_before by (done || apply lf_not_in_replace).
      repeat match goal with H : contains _ _ = false |- _ => rewrite H; clear H end. done.
Qed.

Lemma read_rendered before edits st :
  before = [] \/ before = [c_lf] -> Forall (fun e => renderable e = true) edits ->
  edit_index <$> edits = (fun i => index st + Z.of_nat i)%Z <$> seq 0 (length edits) ->
  foldl read_next st (rendered_segments before edits) =
  {| parsed := {| parse_edits := parse_edits (parsed st) ++ edits; parse_errors := parse_errors (parsed st) |};
     current := match last edits with Some e => Some (edit_path e) | None => current st end;
     index := index st + Z.of_nat (length edits) |}.
Proof.
  intros Hb He. revert before st Hb. induction He as [|e edits He _ IH]; intros before st Hb Hi.
  - simpl. rewrite app_nil_r, Z.add_0_r. by destruct st as [[? ?] ? ?].
  - simpl in Hi. injection Hi as Hi0 Hi. cbn [rendered_segments foldl].
    assert (read_next st (rendered_segment before e) =
      {| parsed := push_block (parsed st) (Ok e); current := Some (edit_path e); index := index st + 1 |}) as ->.
    { unfold read_next, read_block.
      assert (header_of (rendered_segment before e) = before ++ edit_path e ++ [c_lf]) as ->
        by (unfold header_of; by rewrite rendered_segment_split).
      rewrite rendered_segment_split by done. simpl drop.
      pose proof He as He'. unfold renderable in He. bool_hyps. rewrite filename_in_path by done.
      simpl edit_of. unfold rendered_body. rewrite split_body_rendered by done.
      rewrite Z.add_0_r in Hi0. rewrite <-Hi0. by destruct e. }
    rewrite IH; [|by auto|].
    + simpl. f_equal; [by rewrite <-app_assoc| |lia].
      destruct edits as [|e' edits]; [done|]. rewrite last_cons_cons.
      destruct (last (e' :: edits)) eqn:E; [done|by apply last_None in E].
    + etrans; [exact Hi|]. cbn [index]. rewrite <-(fmap_S_seq 0), <-list_fmap_compose. apply list_fmap_ext.
      intros _ x _. simpl. lia.
Qed.

(** C25: Edits written as SEARCH/REPLACE blocks parse back to themselves, with no error: any
    list of edits numbered from 0, whose paths are lines of the shape of a path and whose
    sides hold no marker and no divider line. *)
Theorem parse_blocks_rendered edits
  (Hne : edits <> [])
  (Hok : Forall (fun e => renderable e = true) edits)
  (Hidx : edit_index <$> edits = Z.of_nat <$> seq 0 (length edits)) :
  parse_blocks (render_edits edits) = {| parse_edits := edits; parse_errors := [] |}.
Proof.
  unfold parse_blocks.
  pose proof (rendered_blocks_split [] edits ltac:(by left) Hok) as Hs. rewrite app_nil_l in Hs. rewrite Hs.
  rewrite removelast_last, last_snoc. unfold read_segments. rewrite read_rendered; [|by left|done|done].
  destruct edits as [|e edits]; [done|]. done.
Qed.

Definition sample_edits : list Edit :=
  [ {| edit_index := 0; edit_path := lit "src/a.rs"; edit_search := lit "old"; edit_replace := [] |};
    {| edit_index := 1; edit_path := lit "b c.py"; edit_search := lit "x" ++ [c_lf; c_lf]; edit_replace := lit "..." |} ].

Lemma parse_blocks_rendered_witness :
  sample_edits <> [] /\ parse_blocks (render_edits sample_edits) = {| parse_edits := sample_edits; parse_errors := [] |}.
Proof.
  split; [discriminate|]. apply (parse_blocks_rendered sample_edits).
  - discriminate.
  - repeat constructor.
  - reflexivity.
Defined.

(** * Every block is accounted for *)

Definition block_index (block : result Edit BlockError) : Z :=
  match block with Ok e => edit_index e | Err e => error_index e end.

Lemma edit_of_index i path bodies : block_index (edit_of i path bodies) = i.
Proof.
  unfold edit_of. destruct bodies as [|body [|]]; [done| |done].
  destruct path; [|done]. by destruct (split_body body) as [[? ?]|].
Qed.

Lemma read_block_index i segment inherited : block_index (read_block i segment inherited).2 = i.
Proof. unfold read_block. destruct (filename_in _); simpl; [apply edit_of_index..|done]. Qed.

(** [n] blocks read: the indices of the edits and of the errors are those below [n], each
    once, and each list is in order. *)
Definition accounted (r : ParseResult) (n : nat) : Prop :=
  (edit_index <$> parse_edits r) ++ (error_index <$> parse_errors r) ≡ₚ Z.of_nat <$> seq 0 n /\
  StronglySorted Z.lt (edit_index <$> parse_edits r) /\ StronglySorted Z.lt (error_index <$> parse_errors r).

Lemma StronglySorted_snoc (l : list Z) x :
  StronglySorted Z.lt l -> Forall (fun y => (y < x)%Z) l -> StronglySorted Z.lt (l ++ [x]).
Proof.
  induction 1 as [|y l Hl IH Hy]; intros Hx; simpl; [repeat constructor|].
  apply Forall_cons in Hx as [? Hx]. constructor; [by apply IH|]. apply Forall_app. split; [done|by constructor].
Qed.

Lemma accounted_push r n block :
  accounted r n -> block_index block = Z.of_nat n -> accounted (push_block r block) (S n).
Proof.
  intros (Hp & Hs1 & Hs2) Hb.
  assert (Forall (fun y => (y < Z.of_nat n)%Z) ((edit_index <$> parse_edits r) ++ (error_index <$> parse_errors r)))
    as [H1 H2]%Forall_app.
  { rewrite Hp. apply Forall_fmap, Forall_forall. intros i Hi%elem_of_seq. simpl. lia. }
  assert (Z.of_nat <$> seq 0 (S n) = (Z.of_nat <$> seq 0 n) ++ [Z.of_nat n]) as Hseq
    by (rewrite seq_S, fmap_app; done).
  unfold accounted. rewrite Hseq, <-Hp.
  destruct block as [e|e]; simpl in Hb |- *; rewrite fmap_app; simpl; rewrite Hb; (split; [|split]);
    try done; try by apply StronglySorted_snoc.
  - rewrite <-!app_assoc. apply Permutation_app_head. apply Permutation_app_comm.
  - by rewrite app_assoc.
Qed.

Lemma read_segments_accounted segments :
  accounted (parsed (read_segments segments)) (length segments) /\
  index (read_segments segments) = Z.of_nat (length segments).
Proof.
  unfold read_segments. induction segments as [|segment segments [IH Hi]] using rev_ind.
  - split; [|done]. split; [done|]. split; constructor.
  - rewrite foldl_app, length_app, Nat.add_1_r. cbn [foldl]. set (st := foldl _ _ segments) in *.
    unfold read_next. destruct (read_block (index st) segment (current st)) as [path block] eqn:E.
    cbn [parsed index]. split; [|lia]. apply accounted_push; [done|].
    rewrite <-Hi, <-(read_block_index (index st) segment (current st)). by rewrite E.
Qed.

(** How many blocks a text has: a closing marker ends one, and a marker after the last
    closing marker opens one that is not terminated. *)
Definition block_count (text : str) : nat :=
  let segments := split_str REPLACE_MARKER text in
  pred (length segments) +
  if utf8_len (header_of (default [] (last segments))) =? utf8_len (default [] (last segments)) then 0 else 1.

(** Every block of a patch text is accounted for: each of the [block_count] blocks is an
    edit or an error under its own index, in order, and a text with no block has one
    error, so no text parses to nothing. *)
Theorem parse_blocks_accounted text : accounted (parse_blocks text) (Nat.max 1 (block_count text)).
Proof.
  unfold parse_blocks, block_count. set (segments := split_str REPLACE_MARKER text).
  assert (length (removelast segments) = pred (length segments)) as Hlen
    by by rewrite removelast_firstn_len, length_take_le by lia.
  destruct (read_segments_accounted (removelast segments)) as [Ha Hi]. rewrite Hlen in Ha, Hi.
  set (st := read_segments (removelast segments)) in *. set (tail := default [] (last segments)).
  set (k := if utf8_len (header_of tail) =? utf8_len tail then 0 else 1).
  assert (accounted match unterminated (index st) tail (current st) with
    | Some error => push_block (parsed st) (Err error) | None => parsed st end (pred (length segments) + k)) as Hr.
  { unfold unterminated, k. destruct (_ =? _); [by rewrite Nat.add_0_r|].
    rewrite Nat.add_1_r. by apply accounted_push. }
  revert Hr. generalize (pred (length segments) + k) as n. intros n Hr.
  set (r := match unterminated _ _ _ with Some _ => _ | None => _ end) in *.
  destruct (parse_edits r) as [|e es] eqn:Ee; [destruct (parse_errors r) as [|e es] eqn:Ex|].
  - assert (n = 0) as -> by (destruct Hr as [Hr _]; rewrite Ee, Ex in Hr; apply Permutation_length in Hr;
      rewrite length_fmap, length_seq in Hr; done).
    by apply accounted_push.
  - assert (1 <= n); [|by rewrite Nat.max_r by lia].
    destruct Hr as [Hr _]. rewrite Ee, Ex in Hr. apply Permutation_length in Hr.
    rewrite length_fmap, length_seq in Hr. simpl in Hr. lia.
  - assert (1 <= n); [|by rewrite Nat.max_r by lia].
    destruct Hr as [Hr _]. rewrite Ee in Hr. apply Permutation_length in Hr.
    rewrite length_fmap, length_seq in Hr. simpl in Hr. lia.
Qed.

(** * What an edit holds *)

(** The path in force after some segments: the last one that a header names. *)
Definition path_after (segments : list str) : option str :=
  foldl (fun path segment => match filename_in (header_of segment) with Named p => Some p | _ => path end)
    None segments.

(** The segment [segment] is a block with these sides: one opening marker with nothing after
    it on its line, then the lines of the sides around one divider, and at most one blank
    line before the closing marker. *)
Definition block_sides (segment : str) (search replace : str) : Prop :=
  exists header body marker_rest divider before after blank,
    split_str SEARCH_MARKER segment = [header; body] /\
    split_char c_lf body = marker_rest :: before ++ divider :: after ++ blank /\
    strip marker_rest = [] /\ is_divider divider = true /\ (blank = [] \/ blank = [[]]) /\
    Forall (fun line => is_divider line = false) (before ++ after) /\
    search = join_with [c_lf] before /\ replace = join_with [c_lf] after.

Lemma without_last_blank_spec lines :
  exists blank, lines = without_last_blank lines ++ blank /\ (blank = [] \/ blank = [[]]).
Proof.
  unfold without_last_blank. destruct (last lines) as [[|c l]|] eqn:E.
  - exists [[]]. split; [|auto]. apply last_Some in E as [l' ->]. by rewrite removelast_last.
  - exists []. rewrite app_nil_r. auto.
  - exists []. rewrite app_nil_r. auto.
Qed.

Lemma dividers_of_single lines i : dividers_of lines = [i] ->
  exists before divider after, lines = before ++ divider :: after /\ length before = i /\
    is_divider divider = true /\ Forall (fun line => is_divider line = false) (before ++ after).
Proof.
  intros H. assert (forall j, j < length lines -> is_divider (nth j lines []) = true <-> j = i) as Hj.
  { intros j Hlt. assert (In j (dividers_of lines) <-> j = i) as <-.
    { rewrite H. simpl. intuition. }
    unfold dividers_of. rewrite filter_In, in_seq. intuition lia. }
  assert (i < length lines) as Hi.
  { assert (In i (dividers_of lines)) as Hin by (rewrite H; by left).
    unfold dividers_of in Hin. apply filter_In in Hin as [Hin%in_seq _]. lia. }
  destruct (nth_split lines [] Hi) as (before & after & Hl & Hlen).
  exists before, (nth i lines []), after. split; [done|]. split; [done|]. split; [by apply Hj|].
  apply Forall_forall. intros line Hline%list_elem_of_In.
  destruct (is_divider line) eqn:E; [|done]. exfalso.
  apply in_app_or in Hline as [Hline|Hline]; apply (In_nth _ _ []) in Hline as (k & Hk & Hnth);
    rewrite Hl in Hj; rewrite length_app in Hj; simpl in Hj.
  - destruct (Hj k ltac:(lia)) as [Hji _]. rewrite app_nth1, Hnth in Hji by lia. specialize (Hji E). lia.
  - destruct (Hj (length before + S k) ltac:(lia)) as [Hji _].
    rewrite app_nth2_plus in Hji. cbn [nth] in Hji. rewrite Hnth in Hji. specialize (Hji E). lia.
Qed.

Lemma split_body_sides header body segment search replace :
  split_str SEARCH_MARKER segment = [header; body] -> split_body body = Ok (search, replace) ->
  block_sides segment search replace.
Proof.
  intros Hseg H. unfold split_body in H. destruct (crlf_reason _); [done|].
  destruct (is_nonempty _) eqn:Hm; [done|].
  destruct (split_char c_lf body) as [|marker lines] eqn:El; [by apply split_char_nonempty in El|].
  cbn [nth] in Hm. cbn [drop] in H. rewrite drop_0 in H.
  destruct (without_last_blank_spec lines) as (blank & Hlines & Hblank).
  destruct (dividers_of (without_last_blank lines)) as [|i [|]] eqn:Ed; [done| |done].
  apply dividers_of_single in Ed as (before & divider & after & Hb & <- & Hd & Hfree).
  rewrite Hb in H. destruct (_ && _); [done|]. injection H as <- <-.
  rewrite Hb in Hlines. exists header, body, marker, divider, before, after, blank.
  repeat split; try done.
  - rewrite El. f_equal. rewrite Hlines. by rewrite <-app_assoc.
  - by destruct (strip marker).
  - by rewrite take_app_length.
  - by rewrite <-drop_drop, drop_app_length.
Qed.

Lemma read_block_sound i segment inherited path e :
  read_block i segment inherited = (path, Ok e) ->
  path = Some (edit_path e) /\ block_sides segment (edit_search e) (edit_replace e).
Proof.
  unfold read_block. intros H.
  assert (exists bodies, drop 1 (split_str SEARCH_MARKER segment) = bodies /\ edit_of i path bodies = Ok e)
    as (bodies & Hb & He) by (destruct (filename_in _); injection H as <- H; eauto; done).
  unfold edit_of in He. destruct bodies as [|body [|]]; [done| |done].
  destruct path as [p|]; [|done]. destruct (split_body body) as [[search replace]|] eqn:Es; [|done].
  injection He as <-. split; [done|].
  destruct (split_str SEARCH_MARKER segment) as [|header rest] eqn:E; [done|].
  cbn [drop] in Hb. rewrite drop_0 in Hb. subst rest. by eapply split_body_sides.
Qed.

Lemma read_segments_sound segments :
  current (read_segments segments) = path_after segments /\
  Forall (fun e => exists i segment, edit_index e = Z.of_nat i /\ segments !! i = Some segment /\
      path_after (take (S i) segments) = Some (edit_path e) /\
      block_sides segment (edit_search e) (edit_replace e)) (parse_edits (parsed (read_segments segments))).
Proof.
  induction segments as [|segment segments [Hc Hf]] using rev_ind; [by split|].
  destruct (read_segments_accounted segments) as [_ Hi].
  assert (read_segments (segments ++ [segment]) = read_next (read_segments segments) segment) as ->
    by by unfold read_segments; rewrite foldl_app.
  unfold read_next. destruct (read_block _ _ _) as [path block] eqn:E. cbn [current parsed].
  assert (path = path_after (segments ++ [segment])) as Hpath.
  { unfold path_after. rewrite foldl_app. cbn [foldl]. fold (path_after segments). rewrite <-Hc.
    unfold read_block in E. destruct (filename_in _); by injection E as <- _. }
  split; [done|]. unfold push_block.
  assert (Forall (fun e => exists i s, edit_index e = Z.of_nat i /\ (segments ++ [segment]) !! i = Some s /\
      path_after (take (S i) (segments ++ [segment])) = Some (edit_path e) /\
      block_sides s (edit_search e) (edit_replace e)) (parse_edits (parsed (read_segments segments)))) as Hold.
  { eapply Forall_impl; [exact Hf|]. intros e (i & s & ? & Hs & ? & ?). exists i, s.
    pose proof (lookup_lt_Some _ _ _ Hs). split; [done|]. split; [by rewrite lookup_app_l|].
    rewrite take_app_le by lia. done. }
  destruct block as [e|e]; cbn [parse_edits]; [|done]. apply Forall_app. split; [done|]. constructor; [|done].
  pose proof E as E'. apply read_block_sound in E as [Hp Hsides].
  exists (length segments), segment. split.
  - rewrite <-Hi. pose proof (read_block_index (index (read_segments segments)) segment
      (current (read_segments segments))) as Hx. by rewrite E' in Hx.
  - split; [by rewrite lookup_app_r, Nat.sub_diag by lia|]. split; [|done].
    rewrite take_ge by (rewrite length_app; simpl; lia). by rewrite <-Hpath.
Qed.

(** An edit holds what its block says: its index is the position of its block, its path
    is the last one that a header names up to its block, and its sides are the lines
    around the one divider of the block. *)
Theorem parse_blocks_sound text e (He : e ∈ parse_edits (parse_blocks text)) :
  exists i segment, edit_index e = Z.of_nat i /\
    removelast (split_str REPLACE_MARKER text) !! i = Some segment /\
    path_after (take (S i) (removelast (split_str REPLACE_MARKER text))) = Some (edit_path e) /\
    block_sides segment (edit_search e) (edit_replace e).
Proof.
  destruct (read_segments_sound (removelast (split_str REPLACE_MARKER text))) as [_ Hf].
  rewrite Forall_forall in Hf. apply Hf. revert He. unfold parse_blocks.
  destruct (unterminated _ _ _); simpl; repeat case_goal; simpl; congruence || done.
Qed.

Lemma parse_blocks_sound_witness :
  exists e, e ∈ parse_edits (parse_blocks (render_edits sample_edits)) /\
  exists i segment, edit_index e = Z.of_nat i /\
    removelast (split_str REPLACE_MARKER (render_edits sample_edits)) !! i = Some segment /\
    path_after (take (S i) (removelast (split_str REPLACE_MARKER (render_edits sample_edits)))) = Some (edit_path e) /\
    block_sides segment (edit_search e) (edit_replace e).
Proof.
  exists {| edit_index := 0; edit_path := lit "src/a.rs"; edit_search := lit "old"; edit_replace := [] |}.
  assert ({| edit_index := 0; edit_path := lit "src/a.rs"; edit_search := lit "old"; edit_replace := [] |}
    ∈ parse_edits (parse_blocks (render_edits sample_edits))) as He by (vm_compute; left).
  split; [exact He|]. exact (parse_blocks_sound _ _ He).
Defined.
