(* ===== verification/Apply.v ===== *)
(** Applying edits to file texts: crates/patch/src/apply.rs.

    [placed] is one edit against one text, [apply_edits] the loop over the edits with its
    table of file states.  [placed_lines] gives the effect of an edit on the lines of the
    file, and [apply_edits_spec] shows that the loop implements the abstract machine
    [run_edits], which keeps one map from paths to texts. *)

From S2P Require Import Prelude RustStr Text CodePoints Elision Blocks.

Inductive EditStatus := Applied | NotFound | AmbiguousMatch | NoSuchFile | Unreadable | NoAnchor.

#[export] Instance EditStatus_eq_dec : EqDecision EditStatus.
Proof. solve_decision. Defined.

Definition status_as_str (status : EditStatus) : str :=
  match status with
  | Applied => lit "applied"
  | NotFound => lit "not_found"
  | AmbiguousMatch => lit "ambiguous"
  | NoSuchFile => lit "no_such_file"
  | Unreadable => lit "unreadable"
  | NoAnchor => lit "no_anchor"
  end.

Record EditOutcome := { edit : Edit; status : EditStatus; reason : str; matches : nat }.

Definition applied (o : EditOutcome) : bool := bool_decide (status o = Applied).

Record ApplyResult := { outcomes : list EditOutcome; new_contents : list (str * str) }.

Definition apply_ok (r : ApplyResult) : bool := forallb applied (outcomes r).

Definition failures (r : ApplyResult) : list EditOutcome :=
  List.filter (fun o => negb (applied o)) (outcomes r).

Inductive Placed :=
| Changed (reason : str) (text : str)
| Refused (status : EditStatus) (reason : str) (matches : nat).

Definition placement (e : Edit) (search padded : str) (at_ : nat) : str :=
  if negb (bool_decide (edit_search e = ELISION)) then []
  else lit "inserted above line " ++ nat_text (line_of padded at_) ++ lit ": " ++ quoted_str search.

(** One edit against the current text. The match covers the newline before the search and
    the newline after it. *)
Definition placed (e : Edit) (content : str) : Placed :=
  if negb (is_nonempty (edit_search e))
  then Refused NoAnchor
    (edit_path e ++ lit ": the SEARCH side is empty, which anchors nowhere in a file that already exists") 0
  else
    match resolve_elisions (edit_search e) (edit_replace e) content with
    | Err reason => Refused NoAnchor reason 0
    | Ok {| elided_search := search; elided_replace := replace |} =>
        let padded := pad content in
        match whole_line_starts padded search with
        | [at_] =>
            let end_ := at_ + length search + 2 in
            let updated := take at_ padded ++ pad replace ++ drop end_ padded in
            Changed (placement e search padded at_) (take (length updated - 1 - 1) (drop 1 updated))
        | [] => Refused NotFound (lit "search text not found") 0
        | starts => Refused AmbiguousMatch
            (lit "search text ambiguous (" ++ nat_text (length starts) ++ lit " matches)") (length starts)
        end
    end.

(** One file's text before the edits, and as the edits so far left it. *)
Record FileState := { file_path : str; original : option str; content : str }.

Definition new_file_state (path : str) (original : option str) : FileState :=
  {| file_path := path; original := original; content := default [] original |}.

Definition file_apply (file : FileState) (e : Edit) : EditOutcome * option str :=
  match original file with
  | None => ({| edit := e; status := NoSuchFile;
                reason := lit "no such file in this patch's scope: " ++ edit_path e; matches := 0 |}, None)
  | Some _ =>
      match placed e (content file) with
      | Changed why text => ({| edit := e; status := Applied; reason := why; matches := 1 |}, Some text)
      | Refused st why n => ({| edit := e; status := st; reason := why; matches := n |}, None)
      end
  end.

Definition changed (file : FileState) : option (str * str) :=
  match original file with
  | None => None
  | Some before => if bool_decide (before = content file) then None else Some (file_path file, content file)
  end.

(** The variables of the loop of [apply_edits]. *)
Record Applying := { files : list FileState; slots : gmap str nat; done_outcomes : list EditOutcome }.

(** [slots.entry(path).or_insert_with(..)]: the slot of a path, made at its first edit. *)
Definition slot_of (contents : gmap str str) (path : str) (st : Applying) : nat * Applying :=
  match slots st !! path with
  | Some slot => (slot, st)
  | None =>
      let files' := files st ++ [new_file_state path (contents !! path)] in
      let slot := length files' - 1 in
      (slot, {| files := files'; slots := <[path := slot]> (slots st); done_outcomes := done_outcomes st |})
  end.

Definition set_content (text : str) (file : FileState) : FileState :=
  {| file_path := file_path file; original := original file; content := text |}.

Definition apply_one (contents : gmap str str) (st : Applying) (e : Edit) : Applying :=
  let '(slot, st) := slot_of contents (edit_path e) st in
  match files st !! slot with
  | None => st (* the slot was just made or recorded, so indexing does not fail *)
  | Some file =>
      let '(outcome, text) := file_apply file e in
      {| files := match text with
                  | Some text => <[slot := set_content text file]> (files st)
                  | None => files st
                  end;
         slots := slots st;
         done_outcomes := done_outcomes st ++ [outcome] |}
  end.

Definition apply_edits (edits : list Edit) (contents : gmap str str) : ApplyResult :=
  let st := foldl (apply_one contents) {| files := []; slots := ∅; done_outcomes := [] |} edits in
  {| outcomes := done_outcomes st; new_contents := omap changed (files st) |}.

Example apply_two :
  let e s r := {| edit_index := 0; edit_path := lit "f"; edit_search := lit s; edit_replace := lit r |} in
  new_contents (apply_edits [e "a" "b"; e "b" "c"]%string {[ lit "f" := lit "a" ]}) = [(lit "f", lit "c")].
Proof. vm_compute. reflexivity. Qed.

(** * One edit as an edit of lines *)

Lemma unpad text : take (length (pad text) - 1 - 1) (drop 1 (pad text)) = text.
Proof.
  unfold pad. cbn [app drop]. rewrite length_cons, length_app, drop_0. simpl.
  replace (length text + 1 - 0 - 1) with (length text) by lia. by rewrite take_app_length.
Qed.

Lemma splice_lines (before found after replacement : list str) :
  take (line_offset (before ++ found ++ after) (length before)) (padded_lines (before ++ found ++ after)) ++
  padded_lines replacement ++
  drop (line_offset (before ++ found ++ after) (length before) + length (padded_lines found))
    (padded_lines (before ++ found ++ after)) = padded_lines (before ++ replacement ++ after).
Proof.
  unfold line_offset. rewrite take_app_length. set (n := length _).
  assert (padded_lines (before ++ found ++ after) =
    concat (cons c_lf <$> before) ++ concat (cons c_lf <$> found) ++ padded_lines after) as ->.
  { unfold padded_lines. by rewrite !fmap_app, !concat_app, <-!app_assoc. }
  destruct (padded_lines_head after) as [q Hq].
  unfold n. rewrite take_app_length, <-drop_drop, drop_app_length.
  assert (drop (length (padded_lines found)) (concat (cons c_lf <$> found) ++ padded_lines after) = q) as ->.
  { unfold padded_lines at 1. by rewrite length_app, <-drop_drop, drop_app_length, Hq. }
  unfold padded_lines at 2. rewrite !fmap_app, !concat_app, <-!app_assoc.
  unfold padded_lines at 1. rewrite <-app_assoc. do 2 f_equal. unfold padded_lines in Hq. by rewrite Hq.
Qed.

(** What an edit does, on the lines of the text: where the lines of the search side are
    consecutive lines of the text once, the lines of the replacement take their place. *)
Definition splice (lines : list str) (at_ : nat) (found replacement : list str) : list str :=
  take at_ lines ++ replacement ++ drop (at_ + length found) lines.

Definition lines_of (text : str) : list str := split_char c_lf text.
Definition text_of (lines : list str) : str := join_with [c_lf] lines.

(** C7: An edit of a text is an edit of its lines: with the sides that the elision rules give,
    the edit applies exactly when the search lines occur once as consecutive lines, the new
    text is the old one with the replacement lines in their place, and otherwise the edit is
    refused with the number of places. *)
Theorem placed_lines e content sides
  (Hne : edit_search e <> [])
  (Hsides : resolve_elisions (edit_search e) (edit_replace e) content = Ok sides) :
  let found := lines_of (elided_search sides) in
  match line_matches (lines_of content) found with
  | [i] => exists why, placed e content =
      Changed why (text_of (splice (lines_of content) i found (lines_of (elided_replace sides))))
  | [] => exists why, placed e content = Refused NotFound why 0
  | places => exists why, placed e content = Refused AmbiguousMatch why (length places)
  end.
Proof.
  intros found. unfold placed. destruct (edit_search e) as [|c s]; [done|]. rewrite Hsides.
  cbn [is_nonempty negb]. destruct sides as [search replace]. cbn [elided_search elided_replace] in *.
  rewrite whole_line_starts_lines. fold (lines_of content) (lines_of search). fold found.
  destruct (line_matches (lines_of content) found) as [|i [|j places]] eqn:E; cbn [map].
  - eauto.
  - eexists. f_equal.
    assert (In i (line_matches (lines_of content) found)) as Hi by (rewrite E; by left).
    pose proof (line_matches_length _ _ _ Hi) as Hlen.
    apply line_matches_spec in Hi as [Hi [after Hafter]].
    assert (lines_of content = take i (lines_of content) ++ found ++ after) as Hl
      by by rewrite <-Hafter, take_drop.
    assert (drop (i + length found) (lines_of content) = after) as Hd
      by by rewrite <-drop_drop, Hafter, drop_app_length.
    unfold splice. rewrite Hd. set (before := take i (lines_of content)) in *.
    assert (length before = i) as Hb by (unfold before; rewrite length_take_le; lia).
    replace (line_offset (lines_of content) i + length search + 2) with
      (line_offset (lines_of content) i + length (pad search))
      by (unfold pad; rewrite !length_app; simpl; lia).
    rewrite !pad_split. fold (lines_of content) (lines_of search) (lines_of replace). fold found.
    rewrite <-Hb, Hl, splice_lines. unfold text_of. rewrite <-pad_lines, unpad; [done|].
    pose proof (split_char_nonempty c_lf replace). unfold lines_of. destruct before; [|done].
    by destruct (split_char c_lf replace).
  - eexists. f_equal. simpl. by rewrite length_map.
Qed.

Lemma placed_lines_witness :
  exists e content sides, edit_search e <> [] /\
    resolve_elisions (edit_search e) (edit_replace e) content = Ok sides /\
    exists why, placed e content = Changed why
      (text_of (splice (lines_of content) 1 (lines_of (elided_search sides)) (lines_of (elided_replace sides)))).
Proof.
  exists {| edit_index := 0; edit_path := lit "f"; edit_search := lit "b"; edit_replace := lit "x" |},
    (text_of [lit "a"; lit "b"; lit "c"]), {| elided_search := lit "b"; elided_replace := lit "x" |}.
  split; [discriminate|]. split; [reflexivity|].
  exact (placed_lines {| edit_index := 0; edit_path := lit "f"; edit_search := lit "b"; edit_replace := lit "x" |}
    (text_of [lit "a"; lit "b"; lit "c"]) {| elided_search := lit "b"; elided_replace := lit "x" |}
    ltac:(discriminate) eq_refl).
Defined.

(** * The loop as a machine on one map of texts *)

(** The outcome of one edit and the texts after it, for the texts [before] the edits and the
    texts [now]. *)
Definition run_edit (before now : gmap str str) (e : Edit) : EditOutcome * gmap str str :=
  match before !! edit_path e with
  | None => ({| edit := e; status := NoSuchFile;
                reason := lit "no such file in this patch's scope: " ++ edit_path e; matches := 0 |}, now)
  | Some _ =>
      match placed e (default [] (now !! edit_path e)) with
      | Changed why text =>
          ({| edit := e; status := Applied; reason := why; matches := 1 |}, <[edit_path e := text]> now)
      | Refused st why n => ({| edit := e; status := st; reason := why; matches := n |}, now)
      end
  end.

Fixpoint run_edits (before now : gmap str str) (edits : list Edit) : list EditOutcome * gmap str str :=
  match edits with
  | [] => ([], now)
  | e :: edits' =>
      let '(o, now) := run_edit before now e in
      let '(os, now) := run_edits before now edits' in
      (o :: os, now)
  end.

Definition changed_text (before now : gmap str str) (path : str) : option (str * str) :=
  match before !! path, now !! path with
  | Some old, Some new => if bool_decide (old = new) then None else Some (path, new)
  | _, _ => None
  end.

Lemma run_edits_snoc before now edits e :
  run_edits before now (edits ++ [e]) =
  let '(os, now) := run_edits before now edits in
  let '(o, now) := run_edit before now e in (os ++ [o], now).
Proof.
  revert now. induction edits as [|e' edits IH]; intros now; simpl.
  - by destruct (run_edit before now e).
  - destruct (run_edit before now e') as [o now']. rewrite IH. destruct (run_edits before now' edits) as [os now''].
    by destruct (run_edit before now'' e).
Qed.

(** A text changes only by an edit of its path. *)
Lemma run_edits_untouched before now edits p :
  p ∉ edit_path <$> edits -> (run_edits before now edits).2 !! p = now !! p.
Proof.
  revert now. induction edits as [|e edits IH]; intros now H; [done|].
  rewrite fmap_cons, not_elem_of_cons in H. destruct H as [He H]. simpl.
  destruct (run_edit before now e) as [o now'] eqn:E. specialize (IH now' H).
  destruct (run_edits before now' edits) as [os now'']. simpl in *. rewrite IH.
  unfold run_edit in E. destruct (before !! edit_path e); [|by injection E as <- <-].
  destruct (placed _ _); injection E as <- <-; [by rewrite lookup_insert_ne|done].
Qed.

Section Loop.
Variable contents : gmap str str.

(** The table entry of a path when the texts are [now]. *)
Definition file_at (now : gmap str str) (p : str) : FileState :=
  {| file_path := p; original := contents !! p; content := default [] (now !! p) |}.

(** The loop's variables after the edits [es], by the machine. *)
Definition represents (es : list Edit) (st : Applying) : Prop :=
  let '(os, now) := run_edits contents contents es in
  let paths := first_occurrences (edit_path <$> es) in
  done_outcomes st = os /\ files st = file_at now <$> paths /\
  (forall p i, slots st !! p = Some i <-> paths !! i = Some p) /\ dom now = dom contents.

Lemma file_at_insert now p text paths i :
  NoDup paths -> paths !! i = Some p ->
  <[i := file_at (<[p := text]> now) p]> (file_at now <$> paths) = file_at (<[p := text]> now) <$> paths.
Proof.
  intros Hnd Hi. apply list_eq. intros j. destruct (decide (i = j)) as [<-|Hij].
  - rewrite list_lookup_insert_eq by (rewrite length_fmap; by eapply lookup_lt_Some).
    by rewrite list_lookup_fmap, Hi.
  - rewrite list_lookup_insert_ne, !list_lookup_fmap by done.
    destruct (paths !! j) as [q|] eqn:Hj; [|done]. simpl. unfold file_at.
    rewrite lookup_insert_ne; [done|]. intros <-. apply Hij. by eapply NoDup_lookup.
Qed.

(** The slot of the path of an edit, in the table after [slot_of]. *)
Lemma slot_of_spec es st e :
  represents es st ->
  let '(slot, st') := slot_of contents (edit_path e) st in
  let '(os, now) := run_edits contents contents es in
  let paths := first_occurrences (edit_path <$> (es ++ [e])) in
  done_outcomes st' = os /\ files st' = file_at now <$> paths /\
  (forall p i, slots st' !! p = Some i <-> paths !! i = Some p) /\ paths !! slot = Some (edit_path e).
Proof.
  unfold represents. destruct (run_edits contents contents es) as [os now] eqn:Hrun.
  intros (Hos & Hfiles & Hslots & Hdom). rewrite fmap_app. cbn [fmap list_fmap].
  rewrite first_occurrences_snoc. unfold slot_of. destruct (slots st !! edit_path e) as [slot|] eqn:E.
  - apply Hslots in E. rewrite decide_True; [done|].
    apply first_occurrences_elem. by eapply list_elem_of_lookup_2.
  - assert (edit_path e ∉ edit_path <$> es) as Hnew.
    { intros [i Hi]%first_occurrences_elem%list_elem_of_lookup. apply Hslots in Hi. congruence. }
    rewrite decide_False by done. cbn [files slots done_outcomes].
    set (paths := first_occurrences (edit_path <$> es)) in *.
    assert (length (files st ++ [new_file_state (edit_path e) (contents !! edit_path e)]) - 1 = length paths) as ->
      by (rewrite length_app, Hfiles, length_fmap; simpl; lia).
    split; [done|]. split; [|split].
    + rewrite fmap_app, Hfiles. do 2 f_equal. unfold new_file_state, file_at. simpl. f_equal.
      destruct (contents !! edit_path e) as [t|] eqn:Ec.
      * pose proof (run_edits_untouched contents contents es (edit_path e) Hnew) as Hun.
        rewrite Hrun in Hun. simpl in Hun. by rewrite Hun, Ec.
      * assert (now !! edit_path e = None) as -> by (apply not_elem_of_dom; rewrite Hdom; by apply not_elem_of_dom).
        done.
    + intros p i. rewrite lookup_insert_Some, Hslots. rewrite lookup_app_Some. split.
      * intros [[<- <-]|[Hp ?]]; [right; by rewrite Nat.sub_diag|by left].
      * intros [Hi|[Hle Hi]].
        -- right. split; [|done]. intros <-. apply Hnew, first_occurrences_elem.
           by eapply list_elem_of_lookup_2.
        -- left. apply list_lookup_singleton_Some in Hi as [? <-]. split; [done|lia].
    + by rewrite lookup_app_r, Nat.sub_diag by lia.
Qed.

Lemma apply_one_represents es st e :
  represents es st -> represents (es ++ [e]) (apply_one contents st e).
Proof.
  intros Hst. pose proof (slot_of_spec es st e Hst) as Hslot.
  unfold apply_one. destruct (slot_of contents (edit_path e) st) as [slot st'].
  unfold represents in Hst |- *. rewrite run_edits_snoc.
  destruct (run_edits contents contents es) as [os now]. destruct Hst as (_ & _ & _ & Hdom).
  destruct Hslot as (Hos & Hfiles & Hslots & Hslot).
  set (paths := first_occurrences (edit_path <$> es ++ [e])) in *.
  rewrite Hfiles, list_lookup_fmap, Hslot. simpl. unfold file_apply, run_edit. cbn [original file_at content].
  destruct (contents !! edit_path e) as [old|] eqn:Ec.
  - destruct (placed e (default [] (now !! edit_path e))) as [why text|status why n];
      cbn [files slots done_outcomes]; (split; [by rewrite Hos|]); (split; [|split; [done|]]); try done.
    + rewrite <-(file_at_insert now (edit_path e) text paths slot);
        [|apply first_occurrences_NoDup|done]. f_equal.
      unfold file_at, set_content. simpl. by rewrite lookup_insert_eq.
    + rewrite dom_insert_L, Hdom. assert (edit_path e ∈ dom contents) by (apply elem_of_dom; by eexists). set_solver.
  - cbn [files slots done_outcomes]. by rewrite Hos.
Qed.

Lemma foldl_represents es :
  represents es (foldl (apply_one contents) {| files := []; slots := ∅; done_outcomes := [] |} es).
Proof.
  induction es as [|e es IH] using rev_ind.
  - unfold represents. simpl. split; [done|]. split; [done|]. split; [|done].
    intros p i. unfold first_occurrences. simpl. by rewrite lookup_empty.
  - rewrite foldl_app. by apply apply_one_represents.
Qed.
End Loop.

(** C5: [apply_edits] implements the machine on one map of texts: the outcomes are the
    machine's, in the order of the edits, and the new contents are the texts that the
    machine leaves different from the original, once per path, in the order of each
    path's first edit. *)
Theorem apply_edits_spec edits contents :
  let '(os, now) := run_edits contents contents edits in
  apply_edits edits contents =
  {| outcomes := os; new_contents := omap (changed_text contents now) (first_occurrences (edit_path <$> edits)) |}.
Proof.
  pose proof (foldl_represents contents edits) as H. unfold represents in H.
  destruct (run_edits contents contents edits) as [os now]. destruct H as (Hos & Hfiles & _ & Hdom).
  unfold apply_edits. rewrite Hos, Hfiles. f_equal.
  apply omap_fmap_ext. intros p. unfold changed, changed_text. simpl.
  destruct (contents !! p) as [old|] eqn:Ec; [|done].
  assert (p ∈ dom now) as [new ->]%elem_of_dom by (rewrite Hdom; apply elem_of_dom; by eexists). done.
Qed.

Lemma apply_edits_outcomes edits contents : outcomes (apply_edits edits contents) = (run_edits contents contents edits).1.
Proof.
  pose proof (foldl_represents contents edits) as H. unfold represents in H.
  destruct (run_edits contents contents edits) as [os now]. by destruct H as (Hos & _).
Qed.

(** Files are independent: the outcomes of the edits of one path are those of applying
    these edits alone. *)
Theorem apply_edits_per_file edits contents p :
  List.filter (fun o => bool_decide (edit_path (edit o) = p)) (outcomes (apply_edits edits contents)) =
  outcomes (apply_edits (List.filter (fun e => bool_decide (edit_path e = p)) edits) contents).
Proof.
  rewrite !apply_edits_outcomes.
  assert (forall now1 now2, now1 !! p = now2 !! p ->
    List.filter (fun o => bool_decide (edit_path (edit o) = p)) (run_edits contents now1 edits).1 =
    (run_edits contents now2 (List.filter (fun e => bool_decide (edit_path e = p)) edits)).1) as Hind.
  { clear. induction edits as [|e edits IH]; intros now1 now2 Hnow; [done|]. simpl.
    assert (forall now, edit (run_edit contents now e).1 = e) as Hedit.
    { intros now. unfold run_edit. destruct (contents !! _); [|done]. by destruct (placed _ _). }
    destruct (run_edit contents now1 e) as [o1 now1'] eqn:E1. pose proof (Hedit now1) as Ho. rewrite E1 in Ho.
    simpl in Ho. destruct (bool_decide (edit_path e = p)) eqn:Hp.
    - apply bool_decide_eq_true in Hp. subst p. simpl.
      assert (run_edit contents now2 e = (o1, (run_edit contents now2 e).2) /\
        now1' !! edit_path e = (run_edit contents now2 e).2 !! edit_path e) as [-> Hnow'].
      { unfold run_edit in E1 |- *. rewrite <-Hnow. destruct (contents !! _); [|by injection E1 as <- <-].
        destruct (placed _ _); injection E1 as <- <-; [|done]. simpl. by rewrite !lookup_insert_eq. }
      specialize (IH now1' (run_edit contents now2 e).2 Hnow').
      destruct (run_edits contents now1' edits), (run_edits contents _ (List.filter _ edits)). simpl in IH |- *.
      by rewrite Ho, bool_decide_eq_true_2, IH.
    - assert (now1' !! p = now2 !! p) as Hnow'.
      { rewrite <-Hnow. apply bool_decide_eq_false in Hp. unfold run_edit in E1.
        destruct (contents !! _); [|by injection E1 as <- <-].
        destruct (placed _ _); injection E1 as <- <-; [by rewrite lookup_insert_ne|done]. }
      rewrite <-(IH now1' now2 Hnow'). destruct (run_edits contents now1' edits). simpl. by rewrite Ho, Hp. }
  exact (Hind contents contents eq_refl).
Qed.

