(* ===== verification/Natural.v ===== *)
(** Whole numbers of any size: crates/patch/src/natural.rs.

    The line numbers and counts of a hunk header have no bound, so they are lists of
    decimal digits, the most significant first, without leading zeros.  [natural_ops] gives
    the value of each operation. *)

From S2P Require Import Prelude RustStr Unicode.
Local Open Scope Z_scope.

Record Natural := { digits : list Z }.

#[export] Instance Natural_eq_dec : EqDecision Natural.
Proof. solve_decision. Defined.

Definition natural_zero : Natural := {| digits := [] |}.
Definition one : Natural := {| digits := [1] |}.

Definition from_digits (values : list Z) : Natural := {| digits := trim_start (fun digit => digit =? 0) values |}.

Definition from_usize (value : Z) : Natural :=
  from_digits ((fun byte => byte - 48) <$> dec_text value).

Definition is_zero (n : Natural) : bool := match digits n with [] => true | _ => false end.

Definition USIZE_MAX : Z := 2 ^ 64 - 1.

(** [usize::checked_mul] and [usize::checked_add]. *)
Definition checked_usize (value : Z) : option Z := if value <=? USIZE_MAX then Some value else None.

Fixpoint to_usize_from (value : Z) (digits : list Z) : option Z :=
  match digits with
  | [] => Some value
  | digit :: rest =>
      scaled ← checked_usize (value * 10);
      next ← checked_usize (scaled + digit);
      to_usize_from next rest
  end.
Definition to_usize (n : Natural) : option Z := to_usize_from 0 (digits n).

(** The loop of [plus] over the reversed digits; the sum has at most one digit more than the
    longer number, so the lengths bound the steps. *)
Fixpoint plus_loop (steps : nat) (left right : list Z) (carry : Z) : list Z :=
  match steps with
  | O => []
  | S rest =>
      match left, right with
      | [], [] =>
          if carry =? 0 then []
          else carry mod 10 :: plus_loop rest [] [] (carry / 10)
      | _, _ =>
          let total := default 0 (head left) + default 0 (head right) + carry in
          total mod 10 :: plus_loop rest (drop 1 left) (drop 1 right) (total / 10)
      end
  end.

Definition plus (n other : Natural) : Natural :=
  let left := reverse (digits n) in
  let right := reverse (digits other) in
  let sum := plus_loop (length left + length right + 2) left right 0 in
  from_digits (reverse sum).

Fixpoint minus_loop (left right : list Z) (borrow : Z) : list Z :=
  match left with
  | [] => []
  | digit :: left' =>
      let taken := default 0 (head right) + borrow in
      let raised := digit + 10 - taken in
      raised mod 10 :: minus_loop left' (drop 1 right) (if raised <? 10 then 1 else 0)
  end.

Definition minus (n : Natural) (value : Z) : Natural :=
  let other := from_usize value in
  from_digits (reverse (minus_loop (reverse (digits n)) (reverse (digits other)) 0)).

(** [Ord] on digit slices: lexicographic. *)
Fixpoint cmp_digits (left right : list Z) : comparison :=
  match left, right with
  | [], [] => Eq
  | [], _ :: _ => Lt
  | _ :: _, [] => Gt
  | a :: left', b :: right' => match a ?= b with Eq => cmp_digits left' right' | ord => ord end
  end.

Definition cmp (n other : Natural) : comparison :=
  match Nat.compare (length (digits n)) (length (digits other)) with
  | Eq => cmp_digits (digits n) (digits other)
  | ord => ord
  end.

(** [Display]. *)
Definition fmt (n : Natural) : str :=
  match digits n with [] => lit "0" | ds => (fun digit => 48 + digit) <$> ds end.

Definition leading (text : str) : option (Natural * str) :=
  let spelled := take_while is_decimal text in
  let rest := drop (length spelled) text in
  match spelled with
  | [] => None
  | _ => Some (from_digits (omap decimal_value spelled), rest)
  end.

(** * Values *)

Definition value (n : Natural) : Z := value_of 10 (digits n).

(** Digits below ten, and no leading zero. *)
Definition wf (n : Natural) : Prop :=
  Forall (fun d => 0 <= d < 10) (digits n) /\ head (digits n) <> Some 0.

Arguments value_of : simpl never.

Lemma value_of_trim ds : value_of 10 (trim_start (fun d => d =? 0) ds) = value_of 10 ds.
Proof.
  induction ds as [|d ds IH]; [done|]. cbn [trim_start]. destruct (Z.eqb_spec d 0) as [->|]; [|done].
  rewrite IH, value_of_cons. lia.
Qed.

Lemma from_digits_spec ds : Forall (fun d => 0 <= d < 10) ds ->
  wf (from_digits ds) /\ value (from_digits ds) = value_of 10 ds.
Proof.
  intros Hf. unfold value, from_digits. simpl. split; [|apply value_of_trim]. split; simpl.
  - destruct (trim_start_suffix (fun d => d =? 0) ds) as (p & Hp & _). rewrite Hp in Hf. by apply Forall_app in Hf as [_ Hf].
  - destruct (trim_start _ ds) as [|c r] eqn:E; [done|]. apply trim_start_head in E. simpl. intros [= ->]. done.
Qed.

Lemma value_nonneg n : wf n -> 0 <= value n.
Proof. intros [Hf _]. apply (value_of_bound 10) in Hf; [|lia]. unfold value. lia. Qed.

Lemma from_usize_spec v : 0 <= v -> wf (from_usize v) /\ value (from_usize v) = v.
Proof.
  intros Hv. destruct (digits_of_spec 10 v ltac:(lia) Hv) as (_ & Hval & Hf & _).
  assert ((fun byte => byte - 48) <$> dec_text v = digits_of 10 v) as Heq.
  { unfold dec_text. rewrite <-list_fmap_compose. rewrite <-(list_fmap_id (digits_of 10 v)) at 2.
    apply list_fmap_ext. intros _ x _. simpl. unfold id. lia. }
  unfold from_usize. rewrite Heq. rewrite <-Hval at 3. by apply from_digits_spec.
Qed.

(** The value of digits kept from the least significant on. *)
Definition rvalue (ds : list Z) : Z := value_of 10 (reverse ds).

Lemma rvalue_cons d ds : rvalue (d :: ds) = d + 10 * rvalue ds.
Proof. unfold rvalue. rewrite reverse_cons, value_of_app. lia. Qed.

Lemma rvalue_head ds : rvalue ds = default 0 (head ds) + 10 * rvalue (drop 1 ds).
Proof. destruct ds as [|d ds]; [done|]. rewrite rvalue_cons. cbn [drop]. by rewrite drop_0. Qed.

Lemma head_digit ds : Forall (fun d => 0 <= d < 10) ds -> 0 <= default 0 (head ds) < 10.
Proof. destruct 1; simpl; lia. Qed.

Lemma plus_loop_spec steps left right carry :
  Forall (fun d => 0 <= d < 10) left -> Forall (fun d => 0 <= d < 10) right -> 0 <= carry <= 1 ->
  (length left + length right + 2 <= steps)%nat ->
  rvalue (plus_loop steps left right carry) = rvalue left + rvalue right + carry /\
  Forall (fun d => 0 <= d < 10) (plus_loop steps left right carry).
Proof.
  revert left right carry. induction steps as [|steps IH]; intros left right carry Hl Hr Hc Hs; [lia|].
  assert (left = [] /\ right = [] \/ left <> [] \/ right <> []) as [[-> ->]|Hne]
    by (destruct left; [destruct right|]; naive_solver).
  - cbn [plus_loop]. destruct (Z.eqb_spec carry 0) as [->|]; [done|].
    assert (carry = 1) as -> by lia. destruct steps; [simpl in Hs; lia|]. change (1 / 10) with 0. change (1 mod 10) with 1.
    cbn [plus_loop]. split; [done|]. repeat constructor; lia.
  - assert (plus_loop (S steps) left right carry =
      let total := default 0 (head left) + default 0 (head right) + carry in
      total mod 10 :: plus_loop steps (drop 1 left) (drop 1 right) (total / 10)) as ->
      by (destruct left, right; naive_solver).
    set (total := default 0 (head left) + default 0 (head right) + carry). cbv zeta.
    pose proof (head_digit left Hl). pose proof (head_digit right Hr).
    pose proof (Z.div_mod total 10 ltac:(lia)). pose proof (Z.mod_pos_bound total 10 ltac:(lia)).
    destruct (IH (drop 1 left) (drop 1 right) (total / 10)) as [Hv Hf].
    + by apply Forall_drop.
    + by apply Forall_drop.
    + unfold total in *. split; [apply Z.div_pos; lia|]. apply Z.lt_succ_r, Z.div_lt_upper_bound; lia.
    + rewrite !length_drop. destruct left, right; simpl in *; naive_solver lia.
    + split; [|by constructor]. rewrite rvalue_cons, Hv, (rvalue_head left), (rvalue_head right).
      unfold total in *. lia.
Qed.

Lemma minus_loop_spec left right borrow :
  Forall (fun d => 0 <= d < 10) left -> Forall (fun d => 0 <= d < 10) right -> 0 <= borrow <= 1 ->
  0 <= rvalue right -> rvalue right + borrow <= rvalue left ->
  rvalue (minus_loop left right borrow) = rvalue left - rvalue right - borrow /\
  Forall (fun d => 0 <= d < 10) (minus_loop left right borrow).
Proof.
  revert right borrow. induction left as [|d left IH]; intros right borrow Hl Hr Hb Hr0 Hle.
  - cbn [minus_loop]. split; [|done]. change (rvalue []) with 0 in *. lia.
  - cbn [minus_loop]. apply Forall_cons in Hl as [Hd Hl].
    set (taken := default 0 (head right) + borrow). set (raised := d + 10 - taken).
    pose proof (head_digit right Hr). rewrite rvalue_cons in Hle |- *. rewrite (rvalue_head right) in Hle |- *.
    assert (0 <= rvalue (drop 1 right)) by (apply (value_of_bound 10); [lia|]; by apply Forall_reverse, Forall_drop).
    assert (0 <= rvalue left) by (apply (value_of_bound 10); [lia|]; by apply Forall_reverse).
    destruct (Z.ltb_spec raised 10).
    + assert (raised mod 10 = raised) as Hm by (apply Z.mod_small; unfold raised, taken in *; lia).
      destruct (IH (drop 1 right) 1) as [Hv Hf]; [done|by apply Forall_drop|lia|done|unfold raised, taken in *; lia|].
      rewrite Hm. split; [|constructor; [unfold raised, taken in *; lia|done]].
      rewrite rvalue_cons, Hv. unfold raised, taken. lia.
    + assert (raised mod 10 = raised - 10) as Hm.
      { replace raised with ((raised - 10) + 1 * 10) at 1 by lia. rewrite Z.mod_add by lia.
        apply Z.mod_small. unfold raised, taken in *. lia. }
      destruct (IH (drop 1 right) 0) as [Hv Hf]; [done|by apply Forall_drop|lia|done|unfold raised, taken in *; lia|].
      rewrite Hm. split; [|constructor; [unfold raised, taken in *; lia|done]].
      rewrite rvalue_cons, Hv. unfold raised, taken. lia.
Qed.

Lemma plus_spec n m : wf n -> wf m -> wf (plus n m) /\ value (plus n m) = value n + value m.
Proof.
  intros [Hn _] [Hm _]. unfold plus.
  destruct (plus_loop_spec (length (reverse (digits n)) + length (reverse (digits m)) + 2)
    (reverse (digits n)) (reverse (digits m)) 0) as [Hv Hf]; [by apply Forall_reverse..|lia|lia|].
  unfold rvalue in Hv. rewrite !reverse_involutive in Hv. unfold value at 2 3.
  replace (value_of 10 (digits n) + value_of 10 (digits m)) with
    (value_of 10 (digits n) + value_of 10 (digits m) + 0) by lia. rewrite <-Hv.
  apply from_digits_spec. by apply Forall_reverse.
Qed.

Lemma minus_spec n v : wf n -> 0 <= v <= value n -> wf (minus n v) /\ value (minus n v) = value n - v.
Proof.
  intros [Hn _] Hv. destruct (from_usize_spec v ltac:(lia)) as [[Hu _] Huv]. unfold minus.
  destruct (minus_loop_spec (reverse (digits n)) (reverse (digits (from_usize v))) 0) as [Hval Hf];
    [by apply Forall_reverse..|lia| | |]; unfold rvalue in *; rewrite !reverse_involutive in *;
    fold (value (from_usize v)) (value n) in *; rewrite ?Huv in *; [lia..|].
  rewrite <-(Z.sub_0_r (value n - v)), <-Hval. apply from_digits_spec. by apply Forall_reverse.
Qed.

Lemma cmp_digits_spec l r :
  length l = length r -> Forall (fun d => 0 <= d < 10) l -> Forall (fun d => 0 <= d < 10) r ->
  cmp_digits l r = (value_of 10 l ?= value_of 10 r).
Proof.
  revert r. induction l as [|a l IH]; intros [|b r] Hlen Hl Hr; try done. injection Hlen as Hlen.
  apply Forall_cons in Hl as [Ha Hl]. apply Forall_cons in Hr as [Hb Hr]. cbn [cmp_digits].
  rewrite !value_of_cons, <-Hlen.
  pose proof (value_of_bound 10 l ltac:(lia) Hl) as Bl. pose proof (value_of_bound 10 r ltac:(lia) Hr) as Br.
  rewrite <-Hlen in Br. set (P := 10 ^ Z.of_nat (length l)) in *. 
  destruct (Z.compare_spec a b) as [->|Hab|Hab].
  - rewrite IH by done. by rewrite Zcompare_plus_compat.
  - symmetry. apply Z.compare_lt_iff. nia.
  - symmetry. apply Z.compare_gt_iff. nia.
Qed.

Lemma value_head_bounds d ds : 0 < d < 10 -> Forall (fun d => 0 <= d < 10) ds ->
  10 ^ Z.of_nat (length ds) <= value_of 10 (d :: ds) < 10 ^ Z.of_nat (S (length ds)).
Proof.
  intros Hd Hf. split; [by apply value_of_lower|].
  apply (value_of_bound 10 (d :: ds)); [lia|]. constructor; [lia|done].
Qed.

Lemma shorter_below n m : wf n -> wf m -> (length (digits n) < length (digits m))%nat -> value n < value m.
Proof.
  intros [Hn _] [Hm Hh] Hlen. unfold value. pose proof (value_of_bound 10 _ ltac:(lia) Hn) as B.
  destruct (digits m) as [|d ds]; [simpl in Hlen; lia|]. apply Forall_cons in Hm as [Hd Hm].
  assert (d <> 0) by (intros ->; by apply Hh).
  destruct (value_head_bounds d ds ltac:(lia) Hm) as [Hlo _]. simpl in Hlen.
  assert (10 ^ Z.of_nat (length (digits n)) <= 10 ^ Z.of_nat (length ds)); [|lia].
  apply Z.pow_le_mono_r; lia.
Qed.

Lemma cmp_spec n m : wf n -> wf m -> cmp n m = (value n ?= value m).
Proof.
  intros Hn Hm. unfold cmp. destruct (Nat.compare_spec (length (digits n)) (length (digits m))).
  - apply cmp_digits_spec; [done|apply Hn|apply Hm].
  - symmetry. apply Z.compare_lt_iff. by apply shorter_below.
  - symmetry. apply Z.compare_gt_iff. by apply shorter_below.
Qed.

Lemma checked_usize_fits v : v <= USIZE_MAX -> checked_usize v = Some v.
Proof. intros H. unfold checked_usize. by rewrite (proj2 (Z.leb_le _ _)). Qed.

Lemma checked_usize_above v : USIZE_MAX < v -> checked_usize v = None.
Proof. intros H. unfold checked_usize. by rewrite (proj2 (Z.leb_gt _ _)). Qed.

Lemma to_usize_from_spec v ds : 0 <= v <= USIZE_MAX -> Forall (fun d => 0 <= d < 10) ds ->
  to_usize_from v ds = checked_usize (v * 10 ^ Z.of_nat (length ds) + value_of 10 ds).
Proof.
  intros Hv Hf. revert v Hv. induction Hf as [|d ds Hd Hf IH]; intros v Hv.
  - simpl. change (value_of 10 []) with 0. unfold checked_usize.
    rewrite (proj2 (Z.leb_le _ _)) by lia. f_equal. lia.
  - cbn [to_usize_from length]. rewrite value_of_cons, Nat2Z.inj_succ, Z.pow_succ_r by lia.
    pose proof (value_of_bound 10 ds ltac:(lia) Hf) as B. set (P := 10 ^ Z.of_nat (length ds)) in *.
    assert (1 <= P) by (apply (Z.pow_le_mono_r 10 0); lia).
    destruct (Z.leb_spec (v * 10) USIZE_MAX).
    + rewrite (checked_usize_fits (v * 10)) by done. cbn [mbind option_bind].
      destruct (Z.leb_spec (v * 10 + d) USIZE_MAX).
      * rewrite (checked_usize_fits (v * 10 + d)) by done. cbn [mbind option_bind]. rewrite IH by lia. f_equal. lia.
      * rewrite !checked_usize_above by nia. done.
    + rewrite !checked_usize_above by nia. done.
Qed.

Lemma to_usize_spec n : wf n -> to_usize n = checked_usize (value n).
Proof. intros [Hf _]. unfold to_usize. by rewrite to_usize_from_spec. Qed.

Lemma is_zero_spec n : wf n -> is_zero n = true <-> value n = 0.
Proof.
  intros [Hf Hh]. unfold is_zero, value. destruct (digits n) as [|d ds]; [done|]. split; [done|].
  apply Forall_cons in Hf as [Hd Hf]. assert (d <> 0) by (intros ->; by apply Hh).
  destruct (value_head_bounds d ds ltac:(lia) Hf) as [Hlo _].
  assert (0 < 10 ^ Z.of_nat (length ds)) by (apply Z.pow_pos_nonneg; lia). lia.
Qed.

(** The arithmetic of hunk headers is exact at any size: sums, differences, comparisons
    and the conversion to a 64-bit [usize] are those of the numbers, with no leading zero,
    and the conversion fails exactly above the largest [usize]. *)
Theorem natural_ops n m v (Hn : wf n) (Hm : wf m) (Hv : 0 <= v <= value n) :
  (wf (plus n m) /\ value (plus n m) = value n + value m) /\
  (wf (minus n v) /\ value (minus n v) = value n - v) /\
  cmp n m = (value n ?= value m) /\
  (is_zero n = true <-> value n = 0) /\
  to_usize n = (if value n <? 2 ^ 64 then Some (value n) else None).
Proof.
  split; [by apply plus_spec|]. split; [by apply minus_spec|]. split; [by apply cmp_spec|].
  split; [by apply is_zero_spec|]. rewrite to_usize_spec by done. unfold checked_usize, USIZE_MAX.
  destruct (Z.leb_spec (value n) (2 ^ 64 - 1)), (Z.ltb_spec (value n) (2 ^ 64)); done || lia.
Qed.

Lemma natural_ops_witness :
  let n := {| digits := [1; 0; 0; 0] |} in
  (wf (plus n one) /\ value (plus n one) = value n + value one) /\
  (wf (minus n 999) /\ value (minus n 999) = value n - 999) /\
  cmp n one = (value n ?= value one) /\
  (is_zero n = true <-> value n = 0) /\
  to_usize n = (if value n <? 2 ^ 64 then Some (value n) else None).
Proof.
  apply (natural_ops {| digits := [1; 0; 0; 0] |} one 999).
  - split; [repeat constructor; lia|discriminate].
  - split; [repeat constructor; lia|discriminate].
  - vm_compute. split; discriminate.
Defined.

(** * Reading a number *)

Lemma omap_decimal ds : Forall (fun c => is_decimal c = true) ds ->
  Forall (fun d => 0 <= d < 10) (omap decimal_value ds).
Proof.
  induction 1 as [|c ds Hc _ IH]; [constructor|]. csimpl.
  destruct (decimal_value c) as [d|] eqn:E; [|done]. constructor; [by eapply decimal_value_digit|done].
Qed.

Lemma take_while_prefix (f : char -> bool) s :
  s = take_while f s ++ drop (length (take_while f s)) s /\ Forall (fun c => f c = true) (take_while f s) /\
  match head (drop (length (take_while f s)) s) with Some c => f c = false | None => True end.
Proof.
  induction s as [|c s (IH1 & IH2 & IH3)]; [done|]. cbn [take_while]. destruct (f c) eqn:E.
  - simpl. split; [by rewrite <-IH1|]. split; [by constructor|done].
  - by simpl.
Qed.

Lemma leading_wf text n rest : leading text = Some (n, rest) -> wf n.
Proof.
  unfold leading. pose proof (take_while_prefix is_decimal text) as (_ & Hf & _).
  destruct (take_while is_decimal text); [done|]. intros [= <- _].
  apply from_digits_spec. by apply (omap_decimal (_ :: _)).
Qed.

Lemma leading_shorter text n rest : leading text = Some (n, rest) -> (length rest < length text)%nat.
Proof.
  unfold leading. pose proof (take_while_prefix is_decimal text) as (Heq & _).
  destruct (take_while is_decimal text) as [|c ds]; [done|]. intros [= _ <-].
  rewrite Heq at 2. rewrite length_app. simpl. lia.
Qed.

Lemma dec_text_decimal n : 0 <= n ->
  Forall (fun c => is_decimal c = true) (dec_text n) /\
  omap decimal_value (dec_text n) = (fun byte => byte - 48) <$> dec_text n.
Proof.
  intros Hn. destruct (digits_of_spec 10 n ltac:(lia) Hn) as (_ & _ & Hf & _).
  unfold dec_text. induction Hf as [|d ds Hd _ [IH1 IH2]]; [by split|].
  rewrite !fmap_cons. assert (decimal_value (48 + d) = Some (48 + d - 48)) as Hv by (apply is_decimal_ascii; lia).
  split.
  - constructor; [|done]. apply decimal_value_is_decimal. by eexists.
  - csimpl. by rewrite Hv, IH2.
Qed.

(** A printed number reads back. *)
Lemma leading_dec_text n s : 0 <= n ->
  match head s with Some c => is_decimal c = false | None => True end ->
  leading (dec_text n ++ s) = Some (from_usize n, s).
Proof.
  intros Hn Hs. destruct (dec_text_decimal n Hn) as [Hd Hv]. unfold leading.
  rewrite take_while_app by (done || by destruct s). rewrite drop_app_length.
  destruct (dec_text n) as [|c ds] eqn:E; [|by rewrite Hv, <-E].
  destruct (digits_of_spec 10 n ltac:(lia) Hn) as (Hne & _). unfold dec_text in E. by destruct (digits_of 10 n).
Qed.
