(* ===== verification/Unidiff.v ===== *)
(** Unified diffs as edits: crates/patch/src/unidiff.rs, unidiff/headers.rs and
    unidiff/hunks.rs.

    Modules [Hunks], [Headers] and the rest of the file follow the three source files.
    Lines are elements of a list, and a position is an index into it.  The loops that only
    move to the next line recurse over the lines that are left; the loops that jump
    ([skip_to_next_section], [hunks_loop], [sections]) have fuel and answer [None] when it
    runs out, which [parse_unified_diff_total] shows not to happen. *)

From S2P Require Import Prelude RustStr Unicode Text CodePoints Elision Blocks Natural.

Definition DIFF_GIT : str := lit "diff --git ".
Definition COMBINED : list str := [lit "diff --cc "; lit "diff --combined "].
Definition OLD_HEADER : str := lit "--- ".
Definition DEV_NULL : str := lit "/dev/null".
Definition REMEDY : str :=
  lit "point --repo at a checkout of the diff's base (for a branch, its merge-base with the target) and rerun".

Record DiffNote := { note_path : str; note_reason : str }.

Record DiffParse := { diff_result : ParseResult; diff_notes : list DiffNote }.

(** One file's edits, refusals and notes, its last ordinal, and where the next section starts. *)
Record FileSection := {
  sec_edits : list Edit;
  sec_errors : list BlockError;
  sec_notes : list DiffNote;
  sec_ordinal : Z;
  sec_next : nat
}.

Definition section_error (path : option str) (ordinal : Z) (at_ : nat) (reason : str) : FileSection :=
  {| sec_edits := [];
     sec_errors := [{| error_index := ordinal; error_path := path; error_reason := reason |}];
     sec_notes := [];
     sec_ordinal := ordinal + 1;
     sec_next := at_ |}.

Definition section_note (path : str) (ordinal : Z) (at_ : nat) (reason : str) : FileSection :=
  {| sec_edits := [];
     sec_errors := [];
     sec_notes := [{| note_path := path; note_reason := reason |}];
     sec_ordinal := ordinal;
     sec_next := at_ |}.

Definition refused (reason : str) : DiffParse :=
  {| diff_result := {| parse_edits := [];
       parse_errors := [{| error_index := 0; error_path := None; error_reason := reason |}] |};
     diff_notes := [] |}.

(** The lines of the diff, without the empty line after a final line break. *)
Definition diff_lines (text : str) : list str :=
  let lines := split_char c_lf text in
  if bool_decide (last lines = Some []) then removelast lines else lines.

Definition opens_section (line : str) : bool :=
  starts_with DIFF_GIT line
  || starts_with OLD_HEADER line && (utf8_len OLD_HEADER <? utf8_len line).

Definition crlf (line : str) : option str :=
  if ends_with_char (is_char c_cr) line
  then Some (lit "a structural line ends with a carriage return, so this patch file has CRLF line endings: "
             ++ quoted_str (trim_end line) ++ lit "; convert it to LF and rerun")
  else None.

(** * Hunks: unidiff/hunks.rs *)

Module Hunks.

Definition NO_NEWLINE : str := [c_backslash; c_space].
Definition TRAILER : str := lit "--".

(** The file that one section's hunks change, and whether the diff creates it. *)
Record Target := { target_path : str; new_file : bool }.

(** What one header declares. *)
Record Counts := { old_start : Natural; old_count : Natural; new_count : Natural }.

Definition opens_hunk (lines : list str) (at_ : nat) : bool :=
  match lines !! at_ with Some line => starts_with (lit "@@") line | None => false end.

(** [count]: an optional [,count]. *)
Definition header_count (rest : str) : option (Natural * str) :=
  match strip_prefix (lit ",") rest with
  | Some digits => leading digits
  | None => Some (one, rest)
  end.

Definition parse_header (header : str) : option Counts :=
  rest ← strip_prefix (lit "@@ -") header;
  '(old_start, rest) ← leading rest;
  '(old_count, rest) ← header_count rest;
  rest ← strip_prefix (lit " +") rest;
  '(_, rest) ← leading rest;
  '(new_count, rest) ← header_count rest;
  if starts_with (lit " @@") rest
  then Some {| old_start := old_start; old_count := old_count; new_count := new_count |}
  else None.

Definition count_mismatch (path header : str) : str :=
  path ++ lit ": hunk " ++ strip header ++
  lit " declares line counts its body does not match (truncated or hand-edited diff?)".

Definition is_stray_body (line : str) : bool :=
  if negb (is_nonempty line) || bool_decide (trim_end line = TRAILER) then false
  else if starts_with (lit "@@") line || opens_section line then false
  else match line with c :: _ => any (is_char c) (lit " -+") | [] => false end.

Definition unread_content (lines : list str) (at_ end_ : nat) : bool :=
  let stop := Nat.min end_ (length lines) in
  let rest := if at_ <=? stop then take (stop - at_) (drop at_ lines) else [] in
  if any (fun line => match parse_header line with Some _ => true | None => false end) rest then true
  else
    match List.find (fun line => is_nonempty line && negb (bool_decide (trim_end line = TRAILER))) rest with
    | Some line => is_stray_body line
    | None => false
    end.

(** A bare empty line is context for an empty line. *)
Definition marked (line : str) : char * str :=
  match line with [] => (c_space, []) | marker :: content => (marker, content) end.

(** The lines one hunk body has taken on each side, against the counts of its header: a pair
    holds the old side, then the new side. *)
Record Tally := {
  counts : Natural * Natural;
  limits : option Z * option Z;
  used : Z * Z;
  sides : list str * list str
}.

Definition new_tally (counts : Natural * Natural) : Tally :=
  {| counts := counts; limits := (to_usize counts.1, to_usize counts.2); used := (0, 0)%Z; sides := ([], []) |}.

Definition below_limit (limit : option Z) (used : Z) : bool :=
  match limit with None => true | Some limit => (used <? limit)%Z end.
Definition left_old (t : Tally) : bool := below_limit (limits t).1 (used t).1.
Definition left_new (t : Tally) : bool := below_limit (limits t).2 (used t).2.

Definition open (t : Tally) : bool := left_old t || left_new t.

Definition fits (t : Tally) (marker : char) : option bool :=
  if is_char 32 marker then Some (left_old t && left_new t)
  else if is_char 45 marker then Some (left_old t)
  else if is_char 43 marker then Some (left_new t)
  else None.

Definition take_old (content : str) (t : Tally) : Tally :=
  {| counts := counts t; limits := limits t; used := ((used t).1 + 1, (used t).2)%Z;
     sides := ((sides t).1 ++ [content], (sides t).2) |}.
Definition take_new (content : str) (t : Tally) : Tally :=
  {| counts := counts t; limits := limits t; used := ((used t).1, (used t).2 + 1)%Z;
     sides := ((sides t).1, (sides t).2 ++ [content]) |}.

(** [Tally::take]. *)
Definition take_line (marker : char) (content : str) (t : Tally) : Tally :=
  if is_char 32 marker then take_new content (take_old content t)
  else if is_char 45 marker then take_old content t
  else take_new content t.

Definition truncated (t : Tally) (path header : str) : str :=
  path ++ lit ": hunk " ++ strip header ++ lit " ends after part of its body, with " ++
  fmt (minus (counts t).1 (used t).1) ++ lit " pre-image and " ++ fmt (minus (counts t).2 (used t).2) ++
  lit " post-image line(s) still to come (truncated diff?)".

Record Body := { body_search : str; body_replace : str; body_next : nat }.

(** The loop of [hunk_body] over the lines from [next] on: the tally when it closes, the next
    line and the lines that are left. *)
Fixpoint body_loop (rest : list str) (next : nat) (path header : str) (t : Tally)
  : result (Tally * nat * list str) str :=
  if negb (open t) then Ok (t, next, rest)
  else
    match rest with
    | [] => Err (truncated t path header)
    | line :: rest =>
        if starts_with NO_NEWLINE line then body_loop rest (next + 1) path header t
        else
          let '(marker, content) := marked line in
          match fits t marker with
          | Some true => body_loop rest (next + 1) path header (take_line marker content t)
          | Some false => Err (count_mismatch path header)
          | None => Err (path ++ lit ": hunk " ++ strip header ++
              lit " has a body line that is not ' ', '-', '+' or '\': " ++ quoted_str line)
          end
    end.

Local Open Scope rs_scope.

Definition hunk_body (lines : list str) (at_ : nat) (counts : Natural * Natural) (path header : str)
  : result Body str :=
  let? (t, next, rest) := body_loop (drop at_ lines) at_ path header (new_tally counts) in
  let markers := length (take_while (starts_with NO_NEWLINE) rest) in
  Ok {| body_search := join_with [c_lf] (sides t).1;
        body_replace := join_with [c_lf] (sides t).2;
        body_next := next + markers |}.

Definition hunk_counts (header : str) (target : Target) (floor : Natural) : result Counts str :=
  match crlf header with
  | Some reason => Err reason
  | None =>
      let path := target_path target in
      match parse_header header with
      | None => Err (path ++ lit " has a hunk header that is not '@@ -old,count +new,count @@': " ++
                     quoted_str header)
      | Some counts =>
          let shown := strip header in
          if is_zero (old_count counts) && is_zero (new_count counts)
          then Err (path ++ lit " has a hunk that declares no lines on either side (" ++ shown ++
            lit "), so it states no change; git does not emit one, and the empty edit it would yield reads as a change that was checked and found clean")
          else if is_zero (old_count counts) && negb (new_file target)
          then Err (path ++ lit " has a hunk with an empty pre-image (" ++ shown ++
            lit ") into a file that already exists, so the hunk anchors to nothing; a zero-context hunk is the usual cause, so regenerate the diff with context lines (drop -U0)")
          else if match cmp (old_start counts) floor with Lt => true | _ => false end
          then Err (path ++ lit " has hunks whose pre-image ranges overlap or run backwards: " ++ shown ++
            lit " starts at line " ++ fmt (old_start counts) ++
            lit ", which the hunk before it already covered; a file's hunks describe one state of it, so no edit list holds both")
          else Ok counts
      end
  end.

Definition end_of_hunk (lines : list str) (at_ : nat) : option nat :=
  let header := nth at_ lines [] in
  counts ← parse_header header;
  match hunk_body lines (at_ + 1) (old_count counts, new_count counts) [] header with
  | Ok body => Some (body_next body)
  | Err _ => None
  end.

Definition hunk (lines : list str) (at_ : nat) (target : Target) (index : Z) (floor : Natural)
  : result (Edit * nat * Natural) BlockError :=
  let header := nth at_ lines [] in
  let path := target_path target in
  let refusal reason := {| error_index := index; error_path := Some path; error_reason := reason |} in
  let? counts := map_err refusal (hunk_counts header target floor) in
  let? body := map_err refusal
    (hunk_body lines (at_ + 1) (old_count counts, new_count counts) path header) in
  if match lines !! body_next body with Some line => is_stray_body line | None => false end
  then Err (refusal (count_mismatch path header))
  else Ok ({| edit_index := index; edit_path := path; edit_search := body_search body;
              edit_replace := body_replace body |},
           body_next body, plus (old_start counts) (old_count counts)).

Definition refused_section (edits : list Edit) (refusal : BlockError) (resume : nat) : FileSection :=
  {| sec_edits := edits; sec_errors := [refusal]; sec_notes := [];
     sec_ordinal := error_index refusal + 1; sec_next := resume |}.

(** The variables of the loop of [hunks]. *)
Record HunkLoop := {
  hl_edits : list Edit;
  hl_next : nat;
  hl_index : Z;
  hl_floor : Natural;
  hl_header : str
}.

(** The loop of [hunks]: its variables when no hunk is left, or the refusal that ended it. *)
Fixpoint hunks_loop (fuel : nat) (lines : list str) (target : Target) (st : HunkLoop)
  : option (result HunkLoop (list Edit * BlockError)) :=
  match fuel with
  | O => None
  | S fuel' =>
      if negb (opens_hunk lines (hl_next st)) then Some (Ok st)
      else
        match hunk lines (hl_next st) target (hl_index st) (hl_floor st) with
        | Ok (edit, after, raised) =>
            hunks_loop fuel' lines target
              {| hl_edits := hl_edits st ++ [edit]; hl_next := after; hl_index := hl_index st + 1;
                 hl_floor := raised; hl_header := nth (hl_next st) lines [] |}
        | Err refusal => Some (Err (hl_edits st, refusal))
        end
  end.

Definition hunks (lines : list str) (at_ : nat) (target : Target) (ordinal : Z) (resume : nat)
  : option FileSection :=
  let path := target_path target in
  if negb (opens_hunk lines at_)
  then Some (section_error (Some path) ordinal resume
    (path ++ lit " has a file header but no hunks, so there is no change to read"))
  else
    loop ← hunks_loop (S (length lines)) lines target
      {| hl_edits := []; hl_next := at_; hl_index := ordinal; hl_floor := natural_zero;
         hl_header := nth at_ lines [] |};
    Some match loop with
    | Err (edits, refusal) => refused_section edits refusal resume
    | Ok st =>
        if unread_content lines (hl_next st) resume
        then refused_section (hl_edits st)
          {| error_index := hl_index st; error_path := Some path;
             error_reason := count_mismatch path (hl_header st) |} resume
        else {| sec_edits := hl_edits st; sec_errors := []; sec_notes := [];
                sec_ordinal := hl_index st; sec_next := hl_next st |}
    end.
End Hunks.

(** * Header lines: unidiff/headers.rs *)

Module Headers.

Definition NEW_HEADER : str := lit "+++ ".
Definition BINARY_LITERAL : str := lit "GIT binary patch".
Definition BINARY_TEXT : str := lit "Binary files ".
Definition RENAME_HEADERS : list str :=
  [lit "rename from "; lit "rename to "; lit "copy from "; lit "copy to "].
Definition IGNORED_HEADERS : list str :=
  [lit "index "; lit "similarity index "; lit "dissimilarity index "; lit "old mode "; lit "new mode ";
   lit "new file mode "; lit "deleted file mode "].
Definition SEPARATOR : str := lit " b/".

Record Headers := {
  named : option str;
  old_raw : option str;
  new_raw : option str;
  renamed : bool;
  binary : bool;
  header_reason : option str;
  next : nat;
  git_section : bool
}.

Inductive Stop :=
| StopCrlf (reason : str)
| StopBinary
| StopUnrecognised (reason : str).

Inductive Line :=
| LineEnd
| LinePair (old new : option str)
| LineRename
| LineIgnored
| LineStop (stop : Stop).

(** The [---] and [+++] texts after this line: only the first header of each kind is read. *)
Definition path_line (line : str) (old_raw new_raw : option str) : option (option str * option str) :=
  match old_raw, strip_prefix OLD_HEADER line with
  | None, Some old => Some (Some old, new_raw)
  | _, _ =>
      match new_raw, strip_prefix NEW_HEADER line with
      | None, Some new => Some (old_raw, Some new)
      | _, _ => None
      end
  end.

Definition agreed (rest : str) (ats : list nat) : option str :=
  let found := List.find (fun split =>
    let tail := drop (split + length SEPARATOR) rest in
    is_nonempty tail && bool_decide (strip_prefix (lit "a/") (take split rest) = Some tail)) ats in
  match found with
  | Some split => Some (drop (split + length SEPARATOR) rest)
  | None => None
  end.

Definition diff_git_path (line : str) : option str :=
  let rest := drop (length DIFF_GIT) line in
  if starts_with [c_dquote] rest then None
  else
    let tail := match match_indices SEPARATOR rest with
                | [] => None
                | [at_] => Some (drop (at_ + length SEPARATOR) rest)
                | ats => agreed rest ats
                end in
    match tail with
    | Some tail => if is_nonempty tail then Some tail else None
    | None => None
    end.

Definition header_line (line : str) (old_raw new_raw : option str) : Line :=
  if starts_with (lit "@@") line then LineEnd
  else
    match path_line line old_raw new_raw with
    | Some (old, new) =>
        match crlf line with
        | Some reason => LineStop (StopCrlf reason)
        | None => LinePair old new
        end
    | None =>
        if bool_decide (line = BINARY_LITERAL) || starts_with BINARY_TEXT line then LineStop StopBinary
        else if any (fun header => starts_with header line) RENAME_HEADERS then LineRename
        else if any (fun header => starts_with header line) IGNORED_HEADERS then LineIgnored
        else if negb (is_nonempty line) || opens_section line then LineEnd
        else LineStop (StopUnrecognised
          (lit "unrecognised header line in this file's diff: " ++ quoted_str line))
    end.

(** The headers before the first line after the opener. *)
Definition opening (line : str) (at_ : nat) : Headers :=
  let git_section := starts_with DIFF_GIT line in
  if git_section then
    {| named := match crlf line with None => diff_git_path line | Some _ => None end;
       old_raw := None; new_raw := None; renamed := false; binary := false;
       header_reason := crlf line; next := at_ + 1; git_section := true |}
  else
    {| named := None; old_raw := None; new_raw := None; renamed := false; binary := false;
       header_reason := None; next := at_; git_section := false |}.

Definition stopped (read : Headers) (stop : Stop) : Headers :=
  let after := next read + 1 in
  match stop with
  | StopCrlf reason =>
      {| named := named read; old_raw := None; new_raw := None; renamed := false; binary := binary read;
         header_reason := Some reason; next := after; git_section := git_section read |}
  | StopBinary =>
      {| named := named read; old_raw := old_raw read; new_raw := new_raw read; renamed := renamed read;
         binary := true; header_reason := header_reason read; next := after; git_section := git_section read |}
  | StopUnrecognised reason =>
      {| named := named read; old_raw := old_raw read; new_raw := new_raw read; renamed := renamed read;
         binary := binary read; header_reason := Some reason; next := after; git_section := git_section read |}
  end.

Definition with_pair (read : Headers) (old new : option str) : Headers :=
  {| named := named read; old_raw := old; new_raw := new; renamed := renamed read; binary := binary read;
     header_reason := header_reason read; next := next read; git_section := git_section read |}.
Definition with_rename (read : Headers) : Headers :=
  {| named := named read; old_raw := old_raw read; new_raw := new_raw read; renamed := true;
     binary := binary read; header_reason := header_reason read; next := next read;
     git_section := git_section read |}.
Definition with_next (read : Headers) : Headers :=
  {| named := named read; old_raw := old_raw read; new_raw := new_raw read; renamed := renamed read;
     binary := binary read; header_reason := header_reason read; next := next read + 1;
     git_section := git_section read |}.

(** The loop of [headers] over the lines that are left. *)
Fixpoint headers_loop (rest : list str) (read : Headers) : Headers :=
  match rest with
  | [] => read
  | line :: rest =>
      match header_line line (old_raw read) (new_raw read) with
      | LineEnd => read
      | LinePair old new => headers_loop rest (with_next (with_pair read old new))
      | LineRename => headers_loop rest (with_next (with_rename read))
      | LineIgnored => headers_loop rest (with_next read)
      | LineStop stop => stopped read stop
      end
  end.

Definition headers (lines : list str) (at_ : nat) : Headers :=
  let read := opening (nth at_ lines []) at_ in
  match header_reason read with
  | Some _ => read
  | None => headers_loop (drop (next read) lines) read
  end.
End Headers.

(** * Sections: unidiff.rs *)

Record Side := { side_path : option str; side_reason : option str; side_raw : str }.

Definition side (raw prefix : str) : Side :=
  let value := default raw (head (split_char 9 raw)) in
  let refusal reason := {| side_path := None; side_reason := Some reason; side_raw := value |} in
  if starts_with [c_dquote] value
  then refusal (lit "the diff names a C-quoted path (" ++ value ++
    lit "); this reader does not decode those escapes, because decoding one wrong attributes findings to the wrong file")
  else if bool_decide (value = DEV_NULL)
  then {| side_path := None; side_reason := None; side_raw := value |}
  else
    let path := default value (strip_prefix prefix value) in
    if negb (is_nonempty path)
    then refusal (lit "the diff has an empty path on one side of its '---'/'+++' pair")
    else {| side_path := Some path; side_reason := None; side_raw := value |}.

(** The file that a refusal or a note names. *)
Definition label (read : Headers.Headers) : option str :=
  let path_of raw prefix := raw ← raw; side_path (side raw prefix) in
  match path_of (Headers.new_raw read) (lit "b/") with
  | Some path => Some path
  | None =>
      match path_of (Headers.old_raw read) (lit "a/") with
      | Some path => Some path
      | None => Headers.named read
      end
  end.

Definition two_paths (old new : Side) : str :=
  let before := default [] (side_path old) in
  let after := default [] (side_path new) in
  if bool_decide (side_raw old = side_raw new)
  then lit "this section's '---' and '+++' headers both name " ++ side_raw old ++
    lit ", and only one of them carries the 'a/' or 'b/' prefix git adds, so the two sides resolve to " ++
    before ++ lit " and " ++ after ++
    lit "; regenerate the diff with git's default prefixes (drop --no-prefix)"
  else lit "this section renames " ++ before ++ lit " to " ++ after ++
    lit ", which one edit cannot express because an edit carries a single path; lint the content change separately".

Definition paths_then_hunks (lines : list str) (old_raw new_raw : str) (at_ : nat) (label : option str)
  (ordinal : Z) (resume : nat) : option FileSection :=
  let old := side old_raw (lit "a/") in
  let new := side new_raw (lit "b/") in
  match match side_reason old with Some reason => Some reason | None => side_reason new end with
  | Some reason => Some (section_error label ordinal resume reason)
  | None =>
      let different := match side_path old, side_path new with
                       | Some before, Some after => negb (bool_decide (before = after))
                       | _, _ => false
                       end in
      if different then Some (section_error label ordinal resume (two_paths old new))
      else
        match match side_path new with Some after => Some after | None => side_path old end with
        | None => Some (section_error label ordinal resume
            (lit "both sides of this section are /dev/null, so it names no file at all"))
        | Some path =>
            let target := {| Hunks.target_path := path;
                             Hunks.new_file := match side_path old with None => true | Some _ => false end |} in
            Hunks.hunks lines at_ target ordinal resume
        end
  end.

Definition without_pair (lines : list str) (read : Headers.Headers) (label : option str) (ordinal : Z)
  (resume : nat) : FileSection :=
  if (match Headers.old_raw read with Some _ => true | None => false end)
     || (match Headers.new_raw read with Some _ => true | None => false end)
  then section_error label ordinal resume
    (lit "this section has only one of the '---' and '+++' headers, so which file it changes is not stated")
  else if match lines !! Headers.next read with Some line => starts_with (lit "@@") line | None => false end
  then section_error label ordinal resume
    (lit "this section has hunks but neither a '---' nor a '+++' header, so the file they change is not stated; a mode-only change carries no hunks")
  else
    match label with
    | None => section_error None ordinal resume
        (lit "this section names no file: no '---'/'+++' pair and no 'diff --git' header")
    | Some label => section_note label ordinal resume
        (lit "mode change only, so there is no content to check")
    end.

Fixpoint skip_to_next_section (fuel : nat) (lines : list str) (at_ : nat) (git_only : bool) : option nat :=
  match fuel with
  | O => None
  | S fuel' =>
      match lines !! at_ with
      | None => Some (length lines)
      | Some line =>
          if starts_with DIFF_GIT line || negb git_only && opens_section line then Some at_
          else
            let end_ := if starts_with (lit "@@") line then Hunks.end_of_hunk lines at_ else None in
            skip_to_next_section fuel' lines (default (at_ + 1) end_) git_only
      end
  end.

Definition file_section (lines : list str) (at_ : nat) (ordinal : Z) : option FileSection :=
  let read := Headers.headers lines at_ in
  resume ← skip_to_next_section (S (length lines)) lines (Headers.next read) (Headers.git_section read);
  let label := label read in
  match Headers.header_reason read with
  | Some reason => Some (section_error label ordinal resume reason)
  | None =>
      if Headers.binary read
      then Some (section_note (default [] label) ordinal resume (lit "binary, so there is no text to check"))
      else if Headers.renamed read
      then Some (section_error label ordinal resume
        (lit "this section renames or copies a file, which one edit cannot express because an edit carries a single path; lint the content change separately from the rename"))
      else
        match Headers.old_raw read, Headers.new_raw read with
        | Some old, Some new => paths_then_hunks lines old new (Headers.next read) label ordinal resume
        | _, _ => Some (without_pair lines read label ordinal resume)
        end
  end.

(** The variables of the loop of [parse_unified_diff]. *)
Record DiffLoop := { dl_parsed : DiffParse; dl_at : nat; dl_ordinal : Z; dl_sections : nat }.

Definition extend (parsed : DiffParse) (section : FileSection) : DiffParse :=
  {| diff_result :=
       {| parse_edits := parse_edits (diff_result parsed) ++ sec_edits section;
          parse_errors := parse_errors (diff_result parsed) ++ sec_errors section |};
     diff_notes := diff_notes parsed ++ sec_notes section |}.

(** The loop: its variables at the end of the lines, or the refusal of a combined diff. *)
Fixpoint diff_loop (fuel : nat) (lines : list str) (st : DiffLoop) : option (result DiffLoop DiffParse) :=
  match fuel with
  | O => None
  | S fuel' =>
      match lines !! dl_at st with
      | None => Some (Ok st)
      | Some line =>
          if any (fun opener => starts_with opener line) COMBINED
          then Some (Err (refused
            (lit "this is a combined (merge) diff, which names two pre-images per hunk; lint the diff against one parent instead")))
          else if negb (opens_section line)
          then diff_loop fuel' lines
            {| dl_parsed := dl_parsed st; dl_at := dl_at st + 1; dl_ordinal := dl_ordinal st;
               dl_sections := dl_sections st |}
          else
            section ← file_section lines (dl_at st) (dl_ordinal st);
            diff_loop fuel' lines
              {| dl_parsed := extend (dl_parsed st) section; dl_at := sec_next section;
                 dl_ordinal := sec_ordinal section; dl_sections := dl_sections st + 1 |}
      end
  end.

Definition no_parse : DiffParse :=
  {| diff_result := {| parse_edits := []; parse_errors := [] |}; diff_notes := [] |}.

Definition parse_unified_diff (text : str) : option DiffParse :=
  let lines := diff_lines text in
  loop ← diff_loop (S (length lines)) lines
    {| dl_parsed := no_parse; dl_at := 0; dl_ordinal := 0; dl_sections := 0 |};
  Some match loop with
  | Err refusal => refusal
  | Ok st =>
      if dl_sections st =? 0
      then refused (lit "no file sections found: this does not look like a unified diff (expected a 'diff --git' or a '---' header naming a file)")
      else dl_parsed st
  end.

(** ** Orientation *)

Definition present (text block : str) : bool := is_nonempty (whole_line_starts (pad text) block).

Definition misoriented (edit : Edit) (text : str) : option str :=
  let path := edit_path edit in
  if negb (is_nonempty (edit_search edit))
  then Some (path ++ lit " is added by this diff but already exists in --repo, so --repo is not the diff's base; " ++
    REMEDY)
  else if present text (edit_search edit) then None
  else if is_nonempty (edit_replace edit) && present text (edit_replace edit)
  then Some (path ++ lit " already contains this hunk's post-image, so the diff is already applied to --repo and the checks would compare the change against itself; " ++
    REMEDY)
  else Some (lit "neither this hunk's pre-image nor its post-image is in " ++ path ++
    lit " as --repo has it, so this diff is not against --repo; " ++ REMEDY).

(** The loop of [orientation]: the paths reported and the problems so far. *)
Definition orient (texts : gmap str str) (st : gset str * list BlockError) (edit : Edit)
  : gset str * list BlockError :=
  let '(reported, problems) := st in
  if bool_decide (edit_path edit ∈ reported) then st
  else
    match texts !! edit_path edit with
    | None => st
    | Some text =>
        match misoriented edit text with
        | None => st
        | Some reason =>
            ({[edit_path edit]} ∪ reported,
             problems ++ [{| error_index := edit_index edit; error_path := Some (edit_path edit);
                             error_reason := reason |}])
        end
    end.

Definition orientation (edits : list Edit) (texts : gmap str str) : list BlockError :=
  (foldl (orient texts) (∅, []) edits).2.

Example parse_small : parse_unified_diff (lit "diff --git a/x b/x
--- a/x
+++ b/x
@@ -1,2 +1,2 @@
 keep
-old
+new
") = Some {| diff_result := {| parse_edits := [{| edit_index := 0; edit_path := lit "x";
   edit_search := lit "keep
old"; edit_replace := lit "keep
new" |}]; parse_errors := [] |}; diff_notes := [] |}.
Proof. vm_compute. reflexivity. Qed.

(** * Progress and numbering *)

Lemma take_while_length {A} (f : A -> bool) l : length (take_while f l) <= length l.
Proof. induction l as [|x l IH]; simpl; [done|]. destruct (f x); simpl; lia. Qed.

Lemma body_loop_next rest next path header t t' next' rest' :
  Hunks.body_loop rest next path header t = Ok (t', next', rest') ->
  exists consumed, rest = consumed ++ rest' /\ next' = next + length consumed.
Proof.
  revert next t. induction rest as [|line rest IH]; intros next t; cbn [Hunks.body_loop];
    destruct (negb (Hunks.open t)).
  - intros [= -> -> <-]. exists []. simpl. auto with lia.
  - done.
  - intros [= -> -> <-]. exists []. simpl. auto with lia.
  - intros H.
    assert (exists t1, Hunks.body_loop rest (next + 1) path header t1 = Ok (t', next', rest')) as [t1 (c & -> & ->)%IH].
    { destruct (starts_with _ line); [eauto|]. destruct (Hunks.marked line) as [m content].
      destruct (Hunks.fits t m) as [[]|]; [eauto|done..]. }
    exists (line :: c). simpl. auto with lia.
Qed.

Lemma hunk_body_next lines at_ counts path header body :
  Hunks.hunk_body lines at_ counts path header = Ok body ->
  at_ <= Hunks.body_next body <= Nat.max at_ (length lines).
Proof.
  unfold Hunks.hunk_body. intros ([[t next] rest] & H & [= <-])%result_bind_Ok. simpl.
  apply body_loop_next in H as (c & Hd & ->). apply (f_equal length) in Hd.
  rewrite length_drop, length_app in Hd. pose proof (take_while_length (starts_with Hunks.NO_NEWLINE) rest). lia.
Qed.

Lemma end_of_hunk_next lines at_ e :
  Hunks.end_of_hunk lines at_ = Some e -> at_ < e <= Nat.max (at_ + 1) (length lines).
Proof.
  unfold Hunks.end_of_hunk. intros (counts & _ & H)%bind_Some.
  destruct (Hunks.hunk_body _ _ _ _ _) as [body|] eqn:E; [|done]. injection H as <-.
  apply hunk_body_next in E. lia.
Qed.

Lemma hunk_spec lines at_ target i floor edit after raised :
  Hunks.hunk lines at_ target i floor = Ok (edit, after, raised) ->
  at_ < after <= Nat.max (at_ + 1) (length lines) /\ edit_index edit = i.
Proof.
  unfold Hunks.hunk. intros (counts & _ & H)%result_bind_Ok. apply result_bind_Ok in H as (body & Hb & H).
  destruct (Hunks.hunk_body _ _ _ _ _) as [body'|] eqn:E; [|done]. injection Hb as ->.
  apply hunk_body_next in E. destruct (match lines !! _ with Some _ => _ | None => _ end); [done|].
  injection H as <- <- _. simpl. split; [lia|done].
Qed.

Lemma hunk_error lines at_ target i floor e :
  Hunks.hunk lines at_ target i floor = Err e -> error_index e = i.
Proof.
  unfold Hunks.hunk. intros [H|(counts & _ & H)]%result_bind_Err.
  { destruct (Hunks.hunk_counts _ _ _); [done|]. by injection H as <-. }
  apply result_bind_Err in H as [H|(body & _ & H)].
  - destruct (Hunks.hunk_body _ _ _ _ _); [done|]. by injection H as <-.
  - destruct (match lines !! _ with Some _ => _ | None => _ end); [|done]. by injection H as <-.
Qed.

(** The indices of a section's edits count up from [ordinal], its one error if any is the
    next, and the section's ordinal is the first that is free. *)
Definition numbered (ordinal : Z) (s : FileSection) : Prop :=
  edit_index <$> sec_edits s = (fun i => ordinal + Z.of_nat i)%Z <$> seq 0 (length (sec_edits s)) /\
  let free := (ordinal + Z.of_nat (length (sec_edits s)))%Z in
  (sec_errors s = [] /\ sec_ordinal s = free \/
   exists e, sec_errors s = [e] /\ error_index e = free /\ sec_ordinal s = (free + 1)%Z).

Lemma section_error_numbered path ordinal at_ reason : numbered ordinal (section_error path ordinal at_ reason).
Proof. split; [done|]. right. eexists. split; [done|]. simpl. lia. Qed.

Lemma section_note_numbered path ordinal at_ reason : numbered ordinal (section_note path ordinal at_ reason).
Proof. split; [done|]. left. simpl. split; [done|lia]. Qed.

Definition loop_numbered (ordinal : Z) (edits : list Edit) (i : Z) : Prop :=
  edit_index <$> edits = (fun i => ordinal + Z.of_nat i)%Z <$> seq 0 (length edits) /\
  i = (ordinal + Z.of_nat (length edits))%Z.

Lemma loop_numbered_snoc ordinal edits i e :
  loop_numbered ordinal edits i -> edit_index e = i -> loop_numbered ordinal (edits ++ [e]) (i + 1).
Proof.
  intros [He ->] Hi. split.
  - rewrite fmap_app, He, length_app, seq_app, fmap_app. simpl. by rewrite Hi.
  - rewrite length_app. simpl. lia.
Qed.

Lemma opens_hunk_lt lines at_ : Hunks.opens_hunk lines at_ = true -> at_ < length lines.
Proof. unfold Hunks.opens_hunk. destruct (lines !! at_) eqn:E; [|done]. intros _. by eapply lookup_lt_Some. Qed.

Lemma hunks_loop_spec fuel lines target ordinal st :
  length lines - Hunks.hl_next st < fuel ->
  loop_numbered ordinal (Hunks.hl_edits st) (Hunks.hl_index st) ->
  exists r, Hunks.hunks_loop fuel lines target st = Some r /\
    match r with
    | Ok st' => Hunks.hl_next st <= Hunks.hl_next st' /\
        loop_numbered ordinal (Hunks.hl_edits st') (Hunks.hl_index st')
    | Err (edits, refusal) => loop_numbered ordinal edits (error_index refusal)
    end.
Proof.
  revert st. induction fuel as [|fuel IH]; intros st Hf Hn; [lia|]. cbn [Hunks.hunks_loop].
  destruct (Hunks.opens_hunk lines (Hunks.hl_next st)) eqn:Eo; cbn [negb];
    [|exists (Ok st); split; [done|]; simpl; split; [lia|done]].
  apply opens_hunk_lt in Eo.
  destruct (Hunks.hunk _ _ _ _ _) as [[[edit after] raised]|refusal] eqn:Eh.
  - apply hunk_spec in Eh as [Ha Hi].
    destruct (IH {| Hunks.hl_edits := Hunks.hl_edits st ++ [edit]; Hunks.hl_next := after;
      Hunks.hl_index := Hunks.hl_index st + 1; Hunks.hl_floor := raised;
      Hunks.hl_header := nth (Hunks.hl_next st) lines [] |}) as (r & Hr & Hs).
    + simpl. lia.
    + simpl. by apply loop_numbered_snoc.
    + exists r. split; [done|]. destruct r as [st'|[edits refusal]]; [|done]. simpl in Hs.
      destruct Hs. split; [lia|done].
  - apply hunk_error in Eh. eexists. split; [done|]. simpl. by rewrite Eh.
Qed.

Lemma refused_section_numbered ordinal edits refusal resume :
  loop_numbered ordinal edits (error_index refusal) -> numbered ordinal (Hunks.refused_section edits refusal resume).
Proof. intros [He Hi]. split; [done|]. right. exists refusal. simpl. rewrite <-Hi. done. Qed.

Lemma hunks_spec lines at_ target ordinal resume :
  at_ <= resume ->
  exists s, Hunks.hunks lines at_ target ordinal resume = Some s /\ numbered ordinal s /\ at_ <= sec_next s.
Proof.
  intros Hres. unfold Hunks.hunks. destruct (negb _).
  { eexists. split; [done|]. split; [apply section_error_numbered|simpl; lia]. }
  destruct (hunks_loop_spec (S (length lines)) lines target ordinal {| Hunks.hl_edits := []; Hunks.hl_next := at_;
    Hunks.hl_index := ordinal; Hunks.hl_floor := natural_zero; Hunks.hl_header := nth at_ lines [] |})
    as (r & -> & Hr).
  { simpl. lia. }
  { split; [done|]. simpl. lia. }
  simpl. eexists. split; [done|]. destruct r as [st|[edits refusal]]; simpl in Hr.
  - destruct Hr as [Hle Hn]. destruct (Hunks.unread_content _ _ _).
    + split; [by apply refused_section_numbered|simpl; lia].
    + destruct Hn as [He Hi]. split; [|done]. split; [done|]. left. done.
  - split; [by apply refused_section_numbered|simpl; lia].
Qed.

(** ** Headers *)

Lemma headers_loop_next rest read :
  Headers.next read <= Headers.next (Headers.headers_loop rest read) <= Headers.next read + length rest.
Proof.
  revert read. induction rest as [|line rest IH]; intros read; cbn [Headers.headers_loop]; [simpl; lia|].
  destruct (Headers.header_line _ _ _) as [|old new| | |stop].
  - simpl. lia.
  - specialize (IH (Headers.with_next (Headers.with_pair read old new))). simpl in *. lia.
  - specialize (IH (Headers.with_next (Headers.with_rename read))). simpl in *. lia.
  - specialize (IH (Headers.with_next read)). simpl in *. lia.
  - destruct stop; simpl; lia.
Qed.

Lemma opens_section_cases line :
  opens_section line = true -> starts_with DIFF_GIT line = true \/
  exists old, strip_prefix OLD_HEADER line = Some old /\ starts_with (lit "@@") line = false.
Proof.
  unfold opens_section. intros [H|[H _]%andb_true_iff]%orb_true_iff; [by left|]. right.
  unfold starts_with in H. destruct (strip_prefix OLD_HEADER line) as [old|] eqn:E; [|done].
  exists old. split; [done|]. apply strip_prefix_Some in E as ->. done.
Qed.

(** The header block of a section takes at least the line that opens it. *)
Lemma headers_next lines at_ line :
  lines !! at_ = Some line -> opens_section line = true ->
  at_ < Headers.next (Headers.headers lines at_) <= length lines.
Proof.
  intros Hl Ho. pose proof (lookup_lt_Some _ _ _ Hl) as Hlt. unfold Headers.headers.
  rewrite (nth_lookup_Some _ _ _ _ Hl). unfold Headers.opening.
  destruct (opens_section_cases line Ho) as [Hg|(old & Hold & Hat)].
  - rewrite Hg. cbn [Headers.header_reason Headers.next]. destruct (crlf line); [simpl; lia|].
    set (read := Headers.Build_Headers _ _ _ _ _ _ _ _).
    pose proof (headers_loop_next (drop (at_ + 1) lines) read) as H. rewrite length_drop in H. simpl in H. lia.
  - destruct (starts_with DIFF_GIT line) eqn:Eg.
    { apply strip_prefix_Some in Hold as ->. done. }
    cbn [Headers.header_reason Headers.next].
    rewrite (drop_S _ _ _ Hl). cbn [Headers.headers_loop Headers.old_raw Headers.new_raw].
    unfold Headers.header_line. rewrite Hat. unfold Headers.path_line. rewrite Hold.
    destruct (crlf line); [simpl; lia|]. set (read := Headers.with_next _).
    pose proof (headers_loop_next (drop (S at_) lines) read) as H. rewrite length_drop in H.
    unfold read in *. simpl in H |- *. lia.
Qed.

Lemma skip_spec fuel lines at_ git_only :
  length lines - at_ < fuel -> at_ <= length lines ->
  exists r, skip_to_next_section fuel lines at_ git_only = Some r /\ at_ <= r <= length lines.
Proof.
  revert at_. induction fuel as [|fuel IH]; intros at_ Hf Hle; [lia|]. cbn [skip_to_next_section].
  destruct (lines !! at_) as [line|] eqn:El; [|eexists; split; [done|lia]].
  apply lookup_lt_Some in El. destruct (_ || _); [eexists; split; [done|lia]|].
  set (e := default (at_ + 1) _).
  assert (at_ < e <= length lines) as He.
  { unfold e. destruct (starts_with _ line); [|simpl; lia].
    destruct (Hunks.end_of_hunk lines at_) as [e'|] eqn:Ee; [|simpl; lia].
    apply end_of_hunk_next in Ee. simpl. lia. }
  destruct (IH e ltac:(lia) ltac:(lia)) as (r & -> & Hr). eexists. split; [done|lia].
Qed.

Lemma file_section_spec lines at_ line ordinal :
  lines !! at_ = Some line -> opens_section line = true ->
  exists s, file_section lines at_ ordinal = Some s /\ numbered ordinal s /\ at_ < sec_next s.
Proof.
  intros Hl Ho. pose proof (headers_next _ _ _ Hl Ho) as Hn. unfold file_section.
  set (read := Headers.headers lines at_) in *.
  destruct (skip_spec (S (length lines)) lines (Headers.next read) (Headers.git_section read)) as (resume & -> & Hr);
    [lia|lia|]. cbn [mbind option_bind].
  assert (forall path reason, exists s, Some (section_error path ordinal resume reason) = Some s /\
    numbered ordinal s /\ at_ < sec_next s) as Herr.
  { intros path reason. eexists. split; [done|]. split; [apply section_error_numbered|simpl; lia]. }
  assert (forall path reason, exists s, Some (section_note path ordinal resume reason) = Some s /\
    numbered ordinal s /\ at_ < sec_next s) as Hnote.
  { intros path reason. eexists. split; [done|]. split; [apply section_note_numbered|simpl; lia]. }
  destruct (Headers.header_reason read); [apply Herr|].
  destruct (Headers.binary read); [apply Hnote|]. destruct (Headers.renamed read); [apply Herr|].
  assert (exists s, Some (without_pair lines read (label read) ordinal resume) = Some s /\
    numbered ordinal s /\ at_ < sec_next s) as Hwp.
  { unfold without_pair. destruct (_ || _); [apply Herr|].
    destruct (match lines !! _ with Some _ => _ | None => _ end); [apply Herr|].
    destruct (label read); [apply Hnote|apply Herr]. }
  destruct (Headers.old_raw read) as [old|]; [|done]. destruct (Headers.new_raw read) as [new|]; [|done].
  unfold paths_then_hunks. destruct (match side_reason _ with Some _ => _ | None => _ end); [apply Herr|].
  destruct (match side_path _ with Some _ => _ | None => false end); [apply Herr|].
  destruct (match side_path _ with Some _ => _ | None => side_path _ end); [|apply Herr].
  set (target := Hunks.Build_Target _ _).
  destruct (hunks_spec lines (Headers.next read) target ordinal resume ltac:(lia)) as (s & Hs & Hnum & Hle).
  exists s. split; [done|]. split; [done|lia].
Qed.

(** ** The diff *)

Lemma accounted_pushes r n edits :
  accounted r n -> edit_index <$> edits = (fun i => Z.of_nat n + Z.of_nat i)%Z <$> seq 0 (length edits) ->
  accounted {| parse_edits := parse_edits r ++ edits; parse_errors := parse_errors r |} (n + length edits).
Proof.
  intros Ha. induction edits as [|e edits IH] using rev_ind; intros Hi.
  - rewrite app_nil_r, Nat.add_0_r. by destruct r.
  - rewrite length_app, seq_app, !fmap_app in Hi. apply app_inj_2 in Hi as [Hi He]; [|done].
    injection He as He. simpl in He. specialize (IH Hi). rewrite length_app, app_assoc. simpl length.
    rewrite Nat.add_assoc, Nat.add_1_r.
    apply (accounted_push {| parse_edits := parse_edits r ++ edits; parse_errors := parse_errors r |} _ (Ok e));
      [done|]. simpl. lia.
Qed.

Lemma accounted_extend parsed s n :
  accounted (diff_result parsed) n -> numbered (Z.of_nat n) s ->
  exists n', accounted (diff_result (extend parsed s)) n' /\ sec_ordinal s = Z.of_nat n'.
Proof.
  intros Ha [He Herr]. pose proof (accounted_pushes _ _ _ Ha He) as Hp.
  destruct Herr as [[Hx Ho]|(e & Hx & Hi & Ho)].
  - exists (n + length (sec_edits s)). unfold extend. simpl. rewrite Hx, app_nil_r. split; [done|lia].
  - exists (S (n + length (sec_edits s))). split; [|lia]. unfold extend. simpl. rewrite Hx.
    apply (accounted_push _ _ (Err e)) in Hp; [done|]. simpl. lia.
Qed.

Lemma diff_loop_spec fuel lines st n :
  length lines - dl_at st < fuel -> accounted (diff_result (dl_parsed st)) n -> dl_ordinal st = Z.of_nat n ->
  exists r, diff_loop fuel lines st = Some r /\
    match r with
    | Ok st' => exists n', accounted (diff_result (dl_parsed st')) n'
    | Err refusal => accounted (diff_result refusal) 1
    end.
Proof.
  revert st n. induction fuel as [|fuel IH]; intros st n Hf Ha Ho; [lia|]. cbn [diff_loop].
  destruct (lines !! dl_at st) as [line|] eqn:El; [|exists (Ok st); by eauto]. pose proof (lookup_lt_Some _ _ _ El).
  destruct (any _ _).
  { eexists. split; [done|]. apply (accounted_push no_parse.(diff_result) 0 (Err _)); [|done].
    split; [done|]. split; constructor. }
  destruct (opens_section line) eqn:Eo; cbn [negb].
  - destruct (file_section_spec lines (dl_at st) line (dl_ordinal st) El Eo) as (s & -> & Hn & Hlt).
    cbn [mbind option_bind]. rewrite Ho in Hn. destruct (accounted_extend _ _ _ Ha Hn) as (n' & Ha' & Hn').
    apply (IH _ n'); simpl; [lia|done|done].
  - apply (IH _ n); simpl; [lia|done|done].
Qed.

(** Reading a unified diff always ends, and every hunk and refusal is accounted for: the
    indices of the edits and of the errors are those below their number, each once and in
    order, whatever the text. *)
Theorem parse_unified_diff_total text :
  exists d n, parse_unified_diff text = Some d /\ accounted (diff_result d) n.
Proof.
  unfold parse_unified_diff. set (lines := diff_lines text).
  assert (accounted (diff_result no_parse) 0) as H0 by (split; [done|]; split; constructor).
  destruct (diff_loop_spec (S (length lines)) lines
    {| dl_parsed := no_parse; dl_at := 0; dl_ordinal := 0; dl_sections := 0 |} 0) as (r & -> & Hr); [simpl; lia|done|done|].
  cbn [mbind option_bind]. destruct r as [st|refusal].
  - destruct Hr as [n Hn]. destruct (_ =? _); [|by exists (dl_parsed st), n].
    eexists _, 1. split; [done|]. by apply (accounted_push (diff_result no_parse) 0 (Err _)).
  - by exists refusal, 1.
Qed.

(** * Hunk bodies *)

(** A body line as its marker and its content, and the sides that some lines make. *)
Definition is_marker (m : char) : bool := any (is_char m) (lit " -+").
Definition old_lines (ops : list (char * str)) : list str :=
  map snd (List.filter (fun op => negb (is_char 43 op.1)) ops).
Definition new_lines (ops : list (char * str)) : list str :=
  map snd (List.filter (fun op => negb (is_char 45 op.1)) ops).

Lemma is_marker_cases m : is_marker m = true -> m = 32%Z \/ m = 45%Z \/ m = 43%Z.
Proof.
  unfold is_marker, any. simpl. rewrite !orb_true_iff, !is_char_true.
  vm_compute (Z.of_N _). naive_solver.
Qed.

(** The tally after the lines [ops]. *)
Definition add_ops (t : Hunks.Tally) (ops : list (char * str)) : Hunks.Tally :=
  {| Hunks.counts := Hunks.counts t; Hunks.limits := Hunks.limits t;
     Hunks.used := ((Hunks.used t).1 + Z.of_nat (length (old_lines ops)),
                    (Hunks.used t).2 + Z.of_nat (length (new_lines ops)))%Z;
     Hunks.sides := ((Hunks.sides t).1 ++ old_lines ops, (Hunks.sides t).2 ++ new_lines ops) |}.

Lemma add_ops_nil t : add_ops t [] = t.
Proof. destruct t as [? ? [? ?] [? ?]]. unfold add_ops. simpl. by rewrite !Z.add_0_r, !app_nil_r. Qed.

Lemma add_ops_cons t m c ops : is_marker m = true ->
  add_ops (Hunks.take_line m c t) ops = add_ops t ((m, c) :: ops).
Proof.
  intros Hm. destruct t as [? ? [u1 u2] [s1 s2]].
  destruct (is_marker_cases m Hm) as [-> | [-> | ->]]; unfold add_ops, old_lines, new_lines; simpl;
    rewrite <-?app_assoc; (f_equal; f_equal; lia).
Qed.

Definition within (limit : option Z) (used : Z) : Prop := match limit with Some l => (used <= l)%Z | None => True end.

(** A tally never takes more lines than it declares. *)
Definition tally_ok (t : Hunks.Tally) : Prop :=
  within (Hunks.limits t).1 (Hunks.used t).1 /\ within (Hunks.limits t).2 (Hunks.used t).2.

Lemma fits_marker t m b : Hunks.fits t m = Some b -> is_marker m = true.
Proof.
  unfold Hunks.fits, is_marker, any. simpl.
  repeat match goal with |- (if is_char ?c m then _ else _) = _ -> _ =>
    destruct (is_char c m) eqn:?; [match goal with H : is_char _ _ = true |- _ => apply is_char_true in H; subst end; done|] end.
  done.
Qed.

Lemma take_line_ok t m c : tally_ok t -> Hunks.fits t m = Some true -> tally_ok (Hunks.take_line m c t).
Proof.
  intros [H1 H2] Hf. pose proof (fits_marker _ _ _ Hf) as Hm.
  destruct t as [? [l1 l2] [u1 u2] [? ?]]. unfold Hunks.fits, Hunks.left_old, Hunks.left_new in Hf.
  unfold tally_ok in *. simpl in *.
  destruct (is_marker_cases m Hm) as [-> | [-> | ->]]; simpl in Hf |- *; injection Hf as Hf; bool_hyps;
    destruct l1, l2; simpl in *; repeat match goal with H : (_ <? _)%Z = true |- _ => apply Z.ltb_lt in H end;
    split; simpl; lia || done.
Qed.

(** What the loop of a body reads: lines that its markers give to the sides until the counts
    are used up, with no-newline markers between them. *)
Lemma body_loop_sound rest next path header t t' next' rest' :
  tally_ok t -> Hunks.body_loop rest next path header t = Ok (t', next', rest') ->
  exists consumed,
    rest = consumed ++ rest' /\ next' = next + length consumed /\
    let ops := map Hunks.marked (List.filter (fun line => negb (starts_with Hunks.NO_NEWLINE line)) consumed) in
    Forall (fun op => is_marker op.1 = true) ops /\ t' = add_ops t ops /\ tally_ok t' /\ Hunks.open t' = false.
Proof.
  revert next t. induction rest as [|line rest IH]; intros next t Hok; cbn [Hunks.body_loop];
    destruct (Hunks.open t) eqn:Eo; cbn [negb].
  - done.
  - intros [= -> -> <-]. exists []. simpl. rewrite add_ops_nil. auto 10 with lia.
  - destruct (starts_with Hunks.NO_NEWLINE line) eqn:En.
    + intros (c & -> & -> & H)%IH; [|done]. exists (line :: c). simpl. rewrite En. simpl. auto with lia.
    + destruct (Hunks.marked line) as [m content] eqn:Em. destruct (Hunks.fits t m) as [[]|] eqn:Ef; [|done..].
      intros (c & -> & -> & Hm & -> & H)%IH; [|by apply take_line_ok].
      pose proof (fits_marker _ _ _ Ef) as Hmk.
      exists (line :: c). simpl. rewrite En. simpl. rewrite Em. rewrite add_ops_cons in H |- * by done.
      split; [done|]. split; [lia|]. split; [by constructor|]. done.
  - intros [= -> -> <-]. exists []. simpl. rewrite add_ops_nil. auto 10 with lia.
Qed.

Lemma new_tally_ok co cn : wf co -> wf cn -> tally_ok (Hunks.new_tally (co, cn)).
Proof.
  intros Ho Hn. unfold tally_ok, Hunks.new_tally. simpl. rewrite !to_usize_spec by done.
  pose proof (value_nonneg _ Ho). pose proof (value_nonneg _ Hn). unfold checked_usize, within.
  destruct (value co <=? USIZE_MAX)%Z, (value cn <=? USIZE_MAX)%Z; done || lia.
Qed.

Lemma limit_reached n u : wf n -> within (to_usize n) u -> Hunks.below_limit (to_usize n) u = false -> u = value n.
Proof.
  intros Hn. rewrite to_usize_spec by done. unfold checked_usize, within, Hunks.below_limit.
  destruct (value n <=? USIZE_MAX)%Z; [|done]. intros ? ?%Z.ltb_ge. lia.
Qed.

Lemma take_while_Forall {A} (f : A -> bool) l : Forall (fun x => f x = true) (take_while f l).
Proof. induction l as [|x l IH]; simpl; [done|]. destruct (f x) eqn:E; by constructor. Qed.

(** A hunk body is consumed by exactly the counts of its header: the sides of the edit
    are the context and removed lines, as many as the old count, and the context and added
    lines, as many as the new count; no-newline markers are skipped; and the next line is
    the first that is neither counted nor such a marker. *)
Theorem hunk_body_exact lines at_ co cn path header body
  (Hco : wf co) (Hcn : wf cn) (Hbody : Hunks.hunk_body lines at_ (co, cn) path header = Ok body) :
  exists consumed markers rest,
    drop at_ lines = consumed ++ markers ++ rest /\
    Hunks.body_next body = at_ + length consumed + length markers /\
    Forall (fun line => starts_with Hunks.NO_NEWLINE line = true) markers /\
    match rest with line :: _ => starts_with Hunks.NO_NEWLINE line = false | [] => True end /\
    let ops := map Hunks.marked (List.filter (fun line => negb (starts_with Hunks.NO_NEWLINE line)) consumed) in
    Forall (fun op => is_marker op.1 = true) ops /\
    Hunks.body_search body = join_with [c_lf] (old_lines ops) /\
    Hunks.body_replace body = join_with [c_lf] (new_lines ops) /\
    Z.of_nat (length (old_lines ops)) = value co /\ Z.of_nat (length (new_lines ops)) = value cn.
Proof.
  unfold Hunks.hunk_body in Hbody. apply result_bind_Ok in Hbody as ([[t next] rest] & Hloop & [= <-]).
  apply body_loop_sound in Hloop as (consumed & Hd & -> & Hm & -> & [Ho Hn] & Hclosed); [|by apply new_tally_ok].
  set (ops := map _ _) in *. destruct (take_while_split (starts_with Hunks.NO_NEWLINE) rest) as (r & Hr & _ & Hh).
  exists consumed, (take_while (starts_with Hunks.NO_NEWLINE) rest), r. rewrite Hr in Hd at 1.
  unfold Hunks.open, Hunks.left_old, Hunks.left_new in Hclosed. apply orb_false_iff in Hclosed as [Hc1 Hc2].
  repeat split; simpl; try done; try apply take_while_Forall.
  - apply (limit_reached co); done.
  - apply (limit_reached cn); done.
Qed.

Lemma hunk_body_exact_witness :
  let lines := [lit "@@ -1,2 +1,1 @@"; lit " keep"; lit "-old"; lit "\ No newline at end of file"] in
  exists body, Hunks.hunk_body lines 1 ({| digits := [2%Z] |}, one) (lit "f") (lit "@@") = Ok body /\
  exists consumed markers rest,
    drop 1 lines = consumed ++ markers ++ rest /\
    Hunks.body_next body = 1 + length consumed + length markers /\
    Forall (fun line => starts_with Hunks.NO_NEWLINE line = true) markers /\
    match rest with line :: _ => starts_with Hunks.NO_NEWLINE line = false | [] => True end /\
    let ops := map Hunks.marked (List.filter (fun line => negb (starts_with Hunks.NO_NEWLINE line)) consumed) in
    Forall (fun op => is_marker op.1 = true) ops /\
    Hunks.body_search body = join_with [c_lf] (old_lines ops) /\
    Hunks.body_replace body = join_with [c_lf] (new_lines ops) /\
    Z.of_nat (length (old_lines ops)) = value {| digits := [2%Z] |} /\ Z.of_nat (length (new_lines ops)) = value one.
Proof.
  set (lines := [lit "@@ -1,2 +1,1 @@"; lit " keep"; lit "-old"; lit "\ No newline at end of file"]).
  exists {| Hunks.body_search := lit "keep" ++ [c_lf] ++ lit "old"; Hunks.body_replace := lit "keep"; Hunks.body_next := 4 |}.
  assert (Hunks.hunk_body lines 1 ({| digits := [2%Z] |}, one) (lit "f") (lit "@@") =
    Ok {| Hunks.body_search := lit "keep" ++ [c_lf] ++ lit "old"; Hunks.body_replace := lit "keep"; Hunks.body_next := 4 |})
    as Hb by (vm_compute; reflexivity).
  split; [exact Hb|]. apply (hunk_body_exact lines 1 _ _ (lit "f") (lit "@@")); [..|exact Hb].
  - split; [repeat constructor; lia|discriminate].
  - split; [repeat constructor; lia|discriminate].
Defined.

(** * Rendered diffs parse back *)

(** A hunk as git writes it: where its sides start, the section heading, and its body lines with
    their markers, each with whether the no-newline marker follows it. *)
Record HunkText := { h_old : Z; h_new : Z; h_heading : str; h_body : list (char * str * bool) }.

(** A file as git writes it: modified, with its modes when they change, created or removed; the
    object names of the index line; the hunks. *)
Inductive FileKind := Modified (modes : option (str * str)) | Created (mode : str) | Removed (mode : str).
Record FileText := { f_path : str; f_kind : FileKind; f_index : str; f_hunks : list HunkText }.

Definition h_ops (h : HunkText) : list (char * str) := map fst (h_body h).
Definition old_len (h : HunkText) : Z := Z.of_nat (length (old_lines (h_ops h))).
Definition new_len (h : HunkText) : Z := Z.of_nat (length (new_lines (h_ops h))).

(** A count of one line is left out. *)
Definition count_text (n : Z) : str := if (n =? 1)%Z then [] else lit "," ++ dec_text n.
Definition heading_text (heading : str) : str := match heading with [] => [] | _ => c_space :: heading end.
Definition hunk_header (h : HunkText) : str :=
  lit "@@ -" ++ dec_text (h_old h) ++ count_text (old_len h) ++ lit " +" ++ dec_text (h_new h) ++
  count_text (new_len h) ++ lit " @@" ++ heading_text (h_heading h).

Definition op_line (op : char * str) : str := op.1 :: op.2.
Definition NO_NEWLINE_LINE : str := [c_backslash; c_space] ++ lit "No newline at end of file".
Definition body_line (line : char * str * bool) : list str := op_line line.1 :: (if line.2 then [NO_NEWLINE_LINE] else []).
Definition body_lines (body : list (char * str * bool)) : list str := concat (map body_line body).
Definition hunk_lines (h : HunkText) : list str := hunk_header h :: body_lines (h_body h).
Definition hunks_lines (hs : list HunkText) : list str := concat (map hunk_lines hs).

(** A path with a space is ended by a tab. *)
Definition side_text (prefix path : str) : str := prefix ++ path ++ (if bool_decide (c_space ∈ path) then [9%Z] else []).
Definition old_text (f : FileText) : str := match f_kind f with Created _ => DEV_NULL | _ => side_text (lit "a/") (f_path f) end.
Definition new_text (f : FileText) : str := match f_kind f with Removed _ => DEV_NULL | _ => side_text (lit "b/") (f_path f) end.

Definition extended_lines (f : FileText) : list str :=
  match f_kind f with
  | Modified None => []
  | Modified (Some (old, new)) => [lit "old mode " ++ old; lit "new mode " ++ new]
  | Created mode => [lit "new file mode " ++ mode]
  | Removed mode => [lit "deleted file mode " ++ mode]
  end ++ [lit "index " ++ f_index f].

Definition file_lines (f : FileText) : list str :=
  (DIFF_GIT ++ lit "a/" ++ f_path f ++ lit " b/" ++ f_path f) :: extended_lines f ++
  (OLD_HEADER ++ old_text f) :: (Headers.NEW_HEADER ++ new_text f) :: hunks_lines (f_hunks f).
Definition diff_text (files : list FileText) : str :=
  concat (map (fun line => line ++ [c_lf]) (concat (map file_lines files))).

(** What git writes with context lines: each hunk has a pre-image that starts after the one before
    it, or creates its file; its lines have the three markers; its heading and the path are on one
    line without a final carriage return, and the path, which git would quote otherwise, has no tab. *)
Definition hunk_ok (created : bool) (floor : Z) (h : HunkText) : Prop :=
  ((created = false -> 0 < old_len h) /\ 0 < old_len h + new_len h /\ 0 <= floor <= h_old h /\ 0 <= h_new h /\
   Z.of_nat (length (h_body h)) <= USIZE_MAX)%Z /\
  (char_free c_lf (h_heading h) /\ ends_with_char (is_char c_cr) (h_heading h) = false) /\
  Forall (fun op => is_marker op.1 = true /\ char_free c_lf op.2) (h_ops h).
Fixpoint hunks_ok (created : bool) (floor : Z) (hs : list HunkText) : Prop :=
  match hs with
  | [] => True
  | h :: hs => hunk_ok created floor h /\ hunks_ok created (h_old h + old_len h) hs
  end.
Definition creates (f : FileText) : bool := match f_kind f with Created _ => true | _ => false end.
Definition file_ok (f : FileText) : Prop :=
  f_path f <> [] /\ char_free c_lf (f_path f) /\ char_free 9 (f_path f) /\
  ends_with_char (is_char c_cr) (f_path f) = false /\ f_hunks f <> [] /\ hunks_ok (creates f) 0 (f_hunks f) /\
  Forall (char_free c_lf) (extended_lines f).

(** The edits of the hunks of the files, numbered from [i]. *)
Fixpoint hunk_edits (i : Z) (path : str) (hs : list HunkText) : list Edit :=
  match hs with
  | [] => []
  | h :: hs => {| edit_index := i; edit_path := path; edit_search := join_with [c_lf] (old_lines (h_ops h));
                  edit_replace := join_with [c_lf] (new_lines (h_ops h)) |} :: hunk_edits (i + 1) path hs
  end.
Fixpoint diff_edits (i : Z) (files : list FileText) : list Edit :=
  match files with
  | [] => []
  | f :: fs => hunk_edits i (f_path f) (f_hunks f) ++ diff_edits (i + Z.of_nat (length (f_hunks f))) fs
  end.

(** ** One hunk *)

Lemma ltb_add_S u n : (u <? u + Z.of_nat (S n))%Z = true.
Proof. apply Z.ltb_lt. lia. Qed.

Definition limits_of (t : Hunks.Tally) (ops : list (char * str)) : option Z * option Z :=
  (Some ((Hunks.used t).1 + Z.of_nat (length (old_lines ops)))%Z, Some ((Hunks.used t).2 + Z.of_nat (length (new_lines ops)))%Z).

Lemma open_rendered t m c ops : is_marker m = true -> Hunks.limits t = limits_of t ((m, c) :: ops) ->
  Hunks.open t = true /\ Hunks.fits t m = Some true /\ starts_with Hunks.NO_NEWLINE (m :: c) = false.
Proof.
  intros Hm Hl. unfold Hunks.open, Hunks.fits, Hunks.left_old, Hunks.left_new. rewrite Hl.
  destruct (is_marker_cases m Hm) as [-> | [-> | ->]]; unfold limits_of, old_lines, new_lines; simpl; rewrite ?ltb_add_S, ?orb_true_r; done.
Qed.

Lemma closed_rendered t : Hunks.limits t = limits_of t [] -> Hunks.open t = false.
Proof.
  intros Hl. unfold Hunks.open, Hunks.left_old, Hunks.left_new. rewrite Hl. unfold limits_of, old_lines, new_lines. cbn [Hunks.below_limit fst snd List.filter map length].
  by rewrite !Z.add_0_r, !Z.ltb_irrefl.
Qed.

Lemma limits_take t m c ops : is_marker m = true -> Hunks.limits t = limits_of t ((m, c) :: ops) ->
  Hunks.limits (Hunks.take_line m c t) = limits_of (Hunks.take_line m c t) ops.
Proof.
  intros Hm Hl. destruct t as [? lim [? ?] [? ?]]. unfold limits_of in *. simpl in Hl. subst lim.
  destruct (is_marker_cases m Hm) as [-> | [-> | ->]]; unfold old_lines, new_lines; simpl; (f_equal; f_equal; lia).
Qed.

Lemma body_loop_rendered body rest next path header t :
  Forall (fun op => is_marker op.1 = true) (map fst body) -> Hunks.limits t = limits_of t (map fst body) ->
  exists tail next', Hunks.body_loop (body_lines body ++ rest) next path header t = Ok (add_ops t (map fst body), next', tail ++ rest) /\
    Forall (fun line => starts_with Hunks.NO_NEWLINE line = true) tail /\ next' + length tail = next + length (body_lines body).
Proof.
  revert next t. induction body as [|[[m c] eof] body IH]; intros next t Hm Hl.
  - exists [], next. simpl. rewrite add_ops_nil. split; [|split; [done|lia]]. destruct rest; simpl; by rewrite closed_rendered.
  - cbn [map fst] in *. apply Forall_cons in Hm as [Hm Hms]. simpl in Hm. destruct (open_rendered t m c _ Hm Hl) as (Ho & Hfit & Hnn).
    pose proof (limits_take t m c _ Hm Hl) as Hl'.
    assert (forall more, Hunks.body_loop ((m :: c) :: more) next path header t = Hunks.body_loop more (next + 1) path header (Hunks.take_line m c t)) as Hstep.
    { intros more. cbn [Hunks.body_loop]. rewrite Ho, Hnn. cbn [negb Hunks.marked]. by rewrite Hfit. }
    unfold body_lines. cbn [map concat body_line fst snd app]. change (op_line (m, c)) with (m :: c). rewrite Hstep. fold (body_lines body).
    rewrite <- add_ops_cons by done. destruct eof; cbn [app].
    + destruct body as [|line body].
      * exists [NO_NEWLINE_LINE], (next + 1). cbn [body_lines map concat app Hunks.body_loop]. rewrite closed_rendered by done. cbn [negb length]. rewrite add_ops_nil.
        split; [done|]. split; [by repeat constructor|lia].
      * assert (forall more n, Hunks.body_loop (NO_NEWLINE_LINE :: more) n path header (Hunks.take_line m c t) =
          Hunks.body_loop more (n + 1) path header (Hunks.take_line m c t)) as Hskip.
        { intros more n. cbn [Hunks.body_loop]. destruct line as [[m' c'] eof']. cbn [map fst] in *. apply Forall_cons in Hms as [Hm' _].
          by destruct (open_rendered _ m' c' _ Hm' Hl') as (-> & _ & _). }
        rewrite Hskip. destruct (IH (next + 1 + 1) (Hunks.take_line m c t) Hms Hl') as (tail & next' & -> & Ht & Hn).
        exists tail, next'. split; [done|]. split; [done|]. rewrite Hn. simpl. lia.
    + destruct (IH (next + 1) (Hunks.take_line m c t) Hms Hl') as (tail & next' & -> & Ht & Hn). exists tail, next'. split; [done|]. split; [done|]. rewrite Hn. simpl. lia.
Qed.

(** What the parser reads of a rendered header. *)
Definition counts_of (h : HunkText) : Hunks.Counts :=
  {| Hunks.old_start := from_usize (h_old h); Hunks.old_count := from_usize (old_len h);
     Hunks.new_count := from_usize (new_len h) |}.

Lemma header_count_rendered n s : (0 <= n)%Z -> match head s with Some c => is_decimal c = false /\ c <> 44%Z | None => True end ->
  Hunks.header_count (count_text n ++ s) = Some (from_usize n, s).
Proof.
  intros Hn Hs. unfold Hunks.header_count, count_text. destruct (Z.eqb_spec n 1) as [->|_].
  - destruct (strip_prefix (lit ",") ([] ++ s)) as [r|] eqn:E; [|by vm_compute (from_usize 1)].
    apply strip_prefix_Some in E. cbn [app] in E. subst s. by destruct Hs as [_ Hs].
  - rewrite <- app_assoc, strip_prefix_app. apply leading_dec_text; [done|]. destruct (head s); [by destruct Hs|done].
Qed.

Lemma count_text_head n s : match head s with Some c => is_decimal c = false | None => True end ->
  match head (count_text n ++ s) with Some c => is_decimal c = false | None => True end.
Proof. unfold count_text. by destruct (n =? 1)%Z. Qed.

Lemma parse_header_rendered h : (0 <= h_old h)%Z -> (0 <= h_new h)%Z ->
  Hunks.parse_header (hunk_header h) = Some (counts_of h).
Proof.
  intros Ho Hn. unfold Hunks.parse_header, hunk_header.
  assert (0 <= old_len h)%Z by (unfold old_len; lia). assert (0 <= new_len h)%Z by (unfold new_len; lia).
  rewrite strip_prefix_app. cbn [mbind option_bind].
  rewrite leading_dec_text by (done || by apply count_text_head). cbn [mbind option_bind].
  rewrite header_count_rendered by done. cbn [mbind option_bind].
  rewrite strip_prefix_app. cbn [mbind option_bind].
  rewrite leading_dec_text by (done || by apply count_text_head). cbn [mbind option_bind].
  rewrite header_count_rendered by done. cbn [mbind option_bind].
  by rewrite starts_with_app.
Qed.

Lemma ends_with_char_app f a b : b <> [] -> ends_with_char f (a ++ b) = ends_with_char f b.
Proof. intros Hb. unfold ends_with_char. rewrite last_app. destruct (last b) eqn:E; [done|]. by apply last_None in E. Qed.

Lemma crlf_hunk_header h : ends_with_char (is_char c_cr) (h_heading h) = false -> crlf (hunk_header h) = None.
Proof.
  intros Hh. unfold crlf, hunk_header. assert (forall l, ends_with_char (is_char c_cr) ((l ++ lit " @@") ++ heading_text (h_heading h)) = false) as H.
  { intros l. destruct (h_heading h) as [|c l'] eqn:E; [by rewrite app_nil_r, ends_with_char_app|]. cbn [heading_text].
    rewrite ends_with_char_app by done. change (c_space :: c :: l') with ([c_space] ++ c :: l'). by rewrite ends_with_char_app. }
  rewrite !app_assoc. by rewrite H.
Qed.

Lemma nth_drop_head (lines : list str) at_ l rest : drop at_ lines = l :: rest -> nth at_ lines [] = l /\ drop (at_ + 1) lines = rest.
Proof.
  intros H. rewrite <-drop_drop, H. split; [|by cbn; rewrite drop_0].
  rewrite <-(take_drop at_ lines), H, app_nth2, length_take_le; [by rewrite Nat.sub_diag| |rewrite length_take; lia].
  destruct (Nat.le_gt_cases at_ (length lines)); [done|]. rewrite drop_ge in H by lia. done.
Qed.

Lemma hunk_len_bounds h : (Z.of_nat (length (h_body h)) <= USIZE_MAX)%Z ->
  (old_len h <= USIZE_MAX /\ new_len h <= USIZE_MAX)%Z.
Proof.
  intros H. rewrite <- (length_map fst) in H. fold (h_ops h) in H. unfold old_len, new_len, old_lines, new_lines. rewrite !length_map.
  pose proof (List.filter_length_le (fun op : char * str => negb (is_char 43 op.1)) (h_ops h)).
  pose proof (List.filter_length_le (fun op : char * str => negb (is_char 45 op.1)) (h_ops h)). lia.
Qed.

Lemma take_while_all {A} (f : A -> bool) l r : Forall (fun x => f x = true) l -> match head r with Some x => f x = false | None => True end ->
  take_while f (l ++ r) = l.
Proof. induction 1 as [|x l Hx _ IH]; intros Hr; cbn [app take_while]; [by destruct r as [|y r]; [|cbn in *; rewrite Hr]|]. by rewrite Hx, IH. Qed.

Lemma hunk_body_rendered lines at_ h rest path header :
  Forall (fun op => is_marker op.1 = true) (h_ops h) -> (Z.of_nat (length (h_body h)) <= USIZE_MAX)%Z ->
  drop at_ lines = body_lines (h_body h) ++ rest ->
  match head rest with Some line => starts_with Hunks.NO_NEWLINE line = false | None => True end ->
  Hunks.hunk_body lines at_ (from_usize (old_len h), from_usize (new_len h)) path header =
  Ok {| Hunks.body_search := join_with [c_lf] (old_lines (h_ops h));
        Hunks.body_replace := join_with [c_lf] (new_lines (h_ops h));
        Hunks.body_next := at_ + length (body_lines (h_body h)) |}.
Proof.
  intros Hm Hlen Hd Hr. unfold Hunks.hunk_body. rewrite Hd.
  destruct (hunk_len_bounds h Hlen) as [Hol Hnl].
  assert (0 <= old_len h)%Z by (unfold old_len; lia). assert (0 <= new_len h)%Z by (unfold new_len; lia).
  destruct (from_usize_spec (old_len h) ltac:(done)) as [Hwo Hvo].
  destruct (from_usize_spec (new_len h) ltac:(done)) as [Hwn Hvn].
  destruct (body_loop_rendered (h_body h) rest at_ path header (Hunks.new_tally (from_usize (old_len h), from_usize (new_len h))) Hm) as (tail & next' & -> & Ht & Hn).
  - unfold limits_of. simpl. rewrite !to_usize_spec, Hvo, Hvn, !checked_usize_fits by done. unfold old_len, new_len, h_ops. by rewrite !Z.add_0_l.
  - cbn [result_bind]. rewrite take_while_all by done. by rewrite Hn.
Qed.

(** Where a hunk can end: at the end of the lines, or before a hunk or a section. *)
Definition hunk_follows (rest : list str) : Prop :=
  match head rest with
  | Some line => starts_with (lit "@@") line = true \/ starts_with DIFF_GIT line = true
  | None => True
  end.

Lemma hunk_follows_facts rest : hunk_follows rest ->
  match head rest with Some line => starts_with Hunks.NO_NEWLINE line = false | None => True end /\
  match head rest with Some line => Hunks.is_stray_body line = false | None => True end.
Proof.
  unfold hunk_follows. destruct (head rest) as [line|]; [|done]. intros Hf.
  assert (exists c l, line = c :: l /\ (c = 64%Z \/ c = 100%Z)) as (c & l & -> & Hc).
  { destruct Hf as [[k ->]%starts_with_spec | [k ->]%starts_with_spec]; eexists _, _; (split; [done|]); auto. }
  split; [by destruct Hc as [-> | ->]|]. unfold Hunks.is_stray_body.
  destruct (negb _ || _); [done|]. destruct (_ || _); [done|]. by destruct Hc as [-> | ->].
Qed.

Lemma drop_drop_app {A} (l p r : list A) n : drop n l = p ++ r -> drop (n + length p) l = r.
Proof. intros H. by rewrite <-drop_drop, H, drop_app_length. Qed.

Lemma lookup_drop_head {A} (l : list A) n : l !! n = head (drop n l).
Proof. rewrite head_lookup, lookup_drop. by rewrite Nat.add_0_r. Qed.

Lemma hunk_rendered lines at_ h rest target i floor :
  drop at_ lines = hunk_lines h ++ rest -> hunk_follows rest -> wf floor -> hunk_ok (Hunks.new_file target) (value floor) h ->
  Hunks.hunk lines at_ target i floor =
  Ok ({| edit_index := i; edit_path := Hunks.target_path target; edit_search := join_with [c_lf] (old_lines (h_ops h));
         edit_replace := join_with [c_lf] (new_lines (h_ops h)) |},
      at_ + length (hunk_lines h), plus (from_usize (h_old h)) (from_usize (old_len h))) /\
  Hunks.end_of_hunk lines at_ = Some (at_ + length (hunk_lines h)).
Proof.
  intros Hd Hrest Hfl [(Hpos & Hsome & Hge & Hnew & Hlen) [[_ Hhead] Hops]].
  destruct (nth_drop_head _ _ _ _ Hd) as [Hnth Hbody].
  destruct (hunk_follows_facts rest Hrest) as [Hnn Hns].
  assert (Forall (fun op => is_marker op.1 = true) (h_ops h)) as Hm
    by (eapply Forall_impl; [exact Hops|]; by intros ? [? _]).
  assert (0 <= old_len h)%Z by (unfold old_len; lia). assert (0 <= new_len h)%Z by (unfold new_len; lia).
  destruct (from_usize_spec (h_old h) ltac:(lia)) as [Hwo Hvo].
  destruct (from_usize_spec (old_len h) ltac:(lia)) as [Hwl Hvl].
  destruct (from_usize_spec (new_len h) ltac:(lia)) as [Hwn Hvn].
  assert (Hunks.hunk_counts (hunk_header h) target floor = Ok (counts_of h)) as Hcounts.
  { unfold Hunks.hunk_counts. rewrite crlf_hunk_header, parse_header_rendered by (done || lia).
    cbn [Hunks.old_count Hunks.old_start Hunks.new_count counts_of].
    assert (is_zero (from_usize (old_len h)) && is_zero (from_usize (new_len h)) = false) as ->.
    { apply not_true_is_false. rewrite andb_true_iff, !is_zero_spec, Hvl, Hvn by done. lia. }
    assert (is_zero (from_usize (old_len h)) && negb (Hunks.new_file target) = false) as ->.
    { apply not_true_is_false. rewrite andb_true_iff, negb_true_iff, is_zero_spec, Hvl by done. intros [Hz Hf]. specialize (Hpos Hf). lia. }
    rewrite cmp_spec, Hvo by done. destruct (Z.compare_spec (h_old h) (value floor)); done || lia. }
  assert (length (hunk_lines h) = S (length (body_lines (h_body h)))) as Hlines by done.
  split.
  - unfold Hunks.hunk. rewrite Hnth, Hcounts. cbn [map_err result_bind Hunks.old_count Hunks.new_count counts_of].
    erewrite hunk_body_rendered by done. cbn [map_err result_bind Hunks.body_next].
    assert (drop (at_ + 1 + length (body_lines (h_body h))) lines = rest) as Hafter by by apply drop_drop_app.
    rewrite lookup_drop_head, Hafter.
    assert (match head rest with Some line => Hunks.is_stray_body line | None => false end = false) as ->
      by by destruct (head rest).
    do 3 f_equal. lia.
  - unfold Hunks.end_of_hunk. rewrite Hnth, parse_header_rendered by lia. cbn [mbind option_bind Hunks.old_count Hunks.new_count counts_of].
    erewrite hunk_body_rendered by done. cbn [Hunks.body_next]. f_equal. lia.
Qed.

(** ** The hunks of a file *)

Lemma hunk_edits_app i path a b :
  hunk_edits i path (a ++ b) = hunk_edits i path a ++ hunk_edits (i + Z.of_nat (length a)) path b.
Proof.
  revert i. induction a as [|h a IH]; intros i; simpl; [by rewrite Z.add_0_r|]. rewrite IH. do 3 f_equal. lia.
Qed.

Lemma hunks_follow hs rest : hunk_follows rest -> hunk_follows (hunks_lines hs ++ rest).
Proof. destruct hs as [|h hs]; [done|]. intros _. left. done. Qed.

Lemma hunks_loop_rendered hs lines rest target st fuel :
  drop (Hunks.hl_next st) lines = hunks_lines hs ++ rest -> hunk_follows rest ->
  match head rest with Some line => starts_with (lit "@@") line = false | None => True end ->
  wf (Hunks.hl_floor st) -> hunks_ok (Hunks.new_file target) (value (Hunks.hl_floor st)) hs -> length hs < fuel ->
  exists st', Hunks.hunks_loop fuel lines target st = Some (Ok st') /\
    Hunks.hl_edits st' = Hunks.hl_edits st ++ hunk_edits (Hunks.hl_index st) (Hunks.target_path target) hs /\
    Hunks.hl_next st' = Hunks.hl_next st + length (hunks_lines hs) /\
    Hunks.hl_index st' = (Hunks.hl_index st + Z.of_nat (length hs))%Z.
Proof.
  intros Hd Hrest Hend Hfl Hok. revert st fuel Hd Hfl Hok.
  induction hs as [|h hs IH]; intros st [|fuel] Hd Hfl Hok Hf; try (simpl in Hf; lia); cbn [Hunks.hunks_loop].
  - assert (Hunks.opens_hunk lines (Hunks.hl_next st) = false) as ->.
    { unfold Hunks.opens_hunk. rewrite lookup_drop_head, Hd. simpl. by destruct (head rest). }
    exists st. simpl. rewrite app_nil_r, Nat.add_0_r, Z.add_0_r. done.
  - destruct Hok as [Hh Hok]. unfold hunks_lines in Hd. cbn [map concat] in Hd. rewrite <-app_assoc in Hd.
    destruct (hunk_rendered lines (Hunks.hl_next st) h _ target (Hunks.hl_index st) (Hunks.hl_floor st) Hd
      (hunks_follow hs rest Hrest) Hfl Hh) as [Hhunk _].
    assert (Hunks.opens_hunk lines (Hunks.hl_next st) = true) as ->.
    { unfold Hunks.opens_hunk. rewrite lookup_drop_head, Hd. done. }
    cbn [negb]. rewrite Hhunk.
    destruct Hh as [(_ & _ & Hge & _) _]. assert (0 <= old_len h)%Z by (unfold old_len; lia).
    destruct (from_usize_spec (h_old h) ltac:(lia)) as [Hwo Hvo].
    destruct (from_usize_spec (old_len h) ltac:(lia)) as [Hwl Hvl].
    destruct (plus_spec _ _ Hwo Hwl) as [Hwp Hvp]. rewrite Hvo, Hvl in Hvp.
    edestruct IH as (st' & -> & He & Hn & Hi); [..|exists st'; split; [done|]].
    + cbn [Hunks.hl_next]. by apply drop_drop_app.
    + done.
    + cbn [Hunks.hl_floor]. by rewrite Hvp.
    + simpl in Hf. lia.
    + cbn [Hunks.hl_edits Hunks.hl_next Hunks.hl_index] in *. split; [|split].
      * rewrite He, <-app_assoc. done.
      * rewrite Hn. unfold hunks_lines. cbn [map concat]. rewrite length_app. lia.
      * rewrite Hi. simpl. lia.
Qed.

Lemma skip_rendered hs lines rest at_ created floor fuel :
  drop at_ lines = hunks_lines hs ++ rest -> 
  match head rest with Some line => starts_with DIFF_GIT line = true | None => True end ->
  at_ <= length lines ->
  (0 <= floor)%Z -> hunks_ok created floor hs -> length hs < fuel ->
  skip_to_next_section fuel lines at_ true = Some (at_ + length (hunks_lines hs)).
Proof.
  intros Hd Hrest. assert (hunk_follows rest) as Hfollow
    by (unfold hunk_follows; destruct (head rest); [by right|done]).
  revert at_ floor fuel Hd. induction hs as [|h hs IH]; intros at_ floor [|fuel] Hd Hat Hfl Hok Hf;
    try (simpl in Hf; lia); cbn [skip_to_next_section]; rewrite lookup_drop_head, Hd.
  - simpl. rewrite Nat.add_0_r. destruct rest as [|line rest]; simpl in *.
    + apply (f_equal length) in Hd. rewrite length_drop in Hd. simpl in Hd. f_equal. lia.
    + by rewrite Hrest.
  - destruct Hok as [Hh Hok]. unfold hunks_lines in *. cbn [map concat] in *. rewrite <-app_assoc in Hd.
    destruct (from_usize_spec floor Hfl) as [Hwf Hvf].
    destruct (hunk_rendered lines at_ h _ {| Hunks.target_path := []; Hunks.new_file := created |} 0 (from_usize floor) Hd
      (hunks_follow hs rest Hfollow) Hwf ltac:(by rewrite Hvf)) as [_ Hend].
    rewrite Hend. match goal with |- context [head ((hunk_lines h ++ ?q) ++ ?r)] =>
      change (head ((hunk_lines h ++ q) ++ r)) with (Some (hunk_header h)) end.
    cbv beta iota.
    assert (starts_with DIFF_GIT (hunk_header h) = false /\ starts_with (lit "@@") (hunk_header h) = true)
      as [-> ->] by done.
    cbn [negb andb orb default]. unfold id.
    destruct Hh as [(_ & _ & Hge & _) _]. assert (0 <= old_len h)%Z by (unfold old_len; lia).
    assert (at_ + length (hunk_lines h) <= length lines).
    { apply (f_equal length) in Hd. rewrite length_drop, length_app in Hd. lia. }
    rewrite (IH _ (h_old h + old_len h)%Z).
    + f_equal. rewrite length_app. lia.
    + by apply drop_drop_app.
    + done.
    + lia.
    + done.
    + simpl in Hf. lia.
Qed.

(** ** One file *)

Lemma crlf_path before p : p <> [] -> ends_with_char (is_char c_cr) p = false -> crlf (before ++ p) = None.
Proof. intros Hne Hp. unfold crlf. by rewrite ends_with_char_app, Hp. Qed.

Lemma side_rendered prefix p :
  prefix = lit "a/" \/ prefix = lit "b/" -> p <> [] -> char_free 9 p ->
  side (side_text prefix p) prefix = {| side_path := Some p; side_reason := None; side_raw := prefix ++ p |}.
Proof.
  intros Hpre Hne Htab. unfold side, side_text.
  assert (char_free 9 (prefix ++ p)) as Hfree.
  { apply Forall_app. split; [|done]. destruct Hpre as [-> | ->]; lit_forall. }
  assert (head (split_char 9 (prefix ++ p ++ (if bool_decide (c_space ∈ p) then [9%Z] else []))) = Some (prefix ++ p)) as ->.
  { rewrite app_assoc. destruct (bool_decide _); [by rewrite split_char_app|]. unfold split_char. by rewrite app_nil_r, split_on_of_free. }
  cbn [default]. unfold id.
  assert (starts_with [c_dquote] (prefix ++ p) = false /\ bool_decide (prefix ++ p = DEV_NULL) = false) as [-> ->]
    by (destruct Hpre as [-> | ->]; split; try done; apply bool_decide_eq_false_2; discriminate).
  rewrite strip_prefix_app. by destruct p.
Qed.

Lemma side_dev_null prefix : prefix = lit "a/" \/ prefix = lit "b/" ->
  side DEV_NULL prefix = {| side_path := None; side_reason := None; side_raw := DEV_NULL |}.
Proof. by intros [-> | ->]. Qed.

Lemma crlf_side before prefix p : p <> [] -> ends_with_char (is_char c_cr) p = false -> crlf (before ++ side_text prefix p) = None.
Proof.
  intros Hne Hp. unfold crlf, side_text. rewrite !app_assoc. destruct (bool_decide _); [by rewrite ends_with_char_app|].
  by rewrite app_nil_r, ends_with_char_app, Hp.
Qed.

Lemma extended_ignored f line old new : line ∈ extended_lines f -> Headers.header_line line old new = Headers.LineIgnored.
Proof.
  intros Hl. assert (exists header text, header ∈ [lit "index "; lit "old mode "; lit "new mode "; lit "new file mode "; lit "deleted file mode "] /\ line = header ++ text) as (header & text & Hh & ->).
  { unfold extended_lines in Hl. destruct (f_kind f) as [[[o n]|]|m|m]; repeat (apply elem_of_cons in Hl as [->|Hl]); try (by apply not_elem_of_nil in Hl);
      eexists _, _; (split; [|reflexivity]); repeat constructor. }
  unfold Headers.header_line, Headers.path_line. repeat (apply elem_of_cons in Hh as [->|Hh]); try (by apply not_elem_of_nil in Hh); by destruct old, new.
Qed.

Lemma headers_loop_ignored ls rest read : Forall (fun line => Headers.header_line line (Headers.old_raw read) (Headers.new_raw read) = Headers.LineIgnored) ls ->
  Headers.headers_loop (ls ++ rest) read = Headers.headers_loop rest
    {| Headers.named := Headers.named read; Headers.old_raw := Headers.old_raw read; Headers.new_raw := Headers.new_raw read; Headers.renamed := Headers.renamed read;
       Headers.binary := Headers.binary read; Headers.header_reason := Headers.header_reason read; Headers.next := Headers.next read + length ls;
       Headers.git_section := Headers.git_section read |}.
Proof.
  revert read. induction ls as [|line ls IH]; intros read Hf; [destruct read; simpl; by rewrite Nat.add_0_r|].
  apply Forall_cons in Hf as [Hl Hf]. cbn [app Headers.headers_loop]. rewrite Hl, IH by done. unfold Headers.with_next. cbn [Headers.named Headers.old_raw Headers.new_raw
    Headers.renamed Headers.binary Headers.header_reason Headers.next Headers.git_section length]. do 2 f_equal. lia.
Qed.

Lemma headers_rendered lines at_ f rest :
  file_ok f -> drop at_ lines = file_lines f ++ rest ->
  exists named, Headers.headers lines at_ =
    {| Headers.named := named; Headers.old_raw := Some (old_text f);
       Headers.new_raw := Some (new_text f); Headers.renamed := false; Headers.binary := false;
       Headers.header_reason := None; Headers.next := at_ + (3 + length (extended_lines f)); Headers.git_section := true |}.
Proof.
  intros (Hne & Hlf & Htab & Hcr & Hhs & _) Hd. unfold file_lines in Hd.
  destruct (nth_drop_head _ _ _ _ Hd) as [Hnth Hd1].
  unfold Headers.headers. rewrite Hnth. unfold Headers.opening. rewrite starts_with_app.
  set (gitline := DIFF_GIT ++ lit "a/" ++ f_path f ++ lit " b/" ++ f_path f).
  assert (crlf gitline = None) as ->.
  { unfold gitline. rewrite !app_assoc. by apply crlf_path. }
  cbn [Headers.header_reason Headers.next]. rewrite Hd1. exists (Headers.diff_git_path gitline).
  fold (app (A := str)). rewrite <- app_assoc, headers_loop_ignored.
  2:{ apply Forall_forall. intros line Hl. by eapply extended_ignored. }
  cbn [app Headers.headers_loop Headers.old_raw Headers.new_raw Headers.named Headers.renamed Headers.binary Headers.header_reason Headers.next Headers.git_section].
  assert (crlf (OLD_HEADER ++ old_text f) = None /\ crlf (Headers.NEW_HEADER ++ new_text f) = None) as [Hco Hcn].
  { unfold old_text, new_text. destruct (f_kind f); split; try (by apply crlf_side); done. }
  assert (Headers.header_line (OLD_HEADER ++ old_text f) None None = Headers.LinePair (Some (old_text f)) None) as ->.
  { unfold Headers.header_line.
    assert (starts_with (lit "@@") (OLD_HEADER ++ old_text f) = false) as -> by done.
    unfold Headers.path_line. rewrite strip_prefix_app. by rewrite Hco. }
  cbn [Headers.with_next Headers.with_pair Headers.old_raw Headers.new_raw].
  assert (Headers.header_line (Headers.NEW_HEADER ++ new_text f) (Some (old_text f)) None =
    Headers.LinePair (Some (old_text f)) (Some (new_text f))) as ->.
  { unfold Headers.header_line.
    assert (starts_with (lit "@@") (Headers.NEW_HEADER ++ new_text f) = false) as -> by done.
    unfold Headers.path_line. rewrite strip_prefix_app. by rewrite Hcn. }
  destruct (f_hunks f) as [|h hs]; [done|]. unfold hunks_lines. cbn [map concat]. unfold hunk_lines at 1.
  cbn [app Headers.headers_loop Headers.old_raw Headers.new_raw Headers.with_next Headers.with_pair].
  assert (Headers.header_line (hunk_header h) (Some (old_text f)) (Some (new_text f)) = Headers.LineEnd) as -> by done.
  unfold Headers.with_next, Headers.with_pair. simpl. f_equal. lia.
Qed.

Lemma length_hunks_lines hs : length hs <= length (hunks_lines hs).
Proof.
  unfold hunks_lines. induction hs as [|h hs IH]; [done|]. cbn [map concat]. rewrite length_app. simpl in *. lia.
Qed.

(** The sides of a file name it, one at least, and the old one is missing when it is created. *)
Lemma sides_rendered f : file_ok f ->
  side_reason (side (old_text f) (lit "a/")) = None /\ side_reason (side (new_text f) (lit "b/")) = None /\
  side_path (side (old_text f) (lit "a/")) = (if creates f then None else Some (f_path f)) /\
  side_path (side (new_text f) (lit "b/")) = match f_kind f with Removed _ => None | _ => Some (f_path f) end.
Proof.
  intros (Hne & _ & Htab & _). unfold old_text, new_text, creates.
  destruct (f_kind f); rewrite ?side_rendered, ?side_dev_null by auto; done.
Qed.

Lemma file_section_rendered lines at_ f rest i :
  file_ok f -> drop at_ lines = file_lines f ++ rest ->
  match head rest with Some line => starts_with DIFF_GIT line = true | None => True end ->
  file_section lines at_ i =
  Some {| sec_edits := hunk_edits i (f_path f) (f_hunks f); sec_errors := []; sec_notes := [];
          sec_ordinal := i + Z.of_nat (length (f_hunks f)); sec_next := at_ + length (file_lines f) |}.
Proof.
  intros Hok Hd Hrest. pose proof (headers_rendered lines at_ f rest Hok Hd) as [named Hread].
  destruct (sides_rendered f Hok) as (Hr1 & Hr2 & Hp1 & Hp2).
  destruct Hok as (Hne & Hlf & Htab & Hcr & Hhs & Hhok & _).
  assert (length lines - at_ = length (file_lines f) + length rest) as Hlen.
  { apply (f_equal length) in Hd. by rewrite length_drop, length_app in Hd. }
  set (start := 3 + length (extended_lines f)) in *.
  assert (length (file_lines f) = start + length (hunks_lines (f_hunks f))) as Hfl.
  { unfold file_lines, start. cbn [length]. rewrite length_app. cbn [length]. lia. }
  assert (at_ + start <= length lines) as Hat by lia.
  assert (drop (at_ + start) lines = hunks_lines (f_hunks f) ++ rest) as Hd3.
  { unfold file_lines in Hd.
    assert (exists p, length p = start /\ drop at_ lines = p ++ hunks_lines (f_hunks f) ++ rest) as (p & <- & Hp); [|by apply drop_drop_app].
    eexists ((_ :: extended_lines f) ++ [OLD_HEADER ++ old_text f; Headers.NEW_HEADER ++ new_text f]). split; [rewrite length_app; cbn [length]; unfold start; lia|].
    rewrite Hd. cbn [app]. by rewrite <- !app_assoc. }
  assert (hunk_follows rest) as Hfollow by (unfold hunk_follows; destruct (head rest); [by right|done]).
  assert (match head rest with Some line => starts_with (lit "@@") line = false | None => True end) as Hend.
  { destruct (head rest) as [line|]; [|done]. by apply starts_with_spec in Hrest as [k ->]. }
  pose proof (length_hunks_lines (f_hunks f)).
  unfold file_section. rewrite Hread. cbn [Headers.next Headers.git_section].
  rewrite (skip_rendered (f_hunks f) lines rest _ (creates f) 0) by (done || lia). cbn [mbind option_bind].
  cbn [Headers.header_reason Headers.binary Headers.renamed Headers.old_raw Headers.new_raw].
  unfold paths_then_hunks. rewrite Hr1, Hr2, Hp1, Hp2.
  assert (match (if creates f then None else Some (f_path f)), match f_kind f with Removed _ => None | _ => Some (f_path f) end with
          | Some before, Some after => negb (bool_decide (before = after)) | _, _ => false end = false) as ->.
  { destruct (creates f); [done|]. destruct (f_kind f); [by rewrite bool_decide_eq_true_2|by rewrite bool_decide_eq_true_2|done]. }
  assert (match match f_kind f with Removed _ => None | _ => Some (f_path f) end with Some after => Some after | None => if creates f then None else Some (f_path f) end = Some (f_path f)) as ->.
  { unfold creates. by destruct (f_kind f). }
  assert (match (if creates f then None else Some (f_path f)) with None => true | Some _ => false end = creates f) as -> by by destruct (creates f).
  set (target := {| Hunks.target_path := f_path f; Hunks.new_file := creates f |}).
  unfold Hunks.hunks.
  assert (Hunks.opens_hunk lines (at_ + start) = true) as ->.
  { unfold Hunks.opens_hunk. rewrite lookup_drop_head, Hd3. by destruct (f_hunks f). }
  cbn [negb]. set (st := Hunks.Build_HunkLoop [] (at_ + start) i natural_zero (nth (at_ + start) lines [])).
  destruct (hunks_loop_rendered (f_hunks f) lines rest target st (S (length lines))) as (st' & -> & He & Hn & Hi);
    [done|done|done|by split|done|lia|].
  change (Hunks.hl_next st) with (at_ + start) in Hn. change (Hunks.hl_edits st) with (@nil Edit) in He.
  change (Hunks.hl_index st) with i in He, Hi.
  cbn [mbind option_bind]. rewrite He, Hn, Hi.
  assert (Hunks.unread_content lines (at_ + start + length (hunks_lines (f_hunks f)))
    (at_ + start + length (hunks_lines (f_hunks f))) = false) as ->.
  { unfold Hunks.unread_content. rewrite Nat.min_l, Nat.leb_refl, Nat.sub_diag by lia. done. }
  f_equal. f_equal. lia.
Qed.

(** ** The diff *)

Lemma diff_loop_rendered files lines st fuel :
  Forall file_ok files -> drop (dl_at st) lines = concat (map file_lines files) -> length files < fuel ->
  exists at_, diff_loop fuel lines st = Some (Ok {|
    dl_parsed := {| diff_result :=
      {| parse_edits := parse_edits (diff_result (dl_parsed st)) ++ diff_edits (dl_ordinal st) files;
         parse_errors := parse_errors (diff_result (dl_parsed st)) |}; diff_notes := diff_notes (dl_parsed st) |};
    dl_at := at_; dl_ordinal := (dl_ordinal st + Z.of_nat (list_sum (map (fun f => length (f_hunks f)) files)))%Z;
    dl_sections := dl_sections st + length files |}).
Proof.
  intros Hok. revert st fuel. induction Hok as [|f files Hf Hfs IH]; intros st [|fuel] Hd Hfuel;
    try (simpl in Hfuel; lia); cbn [diff_loop]; rewrite lookup_drop_head, Hd.
  - exists (dl_at st). simpl. rewrite app_nil_r, Z.add_0_r, Nat.add_0_r. by destruct st as [[[? ?] ?] ? ? ?].
  - cbn [map concat]. set (rest := concat (map file_lines files)).
    assert (match head rest with Some line => starts_with DIFF_GIT line = true | None => True end) as Hrest.
    { unfold rest. destruct files as [|f' files']; [done|]. cbn [map concat file_lines app head]. apply starts_with_app. }
    change (head (file_lines f ++ rest)) with
      (Some (DIFF_GIT ++ lit "a/" ++ f_path f ++ lit " b/" ++ f_path f)). cbv beta iota.
    assert (any (fun opener => starts_with opener (DIFF_GIT ++ lit "a/" ++ f_path f ++ lit " b/" ++ f_path f)) COMBINED
      = false) as -> by done.
    assert (opens_section (DIFF_GIT ++ lit "a/" ++ f_path f ++ lit " b/" ++ f_path f) = true) as ->
      by (unfold opens_section; by rewrite starts_with_app).
    cbn [negb]. rewrite (file_section_rendered lines (dl_at st) f rest) by done. cbn [mbind option_bind].
    match goal with |- context [diff_loop fuel lines ?s] => destruct (IH s fuel) as [at_ ->] end.
    + cbn [dl_at sec_next]. by apply drop_drop_app.
    + simpl in Hfuel. lia.
    + exists at_. do 2 f_equal. unfold extend. simpl. rewrite !app_nil_r, <-app_assoc.
      f_equal; first [done | lia].
Qed.

Lemma split_lines_text lines : Forall (char_free c_lf) lines ->
  diff_lines (concat (map (fun line => line ++ [c_lf]) lines)) = lines.
Proof.
  intros Hf. unfold diff_lines.
  assert (split_char c_lf (concat (map (fun line => line ++ [c_lf]) lines)) = lines ++ [[]]) as ->.
  { induction Hf as [|line lines Hl _ IH]; [done|]. cbn [map concat]. rewrite <-app_assoc.
    change ([c_lf] ++ ?r) with (c_lf :: r). by rewrite split_char_app, IH. }
  rewrite last_snoc, bool_decide_eq_true_2 by done. by rewrite removelast_last.
Qed.

Lemma dec_text_lf n : (0 <= n)%Z -> char_free c_lf (dec_text n).
Proof.
  intros Hn. eapply Forall_impl; [by apply dec_text_digits|]. intros c Hc%ascii_digit_range.
  apply is_char_false. unfold c_lf. lia.
Qed.

Lemma count_text_lf n : (0 <= n)%Z -> char_free c_lf (count_text n).
Proof. intros Hn. unfold count_text. destruct (n =? 1)%Z; [constructor|]. apply Forall_app. split; [lit_forall|by apply dec_text_lf]. Qed.

Lemma hunks_lf created floor hs : (0 <= floor)%Z -> hunks_ok created floor hs -> Forall (char_free c_lf) (hunks_lines hs).
Proof.
  unfold hunks_lines. revert floor. induction hs as [|h hs IH]; intros floor Hfl Hok; [constructor|].
  destruct Hok as [[(_ & _ & Hge & Hnew & Hlen) [[Hhead _] Hops]] Hok]. assert (0 <= old_len h)%Z by (unfold old_len; lia).
  cbn [map concat]. apply Forall_app. split.
  - unfold hunk_lines. constructor.
    + assert (char_free c_lf (heading_text (h_heading h))) as Hht by (destruct (h_heading h); [constructor|by constructor]).
      unfold hunk_header, char_free. rewrite !Forall_app. repeat split;
        solve [done | apply dec_text_lf; lia | apply count_text_lf; unfold old_len, new_len; lia | lit_forall].
    + unfold h_ops in Hops. induction (h_body h) as [|[[m c] eof] body IHb]; [constructor|]. cbn [map fst] in Hops. apply Forall_cons in Hops as [[Hm Hc] Hops].
      unfold body_lines. cbn [map concat]. apply Forall_app. split; [|apply IHb; [cbn in Hlen; lia|done]]. cbn [body_line fst snd]. constructor.
      * constructor; [|done]. simpl in Hm. by destruct (is_marker_cases m Hm) as [-> | [-> | ->]].
      * destruct eof; [|constructor]. constructor; [lit_forall|constructor].
  - apply (IH (h_old h + old_len h)%Z); [lia|done].
Qed.

Lemma side_text_lf prefix p : char_free c_lf prefix -> char_free c_lf p -> char_free c_lf (side_text prefix p).
Proof. intros H1 H2. unfold side_text, char_free. rewrite !Forall_app. split_and!; [done|done|]. destruct (bool_decide _); [|constructor]. by repeat constructor. Qed.

Lemma files_lf files : Forall file_ok files -> Forall (char_free c_lf) (concat (map file_lines files)).
Proof.
  induction 1 as [|f files (Hne & Hlf & _ & _ & _ & Hok & Hext) _ IH]; [constructor|]. cbn [map concat].
  apply Forall_app. split; [|done]. unfold file_lines. apply Forall_cons. split; [unfold char_free; rewrite !Forall_app; repeat split; solve [done | lit_forall]|].
  apply Forall_app. split; [done|]. assert (char_free c_lf (old_text f) /\ char_free c_lf (new_text f)) as [Ho Hn].
  { unfold old_text, new_text. destruct (f_kind f); split; first [apply side_text_lf; [lit_forall|done] | lit_forall]. }
  apply Forall_cons. split; [|apply Forall_cons; split; [|by eapply hunks_lf]]; apply Forall_app; (split; [lit_forall|done]).
Qed.

(** C8: A diff of text changes as git writes it, with its mode and index lines, its /dev/null side of a
    created or removed file, its counts of one left out, its section headings and its no-newline
    markers, reads back as its hunks: one edit per hunk, numbered in order over the files, with the
    context and removed lines as the search side and the context and added lines as the replace
    side, and no error or note. *)
Theorem parse_rendered_diff files (Hne : files <> []) (Hok : Forall file_ok files) :
  parse_unified_diff (diff_text files) =
  Some {| diff_result := {| parse_edits := diff_edits 0 files; parse_errors := [] |}; diff_notes := [] |}.
Proof.
  unfold parse_unified_diff, diff_text. rewrite split_lines_text by by apply files_lf.
  set (lines := concat (map file_lines files)).
  assert (length files <= length lines) as Hlen.
  { unfold lines. clear. induction files as [|f files IH]; [done|]. cbn [map concat]. rewrite length_app.
    unfold file_lines at 1. simpl in *. lia. }
  destruct (diff_loop_rendered files lines {| dl_parsed := no_parse; dl_at := 0; dl_ordinal := 0; dl_sections := 0 |}
    (S (length lines)) Hok) as [at_ ->]; [by cbn [dl_at]; rewrite drop_0|lia|].
  cbn [mbind option_bind dl_sections dl_parsed no_parse diff_result parse_edits parse_errors diff_notes dl_ordinal].
  destruct files as [|f files]; [done|]. done.
Qed.

(** A modified file with a mode change, a created and a removed one. *)
Definition sample_diff : list FileText :=
  [ {| f_path := lit "src/a b.rs"; f_kind := Modified (Some (lit "100644", lit "100755")); f_index := lit "0a1b..2c3d";
       f_hunks := [ {| h_old := 3; h_new := 3; h_heading := lit "fn main() {"; h_body := [(32, lit "keep", false); (45, lit "-- x", false); (43, [], false)] |};
                    {| h_old := 9; h_new := 9; h_heading := []; h_body := [(45, lit "old", true); (43, lit "new", true)] |} ]%Z |};
    {| f_path := lit "b"; f_kind := Created (lit "100644"); f_index := lit "0000..2c3d";
       f_hunks := [ {| h_old := 0; h_new := 1; h_heading := []; h_body := [(43, lit "@@", false); (43, lit "y", false)] |} ]%Z |};
    {| f_path := lit "c"; f_kind := Removed (lit "100644"); f_index := lit "2c3d..0000";
       f_hunks := [ {| h_old := 1; h_new := 0; h_heading := []; h_body := [(45, lit "z", false)] |} ]%Z |} ].

Example sample_text : exists rest, diff_text sample_diff = lit "diff --git a/src/a b.rs b/src/a b.rs
old mode 100644
new mode 100755
index 0a1b..2c3d
--- a/src/a b.rs	
+++ b/src/a b.rs	
@@ -3,2 +3,2 @@ fn main() {
 keep
--- x
+
@@ -9 +9 @@
-old
\ No newline at end of file
+new
\ No newline at end of file
diff --git a/b b/b
new file mode 100644
index 0000..2c3d
--- /dev/null
+++ b/b
@@ -0,0 +1,2 @@
" ++ rest.
Proof. eexists. vm_compute. reflexivity. Qed.

Lemma parse_rendered_diff_witness :
  sample_diff <> [] /\ parse_unified_diff (diff_text sample_diff) =
  Some {| diff_result := {| parse_edits := diff_edits 0 sample_diff; parse_errors := [] |}; diff_notes := [] |}.
Proof.
  split; [discriminate|]. apply (parse_rendered_diff sample_diff); [discriminate|].
  assert (forall l, forallb (fun d => negb (is_char c_lf d)) l = true -> char_free c_lf l) as Hlf.
  { intros l H. apply Forall_forall. intros d Hd%list_elem_of_In. rewrite forallb_forall in H.
    apply negb_true_iff. by apply H. }
  repeat constructor; try discriminate; try (vm_compute; reflexivity); try (vm_compute; discriminate); try lia.
Defined.

(** * Orientation *)

Lemma present_lines text block :
  present text block = is_nonempty (line_matches (split_char c_lf text) (split_char c_lf block)).
Proof. unfold present. rewrite whole_line_starts_lines. by destruct (line_matches _ _). Qed.

(** The diff is against these texts: each edit of a path in [texts] has a pre-image whose
    lines are consecutive lines of its text. *)
Definition oriented (texts : gmap str str) (edit : Edit) : Prop :=
  match texts !! edit_path edit with
  | None => True
  | Some text => edit_search edit <> [] /\
      line_matches (split_char c_lf text) (split_char c_lf (edit_search edit)) <> []
  end.

Lemma misoriented_None edit text : misoriented edit text = None <->
  edit_search edit <> [] /\ line_matches (split_char c_lf text) (split_char c_lf (edit_search edit)) <> [].
Proof.
  unfold misoriented. rewrite present_lines. destruct (edit_search edit) as [|c s]; [naive_solver|].
  cbn [is_nonempty negb]. destruct (line_matches _ _); simpl; [|naive_solver].
  split; [by destruct (_ && _)|]. intros [_ ?]. done.
Qed.

Lemma orient_app texts edits e :
  foldl (orient texts) (∅, []) (edits ++ [e]) = orient texts (foldl (orient texts) (∅, []) edits) e.
Proof. by rewrite foldl_app. Qed.

Lemma oriented_dec texts e : oriented texts e \/
  exists text reason, texts !! edit_path e = Some text /\ misoriented e text = Some reason /\ ~ oriented texts e.
Proof.
  unfold oriented. destruct (texts !! edit_path e) as [text|] eqn:E; [|by left].
  destruct (misoriented e text) as [reason|] eqn:Em; [|left; by apply misoriented_None].
  right. exists text, reason. split; [done|]. split; [done|]. intros H%misoriented_None. congruence.
Qed.

(** A problem is the first edit of its path that is not oriented. *)
Definition first_problem (edits : list Edit) (texts : gmap str str) (problem : BlockError) : Prop :=
  exists before e after text, edits = before ++ e :: after /\
    Forall (fun e' => edit_path e' = edit_path e -> oriented texts e') before /\
    texts !! edit_path e = Some text /\ misoriented e text = Some (error_reason problem) /\
    error_index problem = edit_index e /\ error_path problem = Some (edit_path e).

Lemma first_problem_app edits e texts problem :
  first_problem edits texts problem -> first_problem (edits ++ [e]) texts problem.
Proof.
  intros (before & e' & after & text & -> & H). exists before, e', (after ++ [e]), text.
  split; [|done]. by rewrite <-app_assoc.
Qed.

Lemma orient_invariant texts edits :
  let '(reported, problems) := foldl (orient texts) (∅, []) edits in
  (forall p, p ∈ reported <-> exists e, e ∈ edits /\ edit_path e = p /\ ~ oriented texts e) /\
  (forall p, Some p ∈ error_path <$> problems <-> p ∈ reported) /\
  NoDup (error_path <$> problems) /\ Forall (first_problem edits texts) problems.
Proof.
  induction edits as [|e edits IH] using rev_ind.
  { simpl. split; [set_solver|]. split; [set_solver|]. split; constructor. }
  rewrite foldl_app. destruct (foldl (orient texts) (∅, []) edits) as [reported problems].
  destruct IH as (Hrep & Hpath & Hnd & Hfirst). cbn [foldl orient].
  assert (Forall (first_problem (edits ++ [e]) texts) problems) as Hfirst'
    by (eapply Forall_impl; [exact Hfirst|]; intros; by apply first_problem_app).
  case_bool_decide as Hin.
  { split; [|done]. intros p. rewrite Hrep. split.
    - intros (e' & ? & ?). exists e'. set_solver.
    - intros (e' & He' & <- & Ho). apply elem_of_app in He' as [? | ->%list_elem_of_singleton]; [by exists e'|].
      apply Hrep. done. }
  destruct (oriented_dec texts e) as [Ho|(text & reason & Ht & Hm & Ho)].
  - assert (match texts !! edit_path e with None => (reported, problems) | Some text =>
      match misoriented e text with None => (reported, problems) | Some reason =>
        ({[edit_path e]} ∪ reported, problems ++ [{| error_index := edit_index e;
          error_path := Some (edit_path e); error_reason := reason |}]) end end = (reported, problems)) as ->.
    { unfold oriented in Ho. destruct (texts !! edit_path e); [|done]. by apply misoriented_None in Ho as ->. }
    split; [|done]. intros p. rewrite Hrep. split.
    + intros (e' & ? & ?). exists e'. set_solver.
    + intros (e' & He' & Hp & Ho'). apply elem_of_app in He' as [? | ->%list_elem_of_singleton]; [by exists e'|done].
  - rewrite Ht, Hm. split; [|split; [|split]].
    + intros p. rewrite elem_of_union, elem_of_singleton, Hrep. split.
      * intros [->|(e' & ? & ?)]; [exists e|exists e']; set_solver.
      * intros (e' & He' & <- & Ho'). apply elem_of_app in He' as [? | ->%list_elem_of_singleton]; [right; eauto|by left].
    + intros p. rewrite fmap_app, elem_of_app, Hpath. simpl. set_solver.
    + rewrite fmap_app. apply NoDup_app. split; [done|]. split; [|apply NoDup_singleton].
      intros p Hp ->%list_elem_of_singleton. simpl in Hp. by apply Hpath in Hp.
    + apply Forall_app. split; [done|]. constructor; [|done]. exists edits, e, [], text. simpl.
      split; [done|]. split; [|done]. apply Forall_forall. intros e' He' Hp.
      destruct (oriented_dec texts e') as [?|(_ & _ & _ & _ & ?)]; [done|]. exfalso. apply Hin, Hrep. eauto.
Qed.

(** The orientation check refuses each file whose pre-image is missing exactly once, for
    the first edit that shows it, and refuses nothing else; it is empty exactly when every
    edit of a known file has a pre-image whose lines are consecutive lines of its text. *)
Theorem orientation_spec edits texts :
  NoDup (error_path <$> orientation edits texts) /\
  (forall p, Some p ∈ error_path <$> orientation edits texts <->
    exists e, e ∈ edits /\ edit_path e = p /\ ~ oriented texts e) /\
  Forall (first_problem edits texts) (orientation edits texts) /\
  (orientation edits texts = [] <-> Forall (oriented texts) edits).
Proof.
  unfold orientation. pose proof (orient_invariant texts edits) as H.
  destruct (foldl (orient texts) (∅, []) edits) as [reported problems]. destruct H as (Hrep & Hpath & Hnd & Hfirst).
  cbn [snd]. split; [done|]. split; [|split; [done|]].
  - intros p. by rewrite Hpath, Hrep.
  - split.
    + intros ->. apply Forall_forall. intros e He. destruct (oriented_dec texts e) as [?|(_ & _ & _ & _ & Ho)]; [done|].
      assert (edit_path e ∈ reported) as Hin by (apply Hrep; eauto). apply Hpath in Hin. by apply elem_of_nil in Hin.
    + intros Hall. destruct problems as [|problem problems]; [done|]. exfalso.
      apply Forall_cons in Hfirst as [(before & e & after & text & -> & _ & Ht & Hm & _) _].
      apply Forall_app in Hall as [_ Hall]. apply Forall_cons in Hall as [Ho _].
      unfold oriented in Ho. rewrite Ht in Ho. apply misoriented_None in Ho. congruence.
Qed.
