(* ===== verification/Vote.v ===== *)
(** The filter ladder and the vote: crates/patch/src/vote.rs.

    [rank] narrows validated candidates to the strongest rung that is not empty and ranks
    their equivalence clusters.  The theorems give the rung and the survivors, the
    clusters as a sorted partition of the survivors by key, and the independence of the
    report from the order in which the candidates are listed. *)

From S2P Require Import Prelude RustStr Text.
Local Open Scope Z_scope.

Inductive Tier := Reproduction | RegressionTier | AppliedTier | NoTier.

#[export] Instance Tier_eq_dec : EqDecision Tier.
Proof. solve_decision. Defined.

Definition tier_as_str (tier : Tier) : str :=
  match tier with
  | Reproduction => lit "regression+reproduction"
  | RegressionTier => lit "regression"
  | AppliedTier => lit "applied"
  | NoTier => lit "none"
  end.

Inductive Regression := NotMeasured | Failed | Passed.

#[export] Instance Regression_eq_dec : EqDecision Regression.
Proof. solve_decision. Defined.

Record VoteCandidate := {
  id : str;
  index : Z;
  applied : bool;
  equivalence_key : option str;
  regression : Regression;
  reproduction_passed : bool
}.

Definition regression_passed (c : VoteCandidate) : bool := bool_decide (regression c = Passed).

Record Cluster := {
  cluster_rank : nat;
  cluster_key : str;
  cluster_size : nat;
  cluster_members : list str;
  representative : str;
  first_appearance : Z;
  cluster_regression_passed : nat;
  cluster_reproduction_passed : nat
}.

Record Exclusion := { excluded_id : str; excluded_reason : str }.

Record VoteReport := {
  tier : Tier;
  repro_valid : bool;
  considered : nat;
  survived : nat;
  report_clusters : list Cluster;
  excluded : list Exclusion
}.

Definition winner (r : VoteReport) : option str := representative <$> head (report_clusters r).

Definition exclusion (c : VoteCandidate) : option str :=
  if negb (applied c) then Some (lit "the patch did not apply")
  else if bool_decide (regression c = NotMeasured)
  then Some (lit "the test command never ran for it, so nothing was measured")
  else if match equivalence_key c with None => true | Some key => negb (is_nonempty key) end
  then Some (lit "the patch applied but changed nothing, so it has no equivalence key")
  else None.

(** The rungs with the candidates each keeps. *)
Definition rungs : list (Tier * (VoteCandidate -> bool)) :=
  [ (Reproduction, fun c => regression_passed c && reproduction_passed c);
    (RegressionTier, regression_passed);
    (AppliedTier, fun _ => true) ].

Fixpoint climb (usable : list (Tier * (VoteCandidate -> bool))) (eligible : list VoteCandidate)
  : Tier * list VoteCandidate :=
  match usable with
  | [] => (NoTier, [])
  | (tier, keeps) :: rest =>
      let survivors := List.filter keeps eligible in
      if is_nonempty survivors then (tier, survivors) else climb rest eligible
  end.

Definition ladder (eligible : list VoteCandidate) (repro_valid : bool) : Tier * list VoteCandidate :=
  climb (List.filter (fun rung => repro_valid || negb (bool_decide (rung.1 = Reproduction))) rungs) eligible.

(** [sort_by_key(|member| member.index)]. *)
Definition index_leb (a b : VoteCandidate) : bool := index a <=? index b.

Definition cluster (rank : nat) (key : str) (members : list VoteCandidate) : option Cluster :=
  let members := sort_by index_leb members in
  match members with
  | [] => None (* [members[0]] panics; a group is made with its first member *)
  | first :: _ => Some {|
      cluster_rank := rank;
      cluster_key := key;
      cluster_size := length members;
      cluster_members := id <$> members;
      representative := id first;
      first_appearance := index first;
      cluster_regression_passed := length (List.filter regression_passed members);
      cluster_reproduction_passed := length (List.filter reproduction_passed members) |}
  end.

Definition key_of (c : VoteCandidate) : str := default [] (equivalence_key c).

(** The groups by key and the slots that index them, after one more candidate. *)
Definition group_one (st : list (str * list VoteCandidate) * gmap str nat) (c : VoteCandidate)
  : list (str * list VoteCandidate) * gmap str nat :=
  let '(grouped, slots) := st in
  let key := key_of c in
  let '(slot, grouped, slots) :=
    match slots !! key with
    | Some slot => (slot, grouped, slots)
    | None => let slot := length grouped in (slot, grouped ++ [(key, [])], <[key := slot]> slots)
    end in
  (alter (fun group => (group.1, group.2 ++ [c])) slot grouped, slots).

(** [Iterator::min] of the indices. *)
Definition min_index (members : list VoteCandidate) : option Z :=
  match members with
  | [] => None
  | m :: rest => Some (fold_left Z.min (index <$> rest) (index m))
  end.

Definition option_leb (a b : option Z) : bool :=
  match a, b with
  | None, _ => true
  | Some _, None => false
  | Some x, Some y => x <=? y
  end.

(** The order of the sort key [(Reverse(members.len()), first)]. *)
Definition group_leb (a b : str * list VoteCandidate) : bool :=
  if (length b.2 <? length a.2)%nat then true
  else if (length a.2 <? length b.2)%nat then false
  else option_leb (min_index a.2) (min_index b.2).

Definition clusters (survivors : list VoteCandidate) : option (list Cluster) :=
  let grouped := (foldl group_one ([], ∅) survivors).1 in
  let grouped := sort_by group_leb grouped in
  mapM (fun entry => cluster entry.2 entry.1.1 entry.1.2) (zip grouped (seq 1 (length grouped))).

(** The loop that parts the candidates. *)
Definition part (st : list VoteCandidate * list Exclusion) (c : VoteCandidate)
  : list VoteCandidate * list Exclusion :=
  match exclusion c with
  | None => (st.1 ++ [c], st.2)
  | Some reason => (st.1, st.2 ++ [{| excluded_id := id c; excluded_reason := reason |}])
  end.

Definition rank (candidates : list VoteCandidate) (valid : bool) : option VoteReport :=
  let ordered := sort_by index_leb candidates in
  let '(eligible, excluded) := foldl part ([], []) ordered in
  let '(tier, survivors) := ladder eligible valid in
  clusters ← clusters survivors;
  Some {| tier := tier; repro_valid := valid; considered := length candidates;
          survived := length survivors; report_clusters := clusters; excluded := excluded |}.

(** * The ladder *)

Definition eligible (candidates : list VoteCandidate) : list VoteCandidate :=
  List.filter (fun c => match exclusion c with None => true | Some _ => false end) (sort_by index_leb candidates).

Lemma part_spec l st :
  foldl part st l =
  (st.1 ++ List.filter (fun c => match exclusion c with None => true | Some _ => false end) l,
   st.2 ++ omap (fun c => reason ← exclusion c; Some {| excluded_id := id c; excluded_reason := reason |}) l).
Proof.
  revert st. induction l as [|c l IH]; intros [e x]; csimpl.
  - by rewrite !app_nil_r.
  - rewrite IH. unfold part. destruct (exclusion c); simpl; by rewrite <-app_assoc.
Qed.

Lemma index_leb_total a b : index_leb a b = true \/ index_leb b a = true.
Proof. unfold index_leb. rewrite !Z.leb_le. lia. Qed.
Lemma index_leb_trans a b c : index_leb a b = true -> index_leb b c = true -> index_leb a c = true.
Proof. unfold index_leb. rewrite !Z.leb_le. lia. Qed.

(** What the survivors of a rung passed. *)
Definition passes (t : Tier) (c : VoteCandidate) : bool :=
  match t with
  | Reproduction => regression_passed c && reproduction_passed c
  | RegressionTier => regression_passed c
  | AppliedTier => true
  | NoTier => false
  end.

(** A stronger rung, where a reproduction rung needs a valid reproduction test. *)
Definition stronger (valid : bool) (t : Tier) : list Tier :=
  match t with
  | Reproduction => []
  | RegressionTier => if valid then [Reproduction] else []
  | AppliedTier => (if valid then [Reproduction] else []) ++ [RegressionTier]
  | NoTier => (if valid then [Reproduction] else []) ++ [RegressionTier; AppliedTier]
  end.

Lemma is_nonempty_false {A} (l : list A) : is_nonempty l = false <-> l = [].
Proof. by destruct l. Qed.

Lemma climb_spec usable l :
  (forall entry, entry ∈ usable -> entry.2 = passes entry.1) -> AppliedTier ∈ usable.*1 ->
  NoTier ∉ usable.*1 ->
  exists before after t, usable.*1 = before ++ t :: after /\
    Forall (fun s => List.filter (passes s) l = []) before /\
    (climb usable l = (t, List.filter (passes t) l) /\ List.filter (passes t) l <> [] \/
     climb usable l = (NoTier, []) /\ l = []).
Proof.
  induction usable as [|[t keeps] usable IH]; intros Hk Hin Hno; [by apply elem_of_nil in Hin|].
  pose proof (Hk (t, keeps) ltac:(left)) as Ht. simpl in Ht. subst keeps. cbn [climb].
  destruct (List.filter (passes t) l) as [|c s] eqn:E.
  - rewrite fmap_cons in Hin, Hno |- *. apply not_elem_of_cons in Hno as [_ Hno]. simpl in *.
    apply elem_of_cons in Hin as [<-|Hin].
    + assert (l = []) as -> by (clear -E; induction l; simpl in *; congruence).
      exists [], (usable.*1), AppliedTier. split; [done|]. split; [done|]. right. split; [|done].
      clear. induction usable as [|[? ?] ? IH]; [done|]. simpl. by rewrite IH.
    + destruct IH as (before & after & t' & Heq & Hf & Hc); [|done..|].
      { intros entry He. apply Hk. by right. }
      exists (t :: before), after, t'. rewrite Heq. split; [done|]. split; [by constructor|done].
  - exists [], (usable.*1), t. split; [done|]. split; [done|]. left. by rewrite E.
Qed.

Lemma ladder_spec l valid :
  let '(t, survivors) := ladder l valid in
  survivors = List.filter (passes t) l /\ (t = NoTier <-> l = []) /\ (survivors = [] -> t = NoTier) /\
  (t = Reproduction -> valid = true) /\
  Forall (fun s => List.filter (passes s) l = []) (stronger valid t).
Proof.
  unfold ladder.
  assert (List.filter (fun rung => valid || negb (bool_decide (rung.1 = Reproduction))) rungs =
    if valid then rungs else drop 1 rungs) as -> by by destruct valid.
  destruct (climb_spec (if valid then rungs else drop 1 rungs) l) as (before & after & t & Heq & Hf & Hc).
  - intros [t keeps] He. destruct valid; repeat (apply elem_of_cons in He as [[= -> ->]|He]; [done|]);
      by apply elem_of_nil in He.
  - destruct valid; simpl; set_solver.
  - destruct valid; simpl; set_solver.
  - destruct Hc as [[-> Hne]|[-> ->]].
    + split; [done|]. split; [|split; [done|]].
      * split; [|by intros ->]. intros ->. destruct valid; simpl in Heq;
          repeat (destruct before as [|? before]; simplify_eq/=).
      * destruct valid; simpl in Heq; repeat (destruct before as [|? before]; simplify_eq/=);
          (split; [done|]); simpl; rewrite ?Forall_cons in *; naive_solver.
    + split; [done|]. split; [done|]. split; [done|]. split; [done|]. simpl. destruct valid; simpl; repeat constructor.
Qed.

(** * The groups *)

Definition members_of (l : list VoteCandidate) (key : str) : list VoteCandidate :=
  List.filter (fun c => bool_decide (key_of c = key)) l.

Definition groups_of (l : list VoteCandidate) : list (str * list VoteCandidate) :=
  (fun key => (key, members_of l key)) <$> first_occurrences (key_of <$> l).

Lemma members_of_snoc l c key :
  members_of (l ++ [c]) key = members_of l key ++ if bool_decide (key_of c = key) then [c] else [].
Proof. unfold members_of. rewrite List.filter_app. simpl. by case_bool_decide. Qed.

Lemma members_of_absent l key : key ∉ key_of <$> l -> members_of l key = [].
Proof.
  intros H. apply filter_nil_iff_false. intros c Hc%list_elem_of_In. apply bool_decide_eq_false_2. intros <-.
  apply H. by apply list_elem_of_fmap_2.
Qed.

Lemma alter_groups keys l c i :
  NoDup keys -> keys !! i = Some (key_of c) ->
  alter (fun group : str * list VoteCandidate => (group.1, group.2 ++ [c])) i
    ((fun key => (key, members_of l key)) <$> keys) = (fun key => (key, members_of (l ++ [c]) key)) <$> keys.
Proof.
  intros Hnd Hi. apply list_eq. intros j. destruct (decide (i = j)) as [<-|Hij].
  - rewrite list_lookup_alter_eq, !list_lookup_fmap, Hi. simpl. by rewrite members_of_snoc, bool_decide_eq_true_2.
  - rewrite list_lookup_alter_ne, !list_lookup_fmap by done. destruct (keys !! j) as [key|] eqn:Hj; [|done]. simpl.
    rewrite members_of_snoc, bool_decide_eq_false_2, app_nil_r; [done|]. intros <-. apply Hij. by eapply NoDup_lookup.
Qed.

Lemma group_spec l :
  let '(grouped, slots) := foldl group_one ([], ∅) l in
  grouped = groups_of l /\
  (forall key i, slots !! key = Some i <-> first_occurrences (key_of <$> l) !! i = Some key).
Proof.
  induction l as [|c l IH] using rev_ind.
  { split; [done|]. intros key i. by rewrite lookup_empty. }
  rewrite foldl_app. destruct (foldl group_one ([], ∅) l) as [grouped slots]. destruct IH as [-> Hslots].
  cbn [foldl group_one]. unfold groups_of. rewrite fmap_app. cbn [fmap list_fmap]. rewrite first_occurrences_snoc.
  set (keys := first_occurrences (key_of <$> l)) in *.
  destruct (slots !! key_of c) as [slot|] eqn:E.
  - pose proof E as Hslot. apply Hslots in E. rewrite decide_True.
    + split; [|done]. apply alter_groups; [apply first_occurrences_NoDup|done].
    + apply first_occurrences_elem. by eapply list_elem_of_lookup_2.
  - assert (key_of c ∉ key_of <$> l) as Hnew.
    { intros [i Hi]%first_occurrences_elem%list_elem_of_lookup. apply Hslots in Hi. congruence. }
    rewrite decide_False by done. split.
    + assert (keys ++ [key_of c] = first_occurrences (key_of <$> (l ++ [c]))) as Hk
        by (rewrite fmap_app; simpl; by rewrite first_occurrences_snoc, decide_False).
      assert (((fun key => (key, members_of l key)) <$> keys) ++ [(key_of c, [])] =
        (fun key => (key, members_of l key)) <$> keys ++ [key_of c]) as ->
        by (rewrite fmap_app; simpl; by rewrite (members_of_absent l (key_of c))).
      apply alter_groups; [rewrite Hk; apply first_occurrences_NoDup|].
      by rewrite length_fmap, lookup_app_r, Nat.sub_diag by lia.
    + intros key i. rewrite length_fmap, lookup_insert_Some, Hslots, lookup_app_Some. split.
      * intros [[<- <-]|[Hp ?]]; [right; by rewrite Nat.sub_diag|by left].
      * intros [Hi|[Hle Hi]].
        -- right. split; [|done]. intros <-. apply Hnew, first_occurrences_elem. by eapply list_elem_of_lookup_2.
        -- left. apply list_lookup_singleton_Some in Hi as [? <-]. split; [done|lia].
Qed.

Lemma fold_min_spec l x :
  fold_left Z.min l x ∈ x :: l /\ Forall (fun y => fold_left Z.min l x <= y) (x :: l).
Proof.
  revert x. induction l as [|y l IH]; intros x; simpl; [split; [left|repeat constructor; lia]|].
  destruct (IH (Z.min x y)) as [Hin Hle]. apply Forall_cons in Hle as [Hm Hle]. split.
  - apply elem_of_cons in Hin as [->|Hin]; [|set_solver]. destruct (Z.min_spec x y) as [[_ ->]|[_ ->]]; set_solver.
  - repeat constructor; [lia|lia|done].
Qed.

(** The first member in index order has the least index. *)
Lemma min_index_sorted ms first rest :
  sort_by index_leb ms = first :: rest -> min_index ms = Some (index first).
Proof.
  intros Hs. pose proof (sort_by_sorted index_leb index_leb_total index_leb_trans ms) as Hsorted.
  pose proof (sort_by_perm index_leb ms) as Hp. rewrite Hs in Hsorted, Hp.
  destruct ms as [|m ms]; [by apply Permutation_nil_r in Hp|]. unfold min_index. f_equal.
  destruct (fold_min_spec (index <$> ms) (index m)) as [Hin Hle]. set (v := fold_left _ _ _) in *.
  change (index m :: (index <$> ms)) with (index <$> (m :: ms)) in Hin, Hle. rewrite <-Hp in Hin, Hle.
  rewrite fmap_cons in Hin, Hle. apply Forall_cons in Hle as [Hv _].
  inversion Hsorted as [|? ? _ Hf]; subst. apply elem_of_cons in Hin as [?|Hin]; [done|].
  apply list_elem_of_fmap in Hin as (c & Hc & Hin). rewrite Forall_forall in Hf. specialize (Hf c Hin).
  unfold index_leb in Hf. apply Z.leb_le in Hf. lia.
Qed.

Lemma group_leb_total a b : group_leb a b = true \/ group_leb b a = true.
Proof.
  unfold group_leb. destruct (Nat.ltb_spec (length b.2) (length a.2)); [by left|].
  destruct (Nat.ltb_spec (length a.2) (length b.2)); [by right|].
  destruct (min_index a.2), (min_index b.2); simpl; rewrite ?Z.leb_le; auto; lia.
Qed.

Lemma group_leb_trans a b c : group_leb a b = true -> group_leb b c = true -> group_leb a c = true.
Proof.
  unfold group_leb.
  destruct (Nat.ltb_spec (length b.2) (length a.2)), (Nat.ltb_spec (length a.2) (length b.2)),
    (Nat.ltb_spec (length c.2) (length b.2)), (Nat.ltb_spec (length b.2) (length c.2)),
    (Nat.ltb_spec (length c.2) (length a.2)), (Nat.ltb_spec (length a.2) (length c.2)); try done; try lia.
  destruct (min_index a.2), (min_index b.2), (min_index c.2); simpl; rewrite ?Z.leb_le; try done; lia.
Qed.

(** What a cluster says of the survivors with its key. *)
Definition describes (survivors : list VoteCandidate) (c : Cluster) : Prop :=
  let members := sort_by index_leb (members_of survivors (cluster_key c)) in
  cluster_members c = id <$> members /\ cluster_size c = length members /\
  cluster_regression_passed c = length (List.filter regression_passed members) /\
  cluster_reproduction_passed c = length (List.filter reproduction_passed members) /\
  exists first rest, members = first :: rest /\ representative c = id first /\ first_appearance c = index first.

(** Larger clusters first, ties to the earlier first appearance. *)
Definition ranks_before (a b : Cluster) : Prop :=
  (cluster_size b < cluster_size a)%nat \/
  cluster_size a = cluster_size b /\ first_appearance a <= first_appearance b.

Lemma members_of_nonempty l key : key ∈ key_of <$> l -> members_of l key <> [].
Proof.
  intros (c & -> & Hc)%list_elem_of_fmap H. assert (c ∈ members_of l (key_of c)) as Hin.
  { apply list_elem_of_In, filter_In. split; [by apply list_elem_of_In|]. by apply bool_decide_eq_true_2. }
  rewrite H in Hin. by apply elem_of_nil in Hin.
Qed.

Lemma cluster_described l key i : key ∈ key_of <$> l ->
  exists c, cluster i key (members_of l key) = Some c /\ cluster_rank c = i /\ cluster_key c = key /\ describes l c /\
    cluster_size c = length (members_of l key) /\ min_index (members_of l key) = Some (first_appearance c).
Proof.
  intros Hk%members_of_nonempty. unfold cluster. pose proof (sort_by_perm index_leb (members_of l key)) as Hp.
  destruct (sort_by index_leb (members_of l key)) as [|first rest] eqn:E.
  { by apply Permutation_nil_l in Hp. }
  eexists. split; [done|]. split; [done|]. split; [done|]. split; [|split].
  - unfold describes. simpl. rewrite E. repeat split; eauto.
  - simpl. by rewrite <-Hp.
  - by eapply min_index_sorted.
Qed.

Lemma clusters_described l groups k :
  Forall (fun g : str * list VoteCandidate => g.1 ∈ key_of <$> l /\ g.2 = members_of l g.1) groups ->
  exists cs, mapM (fun entry => cluster entry.2 entry.1.1 entry.1.2) (zip groups (seq k (length groups))) = Some cs /\
    cluster_rank <$> cs = seq k (length groups) /\ cluster_key <$> cs = groups.*1 /\ Forall (describes l) cs /\
    Forall2 (fun g c => cluster_size c = length g.2 /\ min_index g.2 = Some (first_appearance c)) groups cs.
Proof.
  intros Hg. revert k. induction Hg as [|[key ms] groups [Hk Hms] _ IH]; intros k.
  { exists []. repeat split; constructor. }
  simpl in Hk, Hms. subst ms. destruct (cluster_described l key k Hk) as (c & Hc & Hr & Hck & Hd & Hs & Hm).
  destruct (IH (S k)) as (cs & Hcs & Hranks & Hkeys & Hds & H2). exists (c :: cs).
  cbn [length seq zip zip_with mapM fst snd]. rewrite Hc. cbn [mbind option_bind].
  rewrite Hcs. cbn [mbind option_bind]. split; [done|].
  rewrite !fmap_cons, Hr, Hranks, Hck, Hkeys. cbn [fst].
  split; [done|]. split; [done|]. split; [by constructor|]. by constructor.
Qed.

Lemma members_of_cons c l key :
  members_of (c :: l) key = if bool_decide (key_of c = key) then c :: members_of l key else members_of l key.
Proof. done. Qed.

Lemma members_partition l keys :
  NoDup keys -> (forall c, c ∈ l -> key_of c ∈ keys) ->
  sum_list_with (fun key => length (members_of l key)) keys = length l.
Proof.
  intros Hnd Hin. induction l as [|c l IH].
  - clear Hin Hnd. induction keys as [|key keys IH]; [done|]. cbn [sum_list_with]. by rewrite IH.
  - cbn [length]. rewrite <-IH by (intros; apply Hin; by right). specialize (Hin c ltac:(left)).
    clear IH. induction Hnd as [|key keys Hk _ IH]; [by apply elem_of_nil in Hin|].
    cbn [sum_list_with]. rewrite members_of_cons. apply elem_of_cons in Hin as [Hc|Hin].
    + rewrite bool_decide_eq_true_2 by done. cbn [length].
      assert (sum_list_with (fun key => length (members_of (c :: l) key)) keys =
        sum_list_with (fun key => length (members_of l key)) keys) as ->; [|lia].
      rewrite <-Hc in Hk. clear -Hk. induction keys as [|key keys IH]; [done|]. cbn [sum_list_with].
      apply not_elem_of_cons in Hk as [Hne Hk]. by rewrite members_of_cons, bool_decide_eq_false_2, IH.
    + rewrite IH by done. rewrite bool_decide_eq_false_2; [lia|]. intros Hc. by rewrite Hc in Hin.
Qed.

(** The vote's clusters partition the survivors by equivalence key: one cluster per key,
    described by its members in index order, the sizes adding up to the survivors; they
    are ranked from 1 by size, ties by first appearance, and the grouping never fails. *)
Theorem vote_clusters survivors :
  exists cs, clusters survivors = Some cs /\
    cluster_rank <$> cs = seq 1 (length cs) /\
    NoDup (cluster_key <$> cs) /\
    (forall key, key ∈ cluster_key <$> cs <-> key ∈ key_of <$> survivors) /\
    Forall (describes survivors) cs /\
    StronglySorted ranks_before cs /\
    sum_list_with cluster_size cs = length survivors.
Proof.
  unfold clusters. pose proof (group_spec survivors) as Hg. destruct (foldl group_one ([], ∅) survivors) as [grouped slots].
  destruct Hg as [-> _]. cbn [fst]. set (groups := sort_by group_leb (groups_of survivors)).
  pose proof (sort_by_perm group_leb (groups_of survivors)) as Hp. fold groups in Hp.
  assert (groups.*1 ≡ₚ first_occurrences (key_of <$> survivors)) as Hkeys.
  { rewrite Hp. unfold groups_of. rewrite <-list_fmap_compose.
    rewrite <-(list_fmap_id (first_occurrences _)) at 2. done. }
  destruct (clusters_described survivors groups 1) as (cs & Hcs & Hranks & Hk & Hd & H2).
  { rewrite Hp. apply Forall_fmap, Forall_forall. intros key Hkey.
    split; [|done]. by apply first_occurrences_elem. }
  exists cs. split; [done|]. rewrite Hk. split; [|split; [|split; [|split; [|split]]]].
  - rewrite Hranks. by rewrite (Forall2_length _ _ _ H2).
  - rewrite Hkeys. apply first_occurrences_NoDup.
  - intros key. rewrite Hkeys. apply first_occurrences_elem.
  - done.
  - pose proof (sort_by_sorted group_leb group_leb_total group_leb_trans (groups_of survivors)) as Hsorted.
    fold groups in Hsorted. clear -Hsorted H2. induction H2 as [|g c gs cs [Hs Hm] H2 IH]; [constructor|].
    inversion Hsorted as [|? ? Hsorted' Hf]; subst. constructor; [by apply IH|].
    clear -H2 Hf Hs Hm. induction H2 as [|g' c' gs cs [Hs' Hm'] _ IH]; [constructor|].
    apply Forall_cons in Hf as [Hle Hf]. constructor; [|by apply IH].
    unfold group_leb in Hle. rewrite <-Hs, <-Hs', Hm, Hm' in Hle. unfold ranks_before.
    destruct (Nat.ltb_spec (cluster_size c') (cluster_size c)); [by left|].
    destruct (Nat.ltb_spec (cluster_size c) (cluster_size c')); [done|]. right. simpl in Hle.
    apply Z.leb_le in Hle. split; [lia|done].
  - assert (sum_list_with cluster_size cs = sum_list_with (fun g => length g.2) groups) as ->.
    { clear -H2. induction H2 as [|g c gs cs [Hs _] _ IH]; [done|].
      cbn [sum_list_with]. by rewrite Hs, IH. }
    rewrite <-(members_partition survivors (first_occurrences (key_of <$> survivors))).
    + rewrite Hp. unfold groups_of. clear. induction (first_occurrences _) as [|key keys IH]; [done|].
      rewrite fmap_cons. cbn [sum_list_with snd]. by rewrite IH.
    + apply first_occurrences_NoDup.
    + intros c Hc. apply first_occurrences_elem. by apply list_elem_of_fmap_2.
Qed.

(** * The report *)

Lemma clusters_some survivors : exists cs, clusters survivors = Some cs.
Proof.
  unfold clusters. pose proof (group_spec survivors) as Hg. destruct (foldl group_one ([], ∅) survivors) as [grouped slots].
  destruct Hg as [-> _]. cbn [fst].
  destruct (clusters_described survivors (sort_by group_leb (groups_of survivors)) 1) as (cs & Hcs & _); [|by exists cs].
  rewrite sort_by_perm. apply Forall_fmap, Forall_forall. intros key Hkey. split; [|done]. by apply first_occurrences_elem.
Qed.

(** The ladder answers with the strongest rung that keeps a candidate: the survivors of
    the report's tier are exactly the eligible candidates that pass it, no stronger rung
    keeps any, the reproduction rung needs a valid reproduction test, and every candidate
    is either eligible or excluded with its reason. *)
Theorem rank_ladder candidates valid :
  exists r, rank candidates valid = Some r /\
    let survivors := List.filter (passes (tier r)) (eligible candidates) in
    clusters survivors = Some (report_clusters r) /\
    survived r = length survivors /\
    (tier r = NoTier <-> eligible candidates = []) /\ (survivors = [] -> tier r = NoTier) /\
    (tier r = Reproduction -> valid = true) /\
    Forall (fun t => List.filter (passes t) (eligible candidates) = []) (stronger valid (tier r)) /\
    considered r = length candidates /\
    considered r = (length (eligible candidates) + length (excluded r))%nat /\
    excluded r = omap (fun c => reason ← exclusion c; Some {| excluded_id := id c; excluded_reason := reason |})
      (sort_by index_leb candidates).
Proof.
  unfold rank. rewrite part_spec. cbn [fst snd app]. fold (eligible candidates).
  pose proof (ladder_spec (eligible candidates) valid) as Hl.
  destruct (ladder (eligible candidates) valid) as [t survivors]. destruct Hl as (-> & Hno & Hne & Hrep & Hst).
  destruct (clusters_some (List.filter (passes t) (eligible candidates))) as (cs & Hcs).
  rewrite Hcs. cbn [mbind option_bind]. eexists. split; [done|]. cbn [tier survived considered report_clusters excluded].
  repeat split; try done; try apply Hno; try done.
  unfold eligible. rewrite <-(Permutation_length (sort_by_perm index_leb candidates)) at 1.
  induction (sort_by index_leb candidates) as [|c l IH]; [done|]. csimpl. destruct (exclusion c); simpl; lia.
Qed.

(** The report depends on the candidates only as a set: listing candidates whose indices
    differ in another order gives the same report, winner included. *)
Theorem rank_order_independent candidates candidates' valid
  (Hnd : NoDup (index <$> candidates)) (Hp : candidates ≡ₚ candidates') :
  rank candidates valid = rank candidates' valid.
Proof.
  assert (sort_by index_leb candidates = sort_by index_leb candidates') as Hs.
  { apply (sorted_perm_eq (fun x y => index_leb x y = true)).
    - intros x y Hx Hy Hxy Hyx. rewrite sort_by_perm in Hx, Hy.
      apply list_elem_of_lookup in Hx as [i Hi]. apply list_elem_of_lookup in Hy as [j Hj].
      assert (i = j) as ->; [|congruence].
      apply (NoDup_lookup (index <$> candidates) i j (index x)); [done|..]; rewrite list_lookup_fmap.
      + by rewrite Hi.
      + rewrite Hj. simpl. f_equal. unfold index_leb in *. apply Z.leb_le in Hxy, Hyx. lia.
    - apply (sort_by_sorted _ index_leb_total index_leb_trans).
    - apply (sort_by_sorted _ index_leb_total index_leb_trans).
    - by rewrite !sort_by_perm. }
  unfold rank. rewrite Hs. by rewrite (Permutation_length Hp).
Qed.

Definition sample_candidate (i : Z) (key : str) : VoteCandidate :=
  {| id := dec_text i; index := i; applied := true; equivalence_key := Some key; regression := Passed;
     reproduction_passed := false |}.

Lemma rank_order_independent_witness :
  rank [sample_candidate 2 (lit "a"); sample_candidate 0 (lit "b"); sample_candidate 1 (lit "a")] false =
  rank [sample_candidate 0 (lit "b"); sample_candidate 1 (lit "a"); sample_candidate 2 (lit "a")] false.
Proof.
  apply (rank_order_independent
    [sample_candidate 2 (lit "a"); sample_candidate 0 (lit "b"); sample_candidate 1 (lit "a")]).
  - apply (bool_decide_unpack _). vm_compute. exact I.
  - exact (Permutation_cons_append [sample_candidate 0 (lit "b"); sample_candidate 1 (lit "a")]
      (sample_candidate 2 (lit "a"))).
Defined.
