(* ===== verification/Diff.v ===== *)
(** Line diffs: crates/text/src/diff.rs.

    The longest-match sequence matcher with automatic junk, the opcodes between its blocks,
    and the unified diff.  The theorems: the blocks are common runs in order that end at
    the ends of both texts, the opcodes rebuild the second text from the first, and the
    diff of two texts is empty exactly when they are equal.

    A position is an index into a list of lines; [line_at] is indexing, which the program
    only does in range.  The stack of spans of [blocks] has fuel; [blocks_total] shows that
    twice the lines of the first text are enough. *)

From S2P Require Import Prelude RustStr.

Notation Block := (nat * nat * nat)%type (only parsing).

Definition CONTEXT : nat := 3.

Inductive Tag := Replace | Delete | Insert | Equal.

#[export] Instance Tag_eq_dec : EqDecision Tag.
Proof. solve_decision. Defined.

Record Opcode := { tag : Tag; a_start : nat; a_end : nat; b_start : nat; b_end : nat }.

(** The first and the last [n] lines of an equal run. *)
Definition opcode_head (o : Opcode) (n : nat) : Opcode :=
  {| tag := tag o; a_start := a_start o; a_end := Nat.min (a_end o) (a_start o + n);
     b_start := b_start o; b_end := Nat.min (b_end o) (b_start o + n) |}.
Definition opcode_tail (o : Opcode) (n : nat) : Opcode :=
  {| tag := tag o; a_start := Nat.max (a_start o) (a_end o - n); a_end := a_end o;
     b_start := Nat.max (b_start o) (b_end o - n); b_end := b_end o |}.

Record Span := { a_low : nat; a_high : nat; b_low : nat; b_high : nat }.

(** The positions of each line in [b], without the popular lines. *)
Definition add_position (positions : gmap str (list nat)) (entry : nat * str) : gmap str (list nat) :=
  <[entry.2 := default [] (positions !! entry.2) ++ [entry.1]]> positions.

Definition enumerate {A} (l : list A) : list (nat * A) := zip (seq 0 (length l)) l.

Definition positions (b : list str) : gmap str (list nat) :=
  let positions := foldl add_position ∅ (enumerate b) in
  if 200 <=? length b then
    let most := length b / 100 + 1 in
    filter (fun entry => length entry.2 <= most) positions
  else positions.

Section Matcher.
Variables (a b : list str) (index : gmap str (list nat)).

Definition line_at (l : list str) (i : nat) : str := nth i l [].

(** The part of the indices inside the span. *)
Fixpoint skip_while (f : nat -> bool) (l : list nat) : list nat :=
  match l with
  | x :: l' => if f x then skip_while f l' else l
  | [] => []
  end.
Fixpoint take_while_nat (f : nat -> bool) (l : list nat) : list nat :=
  match l with
  | x :: l' => if f x then x :: take_while_nat f l' else []
  | [] => []
  end.

(** One index [j] of the loop of [runs_ending_at]: the ends so far and the first of the
    longest. *)
Definition run_ending (i : nat) (previous : gmap nat nat) (st : gmap nat nat * Block) (j : nat)
  : gmap nat nat * Block :=
  let '(ends, longest) := st in
  let before := match j with O => None | S end_ => previous !! end_ end in
  let size := match before with Some run => run + 1 | None => 1 end in
  (<[j := size]> ends,
   if longest.2 <? size then (i + 1 - size, j + 1 - size, size) else longest).

Definition runs_ending_at (i : nat) (span : Span) (previous : gmap nat nat) : gmap nat nat * Block :=
  let indices := default [] (index !! line_at a i) in
  let in_span := take_while_nat (fun j => j <? b_high span) (skip_while (fun j => j <? b_low span) indices) in
  foldl (run_ending i previous) (∅, (i, b_low span, 0)) in_span.

Definition longest_step (span : Span) (st : Block * gmap nat nat) (i : nat) : Block * gmap nat nat :=
  let '(best, run_ends) := st in
  let '(ends, longest) := runs_ending_at i span run_ends in
  (if best.2 <? longest.2 then longest else best, ends).

Definition longest_indexed_match (span : Span) : Block :=
  (foldl (longest_step span) ((a_low span, b_low span, 0), ∅)
     (seq (a_low span) (a_high span - a_low span))).1.

(** The loops of [longest_match] that extend a block to the left and to the right. *)
Fixpoint extend_left (span : Span) (i j size : nat) : Block :=
  match i with
  | O => (i, j, size)
  | S i' =>
      if (a_low span <? i) && (b_low span <? j) && bool_decide (line_at a i' = line_at b (j - 1))
      then extend_left span i' (j - 1) (size + 1)
      else (i, j, size)
  end.
Fixpoint extend_right (fuel : nat) (span : Span) (i j size : nat) : Block :=
  match fuel with
  | O => (i, j, size)
  | S fuel' =>
      if (i + size <? a_high span) && (j + size <? b_high span)
         && bool_decide (line_at a (i + size) = line_at b (j + size))
      then extend_right fuel' span i j (size + 1)
      else (i, j, size)
  end.

Definition longest_match (span : Span) : Block :=
  let '(i, j, size) := longest_indexed_match span in
  let '(i, j, size) := extend_left span i j size in
  extend_right (a_high span) span i j size.

(** The loop of [blocks] over the stack of spans, its top first. *)
Fixpoint blocks_loop (fuel : nat) (pending : list Span) (found : list Block) : option (list Block) :=
  match pending with
  | [] => Some found
  | span :: pending =>
      match fuel with
      | O => None
      | S fuel' =>
          let '(i, j, size) := longest_match span in
          if size =? 0 then blocks_loop fuel' pending found
          else
            let pending :=
              if (a_low span <? i) && (b_low span <? j)
              then {| a_low := a_low span; a_high := i; b_low := b_low span; b_high := j |} :: pending
              else pending in
            let pending :=
              if (i + size <? a_high span) && (j + size <? b_high span)
              then {| a_low := i + size; a_high := a_high span; b_low := j + size; b_high := b_high span |} :: pending
              else pending in
            blocks_loop fuel' pending (found ++ [(i, j, size)])
      end
  end.

Definition blocks : option (list Block) :=
  blocks_loop (2 * length a + 1)
    [{| a_low := 0; a_high := length a; b_low := 0; b_high := length b |}] [].
End Matcher.

(** [sort_unstable] on tuples: lexicographic. *)
Definition block_leb (x y : Block) : bool :=
  let '(i, j, k) := x in
  let '(i', j', k') := y in
  (i <? i') || (i =? i') && ((j <? j') || (j =? j') && (k <=? k')).

(** The loop of [merge_adjacent]: the blocks merged so far and the current one. *)
Definition merge_one (st : list Block * Block) (block : Block) : list Block * Block :=
  let '(merged, (ci, cj, csize)) := st in
  let '(i, j, size) := block in
  if (ci + csize =? i) && (cj + csize =? j) then (merged, (ci, cj, csize + size))
  else (if 0 <? csize then merged ++ [(ci, cj, csize)] else merged, (i, j, size)).

Definition merge_adjacent (found : list Block) : list Block :=
  let '(merged, current) := foldl merge_one ([], (0, 0, 0)) found in
  if 0 <? current.2 then merged ++ [current] else merged.

Definition matching_blocks (a b : list str) : option (list Block) :=
  found ← blocks a b (positions b);
  Some (merge_adjacent (sort_by block_leb found) ++ [(length a, length b, 0)]).

Definition change_tag (removes adds : bool) : option Tag :=
  match removes, adds with
  | true, true => Some Replace
  | true, false => Some Delete
  | false, true => Some Insert
  | false, false => None
  end.

Definition opcode_step (st : nat * nat * list Opcode) (block : Block) : nat * nat * list Opcode :=
  let '(i, j, codes) := st in
  let '(a_at, b_at, size) := block in
  let codes := match change_tag (i <? a_at) (j <? b_at) with
               | Some tag => codes ++ [{| tag := tag; a_start := i; a_end := a_at; b_start := j; b_end := b_at |}]
               | None => codes
               end in
  let codes := if 0 <? size
               then codes ++ [{| tag := Equal; a_start := a_at; a_end := a_at + size;
                                 b_start := b_at; b_end := b_at + size |}]
               else codes in
  (a_at + size, b_at + size, codes).

Definition opcodes (a b : list str) : option (list Opcode) :=
  blocks ← matching_blocks a b;
  Some (foldl opcode_step (0, 0, []) blocks).2.

Definition is_equal (o : Opcode) : bool := bool_decide (tag o = Equal).

Definition trimmed_first (codes : list Opcode) (context : nat) : list Opcode :=
  match codes with
  | first :: rest => (if is_equal first then opcode_tail first context else first) :: rest
  | [] => []
  end.
Definition trimmed_last (codes : list Opcode) (context : nat) : list Opcode :=
  match last codes with
  | Some l => if is_equal l then removelast codes ++ [opcode_head l context] else codes
  | None => codes
  end.
Definition trimmed_ends (codes : list Opcode) (context : nat) : list Opcode :=
  trimmed_last (trimmed_first codes context) context.

(** The loop of [grouped_opcodes]: the groups that are done and the group in progress. *)
Definition group_step (context : nat) (st : list (list Opcode) * list Opcode) (code : Opcode)
  : list (list Opcode) * list Opcode :=
  let '(groups, group) := st in
  if is_equal code && (2 * context <? a_end code - a_start code)
  then (groups ++ [group ++ [opcode_head code context]], [opcode_tail code context])
  else (groups, group ++ [code]).

Definition grouped_opcodes (a b : list str) (context : nat) : option (list (list Opcode)) :=
  codes ← opcodes a b;
  let '(groups, group) := foldl (group_step context) ([], []) (trimmed_ends codes context) in
  let only_context := match group with [code] => is_equal code | _ => false end in
  Some (if match group with [] => false | _ => true end && negb only_context then groups ++ [group] else groups).

Definition marked (mark : char) (lines : list str) : list str := (fun line => mark :: line) <$> lines.

Definition slice (l : list str) (from to : nat) : list str := take (to - from) (drop from l).

Definition hunk_range (start stop : nat) : str :=
  match stop - start with
  | 0 => nat_text start ++ lit ",0"
  | 1 => nat_text (start + 1)
  | n => nat_text (start + 1) ++ lit "," ++ nat_text n
  end.

Definition hunk_code (a b : list str) (code : Opcode) : list str :=
  let old_lines := slice a (a_start code) (a_end code) in
  if is_equal code then marked 32 old_lines
  else marked 45 old_lines ++ marked 43 (slice b (b_start code) (b_end code)).

Definition hunk (group : list Opcode) (a b : list str) : list str :=
  match group, last group with
  | first :: _, Some last =>
      (lit "@@ -" ++ hunk_range (a_start first) (a_end last) ++ lit " +" ++
       hunk_range (b_start first) (b_end last) ++ lit " @@") :: concat (map (hunk_code a b) group)
  | _, _ => [] (* [group[0]] panics; no group is empty *)
  end.

Definition unified_diff (a b : list str) : option (list str) :=
  groups ← grouped_opcodes a b CONTEXT;
  Some match groups with
       | [] => []
       | _ => [lit "--- "; lit "+++ "] ++ concat (map (fun group => hunk group a b) groups)
       end.

Example diff_small :
  unified_diff [lit "a"; lit "b"; lit "c"] [lit "a"; lit "x"; lit "c"] =
  Some [lit "--- "; lit "+++ "; lit "@@ -1,3 +1,3 @@"; lit " a"; lit "-b"; lit "+x"; lit " c"].
Proof. vm_compute. reflexivity. Qed.

(** * The index of lines *)

(** The positions of a line in [b], in order. *)
Definition places (b : list str) (line : str) : list nat :=
  List.filter (fun j => bool_decide (line_at b j = line)) (seq 0 (length b)).

(** An index of [b]: the places of the lines it keeps. *)
Definition is_index (b : list str) (index : gmap str (list nat)) (kept : str -> bool) : Prop :=
  forall line, default [] (index !! line) = if kept line then places b line else [].

Lemma foldl_positions entries m line :
  default [] (foldl add_position m entries !! line) =
  default [] (m !! line) ++ map fst (List.filter (fun entry : nat * str => bool_decide (entry.2 = line)) entries).
Proof.
  revert m. induction entries as [|[i l] entries IH]; intros m; simpl; [by rewrite app_nil_r|].
  rewrite IH. unfold add_position at 1. simpl. case_bool_decide as Hl.
  - subst l. rewrite lookup_insert_eq. simpl. by rewrite <-app_assoc.
  - by rewrite lookup_insert_ne.
Qed.

Lemma enumerate_places b line k :
  map fst (List.filter (fun entry : nat * str => bool_decide (entry.2 = line)) (zip (seq k (length b)) b)) =
  List.filter (fun j => bool_decide (nth (j - k) b [] = line)) (seq k (length b)).
Proof.
  revert k. induction b as [|l b IH]; intros k; [done|]. cbn [length seq zip zip_with List.filter snd].
  rewrite Nat.sub_diag. change (nth 0 (l :: b) []) with l.
  assert (List.filter (fun j => bool_decide (nth (j - k) (l :: b) [] = line)) (seq (S k) (length b)) =
    List.filter (fun j => bool_decide (nth (j - S k) b [] = line)) (seq (S k) (length b))) as ->.
  { apply filter_ext_in_list. intros j Hj%in_seq. by replace (j - k) with (S (j - S k)) by lia. }
  rewrite <-IH. by case_bool_decide.
Qed.

Lemma positions_index b : exists kept, is_index b (positions b) kept.
Proof.
  assert (forall line, default [] (foldl add_position ∅ (enumerate b) !! line) = places b line) as Hall.
  { intros line. rewrite foldl_positions. unfold enumerate. rewrite enumerate_places, lookup_empty. simpl.
    apply filter_ext_in_list. intros j _. by rewrite Nat.sub_0_r. }
  unfold positions. destruct (200 <=? length b).
  - set (most := length b / 100 + 1). exists (fun line => length (places b line) <=? most). intros line.
    rewrite <-Hall. rewrite map_lookup_filter.
    destruct (foldl add_position ∅ (enumerate b) !! line) as [l|]; simpl; [|done].
    destruct (Nat.leb_spec (length l) most).
    + rewrite option_guard_True by done. done.
    + rewrite option_guard_False by (simpl; lia). done.
  - exists (fun _ => true). intros line. apply Hall.
Qed.

Lemma in_span_filter lo hi l : StronglySorted lt l ->
  take_while_nat (fun j => j <? hi) (skip_while (fun j => j <? lo) l) =
  List.filter (fun j => (lo <=? j) && (j <? hi)) l.
Proof.
  induction 1 as [|x l Hl IH Hx]; [done|]. cbn [skip_while List.filter].
  destruct (Nat.ltb_spec x lo) as [Hlo|Hlo].
  - rewrite (proj2 (Nat.leb_gt _ _)) by done. exact IH.
  - rewrite (proj2 (Nat.leb_le _ _)) by done. cbn [take_while_nat andb].
    assert (skip_while (fun j => j <? lo) l = l) as Hskip.
    { destruct l as [|y l]; [done|]. apply Forall_cons in Hx as [Hxy _]. simpl.
      by rewrite (proj2 (Nat.ltb_ge _ _)) by lia. }
    rewrite Hskip in IH. destruct (Nat.ltb_spec x hi); [by rewrite IH|].
    symmetry. apply filter_nil_iff_false. intros y Hy%list_elem_of_In. rewrite Forall_forall in Hx.
    specialize (Hx y Hy). rewrite (proj2 (Nat.ltb_ge y hi)) by lia. apply andb_false_r.
Qed.

Lemma seq_sorted k n : StronglySorted lt (seq k n).
Proof.
  revert k. induction n as [|n IH]; intros k; simpl; [constructor|]. constructor; [apply IH|].
  apply Forall_forall. intros x Hx%elem_of_seq. lia.
Qed.

Lemma filter_sorted (f : nat -> bool) l : StronglySorted lt l -> StronglySorted lt (List.filter f l).
Proof.
  induction 1 as [|x l Hl IH Hx]; [constructor|]. simpl. destruct (f x); [|done]. constructor; [done|].
  apply Forall_forall. intros y Hy%list_elem_of_In. apply filter_In in Hy as [Hy _].
  rewrite Forall_forall in Hx. by apply Hx, list_elem_of_In.
Qed.

(** * The longest indexed match *)

Section Longest.
Variables (a b : list str) (index : gmap str (list nat)) (kept : str -> bool).
Hypothesis Hindex : is_index b index kept.

Section InSpan.
Variable span : Span.
Hypothesis Hspan : b_high span <= length b.

(** Line [i] of [a] is kept and is line [j] of [b], inside the span. *)
Definition hit (i j : nat) : bool :=
  kept (line_at a i) && bool_decide (line_at b j = line_at a i) && (b_low span <=? j) && (j <? b_high span).

(** The length of the run of hits that ends at [(i, j)]. *)
Fixpoint run_len (i j : nat) : nat :=
  if hit i j then
    S (match i, j with S i', S j' => if a_low span <? i then run_len i' j' else 0 | _, _ => 0 end)
  else 0.

Lemma run_len_hit i j : hit i j = true ->
  run_len i j = S (match i, j with S i', S j' => if a_low span <? i then run_len i' j' else 0 | _, _ => 0 end).
Proof. intros H. destruct i, j; cbn [run_len]; by rewrite H. Qed.
Lemma run_len_miss i j : hit i j = false -> run_len i j = 0.
Proof. intros H. destruct i, j; cbn [run_len]; by rewrite H. Qed.

(** The ends of runs on row [i], in order. *)
Definition row (i : nat) : list nat := List.filter (hit i) (seq 0 (length b)).

Lemma row_elem i j : j ∈ row i <-> hit i j = true.
Proof.
  unfold row. rewrite list_elem_of_In, filter_In, in_seq. split; [by intros [_ ?]|]. intros H. split; [|done].
  unfold hit in H. bool_hyps. match goal with H : (j <? _) = true |- _ => apply Nat.ltb_lt in H end. lia.
Qed.

Lemma in_span_row i :
  take_while_nat (fun j => j <? b_high span) (skip_while (fun j => j <? b_low span) (default [] (index !! line_at a i)))
  = row i.
Proof.
  rewrite Hindex. unfold row, hit. destruct (kept (line_at a i)); simpl.
  - rewrite in_span_filter by apply filter_sorted, seq_sorted. unfold places. clear.
    induction (seq 0 (length b)) as [|x l IH]; [done|]. simpl. rewrite <-IH. case_bool_decide; simpl; [done|done].
  - symmetry. by apply filter_nil_iff_false.
Qed.

(** What [run_ends] holds after row [i]. *)
Definition row_ends (i : nat) (ends : gmap nat nat) : Prop :=
  forall j s, ends !! j = Some s <-> hit i j = true /\ s = run_len i j.

(** The first of the longest runs among the ends [js] of row [i]. *)
Definition row_best (i : nat) (js : list nat) (best : nat * nat * nat) : Prop :=
  js = [] /\ best = (i, b_low span, 0) \/
  exists j, j ∈ js /\ best = (i + 1 - run_len i j, j + 1 - run_len i j, run_len i j) /\
    (forall j', j' ∈ js -> run_len i j' <= run_len i j) /\
    (forall j', j' ∈ js -> j' < j -> run_len i j' < run_len i j).

Lemma run_ending_fold i previous js :
  (forall j, j ∈ js -> hit i j = true) -> StronglySorted lt js ->
  (if a_low span <? i then row_ends (i - 1) previous else previous = ∅) ->
  let '(ends, longest) := foldl (run_ending i previous) (∅, (i, b_low span, 0)) js in
  (forall j s, ends !! j = Some s <-> j ∈ js /\ s = run_len i j) /\ row_best i js longest.
Proof.
  intros Hhit Hs Hprev. induction js as [|j js IH] using rev_ind.
  { split; [|by left]. intros j s. rewrite lookup_empty. split; [done|]. intros [H _]. by apply elem_of_nil in H. }
  apply StronglySorted_app in Hs as (Hlt & Hs & _).
  rewrite foldl_app. destruct (foldl _ _ js) as [ends longest].
  destruct IH as [Hends Hbest]; [intros; apply Hhit; set_solver|done|]. cbn [foldl run_ending].
  set (size := match match j with O => None | S end_ => previous !! end_ end with Some run => run + 1 | None => 1 end).
  assert (size = run_len i j) as ->.
  { rewrite (run_len_hit i j) by (apply Hhit; set_solver). unfold size. destruct j as [|j0]; [by destruct i|].
    destruct i as [|i0].
    - rewrite (proj2 (Nat.ltb_ge _ _)) in Hprev by lia. subst previous. by rewrite lookup_empty.
    - destruct (a_low span <? S i0); [|subst previous; by rewrite lookup_empty].
      simpl in Hprev. rewrite Nat.sub_0_r in Hprev. destruct (previous !! j0) as [r|] eqn:E.
      + apply Hprev in E as [_ ->]. lia.
      + destruct (hit i0 j0) eqn:Eh; [|by rewrite run_len_miss].
        assert (previous !! j0 = Some (run_len i0 j0)) by by apply Hprev. congruence. }
  split.
  - intros j' s. rewrite lookup_insert_Some, Hends, elem_of_app, list_elem_of_singleton.
    split; [intros [[-> <-]|[? [? ->]]]; auto|]. intros [[Hj| ->] ->]; [|by left].
    destruct (decide (j = j')) as [->|]; [by left|by right].
  - right. assert (0 < run_len i j) as Hpos by (rewrite run_len_hit by (apply Hhit; set_solver); lia).
    assert (forall j', j' ∈ js -> j' < j) as Hjs by (intros j' Hj'; apply (Hlt j' j); set_solver).
    destruct Hbest as [[-> ->]|(m & Hm & -> & Hle & Hfirst)].
    + exists j. cbn [snd]. rewrite (proj2 (Nat.ltb_lt _ _)) by done. split; [set_solver|]. split; [done|].
      split; intros j'; set_solver by lia.
    + cbn [snd]. destruct (Nat.ltb_spec (run_len i m) (run_len i j)).
      * exists j. split; [set_solver|]. split; [done|].
        split; intros j' [Hj'| ->%list_elem_of_singleton]%elem_of_app; try lia; specialize (Hle j' Hj'); lia.
      * exists m. split; [set_solver|]. split; [done|]. split.
        -- intros j' [Hj'| ->%list_elem_of_singleton]%elem_of_app; [by apply Hle|lia].
        -- intros j' [Hj'| ->%list_elem_of_singleton]%elem_of_app Hlt'; [by apply Hfirst|].
           specialize (Hjs m Hm). lia.
Qed.

Lemma runs_ending_at_spec i previous :
  (if a_low span <? i then row_ends (i - 1) previous else previous = ∅) ->
  let '(ends, longest) := runs_ending_at a index i span previous in
  row_ends i ends /\ row_best i (row i) longest.
Proof.
  intros Hprev. unfold runs_ending_at. rewrite in_span_row.
  pose proof (run_ending_fold i previous (row i)) as H.
  destruct (foldl _ _ (row i)) as [ends longest]. destruct H as [He Hbest];
    [by intros j ?%row_elem|apply filter_sorted, seq_sorted|done|].
  split; [|done]. intros j s. rewrite He. by rewrite row_elem.
Qed.

(** The first of the longest runs among the rows below [n]. *)
Definition best_of (n : nat) (best : nat * nat * nat) : Prop :=
  (forall i j, a_low span <= i < n -> run_len i j <= best.2) /\
  (best = (a_low span, b_low span, 0) \/
   exists i j, a_low span <= i < n /\ hit i j = true /\
     best = (i + 1 - run_len i j, j + 1 - run_len i j, run_len i j) /\
     forall i' j', a_low span <= i' -> i' < i \/ i' = i /\ j' < j -> run_len i' j' < run_len i j).

Lemma longest_fold n :
  let '(best, ends) := foldl (longest_step a index span) ((a_low span, b_low span, 0), ∅) (seq (a_low span) n) in
  best_of (a_low span + n) best /\
  (if a_low span <? a_low span + n then row_ends (a_low span + n - 1) ends else ends = ∅).
Proof.
  induction n as [|n IH].
  { simpl. rewrite Nat.add_0_r, Nat.ltb_irrefl. split; [|done]. split; [intros i j ?; lia|by left]. }
  rewrite seq_S, foldl_app. destruct (foldl _ _ (seq (a_low span) n)) as [best ends]. destruct IH as [[Hle Hbest] Hends].
  cbn [foldl longest_step]. pose proof (runs_ending_at_spec (a_low span + n) ends Hends) as Hrow.
  destruct (runs_ending_at a index (a_low span + n) span ends) as [ends' longest]. destruct Hrow as [He Hrb].
  rewrite (proj2 (Nat.ltb_lt (a_low span) (a_low span + S n))) by lia. replace (a_low span + S n - 1) with (a_low span + n) by lia.
  split; [|done]. set (r := a_low span + n) in *. replace (a_low span + S n) with (S r) by (unfold r; lia).
  assert (forall j, run_len r j <= longest.2) as Hrow.
  { intros j. destruct (hit r j) eqn:Eh; [|by rewrite run_len_miss by done; lia]. apply row_elem in Eh.
    destruct Hrb as [[Hr _]|(m & _ & -> & Hmax & _)]; [rewrite Hr in Eh; by apply elem_of_nil in Eh|by apply Hmax]. }
  destruct (Nat.ltb_spec best.2 longest.2) as [Hlt|Hge].
  - split.
    + intros i j Hi. destruct (decide (i = r)) as [->|]; [apply Hrow|]. specialize (Hle i j ltac:(lia)). lia.
    + right. destruct Hrb as [[_ ->]|(m & Hm & -> & Hmax & Hfirst)]; [simpl in Hlt; lia|]. simpl in Hlt.
      apply row_elem in Hm. exists r, m. split; [lia|]. split; [done|]. split; [done|].
      intros i' j' Hi' [Hlt'|[-> Hj']]; [specialize (Hle i' j' ltac:(lia)); lia|].
      destruct (hit r j') eqn:Eh; [|rewrite (run_len_miss r j') by done; lia].
      apply Hfirst; [by apply row_elem|done].
  - split.
    + intros i j Hi. destruct (decide (i = r)) as [->|]; [specialize (Hrow j); lia|]. apply Hle. lia.
    + destruct Hbest as [->|(i & j & Hi & H)]; [by left|]. right. exists i, j. split; [lia|done].
Qed.

Lemma longest_indexed_spec : a_low span <= a_high span -> best_of (a_high span) (longest_indexed_match a index span).
Proof.
  intros Hle. unfold longest_indexed_match. pose proof (longest_fold (a_high span - a_low span)) as H.
  destruct (foldl _ _ _) as [best ends]. destruct H as [H _]. cbn [fst]. by replace (a_high span) with
    (a_low span + (a_high span - a_low span)) by lia.
Qed.

(** The lines of a run are equal. *)
Lemma run_len_lines i j : a_low span <= i ->
  a_low span + run_len i j <= i + 1 /\ (hit i j = true -> b_low span + run_len i j <= j + 1) /\
  forall d, d < run_len i j -> line_at a (i - d) = line_at b (j - d).
Proof.
  revert j. induction i as [|i IH]; intros j Hi; (destruct (hit _ j) eqn:Eh;
    [|rewrite run_len_miss by done; split; [lia|]; split; [done|intros; lia]]); rewrite run_len_hit by done;
    (assert (line_at b j = line_at a _ /\ b_low span <= j) as [Hl Hj] by
      (unfold hit in Eh; bool_hyps; split; [eassumption|by apply Nat.leb_le])).
  - split; [lia|]. split; [lia|]. intros d Hd. by replace (j - d) with j by lia; replace d with 0 by lia.
  - destruct j as [|j]; [split; [lia|]; split; [lia|]; intros d Hd; by replace d with 0 by lia|].
    destruct (Nat.ltb_spec (a_low span) (S i)) as [Hlo|Hlo];
      [|split; [lia|]; split; [lia|]; intros d Hd; by replace d with 0 by lia; rewrite !Nat.sub_0_r].
    destruct (IH j ltac:(lia)) as (H1 & H2 & H3).
    split; [lia|]. split.
    + intros _. destruct (hit i j) eqn:Eh'; [specialize (H2 eq_refl); lia|rewrite run_len_miss by done; lia].
    + intros [|d] Hd; [by rewrite !Nat.sub_0_r|]. simpl. apply H3. lia.
Qed.
End InSpan.
End Longest.

(** * Blocks *)

(** [size] equal lines at [i] and [j]. *)
Definition matches (a b : list str) (i j size : nat) : Prop :=
  forall d, d < size -> line_at a (i + d) = line_at b (j + d).

Definition in_span (span : Span) (i j size : nat) : Prop :=
  a_low span <= i /\ i + size <= a_high span /\ b_low span <= j /\ j + size <= b_high span.

Definition span_ok (a b : list str) (span : Span) : Prop :=
  a_low span <= a_high span <= length a /\ b_low span <= b_high span <= length b.

Section Blocks.
Variables (a b : list str) (index : gmap str (list nat)) (kept : str -> bool).
Hypothesis Hindex : is_index b index kept.

Lemma longest_indexed_valid span i j size : span_ok a b span ->
  longest_indexed_match a index span = (i, j, size) -> in_span span i j size /\ matches a b i j size.
Proof.
  intros [Ha Hb] E. pose proof (longest_indexed_spec a b index kept Hindex span ltac:(lia) ltac:(lia)) as [_ H].
  rewrite E in H. destruct H as [[= -> -> ->]|(ei & ej & Hi & Hhit & [= -> -> ->] & _)].
  { split; [unfold in_span; lia|intros d Hd; lia]. }
  destruct (run_len_lines a b kept span ltac:(lia) ei ej ltac:(lia)) as (H1 & H2 & H3). specialize (H2 Hhit).
  assert (ej < b_high span) by (unfold hit in Hhit; bool_hyps; by apply Nat.ltb_lt).
  set (r := run_len a b kept span ei ej) in *.
  split; [unfold in_span; lia|]. intros d Hd.
  replace (ei + 1 - r + d) with (ei - (r - 1 - d)) by lia. replace (ej + 1 - r + d) with (ej - (r - 1 - d)) by lia.
  apply H3. lia.
Qed.

Lemma extend_left_valid span i j size i' j' size' :
  in_span span i j size -> matches a b i j size -> extend_left a b span i j size = (i', j', size') ->
  in_span span i' j' size' /\ matches a b i' j' size' /\ size <= size' /\
  i' + size' = i + size /\ j' + size' = j + size.
Proof.
  revert j size. induction i as [|i IH]; intros j size Hin Hm; cbn [extend_left].
  { intros [= <- <- <-]. auto. }
  destruct (_ && _ && _) eqn:E; [|intros [= <- <- <-]; auto]. bool_hyps.
  repeat match goal with H : (_ <? _) = true |- _ => apply Nat.ltb_lt in H end.
  intros H'. destruct (IH (j - 1) (size + 1)) as (? & ? & ? & ? & ?); [..|exact H'|].
  - unfold in_span in *. lia.
  - intros [|d] Hd; [by rewrite !Nat.add_0_r|]. replace (i + S d) with (S i + d) by lia.
    replace (j - 1 + S d) with (j + d) by lia. apply Hm. lia.
  - split; [done|]. split; [done|]. lia.
Qed.

Lemma extend_right_valid fuel span i j size i' j' size' :
  in_span span i j size -> matches a b i j size -> extend_right a b fuel span i j size = (i', j', size') ->
  in_span span i' j' size' /\ matches a b i' j' size' /\ size <= size'.
Proof.
  revert size. induction fuel as [|fuel IH]; intros size Hin Hm; cbn [extend_right].
  { intros [= <- <- <-]. auto. }
  destruct (_ && _ && _) eqn:E; [|intros [= <- <- <-]; auto]. bool_hyps.
  repeat match goal with H : (_ <? _) = true |- _ => apply Nat.ltb_lt in H end.
  intros H'. destruct (IH (size + 1)) as (? & ? & ?); [..|exact H'|].
  - unfold in_span in *. lia.
  - intros d Hd. destruct (decide (d = size)) as [->|]; [done|]. apply Hm. lia.
  - split; [done|]. split; [done|]. lia.
Qed.

Lemma longest_match_valid span i j size : span_ok a b span ->
  longest_match a b index span = (i, j, size) -> in_span span i j size /\ matches a b i j size.
Proof.
  intros Hok. unfold longest_match. destruct (longest_indexed_match a index span) as [[i0 j0] s0] eqn:E0.
  destruct (longest_indexed_valid span i0 j0 s0 Hok E0) as [Hin Hm].
  destruct (extend_left a b span i0 j0 s0) as [[i1 j1] s1] eqn:E1.
  destruct (extend_left_valid span i0 j0 s0 i1 j1 s1 Hin Hm E1) as (Hin1 & Hm1 & _).
  intros E2. by destruct (extend_right_valid _ span i1 j1 s1 i j size Hin1 Hm1 E2) as (? & ? & _).
Qed.

(** Common runs in order, from one position to another. *)
Fixpoint chain (i j : nat) (bs : list (nat * nat * nat)) (i' j' : nat) : Prop :=
  match bs with
  | [] => i <= i' /\ j <= j'
  | (x, y, size) :: bs =>
      i <= x /\ j <= y /\ 0 < size /\ matches a b x y size /\ chain (x + size) (y + size) bs i' j'
  end.

Lemma chain_app i j bs1 x y bs2 i' j' : chain i j bs1 x y -> chain x y bs2 i' j' -> chain i j (bs1 ++ bs2) i' j'.
Proof.
  revert i j. induction bs1 as [|[[u v] s] bs1 IH]; intros i j; simpl.
  - intros [Hi Hj] H. destruct bs2 as [|[[u v] s] bs2]; simpl in *; [lia|]. destruct H as (H1 & H2 & H3).
    split; [lia|]. split; [lia|]. done.
  - intros (H1 & H2 & H3 & H4 & H5) H. do 4 (split; [done|]). by apply IH.
Qed.

Lemma chain_le i j bs i' j' : chain i j bs i' j' -> i <= i' /\ j <= j'.
Proof.
  revert i j. induction bs as [|[[u v] s] bs IH]; intros i j; simpl; [done|].
  intros (? & ? & ? & ? & H%IH). lia.
Qed.

(** The blocks of a span in order: the longest match, and those of the parts beside it. *)
Inductive span_blocks : Span -> list (nat * nat * nat) -> Prop :=
| no_match span i j : longest_match a b index span = (i, j, 0) -> span_blocks span []
| a_match span i j size left right :
    longest_match a b index span = (i, j, size) -> 0 < size ->
    part_blocks {| a_low := a_low span; a_high := i; b_low := b_low span; b_high := j |} left ->
    part_blocks {| a_low := i + size; a_high := a_high span; b_low := j + size; b_high := b_high span |} right ->
    span_blocks span (left ++ (i, j, size) :: right)
with part_blocks : Span -> list (nat * nat * nat) -> Prop :=
| empty_part span : ~ (a_low span < a_high span /\ b_low span < b_high span) -> part_blocks span []
| a_part span bs : a_low span < a_high span -> b_low span < b_high span -> span_blocks span bs ->
    part_blocks span bs.

Scheme span_blocks_mut := Induction for span_blocks Sort Prop
  with part_blocks_mut := Induction for part_blocks Sort Prop.

Lemma span_blocks_chain span bs : span_blocks span bs -> span_ok a b span ->
  chain (a_low span) (b_low span) bs (a_high span) (b_high span).
Proof.
  intros H. induction H as [span i j Hm|span i j size left right Hm Hpos Hl IHl Hr IHr|span Hn|span bs Ha Hb H IH]
    using span_blocks_mut with
    (P0 := fun span bs _ => span_ok a b span -> chain (a_low span) (b_low span) bs (a_high span) (b_high span));
    intros Hok.
  - unfold span_ok in Hok. simpl. lia.
  - destruct (longest_match_valid span i j size Hok Hm) as [(? & ? & ? & ?) Hmatch].
    eapply chain_app.
    + apply IHl. unfold span_ok in *. simpl. lia.
    + simpl. do 4 (split; [done|]). apply IHr. unfold span_ok in *. simpl. lia.
  - unfold span_ok in Hok. simpl. lia.
  - by apply IH.
Qed.

Definition measure (span : Span) : nat := 2 * (a_high span - a_low span) + 1.

(** The blocks of a part that the stack holds when it is not empty. *)
Lemma split_part part rest bss :
  Forall2 span_blocks (if (a_low part <? a_high part) && (b_low part <? b_high part) then part :: rest else rest) bss ->
  exists bs bss', part_blocks part bs /\ Forall2 span_blocks rest bss' /\ concat bss = bs ++ concat bss'.
Proof.
  destruct (Nat.ltb_spec (a_low part) (a_high part)), (Nat.ltb_spec (b_low part) (b_high part)); simpl;
    intros H2; try (exists [], bss; split; [apply empty_part; lia|done]).
  inversion H2; subst. eexists _, _. split; [by apply a_part|done].
Qed.

Lemma blocks_loop_spec fuel pending found :
  Forall (span_ok a b) pending -> sum_list_with measure pending <= fuel ->
  exists bss, Forall2 span_blocks pending bss /\
    exists r, blocks_loop a b index fuel pending found = Some r /\ r ≡ₚ found ++ concat bss.
Proof.
  revert pending found. induction fuel as [|fuel IH]; intros pending found Hok Hf.
  { destruct pending as [|span pending]; [|unfold measure in Hf; simpl in Hf; lia].
    exists []. split; [constructor|]. exists found. simpl. by rewrite app_nil_r. }
  destruct pending as [|span pending].
  { exists []. split; [constructor|]. exists found. simpl. by rewrite app_nil_r. }
  apply Forall_cons in Hok as [Hs Hok]. cbn [blocks_loop].
  cbn [sum_list_with] in Hf. unfold measure at 1 in Hf.
  destruct (longest_match a b index span) as [[i j] size] eqn:Em.
  destruct (longest_match_valid span i j size Hs Em) as [(H1 & H2 & H3 & H4) Hmatch].
  destruct (Nat.eqb_spec size 0) as [->|Hsize].
  { destruct (IH pending found Hok ltac:(lia)) as (bss & H2' & r & Hr & Hp).
    exists ([] :: bss). split; [constructor; [by eapply no_match|done]|]. by exists r. }
  set (lspan := {| a_low := a_low span; a_high := i; b_low := b_low span; b_high := j |}).
  set (rspan := {| a_low := i + size; a_high := a_high span; b_low := j + size; b_high := b_high span |}).
  assert (span_ok a b lspan /\ span_ok a b rspan) as [Hlok Hrok].
  { unfold span_ok, lspan, rspan in *. simpl. lia. }
  set (pending1 := if (a_low span <? i) && (b_low span <? j) then lspan :: pending else pending).
  set (pending2 := if (i + size <? a_high span) && (j + size <? b_high span) then rspan :: pending1 else pending1).
  assert (exists left right bss, part_blocks lspan left /\ part_blocks rspan right /\ Forall2 span_blocks pending bss /\
    exists r, blocks_loop a b index fuel pending2 (found ++ [(i, j, size)]) = Some r /\
      r ≡ₚ (found ++ [(i, j, size)]) ++ right ++ left ++ concat bss) as (left & right & bss & Hl & Hr & Hbss & r & Hres & Hp).
  { destruct (IH pending2 (found ++ [(i, j, size)])) as (bss & Hbss & r & Hr & Hp).
    - assert (Forall (span_ok a b) pending1) by (unfold pending1; case_match; [by constructor|done]).
      unfold pending2. case_match; [by constructor|done].
    - assert (sum_list_with measure pending2 <= measure lspan + measure rspan + sum_list_with measure pending) as Hm
        by (unfold pending2, pending1; repeat case_match; simpl; lia).
      unfold measure at 2 3 in Hm. unfold lspan, rspan in Hm. simpl in Hm. lia.
    - destruct (split_part rspan pending1 bss) as (right & bss1 & Hright & Hbss1 & Hc1); [exact Hbss|].
      destruct (split_part lspan pending bss1) as (left & bss2 & Hleft & Hbss2 & Hc2); [exact Hbss1|].
      exists left, right, bss2. do 3 (split; [done|]). exists r. split; [done|]. by rewrite Hp, Hc1, Hc2. }
  exists ((left ++ (i, j, size) :: right) :: bss). split.
  - constructor; [|done]. eapply a_match; [done|lia|done|done].
  - exists r. split; [done|]. rewrite Hp. simpl. rewrite <-!app_assoc. apply Permutation_app_head. simpl.
    rewrite <-Permutation_middle. apply perm_skip. rewrite !app_assoc.
    apply Permutation_app_tail, Permutation_app_comm.
Qed.
End Blocks.

Definition whole (a b : list str) : Span := {| a_low := 0; a_high := length a; b_low := 0; b_high := length b |}.

Lemma blocks_spec a b index kept : is_index b index kept ->
  exists bs found, span_blocks a b index (whole a b) bs /\ chain a b 0 0 bs (length a) (length b) /\
    blocks a b index = Some found /\ found ≡ₚ bs.
Proof.
  intros Hindex. assert (span_ok a b (whole a b)) as Hok by (unfold span_ok; simpl; lia).
  destruct (blocks_loop_spec a b index kept Hindex (2 * length a + 1) [whole a b] []) as (bss & Hbss & r & Hr & Hp).
  - by constructor.
  - unfold measure. simpl. lia.
  - inversion Hbss as [|? bs ? ? Hbs Hnil]; subst. inversion Hnil; subst.
    exists bs, r. split; [done|]. split; [by apply (span_blocks_chain a b index kept Hindex _ _ Hbs)|].
    split; [done|]. simpl in Hp. by rewrite app_nil_r in Hp.
Qed.

Lemma block_leb_total x y : block_leb x y = true \/ block_leb y x = true.
Proof.
  destruct x as [[i j] k], y as [[i' j'] k']. unfold block_leb.
  destruct (Nat.ltb_spec i i'), (Nat.ltb_spec i' i), (Nat.eqb_spec i i'), (Nat.eqb_spec i' i),
    (Nat.ltb_spec j j'), (Nat.ltb_spec j' j), (Nat.eqb_spec j j'), (Nat.eqb_spec j' j),
    (Nat.leb_spec k k'), (Nat.leb_spec k' k); simpl; auto; lia.
Qed.

Lemma block_leb_spec i j k i' j' k' :
  block_leb (i, j, k) (i', j', k') = true <-> i < i' \/ i = i' /\ (j < j' \/ j = j' /\ k <= k').
Proof.
  unfold block_leb.
  rewrite orb_true_iff, andb_true_iff, orb_true_iff, andb_true_iff, !Nat.ltb_lt, !Nat.eqb_eq, Nat.leb_le. done.
Qed.

Lemma block_leb_trans x y z : block_leb x y = true -> block_leb y z = true -> block_leb x z = true.
Proof. destruct x as [[? ?] ?], y as [[? ?] ?], z as [[? ?] ?]. rewrite !block_leb_spec. lia. Qed.

Lemma chain_sorted a b i j bs i' j' : chain a b i j bs i' j' ->
  StronglySorted (fun x y => block_leb x y = true) bs /\ Forall (fun block => i <= block.1.1) bs.
Proof.
  revert i j. induction bs as [|[[u v] s] bs IH]; intros i j; [by repeat constructor|].
  intros (Hi & Hj & Hs & _ & H). destruct (IH _ _ H) as [Hsort Hf]. split.
  - constructor; [done|]. eapply Forall_impl; [exact Hf|]. intros [[u' v'] s'] Hle. simpl in Hle.
    apply block_leb_spec. lia.
  - constructor; [simpl; lia|]. eapply Forall_impl; [exact Hf|]. intros ? Hle. cbn beta in *. lia.
Qed.

Lemma sort_blocks a b i j bs i' j' found :
  chain a b i j bs i' j' -> found ≡ₚ bs -> sort_by block_leb found = bs.
Proof.
  intros [Hs _]%chain_sorted Hp. apply (sorted_perm_eq (fun x y => block_leb x y = true)).
  - intros [[u v] s] [[u' v'] s'] _ _. rewrite !block_leb_spec. intros. f_equal; [f_equal|]; lia.
  - apply sort_by_sorted; [apply block_leb_total|apply block_leb_trans].
  - done.
  - by rewrite sort_by_perm.
Qed.

(** ** Merging *)

Definition block_end (x : nat * nat * nat) : nat * nat := (x.1.1 + x.2, x.1.2 + x.2).

(** Two blocks in a row leave a gap in one of the texts. *)
Definition apart (x y : nat * nat * nat) : Prop := block_end x <> (y.1.1, y.1.2).

Lemma matches_app a b i j s t : matches a b i j s -> matches a b (i + s) (j + s) t -> matches a b i j (s + t).
Proof.
  intros H1 H2 d Hd. destruct (decide (d < s)); [by apply H1|].
  replace (i + d) with (i + s + (d - s)) by lia. replace (j + d) with (j + s + (d - s)) by lia. apply H2. lia.
Qed.

Lemma Sorted_last {A} (R : A -> A -> Prop) l x y : (forall z, R z x -> R z y) ->
  Sorted R (l ++ [x]) -> Sorted R (l ++ [y]).
Proof.
  intros HR. induction l as [|z l IH]; intros H; [repeat constructor|].
  inversion H as [|? ? H' Hd]; subst. constructor; [by apply IH|]. destruct l as [|w l]; simpl in *.
  - inversion Hd; subst. constructor. by apply HR.
  - inversion Hd; subst. by constructor.
Qed.

Lemma Sorted_snoc_last {A} (R : A -> A -> Prop) l x y : R x y ->
  Sorted R (l ++ [x]) -> Sorted R ((l ++ [x]) ++ [y]).
Proof.
  intros HR. induction l as [|z l IH]; intros H; [repeat constructor; done|].
  inversion H as [|? ? H' Hd]; subst. constructor; [by apply IH|]. destruct l as [|w l]; simpl in *;
    inversion Hd; subst; by constructor.
Qed.

Lemma chain_snoc a b i j bs x y s i' j' :
  chain a b i j bs x y -> 0 < s -> matches a b x y s -> x + s <= i' -> y + s <= j' ->
  chain a b i j (bs ++ [(x, y, s)]) i' j'.
Proof. intros Hc Hs Hm Hi Hj. eapply chain_app; [exact Hc|]. simpl. do 4 (split; [done|]). done. Qed.

Lemma merge_fold a b bs merged ci cj cs n m :
  chain a b 0 0 merged ci cj -> matches a b ci cj cs -> Sorted apart (merged ++ [(ci, cj, cs)]) ->
  (cs = 0 -> merged = []) -> chain a b (ci + cs) (cj + cs) bs n m ->
  let '(merged', (ci', cj', cs')) := foldl merge_one (merged, (ci, cj, cs)) bs in
  chain a b 0 0 merged' ci' cj' /\ matches a b ci' cj' cs' /\ Sorted apart (merged' ++ [(ci', cj', cs')]) /\
  (cs' = 0 -> merged' = []) /\ ci' + cs' <= n /\ cj' + cs' <= m.
Proof.
  revert merged ci cj cs. induction bs as [|[[i j] s] bs IH]; intros merged ci cj cs Hc Hm Hs Hz Hb.
  { simpl in Hb |- *. done. }
  destruct Hb as (Hi & Hj & Hpos & Hmatch & Hb). cbn [foldl merge_one].
  destruct ((ci + cs =? i) && (cj + cs =? j)) eqn:E.
  - bool_hyps. repeat match goal with H : (_ =? _) = true |- _ => apply Nat.eqb_eq in H; subst end.
    apply IH; [done|by apply matches_app| |lia|by rewrite !Nat.add_assoc].
    eapply Sorted_last; [|exact Hs]. done.
  - assert (apart (ci, cj, cs) (i, j, s)) as Hap.
    { unfold apart, block_end. simpl. intros [= <- <-]. by rewrite !Nat.eqb_refl in E. }
    destruct (Nat.ltb_spec 0 cs).
    + apply IH; [by eapply chain_snoc|done|by apply Sorted_snoc_last|lia|done].
    + rewrite (Hz ltac:(lia)). apply IH; [simpl; lia|done|repeat constructor|done|done].
Qed.

(** The blocks of the matcher: common runs in order, with a gap between any two. *)
Lemma merge_adjacent_spec a b bs n m : chain a b 0 0 bs n m ->
  chain a b 0 0 (merge_adjacent bs) n m /\ Sorted apart (merge_adjacent bs).
Proof.
  intros Hb. unfold merge_adjacent.
  pose proof (merge_fold a b bs [] 0 0 0 n m) as H.
  destruct (foldl merge_one ([], (0, 0, 0)) bs) as [merged [[ci cj] cs]].
  destruct H as (Hc & Hm & Hs & Hz & Hn & Hm'); [simpl; lia|intros d Hd; lia|repeat constructor|done|done|].
  cbn [snd]. destruct (Nat.ltb_spec 0 cs).
  - split; [by eapply chain_snoc|done].
  - rewrite (Hz ltac:(lia)). split; [simpl; lia|constructor].
Qed.

Lemma matching_blocks_chain a b :
  exists bs, matching_blocks a b = Some (bs ++ [(length a, length b, 0)]) /\
    chain a b 0 0 bs (length a) (length b) /\ Sorted apart bs.
Proof.
  destruct (positions_index b) as [kept Hk].
  destruct (blocks_spec a b (positions b) kept Hk) as (bs & found & _ & Hc & Hf & Hp).
  unfold matching_blocks. rewrite Hf. cbn [mbind option_bind]. rewrite (sort_blocks _ _ _ _ _ _ _ _ Hc Hp).
  exists (merge_adjacent bs). split; [done|]. by apply merge_adjacent_spec.
Qed.

(** The sequence matcher always ends, and its blocks are runs of equal lines, in order and
    without overlap in both texts, none of them empty, with a gap between any two, and an
    empty block at the end of both texts. *)
Theorem matching_blocks_valid a b :
  exists bs, matching_blocks a b = Some (bs ++ [(length a, length b, 0)]) /\
    chain a b 0 0 bs (length a) (length b) /\ Sorted apart bs.
Proof. apply matching_blocks_chain. Qed.

(** * Opcodes *)

(** Whether an opcode does what its tag says. *)
Definition code_ok (a b : list str) (o : Opcode) : Prop :=
  match tag o with
  | Equal => a_start o < a_end o /\ a_end o <= length a /\ b_end o <= length b /\
      b_end o - b_start o = a_end o - a_start o /\ matches a b (a_start o) (b_start o) (a_end o - a_start o)
  | Delete => a_start o < a_end o /\ b_start o = b_end o
  | Insert => a_start o = a_end o /\ b_start o < b_end o
  | Replace => a_start o < a_end o /\ b_start o < b_end o
  end.

(** The opcodes cover both texts from one position to another without gaps. *)
Fixpoint tiles (a b : list str) (i j : nat) (codes : list Opcode) (i' j' : nat) : Prop :=
  match codes with
  | [] => i = i' /\ j = j'
  | o :: codes =>
      a_start o = i /\ b_start o = j /\ i <= a_end o /\ j <= b_end o /\ code_ok a b o /\
      tiles a b (a_end o) (b_end o) codes i' j'
  end.

Lemma tiles_app a b i j cs1 x y cs2 i' j' :
  tiles a b i j cs1 x y -> tiles a b x y cs2 i' j' -> tiles a b i j (cs1 ++ cs2) i' j'.
Proof.
  revert i j. induction cs1 as [|o cs1 IH]; intros i j; cbn [tiles app]; [by intros [-> ->]|].
  intros (H1 & H2 & H3 & H4 & H5 & H6) H. do 5 (split; [done|]). by apply IH.
Qed.

Lemma tiles_le a b i j cs i' j' : tiles a b i j cs i' j' -> i <= i' /\ j <= j'.
Proof.
  revert i j. induction cs as [|o cs IH]; intros i j; cbn [tiles]; [lia|].
  intros (_ & _ & H3 & H4 & _ & [? ?]%IH). lia.
Qed.

Lemma opcode_step_tiles a b i j codes x y s :
  tiles a b 0 0 codes i j -> i <= x -> j <= y -> matches a b x y s -> x + s <= length a -> y + s <= length b ->
  let '(i', j', codes') := opcode_step (i, j, codes) (x, y, s) in
  i' = x + s /\ j' = y + s /\ tiles a b 0 0 codes' i' j'.
Proof.
  intros Ht Hi Hj Hm Hx Hy. unfold opcode_step. split; [done|]. split; [done|].
  set (codes1 := match change_tag _ _ with Some _ => _ | None => _ end).
  assert (tiles a b 0 0 codes1 x y) as H1.
  { unfold codes1. destruct (Nat.ltb_spec i x), (Nat.ltb_spec j y); cbn [change_tag];
      try (eapply tiles_app; [exact Ht|]; simpl; unfold code_ok; simpl; repeat split; lia).
    assert (i = x /\ j = y) as [<- <-] by lia. done. }
  destruct (Nat.ltb_spec 0 s); [|by replace s with 0 by lia; rewrite !Nat.add_0_r].
  eapply tiles_app; [exact H1|]. simpl. split; [done|]. split; [done|]. split; [lia|]. split; [lia|]. split; [|done].
  unfold code_ok. simpl. replace (x + s - x) with s by lia. replace (y + s - y) with s by lia. auto 10 with lia.
Qed.

Lemma opcode_fold a b bs i j codes :
  tiles a b 0 0 codes i j -> chain a b i j bs (length a) (length b) ->
  let '(i', j', codes') := foldl opcode_step (i, j, codes) bs in
  tiles a b 0 0 codes' i' j' /\ i' <= length a /\ j' <= length b.
Proof.
  revert i j codes. induction bs as [|[[x y] s] bs IH]; intros i j codes Ht Hc; [done|].
  destruct Hc as (Hi & Hj & Hs & Hm & Hc). cbn [foldl].
  pose proof (chain_le _ _ _ _ _ _ _ Hc) as [Hx Hy].
  pose proof (opcode_step_tiles a b i j codes x y s Ht Hi Hj Hm Hx Hy) as H.
  destruct (opcode_step (i, j, codes) (x, y, s)) as [[i' j'] codes']. destruct H as (-> & -> & Ht').
  by apply IH.
Qed.

Lemma opcodes_tile a b : exists codes, opcodes a b = Some codes /\ tiles a b 0 0 codes (length a) (length b).
Proof.
  destruct (matching_blocks_chain a b) as (bs & Hb & Hc & _). unfold opcodes. rewrite Hb. cbn [mbind option_bind].
  eexists. split; [done|]. rewrite foldl_app. pose proof (opcode_fold a b bs 0 0 []) as H.
  destruct (foldl opcode_step (0, 0, []) bs) as [[i j] codes]. destruct H as (Ht & Hi & Hj); [done|done|].
  cbn [foldl]. pose proof (opcode_step_tiles a b i j codes (length a) (length b) 0 Ht Hi Hj) as H.
  destruct (opcode_step (i, j, codes) (length a, length b, 0)) as [[i' j'] codes'].
  destruct H as (-> & -> & H); [intros d Hd; lia|lia|lia|]. by rewrite !Nat.add_0_r in H.
Qed.

(** The text that the opcodes make of [a]: equal and deleted runs from [a], the others from [b]. *)
Definition rebuild (a b : list str) (codes : list Opcode) : list str :=
  concat (map (fun o => if is_equal o then slice a (a_start o) (a_end o) else slice b (b_start o) (b_end o)) codes).

Lemma slice_app l i x y : i <= x -> x <= y -> slice l i x ++ slice l x y = slice l i y.
Proof.
  intros Hi Hx. unfold slice. replace (y - i) with ((x - i) + (y - x)) by lia.
  replace (drop x l) with (drop (x - i) (drop i l)) by (rewrite drop_drop; f_equal; lia).
  generalize (drop i l) as m. intros m. generalize (x - i) as p. generalize (y - x) as q. intros q p.
  by rewrite take_take_drop.
Qed.

Lemma slice_nil l i : slice l i i = [].
Proof. unfold slice. by rewrite Nat.sub_diag. Qed.

Lemma slice_whole l : slice l 0 (length l) = l.
Proof. unfold slice. by rewrite Nat.sub_0_r, drop_0, take_ge. Qed.

Lemma slice_matches a b x y s : matches a b x y s -> x + s <= length a -> y + s <= length b ->
  slice a x (x + s) = slice b y (y + s).
Proof.
  intros Hm Hx Hy. unfold slice. replace (x + s - x) with s by lia. replace (y + s - y) with s by lia.
  apply list_eq. intros d. destruct (decide (d < s)) as [Hd|Hd].
  - rewrite !lookup_take_lt, !lookup_drop by lia. specialize (Hm d Hd). unfold line_at in Hm.
    destruct (lookup_lt_is_Some_2 a (x + d)) as [la Ha]; [lia|].
    destruct (lookup_lt_is_Some_2 b (y + d)) as [lb Hb]; [lia|].
    rewrite (nth_lookup_Some _ _ _ _ Ha), (nth_lookup_Some _ _ _ _ Hb) in Hm. congruence.
  - rewrite !lookup_take_ge by lia. done.
Qed.

Lemma code_ok_slices a b o : code_ok a b o -> a_start o <= a_end o -> b_start o <= b_end o ->
  is_equal o = true -> slice a (a_start o) (a_end o) = slice b (b_start o) (b_end o).
Proof.
  unfold code_ok, is_equal. destruct (tag o); try done. intros (H1 & H2 & H3 & H4 & H5) _ Hb _.
  replace (a_end o) with (a_start o + (a_end o - a_start o)) by lia.
  replace (b_end o) with (b_start o + (a_end o - a_start o)) by lia. apply slice_matches; [done|lia|lia].
Qed.

Lemma tiles_slices a b i j codes i' j' : tiles a b i j codes i' j' ->
  concat (map (fun o => slice a (a_start o) (a_end o)) codes) = slice a i i' /\ rebuild a b codes = slice b j j'.
Proof.
  unfold rebuild. revert i j. induction codes as [|o codes IH]; intros i j; cbn [tiles map concat].
  { intros [-> ->]. by rewrite !slice_nil. }
  intros (<- & <- & H3 & H4 & H5 & H). destruct (tiles_le _ _ _ _ _ _ _ H) as [Hi Hj].
  destruct (IH _ _ H) as [-> ->]. split; [by apply slice_app|].
  destruct (is_equal o) eqn:E; [|by apply slice_app].
  rewrite (code_ok_slices a b o) by done. by apply slice_app.
Qed.

(** C26: The opcodes turn the first text into the second: they cover both texts without gaps,
    their runs of [a] in order are [a], an equal run has the same lines on both sides,
    each other run removes or adds at least one line as its tag says, and taking the equal
    runs of [a] and the other runs of [b] gives [b]. *)
Theorem opcodes_rebuild a b :
  exists codes, opcodes a b = Some codes /\
    tiles a b 0 0 codes (length a) (length b) /\
    concat (map (fun o => slice a (a_start o) (a_end o)) codes) = a /\
    rebuild a b codes = b.
Proof.
  destruct (opcodes_tile a b) as (codes & Hc & Ht). exists codes. split; [done|]. split; [done|].
  destruct (tiles_slices _ _ _ _ _ _ _ Ht) as [Ha Hb]. by rewrite !slice_whole in *.
Qed.

(** * The empty diff *)

Lemma hit_self a kept i j : i < length a -> hit a a kept (whole a a) i j = true ->
  hit a a kept (whole a a) i i = true /\ hit a a kept (whole a a) j j = true /\ j < length a.
Proof.
  intros Hi. unfold hit. simpl. intros H. bool_hyps.
  match goal with H : (j <? _) = true |- _ => apply Nat.ltb_lt in H end.
  match goal with H : line_at a j = _ |- _ => rewrite !H end.
  match goal with H : kept _ = true |- _ => rewrite !H end.
  rewrite !bool_decide_eq_true_2 by done. simpl. by rewrite !(proj2 (Nat.ltb_lt _ _)).
Qed.

(** On equal texts, the run that ends at a line of both is the longest on its row and column. *)
Lemma run_len_diagonal a kept i j : i < length a ->
  run_len a a kept (whole a a) i j <= run_len a a kept (whole a a) i i /\
  run_len a a kept (whole a a) i j <= run_len a a kept (whole a a) j j.
Proof.
  revert j. induction i as [|i IH]; intros j Hi; match goal with |- run_len _ _ _ _ ?x _ <= _ /\ _ =>
    destruct (hit a a kept (whole a a) x j) eqn:Eh; [|rewrite (run_len_miss _ _ _ _ x j Eh); lia] end; destruct (hit_self _ _ _ _ Hi Eh) as (Hii & Hjj & Hj);
    rewrite (run_len_hit _ _ _ _ _ j Eh), (run_len_hit _ _ _ _ _ _ Hii), (run_len_hit _ _ _ _ j j Hjj).
  - simpl. lia.
  - simpl. destruct j as [|j]; [lia|]. specialize (IH j ltac:(lia)).
    change (0 <? S j) with true. cbv iota. lia.
Qed.

Lemma extend_left_self a span i size : a_low span = 0 -> b_low span = 0 ->
  extend_left a a span i i size = (0, 0, size + i).
Proof.
  intros Ha Hb. revert size. induction i as [|i IH]; intros size; cbn [extend_left]; [by rewrite Nat.add_0_r|].
  rewrite Ha, Hb, Nat.sub_succ, Nat.sub_0_r, bool_decide_eq_true_2 by done. simpl. rewrite IH. f_equal. lia.
Qed.

Lemma extend_right_self a fuel span size : a_high span = length a -> b_high span = length a ->
  length a <= fuel + size -> size <= length a -> extend_right a a fuel span 0 0 size = (0, 0, length a).
Proof.
  intros Ha Hb. revert size. induction fuel as [|fuel IH]; intros size Hf Hs; cbn [extend_right].
  - f_equal. lia.
  - rewrite Ha, Hb, bool_decide_eq_true_2 by done. simpl.
    destruct (Nat.ltb_spec size (length a)); simpl; [apply IH; lia|f_equal; lia].
Qed.

(** Equal texts have one match, the whole. *)
Lemma longest_match_self a index kept : is_index a index kept ->
  longest_match a a index (whole a a) = (0, 0, length a).
Proof.
  intros Hindex. unfold longest_match.
  destruct (longest_indexed_match a index (whole a a)) as [[i j] size] eqn:E.
  pose proof (longest_indexed_spec a a index kept Hindex (whole a a) ltac:(done) ltac:(simpl; lia)) as [Hmax Hbest].
  rewrite E in Hmax, Hbest.
  assert (i = j) as <-.
  { destruct Hbest as [[= -> -> ->]|(ei & ej & Hi & Hhit & [= -> -> ->] & Hfirst)]; [done|].
    simpl in Hi. destruct (hit_self a kept ei ej ltac:(lia) Hhit) as (_ & _ & Hj).
    destruct (run_len_diagonal a kept ei ej ltac:(lia)) as [H1 H2].
    destruct (lt_eq_lt_dec ei ej) as [[Hlt|<-]|Hlt]; [|done|]; exfalso.
    - specialize (Hfirst ei ei ltac:(simpl; lia) ltac:(lia)). lia.
    - specialize (Hfirst ej ej ltac:(simpl; lia) ltac:(lia)). lia. }
  rewrite extend_left_self by done. apply extend_right_self; [done|done|simpl; lia|].
  assert (span_ok a a (whole a a)) as Hok by (unfold span_ok; simpl; lia).
  destruct (longest_indexed_valid a a index kept Hindex (whole a a) i i size Hok E) as [(H1 & H2 & _) _].
  simpl in *. lia.
Qed.

Lemma matching_blocks_self a :
  matching_blocks a a = Some ((if 0 <? length a then [(0, 0, length a)] else []) ++ [(length a, length a, 0)]).
Proof.
  destruct (positions_index a) as [kept Hk]. pose proof (longest_match_self a _ kept Hk) as Hm.
  assert (blocks a a (positions a) = Some (if 0 <? length a then [(0, 0, length a)] else [])) as Hb.
  { unfold blocks. rewrite Nat.add_1_r. cbn [blocks_loop]. fold (whole a a). rewrite Hm.
    destruct (length a) as [|n] eqn:El; [done|]. cbn [Nat.eqb].
    cbn [a_low b_low a_high b_high whole]. rewrite El, !Nat.add_0_l. simpl. by rewrite !Nat.ltb_irrefl. }
  unfold matching_blocks. rewrite Hb. cbn [mbind option_bind]. f_equal. f_equal.
  destruct (length a) as [|n] eqn:El; [done|]. simpl. unfold merge_adjacent. done.
Qed.

Lemma opcodes_self a :
  opcodes a a = Some (if 0 <? length a then
    [{| tag := Equal; a_start := 0; a_end := length a; b_start := 0; b_end := length a |}] else []).
Proof.
  unfold opcodes. rewrite matching_blocks_self. cbn [mbind option_bind]. f_equal.
  destruct (length a) as [|n]; [done|]. cbn [Nat.ltb Nat.leb app foldl opcode_step change_tag snd].
  rewrite Nat.add_0_l, (proj2 (Nat.leb_gt (S n) n)) by lia. done.
Qed.

(** The tags of the opcodes survive the trimming. *)
Lemma trimmed_tags codes context : tag <$> trimmed_ends codes context = tag <$> codes.
Proof.
  unfold trimmed_ends.
  assert (tag <$> trimmed_first codes context = tag <$> codes) as <-.
  { destruct codes as [|o codes]; [done|]. simpl. by destruct (is_equal o). }
  generalize (trimmed_first codes context) as cs. intros cs. unfold trimmed_last.
  destruct (last cs) as [l|] eqn:E; [|done]. destruct (is_equal l); [|done].
  apply last_Some in E as [cs' ->]. by rewrite removelast_last, !fmap_app.
Qed.

Lemma group_fold codes context groups group :
  let '(groups', group') := foldl (group_step context) (groups, group) codes in
  groups' = groups /\ group' = group ++ codes \/ groups' <> [].
Proof.
  revert groups group. induction codes as [|o codes IH]; intros groups group; cbn [foldl].
  { left. by rewrite app_nil_r. }
  cbn [group_step]. destruct (_ && _).
  - specialize (IH (groups ++ [group ++ [opcode_head o context]]) [opcode_tail o context]).
    destruct (foldl _ _ codes) as [groups' group']. right. destruct IH as [[-> _]|?]; [by destruct groups|done].
  - specialize (IH groups (group ++ [o])). destruct (foldl _ _ codes) as [groups' group'].
    by rewrite <-app_assoc in IH.
Qed.

(** The unified diff of two texts always exists, and it is empty exactly when the texts
    are equal, popular lines included. *)
Theorem unified_diff_empty a b :
  exists lines, unified_diff a b = Some lines /\ (lines = [] <-> a = b).
Proof.
  destruct (opcodes_tile a b) as (codes & Hc & Ht).
  destruct (tiles_slices _ _ _ _ _ _ _ Ht) as [Ha Hb]. rewrite !slice_whole in *.
  assert (exists groups, grouped_opcodes a b CONTEXT = Some groups /\ (groups = [] <-> a = b)) as (groups & Hg & Hiff).
  2: { unfold unified_diff. rewrite Hg. cbn [mbind option_bind]. eexists. split; [done|]. rewrite <-Hiff.
       by destruct groups. }
  unfold grouped_opcodes. rewrite Hc. cbn [mbind option_bind].
  pose proof (group_fold (trimmed_ends codes CONTEXT) CONTEXT [] []) as Hfold.
  pose proof (trimmed_tags codes CONTEXT) as Htags.
  destruct (foldl (group_step CONTEXT) ([], []) (trimmed_ends codes CONTEXT)) as [groups group] eqn:Ef.
  eexists. split; [done|]. split.
  - intros Hnil. destruct Hfold as [[-> ->]|Hne].
    + simpl in Hnil. destruct (trimmed_ends codes CONTEXT) as [|o os] eqn:Et.
      * symmetry in Htags. apply fmap_nil_inv in Htags as ->. by rewrite <-Ha, <-Hb.
      * destruct os as [|o' os]; [|done]. destruct (is_equal o) eqn:Eo; [|done].
        destruct codes as [|c [|c' codes]]; [done| |done]. simpl in Htags. injection Htags as Htag.
        unfold is_equal in Eo. apply bool_decide_eq_true in Eo. rewrite Eo in Htag.
        rewrite <-Ha, <-Hb at 1. unfold rebuild. simpl. unfold is_equal. by rewrite bool_decide_eq_true_2.
    + destruct (_ && _) in Hnil; [by destruct groups|done].
  - intros <-. rewrite opcodes_self in Hc. injection Hc as <-.
    destruct (length a) as [|n] eqn:El; [by injection Ef as <- <-|].
    cbn [Nat.ltb Nat.leb trimmed_ends trimmed_first is_equal tag] in Ef.
    set (o := {| tag := Equal; a_start := 0; a_end := S n; b_start := 0; b_end := S n |}) in Ef.
    change (trimmed_ends [o] CONTEXT) with [opcode_head (opcode_tail o CONTEXT) CONTEXT] in Ef.
    cbn [foldl group_step] in Ef. change (is_equal (opcode_head (opcode_tail o CONTEXT) CONTEXT)) with true in Ef.
    rewrite (proj2 (Nat.ltb_ge _ _)) in Ef by (cbn [opcode_head opcode_tail a_end a_start o]; unfold CONTEXT; lia).
    by injection Ef as <- <-.
Qed.
