(* ===== verification/JsonFloat.v ===== *)
(** Float text and decimal rounding: crates/json/src/float.rs.

    An [f64] is a [spec_float] of the Standard Library at precision 53 and largest exponent
    1024.  The formats and the parser of Rust's standard library that the file calls are
    modelled on exact integers: [{:.n$e}] and [{:.p$}] round the exact value half to even,
    [str::parse] rounds the exact decimal to the nearest float, and [{:e}] has the fewest
    digits that parse back. *)

From Stdlib Require Import Floats.SpecFloat Strings.String.
From S2P Require Import Prelude RustStr Unicode Text.
Local Open Scope Z_scope.

(** * f64 *)

Notation f64 := spec_float (only parsing).

Definition prec : Z := 53.
Definition emax : Z := 1024.

Definition is_nan (x : f64) : bool := match x with S754_nan => true | _ => false end.
Definition is_infinite (x : f64) : bool := match x with S754_infinity _ => true | _ => false end.
Definition is_zero (x : f64) : bool := match x with S754_zero _ => true | _ => false end.
Definition is_finite (x : f64) : bool := negb (is_nan x || is_infinite x).
Definition is_sign_negative (x : f64) : bool :=
  match x with S754_zero s | S754_infinity s | S754_finite s _ _ => s | S754_nan => false end.

(** The absolute value of a finite float as a fraction of integers. *)
Definition magnitude (x : f64) : Z * Z :=
  match x with
  | S754_finite _ m e => if 0 <=? e then (Zpos m * 2 ^ e, 1) else (Zpos m, 2 ^ (- e))
  | _ => (0, 1)
  end.

(** * The standard library's decimal conversions *)

(** The quotient rounded to the nearest integer, an exact tie to the even one. *)
Definition div_half_even (a b : Z) : Z :=
  let q := a / b in
  match 2 * (a mod b) ?= b with
  | Lt => q
  | Gt => q + 1
  | Eq => if Z.even q then q else q + 1
  end.

(** The fraction [a / b] times [10 ^ k]. *)
Definition scaled (a b k : Z) : Z * Z := if 0 <=? k then (a * 10 ^ k, b) else (a, b * 10 ^ (- k)).

(** The [k] with [10 ^ k <= a / b < 10 ^ (k + 1)]. *)
Definition decimal_exponent (a b : Z) : Z :=
  let k := Z.of_nat (length (digits_of 10 a)) - Z.of_nat (length (digits_of 10 b)) in
  let '(c, d) := scaled a b (- k) in
  if d <=? c then k else k - 1.

(** The [n] significant digits of [a / b] rounded, and the decimal exponent after rounding. *)
Definition round_digits (n : nat) (a b : Z) : list Z * Z :=
  let k := decimal_exponent a b in
  let '(c, d) := scaled a b (Z.of_nat n - 1 - k) in
  let q := div_half_even c d in
  if q =? 10 ^ Z.of_nat n then (digits_of 10 (10 ^ (Z.of_nat n - 1)), k + 1) else (digits_of 10 q, k).

(** Digit values as text. *)
Definition digit_text (ds : list Z) : str := (fun d => 48 + d) <$> ds.

(** The [Display] of an [i32]. *)
Definition i32_text (e : Z) : str := if e <? 0 then 45 :: dec_text (- e) else dec_text e.

(** [format!("{:.*e}", precision, x)] of a finite float that is not negative. *)
Definition format_exp (precision : nat) (x : f64) : str :=
  let '(ds, e) :=
    if is_zero x then (replicate (S precision) 0, 0)
    else let '(a, b) := magnitude x in round_digits (S precision) a b in
  match digit_text ds with
  | [] => []
  | d :: rest => d :: (if decide (rest = []) then [] else c_dot :: rest) ++ lit "e" ++ i32_text e
  end.

(** [format!("{:.*}", places, x)] of a finite float. *)
Definition format_fixed (places : nat) (x : f64) : str :=
  let '(a, b) := magnitude x in
  let n := div_half_even (a * 10 ^ Z.of_nat places) b in
  let p := 10 ^ Z.of_nat places in
  let fraction := digits_of 10 (n mod p) in
  (if is_sign_negative x then lit "-" else []) ++ dec_text (n / p) ++
  match places with
  | O => []
  | S _ => c_dot :: digit_text (replicate (places - length fraction) 0 ++ fraction)
  end.

(** The float nearest to the decimal [m * 10 ^ k], an exact tie to the even mantissa. *)
Definition nearest (negative : bool) (m k : Z) : f64 :=
  if m =? 0 then S754_zero negative
  else if 0 <=? k then
    binary_normalize prec emax (if negative then - (m * 10 ^ k) else m * 10 ^ k) 0 negative
  else
    let '(q, e, l) := SFdiv_core_binary prec emax m 0 (10 ^ (- k)) 0 in
    binary_round_aux prec emax negative q e l.

(** The value of a run of decimal digits. *)
Definition digits_value (s : str) : Z := value_of 10 ((fun c => c - 48) <$> s).

(** An integer with an optional sign: what [str::parse::<i32>] reads. *)
Definition parse_int (s : str) : option Z :=
  let '(negative, ds) :=
    match s with
    | c :: rest => if c =? 45 then (true, rest) else if c =? 43 then (false, rest) else (false, s)
    | [] => (false, [])
    end in
  if negb (bool_decide (ds = [])) && all is_ascii_digit ds
  then Some (if negative then - digits_value ds else digits_value ds) else None.

(** The digits and exponent of a decimal text with an optional point and exponent. *)
Definition read_unsigned (body : str) : option (Z * Z) :=
  let int := take_while is_ascii_digit body in
  let after := drop (length int) body in
  let '(frac, after) :=
    match after with
    | c :: rest =>
        if c =? c_dot then let f := take_while is_ascii_digit rest in (f, drop (length f) rest) else ([], after)
    | [] => ([], [])
    end in
  if bool_decide (int = []) && bool_decide (frac = []) then None else
  let m := digits_value (int ++ frac) in
  match after with
  | [] => Some (m, - Z.of_nat (length frac))
  | c :: rest =>
      if (c =? 101) || (c =? 69)
      then e ← parse_int rest; Some (m, e - Z.of_nat (length frac)) else None
  end.

(** The same with an optional sign. *)
Definition read_decimal (s : str) : option (bool * Z * Z) :=
  let '(negative, body) :=
    match s with
    | c :: rest => if c =? 45 then (true, rest) else if c =? 43 then (false, rest) else (false, s)
    | [] => (false, [])
    end in
  '(m, k) ← read_unsigned body; Some (negative, m, k).

(** ** Arithmetic *)

Definition f64_add (x y : f64) : f64 := SFadd prec emax x y.
Definition f64_sub (x y : f64) : f64 := SFsub prec emax x y.
Definition f64_div (x y : f64) : f64 := SFdiv prec emax x y.
Definition f64_lt (x y : f64) : bool := SFltb x y.

(** [as f64] of an integer, and the literal 0.0. *)
Definition f64_of (n : Z) : f64 := nearest (n <? 0) (Z.abs n) 0.
Definition f64_zero : f64 := S754_zero false.

(** [str::parse::<f64>] of a decimal text. *)
Definition parse_f64 (s : str) : option f64 :=
  '(negative, m, k) ← read_decimal s; Some (nearest negative m k).

(** Whether an [n]-digit decimal next to [x] parses back to it. *)
Definition reads_back (x : f64) (n : nat) : bool :=
  let '(a, b) := magnitude x in
  let k := decimal_exponent a b - (Z.of_nat n - 1) in
  let '(c, d) := scaled a b (- k) in
  SFeqb (nearest false (c / d) k) (SFabs x) || SFeqb (nearest false (c / d + 1) k) (SFabs x).

(** The digits of [format!("{:e}", x)]: the fewest that parse back, and never more than 17. *)
Fixpoint shortest_from (x : f64) (n steps : nat) : nat :=
  match steps with
  | O => n
  | S steps' => if reads_back x n then n else shortest_from x (S n) steps'
  end.
Definition shortest_count (x : f64) : nat := shortest_from x 1 16.

(** * The file *)

Definition MAX_ROUND_DIGITS : Z := 323.
Definition GENERAL_DIGITS : nat := 6.
Definition GENERAL_EXPONENT_LIMIT : Z := 6.

Definition non_finite (x : f64) : option str :=
  if is_nan x then Some (lit "nan")
  else if is_infinite x then Some (if is_sign_negative x then lit "-inf" else lit "inf")
  else None.

(** [{e:+03}]: the sign and at least two digits. *)
Definition signed_exponent (e : Z) : str :=
  let ds := dec_text (Z.abs e) in
  (if e <? 0 then 45 else 43) :: replicate (2 - length ds) 48 ++ ds.

Definition append_plain (out digits : str) (e : Z) : str :=
  if e <? 0 then out ++ lit "0." ++ replicate (Z.to_nat (Z.abs e - 1)) 48 ++ digits
  else
    let integer_len := Z.to_nat (e + 1) in
    if (length digits <=? integer_len)%nat
    then out ++ digits ++ replicate (integer_len - length digits) 48
    else out ++ take integer_len digits ++ [c_dot] ++ drop integer_len digits.

Definition append_positional (out digits : str) (e : Z) : str :=
  if 0 <=? e then
    let integer_len := Z.to_nat (e + 1) in
    if (length digits <=? integer_len)%nat
    then out ++ digits ++ replicate (integer_len - length digits) 48 ++ lit ".0"
    else out ++ take integer_len digits ++ [c_dot] ++ drop integer_len digits
  else out ++ lit "0." ++ replicate (Z.to_nat (Z.abs e - 1)) 48 ++ digits.

Definition append_scientific (out digits : str) (e : Z) : str :=
  (if (1 <? length digits)%nat then out ++ take 1 digits ++ [c_dot] ++ drop 1 digits else out ++ digits) ++
  lit "e" ++ signed_exponent e.

(** [None] is the panic of an [expect]. *)
Definition float_text (x : f64) : option str :=
  match non_finite x with
  | Some text => Some text
  | None =>
    let sign := if is_sign_negative x then lit "-" else [] in
    if is_zero x then Some (sign ++ lit "0.0") else
    let count := shortest_count x in
    let text := format_exp (count - 1) (SFabs x) in
    '(mantissa, exponent_text) ← split_once 101 text;
    let digits := trim_end_of (is_char 48) (List.filter is_ascii_digit mantissa) in
    e ← parse_int exponent_text;
    Some (if negb ((-4 <=? e) && (e <? 16)) then append_scientific sign digits e
          else append_positional sign digits e)
  end.

Definition fixed (x : f64) (places : nat) : str := default (format_fixed places x) (non_finite x).

Definition general (x : f64) : option str :=
  match non_finite x with
  | Some text => Some text
  | None =>
    let text := format_exp (GENERAL_DIGITS - 1) (SFabs x) in
    '(mantissa, exponent_text) ← split_once 101 text;
    let digits := trim_end_of (is_char 48) (List.filter is_ascii_digit mantissa) in
    e ← parse_int exponent_text;
    let out := if is_sign_negative x then lit "-" else [] in
    Some (if decide (digits = []) then out ++ lit "0"
          else if (-4 <=? e) && (e <? GENERAL_EXPONENT_LIMIT) then append_plain out digits e
          else append_scientific out digits e)
  end.

(** [None] is the panic of an [expect]. *)
Definition round_half_even (x : f64) (ndigits : Z) : option f64 :=
  if negb (is_finite x) || (MAX_ROUND_DIGITS <? ndigits) then Some x
  else parse_f64 (format_fixed (Z.to_nat ndigits) x).

(** * Exact rounding *)

(** [q] is a nearest integer to [a / b], and an even one where two are. *)
Definition half_even_of (a b q : Z) : Prop :=
  2 * Z.abs (a - q * b) <= b /\ (2 * Z.abs (a - q * b) = b -> Z.even q = true).

Lemma div_half_even_spec a b : 0 < b -> half_even_of a b (div_half_even a b).
Proof.
  intros Hb. unfold div_half_even, half_even_of. pose proof (Z.div_mod a b ltac:(lia)) as Hd.
  pose proof (Z.mod_pos_bound a b Hb) as Hm. set (q := a / b) in *. set (r := a mod b) in *.
  assert (a - q * b = r) as E0 by lia. assert (a - (q + 1) * b = r - b) as E1 by lia.
  destruct (Z.compare_spec (2 * r) b).
  - destruct (Z.even q) eqn:E; [rewrite E0; split; [lia|done]|]. rewrite E1. split; [lia|].
    by rewrite Z.even_add, E.
  - rewrite E0. lia.
  - rewrite E1. lia.
Qed.

Lemma div_half_even_bounds a b l u :
  0 < b -> l * b <= a -> a < u * b -> l <= div_half_even a b <= u.
Proof.
  intros Hb Hl Hu. assert (l <= a / b) by (apply Z.div_le_lower_bound; lia).
  assert (a / b < u) by (apply Z.div_lt_upper_bound; lia).
  unfold div_half_even. repeat case_match; lia.
Qed.

Lemma pow10_pos k : 0 <= k -> 0 < 10 ^ k.
Proof. intros. by apply Z.pow_pos_nonneg. Qed.

(** The digit count of a positive number places it between two powers of ten. *)
Lemma digits_of_bounds n :
  0 < n ->
  let l := Z.of_nat (length (digits_of 10 n)) in 1 <= l /\ 10 ^ (l - 1) <= n < 10 ^ l.
Proof.
  intros Hn. destruct (digits_of_spec 10 n ltac:(lia) ltac:(lia)) as (Hne & Hv & Hf & Hh).
  cbv zeta. destruct (digits_of 10 n) as [|d l]; [done|].
  pose proof (value_of_bound 10 (d :: l) ltac:(lia) Hf) as Hb. rewrite Hv in Hb.
  apply Forall_cons in Hf as [Hd Hf].
  assert (d <> 0) by (intros ->; apply Hh; [lia|done]).
  pose proof (value_of_lower 10 d l ltac:(lia) ltac:(lia) Hf) as Hl. rewrite Hv in Hl.
  cbn [length] in *. replace (Z.of_nat (S (length l)) - 1) with (Z.of_nat (length l)) by lia. lia.
Qed.

(** Both sides of a scaled fraction are positive, and one more power of ten is a factor. *)
Lemma scaled_pos a b k c d : 0 < a -> 0 < b -> scaled a b k = (c, d) -> 0 < c /\ 0 < d.
Proof.
  intros Ha Hb. unfold scaled. destruct (Z.leb_spec 0 k); intros [= <- <-].
  - pose proof (pow10_pos k). nia.
  - pose proof (pow10_pos (- k)). nia.
Qed.

(** Moving a power of ten from one scale to another. *)
Lemma scaled_add a b j k c d c' d' :
  0 <= k -> scaled a b j = (c, d) -> scaled a b (j + k) = (c', d') -> c * 10 ^ k * d' = c' * d.
Proof.
  intros Hk. unfold scaled.
  destruct (Z.leb_spec 0 j), (Z.leb_spec 0 (j + k)); try lia; intros [= <- <-] [= <- <-].
  - rewrite Z.pow_add_r by lia. ring.
  - replace (10 ^ k) with (10 ^ (j + k) * 10 ^ (- j)) by (rewrite <-Z.pow_add_r by lia; f_equal; lia). ring.
  - replace (10 ^ (- j)) with (10 ^ k * 10 ^ (- (j + k))) by (rewrite <-Z.pow_add_r by lia; f_equal; lia). ring.
Qed.

(** A scaled fraction of numbers with known digit counts, against one. *)
Lemma scaled_below a b la lb c d :
  1 <= la -> 1 <= lb -> 0 < b -> a < 10 ^ la -> 10 ^ (lb - 1) <= b -> scaled a b (lb - la - 1) = (c, d) -> c < d.
Proof.
  intros Hla Hlb Hb Ha Hbl. unfold scaled. destruct (Z.leb_spec 0 (lb - la - 1)); intros [= <- <-].
  - assert (10 ^ (lb - 1) = 10 ^ la * 10 ^ (lb - la - 1)) as E by (rewrite <-Z.pow_add_r by lia; f_equal; lia).
    pose proof (pow10_pos (lb - la - 1) ltac:(lia)).
    apply Z.lt_le_trans with (2 := Hbl). rewrite E. apply Z.mul_lt_mono_pos_r; lia.
  - assert (10 ^ la = 10 ^ (lb - 1) * 10 ^ (- (lb - la - 1))) as E
      by (rewrite <-Z.pow_add_r by lia; f_equal; lia).
    pose proof (pow10_pos (- (lb - la - 1)) ltac:(lia)).
    apply Z.lt_le_trans with (1 := Ha). rewrite E. apply Z.mul_le_mono_nonneg_r; lia.
Qed.

Lemma scaled_above a b la lb c d :
  1 <= la -> 1 <= lb -> 0 < b -> 10 ^ (la - 1) <= a -> b < 10 ^ lb -> scaled a b (lb - la + 1) = (c, d) -> d <= c.
Proof.
  intros Hla Hlb Hb Ha Hbu. unfold scaled. destruct (Z.leb_spec 0 (lb - la + 1)); intros [= <- <-].
  - assert (10 ^ lb = 10 ^ (la - 1) * 10 ^ (lb - la + 1)) as E by (rewrite <-Z.pow_add_r by lia; f_equal; lia).
    pose proof (pow10_pos (lb - la + 1) ltac:(lia)).
    apply Z.le_trans with (10 ^ lb); [lia|]. rewrite E. apply Z.mul_le_mono_nonneg_r; lia.
  - assert (10 ^ (la - 1) = 10 ^ lb * 10 ^ (- (lb - la + 1))) as E
      by (rewrite <-Z.pow_add_r by lia; f_equal; lia).
    pose proof (pow10_pos (- (lb - la + 1)) ltac:(lia)).
    apply Z.le_trans with (2 := Ha). rewrite E. apply Z.mul_le_mono_nonneg_r; lia.
Qed.

Lemma decimal_exponent_spec a b k c d c' d' :
  0 < a -> 0 < b -> decimal_exponent a b = k ->
  scaled a b (- k) = (c, d) -> scaled a b (- k - 1) = (c', d') -> d <= c /\ c' < d'.
Proof.
  intros Ha Hb Hk Hs Hs'.
  pose proof (digits_of_bounds a Ha) as (Hla & Hal & Hau). pose proof (digits_of_bounds b Hb) as (Hlb & Hbl & Hbu).
  unfold decimal_exponent in Hk. set (la := Z.of_nat (length (digits_of 10 a))) in *.
  set (lb := Z.of_nat (length (digits_of 10 b))) in *. cbv zeta in Hk.
  destruct (scaled a b (- (la - lb))) as [c0 d0] eqn:E0. destruct (Z.leb_spec d0 c0); subst k.
  - rewrite E0 in Hs. injection Hs as <- <-. split; [done|].
    replace (- (la - lb) - 1) with (lb - la - 1) in Hs' by lia. by eapply scaled_below in Hs'.
  - replace (- (la - lb - 1) - 1) with (- (la - lb)) in Hs' by lia. rewrite E0 in Hs'. injection Hs' as <- <-.
    split; [|done]. replace (- (la - lb - 1)) with (lb - la + 1) in Hs by lia. by eapply scaled_above in Hs.
Qed.

Definition is_dec (d : Z) : Prop := 0 <= d < 10.

(** Digits in text order, the first one not zero. *)
Definition significant (ds : list Z) : Prop :=
  Forall is_dec ds /\ exists d rest, ds = d :: rest /\ d <> 0.

Lemma significant_digits_of n : 0 < n -> significant (digits_of 10 n).
Proof.
  intros Hn. destruct (digits_of_spec 10 n ltac:(lia) ltac:(lia)) as (Hne & _ & Hf & Hh). split; [done|].
  destruct (digits_of 10 n) as [|d rest]; [done|]. exists d, rest. split; [done|].
  intros ->. apply Hh; [lia|done].
Qed.

Lemma length_digits_exact n l : 1 <= l -> 10 ^ (l - 1) <= n < 10 ^ l -> Z.of_nat (length (digits_of 10 n)) = l.
Proof.
  intros Hl Hn. pose proof (pow10_pos (l - 1) ltac:(lia)).
  destruct (digits_of_bounds n ltac:(lia)) as (Hl' & Hn'). set (l' := Z.of_nat _) in *.
  assert (l - 1 < l') by (apply (Z.pow_lt_mono_r_iff 10); lia).
  assert (l' - 1 < l) by (apply (Z.pow_lt_mono_r_iff 10); lia). lia.
Qed.

(** The digits of [round_digits]: as many as asked, spelling the nearest integer to the scaled
    fraction, or its tenth when the rounding carries into one more digit. *)
Lemma round_digits_spec n a b k c d ds e :
  (1 <= n)%nat -> 0 < a -> 0 < b -> decimal_exponent a b = k -> scaled a b (Z.of_nat n - 1 - k) = (c, d) ->
  round_digits n a b = (ds, e) ->
  length ds = n /\ significant ds /\
  exists z, (z <= 1)%nat /\ e = k + Z.of_nat z /\ value_of 10 ds * 10 ^ Z.of_nat z = div_half_even c d.
Proof.
  intros Hn Ha Hb Hk Hs. unfold round_digits. cbv zeta. rewrite Hk, Hs.
  destruct (scaled a b (- k)) as [c1 d1] eqn:E1. destruct (scaled a b (- k - 1)) as [c2 d2] eqn:E2.
  destruct (decimal_exponent_spec a b k c1 d1 c2 d2) as [Hlow Hhigh]; [done..|].
  destruct (scaled_pos a b _ c d Ha Hb Hs), (scaled_pos a b _ c1 d1 Ha Hb E1), (scaled_pos a b _ c2 d2 Ha Hb E2).
  replace (Z.of_nat n - 1 - k) with (- k + (Z.of_nat n - 1)) in Hs by lia.
  pose proof (scaled_add a b (- k) (Z.of_nat n - 1) c1 d1 c d ltac:(lia) E1 Hs) as Hlo.
  replace (- k + (Z.of_nat n - 1)) with (- k - 1 + Z.of_nat n) in Hs by lia.
  pose proof (scaled_add a b (- k - 1) (Z.of_nat n) c2 d2 c d ltac:(lia) E2 Hs) as Hhi.
  pose proof (pow10_pos (Z.of_nat n - 1) ltac:(lia)). pose proof (pow10_pos (Z.of_nat n) ltac:(lia)).
  assert (10 ^ (Z.of_nat n - 1) <= div_half_even c d <= 10 ^ Z.of_nat n) as Hq.
  { apply div_half_even_bounds; [done| |].
    - apply (Z.mul_le_mono_pos_r _ _ d1); [done|]. nia.
    - apply (Z.mul_lt_mono_pos_r d2); [done|]. nia. }
  set (q := div_half_even c d) in *. destruct (Z.eqb_spec q (10 ^ Z.of_nat n)) as [Hq'|Hq']; intros [= <- <-].
  - assert (10 ^ Z.of_nat n = 10 * 10 ^ (Z.of_nat n - 1)) as Hp
      by (rewrite <-Z.pow_succ_r by lia; f_equal; lia).
    split; [|split; [by apply significant_digits_of|]].
    + apply Nat2Z.inj. apply length_digits_exact; lia.
    + exists 1%nat. split; [lia|]. split; [lia|]. destruct (digits_of_spec 10 (10 ^ (Z.of_nat n - 1)) ltac:(lia) ltac:(lia)) as (_ & Hv & _).
      rewrite Hv. change (10 ^ Z.of_nat 1) with 10. lia.
  - split; [|split; [apply significant_digits_of; lia|]].
    + apply Nat2Z.inj. apply length_digits_exact; lia.
    + exists 0%nat. split; [lia|]. split; [lia|]. destruct (digits_of_spec 10 q ltac:(lia) ltac:(lia)) as (_ & Hv & _).
      rewrite Hv. change (10 ^ Z.of_nat 0) with 1. lia.
Qed.

(** * Decimal texts *)

(** The text of a sign, integer digits, fraction digits and an exponent. *)
Definition literal (negative : bool) (int frac : list Z) (ex : option Z) : str :=
  (if negative then lit "-" else []) ++ digit_text int ++
  (if decide (frac = []) then [] else c_dot :: digit_text frac) ++
  match ex with Some e => lit "e" ++ signed_exponent e | None => [] end.

Lemma digit_text_app a b : digit_text (a ++ b) = digit_text a ++ digit_text b.
Proof. apply fmap_app. Qed.

Lemma digit_text_zeros k : replicate k 48 = digit_text (replicate k 0).
Proof. unfold digit_text. by rewrite fmap_replicate. Qed.

Lemma length_digit_text ds : length (digit_text ds) = length ds.
Proof. apply length_fmap. Qed.

Lemma digit_text_values ds : (fun c => c - 48) <$> digit_text ds = ds.
Proof.
  unfold digit_text. rewrite <-list_fmap_compose. rewrite <-(list_fmap_id ds) at 2.
  apply list_fmap_ext. intros ? d _. cbn. lia.
Qed.

Lemma digits_value_text ds : digits_value (digit_text ds) = value_of 10 ds.
Proof. unfold digits_value. by rewrite digit_text_values. Qed.

Lemma is_ascii_digit_text d : is_dec d -> is_ascii_digit (48 + d) = true.
Proof. unfold is_dec, is_ascii_digit. intros. apply andb_true_iff. split; apply Z.leb_le; lia. Qed.

Lemma digit_text_all ds : Forall is_dec ds -> Forall (fun c => is_ascii_digit c = true) (digit_text ds).
Proof. intros H. apply Forall_fmap. eapply Forall_impl; [exact H|]. apply is_ascii_digit_text. Qed.

(** A run of digits ends before a character that is not one. *)
Notation no_digit := (stops is_ascii_digit).

Lemma take_digits ds s : Forall is_dec ds -> no_digit s -> take_while is_ascii_digit (digit_text ds ++ s) = digit_text ds.
Proof. intros Hd Hs. apply take_while_app; [by apply digit_text_all|done]. Qed.

Lemma dec_text_as_digits n : dec_text n = digit_text (digits_of 10 n).
Proof. done. Qed.

Lemma digits_of_dec n : 0 <= n -> Forall is_dec (digits_of 10 n) /\ value_of 10 (digits_of 10 n) = n /\ digits_of 10 n <> [].
Proof. intros Hn. by destruct (digits_of_spec 10 n ltac:(lia) Hn) as (? & ? & ? & _). Qed.

Lemma value_of_leading_zeros k ds : value_of 10 (replicate k 0 ++ ds) = value_of 10 ds.
Proof. induction k as [|k IH]; [done|]. cbn [replicate app]. rewrite value_of_cons, IH. lia. Qed.

Lemma value_of_trailing_zeros k ds : value_of 10 (ds ++ replicate k 0) = value_of 10 ds * 10 ^ Z.of_nat k.
Proof.
  unfold value_of at 1. rewrite fold_left_app, fold_value, length_replicate. fold (value_of 10 ds).
  rewrite <-(app_nil_r (replicate k 0)), value_of_leading_zeros. change (value_of 10 []) with 0. lia.
Qed.

(** A text of digits, after a sign the parser knows, reads as their value. *)
Lemma parse_int_digits ds :
  Forall is_dec ds -> ds <> [] ->
  parse_int (digit_text ds) = Some (value_of 10 ds) /\
  parse_int (45 :: digit_text ds) = Some (- value_of 10 ds) /\
  parse_int (43 :: digit_text ds) = Some (value_of 10 ds).
Proof.
  intros Hd Hne. pose proof (digit_text_all ds Hd) as Hall. apply all_spec in Hall.
  assert (bool_decide (digit_text ds = []) = false) as Hb.
  { apply bool_decide_eq_false. by destruct ds. }
  assert (forall s : str, s = digit_text ds -> (if negb (bool_decide (s = [])) && all is_ascii_digit s
    then Some (digits_value s) else None) = Some (value_of 10 ds)) as Hread.
  { intros s ->. by rewrite Hb, Hall, digits_value_text. }
  split; [|split].
  - destruct ds as [|d ds]; [done|]. apply Forall_cons in Hd as [Hd _]. unfold is_dec in Hd.
    unfold parse_int. cbn [digit_text fmap list_fmap].
    rewrite (proj2 (Z.eqb_neq (48 + d) 45)), (proj2 (Z.eqb_neq (48 + d) 43)) by lia. by apply Hread.
  - unfold parse_int. change (45 =? 45) with true. cbn iota. by rewrite Hb, Hall, digits_value_text.
  - unfold parse_int. change (43 =? 45) with false. change (43 =? 43) with true. cbn iota. by apply Hread.
Qed.

Lemma parse_int_i32 e : parse_int (i32_text e) = Some e.
Proof.
  unfold i32_text. rewrite !dec_text_as_digits. destruct (Z.ltb_spec e 0).
  - destruct (digits_of_dec (- e) ltac:(lia)) as (Hd & Hv & Hne).
    destruct (parse_int_digits _ Hd Hne) as (_ & -> & _). rewrite Hv. f_equal. lia.
  - destruct (digits_of_dec e ltac:(lia)) as (Hd & Hv & Hne).
    destruct (parse_int_digits _ Hd Hne) as (-> & _). by rewrite Hv.
Qed.

(** The digits of a padded exponent. *)
Definition exponent_digits (e : Z) : list Z :=
  let ds := digits_of 10 (Z.abs e) in replicate (2 - length ds) 0 ++ ds.

Lemma signed_exponent_eq e : signed_exponent e = (if e <? 0 then 45 else 43) :: digit_text (exponent_digits e).
Proof. unfold signed_exponent, exponent_digits. by rewrite dec_text_as_digits, digit_text_app, digit_text_zeros, length_digit_text. Qed.

Lemma exponent_digits_spec e :
  Forall is_dec (exponent_digits e) /\ exponent_digits e <> [] /\ value_of 10 (exponent_digits e) = Z.abs e.
Proof.
  destruct (digits_of_dec (Z.abs e) ltac:(lia)) as (Hd & Hv & Hne). unfold exponent_digits.
  split; [|split].
  - apply Forall_app. split; [|done]. apply Forall_replicate. by unfold is_dec.
  - intros [_ ?]%app_eq_nil. done.
  - by rewrite value_of_leading_zeros.
Qed.

Lemma parse_int_exponent e : parse_int (signed_exponent e) = Some e.
Proof.
  rewrite signed_exponent_eq. destruct (exponent_digits_spec e) as (Hd & Hne & Hv).
  destruct (parse_int_digits _ Hd Hne) as (_ & Hm & Hp). rewrite Hv in Hm, Hp.
  destruct (Z.ltb_spec e 0); [rewrite Hm|rewrite Hp]; f_equal; lia.
Qed.

Lemma read_unsigned_literal int frac ex :
  Forall is_dec int -> Forall is_dec frac -> int <> [] ->
  read_unsigned (literal false int frac ex) =
  Some (value_of 10 (int ++ frac), default 0 ex - Z.of_nat (length frac)).
Proof.
  intros Hi Hf Hne. unfold literal. cbn [app].
  set (tail := match ex with Some e => lit "e" ++ signed_exponent e | None => [] end).
  assert (no_digit tail) as Ht by (subst tail; by destruct ex).
  set (point := if decide (frac = []) then [] else c_dot :: digit_text frac).
  assert (no_digit (point ++ tail)) as Hpt by (subst point; by case_decide).
  unfold read_unsigned. cbv zeta. rewrite take_digits by done. rewrite drop_app_length.
  rewrite (bool_decide_eq_false_2 (digit_text int = [])) by by destruct int. cbn [andb].
  assert (match point ++ tail with
    | c :: rest => if c =? c_dot then (take_while is_ascii_digit rest, drop (length (take_while is_ascii_digit rest)) rest)
                   else ([], point ++ tail)
    | [] => ([], []) end = (digit_text frac, tail)) as ->.
  { subst point. case_decide as Hfr; [subst frac|].
    - subst tail. by destruct ex.
    - cbn [app]. change (c_dot =? c_dot) with true. cbn iota. by rewrite take_digits, drop_app_length. }
  rewrite <-digit_text_app, digits_value_text, length_digit_text. subst tail. destruct ex as [e|]; cbn [default].
  - change (lit "e" ++ ?x) with (101 :: x). cbn iota. cbn [Z.eqb Pos.eqb orb]. by rewrite parse_int_exponent.
  - done.
Qed.

(** Reading a literal gives its parts. *)
Lemma read_literal negative int frac ex :
  Forall is_dec int -> Forall is_dec frac -> int <> [] ->
  read_decimal (literal negative int frac ex) =
  Some (negative, value_of 10 (int ++ frac), default 0 ex - Z.of_nat (length frac)).
Proof.
  intros Hi Hf Hne. pose proof (read_unsigned_literal int frac ex Hi Hf Hne) as Hr.
  assert (literal negative int frac ex = (if negative then lit "-" else []) ++ literal false int frac ex) as -> by done.
  unfold read_decimal. destruct negative; cbn [app].
  - change (lit "-" ++ ?x) with (45 :: x). cbn iota. change (45 =? 45) with true. cbn iota. by rewrite Hr.
  - revert Hr. destruct int as [|d int]; [done|]. apply Forall_cons in Hi as [Hd _]. unfold is_dec in Hd.
    unfold literal. cbn [app digit_text fmap list_fmap].
    rewrite (proj2 (Z.eqb_neq (48 + d) 45)), (proj2 (Z.eqb_neq (48 + d) 43)) by lia. by intros ->.
Qed.

(** * The layouts are literals *)

(** A literal whose integer part is JSON's: a zero alone, or no leading zero. *)
Definition json_int (int : list Z) : Prop :=
  Forall is_dec int /\ exists d rest, int = d :: rest /\ (d = 0 -> rest = []).

(** [m * 10 ^ k] written with fewer digits: [m' * 10 ^ k'] without trailing zeros. *)
Definition expands (p p' : Z * Z) : Prop := exists z : nat, p.1 = p'.1 * 10 ^ Z.of_nat z /\ p.2 = p'.2 - Z.of_nat z.

(** Two decimals of one value. *)
Definition same_decimal (p q : Z * Z) : Prop := exists r, expands p r /\ expands q r.

(** The literal of a layout after [out], with parts that denote [ds] at decimal exponent [e].
    Only a plain layout can have no point and no exponent. *)
Definition lays_out (plain : bool) (text out : str) (ds : list Z) (e : Z) : Prop :=
  exists int frac ex,
    text = out ++ literal false int frac ex /\ json_int int /\ Forall is_dec frac /\ (plain = true \/ frac <> [] \/ ex <> None) /\
    expands (value_of 10 (int ++ frac), default 0 ex - Z.of_nat (length frac))
            (value_of 10 ds, e - (Z.of_nat (length ds) - 1)).

Lemma significant_dec ds : significant ds -> Forall is_dec ds.
Proof. by intros [? _]. Qed.

Lemma significant_length ds : significant ds -> (1 <= length ds)%nat.
Proof. intros (_ & d & rest & -> & _). cbn. lia. Qed.

Lemma json_int_take n ds : (1 <= n)%nat -> significant ds -> json_int (take n ds).
Proof.
  intros Hn (Hd & d & rest & -> & Hd0). split; [by apply Forall_take|]. destruct n as [|n]; [lia|].
  exists d, (take n rest). done.
Qed.

Lemma json_int_zeros k ds : significant ds -> json_int (ds ++ replicate k 0).
Proof.
  intros (Hd & d & rest & -> & Hd0). split; [|by exists d, (rest ++ replicate k 0)].
  apply Forall_app. split; [done|]. apply Forall_replicate. by unfold is_dec.
Qed.

Lemma append_scientific_literal out ds e :
  significant ds -> lays_out false (append_scientific out (digit_text ds) e) out ds e.
Proof.
  intros Hs. pose proof Hs as (Hd & d & rest & -> & Hd0).
  exists [d], rest, (Some e). apply Forall_cons in Hd as [Hd Hr]. split; [|split; [|split; [done|split; [by right; right|]]]].
  - unfold append_scientific, literal. rewrite length_digit_text.
    destruct rest as [|d' rest]; cbn [length Nat.ltb Nat.leb]; rewrite <-!app_assoc; done.
  - split; [by apply Forall_singleton|]. by exists d, [].
  - exists 0%nat. cbn [app default fst snd length id]. rewrite Z.pow_0_r. split; lia.
Qed.

Lemma append_positional_literal out ds e :
  significant ds -> lays_out false (append_positional out (digit_text ds) e) out ds e.
Proof.
  intros Hs. pose proof (significant_dec ds Hs) as Hd. pose proof (significant_length ds Hs) as Hl.
  unfold append_positional. rewrite length_digit_text. destruct (Z.leb_spec 0 e) as [He|He].
  - destruct (Nat.leb_spec (length ds) (Z.to_nat (e + 1))) as [Hle|Hle].
    + set (k := (Z.to_nat (e + 1) - length ds)%nat).
      exists (ds ++ replicate k 0), [0], None. split; [|split; [|split; [|split; [by right; left|]]]].
      * unfold literal. rewrite digit_text_app, digit_text_zeros, <-!app_assoc. done.
      * by apply json_int_zeros.
      * by apply Forall_singleton.
      * exists (S k). rewrite <-app_assoc. change [0] with (replicate 1 0). rewrite <-replicate_add, value_of_trailing_zeros.
        cbn [fst snd default length replicate]. replace (k + 1)%nat with (S k) by lia. split; [done|]. lia.
    + exists (take (Z.to_nat (e + 1)) ds), (drop (Z.to_nat (e + 1)) ds), None.
      split; [|split; [|split; [|split]]].
      * unfold literal. rewrite decide_False.
        2:{ intros E. apply (f_equal length) in E. rewrite length_drop in E. cbn in E. lia. }
        unfold digit_text. by rewrite fmap_take, fmap_drop, app_nil_r.
      * apply json_int_take; [lia|done].
      * by apply Forall_drop.
      * right. left. intros E. apply (f_equal length) in E. rewrite length_drop in E. cbn in E. lia.
      * exists 0%nat. rewrite take_drop, length_drop. cbn [fst snd default]. rewrite Z.pow_0_r. split; [lia|]. lia.
  - set (k := Z.to_nat (Z.abs e - 1)).
    exists [0], (replicate k 0 ++ ds), None. split; [|split; [|split; [|split]]].
    + unfold literal. rewrite decide_False.
      2:{ intros [_ ->]%app_eq_nil. cbn in Hl. lia. }
      rewrite digit_text_app, digit_text_zeros, app_nil_r. done.
    + split; [by apply Forall_singleton|]. by exists 0, [].
    + apply Forall_app. split; [|done]. apply Forall_replicate. by unfold is_dec.
    + right. left. intros [_ ->]%app_eq_nil. cbn in Hl. lia.
    + exists 0%nat. change ([0] ++ replicate k 0 ++ ds) with (replicate (S k) 0 ++ ds).
      rewrite value_of_leading_zeros, length_app, length_replicate. cbn [fst snd default]. rewrite Z.pow_0_r. split; lia.
Qed.

Lemma append_plain_literal out ds e :
  significant ds -> lays_out true (append_plain out (digit_text ds) e) out ds e.
Proof.
  intros Hs. pose proof (significant_dec ds Hs) as Hd. pose proof (significant_length ds Hs) as Hl.
  destruct (Z.ltb_spec e 0) as [He|He];
    [|destruct (Nat.leb_spec (length ds) (Z.to_nat (e + 1))) as [Hle|Hle]].
  - destruct (append_positional_literal out ds e Hs) as (int & frac & ex & Ht & Hi & Hf & _ & Hx).
    exists int, frac, ex. split; [|auto]. rewrite <-Ht. unfold append_plain, append_positional.
    rewrite (proj2 (Z.ltb_lt e 0)), (proj2 (Z.leb_gt 0 e)) by lia. done.
  - unfold append_plain. rewrite (proj2 (Z.ltb_ge e 0)), length_digit_text, (proj2 (Nat.leb_le _ _)) by lia.
    set (k := (Z.to_nat (e + 1) - length ds)%nat). exists (ds ++ replicate k 0), [], None.
    split; [|split; [|split; [done|split; [by left|]]]].
    + unfold literal. by rewrite decide_True, digit_text_app, digit_text_zeros, !app_nil_r.
    + by apply json_int_zeros.
    + exists k. rewrite app_nil_r, value_of_trailing_zeros. cbn [fst snd default length]. split; lia.
  - destruct (append_positional_literal out ds e Hs) as (int & frac & ex & Ht & Hi & Hf & _ & Hx).
    exists int, frac, ex. split; [|auto]. rewrite <-Ht. unfold append_plain, append_positional.
    rewrite (proj2 (Z.ltb_ge e 0)), (proj2 (Z.leb_le 0 e)), length_digit_text, (proj2 (Nat.leb_gt _ _)) by lia. done.
Qed.

(** * The exponent form's fields *)

Lemma digit_text_free c ds : is_ascii_digit c = false -> Forall is_dec ds -> char_free c (digit_text ds).
Proof.
  intros Hc Hd. eapply Forall_impl; [by apply digit_text_all|]. intros d Hd'. apply is_char_false. intros ->. cbn in Hd'. congruence.
Qed.

Lemma filter_digit_text ds : Forall is_dec ds -> List.filter is_ascii_digit (digit_text ds) = digit_text ds.
Proof.
  intros Hd. apply digit_text_all in Hd. induction Hd as [|c s Hc _ IH]; [done|]. cbn [List.filter]. by rewrite Hc, IH.
Qed.

(** The digits of [format_exp], trailing zeros cut, and its exponent are those of the rounding. *)
Lemma trim_zeros ds :
  exists ds' z, trim_end_of (is_char 48) (digit_text ds) = digit_text ds' /\ ds = ds' ++ replicate z 0 /\
    last ds' <> Some 0.
Proof.
  unfold trim_end_of. induction ds as [|d ds IH] using rev_ind; [by exists [], 0%nat|].
  rewrite digit_text_app. change (digit_text [d]) with [48 + d]. rewrite reverse_snoc. cbn [trim_start].
  destruct (is_char 48 (48 + d)) eqn:E.
  - apply is_char_true in E. assert (d = 0) as -> by lia. destruct IH as (ds' & z & -> & -> & Hl).
    exists ds', (S z). split; [done|]. rewrite <-app_assoc. change [0] with (replicate 1 0).
    rewrite <-replicate_add. by rewrite Nat.add_1_r.
  - exists (ds ++ [d]), 0%nat. split; [|rewrite app_nil_r; split; [done|]].
    + rewrite reverse_cons, reverse_involutive. by rewrite digit_text_app.
    + rewrite last_snoc. intros [= ->]. by apply is_char_false in E.
Qed.

Lemma format_exp_fields ds e :
  Forall is_dec ds -> ds <> [] ->
  exists mantissa,
    split_once 101 (match digit_text ds with
      | [] => []
      | d :: rest => d :: (if decide (rest = []) then [] else c_dot :: rest) ++ lit "e" ++ i32_text e
      end) = Some (mantissa, i32_text e) /\ List.filter is_ascii_digit mantissa = digit_text ds.
Proof.
  intros Hd Hne. destruct ds as [|d ds]; [done|]. apply Forall_cons in Hd as [Hd Hr].
  cbn [digit_text fmap list_fmap]. fold (digit_text ds). pose proof (is_ascii_digit_text d Hd) as Hc.
  exists ((48 + d) :: (if decide (digit_text ds = []) then [] else c_dot :: digit_text ds)). split.
  - change (lit "e" ++ i32_text e) with (101 :: i32_text e). rewrite app_comm_cons. apply split_once_free.
    constructor; [apply is_char_false; unfold is_dec in Hd; lia|]. case_decide; [constructor|].
    constructor; [done|]. by apply digit_text_free.
  - cbn [List.filter]. rewrite Hc. f_equal. case_decide as Hn; [by rewrite Hn|]. cbn [List.filter].
    by apply filter_digit_text.
Qed.

(** * What the texts say *)

(** [p] is a nearest [n]-digit decimal to [x], an exact tie going to the even digit. *)
Definition nearest_decimal (x : f64) (n : nat) (p : Z * Z) : Prop :=
  let '(a, b) := magnitude x in
  let '(c, d) := scaled a b (- p.2) in
  half_even_of c d p.1 /\ 10 ^ (Z.of_nat n - 1) <= p.1 <= 10 ^ Z.of_nat n.

Lemma magnitude_pos s m e a b : magnitude (S754_finite s m e) = (a, b) -> 0 < a /\ 0 < b.
Proof.
  cbn. destruct (Z.leb_spec 0 e); intros [= <- <-].
  - assert (0 < 2 ^ e) by (apply Z.pow_pos_nonneg; lia). lia.
  - assert (0 < 2 ^ (- e)) by (apply Z.pow_pos_nonneg; lia). lia.
Qed.

(** The fields of [format_exp], as both formats use them. *)
Lemma format_exp_spec n s m e :
  (1 <= n)%nat ->
  exists mantissa ds e0 p,
    split_once 101 (format_exp (n - 1) (SFabs (S754_finite s m e))) = Some (mantissa, i32_text e0) /\
    trim_end_of (is_char 48) (List.filter is_ascii_digit mantissa) = digit_text ds /\
    significant ds /\ nearest_decimal (S754_finite s m e) n p /\
    expands p (value_of 10 ds, e0 - (Z.of_nat (length ds) - 1)).
Proof.
  intros Hn. destruct (magnitude (S754_finite s m e)) as [a b] eqn:Em.
  destruct (magnitude_pos s m e a b Em) as [Ha Hb]. set (k := decimal_exponent a b).
  destruct (scaled a b (Z.of_nat n - 1 - k)) as [c d] eqn:Es.
  destruct (round_digits n a b) as [ds0 e0] eqn:Er.
  destruct (round_digits_spec n a b k c d ds0 e0) as (Hl & Hs & z & Hz & He & Hq); [done..|].
  destruct (scaled_pos a b _ c d Ha Hb Es) as [Hc Hd].
  destruct (format_exp_fields ds0 e0) as (mantissa & Hsplit & Hfilter);
    [by apply significant_dec|intros ->; by destruct Hs as (_ & ? & ? & ? & _)|].
  destruct (trim_zeros ds0) as (ds & w & Ht & Hds & Hlast).
  assert (significant ds) as Hsd.
  { destruct Hs as (Hdec & x & rest & -> & Hx). rewrite Hds in Hdec. apply Forall_app in Hdec as [Hdec _].
    split; [done|]. destruct ds as [|y ds]; [|injection Hds as -> _; by eauto].
    destruct w; [done|]. injection Hds as -> _. done. }
  exists mantissa, ds, e0, (div_half_even c d, k - (Z.of_nat n - 1)).
  split; [|split; [by rewrite Hfilter|split; [done|split]]].
  - unfold format_exp. cbn [SFabs is_zero]. change (magnitude (S754_finite false m e)) with (magnitude (S754_finite s m e)).
    rewrite Em. replace (S (n - 1)) with n by lia. by rewrite Er.
  - unfold nearest_decimal. rewrite Em. cbn [snd fst]. replace (- (k - (Z.of_nat n - 1))) with (Z.of_nat n - 1 - k) by lia.
    rewrite Es. split; [by apply div_half_even_spec|]. rewrite <-Hq.
    pose proof (significant_dec ds0 Hs) as Hdec. pose proof (value_of_bound 10 ds0 ltac:(lia) Hdec) as Hub.
    destruct Hs as (_ & x & rest & -> & Hx). apply Forall_cons in Hdec as [Hx' Hrest]. unfold is_dec in Hx'.
    pose proof (value_of_lower 10 x rest ltac:(lia) ltac:(lia) Hrest) as Hlb.
    rewrite Hl in Hub. replace (Z.of_nat n - 1) with (Z.of_nat (length rest)) by (cbn in Hl; lia).
    destruct z as [|[|z]]; [rewrite Z.pow_0_r; lia| |lia]. change (10 ^ Z.of_nat 1) with 10.
    assert (div_half_even c d = 10 ^ Z.of_nat n) as Hcarry.
    { revert Er. unfold round_digits. fold k. rewrite Es. destruct (Z.eqb_spec (div_half_even c d) (10 ^ Z.of_nat n)); [done|].
      intros [= _ <-]. lia. }
    rewrite Hcarry in Hq. change (10 ^ Z.of_nat 1) with 10 in Hq. lia.
  - exists (w + z)%nat. cbn [fst snd]. rewrite <-Hq, Hds, value_of_trailing_zeros, Nat2Z.inj_add, Z.pow_add_r by lia.
    split; [ring|]. rewrite <-Hl, Hds, length_app, length_replicate. lia.
Qed.

Lemma shortest_from_spec x n steps :
  let c := shortest_from x n steps in
  (n <= c <= n + steps)%nat /\ (forall i, (n <= i < c)%nat -> reads_back x i = false) /\
  ((c < n + steps)%nat -> reads_back x c = true).
Proof.
  revert n. induction steps as [|steps IH]; intros n; cbn [shortest_from]; cbv zeta.
  - split; [lia|]. split; [lia|]. lia.
  - destruct (reads_back x n) eqn:E.
    + split; [lia|]. split; [lia|done].
    + destruct (IH (S n)) as (Hb & Hlow & Hlast). cbv zeta in *. split; [lia|]. split.
      * intros i Hi. destruct (decide (i = n)) as [->|]; [done|]. apply Hlow. lia.
      * intros. apply Hlast. lia.
Qed.

Lemma same_decimal_trans p q r : expands q r -> expands p r -> same_decimal p q.
Proof. intros. by exists r. Qed.

Lemma lays_out_read plain text (s : bool) ds e :
  lays_out plain text (if s then lit "-" else []) ds e ->
  exists p, read_decimal text = Some (s, p.1, p.2) /\ expands p (value_of 10 ds, e - (Z.of_nat (length ds) - 1)).
Proof.
  intros (int & frac & ex & -> & (Hi & d & rest & -> & _) & Hf & _ & Hx). exists (value_of 10 ((d :: rest) ++ frac), default 0 ex - Z.of_nat (length frac)). split; [|exact Hx].
  change ((if s then lit "-" else []) ++ literal false (d :: rest) frac ex) with (literal s (d :: rest) frac ex).
  by rewrite read_literal.
Qed.

(** The text of a finite float that is not zero. *)
Lemma float_text_finite s m e :
  let x := S754_finite s m e in
  exists text ds e0 p, float_text x = Some text /\
    lays_out false text (if s then lit "-" else []) ds e0 /\ nearest_decimal x (shortest_count x) p /\
    expands p (value_of 10 ds, e0 - (Z.of_nat (length ds) - 1)).
Proof.
  intros x. destruct (shortest_from_spec x 1 16) as ([Hn _] & _). fold (shortest_count x) in Hn.
  destruct (format_exp_spec (shortest_count x) s m e Hn) as (mantissa & ds & e0 & p & Hsplit & Htrim & Hs & Hp & Hx).
  unfold float_text. change (non_finite x) with (@None str). change (is_zero x) with false. cbn iota. cbv zeta.
  fold x in Hsplit. rewrite Hsplit. cbn [mbind option_bind]. rewrite parse_int_i32, Htrim. cbn [mbind option_bind].
  eexists _, ds, e0, p. split; [reflexivity|]. split; [|done]. change (is_sign_negative x) with s.
  destruct (negb _); [by apply append_scientific_literal|by apply append_positional_literal].
Qed.

(** [float_text] of a finite float that is not zero is a decimal nearest to it, an exact tie
    going to the even digit, among those with as few digits as one that parses back needs, and
    with 17 digits when none does.  The text reads as that decimal under the float's sign. *)
Theorem float_text_exact s m e :
  let x := S754_finite s m e in
  let n := shortest_count x in
  exists text p q, float_text x = Some text /\ read_decimal text = Some (s, p.1, p.2) /\
    same_decimal p q /\ nearest_decimal x n q /\
    (1 <= n <= 17)%nat /\ (reads_back x n = true \/ n = 17%nat) /\
    (forall i, (1 <= i < n)%nat -> reads_back x i = false).
Proof.
  intros x n. destruct (float_text_finite s m e) as (text & ds & e0 & q & Ht & Hlay & Hq & Hx).
  destruct (lays_out_read _ _ _ _ _ Hlay) as (p & Hr & Hp). exists text, p, q.
  destruct (shortest_from_spec x 1 16) as (Hn & Hlow & Hlast). fold (shortest_count x) in Hn, Hlow, Hlast.
  fold n in Hn, Hlow, Hlast. split; [done|]. split; [done|]. split; [by eapply same_decimal_trans|].
  split; [done|]. split; [lia|]. split; [|done].
  destruct (decide (n = 17%nat)); [by right|]. left. apply Hlast. lia.
Qed.

(** [general] of a finite float is the decimal of six significant digits nearest to it, an
    exact tie going to the even digit; a zero is written as one digit with its sign. *)
Theorem general_exact :
  (forall (s : bool) m e, let x := S754_finite s m e in
    exists text p q, general x = Some text /\ read_decimal text = Some (s, p.1, p.2) /\
      same_decimal p q /\ nearest_decimal x GENERAL_DIGITS q) /\
  (forall s : bool, general (S754_zero s) = Some ((if s then lit "-" else []) ++ lit "0")).
Proof.
  split; [|by intros []]. intros s m e x.
  destruct (format_exp_spec GENERAL_DIGITS s m e ltac:(unfold GENERAL_DIGITS; lia))
    as (mantissa & ds & e0 & q & Hsplit & Htrim & Hs & Hq & Hx).
  assert (exists text, general x = Some text /\ lays_out true text (if s then lit "-" else []) ds e0)
    as (text & Ht & Hlay).
  { unfold general. change (non_finite x) with (@None str). cbn iota. cbv zeta. fold x in Hsplit. rewrite Hsplit.
    cbn [mbind option_bind]. rewrite parse_int_i32, Htrim. cbn [mbind option_bind].
    eexists. split; [reflexivity|]. rewrite decide_False.
    2:{ destruct Hs as (_ & d & rest & -> & _). done. }
    change (is_sign_negative x) with s. destruct (_ && _); [by apply append_plain_literal|].
    destruct (append_scientific_literal (if s then lit "-" else []) ds e0 Hs) as (int & frac & ex & ? & ? & ? & _ & ?).
    exists int, frac, ex. auto 10. }
  destruct (lays_out_read _ _ _ _ _ Hlay) as (p & Hr & Hp). exists text, p, q.
  split; [done|]. split; [done|]. split; [by eapply same_decimal_trans|done].
Qed.

(** The digits of [fixed] under the number they come from. *)
Lemma format_fixed_literal x places a b :
  magnitude x = (a, b) -> 0 <= a -> 0 < b ->
  exists int frac,
    format_fixed places x = literal (is_sign_negative x) int frac None /\
    Forall is_dec int /\ Forall is_dec frac /\ int <> [] /\ length frac = places /\
    value_of 10 (int ++ frac) = div_half_even (a * 10 ^ Z.of_nat places) b.
Proof.
  intros Hm Ha Hb. unfold format_fixed. rewrite Hm. pose proof (pow10_pos (Z.of_nat places) ltac:(lia)) as Hp.
  set (n := div_half_even (a * 10 ^ Z.of_nat places) b). set (p := 10 ^ Z.of_nat places) in *.
  assert (0 <= n).
  { apply (div_half_even_bounds (a * p) b 0 (a * p + 1)); nia. }
  pose proof (Z.mod_pos_bound n p Hp). pose proof (Z.div_pos n p ltac:(lia) Hp) as Hq.
  destruct (digits_of_dec (n / p) Hq) as (Hd & Hv & Hne). destruct (digits_of_dec (n mod p) ltac:(lia)) as (Hd' & Hv' & _).
  destruct places as [|places'] eqn:Epl.
  - exists (digits_of 10 (n / p)), []. split; [|split; [done|split; [constructor|split; [done|split; [done|]]]]].
    + unfold literal. by rewrite decide_True.
    + rewrite app_nil_r, Hv. subst p. by rewrite Z.pow_0_r, Z.div_1_r.
  - set (fraction := digits_of 10 (n mod p)) in *.
    assert (length fraction <= S places')%nat as Hlen by (subst fraction p; apply length_digits_of; lia).
    exists (digits_of 10 (n / p)), (replicate (S places' - length fraction) 0 ++ fraction).
    assert (length (replicate (S places' - length fraction) 0 ++ fraction) = S places') as Hl
      by (rewrite length_app, length_replicate; lia).
    split; [|split; [done|split; [|split; [done|split; [done|]]]]].
    + unfold literal. rewrite decide_False; [by rewrite app_nil_r|]. intros E. rewrite E in Hl. done.
    + apply Forall_app. split; [|done]. apply Forall_replicate. by unfold is_dec.
    + unfold value_of at 1. rewrite fold_left_app, fold_value, Hl. fold (value_of 10 (digits_of 10 (n / p))).
      rewrite value_of_leading_zeros, Hv, Hv'. fold p. pose proof (Z.div_mod n p ltac:(lia)). lia.
Qed.

Lemma magnitude_nonneg x a b : magnitude x = (a, b) -> 0 <= a /\ 0 < b.
Proof. destruct x as [| | |s m e]; [intros [= <- <-]; lia..|]. intros H. destruct (magnitude_pos s m e a b H). lia. Qed.

(** [fixed] of a finite float has exactly [places] digits after the point, and they are the
    float's exact value rounded to the nearest, an exact tie going to the even digit;
    [round_half_even] is the float nearest to that decimal, so both round the same value. *)
Theorem fixed_exact x places (Hx : is_finite x = true) :
  exists n, let '(a, b) := magnitude x in
    half_even_of (a * 10 ^ Z.of_nat places) b n /\
    read_decimal (fixed x places) = Some (is_sign_negative x, n, - Z.of_nat places) /\
    (Z.of_nat places <= MAX_ROUND_DIGITS ->
     round_half_even x (Z.of_nat places) = Some (nearest (is_sign_negative x) n (- Z.of_nat places))).
Proof.
  destruct (magnitude x) as [a b] eqn:Em. destruct (magnitude_nonneg x a b Em) as [Ha Hb].
  destruct (format_fixed_literal x places a b Em Ha Hb) as (int & frac & Ht & Hi & Hf & Hne & Hl & Hv).
  exists (div_half_even (a * 10 ^ Z.of_nat places) b). split; [by apply div_half_even_spec|].
  assert (read_decimal (format_fixed places x) =
    Some (is_sign_negative x, div_half_even (a * 10 ^ Z.of_nat places) b, - Z.of_nat places)) as Hr
    by (rewrite Ht, read_literal, Hv, Hl by done; done).
  assert (non_finite x = None) as Hn by (by destruct x).
  split; [unfold fixed; rewrite Hn; exact Hr|]. intros Hmax. unfold round_half_even.
  rewrite Hx, (proj2 (Z.ltb_ge _ _)) by lia. cbn [negb orb]. unfold parse_f64. rewrite Nat2Z.id, Hr. done.
Qed.

Lemma fixed_exact_witness :
  is_finite (S754_finite true 5 (-1)) = true /\
  exists n, half_even_of (5 * 10 ^ 0) 2 n /\ read_decimal (fixed (S754_finite true 5 (-1)) 0) = Some (true, n, 0).
Proof.
  split; [reflexivity|]. destruct (fixed_exact (S754_finite true 5 (-1)) 0 eq_refl) as (n & H1 & H2 & _).
  exists n. exact (conj H1 H2).
Defined.

(** ** Where the text does not read back *)

(** The text of [2 ^ -44] does not parse back.  16 digits are enough, and the decimal that
    parses back ends in 2; the nearest decimal of 16 digits ends in 1, and lies below the float,
    where the next float is half as far as the one above, so it parses to that lower float. *)
Theorem float_text_misreads :
  let x := S754_finite false (2 ^ 52) (-96) in
  valid_binary prec emax x = true /\
  float_text x = Some (lit "5.684341886080801e-14") /\
  parse_f64 (lit "5.684341886080801e-14") = Some (S754_finite false (2 ^ 53 - 1) (-97)) /\
  parse_f64 (lit "5.684341886080802e-14") = Some x.
Proof. vm_compute. done. Qed.
