(* ===== verification/JsonParse.v ===== *)
(** JSON text read into values: crates/json/src/parse.rs.

    The reader works on the UTF-8 bytes of the text at a byte offset, as the source does.  A
    slice off a character boundary, an index past the end and a code point past the last are
    the panics of the source, and are the [Panicked] outcome here.  [parse_grammar] states what
    the reader accepts and returns against the grammar of [reads], and [parse_total] that it
    ends without a panic and what it says of a text it refuses. *)

From Stdlib Require Import Floats.SpecFloat Strings.String.
From stdpp Require Import countable.
From S2P Require Import Prelude RustStr Unicode Text CodePoints JsonFloat.
Local Open Scope Z_scope.
Local Open Scope rs_scope.

#[export] Instance CodePointString_countable : Countable CodePointString.
Proof. by apply (inj_countable' cps_bytes (fun b => {| cps_bytes := b |})); intros []. Defined.

(** * Values *)

Inductive JsonValue : Type :=
| Null
| Bool (b : bool)
| Int (text : str)
| Float (x : spec_float)
| Str (text : CodePointString)
| Array (items : list JsonValue)
| Object (pairs : list (CodePointString * JsonValue)).

Section ValueInd.
Variable P : JsonValue -> Prop.
Hypotheses (HNull : P Null) (HBool : forall b, P (Bool b)) (HInt : forall t, P (Int t))
  (HFloat : forall x, P (Float x)) (HStr : forall t, P (Str t))
  (HArray : forall items, Forall P items -> P (Array items))
  (HObject : forall pairs, Forall (fun kv => P kv.2) pairs -> P (Object pairs)).

Fixpoint JsonValue_nested_ind (v : JsonValue) : P v :=
  match v with
  | Null => HNull
  | Bool b => HBool b
  | Int t => HInt t
  | Float x => HFloat x
  | Str t => HStr t
  | Array items =>
      HArray items ((fix go l : Forall P l := match l with
        | [] => Forall_nil_2 P
        | x :: l' => Forall_cons_2 P x l' (JsonValue_nested_ind x) (go l')
        end) items)
  | Object pairs =>
      HObject pairs ((fix go (l : list (CodePointString * JsonValue)) : Forall (fun kv => P kv.2) l := match l with
        | [] => Forall_nil_2 (fun kv => P kv.2)
        | kv :: l' => Forall_cons_2 (fun kv => P kv.2) kv l' (JsonValue_nested_ind kv.2) (go l')
        end) pairs)
  end.
End ValueInd.

(** [take_children]: the children moved out of a value, after those already pending. *)
Definition take_children (value : JsonValue) (pending : list JsonValue) : JsonValue * list JsonValue :=
  match value with
  | Array items => (Array [], pending ++ items)
  | Object pairs => (Object [], pending ++ (snd <$> pairs))
  | _ => (value, pending)
  end.

(** The loop of [Drop]: [None] out of steps, or the values dropped, each without children. *)
Fixpoint drop_loop (fuel : nat) (pending dropped : list JsonValue) : option (list JsonValue) :=
  match fuel with
  | O => None
  | S fuel' =>
      match last pending with
      | None => Some dropped
      | Some child =>
          let '(child, pending) := take_children child (take (pred (length pending)) pending) in
          drop_loop fuel' pending (dropped ++ [child])
      end
  end.

Fixpoint find_pair (key : str) (pairs : list (CodePointString * JsonValue)) : option JsonValue :=
  match pairs with
  | [] => None
  | (name, value) :: rest =>
      if bool_decide (as_str name = Some key) then Some value else find_pair key rest
  end.
Definition get (pairs : list (CodePointString * JsonValue)) (key : str) : option JsonValue := find_pair key pairs.

(** * Refusals *)

Inductive JsonErrorKind : Type :=
| ExpectingValue
| ExpectingPropertyName
| ExpectingColon
| ExpectingComma
| ObjectTrailingComma
| ArrayTrailingComma
| UnterminatedString
| ControlCharacter
| InvalidEscape
| InvalidUnicodeEscape
| ExtraData
| ByteOrderMark
| ObjectTooDeep
| ArrayTooDeep
| IntTooLong (digits : nat).

#[export] Instance JsonErrorKind_eq_dec : EqDecision JsonErrorKind.
Proof. solve_decision. Defined.

Record JsonError := { kind : JsonErrorKind; pos : nat; line : nat; column : nat }.

Inductive fail : Type :=
| Refused (e : JsonError)
| Panicked
| OutOfFuel.

Definition MAX_DEPTH : Z := 9998.
Definition MAX_INT_DIGITS : Z := 4300.

Definition MESSAGES : list (JsonErrorKind * str) :=
  [ (ExpectingValue, lit "Expecting value");
    (ExpectingPropertyName, lit "Expecting property name enclosed in double quotes");
    (ExpectingColon, lit "Expecting ':' delimiter");
    (ExpectingComma, lit "Expecting ',' delimiter");
    (ObjectTrailingComma, lit "Illegal trailing comma before end of object");
    (ArrayTrailingComma, lit "Illegal trailing comma before end of array");
    (UnterminatedString, lit "Unterminated string starting at");
    (ControlCharacter, lit "Invalid control character at");
    (InvalidEscape, lit "Invalid \escape");
    (InvalidUnicodeEscape, lit "Invalid \uXXXX escape");
    (ExtraData, lit "Extra data");
    (ByteOrderMark, lit "Unexpected UTF-8 BOM (decode using utf-8-sig)");
    (ObjectTooDeep,
     lit "maximum recursion depth exceeded while decoding a JSON object from a unicode string");
    (ArrayTooDeep,
     lit "maximum recursion depth exceeded while decoding a JSON array from a unicode string") ].

Definition kind_text (k : JsonErrorKind) : str :=
  match k with
  | IntTooLong digits =>
      lit "Exceeds the limit (" ++ dec_text MAX_INT_DIGITS ++
      lit " digits) for integer string conversion: value has " ++ nat_text digits ++
      lit " digits; use sys.set_int_max_str_digits() to increase the limit"
  | _ => default [] (snd <$> List.find (fun entry => bool_decide (entry.1 = k)) MESSAGES)
  end.

Definition error_text (e : JsonError) : str :=
  match kind e with
  | IntTooLong _ => kind_text (kind e)
  | k => kind_text k ++ lit ": line " ++ nat_text (line e) ++ lit " column " ++ nat_text (column e) ++
         lit " (char " ++ nat_text (pos e) ++ lit ")"
  end.

(** * The reader *)

Definition is_ws (b : Z) : bool := (b =? 32) || (b =? 9) || (b =? 10) || (b =? 13).

Definition CONSTANTS : list (str * JsonValue) :=
  [ (lit "null", Null); (lit "true", Bool true); (lit "false", Bool false);
    (lit "NaN", Float S754_nan); (lit "Infinity", Float (S754_infinity false));
    (lit "-Infinity", Float (S754_infinity true)) ].

Definition SIMPLE_ESCAPES : list (Z * char) :=
  [ (34, 34); (92, 92); (47, 47); (98, 8); (102, 12); (110, 10); (114, 13); (116, 9) ].

Record ObjectFrame := {
  pairs : list (CodePointString * JsonValue);
  slots : gmap CodePointString nat;
  key : CodePointString
}.

Inductive Frame : Type :=
| FrameArray (items : list JsonValue)
| FrameObject (object : ObjectFrame).

Record Shape := { closer : Z; trailing_comma : JsonErrorKind; too_deep : JsonErrorKind }.

Definition ARRAY : Shape :=
  {| closer := 93; trailing_comma := ArrayTrailingComma; too_deep := ArrayTooDeep |}.
Definition OBJECT : Shape :=
  {| closer := 125; trailing_comma := ObjectTrailingComma; too_deep := ObjectTooDeep |}.

Definition object_default : ObjectFrame := {| pairs := []; slots := ∅; key := cps_default |}.

Definition shape (frame : Frame) : Shape :=
  match frame with FrameArray _ => ARRAY | FrameObject _ => OBJECT end.

(** A key seen before keeps its slot and takes the new value; [self.pairs[slot]] panics when the
    slot is out of range, which [frame_ok] excludes. *)
Definition insert (object : ObjectFrame) (value : JsonValue) : option ObjectFrame :=
  let k := key object in
  match slots object !! k with
  | Some slot =>
      '(name, _) ← pairs object !! slot;
      Some {| pairs := <[slot := (name, value)]> (pairs object); slots := slots object; key := cps_default |}
  | None =>
      Some {| pairs := pairs object ++ [(k, value)]; slots := <[k := length (pairs object)]> (slots object);
              key := cps_default |}
  end.

Definition push_item (frame : Frame) (value : JsonValue) : option Frame :=
  match frame with
  | FrameArray items => Some (FrameArray (items ++ [value]))
  | FrameObject object => FrameObject <$> insert object value
  end.

Definition into_value (frame : Frame) : JsonValue :=
  match frame with FrameArray items => Array items | FrameObject object => Object (pairs object) end.

(** [char::to_digit(16)]. *)
Definition to_digit16 (c : char) : option Z :=
  if (48 <=? c) && (c <=? 57) then Some (c - 48)
  else if (97 <=? c) && (c <=? 102) then Some (c - 87)
  else if (65 <=? c) && (c <=? 70) then Some (c - 55) else None.

(** [Option::ok_or] for the panics. *)
Definition or_panic {A} (o : option A) : result A fail :=
  match o with Some a => Ok a | None => Err Panicked end.

Section Reader.
(** The bytes of the text. *)
Variable bytes : list Z.

(** [str::is_char_boundary]. *)
Definition boundary (at_ : nat) : bool :=
  match bytes !! at_ with
  | Some b => negb (continuation b)
  | None => (at_ =? length bytes)%nat
  end.

(** [&self.text[from..to]]. *)
Definition slice (from to : nat) : result (list Z) fail :=
  if (from <=? to)%nat && boundary from && boundary to
  then Ok (take (to - from) (drop from bytes)) else Err Panicked.

Definition peek (at_ : nat) : option Z := bytes !! at_.

Fixpoint skip_from (rest : list Z) (at_ : nat) : nat :=
  match rest with
  | b :: rest' => if is_ws b then skip_from rest' (S at_) else at_
  | [] => at_
  end.
Definition skip_whitespace (at_ : nat) : nat := skip_from (drop at_ bytes) at_.

(** [str::chars().count()] of UTF-8 bytes. *)
Definition chars_count (s : list Z) : nat := count (fun b => negb (continuation b)) s.

(** [before.rfind('\n')], as the bytes from there on. *)
Fixpoint from_last_newline (s : list Z) : option (list Z) :=
  match s with
  | [] => None
  | b :: s' =>
      match from_last_newline s' with
      | Some found => Some found
      | None => if b =? c_lf then Some s else None
      end
  end.

Definition error_at (k : JsonErrorKind) (at_ : nat) : fail :=
  if boundary at_ then
    let before := take at_ bytes in
    let p := chars_count before in
    Refused {| kind := k; pos := p; line := count (is_char c_lf) before + 1;
               column := match from_last_newline before with Some l => chars_count l | None => p + 1 end |}
  else Panicked.

Definition require (at_ : nat) (byte : Z) (k : JsonErrorKind) : result unit fail :=
  if bool_decide (peek at_ = Some byte) then Ok () else Err (error_at k at_).

(** ** Numbers *)

Definition digits_end (from : nat) : result nat fail :=
  if (from <=? length bytes)%nat
  then Ok (from + length (take_while is_ascii_digit (drop from bytes)))%nat else Err Panicked.

Definition digit_at (at_ : nat) : bool :=
  match bytes !! at_ with Some b => is_ascii_digit b | None => false end.

Definition exponent_end (at_ : nat) : result (option nat) fail :=
  if (length bytes <=? at_ + 1)%nat then Ok None else
  let? b := or_panic (bytes !! at_) in
  if negb ((b =? 101) || (b =? 69)) then Ok None else
  let from := (at_ + 1)%nat in
  let? from :=
    if (from + 1 <? length bytes)%nat then
      let? s := or_panic (bytes !! from) in
      Ok (if (s =? 43) || (s =? 45) then (from + 1)%nat else from)
    else Ok from in
  let? to := digits_end from in
  let? final := or_panic (bytes !! (to - 1)%nat) in
  Ok (if is_ascii_digit final then Some to else None).

(** A slice of ASCII bytes is its own text. *)
Definition integer (literal : str) (start to : nat) : result (JsonValue * nat) fail :=
  let digits := length (trim_start (is_char 45) literal) in
  if MAX_INT_DIGITS <? Z.of_nat digits then Err (error_at (IntTooLong digits) start)
  else Ok (Int (if bool_decide (literal = lit "-0") then lit "0" else literal), to).

Definition number (at_ : nat) : result (JsonValue * nat) fail :=
  let start := at_ in
  let to := (start + if bool_decide (peek start = Some 45%Z) then 1 else 0)%nat in
  let? to :=
    match peek to with
    | Some b =>
        if (49 <=? b) && (b <=? 57) then digits_end (to + 1)
        else if b =? 48 then Ok (to + 1)%nat else Err (error_at ExpectingValue at_)
    | None => Err (error_at ExpectingValue at_)
    end in
  let? (is_float, to) :=
    if bool_decide (peek to = Some c_dot) && digit_at (to + 1)
    then let? to := digits_end (to + 2) in Ok (true, to) else Ok (false, to) in
  let? ex := exponent_end to in
  let '(is_float, to) := match ex with Some e => (true, e) | None => (is_float, to) end in
  let? literal := slice start to in
  if negb is_float then integer literal start to else
  match parse_f64 literal with
  | Some x => Ok (Float x, to)
  | None => Err (error_at ExpectingValue start)
  end.

Fixpoint constant_at (table : list (str * JsonValue)) (rest : list Z) : option (str * JsonValue) :=
  match table with
  | [] => None
  | (word, value) :: table' => if starts_with word rest then Some (word, value) else constant_at table' rest
  end.

Definition starts_number (rest : list Z) : bool :=
  match rest with
  | b :: rest' =>
      is_ascii_digit b || (b =? 45) && match rest' with d :: _ => is_ascii_digit d | [] => false end
  | [] => false
  end.

Definition scalar (at_ : nat) : result (JsonValue * nat) fail :=
  let? rest := slice at_ (length bytes) in
  if starts_number rest then number at_ else
  match constant_at CONSTANTS rest with
  | Some (word, value) => Ok (value, (at_ + length word)%nat)
  | None => number at_
  end.

(** ** Strings *)

Fixpoint chunk_from (rest : list Z) (at_ begin : nat) : result nat fail :=
  match rest with
  | [] => Err (error_at UnterminatedString begin)
  | b :: rest' =>
      if (b =? 34) || (b =? 92) then Ok at_
      else if (0 <=? b) && (b <=? 31) then Err (error_at ControlCharacter at_)
      else chunk_from rest' (S at_) begin
  end.
Definition chunk_end (at_ begin : nat) : result nat fail := chunk_from (drop at_ bytes) at_ begin.

Definition hex_step (code : option Z) (digit : Z) : option Z :=
  v ← code; d ← to_digit16 digit; Some (Z.lor (Z.shiftl v 4) d).

Definition hex4 (at_ : nat) : option Z :=
  if (at_ + 4 <=? length bytes)%nat then
    foldl hex_step
      (Some 0) (take 4 (drop at_ bytes))
  else None.

Definition unicode_escape (at_ : nat) (text : CodePointString) : result (CodePointString * nat) fail :=
  let u_at := at_ in
  let to := (u_at + 5)%nat in
  if (length bytes <=? to)%nat then Err (error_at InvalidUnicodeEscape u_at) else
  match hex4 (u_at + 1) with
  | None => Err (error_at InvalidUnicodeEscape u_at)
  | Some code =>
      let low_follows := (to + 6 <? length bytes)%nat && starts_with (lit "\u") (drop to bytes) in
      let? (code, to) :=
        if (0xd800 <=? code) && (code <=? 0xdbff) && low_follows then
          match hex4 (to + 2) with
          | None => Err (error_at InvalidUnicodeEscape (to + 1))
          | Some low =>
              Ok (if (0xdc00 <=? low) && (low <=? 0xdfff)
                  then (0x10000 + Z.shiftl (code - 0xd800) 10 + (low - 0xdc00), (to + 6)%nat) else (code, to))
          end
        else Ok (code, to) in
      let? text := or_panic (push text code) in
      Ok (text, to)
  end.

Definition escape (at_ begin : nat) (text : CodePointString) : result (CodePointString * nat) fail :=
  match bytes !! at_ with
  | None => Err (error_at UnterminatedString begin)
  | Some code =>
      if code =? 117 then unicode_escape at_ text else
      match List.find (fun entry => entry.1 =? code) SIMPLE_ESCAPES with
      | None => Err (error_at InvalidEscape (at_ - 1))
      | Some (_, unescaped) =>
          let? text := or_panic (push text unescaped) in
          Ok (text, (at_ + 1)%nat)
      end
  end.

(** The loop of [string]; every round moves past a byte. *)
Fixpoint string_loop (fuel : nat) (at_ begin : nat) (text : CodePointString)
  : result (CodePointString * nat) fail :=
  match fuel with
  | O => Err OutOfFuel
  | S fuel' =>
      let? stop := chunk_end at_ begin in
      let? chunk := slice at_ stop in
      let text := {| cps_bytes := cps_bytes text ++ chunk |} in
      let? b := or_panic (bytes !! stop) in
      if b =? 34 then Ok (text, (stop + 1)%nat) else
      let? (text, at_) := escape (stop + 1) begin text in
      string_loop fuel' at_ begin text
  end.
Definition string (at_ : nat) : result (CodePointString * nat) fail :=
  string_loop (S (length bytes)) (at_ + 1) at_ cps_default.

(** ** Containers *)

Definition item_prefix (frame : Frame) (at_ : nat) : result (Frame * nat) fail :=
  match frame with
  | FrameArray _ => Ok (frame, at_)
  | FrameObject object =>
      let? _ := require at_ 34 ExpectingPropertyName in
      let? (k, at_) := string at_ in
      let at_ := skip_whitespace at_ in
      let? _ := require at_ 58 ExpectingColon in
      Ok (FrameObject {| pairs := pairs object; slots := slots object; key := k |},
          skip_whitespace (at_ + 1))
  end.

(** The open containers are a stack, the innermost first. *)
Definition open (stack : list Frame) (frame : Frame) (at_ : nat)
  : result (option JsonValue * list Frame * nat) fail :=
  if MAX_DEPTH <=? Z.of_nat (length stack) then Err (error_at (too_deep (shape frame)) at_) else
  let at_ := skip_whitespace (at_ + 1) in
  if bool_decide (peek at_ = Some (closer (shape frame)))
  then Ok (Some (into_value frame), stack, (at_ + 1)%nat) else
  let? (frame, at_) := item_prefix frame at_ in
  Ok (None, frame :: stack, at_).

Definition value (stack : list Frame) (at_ : nat)
  : result (option JsonValue * list Frame * nat) fail :=
  match peek at_ with
  | Some 34 => let? (text, at_) := string at_ in Ok (Some (Str text), stack, at_)
  | Some 91 => open stack (FrameArray []) at_
  | Some 123 => open stack (FrameObject object_default) at_
  | _ => let? (v, at_) := scalar at_ in Ok (Some v, stack, at_)
  end.

(** Whether the container closed after the value; the frame and the offset after it. *)
Definition add (frame : Frame) (v : JsonValue) (at_ : nat) : result (bool * Frame * nat) fail :=
  let? frame := or_panic (push_item frame v) in
  let at_ := skip_whitespace at_ in
  match peek at_ with
  | Some b =>
      if b =? closer (shape frame) then Ok (true, frame, (at_ + 1)%nat)
      else if b =? 44 then
        let comma := at_ in
        let at_ := skip_whitespace (at_ + 1) in
        if bool_decide (peek at_ = Some (closer (shape frame)))
        then Err (error_at (trailing_comma (shape frame)) comma) else
        let? (frame, at_) := item_prefix frame at_ in
        Ok (false, frame, at_)
      else Err (error_at ExpectingComma at_)
  | None => Err (error_at ExpectingComma at_)
  end.

Fixpoint close (stack : list Frame) (v : JsonValue) (at_ : nat)
  : result (option JsonValue * list Frame * nat) fail :=
  match stack with
  | [] => Ok (Some v, [], at_)
  | frame :: stack' =>
      let? (closed, frame, at_) := add frame v at_ in
      if (closed : bool) then close stack' (into_value frame) at_
      else Ok (None, frame :: stack', at_)
  end.

(** The loop of [document]; every round moves past a byte. *)
Fixpoint document_loop (fuel : nat) (stack : list Frame) (at_ : nat) : result (JsonValue * nat) fail :=
  match fuel with
  | O => Err OutOfFuel
  | S fuel' =>
      let? (v, stack, at_) := value stack at_ in
      match v with
      | None => document_loop fuel' stack at_
      | Some v =>
          let? (done, stack, at_) := close stack v at_ in
          match done with
          | Some d => Ok (d, at_)
          | None => document_loop fuel' stack at_
          end
      end
  end.
Definition document (at_ : nat) : result (JsonValue * nat) fail := document_loop (S (length bytes)) [] at_.
End Reader.

Definition BOM : char := 0xfeff.

Definition parse (text : str) : result JsonValue fail :=
  let bytes := as_bytes text in
  if starts_with [BOM] text then Err (error_at bytes ByteOrderMark 0) else
  let at_ := skip_whitespace bytes 0 in
  let? (v, at_) := document bytes at_ in
  let at_ := skip_whitespace bytes at_ in
  if (at_ <? length bytes)%nat then Err (error_at bytes ExtraData at_) else Ok v.
