(* ===== verification/JsonSpec.v ===== *)
(** The JSON grammar, and the reader of JsonParse.v against it.

    [reads] is the grammar on characters, independent of offsets, frames and fuel.
    [parse_grammar] is the equivalence of [parse] and the grammar, and [parse_total] is what
    [parse] does with every text. *)

From Stdlib Require Import Floats.SpecFloat Strings.String.
From S2P Require Import Prelude RustStr Unicode Text CodePoints JsonFloat JsonParse.
Local Open Scope Z_scope.
Local Open Scope rs_scope.

(** * Characters and their bytes *)

Lemma encode_length c : is_scalar c = true -> (1 <= length (encode_utf8 c))%nat.
Proof. intros Hs. destruct (encode_shape c Hs) as [[_ ->]|(_ & b & rest & -> & _)]; cbn; lia. Qed.

Lemma chars_count_app a b : chars_count (a ++ b) = (chars_count a + chars_count b)%nat.
Proof. apply count_app. Qed.

Lemma chars_count_encode c : is_scalar c = true -> chars_count (encode_utf8 c) = 1%nat.
Proof.
  intros Hs. destruct (encode_shape c Hs) as [[Hc ->]|(_ & b & rest & -> & _ & Hb & Hrest)].
  - unfold chars_count, count, is_ascii in *. cbn. assert (continuation c = false) as -> by (unfold continuation; lia). done.
  - change (b :: rest) with ([b] ++ rest). rewrite chars_count_app. unfold chars_count at 2. rewrite count_free.
    + unfold chars_count, count. cbn. by rewrite Hb.
    + eapply Forall_impl; [exact Hrest|]. by intros x ->.
Qed.

Lemma chars_count_text s : is_str s -> chars_count (as_bytes s) = length s.
Proof.
  induction 1 as [|c s Hc _ IH]; [done|]. by rewrite as_bytes_cons, chars_count_app, chars_count_encode, IH.
Qed.

(** An ASCII character is found in the bytes where it is in the text. *)
Lemma encode_ascii_free a c : is_ascii a -> is_scalar c = true -> 128 <= c -> Forall (fun b => is_char a b = false) (encode_utf8 c).
Proof.
  intros Ha Hs Hc. destruct (encode_shape c Hs) as [[Hc' _]|(_ & b & rest & -> & Hb & _ & Hrest)]; [unfold is_ascii in *; lia|].
  constructor; [apply is_char_false; unfold is_ascii in *; lia|]. eapply Forall_impl; [exact Hrest|].
  intros x Hx. apply is_char_false. unfold continuation, is_ascii in *. lia.
Qed.

Lemma count_text a s : is_ascii a -> is_str s -> count (is_char a) (as_bytes s) = count (is_char a) s.
Proof.
  intros Ha Hs. induction Hs as [|c s Hc _ IH]; [done|]. rewrite as_bytes_cons, count_app, IH.
  change (c :: s) with ([c] ++ s). rewrite (count_app _ [c]). f_equal.
  destruct (Z.ltb_spec c 128); [rewrite encode_ascii; [done|unfold is_ascii; apply scalar_range in Hc; lia]|].
  rewrite !count_free; [done| |by apply encode_ascii_free]. apply Forall_singleton, is_char_false. unfold is_ascii in *. lia.
Qed.

(** The line a text ends in: what follows its last line feed. *)
Definition last_line (s : str) : str := default [] (last (split_char c_lf s)).

Lemma last_line_cons c s :
  last_line (c :: s) = if existsb (is_char c_lf) s then last_line s else if is_char c_lf c then s else c :: s.
Proof.
  unfold last_line, split_char. cbn [split_on]. destruct (existsb (is_char c_lf) s) eqn:E.
  - assert (exists w w' ws, split_on (is_char c_lf) s = w :: w' :: ws) as (w & w' & ws & ->).
    { clear -E. induction s as [|d s IH]; [done|]. cbn [existsb split_on] in *. destruct (is_char c_lf d).
      - destruct (split_on (is_char c_lf) s) as [|w ws] eqn:Es; [by apply split_on_nonempty in Es|]. by eexists _, _, _.
      - destruct (IH E) as (w & w' & ws & ->). by eexists _, _, _. }
    destruct (is_char c_lf c); done.
  - rewrite split_on_of_free.
    + destruct (is_char c_lf c); done.
    + apply List.Forall_forall. intros x Hx. apply not_true_iff_false. intros Hc.
      apply not_true_iff_false in E. apply E. apply existsb_exists. eauto.
Qed.

(** [rfind] on the bytes finds the last line of the characters. *)
Lemma from_last_newline_text s :
  is_str s ->
  from_last_newline (as_bytes s) =
  if existsb (is_char c_lf) s then Some (c_lf :: as_bytes (last_line s)) else None.
Proof.
  assert (forall c s, Forall (fun b => is_char c_lf b = false) c ->
    from_last_newline (c ++ s) = from_last_newline s) as Hskip.
  { intros c s' H. induction H as [|b c Hb _ IH]; [done|]. cbn [app from_last_newline]. rewrite IH.
    destruct (from_last_newline s'); [done|]. apply is_char_false in Hb. by rewrite (proj2 (Z.eqb_neq b c_lf)). }
  induction 1 as [|c s Hc Hs IH]; [done|]. rewrite as_bytes_cons, last_line_cons. cbn [existsb].
  destruct (Z.ltb_spec c 128).
  - rewrite encode_ascii by (unfold is_ascii; apply scalar_range in Hc; lia). cbn [app from_last_newline]. rewrite IH.
    destruct (existsb (is_char c_lf) s); [by rewrite orb_true_r|]. rewrite orb_false_r. unfold is_char. rewrite Z.eqb_sym.
    destruct (Z.eqb_spec c_lf c) as [<-|]; done.
  - rewrite Hskip by (by apply encode_ascii_free). rewrite IH.
    assert (is_char c_lf c = false) as -> by (apply is_char_false; unfold c_lf; lia). cbn [orb].
    by destruct (existsb (is_char c_lf) s).
Qed.

Lemma last_line_free s : existsb (is_char c_lf) s = false -> last_line s = s.
Proof.
  intros E. unfold last_line, split_char. rewrite split_on_of_free; [done|].
  apply List.Forall_forall. intros x Hx. apply not_true_iff_false. intros Hc.
  apply not_true_iff_false in E. apply E. apply existsb_exists. eauto.
Qed.

Lemma last_line_suffix s : exists p, s = p ++ last_line s.
Proof.
  induction s as [|c s [p IH]]; [by exists []|]. rewrite last_line_cons. destruct (existsb (is_char c_lf) s).
  - exists (c :: p). cbn. by rewrite <-IH.
  - destruct (is_char c_lf c); [by exists [c]|by exists []].
Qed.

(** * The grammar *)

Definition ws (s : str) : Prop := Forall (fun c => is_ws c = true) s.
Definition digit_str (s : str) : Prop := Forall (fun c => is_ascii_digit c = true) s.

(** An integer part has no leading zero. *)
Inductive int_part : str -> Prop :=
| int_zero : int_part [48]
| int_digits d ds : 49 <= d <= 57 -> digit_str ds -> int_part (d :: ds).

Inductive frac_part : str -> Prop :=
| frac_none : frac_part []
| frac_some d ds : digit_str (d :: ds) -> frac_part (c_dot :: d :: ds).

Inductive exp_part : str -> Prop :=
| exp_none : exp_part []
| exp_some e sign d ds : e = 101 \/ e = 69 -> sign = [] \/ sign = [43] \/ sign = [45] ->
    digit_str (d :: ds) -> exp_part (e :: sign ++ d :: ds).

(** A number without a fraction and an exponent is an integer, kept as text. *)
Inductive number_reads : str -> JsonValue -> Prop :=
| number_int sign int :
    sign = [] \/ sign = [45] -> int_part int -> Z.of_nat (length int) <= MAX_INT_DIGITS ->
    number_reads (sign ++ int) (Int (if bool_decide (sign ++ int = lit "-0") then lit "0" else sign ++ int))
| number_float sign int frac ex x :
    sign = [] \/ sign = [45] -> int_part int -> frac_part frac -> exp_part ex -> frac <> [] \/ ex <> [] ->
    parse_f64 (sign ++ int ++ frac ++ ex) = Some x ->
    number_reads (sign ++ int ++ frac ++ ex) (Float x).

Inductive scalar_reads : str -> JsonValue -> Prop :=
| scalar_constant word v : (word, v) ∈ CONSTANTS -> scalar_reads word v
| scalar_number w v : number_reads w v -> scalar_reads w v.

(** A character that a string holds as it is. *)
Definition plain (c : char) : bool := negb ((c =? 34) || (c =? 92) || ((0 <=? c) && (c <=? 31))).

Definition is_high (u : Z) : bool := (0xd800 <=? u) && (u <=? 0xdbff).
Definition is_low (u : Z) : bool := (0xdc00 <=? u) && (u <=? 0xdfff).

(** Four hexadecimal digits, in either case, and the code unit they spell. *)
Definition hex_unit (ds : str) (u : Z) : Prop :=
  length ds = 4%nat /\ exists vs, mapM to_digit16 ds = Some vs /\ u = value_of 16 vs.

Definition starts_low_escape (body : str) : Prop :=
  exists ds u rest, body = 92 :: 117 :: ds ++ rest /\ hex_unit ds u /\ is_low u = true.

(** The body of a string and its code points.  Escapes of a high and a low surrogate in a row
    are one code point; any other surrogate escape stays a lone surrogate. *)
Inductive body_reads : str -> list Z -> Prop :=
| body_nil : body_reads [] []
| body_plain c body codes :
    plain c = true -> body_reads body codes -> body_reads (c :: body) (c :: codes)
| body_simple name c body codes :
    (name, c) ∈ SIMPLE_ESCAPES -> body_reads body codes -> body_reads (92 :: name :: body) (c :: codes)
| body_unit ds u body codes :
    hex_unit ds u -> (is_high u = true -> ~ starts_low_escape body) -> body_reads body codes ->
    body_reads (92 :: 117 :: ds ++ body) (u :: codes)
| body_pair ds1 u1 ds2 u2 body codes :
    hex_unit ds1 u1 -> hex_unit ds2 u2 -> is_high u1 = true -> is_low u2 = true -> body_reads body codes ->
    body_reads (92 :: 117 :: ds1 ++ 92 :: 117 :: ds2 ++ body)
               (0x10000 + (u1 - 0xd800) * 1024 + (u2 - 0xdc00) :: codes).

Definition string_reads (w : str) (text : CodePointString) : Prop :=
  exists body codes, w = 34 :: body ++ [34] /\ body_reads body codes /\ built text codes.

(** A member's value in the members so far: a key seen before keeps its place. *)
Fixpoint put (k : CodePointString) (v : JsonValue) (ps : list (CodePointString * JsonValue))
  : list (CodePointString * JsonValue) :=
  match ps with
  | [] => [(k, v)]
  | (k', v') :: ps' => if decide (k = k') then (k', v) :: ps' else (k', v') :: put k v ps'
  end.
Definition put_all (ps kvs : list (CodePointString * JsonValue)) : list (CodePointString * JsonValue) :=
  foldl (fun ps kv => put kv.1 kv.2 ps) ps kvs.

(** The text of a value with containers nested at most [n] deep, of the items of an array and of
    the members of an object. [entry_reads k] is the rest of the members after the key [k]. *)
Inductive reads : nat -> str -> JsonValue -> Prop :=
| reads_scalar n w v : scalar_reads w v -> reads n w v
| reads_string n w text : string_reads w text -> reads n w (Str text)
| reads_array_empty n s : ws s -> reads (S n) (91 :: s ++ [93]) (Array [])
| reads_array n s it vs : ws s -> items_read n it vs -> reads (S n) (91 :: s ++ it ++ [93]) (Array vs)
| reads_object_empty n s : ws s -> reads (S n) (123 :: s ++ [125]) (Object [])
| reads_object n s mt kvs :
    ws s -> members_read n mt kvs -> reads (S n) (123 :: s ++ mt ++ [125]) (Object (put_all [] kvs))
with items_read : nat -> str -> list JsonValue -> Prop :=
| items_one n w v s : reads n w v -> ws s -> items_read n (w ++ s) [v]
| items_more n w v s1 s2 it vs :
    reads n w v -> ws s1 -> ws s2 -> items_read n it vs -> items_read n (w ++ s1 ++ 44 :: s2 ++ it) (v :: vs)
with members_read : nat -> str -> list (CodePointString * JsonValue) -> Prop :=
| members_key n kw k s1 s2 et kvs :
    string_reads kw k -> ws s1 -> ws s2 -> entry_reads n k et kvs ->
    members_read n (kw ++ s1 ++ 58 :: s2 ++ et) kvs
with entry_reads : nat -> CodePointString -> str -> list (CodePointString * JsonValue) -> Prop :=
| entry_one n k w v s : reads n w v -> ws s -> entry_reads n k (w ++ s) [(k, v)]
| entry_more n k w v s1 s2 mt kvs :
    reads n w v -> ws s1 -> ws s2 -> members_read n mt kvs ->
    entry_reads n k (w ++ s1 ++ 44 :: s2 ++ mt) ((k, v) :: kvs).

Scheme reads_mut := Induction for reads Sort Prop
with items_mut := Induction for items_read Sort Prop
with members_mut := Induction for members_read Sort Prop
with entry_mut := Induction for entry_reads Sort Prop.
Combined Scheme reads_mutind from reads_mut, items_mut, members_mut, entry_mut.

Definition depth_limit : nat := Z.to_nat MAX_DEPTH.

(** The whole text of a value. *)
Definition text_reads (text : str) (v : JsonValue) : Prop :=
  exists s1 w s2, text = s1 ++ w ++ s2 /\ ws s1 /\ ws s2 /\ reads depth_limit w v.

(** ** Frames *)

(** The slots of an object name the places of its keys. *)
Definition slots_ok (o : ObjectFrame) : Prop := forall k i, slots o !! k = Some i <-> (pairs o).*1 !! i = Some k.

Definition frame_ok (frame : Frame) : Prop :=
  match frame with FrameArray _ => True | FrameObject o => slots_ok o end.

(** [w] opens [frame]: with any items, or any rest of the members, and the closer after it, it
    is the text of the container's value. *)
Definition frame_reads (n : nat) (frame : Frame) (w : str) : Prop :=
  match frame with
  | FrameArray xs => forall it vs, items_read n it vs -> reads (S n) (w ++ it ++ [93]) (Array (xs ++ vs))
  | FrameObject o => forall et kvs, entry_reads n (key o) et kvs ->
      reads (S n) (w ++ et ++ [125]) (Object (put_all (pairs o) kvs))
  end.

(** The same before the prefix of an item. *)
Definition frame_ready (n : nat) (frame : Frame) (w : str) : Prop :=
  match frame with
  | FrameArray _ => frame_reads n frame w
  | FrameObject o => forall mt kvs, members_read n mt kvs ->
      reads (S n) (w ++ mt ++ [125]) (Object (put_all (pairs o) kvs))
  end.

(** The open containers and the text that opened them; [n] more levels can nest. *)
Inductive stack_ok : nat -> list Frame -> str -> Prop :=
| stack_nil : stack_ok depth_limit [] []
| stack_cons n frame stack w wf :
    frame_ok frame -> frame_reads n frame wf -> stack_ok (S n) stack w ->
    stack_ok n (frame :: stack) (w ++ wf).

Lemma put_at k v ps i :
  ps.*1 !! i = Some k -> (forall j, ps.*1 !! j = Some k -> j = i) -> put k v ps = <[i := (k, v)]> ps.
Proof.
  revert i. induction ps as [|[k' v'] ps IH]; intros i Hi Hu; [done|]. cbn. destruct (decide (k = k')) as [->|Hne].
  - by rewrite <-(Hu 0%nat eq_refl).
  - destruct i as [|i]; [by injection Hi as ->|]. cbn. f_equal. apply IH; [done|].
    intros j Hj. specialize (Hu (S j) Hj). by injection Hu.
Qed.

Lemma put_new k v ps : (forall j, ps.*1 !! j <> Some k) -> put k v ps = ps ++ [(k, v)].
Proof.
  induction ps as [|[k' v'] ps IH]; intros Hn; [done|]. cbn. rewrite decide_False.
  - f_equal. apply IH. intros j. apply (Hn (S j)).
  - intros ->. by apply (Hn 0%nat).
Qed.

(** [insert] puts the value under the pending key, and keeps the slots. *)
Lemma insert_spec o v :
  slots_ok o -> exists o', insert o v = Some o' /\ slots_ok o' /\ pairs o' = put (key o) v (pairs o).
Proof.
  intros Hs. unfold insert. destruct (slots o !! key o) as [i|] eqn:E.
  - pose proof (proj1 (Hs _ _) E) as Hi. rewrite list_lookup_fmap in Hi.
    destruct (pairs o !! i) as [[k v']|] eqn:Ep; [|done]. injection Hi as ->. cbn.
    assert (forall j, (pairs o).*1 !! j = Some (key o) -> j = i) as Hu.
    { intros j Hj. apply Hs in Hj. congruence. }
    eexists. split; [done|]. split.
    + intros k j. cbn. rewrite list_fmap_insert. cbn. rewrite (Hs k j).
      rewrite list_insert_id; [done|]. rewrite list_lookup_fmap, Ep. done.
    + cbn. symmetry. apply put_at; [|done]. by rewrite list_lookup_fmap, Ep.
  - assert (forall j, (pairs o).*1 !! j <> Some (key o)) as Hn.
    { intros j Hj. apply Hs in Hj. congruence. }
    eexists. split; [done|]. split; [|cbn; by rewrite put_new].
    intros k j. cbn. rewrite fmap_app. cbn. destruct (decide (k = key o)) as [->|Hne].
    + rewrite lookup_insert_eq. split.
      * intros [= <-]. rewrite lookup_app_r, length_fmap, Nat.sub_diag by (rewrite length_fmap; lia). done.
      * intros Hj. apply lookup_app_Some in Hj as [Hj|[Hge Hj]]; [by apply Hn in Hj|].
        rewrite length_fmap in *. destruct (j - length (pairs o))%nat eqn:Ej; [f_equal; lia|done].
    + rewrite lookup_insert_ne by done. rewrite (Hs k j). split.
      * intros Hj. by apply lookup_app_l_Some.
      * intros Hj. apply lookup_app_Some in Hj as [Hj|[_ Hj]]; [done|].
        destruct (j - length (pairs o).*1)%nat; [|done]. injection Hj as Hj. by destruct Hne.
Qed.

Lemma push_item_spec n frame w wv v s :
  frame_ok frame -> frame_reads n frame w -> reads n wv v -> ws s ->
  exists frame', push_item frame v = Some frame' /\ frame_ok frame' /\ shape frame' = shape frame /\
    reads (S n) (w ++ wv ++ s ++ [closer (shape frame)]) (into_value frame') /\
    forall s2, ws s2 -> frame_ready n frame' (w ++ wv ++ s ++ 44 :: s2).
Proof.
  intros Hok Hf Hv Hs. destruct frame as [xs|o]; cbn in *.
  - eexists. split; [done|]. split; [done|]. split; [done|]. split.
    + pose proof (Hf _ _ (items_one n wv v s Hv Hs)) as H. by rewrite <-app_assoc in H.
    + intros s2 Hs2 it vs Hit. pose proof (Hf _ _ (items_more n wv v s s2 it vs Hv Hs Hs2 Hit)) as H.
      rewrite <-!app_assoc in *. cbn in *. by rewrite <-?app_assoc in *.
  - destruct (insert_spec o v Hok) as (o' & -> & Hok' & Hp). exists (FrameObject o'). split; [done|].
    split; [done|]. split; [done|]. cbn. split.
    + pose proof (Hf _ _ (entry_one n (key o) wv v s Hv Hs)) as H. cbn in H. rewrite Hp. by rewrite <-app_assoc in H.
    + intros s2 Hs2 mt kvs Hmt. pose proof (Hf _ _ (entry_more n (key o) wv v s s2 mt kvs Hv Hs Hs2 Hmt)) as H.
      cbn in H. rewrite Hp. rewrite <-!app_assoc in *. cbn in *. by rewrite <-?app_assoc in *.
Qed.

(** * Positions *)

(** Where a refusal points: the characters, the line and the column before it. *)
Definition error_of (k : JsonErrorKind) (before : str) : JsonError :=
  {| kind := k; pos := length before; line := count (is_char c_lf) before + 1;
     column := length (last_line before) + 1 |}.

Section Reading.
Variable text : str.
Hypothesis text_str : is_str text.
Notation bytes := (as_bytes text).

(** The offset [at_] stands between the characters [t1] and [t2] of the text. *)
Definition stands (at_ : nat) (t1 t2 : str) : Prop := text = t1 ++ t2 /\ at_ = length (as_bytes t1).

Lemma stands_start : stands 0 [] text.
Proof. done. Qed.

Lemma stands_str at_ t1 t2 : stands at_ t1 t2 -> is_str t1 /\ is_str t2.
Proof. intros [E _]. apply Forall_app. by rewrite <-E. Qed.

Lemma stands_drop at_ t1 t2 : stands at_ t1 t2 -> drop at_ bytes = as_bytes t2.
Proof. intros [-> ->]. by rewrite as_bytes_app, drop_app_length. Qed.

Lemma stands_take at_ t1 t2 : stands at_ t1 t2 -> take at_ bytes = as_bytes t1.
Proof. intros [-> ->]. by rewrite as_bytes_app, take_app_length. Qed.

Lemma stands_length at_ t1 t2 : stands at_ t1 t2 -> length bytes = (at_ + length (as_bytes t2))%nat.
Proof. intros [-> ->]. by rewrite as_bytes_app, length_app. Qed.

Lemma stands_lookup at_ t1 t2 i : stands at_ t1 t2 -> bytes !! (at_ + i)%nat = as_bytes t2 !! i.
Proof. intros H. by rewrite <-(stands_drop _ _ _ H), lookup_drop. Qed.

Lemma stands_app at_ t1 w t2 : stands at_ t1 (w ++ t2) -> stands (at_ + length (as_bytes w)) (t1 ++ w) t2.
Proof. intros [-> ->]. split; [by rewrite <-app_assoc|]. by rewrite as_bytes_app, length_app. Qed.

Lemma stands_ascii at_ t1 w t2 : Forall is_ascii w -> stands at_ t1 (w ++ t2) -> stands (at_ + length w) (t1 ++ w) t2.
Proof. intros Hw H. apply stands_app in H. by rewrite as_bytes_ascii in H. Qed.

Lemma stands_cons at_ t1 c t2 : is_ascii c -> stands at_ t1 (c :: t2) -> stands (at_ + 1) (t1 ++ [c]) t2.
Proof. intros Hc. apply (stands_ascii at_ t1 [c]). by apply Forall_singleton. Qed.

Lemma stands_ends at_ t1 : stands at_ t1 [] -> at_ = length bytes.
Proof. intros H. rewrite (stands_length _ _ _ H). cbn. lia. Qed.

Lemma stands_boundary at_ t1 t2 : stands at_ t1 t2 -> boundary bytes at_ = true.
Proof.
  intros H. unfold boundary. rewrite <-(Nat.add_0_r at_), (stands_lookup _ _ _ 0 H).
  destruct (stands_str _ _ _ H) as [_ Hs]. destruct t2 as [|c t2].
  - cbn. rewrite (stands_length _ _ _ H). cbn. by apply Nat.eqb_eq.
  - apply Forall_cons in Hs as [Hc _]. rewrite as_bytes_cons.
    destruct (encode_shape c Hc) as [[Ha ->]|(_ & b & rest & -> & _ & Hb & _)]; cbn; [|by rewrite Hb].
    unfold is_ascii, continuation in *. lia.
Qed.

(** The byte at a position, when it is ASCII, is the character there. *)
Lemma stands_peek at_ t1 t2 b :
  stands at_ t1 t2 -> bytes !! at_ = Some b -> b < 128 -> exists t2', t2 = b :: t2' /\ is_ascii b.
Proof.
  intros H Hb Hlt. rewrite <-(Nat.add_0_r at_), (stands_lookup _ _ _ 0 H) in Hb.
  destruct (stands_str _ _ _ H) as [_ Hs]. destruct t2 as [|c t2]; [done|].
  apply Forall_cons in Hs as [Hc _]. rewrite as_bytes_cons in Hb.
  destruct (encode_shape c Hc) as [[Ha E]|(_ & b' & rest & E & Hb' & _)]; rewrite E in Hb; injection Hb as <-; [by exists t2|lia].
Qed.

Lemma peek_head at_ t1 c t2 : is_ascii c -> stands at_ t1 (c :: t2) -> bytes !! at_ = Some c.
Proof.
  intros Hc H. rewrite <-(Nat.add_0_r at_), (stands_lookup _ _ _ 0 H), as_bytes_cons, encode_ascii by done. done.
Qed.

Lemma peek_end at_ t1 : stands at_ t1 [] -> bytes !! at_ = None.
Proof. intros H. by rewrite <-(Nat.add_0_r at_), (stands_lookup _ _ _ 0 H). Qed.

Lemma stands_inj at_ t1 t2 t1' t2' : stands at_ t1 t2 -> stands at_ t1' t2' -> t1 = t1' /\ t2 = t2'.
Proof.
  intros H H'. destruct (stands_str _ _ _ H) as [Hs _], (stands_str _ _ _ H') as [Hs' _].
  assert (as_bytes t1 = as_bytes t1') as E
    by (rewrite <-(stands_take _ _ _ H), <-(stands_take _ _ _ H'); done).
  assert (length t1 = length t1') as El by (rewrite <-!chars_count_text by done; by rewrite E).
  destruct H as [E1 _], H' as [E2 _]. rewrite E1 in E2. apply app_inj_1 in E2; tauto.
Qed.

(** An error at a position names its characters, line and column. *)
Lemma error_at_stands k at_ t1 t2 : stands at_ t1 t2 -> error_at bytes k at_ = Refused (error_of k t1).
Proof.
  intros H. unfold error_at. rewrite (stands_boundary _ _ _ H), (stands_take _ _ _ H).
  destruct (stands_str _ _ _ H) as [Hs _]. unfold error_of. rewrite chars_count_text by done.
  rewrite count_text by (done || by unfold is_ascii). rewrite from_last_newline_text by done. f_equal. f_equal.
  destruct (existsb (is_char c_lf) t1) eqn:E.
  - change (c_lf :: as_bytes (last_line t1)) with ([c_lf] ++ as_bytes (last_line t1)).
    rewrite chars_count_app, chars_count_text; [change (chars_count [c_lf]) with 1%nat; lia|].
    destruct (last_line_suffix t1) as [p Hp]. rewrite Hp in Hs. by apply Forall_app in Hs as [_ ?].
  - by rewrite last_line_free.
Qed.

Lemma slice_stands from to t1 w t2 :
  stands from t1 (w ++ t2) -> stands to (t1 ++ w) t2 -> slice bytes from to = Ok (as_bytes w).
Proof.
  intros H1 H2. pose proof (stands_app _ _ _ _ H1) as H3.
  assert (to = from + length (as_bytes w))%nat as -> by (destruct H2 as [_ ->], H3 as [_ <-]; done).
  unfold slice. rewrite (stands_boundary _ _ _ H1), (stands_boundary _ _ _ H2), (proj2 (Nat.leb_le _ _)) by lia.
  cbn [andb]. rewrite (stands_drop _ _ _ H1), as_bytes_app. f_equal. apply take_app_length'. lia.
Qed.

(** ** Outcomes *)

(** A result that is right, or a refusal at a position of the text; never a panic. *)
Definition outcome {A} (r : result A fail) (Q : A -> Prop) : Prop :=
  match r with
  | Ok a => Q a
  | Err (Refused e) => exists k t1 t2, text = t1 ++ t2 /\ e = error_of k t1
  | Err _ => False
  end.

Lemma outcome_bind {A B} (r : result A fail) (k : A -> result B fail) Q R :
  outcome r Q -> (forall a, r = Ok a -> Q a -> outcome (k a) R) -> outcome (result_bind r k) R.
Proof. destruct r as [a|[| |]]; cbn; auto. Qed.

Lemma outcome_mono {A} (r : result A fail) Q R : outcome r Q -> (forall a, Q a -> R a) -> outcome r R.
Proof. destruct r as [a|[| |]]; cbn; auto. Qed.

Lemma outcome_error {A} k at_ t1 t2 (Q : A -> Prop) : stands at_ t1 t2 -> outcome (Err (error_at bytes k at_)) Q.
Proof. intros H. rewrite (error_at_stands _ _ _ _ H). cbn. exists k, t1, t2. by destruct H. Qed.

(** * The reader is sound *)

Lemma take_while_bytes (f : Z -> bool) s :
  (forall b, f b = true -> is_ascii b) -> is_str s -> take_while f (as_bytes s) = take_while f s.
Proof.
  intros Hf. induction 1 as [|c s Hc _ IH]; [done|]. rewrite as_bytes_cons.
  destruct (encode_shape c Hc) as [[Ha ->]|(Hge & b & rest & -> & Hb & _)]; cbn.
  - destruct (f c); [by f_equal|done].
  - destruct (f b) eqn:Eb; [apply Hf in Eb; unfold is_ascii in *; lia|].
    destruct (f c) eqn:Ec; [apply Hf in Ec; unfold is_ascii in *; lia|done].
Qed.

Lemma is_ws_ascii b : is_ws b = true -> is_ascii b.
Proof. unfold is_ws, is_ascii. lia. Qed.

Lemma is_ascii_digit_ascii b : is_ascii_digit b = true -> is_ascii b.
Proof. unfold is_ascii_digit, is_ascii. lia. Qed.

Lemma ws_ascii s : ws s -> Forall is_ascii s.
Proof. intros H. eapply Forall_impl; [exact H|]. apply is_ws_ascii. Qed.

Lemma digit_str_ascii s : digit_str s -> Forall is_ascii s.
Proof. intros H. eapply Forall_impl; [exact H|]. apply is_ascii_digit_ascii. Qed.

Lemma skip_from_length rest at_ : skip_from rest at_ = (at_ + length (take_while is_ws rest))%nat.
Proof.
  revert at_. induction rest as [|b rest IH]; intros at_; cbn; [lia|]. destruct (is_ws b); cbn; [rewrite IH|]; lia.
Qed.

Lemma skip_ws_spec at_ t1 t2 :
  stands at_ t1 t2 ->
  exists s t2', t2 = s ++ t2' /\ ws s /\ stops is_ws t2' /\ stands (skip_whitespace bytes at_) (t1 ++ s) t2'.
Proof.
  intros H. destruct (take_while_split is_ws t2) as (t2' & E & Hs & Hr).
  exists (take_while is_ws t2), t2'. split; [done|]. split; [done|]. split; [done|].
  unfold skip_whitespace. rewrite skip_from_length, (stands_drop _ _ _ H), take_while_bytes.
  - apply stands_ascii; [by apply ws_ascii|]. by rewrite <-E.
  - apply is_ws_ascii.
  - by destruct (stands_str _ _ _ H).
Qed.

Lemma digits_end_spec at_ t1 t2 :
  stands at_ t1 t2 ->
  exists ds t2' to, t2 = ds ++ t2' /\ digit_str ds /\ stops is_ascii_digit t2' /\
    digits_end bytes at_ = Ok to /\ to = (at_ + length ds)%nat /\ stands to (t1 ++ ds) t2'.
Proof.
  intros H. destruct (take_while_split is_ascii_digit t2) as (t2' & E & Hs & Hr).
  eexists (take_while is_ascii_digit t2), t2', _. split; [done|]. split; [done|]. split; [done|].
  split; [|split; [reflexivity|apply stands_ascii; [by apply digit_str_ascii|by rewrite <-E]]].
  unfold digits_end. rewrite (stands_length _ _ _ H), (proj2 (Nat.leb_le _ _)) by lia.
  rewrite (stands_drop _ _ _ H), take_while_bytes; [done| |].
  - apply is_ascii_digit_ascii.
  - by destruct (stands_str _ _ _ H).
Qed.

(** The position after one ASCII byte. *)
Lemma stands_step at_ t1 t2 b :
  stands at_ t1 t2 -> bytes !! at_ = Some b -> b < 128 ->
  exists t2', t2 = b :: t2' /\ is_ascii b /\ stands (at_ + 1) (t1 ++ [b]) t2'.
Proof.
  intros H Hb Hlt. destruct (stands_peek _ _ _ _ H Hb Hlt) as (t2' & -> & Ha).
  exists t2'. split; [done|]. split; [done|]. by apply stands_cons.
Qed.

Lemma digit_at_spec at_ t1 t2 :
  stands at_ t1 t2 -> digit_at bytes at_ = match t2 with c :: _ => is_ascii_digit c | [] => false end.
Proof.
  intros H. unfold digit_at. destruct t2 as [|c t2]; [by rewrite (peek_end _ _ H)|].
  destruct (stands_str _ _ _ H) as [_ Hs]. apply Forall_cons in Hs as [Hc _].
  rewrite <-(Nat.add_0_r at_), (stands_lookup _ _ _ 0 H), as_bytes_cons.
  destruct (encode_shape c Hc) as [[_ ->]|(Hge & b & rest & -> & Hb & _)]; [done|].
  cbn. unfold is_ascii_digit. lia.
Qed.

(** ** Numbers *)

(** [exponent_end] reads an exponent part, the longest one, or nothing. *)
Lemma exponent_end_spec at_ t1 t2 :
  stands at_ t1 t2 ->
  outcome (exponent_end bytes at_) (fun o =>
    match o with
    | Some to => exists ex t2', t2 = ex ++ t2' /\ exp_part ex /\ ex <> [] /\ stands to (t1 ++ ex) t2'
    | None => True
    end).
Proof.
  intros H. unfold exponent_end. pose proof (stands_length _ _ _ H) as Hlen.
  destruct (Nat.leb_spec (length bytes) (at_ + 1)); [done|].
  destruct (bytes !! at_) as [b|] eqn:Eb; [|apply lookup_ge_None in Eb; lia]. cbn [or_panic result_bind].
  destruct ((b =? 101) || (b =? 69)) eqn:Ee; cbn [negb]; [|done].
  destruct (stands_step _ _ _ _ H Eb ltac:(lia)) as (t3 & -> & Ha & Hst1).
  assert (exists sign t4, t3 = sign ++ t4 /\ (sign = [] \/ sign = [43] \/ sign = [45]) /\
    (if (at_ + 1 + 1 <? length bytes)%nat then
       let? s := or_panic (bytes !! (at_ + 1)%nat) in Ok (if (s =? 43) || (s =? 45) then (at_ + 1 + 1)%nat else (at_ + 1)%nat)
     else Ok (at_ + 1)%nat) = Ok (at_ + 1 + length sign)%nat /\ stands (at_ + 1 + length sign) ((t1 ++ [b]) ++ sign) t4)
    as (sign & t4 & -> & Hsign & -> & Hst2).
  { assert (exists sign t4, t3 = sign ++ t4 /\ (sign = [] \/ sign = [43] \/ sign = [45]) /\
      Ok (A:=nat) (E:=fail) (at_ + 1)%nat = Ok (at_ + 1 + length sign)%nat /\
      stands (at_ + 1 + length sign) ((t1 ++ [b]) ++ sign) t4) as Hnone.
    { exists [], t3. rewrite app_nil_r. cbn [length]. rewrite Nat.add_0_r. auto. }
    destruct (Nat.ltb_spec (at_ + 1 + 1) (length bytes)); [|exact Hnone].
    destruct (bytes !! (at_ + 1)%nat) as [s|] eqn:Es; [|apply lookup_ge_None in Es; lia]. cbn [or_panic result_bind].
    destruct ((s =? 43) || (s =? 45)) eqn:E; [|exact Hnone].
    destruct (stands_step _ _ _ _ Hst1 Es ltac:(lia)) as (t4 & -> & Hs & Hst2). exists [s], t4.
    split; [done|]. split; [|done]. apply orb_true_iff in E as [->%Z.eqb_eq| ->%Z.eqb_eq]; auto. }
  cbn [result_bind]. destruct (digits_end_spec _ _ _ Hst2) as (ds & t5 & to & -> & Hds & _ & -> & -> & Hst3).
  cbn [result_bind]. destruct (bytes !! (at_ + 1 + length sign + length ds - 1)%nat) as [final|] eqn:Ef.
  2:{ apply lookup_ge_None in Ef. pose proof (stands_length _ _ _ Hst3). lia. }
  cbn [or_panic result_bind]. destruct (is_ascii_digit final) eqn:Edig; [|done]. cbn.
  destruct ds as [|d ds].
  { exfalso. cbn [length] in Ef. rewrite Nat.add_0_r in Ef.
    destruct Hsign as [->|[->| ->]]; cbn [length] in Ef.
    - rewrite Nat.add_0_r, Nat.add_sub in Ef. rewrite Ef in Eb. injection Eb as ->. unfold is_ascii_digit in Edig. lia.
    - rewrite Nat.add_sub in Ef. rewrite (peek_head _ _ 43 _ ltac:(unfold is_ascii; lia) Hst1) in Ef. by injection Ef as <-.
    - rewrite Nat.add_sub in Ef. rewrite (peek_head _ _ 45 _ ltac:(unfold is_ascii; lia) Hst1) in Ef. by injection Ef as <-. }
  exists (b :: sign ++ d :: ds), t5. split; [cbn; by rewrite <-app_assoc|]. split; [|split; [done|]].
  - constructor; [lia|done|done].
  - assert (t1 ++ b :: sign ++ d :: ds = ((t1 ++ [b]) ++ sign) ++ d :: ds) as -> by (by rewrite <-!app_assoc).
    done.
Qed.

Lemma int_part_ascii int : int_part int -> Forall is_ascii int.
Proof.
  intros [|d ds Hd Hds]; [by repeat constructor|]. constructor; [unfold is_ascii; lia|by apply digit_str_ascii].
Qed.

Lemma frac_part_ascii frac : frac_part frac -> Forall is_ascii frac.
Proof. intros [|d ds Hds]; [constructor|]. constructor; [by unfold is_ascii|]. by apply digit_str_ascii. Qed.

Lemma exp_part_ascii ex : exp_part ex -> Forall is_ascii ex.
Proof.
  intros [|e sign d ds He Hs Hds]; [constructor|]. constructor; [unfold is_ascii; lia|].
  apply Forall_app. split; [|by apply digit_str_ascii].
  destruct Hs as [->|[->| ->]]; repeat constructor; done.
Qed.

(** The optional minus of a number. *)
Lemma sign_spec at_ t1 t2 :
  stands at_ t1 t2 ->
  exists sign t3, t2 = sign ++ t3 /\ (sign = [] \/ sign = [45]) /\
    (at_ + if bool_decide (peek bytes at_ = Some 45%Z) then 1 else 0)%nat = (at_ + length sign)%nat /\
    stands (at_ + length sign) (t1 ++ sign) t3.
Proof.
  intros H. case_bool_decide as E.
  - destruct (stands_step _ _ _ _ H E ltac:(lia)) as (t3 & -> & _ & Hst). exists [45], t3. auto.
  - exists [], t2. rewrite app_nil_r. cbn [length]. rewrite Nat.add_0_r. auto.
Qed.

Lemma int_spec at_ t1 t2 begin b1 b2 :
  stands at_ t1 t2 -> stands begin b1 b2 ->
  outcome (match peek bytes at_ with
    | Some b =>
        if (49 <=? b) && (b <=? 57) then digits_end bytes (at_ + 1)
        else if b =? 48 then Ok (at_ + 1)%nat else Err (error_at bytes ExpectingValue begin)
    | None => Err (error_at bytes ExpectingValue begin)
    end) (fun to => exists int t3, t2 = int ++ t3 /\ int_part int /\ stands to (t1 ++ int) t3).
Proof.
  intros H Hb. destruct (peek bytes at_) as [b|] eqn:E; [|by eapply outcome_error].
  destruct ((49 <=? b) && (b <=? 57)) eqn:Hd.
  - destruct (stands_step _ _ _ _ H E ltac:(lia)) as (t3 & -> & _ & Hst).
    destruct (digits_end_spec _ _ _ Hst) as (ds & t4 & to & -> & Hds & _ & -> & _ & Hst'). cbn.
    exists (b :: ds), t4. split; [done|]. split; [constructor; [lia|done]|].
    by rewrite <-app_assoc in Hst'.
  - destruct (Z.eqb_spec b 48) as [->|]; [|by eapply outcome_error].
    destruct (stands_step _ _ _ _ H E ltac:(lia)) as (t3 & -> & _ & Hst). exists [48], t3.
    split; [done|]. split; [constructor|done].
Qed.

Lemma frac_spec at_ t1 t2 :
  stands at_ t1 t2 ->
  outcome (if bool_decide (peek bytes at_ = Some c_dot) && digit_at bytes (at_ + 1)
    then let? to := digits_end bytes (at_ + 2) in Ok (true, to) else Ok (false, at_))
    (fun r => exists frac t3, t2 = frac ++ t3 /\ frac_part frac /\ (r.1 = true <-> frac <> []) /\ stands r.2 (t1 ++ frac) t3).
Proof.
  intros H. destruct (_ && _) eqn:E.
  - bool_hyps. unfold c_dot in *.
    match goal with E : peek _ _ = _ |- _ => destruct (stands_step _ _ _ _ H E ltac:(lia)) as (t3 & -> & _ & Hst) end.
    rewrite (digit_at_spec _ _ _ Hst) in *. destruct t3 as [|d t3]; [done|].
    destruct (digits_end_spec (at_ + 2) ((t1 ++ [46]) ++ [d]) t3) as (ds & t4 & to & -> & Hds & _ & -> & _ & Hst').
    { replace (at_ + 2)%nat with (at_ + 1 + 1)%nat by lia. apply stands_cons; [|done]. by apply is_ascii_digit_ascii. }
    cbn. exists (46 :: d :: ds), t4. split; [done|]. split; [constructor; by constructor|]. split; [done|].
    by rewrite <-!app_assoc in Hst'.
  - exists [], t2. cbn. rewrite app_nil_r. split; [done|]. split; [constructor|]. done.
Qed.

Lemma trim_sign sign int : (sign = [] \/ sign = [45]) -> int_part int -> trim_start (is_char 45) (sign ++ int) = int.
Proof.
  intros Hs Hi. assert (trim_start (is_char 45) int = int) as E.
  { destruct Hi as [|d ds Hd _]; [done|]. cbn. assert (is_char 45 d = false) as -> by (apply is_char_false; lia). done. }
  by destruct Hs as [->| ->].
Qed.

Lemma number_sound at_ t1 t2 :
  stands at_ t1 t2 ->
  outcome (number bytes at_) (fun r => exists w t3, t2 = w ++ t3 /\ number_reads w r.1 /\ stands r.2 (t1 ++ w) t3).
Proof.
  intros H. unfold number. cbv zeta. destruct (sign_spec _ _ _ H) as (sign & t3 & -> & Hsign & -> & Hst).
  eapply outcome_bind; [by eapply int_spec|]. intros to _ (int & t4 & -> & Hint & Hst1). cbv beta.
  eapply outcome_bind; [by eapply frac_spec|]. intros [is_float to1] _ (frac & t5 & -> & Hfrac & Hfl & Hst2).
  cbn [fst snd] in *. eapply outcome_bind; [by eapply exponent_end_spec|]. intros ex _ Hex. cbv beta.
  assert (exists expo t6 to2 fl, t5 = expo ++ t6 /\ exp_part expo /\ (fl = true <-> frac <> [] \/ expo <> []) /\
    stands to2 (((t1 ++ sign) ++ int) ++ frac ++ expo) t6 /\
    match ex with Some e => (true, e) | None => (is_float, to1) end = (fl, to2))
    as (expo & t6 & to2 & fl & -> & Hexpo & Hfl' & Hst3 & ->).
  { destruct ex as [e|].
    - destruct Hex as (expo & t6 & -> & Hexpo & Hne & Hst3). exists expo, t6, e, true. rewrite <-app_assoc in Hst3. tauto.
    - exists [], t5, to1, is_float. rewrite app_nil_r. split; [done|]. split; [constructor|]. split; [tauto|done]. }
  assert (slice bytes at_ to2 = Ok (sign ++ int ++ frac ++ expo)) as Hslice.
  { rewrite (slice_stands at_ to2 t1 (sign ++ int ++ frac ++ expo) t6).
    - f_equal. apply as_bytes_ascii. rewrite !Forall_app. split; [destruct Hsign as [->| ->]; repeat constructor; done|].
      split; [by apply int_part_ascii|]. split; [by apply frac_part_ascii|by apply exp_part_ascii].
    - rewrite <-!app_assoc. done.
    - rewrite <-!app_assoc in Hst3. done. }
  rewrite Hslice. cbn [result_bind]. rewrite <-!app_assoc in Hst3. destruct fl; cbn [negb].
  - destruct (parse_f64 _) as [x|] eqn:Ex; [|by eapply outcome_error]. cbn.
    exists (sign ++ int ++ frac ++ expo), t6. rewrite <-!app_assoc. split; [done|]. split; [|done].
    apply number_float; tauto.
  - assert (frac = [] /\ expo = []) as [-> ->].
    { destruct frac, expo; [done|exfalso..]; assert (false = true) by (apply Hfl'; auto); done. }
    rewrite !app_nil_r in *. unfold integer. rewrite trim_sign by done.
    destruct (Z.ltb_spec MAX_INT_DIGITS (Z.of_nat (length int))); [by eapply outcome_error|]. cbn.
    exists (sign ++ int), t6. rewrite <-!app_assoc. split; [done|]. split; [|done]. by apply number_int.
Qed.

(** ** Scalars *)

Lemma constant_at_spec table rest word v :
  constant_at table rest = Some (word, v) -> (word, v) ∈ table /\ exists r, rest = word ++ r.
Proof.
  induction table as [|[w x] table IH]; [done|]. cbn. destruct (starts_with w rest) eqn:E.
  - intros [= <- <-]. split; [left|]. by apply starts_with_spec in E as [r ->]; exists r.
  - intros H. destruct (IH H). split; [by right|done].
Qed.

(** A word of ASCII is found in the bytes where it is in the text. *)
Lemma ascii_prefix_text w t2 r :
  Forall is_ascii w -> is_str t2 -> as_bytes t2 = w ++ r -> exists t3, t2 = w ++ t3.
Proof.
  intros Hw. revert t2. induction Hw as [|c w Hc _ IH]; intros t2 Hs E; [by exists t2|].
  destruct t2 as [|d t2]; [done|]. apply Forall_cons in Hs as [Hd Hs]. rewrite as_bytes_cons in E.
  destruct (encode_shape d Hd) as [[_ Ed]|(_ & b & rest & Ed & Hb & _)]; rewrite Ed in E; injection E as E1 E2.
  - subst d. destruct (IH t2 Hs E2) as [t3 ->]. by exists t3.
  - unfold is_ascii in Hc. lia.
Qed.

Lemma constants_ascii word v : (word, v) ∈ CONSTANTS -> Forall is_ascii word /\ word <> [].
Proof.
  unfold CONSTANTS. intros H. repeat (apply elem_of_cons in H as [[= -> ->]|H];
    [split; [repeat constructor; done|done]|]). by apply elem_of_nil in H.
Qed.

Lemma number_reads_nonempty w v : number_reads w v -> exists c rest, w = c :: rest /\ (c = 45 \/ is_ascii_digit c = true).
Proof.
  assert (forall sign int rest, (sign = [] \/ sign = [45]) -> int_part int ->
    exists c r, sign ++ int ++ rest = c :: r /\ (c = 45 \/ is_ascii_digit c = true)) as Hgen.
  { intros sign int rest [->| ->] [|d ds Hd Hds]; eexists _, _; (split; [done|]); unfold is_ascii_digit; lia. }
  intros [sign int Hs Hi _|sign int frac ex x Hs Hi _ _ _ _]; [|by apply Hgen].
  rewrite <-(app_nil_r int). by apply Hgen.
Qed.

Lemma scalar_sound at_ t1 t2 :
  stands at_ t1 t2 ->
  outcome (scalar bytes at_)
    (fun r => exists w t3, t2 = w ++ t3 /\ w <> [] /\ scalar_reads w r.1 /\ stands r.2 (t1 ++ w) t3).
Proof.
  intros H. assert (outcome (number bytes at_) (fun r => exists w t3,
    t2 = w ++ t3 /\ w <> [] /\ scalar_reads w r.1 /\ stands r.2 (t1 ++ w) t3)) as Hnum.
  { eapply outcome_mono; [by apply number_sound|]. intros [v to] (w & t3 & -> & Hr & Hst). exists w, t3.
    split; [done|]. split; [|split; [by apply scalar_number|done]].
    destruct (number_reads_nonempty _ _ Hr) as (c & rest & -> & _). done. }
  unfold scalar. assert (stands (length bytes) (t1 ++ t2) []) as Hend.
  { rewrite (stands_length _ _ _ H). apply stands_app. by rewrite app_nil_r. }
  rewrite (slice_stands at_ (length bytes) t1 t2 []); [|by rewrite app_nil_r|done]. cbn [result_bind].
  destruct (starts_number (as_bytes t2)); [done|].
  destruct (constant_at CONSTANTS (as_bytes t2)) as [[word v]|] eqn:E; [|done]. cbn.
  apply constant_at_spec in E as [Hin [r Hr]]. destruct (constants_ascii _ _ Hin) as [Ha Hne].
  destruct (stands_str _ _ _ H) as [_ Hs]. destruct (ascii_prefix_text _ _ _ Ha Hs Hr) as [t3 ->].
  exists word, t3. split; [done|]. split; [done|]. split; [by apply scalar_constant|]. by apply stands_ascii.
Qed.

(** ** Strings *)

Lemma chunk_from_high hs rest at_ begin :
  Forall (fun b => 128 <= b) hs ->
  chunk_from bytes (hs ++ rest) at_ begin = chunk_from bytes rest (at_ + length hs) begin.
Proof.
  intros H. revert at_. induction H as [|b hs Hb _ IH]; intros at_; cbn; [f_equal; lia|].
  rewrite (proj2 (Z.eqb_neq b 34)), (proj2 (Z.eqb_neq b 92)), (proj2 (Z.leb_gt b 31)), andb_false_r by lia. cbn [orb].
  rewrite IH. f_equal. lia.
Qed.

Lemma encode_high c : is_scalar c = true -> 128 <= c -> Forall (fun b => 128 <= b) (encode_utf8 c).
Proof.
  intros Hs Hc. destruct (encode_shape c Hs) as [[Ha _]|(_ & b & rest & -> & Hb & _ & Hrest)]; [unfold is_ascii in Ha; lia|].
  constructor; [done|]. eapply Forall_impl; [exact Hrest|]. intros x. unfold continuation. lia.
Qed.

(** One plain character does not end a chunk. *)
Lemma chunk_from_plain c t2 at_ begin :
  is_scalar c = true -> plain c = true ->
  chunk_from bytes (as_bytes (c :: t2)) at_ begin =
  chunk_from bytes (as_bytes t2) (at_ + length (encode_utf8 c)) begin.
Proof.
  intros Hs Hp. rewrite as_bytes_cons. destruct (Z.ltb_spec c 128).
  - rewrite encode_ascii by (unfold is_ascii; apply scalar_range in Hs; lia). cbn. unfold plain in Hp.
    apply negb_true_iff, orb_false_iff in Hp as [-> ->]. f_equal. lia.
  - apply chunk_from_high. by apply encode_high.
Qed.

Lemma chunk_spec at_ t1 t2 begin b1 b2 :
  stands at_ t1 t2 -> stands begin b1 b2 ->
  outcome (chunk_end bytes at_ begin) (fun stop => exists chunk c t3,
    t2 = chunk ++ c :: t3 /\ Forall (fun c => plain c = true) chunk /\ (c = 34 \/ c = 92) /\
    stands stop (t1 ++ chunk) (c :: t3)).
Proof.
  intros H Hb. unfold chunk_end. rewrite (stands_drop _ _ _ H). revert at_ t1 H.
  induction t2 as [|c t2 IH]; intros at_ t1 H; [by eapply outcome_error|].
  destruct (stands_str _ _ _ H) as [_ Hs]. apply Forall_cons in Hs as [Hc _].
  destruct (plain c) eqn:Hp.
  - pose proof (stands_app _ _ [c] _ H) as Hst. rewrite as_bytes_cons, app_nil_r in Hst.
    rewrite chunk_from_plain by done. eapply outcome_mono; [by eapply IH|].
    intros stop (chunk & d & t3 & -> & Hch & Hd & Hst'). exists (c :: chunk), d, t3. split; [done|].
    split; [by constructor|]. split; [done|]. by rewrite <-app_assoc in Hst'.
  - unfold plain in Hp. apply negb_false_iff in Hp. assert (is_ascii c) as Ha by (unfold is_ascii; lia).
    rewrite as_bytes_cons, encode_ascii by done. cbn. destruct ((c =? 34) || (c =? 92)) eqn:E.
    + cbn. exists [], c, t2. rewrite app_nil_r. split; [done|]. split; [done|]. split; [lia|done].
    + cbn in Hp. rewrite Hp. by eapply outcome_error.
Qed.

Lemma to_digit16_bound c d : to_digit16 c = Some d -> is_ascii c /\ 0 <= d < 16.
Proof.
  unfold to_digit16, is_ascii. intros H. repeat case_match; simplify_eq; lia.
Qed.

Lemma hex_fold ds a :
  0 <= a ->
  foldl hex_step (Some a) ds = (fun vs => fold_left (fun v d => v * 16 + d) vs a) <$> mapM to_digit16 ds.
Proof.
  revert a. induction ds as [|c ds IH]; intros a Ha; [done|]. cbn [foldl]. unfold hex_step at 2. cbn [mbind option_bind].
  simpl mapM. destruct (to_digit16 c) as [d|] eqn:E; cbn [mbind option_bind].
  - destruct (to_digit16_bound _ _ E) as [_ Hd]. rewrite lor_shiftl_add by (cbn; lia). change (2 ^ 4) with 16.
    rewrite IH by lia. by destruct (mapM to_digit16 ds).
  - clear. induction ds as [|x ds IH]; [done|]. exact IH.
Qed.

Lemma mapM_hex_ascii ds vs : mapM to_digit16 ds = Some vs -> Forall is_ascii ds.
Proof.
  revert vs. induction ds as [|c ds IH]; intros vs; [constructor|]. simpl.
  destruct (to_digit16 c) as [d|] eqn:E; [|done]. destruct (mapM to_digit16 ds) as [vs'|]; [|done].
  intros _. constructor; [by eapply to_digit16_bound|by eapply IH].
Qed.

(** [hex4] is the unit spelt by the next four characters. *)
Lemma hex4_sound at_ t1 t2 u :
  stands at_ t1 t2 -> hex4 bytes at_ = Some u ->
  exists ds t3, t2 = ds ++ t3 /\ hex_unit ds u /\ stands (at_ + 4) (t1 ++ ds) t3.
Proof.
  intros H. unfold hex4. destruct (Nat.leb_spec (at_ + 4) (length bytes)) as [Hle|]; [|done].
  rewrite (stands_drop _ _ _ H), hex_fold by lia. intros (vs & Hm & ->)%fmap_Some.
  set (ds := take 4 (as_bytes t2)) in *. rewrite (stands_length _ _ _ H) in Hle.
  assert (length ds = 4%nat) as Hlen by (subst ds; rewrite length_take; lia).
  pose proof (mapM_hex_ascii _ _ Hm) as Ha. destruct (stands_str _ _ _ H) as [_ Hs].
  destruct (ascii_prefix_text ds t2 (drop 4 (as_bytes t2)) Ha Hs) as [t3 Ht3]; [symmetry; apply take_drop|].
  clearbody ds. subst t2.
  exists ds, t3. split; [done|]. split; [split; [done|by exists vs]|]. rewrite <-Hlen. by apply stands_ascii.
Qed.

Lemma hex4_complete at_ t1 ds t3 u :
  stands at_ t1 (ds ++ t3) -> hex_unit ds u -> hex4 bytes at_ = Some u.
Proof.
  intros H (Hlen & vs & Hm & ->). pose proof (mapM_hex_ascii _ _ Hm) as Ha. unfold hex4.
  rewrite (stands_drop _ _ _ H), (stands_length _ _ _ H), as_bytes_app, (as_bytes_ascii ds Ha), length_app.
  rewrite (proj2 (Nat.leb_le _ _)), take_app_length', hex_fold, Hm by lia. done.
Qed.

Lemma hex_unit_range ds u : hex_unit ds u -> 0 <= u < 65536 /\ Forall is_ascii ds.
Proof.
  intros (Hlen & vs & Hm & ->). split; [|by eapply mapM_hex_ascii].
  assert (length vs = length ds) as Hl by (apply mapM_Some, Forall2_length in Hm; done).
  assert (Forall (fun d => 0 <= d < 16) vs) as Hd.
  { apply mapM_Some in Hm. clear -Hm. induction Hm as [|c d ds vs Hc _ IH]; constructor; [by eapply to_digit16_bound|done]. }
  pose proof (value_of_bound 16 vs ltac:(lia) Hd) as Hb. rewrite Hl, Hlen in Hb. done.
Qed.

Lemma joined_pair u1 u2 :
  is_high u1 = true -> is_low u2 = true ->
  0x10000 + Z.shiftl (u1 - 0xd800) 10 + (u2 - 0xdc00) = 0x10000 + (u1 - 0xd800) * 1024 + (u2 - 0xdc00) /\
  is_code_point (0x10000 + (u1 - 0xd800) * 1024 + (u2 - 0xdc00)).
Proof.
  unfold is_high, is_low. intros. rewrite Z.shiftl_mul_pow2 by done. change (2 ^ 10) with 1024.
  split; [done|]. unfold is_code_point, LAST_CODE_POINT. lia.
Qed.

(** An escape, after its backslash, is one step of a string body, whatever the rest is. *)
Definition escape_reads (esc : str) (code : Z) (after : str) : Prop :=
  is_code_point code /\ forall body codes tail,
    after = body ++ 34 :: tail -> body_reads body codes -> body_reads (92 :: esc ++ body) (code :: codes).

Lemma escape_unit ds u after :
  hex_unit ds u ->
  (is_high u = true -> forall body tail, after = body ++ 34 :: tail -> ~ starts_low_escape body) ->
  escape_reads (117 :: ds) u after.
Proof.
  intros Hu Hlow. split; [destruct (hex_unit_range _ _ Hu); unfold is_code_point, LAST_CODE_POINT; lia|].
  intros body codes tail E Hb. apply body_unit; [done| |done]. intros Hh. by eapply Hlow.
Qed.

(** When the bytes of an escape follow, the next body starts with them. *)
Lemma low_escape_bytes at_ t1 t2 body tail :
  stands at_ t1 t2 -> t2 = body ++ 34 :: tail -> starts_low_escape body ->
  (at_ + 6 <? length bytes)%nat && starts_with (lit "\u") (drop at_ bytes) = true /\
  exists u, hex4 bytes (at_ + 2) = Some u /\ is_low u = true.
Proof.
  intros H E (ds & u & rest & -> & Hu & Hl). subst t2. destruct (hex_unit_range _ _ Hu) as [_ Ha].
  assert (stands (at_ + 2) (t1 ++ [92; 117]) (ds ++ rest ++ 34 :: tail)) as H2.
  { apply (stands_ascii at_ t1 [92; 117]); [by repeat constructor|]. cbn. cbn in H. by rewrite <-app_assoc in H. }
  split; [|exists u; split; [by eapply hex4_complete|done]].
  pose proof (stands_length _ _ _ H2) as Hlen. rewrite as_bytes_app, (as_bytes_ascii ds Ha), as_bytes_app, !length_app in Hlen.
  destruct Hu as [Hl4 _]. rewrite Hl4 in Hlen. change (as_bytes (34 :: tail)) with (34 :: as_bytes tail) in Hlen. cbn in Hlen.
  rewrite (proj2 (Nat.ltb_lt _ _)) by lia. cbn [andb]. rewrite (stands_drop _ _ _ H). apply (starts_with_app [92; 117]).
Qed.

Lemma unicode_escape_sound at_ t1 t2 cps codes :
  stands at_ t1 (117 :: t2) -> built cps codes ->
  outcome (unicode_escape bytes at_ cps) (fun r => exists esc code t3,
    117 :: t2 = esc ++ t3 /\ escape_reads esc code t3 /\ built r.1 (codes ++ [code]) /\ stands r.2 (t1 ++ esc) t3).
Proof.
  intros H Hb. unfold unicode_escape. cbv zeta.
  destruct (Nat.leb_spec (length bytes) (at_ + 5)); [by eapply outcome_error|].
  destruct (hex4 bytes (at_ + 1)) as [u|] eqn:Eu; [|by eapply outcome_error].
  pose proof (stands_cons _ _ 117 _ ltac:(by unfold is_ascii) H) as H1.
  destruct (hex4_sound _ _ _ _ H1 Eu) as (ds & t3 & -> & Hu & H2). rewrite <-app_assoc in H2. cbn [app] in H2.
  replace (at_ + 1 + 4)%nat with (at_ + 5)%nat in H2 by lia. fold (is_high u).
  assert (forall code to esc t4, is_code_point code -> 117 :: ds ++ t3 = esc ++ t4 -> escape_reads esc code t4 ->
    stands to (t1 ++ esc) t4 ->
    outcome (let? text0 := or_panic (push cps code) in Ok (text0, to)) (fun r => exists esc code t3',
      117 :: ds ++ t3 = esc ++ t3' /\ escape_reads esc code t3' /\ built r.1 (codes ++ [code]) /\
      stands r.2 (t1 ++ esc) t3')) as Hpush.
  { intros code to esc t4 Hc E Hesc Hst. rewrite push_spec by done. cbn. exists esc, code, t4.
    split; [done|]. split; [done|]. split; [|done]. eapply built_push; [done..|]. by apply push_spec. }
  destruct (is_high u && _) eqn:Ehl.
  - apply andb_true_iff in Ehl as [Hh Hl]. apply andb_true_iff in Hl as [Hlen Hsw].
    rewrite (stands_drop _ _ _ H2) in Hsw. apply starts_with_spec in Hsw as [r Hr].
    destruct (stands_str _ _ _ H2) as [_ Hs3].
    destruct (ascii_prefix_text (lit "\u") t3 r ltac:(by repeat constructor) Hs3 Hr) as [t4 ->].
    change (lit "\u") with [92; 117] in *. cbn [app] in *.
    assert (stands (at_ + 5 + 2) (t1 ++ 117 :: ds ++ [92; 117]) t4) as H3.
    { pose proof (stands_ascii _ _ [92; 117] t4 ltac:(by repeat constructor) H2) as H3. cbn [length] in H3.
      by rewrite <-app_assoc in H3. }
    destruct (hex4 bytes (at_ + 5 + 2)) as [low|] eqn:Elow.
    2:{ cbn [result_bind]. eapply outcome_error. replace (at_ + 5 + 1)%nat with (at_ + 5 + 1)%nat by lia.
        eapply stands_cons; [|exact H2]. by unfold is_ascii. }
    destruct (hex4_sound _ _ _ _ H3 Elow) as (ds2 & t5 & -> & Hu2 & H4).
    fold (is_low low). destruct (is_low low) eqn:El; cbn [result_bind].
    + destruct (joined_pair u low Hh El) as [-> Hc]. apply (Hpush _ _ (117 :: ds ++ 92 :: 117 :: ds2) t5); [done| | |].
      * cbn. by rewrite <-app_assoc.
      * split; [done|]. intros body codes' tail _ Hbody. cbn. rewrite <-app_assoc. cbn. by apply body_pair.
      * replace (at_ + 5 + 6)%nat with (at_ + 5 + 2 + 4)%nat by lia.
        rewrite <-app_assoc in H4. cbn in H4. rewrite <-app_assoc in H4. done.
    + apply (Hpush _ _ (117 :: ds) (92 :: 117 :: ds2 ++ t5)); [|done| |done].
      { destruct (hex_unit_range _ _ Hu). unfold is_code_point, LAST_CODE_POINT. lia. }
      apply escape_unit; [done|]. intros _ body tail Et Hlow.
      destruct (low_escape_bytes _ _ _ _ _ H2 Et Hlow) as (_ & u' & E' & Hl'). congruence.
  - cbn [result_bind]. apply (Hpush _ _ (117 :: ds) t3); [|done| |done].
    { destruct (hex_unit_range _ _ Hu). unfold is_code_point, LAST_CODE_POINT. lia. }
    apply escape_unit; [done|]. intros Hh body tail Et Hlow.
    destruct (low_escape_bytes _ _ _ _ _ H2 Et Hlow) as (E' & _). rewrite Hh, E' in Ehl. done.
Qed.

Lemma simple_escape_facts name c :
  (name, c) ∈ SIMPLE_ESCAPES -> is_ascii name /\ name <> 117 /\ is_code_point c /\
  List.find (fun entry => entry.1 =? name) SIMPLE_ESCAPES = Some (name, c).
Proof.
  unfold SIMPLE_ESCAPES. intros H. repeat (apply elem_of_cons in H as [[= -> ->]|H]; [done|]). by apply elem_of_nil in H.
Qed.

Lemma escape_sound at_ t1 t2 begin b1 b2 cps codes :
  stands (at_ - 1) (t1) (92 :: t2) -> stands at_ (t1 ++ [92]) t2 -> stands begin b1 b2 -> built cps codes ->
  outcome (escape bytes at_ begin cps) (fun r => exists esc code t3,
    t2 = esc ++ t3 /\ escape_reads esc code t3 /\ built r.1 (codes ++ [code]) /\ stands r.2 ((t1 ++ [92]) ++ esc) t3).
Proof.
  intros Hback H Hbeg Hb. unfold escape. destruct (bytes !! at_) as [code|] eqn:E; [|by eapply outcome_error].
  destruct (Z.eqb_spec code 117) as [->|].
  - destruct (stands_step _ _ _ _ H E ltac:(lia)) as (t3 & -> & _). by apply unicode_escape_sound.
  - destruct (List.find _ _) as [[name c]|] eqn:Ef; [|by eapply outcome_error].
    pose proof (find_some _ _ Ef) as [Hin Hname]. cbn in Hname. apply Z.eqb_eq in Hname as <-.
    apply list_elem_of_In in Hin. destruct (simple_escape_facts _ _ Hin) as (Ha & _ & Hc & _).
    destruct (stands_step _ _ _ _ H E ltac:(unfold is_ascii in Ha; lia)) as (t3 & -> & _ & Hst).
    rewrite push_spec by done. cbn. exists [name], c, t3. split; [done|]. split; [|split; [|done]].
    + split; [done|]. intros body codes' tail _ Hbody. by apply body_simple.
    + eapply built_push; [done..|]. by apply push_spec.
Qed.

Lemma body_reads_plain chunk body codes :
  Forall (fun c => plain c = true) chunk -> body_reads body codes -> body_reads (chunk ++ body) (chunk ++ codes).
Proof. intros H Hb. induction H as [|c chunk Hc _ IH]; [done|]. by apply body_plain. Qed.

Lemma string_loop_sound fuel at_ t1 t2 begin b1 b2 cps codes :
  stands at_ t1 t2 -> stands begin b1 b2 -> built cps codes -> (length bytes - at_ < fuel)%nat ->
  outcome (string_loop bytes fuel at_ begin cps) (fun r => exists body codes' t3,
    t2 = body ++ 34 :: t3 /\ body_reads body codes' /\ built r.1 (codes ++ codes') /\
    stands r.2 (t1 ++ body ++ [34]) t3).
Proof.
  revert at_ t1 t2 cps codes. induction fuel as [|fuel IH]; intros at_ t1 t2 cps codes H Hbeg Hb Hfuel; [lia|].
  cbn [string_loop]. eapply outcome_bind; [by eapply chunk_spec|].
  intros stop _ (chunk & c & t3 & -> & Hchunk & Hc & Hstop). cbv beta.
  rewrite (slice_stands _ _ _ _ _ H Hstop). cbn [result_bind]. cbv zeta.
  destruct (stands_str _ _ _ H) as [_ Hs]. apply Forall_app in Hs as [Hs _].
  pose proof (built_push_str cps codes chunk Hb Hs) as Hb'. unfold push_str in Hb'.
  assert (is_ascii c) as Ha by (unfold is_ascii; lia). rewrite (peek_head _ _ _ _ Ha Hstop). cbn [or_panic result_bind].
  pose proof (stands_cons _ _ _ _ Ha Hstop) as Hst. destruct (Z.eqb_spec c 34) as [->|].
  - cbn. exists chunk, chunk, t3. split; [done|]. split; [|split; [done|by rewrite <-app_assoc in Hst]].
    rewrite <-(app_nil_r chunk). apply body_reads_plain; [done|constructor].
  - destruct Hc as [->| ->]; [done|]. eapply outcome_bind.
    + eapply (escape_sound _ (t1 ++ chunk)); [|exact Hst|exact Hbeg|exact Hb']. by rewrite Nat.add_sub.
    + intros [cps' at'] _ (esc & code & t4 & -> & [Hcode Hesc] & Hb'' & Hst'). cbn [fst snd] in *.
      eapply outcome_mono; [eapply IH; [exact Hst'|exact Hbeg|exact Hb''|]|].
      * pose proof (stands_length _ _ _ H) as L1. pose proof (stands_length _ _ _ Hst') as L2.
        destruct Hst' as [_ E1], H as [_ E2]. rewrite E1, E2 in *. rewrite !as_bytes_app, !length_app in *.
        change (as_bytes [92]) with [92] in *. cbn [length] in *. lia.
      * intros [cps'' to] (body & codes' & t5 & -> & Hbody & Hb3 & Hst5). cbn [fst snd] in *.
        exists (chunk ++ 92 :: esc ++ body), (chunk ++ code :: codes'), t5. split; [rewrite <-app_assoc; cbn; by rewrite <-app_assoc|].
        split; [apply body_reads_plain; [done|by eapply Hesc]|]. split.
        -- by rewrite <-!app_assoc in Hb3.
        -- rewrite <-!app_assoc in Hst5. cbn [app] in Hst5. rewrite <-app_assoc. cbn [app]. by rewrite <-app_assoc.
Qed.

Lemma string_sound at_ t1 t2 :
  stands at_ t1 (34 :: t2) ->
  outcome (string bytes at_) (fun r => exists w t3,
    34 :: t2 = w ++ t3 /\ w <> [] /\ string_reads w r.1 /\ stands r.2 (t1 ++ w) t3).
Proof.
  intros H. unfold string. pose proof (stands_cons _ _ 34 _ ltac:(by unfold is_ascii) H) as H1.
  eapply outcome_mono; [eapply string_loop_sound; [exact H1|exact H|apply built_default|lia]|].
  intros [cps to] (body & codes & t3 & -> & Hbody & Hb & Hst). cbn [fst snd app] in *.
  exists (34 :: body ++ [34]), t3. split; [cbn; by rewrite <-app_assoc|]. split; [done|].
  split; [by exists body, codes|]. by rewrite <-app_assoc in Hst.
Qed.

(** ** Containers *)

Lemma require_spec at_ t1 t2 b k :
  stands at_ t1 t2 -> b < 128 ->
  outcome (require bytes at_ b k) (fun _ => exists t3, t2 = b :: t3 /\ stands (at_ + 1) (t1 ++ [b]) t3).
Proof.
  intros H Hb. unfold require. case_bool_decide as E; [|by eapply outcome_error]. cbn.
  destruct (stands_step _ _ _ _ H E Hb) as (t3 & -> & _ & Hst). by exists t3.
Qed.

Lemma item_prefix_sound n frame w at_ t1 t2 :
  stands at_ t1 t2 -> frame_ok frame -> frame_ready n frame w ->
  outcome (item_prefix bytes frame at_) (fun r => exists kt t3,
    t2 = kt ++ t3 /\ frame_ok r.1 /\ frame_reads n r.1 (w ++ kt) /\ stands r.2 (t1 ++ kt) t3).
Proof.
  intros H Hok Hready. destruct frame as [xs|o]; cbn [item_prefix].
  { cbn. exists [], t2. rewrite !app_nil_r. done. }
  eapply outcome_bind; [eapply require_spec; [exact H|lia]|]. intros _ _ (t3 & -> & _).
  eapply outcome_bind; [by apply string_sound|]. intros [k to] _ (kw & t4 & E & _ & Hk & Hst). cbn [fst snd] in *.
  cbv zeta. destruct (skip_ws_spec _ _ _ Hst) as (s1 & t5 & -> & Hs1 & _ & Hst1).
  eapply outcome_bind; [eapply require_spec; [exact Hst1|lia]|]. intros _ _ (t6 & -> & Hst2).
  destruct (skip_ws_spec _ _ _ Hst2) as (s2 & t7 & -> & Hs2 & _ & Hst3). cbn.
  exists (kw ++ s1 ++ 58 :: s2), t7. split; [rewrite E, <-!app_assoc; cbn; by rewrite <-?app_assoc|].
  split; [done|]. split.
  - intros et kvs Het. cbn in *. pose proof (Hready _ _ (members_key n kw k s1 s2 et kvs Hk Hs1 Hs2 Het)) as Hr.
    rewrite <-!app_assoc in *. cbn in *. by rewrite <-?app_assoc in *.
  - rewrite <-!app_assoc in Hst3. cbn in Hst3. by rewrite <-?app_assoc in *.
Qed.

Lemma closer_small frame : closer (shape frame) < 128.
Proof. by destruct frame. Qed.

Lemma add_sound n frame w wv v at_ t1 t2 :
  stands at_ t1 t2 -> frame_ok frame -> frame_reads n frame w -> reads n wv v ->
  outcome (add bytes frame v at_) (fun r => exists t t3,
    t2 = t ++ t3 /\ stands r.2 (t1 ++ t) t3 /\ frame_ok r.1.2 /\
    if (r.1.1 : bool) then reads (S n) (w ++ wv ++ t) (into_value r.1.2) else frame_reads n r.1.2 (w ++ wv ++ t)).
Proof.
  intros H Hok Hf Hv. destruct (skip_ws_spec _ _ _ H) as (s & t3 & -> & Hs & _ & Hst).
  destruct (push_item_spec n frame w wv v s Hok Hf Hv Hs) as (frame' & Hpush & Hok' & Hsh & Hclose & Hnext).
  unfold add. rewrite Hpush. cbn [or_panic result_bind]. cbv zeta. rewrite Hsh.
  destruct (peek bytes (skip_whitespace bytes at_)) as [b|] eqn:Ep; [|by eapply outcome_error].
  destruct (Z.eqb_spec b (closer (shape frame))) as [->|].
  - destruct (stands_step _ _ _ _ Hst Ep (closer_small frame)) as (t4 & -> & _ & Hst1). cbn.
    exists (s ++ [closer (shape frame)]), t4. split; [by rewrite <-app_assoc|].
    split; [by rewrite <-app_assoc in Hst1|]. done.
  - destruct (Z.eqb_spec b 44) as [->|]; [|by eapply outcome_error].
    destruct (stands_step _ _ _ _ Hst Ep ltac:(lia)) as (t4 & -> & _ & Hst1).
    destruct (skip_ws_spec _ _ _ Hst1) as (s2 & t5 & -> & Hs2 & _ & Hst2).
    case_bool_decide; [by eapply outcome_error|].
    eapply outcome_bind; [by eapply item_prefix_sound, Hnext|].
    intros [frame'' to] _ (kt & t6 & -> & Hok'' & Hf'' & Hst3). cbn in *.
    exists (s ++ 44 :: s2 ++ kt), t6. split; [rewrite <-app_assoc; cbn; by rewrite <-app_assoc|].
    split; [|split; [done|]].
    + rewrite <-!app_assoc in Hst3. cbn in Hst3. by rewrite <-?app_assoc in *.
    + rewrite <-!app_assoc in Hf''. cbn in Hf''. by rewrite <-?app_assoc in *.
Qed.

Lemma close_sound stack n w0 w v at_ t1 t2 :
  stack_ok n stack w0 -> reads n w v -> stands at_ t1 t2 ->
  outcome (close bytes stack v at_) (fun r => exists t t3,
    t2 = t ++ t3 /\ stands r.2 (t1 ++ t) t3 /\
    match r.1.1 with
    | Some d => reads depth_limit (w0 ++ w ++ t) d
    | None => exists n', stack_ok n' r.1.2 (w0 ++ w ++ t)
    end).
Proof.
  revert n w0 w v at_ t1 t2. induction stack as [|frame stack IH]; intros n w0 w v at_ t1 t2 Hst Hv H.
  { inversion Hst; subst. cbn. exists [], t2. rewrite !app_nil_r. done. }
  inversion Hst as [|? ? ? w1 wf Hok Hf Hst']; subst. cbn [close].
  eapply outcome_bind; [by eapply add_sound|]. intros [[closed frame'] to] _ (t & t3 & -> & H1 & Hok' & Hr). cbn in *.
  destruct closed.
  - eapply outcome_mono; [by eapply IH|]. intros [[od stack'] to'] (t' & t4 & -> & H2 & Hres). cbn in *.
    exists (t ++ t'), t4. split; [by rewrite <-app_assoc|]. split; [by rewrite <-app_assoc in H2|].
    rewrite <-!app_assoc in *. done.
  - cbn. exists t, t3. split; [done|]. split; [done|]. exists n. rewrite <-app_assoc. by constructor.
Qed.

Lemma open_sound n stack frame opener at_ t1 t2 :
  (n + length stack = depth_limit)%nat -> stands at_ t1 (opener :: t2) ->
  frame = FrameArray [] /\ opener = 91 \/ frame = FrameObject object_default /\ opener = 123 ->
  outcome (open bytes stack frame at_) (fun r => exists w t3,
    opener :: t2 = w ++ t3 /\ w <> [] /\ stands r.2 (t1 ++ w) t3 /\
    match r.1.1 with
    | Some v => r.1.2 = stack /\ reads n w v
    | None => exists f m, r.1.2 = f :: stack /\ n = S m /\ frame_ok f /\ frame_reads m f w
    end).
Proof.
  intros Hn H Hframe. unfold open. destruct (Z.leb_spec MAX_DEPTH (Z.of_nat (length stack))) as [|Hlt]; [by eapply outcome_error|].
  destruct n as [|m]; [unfold depth_limit in Hn; lia|].
  pose proof (stands_cons _ _ opener _ ltac:(unfold is_ascii; lia) H) as H1.
  destruct (skip_ws_spec _ _ _ H1) as (s & t3 & -> & Hs & _ & H2).
  assert (frame_ok frame /\ frame_ready m frame (opener :: s) /\
    reads (S m) (opener :: s ++ [closer (shape frame)]) (into_value frame)) as (Hok & Hready & Hempty).
  { destruct Hframe as [[-> ->]|[-> ->]]; cbn.
    - split; [done|]. split; [|by apply reads_array_empty]. intros it vs Hit. by apply reads_array.
    - split; [intros k i; cbn; rewrite lookup_empty, lookup_nil; done|].
      split; [|by apply reads_object_empty]. intros mt kvs Hmt. by apply reads_object. }
  case_bool_decide as Ep.
  - destruct (stands_step _ _ _ _ H2 Ep (closer_small frame)) as (t4 & -> & _ & H3). cbn.
    exists (opener :: s ++ [closer (shape frame)]), t4. split; [cbn; by rewrite <-app_assoc|]. split; [done|].
    split; [by rewrite <-!app_assoc in H3|]. done.
  - eapply outcome_bind; [by eapply item_prefix_sound|]. intros [frame' to] _ (kt & t4 & -> & Hok' & Hf & H3). cbn in *.
    exists (opener :: s ++ kt), t4. split; [cbn; by rewrite <-app_assoc|]. split; [done|].
    split; [by rewrite <-!app_assoc in H3|]. by exists frame', m.
Qed.

Lemma value_sound n stack at_ t1 t2 :
  (n + length stack = depth_limit)%nat -> stands at_ t1 t2 ->
  outcome (value bytes stack at_) (fun r => exists w t3,
    t2 = w ++ t3 /\ w <> [] /\ stands r.2 (t1 ++ w) t3 /\
    match r.1.1 with
    | Some v => r.1.2 = stack /\ reads n w v
    | None => exists f m, r.1.2 = f :: stack /\ n = S m /\ frame_ok f /\ frame_reads m f w
    end).
Proof.
  intros Hn H. unfold value.
  assert (outcome (let? (v, to) := scalar bytes at_ in Ok (Some v, stack, to)) (fun r => exists w t3,
    t2 = w ++ t3 /\ w <> [] /\ stands r.2 (t1 ++ w) t3 /\
    match r.1.1 with
    | Some v => r.1.2 = stack /\ reads n w v
    | None => exists f m, r.1.2 = f :: stack /\ n = S m /\ frame_ok f /\ frame_reads m f w
    end)) as Hscalar.
  { eapply outcome_bind; [by apply scalar_sound|]. intros [v to] _ (w & t3 & -> & Hne & Hv & Hst). cbn in *.
    exists w, t3. split; [done|]. split; [done|]. split; [done|]. split; [done|]. by apply reads_scalar. }
  destruct (peek bytes at_) as [b|] eqn:E; [|done].
  destruct (decide (b = 34)) as [->|]; [|destruct (decide (b = 91)) as [->|]; [|destruct (decide (b = 123)) as [->|]]].
  - destruct (stands_step _ _ _ _ H E ltac:(lia)) as (t3 & -> & _).
    eapply outcome_bind; [by apply string_sound|]. intros [text' to] _ (w & t4 & Ew & Hne & Hw & Hst). cbn in *.
    exists w, t4. split; [done|]. split; [done|]. split; [done|]. split; [done|]. by apply reads_string.
  - destruct (stands_step _ _ _ _ H E ltac:(lia)) as (t3 & -> & _). apply open_sound; auto.
  - destruct (stands_step _ _ _ _ H E ltac:(lia)) as (t3 & -> & _). apply open_sound; auto.
  - destruct b as [|b|b]; try done. do 8 (try destruct b as [b|b|]; try done).
Qed.

Lemma stack_ok_length n stack w : stack_ok n stack w -> (n + length stack = depth_limit)%nat.
Proof. induction 1; cbn [length]; lia. Qed.

Lemma stands_progress at_ t1 w t2 to :
  w <> [] -> stands at_ t1 (w ++ t2) -> stands to (t1 ++ w) t2 -> (at_ < to <= length bytes)%nat.
Proof.
  intros Hw H H'. destruct (stands_str _ _ _ H) as [_ Hs]. apply Forall_app in Hs as [Hs _].
  pose proof (stands_length _ _ _ H'). pose proof (stands_app _ _ _ _ H) as H2.
  assert (to = at_ + length (as_bytes w))%nat as -> by (destruct H' as [_ ->], H2 as [_ <-]; done).
  destruct w as [|c w]; [done|]. apply Forall_cons in Hs as [Hc _]. rewrite as_bytes_cons, length_app in *.
  pose proof (encode_length c Hc). lia.
Qed.

Lemma document_loop_sound fuel n stack w0 at_ t1 t2 :
  stack_ok n stack w0 -> stands at_ t1 t2 -> (length bytes - at_ < fuel)%nat ->
  outcome (document_loop bytes fuel stack at_) (fun r => exists w t3,
    t2 = w ++ t3 /\ stands r.2 (t1 ++ w) t3 /\ reads depth_limit (w0 ++ w) r.1).
Proof.
  revert n stack w0 at_ t1 t2. induction fuel as [|fuel IH]; intros n stack w0 at_ t1 t2 Hst H Hfuel; [lia|].
  cbn [document_loop]. eapply outcome_bind; [eapply value_sound; [by eapply stack_ok_length|exact H]|].
  intros [[ov stack'] to] _ (w & t3 & -> & Hne & H1 & Hres). cbn [fst snd] in *.
  pose proof (stands_progress _ _ _ _ _ Hne H H1). destruct ov as [v|].
  - destruct Hres as [-> Hv]. eapply outcome_bind; [by eapply close_sound|].
    intros [[od stack'] to'] _ (t & t4 & -> & Hst2 & Hres). cbn [fst snd] in *. destruct od as [d|].
    + cbn. exists (w ++ t), t4. split; [by rewrite <-app_assoc|]. by rewrite <-app_assoc in Hst2.
    + destruct Hres as [n' Hst'].
      assert (to <= to')%nat by (destruct H1 as [_ ->], Hst2 as [_ ->]; rewrite (as_bytes_app (t1 ++ w)), length_app; lia).
      eapply outcome_mono; [eapply IH; [done..|lia]|]. intros [d to''] (w' & t5 & -> & Hlast & Hr). cbn in *.
      exists (w ++ t ++ w'), t5. split; [by rewrite <-!app_assoc|]. by rewrite <-!app_assoc in *.
  - destruct Hres as (f & m & -> & -> & Hok & Hf).
    eapply outcome_mono; [eapply IH; [by apply stack_cons|done|lia]|]. intros [d to''] (w' & t5 & -> & Hlast & Hr). cbn in *.
    exists (w ++ w'), t5. split; [by rewrite <-!app_assoc|]. by rewrite <-!app_assoc in *.
Qed.

(** * The reader is complete *)

(** The offset after some characters. *)
Definition after (t1 : str) : nat := length (as_bytes t1).

Lemma after_stands t1 t2 : text = t1 ++ t2 -> stands (after t1) t1 t2.
Proof. done. Qed.

Lemma after_ascii t1 w : Forall is_ascii w -> (after t1 + length w)%nat = after (t1 ++ w).
Proof. intros Hw. unfold after. by rewrite as_bytes_app, length_app, (as_bytes_ascii w Hw). Qed.

Lemma after_cons t1 c : is_ascii c -> (after t1 + 1)%nat = after (t1 ++ [c]).
Proof. intros Hc. apply (after_ascii t1 [c]). by apply Forall_singleton. Qed.

(** Proves that two concatenations are one text. *)
Ltac flatten := repeat first [progress rewrite <-?app_assoc | progress cbn [app]].
Ltac same_text := by (repeat match goal with E : text = _ |- _ => rewrite E; clear E end; flatten).

Lemma skip_complete t1 s t2 :
  text = t1 ++ s ++ t2 -> ws s -> stops is_ws t2 -> skip_whitespace bytes (after t1) = after (t1 ++ s).
Proof.
  intros E Hs Ht. unfold skip_whitespace. rewrite skip_from_length, (stands_drop _ _ _ (after_stands _ _ E)).
  rewrite take_while_bytes; [|apply is_ws_ascii|by destruct (stands_str _ _ _ (after_stands _ _ E))].
  rewrite take_while_app by done. apply after_ascii. by apply ws_ascii.
Qed.

Lemma digits_end_complete t1 ds t2 :
  text = t1 ++ ds ++ t2 -> digit_str ds -> stops is_ascii_digit t2 ->
  digits_end bytes (after t1) = Ok (after (t1 ++ ds)).
Proof.
  intros E Hds Ht. destruct (digits_end_spec _ _ _ (after_stands _ _ E)) as (ds' & t2' & to & E' & Hds' & Ht' & -> & -> & _).
  assert (ds' = ds) as -> by (rewrite <-(take_while_app is_ascii_digit ds t2), E', take_while_app; done).
  f_equal. apply after_ascii. by apply digit_str_ascii.
Qed.

Lemma peek_after t1 c t2 : text = t1 ++ c :: t2 -> is_ascii c -> bytes !! after t1 = Some c.
Proof. intros E Hc. by eapply peek_head, after_stands. Qed.

(** What can follow a value. *)
Definition delimited (s : str) : Prop :=
  match s with [] => True | c :: _ => is_ws c || (c =? 44) || (c =? 93) || (c =? 125) = true end.

Lemma delimited_ws s t : ws s -> delimited t -> delimited (s ++ t).
Proof. intros [|c s' Hc _] Ht; [done|]. cbn. by rewrite Hc. Qed.

(** ** Numbers *)

Lemma peek_not t1 t2 (P : Z -> Prop) :
  text = t1 ++ t2 -> (forall c r, t2 = c :: r -> is_ascii c -> ~ P c) ->
  forall b, bytes !! after t1 = Some b -> b < 128 -> ~ P b.
Proof.
  intros E H b Hb Hlt. destruct (stands_peek _ _ _ _ (after_stands _ _ E) Hb Hlt) as (r & -> & Ha). by eapply H.
Qed.

Lemma exponent_end_none t1 t2 : text = t1 ++ t2 -> delimited t2 -> exponent_end bytes (after t1) = Ok None.
Proof.
  intros E Hd. unfold exponent_end. destruct (Nat.leb_spec (length bytes) (after t1 + 1)); [done|].
  destruct (bytes !! after t1) as [b|] eqn:Eb; [|apply lookup_ge_None in Eb; lia]. cbn [or_panic result_bind].
  destruct ((b =? 101) || (b =? 69)) eqn:He; [exfalso|done].
  destruct (stands_peek _ _ _ _ (after_stands _ _ E) Eb ltac:(lia)) as (r & -> & Ha). cbn in Hd. unfold is_ws in Hd. lia.
Qed.

Lemma delimited_no_digit s : delimited s -> stops is_ascii_digit s.
Proof. destruct s as [|c s]; [done|]. cbn. unfold is_ws, is_ascii_digit. lia. Qed.

Lemma exponent_end_some t1 ex t2 :
  text = t1 ++ ex ++ t2 -> exp_part ex -> ex <> [] -> stops is_ascii_digit t2 ->
  exponent_end bytes (after t1) = Ok (Some (after (t1 ++ ex))).
Proof.
  intros E Hex Hne Ht. destruct Hex as [|e sign d ds He Hsign Hds]; [done|].
  assert (text = t1 ++ e :: sign ++ (d :: ds) ++ t2) as E1 by (rewrite E; flatten; done).
  assert (is_ascii e) as Hae by (unfold is_ascii; lia).
  assert (Forall is_ascii sign) as Has by (destruct Hsign as [->|[->| ->]]; repeat constructor; done).
  pose proof (digit_str_ascii _ Hds) as Hads. pose proof (stands_length _ _ _ (after_stands _ _ E1)) as Hlen.
  rewrite as_bytes_cons, (encode_ascii e), !as_bytes_app, (as_bytes_ascii sign), (as_bytes_ascii (d :: ds)), !length_app in Hlen by done.
  cbn [length] in Hlen. unfold exponent_end. rewrite (proj2 (Nat.leb_gt _ _)) by lia.
  rewrite (peek_after _ _ _ E1) by done. cbn [or_panic result_bind].
  assert ((e =? 101) || (e =? 69) = true) as -> by lia. cbn [negb].
  rewrite (after_cons t1 e Hae).
  assert (text = (t1 ++ [e]) ++ sign ++ (d :: ds) ++ t2) as E2 by same_text.
  assert ((if (after (t1 ++ [e]) + 1 <? length bytes)%nat then
     let? s := or_panic (bytes !! after (t1 ++ [e])) in
     Ok (if (s =? 43) || (s =? 45) then (after (t1 ++ [e]) + 1)%nat else after (t1 ++ [e]))
     else Ok (E:=fail) (after (t1 ++ [e]))) = Ok (after ((t1 ++ [e]) ++ sign))) as ->.
  { rewrite <-(after_cons t1 e Hae) in *. destruct Hsign as [->|Hsign].
    - rewrite app_nil_r, <-(after_cons t1 e Hae). destruct (Nat.ltb_spec (after t1 + 1 + 1) (length bytes)); [|done].
      rewrite (after_cons t1 e Hae) in *. cbn [app] in E2. rewrite (peek_after _ _ _ E2) by (by inversion Hads).
      cbn [or_panic result_bind]. inversion Hds as [|? ? Hd _]. unfold is_ascii_digit in Hd.
      assert ((d =? 43) || (d =? 45) = false) as -> by lia. done.
    - rewrite (proj2 (Nat.ltb_lt _ _)) by (destruct Hsign as [->| ->]; cbn [length] in Hlen; lia).
      rewrite (after_cons t1 e Hae). destruct Hsign as [->| ->]; cbn [app] in E2; rewrite (peek_after _ _ _ E2) by (by unfold is_ascii);
        cbn [or_panic result_bind Z.eqb Pos.eqb orb]; f_equal; by apply after_cons. }
  cbn [result_bind]. assert (text = ((t1 ++ [e]) ++ sign) ++ (d :: ds) ++ t2) as E3 by same_text.
  rewrite (digits_end_complete _ _ _ E3 Hds Ht). cbn [result_bind].
  assert (exists x, (d :: ds) !! length ds = Some x /\ is_ascii_digit x = true) as (x & Hx & Hxd).
  { destruct (lookup_lt_is_Some_2 (d :: ds) (length ds)) as [x Hx]; [cbn; lia|]. exists x. split; [done|].
    by eapply Forall_lookup_1 in Hds. }
  assert (bytes !! (after (((t1 ++ [e]) ++ sign) ++ d :: ds) - 1)%nat = Some x) as ->.
  { rewrite <-(after_ascii _ (d :: ds) Hads). replace (_ + length (d :: ds) - 1)%nat with (after ((t1 ++ [e]) ++ sign) + length ds)%nat by (cbn; lia).
    rewrite (stands_lookup _ _ _ _ (after_stands _ _ E3)), as_bytes_app, (as_bytes_ascii _ Hads). by apply lookup_app_l_Some. }
  cbn [or_panic result_bind]. rewrite Hxd.
  assert (((t1 ++ [e]) ++ sign) ++ d :: ds = t1 ++ e :: sign ++ d :: ds) as -> by (by flatten). done.
Qed.

Lemma exp_part_no_digit ex t : exp_part ex -> stops is_ascii_digit t -> stops is_ascii_digit (ex ++ t).
Proof. intros [|e sign d ds He _ _] Ht; [done|]. cbn. unfold is_ascii_digit. lia. Qed.

Lemma frac_part_no_digit frac t : frac_part frac -> stops is_ascii_digit t -> stops is_ascii_digit (frac ++ t).
Proof. by intros [|d ds _] Ht. Qed.

Lemma int_complete t1 int t2 begin :
  text = t1 ++ int ++ t2 -> int_part int -> stops is_ascii_digit t2 ->
  match peek bytes (after t1) with
  | Some b =>
      if (49 <=? b) && (b <=? 57) then digits_end bytes (after t1 + 1)
      else if b =? 48 then Ok (after t1 + 1)%nat else Err (error_at bytes ExpectingValue begin)
  | None => Err (error_at bytes ExpectingValue begin)
  end = Ok (after (t1 ++ int)).
Proof.
  intros E Hi Ht. destruct Hi as [|d ds Hd Hds]; unfold peek; rewrite (peek_after _ _ _ E) by (unfold is_ascii; lia).
  - cbn. f_equal. by apply after_cons.
  - assert ((49 <=? d) && (d <=? 57) = true) as -> by lia. rewrite (after_cons t1 d) by (unfold is_ascii; lia).
    rewrite (digits_end_complete (t1 ++ [d]) ds t2) by (done || same_text). do 2 f_equal. by flatten.
Qed.

Lemma frac_complete t1 frac t2 :
  text = t1 ++ frac ++ t2 -> frac_part frac -> stops is_ascii_digit t2 -> stops (fun c => c =? c_dot) t2 ->
  (if bool_decide (peek bytes (after t1) = Some c_dot) && digit_at bytes (after t1 + 1)
   then let? to := digits_end bytes (after t1 + 2) in Ok (true, to) else Ok (false, after t1)) =
  Ok (bool_decide (frac <> []), after (t1 ++ frac)).
Proof.
  intros E Hf Ht Hdot. unfold peek. destruct Hf as [|d ds Hds].
  - rewrite bool_decide_eq_false_2; [by rewrite app_nil_r|]. intros Hp. cbn [app] in E.
    destruct (stands_peek _ _ _ _ (after_stands _ _ E) Hp ltac:(unfold c_dot; lia)) as (r & -> & _). done.
  - rewrite (peek_after _ _ _ E) by done. rewrite bool_decide_eq_true_2 by done. cbn [andb].
    apply Forall_cons in Hds as [Hd Hds']. rewrite (after_cons t1 c_dot) by done.
    assert (text = (t1 ++ [c_dot]) ++ d :: ds ++ t2) as E1 by same_text.
    rewrite (digit_at_spec _ _ _ (after_stands _ _ E1)), Hd.
    replace (after t1 + 2)%nat with (after ((t1 ++ [c_dot]) ++ [d])).
    2:{ rewrite <-(after_cons _ d) by (by apply is_ascii_digit_ascii). rewrite <-(after_cons _ c_dot) by done. lia. }
    rewrite (digits_end_complete ((t1 ++ [c_dot]) ++ [d]) ds t2) by (done || same_text). cbn.
    do 3 f_equal. by flatten.
Qed.

Lemma sign_complete t1 sign t2 :
  text = t1 ++ sign ++ t2 -> sign = [] \/ sign = [45] -> stops (fun c => c =? 45) t2 ->
  (after t1 + if bool_decide (peek bytes (after t1) = Some 45%Z) then 1 else 0)%nat = after (t1 ++ sign).
Proof.
  intros E Hs Ht. unfold peek. destruct Hs as [->| ->].
  - rewrite bool_decide_eq_false_2; [rewrite app_nil_r; lia|]. intros Hp. cbn [app] in E.
    destruct (stands_peek _ _ _ _ (after_stands _ _ E) Hp ltac:(lia)) as (r & -> & _). done.
  - rewrite (peek_after _ _ _ E) by done. rewrite bool_decide_eq_true_2 by done. by apply after_cons.
Qed.

Lemma slice_complete t1 w t2 : text = t1 ++ w ++ t2 -> slice bytes (after t1) (after (t1 ++ w)) = Ok (as_bytes w).
Proof. intros E. apply (slice_stands _ _ t1 w t2); apply after_stands; [done|same_text]. Qed.

Lemma int_stops int t : int_part int -> stops (fun c => c =? 45) (int ++ t).
Proof. intros [|d ds Hd _]; cbn; lia. Qed.

Lemma tail_stops ex t : exp_part ex -> delimited t -> stops (fun c => c =? c_dot) (ex ++ t).
Proof.
  intros [|e sign d ds He _ _] Ht; [|cbn; unfold c_dot; lia]. destruct t as [|c t]; [done|].
  cbn in *. unfold is_ws, c_dot in *. lia.
Qed.

(** The lexing of a number, up to its text and whether it is a float. *)
Lemma number_complete t1 sign int frac ex t2 :
  text = t1 ++ (sign ++ int ++ frac ++ ex) ++ t2 -> sign = [] \/ sign = [45] -> int_part int -> frac_part frac ->
  exp_part ex -> delimited t2 ->
  number bytes (after t1) =
  let w := sign ++ int ++ frac ++ ex in
  if bool_decide (frac = [] /\ ex = []) then integer bytes w (after t1) (after (t1 ++ w)) else
  match parse_f64 w with
  | Some x => Ok (Float x, after (t1 ++ w))
  | None => Err (error_at bytes ExpectingValue (after t1))
  end.
Proof.
  intros E Hs Hi Hf He Hd. pose proof (delimited_no_digit _ Hd) as Hnd. unfold number. cbv zeta.
  assert (text = t1 ++ sign ++ (int ++ frac ++ ex ++ t2)) as E1 by same_text.
  rewrite (sign_complete _ _ _ E1 Hs) by (by apply int_stops).
  assert (text = (t1 ++ sign) ++ int ++ (frac ++ ex ++ t2)) as E2 by same_text.
  rewrite (int_complete _ _ _ _ E2 Hi) by (by apply frac_part_no_digit, exp_part_no_digit). cbn [result_bind].
  assert (text = ((t1 ++ sign) ++ int) ++ frac ++ (ex ++ t2)) as E3 by same_text.
  rewrite (frac_complete _ _ _ E3 Hf) by (apply exp_part_no_digit || apply tail_stops; done). cbn [result_bind].
  assert (text = (((t1 ++ sign) ++ int) ++ frac) ++ ex ++ t2) as E4 by same_text.
  assert (slice bytes (after t1) (after (t1 ++ sign ++ int ++ frac ++ ex)) = Ok (sign ++ int ++ frac ++ ex)) as Hslice.
  { rewrite (slice_complete t1 _ t2 E). f_equal. apply as_bytes_ascii. rewrite !Forall_app.
    split; [destruct Hs as [->| ->]; repeat constructor; done|].
    split; [by apply int_part_ascii|]. split; [by apply frac_part_ascii|by apply exp_part_ascii]. }
  destruct (decide (ex = [])) as [->|Hex].
  - cbn [app] in E4. rewrite (exponent_end_none _ _ E4 Hd). cbn [result_bind]. rewrite app_nil_r in *.
    replace (((t1 ++ sign) ++ int) ++ frac) with (t1 ++ sign ++ int ++ frac) by (by flatten).
    rewrite Hslice. cbn [result_bind]. destruct frac; done.
  - rewrite (exponent_end_some _ _ _ E4 He Hex Hnd). cbn [result_bind].
    replace ((((t1 ++ sign) ++ int) ++ frac) ++ ex) with (t1 ++ sign ++ int ++ frac ++ ex) by (by flatten).
    rewrite Hslice. cbn [result_bind negb]. rewrite bool_decide_eq_false_2; [done|]. by intros [_ ?].
Qed.

Lemma number_reads_complete t1 w v t2 :
  text = t1 ++ w ++ t2 -> number_reads w v -> delimited t2 -> number bytes (after t1) = Ok (v, after (t1 ++ w)).
Proof.
  intros E Hw Hd. destruct Hw as [sign int Hs Hi Hl|sign int frac ex x Hs Hi Hf He Hne Hx].
  - rewrite (number_complete t1 sign int [] [] t2) by (done || (by constructor) || (rewrite !app_nil_r; done)).
    cbv zeta. rewrite bool_decide_eq_true_2, !app_nil_r by done. unfold integer. rewrite trim_sign by done.
    by rewrite (proj2 (Z.ltb_ge _ _)).
  - rewrite (number_complete t1 sign int frac ex t2) by done. cbv zeta. rewrite bool_decide_eq_false_2 by tauto.
    by rewrite Hx.
Qed.

(** ** Scalars *)

Lemma number_starts w v t : number_reads w v -> starts_number (as_bytes (w ++ t)) = true.
Proof.
  assert (forall sign int r, (sign = [] \/ sign = [45]) -> int_part int -> starts_number (as_bytes (sign ++ int ++ r)) = true) as Hgen.
  { intros sign int r Hs Hi. assert (exists d ds, int = d :: ds /\ is_ascii_digit d = true) as (d & ds & -> & Hd).
    { destruct Hi as [|d ds Hd _]; eexists _, _; (split; [done|]); unfold is_ascii_digit; lia. }
    pose proof (is_ascii_digit_ascii _ Hd) as Ha. destruct Hs as [->| ->]; cbn [app];
      rewrite !as_bytes_cons, ?(encode_ascii d), ?(encode_ascii 45) by done; cbn; by rewrite Hd. }
  intros [sign int Hs Hi _|sign int frac ex x Hs Hi _ _ _ _]; rewrite <-app_assoc; [by apply Hgen|].
  rewrite <-app_assoc. by apply Hgen.
Qed.

Lemma scalar_complete t1 w v t2 :
  text = t1 ++ w ++ t2 -> scalar_reads w v -> delimited t2 -> scalar bytes (after t1) = Ok (v, after (t1 ++ w)).
Proof.
  intros E Hw Hd. unfold scalar. pose proof (stands_length _ _ _ (after_stands _ _ E)) as Hlen.
  assert (slice bytes (after t1) (length bytes) = Ok (as_bytes (w ++ t2))) as ->.
  { rewrite (slice_stands _ _ t1 (w ++ t2) []); [done|by rewrite app_nil_r|]. split; [by rewrite app_nil_r|].
    by rewrite E. }
  cbn [result_bind]. destruct Hw as [w v Hin|w v Hw].
  - destruct (constants_ascii _ _ Hin) as [Ha _].
    assert (starts_number (as_bytes (w ++ t2)) = false /\ constant_at CONSTANTS (as_bytes (w ++ t2)) = Some (w, v)) as [-> ->].
    { rewrite as_bytes_app, as_bytes_ascii by done. unfold CONSTANTS in Hin.
      repeat (apply elem_of_cons in Hin as [[= -> ->]|Hin]; [done|]). by apply elem_of_nil in Hin. }
    by rewrite after_ascii.
  - rewrite (number_starts _ _ _ Hw). by apply (number_reads_complete t1 w v t2).
Qed.

(** ** Strings *)

(** The string so far, with more code points. *)
Definition extend (cps : CodePointString) (codes : list Z) : CodePointString :=
  {| cps_bytes := cps_bytes cps ++ concat (encode_code_point <$> codes) |}.

Lemma extend_nil cps : extend cps [] = cps.
Proof. unfold extend. cbn. rewrite app_nil_r. by destruct cps. Qed.

Lemma extend_app cps a b : extend cps (a ++ b) = extend (extend cps a) b.
Proof. unfold extend. cbn. by rewrite fmap_app, concat_app, app_assoc. Qed.

Lemma extend_push cps c : is_code_point c -> push cps c = Some (extend cps [c]).
Proof. intros Hc. rewrite push_spec by done. unfold extend. cbn. by rewrite app_nil_r. Qed.

Lemma built_extend cps codes : built cps codes <-> Forall is_code_point codes /\ cps = extend cps_default codes.
Proof.
  unfold built, extend. cbn. split; intros [? E]; (split; [done|]); [|by rewrite E].
  destruct cps; cbn in *. by rewrite E.
Qed.

(** A run of plain characters up to a quote or backslash is one chunk. *)
Lemma chunk_complete t1 chunk c t2 begin :
  text = t1 ++ chunk ++ c :: t2 -> Forall (fun c => plain c = true) chunk -> c = 34 \/ c = 92 ->
  chunk_end bytes (after t1) begin = Ok (after (t1 ++ chunk)).
Proof.
  intros E Hp Hc. unfold chunk_end. rewrite (stands_drop _ _ _ (after_stands _ _ E)).
  destruct (stands_str _ _ _ (after_stands _ _ E)) as [_ Hs]. revert t1 E. induction Hp as [|d chunk Hd _ IH]; intros t1 E.
  - cbn [app]. rewrite as_bytes_cons, encode_ascii by (unfold is_ascii; lia). rewrite app_nil_r.
    cbn [app chunk_from]. by destruct Hc as [->| ->].
  - apply Forall_cons in Hs as [Hd' Hs]. cbn [app]. rewrite chunk_from_plain by done.
    replace (after t1 + length (encode_utf8 d))%nat with (after (t1 ++ [d])).
    + rewrite IH; [|done|same_text]. do 2 f_equal. by flatten.
    + unfold after. rewrite as_bytes_app, as_bytes_cons, !length_app. cbn. lia.
Qed.

(** The plain characters a body starts with, and the rest: nothing, or an escape. *)
Lemma body_split body codes :
  body_reads body codes ->
  exists chunk body' codes', body = chunk ++ body' /\ codes = chunk ++ codes' /\
    Forall (fun c => plain c = true) chunk /\ body_reads body' codes' /\
    (body' = [] \/ exists esc, body' = 92 :: esc).
Proof.
  induction 1 as [|c body codes Hc Hb IH|name c body codes Hin Hb IH|ds u body codes Hu Hl Hb IH|ds1 u1 ds2 u2 body codes H1 H2 Hh Hl Hb IH].
  - exists [], [], []. split; [done|]. split; [done|]. split; [done|]. split; [constructor|by left].
  - destruct IH as (chunk & body' & codes' & -> & -> & Hch & Hb' & Hrest).
    exists (c :: chunk), body', codes'. split; [done|]. split; [done|]. split; [by constructor|done].
  - eexists [], _, _. do 3 (split; [done|]). split; [by apply body_simple|]. right. by eexists.
  - eexists [], _, _. do 3 (split; [done|]). split; [by apply body_unit|]. right. by eexists.
  - eexists [], _, _. do 3 (split; [done|]). split; [by apply body_pair|]. right. by eexists.
Qed.

(** A body that starts as a unicode escape has its four digits. *)
Lemma body_unicode_start b codes :
  body_reads (92 :: 117 :: b) codes -> exists ds u rest, b = ds ++ rest /\ hex_unit ds u.
Proof.
  intros H. inversion H; subst; try done.
  - match goal with H : (117, _) ∈ _ |- _ => destruct (simple_escape_facts _ _ H) as (_ & ? & _); done end.
  - eauto.
  - eauto.
Qed.

Lemma unit_ahead t1 ds u t2 :
  text = t1 ++ 117 :: ds ++ t2 -> hex_unit ds u -> t2 <> [] ->
  (length bytes <=? after t1 + 5)%nat = false /\ hex4 bytes (after t1 + 1) = Some u /\
  (after t1 + 5)%nat = after (t1 ++ 117 :: ds).
Proof.
  intros E Hu Hne. destruct (hex_unit_range _ _ Hu) as [_ Ha]. pose proof (proj1 Hu) as Hl.
  assert ((after t1 + 5)%nat = after (t1 ++ 117 :: ds)) as Hpos.
  { rewrite <-(after_ascii t1 (117 :: ds)) by (by constructor). cbn [length]. by rewrite Hl. }
  split; [|split; [|done]].
  - apply Nat.leb_gt. assert (text = (t1 ++ 117 :: ds) ++ t2) as E1 by same_text.
    rewrite Hpos, (stands_length _ _ _ (after_stands _ _ E1)). destruct t2 as [|c t2]; [done|].
    destruct (stands_str _ _ _ (after_stands _ _ E1)) as [_ Hs]. apply Forall_cons in Hs as [Hc _].
    rewrite as_bytes_cons, length_app. pose proof (encode_length c Hc). lia.
  - rewrite (after_cons t1 117) by done. eapply (hex4_complete _ _ ds t2); [|done]. apply after_stands. same_text.
Qed.

Lemma unicode_unit_complete t1 ds u body codes t2 cps :
  text = t1 ++ 117 :: ds ++ body ++ 34 :: t2 -> hex_unit ds u -> (is_high u = true -> ~ starts_low_escape body) ->
  body_reads body codes ->
  unicode_escape bytes (after t1) cps = Ok (extend cps [u], after (t1 ++ 117 :: ds)).
Proof.
  intros E Hu Hlow Hb. destruct (unit_ahead t1 ds u (body ++ 34 :: t2) E Hu) as (Hlen & Hhex & Hpos).
  { by destruct body. }
  assert (is_code_point u) as Hc by (destruct (hex_unit_range _ _ Hu); unfold is_code_point, LAST_CODE_POINT; lia).
  unfold unicode_escape. cbv zeta. rewrite Hlen, Hhex. fold (is_high u).
  assert (forall r, r = Ok (u, (after t1 + 5)%nat) -> (let? (code, to) := r in let? text0 := or_panic (push cps code) in Ok (text0, to)) =
    Ok (extend cps [u], after (t1 ++ 117 :: ds))) as Hdone.
  { intros r ->. cbn [result_bind]. rewrite extend_push by done. cbn. by rewrite Hpos. }
  apply Hdone. destruct (is_high u && _) eqn:Eh; [|done]. apply andb_true_iff in Eh as [Hh Hl]. apply andb_true_iff in Hl as [Hll Hsw].
  assert (text = (t1 ++ 117 :: ds) ++ body ++ 34 :: t2) as E1 by same_text.
  rewrite Hpos, (stands_drop _ _ _ (after_stands _ _ E1)) in Hsw. apply starts_with_spec in Hsw as [r Hr].
  destruct (stands_str _ _ _ (after_stands _ _ E1)) as [_ Hs].
  destruct (ascii_prefix_text (lit "\u") _ r ltac:(by repeat constructor) Hs Hr) as [t3 Ht3].
  change (lit "\u") with [92; 117] in Ht3. cbn [app] in Ht3.
  destruct body as [|x [|y body]]; [by injection Ht3| |].
  { injection Ht3 as -> ?. inversion Hb; done. }
  injection Ht3 as -> -> Ht3. destruct (body_unicode_start _ _ Hb) as (ds2 & u2 & rest & -> & Hu2).
  assert (hex4 bytes (after t1 + 5 + 2) = Some u2) as ->.
  { rewrite Hpos. replace (Nat.add (after (t1 ++ 117 :: ds)) 2) with (after ((t1 ++ 117 :: ds) ++ [92; 117])).
    - eapply (hex4_complete _ _ ds2); [|done]. apply after_stands. same_text.
    - rewrite <-after_ascii by (by repeat constructor). done. }
  fold (is_low u2). destruct (is_low u2) eqn:El; [exfalso|done]. apply Hlow; [done|]. by exists ds2, u2, rest.
Qed.

Lemma unicode_pair_complete t1 ds1 u1 ds2 u2 body t2 cps :
  text = t1 ++ 117 :: ds1 ++ 92 :: 117 :: ds2 ++ body ++ 34 :: t2 -> hex_unit ds1 u1 -> hex_unit ds2 u2 ->
  is_high u1 = true -> is_low u2 = true ->
  unicode_escape bytes (after t1) cps =
  Ok (extend cps [0x10000 + (u1 - 0xd800) * 1024 + (u2 - 0xdc00)], after (t1 ++ 117 :: ds1 ++ 92 :: 117 :: ds2)).
Proof.
  intros E Hu1 Hu2 Hh Hl. destruct (unit_ahead t1 ds1 u1 _ E Hu1) as (Hlen & Hhex & Hpos); [done|].
  unfold unicode_escape. cbv zeta. rewrite Hlen, Hhex. fold (is_high u1).
  assert (text = (t1 ++ 117 :: ds1) ++ (92 :: 117 :: ds2 ++ body) ++ 34 :: t2) as E1 by same_text.
  destruct (low_escape_bytes _ _ _ (92 :: 117 :: ds2 ++ body) t2 (after_stands _ _ E1) eq_refl) as (Hll & u' & Hu' & _).
  { by exists ds2, u2, body. }
  rewrite <-Hpos in Hll, Hu'. rewrite Hll, Hh. cbn [andb]. rewrite Hu'.
  assert (hex4 bytes (after t1 + 5 + 2) = Some u2) as Hu2'.
  { rewrite Hpos. replace (Nat.add (after (t1 ++ 117 :: ds1)) 2) with (after ((t1 ++ 117 :: ds1) ++ [92; 117])).
    - eapply (hex4_complete _ _ ds2); [|done]. apply after_stands. same_text.
    - rewrite <-after_ascii by (by repeat constructor). done. }
  assert (u' = u2) as -> by congruence. fold (is_low u2). rewrite Hl. cbn [result_bind].
  destruct (joined_pair u1 u2 Hh Hl) as [-> Hc]. rewrite extend_push by done. cbn [or_panic result_bind]. do 2 f_equal.
  rewrite Hpos. destruct (hex_unit_range _ _ Hu2) as [_ Ha2]. pose proof (proj1 Hu2) as Hl2.
  replace (t1 ++ 117 :: ds1 ++ 92 :: 117 :: ds2) with ((t1 ++ 117 :: ds1) ++ 92 :: 117 :: ds2) by (by flatten).
  rewrite <-(after_ascii _ (92 :: 117 :: ds2)) by (by repeat constructor). cbn [length]. by rewrite Hl2.
Qed.

Lemma is_str_sub t1 w t2 : text = t1 ++ w ++ t2 -> is_str w.
Proof. intros E. pose proof text_str as H. rewrite E in H. by apply Forall_app in H as [_ [H _]%Forall_app]. Qed.

Lemma chunk_extend t1 chunk t2 cps :
  text = t1 ++ chunk ++ t2 -> {| cps_bytes := cps_bytes cps ++ as_bytes chunk |} = extend cps chunk.
Proof. intros E. unfold extend. by rewrite as_bytes_encode by (by eapply is_str_sub). Qed.

Lemma body_escape_cases esc codes :
  body_reads (92 :: esc) codes ->
  (exists name c body codes', esc = name :: body /\ codes = c :: codes' /\ (name, c) ∈ SIMPLE_ESCAPES /\
    body_reads body codes') \/
  (exists ds u body codes', esc = 117 :: ds ++ body /\ codes = u :: codes' /\ hex_unit ds u /\
    (is_high u = true -> ~ starts_low_escape body) /\ body_reads body codes') \/
  (exists ds1 u1 ds2 u2 body codes', esc = 117 :: ds1 ++ 92 :: 117 :: ds2 ++ body /\
    codes = 0x10000 + (u1 - 0xd800) * 1024 + (u2 - 0xdc00) :: codes' /\ hex_unit ds1 u1 /\ hex_unit ds2 u2 /\
    is_high u1 = true /\ is_low u2 = true /\ body_reads body codes').
Proof.
  inversion 1; subst; try done; [left; by eexists _, _, _, _|right; left; by eexists _, _, _, _|].
  right; right. by eexists _, _, _, _, _, _.
Qed.

(** The escape at the head of a body: what the reader makes of it, and the body after it. *)
Lemma escape_complete t1 esc codes begin t2 cps :
  text = (t1 ++ [92]) ++ esc ++ 34 :: t2 -> body_reads (92 :: esc) codes ->
  exists e code body codes', esc = e ++ body /\ codes = code :: codes' /\ body_reads body codes' /\
    escape bytes (after (t1 ++ [92])) begin cps = Ok (extend cps [code], after ((t1 ++ [92]) ++ e)).
Proof.
  intros E [(name & c & body & codes0 & -> & -> & Hin & Hb)|[(ds & u & body & codes0 & -> & -> & Hu & Hl & Hb)
    |(ds1 & u1 & ds2 & u2 & body & codes0 & -> & -> & Hu1 & Hu2 & Hh & Hl & Hb)]]%body_escape_cases.
  - exists [name], c, body, codes0. do 3 (split; [done|]). destruct (simple_escape_facts _ _ Hin) as (Ha & Hn & Hc & Hf).
    unfold escape. cbn [app] in E. rewrite (peek_after _ _ _ E Ha), (proj2 (Z.eqb_neq _ _) Hn), Hf, extend_push by done.
    cbn [or_panic result_bind]. by rewrite (after_cons _ name).
  - exists (117 :: ds), u, body, codes0. do 3 (split; [done|]). unfold escape. cbn [app] in E.
    rewrite (peek_after _ _ _ E) by done. eapply (unicode_unit_complete _ ds u body codes0 t2); try done. same_text.
  - exists (117 :: ds1 ++ 92 :: 117 :: ds2), (0x10000 + (u1 - 0xd800) * 1024 + (u2 - 0xdc00)), body, codes0.
    split; [by flatten|]. do 2 (split; [done|]). unfold escape. cbn [app] in E.
    rewrite (peek_after _ _ _ E) by done. eapply (unicode_pair_complete _ ds1 u1 ds2 u2 body t2); try done. same_text.
Qed.

Lemma string_loop_complete fuel t1 body codes t2 begin cps :
  text = t1 ++ body ++ 34 :: t2 -> body_reads body codes -> (length body < fuel)%nat ->
  string_loop bytes fuel (after t1) begin cps = Ok (extend cps codes, (after (t1 ++ body) + 1)%nat).
Proof.
  revert t1 body codes cps. induction fuel as [|fuel IH]; intros t1 body codes cps E Hb Hfuel; [lia|].
  destruct (body_split _ _ Hb) as (chunk & body' & codes' & -> & -> & Hch & Hb' & Hrest).
  cbn [string_loop]. destruct Hrest as [->|[esc ->]].
  - inversion Hb'; subst codes'. rewrite !app_nil_r in *.
    rewrite (chunk_complete t1 chunk 34 t2) by (done || auto). cbn [result_bind].
    rewrite (slice_complete t1 chunk (34 :: t2)) by done. cbn [result_bind]. cbv zeta.
    rewrite (peek_after (t1 ++ chunk) 34 t2) by (done || same_text). cbn [or_panic result_bind].
    by rewrite (chunk_extend t1 chunk (34 :: t2)).
  - assert (text = t1 ++ chunk ++ 92 :: esc ++ 34 :: t2) as E1 by same_text.
    rewrite (chunk_complete t1 chunk 92 (esc ++ 34 :: t2)) by (done || auto). cbn [result_bind].
    rewrite (slice_complete t1 chunk (92 :: esc ++ 34 :: t2)) by done. cbn [result_bind]. cbv zeta.
    rewrite (peek_after (t1 ++ chunk) 92 (esc ++ 34 :: t2)) by (done || same_text). cbn [or_panic result_bind].
    change (92 =? 34) with false. cbn iota.
    rewrite (chunk_extend t1 chunk (92 :: esc ++ 34 :: t2)), (after_cons (t1 ++ chunk) 92) by done.
    destruct (escape_complete (t1 ++ chunk) esc codes' begin t2 (extend cps chunk)) as (e & code & body & codes0 & -> & -> & Hb0 & ->);
      [same_text|done|]. cbn [result_bind].
    rewrite (IH (((t1 ++ chunk) ++ [92]) ++ e) body codes0) by (done || same_text || (rewrite !length_app in Hfuel; cbn in Hfuel; rewrite length_app in Hfuel; lia)).
    f_equal. f_equal; [|do 2 f_equal; by flatten].
    change (code :: codes0) with ([code] ++ codes0). by rewrite !extend_app.
Qed.

Lemma string_complete t1 w cps t2 :
  text = t1 ++ w ++ t2 -> string_reads w cps -> string bytes (after t1) = Ok (cps, after (t1 ++ w)).
Proof.
  intros E (body & codes & -> & Hb & [_ Hc]%built_extend). unfold string. rewrite (after_cons t1 34) by done.
  assert (text = (t1 ++ [34]) ++ body ++ 34 :: t2) as E1 by same_text.
  rewrite (string_loop_complete (S (length bytes)) _ body codes t2 _ _ E1 Hb).
  - rewrite <-Hc. do 2 f_equal. rewrite (after_cons _ 34) by done. f_equal. by flatten.
  - pose proof (stands_length _ _ _ (after_stands _ _ E1)) as Hlen. rewrite as_bytes_app, length_app in Hlen.
    assert (length body <= length (as_bytes body))%nat; [|lia]. clear -E1 text_str.
    pose proof (is_str_sub _ _ _ E1) as Hs. clear -Hs. induction Hs as [|c s Hc _ IH]; [done|].
    rewrite as_bytes_cons, length_app. pose proof (encode_length c Hc). cbn. lia.
Qed.

(** ** Values *)

(** Closing the open containers after a value, and going on. *)
Definition finish (fuel : nat) (stack : list Frame) (v : JsonValue) (at_ : nat) : result (JsonValue * nat) fail :=
  let? (done, stack, at_) := close bytes stack v at_ in
  match done with
  | Some d => Ok (d, at_)
  | None => document_loop bytes fuel stack at_
  end.

Lemma document_loop_value fuel stack at_ v to :
  value bytes stack at_ = Ok (Some v, stack, to) ->
  document_loop bytes (S fuel) stack at_ = finish fuel stack v to.
Proof. intros E. cbn [document_loop]. by rewrite E. Qed.

Lemma document_loop_open fuel stack at_ frame to :
  value bytes stack at_ = Ok (None, frame :: stack, to) ->
  document_loop bytes (S fuel) stack at_ = document_loop bytes fuel (frame :: stack) to.
Proof. intros E. cbn [document_loop]. by rewrite E. Qed.

Lemma value_scalar stack at_ :
  peek bytes at_ <> Some 34 -> peek bytes at_ <> Some 91 -> peek bytes at_ <> Some 123 ->
  value bytes stack at_ = let? (v, to) := scalar bytes at_ in Ok (Some v, stack, to).
Proof.
  intros H1 H2 H3. unfold value. destruct (peek bytes at_) as [[|b|b]|]; try done.
  do 8 (try destruct b as [b|b|]; try done).
Qed.

(** The first character of a value. *)
Definition value_start (c : Z) : Prop := is_ascii c /\ is_ws c = false /\ c <> 44 /\ c <> 93 /\ c <> 125.

Lemma scalar_first w v :
  scalar_reads w v -> exists c r, w = c :: r /\ value_start c /\ c <> 34 /\ c <> 91 /\ c <> 123.
Proof.
  intros [word v' Hin|w' v' Hw].
  - unfold CONSTANTS in Hin. repeat (apply elem_of_cons in Hin as [[= -> ->]|Hin]; [by eexists _, _|]).
    by apply elem_of_nil in Hin.
  - destruct (number_reads_nonempty _ _ Hw) as (c & r & -> & Hc). exists c, r. split; [done|].
    unfold value_start, is_ascii, is_ws, is_ascii_digit in *. lia.
Qed.

Lemma reads_first n w v : reads n w v -> exists c r, w = c :: r /\ value_start c.
Proof.
  intros [? ? ? Hs|? ? ? Hs|? s _|? s it vs _ _|? s _|? s mt kvs _ _]; try by eexists _, _.
  - destruct (scalar_first _ _ Hs) as (c & r & -> & Hc & _). by exists c, r.
  - destruct Hs as (body & codes & -> & _). by eexists _, _.
Qed.

Lemma items_first n it vs : items_read n it vs -> exists c r, it = c :: r /\ value_start c.
Proof. intros [? w v s Hv _|? w v s1 s2 it' vs' Hv _ _ _]; destruct (reads_first _ _ _ Hv) as (c & r & -> & Hc); by eexists _, _. Qed.

Lemma members_first n mt kvs : members_read n mt kvs -> exists r, mt = 34 :: r.
Proof. intros [? kw k s1 s2 et kvs' (body & codes & -> & _) _ _ _]. by eexists. Qed.

Lemma start_stops c s : value_start c -> stops is_ws (c :: s).
Proof. by intros (_ & ? & _). Qed.

Lemma open_complete t1 opener frame s t2 stack :
  text = t1 ++ opener :: s ++ t2 -> is_ascii opener -> ws s -> stops is_ws t2 ->
  (length stack < depth_limit)%nat ->
  open bytes stack frame (after t1) =
  if bool_decide (bytes !! after (t1 ++ opener :: s) = Some (closer (shape frame)))
  then Ok (Some (into_value frame), stack, (after (t1 ++ opener :: s) + 1)%nat) else
  let? (frame, at_) := item_prefix bytes frame (after (t1 ++ opener :: s)) in
  Ok (None, frame :: stack, at_).
Proof.
  intros E Ho Hs Ht Hd. unfold open. rewrite (proj2 (Z.leb_gt _ _)) by (unfold depth_limit in Hd; lia).
  rewrite (after_cons t1 opener Ho), (skip_complete (t1 ++ [opener]) s t2) by (done || same_text).
  replace ((t1 ++ [opener]) ++ s) with (t1 ++ opener :: s) by (by flatten). done.
Qed.

Lemma value_string stack t1 r : text = t1 ++ 34 :: r ->
  value bytes stack (after t1) = let? (text', to) := string bytes (after t1) in Ok (Some (Str text'), stack, to).
Proof. intros E. unfold value, peek. by rewrite (peek_after _ _ _ E). Qed.

Lemma value_array stack t1 r : text = t1 ++ 91 :: r ->
  value bytes stack (after t1) = open bytes stack (FrameArray []) (after t1).
Proof. intros E. unfold value, peek. by rewrite (peek_after _ _ _ E). Qed.

Lemma value_object stack t1 r : text = t1 ++ 123 :: r ->
  value bytes stack (after t1) = open bytes stack (FrameObject object_default) (after t1).
Proof. intros E. unfold value, peek. by rewrite (peek_after _ _ _ E). Qed.

Lemma peek_is_not t1 c t2 k : text = t1 ++ c :: t2 -> is_ascii c -> c <> k -> bytes !! after t1 <> Some k.
Proof. intros E Hc Hk. rewrite (peek_after _ _ _ E Hc). congruence. Qed.

(** After an item, before the closer. *)
Lemma add_close frame frame' v t1 s t2 :
  text = t1 ++ s ++ closer (shape frame) :: t2 -> ws s -> push_item frame v = Some frame' -> shape frame' = shape frame ->
  add bytes frame v (after t1) = Ok (true, frame', after (t1 ++ s ++ [closer (shape frame)])).
Proof.
  intros E Hs Hp Hsh. unfold add. rewrite Hp. cbn [or_panic result_bind]. cbv zeta.
  assert (is_ascii (closer (shape frame)) /\ is_ws (closer (shape frame)) = false) as [Ha Hw] by (by destruct frame).
  rewrite (skip_complete t1 s (closer (shape frame) :: t2)) by done. unfold peek.
  rewrite (peek_after (t1 ++ s) (closer (shape frame)) t2) by (done || same_text).
  rewrite Hsh, Z.eqb_refl, (after_cons _ (closer (shape frame))) by done. do 3 f_equal. by flatten.
Qed.

(** After an item, before a comma and another item. *)
Lemma add_comma frame frame' v t1 s1 s2 c t2 :
  text = t1 ++ s1 ++ 44 :: s2 ++ c :: t2 -> ws s1 -> ws s2 -> value_start c ->
  push_item frame v = Some frame' -> shape frame' = shape frame ->
  add bytes frame v (after t1) =
  let? (frame, at_) := item_prefix bytes frame' (after (t1 ++ s1 ++ 44 :: s2)) in Ok (false, frame, at_).
Proof.
  intros E Hs1 Hs2 Hc Hp Hsh. unfold add. rewrite Hp. cbn [or_panic result_bind]. cbv zeta.
  rewrite (skip_complete t1 s1 (44 :: s2 ++ c :: t2)) by done. unfold peek.
  rewrite (peek_after (t1 ++ s1) 44 (s2 ++ c :: t2)) by (done || same_text).
  assert ((44 =? closer (shape frame')) = false) as -> by (by destruct frame'). change (44 =? 44) with true. cbn iota.
  rewrite (after_cons (t1 ++ s1) 44), (skip_complete ((t1 ++ s1) ++ [44]) s2 (c :: t2)) by (done || same_text || by apply start_stops).
  rewrite bool_decide_eq_false_2.
  - replace (((t1 ++ s1) ++ [44]) ++ s2) with (t1 ++ s1 ++ 44 :: s2) by (by flatten). done.
  - eapply (peek_is_not _ c t2); [same_text|apply Hc|]. destruct Hc as (_ & _ & _ & ? & ?). by destruct frame'.
Qed.

(** The prefix of a member. *)
Lemma item_prefix_complete o t1 kw k s1 s2 t2 :
  text = t1 ++ (kw ++ s1 ++ 58 :: s2) ++ t2 -> string_reads kw k -> ws s1 -> ws s2 -> stops is_ws t2 ->
  item_prefix bytes (FrameObject o) (after t1) =
  Ok (FrameObject {| pairs := pairs o; slots := slots o; key := k |}, after (t1 ++ kw ++ s1 ++ 58 :: s2)).
Proof.
  intros E Hk Hs1 Hs2 Ht. cbn [item_prefix]. pose proof Hk as (body & codes & Ekw & _).
  assert (text = t1 ++ 34 :: body ++ [34] ++ s1 ++ 58 :: s2 ++ t2) as E1 by (rewrite E, Ekw; by flatten).
  unfold require, peek. rewrite (peek_after _ _ _ E1), bool_decide_eq_true_2 by done. clear E1. cbn [result_bind].
  rewrite (string_complete t1 kw k (s1 ++ 58 :: s2 ++ t2)) by (done || same_text). cbn [result_bind]. cbv zeta.
  rewrite (skip_complete (t1 ++ kw) s1 (58 :: s2 ++ t2)) by (done || same_text).
  rewrite (peek_after ((t1 ++ kw) ++ s1) 58 (s2 ++ t2)), bool_decide_eq_true_2 by (done || same_text). cbn [result_bind].
  rewrite (after_cons ((t1 ++ kw) ++ s1) 58), (skip_complete (((t1 ++ kw) ++ s1) ++ [58]) s2 t2) by (done || same_text).
  do 3 f_equal. by flatten.
Qed.

Lemma finish_closed fuel frame frame' stack v t1 s t2 :
  text = t1 ++ s ++ closer (shape frame) :: t2 -> ws s -> push_item frame v = Some frame' -> shape frame' = shape frame ->
  finish fuel (frame :: stack) v (after t1) =
  finish fuel stack (into_value frame') (after (t1 ++ s ++ [closer (shape frame)])).
Proof. intros E Hs Hp Hsh. unfold finish. cbn [close]. by rewrite (add_close frame frame' v t1 s t2). Qed.

Lemma finish_next fuel frame frame' frame'' stack v t1 s1 s2 c t2 to :
  text = t1 ++ s1 ++ 44 :: s2 ++ c :: t2 -> ws s1 -> ws s2 -> value_start c ->
  push_item frame v = Some frame' -> shape frame' = shape frame ->
  item_prefix bytes frame' (after (t1 ++ s1 ++ 44 :: s2)) = Ok (frame'', to) ->
  finish fuel (frame :: stack) v (after t1) = document_loop bytes fuel (frame'' :: stack) to.
Proof.
  intros E Hs1 Hs2 Hc Hp Hsh Hi. unfold finish. cbn [close].
  rewrite (add_comma frame frame' v t1 s1 s2 c t2), Hi by done. done.
Qed.

(** With enough fuel the loop comes to the end of the value. *)
Definition value_runs (n : nat) (w : str) (v : JsonValue) : Prop :=
  forall t1 t2 stack, text = t1 ++ w ++ t2 -> delimited t2 -> (n + length stack)%nat = depth_limit ->
  exists cost, forall fuel,
    document_loop bytes (cost + fuel) stack (after t1) = finish fuel stack v (after (t1 ++ w)).

Definition items_run (n : nat) (it : str) (vs : list JsonValue) : Prop :=
  forall t1 t2 stack xs, text = t1 ++ it ++ 93 :: t2 -> (n + S (length stack))%nat = depth_limit ->
  exists cost, forall fuel,
    document_loop bytes (cost + fuel) (FrameArray xs :: stack) (after t1) =
    finish fuel stack (Array (xs ++ vs)) (after (t1 ++ it ++ [93])).

Definition entry_runs (n : nat) (k : CodePointString) (et : str) (kvs : list (CodePointString * JsonValue)) : Prop :=
  forall t1 t2 stack o, text = t1 ++ et ++ 125 :: t2 -> slots_ok o -> key o = k ->
  (n + S (length stack))%nat = depth_limit ->
  exists cost, forall fuel,
    document_loop bytes (cost + fuel) (FrameObject o :: stack) (after t1) =
    finish fuel stack (Object (put_all (pairs o) kvs)) (after (t1 ++ et ++ [125])).

Definition members_run (n : nat) (mt : str) (kvs : list (CodePointString * JsonValue)) : Prop :=
  forall t1 t2 stack o, text = t1 ++ mt ++ 125 :: t2 -> slots_ok o -> (n + S (length stack))%nat = depth_limit ->
  exists o' to cost, item_prefix bytes (FrameObject o) (after t1) = Ok (FrameObject o', to) /\
    forall fuel, document_loop bytes (cost + fuel) (FrameObject o' :: stack) to =
      finish fuel stack (Object (put_all (pairs o) kvs)) (after (t1 ++ mt ++ [125])).

Lemma run_scalar n w v : scalar_reads w v -> value_runs n w v.
Proof.
  intros Hw t1 t2 stack E Hd _. exists 1%nat. intros fuel. apply document_loop_value.
  destruct (scalar_first _ _ Hw) as (c & r & Ew & (Ha & _) & H1 & H2 & H3).
  assert (text = t1 ++ c :: r ++ t2) as E1 by (rewrite E, Ew; by flatten).
  rewrite value_scalar by (unfold peek; by eapply peek_is_not). clear E1.
  by rewrite (scalar_complete t1 w v t2).
Qed.

Lemma run_string n w text' : string_reads w text' -> value_runs n w (Str text').
Proof.
  intros Hw t1 t2 stack E Hd _. exists 1%nat. intros fuel. apply document_loop_value.
  pose proof Hw as (body & codes & Ew & _).
  rewrite (value_string stack t1 (body ++ [34] ++ t2)) by (rewrite E, Ew; by flatten).
  by rewrite (string_complete t1 w text' t2).
Qed.

(** An empty container is a value at once. *)
Lemma run_empty n s opener frame :
  ws s -> frame = FrameArray [] /\ opener = 91 \/ frame = FrameObject object_default /\ opener = 123 ->
  value_runs (S n) (opener :: s ++ [closer (shape frame)]) (into_value frame).
Proof.
  intros Hs Hf t1 t2 stack E Hd Hn. exists 1%nat. intros fuel. apply document_loop_value.
  assert (is_ascii (closer (shape frame)) /\ is_ws (closer (shape frame)) = false) as [Ha Hw] by (by destruct frame).
  assert (value bytes stack (after t1) = open bytes stack frame (after t1)) as ->.
  { destruct Hf as [[-> ->]|[-> ->]]; [eapply value_array|eapply value_object]; rewrite E; by flatten. }
  rewrite (open_complete t1 opener frame s (closer (shape frame) :: t2) stack); [|same_text| |done|done|lia].
  2:{ destruct Hf as [[-> ->]|[-> ->]]; done. }
  assert (text = (t1 ++ opener :: s) ++ closer (shape frame) :: t2) as E1 by same_text.
  rewrite (peek_after _ _ _ E1 Ha), bool_decide_eq_true_2 by done.
  rewrite (after_cons _ (closer (shape frame))) by done. by rewrite <-app_assoc.
Qed.

Lemma run_items_one n w v s : reads n w v -> value_runs n w v -> ws s -> items_run n (w ++ s) [v].
Proof.
  intros _ IH Hs t1 t2 stack xs E Hn.
  destruct (IH t1 (s ++ 93 :: t2) (FrameArray xs :: stack)) as [cost Hc]; [same_text|by apply delimited_ws|done|].
  exists cost. intros fuel. rewrite Hc.
  rewrite (finish_closed fuel (FrameArray xs) (FrameArray (xs ++ [v])) stack v (t1 ++ w) s t2) by (done || same_text).
  cbn. do 2 f_equal. by flatten.
Qed.

Lemma run_items_more n w v s1 s2 it vs :
  reads n w v -> value_runs n w v -> ws s1 -> ws s2 -> items_read n it vs -> items_run n it vs ->
  items_run n (w ++ s1 ++ 44 :: s2 ++ it) (v :: vs).
Proof.
  intros _ IH Hs1 Hs2 Hit IHit t1 t2 stack xs E Hn.
  destruct (IH t1 (s1 ++ 44 :: s2 ++ it ++ 93 :: t2) (FrameArray xs :: stack)) as [c1 Hc1];
    [same_text|by apply delimited_ws|done|].
  destruct (IHit ((t1 ++ w) ++ s1 ++ 44 :: s2) t2 stack (xs ++ [v])) as [c2 Hc2]; [same_text|done|].
  exists (c1 + c2)%nat. intros fuel. rewrite <-Nat.add_assoc, Hc1.
  destruct (items_first _ _ _ Hit) as (c & r & -> & Hc).
  rewrite (finish_next (c2 + fuel) (FrameArray xs) (FrameArray (xs ++ [v])) (FrameArray (xs ++ [v])) stack v
    (t1 ++ w) s1 s2 c (r ++ 93 :: t2) (after ((t1 ++ w) ++ s1 ++ 44 :: s2))) by (done || same_text).
  rewrite Hc2, <-app_assoc. cbn [app]. do 2 f_equal. by flatten.
Qed.

Lemma run_entry_one n k w v s : reads n w v -> value_runs n w v -> ws s -> entry_runs n k (w ++ s) [(k, v)].
Proof.
  intros _ IH Hs t1 t2 stack o E Ho Hk Hn.
  destruct (IH t1 (s ++ 125 :: t2) (FrameObject o :: stack)) as [cost Hc]; [same_text|by apply delimited_ws|done|].
  exists cost. intros fuel. rewrite Hc. destruct (insert_spec o v Ho) as (o' & Hi & _ & Hp).
  rewrite (finish_closed fuel (FrameObject o) (FrameObject o') stack v (t1 ++ w) s t2);
    [|same_text|done|cbn; by rewrite Hi|done].
  cbn. rewrite Hp, Hk. do 2 f_equal. by flatten.
Qed.

Lemma run_entry_more n k w v s1 s2 mt kvs :
  reads n w v -> value_runs n w v -> ws s1 -> ws s2 -> members_read n mt kvs -> members_run n mt kvs ->
  entry_runs n k (w ++ s1 ++ 44 :: s2 ++ mt) ((k, v) :: kvs).
Proof.
  intros _ IH Hs1 Hs2 Hmt IHmt t1 t2 stack o E Ho Hk Hn.
  destruct (IH t1 (s1 ++ 44 :: s2 ++ mt ++ 125 :: t2) (FrameObject o :: stack)) as [c1 Hc1];
    [same_text|by apply delimited_ws|done|].
  destruct (insert_spec o v Ho) as (o' & Hi & Ho' & Hp).
  destruct (IHmt ((t1 ++ w) ++ s1 ++ 44 :: s2) t2 stack o') as (o'' & to & c2 & Hpre & Hc2); [same_text|done|done|].
  exists (c1 + c2)%nat. intros fuel. rewrite <-Nat.add_assoc, Hc1.
  destruct (members_first _ _ _ Hmt) as (r & ->).
  rewrite (finish_next (c2 + fuel) (FrameObject o) (FrameObject o') (FrameObject o'') stack v
    (t1 ++ w) s1 s2 34 (r ++ 125 :: t2) to); [|same_text|done|done|done|cbn; by rewrite Hi|done|done].
  rewrite Hc2, Hp, Hk. cbn. do 2 f_equal. by flatten.
Qed.

Lemma run_members n kw k s1 s2 et kvs :
  string_reads kw k -> ws s1 -> ws s2 -> entry_reads n k et kvs -> entry_runs n k et kvs ->
  members_run n (kw ++ s1 ++ 58 :: s2 ++ et) kvs.
Proof.
  intros Hk Hs1 Hs2 Het IH t1 t2 stack o E Ho Hn.
  set (o' := {| pairs := pairs o; slots := slots o; key := k |}).
  destruct (IH (t1 ++ kw ++ s1 ++ 58 :: s2) t2 stack o') as [cost Hc]; [same_text|done|done|done|].
  assert (exists c r, et = c :: r /\ value_start c) as (c & r & -> & Hstart).
  { destruct Het as [? ? w v s Hv _|? ? w v ? ? ? ? Hv _ _ _]; destruct (reads_first _ _ _ Hv) as (c & r & -> & Hst); by eexists _, _. }
  exists o', (after (t1 ++ kw ++ s1 ++ 58 :: s2)), cost. split.
  - apply (item_prefix_complete o t1 kw k s1 s2 ((c :: r) ++ 125 :: t2)); [same_text|done|done|done|by apply start_stops].
  - intros fuel. rewrite Hc. do 2 f_equal. by flatten.
Qed.

Lemma run_array n s it vs : ws s -> items_read n it vs -> items_run n it vs -> value_runs (S n) (91 :: s ++ it ++ [93]) (Array vs).
Proof.
  intros Hs Hit IH t1 t2 stack E Hd Hn. destruct (items_first _ _ _ Hit) as (c & r & -> & Hc).
  destruct (IH (t1 ++ 91 :: s) t2 stack []) as [cost Hcost]; [same_text|lia|].
  exists (S cost). intros fuel. cbn [Nat.add]. rewrite (document_loop_open _ _ _ (FrameArray []) (after (t1 ++ 91 :: s))).
  - rewrite Hcost. cbn [app]. do 2 f_equal. by flatten.
  - rewrite (value_array stack t1 (s ++ (c :: r) ++ [93] ++ t2)) by same_text.
    rewrite (open_complete t1 91 (FrameArray []) s ((c :: r) ++ 93 :: t2) stack);
      [|same_text|done|done|by apply start_stops|lia].
    rewrite bool_decide_eq_false_2; [done|]. eapply (peek_is_not _ c); [same_text|apply Hc|]. by destruct Hc as (_ & _ & _ & ? & _).
Qed.

Lemma run_object n s mt kvs :
  ws s -> members_read n mt kvs -> members_run n mt kvs ->
  value_runs (S n) (123 :: s ++ mt ++ [125]) (Object (put_all [] kvs)).
Proof.
  intros Hs Hmt IH t1 t2 stack E Hd Hn. destruct (members_first _ _ _ Hmt) as (r & ->).
  destruct (IH (t1 ++ 123 :: s) t2 stack object_default) as (o' & to & cost & Hpre & Hcost); [same_text| |lia|].
  { intros k i. cbn. by rewrite lookup_empty, lookup_nil. }
  exists (S cost). intros fuel. cbn [Nat.add]. rewrite (document_loop_open _ _ _ (FrameObject o') to).
  - rewrite Hcost. cbn [app]. do 2 f_equal. by flatten.
  - rewrite (value_object stack t1 (s ++ (34 :: r) ++ [125] ++ t2)) by same_text.
    rewrite (open_complete t1 123 (FrameObject object_default) s ((34 :: r) ++ 125 :: t2) stack);
      [|same_text|done|done|done|lia].
    rewrite bool_decide_eq_false_2; [by rewrite Hpre|]. by eapply (peek_is_not _ 34); [same_text|..].
Qed.

Lemma reads_run :
  (forall n w v, reads n w v -> value_runs n w v) /\ (forall n it vs, items_read n it vs -> items_run n it vs) /\
  (forall n mt kvs, members_read n mt kvs -> members_run n mt kvs) /\
  (forall n k et kvs, entry_reads n k et kvs -> entry_runs n k et kvs).
Proof.
  apply reads_mutind; intros.
  - by apply run_scalar.
  - by apply run_string.
  - by apply (run_empty n s 91 (FrameArray [])); auto.
  - by apply run_array.
  - by apply (run_empty n s 123 (FrameObject object_default)); auto.
  - by apply run_object.
  - by apply run_items_one.
  - by apply run_items_more.
  - by eapply run_members.
  - by apply run_entry_one.
  - by apply run_entry_more.
Qed.

(** ** The document *)

Lemma document_loop_mono fuel k stack at_ :
  document_loop bytes fuel stack at_ <> Err OutOfFuel ->
  document_loop bytes (k + fuel) stack at_ = document_loop bytes fuel stack at_.
Proof.
  revert stack at_. induction fuel as [|fuel IH]; intros stack at_ H; [done|]. rewrite Nat.add_succ_r.
  cbn [document_loop] in *. destruct (value bytes stack at_) as [[[ov st] to]|e]; [|done]. cbn [result_bind] in *.
  destruct ov as [v|]; [|by apply IH]. destruct (close bytes st v to) as [[[od st'] to']|e]; [|done].
  cbn [result_bind] in *. destruct od; [done|by apply IH].
Qed.

Lemma document_complete t1 w v t2 :
  text = t1 ++ w ++ t2 -> reads depth_limit w v -> delimited t2 ->
  document bytes (after t1) = Ok (v, after (t1 ++ w)).
Proof.
  intros E Hw Hd. destruct (proj1 reads_run _ _ _ Hw t1 t2 [] E Hd) as [cost Hc]; [cbn; lia|].
  specialize (Hc (S (length bytes))). unfold finish in Hc at 1. cbn [close result_bind] in Hc. unfold document.
  rewrite <-Hc. symmetry. apply document_loop_mono.
  pose proof (document_loop_sound (S (length bytes)) _ [] [] _ _ _ stack_nil (after_stands _ _ E) ltac:(lia)) as Hs.
  intros Hf. by rewrite Hf in Hs.
Qed.

Lemma parse_complete v : text_reads text v -> parse text = Ok v.
Proof.
  intros (s1 & w & s2 & E & Hs1 & Hs2 & Hw). unfold parse. cbv zeta.
  destruct (reads_first _ _ _ Hw) as (c & r & Ew & Hc).
  assert (starts_with [BOM] text = false) as ->.
  { apply starts_with_false. intros [k Hk]. rewrite E in Hk. destruct Hs1 as [|x s1 Hx _].
    - rewrite Ew in Hk. injection Hk as -> _. destruct Hc as [Ha _]. unfold is_ascii, BOM in Ha. lia.
    - injection Hk as -> _. apply is_ws_ascii in Hx. unfold is_ascii, BOM in Hx. lia. }
  assert (text = [] ++ s1 ++ w ++ s2) as E0 by done. change 0%nat with (after []).
  rewrite (skip_complete [] s1 (w ++ s2) E0 Hs1) by (rewrite Ew; by apply start_stops). cbn [app].
  rewrite (document_complete s1 w v s2) by (done || (rewrite <-(app_nil_r s2); by apply delimited_ws)).
  cbn [result_bind]. assert (text = (s1 ++ w) ++ s2 ++ []) as E2 by (rewrite E; by flatten; rewrite app_nil_r).
  rewrite (skip_complete (s1 ++ w) s2 [] E2 Hs2) by done.
  assert (after ((s1 ++ w) ++ s2) = length bytes) as -> by (unfold after; rewrite E; by flatten).
  by rewrite Nat.ltb_irrefl.
Qed.

Lemma parse_sound : outcome (parse text) (text_reads text).
Proof.
  unfold parse. cbv zeta. pose proof (stands_start) as H0. destruct (starts_with [BOM] text); [by eapply outcome_error|].
  destruct (skip_ws_spec _ _ _ H0) as (s1 & t2 & E & Hs1 & _ & H1). cbn [app] in H1.
  eapply outcome_bind.
  { eapply (document_loop_sound _ _ _ _ _ _ _ stack_nil H1). lia. }
  intros [v to] _ (w & t3 & -> & H2 & Hv). cbn [fst snd app] in *.
  destruct (skip_ws_spec _ _ _ H2) as (s2 & t4 & -> & Hs2 & _ & H3).
  destruct (Nat.ltb_spec (skip_whitespace bytes to) (length bytes)) as [|Hge]; [by eapply outcome_error|].
  pose proof (stands_length _ _ _ H3) as Hlen. destruct t4 as [|c t4].
  - exists s1, w, s2. by rewrite app_nil_r in E.
  - exfalso. destruct (stands_str _ _ _ H3) as [_ Hs]. apply Forall_cons in Hs as [Hc _].
    rewrite as_bytes_cons, length_app in Hlen. pose proof (encode_length c Hc). lia.
Qed.
End Reading.

(** * What [parse] does *)

(** C12: [parse] returns a value exactly when the text is one JSON value of that grammar, with
    optional whitespace around it and containers nested at most 9998 deep, and it returns the
    value that the grammar gives the text. *)
Theorem parse_grammar text v (Htext : is_str text) : parse text = Ok v <-> text_reads text v.
Proof.
  split; [|by apply parse_complete]. intros E. pose proof (parse_sound text Htext) as Hs. by rewrite E in Hs.
Qed.

Lemma parse_grammar_witness :
  is_str (lit "[1, {}]") /\ text_reads (lit "[1, {}]") (Array [Int (lit "1"); Object []]).
Proof.
  assert (is_str (lit "[1, {}]")) as H by (repeat constructor).
  split; [exact H|]. apply (parse_grammar _ _ H). vm_compute. reflexivity.
Defined.

(** C13: [parse] ends on every text, without a panic.  What it refuses is no JSON text, and the
    refusal names characters that start the text: their number, the line they end on and the
    column after them. *)
Theorem parse_total text (Htext : is_str text) :
  match parse text with
  | Ok v => text_reads text v
  | Err (Refused e) =>
      (forall v, ~ text_reads text v) /\
      exists k before rest, text = before ++ rest /\ e = error_of k before
  | Err _ => False
  end.
Proof.
  pose proof (parse_sound text Htext) as Hs. destruct (parse text) as [v|[e| |]] eqn:E; try done.
  destruct Hs as (k & t1 & t2 & Et & ->). split; [|by exists k, t1, t2].
  intros v Hv. apply (parse_complete text Htext) in Hv. by rewrite E in Hv.
Qed.

Lemma parse_total_witness :
  is_str (lit "[1,]") /\
  exists k before rest, lit "[1,]" = before ++ rest /\
    {| kind := ArrayTrailingComma; pos := 2; line := 1; column := 3 |} = error_of k before.
Proof.
  assert (is_str (lit "[1,]")) as H by (repeat constructor).
  split; [exact H|]. exact (proj2 (parse_total _ H)).
Defined.

(** ** Dropping a value *)

(** The values in a value, itself among them. *)
Fixpoint nodes (v : JsonValue) : nat :=
  match v with
  | Array items => S ((fix go l := match l with [] => 0 | x :: l' => nodes x + go l' end) items)%nat
  | Object ps => S ((fix go l := match l with [] => 0 | (_, x) :: l' => nodes x + go l' end) ps)%nat
  | _ => 1%nat
  end.

Lemma nodes_children v pending :
  (sum_list_with nodes (take_children v pending).2 + 1 = nodes v + sum_list_with nodes pending)%nat.
Proof.
  destruct v as [| | | | |items|ps]; cbn [take_children snd]; try (cbn; lia).
  - rewrite sum_list_with_app. cbn [nodes].
    assert (sum_list_with nodes items = (fix go l := match l with [] => 0 | x :: l' => nodes x + go l' end) items)%nat as ->; [|lia].
    induction items as [|x l IH]; [done|]. cbn [sum_list_with]. by rewrite IH.
  - rewrite sum_list_with_app. cbn [nodes].
    assert (sum_list_with nodes (snd <$> ps) = (fix go l := match l with [] => 0 | (_, x) :: l' => nodes x + go l' end) ps)%nat as ->; [|lia].
    induction ps as [|[k x] l IH]; [done|]. rewrite fmap_cons. cbn [sum_list_with snd]. by rewrite IH.
Qed.

(** No value of the list holds another. *)
Definition childless (v : JsonValue) : Prop := nodes v = 1%nat.

Lemma take_children_childless v pending : childless (take_children v pending).1.
Proof. by destruct v. Qed.

(** Dropping a value ends, and drops every value in it exactly once, each after its children
    were moved out of it, so no drop recurses. *)
Theorem drop_flat value :
  exists dropped,
    drop_loop (nodes value) (take_children value []).2 [] = Some dropped /\
    length dropped = pred (nodes value) /\ Forall childless dropped.
Proof.
  assert (forall fuel pending dropped, (sum_list_with nodes pending < fuel)%nat -> Forall childless dropped ->
    exists more, drop_loop fuel pending dropped = Some (dropped ++ more) /\
      length more = sum_list_with nodes pending /\ Forall childless (dropped ++ more)) as Hloop.
  { induction fuel as [|fuel IH]; intros pending dropped Hf Hd; [lia|]. cbn [drop_loop].
    destruct pending as [|child rest _] using rev_ind.
    - exists []. cbn. by rewrite app_nil_r.
    - rewrite last_snoc, length_app, Nat.add_1_r. cbn [pred]. rewrite take_app_length.
      pose proof (nodes_children child rest) as Hn. pose proof (take_children_childless child rest) as Hc.
      destruct (take_children child rest) as [child' pending']. cbn [fst snd] in *.
      rewrite sum_list_with_app in Hf |- *. cbn [sum_list_with] in *.
      destruct (IH pending' (dropped ++ [child'])) as (more & -> & Hl & Hall); [lia| |].
      { apply Forall_app. split; [done|]. by apply Forall_singleton. }
      exists (child' :: more). rewrite <-app_assoc in *. split; [done|]. split; [cbn; lia|done]. }
  pose proof (nodes_children value []) as Hn. cbn [sum_list_with] in Hn.
  destruct (Hloop (nodes value) (take_children value []).2 []) as (more & E & Hl & Hall); [lia|done|].
  exists more. split; [done|]. split; [lia|done].
Qed.
