(* ===== verification/JsonWrite.v ===== *)
(** Values written as text: crates/json/src/write.rs.

    [value_text] and [repr_text] share a work stack; the spellings that differ are the
    [Notation_] class.  [value_text_roundtrip] ties the writer to the parser of JsonParse.v.
    [Formatter] is the layout that serde_json drives, against a declarative layout of trees;
    the events serde_json sends are its parameter. *)

From Stdlib Require Import Floats.SpecFloat Strings.String.
From S2P Require Import Prelude RustStr Ordered Unicode Text CodePoints Utf8 JsonFloat JsonParse JsonSpec.
Local Open Scope Z_scope.

(** * The two notations *)

(** [float] is [None] at the panic of an [expect]. *)
Class Notation_ := {
  NULL : str;
  TRUE : str;
  FALSE : str;
  float : spec_float -> option str;
  string : str -> CodePointString -> str
}.

Definition float_value (x : spec_float) : option str :=
  if is_nan x then Some (lit "NaN")
  else if is_infinite x then Some (if negb (is_sign_negative x) then lit "Infinity" else lit "-Infinity")
  else float_text x.

Definition short_escape (code : Z) : option str :=
  if code =? 0x22 then Some [92; 34]
  else if code =? 0x5C then Some [92; 92]
  else if code =? 0x08 then Some (lit "\b")
  else if code =? 0x0C then Some (lit "\f")
  else if code =? 0x0A then Some (lit "\n")
  else if code =? 0x0D then Some (lit "\r")
  else if code =? 0x09 then Some (lit "\t")
  else None.

Definition push_unit (text : str) (unit : Z) : str := text ++ lit "\u" ++ hex_padded 4 unit.

Definition push_code_point (text : str) (code : Z) : str :=
  match short_escape code with
  | Some escape => text ++ escape
  | None =>
      if is_scalar code && ((32 <=? code) && (code <=? 126)) then text ++ [code]
      else if 0x10000 <=? code then
        let above := code - 0x10000 in
        let text := push_unit text (Z.lor 0xD800 (Z.shiftr above 10)) in
        push_unit text (Z.lor 0xDC00 (Z.land above 0x3FF))
      else push_unit text code
  end.

Definition push_string (text : str) (string : CodePointString) : str :=
  let text := text ++ [34] in
  let text := fold_left push_code_point (code_points string) text in
  text ++ [34].

#[export] Instance JsonText : Notation_ := {|
  NULL := lit "null"; TRUE := lit "true"; FALSE := lit "false";
  float := float_value;
  string := push_string
|}.

#[export] Instance Repr : Notation_ := {|
  NULL := lit "None"; TRUE := lit "True"; FALSE := lit "False";
  float := float_text;
  string text s := text ++ quoted s
|}.

(** * The work stack *)

Inductive Step :=
| StepText (raw : str)
| StepKey (key : CodePointString)
| StepValue (value : JsonValue).

(** The stack's top is the head of the list. [Vec::push] and [Vec::extend]. *)
Definition push_all (pending : list Step) (steps : list Step) : list Step :=
  fold_left (fun pending step => step :: pending) steps pending.

(** One round of the loop of [push_items]. *)
Definition push_indexed (pending : list Step) (indexed : nat * list Step) : list Step :=
  let '(index, steps) := indexed in
  let pending := push_all pending (rev steps) in
  if (0 <? index)%nat then StepText (lit ", ") :: pending else pending.

Definition push_items (pending : list Step) (closer : str) (items : list (list Step)) : list Step :=
  fold_left push_indexed (rev (combine (seq 0 (length items)) items)) (StepText closer :: pending).

Definition push_value (n : Notation_) (text : str) (value : JsonValue) (pending : list Step)
  : option (str * list Step) :=
  match value with
  | Null => Some (text ++ NULL, pending)
  | Bool true => Some (text ++ TRUE, pending)
  | Bool false => Some (text ++ FALSE, pending)
  | Int digits => Some (text ++ digits, pending)
  | Float x => t ← float x; Some (text ++ t, pending)
  | Str s => Some (string text s, pending)
  | Array items =>
      Some (text ++ lit "[", push_items pending (lit "]") ((fun item => [StepValue item]) <$> items))
  | Object pairs =>
      Some (text ++ lit "{", push_items pending (lit "}")
        ((fun '(key, item) => [StepKey key; StepText (lit ": "); StepValue item]) <$> pairs))
  end.

(** The loop of [written]; [None] is a panic, or fuel that ran out, which [written_spec] excludes. *)
Fixpoint written_loop (fuel : nat) (n : Notation_) (text : str) (pending : list Step) : option str :=
  match fuel, pending with
  | _, [] => Some text
  | O, _ :: _ => None
  | S fuel', step :: pending =>
      match step with
      | StepText raw => written_loop fuel' n (text ++ raw) pending
      | StepKey key => written_loop fuel' n (string text key) pending
      | StepValue value =>
          '(text, pending) ← push_value n text value pending; written_loop fuel' n text pending
      end
  end.

(** Every value takes one round, and at most four more for its key, its separators and its
    closer. *)
Definition written (n : Notation_) (value : JsonValue) : option str :=
  written_loop (5 * nodes value) n [] [StepValue value].

Definition value_text (value : JsonValue) : option str := written JsonText value.
Definition repr_text (value : JsonValue) : option str := written Repr value.

(** * The serde_json formatter *)

Inductive JsonForm := Indented | Compact | Packed.

#[export] Instance JsonForm_eq_dec : EqDecision JsonForm.
Proof. solve_decision. Defined.

Module Formatter.

Record JsonFormatter := {
  separator : str;
  key_separator : str;
  line_breaks : bool;
  depth : nat;
  has_value : bool
}.

Definition new (form : JsonForm) : JsonFormatter :=
  let '(sep, key_sep, breaks) :=
    match form with
    | Indented => (lit ",", lit ": ", true)
    | Compact => (lit ", ", lit ": ", false)
    | Packed => (lit ",", lit ":", false)
    end in
  {| separator := sep; key_separator := key_sep; line_breaks := breaks; depth := 0; has_value := false |}.

(** Each event appends to the writer and changes the state; [None] is the overflow of [depth]. *)
Definition with_state (f : JsonFormatter) (d : nat) (v : bool) : JsonFormatter :=
  {| separator := separator f; key_separator := key_separator f; line_breaks := line_breaks f;
     depth := d; has_value := v |}.

Definition break_line (f : JsonFormatter) : str := lit "
" ++ concat (replicate (depth f) (lit "  ")).

Definition open (f : JsonFormatter) (opener : str) : JsonFormatter * str :=
  (with_state f (S (depth f)) false, opener).

Definition close (f : JsonFormatter) (closer : str) : option (JsonFormatter * str) :=
  match depth f with
  | O => None
  | S d =>
      let broken := if line_breaks f && has_value f then break_line (with_state f d (has_value f)) else [] in
      Some (with_state f d true, broken ++ closer)
  end.

Definition begin_item (f : JsonFormatter) (first : bool) : JsonFormatter * str :=
  let f := with_state f (depth f) true in
  (f, (if negb first then separator f else []) ++ if line_breaks f then break_line f else []).

(** [write_string_fragment]: printable ASCII as it is, any other character as its UTF-16 units. *)
Definition encode_utf16 (c : char) : list Z :=
  if c <? 0x10000 then [c] else [0xD800 + (c - 0x10000) / 1024; 0xDC00 + (c - 0x10000) mod 1024].

Definition fragment_char (c : char) : str :=
  if (32 <=? c) && (c <=? 126) then [c]
  else concat ((fun unit => lit "\u" ++ hex_padded 4 unit) <$> encode_utf16 c).
Definition write_string_fragment (fragment : str) : str := concat (fragment_char <$> fragment).

Definition write_f64 (value : spec_float) : option str := float_text value.

(** The calls of a serializer; [Raw] is what it writes without the layout: a scalar's text. *)
Inductive event :=
| begin_array | end_array | begin_object | end_object
| begin_array_value (first : bool) | begin_object_key (first : bool) | begin_object_value
| Raw (text : str).

Definition handle (f : JsonFormatter) (e : event) : option (JsonFormatter * str) :=
  match e with
  | begin_array => Some (open f (lit "["))
  | end_array => close f (lit "]")
  | begin_object => Some (open f (lit "{"))
  | end_object => close f (lit "}")
  | begin_array_value first | begin_object_key first => Some (begin_item f first)
  | begin_object_value => Some (f, key_separator f)
  | Raw text => Some (f, text)
  end.

Fixpoint run (f : JsonFormatter) (events : list event) : option (JsonFormatter * str) :=
  match events with
  | [] => Some (f, [])
  | e :: rest =>
      '(f, out) ← handle f e;
      '(f, more) ← run f rest;
      Some (f, out ++ more)
  end.

(** A [serde_json::Value] as the formatter and [Sorted] see it: its scalars are the text they
    are written as. *)
Inductive tree :=
| Scalar (text : str)
| List (items : list tree)
| Map (entries : list (str * tree)).

(** [str::cmp]: the order of the UTF-8 bytes. *)
Definition key_le (left right : str * tree) : bool := bytes_le (as_bytes left.1) (as_bytes right.1).

(** [Sorted]: the entries of every object in the order of their keys. *)
Fixpoint sorted (t : tree) : tree :=
  match t with
  | Scalar text => Scalar text
  | List items => List (map sorted items)
  | Map entries => Map (sort_by key_le (map (fun '(k, v) => (k, sorted v)) entries))
  end.

Section ToText.
(** The events that serde_json sends for a value. *)
Variable serialize : tree -> list event.

Definition to_text (value : tree) (form : JsonForm) : option str :=
  let value := if bool_decide (form = Packed) then sorted value else value in
  snd <$> run (new form) (serialize value).
End ToText.
End Formatter.

(** * What is written *)

(** What [written] needs of a notation. *)
Class NotationLaws (n : Notation_) := {
  float_total x : exists t, float x = Some t;
  string_appends text s : string text s = text ++ string [] s
}.

Lemma float_text_total x : exists t, float_text x = Some t.
Proof.
  destruct x as [s|s| |s m e]; [by destruct s; eexists|by destruct s; eexists|by eexists|].
  destruct (float_text_finite s m e) as (t & _ & _ & _ & Ht & _). by exists t.
Qed.

Lemma float_value_total x : exists t, float_value x = Some t.
Proof.
  unfold float_value. destruct (is_nan x); [by eexists|]. destruct (is_infinite x); [by eexists|]. apply float_text_total.
Qed.

Lemma push_unit_appends text u : push_unit text u = text ++ push_unit [] u.
Proof. done. Qed.

Lemma push_code_point_appends text c : push_code_point text c = text ++ push_code_point [] c.
Proof.
  unfold push_code_point. destruct (short_escape c); [done|]. destruct (_ && _); [done|]. destruct (_ <=? _); [|done].
  rewrite (push_unit_appends (push_unit text _)), (push_unit_appends text), (push_unit_appends (push_unit [] _)).
  by rewrite app_assoc.
Qed.

Lemma push_codes_append codes text :
  fold_left push_code_point codes text = text ++ concat (push_code_point [] <$> codes).
Proof.
  revert text. induction codes as [|c codes IH]; intros text; cbn [fold_left]; [by rewrite app_nil_r|].
  by rewrite IH, push_code_point_appends, <-app_assoc.
Qed.

Lemma push_string_eq text s :
  push_string text s = text ++ 34 :: concat (push_code_point [] <$> code_points s) ++ [34].
Proof. unfold push_string. cbv zeta. rewrite push_codes_append, <-!app_assoc. done. Qed.

#[export] Instance JsonText_laws : NotationLaws JsonText.
Proof. split; [apply float_value_total|]. intros text s. cbn. by rewrite (push_string_eq text), (push_string_eq []). Qed.

#[export] Instance Repr_laws : NotationLaws Repr.
Proof. split; [apply float_text_total|done]. Qed.

Section Written.
Context (n : Notation_) `{!NotationLaws n}.

(** The text of a value, by its structure. *)
Fixpoint text_of (v : JsonValue) : str :=
  match v with
  | Null => NULL
  | Bool b => if b then TRUE else FALSE
  | Int digits => digits
  | Float x => default [] (float x)
  | Str s => string [] s
  | Array items => lit "[" ++ join_with (lit ", ") (map text_of items) ++ lit "]"
  | Object ps =>
      lit "{" ++ join_with (lit ", ") (map (fun kv => string [] kv.1 ++ lit ": " ++ text_of kv.2) ps) ++ lit "}"
  end.

Definition step_text (step : Step) : str :=
  match step with StepText raw => raw | StepKey key => string [] key | StepValue v => text_of v end.

Definition step_weight (step : Step) : nat :=
  match step with StepValue v => 5 * nodes v - 3 | _ => 1 end.

Lemma push_all_rev pending steps : push_all pending (rev steps) = steps ++ pending.
Proof.
  unfold push_all. rewrite <-fold_left_rev_right, rev_involutive.
  induction steps as [|x steps IH]; [done|]. cbn. by rewrite IH.
Qed.

(** The items come off the stack in their order, a separator between them, and the closer last. *)
Lemma push_items_eq pending closer items :
  push_items pending closer items = join_with [StepText (lit ", ")] items ++ StepText closer :: pending.
Proof.
  unfold push_items. rewrite <-fold_left_rev_right, rev_involutive.
  generalize (StepText closer :: pending). intros st.
  assert (forall i its,
    fold_right (fun x pending => push_indexed pending x) st (combine (seq (S i) (length its)) its) =
    match its with [] => st | _ => StepText (lit ", ") :: join_with [StepText (lit ", ")] its ++ st end) as Hgen.
  { intros i its. revert i. induction its as [|x its IH]; intros i; [done|]. cbn [length seq combine fold_right].
    rewrite IH. cbn [push_indexed]. rewrite push_all_rev. cbn [Nat.ltb Nat.leb]. destruct its as [|y its]; [done|].
    rewrite (join_with_cons _ x (y :: its)) by done. by rewrite <-!app_assoc. }
  destruct items as [|x items]; [done|]. cbn [length seq combine fold_right].
  rewrite Hgen. cbn [push_indexed]. rewrite push_all_rev. cbn [Nat.ltb Nat.leb]. destruct items as [|y items]; [done|].
  rewrite (join_with_cons _ x (y :: items)) by done. by rewrite <-!app_assoc.
Qed.

(** Joined steps write the joined texts. *)
Lemma join_texts (items : list (list Step)) :
  concat (step_text <$> join_with [StepText (lit ", ")] items) =
  join_with (lit ", ") (map (fun steps => concat (step_text <$> steps)) items).
Proof.
  induction items as [|x items IH]; [done|]. destruct items as [|y items]; [done|].
  rewrite (join_with_cons _ x (y :: _)) by done. rewrite !fmap_app, !concat_app, IH. cbn [map].
  by rewrite (join_with_cons (lit ", ") (concat (step_text <$> x))) by done.
Qed.

Lemma join_weight (items : list (list Step)) :
  (sum_list_with step_weight (join_with [StepText (lit ", ")] items) <=
   sum_list_with (fun steps => S (sum_list_with step_weight steps)) items)%nat.
Proof.
  induction items as [|x items IH]; [done|]. destruct items as [|y items]; [cbn; lia|].
  rewrite (join_with_cons _ x (y :: _)) by done. rewrite !sum_list_with_app. cbn [sum_list_with step_weight] in *. lia.
Qed.

Lemma nodes_pos v : (1 <= nodes v)%nat.
Proof. destruct v; cbn; lia. Qed.

Lemma array_weight items :
  (sum_list_with (fun steps => S (sum_list_with step_weight steps)) ((fun item => [StepValue item]) <$> items) + 1 <=
   5 * nodes (Array items) - 4)%nat.
Proof.
  pose proof (nodes_children (Array items) []) as Hn. cbn [take_children snd sum_list_with app] in Hn.
  assert (sum_list_with (fun steps => S (sum_list_with step_weight steps)) ((fun item => [StepValue item]) <$> items) <=
    5 * sum_list_with nodes items)%nat; [|lia].
  clear Hn. induction items as [|x items IH]; [done|]. rewrite fmap_cons. cbn [sum_list_with step_weight].
  pose proof (nodes_pos x). lia.
Qed.

Lemma object_weight (ps : list (CodePointString * JsonValue)) :
  (sum_list_with (fun steps => S (sum_list_with step_weight steps))
     ((fun '(key, item) => [StepKey key; StepText (lit ": "); StepValue item]) <$> ps) + 1 <=
   5 * nodes (Object ps) - 4)%nat.
Proof.
  pose proof (nodes_children (Object ps) []) as Hn. cbn [take_children snd sum_list_with app] in Hn.
  assert (sum_list_with (fun steps => S (sum_list_with step_weight steps))
     ((fun '(key, item) => [StepKey key; StepText (lit ": "); StepValue item]) <$> ps) <=
    5 * sum_list_with nodes (snd <$> ps))%nat; [|lia].
  clear Hn. induction ps as [|[k x] ps IH]; [done|]. rewrite !fmap_cons. cbn [sum_list_with step_weight snd].
  pose proof (nodes_pos x). lia.
Qed.

(** One value step replaces the value by its pieces. *)
Lemma push_value_spec text v pending :
  exists text' pending', push_value n text v pending = Some (text', pending') /\
    text' ++ concat (step_text <$> pending') = text ++ text_of v ++ concat (step_text <$> pending) /\
    (sum_list_with step_weight pending' < step_weight (StepValue v) + sum_list_with step_weight pending)%nat.
Proof.
  pose proof (nodes_pos v) as Hpos. destruct v as [|b|ds|x|s|items|ps].
  1: eexists _, _; cbn; split; [done|]; split; [by rewrite <-app_assoc|lia].
  1: destruct b; eexists _, _; cbn; (split; [done|]); split; [by rewrite <-app_assoc|lia|by rewrite <-app_assoc|lia].
  1: eexists _, _; cbn; split; [done|]; split; [by rewrite <-app_assoc|lia].
  1: destruct (float_total x) as [t Ht]; cbn; rewrite Ht; eexists _, _; split; [done|]; split; [by rewrite <-app_assoc|lia].
  1: eexists _, _; cbn [push_value]; split; [done|]; split; [by rewrite string_appends, <-app_assoc|cbn; lia].
  - eexists _, _. cbn [push_value]. split; [done|]. rewrite push_items_eq. split.
    + rewrite fmap_app, concat_app, join_texts, fmap_cons. cbn [concat step_text text_of].
      assert (map (fun steps => concat (step_text <$> steps)) ((fun item => [StepValue item]) <$> items) = map text_of items) as ->.
      { unfold fmap. rewrite map_map. apply map_ext. intros y. cbn. by rewrite app_nil_r. }
      by rewrite <-!app_assoc.
    + rewrite sum_list_with_app. cbn [sum_list_with step_weight].
      pose proof (join_weight ((fun item => [StepValue item]) <$> items)). pose proof (array_weight items). lia.
  - eexists _, _. cbn [push_value]. split; [done|]. rewrite push_items_eq. split.
    + rewrite fmap_app, concat_app, join_texts, fmap_cons. cbn [concat step_text text_of].
      assert (map (fun steps => concat (step_text <$> steps))
        ((fun '(key, item) => [StepKey key; StepText (lit ": "); StepValue item]) <$> ps) =
        map (fun kv => string [] kv.1 ++ lit ": " ++ text_of kv.2) ps) as ->.
      { unfold fmap. rewrite map_map. apply map_ext. intros [k y]. cbn. by rewrite app_nil_r. }
      by rewrite <-!app_assoc.
    + rewrite sum_list_with_app. cbn [sum_list_with step_weight].
      pose proof (join_weight ((fun '(key, item) => [StepKey key; StepText (lit ": "); StepValue item]) <$> ps)).
      pose proof (object_weight ps). lia.
Qed.

Lemma written_loop_spec fuel text pending :
  (sum_list_with step_weight pending <= fuel)%nat ->
  written_loop fuel n text pending = Some (text ++ concat (step_text <$> pending)).
Proof.
  revert text pending. induction fuel as [|fuel IH]; intros text pending Hf.
  - destruct pending as [|step pending]; [by rewrite app_nil_r|]. exfalso. cbn [sum_list_with] in Hf.
    destruct step as [| |v]; cbn [step_weight] in Hf; try lia. pose proof (nodes_pos v). lia.
  - destruct pending as [|step pending]; [by rewrite app_nil_r|]. cbn [sum_list_with] in Hf. cbn [written_loop].
    rewrite fmap_cons. cbn [concat]. destruct step as [raw|k|v]; cbn [step_weight] in Hf.
    + rewrite IH by lia. by rewrite <-app_assoc.
    + rewrite IH by lia. rewrite string_appends. by rewrite <-app_assoc.
    + destruct (push_value_spec text v pending) as (text' & pending' & -> & Ht & Hw). cbn [mbind option_bind].
      cbn [step_weight] in Hw. rewrite IH by lia. by rewrite Ht.
Qed.

(** The work stack writes the text of the value, whatever the notation. *)
Lemma written_spec v : written n v = Some (text_of v).
Proof.
  unfold written. rewrite written_loop_spec.
  - cbn. by rewrite app_nil_r.
  - cbn [sum_list_with step_weight]. lia.
Qed.
End Written.

(** * Well-formed values *)

(** No escape of a high surrogate right before one of a low surrogate: the parser joins them. *)
Fixpoint unjoined (codes : list Z) : bool :=
  match codes with
  | a :: rest => match rest with b :: _ => negb (is_high a && is_low b) | [] => true end && unjoined rest
  | [] => true
  end.

Definition text_ok (s : CodePointString) : Prop := exists codes, built s codes /\ unjoined codes = true.

(** An integer's text: no leading zero, no sign on zero, no more digits than the limit. *)
Definition int_ok (t : str) : Prop :=
  exists sign int, t = sign ++ int /\ (sign = [] \/ sign = [45]) /\ int_part int /\
    Z.of_nat (length int) <= MAX_INT_DIGITS /\ t <> lit "-0".

(** What a parsed value always is; [F] is what is asked of its floats. *)
Inductive well_formed (F : spec_float -> Prop) : JsonValue -> Prop :=
| wf_null : well_formed F Null
| wf_bool b : well_formed F (Bool b)
| wf_int t : int_ok t -> well_formed F (Int t)
| wf_float x : F x -> well_formed F (Float x)
| wf_str s : text_ok s -> well_formed F (Str s)
| wf_array items : Forall (well_formed F) items -> well_formed F (Array items)
| wf_object ps : NoDup ps.*1 -> Forall text_ok ps.*1 -> Forall (fun kv => well_formed F kv.2) ps ->
    well_formed F (Object ps).

Fixpoint nesting (v : JsonValue) : nat :=
  match v with
  | Array items => S (max_list (map nesting items))
  | Object ps => S (max_list (map (fun kv => nesting kv.2) ps))
  | _ => 0
  end.

(** ** Strings read back *)

Lemma to_digit16_hex d : 0 <= d < 16 -> to_digit16 (hex_digit d) = Some d.
Proof.
  intros Hd. unfold to_digit16, hex_digit. destruct (Z.ltb_spec d 10).
  - rewrite (proj2 (Z.leb_le _ _)), (proj2 (Z.leb_le (48 + d) 57)) by lia. cbn [andb]. f_equal. lia.
  - rewrite (proj2 (Z.leb_gt (87 + d) 57)), andb_false_r by lia.
    rewrite (proj2 (Z.leb_le 97 (87 + d))), (proj2 (Z.leb_le (87 + d) 102)) by lia. cbn [andb]. f_equal. lia.
Qed.

Lemma hex_unit_padded u : 0 <= u < 65536 -> hex_unit (hex_padded 4 u) u.
Proof.
  intros Hu. destruct (hex_padded_digits 4 u ltac:(lia) Hu) as (ds & -> & Hl & Hf & Hv). split; [by rewrite length_fmap|].
  exists ds. split; [|done]. clear Hl Hv. induction Hf as [|d ds Hd _ IH]; [done|]. rewrite fmap_cons. simpl.
  by rewrite to_digit16_hex, IH.
Qed.

Lemma surrogate_units above :
  0 <= above < 1048576 ->
  Z.lor 0xD800 (Z.shiftr above 10) = 0xD800 + above / 1024 /\
  Z.lor 0xDC00 (Z.land above 0x3FF) = 0xDC00 + above mod 1024.
Proof.
  intros Ha. rewrite Z.shiftr_div_pow2 by done. change (2 ^ 10) with 1024.
  assert (0 <= above / 1024 < 1024) by (split; [apply Z.div_pos|apply Z.div_lt_upper_bound]; lia).
  pose proof (Z.mod_pos_bound above 1024 ltac:(lia)).
  split.
  - change 0xD800 with (Z.shiftl 54 10) at 1. rewrite lor_shiftl_add by (cbn; lia). done.
  - rewrite (land_ones_mod above 0x3FF 10) by done. change (2 ^ 10) with 1024.
    change 0xDC00 with (Z.shiftl 55 10) at 1. rewrite lor_shiftl_add by (cbn; lia). done.
Qed.

Ltac escape_named name := left; exists name; split; [apply list_elem_of_In; cbn; tauto|done].

(** How one code point is written: by a short escape, as it is, as a pair of units or as one. *)
Lemma push_code_point_cases c :
  is_code_point c ->
  (exists name, (name, c) ∈ SIMPLE_ESCAPES /\ push_code_point [] c = [92; name]) \/
  (plain c = true /\ 32 <= c <= 126 /\ push_code_point [] c = [c]) \/
  (exists u1 u2, is_high u1 = true /\ is_low u2 = true /\ 0x10000 + (u1 - 0xd800) * 1024 + (u2 - 0xdc00) = c /\
    push_code_point [] c = 92 :: 117 :: hex_padded 4 u1 ++ 92 :: 117 :: hex_padded 4 u2) \/
  (0 <= c < 65536 /\ push_code_point [] c = 92 :: 117 :: hex_padded 4 c).
Proof.
  intros Hc. unfold is_code_point, LAST_CODE_POINT in Hc. unfold push_code_point, short_escape.
  destruct (Z.eqb_spec c 0x22) as [->|?]; [escape_named 34|].
  destruct (Z.eqb_spec c 0x5C) as [->|?]; [escape_named 92|].
  destruct (Z.eqb_spec c 0x08) as [->|?]; [escape_named 98|].
  destruct (Z.eqb_spec c 0x0C) as [->|?]; [escape_named 102|].
  destruct (Z.eqb_spec c 0x0A) as [->|?]; [escape_named 110|].
  destruct (Z.eqb_spec c 0x0D) as [->|?]; [escape_named 114|].
  destruct (Z.eqb_spec c 0x09) as [->|?]; [escape_named 116|]. right.
  destruct (is_scalar c && _) eqn:E; [left; unfold plain, is_scalar in *; split; [lia|split; [lia|done]]|]. right.
  destruct (Z.leb_spec 0x10000 c); [left|right; split; [lia|done]].
  destruct (surrogate_units (c - 0x10000) ltac:(lia)) as [E1 E2].
  exists (0xD800 + (c - 0x10000) / 1024), (0xDC00 + (c - 0x10000) mod 1024). rewrite E1, E2.
  pose proof (Z.div_mod (c - 0x10000) 1024 ltac:(lia)). pose proof (Z.mod_pos_bound (c - 0x10000) 1024 ltac:(lia)).
  assert (0 <= (c - 0x10000) / 1024 < 1024) by (split; [apply Z.div_pos|apply Z.div_lt_upper_bound]; lia).
  unfold is_high, is_low. split; [lia|]. split; [lia|]. split; [lia|]. unfold push_unit. cbv zeta. by rewrite <-app_assoc.
Qed.

Lemma hex_unit_inj ds u u' : hex_unit ds u -> hex_unit ds u' -> u = u'.
Proof. intros (_ & vs & H & ->) (_ & vs' & H' & ->). congruence. Qed.

(** The text of a code point that is no low surrogate starts no low escape. *)
Lemma no_low_escape c rest :
  is_code_point c -> is_low c = false -> ~ starts_low_escape (push_code_point [] c ++ rest).
Proof.
  intros Hc Hl (ds & u & r & E & Hu & Hul).
  assert (forall u', 0 <= u' < 65536 -> is_low u' = false -> forall tl, 92 :: 117 :: hex_padded 4 u' ++ tl <> 92 :: 117 :: ds ++ r) as Hunit.
  { intros u' Hr Hl' tl [= Eq]. apply app_inj_1 in Eq as [<- _].
    - by rewrite (hex_unit_inj _ _ _ Hu (hex_unit_padded u' Hr)), Hl' in Hul.
    - rewrite (hex_padded_length 4) by (lia || done). symmetry. apply Hu. }
  destruct (push_code_point_cases c Hc) as [(name & Hin & Ep)|[(Hp & _ & Ep)|[(u1 & u2 & H1 & H2 & _ & Ep)|[Hr Ep]]]];
    rewrite Ep in E; cbn [app] in E.
  - injection E as -> _. by destruct (simple_escape_facts _ _ Hin) as (_ & ? & _).
  - by injection E as -> _.
  - rewrite <-app_assoc in E. apply (Hunit u1) in E; [done| |]; unfold is_high, is_low in *; lia.
  - by apply (Hunit c) in E.
Qed.

Lemma body_written codes :
  Forall is_code_point codes -> unjoined codes = true -> body_reads (concat (push_code_point [] <$> codes)) codes.
Proof.
  induction 1 as [|c codes Hc Hcs IH]; intros Hj; [constructor|]. cbn [unjoined] in Hj.
  apply andb_true_iff in Hj as [Hj Hrest]. specialize (IH Hrest). rewrite fmap_cons. cbn [concat].
  destruct (push_code_point_cases c Hc) as [(name & Hin & ->)|[(Hp & _ & ->)|[(u1 & u2 & H1 & H2 & <- & ->)|[Hr ->]]]].
  - by apply body_simple.
  - by apply body_plain.
  - cbn [app]. rewrite <-app_assoc. cbn [app].
    apply body_pair; [by apply hex_unit_padded; unfold is_high in *; lia|by apply hex_unit_padded; unfold is_low in *; lia|done..].
  - cbn [app]. apply body_unit; [by apply hex_unit_padded| |done]. intros Hh.
    destruct codes as [|d codes]; [by intros (? & ? & ? & ? & _)|]. apply Forall_cons in Hcs as [Hd _].
    rewrite fmap_cons. cbn [concat]. apply no_low_escape; [done|]. rewrite Hh in Hj. by apply negb_true_iff in Hj.
Qed.

Lemma string_written s : text_ok s -> string_reads (push_string [] s) s.
Proof.
  intros (codes & Hb & Hj). exists (concat (push_code_point [] <$> codes)), codes.
  rewrite push_string_eq, (code_points_built _ _ Hb). split; [done|]. split; [|done]. apply body_written; [apply Hb|done].
Qed.

(** ** Numbers read back *)

(** A float whose text parses to it. *)
Definition readable (x : spec_float) : Prop := is_finite x = true -> (t ← float_text x; parse_f64 t) = Some x.

Lemma digit_text_str ds : Forall is_dec ds -> digit_str (digit_text ds).
Proof. apply digit_text_all. Qed.

Lemma json_int_part int : json_int int -> int_part (digit_text int).
Proof.
  intros (Hd & d & rest & -> & H0). apply Forall_cons in Hd as [Hd Hr]. unfold is_dec in Hd.
  destruct (decide (d = 0)) as [->|Hne].
  - rewrite (H0 eq_refl). constructor.
  - constructor; [lia|]. by apply digit_text_str.
Qed.

Lemma signed_exponent_part e : exp_part (101 :: signed_exponent e).
Proof.
  rewrite signed_exponent_eq. destruct (exponent_digits_spec e) as (Hd & Hne & _).
  destruct (exponent_digits e) as [|d ds]; [done|].
  apply (exp_some 101 [if e <? 0 then 45 else 43] (48 + d) (digit_text ds)).
  - by left.
  - destruct (e <? 0); auto.
  - by apply (digit_text_str (d :: ds)).
Qed.

(** A literal with a point or an exponent is a JSON float. *)
Lemma literal_number (s : bool) int frac ex x :
  json_int int -> Forall is_dec frac -> frac <> [] \/ ex <> None ->
  parse_f64 (literal s int frac ex) = Some x -> number_reads (literal s int frac ex) (Float x).
Proof.
  intros Hi Hf Hmark Hx. unfold literal in *.
  apply (number_float (if s then lit "-" else []) (digit_text int) (if decide (frac = []) then [] else c_dot :: digit_text frac)
    (match ex with Some e => lit "e" ++ signed_exponent e | None => [] end)); try done.
  - destruct s; auto.
  - by apply json_int_part.
  - case_decide as Hn; [constructor|]. destruct frac as [|d frac]; [done|]. constructor. by apply (digit_text_str (d :: frac)).
  - destruct ex as [e|]; [apply signed_exponent_part|constructor].
  - destruct Hmark as [Hn|Hn]; [left; by rewrite decide_False|right; by destruct ex].
Qed.

(** A finite float's text is a JSON number, which reads as what the text parses to. *)
Lemma float_number x t y :
  is_finite x = true -> float_text x = Some t -> parse_f64 t = Some y -> number_reads t (Float y).
Proof.
  intros Hfin Ht Hy. destruct x as [s|s| |s m e]; try done.
  - assert (t = literal s [0] [0] None) as -> by (destruct s; injection Ht as <-; done).
    apply literal_number; [|by apply Forall_singleton|by left|done].
    split; [by apply Forall_singleton|]. by exists 0, [].
  - destruct (float_text_finite s m e) as (t' & ds & e0 & p & Ht' & (int & frac & ex & E & Hi & Hf & [?|Hm] & _) & _); [done|].
    assert (t = literal s int frac ex) as -> by (rewrite Ht' in Ht; injection Ht as <-; exact E).
    by apply literal_number.
Qed.

Lemma constant_reads n word v : (word, v) ∈ CONSTANTS -> reads n word v.
Proof. intros H. by apply reads_scalar, scalar_constant. Qed.

Ltac in_constants := apply list_elem_of_In; cbn; tauto.

Lemma float_written n x t : readable x -> float_value x = Some t -> reads n t (Float x).
Proof.
  intros Hr Ht. unfold float_value in Ht. destruct (is_nan x) eqn:En.
  { injection Ht as <-. destruct x; try done. apply constant_reads. in_constants. }
  destruct (is_infinite x) eqn:Ei.
  { injection Ht as <-. destruct x as [|[]| |]; try done; apply constant_reads; in_constants. }
  assert (is_finite x = true) as Hfin by (unfold is_finite; by rewrite En, Ei).
  specialize (Hr Hfin). rewrite Ht in Hr. cbn in Hr. apply reads_scalar, scalar_number. by eapply float_number.
Qed.

Lemma int_written n t : int_ok t -> reads n t (Int t).
Proof.
  intros (sign & int & -> & Hs & Hi & Hl & Hne). apply reads_scalar, scalar_number.
  pose proof (number_int sign int Hs Hi Hl) as H. by rewrite bool_decide_eq_false_2 in H.
Qed.

(** ** Containers read back *)

Lemma items_written n items :
  items <> [] -> Forall (fun v => reads n (text_of JsonText v) v) items ->
  items_read n (join_with (lit ", ") (map (text_of JsonText) items)) items.
Proof.
  intros Hne H. induction H as [|v items Hv Hs IH]; [done|]. destruct items as [|y items].
  - cbn. rewrite <-(app_nil_r (text_of JsonText v)). apply items_one; [done|constructor].
  - cbn [map]. rewrite (join_with_cons _ (text_of JsonText v)) by done.
    apply (items_more n (text_of JsonText v) v [] [32]); [done|constructor|by apply Forall_singleton|by apply IH].
Qed.

Definition member_text (kv : CodePointString * JsonValue) : str :=
  push_string [] kv.1 ++ lit ": " ++ text_of JsonText kv.2.

Lemma members_written n ps :
  ps <> [] -> Forall (fun kv => text_ok kv.1 /\ reads n (text_of JsonText kv.2) kv.2) ps ->
  members_read n (join_with (lit ", ") (map member_text ps)) ps.
Proof.
  intros Hne H. induction H as [|[k v] ps [Hk Hv] Hs IH]; [done|]. cbn [fst snd] in *.
  assert (forall et, entry_reads n k et ((k, v) :: ps) -> members_read n (push_string [] k ++ lit ": " ++ et) ((k, v) :: ps)) as Hkey.
  { intros et Het. apply (members_key n (push_string [] k) k [] [32]); [by apply string_written|constructor|by apply Forall_singleton|done]. }
  destruct ps as [|y ps].
  - cbn. unfold member_text. cbn [fst snd]. apply Hkey. rewrite <-(app_nil_r (text_of JsonText v)). apply entry_one; [done|constructor].
  - cbn [map]. rewrite (join_with_cons _ (member_text (k, v))) by done. unfold member_text at 1. cbn [fst snd].
    rewrite <-!app_assoc. apply Hkey.
    apply (entry_more n k (text_of JsonText v) v [] [32]); [done|constructor|by apply Forall_singleton|by apply IH].
Qed.

Lemma put_all_fresh acc ps : NoDup (acc ++ ps).*1 -> put_all acc ps = acc ++ ps.
Proof.
  revert acc. induction ps as [|[k v] ps IH]; intros acc Hn; [by rewrite app_nil_r|]. cbn [put_all foldl fst snd].
  rewrite put_new.
  - fold (put_all (acc ++ [(k, v)]) ps). rewrite IH by (by rewrite <-app_assoc). by rewrite <-app_assoc.
  - intros j Hj. rewrite fmap_app in Hn. apply NoDup_app in Hn as (_ & Hd & _).
    apply (Hd k); [by eapply list_elem_of_lookup_2|]. cbn. left.
Qed.

Lemma max_list_bound {A} (f : A -> nat) l n : (max_list (map f l) <= n)%nat -> Forall (fun x => (f x <= n)%nat) l.
Proof. induction l as [|x l IH]; cbn; intros; constructor; [lia|]. apply IH. lia. Qed.

(** A well-formed value's text is in the grammar. *)
Lemma text_reads_back v : well_formed readable v -> forall n, (nesting v <= n)%nat -> reads n (text_of JsonText v) v.
Proof.
  induction v as [|b|t|x|s|items IH|ps IH] using JsonValue_nested_ind; intros Hw n Hn; inversion Hw; subst.
  - apply constant_reads. in_constants.
  - destruct b; apply constant_reads; in_constants.
  - by apply int_written.
  - destruct (float_value_total x) as [t Ht]. cbn. rewrite Ht. by apply float_written.
  - apply reads_string. by apply string_written.
  - cbn [nesting] in Hn. destruct n as [|n]; [lia|]. destruct items as [|y items]; [apply (reads_array_empty n []); constructor|].
    apply (reads_array n []); [constructor|]. apply items_written; [done|].
    assert (max_list (map nesting (y :: items)) <= n)%nat as Hm by lia. apply max_list_bound in Hm.
    rewrite Forall_forall in IH, Hm |- *. match goal with H : Forall _ _ |- _ => rewrite Forall_forall in H end.
    intros v Hv. apply IH; auto.
  - cbn [nesting] in Hn. destruct n as [|n]; [lia|]. destruct ps as [|y ps]; [apply (reads_object_empty n []); constructor|].
    rewrite <-(put_all_fresh [] (y :: ps)) at 2 by done.
    apply (reads_object n []); [constructor|]. apply members_written; [done|].
    assert (max_list (map (fun kv => nesting kv.2) (y :: ps)) <= n)%nat as Hm by lia. apply max_list_bound in Hm.
    repeat match goal with H : Forall _ _ |- _ => rewrite Forall_forall in H end. apply Forall_forall.
    intros kv Hkv. split; [|by apply IH; auto]. match goal with H : forall x, x ∈ _.*1 -> text_ok x |- _ => apply H end.
    by apply list_elem_of_fmap_2.
Qed.

(** ** The text is printable ASCII *)

Definition printable (c : Z) : Prop := 32 <= c <= 126.

Lemma digit_text_printable ds : Forall is_dec ds -> Forall printable (digit_text ds).
Proof. intros H. apply Forall_fmap. eapply Forall_impl; [exact H|]. unfold is_dec, printable. cbn. lia. Qed.

Lemma hex_padded_printable u : 0 <= u < 65536 -> Forall printable (hex_padded 4 u).
Proof.
  intros Hu. destruct (hex_padded_digits 4 u ltac:(lia) Hu) as (ds & -> & _ & Hf & _). apply Forall_fmap.
  eapply Forall_impl; [exact Hf|]. intros d Hd. cbn in Hd. unfold printable, compose, hex_digit. destruct (Z.ltb_spec d 10); lia.
Qed.

Lemma push_code_point_printable c : is_code_point c -> Forall printable (push_code_point [] c).
Proof.
  intros Hc. assert (forall u, 0 <= u < 65536 -> Forall printable (92 :: 117 :: hex_padded 4 u)) as Hunit.
  { intros u Hu. do 2 (constructor; [by unfold printable|]). by apply hex_padded_printable. }
  destruct (push_code_point_cases c Hc) as [(name & Hin & ->)|[(_ & Hp & ->)|[(u1 & u2 & H1 & H2 & _ & ->)|[Hr ->]]]].
  - unfold SIMPLE_ESCAPES in Hin. repeat (apply elem_of_cons in Hin as [[= -> ->]|Hin];
      [repeat constructor; unfold printable; lia|]). by apply elem_of_nil in Hin.
  - by apply Forall_singleton.
  - change (92 :: 117 :: hex_padded 4 u1 ++ 92 :: 117 :: hex_padded 4 u2)
      with ((92 :: 117 :: hex_padded 4 u1) ++ (92 :: 117 :: hex_padded 4 u2)).
    apply Forall_app. unfold is_high, is_low in *. split; apply Hunit; lia.
  - by apply Hunit.
Qed.

Lemma string_printable s : text_ok s -> Forall printable (push_string [] s).
Proof.
  intros (codes & Hb & _). rewrite push_string_eq, (code_points_built _ _ Hb). destruct Hb as [Hc _].
  constructor; [by unfold printable|]. apply Forall_app. split; [|by repeat constructor].
  induction Hc as [|c codes Hc _ IH]; [constructor|]. rewrite fmap_cons. cbn [concat]. apply Forall_app.
  split; [by apply push_code_point_printable|done].
Qed.

Lemma int_printable t : int_ok t -> Forall printable t.
Proof.
  intros (sign & int & -> & Hs & Hi & _). apply Forall_app. split; [destruct Hs as [->| ->]; repeat constructor; by unfold printable|].
  destruct Hi as [|d ds Hd Hds]; [by repeat constructor|]. constructor; [unfold printable; lia|].
  eapply Forall_impl; [exact Hds|]. unfold is_ascii_digit, printable. cbn. lia.
Qed.

Lemma literal_printable (s : bool) int frac ex : Forall is_dec int -> Forall is_dec frac -> Forall printable (literal s int frac ex).
Proof.
  intros Hi Hf. unfold literal. rewrite !Forall_app. split; [destruct s; by repeat constructor|].
  split; [by apply digit_text_printable|]. split.
  - case_decide; constructor; [by unfold printable|]. by apply digit_text_printable.
  - destruct ex as [e|]; [|constructor]. rewrite signed_exponent_eq. destruct (exponent_digits_spec e) as (Hd & _).
    constructor; [by unfold printable|]. constructor; [unfold printable; destruct (e <? 0); lia|]. by apply digit_text_printable.
Qed.

Lemma float_printable x t : float_value x = Some t -> Forall printable t.
Proof.
  intros Ht. destruct x as [[]|[]| |s m e]; try (injection Ht as <-; by repeat constructor).
  destruct (float_text_finite s m e) as (t' & ds & e0 & p & Ht' & (int & frac & ex & E & [Hi _] & Hf & _) & _).
  change (float_text (S754_finite s m e) = Some t) in Ht. rewrite Ht' in Ht. injection Ht as <-. rewrite E.
  change ((if s then lit "-" else []) ++ literal false int frac ex) with (literal s int frac ex). by apply literal_printable.
Qed.

Lemma join_printable sep parts : Forall printable sep -> Forall (Forall printable) parts -> Forall printable (join_with sep parts).
Proof.
  intros Hsep H. induction H as [|p parts Hp Hps IH]; [constructor|]. destruct parts as [|q parts]; [done|].
  rewrite (join_with_cons sep p) by done. by rewrite !Forall_app.
Qed.

Lemma text_of_printable F v : well_formed F v -> Forall printable (text_of JsonText v).
Proof.
  induction v as [|b|t|x|s|items IH|ps IH] using JsonValue_nested_ind; intros Hw; inversion Hw; subst.
  - by repeat constructor.
  - destruct b; by repeat constructor.
  - by apply int_printable.
  - destruct (float_value_total x) as [t Ht]. cbn. rewrite Ht. by eapply float_printable.
  - by apply string_printable.
  - cbn [text_of]. rewrite !Forall_app. split; [by repeat constructor|]. split; [|by repeat constructor].
    apply join_printable; [by repeat constructor|]. apply Forall_fmap.
    repeat match goal with H : Forall _ _ |- _ => rewrite Forall_forall in H end. apply Forall_forall.
    intros v Hv. apply IH; auto.
  - cbn [text_of]. rewrite !Forall_app. split; [by repeat constructor|]. split; [|by repeat constructor].
    apply join_printable; [by repeat constructor|]. apply Forall_fmap.
    repeat match goal with H : Forall _ _ |- _ => rewrite Forall_forall in H end. apply Forall_forall.
    intros kv Hkv. unfold compose. rewrite !Forall_app. split; [|split; [by repeat constructor|by apply IH; auto]].
    apply string_printable. match goal with H : forall x, x ∈ _.*1 -> text_ok x |- _ => apply H end. by apply list_elem_of_fmap_2.
Qed.

Lemma printable_str s : Forall printable s -> is_str s.
Proof. intros H. eapply Forall_impl; [exact H|]. unfold printable, is_scalar. cbn. lia. Qed.

(** C11: A well-formed value written by [value_text] parses back to that value, when its floats
    read back and its containers nest no deeper than the parser's limit; the text is one line of
    printable ASCII. *)
Theorem value_text_roundtrip v (Hv : well_formed readable v) (Hd : (nesting v <= depth_limit)%nat) :
  exists text, value_text v = Some text /\ parse text = Ok v /\ Forall printable text.
Proof.
  exists (text_of JsonText v). pose proof (text_of_printable _ v Hv) as Hp. split; [apply written_spec, _|].
  split; [|done]. apply parse_complete; [by apply printable_str|].
  exists [], (text_of JsonText v), []. rewrite app_nil_r. split; [done|]. split; [constructor|]. split; [constructor|].
  by apply text_reads_back.
Qed.

Lemma value_text_roundtrip_witness :
  let v := Array [Int (lit "-12"); Float (S754_finite false 5629499534213120 (-51)); Null] in
  well_formed readable v /\
  exists text, value_text v = Some text /\ parse text = Ok v /\ Forall printable text.
Proof.
  intros v. assert (well_formed readable v) as H.
  { apply wf_array. apply Forall_cons_2; [apply wf_int|apply Forall_cons_2; [apply wf_float|apply Forall_cons_2; [apply wf_null|constructor]]].
    - exists [45], (lit "12"). split; [done|]. split; [by right|]. split; [|done].
      apply (int_digits 49 [50]); [lia|by apply Forall_singleton].
    - intros _. vm_compute. reflexivity. }
  split; [exact H|]. apply (value_text_roundtrip v H). unfold depth_limit, MAX_DEPTH. cbn. lia.
Defined.

(** ** Every parsed value is well-formed *)

Lemma body_unjoined body codes :
  body_reads body codes -> is_str body ->
  unjoined codes = true /\ (forall c rest, codes = c :: rest -> is_low c = true -> starts_low_escape body).
Proof.
  induction 1 as [|c body codes Hc Hb IH|name c body codes Hin Hb IH|ds u body codes Hu Hl Hb IH
    |ds1 u1 ds2 u2 body codes Hu1 Hu2 Hh Hl Hb IH]; intros Hs.
  - split; [done|]. intros c rest [=].
  - apply Forall_cons in Hs as [Hsc Hs]. destruct (IH Hs) as [Hj _].
    assert (is_low c = false /\ is_high c = false) as [H1 H2] by (unfold is_low, is_high, is_scalar in *; lia).
    split; [cbn; rewrite H2, Hj; by destruct codes|]. intros ? ? [= <- <-]. congruence.
  - apply Forall_cons in Hs as [_ [_ Hs]%Forall_cons]. destruct (IH Hs) as [Hj _].
    assert (is_low c = false /\ is_high c = false) as [H1 H2].
    { unfold SIMPLE_ESCAPES in Hin. repeat (apply elem_of_cons in Hin as [[= -> ->]|Hin]; [done|]). by apply elem_of_nil in Hin. }
    split; [cbn; rewrite H2, Hj; by destruct codes|]. intros ? ? [= <- <-]. congruence.
  - apply Forall_cons in Hs as [_ [_ Hs]%Forall_cons]. apply Forall_app in Hs as [_ Hs]. destruct (IH Hs) as [Hj Hlow].
    split; [|intros ? ? [= <- <-] Hlu; by exists ds, u, body]. cbn [unjoined]. rewrite Hj, andb_true_r.
    destruct codes as [|d codes]; [done|]. apply negb_true_iff, andb_false_iff.
    destruct (is_high u) eqn:Hhu; [right|by left]. apply not_true_iff_false. intros Hd. by apply (Hl eq_refl), (Hlow d codes).
  - apply Forall_cons in Hs as [_ [_ Hs]%Forall_cons]. apply Forall_app in Hs as [_ Hs].
    apply Forall_cons in Hs as [_ [_ Hs]%Forall_cons]. apply Forall_app in Hs as [_ Hs]. destruct (IH Hs) as [Hj _].
    set (c := 0x10000 + _ + _). assert (is_low c = false /\ is_high c = false) as [H1 H2]
      by (subst c; unfold is_low, is_high in *; lia).
    split; [cbn [unjoined]; rewrite H2, Hj; by destruct codes|]. intros ? ? [= <- <-]. congruence.
Qed.

Lemma string_text_ok w s : string_reads w s -> is_str w -> text_ok s.
Proof.
  intros (body & codes & -> & Hb & Hbu) Hs. apply Forall_cons in Hs as [_ [Hs _]%Forall_app]. exists codes.
  split; [done|]. by eapply body_unjoined.
Qed.

Lemma put_keys k v ps : (put k v ps).*1 = if decide (k ∈ ps.*1) then ps.*1 else ps.*1 ++ [k].
Proof.
  induction ps as [|[k' v'] ps IH]; [done|]. cbn [put]. rewrite fmap_cons. cbn [fst].
  destruct (decide (k = k')) as [->|Hne].
  - rewrite decide_True by (by left). done.
  - rewrite fmap_cons, IH. cbn [fst]. destruct (decide (k ∈ ps.*1)) as [Hin|Hin].
    + by rewrite decide_True by (by right).
    + rewrite decide_False; [done|]. by intros [?|?]%elem_of_cons.
Qed.

Lemma put_NoDup k v ps : NoDup ps.*1 -> NoDup (put k v ps).*1.
Proof.
  intros H. rewrite put_keys. destruct (decide (k ∈ ps.*1)) as [|Hin]; [done|]. apply NoDup_app. split; [done|].
  split; [|apply NoDup_singleton]. intros x Hx Hx'. apply list_elem_of_singleton in Hx' as ->. done.
Qed.

Lemma put_all_spec (P : CodePointString * JsonValue -> Prop) acc kvs :
  NoDup acc.*1 -> Forall P acc -> Forall P kvs -> NoDup (put_all acc kvs).*1 /\ Forall P (put_all acc kvs).
Proof.
  intros Hn Ha Hk. revert acc Hn Ha. induction Hk as [|[k v] kvs Hkv _ IH]; intros acc Hn Ha; [done|].
  apply (IH (put k v acc)); [by apply put_NoDup|].
  clear -Ha Hkv. induction Ha as [|[k' v'] acc H Ha IH]; [by repeat constructor|]. cbn [put fst snd].
  destruct (decide (k = k')) as [->|]; by constructor.
Qed.

Definition any_float (x : spec_float) : Prop := True.

(** What the grammar gives at a depth. *)
Definition fits (n : nat) (v : JsonValue) : Prop := well_formed any_float v /\ (nesting v <= n)%nat.

Lemma max_list_fits {A} (f : A -> nat) l n : Forall (fun x => (f x <= n)%nat) l -> (max_list (map f l) <= n)%nat.
Proof. induction 1; cbn; lia. Qed.

Lemma scalar_fits w v n : scalar_reads w v -> fits n v.
Proof.
  intros [word v' Hin|w' v' [sign int Hs Hi Hl|sign int frac ex x _ _ _ _ _ _]].
  - unfold CONSTANTS in Hin. repeat (apply elem_of_cons in Hin as [[= -> ->]|Hin]; [split; [by constructor|cbn; lia]|]).
    by apply elem_of_nil in Hin.
  - split; [|cbn; lia]. constructor. case_bool_decide as E.
    + exists [], [48]. split; [done|]. split; [by left|]. split; [constructor|done].
    + by exists sign, int.
  - split; [by constructor|cbn; lia].
Qed.

Lemma array_fits n vs : Forall (fits n) vs -> fits (S n) (Array vs).
Proof.
  intros H. split.
  - constructor. eapply Forall_impl; [exact H|]. by intros v [? _].
  - cbn. apply le_n_S, max_list_fits. eapply Forall_impl; [exact H|]. by intros v [_ ?].
Qed.

Lemma object_fits n kvs : Forall (fun kv => text_ok kv.1 /\ fits n kv.2) kvs -> fits (S n) (Object (put_all [] kvs)).
Proof.
  intros H. destruct (put_all_spec _ [] kvs (NoDup_nil_2) (Forall_nil_2 _) H) as [Hn Hf]. split.
  - constructor; [done| |].
    + apply Forall_fmap. eapply Forall_impl; [exact Hf|]. by intros kv [? _].
    + eapply Forall_impl; [exact Hf|]. by intros kv [_ [? _]].
  - cbn. apply le_n_S, max_list_fits. eapply Forall_impl; [exact Hf|]. by intros kv [_ [_ ?]].
Qed.

Lemma reads_fit :
  (forall n w v, reads n w v -> is_str w -> fits n v) /\
  (forall n it vs, items_read n it vs -> is_str it -> Forall (fits n) vs) /\
  (forall n mt kvs, members_read n mt kvs -> is_str mt -> Forall (fun kv => text_ok kv.1 /\ fits n kv.2) kvs) /\
  (forall n k et kvs, entry_reads n k et kvs -> text_ok k -> is_str et ->
     Forall (fun kv => text_ok kv.1 /\ fits n kv.2) kvs).
Proof.
  unfold is_str. apply reads_mutind; intros; repeat match goal with
    | H : Forall _ (_ ++ _) |- _ => apply Forall_app in H as [? ?]
    | H : Forall _ (_ :: _) |- _ => apply Forall_cons in H as [? ?]
    end.
  - by eapply scalar_fits.
  - split; [|cbn; lia]. constructor. by eapply string_text_ok.
  - by apply array_fits.
  - apply array_fits; auto.
  - by apply (object_fits n []).
  - apply object_fits; auto.
  - constructor; auto.
  - constructor; auto.
  - match goal with H : text_ok k -> _ |- _ => apply H end; [by eapply string_text_ok|done].
  - constructor; [split; auto|done].
  - constructor; [split; auto|auto].
Qed.

(** C29: Every value that [parse] returns is well-formed: its objects hold each key once, its
    integers are in their one normal form within the digit limit, no string holds a surrogate pair
    split in two, and its containers nest no deeper than the limit. *)
Theorem parse_well_formed text v (Htext : is_str text) (Hv : parse text = Ok v) :
  well_formed any_float v /\ Z.of_nat (nesting v) <= MAX_DEPTH.
Proof.
  pose proof (parse_sound text Htext) as Hg. rewrite Hv in Hg. destruct Hg as (s1 & w & s2 & -> & _ & _ & Hw).
  apply Forall_app in Htext as [_ [Hs _]%Forall_app]. destruct (proj1 reads_fit _ _ _ Hw Hs) as [? Hd].
  split; [done|]. unfold depth_limit in Hd. unfold MAX_DEPTH in *. lia.
Qed.

Lemma parse_well_formed_witness :
  (is_str (lit "[-0, [1]]") /\ parse (lit "[-0, [1]]") = Ok (Array [Int (lit "0"); Array [Int (lit "1")]])) /\
  well_formed any_float (Array [Int (lit "0"); Array [Int (lit "1")]]).
Proof.
  assert (is_str (lit "[-0, [1]]")) as H by (repeat constructor).
  assert (parse (lit "[-0, [1]]") = Ok (Array [Int (lit "0"); Array [Int (lit "1")]])) as E by (vm_compute; reflexivity).
  split; [exact (conj H E)|]. exact (proj1 (parse_well_formed _ _ H E)).
Defined.

(** * The layout of the formatter *)

Module FormatterFacts.
Import Formatter.

Section TreeInd.
Variable P : tree -> Prop.
Hypotheses (HScalar : forall text, P (Scalar text)) (HList : forall items, Forall P items -> P (List items))
  (HMap : forall entries, Forall (fun kv => P kv.2) entries -> P (Map entries)).

Fixpoint tree_nested_ind (t : tree) : P t :=
  match t with
  | Scalar text => HScalar text
  | List items =>
      HList items ((fix go l : Forall P l := match l with
        | [] => Forall_nil_2 P
        | x :: l' => Forall_cons_2 P x l' (tree_nested_ind x) (go l')
        end) items)
  | Map entries =>
      HMap entries ((fix go (l : list (str * tree)) : Forall (fun kv => P kv.2) l := match l with
        | [] => Forall_nil_2 (fun kv => P kv.2)
        | kv :: l' => Forall_cons_2 (fun kv => P kv.2) kv l' (tree_nested_ind kv.2) (go l')
        end) entries)
  end.
End TreeInd.

Section Layout.
(** The events that serde_json sends, and the text it writes for a key. *)
Context (serialize : tree -> list event) (key_text : str -> str).

Fixpoint item_events (first : bool) (items : list tree) : list event :=
  match items with
  | [] => []
  | x :: rest => begin_array_value first :: serialize x ++ item_events false rest
  end.

Fixpoint entry_events (first : bool) (entries : list (str * tree)) : list event :=
  match entries with
  | [] => []
  | (k, x) :: rest =>
      begin_object_key first :: Raw (key_text k) :: begin_object_value :: serialize x ++ entry_events false rest
  end.

(** The documented order of a [Formatter]'s calls. *)
Record serializer : Prop := {
  scalar_events text : serialize (Scalar text) = [Raw text];
  list_events items : serialize (List items) = begin_array :: item_events true items ++ [end_array];
  map_events entries : serialize (Map entries) = begin_object :: entry_events true entries ++ [end_object]
}.

(** The layout of a tree below [d] containers. *)
Definition line (f : JsonFormatter) (d : nat) : str :=
  if line_breaks f then lit "
" ++ concat (replicate d (lit "  ")) else [].

Definition layout (f : JsonFormatter) : nat -> tree -> str := fix go d t :=
  match t with
  | Scalar text => text
  | List [] => lit "[]"
  | List items =>
      lit "[" ++ join_with (separator f) (map (fun x => line f (S d) ++ go (S d) x) items) ++
      line f d ++ lit "]"
  | Map [] => lit "{}"
  | Map entries =>
      lit "{" ++
      join_with (separator f)
        (map (fun kv => line f (S d) ++ key_text kv.1 ++ key_separator f ++ go (S d) kv.2) entries) ++
      line f d ++ lit "}"
  end.

Hypothesis serialized : serializer.

Lemma run_app f a b :
  run f (a ++ b) = '(f, out) ← run f a; '(f, more) ← run f b; Some (f, out ++ more).
Proof.
  revert f. induction a as [|e a IH]; intros f; cbn [app run mbind option_bind].
  - by destruct (run f b) as [[f' more]|].
  - destruct (handle f e) as [[f' out]|]; [|done]. cbn [mbind option_bind]. rewrite IH.
    destruct (run f' a) as [[f'' out']|]; [|done]. cbn [mbind option_bind].
    destruct (run f'' b) as [[f3 out'']|]; [|done]. cbn. by rewrite app_assoc.
Qed.

(** A run that leaves the state as it was, but for [has_value]. *)
Definition writes (f : JsonFormatter) (events : list event) (v : bool) (out : str) : Prop :=
  run f events = Some (with_state f (depth f) v, out).

Lemma with_state_id f v : has_value f = v -> with_state f (depth f) v = f.
Proof. intros <-. by destruct f. Qed.

Lemma layout_state f d v k t : layout (with_state f d v) k t = layout f k t.
Proof. done. Qed.

Definition after_value (f : JsonFormatter) (t : tree) : bool :=
  match t with Scalar _ => has_value f | _ => true end.

Lemma after_item f d x : with_state (with_state f d true) (depth (with_state f d true)) (after_value (with_state f d true) x) =
  with_state f d true.
Proof. by destruct x. Qed.

(** What an item begins with. *)
Lemma begun f d first (rest : str) :
  (if negb first then separator f else []) ++ (if line_breaks f then break_line (with_state f d true) else []) ++ rest =
  (if first then [] else separator f) ++ line f d ++ rest.
Proof. unfold line, break_line. by destruct first. Qed.

Lemma items_run_layout f items first d rest :
  depth f = d -> Forall (fun x => forall f, writes f (serialize x) (after_value f x) (layout f (depth f) x)) items ->
  items <> [] ->
  run f (item_events first items ++ rest) =
  '(f', out) ← run (with_state f d true) rest;
  Some (f', (if first then [] else separator f) ++
            join_with (separator f) (map (fun x => line f d ++ layout f d x) items) ++ out).
Proof.
  intros Hd H Hne. revert f first Hd. induction H as [|x items Hx Hs IH]; intros f first Hd; [done|].
  cbn [item_events app]. rewrite <-app_assoc. cbn [run handle begin_item mbind option_bind].
  rewrite run_app, Hx, after_item, layout_state. cbn [mbind option_bind depth with_state]. rewrite Hd.
  destruct items as [|y items].
  - cbn [item_events app]. destruct (run _ rest) as [[f' out]|]; [|done]. cbn. do 2 f_equal.
    rewrite <-!app_assoc. by rewrite <-begun.
  - rewrite IH by done. change (with_state (with_state f d true) d true) with (with_state f d true).
    destruct (run _ rest) as [[f' out]|]; [|done]. cbn [mbind option_bind]. do 2 f_equal.
    cbn [map]. rewrite (join_with_cons _ (line f d ++ layout f d x)) by done. rewrite <-!app_assoc. by rewrite <-begun.
Qed.

Lemma entries_run_layout f entries first d rest :
  depth f = d -> Forall (fun kv => forall f, writes f (serialize kv.2) (after_value f kv.2) (layout f (depth f) kv.2)) entries ->
  entries <> [] ->
  run f (entry_events first entries ++ rest) =
  '(f', out) ← run (with_state f d true) rest;
  Some (f', (if first then [] else separator f) ++
            join_with (separator f)
              (map (fun kv => line f d ++ key_text kv.1 ++ key_separator f ++ layout f d kv.2) entries) ++ out).
Proof.
  intros Hd H Hne. revert f first Hd. induction H as [|[k x] entries Hx Hs IH]; intros f first Hd; [done|].
  cbn [entry_events fst snd app] in *. rewrite <-app_assoc. cbn [run handle begin_item mbind option_bind].
  rewrite run_app, Hx, after_item, layout_state. cbn [mbind option_bind depth with_state]. rewrite Hd.
  destruct entries as [|y entries].
  - cbn [entry_events app]. destruct (run _ rest) as [[f' out]|]; [|done]. cbn. do 2 f_equal.
    rewrite <-!app_assoc. by rewrite <-begun.
  - rewrite IH by done. change (with_state (with_state f d true) d true) with (with_state f d true).
    destruct (run _ rest) as [[f' out]|]; [|done]. cbn [mbind option_bind]. do 2 f_equal.
    cbn [map]. rewrite (join_with_cons _ (line f d ++ key_text k ++ key_separator f ++ layout f d x)) by done.
    rewrite <-!app_assoc. by rewrite <-begun.
Qed.

Lemma run_tree t f : writes f (serialize t) (after_value f t) (layout f (depth f) t).
Proof.
  destruct serialized as [Hscalar Hlist Hmap]. revert f.
  induction t as [text|items IH|entries IH] using tree_nested_ind; intros f; unfold writes.
  - rewrite Hscalar. cbn. rewrite app_nil_r. do 2 f_equal. by rewrite with_state_id.
  - rewrite Hlist. cbn [run handle open mbind option_bind]. destruct items as [|x items].
    + cbn. rewrite andb_false_r. done.
    + rewrite (items_run_layout _ (x :: items) true (S (depth f))) by done.
      cbn [run handle close depth with_state mbind option_bind line_breaks has_value]. rewrite andb_true_r. cbn. do 2 f_equal.
      rewrite app_nil_r, <-?app_assoc. unfold line, break_line. cbn. by destruct (line_breaks f).
  - rewrite Hmap. cbn [run handle open mbind option_bind]. destruct entries as [|x entries].
    + cbn. rewrite andb_false_r. done.
    + rewrite (entries_run_layout _ (x :: entries) true (S (depth f))) by done.
      cbn [run handle close depth with_state mbind option_bind line_breaks has_value]. rewrite andb_true_r. cbn. do 2 f_equal.
      rewrite app_nil_r, <-?app_assoc. unfold line, break_line. cbn. by destruct (line_breaks f).
Qed.

(** [to_text] is the layout of the form, of the sorted value when packed. *)
Lemma to_text_spec value form :
  to_text serialize value form =
  Some (layout (new form) 0 (if bool_decide (form = Packed) then sorted value else value)).
Proof. unfold to_text. cbv zeta. rewrite run_tree. by destruct form. Qed.
End Layout.

(** ** The order of keys *)

(** UTF-8 byte order is code point order. *)
Lemma utf8_order a b : is_str a -> is_str b -> bytes_le (as_bytes a) (as_bytes b) = bytes_le a b.
Proof.
  intros Ha Hb. rewrite !as_bytes_encode by done.
  apply code_point_order; by apply is_str_code_points.
Qed.

(** Trees that differ in the order of their members only; the keys of an object are distinct. *)
Inductive reorder : tree -> tree -> Prop :=
| reorder_scalar text : reorder (Scalar text) (Scalar text)
| reorder_list xs ys : Forall2 reorder xs ys -> reorder (List xs) (List ys)
| reorder_map xs ys zs :
    NoDup xs.*1 -> Forall is_str xs.*1 -> Forall2 (fun a b => a.1 = b.1 /\ reorder a.2 b.2) xs ys -> ys ≡ₚ zs ->
    reorder (Map xs) (Map zs).

Definition sorted_entry (kv : str * tree) : str * tree := (kv.1, sorted kv.2).

Lemma sorted_map entries : sorted (Map entries) = Map (sort_by key_le (sorted_entry <$> entries)).
Proof. cbn. do 2 f_equal. apply map_ext. by intros []. Qed.

(** Sorting entries with distinct keys forgets their order. *)
Lemma sort_entries xs ys :
  NoDup xs.*1 -> Forall is_str xs.*1 -> xs ≡ₚ ys -> sort_by key_le xs = sort_by key_le ys.
Proof.
  intros Hn Hs Hp. apply (sorted_perm_eq (fun x y => key_le x y = true)).
  - intros x y Hx Hy H1 H2. rewrite sort_by_perm in Hx, Hy. rewrite Forall_forall in Hs.
    assert (x.1 = y.1) as E.
    { apply as_bytes_inj; [apply Hs; by apply list_elem_of_fmap_2..|]. by apply bytes_le_antisym. }
    apply list_elem_of_lookup in Hx as [i Hi], Hy as [j Hj].
    assert (i = j) as ->; [|congruence].
    eapply (NoDup_lookup xs.*1); [done| |]; rewrite list_lookup_fmap; [by rewrite Hi|by rewrite Hj, E].
  - apply sort_by_sorted; intros; [apply bytes_le_total|by eapply bytes_le_trans].
  - apply sort_by_sorted; intros; [apply bytes_le_total|by eapply bytes_le_trans].
  - by rewrite !sort_by_perm.
Qed.

Lemma sorted_reorder t : forall t', reorder t t' -> sorted t = sorted t'.
Proof.
  induction t as [text|items IH|entries IH] using tree_nested_ind; intros t' Hr; inversion Hr as [|? ys Hall|? ys zs Hn Hs Hall Hp]; subst.
  - done.
  - cbn. f_equal. clear Hr. induction Hall as [|x y xs ys Hxy _ IHl]; [done|]. apply Forall_cons in IH as [Hx IH].
    cbn. f_equal; [by apply Hx|by apply IHl].
  - rewrite !sorted_map. f_equal.
    assert (sorted_entry <$> entries = sorted_entry <$> ys) as E.
    { clear -Hall IH. induction Hall as [|[k x] [k' y] xs ys [Hk Hxy] _ IHl]; [done|]. apply Forall_cons in IH as [Hx IH].
      rewrite !fmap_cons, IHl by done. unfold sorted_entry at 1 3. cbn in *. by rewrite Hk, (Hx y). }
    assert ((sorted_entry <$> entries).*1 = entries.*1) as Ek by (rewrite <-list_fmap_compose; by apply list_fmap_ext).
    rewrite (sort_entries _ (sorted_entry <$> zs)); [done|by rewrite Ek..|]. rewrite E. by rewrite Hp.
Qed.

(** Under a serializer that calls the formatter in the documented order, [to_text] never
    fails and writes the layout of its form: the separators of the form, and when indented one
    item per line under two spaces a level.  The packed form is the same for values that differ
    only in the order of their members. *)
Theorem to_text_layout serialize key_text (H : serializer serialize key_text) :
  (forall value form, to_text serialize value form =
    Some (layout key_text (new form) 0 (if bool_decide (form = Packed) then sorted value else value))) /\
  (forall t t', reorder t t' -> to_text serialize t Packed = to_text serialize t' Packed).
Proof.
  split; [by apply to_text_spec|]. intros t t' Hr. rewrite !(to_text_spec _ _ H).
  by rewrite (sorted_reorder t t' Hr).
Qed.

(** A serializer of that order. *)
Fixpoint events_of (key_text : str -> str) (t : tree) : list event :=
  match t with
  | Scalar text => [Raw text]
  | List items =>
      begin_array :: (fix go first l := match l with
        | [] => []
        | x :: rest => begin_array_value first :: events_of key_text x ++ go false rest
        end) true items ++ [end_array]
  | Map entries =>
      begin_object :: (fix go first l := match l with
        | [] => []
        | (k, x) :: rest => begin_object_key first :: Raw (key_text k) :: begin_object_value ::
            events_of key_text x ++ go false rest
        end) true entries ++ [end_object]
  end.

Lemma events_of_serializer key_text : serializer (events_of key_text) key_text.
Proof. by split. Qed.

Lemma to_text_layout_witness :
  serializer (events_of (fun k => k)) (fun k => k) /\
  to_text (events_of (fun k => k)) (Map [(lit "b", Scalar (lit "1")); (lit "a", List [])]) Packed =
  to_text (events_of (fun k => k)) (Map [(lit "a", List []); (lit "b", Scalar (lit "1"))]) Packed.
Proof.
  split; [apply events_of_serializer|].
  apply (proj2 (to_text_layout (events_of (fun k => k)) (fun k => k) (events_of_serializer _))).
  apply (reorder_map _ [(lit "b", Scalar (lit "1")); (lit "a", List [])]).
  - apply NoDup_cons. split; [|apply NoDup_singleton]. intros H. apply list_elem_of_singleton in H. done.
  - repeat constructor.
  - repeat constructor.
  - constructor.
Defined.
End FormatterFacts.
