(* ===== verification/Kernel.v ===== *)
(** The value types every crate shares: crates/kernel/src.

    Errors, spans, limits and bounded rows with their checked constructors, digests with their
    hexadecimal text, and the call deadline that threads credit without a lock.  The deadline's
    compare-and-exchange loop is a step relation over the interleavings of its threads. *)

From Stdlib Require Import Floats.SpecFloat Strings.String.
From S2P Require Import Prelude RustStr Text CodePoints JsonFloat.
Local Open Scope Z_scope.
Local Open Scope rs_scope.

(** * Errors: error.rs *)

Inductive Error :=
| OperationFailed (message : str)
| InputUnreadable (message : str)
| SecurityRefusal (message : str)
| WalkBoundExceeded (message : str)
| LanguageUnavailable (message : str)
| UnmeasurableSource (message : str)
| RepoResolution (message : str)
| RevisionUnresolved (message : str)
| CallStopped (message : str)
| CacheLocked (message : str).

(** * Spans: span.rs *)

Module Span.
Record Span := { start : Z; end_ : Z }.

Definition new (from to : Z) : option Span := if from <=? to then Some {| start := from; end_ := to |} else None.

Definition try_from (from to : Z) : result Span str :=
  match new from to with
  | Some span => Ok span
  | None => Err (lit "a span ends before it starts: " ++ dec_text from ++ lit ".." ++ dec_text to)
  end.
End Span.

(** * Limits: limit.rs *)

Module Limit.
(** A count in [MIN..=MAX]; the bounds are the parameters of the type. *)
Section Limit.
Context (MIN MAX DEF : Z).

Definition new (value : Z) : option Z := if (MIN <=? value) && (value <=? MAX) then Some value else None.

(** [None] when the build refuses the type. *)
Definition default : option Z := if (MIN <=? DEF) && (DEF <=? MAX) then Some DEF else None.

Definition deserialize (value : Z) : result Z str :=
  match new value with
  | Some limit => Ok limit
  | None => Err (dec_text value ++ lit " is outside the range " ++ dec_text MIN ++ lit " to " ++ dec_text MAX)
  end.
End Limit.
End Limit.

(** * Bounded rows: bounded.rs *)

Module Bounded.
Section Bounded.
Context {T : Type}.

Record Bounded := { rows : list T; total : nat; limit : nat }.

Definition cut (all : list T) (limit : nat) : Bounded := {| rows := take limit all; total := length all; limit := limit |}.

(** [None] is the panic for more rows than the total. *)
Definition with_total (chosen : list T) (total limit : nat) : option Bounded :=
  if (length chosen <=? total)%nat then Some {| rows := take limit chosen; total := total; limit := limit |} else None.

(** [None] is the underflow of the subtraction. *)
Definition omitted (b : Bounded) : option nat :=
  if (length (rows b) <=? total b)%nat then Some (total b - length (rows b))%nat else None.

(** Every way to make bounded rows. *)
Inductive made : Bounded -> Prop :=
| made_cut all limit : made (cut all limit)
| made_with chosen total limit b : with_total chosen total limit = Some b -> made b.
End Bounded.
Arguments Bounded : clear implicits.
End Bounded.

(** * Digests: key.rs *)

Module Key.
Definition KEY_BYTES : nat := 32.

(** The digest bytes. *)
Definition Key := list Z.

Definition well_formed (key : Key) : Prop := length key = KEY_BYTES /\ Forall is_byte key.

Definition to_string (key : Key) : str := concat (hex_padded 2 <$> key).

(** The two loops of the table: the decimal digits, then the letters. *)
Definition NIBBLES : list Z :=
  let digits := fold_left (fun table digit => <[digit := Z.of_nat digit - 48]> table) (seq 48 10) (replicate 256 0xff) in
  fold_left (fun table letter => <[letter := Z.of_nat letter - 97 + 10]> table) (seq 97 6) digits.

Definition nibble (byte : Z) : Z := nth (Z.to_nat byte) NIBBLES 0xff.

(** The bytes of the pairs of digits, and the disjunction of every nibble; a trailing byte of an
    odd length is left out, as [chunks_exact] does. *)
Fixpoint decode (digits : list Z) (seen : Z) : list Z * Z :=
  match digits with
  | h :: l :: rest =>
      let '(high, low) := (nibble h, nibble l) in
      let '(bytes, seen) := decode rest (Z.lor seen (Z.lor high low)) in
      (Z.lor (Z.land (Z.shiftl high 4) 0xff) (Z.land low 0x0f) :: bytes, seen)
  | _ => ([], seen)
  end.

(** [None] is the parse error. *)
Definition from_str (text : str) : option Key :=
  let digits := as_bytes text in
  if negb (length digits =? KEY_BYTES * 2)%nat then None
  else
    let '(bytes, seen) := decode digits 0 in
    if 0x0f <? seen then None else Some bytes.
End Key.

(** * The deadline: deadline.rs *)

Module Deadline.
Notation f64 := spec_float (only parsing).

Record Duration := { secs : Z; nanos : Z }.

Definition as_secs_f64 (d : Duration) : f64 := f64_add (f64_of (secs d)) (f64_div (f64_of (nanos d)) (f64_of 1000000000)).

(** Rounded to the nearest nanosecond; [None] is the panic for a negative, too large or
    non-finite number of seconds. *)
Definition from_secs_f64 (x : f64) : option Duration :=
  if negb (is_finite x) || f64_lt x f64_zero then None
  else
    let '(a, b) := magnitude x in
    let n := div_half_even (a * 1000000000) b in
    if n / 1000000000 <? 2 ^ 64 then Some {| secs := n / 1000000000; nanos := n mod 1000000000 |} else None.

Inductive Stopped :=
| Cancelled
| Spent (elapsed limit grace credited : f64).

(** What a deadline holds besides its clock; the cell's bits stand for the float they encode. *)
Record Deadline := { limit : f64; grace : f64; credited : f64; cancelled : bool }.

Definition new (limit grace : f64) : Deadline :=
  {| limit := limit; grace := grace; credited := f64_zero; cancelled := false |}.

Definition cancel (d : Deadline) : Deadline :=
  {| limit := limit d; grace := grace d; credited := credited d; cancelled := true |}.

Definition credited_after (credited seconds grace : f64) : f64 :=
  let sum := f64_add credited seconds in if f64_lt sum grace then sum else grace.

Definition with_credited (d : Deadline) (x : f64) : Deadline :=
  {| limit := limit d; grace := grace d; credited := x; cancelled := cancelled d |}.

(** [credit] when no other thread credits in between. *)
Definition credit (d : Deadline) (seconds : f64) : Deadline :=
  with_credited d (credited_after (credited d) seconds (grace d)).

(** The deadline after work that took [seconds]. *)
Definition recaching (d : option Deadline) (seconds : f64) : option Deadline :=
  match d with Some d => Some (credit d seconds) | None => None end.

Definition remaining (d : Deadline) (elapsed : f64) : f64 := f64_sub (f64_add (limit d) (credited d)) elapsed.

(** At [elapsed] seconds on the clock. *)
Definition check (d : Deadline) (elapsed : f64) : result unit Stopped :=
  if cancelled d then Err Cancelled
  else if f64_lt (f64_add (limit d) (credited d)) elapsed
  then Err (Spent elapsed (limit d) (grace d) (credited d))
  else Ok tt.

Definition checkpoint (d : option Deadline) (elapsed : f64) : result unit Stopped :=
  match d with Some d => check d elapsed | None => Ok tt end.

(** The seconds of a walk's budget. *)
Definition budget_seconds (cap remaining : f64) : f64 :=
  let half := f64_div remaining (f64_of 2) in
  let lesser := if f64_lt half cap then half else cap in
  if f64_lt f64_zero lesser then lesser else f64_zero.

(** [None] is the panic of the conversion. *)
Definition walk_budget (cap : Duration) (remaining : option f64) : option Duration :=
  match remaining with
  | None => Some cap
  | Some remaining => from_secs_f64 (budget_seconds (as_secs_f64 cap) remaining)
  end.

(** ** Credits of several threads *)

(** Where a thread is in [credit]: about to load the cell, about to exchange it for its sum, or
    done. *)
Inductive Phase :=
| Loading (seconds : f64)
| Exchanging (seconds current : f64)
| Credited (seconds : f64).

Definition seconds_of (p : Phase) : f64 :=
  match p with Loading s | Exchanging s _ | Credited s => s end.

(** The deadline, its threads, and the credits in the order in which their exchanges
    succeeded. *)
Record System := { deadline : Deadline; threads : list Phase; log : list f64 }.

(** One atomic access.  The weak exchange can fail although the cell holds the current value. *)
Inductive step : System -> System -> Prop :=
| step_load s i seconds :
    threads s !! i = Some (Loading seconds) ->
    step s {| deadline := deadline s; threads := <[i := Exchanging seconds (credited (deadline s))]> (threads s); log := log s |}
| step_exchange s i seconds :
    threads s !! i = Some (Exchanging seconds (credited (deadline s))) ->
    step s {| deadline := with_credited (deadline s)
                (credited_after (credited (deadline s)) seconds (grace (deadline s)));
              threads := <[i := Credited seconds]> (threads s); log := log s ++ [seconds] |}
| step_retry s i seconds current :
    threads s !! i = Some (Exchanging seconds current) ->
    step s {| deadline := deadline s; threads := <[i := Exchanging seconds (credited (deadline s))]> (threads s); log := log s |}
| step_cancel s :
    step s {| deadline := cancel (deadline s); threads := threads s; log := log s |}.

Definition start (limit grace : f64) (credits : list f64) : System :=
  {| deadline := new limit grace; threads := Loading <$> credits; log := [] |}.

Inductive reachable (s : System) : System -> Prop :=
| reachable_here : reachable s s
| reachable_step t u : reachable s t -> step t u -> reachable s u.
End Deadline.

(** * Bounded rows *)

(** Bounded rows hold no more than their limit, and the rows left out are counted without
    underflow. *)
Theorem bounded_counts {T} (b : Bounded.Bounded T) (H : Bounded.made b) :
  (length (Bounded.rows b) <= Bounded.limit b)%nat /\
  exists left_out, Bounded.omitted b = Some left_out /\
    (length (Bounded.rows b) + left_out = Bounded.total b)%nat.
Proof.
  assert (forall rows : list T, (length rows <= Bounded.total b)%nat -> Bounded.rows b = take (Bounded.limit b) rows ->
    (length (Bounded.rows b) <= Bounded.limit b)%nat /\
    exists left_out, Bounded.omitted b = Some left_out /\ (length (Bounded.rows b) + left_out = Bounded.total b)%nat) as Hb.
  { intros rows Hlen Hr. rewrite Hr, length_take. split; [lia|]. unfold Bounded.omitted. rewrite Hr, length_take.
    rewrite (proj2 (Nat.leb_le _ _)) by lia. eexists. split; [done|]. lia. }
  destruct H as [all limit|chosen total limit b Hw].
  - by apply (Hb all).
  - unfold Bounded.with_total in Hw. destruct (Nat.leb_spec (length chosen) total); [|done]. injection Hw as <-.
    by apply (Hb chosen).
Qed.

Lemma bounded_counts_witness :
  Bounded.made (Bounded.cut [1; 2; 3] 2) /\ (length (Bounded.rows (Bounded.cut [1; 2; 3] 2)) <= 2)%nat.
Proof.
  assert (Bounded.made (Bounded.cut [1; 2; 3] 2)) as H by constructor. split; [exact H|].
  exact (proj1 (bounded_counts _ H)).
Defined.

(** * Digests *)

Module KeyFacts.
Import Key.

Lemma nibble_table :
  forallb (fun b => let n := nibble (Z.of_nat b) in
    (0 <=? n) && (n <=? 0xff) && ((0x0f <? n) || (hex_digit n =? Z.of_nat b))) (seq 0 256) = true.
Proof. vm_compute. reflexivity. Qed.

Lemma nibble_spec b : 0 <= nibble b <= 0xff /\ (nibble b <= 0x0f -> 0 <= b < 128 /\ hex_digit (nibble b) = b).
Proof.
  destruct (decide (0 <= b < 256)) as [Hb|Hb].
  - pose proof nibble_table as H. rewrite forallb_forall in H. specialize (H (Z.to_nat b)).
    rewrite Z2Nat.id in H by lia. assert (In (Z.to_nat b) (seq 0 256)) as Hin by (apply in_seq; lia). specialize (H Hin).
    cbv zeta in H. apply andb_prop in H as [H H2]. apply andb_prop in H as [H0 H1].
    apply Z.leb_le in H0, H1. split; [done|]. intros Hn. apply orb_prop in H2 as [H2|H2]; [apply Z.ltb_lt in H2; lia|].
    apply Z.eqb_eq in H2. split; [|done]. unfold hex_digit in H2. destruct (nibble b <? 10) eqn:E; lia.
  - assert (nibble b = 0xff) as ->; [|lia]. unfold nibble. destruct (Z.ltb_spec b 0).
    + replace (Z.to_nat b) with 0%nat by lia. reflexivity.
    + apply nth_overflow. vm_compute (length NIBBLES). lia.
Qed.

Lemma nibble_digit n : 0 <= n <= 0x0f -> nibble (hex_digit n) = n.
Proof.
  intros Hn. assert (forallb (fun n => nibble (hex_digit (Z.of_nat n)) =? Z.of_nat n) (seq 0 16) = true) as H by (vm_compute; reflexivity).
  rewrite forallb_forall in H. specialize (H (Z.to_nat n)). rewrite Z2Nat.id in H by lia. apply Z.eqb_eq, H, in_seq. lia.
Qed.

Lemma hex_padded_byte b : is_byte b -> hex_padded 2 b = [hex_digit (b / 16); hex_digit (b mod 16)].
Proof.
  intros Hb. assert (forallb (fun n => bool_decide (hex_padded 2 (Z.of_nat n) =
    [hex_digit (Z.of_nat n / 16); hex_digit (Z.of_nat n mod 16)])) (seq 0 256) = true) as H by (vm_compute; reflexivity).
  rewrite forallb_forall in H. specialize (H (Z.to_nat b)). unfold is_byte in Hb. rewrite Z2Nat.id in H by lia.
  eapply bool_decide_eq_true_1, H, in_seq. lia.
Qed.

Lemma lor_small a b : 0 <= a -> 0 <= b -> Z.lor a b <= 0x0f <-> a <= 0x0f /\ b <= 0x0f.
Proof.
  intros Ha Hb. assert (forall x, 0 <= x -> x <= 0x0f <-> Z.shiftr x 4 = 0) as Hs.
  { intros x Hx. rewrite Z.shiftr_div_pow2 by lia. change (2 ^ 4) with 16. split; intros; [apply Z.div_small; lia|].
    apply Z.div_small_iff in H; lia. }
  rewrite !Hs by (try apply Z.lor_nonneg; lia). by rewrite Z.shiftr_lor, Z.lor_eq_0_iff.
Qed.

Lemma nibble_pair h l : 0 <= h <= 0x0f -> 0 <= l <= 0x0f -> Z.lor (Z.land (Z.shiftl h 4) 0xff) (Z.land l 0x0f) = h * 16 + l.
Proof.
  intros Hh Hl. assert (forallb (fun h => forallb (fun l =>
    Z.lor (Z.land (Z.shiftl (Z.of_nat h) 4) 0xff) (Z.land (Z.of_nat l) 0x0f) =? Z.of_nat h * 16 + Z.of_nat l) (seq 0 16)) (seq 0 16) = true)
    as H by (vm_compute; reflexivity).
  rewrite forallb_forall in H. specialize (H (Z.to_nat h)). rewrite forallb_forall in H.
  specialize (H ltac:(apply in_seq; lia) (Z.to_nat l) ltac:(apply in_seq; lia)). apply Z.eqb_eq in H.
  by rewrite !Z2Nat.id in H by lia.
Qed.

(** The table decode accepts an even number of lowercase digits, and nothing else. *)
Lemma decode_spec digits seen bytes seen' :
  0 <= seen -> decode digits seen = (bytes, seen') -> Nat.even (length digits) = true ->
  0 <= seen' /\ (seen' <= 0x0f -> seen <= 0x0f /\ Forall is_byte bytes /\ Forall is_ascii digits /\ digits = to_string bytes).
Proof.
  revert seen bytes seen'. induction digits as [| |h l digits IH] using pair_list_ind; intros seen bytes seen' Hs.
  - intros [= <- <-] _. split; [done|]. by intros.
  - done.
  - cbn [decode length]. destruct (decode digits _) as [bytes' seen''] eqn:Ed. intros [= <- <-] Hev.
    destruct (nibble_spec h) as [Hh Hh'], (nibble_spec l) as [Hl Hl'].
    assert (0 <= Z.lor (nibble h) (nibble l)) as Hhl by (apply Z.lor_nonneg; lia).
    apply IH in Ed as [H0 Hd]; [|by apply Z.lor_nonneg|done]. split; [done|]. intros Hle.
    destruct (Hd Hle) as (Hlo & Hb & Ha & ->). apply lor_small in Hlo as [Hs1 Hlo]; [|done..].
    apply lor_small in Hlo as [Hh1 Hl1]; [|lia..].
    destruct (Hh' Hh1) as [Ha1 E1], (Hl' Hl1) as [Ha2 E2]. split; [done|]. rewrite nibble_pair by lia.
    assert (is_byte (nibble h * 16 + nibble l)) as Hbyte by (unfold is_byte; lia).
    split; [by constructor|]. split; [by constructor; [|constructor]|].
    unfold to_string. rewrite fmap_cons. cbn [concat]. rewrite hex_padded_byte by done.
    rewrite Z.div_add_l, Z.div_small, Z.add_0_r by lia. rewrite Z.add_comm, Z_mod_plus_full, Z.mod_small by lia.
    by rewrite E1, E2.
Qed.

Lemma decode_to_string key seen :
  0 <= seen <= 0x0f -> Forall is_byte key -> exists seen', decode (to_string key) seen = (key, seen') /\ seen' <= 0x0f.
Proof.
  intros Hs H. revert seen Hs. induction H as [|b key Hb _ IH]; intros seen Hs; [exists seen; split; [done|lia]|].
  unfold to_string. rewrite fmap_cons. cbn [concat]. rewrite hex_padded_byte by done. cbn [app decode].
  fold (to_string key). unfold is_byte in Hb.
  pose proof (Z.div_lt_upper_bound b 16 16 ltac:(lia) ltac:(lia)). pose proof (Z.div_pos b 16 ltac:(lia) ltac:(lia)).
  pose proof (Z.mod_pos_bound b 16 ltac:(lia)). rewrite !nibble_digit by lia.
  destruct (IH (Z.lor seen (Z.lor (b / 16) (b mod 16)))) as (seen' & -> & Hle).
  { assert (0 <= Z.lor (b / 16) (b mod 16)) by (apply Z.lor_nonneg; lia). split; [apply Z.lor_nonneg; lia|].
    apply lor_small; [lia..|]. split; [lia|]. apply lor_small; lia. }
  exists seen'. split; [|done]. rewrite nibble_pair by lia. f_equal. f_equal. pose proof (Z.div_mod b 16 ltac:(lia)). lia.
Qed.

Lemma length_to_string key : Forall is_byte key -> length (to_string key) = (length key * 2)%nat.
Proof.
  induction 1 as [|b key Hb _ IH]; [done|]. unfold to_string. rewrite fmap_cons. cbn [concat]. fold (to_string key).
  rewrite hex_padded_byte, length_app, IH by done. cbn. lia.
Qed.

Lemma to_string_ascii key : Forall is_byte key -> Forall is_ascii (to_string key).
Proof.
  induction 1 as [|b key Hb _ IH]; [constructor|]. unfold to_string. rewrite fmap_cons. cbn [concat]. fold (to_string key).
  rewrite hex_padded_byte by done. apply Forall_app. split; [|done]. unfold is_byte in Hb.
  pose proof (Z.div_lt_upper_bound b 16 16 ltac:(lia) ltac:(lia)). pose proof (Z.div_pos b 16 ltac:(lia) ltac:(lia)).
  pose proof (Z.mod_pos_bound b 16 ltac:(lia)).
  constructor; [|constructor; [|constructor]]; unfold is_ascii, hex_digit; case_match; lia.
Qed.
End KeyFacts.

(** A text parses to a digest exactly when it is the digest's 64 lowercase digits. *)
Theorem key_text_exact text key (Htext : is_str text) :
  Key.from_str text = Some key <-> Key.well_formed key /\ text = Key.to_string key.
Proof.
  unfold Key.from_str, Key.well_formed. split.
  - destruct (Nat.eqb_spec (length (as_bytes text)) (Key.KEY_BYTES * 2)) as [Hlen|]; [|done]. cbn [negb].
    destruct (Key.decode (as_bytes text) 0) as [bytes seen] eqn:Ed. destruct (Z.ltb_spec 0x0f seen) as [|Hle]; [done|].
    intros [= <-]. apply KeyFacts.decode_spec in Ed as [_ Hd]; [|done|by rewrite Hlen].
    destruct (Hd Hle) as (_ & Hb & Ha & E). split; [|rewrite E in Ha; by eapply as_bytes_ascii_inv].
    split; [|done]. rewrite E, KeyFacts.length_to_string in Hlen by done. lia.
  - intros [[Hlen Hb] ->]. rewrite as_bytes_ascii by (by apply KeyFacts.to_string_ascii).
    rewrite KeyFacts.length_to_string, Hlen, Nat.eqb_refl by done. cbn [negb].
    destruct (KeyFacts.decode_to_string key 0 ltac:(lia) Hb) as (seen & -> & Hle).
    by rewrite (proj2 (Z.ltb_ge _ _)).
Qed.

Lemma key_text_exact_witness :
  is_str (Key.to_string (replicate 32 0xab)) /\ Key.from_str (Key.to_string (replicate 32 0xab)) = Some (replicate 32 0xab).
Proof.
  assert (is_str (Key.to_string (replicate 32 0xab))) as H by (apply all_spec; vm_compute; reflexivity).
  split; [exact H|]. apply (key_text_exact _ _ H). split; [|reflexivity]. split; [reflexivity|]. by apply Forall_replicate.
Defined.

(** * The deadline *)

Module DeadlineFacts.
Import Deadline.

Lemma pos_compare_refl m : Pos.compare_cont Eq m m = Eq.
Proof. apply Pos.compare_refl. Qed.

Lemma f64_lt_irrefl x : f64_lt x x = false.
Proof.
  destruct x as [| [] | | [] m e]; try done; unfold f64_lt, SFltb, SFcompare; by rewrite Z.compare_refl, pos_compare_refl.
Qed.

Lemma f64_lt_asym x y : f64_lt x y = true -> f64_lt y x = false.
Proof.
  unfold f64_lt, SFltb. destruct x as [sx|sx| |sx mx ex], y as [sy|sy| |sy my ey]; try done; cbn [SFcompare];
    try (by destruct sx); try (by destruct sy); try (by destruct sx, sy).
  rewrite (Z.compare_antisym ex ey). fold (Pos.compare mx my) (Pos.compare my mx). rewrite (Pos.compare_antisym mx my).
  by destruct sx, sy, (Z.compare ex ey), (Pos.compare mx my).
Qed.

(** A credit never lifts the cell above the grace. *)
Lemma credited_after_le c seconds grace : f64_lt grace (credited_after c seconds grace) = false.
Proof.
  unfold credited_after. destruct (f64_lt _ grace) eqn:E; [by apply f64_lt_asym|apply f64_lt_irrefl].
Qed.

(** What a list of credits leaves in the cell, one after another. *)
Definition credit_all (grace : f64) (credits : list f64) : f64 :=
  fold_left (fun c seconds => credited_after c seconds grace) credits f64_zero.

Lemma credit_all_le grace credits : f64_lt grace f64_zero = false -> f64_lt grace (credit_all grace credits) = false.
Proof.
  intros Hg. unfold credit_all. destruct credits as [|s credits _] using rev_ind; [done|].
  rewrite fold_left_app. apply credited_after_le.
Qed.

Definition is_credited (p : Phase) : bool := match p with Credited _ => true | _ => false end.

(** The log is the seconds of the threads that are done. *)
Definition logged (s : System) : Prop := log s ≡ₚ seconds_of <$> List.filter is_credited (threads s).

Lemma filter_insert_same ts i p q :
  ts !! i = Some p -> is_credited p = false -> is_credited q = false ->
  List.filter is_credited (<[i := q]> ts) = List.filter is_credited ts.
Proof.
  intros Hi Hp Hq. rewrite <-(take_drop_middle ts i p Hi) at 2. rewrite insert_take_drop by (by eapply lookup_lt_Some).
  rewrite !List.filter_app. cbn [List.filter]. by rewrite Hp, Hq.
Qed.

Lemma filter_insert_done ts i p seconds :
  ts !! i = Some p -> is_credited p = false ->
  List.filter is_credited (<[i := Credited seconds]> ts) ≡ₚ Credited seconds :: List.filter is_credited ts.
Proof.
  intros Hi Hp. rewrite <-(take_drop_middle ts i p Hi) at 2. rewrite insert_take_drop by (by eapply lookup_lt_Some).
  rewrite !List.filter_app. cbn [List.filter is_credited]. rewrite Hp. symmetry. apply Permutation_middle.
Qed.

Record ok (limit grace : f64) (credits : list f64) (s : System) : Prop := {
  ok_limit : Deadline.limit (deadline s) = limit;
  ok_grace : Deadline.grace (deadline s) = grace;
  ok_cell : credited (deadline s) = credit_all grace (log s);
  ok_logged : logged s;
  ok_seconds : seconds_of <$> threads s = credits
}.

Lemma seconds_insert (ts : list Phase) (i : nat) p q :
  ts !! i = Some p -> seconds_of q = seconds_of p -> seconds_of <$> <[i := q]> ts = seconds_of <$> ts.
Proof.
  intros Hi Hq. rewrite list_fmap_insert, Hq. apply list_insert_id. by rewrite list_lookup_fmap, Hi.
Qed.

Lemma start_ok limit grace credits : ok limit grace credits (start limit grace credits).
Proof.
  split; try done.
  - unfold logged. cbn. rewrite filter_nil_iff_false; [done|]. intros x Hx. change (In x (map Loading credits)) in Hx.
    apply in_map_iff in Hx as (c & <- & _). done.
  - cbn. rewrite <-list_fmap_compose. apply list_fmap_id.
Qed.

Lemma step_ok limit grace credits s s' : ok limit grace credits s -> step s s' -> ok limit grace credits s'.
Proof.
  intros [Hl Hg Hc Ho Hs] Hstep. unfold logged in *.
  destruct Hstep as [s i seconds Hi|s i seconds Hi|s i seconds current Hi|s]; split; cbn; try done.
  - unfold logged. cbn. by rewrite (filter_insert_same _ _ _ _ Hi).
  - by rewrite (seconds_insert _ _ _ _ Hi).
  - unfold credit_all. rewrite fold_left_app. cbn. by rewrite Hg, Hc.
  - unfold logged. cbn. rewrite (filter_insert_done _ _ _ _ Hi) by done. cbn.
    rewrite Permutation_app_comm. cbn. by constructor.
  - by rewrite (seconds_insert _ _ _ _ Hi).
  - unfold logged. cbn. by rewrite (filter_insert_same _ _ _ _ Hi).
  - by rewrite (seconds_insert _ _ _ _ Hi).
Qed.

Lemma reachable_ok limit grace credits s : reachable (start limit grace credits) s -> ok limit grace credits s.
Proof. induction 1 as [|t u _ IH Hs]; [apply start_ok|by eapply step_ok]. Qed.

Lemma reachable_trans s t u : reachable s t -> reachable t u -> reachable s u.
Proof. intros Hst. induction 1 as [|v u _ IH Hs]; [done|by eapply reachable_step]. Qed.

Lemma cancelled_stays s t : reachable s t -> cancelled (deadline s) = true -> cancelled (deadline t) = true.
Proof. induction 1 as [|t u _ IH Hs]; [done|]. intros H. specialize (IH H). by destruct Hs. Qed.
End DeadlineFacts.

(** C32: Whatever the interleaving of the threads that credit, no credit is lost or made twice: the
    cell holds what the credits of the finished threads leave when made one after another, and
    is never above a grace that is not negative. *)
Theorem credits_linearized limit grace credits s
  (H : Deadline.reachable (Deadline.start limit grace credits) s) :
  Deadline.credited (Deadline.deadline s) = DeadlineFacts.credit_all grace (Deadline.log s) /\
  Deadline.log s ≡ₚ Deadline.seconds_of <$> List.filter DeadlineFacts.is_credited (Deadline.threads s) /\
  Deadline.seconds_of <$> Deadline.threads s = credits /\
  (f64_lt grace f64_zero = false ->
   f64_lt grace (Deadline.credited (Deadline.deadline s)) = false).
Proof.
  destruct (DeadlineFacts.reachable_ok _ _ _ _ H) as [_ _ Hc Ho Hs]. split; [done|]. split; [done|]. split; [done|].
  rewrite Hc. apply DeadlineFacts.credit_all_le.
Qed.

(** Two threads, of which the second exchanges first. *)
Lemma credits_linearized_witness :
  let five := f64_of 5 in
  let s := {| Deadline.deadline := Deadline.with_credited (Deadline.new five five) five;
              Deadline.threads := [Deadline.Exchanging five f64_zero; Deadline.Credited five];
              Deadline.log := [five] |} in
  Deadline.reachable (Deadline.start five five [five; five]) s /\
  Deadline.credited (Deadline.deadline s) = DeadlineFacts.credit_all five [five].
Proof.
  intros five s. assert (Deadline.reachable (Deadline.start five five [five; five]) s) as H.
  { pose (s0 := Deadline.start five five [five; five]).
    pose proof (Deadline.step_load s0 0 five eq_refl) as H0. pose proof (Deadline.reachable_step _ _ _ (Deadline.reachable_here s0) H0) as R0.
    pose proof (fun H => Deadline.reachable_step _ _ _ R0 (Deadline.step_load _ 1 five H)) as R1. specialize (R1 eq_refl).
    pose proof (fun H => Deadline.reachable_step _ _ _ R1 (Deadline.step_exchange _ 1 five H)) as R2. specialize (R2 eq_refl).
    vm_compute in R2 |- *. exact R2. }
  split; [exact H|]. exact (proj1 (credits_linearized five five [five; five] s H)).
Defined.

(** ** The accesses of a thread *)
Module Accesses.
Import Deadline DeadlineFacts.

(** An access and its thread; a retry is spurious when the cell held the current value. *)
Inductive Access := Load (i : nat) | Exchange (i : nat) | Retry (i : nat) (spurious : bool) | Cancel.

Inductive does : Access -> System -> System -> Prop :=
| does_load s i seconds : threads s !! i = Some (Loading seconds) ->
    does (Load i) s {| deadline := deadline s; threads := <[i := Exchanging seconds (credited (deadline s))]> (threads s); log := log s |}
| does_exchange s i seconds : threads s !! i = Some (Exchanging seconds (credited (deadline s))) ->
    does (Exchange i) s {| deadline := credit (deadline s) seconds; threads := <[i := Credited seconds]> (threads s); log := log s ++ [seconds] |}
| does_retry s i seconds current (spurious : bool) : threads s !! i = Some (Exchanging seconds current) ->
    (if spurious then current = credited (deadline s) else current <> credited (deadline s)) ->
    does (Retry i spurious) s {| deadline := deadline s; threads := <[i := Exchanging seconds (credited (deadline s))]> (threads s); log := log s |}
| does_cancel s : does Cancel s {| deadline := cancel (deadline s); threads := threads s; log := log s |}.

Inductive run : list Access -> System -> System -> Prop :=
| run_end s : run [] s s
| run_step a accesses s t u : does a s t -> run accesses t u -> run (a :: accesses) s u.

Definition thread_of (a : Access) : option nat := match a with Load i | Exchange i | Retry i _ => Some i | Cancel => None end.

(** The accesses of the thread, its spurious failures, and the credits that the others make. *)
Definition own (i : nat) (accesses : list Access) : nat := length (List.filter (fun a => bool_decide (thread_of a = Some i)) accesses).
Definition spurious_failures (i : nat) (accesses : list Access) : nat :=
  length (List.filter (fun a => match a with Retry j true => Nat.eqb j i | _ => false end) accesses).
Definition credits_of_others (i : nat) (accesses : list Access) : nat :=
  length (List.filter (fun a => match a with Exchange j => negb (Nat.eqb j i) | _ => false end) accesses).

#[local] Instance spec_float_eq_dec : EqDecision f64.
Proof. solve_decision. Defined.

Lemma step_does s t : step s t <-> exists a, does a s t.
Proof.
  split.
  - intros [s' i seconds Hi|s' i seconds Hi|s' i seconds current Hi|s']; [eexists; by apply does_load|eexists; by apply does_exchange| |eexists; apply does_cancel].
    destruct (decide (current = credited (deadline s'))); [exists (Retry i true)|exists (Retry i false)]; by eapply does_retry.
  - intros [a [s' i seconds Hi|s' i seconds Hi|s' i seconds current spurious Hi _|s']]; [by apply step_load|by apply step_exchange|by eapply step_retry|apply step_cancel].
Qed.

(** The accesses that a thread still needs when nothing comes in between. *)
Definition needs (s : System) (i : nat) : nat :=
  (match threads s !! i with
  | Some (Loading _) => 2
  | Some (Exchanging _ current) => if decide (current = credited (deadline s)) then 1 else 2
  | _ => 0
  end)%nat.

Lemma needs_at s i p : threads s !! i = Some p -> needs s i = (match p with Loading _ => 2 | Exchanging _ current => if decide (current = credited (deadline s)) then 1 else 2 | Credited _ => 0 end)%nat.
Proof. unfold needs. by intros ->. Qed.

Lemma needs_moved s t i j q : threads t = <[j := q]> (threads s) -> j <> i -> deadline t = deadline s -> needs t i = needs s i.
Proof. unfold needs. intros -> Hji ->. by rewrite list_lookup_insert_ne. Qed.

Lemma needs_after s i j p q d l : threads s !! j = Some p -> needs {| deadline := d; threads := <[j := q]> (threads s); log := l |} j =
  (match q with Loading _ => 2 | Exchanging _ current => if decide (current = credited d) then 1 else 2 | Credited _ => 0 end)%nat /\ (i = j \/ j <> i).
Proof. intros Hj. unfold needs. cbn [threads deadline]. rewrite list_lookup_insert_eq by (by eapply lookup_lt_Some). split; [done|]. destruct (decide (i = j)); auto. Qed.

Lemma needs_le s i : (needs s i <= 2)%nat.
Proof. unfold needs. destruct (threads s !! i) as [[]|]; repeat case_decide; lia. Qed.

Lemma does_needs a s t i : does a s t -> (own i [a] + needs t i <= needs s i + spurious_failures i [a] + credits_of_others i [a])%nat.
Proof.
  unfold own, spurious_failures, credits_of_others. intros [s' j seconds Hj|s' j seconds Hj|s' j seconds current spurious Hj Hc|s']; cbn [List.filter thread_of].
  - destruct (needs_after s' i j _ (Exchanging seconds (credited (deadline s'))) (deadline s') (log s') Hj) as [Hn [->|Hji]].
    + rewrite Hn, (needs_at _ _ _ Hj), bool_decide_true, decide_True by done. cbn. lia.
    + rewrite bool_decide_false by congruence. rewrite (needs_moved s' _ i j (Exchanging seconds (credited (deadline s')))) by done. cbn. lia.
  - destruct (needs_after s' i j _ (Credited seconds) (credit (deadline s') seconds) (log s' ++ [seconds]) Hj) as [Hn [->|Hji]].
    + rewrite Hn, (needs_at _ _ _ Hj), bool_decide_true, decide_True, Nat.eqb_refl by done. cbn. lia.
    + rewrite bool_decide_false by congruence. rewrite (proj2 (Nat.eqb_neq j i)) by done. cbn [negb length].
      unfold needs. cbn [threads]. rewrite list_lookup_insert_ne by done. destruct (threads s' !! i) as [[]|]; repeat case_decide; lia.
  - destruct (needs_after s' i j _ (Exchanging seconds (credited (deadline s'))) (deadline s') (log s') Hj) as [Hn [->|Hji]].
    + rewrite Hn, (needs_at _ _ _ Hj), bool_decide_true, decide_True by done. rewrite Nat.eqb_refl. destruct spurious; [rewrite decide_True by done|rewrite decide_False by done]; cbn; lia.
    + rewrite bool_decide_false by congruence. rewrite (needs_moved s' _ i j (Exchanging seconds (credited (deadline s')))) by done. rewrite (proj2 (Nat.eqb_neq j i)) by done. destruct spurious; cbn; lia.
  - rewrite bool_decide_false by done. cbn. unfold needs. cbn [threads deadline cancel credited]. lia.
Qed.

Lemma count_cons {A} (f : A -> bool) a l : length (List.filter f (a :: l)) = (length (List.filter f [a]) + length (List.filter f l))%nat.
Proof. cbn. by destruct (f a). Qed.

Lemma run_needs accesses s t i : run accesses s t -> (own i accesses + needs t i <= needs s i + spurious_failures i accesses + credits_of_others i accesses)%nat.
Proof.
  induction 1 as [s|a accesses s t u Ha _ IH]; [cbn; lia|]. apply (does_needs _ _ _ i) in Ha. unfold own, spurious_failures, credits_of_others in *.
  rewrite (count_cons _ a accesses), (count_cons (fun a => match a with Retry j true => Nat.eqb j i | _ => false end) a accesses), (count_cons (fun a => match a with Exchange j => negb (Nat.eqb j i) | _ => false end) a accesses). lia.
Qed.

(** A thread keeps its seconds. *)
Lemma kept accesses s t i p : run accesses s t -> threads s !! i = Some p -> exists q, threads t !! i = Some q /\ seconds_of q = seconds_of p.
Proof.
  intros Hrun. revert p. induction Hrun as [s|a accesses s t u Ha _ IH]; intros p Hp; [by exists p|].
  assert (exists q, threads t !! i = Some q /\ seconds_of q = seconds_of p) as (q & Hq & Hs).
  { destruct Ha as [s' j seconds Hj|s' j seconds Hj|s' j seconds current spurious Hj _|s']; cbn [threads]; [..|by exists p];
      (destruct (decide (j = i)) as [->|Hne]; [rewrite Hj in Hp; injection Hp as <-; eexists; (split; [apply list_lookup_insert_eq; by eapply lookup_lt_Some|done])|by exists p; rewrite list_lookup_insert_ne]). }
  destruct (IH q Hq) as (r & Hr & Hrs). exists r. split; [done|congruence].
Qed.

(** A thread that has not credited can go on. *)
Lemma goes_on s i p : threads s !! i = Some p -> is_credited p = false -> exists a t, does a s t /\ thread_of a = Some i.
Proof.
  intros Hi Hp. destruct p as [seconds|seconds current|]; [by eexists _, _; split; [apply does_load|]| |done].
  destruct (decide (current = credited (deadline s))) as [->|Hne]; [by eexists _, _; split; [apply does_exchange|]|].
  eexists (Retry i false), _. split; [by eapply does_retry|done].
Qed.

(** The accesses of one thread change nothing but its phase, until it credits. *)
Lemma run_alone accesses i : forall s t p, run accesses s t -> Forall (fun a => thread_of a = Some i) accesses -> threads s !! i = Some p ->
  exists q, threads t = <[i := q]> (threads s) /\ seconds_of q = seconds_of p /\
    if is_credited q && negb (is_credited p) then deadline t = credit (deadline s) (seconds_of p) /\ log t = log s ++ [seconds_of p]
    else deadline t = deadline s /\ log t = log s.
Proof.
  induction accesses as [|a accesses IH]; intros s t p Hrun Ha Hp.
  { inversion Hrun; subst. exists p. rewrite list_insert_id by done. rewrite andb_negb_r. auto. }
  inversion Hrun as [|? ? ? s1 ? Hd Hrest]; subst. apply Forall_cons in Ha as [Hai Ha]. pose proof (lookup_lt_Some _ _ _ Hp) as Hlt.
  destruct Hd as [s' j seconds Hj|s' j seconds Hj|s' j seconds current spurious Hj _|s']; [injection Hai as ->..|done]; rewrite Hj in Hp; injection Hp as <-;
    (match type of Hrest with run _ {| deadline := _; threads := <[i := ?q]> _; log := _ |} _ =>
      destruct (IH _ _ q Hrest Ha) as (q' & Ht & Hs & Hq); [cbn; by rewrite list_lookup_insert_eq|] end);
    exists q'; cbn [threads deadline log seconds_of] in *; rewrite list_insert_insert_eq in Ht; (split; [exact Ht|]); (split; [exact Hs|]); cbn [is_credited negb] in *; rewrite ?andb_true_r, ?andb_false_r in *;
    [exact Hq| |exact Hq].
  assert (is_credited q' = true) as ->; [|exact Hq].
  destruct accesses as [|b accesses]; [inversion Hrest; subst; cbn in Ht; apply (f_equal (lookup i)) in Ht; rewrite !list_lookup_insert_eq in Ht by done; by injection Ht as <-|].
  exfalso. inversion Hrest as [|? ? ? s2 ? Hd Hrest']; subst. apply Forall_cons in Ha as [Hb _]. inversion Hd as [? j ? H|? j ? H|? j ? ? ? H|]; subst; [injection Hb as ->..|done];
    cbn [threads] in H; by rewrite list_lookup_insert_eq in H.
Qed.
End Accesses.

(** C33: In every interleaving a credit takes at most two accesses, one more for each spurious failure of its
    exchange and one for each credit that another thread makes meanwhile, and until it is made the
    thread has an access to take; alone it adds its seconds to what the others left, once.  A
    cancelled call is stopped by every later check. *)
Theorem credit_ends s t accesses i p
  (Hrun : Accesses.run accesses s t) (Hi : Deadline.threads s !! i = Some p) (Hp : DeadlineFacts.is_credited p = false) :
  (forall u v, Deadline.step u v <-> exists a, Accesses.does a u v) /\
  (Accesses.own i accesses <= 2 + Accesses.spurious_failures i accesses + Accesses.credits_of_others i accesses)%nat /\
  (exists q, Deadline.threads t !! i = Some q /\ Deadline.seconds_of q = Deadline.seconds_of p /\
    (DeadlineFacts.is_credited q = false -> exists a u, Accesses.does a t u /\ Accesses.thread_of a = Some i) /\
    (Forall (fun a => Accesses.thread_of a = Some i) accesses -> DeadlineFacts.is_credited q = true ->
      Deadline.deadline t = Deadline.credit (Deadline.deadline s) (Deadline.seconds_of p) /\
      Deadline.log t = Deadline.log s ++ [Deadline.seconds_of p])) /\
  (Deadline.cancelled (Deadline.deadline s) = true -> forall elapsed, Deadline.check (Deadline.deadline t) elapsed = Err Deadline.Cancelled).
Proof.
  assert (Deadline.reachable s t) as Hreach.
  { clear -Hrun. induction Hrun as [s|a accesses s t u Ha _ IH]; [apply Deadline.reachable_here|].
    eapply DeadlineFacts.reachable_trans; [|exact IH]. eapply Deadline.reachable_step; [apply Deadline.reachable_here|]. apply Accesses.step_does. by exists a. }
  split; [apply Accesses.step_does|]. split; [pose proof (Accesses.run_needs _ _ _ i Hrun); pose proof (Accesses.needs_le s i); lia|]. split.
  - destruct (Accesses.kept _ _ _ _ _ Hrun Hi) as (q & Hq & Hs). exists q. split; [done|]. split; [done|]. split; [by eapply Accesses.goes_on|].
    intros Halone Hdone. destruct (Accesses.run_alone _ _ _ _ _ Hrun Halone Hi) as (q' & Ht & _ & Hres).
    rewrite Ht, list_lookup_insert_eq in Hq by (by eapply lookup_lt_Some). injection Hq as ->. by rewrite Hdone, Hp in Hres.
  - intros Hc elapsed. apply (DeadlineFacts.cancelled_stays _ _ Hreach) in Hc. unfold Deadline.check. by rewrite Hc.
Qed.

(** A thread whose exchange fails once spuriously and once for the credit of another. *)
Lemma credit_ends_witness :
  let five := f64_of 5 in
  let trace := [Accesses.Load 0; Accesses.Retry 0 true; Accesses.Load 1; Accesses.Exchange 1; Accesses.Retry 0 false; Accesses.Exchange 0] in
  exists t, Accesses.run trace (Deadline.start five (f64_of 9) [five; five]) t /\ Deadline.log t = [five; five] /\
    (Accesses.own 0 trace <= 2 + Accesses.spurious_failures 0 trace + Accesses.credits_of_others 0 trace)%nat.
Proof.
  intros five trace. assert (exists t, Accesses.run trace (Deadline.start five (f64_of 9) [five; five]) t /\ Deadline.log t = [five; five]) as (t & Hrun & Hlog).
  { eexists. split; [|].
    - eapply Accesses.run_step; [by apply Accesses.does_load|]. eapply Accesses.run_step; [by eapply (Accesses.does_retry _ 0 _ _ true)|].
      eapply Accesses.run_step; [by apply Accesses.does_load|]. eapply Accesses.run_step; [by eapply Accesses.does_exchange|].
      eapply Accesses.run_step; [eapply (Accesses.does_retry _ 0 _ _ false); [reflexivity|vm_compute; discriminate]|].
      eapply Accesses.run_step; [by eapply Accesses.does_exchange|]. apply Accesses.run_end.
    - reflexivity. }
  exists t. split; [exact Hrun|]. split; [exact Hlog|]. exact (proj1 (proj2 (credit_ends _ _ _ 0 _ Hrun eq_refl eq_refl))).
Defined.

(** The walk's budget is never negative and never above the cap. *)
Lemma budget_seconds_bounds cap remaining :
  f64_lt (Deadline.budget_seconds cap remaining) f64_zero = false /\
  (f64_lt cap f64_zero = false -> f64_lt cap (Deadline.budget_seconds cap remaining) = false).
Proof.
  unfold Deadline.budget_seconds. cbv zeta. set (half := f64_div remaining _).
  destruct (f64_lt half cap) eqn:E.
  - destruct (f64_lt f64_zero half) eqn:E0; [|done]. split; [by apply DeadlineFacts.f64_lt_asym|].
    intros _. by apply DeadlineFacts.f64_lt_asym.
  - destruct (f64_lt f64_zero cap) eqn:E0; [|done]. split; [by apply DeadlineFacts.f64_lt_asym|].
    intros _. apply DeadlineFacts.f64_lt_irrefl.
Qed.

(** The source's tests. *)
Example spent : Deadline.check (Deadline.new (f64_of 5) (f64_of 7)) (f64_of 72) =
  Err (Deadline.Spent (f64_of 72) (f64_of 5) (f64_of 7) f64_zero).
Proof. vm_compute. reflexivity. Qed.

Example budget_half :
  Deadline.walk_budget {| Deadline.secs := 10; Deadline.nanos := 0 |} (Some (f64_of 8)) =
  Some {| Deadline.secs := 4; Deadline.nanos := 0 |}.
Proof. vm_compute. reflexivity. Qed.

Example budget_nan :
  Deadline.walk_budget {| Deadline.secs := 10; Deadline.nanos := 0 |} (Some S754_nan) =
  Some {| Deadline.secs := 10; Deadline.nanos := 0 |}.
Proof. vm_compute. reflexivity. Qed.
