(* ===== verification/Contain.v ===== *)
(** Path resolution and containment: crates/io/src/contain.rs.

    Paths are byte strings, as [OsStrExt] gives them.  What the operating system answers is a
    class of queries on a world; the code here only reads.  [resolve_walks] states that the
    stack machine of [resolve], with its cache, computes the walk of a path that follows each
    link, and [contained_inside] that an accepted path is where the walk of the candidate
    ends, at or below the end of the root's. *)

From S2P Require Import Prelude RustStr Text.
Local Open Scope Z_scope.
Local Open Scope rs_scope.

(** * The operating system *)

Inductive FileType := Directory | RegularFile | Symlink | OtherFile.

#[export] Instance FileType_eq_dec : EqDecision FileType.
Proof. solve_decision. Defined.

Record Metadata := { file_type : FileType; len : Z; mode : Z }.

(** The queries of std::env and std::fs, with [E] for io::Error.  A query that the code only
    tests for success answers an option. *)
Class Files (W E : Type) := {
  current_dir : W -> result str E;
  symlink_metadata : W -> str -> option Metadata;
  metadata : W -> str -> result Metadata E;
  read_link : W -> str -> option str;
  canonicalize : W -> str -> option str;
  invalid_input : E
}.

Definition c_nul : char := 0.

(** std::path: whether a path is absolute, its components, and the join of two paths. *)
Inductive Component := RootDir | CurDir | ParentDir | Normal (name : str).

#[export] Instance Component_eq_dec : EqDecision Component.
Proof. solve_decision. Defined.

Definition is_absolute (path : str) : bool := starts_with [c_slash] path.

Definition component (part : str) : option Component :=
  if bool_decide (part = []) || bool_decide (part = lit ".") then None
  else if bool_decide (part = lit "..") then Some ParentDir else Some (Normal part).

Definition components (path : str) : list Component :=
  let parts := split_char c_slash path in
  (if is_absolute path then [RootDir]
   else match parts with first :: _ => if bool_decide (first = lit ".") then [CurDir] else [] | [] => [] end)
  ++ omap component parts.

Definition path_starts_with (path base : str) : bool := starts_with (components base) (components path).

Definition path_join (path other : str) : str :=
  if is_absolute other then other
  else if is_nonempty path && negb (ends_with_char (is_char c_slash) path) then path ++ [c_slash] ++ other
  else path ++ other.

(** * Data *)

Inductive Refusal :=
| Unusable
| Outside (resolved root : str).

#[export] Instance Refusal_eq_dec : EqDecision Refusal.
Proof. solve_decision. Defined.

Inductive Part :=
| Name (name : str)
| Resolved (link : str).

(** A link maps to its resolved target, or to [None] while its target is being resolved. *)
Notation Seen := (gmap str (option str)).

Inductive Link :=
| Keep
| Cached (target : str)
| Follow (target : str).

(** * Operations *)

(** The stack has its top first. *)
Definition push_parts (pending : list Part) (path : str) : list Part :=
  map Name (split_char c_slash path) ++ pending.

Definition to_parent (resolved : str) : str :=
  match rposition (is_char c_slash) resolved with
  | Some cut => if (0 <? cut)%nat then take cut resolved else take 1 resolved
  | None => take 1 resolved
  end.

Section Resolve.
Context {W E : Type} {F : Files W E}.
Implicit Types (w : W) (path root resolved : str) (pending : list Part) (seen : Seen).

Definition is_symlink w path : bool :=
  match symlink_metadata w path with Some meta => bool_decide (file_type meta = Symlink) | None => false end.

Definition link w path seen : Link :=
  if negb (is_symlink w path) then Keep
  else match seen !! path with
       | Some (Some target) => Cached target
       | Some None => Keep
       | None => match read_link w path with Some target => Follow target | None => Keep end
       end.

Definition below resolved (name : str) : str :=
  (if bool_decide (resolved = [c_slash]) then resolved else resolved ++ [c_slash]) ++ name.

Definition step w resolved (name : str) pending seen : str * list Part * Seen :=
  if bool_decide (name = []) || bool_decide (name = lit ".") then (resolved, pending, seen)
  else if bool_decide (name = lit "..") then (to_parent resolved, pending, seen)
  else
    let next := below resolved name in
    match link w next seen with
    | Keep => (next, pending, seen)
    | Cached target => (target, pending, seen)
    | Follow target =>
        (if is_absolute target then [c_slash] else resolved,
         push_parts (Resolved next :: pending) target,
         <[next := None]> seen)
    end.

Fixpoint resolve_loop (fuel : nat) w resolved pending seen : option str :=
  match fuel with
  | O => None
  | S fuel' =>
      match pending with
      | [] => Some resolved
      | Name name :: rest =>
          let '(resolved, pending, seen) := step w resolved name rest seen in
          resolve_loop fuel' w resolved pending seen
      | Resolved link :: rest => resolve_loop fuel' w resolved rest (<[link := Some resolved]> seen)
      end
  end.

(** [None] when the fuel runs out. *)
Definition resolve (fuel : nat) w path : option (result str E) :=
  if any (is_char c_nul) path then Some (Err invalid_input)
  else
    match (if starts_with [c_slash] path then Ok [c_slash] else current_dir w) with
    | Err error => Some (Err error)
    | Ok start => Ok <$> resolve_loop fuel w start (push_parts [] path) ∅
    end.

Definition contained_path (fuel : nat) w root (candidate : str) : option (result str Refusal) :=
  resolved_root ← resolve fuel w root;
  match resolved_root with
  | Err _ => Some (Err Unusable)
  | Ok resolved_root =>
      let joined := if is_absolute candidate then candidate else path_join resolved_root candidate in
      resolved ← resolve fuel w joined;
      Some match resolved with
           | Err _ => Err Unusable
           | Ok resolved =>
               if path_starts_with resolved resolved_root then Ok resolved
               else Err (Outside resolved resolved_root)
           end
  end.

Definition file_size w path : result Z E :=
  let? meta := metadata w path in Ok (len meta).

Definition contained_file_size w (candidate root : str) : option (result Z E) :=
  meta ← symlink_metadata w candidate;
  match file_type meta with
  | Symlink =>
      let inside := match canonicalize w candidate with
                    | Some target => path_starts_with target root
                    | None => false
                    end in
      if inside then Some (file_size w candidate) else None
  | RegularFile => Some (Ok (len meta))
  | _ => None
  end.

Definition file_stays_inside w (candidate root : str) : bool := bool_decide (is_Some (contained_file_size w candidate root)).
End Resolve.

(** * Canonical paths *)

(** A name that a walk appends: no separator, not empty, [.] or [..]. *)
Definition clean (name : str) : Prop :=
  char_free c_slash name /\ name <> [] /\ name <> lit "." /\ name <> lit "..".

(** The absolute path of a list of names. *)
Definition path_of (names : list str) : str :=
  match names with [] => [c_slash] | _ => join_with [c_slash] ([] :: names) end.

Lemma path_of_cons n names : path_of (n :: names) = c_slash :: join_with [c_slash] (n :: names).
Proof. done. Qed.

Lemma path_of_app names name : names <> [] -> path_of (names ++ [name]) = path_of names ++ c_slash :: name.
Proof.
  intros Hn. destruct names as [|n names]; [done|]. unfold path_of.
  change ((n :: names) ++ [name]) with (n :: (names ++ [name])).
  change ([] :: n :: (names ++ [name])) with (([] :: n :: names) ++ [name]).
  by rewrite join_with_app by done.
Qed.

Lemma path_of_root names : Forall clean names -> path_of names = [c_slash] -> names = [].
Proof.
  intros Hc. destruct Hc as [|n names (_ & Hn & _) _]; [done|]. rewrite path_of_cons. intros [= E].
  destruct n; [done|]. by destruct names.
Qed.

Lemma path_of_below names name : Forall clean names -> below (path_of names) name = path_of (names ++ [name]).
Proof.
  intros Hc. unfold below. destruct (decide (names = [])) as [->|Hn]; [done|].
  rewrite bool_decide_false by (intros E; by apply path_of_root in E).
  by rewrite path_of_app, <-app_assoc.
Qed.

Lemma to_parent_root : to_parent [c_slash] = [c_slash].
Proof. done. Qed.

Lemma path_of_length names : (0 < length (path_of names))%nat.
Proof. destruct names; cbn; [lia|]. destruct names; cbn; lia. Qed.

Lemma to_parent_snoc names name : clean name -> to_parent (path_of (names ++ [name])) = path_of names.
Proof.
  intros (Hf & _). unfold to_parent. destruct (decide (names = [])) as [->|Hn].
  - change (path_of ([] ++ [name])) with ([] ++ c_slash :: name). by rewrite rposition_last.
  - rewrite path_of_app, rposition_last by done. pose proof (path_of_length names).
    rewrite (proj2 (Nat.ltb_lt _ _)) by done. by rewrite take_app_length.
Qed.

(** [..] at a canonical path removes the last name, and nothing at the root. *)
Lemma to_parent_spec names :
  Forall clean names -> to_parent (path_of names) = path_of (take (length names - 1) names).
Proof.
  intros Hc. destruct names as [|name names _] using rev_ind; [done|].
  apply Forall_app in Hc as [_ Hc]. rewrite to_parent_snoc by (by inversion Hc).
  rewrite length_app. cbn. replace (length names + 1 - 1)%nat with (length names) by lia. by rewrite take_app_length.
Qed.

Lemma component_clean n : clean n -> component n = Some (Normal n).
Proof. intros (_ & ? & ? & ?). unfold component. by rewrite !bool_decide_false. Qed.

Lemma components_path_of names : Forall clean names -> components (path_of names) = RootDir :: map Normal names.
Proof.
  intros Hc. destruct names as [|n names]; [done|]. unfold components, path_of.
  rewrite split_join_char; [|done|].
  2:{ constructor; [constructor|]. eapply Forall_impl; [exact Hc|]. by intros ? []. }
  change (is_absolute (join_with [c_slash] ([] :: n :: names))) with true. cbn [app omap]. f_equal.
  change (omap component (n :: names) = map Normal (n :: names)).
  induction Hc as [|x l Hx _ IH]; [done|]. cbn [list_omap omap] in *. cbn. rewrite component_clean by done. by f_equal.
Qed.

Lemma path_of_inj names names' : Forall clean names -> Forall clean names' -> path_of names = path_of names' -> names = names'.
Proof.
  intros H H' E. assert (components (path_of names) = components (path_of names')) as Ec by (by rewrite E).
  rewrite !components_path_of in Ec by done. injection Ec as Ec. clear -Ec.
  revert names' Ec. induction names as [|n names IH]; intros [|n' names'] Ec; try done.
  injection Ec as -> Ec. f_equal. by apply IH.
Qed.

(** A canonical path starts with another exactly when its names do. *)
Lemma path_starts_with_spec names base :
  Forall clean names -> Forall clean base ->
  path_starts_with (path_of names) (path_of base) = true <-> base `prefix_of` names.
Proof.
  intros Hn Hb. unfold path_starts_with. rewrite !components_path_of by done. rewrite starts_with_spec.
  split.
  - intros [rest E]. injection E as E. clear -E.
    revert names E. induction base as [|b base IH]; intros names E; [apply prefix_nil|].
    destruct names as [|n names]; [done|]. injection E as -> E. apply prefix_cons, IH, E.
  - intros [more ->]. exists (map Normal more). by rewrite map_app.
Qed.

(** The parts of a path hold no separator, so a part that is not special is a clean name. *)
Definition special (part : str) : bool :=
  bool_decide (part = []) || bool_decide (part = lit ".") || bool_decide (part = lit "..").

Lemma special_clean part : char_free c_slash part -> special part = false -> clean part.
Proof. unfold special. intros Hf H. bool_hyps. by repeat split. Qed.

Lemma special_cases part : special part = true -> (part = [] \/ part = lit ".") \/ part = lit "..".
Proof. unfold special. intros [[H|H]%orb_true_iff|H]%orb_true_iff; apply bool_decide_eq_true in H; auto. Qed.

(** * The walk of a path *)

Section Walk.
Context {W E : Type} {F : Files W E} (w : W).

(** What a readable link at the path names. *)
Definition link_target (path : str) : option str := if is_symlink w path then read_link w path else None.

(** The directory that the parts of a target start from. *)
Definition start_of (target : str) (dir : list str) : list str := if is_absolute target then [] else dir.

(** [walk n dir parts to]: the parts lead from the directory [dir] to [to] in [n] steps, with
    each readable link replaced by its target. *)
Inductive walk : nat -> list str -> list str -> list str -> Prop :=
| walk_end dir : walk 0 dir [] dir
| walk_stay n dir part parts to :
    part = [] \/ part = lit "." -> walk n dir parts to -> walk (S n) dir (part :: parts) to
| walk_up n dir parts to :
    walk n (take (length dir - 1) dir) parts to -> walk (S n) dir (lit ".." :: parts) to
| walk_name n dir part parts to :
    special part = false -> link_target (path_of (dir ++ [part])) = None ->
    walk n (dir ++ [part]) parts to -> walk (S n) dir (part :: parts) to
| walk_link n m dir part parts target mid to :
    special part = false -> link_target (path_of (dir ++ [part])) = Some target ->
    walk n (start_of target dir) (split_char c_slash target) mid -> walk m mid parts to ->
    walk (S (n + m)) dir (part :: parts) to.

(** Where the link [part] of the directory [dir] leads. *)
Definition leads (n : nat) (dir : list str) (part : str) (to : list str) : Prop :=
  exists target, link_target (path_of (dir ++ [part])) = Some target /\
    walk n (start_of target dir) (split_char c_slash target) to.

Lemma special_dots : special (lit "..") = true.
Proof. done. Qed.

Lemma special_stay part : part = [] \/ part = lit "." -> special part = true.
Proof. by intros [-> | ->]. Qed.

Lemma walk_det n dir parts to : walk n dir parts to -> forall n' to', walk n' dir parts to' -> n = n' /\ to = to'.
Proof.
  induction 1 as [dir|n dir part parts to Hp _ IH|n dir parts to _ IH|n dir part parts to Hp Hl _ IH
    |n m dir part parts target mid to Hp Hl _ IH1 _ IH2]; intros n' to' H'.
  - by inversion H'.
  - apply special_stay in Hp as Hs. inversion H'; subst; try (by destruct Hp); try congruence.
    match goal with H : walk _ _ parts _ |- _ => destruct (IH _ _ H) as [-> ->] end. done.
  - inversion H'; subst; try (by match goal with H : _ \/ _ |- _ => destruct H end); try done.
    match goal with H : walk _ _ parts _ |- _ => destruct (IH _ _ H) as [-> ->] end. done.
  - inversion H' as [|? ? ? ? ? Hq|? ? ? ? ? Hq|? ? ? ? ? Hq Hl' Hw|]; subst;
      [apply special_stay in Hq; congruence|done| |congruence].
    destruct (IH _ _ Hw) as [-> ->]. done.
  - inversion H' as [|? ? ? ? ? Hq|? ? ? ? ? Hq|? ? ? ? ? Hq Hl' Hw|? ? ? ? ? ? ? ? Hq Hl' Hw1 Hw2]; subst;
      [apply special_stay in Hq; congruence|done|congruence|].
    assert (target0 = target) as -> by congruence. destruct (IH1 _ _ Hw1) as [-> ->]. destruct (IH2 _ _ Hw2) as [-> ->]. done.
Qed.

Lemma leads_det n dir part to n' to' : leads n dir part to -> leads n' dir part to' -> n = n' /\ to = to'.
Proof. intros (t & Ht & H) (t' & Ht' & H'). assert (t' = t) as -> by congruence. by eapply walk_det. Qed.

(** No leading part of the path is a readable link. *)
Definition settled (names : list str) : Prop :=
  forall k, (0 < k <= length names)%nat -> link_target (path_of (take k names)) = None.

Lemma settled_nil : settled [].
Proof. intros k. cbn. lia. Qed.

Lemma settled_take names n : settled names -> settled (take n names).
Proof.
  intros H k. rewrite length_take. intros Hk. rewrite take_take. replace (k `min` n)%nat with k by lia. apply H. lia.
Qed.

Lemma settled_snoc names part : settled names -> link_target (path_of (names ++ [part])) = None -> settled (names ++ [part]).
Proof.
  intros H Hp k. rewrite length_app. cbn [length]. intros Hk. destruct (decide (k = length names + 1)%nat) as [->|].
  - rewrite take_ge; [done|]. rewrite length_app. cbn. lia.
  - rewrite take_app_le by lia. apply H. lia.
Qed.

Lemma walk_settled n dir parts to : walk n dir parts to -> settled dir -> settled to.
Proof.
  induction 1 as [dir|n dir part parts to Hp _ IH|n dir parts to _ IH|n dir part parts to Hp Hl _ IH
    |n m dir part parts target mid to Hp Hl _ IH1 _ IH2]; intros Hs; auto using settled_take, settled_snoc.
  apply IH2, IH1. unfold start_of. destruct (is_absolute target); [apply settled_nil|done].
Qed.

Lemma walk_clean n dir parts to :
  walk n dir parts to -> Forall clean dir -> Forall (char_free c_slash) parts -> Forall clean to.
Proof.
  induction 1 as [dir|n dir part parts to Hp _ IH|n dir parts to _ IH|n dir part parts to Hp Hl _ IH
    |n m dir part parts target mid to Hp Hl _ IH1 _ IH2]; intros Hd Hf; try apply Forall_cons in Hf as [Hf1 Hf]; auto.
  - apply IH; [by apply Forall_take|done].
  - apply IH; [|done]. apply Forall_app. split; [done|]. apply Forall_singleton. by apply special_clean.
  - apply IH2; [|done]. apply IH1; [|apply split_char_free]. unfold start_of. by destruct (is_absolute target).
Qed.

Lemma walk_app n dir parts mid m more to : walk n dir parts mid -> walk m mid more to -> walk (n + m) dir (parts ++ more) to.
Proof.
  induction 1 as [dir|n dir part parts mid Hp _ IH|n dir parts mid _ IH|n dir part parts mid Hp Hl _ IH
    |n k dir part parts target mid' mid Hp Hl Hw _ _ IH2]; intros Hm; cbn [app Nat.add]; [done|apply walk_stay|apply walk_up|apply walk_name|]; auto.
  rewrite <- Nat.add_assoc. by eapply walk_link; [..|apply IH2].
Qed.

Lemma walk_app_inv parts more : forall n dir to, walk n dir (parts ++ more) to -> exists n1 n2 mid, walk n1 dir parts mid /\ walk n2 mid more to.
Proof.
  induction parts as [|part parts IH]; intros n dir to H; [by exists O, n, dir; split; [constructor|]|]. cbn [app] in H.
  inversion H as [|? ? ? ? ? Hp Hw|? ? ? ? Hw|? ? ? ? ? Hp Hl Hw|? ? ? ? ? target mid ? Hp Hl Hw1 Hw2]; subst;
    (match goal with Hw : walk _ _ (parts ++ more) _ |- _ => destruct (IH _ _ _ Hw) as (n1 & n2 & mid' & H1 & H2) end);
    eexists _, n2, mid'; (split; [|exact H2]); [by apply walk_stay|by apply walk_up|by apply walk_name|by eapply walk_link].
Qed.

(** A settled directory is where its names lead. *)
Lemma walk_to_settled more : forall dir, Forall clean (dir ++ more) -> settled (dir ++ more) -> walk (length more) dir more (dir ++ more).
Proof.
  induction more as [|part more IH]; intros dir Hc Hs; [rewrite app_nil_r; constructor|]. cbn [length].
  replace (dir ++ part :: more) with ((dir ++ [part]) ++ more) in * by (by rewrite <- app_assoc). apply walk_name; [| |by apply IH].
  - apply Forall_app in Hc as [Hc _]. apply Forall_app in Hc as [_ (_ & ? & ? & ?)%Forall_singleton]. unfold special. by rewrite !bool_decide_false.
  - specialize (Hs (length (dir ++ [part]))). rewrite take_app_length in Hs. apply Hs. rewrite !length_app. cbn. lia.
Qed.

(** A name of a settled directory leads where its link does. *)
Lemma walk_leads n dir part to : Forall clean (dir ++ [part]) -> settled dir -> link_target (path_of (dir ++ [part])) <> None ->
  walk n [] (dir ++ [part]) to -> exists m, leads m dir part to.
Proof.
  intros Hc Hs Ht (n1 & n2 & mid & H1 & H2)%walk_app_inv. apply Forall_app in Hc as [Hc Hp].
  destruct (walk_det _ _ _ _ (walk_to_settled dir [] Hc Hs) _ _ H1) as [_ <-]. cbn [app] in H2.
  apply Forall_singleton in Hp as (_ & Hp1 & Hp2 & Hp3).
  inversion H2 as [|? ? ? ? ? Hq|? ? ? ? Hq|? ? ? ? ? Hq Hl|? ? ? ? ? target mid' ? Hq Hl Hw1 Hw2]; subst;
    [exfalso; destruct Hq; congruence|congruence|congruence|]. inversion Hw2; subst. by eexists _, target.
Qed.
End Walk.

(** * The stack machine follows the walk *)

Section Machine.
Context {W E : Type} {F : Files W E} (w : W).
Implicit Types (dir to : list str) (seen : Seen) (pending : list Part).

Lemma step_stay resolved part pending seen :
  part = [] \/ part = lit "." -> step w resolved part pending seen = (resolved, pending, seen).
Proof. by intros [-> | ->]. Qed.

Lemma step_up resolved pending seen : step w resolved (lit "..") pending seen = (to_parent resolved, pending, seen).
Proof. done. Qed.

Lemma step_name dir part pending seen :
  Forall clean dir -> special part = false ->
  step w (path_of dir) part pending seen =
  let next := path_of (dir ++ [part]) in
  match link w next seen with
  | Keep => (next, pending, seen)
  | Cached target => (target, pending, seen)
  | Follow target =>
      (path_of (start_of target dir), push_parts (Resolved next :: pending) target, <[next := None]> seen)
  end.
Proof.
  unfold special. intros Hd Hp. apply orb_false_iff in Hp as [Hp Hp3]. unfold step. rewrite Hp, Hp3, path_of_below by done.
  cbv zeta. destruct (link _ _ _); [done..|]. unfold start_of. by destruct (is_absolute target).
Qed.

(** The cache holds where links lead, and a link being resolved leads there in no fewer than [n] steps. *)
Definition seen_ok (n : nat) (seen : Seen) : Prop :=
  (forall path t, seen !! path = Some (Some t) ->
     exists dir part to m, path = path_of (dir ++ [part]) /\ Forall clean (dir ++ [part]) /\
       t = path_of to /\ leads w m dir part to) /\
  (forall dir part m to, Forall clean (dir ++ [part]) -> seen !! path_of (dir ++ [part]) = Some None ->
     leads w m dir part to -> (n <= m)%nat).

Lemma seen_ok_le n m seen : (m <= n)%nat -> seen_ok n seen -> seen_ok m seen.
Proof. intros Hle [H1 H2]. split; [done|]. intros dir part k to Hc Hs Hl. specialize (H2 _ _ _ _ Hc Hs Hl). lia. Qed.

(** Nothing is newly in progress. *)
Definition no_busier (seen seen' : Seen) : Prop := forall path, seen' !! path = Some None -> seen !! path = Some None.

Lemma no_busier_ok n seen seen' m : seen_ok n seen -> no_busier seen seen' -> seen_ok m seen' -> seen_ok n seen'.
Proof. intros [_ H] Hb [H' _]. split; [done|]. intros dir part k to Hc Hs Hl. eauto. Qed.

Lemma seen_ok_busy n m seen dir part to :
  Forall clean (dir ++ [part]) -> leads w m dir part to -> (m < n)%nat -> seen_ok n seen ->
  seen_ok m (<[path_of (dir ++ [part]) := None]> seen).
Proof.
  intros Hc Hl Hlt [H1 H2]. split.
  - intros path t. rewrite lookup_insert_Some. intros [[_ ?]|[_ ?]]; [done|]. by apply H1.
  - intros dir' part' k to' Hc'. rewrite lookup_insert_Some. intros [[Heq _]|[_ Hs]] Hl'.
    + apply path_of_inj in Heq; [|done..]. apply app_inj_tail in Heq as [-> ->].
      by destruct (leads_det _ _ _ _ _ _ _ Hl Hl') as [-> _].
    + specialize (H2 _ _ _ _ Hc' Hs Hl'). lia.
Qed.

Lemma seen_ok_resolved n m seen dir part to :
  Forall clean (dir ++ [part]) -> leads w m dir part to -> seen_ok n seen ->
  seen_ok n (<[path_of (dir ++ [part]) := Some (path_of to)]> seen).
Proof.
  intros Hc Hl [H1 H2]. split.
  - intros path t. rewrite lookup_insert_Some. intros [[<- [= <-]]|[_ ?]]; [|by apply H1]. by exists dir, part, to, m.
  - intros dir' part' k to' Hc'. rewrite lookup_insert_Some. intros [[_ ?]|[_ Hs]]; [done|]. by apply H2.
Qed.

(** The machine with a walk's parts on its stack reaches the walk's end, in at most two steps
    of the loop for one of the walk. *)
Definition runs_to (n : nat) dir (parts : list str) to : Prop :=
  forall pending seen, Forall clean dir -> Forall (char_free c_slash) parts -> seen_ok n seen ->
  exists k seen', (k <= 2 * n)%nat /\ seen_ok n seen' /\ no_busier seen seen' /\
    forall fuel, resolve_loop (k + fuel) w (path_of dir) (map Name parts ++ pending) seen =
      resolve_loop fuel w (path_of to) pending seen'.

(** One step of the machine, then the rest. *)
Lemma runs_to_step n dir part parts to pending seen dir' seen1 :
  runs_to n dir' parts to -> Forall clean dir' -> Forall (char_free c_slash) parts -> seen_ok (S n) seen ->
  seen1 = seen -> step w (path_of dir) part (map Name parts ++ pending) seen = (path_of dir', map Name parts ++ pending, seen1) ->
  exists k seen', (k <= 2 * S n)%nat /\ seen_ok (S n) seen' /\ no_busier seen seen' /\
    forall fuel, resolve_loop (k + fuel) w (path_of dir) (map Name (part :: parts) ++ pending) seen =
      resolve_loop fuel w (path_of to) pending seen'.
Proof.
  intros IH Hd Hf Hok -> Hstep.
  destruct (IH pending seen Hd Hf (seen_ok_le (S n) n seen ltac:(lia) Hok)) as (k & seen' & Hk & Hok' & Hb & Hrun).
  exists (S k), seen'. split; [lia|]. split; [by eapply no_busier_ok|]. split; [done|]. intros fuel.
  cbn [Nat.add resolve_loop map app]. by rewrite Hstep.
Qed.

Lemma link_follow path seen target :
  link_target w path = Some target ->
  link w path seen = match seen !! path with
                     | Some (Some t) => Cached t | Some None => Keep | None => Follow target end.
Proof. unfold link_target, link. destruct (is_symlink w path); [|done]. intros ->. done. Qed.

Lemma link_keep n seen dir part :
  Forall clean (dir ++ [part]) -> link_target w (path_of (dir ++ [part])) = None -> seen_ok n seen ->
  link w (path_of (dir ++ [part])) seen = Keep.
Proof.
  intros Hc Ht [H1 _]. unfold link_target in Ht. unfold link. destruct (is_symlink w _) eqn:El; [|done]. cbn [negb].
  destruct (seen !! _) as [[t|]|] eqn:Es; [|done|by rewrite Ht].
  destruct (H1 _ _ Es) as (dir' & part' & to & m & Hp & Hc' & _ & target & Hl & _).
  apply path_of_inj in Hp; [|done..]. apply app_inj_tail in Hp as [-> ->].
  unfold link_target in Hl. rewrite El in Hl. congruence.
Qed.

Lemma clean_snoc dir part : Forall clean dir -> char_free c_slash part -> special part = false -> Forall clean (dir ++ [part]).
Proof. intros. apply Forall_app. split; [done|]. apply Forall_singleton. by apply special_clean. Qed.

(** A link's target parts, run under the link's mark, end with the link in the cache. *)
Lemma runs_to_link n m dir part parts target mid to pending seen :
  leads w n dir part mid -> link_target w (path_of (dir ++ [part])) = Some target ->
  runs_to n (start_of target dir) (split_char c_slash target) mid -> runs_to m mid parts to ->
  Forall clean (dir ++ [part]) -> Forall clean dir -> Forall clean mid -> Forall (char_free c_slash) parts ->
  seen_ok (S (n + m)) seen -> seen !! path_of (dir ++ [part]) = None ->
  exists k seen', (k <= 2 * n + 2 * m + 1)%nat /\ seen_ok (S (n + m)) seen' /\ no_busier seen seen' /\
    forall fuel, resolve_loop (k + fuel) w (path_of (start_of target dir))
        (push_parts (Resolved (path_of (dir ++ [part])) :: map Name parts ++ pending) target)
        (<[path_of (dir ++ [part]) := None]> seen) =
      resolve_loop fuel w (path_of to) pending seen'.
Proof.
  intros Hl Ht IH1 IH2 Hc Hd Hm Hf Hok Hnone. set (next := path_of (dir ++ [part])) in *.
  destruct (IH1 (Resolved next :: map Name parts ++ pending) (<[next := None]> seen)) as (k1 & seen1 & Hk1 & Hok1 & Hb1 & Hrun1).
  { unfold start_of. by destruct (is_absolute target). }
  { apply split_char_free. }
  { eapply seen_ok_busy; [done|done| |done]. lia. }
  assert (no_busier seen (<[next := Some (path_of mid)]> seen1)) as Hb.
  { intros path Hp. rewrite lookup_insert_Some in Hp. destruct Hp as [[_ ?]|[Hne Hp]]; [done|].
    apply Hb1 in Hp. by rewrite lookup_insert_ne in Hp. }
  assert (seen_ok (S (n + m)) (<[next := Some (path_of mid)]> seen1)) as Hok2.
  { eapply no_busier_ok; [exact Hok|exact Hb|]. by eapply seen_ok_resolved. }
  destruct (IH2 pending _ Hm Hf (seen_ok_le (S (n + m)) m _ ltac:(lia) Hok2)) as (k2 & seen2 & Hk2 & Hok3 & Hb2 & Hrun2).
  assert (no_busier seen seen2) as Hb3 by (intros path Hp; by apply Hb, Hb2).
  exists (k1 + S k2)%nat, seen2. split; [lia|]. split; [by eapply no_busier_ok|]. split; [done|]. intros fuel.
  unfold push_parts. rewrite <-Nat.add_assoc, Hrun1. cbn [Nat.add resolve_loop]. apply Hrun2.
Qed.

Lemma walk_runs n dir parts to : walk w n dir parts to -> runs_to n dir parts to.
Proof.
  induction 1 as [dir|n dir part parts to Hp _ IH|n dir parts to _ IH|n dir part parts to Hp Hl _ IH
    |n m dir part parts target mid to Hp Hl Hw1 IH1 Hw2 IH2]; intros pending seen Hd Hf Hok;
    try (apply Forall_cons in Hf as [Hf1 Hf]).
  - exists O, seen. split; [lia|]. split; [done|]. by split; [intros path|].
  - by eapply runs_to_step; [done..|apply step_stay].
  - eapply runs_to_step; [done|by apply Forall_take|done..|]. by rewrite step_up, to_parent_spec.
  - eapply runs_to_step; [done|by apply clean_snoc|done..|]. rewrite step_name by done. cbv zeta.
    erewrite link_keep; [done|by apply clean_snoc|done..].
  - apply (clean_snoc dir part) in Hp as Hc; [|done..].
    assert (leads w n dir part mid) as Hlead by (by exists target).
    destruct (seen !! path_of (dir ++ [part])) as [[t|]|] eqn:Es.
    + destruct (proj1 Hok _ _ Es) as (dir' & part' & to' & m' & Hq & Hc' & -> & Hlead').
      apply path_of_inj in Hq; [|done..]. apply app_inj_tail in Hq as [-> ->].
      destruct (leads_det _ _ _ _ _ _ _ Hlead Hlead') as [_ <-].
      destruct (IH2 pending seen) as (k & seen' & Hk & Hok' & Hb & Hrun);
        [by eapply walk_clean; [| |apply split_char_free]; [done|unfold start_of; by destruct (is_absolute target)]|done|by eapply seen_ok_le; [|done]; lia|].
      exists (S k), seen'. split; [lia|]. split; [by eapply no_busier_ok|]. split; [done|]. intros fuel.
      cbn [Nat.add resolve_loop map app]. rewrite step_name by done. cbv zeta. by rewrite (link_follow _ _ target), Es.
    + pose proof (proj2 Hok _ _ _ _ Hc Es Hlead). lia.
    + destruct (runs_to_link n m dir part parts target mid to pending seen) as (k & seen' & Hk & Hok' & Hb & Hrun); try done.
      { eapply walk_clean; [exact Hw1| |apply split_char_free]. unfold start_of. by destruct (is_absolute target). }
      exists (S k), seen'. split; [lia|]. split; [done|]. split; [done|]. intros fuel.
      cbn [Nat.add resolve_loop map app]. rewrite step_name by done. cbv zeta. by rewrite (link_follow _ _ target), Es.
Qed.
End Machine.

(** * Loops of links *)

Section Loops.
Context {W E : Type} {F : Files W E} (w : W).
Implicit Types (dir names to : list str) (seen : Seen) (pending : list Part).

(** The path of the names can be entered from the root. *)
Definition enterable names : Prop := exists n to, walk w n [] names to.

(** A leading part that is a readable link cannot be entered: it is one of a loop. *)
Definition no_entry names : Prop :=
  forall k, (0 < k <= length names)%nat -> link_target w (path_of (take k names)) <> None -> ~ enterable (take k names).

Lemma settled_no_entry names : settled w names -> no_entry names.
Proof. intros H k Hk Ht. by rewrite H in Ht. Qed.

Lemma no_entry_settled names : no_entry names -> enterable names -> settled w names.
Proof.
  intros H (n & to & Hw) k Hk. destruct (link_target w (path_of (take k names))) eqn:Et; [|done]. exfalso. apply (H k Hk); [congruence|].
  rewrite <- (take_drop k names) in Hw. apply walk_app_inv in Hw as (n1 & _ & mid & Hw & _). by exists n1, mid.
Qed.

Lemma no_entry_take names k : no_entry names -> no_entry (take k names).
Proof. intros H j. rewrite length_take. intros Hj. rewrite take_take. replace (j `min` k)%nat with j by lia. apply H. lia. Qed.

Lemma no_entry_snoc names part : no_entry names -> (link_target w (path_of (names ++ [part])) <> None -> ~ enterable (names ++ [part])) -> no_entry (names ++ [part]).
Proof.
  intros H Hp k. rewrite length_app. cbn [length]. intros Hk. destruct (decide (k = length names + 1)%nat) as [->|].
  - rewrite take_ge; [done|]. rewrite length_app. cbn. lia.
  - rewrite take_app_le by lia. apply H. lia.
Qed.

Lemma walk_stay_inv n dir part parts to : part = [] \/ part = lit "." -> walk w n dir (part :: parts) to -> exists m, (m <= n)%nat /\ walk w m dir parts to.
Proof.
  intros Hp H. apply special_stay in Hp as Hs. inversion H; subst; [eexists; split; [|eassumption]; lia|by destruct Hp|congruence..].
Qed.

Lemma walk_up_inv n dir parts to : walk w n dir (lit ".." :: parts) to -> exists m, (m <= n)%nat /\ walk w m (take (length dir - 1) dir) parts to.
Proof.
  intros H. inversion H as [|? ? ? ? ? Hq|? ? ? ? Hw|? ? ? ? ? Hq|? ? ? ? ? ? ? ? Hq]; subst;
    [by destruct Hq|eexists; split; [|exact Hw]; lia|by rewrite special_dots in Hq..].
Qed.

Lemma walk_name_inv n dir part parts to : special part = false -> link_target w (path_of (dir ++ [part])) = None -> walk w n dir (part :: parts) to ->
  exists m, (m <= n)%nat /\ walk w m (dir ++ [part]) parts to.
Proof.
  intros Hp Hl H. inversion H as [|? ? ? ? ? Hq| | |]; subst; [apply special_stay in Hq; congruence|by rewrite special_dots in Hp| |congruence].
  eexists. split; [|eassumption]. lia.
Qed.

Lemma walk_link_inv n dir part parts to : special part = false -> link_target w (path_of (dir ++ [part])) <> None -> walk w n dir (part :: parts) to ->
  exists n1 n2 mid, n = S (n1 + n2) /\ leads w n1 dir part mid /\ walk w n2 mid parts to.
Proof.
  intros Hp Hl H. inversion H as [|? ? ? ? ? Hq| | |]; subst; [apply special_stay in Hq; congruence|by rewrite special_dots in Hp|congruence|].
  eexists _, _, _. split; [done|]. split; [eexists; split|]; eassumption.
Qed.

(** The names on the stack. *)
Definition names_of pending : list str := omap (fun part => match part with Name name => Some name | Resolved _ => None end) pending.

Lemma names_of_app p p' : names_of (p ++ p') = names_of p ++ names_of p'.
Proof. apply omap_app. Qed.

Lemma names_of_parts l : names_of (map Name l) = l.
Proof. induction l as [|x l IH]; [done|]. change (names_of (map Name (x :: l))) with (x :: names_of (map Name l)). by rewrite IH. Qed.

(** A link whose mark is on the stack leads where the names above the mark do, in no more steps. *)
Definition marks names pending : Prop :=
  forall above link below, pending = above ++ Resolved link :: below ->
  exists dir part, link = path_of (dir ++ [part]) /\ Forall clean (dir ++ [part]) /\ link_target w link <> None /\
    forall m to, leads w m dir part to -> exists n, (n <= m)%nat /\ walk w n names (names_of above) to.

Lemma marks_step names names' part rest : marks names (Name part :: rest) ->
  (forall n parts to, walk w n names (part :: parts) to -> exists m, (m <= n)%nat /\ walk w m names' parts to) -> marks names' rest.
Proof.
  intros H Hstep above link below ->. destruct (H (Name part :: above) link below eq_refl) as (dir & part' & -> & Hc & Hr & Hm).
  exists dir, part'. split; [done|]. split; [done|]. split; [done|]. intros m to (n & Hn & Hw)%Hm. destruct (Hstep _ _ _ Hw) as (k & Hk & Hw'). exists k. split; [lia|done].
Qed.

Lemma marks_pop names link rest : marks names (Resolved link :: rest) -> marks names rest.
Proof. intros H above link' below ->. by destruct (H (Resolved link :: above) link' below eq_refl) as (dir & part & ?); exists dir, part. Qed.

(** The marks on the stack after a link is followed. *)
Lemma parts_split l link rest above link' below : map Name l ++ Resolved link :: rest = above ++ Resolved link' :: below ->
  (above = map Name l /\ link' = link) \/ exists above', rest = above' ++ Resolved link' :: below /\ names_of above = l ++ names_of above'.
Proof.
  revert above. induction l as [|x l IH]; intros [|[x'|q] above]; cbn [map app]; intros H; try done.
  - injection H as -> _. by left.
  - injection H as -> ->. right. by exists above.
  - injection H as -> H. destruct (IH _ H) as [[-> ->]|(above' & -> & Hn)]; [by left|right]. exists above'. split; [done|].
    change (names_of (Name x' :: above)) with (x' :: names_of above). by rewrite Hn.
Qed.

Lemma marks_follow names part rest target : Forall clean (names ++ [part]) -> special part = false ->
  link_target w (path_of (names ++ [part])) = Some target -> marks names (Name part :: rest) ->
  marks (start_of target names) (push_parts (Resolved (path_of (names ++ [part])) :: rest) target).
Proof.
  intros Hc Hp Ht H above link below Heq. unfold push_parts in Heq. apply parts_split in Heq as [[-> ->]|(above' & -> & Hn)].
  - exists names, part. split; [done|]. split; [done|]. split; [congruence|]. intros m to (t & Ht' & Hw). rewrite Ht in Ht'. injection Ht' as <-.
    exists m. rewrite names_of_parts. by split.
  - destruct (H (Name part :: above') link below eq_refl) as (dir & part' & -> & Hc' & Hr & Hm). exists dir, part'. split; [done|]. split; [done|]. split; [done|].
    intros m to (n & Hle & Hw)%Hm. apply walk_link_inv in Hw as (n1 & n2 & mid & -> & (t & Ht' & Hw1) & Hw2); [|done|congruence].
    rewrite Ht in Ht'. injection Ht' as <-. exists (n1 + n2)%nat. split; [lia|]. rewrite Hn. by eapply walk_app.
Qed.

(** What the machine keeps. *)
Record sound names pending seen : Prop := {
  sound_clean : Forall clean names;
  sound_names : Forall (fun part => match part with Name name => char_free c_slash name | Resolved _ => True end) pending;
  sound_entry : no_entry names;
  sound_links : forall path t, seen !! path = Some t -> link_target w path <> None;
  sound_cached : forall path t, seen !! path = Some (Some t) -> exists to, t = path_of to /\ Forall clean to /\ no_entry to;
  sound_leads : forall dir part m to t, Forall clean (dir ++ [part]) -> seen !! path_of (dir ++ [part]) = Some (Some t) -> leads w m dir part to -> t = path_of to;
  sound_busy : forall path, seen !! path = Some None -> Resolved path ∈ pending;
  sound_marks : marks names pending
}.

(** The system reads a link only below a directory that can be entered. *)
Definition entered_links : Prop :=
  forall dir name, Forall clean (dir ++ [name]) -> link_target w (path_of (dir ++ [name])) <> None -> enterable dir.

Hypothesis Hentered : entered_links.

Lemma link_settled names part pending seen : sound names pending seen -> Forall clean (names ++ [part]) ->
  link_target w (path_of (names ++ [part])) <> None -> settled w names.
Proof. intros Hs Hc Ht. eapply no_entry_settled; [by eapply sound_entry|by eapply Hentered]. Qed.

(** A link that is kept because it is being resolved leads nowhere. *)
Lemma busy_leads names part rest seen : sound names (Name part :: rest) seen -> Forall clean (names ++ [part]) -> special part = false ->
  seen !! path_of (names ++ [part]) = Some None -> forall m to, ~ leads w m names part to.
Proof.
  intros Hs Hc Hp Hb m to Hl. pose proof (sound_links _ _ _ Hs _ _ Hb) as Ht. apply (sound_busy _ _ _ Hs) in Hb.
  apply elem_of_cons in Hb as [Hb|Hb]; [done|]. apply list_elem_of_split in Hb as (above & below & ->).
  destruct (sound_marks _ _ _ Hs (Name part :: above) _ below eq_refl) as (dir & part' & Heq & Hc' & _ & Hm).
  apply path_of_inj in Heq; [|done..]. apply app_inj_tail in Heq as [-> ->]. destruct (Hm m to Hl) as (n & Hn & Hw).
  apply walk_link_inv in Hw as (n1 & n2 & mid & -> & Hl' & _); [|done..]. destruct (leads_det _ _ _ _ _ _ _ Hl Hl') as [-> _]. lia.
Qed.

Lemma link_cases path seen : (forall t, seen !! path = Some t -> link_target w path <> None) ->
  match link w path seen with
  | Keep => link_target w path = None \/ seen !! path = Some None
  | Cached t => seen !! path = Some (Some t)
  | Follow t => link_target w path = Some t /\ seen !! path = None
  end.
Proof.
  unfold link, link_target. destruct (is_symlink w path) eqn:El; cbn [negb]; [|by left]. intros H.
  destruct (seen !! path) as [[t|]|]; [done|by right|]. destruct (read_link w path); [done|by left].
Qed.

Lemma sound_move names names' part rest seen : sound names (Name part :: rest) seen -> Forall clean names' -> no_entry names' ->
  (forall n parts to, walk w n names (part :: parts) to -> exists m, (m <= n)%nat /\ walk w m names' parts to) -> sound names' rest seen.
Proof.
  intros [Hc Hn He Hl Hca Hle Hb Hm] Hc' He' Hstep. apply Forall_cons in Hn as [_ Hn]. split; [done..| |by eapply marks_step].
  intros path Hp. apply Hb, elem_of_cons in Hp as [Hp|Hp]; done.
Qed.

(** A name moves on, or is a link of a settled directory that is followed for the first time. *)
Lemma sound_step names part rest seen : sound names (Name part :: rest) seen ->
  let '(resolved, pending, seen') := step w (path_of names) part rest seen in
  exists names', resolved = path_of names' /\ sound names' pending seen' /\
    ((pending = rest /\ seen' = seen) \/
     exists target, settled w names /\ Forall clean (names ++ [part]) /\ link_target w (path_of (names ++ [part])) = Some target /\
       seen !! path_of (names ++ [part]) = None /\ pending = push_parts (Resolved (path_of (names ++ [part])) :: rest) target /\
       seen' = <[path_of (names ++ [part]) := None]> seen).
Proof.
  intros Hs. pose proof (sound_clean _ _ _ Hs) as Hc. pose proof (sound_entry _ _ _ Hs) as He.
  pose proof (sound_names _ _ _ Hs) as [Hf _]%Forall_cons. destruct (special part) eqn:Hp.
  { apply special_cases in Hp as [Hp| ->].
    - rewrite step_stay by done. exists names. split; [done|]. split; [|by left]. eapply sound_move; [done..|]. intros n parts to. by apply walk_stay_inv.
    - rewrite step_up, to_parent_spec by done. eexists. split; [done|]. split; [|by left].
      eapply sound_move; [done|by apply Forall_take|by apply no_entry_take|]. intros n parts to. apply walk_up_inv. }
  pose proof (clean_snoc names part Hc Hf Hp) as Hcs. rewrite step_name by done. cbv zeta.
  pose proof (link_cases (path_of (names ++ [part])) seen (sound_links _ _ _ Hs _)) as Hlink. destruct (link _ _ _) as [|t|t].
  - exists (names ++ [part]). split; [done|]. split; [|by left]. destruct Hlink as [Ht|Hb].
    + eapply sound_move; [done|done|by apply no_entry_snoc|]. intros n parts to. by apply walk_name_inv.
    + pose proof (busy_leads _ _ _ _ Hs Hcs Hp Hb) as Hno. pose proof (sound_links _ _ _ Hs _ _ Hb) as Ht. eapply sound_move; [done|done| |].
      * apply no_entry_snoc; [done|]. intros _ (n & to & Hw). apply walk_leads in Hw as (m & Hl); [by eapply Hno|done|by eapply link_settled|done].
      * intros n parts to (n1 & n2 & mid & _ & Hl & _)%walk_link_inv; [|done..]. by apply Hno in Hl.
  - destruct (sound_cached _ _ _ Hs _ _ Hlink) as (to' & -> & Hc' & He'). pose proof (sound_links _ _ _ Hs _ _ Hlink) as Ht.
    exists to'. split; [done|]. split; [|by left]. eapply sound_move; [done..|]. intros n parts to (n1 & n2 & mid & -> & Hl & Hw)%walk_link_inv; [|done..].
    pose proof (sound_leads _ _ _ Hs _ _ _ _ _ Hcs Hlink Hl) as Heq. apply path_of_inj in Heq as ->; [exists n2; split; [lia|done]|done|].
    destruct Hl as (t & _ & Hl). eapply walk_clean; [exact Hl| |apply split_char_free]. unfold start_of. by destruct (is_absolute t).
  - destruct Hlink as [Ht Hnone]. exists (start_of t names). split; [done|]. split; [|right; exists t; split; [eapply link_settled; [done..|congruence]|done]].
    destruct Hs as [_ Hn _ Hl Hca Hle Hb Hm]. apply Forall_cons in Hn as [_ Hn]. split.
    + unfold start_of. by destruct (is_absolute t).
    + unfold push_parts. apply Forall_app. split; [|by constructor]. apply Forall_fmap. eapply Forall_impl; [apply split_char_free|]. done.
    + unfold start_of. destruct (is_absolute t); [|done]. intros k. cbn. lia.
    + intros path t'. rewrite lookup_insert_Some. intros [[<- _]|[_ ?]]; [congruence|by eapply Hl].
    + intros path t'. rewrite lookup_insert_Some. intros [[_ ?]|[_ ?]]; [done|by eapply Hca].
    + intros dir part' m to t' Hcd. rewrite lookup_insert_Some. intros [[_ ?]|[_ ?]]; [done|by eapply Hle].
    + intros path. rewrite lookup_insert_Some. unfold push_parts. rewrite elem_of_app. intros [[<- _]|[_ Hp']]; right; [left|].
      apply Hb, elem_of_cons in Hp' as [Hp'|Hp']; [done|by right].
    + by apply marks_follow.
Qed.

Lemma sound_pop names link rest seen : sound names (Resolved link :: rest) seen -> sound names rest (<[link := Some (path_of names)]> seen).
Proof.
  intros [Hc Hn He Hl Hca Hle Hb Hm]. apply Forall_cons in Hn as [_ Hn].
  destruct (Hm [] link rest eq_refl) as (dir & part & -> & Hcd & Hr & Hlead). split; [done..| | | | |by eapply marks_pop].
  - intros path t. rewrite lookup_insert_Some. intros [[<- _]|[_ ?]]; [done|by eapply Hl].
  - intros path t. rewrite lookup_insert_Some. intros [[_ [= <-]]|[_ ?]]; [by exists names|by eapply Hca].
  - intros dir' part' m to t Hcd'. rewrite lookup_insert_Some. intros [[Heq [= <-]]|[_ ?]]; [|by eapply Hle].
    apply path_of_inj in Heq; [|done..]. apply app_inj_tail in Heq as [-> ->]. intros (n & _ & Hw)%Hlead. by inversion Hw.
  - intros path. rewrite lookup_insert_Some. intros [[_ ?]|[Hne Hp]]; [done|]. apply Hb, elem_of_cons in Hp as [[= ->]|Hp]; done.
Qed.
End Loops.

(** * What [resolve] and [contained_path] do *)

Section Theorems.
Context {W E : Type} {F : Files W E}.
Implicit Types (w : W) (path root candidate : str).

(** Where the parts of a path start: the root, or the working directory. *)
Definition origin w path (start : list str) : Prop :=
  if is_absolute path then start = [] else current_dir w = Ok (path_of start).

(** getcwd gives an absolute path with no empty part, [.] or [..]. *)
Definition canonical_cwd w : Prop :=
  forall dir, current_dir w = Ok dir -> exists names, Forall clean names /\ dir = path_of names.

Lemma resolve_start fuel w path start :
  any (is_char c_nul) path = false -> origin w path start ->
  resolve fuel w path = Ok <$> resolve_loop fuel w (path_of start) (map Name (split_char c_slash path)) ∅.
Proof.
  unfold resolve, origin. intros -> Ho. fold (is_absolute path). destruct (is_absolute path); [subst start|rewrite Ho];
    unfold push_parts; by rewrite app_nil_r.
Qed.

(** [resolve] ends where the walk of the path ends, with fuel of twice its steps; and from a
    directory reached through no link it ends at a path that passes through none. *)
Theorem resolve_walks fuel w path start n to
  (Hnul : any (is_char c_nul) path = false) (Ho : origin w path start) (Hc : Forall clean start)
  (Hw : walk w n start (split_char c_slash path) to) (Hf : (2 * n < fuel)%nat) :
  resolve fuel w path = Some (Ok (path_of to)) /\ Forall clean to /\ (settled w start -> settled w to).
Proof.
  split; [|split; [eapply walk_clean; [done|done|apply split_char_free]|by eapply walk_settled]].
  rewrite (resolve_start _ _ _ _ Hnul Ho).
  destruct (walk_runs w n start _ to Hw [] ∅ Hc) as (k & seen' & Hk & _ & _ & Hrun).
  { apply split_char_free. }
  { split; intros *; by rewrite lookup_empty. }
  rewrite app_nil_r in Hrun. replace fuel with (k + S (fuel - S k))%nat by lia. by rewrite Hrun.
Qed.

(** The work that is left: the parts on the stack, and those of every link not followed yet. *)
Definition link_cost w (path : str) : nat :=
  match read_link w path with Some target => S (length (split_char c_slash target)) | None => O end.

Definition work w (links : list str) (pending : list Part) (seen : Seen) : nat :=
  (length pending + sum_list_with (fun l => if decide (seen !! l = None) then link_cost w l else O) links)%nat.

Lemma work_mark w links pending seen link value :
  (work w links pending (<[link := value]> seen) <= work w links pending seen)%nat.
Proof.
  unfold work. apply Nat.add_le_mono_l. induction links as [|l links IH]; [done|]. cbn [sum_list_with].
  apply Nat.add_le_mono; [|done]. destruct (decide (<[link:=value]> seen !! l = None)) as [H|]; [|lia].
  apply lookup_insert_None in H as [H _]. by rewrite decide_True.
Qed.

Lemma work_follow w links pending seen link target :
  link ∈ links -> seen !! link = None -> read_link w link = Some target ->
  (work w links (push_parts (Resolved link :: pending) target) (<[link := None]> seen) <= work w links pending seen)%nat.
Proof.
  intros Hin Hn Hr. unfold work, push_parts. rewrite length_app, length_map. cbn [length].
  assert (forall ls, (sum_list_with (fun l => if decide (<[link := None]> seen !! l = None) then link_cost w l else O) ls
     <= sum_list_with (fun l => if decide (seen !! l = None) then link_cost w l else O) ls)%nat) as Hle.
  { intros ls. pose proof (work_mark w ls [] seen link None) as H. unfold work in H. cbn in H. lia. }
  apply list_elem_of_split in Hin as (l1 & l2 & ->). rewrite !sum_list_with_app. cbn [sum_list_with].
  rewrite decide_False by (by rewrite lookup_insert_eq). rewrite decide_True by done.
  assert (link_cost w link = S (length (split_char c_slash target))) as -> by (unfold link_cost; by rewrite Hr).
  pose proof (Hle l1). pose proof (Hle l2). lia.
Qed.

(** Fuel that is enough for the links listed. *)
Definition enough w path (links : list (list str)) : nat :=
  S (length (split_char c_slash path) + sum_list_with (link_cost w) (path_of <$> links)).

(** The readable links of directories reached through no link are among those listed. *)
Definition finite_links w (links : list (list str)) : Prop :=
  forall dir name, settled w dir -> Forall clean (dir ++ [name]) -> link_target w (path_of (dir ++ [name])) <> None -> dir ++ [name] ∈ links.

(** getcwd gives an absolute path with no empty part, [.] or [..], and with no link. *)
Definition settled_cwd w : Prop :=
  forall dir, current_dir w = Ok dir -> exists names, Forall clean names /\ dir = path_of names /\ settled w names.

Lemma resolve_loop_ends w links fuel names pending seen : finite_links w links -> entered_links w ->
  sound w names pending seen -> (work w (path_of <$> links) pending seen < fuel)%nat ->
  exists to, resolve_loop fuel w (path_of names) pending seen = Some to.
Proof.
  intros Hfin Hent. revert names pending seen. induction fuel as [|fuel IH]; intros names pending seen Hs Hw; [lia|].
  destruct pending as [|[name|link] rest]; cbn [resolve_loop]; [eauto| |].
  2:{ apply IH; [by apply sound_pop|]. pose proof (work_mark w (path_of <$> links) rest seen link (Some (path_of names))). unfold work in *. cbn [length] in Hw. lia. }
  pose proof (sound_step w Hent names name rest seen Hs) as Hstep. destruct (step _ _ _ _ _) as [[resolved pending] seen'].
  destruct Hstep as (names' & -> & Hs' & [[-> ->]|(target & Hset & Hc & Ht & Hn & -> & ->)]); (apply IH; [done|]).
  { unfold work in *. cbn [length] in Hw. lia. }
  assert (read_link w (path_of (names ++ [name])) = Some target) as Hr by (unfold link_target in Ht; by destruct (is_symlink w _)).
  assert (path_of (names ++ [name]) ∈ path_of <$> links) as Hin by (apply list_elem_of_fmap_2, Hfin; [done|done|congruence]).
  pose proof (work_follow w (path_of <$> links) rest seen _ target Hin Hn Hr). unfold work in *. cbn [length] in Hw. lia.
Qed.

Lemma resolve_loop_mono w fuel fuel' resolved pending seen to : (fuel <= fuel')%nat ->
  resolve_loop fuel w resolved pending seen = Some to -> resolve_loop fuel' w resolved pending seen = Some to.
Proof.
  revert fuel' resolved pending seen. induction fuel as [|fuel IH]; intros [|fuel'] resolved pending seen Hle H; try done; [lia|]. cbn [resolve_loop] in *.
  destruct pending as [|[name|link] rest]; [done| |apply IH; [lia|done]]. destruct (step _ _ _ _ _) as [[? ?] ?]. apply IH; [lia|done].
Qed.

Lemma resolve_mono w fuel fuel' path answer : (fuel <= fuel')%nat -> resolve fuel w path = Some answer -> resolve fuel' w path = Some answer.
Proof.
  intros Hle. unfold resolve. destruct (any _ path); [done|]. destruct (if starts_with _ path then _ else _); [|done].
  intros (to & H & ->)%fmap_Some. by rewrite (resolve_loop_mono _ _ _ _ _ _ _ Hle H).
Qed.

(** The machine keeps its path canonical, loops included. *)
Lemma resolve_loop_canonical w fuel resolved pending seen to :
  (exists names, Forall clean names /\ resolved = path_of names) ->
  Forall (fun part => match part with Name name => char_free c_slash name | Resolved _ => True end) pending ->
  map_Forall (fun _ t => forall target, t = Some target -> exists names, Forall clean names /\ target = path_of names) seen ->
  resolve_loop fuel w resolved pending seen = Some to -> exists names, Forall clean names /\ to = path_of names.
Proof.
  revert resolved pending seen. induction fuel as [|fuel IH]; intros resolved pending seen (names & Hc & ->) Hp Hs; [done|].
  cbn [resolve_loop]. destruct Hp as [|[name|link] rest Hname Hp]; [intros [= <-]; eauto| |].
  2:{ apply IH; [eauto|done|]. apply map_Forall_insert_2; [|done]. intros ? [= <-]. eauto. }
  destruct (special name) eqn:Esp.
  - apply special_cases in Esp as [Hstay| ->]; [rewrite step_stay by done; apply IH; eauto|].
    rewrite step_up, to_parent_spec by done. apply IH; [|done..]. eexists. split; [|done]. by apply Forall_take.
  - pose proof (clean_snoc names name Hc Hname Esp) as Hc'. rewrite step_name by done. cbv zeta.
    destruct (link w _ seen) as [|t|t] eqn:El; [apply IH; eauto| |].
    + apply IH; [|done..]. unfold link in El. destruct (is_symlink w _); [|done]. cbn [negb] in El.
      destruct (seen !! _) as [[t'|]|] eqn:Hn; [|done|by destruct (read_link w _)]. injection El as ->.
      by apply (Hs _ _ Hn).
    + apply IH; [| |by apply map_Forall_insert_2].
      * eexists. split; [|done]. unfold start_of. by destruct (is_absolute t).
      * unfold push_parts. apply Forall_app. split; [|by constructor]. apply Forall_fmap.
        eapply Forall_impl; [apply split_char_free|]. done.
Qed.

Lemma resolve_canonical w fuel path to :
  canonical_cwd w -> resolve fuel w path = Some (Ok to) -> exists names, Forall clean names /\ to = path_of names.
Proof.
  unfold resolve. intros Hcwd. destruct (any _ path); [done|].
  assert (forall start to, (exists names, Forall clean names /\ start = path_of names) ->
    @Ok str E <$> resolve_loop fuel w start (push_parts [] path) ∅ = Some (Ok to) ->
    exists names, Forall clean names /\ to = path_of names) as Hrun.
  { intros start to' Hstart E'. apply fmap_Some in E' as (to'' & E' & [= ->]). eapply resolve_loop_canonical; [exact Hstart| | |exact E'].
    - unfold push_parts. apply Forall_app. split; [|constructor]. apply Forall_fmap.
      eapply Forall_impl; [apply split_char_free|]. done.
    - apply map_Forall_empty. }
  destruct (starts_with [c_slash] path); [apply Hrun; by exists []|].
  destruct (current_dir w) as [dir|] eqn:Ed; [|done]. apply Hrun, Hcwd, Ed.
Qed.

(** Why a path does not resolve. *)
Definition unusable w path error : Prop :=
  (any (is_char c_nul) path = true /\ error = invalid_input) \/ (is_absolute path = false /\ current_dir w = Err error).

Lemma resolve_unusable w fuel path error : resolve fuel w path = Some (Err error) -> unusable w path error.
Proof.
  unfold resolve, unusable, is_absolute. destruct (any _ path); [intros [= <-]; by left|]. destruct (starts_with _ path).
  - intros (? & _ & ?)%fmap_Some. done.
  - destruct (current_dir w); [by intros (? & _ & ?)%fmap_Some|intros [= <-]; by right].
Qed.

(** C31: [resolve] ends on every path, loops of links included, when finitely many links can be read in
    directories reached through no link, and a link is read only below a directory that can be
    entered; its answer is an absolute path with no empty part, [.] or [..], and it fails only for a
    NUL or an unknown working directory. *)
Theorem resolve_total w path links
  (Hfinite : finite_links w links) (Hentered : entered_links w) (Hcwd : settled_cwd w) :
  exists answer, resolve (enough w path links) w path = Some answer /\
    match answer with
    | Ok to => exists names, Forall clean names /\ to = path_of names
    | Err error => unusable w path error
    end.
Proof.
  assert (canonical_cwd w) as Hcan by (intros dir H; destruct (Hcwd dir H) as (names & ? & ? & _); eauto).
  destruct (resolve (enough w path links) w path) as [answer|] eqn:Er.
  - exists answer. split; [done|]. destruct answer as [to|error]; [by eapply resolve_canonical|by eapply resolve_unusable].
  - exfalso. unfold resolve in Er. destruct (any _ path); [done|].
    destruct (if starts_with [c_slash] path then _ else _) as [start|] eqn:Es; [|done].
    assert (exists names, start = path_of names /\ Forall clean names /\ settled w names) as (names & -> & Hc & Hs).
    { destruct (starts_with _ path); [injection Es as <-; exists []; split; [done|]; split; [constructor|apply settled_nil]|]. destruct (Hcwd _ Es) as (names & ? & ? & ?). eauto. }
    destruct (resolve_loop_ends w links (enough w path links) names (push_parts [] path) ∅ Hfinite Hentered) as [to E'].
    + split; [done| |by apply settled_no_entry|intros *; rewrite lookup_empty; done..|].
      * unfold push_parts. apply Forall_app. split; [|by constructor]. apply Forall_fmap. eapply Forall_impl; [apply split_char_free|]. done.
      * intros above link below H. unfold push_parts in H. rewrite app_nil_r in H. exfalso.
        assert (Resolved link ∈ map Name (split_char c_slash path)) as Hin by (rewrite H; apply elem_of_app; right; left).
        apply list_elem_of_In, in_map_iff in Hin as (? & ? & _). done.
    + unfold work, enough, push_parts. rewrite app_nil_r, length_map.
      assert (forall ls, sum_list_with (fun l => if decide ((∅ : Seen) !! l = None) then link_cost w l else O) ls =
        sum_list_with (link_cost w) ls) as ->; [|lia].
      induction ls as [|l ls IH]; [done|]. cbn [sum_list_with]. by rewrite decide_True, IH by apply lookup_empty.
    + by rewrite E' in Er.
Qed.

(** The candidate against the resolved root. *)
Definition against (base : list str) candidate : str := if is_absolute candidate then candidate else path_join (path_of base) candidate.

(** The path resolves to the names, and they are where its walk ends, each readable link followed. *)
Definition resolves fuel w path (names : list str) : Prop :=
  resolve fuel w path = Some (Ok (path_of names)) /\ Forall clean names /\
  forall start n to, origin w path start -> Forall clean start -> walk w n start (split_char c_slash path) to -> to = names.

Lemma resolve_resolves w fuel path to : canonical_cwd w -> resolve fuel w path = Some (Ok to) -> exists names, to = path_of names /\ resolves fuel w path names.
Proof.
  intros Hcwd H. destruct (resolve_canonical _ _ _ _ Hcwd H) as (names & Hc & ->). exists names. split; [done|]. split; [done|]. split; [done|].
  intros start n to Ho Hs Hw. assert (any (is_char c_nul) path = false) as Hnul by (unfold resolve in H; by destruct (any _ path)).
  destruct (resolve_walks (fuel `max` S (2 * n)) w path start n to Hnul Ho Hs Hw ltac:(lia)) as (H' & Hc' & _).
  apply (resolve_mono _ _ (fuel `max` S (2 * n))) in H; [|lia]. rewrite H in H'. injection H' as H'. by apply path_of_inj in H'.
Qed.

(** C4: A candidate is accepted exactly when it resolves, against the resolved root, to the root or to a
    path whose names continue the root's, and the answer is that path: where its walk ends, every
    readable link followed.  It is refused as outside when the names do not continue the root's, and as
    unusable when it or the root holds a NUL or needs an unknown working directory. *)
Theorem contained_inside fuel w root candidate answer
  (Hcwd : canonical_cwd w) (Hr : contained_path fuel w root candidate = Some answer) :
  match answer with
  | Ok to => exists base more, resolves fuel w root base /\ resolves fuel w (against base candidate) (base ++ more) /\ to = path_of (base ++ more)
  | Err (Outside to base_text) => exists base names, resolves fuel w root base /\ resolves fuel w (against base candidate) names /\
      base_text = path_of base /\ to = path_of names /\ ~ base `prefix_of` names
  | Err Unusable => exists error, unusable w root error \/
      exists base, resolves fuel w root base /\ unusable w (against base candidate) error
  end.
Proof.
  unfold contained_path in Hr. destruct (resolve fuel w root) as [[base|error]|] eqn:Eb; cbn in Hr; [|injection Hr as <-|done].
  2:{ exists error. left. by eapply resolve_unusable. }
  destruct (resolve_resolves _ _ _ _ Hcwd Eb) as (bs & -> & Hbs). fold (against bs candidate) in Hr.
  destruct (resolve fuel w (against bs candidate)) as [[to|error]|] eqn:Et; cbn in Hr; [| |done].
  - destruct (resolve_resolves _ _ _ _ Hcwd Et) as (ns & -> & Hns).
    pose proof (path_starts_with_spec ns bs (proj1 (proj2 Hns)) (proj1 (proj2 Hbs))) as Hp.
    destruct (path_starts_with _ _); injection Hr as <-.
    + destruct Hp as [[more ->] _]; [done|]. by exists bs, more.
    + exists bs, ns. repeat (split; [done|]). intros Hpre. by apply Hp in Hpre.
  - injection Hr as <-. exists error. right. exists bs. split; [done|]. by eapply resolve_unusable.
Qed.
End Theorems.

(** * A concrete world *)

Module Trees.
(** The links of a tree by where they are, and its working directory.  Every other name is there and is no link. *)
Record Tree := { links : gmap (list str) str; cwd : list str }.

(** The names of a path in turn, as the system enters them: a link is entered at its target, up to a limit. *)
Fixpoint descend (ls : gmap (list str) str) (fuel : nat) (dir parts : list str) : option (list str) :=
  match fuel, parts with
  | O, _ => None
  | _, [] => Some dir
  | S fuel, part :: parts =>
      if special part then descend ls fuel (if bool_decide (part = lit "..") then take (length dir - 1) dir else dir) parts
      else match ls !! (dir ++ [part]) with
           | None => descend ls fuel (dir ++ [part]) parts
           | Some target => mid ← descend ls fuel (start_of target dir) (split_char c_slash target); descend ls fuel mid parts
           end
  end.

(** Where a path is, its last name not followed. *)
Definition place (t : Tree) (path : str) : option (list str) :=
  match rev (split_char c_slash path) with
  | [] => None
  | name :: before =>
      dir ← descend (links t) (length path + 40) (start_of path (cwd t)) (rev before);
      Some (if special name then dir else dir ++ [name])
  end.

#[export] Instance tree_files : Files Tree unit := {
  current_dir t := Ok (path_of (cwd t));
  symlink_metadata t path :=
    names ← place t path;
    Some {| file_type := if bool_decide (is_Some (links t !! names)) then Symlink else RegularFile; len := 0; mode := 420 |};
  metadata t path := Ok {| file_type := RegularFile; len := 0; mode := 420 |};
  read_link t path := names ← place t path; links t !! names;
  canonicalize t path := Some path;
  invalid_input := tt
}.

(** ** Such a tree keeps the hypotheses *)

Definition unlinked (t : Tree) (names : list str) : Prop := forall k, (0 < k <= length names)%nat -> links t !! take k names = None.

Lemma unlinked_snoc t names name : unlinked t names -> links t !! (names ++ [name]) = None -> unlinked t (names ++ [name]).
Proof.
  intros H Hn k. rewrite length_app. cbn [length]. intros Hk. destruct (decide (k = length names + 1)%nat) as [->|].
  - rewrite take_ge; [done|]. rewrite length_app. cbn. lia.
  - rewrite take_app_le by lia. apply H. lia.
Qed.

Lemma unlinked_take t names n : unlinked t names -> unlinked t (take n names).
Proof. intros H k. rewrite length_take. intros Hk. rewrite take_take. replace (k `min` n)%nat with k by lia. apply H. lia. Qed.

Lemma clean_special name : clean name -> special name = false.
Proof. intros (_ & ? & ? & ?). unfold special. by rewrite !bool_decide_false. Qed.

Lemma descend_unlinked t more : forall dir fuel, unlinked t (dir ++ more) -> Forall clean (dir ++ more) -> (length more < fuel)%nat ->
  descend (links t) fuel dir more = Some (dir ++ more).
Proof.
  induction more as [|name more IH]; intros dir [|fuel] Hu Hc Hf; cbn [length] in Hf; try lia; cbn [descend]; [by rewrite app_nil_r|].
  replace (dir ++ name :: more) with ((dir ++ [name]) ++ more) in * by (by rewrite <- app_assoc).
  assert (clean name) as Hn by (apply Forall_app in Hc as [Hc _]; apply Forall_app in Hc as [_ Hc]; by apply Forall_cons in Hc as [? _]).
  rewrite clean_special by done. assert (links t !! (dir ++ [name]) = None) as ->; [|apply IH; [done|done|lia]].
  specialize (Hu (length (dir ++ [name]))). rewrite take_app_length in Hu. apply Hu. rewrite !length_app. cbn. lia.
Qed.

Lemma split_path_of dir name : Forall clean (dir ++ [name]) -> split_char c_slash (path_of (dir ++ [name])) = [] :: dir ++ [name].
Proof.
  intros Hc. unfold path_of. destruct (dir ++ [name]) as [|n names] eqn:E; [by destruct dir|]. apply split_join_char; [done|].
  constructor; [constructor|]. eapply Forall_impl; [exact Hc|]. by intros ? [].
Qed.

Lemma place_descend t dir name : Forall clean (dir ++ [name]) ->
  place t (path_of (dir ++ [name])) = (dir' ← descend (links t) (length (path_of (dir ++ [name])) + 40) [] ([] :: dir); Some (dir' ++ [name])).
Proof.
  intros Hc. unfold place. rewrite split_path_of by done. cbn [rev]. rewrite rev_app_distr. cbn [rev app]. rewrite rev_app_distr, rev_involutive. cbn [rev app].
  assert (start_of (path_of (dir ++ [name])) (cwd t) = []) as -> by (unfold path_of; by destruct (dir ++ [name])).
  apply Forall_app in Hc as [_ Hn]. apply Forall_cons in Hn as [Hn _]. by rewrite clean_special.
Qed.

Lemma path_of_longer names : (length names <= length (path_of names))%nat.
Proof.
  destruct names as [|n names]; [cbn; lia|]. rewrite path_of_cons. revert n. induction names as [|m names IH]; intros n; cbn [length]; [lia|].
  specialize (IH m). change (join_with [c_slash] (n :: m :: names)) with (n ++ [c_slash] ++ join_with [c_slash] (m :: names)). rewrite !length_app. cbn in *. lia.
Qed.

Lemma link_target_tree t dir name : unlinked t dir -> Forall clean (dir ++ [name]) -> link_target t (path_of (dir ++ [name])) = links t !! (dir ++ [name]).
Proof.
  intros Hu Hc. assert (place t (path_of (dir ++ [name])) = Some (dir ++ [name])) as Hp.
  { rewrite place_descend by done. pose proof (path_of_longer (dir ++ [name])) as Hl. rewrite length_app in Hl. cbn [length] in Hl.
    replace (length _ + 40)%nat with (S (length (path_of (dir ++ [name])) + 39)) by lia. cbn [descend]. change (special []) with true. cbn match.
    assert (Forall clean dir) by (by apply Forall_app in Hc as []). by rewrite (descend_unlinked t dir []) by (done || lia). }
  unfold link_target, is_symlink. cbn [symlink_metadata read_link tree_files]. rewrite Hp. cbn [mbind option_bind file_type].
  by destruct (links t !! (dir ++ [name])).
Qed.

Lemma descend_walk t fuel : forall dir parts to, descend (links t) fuel dir parts = Some to -> unlinked t dir -> Forall clean dir -> Forall (char_free c_slash) parts ->
  (exists n, walk t n dir parts to) /\ unlinked t to /\ Forall clean to.
Proof.
  induction fuel as [|fuel IH]; intros dir parts to; [done|]. destruct parts as [|part parts]; cbn [descend].
  { intros [= <-] ? ? _. split; [by exists O; constructor|done]. }
  intros H Hu Hc [Hf1 Hf]%Forall_cons. destruct (special part) eqn:Hp.
  - apply special_cases in Hp as Hs. destruct Hs as [Hs| ->].
    + assert (bool_decide (part = lit "..") = false) as Hb by (by destruct Hs as [-> | ->]). rewrite Hb in H.
      destruct (IH _ _ _ H) as ((n & Hw) & ?); [done..|]. split; [|done]. exists (S n). by apply walk_stay.
    + rewrite bool_decide_true in H by done. destruct (IH _ _ _ H) as ((n & Hw) & ?); [by apply unlinked_take|by apply Forall_take|done|].
      split; [|done]. exists (S n). by apply walk_up.
  - pose proof (clean_snoc dir part Hc Hf1 Hp) as Hcs. pose proof (link_target_tree t dir part Hu Hcs) as Ht. destruct (links t !! (dir ++ [part])) as [target|] eqn:El.
    + destruct (descend (links t) fuel (start_of target dir) _) as [mid|] eqn:Em; [|done]. cbn in H.
      destruct (IH _ _ _ Em) as ((n1 & H1) & Hu1 & Hc1); [by unfold start_of; destruct (is_absolute target); [intros k; cbn; lia|]|by unfold start_of; destruct (is_absolute target)|apply split_char_free|].
      destruct (IH _ _ _ H Hu1 Hc1 Hf) as ((n2 & H2) & ?). split; [|done]. exists (S (n1 + n2)). by eapply walk_link.
    + destruct (IH _ _ _ H) as ((n & Hw) & ?); [by apply unlinked_snoc|done|done|]. split; [|done]. exists (S n). by apply walk_name.
Qed.

Lemma tree_entered t : entered_links t.
Proof.
  intros dir name Hc Ht. unfold link_target, is_symlink in Ht. cbn [symlink_metadata read_link tree_files] in Ht. rewrite place_descend in Ht by done.
  destruct (descend _ _ _ _) as [dir'|] eqn:Ed; [|done]. apply Forall_app in Hc as [Hc _].
  destruct (descend_walk t _ _ _ _ Ed) as ((n & Hw) & _); [intros k; cbn; lia|done| |].
  { constructor; [constructor|]. eapply Forall_impl; [exact Hc|]. by intros ? []. }
  apply walk_stay_inv in Hw as (m & _ & Hw); [|by left]. by exists m, dir'.
Qed.

Lemma settled_unlinked t dir : Forall clean dir -> settled t dir -> unlinked t dir.
Proof.
  induction dir as [|name dir IH] using rev_ind; intros Hc Hs; [intros k; cbn; lia|]. apply Forall_app in Hc as Hc'. destruct Hc' as [Hcd _].
  assert (unlinked t dir) as Hu by (apply IH; [done|]; rewrite <- (take_app_length dir [name]); by apply settled_take).
  apply unlinked_snoc; [done|]. rewrite <- link_target_tree by done. specialize (Hs (length (dir ++ [name]))). rewrite take_ge in Hs by lia.
  apply Hs. rewrite length_app. cbn. lia.
Qed.

Lemma tree_finite t : finite_links t (map_to_list (links t)).*1.
Proof.
  intros dir name Hs Hc Ht. rewrite link_target_tree in Ht; [|apply settled_unlinked; [by apply Forall_app in Hc as []|done]|done].
  destruct (links t !! (dir ++ [name])) as [target|] eqn:El; [|done]. apply list_elem_of_fmap. exists (dir ++ [name], target). split; [done|]. by apply elem_of_map_to_list.
Qed.

Lemma unlinked_settled t dir : Forall clean dir -> unlinked t dir -> settled t dir.
Proof.
  induction dir as [|name dir IH] using rev_ind; intros Hc Hu; [apply settled_nil|]. apply Forall_app in Hc as Hc'. destruct Hc' as [Hcd _].
  assert (unlinked t dir) as Hud by (rewrite <- (take_app_length dir [name]); by apply unlinked_take). apply settled_snoc; [by apply IH|].
  rewrite link_target_tree by done. specialize (Hu (length (dir ++ [name]))). rewrite take_ge in Hu by lia. apply Hu. rewrite length_app. cbn. lia.
Qed.

(** Two links, one into a sibling and one outside, and two that name each other. *)
Definition tree : Tree :=
  {| links := <[[lit "r"; lit "a"] := lit "b/../c"]> (<[[lit "r"; lit "out"] := lit "/etc"]>
       (<[[lit "r"; lit "x"] := lit "y"]> (<[[lit "r"; lit "y"] := lit "x"]> ∅)));
     cwd := [lit "r"] |}.

Example through_link : resolve 20 tree (lit "/r/./a//d") = Some (Ok (lit "/r/c/d")).
Proof. vm_compute. reflexivity. Qed.

Example loop_kept : resolve 20 tree (lit "x/z") = Some (Ok (lit "/r/x/z")).
Proof. vm_compute. reflexivity. Qed.

Example inside : contained_path 20 tree (lit "/r") (lit "a/d") = Some (Ok (lit "/r/c/d")).
Proof. vm_compute. reflexivity. Qed.

Example outside : contained_path 20 tree (lit "/r") (lit "out") = Some (Err (Outside (lit "/etc") (lit "/r"))).
Proof. vm_compute. reflexivity. Qed.

Example sibling : contained_path 20 tree (lit "/r") (lit "/rest") = Some (Err (Outside (lit "/rest") (lit "/r"))).
Proof. vm_compute. reflexivity. Qed.
End Trees.
Import Trees.

Lemma tree_cwd : canonical_cwd tree.
Proof.
  intros dir. cbn. intros [= <-]. exists [lit "r"]. split; [|done]. apply Forall_singleton.
  repeat split; [|done..]. repeat constructor.
Defined.

(** A link has many path texts. *)
Example link_spelled : is_symlink tree (lit "//r/./a") = true.
Proof. vm_compute. reflexivity. Qed.

Lemma tree_settled : settled_cwd tree.
Proof.
  intros dir. cbn. intros [= <-]. exists [lit "r"]. assert (Forall clean [lit "r"]) as Hc by (repeat constructor; done).
  split; [exact Hc|]. split; [done|]. apply unlinked_settled; [exact Hc|]. intros [|[|k]] Hk; [cbn in Hk; lia| |cbn in Hk; lia]. vm_compute. reflexivity.
Defined.

Lemma resolve_walks_witness :
  walk tree 6 [lit "r"] (split_char c_slash (lit "a/./d")) [lit "r"; lit "c"; lit "d"] /\
  resolve 20 tree (lit "a/./d") = Some (Ok (path_of [lit "r"; lit "c"; lit "d"])).
Proof.
  assert (walk tree 6 [lit "r"] (split_char c_slash (lit "a/./d")) [lit "r"; lit "c"; lit "d"]) as H.
  { apply (walk_link tree 3 2 [lit "r"] (lit "a") [lit "."; lit "d"] (lit "b/../c") [lit "r"; lit "c"]); [reflexivity|reflexivity| |].
    - apply walk_name; [reflexivity|reflexivity|]. apply walk_up. apply walk_name; [reflexivity|reflexivity|]. apply walk_end.
    - apply walk_stay; [right; reflexivity|]. apply walk_name; [reflexivity|reflexivity|]. apply walk_end. }
  split; [exact H|]. apply (resolve_walks 20 tree (lit "a/./d") [lit "r"] 6); [reflexivity|vm_compute; reflexivity| |exact H|lia].
  apply Forall_singleton. repeat split; [|done..]. repeat constructor.
Defined.

Lemma resolve_total_witness :
  exists answer, resolve (enough tree (lit "x") (map_to_list (links tree)).*1) tree (lit "x") = Some answer /\
    match answer with Ok to => exists names, Forall clean names /\ to = path_of names | Err error => unusable tree (lit "x") error end.
Proof. apply (resolve_total tree (lit "x") _ (tree_finite tree) (tree_entered tree) tree_settled). Defined.

Lemma contained_inside_witness :
  contained_path 20 tree (lit "/r") (lit "a/d") = Some (Ok (lit "/r/c/d")) /\
  exists base more, resolves 20 tree (lit "/r") base /\ resolves 20 tree (against base (lit "a/d")) (base ++ more) /\
    lit "/r/c/d" = path_of (base ++ more).
Proof. split; [exact inside|]. exact (contained_inside 20 tree (lit "/r") (lit "a/d") _ tree_cwd inside). Defined.
