(* ===== verification/Txn.v ===== *)
(** The repository write: crates/io/src/txn.rs.

    The world is threaded through each operation.  [Steps] is the trait of the source; its laws
    say what one step does to the files.  [write_all_or_none] is proved against the laws alone;
    Disk.v discharges them for the steps of the source's [Disk]. *)

From S2P Require Import Prelude RustStr Ordered Text Contain.
Local Open Scope Z_scope.
Local Open Scope rs_scope.

Notation bytes := (list Z) (only parsing).

(** * Data *)

Record Leftover := { leftover_path : str; leftover_reason : str }.

Inductive WriteError :=
| Refused (refusal : Refusal)
| Stage (path reason : str)
| Reserve (reason : str)
| Restored (name reason : str)
| PartlyApplied (name reason : str) (retained : list str)
| Watch (reason : str).

Record WriteFailure := { error : WriteError; leftovers : list Leftover }.

Record Staged := { staging : str; target : str }.

Definition STAGING_SUFFIX : str := lit ".agentless-mcp-staged".
Definition BACKUP_SUFFIX : str := lit ".agentless-mcp-backup".

(** * The steps *)

(** std::io::ErrorKind, as far as the code tells kinds apart. *)
Inductive ErrorKind := AlreadyExists | NotFound | Interrupted | Unsupported | InvalidInput | OtherKind.

#[export] Instance ErrorKind_eq_dec : EqDecision ErrorKind.
Proof. solve_decision. Defined.

(** std::io::Error. *)
Class IoError (E : Type) := {
  kind : E -> ErrorKind;
  to_string : E -> str;
  raw_os_error : E -> option Z;
  new_error : ErrorKind -> str -> E
}.

(** The trait of the write.  Staging writes in a loop, and [None] says that it does not end. *)
Class Steps (W E : Type) := {
  stage : str -> bytes -> W -> option (result str E * W);
  reserve : str -> W -> result str E * W;
  rename_step : str -> str -> W -> result unit E * W;
  remove_step : str -> W -> result unit E * W
}.

Definition is_ok {A E} (r : result A E) : bool := match r with Ok _ => true | Err _ => false end.

Section Strerror.
Context {E : Type} {I : IoError E}.

Definition strip_suffix (s suffix : str) : option str :=
  match strip_prefix (reverse suffix) (reverse s) with Some rest => Some (reverse rest) | None => None end.

Definition decimal (n : Z) : str := if n <? 0 then lit "-" ++ dec_text (- n) else dec_text n.

Definition strerror (e : E) : str :=
  let text := to_string e in
  match raw_os_error e with
  | None => text
  | Some code =>
      match strip_suffix text (lit " (os error " ++ decimal code ++ lit ")") with
      | Some message => message
      | None => text
      end
  end.
End Strerror.

(** * The write *)

Definition failure (e : WriteError) (stay : list Leftover) : WriteFailure := {| error := e; leftovers := stay |}.

(** Path::file_name and Path::parent. *)
Definition file_name (path : str) : option str :=
  match last (components path) with Some (Normal name) => Some name | _ => None end.

(** The parts of a path, last first, without those at its end that make no component. *)
Fixpoint drop_skipped (rev_parts : list str) : list str :=
  match rev_parts with
  | part :: rest => if is_nonempty rest && bool_decide (component part = None) then drop_skipped rest else rev_parts
  | [] => []
  end.

Definition parent (path : str) : option str :=
  match last (components path) with
  | None | Some RootDir => None
  | Some _ =>
      let up := drop_skipped (tail (drop_skipped (reverse (split_char c_slash path)))) in
      Some (if bool_decide (up = [[]]) then [c_slash] else join_with [c_slash] (reverse up))
  end.

Definition name_of (path : str) : str := default [] (file_name path).

Section Write.
Context {W E : Type} {F : Files W E} {I : IoError E} {P : Steps W E}.
Implicit Types (w : W).

Definition stage_one w (path target : str) (data : bytes) : option (result Staged WriteError * W) :=
  '(staged, w) ← stage target data w;
  Some (match staged with
        | Ok staging => Ok {| staging := staging; target := target |}
        | Err e => Err (Stage path (strerror e))
        end, w).

(** Removes each path in turn and keeps those that stay. *)
Fixpoint discard (paths : list str) w : list Leftover * W :=
  match paths with
  | [] => ([], w)
  | path :: rest =>
      let '(removed, w) := remove_step path w in
      let '(stay, w) := discard rest w in
      (match removed with
       | Ok _ => stay
       | Err e => {| leftover_path := path; leftover_reason := strerror e |} :: stay
       end, w)
  end.

Definition discard_staged (staged : list Staged) w : list Leftover * W := discard (map staging staged) w.

(** [None] when resolving a path or staging a file does not end. *)
Fixpoint stage_all (fuel : nat) (base : str) (files : list (str * bytes)) (staged : list Staged) w
  : option (result (list Staged) WriteFailure * W) :=
  match files with
  | [] => Some (Ok staged, w)
  | (path, data) :: rest =>
      contained ← contained_path fuel w base path;
      '(one, w) ← match contained with
                  | Err refusal => Some (Err (Refused refusal), w)
                  | Ok target => stage_one w path target data
                  end;
      match one with
      | Ok one => stage_all fuel base rest (staged ++ [one]) w
      | Err e => let '(stay, w) := discard_staged staged w in Some (Err (failure e stay), w)
      end
  end.

Fixpoint reserve_all (all staged : list Staged) (backups : list str) w : result (list str) WriteFailure * W :=
  match staged with
  | [] => (Ok backups, w)
  | one :: rest =>
      let '(reserved, w) := reserve (target one) w in
      match reserved with
      | Ok backup => reserve_all all rest (backups ++ [backup]) w
      | Err e =>
          let '(stay, w) := discard_staged all w in
          let '(more, w) := discard backups w in
          (Err (failure (Reserve (strerror e)) (stay ++ more)), w)
      end
  end.

(** The backups that could not move back, last first. *)
Fixpoint roll_back_each (completed : list (str * str)) w : list str * W :=
  match completed with
  | [] => ([], w)
  | (backup, target) :: rest =>
      let '(moved, w) := rename_step backup target w in
      let '(retained, w) := roll_back_each rest w in
      (if is_ok moved then retained else backup :: retained, w)
  end.

Definition roll_back (completed : list (str * str)) w : list str * W := roll_back_each (reverse completed) w.

Definition undo (staged : list Staged) (backups : list str) (completed : list (str * str)) (position : nat) (e : E) w
  : WriteFailure * W :=
  let '(retained, w) := roll_back completed w in
  let '(stay, w) := discard_staged (drop position staged) w in
  let moved := completed.*1 in
  let unused := List.filter (fun backup => negb (bool_decide (backup ∈ moved))) backups in
  let '(more, w) := discard unused w in
  let target := match staged !! position with Some one => target one | None => [] end in
  let name := name_of target in
  let reason := strerror e in
  let cause := if negb (is_nonempty retained) then Restored name reason else PartlyApplied name reason retained in
  (failure cause (stay ++ more), w).

(** The loop over the pairs that are left, from [position] on. *)
Fixpoint replace_loop (staged : list Staged) (backups : list str) (rest : list (Staged * str))
    (position : nat) (completed : list (str * str)) w : result unit WriteFailure * W :=
  match rest with
  | [] => (Ok tt, w)
  | (one, backup) :: rest =>
      let '(moved, w) := rename_step (target one) backup w in
      let '(moved, completed, w) :=
        match moved with
        | Ok _ =>
            let '(moved, w) := rename_step (staging one) (target one) w in
            (moved, completed ++ [(backup, target one)], w)
        | Err e => (Err e, completed, w)
        end in
      match moved with
      | Ok _ => replace_loop staged backups rest (position + 1) completed w
      | Err e => let '(failed, w) := undo staged backups completed position e w in (Err failed, w)
      end
  end.

Definition replace_all (staged : list Staged) (backups : list str) w : result unit WriteFailure * W :=
  replace_loop staged backups (zip staged backups) 0 [] w.

Definition write_with (fuel : nat) (base : str) (contents : list (str * bytes)) w
  : option (result (list Leftover) WriteFailure * W) :=
  let files := btree_iter (btree_collect contents) in
  '(staged, w) ← stage_all fuel base files [] w;
  match staged with
  | Err failed => Some (Err failed, w)
  | Ok staged =>
      let '(backups, w) := reserve_all staged staged [] w in
      match backups with
      | Err failed => Some (Err failed, w)
      | Ok backups =>
          let '(replaced, w) := replace_all staged backups w in
          match replaced with
          | Err failed => Some (Err failed, w)
          | Ok _ => let '(stay, w) := discard backups w in Some (Ok stay, w)
          end
      end
  end.
End Write.

(** * What the steps promise *)

(** An entry of a directory that is no directory. *)
Inductive Entry :=
| Regular (mode : Z) (data : bytes)
| Special (id : Z).

(** The entries of a world by path; no two names are links to one file. *)
Class HasTree (W : Type) := tree : W -> gmap str Entry.

Definition sibling_prefix (name : str) : str := lit "." ++ name ++ lit ".".

(** The directory of a target and the name prefix of its siblings. *)
Definition sibling_parts (target : str) : str * str :=
  (default [c_slash] (parent target), sibling_prefix (name_of target)).

Definition NAME_LENGTH : nat := 8.

Definition sibling (suffix target path : str) : Prop :=
  exists middle, length middle = NAME_LENGTH /\
    path = path_join (sibling_parts target).1 ((sibling_parts target).2 ++ middle ++ suffix).

(** A path that the write can create. *)
Definition temporary (path : str) : Prop :=
  exists target, sibling STAGING_SUFFIX target path \/ sibling BACKUP_SUFFIX target path.

Definition PERMISSIONS : Z := 0xfff.

(** How the permissions that a file is given relate to those it ends with; equality where all of them last. *)
Class Keeps := kept : Z -> Z -> Prop.

Section Laws.
Context {W E : Type} {F : Files W E} {P : Steps W E} {T : HasTree W}.

(** Paths resolve alike in two worlds. *)
Definition same_paths (w w' : W) : Prop :=
  (forall path, is_symlink w' path = is_symlink w path) /\ (forall path, read_link w' path = read_link w path) /\
  current_dir w' = current_dir w.

Context {K : Keeps}.

(** The entry that a stage makes has the permissions of the target, as far as they last. *)
Definition keeps_mode (w : W) (target : str) (mode : Z) : Prop :=
  forall mode' data, tree w !! target = Some (Regular mode' data) -> kept (Z.land mode' PERMISSIONS) mode.

Class StepsLaws : Prop := {
  stage_law target data w :
    exists r w', stage target data w = Some (r, w') /\ same_paths w w' /\
      match r with
      | Ok staging => tree w !! staging = None /\ sibling STAGING_SUFFIX target staging /\
          exists mode, keeps_mode w target mode /\ tree w' = <[staging := Regular mode data]> (tree w)
      | Err _ => tree w' = tree w \/
          exists staging entry, tree w !! staging = None /\ sibling STAGING_SUFFIX target staging /\
            tree w' = <[staging := entry]> (tree w)
      end;
  reserve_law target w r w' :
    reserve target w = (r, w') ->
    match r with
    | Ok backup => tree w !! backup = None /\ sibling BACKUP_SUFFIX target backup /\
        exists entry, tree w' = <[backup := entry]> (tree w)
    | Err _ => tree w' = tree w
    end;
  rename_law from to w r w' :
    rename_step from to w = (r, w') ->
    match r with
    | Ok _ => is_Some (tree w !! from) \/ is_Some (tree w !! to) ->
        exists entry, tree w !! from = Some entry /\ tree w' = <[to := entry]> (delete from (tree w))
    | Err _ => tree w' = tree w
    end;
  remove_law path w r w' :
    remove_step path w = (r, w') ->
    tree w' = if is_ok r then delete path (tree w) else tree w
}.
End Laws.
Arguments StepsLaws W E {F P T K}.

(** * All or none *)

Section AllOrNone.
Context {W E : Type} {F : Files W E} {I : IoError E} {P : Steps W E} {T : HasTree W} {K : Keeps} {L : StepsLaws W E}.
Implicit Types (w : W) (p : str).

Lemma same_paths_refl w : same_paths w w.
Proof. by repeat split. Qed.

Lemma same_paths_trans w1 w2 w3 : same_paths w1 w2 -> same_paths w2 w3 -> same_paths w1 w3.
Proof. intros (A1 & B1 & C1) (A2 & B2 & C2). repeat split; intros; congruence. Qed.

Lemma same_paths_resolve fuel w w' path : same_paths w w' -> resolve fuel w' path = resolve fuel w path.
Proof.
  intros (Hs & Hr & Hd). unfold resolve. rewrite Hd. destruct (any _ path); [done|].
  destruct (if starts_with _ _ then _ else _) as [start|]; [|done]. f_equal.
  generalize (push_parts [] path) (∅ : gmap str (option str)). revert start.
  induction fuel as [|fuel IH]; intros start pending seen; [done|]. cbn [resolve_loop].
  destruct pending as [|[name|l] rest]; [done| |apply IH].
  assert (step w' start name rest seen = step w start name rest seen) as ->.
  { unfold step, link. by rewrite Hs, Hr. }
  destruct (step w start name rest seen) as [[? ?] ?]. apply IH.
Qed.

Lemma same_paths_contained fuel w w' base path :
  same_paths w w' -> contained_path fuel w' base path = contained_path fuel w base path.
Proof.
  intros H. unfold contained_path. rewrite (same_paths_resolve _ _ _ _ H).
  destruct (resolve fuel w base) as [[b|]|]; cbn; [|done..]. by rewrite (same_paths_resolve _ _ _ _ H).
Qed.

Definition stayed (l : list Leftover) : list str := map leftover_path l.

(** [discard] removes each path or reports it. *)
Lemma discard_spec paths w l w' :
  NoDup paths -> discard paths w = (l, w') ->
  stayed l ⊆ paths /\
  forall p, tree w' !! p = if decide (p ∈ paths /\ p ∉ stayed l) then None else tree w !! p.
Proof.
  revert w l w'. induction paths as [|path paths IH]; intros w l w' Hn.
  { intros [= <- <-]. split; [done|]. intros p. rewrite decide_False; [done|]. intros [H _]. by apply elem_of_nil in H. }
  apply NoDup_cons in Hn as [Hp Hn]. cbn [discard]. destruct (remove_step path w) as [r w1] eqn:Er.
  destruct (discard paths w1) as [l1 w2] eqn:Ed. apply remove_law in Er. apply IH in Ed as [Hsub Hl]; [|done].
  destruct r as [[]|e]; intros [= <- <-]; cbn [is_ok] in Er.
  - split; [set_solver|]. intros p. rewrite Hl, Er. destruct (decide (p = path)) as [->|Hne].
    + rewrite decide_False by (by intros [? _]). rewrite lookup_delete_eq, decide_True; [done|]. set_solver.
    + rewrite lookup_delete_ne by done. apply decide_ext. set_solver.
  - cbn [stayed map]. split; [set_solver|]. intros p. rewrite Hl, Er. cbn [leftover_path]. apply decide_ext.
    destruct (decide (p = path)) as [->|]; set_solver.
Qed.

(** ** Staging *)

(** A path that the write made: it was not there, and its name is a sibling's. *)
Definition fresh w p : Prop := tree w !! p = None /\ temporary p.

(** Two trees agree but on some paths that the write made. *)
Definition same_but w (paths : list str) w' : Prop :=
  Forall (fresh w) paths /\ forall p, p ∉ paths -> tree w' !! p = tree w !! p.

(** The target and the new entry of a file of the patch. *)
Definition file_entry (fuel : nat) (base : str) w (file : str * bytes) (new : str * Entry) : Prop :=
  contained_path fuel w base file.1 = Some (Ok new.1) /\
  exists mode, new.2 = Regular mode file.2 /\ keeps_mode w new.1 mode.

(** No file of the patch has the name of a sibling that the write could make. *)
Definition plain_targets (fuel : nat) (base : str) w (files : list (str * bytes)) : Prop :=
  forall file target, file ∈ files -> contained_path fuel w base file.1 = Some (Ok target) -> ~ temporary target.

(** [w] is [w0] with the staged files of [files]. *)
Record staged_ok (fuel : nat) (base : str) w0 (files : list (str * bytes)) (staged : list Staged) w : Prop := {
  staged_paths : same_paths w0 w;
  staged_NoDup : NoDup (map staging staged);
  staged_same : same_but w0 (map staging staged) w;
  staged_entries : Forall2 (fun file one => exists entry, tree w !! staging one = Some entry /\
                     file_entry fuel base w0 file (target one, entry)) files staged
}.

Lemma same_but_fresh w ps w' p : same_but w ps w' -> tree w' !! p = None -> tree w !! p = None.
Proof.
  intros [Hf Hs] Hp. destruct (decide (p ∈ ps)) as [Hin|]; [|by rewrite <-Hs].
  rewrite Forall_forall in Hf. by apply Hf.
Qed.

Lemma same_but_insert w ps w' w'' p entry :
  same_but w ps w' -> fresh w' p -> tree w'' = <[p := entry]> (tree w') -> same_but w (ps ++ [p]) w''.
Proof.
  intros Hs [Hn Ht] Hw. pose proof (same_but_fresh _ _ _ _ Hs Hn). destruct Hs as [Hf Hs]. split.
  - apply Forall_app. split; [done|]. by apply Forall_singleton.
  - intros q [Hq Hqp]%not_elem_of_app. rewrite Hw, lookup_insert_ne by set_solver. by apply Hs.
Qed.

Lemma fresh_not_in w ps w' p : same_but w ps w' -> Forall (fun q => is_Some (tree w' !! q)) ps -> fresh w' p -> p ∉ ps.
Proof. intros _ Hall [Hn _] Hin. rewrite Forall_forall in Hall. destruct (Hall p Hin). congruence. Qed.

Lemma staged_present fuel base w0 files staged w :
  staged_ok fuel base w0 files staged w -> Forall (fun q => is_Some (tree w !! q)) (map staging staged).
Proof.
  intros H. apply Forall_fmap. pose proof (staged_entries _ _ _ _ _ _ H) as H2.
  clear H. induction H2 as [|file one files' staged' (entry & He & _) _ IH]; constructor; [by exists entry|done].
Qed.

(** Discarding some of the paths the write made leaves the others, and those that stay. *)
Lemma same_but_discard w ps w' paths extra l w'' :
  same_but w ps w' -> paths ⊆ ps -> ps ⊆ paths ++ extra -> Forall (fresh w) extra -> NoDup paths ->
  discard paths w' = (l, w'') -> same_but w (stayed l ++ extra) w''.
Proof.
  intros [Hf Hs] Hsub Hsup Hx Hn Hd. destruct (discard_spec _ _ _ _ Hn Hd) as [Hl Hlook].
  rewrite Forall_forall in Hf. split.
  - apply Forall_app. split; [|done]. rewrite Forall_forall. intros p Hp. apply Hf, Hsub, Hl, Hp.
  - intros p [Hp1 Hp2]%not_elem_of_app. rewrite Hlook. destruct (decide _) as [[Hin _]|Hnot].
    + symmetry. apply Hf, Hsub, Hin.
    + apply Hs. intros Hin%Hsup. apply elem_of_app in Hin as [Hin|]; [|done]. by apply Hnot.
Qed.

Lemma staged_entry_mono fuel base w0 files staged w w' ps :
  Forall2 (fun file one => exists entry, tree w !! staging one = Some entry /\
     file_entry fuel base w0 file (target one, entry)) files staged ->
  (forall p, p ∈ map staging staged -> tree w' !! p = tree w !! p) ->
  ps = map staging staged ->
  Forall2 (fun file one => exists entry, tree w' !! staging one = Some entry /\
     file_entry fuel base w0 file (target one, entry)) files staged.
Proof.
  intros H Hsame _. induction H as [|file one files' staged' (entry & He & Hf) _ IH]; constructor.
  - exists entry. split; [|done]. rewrite Hsame; [done|]. left.
  - apply IH. intros p Hp. apply Hsame. by right.
Qed.

Definition stage_failed w0 (f : WriteFailure) w : Prop :=
  match error f with
  | Refused _ => same_but w0 (stayed (leftovers f)) w
  | Stage _ _ => exists junk, (length junk <= 1)%nat /\ same_but w0 (stayed (leftovers f) ++ junk) w
  | _ => False
  end.

Lemma stage_all_spec fuel base w0 all done files staged w r w' :
  plain_targets fuel base w0 all -> files ⊆ all ->
  staged_ok fuel base w0 done staged w -> stage_all fuel base files staged w = Some (r, w') ->
  match r with
  | Ok staged' => staged_ok fuel base w0 (done ++ files) staged' w'
  | Err f => stage_failed w0 f w'
  end.
Proof.
  intros Hplain. revert done staged w. induction files as [|[path data] files IH]; intros done staged w Hsub Hok.
  { intros [= <- <-]. by rewrite app_nil_r. }
  cbn [stage_all]. pose proof Hok as [Hp Hn Hs He]. rewrite (same_paths_contained _ _ _ _ _ Hp).
  destruct (contained_path fuel w0 base path) as [[tgt|refusal]|] eqn:Ec; [| |done]; cbn [mbind option_bind].
  2:{ destruct (discard_staged staged w) as [l w1] eqn:Ed. intros [= <- <-]. unfold stage_failed. cbn [error failure leftovers].
      rewrite <-(app_nil_r (stayed l)). eapply same_but_discard; [exact Hs|done|by rewrite app_nil_r|constructor|done|exact Ed]. }
  unfold stage_one. destruct (stage_law tgt data w) as (st & w1 & -> & Hp1 & Hst). cbn [mbind option_bind].
  destruct st as [stg|e].
  - destruct Hst as (Hnone & Hsib & mode & Hm & Ht).
    replace (done ++ (path, data) :: files) with ((done ++ [(path, data)]) ++ files) by (by rewrite <-app_assoc).
    apply IH; [set_solver|].
    assert (fresh w stg) as Hfresh by (split; [done|]; exists tgt; by left).
    assert (stg ∉ map staging staged) as Hnin by (eapply fresh_not_in; [exact Hs|by eapply staged_present|done]).
    split.
    + by eapply same_paths_trans.
    + rewrite map_app. cbn. apply NoDup_app. split; [done|]. split; [set_solver|]. apply NoDup_singleton.
    + rewrite map_app. by eapply same_but_insert.
    + apply Forall2_app.
      * eapply staged_entry_mono; [exact He| |done]. intros p Hin. rewrite Ht, lookup_insert_ne by set_solver. done.
      * constructor; [|constructor]. exists (Regular mode data). cbn [target staging]. split.
        -- by rewrite Ht, lookup_insert_eq.
        -- split; [exact Ec|]. exists mode. split; [done|]. intros mode' data' Ht'. apply (Hm mode' data').
           destruct Hs as [Hf Hs]. rewrite Hs; [done|]. intros Hin. rewrite Forall_forall in Hf.
           eapply (Hplain (path, data) tgt); [apply Hsub; left|exact Ec|by apply Hf].
  - destruct (discard_staged staged w1) as [l w2] eqn:Ed. intros [= <- <-]. unfold stage_failed. cbn [error failure leftovers].
    destruct Hst as [Ht|(stg & entry & Hnone & Hsib & Ht)].
    + exists []. split; [cbn; lia|]. eapply (same_but_discard w0 (map staging staged) w1); [|done|by rewrite app_nil_r|constructor|done|exact Ed].
      destruct Hs as [Hf Hs]. split; [done|]. intros p Hin. rewrite Ht. by apply Hs.
    + assert (fresh w stg) as Hfresh by (split; [done|]; exists tgt; by left).
      exists [stg]. split; [cbn; lia|].
      eapply (same_but_discard w0 (map staging staged ++ [stg]) w1 (map staging staged) [stg]); [by eapply same_but_insert|set_solver|set_solver| |done|exact Ed].
      apply Forall_singleton. split; [|apply Hfresh]. eapply same_but_fresh; [exact Hs|apply Hfresh].
Qed.

(** ** Backups *)

Lemma same_but_elem w ps ps' w' : (forall p, p ∈ ps <-> p ∈ ps') -> same_but w ps w' -> same_but w ps' w'.
Proof.
  intros H [Hf Hs]. split.
  - rewrite Forall_forall in *. intros p Hp. by apply Hf, H.
  - intros p Hp. apply Hs. by rewrite H.
Qed.

(** Every file is staged and some have a backup name. *)
Record ready (fuel : nat) (base : str) w0 (files : list (str * bytes)) (staged : list Staged) (backups : list str) w : Prop := {
  ready_NoDup : NoDup (map staging staged ++ backups);
  ready_same : same_but w0 (map staging staged ++ backups) w;
  ready_entries : Forall2 (fun file one => exists entry, tree w !! staging one = Some entry /\
                    file_entry fuel base w0 file (target one, entry)) files staged;
  ready_backups : Forall (fun b => is_Some (tree w !! b)) backups
}.

Lemma ready_present fuel base w0 files staged backups w :
  ready fuel base w0 files staged backups w -> Forall (fun q => is_Some (tree w !! q)) (map staging staged ++ backups).
Proof.
  intros [_ _ H2 Hb]. apply Forall_app. split; [|done]. apply Forall_fmap. clear Hb.
  induction H2 as [|file one files' staged' (entry & He & _) _ IH]; constructor; [by exists entry|done].
Qed.

Lemma reserve_all_spec fuel base w0 files all rest backups w r w' :
  ready fuel base w0 files all backups w -> reserve_all all rest backups w = (r, w') ->
  match r with
  | Ok backups' => ready fuel base w0 files all backups' w' /\ length backups' = (length backups + length rest)%nat
  | Err f => (exists reason, error f = Reserve reason) /\ same_but w0 (stayed (leftovers f)) w'
  end.
Proof.
  revert backups w. induction rest as [|one rest IH]; intros backups w Hok.
  { intros [= <- <-]. split; [done|]. cbn. lia. }
  cbn [reserve_all]. destruct (reserve (target one) w) as [[b|e] w1] eqn:Er; apply reserve_law in Er.
  - destruct Er as (Hnone & Hsib & entry & Ht). intros Hrest.
    assert (fresh w b) as Hfresh by (split; [done|]; exists (target one); by right).
    assert (b ∉ map staging all ++ backups) as Hnin by (eapply fresh_not_in; [apply Hok|by eapply ready_present|done]).
    apply IH in Hrest.
    + destruct r as [backups'|]; [|done]. destruct Hrest as [? Hlen]. split; [done|].
      rewrite length_app in Hlen. cbn in *. lia.
    + destruct Hok as [Hn Hs He Hb]. split.
      * rewrite app_assoc. apply NoDup_app. split; [done|]. split; [set_solver|]. apply NoDup_singleton.
      * rewrite app_assoc. by eapply same_but_insert.
      * eapply staged_entry_mono; [exact He| |done]. intros p Hin. rewrite Ht, lookup_insert_ne by set_solver. done.
      * apply Forall_app. split; [|apply Forall_singleton; rewrite Ht, lookup_insert_eq; by eexists].
        eapply Forall_impl; [exact Hb|]. intros q [e' Hq]. rewrite Ht. rewrite lookup_insert_ne by congruence. by exists e'.
  - destruct (discard_staged all w1) as [l1 w2] eqn:E1. destruct (discard backups w2) as [l2 w3] eqn:E2.
    intros [= <- <-]. cbn [error leftovers failure]. split; [by eexists|].
    destruct Hok as [Hn Hs He Hb]. pose proof Hn as (Hn1 & Hd & Hn2)%NoDup_app.
    assert (same_but w0 (map staging all ++ backups) w1) as Hs1 by (destruct Hs; split; [done|]; intros; rewrite Er; auto).
    pose proof Hs as [Hf _]. apply Forall_app in Hf as [_ Hfb].
    apply (same_but_discard w0 (map staging all ++ backups) w1 (map staging all) backups l1 w2) in E1; [|done|set_solver|done|done|done].
    apply (same_but_discard w0 (stayed l1 ++ backups) w2 backups (stayed l1) l2 w3) in E2; [|done|set_solver|set_solver| |done].
    + eapply same_but_elem; [|exact E2]. intros p. unfold stayed. rewrite map_app. set_solver.
    + destruct E1 as [Hf1 _]. by apply Forall_app in Hf1 as [? _].
Qed.

(** ** Moving back *)

(** What a path holds once each completed pair of a backup and its target is moved back, last
    first: for several pairs of one target, the backup of the first. *)
Fixpoint original (completed : list (str * str)) (t : gmap str Entry) p : option Entry :=
  match completed with
  | [] => t !! p
  | (backup, target) :: rest => if decide (p = target) then t !! backup else original rest t p
  end.

Lemma original_ext c t t' p :
  (forall b, b ∈ c.*1 -> t' !! b = t !! b) -> (p ∉ c.*2 -> t' !! p = t !! p) -> original c t' p = original c t p.
Proof.
  induction c as [|[b tg] c IH]; intros Hb Hp; cbn [original]; [apply Hp; set_solver|].
  destruct (decide (p = tg)); [apply Hb; set_solver|]. apply IH; intros; [apply Hb|apply Hp]; set_solver.
Qed.

Lemma original_none c t p : p ∉ c.*2 -> original c t p = t !! p.
Proof.
  induction c as [|[b tg] c IH]; intros Hp; cbn [original]; [done|]. rewrite decide_False by set_solver. apply IH. set_solver.
Qed.

Lemma original_snoc c b tg t p :
  original (c ++ [(b, tg)]) t p =
  if decide (p ∈ c.*2) then original c t p else if decide (p = tg) then t !! b else t !! p.
Proof.
  induction c as [|[b' tg'] c IH]; cbn [app original]; [done|].
  destruct (decide (p = tg')) as [->|Hne]; [by rewrite decide_True by set_solver|].
  rewrite IH. destruct (decide (p ∈ c.*2)); [by rewrite decide_True by set_solver|]. by rewrite (decide_False (P := p ∈ _)) by set_solver.
Qed.

Lemma roll_back_snoc c b tg w :
  roll_back (c ++ [(b, tg)]) w =
  let '(moved, w) := rename_step b tg w in
  let '(retained, w) := roll_back c w in
  (if is_ok moved then retained else b :: retained, w).
Proof. unfold roll_back. by rewrite reverse_snoc. Qed.

(** After the moves back each target holds its original, or a retained backup does. *)
Record rolled_back (c : list (str * str)) w (retained : list str) w' : Prop := {
  rolled_retained : retained ⊆ c.*1;
  rolled_kept b : b ∈ retained -> tree w' !! b = tree w !! b;
  rolled_gone b : b ∈ c.*1 -> b ∉ retained -> tree w' !! b = None;
  rolled_other p : p ∉ c.*1 -> p ∉ c.*2 -> tree w' !! p = tree w !! p;
  rolled_original p : p ∈ c.*2 -> tree w' !! p = original c (tree w) p \/
    exists b, b ∈ retained /\ tree w !! b = original c (tree w) p
}.

Lemma roll_back_spec c w retained w' :
  NoDup c.*1 -> (forall p, p ∈ c.*1 -> p ∉ c.*2) -> Forall (fun b => is_Some (tree w !! b)) c.*1 ->
  roll_back c w = (retained, w') -> rolled_back c w retained w'.
Proof.
  revert w retained w'. induction c as [|[b tg] c IH] using rev_ind; intros w retained w' Hn Hd Hb.
  { intros [= <- <-]. split; try done; set_solver. }
  rewrite roll_back_snoc. rewrite fmap_app in Hn, Hb. apply NoDup_app in Hn as (Hn & Hnb & _).
  apply Forall_app in Hb as [Hb Hbb]. apply Forall_cons in Hbb as [Hbb _]. cbn in Hbb, Hnb.
  assert (b ∉ c.*1) as Hbc by set_solver. assert (tg ∉ c.*1) as Htc by (intros H; apply (Hd tg); rewrite fmap_app; set_solver).
  assert (b ≠ tg) as Hbt by (intros ->; apply (Hd tg); rewrite fmap_app; set_solver).
  assert (b ∉ c.*2) as Hb2 by (intros H; apply (Hd b); rewrite fmap_app; set_solver).
  assert (forall p, p ∈ c.*1 -> p ∉ c.*2) as Hdc by (intros p Hp1 Hp2; apply (Hd p); rewrite fmap_app; set_solver).
  clear Hd Hnb. destruct (rename_step b tg w) as [moved w1] eqn:Er. destruct (roll_back c w1) as [ret w2] eqn:Ec.
  intros [= <- <-]. apply rename_law in Er.
  assert (forall q, q <> b -> q <> tg -> tree w1 !! q = tree w !! q) as Hq.
  { intros q Hqb Hqt. destruct moved; [|by rewrite Er]. destruct (Er (or_introl Hbb)) as (e & _ & ->).
    by rewrite lookup_insert_ne, lookup_delete_ne. }
  apply IH in Ec as [H1 H2 H3 H4 H5]; [|done|done|].
  2:{ rewrite Forall_forall in *. intros q Hqc. rewrite Hq; [by apply Hb|set_solver..]. }
  assert (forall b', b' ∈ c.*1 -> tree w1 !! b' = tree w !! b') as Hq1 by (intros; apply Hq; set_solver).
  assert (forall p, p ∈ c.*2 -> original c (tree w1) p = original c (tree w) p) as Ho by (intros; by apply original_ext).
  assert (tree w2 !! b = if is_ok moved then None else tree w !! b) as Hb'.
  { rewrite H4 by done. destruct moved; [|by rewrite Er]. destruct (Er (or_introl Hbb)) as (e & _ & ->).
    by rewrite lookup_insert_ne, lookup_delete_eq. }
  split.
  - rewrite fmap_app. destruct moved; set_solver.
  - intros b' Hb1. assert (b' ∈ ret \/ (b' = b /\ is_ok moved = false)) as [Hr|[-> Hm]] by (destruct moved; set_solver).
    + rewrite H2 by done. apply Hq1. set_solver.
    + by rewrite Hb', Hm.
  - rewrite fmap_app. intros b' Hb1 Hb2'. destruct (decide (b' = b)) as [->|].
    + rewrite Hb'. destruct moved; set_solver.
    + apply H3; destruct moved; set_solver.
  - rewrite !fmap_app. intros p Hp1 Hp2. rewrite H4 by set_solver. apply Hq; set_solver.
  - intros p Hp. rewrite original_snoc. destruct (decide (p ∈ c.*2)) as [Hp2|Hp2].
    + rewrite <-Ho by done. destruct (H5 p Hp2) as [?|(b' & Hb1 & Hb3)]; [by left|right]. exists b'.
      split; [destruct moved; set_solver|]. rewrite <-Hq1; [done|set_solver].
    + assert (p = tg) as -> by (rewrite fmap_app in Hp; set_solver). rewrite decide_True by done.
      destruct moved; [left|right; exists b; split; [set_solver|done]].
      rewrite H4 by done. destruct (Er (or_introl Hbb)) as (e & -> & ->). by rewrite lookup_insert_eq.
Qed.

(** ** Undoing *)

(** Membership in appended lists, by propositional reasoning. *)
Ltac members := rewrite ?elem_of_app in *; tauto.

(** What a failed replacement leaves: the originals back in place, or each in place or in a
    backup that is named. *)
Definition undone w0 (f : WriteFailure) w : Prop :=
  match error f with
  | Restored _ _ => same_but w0 (stayed (leftovers f)) w
  | PartlyApplied _ _ retained =>
      retained <> [] /\ Forall (fresh w0) (stayed (leftovers f) ++ retained) /\
      (forall p, p ∉ stayed (leftovers f) ++ retained -> tree w0 !! p = None -> tree w !! p = None) /\
      (forall p entry, tree w0 !! p = Some entry ->
         tree w !! p = Some entry \/ exists b, b ∈ retained /\ tree w !! b = Some entry)
  | _ => False
  end.

(** The world when a move failed: [sd] were replaced, [sr] were not. *)
Record failing w0 (sd sr : list Staged) (backups : list str) (c : list (str * str)) w : Prop := {
  failing_NoDup : NoDup (map staging sd ++ map staging sr ++ backups);
  failing_fresh : Forall (fresh w0) (map staging sd ++ map staging sr ++ backups);
  failing_completed : c.*1 ⊆ backups;
  failing_completed_NoDup : NoDup c.*1;
  failing_present : Forall (fun b => is_Some (tree w !! b)) c.*1;
  failing_targets p : p ∈ c.*2 -> is_Some (tree w0 !! p);
  failing_moved : Forall (fun one => tree w !! staging one = None) sd;
  failing_original p : p ∉ map staging sd ++ map staging sr ++ backups -> original c (tree w) p = tree w0 !! p
}.

Lemma failing_target_plain w0 sd sr backups c w p :
  failing w0 sd sr backups c w -> p ∈ c.*2 -> p ∉ map staging sd ++ map staging sr ++ backups.
Proof.
  intros H Hp Hin. destruct (failing_targets _ _ _ _ _ _ H p Hp) as [e He].
  pose proof (failing_fresh _ _ _ _ _ _ H) as Hf. rewrite Forall_forall in Hf. destruct (Hf p Hin). congruence.
Qed.

Lemma undo_spec w0 sd sr backups c e w f w' :
  failing w0 sd sr backups c w -> undo (sd ++ sr) backups c (length sd) e w = (f, w') -> undone w0 f w'.
Proof.
  intros H. unfold undo. rewrite drop_app_length. destruct (roll_back c w) as [ret w1] eqn:E1.
  destruct (discard_staged sr w1) as [l1 w2] eqn:E2. set (unused := List.filter _ backups).
  destruct (discard unused w2) as [l2 w3] eqn:E3. intros [= <- <-].
  pose proof (fun p => failing_target_plain _ _ _ _ _ _ p H) as Hplain. destruct H as [Hn Hf Hc Hcn Hp Ht Hm Ho].
  apply NoDup_app in Hn as (Hn1 & Hd1 & Hn2). apply NoDup_app in Hn2 as (Hn2 & Hd2 & Hn3).
  assert (forall p, p ∈ unused <-> p ∈ backups /\ p ∉ c.*1) as Hunused.
  { intros p. unfold unused. rewrite !list_elem_of_In, filter_In, <-!list_elem_of_In, negb_true_iff, bool_decide_eq_false. done. }
  apply roll_back_spec in E1; [|done| |done].
  2:{ intros p Hp1%Hc Hp2. apply (Hplain p Hp2). members. }
  destruct E1 as [R1 R2 R3 R4 R5]. apply discard_spec in E2 as [D1 D2]; [|done].
  apply discard_spec in E3 as [U1 U2]; [|unfold unused; by apply NoDup_ListNoDup, List.NoDup_filter, NoDup_ListNoDup].
  assert (forall p, p ∉ stayed (l1 ++ l2) ++ ret -> p ∈ map staging sd ++ map staging sr ++ backups -> tree w3 !! p = None) as Hgone.
  { unfold stayed. rewrite map_app. fold (stayed l1) (stayed l2). intros p Hp1 Hp2. rewrite U2.
    destruct (decide _) as [|Hu]; [done|]. rewrite D2. destruct (decide _) as [|Hs]; [done|]. rewrite Hunused in Hu.
    destruct (decide (p ∈ c.*1)); [apply R3; [done|]; members|].
    assert (p ∈ map staging sd) as Hsd by members. rewrite R4; [|done|].
    - apply list_elem_of_fmap in Hsd as (one & -> & Hone). rewrite Forall_forall in Hm. by apply Hm.
    - intros Hin. apply (Hplain p Hin). members. }
  assert (forall p, p ∉ map staging sr -> p ∉ unused -> tree w3 !! p = tree w1 !! p) as Hkeep.
  { intros p Hp1 Hp2. rewrite U2, decide_False by tauto. rewrite D2, decide_False by tauto. done. }
  assert (forall p, p ∉ map staging sd ++ map staging sr ++ backups -> tree w3 !! p = tree w1 !! p) as Hsame.
  { intros p Hp1. apply Hkeep; [|rewrite Hunused]; members. }
  assert (forall b, b ∈ ret -> tree w3 !! b = tree w !! b) as Hret.
  { intros b Hb. rewrite <-R2 by done. apply R1 in Hb. apply Hkeep; [|rewrite Hunused; tauto].
    intros Hin. apply (Hd2 b Hin). by apply Hc. }
  assert (forall p, p ∉ map staging sd ++ map staging sr ++ backups -> p ∉ c.*2 -> tree w3 !! p = tree w0 !! p) as Hother.
  { intros p Hp1 Hp2. rewrite Hsame by done. rewrite R4; [|intros Hin%Hc; members|done].
    rewrite <-(Ho p Hp1). by rewrite original_none. }
  assert (Forall (fresh w0) (stayed (l1 ++ l2) ++ ret)) as Hfresh.
  { unfold stayed. rewrite map_app. rewrite !Forall_app in *. rewrite !Forall_forall in *.
    destruct Hf as (_ & Hf1 & Hf2). split; [split|]; intros p Hp1.
    - apply Hf1, D1, Hp1.
    - apply Hf2. by apply Hunused, U1.
    - apply Hf2, Hc, R1, Hp1. }
  unfold undone. destruct ret as [|b0 ret]; cbn [is_nonempty negb error leftovers failure].
  - rewrite app_nil_r in *. split; [done|]. intros p Hp1.
    destruct (decide (p ∈ map staging sd ++ map staging sr ++ backups)) as [Hin|Hnin].
    + rewrite Hgone by done. rewrite Forall_forall in Hf. symmetry. by apply Hf.
    + destruct (decide (p ∈ c.*2)) as [Hp2|]; [|by apply Hother]. rewrite Hsame by done.
      destruct (R5 p Hp2) as [->|(b & Hb & _)]; [by apply Ho|by apply elem_of_nil in Hb].
  - split; [done|]. split; [done|]. split.
    + intros p Hp1 Hnone. destruct (decide (p ∈ map staging sd ++ map staging sr ++ backups)); [by apply Hgone|].
      rewrite Hother; [done..|]. intros Hp2. destruct (Ht p Hp2). congruence.
    + intros p entry He.
      assert (p ∉ map staging sd ++ map staging sr ++ backups) as Hnin.
      { intros Hin. rewrite Forall_forall in Hf. destruct (Hf p Hin). congruence. }
      destruct (decide (p ∈ c.*2)) as [Hp2|]; [|left; by rewrite Hother].
      rewrite Hsame by done. rewrite <-(Ho p Hnin) in He. destruct (R5 p Hp2) as [->|(b & Hb & Heq)]; [by left|].
      right. exists b. split; [done|]. rewrite Hret by done. by rewrite Heq.
Qed.

(** ** Replacing *)

Definition write_entries (new : list (str * Entry)) (t : gmap str Entry) : gmap str Entry :=
  foldl (fun t e => <[e.1 := e.2]> t) t new.

(** The world when the targets of [sd] are replaced by [new], and those of [sr] are not. *)
Record replacing w0 (sd sr : list Staged) (new rest : list (str * Entry)) (bd br : list str) w : Prop := {
  replacing_NoDup : NoDup (map staging sd ++ map staging sr ++ (bd ++ br));
  replacing_fresh : Forall (fresh w0) (map staging sd ++ map staging sr ++ (bd ++ br));
  replacing_new : new.*1 = map target sd;
  replacing_rest : rest.*1 = map target sr;
  replacing_lengths : length bd = length sd;
  replacing_present : Forall (fun b => is_Some (tree w !! b)) (bd ++ br);
  replacing_moved : Forall (fun one => tree w !! staging one = None) sd;
  replacing_staged : Forall2 (fun one e => tree w !! staging one = Some e.2) sr rest;
  replacing_plain : Forall (fun one => target one ∉ map staging sd ++ map staging sr ++ (bd ++ br)) (sd ++ sr);
  replacing_had : Forall (fun one => is_Some (tree w0 !! target one)) sd;
  replacing_tree p : p ∉ map staging sd ++ map staging sr ++ (bd ++ br) ->
    tree w !! p = write_entries new (tree w0) !! p;
  replacing_original p : p ∉ map staging sd ++ map staging sr ++ (bd ++ br) ->
    original (zip bd (map target sd)) (tree w) p = tree w0 !! p
}.

Lemma zip_fst {A B} (l : list A) (k : list B) : length l = length k -> (zip l k).*1 = l.
Proof. intros. apply fst_zip. lia. Qed.
Lemma zip_snd {A B} (l : list A) (k : list B) : length l = length k -> (zip l k).*2 = k.
Proof. intros. apply snd_zip. lia. Qed.

(** Where nothing is written, an entry stays. *)
Lemma write_entries_other new t p : p ∉ new.*1 -> write_entries new t !! p = t !! p.
Proof.
  unfold write_entries. revert t. induction new as [|[q e] new IH]; intros t Hp; [done|]. cbn [foldl].
  rewrite fmap_cons in Hp. apply not_elem_of_cons in Hp as [Hpq Hp]. rewrite IH by done. by rewrite lookup_insert_ne.
Qed.

Lemma write_entries_some new t p : p ∈ new.*1 -> is_Some (write_entries new t !! p).
Proof.
  unfold write_entries. induction new as [|[q e] new IH] using rev_ind; intros Hp; [by apply elem_of_nil in Hp|].
  rewrite foldl_app. cbn [foldl fst snd]. rewrite fmap_app in Hp. destruct (decide (p = q)) as [->|].
  - rewrite lookup_insert_eq. by eexists.
  - rewrite lookup_insert_ne by done. apply IH. apply elem_of_app in Hp as [?|Hp]; [done|].
    apply list_elem_of_singleton in Hp. by destruct (Hp : p = q).
Qed.

Section OneMove.
Context (w0 : W) (sd sr : list Staged) (one : Staged) (new rest : list (str * Entry)) (e : str * Entry)
  (bd br : list str) (b : str) (w : W) (H : replacing w0 sd (one :: sr) new (e :: rest) bd (b :: br) w).

Let temps := map staging sd ++ map staging (one :: sr) ++ (bd ++ b :: br).
Let c := zip bd (map target sd).

Lemma move_facts :
  staging one ∈ temps /\ b ∈ temps /\ target one ∉ temps /\ b ∉ bd /\ b ∉ map target sd /\
  b ∉ map staging sd /\ staging one ∉ map staging sd /\ staging one <> b /\ staging one ∉ bd /\ target one = e.1 /\
  c.*1 = bd /\ c.*2 = map target sd.
Proof.
  destruct H as [Hn Hf Hnew Hrest Hlen Hpres Hmoved Hst Hplain Hhad Ht Ho].
  assert (target one ∉ temps) as Htgt.
  { rewrite Forall_forall in Hplain. apply Hplain. apply elem_of_app. right. left. }
  assert (b ∉ map target sd) as Hbt.
  { intros (x & Hb & Hx)%list_elem_of_fmap. rewrite Forall_forall in Hplain. apply (Hplain x).
    - apply elem_of_app. by left.
    - rewrite <-Hb. rewrite !elem_of_app, elem_of_cons. auto. }
  apply NoDup_app in Hn as (Hn1 & Hd1 & Hn2). cbn [map] in Hn2, Hd1.
  change ((staging one :: map staging sr) ++ bd ++ b :: br) with (staging one :: (map staging sr ++ bd ++ b :: br)) in *.
  apply NoDup_cons in Hn2 as [Hs Hn2]. apply NoDup_app in Hn2 as (_ & Hd2 & Hn3). apply NoDup_app in Hn3 as (_ & Hd3 & _).
  unfold temps. rewrite !elem_of_app in Hs. rewrite elem_of_cons in Hs.
  split; [rewrite !elem_of_app; cbn; rewrite elem_of_cons; auto|].
  split; [rewrite !elem_of_app, elem_of_cons; auto|]. split; [done|].
  split; [intros Hin; apply (Hd3 b Hin); left|]. split; [done|].
  split; [intros Hin; apply (Hd1 b Hin); rewrite elem_of_cons, !elem_of_app, elem_of_cons; auto|].
  split; [intros Hin; apply (Hd1 _ Hin); left|]. split; [tauto|]. split; [tauto|].
  split; [by injection Hrest|]. split; [apply zip_fst|apply zip_snd]; by rewrite length_map.
Qed.

Lemma temps_next : map staging (sd ++ [one]) ++ map staging sr ++ ((bd ++ [b]) ++ br) = temps.
Proof. unfold temps. rewrite map_app. cbn [map]. by rewrite <-!app_assoc. Qed.

(** Nothing moved at this position. *)
Lemma failing_first w1 : tree w1 = tree w -> failing w0 sd (one :: sr) (bd ++ b :: br) c w1.
Proof.
  intros Et. destruct move_facts as (_ & _ & _ & _ & _ & _ & _ & _ & _ & _ & Ec1 & Ec2).
  destruct H as [Hn Hf Hnew Hrest Hlen Hpres Hmoved Hst Hplain Hhad Ht Ho].
  apply Forall_app in Hpres as [Hpres _].
  split; rewrite ?Et, ?Ec1, ?Ec2; try done.
  - intros p Hp. apply elem_of_app. by left.
  - apply NoDup_app in Hn as (_ & _ & Hn). apply NoDup_app in Hn as (_ & _ & Hn). by apply NoDup_app in Hn as (Hn & _).
  - intros p (x & -> & Hx)%list_elem_of_fmap. rewrite Forall_forall in Hhad. by apply Hhad.
Qed.

(** The world between the two moves of a position. *)
Context (w1 : W) (e0 : Entry) (He0 : tree w !! target one = Some e0)
  (Hw1 : tree w1 = <[b := e0]> (delete (target one) (tree w))).

Lemma between_other p : p <> b -> p <> target one -> tree w1 !! p = tree w !! p.
Proof. intros. by rewrite Hw1, lookup_insert_ne, lookup_delete_ne. Qed.

Lemma between_original p : p ∉ temps -> original (c ++ [(b, target one)]) (tree w1) p = tree w0 !! p.
Proof.
  intros Hp. destruct move_facts as (Hs & Hb & Htgt & Hbbd & Hbt & _ & _ & _ & _ & _ & Ec1 & Ec2).
  rewrite <-(replacing_original _ _ _ _ _ _ _ _ H p Hp), original_snoc, Ec2. fold c.
  assert (forall q, q ∈ bd -> q ∈ temps) as Hbd by (intros q Hq; unfold temps; rewrite !elem_of_app; auto).
  destruct (decide (p ∈ map target sd)) as [Hin|Hnin].
  - apply original_ext; [rewrite Ec1|by rewrite Ec2]. intros q Hq. apply between_other; [congruence|].
    intros ->. by apply Htgt, Hbd.
  - rewrite original_none by (by rewrite Ec2). destruct (decide (p = target one)) as [->|].
    + by rewrite Hw1, lookup_insert_eq.
    + apply between_other; [|done]. intros ->. by apply Hp.
Qed.

Lemma target_had : is_Some (tree w0 !! target one).
Proof.
  destruct move_facts as (_ & _ & Htgt & _). pose proof (replacing_tree _ _ _ _ _ _ _ _ H _ Htgt) as Ht.
  destruct (decide (target one ∈ map target sd)) as [(x & -> & Hx)%list_elem_of_fmap|Hnin].
  - pose proof (replacing_had _ _ _ _ _ _ _ _ H) as Hhad. rewrite Forall_forall in Hhad. by apply Hhad.
  - rewrite write_entries_other in Ht by (by rewrite (replacing_new _ _ _ _ _ _ _ _ H)). exists e0. congruence.
Qed.

(** The target moved to its backup, and the staged file did not move. *)
Lemma failing_second w2 : tree w2 = tree w1 -> failing w0 sd (one :: sr) (bd ++ b :: br) (c ++ [(b, target one)]) w2.
Proof.
  intros Et. destruct move_facts as (Hs & Hb & Htgt & Hbbd & Hbt & Hbs & Hss & _ & _ & _ & Ec1 & Ec2).
  pose proof target_had as Hhad1. pose proof between_original as Hbo.
  destruct H as [Hn Hf Hnew Hrest Hlen Hpres Hmoved Hst Hplain Hhad Ht Ho].
  split; rewrite ?Et, ?fmap_app, ?Ec1, ?Ec2; try done; cbn [fmap list_fmap fst snd].
  - intros p Hp. apply elem_of_app in Hp as [Hp|Hp%list_elem_of_singleton]; rewrite elem_of_app; [by left|right; rewrite Hp; left].
  - apply NoDup_app in Hn as (_ & _ & Hn). apply NoDup_app in Hn as (_ & _ & Hn). apply NoDup_app in Hn as (Hn & _).
    apply NoDup_app. split; [done|]. split; [|apply NoDup_singleton]. intros p Hp Hq%list_elem_of_singleton. by rewrite Hq in Hp.
  - apply Forall_app in Hpres as [Hpres _]. apply Forall_app. split.
    + rewrite Forall_forall in *. intros q Hq. rewrite between_other; [by apply Hpres|congruence|].
      intros ->. apply Htgt. unfold temps. rewrite !elem_of_app. auto.
    + apply Forall_singleton. rewrite Hw1, lookup_insert_eq. by eexists.
  - intros p [(x & -> & Hx)%list_elem_of_fmap|Hq%list_elem_of_singleton]%elem_of_app; [|by rewrite Hq].
    rewrite Forall_forall in Hhad. by apply Hhad.
  - rewrite Forall_forall in *. intros x Hx. rewrite between_other; [by apply Hmoved| |].
    + intros <-. apply Hbs. by apply list_elem_of_fmap_2.
    + intros E'. apply Htgt. rewrite <-E'. unfold temps. rewrite elem_of_app. left. by apply list_elem_of_fmap_2.
Qed.

(** Both moves of the position are done. *)
Lemma replacing_next w2 :
  tree w2 = <[target one := e.2]> (delete (staging one) (tree w1)) ->
  replacing w0 (sd ++ [one]) sr (new ++ [e]) rest (bd ++ [b]) br w2.
Proof.
  intros Et. destruct move_facts as (Hs & Hb & Htgt & Hbbd & Hbt & Hbs & Hss & Hsb & Hsbd & Hte & Ec1 & Ec2).
  pose proof target_had as Hhad1. pose proof between_original as Hbo. pose proof temps_next as Htemps.
  assert (forall p, p <> target one -> p <> b -> p <> staging one -> tree w2 !! p = tree w !! p) as Hoth.
  { intros p H1 H2 H3. rewrite Et, lookup_insert_ne, lookup_delete_ne by done. by apply between_other. }
  assert (tree w2 !! b = Some e0) as Hwb.
  { rewrite Et, lookup_insert_ne by congruence. rewrite lookup_delete_ne by done. by rewrite Hw1, lookup_insert_eq. }
  destruct H as [Hn Hf Hnew Hrest Hlen Hpres Hmoved Hst Hplain Hhad Ht Ho].
  apply Forall2_cons in Hst as [Hst1 Hst].
  assert (NoDup (staging one :: map staging sr)) as Hsr.
  { apply NoDup_app in Hn as (_ & _ & Hn). by apply NoDup_app in Hn as (Hn & _). }
  assert (forall x, x ∈ sr -> b <> staging x /\ staging x <> target one) as Hx.
  { intros x Hx. apply NoDup_app in Hn as (_ & _ & Hn). apply NoDup_app in Hn as (_ & Hd & _). split.
    - intros ->. apply (Hd (staging x)); [cbn; right; by apply list_elem_of_fmap_2|]. apply elem_of_app. right. left.
    - intros E'. apply Htgt. rewrite <-E'. unfold temps. rewrite !elem_of_app. right. left. cbn. right. by apply list_elem_of_fmap_2. }
  split; rewrite ?Htemps.
  - done.
  - done.
  - rewrite fmap_app, map_app. cbn. by rewrite Hnew, Hte.
  - by injection Hrest.
  - rewrite !length_app. cbn. lia.
  - rewrite <-app_assoc. cbn [app]. rewrite Forall_forall in *. intros q Hq. destruct (decide (q = b)) as [->|]; [by exists e0|].
    rewrite Hoth; [by apply Hpres| |done|].
    + intros ->. apply Htgt. unfold temps. rewrite !elem_of_app. rewrite elem_of_app in Hq. auto.
    + intros ->. apply NoDup_app in Hn as (_ & _ & Hn). apply NoDup_app in Hn as (_ & Hd & _). apply (Hd (staging one)); [left|done].
  - apply Forall_app. split.
    + rewrite Forall_forall in *. intros x Hxin. rewrite Hoth; [by apply Hmoved| | |].
      * intros E'. apply Htgt. rewrite <-E'. unfold temps. rewrite elem_of_app. left. by apply list_elem_of_fmap_2.
      * intros <-. apply Hbs. by apply list_elem_of_fmap_2.
      * intros E'. apply Hss. rewrite <-E'. by apply list_elem_of_fmap_2.
    + apply Forall_singleton. rewrite Et, lookup_insert_ne; [by rewrite lookup_delete_eq|]. congruence.
  - rewrite Forall2_lookup in *. intros i. specialize (Hst i). destruct (sr !! i) as [x|] eqn:Ei; inversion Hst as [? ? Hxe| ]; constructor.
    apply list_elem_of_lookup_2 in Ei as Hin. destruct (Hx x Hin). rewrite Hoth; [done|done|congruence|].
    intros E'. apply NoDup_cons in Hsr as [Hsr _]. apply Hsr. rewrite <-E'. by apply list_elem_of_fmap_2.
  - by rewrite <-app_assoc.
  - apply Forall_app. split; [done|]. by apply Forall_singleton.
  - intros p Hp. unfold write_entries. rewrite foldl_app. cbn [foldl]. destruct (decide (p = target one)) as [->|Hne].
    + by rewrite Et, Hte, !lookup_insert_eq.
    + rewrite lookup_insert_ne by congruence. fold (write_entries new (tree w0)). rewrite <-(Ht p Hp).
      apply Hoth; [done|..]; intros E'; by rewrite E' in Hp.
  - intros p Hp. rewrite map_app. cbn [map]. rewrite zip_with_app by (by rewrite length_map). cbn [zip_with]. fold c.
    rewrite <-(Hbo p Hp). apply original_ext; rewrite fmap_app.
    + rewrite Ec1. cbn. intros q Hq. rewrite Et, lookup_insert_ne, lookup_delete_ne; [done|..]; intros E'; subst q;
        apply elem_of_app in Hq as [Hq|Hq%list_elem_of_singleton]; try congruence.
      apply Htgt. unfold temps. rewrite !elem_of_app. auto.
    + rewrite Ec2. cbn. rewrite not_elem_of_app, list_elem_of_singleton. intros [_ Hne].
      rewrite Et, lookup_insert_ne, lookup_delete_ne; [done|..]; [intros E'; by rewrite E' in Hs|congruence].
Qed.
End OneMove.

(** The world when every target is replaced. *)
Record replaced w0 (staged : list Staged) (new : list (str * Entry)) (backups : list str) w : Prop := {
  replaced_NoDup : NoDup (map staging staged ++ backups);
  replaced_fresh : Forall (fresh w0) (map staging staged ++ backups);
  replaced_new : new.*1 = map target staged;
  replaced_moved : Forall (fun one => tree w !! staging one = None) staged;
  replaced_plain : Forall (fun one => target one ∉ map staging staged ++ backups) staged;
  replaced_had : Forall (fun one => is_Some (tree w0 !! target one)) staged;
  replaced_tree p : p ∉ map staging staged ++ backups -> tree w !! p = write_entries new (tree w0) !! p
}.

Lemma replacing_end w0 sd new bd w : replacing w0 sd [] new [] bd [] w -> replaced w0 sd new bd w.
Proof.
  assert (map staging sd ++ map staging [] ++ (bd ++ []) = map staging sd ++ bd) as Enil by (cbn; by rewrite app_nil_r).
  intros [Hn Hf Hnew _ _ _ Hm _ Hp Hh Ht _]. rewrite Enil in Hn, Hf. split; try done.
  - rewrite !app_nil_r in Hp. exact Hp.
  - intros p Hin. apply Ht. by rewrite Enil.
Qed.

Lemma replace_loop_spec w0 sd sr new rest bd br w r w' :
  length br = length sr -> replacing w0 sd sr new rest bd br w ->
  replace_loop (sd ++ sr) (bd ++ br) (zip sr br) (length sd) (zip bd (map target sd)) w = (r, w') ->
  match r with
  | Ok _ => replaced w0 (sd ++ sr) (new ++ rest) (bd ++ br) w'
  | Err f => undone w0 f w'
  end.
Proof.
  revert sd new rest bd br w. induction sr as [|one sr IH]; intros sd new rest bd br w Hlen H.
  { destruct br; [|done]. intros [= <- <-]. pose proof (replacing_rest _ _ _ _ _ _ _ _ H) as Hr.
    apply fmap_nil_inv in Hr as ->. rewrite !app_nil_r. by apply replacing_end. }
  destruct br as [|b br]; [done|]. injection Hlen as Hlen.
  destruct rest as [|e rest]; [by pose proof (replacing_rest _ _ _ _ _ _ _ _ H)|].
  pose proof (replacing_lengths _ _ _ _ _ _ _ _ H) as Hl.
  assert (is_Some (tree w !! b)) as Hb.
  { pose proof (replacing_present _ _ _ _ _ _ _ _ H) as Hp. rewrite Forall_forall in Hp. apply Hp, elem_of_app. right. left. }
  assert (tree w !! staging one = Some e.2) as Hs.
  { pose proof (replacing_staged _ _ _ _ _ _ _ _ H) as Hst. by apply Forall2_cons in Hst as [? _]. }
  pose proof (move_facts _ _ _ _ _ _ _ _ _ _ _ H) as (_ & _ & Htgt & _ & _ & _ & _ & Hsb & _ & Hte & _).
  cbn [zip zip_with replace_loop]. destruct (rename_step (target one) b w) as [moved w1] eqn:E1. apply rename_law in E1.
  destruct moved as [u1|er1].
  2:{ destruct (undo (sd ++ one :: sr) _ _ _ er1 w1) as [f w2] eqn:Eu. intros [= <- <-].
      eapply undo_spec; [|exact Eu]. by eapply failing_first. }
  destruct (E1 (or_intror Hb)) as (e0 & He0 & Hw1).
  destruct (rename_step (staging one) (target one) w1) as [moved w2] eqn:E2. apply rename_law in E2.
  destruct moved as [u2|er2].
  2:{ destruct (undo (sd ++ one :: sr) _ _ _ er2 w2) as [f w3] eqn:Eu. intros [= <- <-].
      eapply undo_spec; [|exact Eu]. by eapply failing_second. }
  assert (tree w1 !! staging one = Some e.2) as Hs1.
  { rewrite Hw1, lookup_insert_ne, lookup_delete_ne; [done| |congruence]. intros E'. apply Htgt. rewrite E'.
    rewrite !elem_of_app. right. left. left. }
  destruct (E2 (or_introl (mk_is_Some _ _ Hs1))) as (e2 & He2 & Hw2). rewrite Hs1 in He2. injection He2 as <-.
  pose proof (replacing_next _ _ _ _ _ _ _ _ _ _ _ H _ _ He0 Hw1 _ Hw2) as Hnext.
  intros Hrun. specialize (IH (sd ++ [one]) (new ++ [e]) rest (bd ++ [b]) br w2 Hlen Hnext).
  rewrite <-!app_assoc in IH. cbn [app] in IH. apply IH.
  rewrite <-Hrun. rewrite length_app, map_app. cbn [length map]. rewrite zip_with_app by (by rewrite length_map). done.
Qed.

(** The entries that the staged files become. *)
Lemma staged_new fuel base w0 files staged w :
  Forall2 (fun file one => exists entry, tree w !! staging one = Some entry /\
    file_entry fuel base w0 file (target one, entry)) files staged ->
  exists new, Forall2 (file_entry fuel base w0) files new /\ new.*1 = map target staged /\
    Forall2 (fun one e => tree w !! staging one = Some e.2) staged new.
Proof.
  induction 1 as [|file one files' staged' (entry & He & Hf) _ (new & H1 & H2 & H3)]; [by exists []|].
  exists ((target one, entry) :: new). split; [by constructor|]. split; [cbn; by rewrite H2|]. by constructor.
Qed.

Lemma staged_plain fuel base w0 files staged w :
  plain_targets fuel base w0 files ->
  Forall2 (fun file one => exists entry, tree w !! staging one = Some entry /\
    file_entry fuel base w0 file (target one, entry)) files staged ->
  Forall (fun one => ~ temporary (target one)) staged.
Proof.
  intros Hp H. apply Forall_lookup. intros i one Hi.
  destruct (Forall2_lookup_r _ _ _ _ _ H Hi) as (file & Hf & entry & _ & Hc & _).
  eapply Hp; [by eapply list_elem_of_lookup_2|exact Hc].
Qed.

Lemma ready_start fuel base w0 files staged w :
  staged_ok fuel base w0 files staged w -> ready fuel base w0 files staged [] w.
Proof. intros [Hp Hn Hs He]. split; rewrite ?app_nil_r; done. Qed.

Lemma replacing_start fuel base w0 files staged backups w new :
  plain_targets fuel base w0 files -> ready fuel base w0 files staged backups w ->
  new.*1 = map target staged -> Forall2 (fun one e => tree w !! staging one = Some e.2) staged new ->
  replacing w0 [] staged [] new [] backups w.
Proof.
  intros Hplain [Hn [Hf Hs] He Hb] Hnew H2. split; try done.
  eapply Forall_impl; [by eapply staged_plain|]. intros one Hone Hin. apply Hone.
  rewrite Forall_forall in Hf. by apply Hf.
Qed.

Lemma stage_all_returns fuel base w0 files staged w :
  same_paths w0 w -> (forall file, file ∈ files -> is_Some (contained_path fuel w0 base file.1)) ->
  exists r w', stage_all fuel base files staged w = Some (r, w').
Proof.
  revert staged w. induction files as [|[path data] files IH]; intros staged w Hp Hall; [cbn; eauto|]. cbn [stage_all].
  rewrite (same_paths_contained _ _ _ _ _ Hp). destruct (Hall (path, data)) as [c Hc]; [left|]. cbn [fst] in Hc. rewrite Hc.
  cbn [mbind option_bind]. destruct c as [tgt|refusal]; [|cbn [mbind option_bind]; destruct (discard_staged staged w); eauto].
  unfold stage_one. destruct (stage_law tgt data w) as (st & w1 & -> & Hp1 & _). cbn [mbind option_bind].
  destruct st as [stg|e]; [|destruct (discard_staged staged w1); eauto].
  apply IH; [by eapply same_paths_trans|]. intros file Hin. apply Hall. by right.
Qed.

(** C1: A write returns when each path resolves.  When it succeeds, the files are the old ones with
    every file of the patch replaced, under the permissions it had, as far as a new file keeps those
    it is given; when it fails, every file
    is as it was, or, when a move back failed too, is as it was or in a backup that the error
    names.  In either case what is there besides are the temporary siblings that the write
    reports, and at most one that a failed stage left. *)
Theorem write_all_or_none fuel base contents w
  (Hreturns : forall file, file ∈ btree_iter (btree_collect contents) -> is_Some (contained_path fuel w base file.1))
  (Hplain : plain_targets fuel base w (btree_iter (btree_collect contents))) :
  exists r w', write_with fuel base contents w = Some (r, w') /\
    match r with
    | Ok stay => exists new,
        Forall2 (file_entry fuel base w) (btree_iter (btree_collect contents)) new /\
        Forall (fun e => is_Some (tree w !! e.1)) new /\ Forall (fresh w) (stayed stay) /\
        forall p, p ∉ stayed stay -> tree w' !! p = write_entries new (tree w) !! p
    | Err f =>
        match error f with
        | Refused _ | Reserve _ | Restored _ _ => same_but w (stayed (leftovers f)) w'
        | Stage _ _ => exists junk, (length junk <= 1)%nat /\ same_but w (stayed (leftovers f) ++ junk) w'
        | PartlyApplied _ _ retained =>
            retained <> [] /\ Forall (fresh w) (stayed (leftovers f) ++ retained) /\
            (forall p, p ∉ stayed (leftovers f) ++ retained -> tree w !! p = None -> tree w' !! p = None) /\
            (forall p entry, tree w !! p = Some entry ->
               tree w' !! p = Some entry \/ exists b, b ∈ retained /\ tree w' !! b = Some entry)
        | Watch _ => False
        end
    end.
Proof.
  unfold write_with. set (files := btree_iter (btree_collect contents)) in *.
  destruct (stage_all_returns fuel base w files [] w (same_paths_refl w) Hreturns) as (st & w1 & Est). rewrite Est.
  cbn [mbind option_bind].
  assert (staged_ok fuel base w [] [] w) as H0 by (split; [apply same_paths_refl|constructor|by split|constructor]).
  eapply stage_all_spec in Est; [|exact Hplain|done|exact H0]. cbn [app] in Est.
  destruct st as [staged|f].
  2:{ do 2 eexists. split; [done|]. cbn. unfold stage_failed in Est. by destruct (error f). }
  destruct (reserve_all staged staged [] w1) as [rb w2] eqn:Erb.
  eapply reserve_all_spec in Erb; [|by apply ready_start]. destruct rb as [backups|f].
  2:{ do 2 eexists. split; [done|]. cbn. by destruct Erb as [[reason ->] Hs]. }
  destruct Erb as [Hready Hlen]. cbn [length Nat.add] in Hlen.
  destruct (staged_new _ _ _ _ _ _ (ready_entries _ _ _ _ _ _ _ Hready)) as (new & Hnew & Hfst & Hst).
  destruct (replace_all staged backups w2) as [rr w3] eqn:Err.
  apply (replace_loop_spec w [] staged [] new [] backups) in Err; [|done|by eapply replacing_start].
  destruct rr as [u|f].
  2:{ do 2 eexists. split; [done|]. cbn. unfold undone in Err. by destruct (error f). }
  destruct (discard backups w3) as [l w4] eqn:Ed. do 2 eexists. split; [done|]. cbn.
  destruct Err as [Rn Rf Rnew Rmoved Rplain Rhad Rtree]. cbn [app] in *.
  apply discard_spec in Ed as [D1 D2]; [|by apply NoDup_app in Rn as (_ & _ & ?)].
  exists new. split; [done|]. split.
  { assert (Forall (fun t => is_Some (tree w !! t)) new.*1) as Hh by (rewrite Hfst; by apply Forall_fmap).
    rewrite Forall_fmap in Hh. exact Hh. }
  split; [rewrite Forall_forall in *; intros p Hp; apply Rf, elem_of_app; right; by apply D1|].
  intros p Hp. rewrite D2. rewrite !Forall_forall in *. destruct (decide (p ∈ map staging staged ++ backups)) as [Hin|Hnin].
  - assert (p ∉ new.*1) as Hpn.
    { rewrite Hfst. intros (one & -> & Hone)%list_elem_of_fmap. by apply (Rplain one Hone). }
    rewrite write_entries_other by done. destruct (Rf p Hin) as [-> _]. destruct (decide _) as [|Hnot]; [done|].
    apply elem_of_app in Hin as [(one & -> & Hone)%list_elem_of_fmap|Hin]; [by apply Rmoved|]. by destruct Hnot.
  - rewrite decide_False by (intros [Hin _]; apply Hnin, elem_of_app; by right). by apply Rtree.
Qed.
End AllOrNone.
