(* ===== verification/Disk.v ===== *)
(** The steps of the repository write on the operating system: [Disk], [stage_file] and
    [write_bytes] of crates/io/src/txn.rs, the exclusive creation of crates/io/src/random.rs,
    [sync_written] and [remove_file] of crates/io/src/files.rs, and the texts of the errors.

    The calls of std::fs and libc are a class, and what their documentation says of them is a
    class of laws; [disk_steps_laws] derives the laws of [Steps] from those. *)

From S2P Require Import Prelude RustStr Ordered Text CodePoints Kernel Contain Txn.
Local Open Scope Z_scope.
Local Open Scope rs_scope.

(** The calls of std::fs and libc.  An open file is named by the path it was created at. *)
Class Os (W E : Type) := {
  random : nat -> W -> result bytes E * W;
  create_new : str -> Z -> W -> result unit E * W;
  file_metadata : str -> W -> result Metadata E * W;
  set_permissions : str -> Z -> W -> result unit E * W;
  write : str -> bytes -> W -> result nat E * W;
  sync_data : str -> W -> result unit E * W;
  close : str -> W -> result unit E * W;
  rename : str -> str -> W -> result unit E * W;
  unlink : str -> W -> result unit E * W;
  (** How many more interruptions a write can meet. *)
  interrupts : W -> nat
}.

(** The watch of SIGINT: crates/io/src/interrupt.rs. *)
Class Sigint (W E : Type) := {
  hold_sigint : W -> result unit E * W;
  release_sigint : W -> W
}.

(** * The lossy text of a path: [Path::display] *)

(** How many bytes the longest start of a UTF-8 form takes where no whole form starts. *)
Definition broken_length (bytes : list Z) : nat :=
  let within lo hi b := (lo <=? b) && (b <=? hi) in
  let second b0 :=
    if b0 =? 0xe0 then within 0xa0 0xbf
    else if b0 =? 0xed then within 0x80 0x9f
    else if within 0xe1 0xef b0 then within 0x80 0xbf
    else if b0 =? 0xf0 then within 0x90 0xbf
    else if b0 =? 0xf4 then within 0x80 0x8f
    else if within 0xf1 0xf3 b0 then within 0x80 0xbf
    else fun _ => false in
  match bytes with
  | b0 :: b1 :: rest =>
      if second b0 b1 then
        match rest with
        | b2 :: _ => if (0xf0 <=? b0) && within 0x80 0xbf b2 then 3%nat else 2%nat
        | [] => 2%nat
        end
      else 1%nat
  | _ => 1%nat
  end.

(** Each broken form becomes one U+FFFD. *)
Fixpoint lossy (fuel : nat) (bytes : list Z) : str :=
  match bytes, fuel with
  | [], _ | _, O => []
  | _, S fuel =>
      match utf8_step bytes with
      | Some (c, rest) => c :: lossy fuel rest
      | None => 0xfffd :: lossy fuel (drop (broken_length bytes) bytes)
      end
  end.

Definition path_display (path : str) : str := lossy (length path) path.

(** * Exclusive creation: random.rs *)

Definition NAME_CHARACTERS : str := lit "abcdefghijklmnopqrstuvwxyz0123456789_".
Definition FILE_MODE : Z := 0x180.
Definition MAX_NAME_ATTEMPTS : nat := 100.

Section Disk.
Context {W E : Type} {F : Files W E} {I : IoError E} {Op : Os W E}.
Implicit Types (w : W) (path : str).

Definition name_character (byte : Z) : char :=
  nth (Z.to_nat byte mod length NAME_CHARACTERS) NAME_CHARACTERS 0.

Definition random_name (prefix suffix : str) w : result str E * W :=
  let '(bytes, w) := random NAME_LENGTH w in
  (let? bytes := bytes in Ok (prefix ++ map name_character bytes ++ suffix), w).

(** The attempts that are left. *)
Fixpoint create_attempts (attempts : nat) (directory prefix suffix : str) w : result str E * W :=
  match attempts with
  | O => (Err (new_error AlreadyExists (lit "No usable temporary file name found")), w)
  | S attempts =>
      let '(name, w) := random_name prefix suffix w in
      match name with
      | Err e => (Err e, w)
      | Ok name =>
          let path := path_join directory name in
          let '(created, w) := create_new path FILE_MODE w in
          match created with
          | Ok _ => (Ok path, w)
          | Err e =>
              if bool_decide (kind e = AlreadyExists) then create_attempts attempts directory prefix suffix w
              else (Err e, w)
          end
      end
  end.

Definition create_named (directory prefix suffix : str) w : result str E * W :=
  create_attempts MAX_NAME_ATTEMPTS directory prefix suffix w.

(** * Flushes and removals: files.rs *)

Definition flushed (synced : result unit E) : result unit E :=
  match synced with
  | Err e => if bool_decide (kind e = Unsupported) || bool_decide (kind e = InvalidInput) then Ok tt else Err e
  | Ok _ => Ok tt
  end.

Definition sync_written (file : str) w : result unit E * W :=
  let '(meta, w) := file_metadata file w in
  match meta with
  | Err e => (Err e, w)
  | Ok meta =>
      if bool_decide (file_type meta = RegularFile)
      then let '(synced, w) := sync_data file w in (flushed synced, w)
      else (Ok tt, w)
  end.

(** Whether something was there. *)
Definition remove_file path w : result bool E * W :=
  let '(removed, w) := unlink path w in
  (match removed with
   | Ok _ => Ok true
   | Err e => if bool_decide (kind e = NotFound) then Ok false else Err e
   end, w).

(** * Staging: txn.rs *)

(** [None] when the fuel runs out. *)
Fixpoint write_bytes (fuel : nat) (out : str) (rest : list Z) (name : str) w : option (result unit E * W) :=
  match fuel with
  | O => None
  | S fuel =>
      if negb (is_nonempty rest) then Some (Ok tt, w)
      else
        let '(written, w) := write out rest w in
        match written with
        | Ok O => Some (Err (new_error OtherKind (lit "write returned zero bytes for " ++ path_display name)), w)
        | Ok count => write_bytes fuel out (drop count rest) name w
        | Err e => if bool_decide (kind e = Interrupted) then write_bytes fuel out rest name w else Some (Err e, w)
        end
  end.

(** A write error of [written] comes before one of [closed]. *)
Definition stage_file (target : str) (data : list Z)
    (fill : str -> list Z -> str -> W -> option (result unit E * W)) w : option (result str E * W) :=
  let '(directory, prefix) := sibling_parts target in
  let '(created, w) := create_named directory prefix STAGING_SUFFIX w in
  match created with
  | Err e => Some (Err e, w)
  | Ok staging =>
      let name := name_of target in
      '(written, w) ←
        match metadata w target with
        | Err e => Some (Err e, w)
        | Ok meta =>
            let '(set, w) := set_permissions staging (Z.land (mode meta) PERMISSIONS) w in
            match set with
            | Err e => Some (Err e, w)
            | Ok _ => fill staging data name w
            end
        end;
      let '(closed, w) := close staging w in
      match written, closed with
      | Ok _, Ok _ => Some (Ok staging, w)
      | Err e, _ | Ok _, Err e => let '(_, w) := unlink staging w in Some (Err e, w)
      end
  end.

(** Each round of the loop writes a byte or meets an interruption. *)
Definition write_and_sync (file : str) (data : list Z) (name : str) w : option (result unit E * W) :=
  '(written, w) ← write_bytes (S (length data + interrupts w)) file data name w;
  match written with
  | Err e => Some (Err e, w)
  | Ok _ => Some (sync_written file w)
  end.

#[export] Instance disk : Steps W E := {
  stage target data w := stage_file target data write_and_sync w;
  reserve target w :=
    let '(directory, prefix) := sibling_parts target in
    let '(created, w) := create_named directory prefix BACKUP_SUFFIX w in
    match created with
    | Ok path => let '(_, w) := close path w in (Ok path, w)
    | Err e => (Err e, w)
    end;
  rename_step := rename;
  remove_step path w :=
    let '(removed, w) := remove_file path w in
    (match removed with Ok _ => Ok tt | Err e => Err e end, w)
}.

Definition write_held {P : Steps W E} {G : Sigint W E} (fuel : nat) (base : str) (contents : list (str * list Z)) w
  : option (result (list Leftover) WriteFailure * W) :=
  let '(held, w) := hold_sigint w in
  match held with
  | Err e => Some (Err (failure (Watch (strerror e)) []), w)
  | Ok _ =>
      '(outcome, w) ← write_with fuel base contents w;
      Some (outcome, release_sigint w)
  end.

Definition write_all {G : Sigint W E} := write_held (P := disk).
End Disk.

(** * The texts of the errors *)

Definition refusal_text (refusal : Refusal) : str :=
  match refusal with
  | Unusable => lit "path refused: not a usable filesystem path"
  | Outside resolved root =>
      lit "path refused: resolved to " ++ path_display resolved ++ lit ", which is outside the root " ++ path_display root
  end.

Definition leftover_text (l : Leftover) : str :=
  lit "could not remove the temporary file " ++ path_display (leftover_path l) ++ lit ": " ++ leftover_reason l
  ++ lit "; delete it by hand".

Definition not_applied (what reason outcome : str) : str :=
  lit "patch not applied: " ++ what ++ lit ": " ++ reason ++ lit "; " ++ outcome.

Definition joined (paths : list str) : str := join_with (lit ", ") (map path_display paths).

Definition write_error_text (e : WriteError) : str :=
  match e with
  (* The path is the UTF-8 of a [str], so its lossy text is that [str]. *)
  | Stage path reason => not_applied (lit "cannot write " ++ path_display path) reason (lit "nothing was changed")
  | Reserve reason => not_applied (lit "cannot reserve rollback files") reason (lit "nothing changed")
  | Restored name reason =>
      not_applied (lit "cannot replace " ++ path_display name) reason (lit "every original was restored")
  | Watch reason => not_applied (lit "cannot hold SIGINT") reason (lit "nothing was changed")
  | PartlyApplied name reason retained =>
      lit "patch partly applied: cannot replace " ++ path_display name ++ lit ": " ++ reason
      ++ lit "; rollback failed; originals retained at: " ++ joined retained
  | Refused refusal => refusal_text refusal
  end.

Definition refusal_error (refusal : Refusal) : Kernel.Error := SecurityRefusal (refusal_text refusal).

Definition write_error (e : WriteError) : Kernel.Error :=
  match e with
  | Refused refusal => refusal_error refusal
  | other => OperationFailed (write_error_text other)
  end.

(** * What the operating system promises *)

(** The set-user-ID and set-group-ID bits: chmod(2) and write(2) can clear them, and no others. *)
Definition SET_ID : Z := 0xc00.
Definition kept_mode (given kept : Z) : Prop := exists lost, Z.land lost SET_ID = lost /\ kept = Z.ldiff given lost.

#[export] Instance disk_keeps : Keeps := kept_mode.

Definition with_mode (mode : Z) (e e' : Entry) : Prop :=
  match e with Regular _ data => exists mode', kept_mode mode mode' /\ e' = Regular mode' data | _ => e' = e end.
Definition with_more (more : list Z) (e e' : Entry) : Prop :=
  match e with Regular mode data => exists mode', kept_mode mode mode' /\ e' = Regular mode' (data ++ more) | _ => e' = e end.

Lemma kept_refl mode : kept_mode mode mode.
Proof. exists 0. split; [done|]. by rewrite Z.ldiff_0_r. Qed.

Lemma kept_trans m1 m2 m3 : kept_mode m1 m2 -> kept_mode m2 m3 -> kept_mode m1 m3.
Proof.
  intros (a & Ha & ->) (b & Hb & ->). exists (Z.lor a b). split; [by rewrite Z.land_lor_distr_l, Ha, Hb|].
  apply Z.bits_inj'. intros n Hn. rewrite !Z.ldiff_spec, Z.lor_spec. by destruct (Z.testbit m1 n), (Z.testbit a n), (Z.testbit b n).
Qed.

(** Only those bits are lost. *)
Lemma kept_bits given kept : kept_mode given kept -> Z.ldiff kept SET_ID = Z.ldiff given SET_ID /\ (Z.land given SET_ID = 0 -> kept = given).
Proof.
  intros (lost & Hl & ->). assert (forall n, 0 <= n -> Z.testbit lost n = true -> Z.testbit SET_ID n = true) as Hin.
  { intros n Hn Ht. rewrite <- Hl, Z.land_spec in Ht. by apply andb_true_iff in Ht as [_ ?]. }
  split; [|intros Hz]; apply Z.bits_inj'; intros n Hn; specialize (Hin n Hn); rewrite !Z.ldiff_spec.
  - destruct (Z.testbit given n), (Z.testbit lost n), (Z.testbit SET_ID n); try done. by discriminate Hin.
  - destruct (Z.testbit lost n); [|by rewrite andb_true_r]. rewrite andb_false_r. apply (f_equal (fun z => Z.testbit z n)) in Hz.
    rewrite Z.land_spec, Hin, Z.bits_0, andb_true_r in Hz by done. done.
Qed.

Section OsLaws.
Context {W E : Type} {F : Files W E} {I : IoError E} {Op : Os W E} {T : HasTree W}.

(** The call changes no entry, and no link or working directory. *)
Definition untouched (w w' : W) : Prop := tree w' = tree w /\ same_paths w w'.

(** The call changes the file at [path] as [change] says, when it succeeds, and nothing else. *)
Definition updates (path : str) (change : Entry -> Entry -> Prop) (w w' : W) : Prop :=
  same_paths w w' /\ forall e, tree w !! path = Some e -> exists e', change e e' /\ tree w' = <[path := e']> (tree w).

Class OsLaws : Prop := {
  random_law count w r w' :
    random count w = (r, w') -> untouched w w' /\ match r with Ok bytes => length bytes = count | Err _ => True end;
  create_new_law path mode w r w' :
    create_new path mode w = (r, w') -> same_paths w w' /\
    match r with
    | Ok _ => tree w !! path = None /\ exists mode', tree w' = <[path := Regular mode' []]> (tree w)
    | Err _ => tree w' = tree w
    end;
  file_metadata_law path w r w' : file_metadata path w = (r, w') -> untouched w w' /\ interrupts w' = interrupts w;
  set_permissions_law path mode w r w' :
    set_permissions path mode w = (r, w') ->
    match r with Ok _ => updates path (with_mode mode) w w' | Err _ => untouched w w' end;
  (** A write appends a start of the bytes, and can clear the set-ID bits; an interrupted one appends nothing. *)
  write_law path data w r w' :
    write path data w = (r, w') -> (interrupts w' <= interrupts w)%nat /\
    match r with
    | Ok count => (count <= length data)%nat /\ updates path (with_more (take count data)) w w'
    | Err e => (exists more, updates path (with_more more) w w') /\
        (kind e = Interrupted -> (interrupts w' < interrupts w)%nat /\ updates path (with_more []) w w')
    end;
  sync_data_law path w r w' : sync_data path w = (r, w') -> untouched w w';
  close_law path w r w' : close path w = (r, w') -> untouched w w';
  (** A regular file is no link, so removing one leaves every link. *)
  unlink_law path w r w' :
    unlink path w = (r, w') ->
    match r with
    | Ok _ => tree w' = delete path (tree w) /\ forall mode data, tree w !! path = Some (Regular mode data) -> same_paths w w'
    | Err e => untouched w w' /\ (kind e = NotFound -> tree w !! path = None)
    end;
  (** Nothing but a directory moves onto a directory, and a directory onto nothing else. *)
  os_rename_law from to w r w' :
    rename from to w = (r, w') ->
    match r with
    | Ok _ => is_Some (tree w !! from) \/ is_Some (tree w !! to) ->
        exists entry, tree w !! from = Some entry /\ tree w' = <[to := entry]> (delete from (tree w))
    | Err _ => tree w' = tree w
    end;
  metadata_law path w meta mode' data :
    metadata w path = Ok meta -> tree w !! path = Some (Regular mode' data) -> mode meta = mode'
}.
End OsLaws.
Arguments OsLaws W E {F I Op T}.

(** * The steps of the disk keep the promises of a step *)

Section DiskLaws.
Context {W E : Type} {F : Files W E} {I : IoError E} {Op : Os W E} {T : HasTree W} {L : OsLaws W E}.
Implicit Types (w : W) (path : str).

Lemma untouched_refl w : untouched w w.
Proof. by repeat split. Qed.

Lemma untouched_trans w1 w2 w3 : untouched w1 w2 -> untouched w2 w3 -> untouched w1 w3.
Proof. intros [E1 P1] [E2 P2]. split; [congruence|by eapply same_paths_trans]. Qed.

Definition named (directory prefix suffix path : str) : Prop :=
  exists middle, length middle = NAME_LENGTH /\ path = path_join directory (prefix ++ middle ++ suffix).

Lemma create_attempts_spec attempts directory prefix suffix w r w' :
  create_attempts attempts directory prefix suffix w = (r, w') -> same_paths w w' /\
  match r with
  | Ok path => named directory prefix suffix path /\ tree w !! path = None /\
      exists mode, tree w' = <[path := Regular mode []]> (tree w)
  | Err _ => tree w' = tree w
  end.
Proof.
  revert w. induction attempts as [|attempts IH]; intros w; [by intros [= <- <-]; split; [apply untouched_refl|]|].
  cbn [create_attempts]. unfold random_name. destruct (random NAME_LENGTH w) as [bytes w1] eqn:Er.
  apply random_law in Er as [[Et1 Hp1] Hlen]. destruct bytes as [bytes|e]; [|by intros [= <- <-]]. cbn [result_bind].
  destruct (create_new _ FILE_MODE w1) as [created w2] eqn:Ec. apply create_new_law in Ec as [Hp2 Hc].
  assert (same_paths w w2) as Hp by (by eapply same_paths_trans).
  destruct created as [u|e].
  - intros [= <- <-]. rewrite Et1 in Hc. destruct Hc as [Hnone [mode Hmode]]. split; [done|].
    split; [exists (map name_character bytes); by rewrite length_map|]. split; [done|]. by exists mode.
  - rewrite Et1 in Hc. destruct (bool_decide _).
    + intros Hrest. apply IH in Hrest as [Hp3 Hr]. split; [by eapply same_paths_trans|]. by rewrite Hc in Hr.
    + by intros [= <- <-].
Qed.

(** Writing all bytes of [rest], or a part of them and an error. *)
Lemma write_bytes_spec fuel out rest name w mode data :
  (length rest + interrupts w < fuel)%nat -> tree w !! out = Some (Regular mode data) ->
  exists r w', write_bytes fuel out rest name w = Some (r, w') /\ same_paths w w' /\
    exists mode' more, kept_mode mode mode' /\ tree w' = <[out := Regular mode' (data ++ more)]> (tree w) /\ (is_ok r = true -> more = rest).
Proof.
  revert rest w mode data. induction fuel as [|fuel IH]; intros rest w mode data Hf He; [lia|]. cbn [write_bytes].
  destruct rest as [|b rest]; cbn [is_nonempty negb].
  { do 2 eexists. split; [done|]. split; [apply untouched_refl|]. exists mode, []. rewrite app_nil_r, insert_id by done. split; [apply kept_refl|done]. }
  destruct (write out (b :: rest) w) as [written w1] eqn:Ew. apply write_law in Ew as [Hi Hw].
  assert (forall count, (count <= length (b :: rest))%nat -> updates out (with_more (take count (b :: rest))) w w1 ->
    (length (drop count (b :: rest)) + interrupts w1 < fuel)%nat ->
    exists r w', write_bytes fuel out (drop count (b :: rest)) name w1 = Some (r, w') /\ same_paths w w' /\
    exists mode' more, kept_mode mode mode' /\ tree w' = <[out := Regular mode' (data ++ more)]> (tree w) /\ (is_ok r = true -> more = b :: rest)) as Hgo.
  { intros count Hc [Hp Hu] Hlt. destruct (Hu _ He) as (e' & (mode1 & Hk1 & ->) & Ht1).
    destruct (IH (drop count (b :: rest)) w1 mode1 (data ++ take count (b :: rest)) Hlt) as (r & w2 & Hrun & Hp2 & mode2 & more & Hk2 & Ht & Hok);
      [by rewrite Ht1, lookup_insert_eq|].
    exists r, w2. split; [done|]. split; [by eapply same_paths_trans|]. exists mode2, (take count (b :: rest) ++ more).
    split; [by eapply kept_trans|]. split; [|intros Hr; rewrite (Hok Hr); apply take_drop]. by rewrite Ht, Ht1, insert_insert_eq, <- app_assoc. }
  destruct written as [[|count]|e].
  - do 2 eexists. split; [done|]. destruct Hw as [_ [Hp Hu]]. split; [done|]. destruct (Hu _ He) as (e' & (mode1 & Hk1 & ->) & Ht1). by exists mode1, [].
  - destruct Hw as [Hc Hu]. apply (Hgo (S count)); [done|done|]. rewrite length_drop. lia.
  - destruct Hw as [[more [Hp Hu]] Hint]. destruct (bool_decide (kind e = Interrupted)) eqn:Ek.
    + apply bool_decide_eq_true in Ek. destruct (Hint Ek) as [Hlt Hu0]. apply (Hgo O); [lia|exact Hu0|]. cbn [drop]. lia.
    + do 2 eexists. split; [done|]. split; [done|]. destruct (Hu _ He) as (e' & (mode1 & Hk1 & ->) & Ht1). by exists mode1, more.
Qed.

Lemma sync_written_untouched file w r w' : sync_written file w = (r, w') -> untouched w w'.
Proof.
  unfold sync_written. destruct (file_metadata file w) as [meta w1] eqn:Em. apply file_metadata_law in Em as [H1 _].
  destruct meta as [meta|e]; [|by intros [= <- <-]]. destruct (bool_decide _); [|by intros [= <- <-]].
  destruct (sync_data file w1) as [synced w2] eqn:Es. apply sync_data_law in Es. intros [= <- <-].
  by eapply untouched_trans.
Qed.

Lemma write_and_sync_spec file data name w mode before :
  tree w !! file = Some (Regular mode before) ->
  exists r w', write_and_sync file data name w = Some (r, w') /\ same_paths w w' /\
    exists mode' more, kept_mode mode mode' /\ tree w' = <[file := Regular mode' (before ++ more)]> (tree w) /\ (is_ok r = true -> more = data).
Proof.
  intros He. unfold write_and_sync.
  destruct (write_bytes_spec (S (length data + interrupts w)) file data name w mode before) as (r & w1 & -> & Hp & mode' & more & Hk & Ht & Hok);
    [lia|done|]. cbn [mbind option_bind]. destruct r as [[]|e].
  - destruct (sync_written file w1) as [r w2] eqn:Es. apply sync_written_untouched in Es as [Et Hp2].
    exists r, w2. split; [done|]. split; [by eapply same_paths_trans|]. exists mode', more. rewrite Et. split; [done|]. split; [done|]. intros _. by apply Hok.
  - exists (Err e), w1. split; [done|]. split; [done|]. by exists mode', more.
Qed.

(** A staged file that failed is removed, or stays when its removal failed too. *)
Lemma unlink_made staging mode data w0 w r w' :
  tree w0 !! staging = None -> tree w = <[staging := Regular mode data]> (tree w0) -> same_paths w0 w ->
  unlink staging w = (r, w') ->
  same_paths w0 w' /\ (tree w' = tree w0 \/ tree w' = <[staging := Regular mode data]> (tree w0)).
Proof.
  intros Hnone Ht Hp Hu. apply unlink_law in Hu. destruct r as [u|e].
  - destruct Hu as [Et Hp']. split.
    + eapply same_paths_trans; [exact Hp|]. eapply (Hp' mode data). by rewrite Ht, lookup_insert_eq.
    + left. by rewrite Et, Ht, delete_insert_id.
  - destruct Hu as [[Et Hp'] _]. split; [by eapply same_paths_trans|]. right. by rewrite Et.
Qed.

(** The permissions and the bytes of the staged file, up to its close. *)
Lemma filled_spec target data staging w w1 mode0 :
  tree w !! staging = None -> tree w1 = <[staging := Regular mode0 []]> (tree w) ->
  exists written w2,
    (match metadata w1 target with
     | Err e => Some (Err e, w1)
     | Ok meta =>
         let '(set, w) := set_permissions staging (Z.land (mode meta) PERMISSIONS) w1 in
         match set with
         | Err e => Some (Err e, w)
         | Ok _ => write_and_sync staging data (name_of target) w
         end
     end = Some (written, w2)) /\ same_paths w1 w2 /\
    exists mode more, tree w2 = <[staging := Regular mode more]> (tree w) /\
      (is_ok written = true -> more = data /\ keeps_mode w target mode).
Proof.
  intros Hnone Ht. destruct (metadata w1 target) as [meta|e] eqn:Em.
  2:{ do 2 eexists. split; [done|]. split; [apply untouched_refl|]. by exists mode0, []. }
  destruct (set_permissions staging _ w1) as [set w2] eqn:Es. apply set_permissions_law in Es. destruct set as [u|e].
  2:{ destruct Es as [Et Hp]. do 2 eexists. split; [done|]. split; [done|]. exists mode0, []. by rewrite Et. }
  destruct Es as [Hp2 Hu]. assert (tree w1 !! staging = Some (Regular mode0 [])) as H1 by (by rewrite Ht, lookup_insert_eq).
  destruct (Hu _ H1) as (e' & (mode1 & Hk1 & ->) & Ht2). rewrite Ht, insert_insert_eq in Ht2.
  destruct (write_and_sync_spec staging data (name_of target) w2 mode1 []) as (r & w3 & -> & Hp3 & mode2 & more & Hk2 & Ht3 & Hok); [by rewrite Ht2, lookup_insert_eq|].
  exists r, w3. split; [done|]. split; [by eapply same_paths_trans|]. exists mode2, more.
  split; [by rewrite Ht3, Ht2, insert_insert_eq|]. intros Hr. split; [by apply Hok|].
  intros mode' data' Htgt. assert (mode meta = mode') as <-; [|by eapply kept_trans]. eapply metadata_law; [exact Em|]. rewrite Ht, lookup_insert_ne; [exact Htgt|congruence].
Qed.

Lemma stage_file_spec target data w :
  exists r w', stage_file target data write_and_sync w = Some (r, w') /\ same_paths w w' /\
    match r with
    | Ok staging => tree w !! staging = None /\ sibling STAGING_SUFFIX target staging /\
        exists mode, keeps_mode w target mode /\ tree w' = <[staging := Regular mode data]> (tree w)
    | Err _ => tree w' = tree w \/
        exists staging entry, tree w !! staging = None /\ sibling STAGING_SUFFIX target staging /\
          tree w' = <[staging := entry]> (tree w)
    end.
Proof.
  unfold stage_file. destruct (sibling_parts target) as [directory prefix] eqn:Ep.
  destruct (create_named directory prefix STAGING_SUFFIX w) as [created w1] eqn:Ec.
  apply create_attempts_spec in Ec as [Hp1 Hc]. destruct created as [staging|e].
  2:{ do 2 eexists. split; [done|]. split; [done|]. by left. }
  destruct Hc as (Hnamed & Hnone & mode0 & Ht1).
  assert (sibling STAGING_SUFFIX target staging) as Hsib by (unfold sibling; by rewrite Ep).
  destruct (filled_spec target data staging w w1 mode0 Hnone Ht1) as (written & w2 & -> & Hp2 & mode & more & Ht2 & Hok).
  cbn [mbind option_bind]. destruct (close staging w2) as [closed w3] eqn:Ecl. apply close_law in Ecl as [Et3 Hp3].
  assert (same_paths w w3) as Hp by (eapply same_paths_trans; [exact Hp1|]; by eapply same_paths_trans).
  rewrite Ht2 in Et3.
  assert (forall e, exists r w', (let '(_, w) := unlink staging w3 in Some (@Err str E e, w)) = Some (r, w') /\ same_paths w w' /\
    (exists e, r = Err e) /\ (tree w' = tree w \/ exists staging entry, tree w !! staging = None /\
      sibling STAGING_SUFFIX target staging /\ tree w' = <[staging := entry]> (tree w))) as Hfail.
  { intros e. destruct (unlink staging w3) as [r w4] eqn:Eu. eapply unlink_made in Eu as [Hp4 Ht4]; [|done..].
    do 2 eexists. split; [done|]. split; [done|]. split; [by eexists|]. destruct Ht4 as [?|?]; [by left|right; by exists staging, (Regular mode more)]. }
  destruct written as [[]|e]; [destruct closed as [u|e]|].
  - do 2 eexists. split; [done|]. split; [done|]. split; [done|]. split; [done|]. destruct (Hok eq_refl) as [-> Hm]. by exists mode.
  - destruct (Hfail e) as (r & w' & -> & Hps & [e' ->] & Htree). by exists (Err e'), w'.
  - destruct (Hfail e) as (r & w' & -> & Hps & [e' ->] & Htree). by exists (Err e'), w'.
Qed.

#[export] Instance disk_laws : StepsLaws W E (P := disk).
Proof.
  split.
  - apply stage_file_spec.
  - intros target w r w'. cbn [reserve disk]. destruct (sibling_parts target) as [directory prefix] eqn:Ep.
    destruct (create_named directory prefix BACKUP_SUFFIX w) as [created w1] eqn:Ec.
    apply create_attempts_spec in Ec as [_ Hc]. destruct created as [path|e]; [|by intros [= <- <-]].
    destruct (close path w1) as [closed w2] eqn:Ecl. apply close_law in Ecl as [Et _]. intros [= <- <-].
    destruct Hc as (Hnamed & Hnone & mode & Ht). split; [done|]. split; [unfold sibling; by rewrite Ep|].
    exists (Regular mode []). by rewrite Et.
  - intros from to w r w'. apply os_rename_law.
  - intros path w r w'. cbn [remove_step disk]. unfold remove_file. destruct (unlink path w) as [removed w1] eqn:Eu.
    apply unlink_law in Eu. intros [= <- <-]. destruct removed as [u|e]; cbn; [by destruct Eu|].
    destruct Eu as [[Et _] Hk]. destruct (bool_decide (kind e = NotFound)) eqn:Ek; cbn; [|done].
    apply bool_decide_eq_true in Ek. by rewrite Et, delete_id by auto.
Qed.
End DiskLaws.

(** * A concrete world *)

Module Ram.
(** Entries in memory; the calls numbered in [failing] fail, and a write clears the set-ID bits. *)
Record Ram := { entries : gmap str Entry; clock : nat; failing : list nat }.

Inductive RamError := Failed (kind : ErrorKind) (message : str).

Definition tick (w : Ram) : Ram := {| entries := entries w; clock := S (clock w); failing := failing w |}.
Definition put (w : Ram) (e : gmap str Entry) : Ram := {| entries := e; clock := S (clock w); failing := failing w |}.
Definition fails (w : Ram) : bool := bool_decide (clock w ∈ failing w).

#[export] Instance ram_tree : HasTree Ram := entries.

#[export] Instance ram_error : IoError RamError := {
  kind e := match e with Failed k _ => k end;
  to_string e := match e with Failed _ m => m end;
  raw_os_error _ := None;
  new_error := Failed
}.

Definition meta_of (e : Entry) : Metadata :=
  match e with
  | Regular mode data => {| file_type := RegularFile; len := Z.of_nat (length data); mode := mode |}
  | Special _ => {| file_type := OtherFile; len := 0; mode := 0 |}
  end.

Definition lookup_meta (w : Ram) (path : str) : result Metadata RamError :=
  match entries w !! path with Some e => Ok (meta_of e) | None => Err (Failed NotFound (lit "no such file")) end.

#[export] Instance ram_files : Files Ram RamError := {
  current_dir _ := Ok (lit "/");
  symlink_metadata w path := match entries w !! path with Some e => Some (meta_of e) | None => None end;
  metadata := lookup_meta;
  read_link _ _ := None;
  canonicalize _ path := Some path;
  invalid_input := Failed InvalidInput (lit "a path with a NUL byte names no file")
}.

(** A call that fails when its number says so, and otherwise acts on the entries. *)
Definition call {A} (act : gmap str Entry -> result (A * gmap str Entry) RamError) (w : Ram) : result A RamError * Ram :=
  if fails w then (Err (Failed OtherKind (lit "simulated failure")), tick w)
  else match act (entries w) with
       | Ok (a, e) => (Ok a, put w e)
       | Err error => (Err error, tick w)
       end.

#[export] Instance ram_os : Os Ram RamError := {
  random count := fun w => (Ok (replicate count (Z.of_nat (clock w))), tick w);
  create_new path mode := call (fun e =>
    match e !! path with
    | Some _ => Err (Failed AlreadyExists (lit "file exists"))
    | None => Ok (tt, <[path := Regular mode []]> e)
    end);
  file_metadata path := fun w => (lookup_meta w path, w);
  set_permissions path mode := call (fun e =>
    match e !! path with
    | Some entry => Ok (tt, <[path := match entry with Regular _ data => Regular mode data | _ => entry end]> e)
    | None => Err (Failed NotFound (lit "no such file"))
    end);
  write path data := call (fun e =>
    match e !! path with
    | Some entry => Ok (length data, <[path := match entry with Regular mode before => Regular (Z.ldiff mode SET_ID) (before ++ data) | _ => entry end]> e)
    | None => Err (Failed NotFound (lit "no such file"))
    end);
  sync_data path := call (fun e => Ok (tt, e));
  close path := call (fun e => Ok (tt, e));
  rename from to := call (fun e =>
    match e !! from with
    | Some entry => Ok (tt, <[to := entry]> (delete from e))
    | None => Err (Failed NotFound (lit "no such file"))
    end);
  unlink path := call (fun e =>
    match e !! path with
    | Some _ => Ok (tt, delete path e)
    | None => Err (Failed NotFound (lit "no such file"))
    end);
  interrupts _ := O
}.

Lemma ram_links w path : is_symlink w path = false.
Proof. unfold is_symlink. cbn. destruct (entries w !! path) as [[]|]; done. Qed.

Lemma ram_paths (w w' : Ram) : same_paths w w'.
Proof. split; [|done]. intros path. by rewrite !ram_links. Qed.

Lemma call_spec {A} (act : gmap str Entry -> result (A * gmap str Entry) RamError) w r w' :
  call act w = (r, w') ->
  match r with
  | Ok a => exists e, act (entries w) = Ok (a, e) /\ entries w' = e
  | Err error => entries w' = entries w /\ (act (entries w) = Err error \/ kind error = OtherKind)
  end.
Proof.
  unfold call. destruct (fails w); [intros [= <- <-]; split; [done|by right]|].
  destruct (act (entries w)) as [[a e]|error]; intros [= <- <-]; [by eexists|by split; [|left]].
Qed.

#[export] Instance ram_laws : OsLaws Ram RamError.
Proof.
  pose proof ram_paths as Hp. split.
  - intros count w r w'. cbn. intros [= <- <-]. split; [by split|]. by rewrite length_replicate.
  - intros path mode w r w' Hc. split; [done|]. apply call_spec in Hc. change (tree w) with (entries w). change (tree w') with (entries w').
    destruct r as [u|e]; [|by destruct Hc]. destruct Hc as (e & Ha & ->). destruct (entries w !! path); [done|]. injection Ha as _ <-.
    split; [done|]. by exists mode.
  - intros path w r w'. cbn. intros [= <- <-]. split; [by split|done].
  - intros path mode w r w' Hc. apply call_spec in Hc. destruct r as [u|e]; [|by destruct Hc as [? _]; split].
    destruct Hc as (e & Ha & Ew). split; [done|]. intros entry He. change (tree w') with (entries w'). rewrite Ew.
    change (tree w) with (entries w) in He |- *. rewrite He in Ha. injection Ha as _ <-. eexists. split; [|done].
    destruct entry; [|done]. exists mode. split; [apply kept_refl|done].
  - intros path data w r w' Hc. split; [done|]. apply call_spec in Hc. destruct r as [n|e].
    + destruct Hc as (e & Ha & Ew). destruct (entries w !! path) as [entry|] eqn:Ee; [|done]. injection Ha as <- <-. split; [done|].
      split; [done|]. intros entry' He. change (tree w') with (entries w'). rewrite Ew, firstn_all.
      change (tree w) with (entries w) in He |- *. rewrite Ee in He. injection He as <-. eexists. split; [|done].
      destruct entry as [mode before|]; [|done]. eexists. split; [|done]. by exists SET_ID.
    + destruct Hc as [Ew Hk].
      assert (updates path (with_more []) w w') as Hu.
      { split; [done|]. intros entry He. exists entry. change (tree w') with (entries w'). rewrite Ew. change (tree w) with (entries w) in He |- *.
        rewrite insert_id by done. split; [|done]. destruct entry as [mode before|]; [|done]. exists mode. rewrite app_nil_r. split; [apply kept_refl|done]. }
      split; [by exists []|]. intros Ek. destruct Hk as [Ha|Hk]; [|congruence]. destruct (entries w !! path); [done|]. by injection Ha as <-.
  - intros path w r w' Hc. apply call_spec in Hc. split; [|done]. destruct r; [destruct Hc as (e & [= _ <-] & Ew)|destruct Hc as [Ew _]]; exact Ew.
  - intros path w r w' Hc. apply call_spec in Hc. split; [|done]. destruct r; [destruct Hc as (e & [= _ <-] & Ew)|destruct Hc as [Ew _]]; exact Ew.
  - intros path w r w' Hc. apply call_spec in Hc. change (tree w) with (entries w). change (tree w') with (entries w').
    destruct r as [u|e].
    + destruct Hc as (e & Ha & ->). split; [|done]. destruct (entries w !! path); [|done]. by injection Ha as <-.
    + destruct Hc as [Ew Hk]. split; [by split|]. intros Ek. destruct Hk as [Ha|Hk]; [|congruence]. by destruct (entries w !! path).
  - intros from to w r w' Hc. apply call_spec in Hc. change (tree w) with (entries w). change (tree w') with (entries w').
    destruct r as [u|e]; [|by destruct Hc]. intros _. destruct Hc as (e & Ha & ->).
    destruct (entries w !! from) as [entry|]; [|done]. injection Ha as <-. by exists entry.
  - intros path w meta mode' data Hm He. cbn in Hm. unfold lookup_meta in Hm. change (tree w) with (entries w) in He.
    rewrite He in Hm. by injection Hm as <-.
Qed.
End Ram.
Import Ram.

(** * What holds of the disk *)

(** C30: The steps of the disk keep every promise that the all-or-none write needs, on an operating
    system that keeps its own: a staged file has the bytes given and the target's permissions but
    for set-ID bits, which the write after the chmod can clear, under a name that was free; a step
    that fails leaves at most one staged file behind; and the loop of the writes ends although
    writes are interrupted.  A target without set-ID bits keeps all of its permissions. *)
Theorem disk_steps_laws {W E : Type} {F : Files W E} {I : IoError E} {Op : Os W E} {T : HasTree W}
  (L : OsLaws W E) : StepsLaws W E (P := disk) (K := kept_mode) /\
  forall given kept, kept_mode given kept -> Z.ldiff kept SET_ID = Z.ldiff given SET_ID /\ (Z.land given SET_ID = 0 -> kept = given).
Proof. split; [apply disk_laws|apply kept_bits]. Qed.

Lemma disk_steps_laws_witness : OsLaws Ram.Ram Ram.RamError /\ StepsLaws Ram.Ram Ram.RamError (P := disk) (K := kept_mode).
Proof. split; [exact Ram.ram_laws|]. exact (proj1 (disk_steps_laws Ram.ram_laws)). Defined.

(** A temporary name ends as its suffix does. *)
Lemma temporary_last path : temporary path -> last path = Some 100 \/ last path = Some 112.
Proof.
  assert (forall directory name c, last name = Some c -> last (path_join directory name) = Some c) as Hj.
  { intros directory name c Hc. unfold path_join. destruct (is_absolute name); [done|].
    assert (last (directory ++ [c_slash] ++ name) = Some c /\ last (directory ++ name) = Some c) as [H1 H2].
    { rewrite app_assoc, !last_app, Hc. by split. }
    by destruct (is_nonempty directory && _). }
  intros (target & [(middle & _ & ->)|(middle & _ & ->)]); [left|right]; apply Hj; by rewrite !last_app.
Qed.

Module RamRuns.
Import Ram.

Definition start : Ram :=
  {| entries := <[lit "/r/a.py" := Regular 0x1ed (lit "old a")]> (<[lit "/r/b.py" := Regular 0x1a4 (lit "old b")]> ∅);
     clock := 0; failing := [] |}.

Definition patch : list (str * list Z) := [(lit "b.py", lit "new b"); (lit "a.py", lit "new a")].

Definition run (w : Ram) : option (result (list Leftover) WriteFailure * list (str * Entry)) :=
  '(outcome, w) ← write_with 20 (lit "/r") patch w;
  Some (outcome, btree_iter (entries w)).

(** The calls of [Ram] are numbered: twelve stage the two files, six reserve the backups, and
    the moves are 18 to 21. *)
Definition failing_at (calls : list nat) : Ram := {| entries := entries start; clock := 0; failing := calls |}.

Example both_written :
  run start = Some (Ok [], [(lit "/r/a.py", Regular 0x1ed (lit "new a")); (lit "/r/b.py", Regular 0x1a4 (lit "new b"))]).
Proof. vm_compute. reflexivity. Qed.

(** A set-user-ID file loses its bit: the staged file is given it before it is written. *)
Example set_id_lost :
  run {| entries := <[lit "/r/a.py" := Regular 0x9ed (lit "old a")]> (entries start); clock := 0; failing := [] |} =
  Some (Ok [], [(lit "/r/a.py", Regular 0x1ed (lit "new a")); (lit "/r/b.py", Regular 0x1a4 (lit "new b"))]).
Proof. vm_compute. reflexivity. Qed.

Example second_move_fails :
  run (failing_at [21%nat]) = Some
    (Err (failure (Restored (lit "b.py") (lit "simulated failure")) []),
     [(lit "/r/a.py", Regular 0x1ed (lit "old a")); (lit "/r/b.py", Regular 0x1a4 (lit "old b"))]).
Proof. vm_compute. reflexivity. Qed.

(** Two moves back fail: each old file is in the backup that the error names. *)
Definition backup_of_b : str := lit "/r/.b.py.pppppppp.agentless-mcp-backup".

Example move_back_fails :
  run (failing_at [21%nat; 22%nat]) = Some
    (Err (failure (PartlyApplied (lit "b.py") (lit "simulated failure") [backup_of_b]) []),
     [(backup_of_b, Regular 0x1a4 (lit "old b")); (lit "/r/a.py", Regular 0x1ed (lit "old a"))]).
Proof. vm_compute. reflexivity. Qed.

Lemma patch_returns (w : Ram) : entries w = entries start ->
  forall file, file ∈ btree_iter (btree_collect patch) ->
  exists target, contained_path 20 w (lit "/r") file.1 = Some (Ok target) /\ last target = Some 121.
Proof.
  intros Ew. assert (btree_iter (btree_collect patch) = [(lit "a.py", lit "new a"); (lit "b.py", lit "new b")]) as ->
    by (vm_compute; reflexivity).
  destruct w as [e c f]. cbn in Ew. subst e. intros file [->|[->|[]%elem_of_nil]%elem_of_cons]%elem_of_cons;
    (eexists; split; [vm_compute; reflexivity|reflexivity]).
Qed.

Lemma patch_plain (w : Ram) : entries w = entries start ->
  plain_targets 20 (lit "/r") w (btree_iter (btree_collect patch)).
Proof.
  intros Ew file target Hin Hc Ht. destruct (patch_returns w Ew file Hin) as (target' & Hc' & Hl).
  rewrite Hc in Hc'. injection Hc' as <-. destruct (temporary_last target Ht); congruence.
Qed.
End RamRuns.

Lemma write_all_or_none_witness :
  exists r w', write_with 20 (lit "/r") RamRuns.patch (RamRuns.failing_at [21%nat]) = Some (r, w') /\
    match r with Err f => same_but (RamRuns.failing_at [21%nat]) (stayed (leftovers f)) w' | Ok _ => False end.
Proof.
  pose (w0 := RamRuns.failing_at [21%nat]). assert (entries w0 = entries RamRuns.start) as Ew by reflexivity.
  assert (forall file, file ∈ btree_iter (btree_collect RamRuns.patch) ->
    is_Some (contained_path 20 (RamRuns.failing_at [21%nat]) (lit "/r") file.1)) as Hr.
  { intros file Hin. destruct (RamRuns.patch_returns w0 Ew file Hin) as (t & Hc & _). exact (mk_is_Some _ _ Hc). }
  destruct (write_all_or_none 20 (lit "/r") RamRuns.patch (RamRuns.failing_at [21%nat]) Hr (RamRuns.patch_plain w0 Ew))
    as (r & w' & E & H).
  exists r, w'. split; [exact E|].
  assert (option_map (fun o => match o.1 with Err f => match error f with Restored _ _ => true | _ => false end | Ok _ => false end)
    (write_with 20 (lit "/r") RamRuns.patch (RamRuns.failing_at [21%nat])) = Some true) as Hk by (vm_compute; reflexivity).
  rewrite E in Hk. cbn in Hk. destruct r as [|f]; [done|]. by destruct (error f).
Defined.
