(* ===== verification/Tarjan.v ===== *)
(** Strongly connected components: [components] of crates/graph/src/cycles.rs.

    Tarjan's algorithm with an explicit stack of calls.  The ends of the source's vectors that
    it pushes to and pops from are the heads of lists here.  [components_correct] shows that the
    loop ends, and that what it finds are the classes of mutual reachability, each after those
    it leads to. *)

From stdpp Require Import relations.
From S2P Require Import Prelude RustStr Ordered.

(** * The algorithm *)

Notation Adjacency := (gmap str (list str)).

Record Tarjan := {
  index : gmap str nat;
  low : gmap str nat;
  on_stack : gset str;
  stack : list str;
  found : list (list str);
  counter : nat
}.

Definition neighbours (adjacency : Adjacency) (node : str) : list str := default [] (adjacency !! node).

Definition open (t : Tarjan) (node : str) : Tarjan :=
  {| index := <[node := counter t]> (index t); low := <[node := counter t]> (low t);
     on_stack := {[node]} ∪ on_stack t; stack := node :: stack t; found := found t; counter := counter t + 1 |}.

Definition lower (t : Tarjan) (node : str) (value : nat) : Tarjan :=
  match low t !! node with
  | Some l =>
      {| index := index t; low := <[node := Nat.min l value]> (low t); on_stack := on_stack t; stack := stack t;
         found := found t; counter := counter t |}
  | None => t
  end.

Definition advance (t : Tarjan) (node child : str) (work : list (str * nat)) : Tarjan * list (str * nat) :=
  match index t !! child with
  | None => (t, (child, O) :: work)
  | Some i => if decide (child ∈ on_stack t) then (lower t node i, work) else (t, work)
  end.

(** The stack and the set without the members down to [node], and the members. *)
Fixpoint pop (node : str) (stack : list str) (on_stack : gset str) (component : list str)
  : list str * gset str * list str :=
  match stack with
  | [] => ([], on_stack, component)
  | member :: stack =>
      let on_stack := on_stack ∖ {[member]} in
      let component := component ++ [member] in
      if decide (member = node) then (stack, on_stack, component) else pop node stack on_stack component
  end.

(** [None] is the panic of an index out of the map. *)
Definition close (t : Tarjan) (node : str) : option Tarjan :=
  l ← low t !! node;
  i ← index t !! node;
  if decide (l <> i) then Some t
  else
    let '(stack, on_stack, component) := pop node (stack t) (on_stack t) [] in
    Some {| index := index t; low := low t; on_stack := on_stack; stack := stack;
            found := found t ++ [sort_strings component]; counter := counter t |}.

(** One round of the loop, for the call taken off the stack of calls. *)
Definition round (adjacency : Adjacency) (t : Tarjan) (node : str) (position : nat) (work : list (str * nat))
  : option (Tarjan * list (str * nat)) :=
  let t := if decide (position = O) then open t node else t in
  match neighbours adjacency node !! position with
  | Some child => Some (advance t node child ((node, S position) :: work))
  | None =>
      t ← close t node;
      match work with
      | (parent, _) :: _ => l ← low t !! node; Some (lower t parent l, work)
      | [] => Some (t, work)
      end
  end.

Fixpoint walk (adjacency : Adjacency) (fuel : nat) (t : Tarjan) (work : list (str * nat)) : option Tarjan :=
  match work with
  | [] => Some t
  | (node, position) :: work =>
      match fuel with
      | O => None
      | S fuel => '(t, work) ← round adjacency t node position work; walk adjacency fuel t work
      end
  end.

(** Each edge takes a round, and so does each node that an edge or the start leads to. *)
Definition edge_count (adjacency : Adjacency) : nat :=
  sum_list_with (fun entry => length entry.2) (map_to_list adjacency).

Definition walk_fuel (adjacency : Adjacency) : nat := 2 * edge_count adjacency + 1.

Fixpoint walk_all (adjacency : Adjacency) (nodes : list str) (t : Tarjan) : option Tarjan :=
  match nodes with
  | [] => Some t
  | start :: nodes =>
      t ← (if decide (is_Some (index t !! start)) then Some t
           else walk adjacency (walk_fuel adjacency) t [(start, O)]);
      walk_all adjacency nodes t
  end.

Definition unwalked : Tarjan :=
  {| index := ∅; low := ∅; on_stack := ∅; stack := []; found := []; counter := O |}.

Definition components (nodes : list str) (adjacency : Adjacency) : option (list (list str)) :=
  t ← walk_all adjacency nodes unwalked; Some (found t).

Example components_found :
  components [lit "a"; lit "b"; lit "c"; lit "d"]
    (list_to_map [(lit "a", [lit "b"]); (lit "b", [lit "a"; lit "c"]); (lit "c", [lit "d"]); (lit "d", [lit "c"])])
  = Some [[lit "c"; lit "d"]; [lit "a"; lit "b"]].
Proof. vm_compute. reflexivity. Qed.

(** * The invariant of the loop *)

Section Components.
Context (adjacency : Adjacency).
Implicit Types (t : Tarjan) (x y : str) (work : list (str * nat)).

Definition edge x y : Prop := y ∈ neighbours adjacency x.

(** Each reaches the other. *)
Definition mutual x y : Prop := rtc edge x y /\ rtc edge y x.

Definition ix t x : nat := index t !!! x.
Definition lw t x : nat := low t !!! x.
Definition opened t x : Prop := is_Some (index t !! x).
Definition settled t x : Prop := x ∈ concat (found t).

(** The edge has been looked at: its source is not being worked on, or is past it. *)
Definition looked t work x y : Prop :=
  x ∈ stack t /\ edge x y /\
  forall position, (x, position) ∈ work -> exists j, (j < position)%nat /\ neighbours adjacency x !! j = Some y.

Context (origin : str -> Prop).
Hypothesis origin_step : forall x y, origin x -> edge x y -> origin y.

(** Each node that was opened is on the stack or in a component; the calls being worked on are
    on the stack in order, and each stack node from one of them up is reachable from it. *)
Record inv t work : Prop := {
  inv_opened x : opened t x <-> x ∈ stack t \/ settled t x;
  inv_low x : opened t x -> is_Some (low t !! x);
  inv_count x : x ∈ stack t -> (ix t x < counter t)%nat;
  inv_set x : x ∈ on_stack t <-> x ∈ stack t;
  inv_sorted : StronglySorted (fun x y => (ix t y < ix t x)%nat) (stack t);
  inv_disjoint : NoDup (stack t ++ concat (found t));
  inv_origin x : opened t x -> origin x;
  inv_work_stack x : x ∈ work.*1 -> x ∈ stack t;
  inv_work_sorted : StronglySorted (fun x y => (ix t y < ix t x)%nat) work.*1;
  inv_desc w u : w ∈ work.*1 -> u ∈ stack t -> (ix t w <= ix t u)%nat -> rtc edge w u;
  inv_edges x y : looked t work x y -> settled t y \/ (y ∈ stack t /\ (lw t x <= ix t y)%nat);
  inv_low_le x : x ∈ stack t -> (lw t x <= ix t x)%nat;
  inv_low_reach x : x ∈ stack t -> exists u, u ∈ stack t /\ ix t u = lw t x /\ rtc edge x u;
  inv_done x : x ∈ stack t -> x ∉ work.*1 -> (lw t x < ix t x)%nat /\
    exists w, w ∈ work.*1 /\ (ix t w < ix t x)%nat /\ (lw t w <= lw t x)%nat /\
      forall w', w' ∈ work.*1 -> (ix t w' < ix t x)%nat -> (ix t w' <= ix t w)%nat;
  inv_found before c after x y : found t = before ++ c :: after -> x ∈ c -> edge x y -> y ∈ concat (before ++ [c]);
  inv_classes c x y : c ∈ found t -> x ∈ c -> (y ∈ c <-> mutual x y);
  inv_members : Forall sorted_strings (found t)
}.

(** A node about to be opened: its call is the top one, and the call below is at its edge to it. *)
Definition fresh t node rest : Prop :=
  index t !! node = None /\ origin node /\
  ((rest = [] /\ inv t []) \/
   exists parent position rest', rest = (parent, S position) :: rest' /\
     neighbours adjacency parent !! position = Some node /\ inv t ((parent, position) :: rest')).

(** A call that has looked at an edge. *)
Definition begun (call : str * nat) : Prop := call.2 <> O.

Definition loop_inv t work : Prop :=
  (exists node rest, work = (node, O) :: rest /\ fresh t node rest /\ Forall begun rest) \/
  (inv t work /\ Forall begun work).

Lemma mutual_refl x : mutual x x.
Proof. by split. Qed.

Lemma mutual_sym x y : mutual x y -> mutual y x.
Proof. by intros [? ?]; split. Qed.

Lemma mutual_trans x y z : mutual x y -> mutual y z -> mutual x z.
Proof. intros [? ?] [? ?]; split; by etrans. Qed.

(** Components lead only to components. *)
Lemma inv_settled t work x y : inv t work -> settled t x -> edge x y -> settled t y.
Proof.
  intros I Hx He. unfold settled in *. apply elem_of_concat in Hx as (c & Hx & Hc).
  apply list_elem_of_split in Hc as (before & after & Hf). pose proof (inv_found _ _ I _ _ _ x y Hf Hx He) as Hy.
  rewrite Hf. rewrite !concat_app in *. cbn [concat] in *. rewrite app_nil_r in Hy. rewrite !elem_of_app in *. tauto.
Qed.

Lemma inv_settled_rtc t work x y : inv t work -> rtc edge x y -> settled t x -> settled t y.
Proof. intros I. induction 1 as [|x y z He _ IH]; [done|]. intros Hx. by apply IH, (inv_settled _ _ _ _ I Hx). Qed.

Lemma stack_not_settled t work x : inv t work -> x ∈ stack t -> ~ settled t x.
Proof. intros I Hs Hf. pose proof (inv_disjoint _ _ I) as Hn. apply NoDup_app in Hn as (_ & Hd & _). by apply (Hd x). Qed.

Lemma edge_at x y : edge x y <-> exists j, neighbours adjacency x !! j = Some y.
Proof. apply list_elem_of_lookup. Qed.

(** Stack nodes have indices of their own. *)
Lemma inv_inj t work x y : inv t work -> x ∈ stack t -> y ∈ stack t -> ix t x = ix t y -> x = y.
Proof.
  intros I Hx Hy. pose proof (inv_sorted _ _ I) as Hs. revert Hx Hy. induction Hs as [|z l Hl IH Hz]; [by intros ?%elem_of_nil|].
  rewrite Forall_forall in Hz. rewrite !elem_of_cons. intros [->|Hx] [->|Hy] E; try done; [apply Hz in Hy|apply Hz in Hx|by apply IH]; lia.
Qed.

(** ** Opening a node *)

Lemma ix_open t node x : ix (open t node) x = if decide (x = node) then counter t else ix t x.
Proof. unfold ix. cbn. case_decide as E; [subst; apply lookup_total_insert_eq|by apply lookup_total_insert_ne]. Qed.

Lemma lw_open t node x : lw (open t node) x = if decide (x = node) then counter t else lw t x.
Proof. unfold lw. cbn. case_decide as E; [subst; apply lookup_total_insert_eq|by apply lookup_total_insert_ne]. Qed.

Lemma inv_below t work x : inv t work -> opened t x -> x ∉ stack t -> settled t x.
Proof. intros I Ho Hs. by destruct (proj1 (inv_opened _ _ I x) Ho). Qed.

(** What a new node at the top of the stack is called by: the top call, when there is one. *)
Definition called_by t node work : Prop :=
  match work with
  | [] => stack t = []
  | (parent, position) :: _ => exists q, position = S q /\ neighbours adjacency parent !! q = Some node
  end.

Lemma fresh_called t node rest : fresh t node rest -> called_by t node rest.
Proof.
  intros (_ & _ & [[-> I]|(parent & position & rest' & -> & Hat & _)]); [|by exists position].
  cbn. destruct (stack t) as [|x l] eqn:Es; [done|]. exfalso.
  destruct (inv_done _ _ I x) as (_ & w & Hw & _); [rewrite Es; left|by apply not_elem_of_nil|].
  by apply elem_of_nil in Hw.
Qed.

Lemma opened_open t node x : opened (open t node) x <-> x = node \/ opened t x.
Proof. unfold opened. cbn. rewrite lookup_insert_is_Some. destruct (decide (x = node)); naive_solver. Qed.

Lemma looked_open t node rest : fresh t node rest -> exists base, inv t base /\ base.*1 = rest.*1 /\
  forall x y, looked (open t node) ((node, O) :: rest) x y -> looked t base x y \/ (y = node /\ x ∈ stack t).
Proof.
  intros (Hnew & _ & Hrest).
  assert (forall x y, looked (open t node) ((node, O) :: rest) x y -> x ∈ stack t) as Hx.
  { intros x y ([->|Hx]%elem_of_cons & _ & Hp); [|done]. destruct (Hp O) as (j & ? & _); [left|lia]. }
  destruct Hrest as [[-> I]|(parent & position & rest' & -> & Hat & I)].
  - exists []. split; [done|]. split; [done|]. intros x y Hl. left. pose proof (Hx _ _ Hl). destruct Hl as (_ & He & _).
    split; [done|]. split; [done|]. by intros position ?%elem_of_nil.
  - exists ((parent, position) :: rest'). split; [done|]. split; [done|]. intros x y Hl. pose proof (Hx _ _ Hl) as Hs.
    destruct (decide (y = node)) as [->|Hy]; [by right|left]. destruct Hl as (_ & He & Hp). split; [done|]. split; [done|].
    intros q [[= -> ->]|Hq]%elem_of_cons; [|apply Hp; right; by right].
    destruct (Hp (S position)) as (j & Hj & Hjy); [right; left|]. exists j. split; [|done].
    assert (j <> position) by (intros ->; congruence). lia.
Qed.

Lemma inv_open t node rest : fresh t node rest -> inv (open t node) ((node, O) :: rest).
Proof.
  intros Hf. pose proof (fresh_called _ _ _ Hf) as Hcall. destruct (looked_open _ _ _ Hf) as (base & I & Hfst & Hlook).
  destruct Hf as (Hnew & Horigin & _).
  assert (forall x, opened t x -> x <> node) as Hne by (intros x [i Hi] ->; congruence).
  assert (forall x, x ∈ stack t -> x <> node) as Hsn by (intros x Hx; apply Hne, (inv_opened _ _ I); by left).
  assert (forall x, x ∈ rest.*1 -> x ∈ stack t) as Hrs by (intros x; rewrite <- Hfst; apply (inv_work_stack _ _ I)).
  assert (forall x, x ∈ stack t -> ix (open t node) x = ix t x) as Hix by (intros x Hx; rewrite ix_open, decide_False; auto).
  assert (forall x, x ∈ stack t -> lw (open t node) x = lw t x) as Hlw by (intros x Hx; rewrite lw_open, decide_False; auto).
  assert (ix (open t node) node = counter t) as Hin by (by rewrite ix_open, decide_True).
  assert (lw (open t node) node = counter t) as Hln by (by rewrite lw_open, decide_True).
  pose proof (inv_count _ _ I) as Hc.
  split; try rewrite fmap_cons; cbn [stack open fst].
  - intros x. rewrite opened_open, elem_of_cons, (inv_opened _ _ I). unfold settled. cbn. tauto.
  - intros x Hx%opened_open. cbn. rewrite lookup_insert_is_Some. destruct (decide (node = x)); [by left|right].
    split; [done|]. apply (inv_low _ _ I). by destruct Hx as [->|?].
  - intros x [->|Hx]%elem_of_cons; cbn [counter open]; [lia|]. rewrite Hix by done. specialize (Hc x Hx). lia.
  - intros x. cbn. rewrite elem_of_union, elem_of_singleton, elem_of_cons, (inv_set _ _ I). done.
  - constructor.
    + eapply sorted_weaken; [|apply (inv_sorted _ _ I)]. intros x y Hx Hy. cbn. by rewrite !Hix.
    + apply Forall_forall. intros x Hx. rewrite Hix, Hin by done. by apply Hc.
  - cbn. apply NoDup_cons. split; [|apply (inv_disjoint _ _ I)]. rewrite elem_of_app. intros Hx.
    apply (Hne node); [|done]. apply (inv_opened _ _ I). exact Hx.
  - intros x [->|Hx]%opened_open; [done|]. by apply (inv_origin _ _ I).
  - intros x. rewrite !elem_of_cons. naive_solver.
  - constructor.
    + eapply sorted_weaken; [|rewrite <- Hfst; apply (inv_work_sorted _ _ I)]. intros x y Hx Hy. rewrite !Hix; [done|..]; by apply Hrs.
    + apply Forall_forall. intros x Hx. rewrite Hix, Hin by auto. auto.
  - intros w u Hw Hu Hle. apply elem_of_cons in Hw as [->|Hw]; apply elem_of_cons in Hu as [->|Hu].
    + apply rtc_refl.
    + rewrite Hin, (Hix u) in Hle by done. specialize (Hc u Hu). lia.
    + destruct rest as [|[parent position] rest]; [by apply elem_of_nil in Hw|].
      destruct Hcall as (q & -> & Hat). eapply rtc_r; [|apply edge_at; by exists q].
      apply (inv_desc _ _ I); [by rewrite Hfst|apply Hrs; left|]. pose proof (inv_work_sorted _ _ I) as Hs. rewrite Hfst in Hs.
      apply elem_of_cons in Hw as [->|Hw]; [done|]. apply StronglySorted_inv in Hs as [_ Hs]. rewrite Forall_forall in Hs.
      apply Nat.lt_le_incl, Hs, Hw.
    + rewrite !Hix in Hle by auto. apply (inv_desc _ _ I); [by rewrite Hfst|done|done].
  - intros x y [Hl|[-> Hx]]%Hlook.
    + pose proof Hl as (Hx & _ & _). rewrite Hlw by done. destruct (inv_edges _ _ I x y Hl) as [?|[Hy Hle]]; [by left|right].
      split; [by right|]. by rewrite Hix.
    + right. split; [left|]. rewrite Hlw, Hin by done. pose proof (inv_low_le _ _ I x Hx). specialize (Hc x Hx). lia.
  - intros x [->|Hx]%elem_of_cons; [by rewrite Hln, Hin|]. rewrite Hlw, Hix by done. by apply (inv_low_le _ _ I).
  - intros x [->|Hx]%elem_of_cons; [exists node; rewrite Hin, Hln; split; [left|by split]|].
    destruct (inv_low_reach _ _ I x Hx) as (u & Hu & Hul & Hr). exists u. rewrite Hix, Hlw by done. split; [by right|by split].
  - intros x Hx Hw. apply not_elem_of_cons in Hw as [Hxn Hw]. apply elem_of_cons in Hx as [?|Hx]; [done|].
    destruct (inv_done _ _ I x Hx) as (Hlt & w & Hw1 & Hw2 & Hw3 & Hw4); [by rewrite Hfst|].
    rewrite Hlw, Hix by done. split; [done|]. rewrite Hfst in Hw1. exists w. rewrite Hix, Hlw by auto.
    split; [by right|]. split; [done|]. split; [done|]. intros w' [->|Hw']%elem_of_cons.
    + rewrite Hin. intros ?. specialize (Hc x Hx). lia.
    + rewrite Hix by auto. apply Hw4. by rewrite Hfst.
  - intros before c after x y. apply (inv_found _ _ I).
  - intros c x y. apply (inv_classes _ _ I).
  - apply (inv_members _ _ I).
Qed.
(** ** Looking at an edge *)

Lemma inv_step t node position child work :
  inv t ((node, position) :: work) -> neighbours adjacency node !! position = Some child ->
  settled t child \/ (child ∈ stack t /\ (lw t node <= ix t child)%nat) -> inv t ((node, S position) :: work).
Proof.
  intros I Hat Hc. pose proof (inv_edges _ _ I) as Hed. destruct I. split; try done.
  intros x y (Hx & He & Hp).
  destruct (decide (x = node /\ y = child)) as [[-> ->]|Hne]; [done|]. apply Hed. split; [done|]. split; [done|].
  intros q [[= -> ->]|Hq]%elem_of_cons; [|apply Hp; by right].
  destruct (Hp (S position)) as (j & Hj & Hjy); [left|]. exists j. split; [|done].
  assert (j <> position) by (intros ->; apply Hne; split; [done|congruence]). lia.
Qed.

Lemma lower_fields t node value :
  index (lower t node value) = index t /\ on_stack (lower t node value) = on_stack t /\
  stack (lower t node value) = stack t /\ found (lower t node value) = found t /\ counter (lower t node value) = counter t.
Proof. unfold lower. by destruct (low t !! node). Qed.

Lemma lw_lower t node value x : is_Some (low t !! node) ->
  lw (lower t node value) x = if decide (x = node) then Nat.min (lw t node) value else lw t x.
Proof.
  intros [l Hl]. unfold lower, lw. rewrite Hl. cbn. rewrite (lookup_total_alt _ node), Hl. cbn.
  case_decide as E; [subst; apply lookup_total_insert_eq|by apply lookup_total_insert_ne].
Qed.

Lemma inv_lower t work node u :
  inv t work -> node ∈ work.*1 -> u ∈ stack t -> rtc edge node u -> inv (lower t node (ix t u)) work.
Proof.
  intros I Hn Hu Hr. destruct (lower_fields t node (ix t u)) as (Ei & Eo & Es & Ef & Ec).
  assert (node ∈ stack t) as Hns by (by apply (inv_work_stack _ _ I)).
  assert (is_Some (low t !! node)) as Hl by (apply (inv_low _ _ I), (inv_opened _ _ I); by left).
  assert (forall x, ix (lower t node (ix t u)) x = ix t x) as Hix by (intros x; unfold ix at 1; by rewrite Ei).
  assert (forall x, (lw (lower t node (ix t u)) x <= lw t x)%nat) as Hle.
  { intros x. rewrite lw_lower by done. case_decide; [subst; lia|done]. }
  assert (forall x, opened (lower t node (ix t u)) x <-> opened t x) as Ho by (intros x; unfold opened; by rewrite Ei).
  split; unfold settled, looked; rewrite ?Es, ?Ef, ?Ec, ?Eo; try apply I.
  - intros x. rewrite Ho. apply (inv_opened _ _ I).
  - intros x Hx%Ho. unfold lower. destruct (low t !! node); [|by apply (inv_low _ _ I)]. cbn. rewrite lookup_insert_is_Some.
    destruct (decide (node = x)); [by left|right]. split; [done|]. by apply (inv_low _ _ I).
  - intros x. rewrite Hix. apply (inv_count _ _ I).
  - eapply sorted_weaken; [|apply (inv_sorted _ _ I)]. intros x y _ _. by rewrite !Hix.
  - intros x Hx%Ho. by apply (inv_origin _ _ I).
  - eapply sorted_weaken; [|apply (inv_work_sorted _ _ I)]. intros x y _ _. by rewrite !Hix.
  - intros w u'. rewrite !Hix. apply (inv_desc _ _ I).
  - intros x y Hlk. rewrite Hix. destruct (inv_edges _ _ I x y Hlk) as [?|[? ?]]; [by left|right].
    split; [done|]. specialize (Hle x). lia.
  - intros x Hx. rewrite Hix. specialize (Hle x). pose proof (inv_low_le _ _ I x Hx). lia.
  - intros x Hx. destruct (inv_low_reach _ _ I x Hx) as (u' & ? & ? & ?). rewrite lw_lower by done. case_decide as E.
    + subst x. destruct (Nat.le_ge_cases (lw t node) (ix t u)).
      * exists u'. rewrite Hix, Nat.min_l by done. done.
      * exists u. rewrite Hix, Nat.min_r by done. done.
    + exists u'. by rewrite Hix.
  - intros x Hx Hw. destruct (inv_done _ _ I x Hx Hw) as (Hlt & w & H1 & H2 & H3 & H4).
    assert (lw (lower t node (ix t u)) x = lw t x) as Elw by (rewrite lw_lower, decide_False; congruence).
    rewrite Elw, !Hix. split; [done|]. exists w. rewrite Hix. specialize (Hle w). split; [done|]. split; [done|]. split; [lia|].
    intros w' ?. rewrite Hix. by apply H4.
Qed.

Lemma inv_advance t node position child work :
  inv t ((node, position) :: work) -> Forall begun work -> neighbours adjacency node !! position = Some child ->
  let '(t', work') := advance t node child ((node, S position) :: work) in loop_inv t' work'.
Proof.
  intros I Hb Hat. assert (Forall begun ((node, S position) :: work)) as Hb' by (by constructor). assert (edge node child) as He by (apply edge_at; eauto).
  assert (node ∈ stack t) as Hs by (apply (inv_work_stack _ _ I); left).
  assert (origin child) as Ho.
  { eapply origin_step; [|exact He]. apply (inv_origin _ _ I), (inv_opened _ _ I). by left. }
  unfold advance. destruct (index t !! child) as [i|] eqn:Ei.
  2:{ left. exists child, ((node, S position) :: work). split; [done|]. split; [|done]. split; [done|]. split; [done|].
      right. by exists node, position, work. }
  assert (ix t child = i) as Eix by (unfold ix; by rewrite lookup_total_alt, Ei).
  case_decide as Hon; rewrite (inv_set _ _ I) in Hon; right; (split; [|done]).
  - subst i. pose proof (inv_lower _ _ node child I) as Il. specialize (Il ltac:(left) Hon ltac:(by apply rtc_once)).
    destruct (lower_fields t node (ix t child)) as (Ei' & _ & Es & Ef & _).
    eapply inv_step; [exact Il|exact Hat|]. right. rewrite Es. split; [done|].
    unfold ix at 2. rewrite Ei'. fold (ix t child).
    rewrite lw_lower, decide_True; [lia|done|]. apply (inv_low _ _ I), (inv_opened _ _ I). by left.
  - eapply inv_step; [exact I|exact Hat|]. left. apply (inv_below _ _ _ I); [by exists i|done].
Qed.

(** ** Finishing a node *)

(** The call above goes first, so its node has the largest index of those being worked on. *)
Lemma top_index t v position work x :
  inv t ((v, position) :: work) -> x ∈ work.*1 -> (ix t x < ix t v)%nat.
Proof.
  intros I Hx. pose proof (inv_work_sorted _ _ I) as Hs. apply StronglySorted_inv in Hs as [_ Hs].
  rewrite Forall_forall in Hs. by apply Hs.
Qed.

(** Every edge of a node whose call is at its end has been looked at. *)
Lemma looked_all t v position work x y :
  inv t ((v, position) :: work) -> neighbours adjacency v !! position = None ->
  looked t work x y -> looked t ((v, position) :: work) x y.
Proof.
  intros I Hend (Hx & He & Hp). split; [done|]. split; [done|]. intros q [[= -> ->]|Hq]%elem_of_cons; [|by apply Hp].
  apply edge_at in He as [j Hj]. exists j. split; [|done]. apply lookup_ge_None in Hend. apply lookup_lt_Some in Hj. lia.
Qed.

Lemma inv_finish t v position parent q rest :
  inv t ((v, position) :: (parent, q) :: rest) -> neighbours adjacency v !! position = None ->
  (lw t v < ix t v)%nat -> (lw t parent <= lw t v)%nat -> inv t ((parent, q) :: rest).
Proof.
  intros I Hend Hlt Hle.
  pose proof (fun x => top_index _ _ _ _ x I) as Htop.
  assert (forall x, x ∈ parent :: rest.*1 -> (ix t x <= ix t parent)%nat) as Hpar.
  { pose proof (inv_work_sorted _ _ I) as Hs. apply StronglySorted_inv in Hs as [Hs _].
    apply StronglySorted_inv in Hs as [_ Hs]. rewrite Forall_forall in Hs.
    intros x [->|Hx]%elem_of_cons; [done|]. apply Nat.lt_le_incl, Hs, Hx. }
  split; try apply I.
  - intros x Hx. apply (inv_work_stack _ _ I). by right.
  - pose proof (inv_work_sorted _ _ I) as Hs. by apply StronglySorted_inv in Hs as [? _].
  - intros w u Hw. apply (inv_desc _ _ I). by right.
  - intros x y Hl. apply (inv_edges _ _ I). by apply looked_all.
  - intros x Hx Hw. destruct (decide (x = v)) as [->|Hne].
    + split; [done|]. exists parent. split; [left|]. split; [apply Htop; left|]. split; [done|]. intros w' Hw' _. by apply Hpar.
    + destruct (inv_done _ _ I x Hx) as (Hl & w & H1 & H2 & H3 & H4).
      { rewrite fmap_cons. cbn [fst]. by apply not_elem_of_cons. }
      split; [done|]. apply elem_of_cons in H1 as [->|H1].
      * cbn [fst] in *. exists parent. assert (ix t parent < ix t v)%nat by (apply Htop; left).
        split; [left|]. split; [lia|]. split; [lia|]. intros w' Hw' _. by apply Hpar.
      * exists w. split; [done|]. split; [done|]. split; [done|]. intros w' Hw'. apply H4. by right.
Qed.

(** ** Popping a component *)

Lemma pop_spec node above below on component :
  node ∉ above -> pop node (above ++ node :: below) on component =
  (below, on ∖ list_to_set (above ++ [node]), component ++ above ++ [node]).
Proof.
  revert on component. induction above as [|x above IH]; intros on component Hn; cbn [pop app].
  - rewrite decide_True by done. f_equal. f_equal. cbn. by rewrite union_empty_r_L.
  - apply not_elem_of_cons in Hn as [Hx Hn]. rewrite decide_False by done. rewrite IH by done. f_equal; [f_equal|].
    + cbn. by rewrite difference_difference_l_L.
    + by rewrite <- app_assoc.
Qed.

(** Every stack node reaches a node being worked on that is no higher. *)
Lemma reaches_work t work x :
  inv t work -> x ∈ stack t -> exists w, w ∈ work.*1 /\ (ix t w <= ix t x)%nat /\ rtc edge x w.
Proof.
  intros I. remember (ix t x) as n eqn:En. revert x En. induction n as [n IH] using lt_wf_ind. intros x -> Hx.
  destruct (decide (x ∈ work.*1)) as [Hw|Hw]; [by exists x|].
  destruct (inv_done _ _ I x Hx Hw) as [Hlt _]. destruct (inv_low_reach _ _ I x Hx) as (u & Hu & Eu & Hr).
  destruct (IH (ix t u) ltac:(lia) u eq_refl Hu) as (w & ? & ? & ?).
  exists w. split; [done|]. split; [lia|]. by etrans.
Qed.

Section Pop.
Context (t : Tarjan) (v : str) (position : nat) (work : list (str * nat)) (above below : list str).
Hypothesis (I : inv t ((v, position) :: work)) (Hend : neighbours adjacency v !! position = None).
Hypothesis (Hroot : lw t v = ix t v) (Hstack : stack t = above ++ v :: below).

Let class := above ++ [v].
Let popped : Tarjan :=
  {| index := index t; low := low t; on_stack := on_stack t ∖ list_to_set class; stack := below;
     found := found t ++ [sort_strings class]; counter := counter t |}.

Lemma pop_stack x : x ∈ stack t <-> x ∈ class \/ x ∈ below.
Proof. rewrite Hstack. unfold class. rewrite !elem_of_app, elem_of_cons, list_elem_of_singleton. tauto. Qed.

Lemma pop_sorted : StronglySorted (fun x y => (ix t y < ix t x)%nat) (class ++ below).
Proof. unfold class. rewrite <- app_assoc. cbn. rewrite <- Hstack. apply (inv_sorted _ _ I). Qed.

Lemma class_index x : x ∈ class -> (ix t v <= ix t x)%nat.
Proof.
  pose proof pop_sorted as Hs. apply StronglySorted_app_1_l in Hs. unfold class in *.
  rewrite elem_of_app, list_elem_of_singleton. intros [Hx| ->]; [|done].
  apply Nat.lt_le_incl, (StronglySorted_app_1_elem_of _ _ _ x v Hs Hx). by apply list_elem_of_singleton.
Qed.

Lemma v_class : v ∈ class.
Proof. unfold class. rewrite elem_of_app. right. by apply list_elem_of_singleton. Qed.

Lemma below_index x : x ∈ below -> (ix t x < ix t v)%nat.
Proof. intros Hx. exact (StronglySorted_app_1_elem_of _ _ _ v x pop_sorted v_class Hx). Qed.

Lemma v_stack : v ∈ stack t.
Proof. apply pop_stack. left. apply v_class. Qed.

Lemma class_iff x : x ∈ stack t -> x ∈ class <-> (ix t v <= ix t x)%nat.
Proof.
  intros Hx. split; [apply class_index|]. intros Hle. apply pop_stack in Hx as [?|Hx]; [done|]. apply below_index in Hx. lia.
Qed.

Lemma class_mutual x : x ∈ class -> mutual v x.
Proof.
  intros Hx. pose proof Hx as Hle. apply class_index in Hle.
  assert (x ∈ stack t) as Hs by (apply pop_stack; by left).
  split; [apply (inv_desc _ _ I); [left|done|done]|].
  destruct (reaches_work _ _ x I Hs) as (w & Hw & _ & Hr). etrans; [exact Hr|].
  apply elem_of_cons in Hw as [->|Hw]; [apply rtc_refl|].
  apply (inv_desc _ _ I); [by right|apply v_stack|]. apply Nat.lt_le_incl, (top_index _ _ _ _ _ I Hw).
Qed.

(** The class leads to itself and to the components that are there. *)
Lemma class_closed x y : x ∈ class -> edge x y -> y ∈ class \/ settled t y.
Proof.
  intros Hx He. assert (x ∈ stack t) as Hs by (apply pop_stack; by left). pose proof (class_index x Hx) as Hle.
  assert (x <> v -> x ∉ work.*1) as Hnw.
  { intros Hne Hw. pose proof (top_index _ _ _ _ _ I Hw). lia. }
  assert (looked t ((v, position) :: work) x y) as Hl.
  { apply looked_all; [done|done|]. split; [done|]. split; [done|]. intros q Hq.
    apply (list_elem_of_fmap_2 fst) in Hq. cbn in Hq. destruct (decide (x = v)) as [->|Hne]; [|by destruct (Hnw Hne)].
    pose proof (top_index _ _ _ _ _ I Hq). lia. }
  destruct (inv_edges _ _ I x y Hl) as [?|[Hy Hly]]; [by right|left]. apply class_iff; [done|].
  destruct (decide (x = v)) as [->|Hne]; [lia|].
  destruct (inv_done _ _ I x Hs) as (_ & w & Hw1 & Hw2 & Hw3 & Hw4).
  { rewrite fmap_cons. apply not_elem_of_cons. split; [done|auto]. }
  assert (ix t v < ix t x)%nat as Hlt.
  { assert (ix t v <> ix t x); [|lia]. intros E. apply Hne. by apply (inv_inj _ _ _ _ I Hs v_stack). }
  assert (w = v) as ->; [|lia]. specialize (Hw4 v ltac:(left) Hlt). apply elem_of_cons in Hw1 as [->|Hw1]; [done|].
  pose proof (top_index _ _ _ _ _ I Hw1). lia.
Qed.

Lemma class_exact x y : x ∈ class -> y ∈ class <-> mutual x y.
Proof.
  intros Hx. split; [intros Hy; eapply mutual_trans; [apply mutual_sym|]; by apply class_mutual|].
  intros Hm. assert (mutual v y) as [Hvy Hyv] by (eapply mutual_trans; [by apply class_mutual|done]).
  assert (forall a b, rtc edge a b -> a ∈ class \/ settled t a -> b ∈ class \/ settled t b) as Hc.
  { intros a b. induction 1 as [|a b c He _ IH]; [done|]. intros [Ha|Ha]; apply IH.
    - by apply (class_closed a).
    - right. by apply (inv_settled _ _ _ _ I Ha). }
  destruct (Hc v y Hvy (or_introl v_class)) as [?|Hy]; [done|]. exfalso.
  apply (stack_not_settled _ _ v I v_stack). by apply (inv_settled_rtc _ _ _ _ I Hyv).
Qed.

Lemma popped_settled x : settled popped x <-> settled t x \/ x ∈ class.
Proof.
  unfold settled, popped. cbn. rewrite concat_app, elem_of_app. cbn. by rewrite app_nil_r, sort_strings_elem.
Qed.

Lemma work_below x : x ∈ work.*1 -> x ∈ below.
Proof.
  intros Hx. assert (x ∈ stack t) as Hs by (apply (inv_work_stack _ _ I); by right).
  pose proof (top_index _ _ _ _ _ I Hx). apply pop_stack in Hs as [Hs%class_index|?]; [lia|done].
Qed.

Lemma inv_popped : inv popped work.
Proof.
  assert (forall x, x ∈ below -> x ∈ stack t) as Hbs by (intros x ?; apply pop_stack; by right).
  assert (forall x, x ∈ below -> x ∉ class) as Hbc.
  { intros x Hx Hc%class_index. apply below_index in Hx. lia. }
  split; try apply I.
  - intros x. rewrite popped_settled. change (opened popped x) with (opened t x). rewrite (inv_opened _ _ I), pop_stack. cbn. tauto.
  - intros x Hx. apply (inv_count _ _ I), Hbs, Hx.
  - intros x. cbn. rewrite elem_of_difference, elem_of_list_to_set, (inv_set _ _ I), pop_stack. split; [tauto|].
    intros Hx. split; [by right|by apply Hbc].
  - apply (StronglySorted_app_1_r _ class), pop_sorted.
  - cbn. rewrite concat_app. cbn. rewrite app_nil_r. eapply NoDup_Permutation_proper; [|apply (inv_disjoint _ _ I)].
    rewrite sort_strings_perm, Hstack. unfold class. solve_Permutation.
  - apply work_below.
  - pose proof (inv_work_sorted _ _ I) as Hs. by apply StronglySorted_inv in Hs as [? _].
  - intros w u Hw Hu. apply (inv_desc _ _ I); [by right|auto].
  - intros x y (Hx & He & Hp). rewrite popped_settled.
    destruct (inv_edges _ _ I x y) as [?|[Hy ?]].
    + apply looked_all; [done..|]. split; [auto|done].
    + by left; left.
    + apply pop_stack in Hy as [?|?]; [by left; right|by right].
  - intros x Hx. apply (inv_low_le _ _ I x), Hbs, Hx.
  - intros x Hx. destruct (inv_low_reach _ _ I x) as (u & Hu & Eu & Hr); [auto|]. exists u. split; [|done].
    pose proof (inv_low_le _ _ I x (Hbs x Hx)). pose proof (below_index x Hx).
    apply pop_stack in Hu as [Hu%class_index|?]; [lia|done].
  - intros x Hx Hw. pose proof (below_index x Hx) as Hlt.
    destruct (inv_done _ _ I x) as (Hl & w & H1 & H2 & H3 & H4); [auto| |].
    { rewrite fmap_cons. apply not_elem_of_cons. cbn. split; [intros ->; lia|done]. }
    split; [done|]. exists w. apply elem_of_cons in H1 as [->|H1]; [cbn in *; unfold ix in *; cbn in *; lia|].
    split; [done|]. split; [done|]. split; [done|]. intros w' ?. apply H4. by right.
  - intros before c after x y Hf Hx He. cbn in Hf. destruct after as [|c' after _] using rev_ind.
    + apply app_inj_tail in Hf as [<- <-]. rewrite sort_strings_elem in Hx.
      change (settled popped y). apply popped_settled. destruct (class_closed x y Hx He); [by right|by left].
    + rewrite app_comm_cons, app_assoc in Hf. apply app_inj_tail in Hf as [Hf _]. by apply (inv_found _ _ I _ _ _ x y Hf).
  - intros c x y Hc Hx. cbn in Hc. apply elem_of_app in Hc as [Hc|Hc%list_elem_of_singleton].
    + by apply (inv_classes _ _ I).
    + subst c. rewrite sort_strings_elem in Hx |- *. by apply class_exact.
  - cbn. apply Forall_app. split; [apply I|]. constructor; [apply sort_strings_sorted|constructor].
Qed.

Lemma close_pops : close t v = Some popped.
Proof.
  assert (opened t v) as [i Hi] by (apply (inv_opened _ _ I); left; apply v_stack).
  destruct (inv_low _ _ I v) as [l Hl]; [by exists i|]. unfold close. rewrite Hl, Hi. cbn [mbind option_bind].
  rewrite decide_False; [|intros Hn; apply Hn].
  - rewrite Hstack, pop_spec; [done|]. pose proof (inv_disjoint _ _ I) as Hn. rewrite Hstack, <- app_assoc in Hn.
    apply NoDup_app in Hn as (_ & Hn & _). intros Ha. apply (Hn v Ha). left.
  - unfold lw, ix in Hroot. by rewrite !lookup_total_alt, Hl, Hi in Hroot.
Qed.
End Pop.

(** ** The loop *)

Lemma low_total t work x : inv t work -> x ∈ stack t -> low t !! x = Some (lw t x).
Proof.
  intros I Hx. destruct (inv_low _ _ I x) as [l Hl]; [apply (inv_opened _ _ I); by left|].
  unfold lw. by rewrite lookup_total_alt, Hl.
Qed.

Lemma index_total t work x : inv t work -> x ∈ stack t -> index t !! x = Some (ix t x).
Proof.
  intros I Hx. assert (opened t x) as [i Hi] by (apply (inv_opened _ _ I); by left).
  unfold ix. by rewrite lookup_total_alt, Hi.
Qed.

Lemma inv_close t v position work :
  inv t ((v, position) :: work) -> neighbours adjacency v !! position = None ->
  exists t' work', (t'' ← close t v;
    match work with
    | (parent, _) :: _ => l ← low t'' !! v; Some (lower t'' parent l, work)
    | [] => Some (t'', work)
    end) = Some (t', work') /\ work' = work /\ index t' = index t /\ inv t' work.
Proof.
  intros I Hend. assert (v ∈ stack t) as Hv by (apply (inv_work_stack _ _ I); left).
  pose proof (low_total _ _ _ I Hv) as El. pose proof (index_total _ _ _ I Hv) as Ei.
  destruct (decide (lw t v = ix t v)) as [Hroot|Hkeep].
  - apply list_elem_of_split in Hv as (above & below & Hstack).
    erewrite close_pops by done. cbn [mbind option_bind low]. rewrite El. cbn [mbind option_bind].
    pose proof (inv_popped _ _ _ _ _ _ I Hend Hroot Hstack) as Ip.
    destruct work as [|[parent q] rest]; [by do 2 eexists|].
    do 2 eexists. split; [done|]. split; [done|]. split; [exact (proj1 (lower_fields _ _ _))|].
    assert (parent ∈ below) as Hp by (apply (inv_work_stack _ _ Ip); left).
    pose proof (low_total _ _ parent Ip Hp) as Elp. unfold lower. rewrite Elp. cbn. rewrite Nat.min_l; [by rewrite insert_id|].
    pose proof (inv_low_le _ _ Ip parent Hp). pose proof (top_index _ _ _ _ parent I ltac:(left)). unfold ix, lw in *. cbn in *. lia.
  - unfold close. rewrite El, Ei. cbn [mbind option_bind]. rewrite decide_True by done. cbn [mbind option_bind].
    pose proof (inv_low_le _ _ I v Hv). destruct (inv_low_reach _ _ I v Hv) as (u & Hu & Eu & Hr).
    destruct work as [|[parent q] rest].
    { exfalso. destruct (reaches_work _ _ u I Hu) as (w & Hw%list_elem_of_singleton & Hwu & _). cbn in Hw. subst w. lia. }
    rewrite El. cbn [mbind option_bind]. do 2 eexists. split; [done|]. split; [done|]. split; [exact (proj1 (lower_fields _ _ _))|].
    rewrite <- Eu. assert (parent ∈ ((v, position) :: (parent, q) :: rest).*1) as Hp by (right; left).
    assert (ix t parent < ix t v)%nat as Hpv by (apply (top_index _ _ _ _ _ I); left).
    assert (rtc edge parent u) as Hpu by (etrans; [apply (inv_desc _ _ I parent v Hp Hv); lia|done]).
    pose proof (inv_lower _ _ parent u I Hp Hu Hpu) as Il. eapply inv_finish; [exact Il|exact Hend|..].
    + rewrite lw_lower by (eapply inv_low; [exact I|]; apply (inv_opened _ _ I); left; by apply (inv_work_stack _ _ I)).
      rewrite decide_False by (intros ->; lia). unfold ix at 1. destruct (lower_fields t parent (ix t u)) as (-> & _).
      fold (ix t v). lia.
    + rewrite !lw_lower by (eapply inv_low; [exact I|]; apply (inv_opened _ _ I); left; by apply (inv_work_stack _ _ I)).
      rewrite decide_True by done. rewrite decide_False by (intros ->; lia). lia.
Qed.

(** ** The end of the loop *)

(** The edges that are left to look at: those of the nodes that are not opened, and those ahead
    of the calls. *)
Definition ahead (opened : gmap str nat) work : nat :=
  sum_list_with (fun entry => if decide (is_Some (opened !! entry.1)) then O else length entry.2)
    (map_to_list adjacency) +
  sum_list_with (fun call => if decide (is_Some (opened !! call.1)) then length (neighbours adjacency call.1) - call.2 else O)
    work.

Definition rounds t work : nat := 2 * ahead (index t) work + length work.

Lemma ahead_bound opened : (ahead opened [] <= edge_count adjacency)%nat.
Proof. unfold ahead. cbn. rewrite Nat.add_0_r. apply sum_with_le. intros entry _. case_decide; lia. Qed.

(** Opening a node moves its edges from the first sum to the second. *)
Lemma ahead_open opened node i rest :
  opened !! node = None -> (forall x, x ∈ rest.*1 -> is_Some (opened !! x)) ->
  ahead (<[node := i]> opened) ((node, O) :: rest) = ahead opened ((node, O) :: rest).
Proof.
  intros Hnew Hrest. unfold ahead. cbn [sum_list_with fst snd].
  rewrite (decide_True (P := is_Some (<[node := i]> opened !! node))) by (rewrite lookup_insert_eq; eauto).
  rewrite (decide_False (P := is_Some (opened !! node))) by (rewrite Hnew; by intros [? ?]).
  rewrite (sum_with_ext (fun call => if decide (is_Some (<[node := i]> opened !! call.1)) then _ else _)
             (fun call => if decide (is_Some (opened !! call.1)) then length (neighbours adjacency call.1) - call.2 else O) rest).
  2:{ intros call Hc. apply (list_elem_of_fmap_2 fst) in Hc. pose proof (Hrest _ Hc) as Ho.
      rewrite !decide_True; [done|done|]. rewrite lookup_insert_is_Some. destruct (decide (node = call.1)); auto. }
  assert (forall entries : list (str * list str), NoDup entries.*1 ->
    sum_list_with (fun entry => if decide (is_Some (opened !! entry.1)) then O else length entry.2) entries =
    sum_list_with (fun entry => if decide (is_Some (<[node := i]> opened !! entry.1)) then O else length entry.2) entries +
    length (default [] (list_to_map (M := gmap str (list str)) entries !! node)))%nat as Hsum.
  { induction entries as [|[k l] entries IH]; intros Hn; [done|]. apply NoDup_cons in Hn as [Hk Hn].
    cbn [sum_list_with fst snd]. rewrite IH, list_to_map_cons by done. destruct (decide (k = node)) as [->|Hne].
    - rewrite !lookup_insert_eq. rewrite (decide_False (P := is_Some (opened !! node))) by (rewrite Hnew; by intros [? ?]).
      rewrite decide_True by eauto. rewrite (not_elem_of_list_to_map_1 entries node) by done. cbn. lia.
    - rewrite !lookup_insert_ne by done. case_decide; lia. }
  rewrite (Hsum (map_to_list adjacency)) by apply NoDup_fst_map_to_list. rewrite list_to_map_to_list.
  unfold neighbours. lia.
Qed.

Lemma round_opened t node position work :
  inv t ((node, position) :: work) -> Forall begun work ->
  exists t' work',
    match neighbours adjacency node !! position with
    | Some child => Some (advance t node child ((node, S position) :: work))
    | None =>
        t'' ← close t node;
        match work with
        | (parent, _) :: _ => l ← low t'' !! node; Some (lower t'' parent l, work)
        | [] => Some (t'', work)
        end
    end = Some (t', work') /\ loop_inv t' work' /\ index t' = index t /\
    (rounds t' work' < rounds t ((node, position) :: work))%nat.
Proof.
  intros I Hb. assert (is_Some (index t !! node)) as Ho.
  { apply (inv_opened _ _ I). left. apply (inv_work_stack _ _ I). left. }
  destruct (neighbours adjacency node !! position) as [child|] eqn:Hat.
  - pose proof (inv_advance _ _ _ _ _ I Hb Hat) as Hi. pose proof (lookup_lt_Some _ _ _ Hat) as Hlt.
    assert (let '(t', work') := advance t node child ((node, S position) :: work) in
      index t' = index t /\ (work' = (node, S position) :: work \/
        (index t !! child = None /\ work' = (child, O) :: (node, S position) :: work))) as Hw.
    { unfold advance. destruct (index t !! child) as [i|] eqn:Ec; [|split; [done|by right]].
      case_decide; (split; [|by left]); [apply lower_fields|done]. }
    destruct (advance t node child ((node, S position) :: work)) as [t' work']. do 2 eexists. split; [done|].
    destruct Hw as [Ei Hw]. split; [done|]. split; [done|]. unfold rounds, ahead. rewrite Ei.
    destruct Hw as [->|[Hc ->]]; cbn [sum_list_with fst snd length].
    + rewrite !(decide_True (P := is_Some (index t !! node))) by done. lia.
    + rewrite (decide_False (P := is_Some (index t !! child))) by (rewrite Hc; by intros [? ?]).
      rewrite !(decide_True (P := is_Some (index t !! node))) by done. lia.
  - destruct (inv_close _ _ _ _ I Hat) as (t' & work' & -> & -> & Ei & I'). do 2 eexists. split; [done|].
    split; [by right|]. split; [done|]. unfold rounds, ahead. rewrite Ei. cbn [sum_list_with fst snd length]. lia.
Qed.

Lemma round_spec t node position work :
  loop_inv t ((node, position) :: work) ->
  exists t' work', round adjacency t node position work = Some (t', work') /\ loop_inv t' work' /\
    (rounds t' work' < rounds t ((node, position) :: work))%nat /\
    (forall x, x = node \/ x ∈ work.*1 \/ opened t x -> opened t' x).
Proof.
  assert (forall t t' work0, inv t ((node, position) :: work0) -> index t' = index t ->
    forall x, x = node \/ x ∈ work0.*1 \/ opened t x -> opened t' x) as Hop.
  { intros t0 t' work0 I E x Hx. unfold opened. rewrite E. apply (inv_opened _ _ I).
    destruct Hx as [->|[Hx|Hx]]; [left; apply (inv_work_stack _ _ I); left|left; apply (inv_work_stack _ _ I); by right|].
    by apply (inv_opened _ _ I). }
  intros [(node' & rest & [= -> -> ->] & Hf & Hb)|[I Hb]]; unfold round.
  - rewrite decide_True by done. destruct (round_opened _ _ _ _ (inv_open _ _ _ Hf) Hb) as (t' & work' & -> & Hi & Ei & Hlt).
    do 2 eexists. split; [done|]. split; [done|]. split.
    + eapply Nat.lt_le_trans; [exact Hlt|]. unfold rounds. cbn [index open length].
      destruct (looked_open _ _ _ Hf) as (base & I & Hfst & _). rewrite ahead_open; [done|apply Hf|].
      intros x Hx. rewrite <- Hfst in Hx. apply (inv_opened _ _ I). left. by apply (inv_work_stack _ _ I).
    + intros x Hx. eapply (Hop (open t node')); [by apply inv_open|done|].
      destruct Hx as [->|[?|?]]; [by left|by right; left|right; right; apply opened_open; by right].
  - apply Forall_cons in Hb as [Hb0 Hb]. rewrite decide_False by done.
    destruct (round_opened _ _ _ _ I Hb) as (t' & work' & -> & Hi & Ei & Hlt).
    do 2 eexists. split; [done|]. split; [done|]. split; [done|]. by apply (Hop t).
Qed.

Lemma walk_spec fuel t work :
  loop_inv t work -> (rounds t work <= fuel)%nat ->
  exists t', walk adjacency fuel t work = Some t' /\ inv t' [] /\
    forall x, x ∈ work.*1 \/ opened t x -> opened t' x.
Proof.
  revert t work. induction fuel as [|fuel IH]; intros t [|[node position] work] Hi Hr; cbn [walk].
  1,3: destruct Hi as [(? & ? & [=] & _)|[I _]]; exists t; split; [done|]; split; [done|]; by intros x [?%elem_of_nil|?].
  - unfold rounds in Hr. cbn in Hr. lia.
  - destruct (round_spec _ _ _ _ Hi) as (t1 & work1 & -> & Hi1 & Hlt & Ho). cbn [mbind option_bind].
    destruct (IH t1 work1 Hi1 ltac:(lia)) as (t' & -> & I' & Ho'). exists t'. split; [done|]. split; [done|].
    intros x Hx. apply Ho'. right. apply Ho. destruct Hx as [Hx|Hx]; [|by right; right].
    apply elem_of_cons in Hx as [->|Hx]; [by left|by right; left].
Qed.

Lemma walk_all_spec nodes t :
  (forall x, x ∈ nodes -> origin x) -> inv t [] ->
  exists t', walk_all adjacency nodes t = Some t' /\ inv t' [] /\ forall x, x ∈ nodes \/ opened t x -> opened t' x.
Proof.
  revert t. induction nodes as [|start nodes IH]; intros t Hor I; cbn [walk_all].
  { exists t. split; [done|]. split; [done|]. by intros x [?%elem_of_nil|?]. }
  assert (exists t1, (if decide (is_Some (index t !! start)) then Some t else walk adjacency (walk_fuel adjacency) t [(start, O)])
    = Some t1 /\ inv t1 [] /\ forall x, x = start \/ opened t x -> opened t1 x) as (t1 & -> & I1 & Ho1).
  { case_decide as Hs; [exists t; split; [done|]; split; [done|]; by intros x [->|?]|].
    destruct (walk_spec (walk_fuel adjacency) t [(start, O)]) as (t' & -> & I' & Ho).
    - left. exists start, []. split; [done|]. split; [|constructor]. split; [by apply eq_None_not_Some|].
      split; [apply Hor; left|by left].
    - unfold rounds, walk_fuel. pose proof (ahead_bound (index t)). unfold ahead in *. cbn [sum_list_with fst snd length] in *.
      rewrite decide_False by done. lia.
    - exists t'. split; [done|]. split; [done|]. intros x [->|Hx]; apply Ho; [left; left|by right]. }
  cbn [mbind option_bind]. destruct (IH t1) as (t' & -> & I' & Ho'); [intros x ?; apply Hor; by right|done|].
  exists t'. split; [done|]. split; [done|]. intros x [[->|?]%elem_of_cons|?]; apply Ho'; auto.
Qed.

Lemma inv_unwalked : inv unwalked [].
Proof.
  clear origin_step.
  split; unfold settled, opened, looked; cbn; try constructor; intros; repeat match goal with
    | H : _ ∈ [] |- _ => by apply elem_of_nil in H
    | H : _ /\ _ |- _ => destruct H
    | H : is_Some _ |- _ => by destruct H
    | H : _ \/ _ |- _ => destruct H
    | H : [] = _ ++ _ :: _ |- _ => by apply app_cons_not_nil in H
    end; set_solver.
Qed.

(** Between two walks the stack is empty. *)
Lemma inv_end t x : inv t [] -> x ∉ stack t.
Proof. intros I Hx. destruct (inv_done _ _ I x Hx) as (_ & w & Hw & _); [apply not_elem_of_nil|by apply elem_of_nil in Hw]. Qed.
End Components.

(** * What the components are *)

(** The state at the end of the walks. *)
Lemma components_walked nodes adjacency :
  let origin x := exists start, start ∈ nodes /\ rtc (edge adjacency) start x in
  exists t, walk_all adjacency nodes unwalked = Some t /\ inv adjacency origin t [] /\ forall x, x ∈ nodes -> settled t x.
Proof.
  intros origin.
  assert (forall x y, origin x -> edge adjacency x y -> origin y) as Hstep.
  { intros x y (start & ? & ?) ?. exists start. split; [done|]. by eapply rtc_r. }
  destruct (walk_all_spec adjacency origin Hstep nodes unwalked) as (t & Ht & I & Ho).
  { intros x Hx. exists x. split; [done|apply rtc_refl]. }
  { apply inv_unwalked. }
  exists t. split; [done|]. split; [done|]. intros x Hx.
  apply (inv_below _ _ _ _ _ I). { apply Ho. by left. } by apply (inv_end _ _ _ _ I).
Qed.

Lemma components_partition nodes adjacency :
  exists found, components nodes adjacency = Some found /\
    NoDup (concat found) /\ Forall sorted_strings found /\
    (forall x, x ∈ concat found <-> exists start, start ∈ nodes /\ rtc (edge adjacency) start x) /\
    (forall component x y, component ∈ found -> x ∈ component -> (y ∈ component <-> mutual adjacency x y)).
Proof.
  destruct (components_walked nodes adjacency) as (t & Ht & I & Hs). exists (found t). unfold components. rewrite Ht. split; [done|].
  split; [by destruct (proj1 (NoDup_app _ _) (inv_disjoint _ _ _ _ I)) as (_ & _ & ?)|]. split; [apply I|]. split; [|apply I].
  intros x. split.
  - intros Hx. apply (inv_origin _ _ _ _ I), (inv_opened _ _ _ _ I). by right.
  - intros (start & Hn & Hr). by apply (inv_settled_rtc _ _ _ _ _ _ I Hr), Hs.
Qed.

(** C34: The search for components ends.  What it finds is sorted and holds each node that the given
    ones lead to exactly once; two nodes share a component exactly when each leads to the other;
    and an edge out of a component leads to an earlier one. *)
Theorem components_correct nodes adjacency :
  exists found, components nodes adjacency = Some found /\
    NoDup (concat found) /\ Forall sorted_strings found /\
    (forall x, x ∈ concat found <-> exists start, start ∈ nodes /\ rtc (edge adjacency) start x) /\
    (forall component x y, component ∈ found -> x ∈ component -> (y ∈ component <-> mutual adjacency x y)) /\
    (forall before component after x y, found = before ++ component :: after -> x ∈ component ->
       edge adjacency x y -> y ∈ concat (before ++ [component])).
Proof.
  destruct (components_partition nodes adjacency) as (found & Hf & Hn & Hs & Hr & Hc). exists found.
  split; [done|]. split; [done|]. split; [done|]. split; [done|]. split; [done|].
  destruct (components_walked nodes adjacency) as (t & Ht & I & _). unfold components in Hf. rewrite Ht in Hf.
  injection Hf as <-. apply I.
Qed.
