(* ===== verification/Symbols.v ===== *)
(** The symbol graph and its queries: crates/graph/src/symbols.rs and ambiguous.rs.

    Strings are byte strings here.  An edge's ends are [Endpoint]s; an ambiguous reference stands
    for an edge to every candidate definition of its name, and is expanded on demand.  What the
    resolver finds is the input ([Parts], [link]).  [graph_queries] shows that the binary searches
    are filters of the edges, and [ambiguous_degrees_exact] that the degrees count the edges
    without building them. *)

From S2P Require Import Prelude RustStr Ordered.

(** * Data *)

Inductive Relation := Imports | Inherits | References.

#[export] Instance Relation_eq_dec : EqDecision Relation.
Proof. solve_decision. Defined.

(** The place of a constructor, by which the derived order compares. *)
Definition relation_index (r : Relation) : nat := match r with Imports => 0 | Inherits => 1 | References => 2 end.

Definition RELATION_VALUES : list str := [lit "imports"; lit "inherits"; lit "references"].

Definition as_str (r : Relation) : str := nth (relation_index r) RELATION_VALUES [].

(** The tiers of resolver.rs, strongest first. *)
Inductive Tier := SameFile | Imported | Unique | Ambiguous.

#[export] Instance Tier_eq_dec : EqDecision Tier.
Proof. solve_decision. Defined.

Definition tier_index (t : Tier) : nat := match t with SameFile => 0 | Imported => 1 | Unique => 2 | Ambiguous => 3 end.

Record Endpoint := { node : str; path : str; line : Z; label : str; is_symbol : bool }.

#[export] Instance Endpoint_eq_dec : EqDecision Endpoint.
Proof. solve_decision. Defined.

Record SymbolEdge := { source : Endpoint; target : Endpoint; name : str; relation : Relation; tier : Tier }.

#[export] Instance SymbolEdge_eq_dec : EqDecision SymbolEdge.
Proof. solve_decision. Defined.

(** An edge from a node to itself says nothing about how two things relate. *)
Definition new (source target : Endpoint) (name : str) (relation : Relation) (tier : Tier) : option SymbolEdge :=
  if decide (node source <> node target)
  then Some {| source := source; target := target; name := name; relation := relation; tier := tier |}
  else None.

Record AmbiguousReference := { ref_source : Endpoint; ref_name : str; ref_relation : Relation }.

#[export] Instance AmbiguousReference_eq_dec : EqDecision AmbiguousReference.
Proof. solve_decision. Defined.

(** ** The orders *)

Definition rest_key (e : Endpoint) : list (list Z) := [path e; label e; [Z.b2z (is_symbol e)]].

Definition sort_key (e : SymbolEdge) : list (list Z) :=
  [node (source e); node (target e); [Z.of_nat (relation_index (relation e))]; [Z.of_nat (tier_index (tier e))];
   name e; [line (source e)]; [line (target e)]].

Definition cmp_sort_key (a b : SymbolEdge) : bool := keys_le (sort_key a) (sort_key b).

Definition total_key (e : SymbolEdge) : list (list Z) := sort_key e ++ rest_key (source e) ++ rest_key (target e).

Definition cmp_total (a b : SymbolEdge) : bool := keys_le (total_key a) (total_key b).

Definition ref_sort_key (r : AmbiguousReference) : list (list Z) :=
  [node (ref_source r); [Z.of_nat (relation_index (ref_relation r))]; ref_name r; [line (ref_source r)]].

Definition ref_total_key (r : AmbiguousReference) : list (list Z) := ref_sort_key r ++ rest_key (ref_source r).

Definition ref_cmp_total (a b : AmbiguousReference) : bool := keys_le (ref_total_key a) (ref_total_key b).

(** * The graph *)

(** What a resolver says of a name: its tier and the endpoints of its candidates. *)
Record Resolution := { res_tier : Tier; res_candidates : list Endpoint }.

Record Parts := {
  part_edges : list SymbolEdge;
  part_ambiguous : list AmbiguousReference;
  part_candidates : list (str * list Endpoint);
  part_names : gmap str nat
}.

(** The graph without the definitions and the counts of unresolved imports. *)
Record SymbolGraph := {
  edges : list SymbolEdge;
  by_target : list nat;
  files : list str;
  ambiguous : list AmbiguousReference;
  candidates : list (str * list Endpoint);
  candidate_names : gmap str nat;
  by_name : gmap str (list nat);
  candidates_at : gmap str (list (str * Endpoint))
}.

Definition no_parts : Parts := {| part_edges := []; part_ambiguous := []; part_candidates := []; part_names := ∅ |}.

Definition distinct_endpoints (resolution : Resolution) : list Endpoint :=
  foldl (fun endpoints e => if decide (e ∈ endpoints) then endpoints else endpoints ++ [e]) [] (res_candidates resolution).

Definition link (p : Parts) (source : Endpoint) (name : str) (resolution : Resolution) (relation : Relation) : Parts :=
  if decide (res_tier resolution <> Ambiguous) then
    {| part_edges := part_edges p ++ omap (fun target => new source target name relation (res_tier resolution)) (res_candidates resolution);
       part_ambiguous := part_ambiguous p; part_candidates := part_candidates p; part_names := part_names p |}
  else
    let known := bool_decide (is_Some (part_names p !! name)) in
    {| part_edges := part_edges p;
       part_ambiguous := part_ambiguous p ++ [{| ref_source := source; ref_name := name; ref_relation := relation |}];
       part_candidates :=
         if known then part_candidates p else part_candidates p ++ [(name, distinct_endpoints resolution)];
       part_names := if known then part_names p else <[name := length (part_candidates p)]> (part_names p) |}.

(** A whole file at a line. *)
Definition file_endpoint (path : str) (line : Z) : Endpoint :=
  {| node := path; path := path; line := line; label := path; is_symbol := false |}.

(** The edge of one resolved import: a module name, its line, and the file it names. *)
Definition import_edge (p : Parts) (source : str) (resolved : str * Z * str) : Parts :=
  let '(module_, line, target) := resolved in
  {| part_edges := part_edges p ++ option_list (new (file_endpoint source line) (file_endpoint target 0) module_ Imports Imported);
     part_ambiguous := part_ambiguous p; part_candidates := part_candidates p; part_names := part_names p |}.

Definition index_by_name (refs : list AmbiguousReference) : gmap str (list nat) :=
  group_entries (imap (fun at_ r => (ref_name r, at_)) refs).

Definition index_candidates (candidates : list (str * list Endpoint)) : gmap str (list (str * Endpoint)) :=
  group_entries (flat_map (fun '(name, targets) => map (fun target => (node target, (name, target))) targets) candidates).

#[export] Instance Endpoint_inhabited : Inhabited Endpoint := populate {| node := []; path := []; line := 0; label := []; is_symbol := false |}.
#[export] Instance SymbolEdge_inhabited : Inhabited SymbolEdge :=
  populate {| source := inhabitant; target := inhabitant; name := []; relation := Imports; tier := Imported |}.

(** The index of the edges by target; its positions are in range. *)
Definition target_index (edges : list SymbolEdge) : list nat :=
  sort_by (fun i j => bytes_le (node (target (edges !!! i))) (node (target (edges !!! j)))) (seq 0 (length edges)).

Definition finish (p : Parts) (paths : list str) : SymbolGraph :=
  let edges := dedup (sort_by cmp_total (part_edges p)) in
  let ambiguous := dedup (sort_by ref_cmp_total (part_ambiguous p)) in
  {| edges := edges; by_target := target_index edges; files := sort_strings paths; ambiguous := ambiguous;
     candidates := part_candidates p; candidate_names := part_names p;
     by_name := index_by_name ambiguous; candidates_at := index_candidates (part_candidates p) |}.

(** ** Queries *)

Definition outgoing (g : SymbolGraph) (n : str) : list SymbolEdge := key_slice (fun e => node (source e)) n (edges g).

Definition incoming (g : SymbolGraph) (n : str) : list SymbolEdge :=
  map (fun i => edges g !!! i) (key_slice (fun i => node (target (edges g !!! i))) n (by_target g)).

Definition import_edges (g : SymbolGraph) : list SymbolEdge :=
  List.filter (fun e => bool_decide (relation e = Imports)) (edges g).

(** [binary_search] of a sorted list. *)
Definition has_file (g : SymbolGraph) (p : str) : bool := bool_decide (p ∈ files g).

(** * The ambiguous edges *)

Definition references_from (g : SymbolGraph) (n : str) : list AmbiguousReference :=
  key_slice (fun r => node (ref_source r)) n (ambiguous g).

Definition candidates_at_node (g : SymbolGraph) (n : str) : list (str * Endpoint) := default [] (candidates_at g !! n).

(** The index is in range. *)
Definition candidates_of (g : SymbolGraph) (name : str) : list Endpoint :=
  match candidate_names g !! name with
  | Some i => (candidates g !!! i).2
  | None => []
  end.

#[export] Instance AmbiguousReference_inhabited : Inhabited AmbiguousReference :=
  populate {| ref_source := inhabitant; ref_name := []; ref_relation := Imports |}.

Definition references_named (g : SymbolGraph) (name : str) : list AmbiguousReference :=
  map (fun i => ambiguous g !!! i) (default [] (by_name g !! name)).

Definition ambiguous_edge (r : AmbiguousReference) (target : Endpoint) : option SymbolEdge :=
  new (ref_source r) target (ref_name r) (ref_relation r) Ambiguous.

Definition ambiguous_edges (g : SymbolGraph) (r : AmbiguousReference) : list SymbolEdge :=
  omap (ambiguous_edge r) (candidates_of g (ref_name r)).

Definition ambiguous_from (g : SymbolGraph) (n : str) : list SymbolEdge :=
  flat_map (ambiguous_edges g) (references_from g n).

Definition ambiguous_into (g : SymbolGraph) (n : str) : list SymbolEdge :=
  flat_map (fun '(name, target) => omap (fun r => ambiguous_edge r target) (references_named g name)) (candidates_at_node g n).

Definition tally (nodes : list str) : gmap str nat :=
  foldl (fun counts n => <[n := default O (counts !! n) + 1]> counts) ∅ nodes.

(** A zero count adds no entry. *)
Definition add (counts : gmap str nat) (n : str) (count : nat) : gmap str nat :=
  if (0 <? count)%nat then <[n := default O (counts !! n) + count]> counts else counts.

Record AmbiguousDegrees := { arriving : gmap str nat; leaving : gmap str nat }.

Definition arriving_at (d : AmbiguousDegrees) (n : str) : nat := default O (arriving d !! n).
Definition leaving_at (d : AmbiguousDegrees) (n : str) : nat := default O (leaving d !! n).

(** The degrees with those of the edges of one name. *)
Definition name_degrees (g : SymbolGraph) (degrees : AmbiguousDegrees) (name : str) : AmbiguousDegrees :=
  let targets := candidates_of g name in
  let at_node := tally (map node targets) in
  let references := references_named g name in
  let sources := tally (map (fun r => node (ref_source r)) references) in
  let width := length targets in
  let spelled := length references in
  {| leaving := foldl (fun counts r =>
       let n := node (ref_source r) in add counts n (width - default O (at_node !! n))) (leaving degrees) references;
     arriving := foldl (fun counts entry =>
       add counts entry.1 (entry.2 * (spelled - default O (sources !! entry.1)))) (arriving degrees) (btree_iter at_node) |}.

Definition ambiguous_degrees (g : SymbolGraph) : AmbiguousDegrees :=
  foldl (name_degrees g) {| arriving := ∅; leaving := ∅ |} (btree_iter (by_name g)).*1.

(** * The queries *)

Lemma Endpoint_key a b : node a = node b -> line a = line b -> rest_key a = rest_key b -> a = b.
Proof. destruct a, b. unfold rest_key. cbn. intros -> -> [= -> -> E]. by destruct is_symbol0, is_symbol1. Qed.

Lemma total_key_inj a b : total_key a = total_key b -> a = b.
Proof.
  unfold total_key, sort_key. cbn [app]. intros E. injection E as E1 E2 E3 E4 E5 E6 E7 E8 E9 E10 E11 E12 E13.
  assert (source a = source b) by (apply Endpoint_key; [done..|unfold rest_key; congruence]).
  assert (target a = target b) by (apply Endpoint_key; [done..|unfold rest_key; congruence]).
  destruct a as [? ? ? ra ta], b as [? ? ? rb tb]. cbn in *. subst. apply Nat2Z.inj in E3, E4. f_equal.
  - by destruct ra, rb.
  - by destruct ta, tb.
Qed.

Lemma ref_total_key_inj a b : ref_total_key a = ref_total_key b -> a = b.
Proof.
  unfold ref_total_key, ref_sort_key. cbn [app]. intros E. injection E as E1 E2 E3 E4 E5 E6 E7.
  assert (ref_source a = ref_source b) by (apply Endpoint_key; [done..|unfold rest_key; congruence]).
  destruct a as [? ? ra], b as [? ? rb]. cbn in *. subst. apply Nat2Z.inj in E2. f_equal. by destruct ra, rb.
Qed.

(** A list sorted by keys is sorted by their first fields. *)
Lemma sorted_first {A} (key : A -> list (list Z)) (first : A -> str) (l : list A) :
  (forall x, exists rest, key x = first x :: rest) ->
  StronglySorted (fun x y => keys_le (key x) (key y) = true) l ->
  StronglySorted (fun x y => bytes_le (first x) (first y) = true) l.
Proof.
  intros Hk. apply sorted_weaken. intros x y _ _. destruct (Hk x) as [rx ->], (Hk y) as [ry ->]. cbn.
  case_decide as E; [|done]. rewrite E. intros _. apply bytes_le_refl.
Qed.

Lemma filter_seq_lookup {A} `{Inhabited A} (p : A -> bool) (l : list A) :
  map (fun i => l !!! i) (List.filter (fun i => p (l !!! i)) (seq 0 (length l))) = List.filter p l.
Proof.
  induction l as [|x l IH]; [done|]. cbn [length seq List.filter]. rewrite <- seq_shift, filter_map_comm.
  change (p ((x :: l) !!! 0%nat)) with (p x). destruct (p x); cbn [map]; rewrite map_map; [f_equal|]; exact IH.
Qed.

Lemma finish_edges p paths :
  let l := edges (finish p paths) in
  StronglySorted (fun x y => cmp_total x y = true) l /\ NoDup l /\ forall e, e ∈ l <-> e ∈ part_edges p.
Proof. apply dedup_by_key, total_key_inj. Qed.

Lemma finish_ambiguous p paths :
  let l := ambiguous (finish p paths) in
  StronglySorted (fun x y => ref_cmp_total x y = true) l /\ NoDup l /\ forall r, r ∈ l <-> r ∈ part_ambiguous p.
Proof. apply dedup_by_key, ref_total_key_inj. Qed.

Lemma references_from_filter p paths n :
  let g := finish p paths in
  references_from g n = List.filter (fun r => bool_decide (node (ref_source r) = n)) (ambiguous g).
Proof.
  apply key_slice_filter. eapply (sorted_first ref_total_key); [|apply finish_ambiguous].
  intros r. by eexists.
Qed.

Lemma outgoing_filter p paths n :
  let g := finish p paths in outgoing g n = List.filter (fun e => bool_decide (node (source e) = n)) (edges g).
Proof.
  destruct (finish_edges p paths) as (Hs & _ & _). apply key_slice_filter. eapply (sorted_first total_key); [|exact Hs].
  intros e. by eexists.
Qed.

Lemma incoming_filter p paths n :
  let g := finish p paths in incoming g n = List.filter (fun e => bool_decide (node (target e) = n)) (edges g).
Proof.
  intros g. unfold incoming. change (by_target g) with (target_index (edges g)). unfold target_index. rewrite key_slice_filter.
  - rewrite sort_by_stable; [exact (filter_seq_lookup (fun e => bool_decide (node (target e) = n)) (edges g))|].
    intros i j Hi%bool_decide_eq_true Hj%bool_decide_eq_true. rewrite Hi, Hj. apply bytes_le_refl.
  - apply (sort_by_sorted (fun i j => bytes_le (node (target (edges g !!! i))) (node (target (edges g !!! j)))));
      intros *; [apply bytes_le_total|apply bytes_le_trans].
Qed.

(** The edges of a built graph are those of its parts, each once and in the total order; the
    binary searches answer the edges, in that order, that leave a node and that arrive at it. *)
Theorem graph_queries p paths n :
  let g := finish p paths in
  StronglySorted (fun x y => cmp_total x y = true) (edges g) /\ NoDup (edges g) /\ (forall e, e ∈ edges g <-> e ∈ part_edges p) /\
  outgoing g n = List.filter (fun e => bool_decide (node (source e) = n)) (edges g) /\
  incoming g n = List.filter (fun e => bool_decide (node (target e) = n)) (edges g).
Proof.
  intros g. destruct (finish_edges p paths) as (Hs & Hn & He).
  split; [done|]. split; [done|]. split; [done|]. split; [apply outgoing_filter|apply incoming_filter].
Qed.

(** * The ambiguous edges *)

(** The parts that links build: each name that is ambiguous has its candidates once. *)
Inductive linked : Parts -> Prop :=
| linked_none : linked no_parts
| linked_link p source name resolution relation :
    linked p -> relation <> Imports -> linked (link p source name resolution relation)
| linked_import p source resolved : linked p -> linked (import_edge p source resolved).

Record names_ok (p : Parts) : Prop := {
  names_NoDup : NoDup (part_candidates p).*1;
  names_at name i : part_names p !! name = Some i <-> exists targets, part_candidates p !! i = Some (name, targets);
  names_refs name : name ∈ (part_candidates p).*1 <-> name ∈ map ref_name (part_ambiguous p)
}.

Lemma linked_names p : linked p -> names_ok p.
Proof.
  induction 1 as [|p src nm resolution rel Hp [Hn Ha Hr] _|p src [[nm l] tgt] Hp [Hn Ha Hr]]; [|unfold link; case_decide|]; try by split.
  - split; [constructor| |by split]. intros name i. cbn. rewrite lookup_empty, lookup_nil. split; [done|by intros [? ?]].
  - case_bool_decide as Hk; cbn.
    + split; cbn; [done..|]. intros name. rewrite map_app, elem_of_app, Hr. cbn. rewrite list_elem_of_singleton.
      split; [by left|]. intros [?| ->]; [done|]. destruct Hk as [i Hi]. apply Ha in Hi as [targets Hi]. apply Hr.
      apply list_elem_of_lookup. exists i. by rewrite list_lookup_fmap, Hi.
    + assert (nm ∉ (part_candidates p).*1) as Hnew.
      { intros [i Hi]%list_elem_of_lookup. rewrite list_lookup_fmap in Hi.
        destruct (part_candidates p !! i) as [[k targets]|] eqn:Ei; [|done]. injection Hi as ->.
        apply Hk. exists i. apply Ha. by exists targets. }
      split; cbn.
      * rewrite fmap_app. apply NoDup_app. split; [done|]. split; [|apply NoDup_singleton].
        intros x Hx ->%list_elem_of_singleton. done.
      * intros name i. destruct (decide (name = nm)) as [->|Hne].
        -- rewrite lookup_insert_eq. split.
           ++ intros [= <-]. exists (distinct_endpoints resolution). by rewrite lookup_app_r, Nat.sub_diag.
           ++ intros [targets Hi]. apply lookup_snoc_Some in Hi as [[_ Hi]|[-> _]]; [|done]. exfalso. apply Hnew.
              apply list_elem_of_lookup. exists i. by rewrite list_lookup_fmap, Hi.
        -- rewrite lookup_insert_ne, Ha by done. split; intros [targets Hi]; exists targets.
           ++ by apply lookup_app_l_Some.
           ++ apply lookup_snoc_Some in Hi as [[_ Hi]|[_ [= -> _]]]; done.
      * intros name. rewrite fmap_app, map_app, !elem_of_app, Hr. cbn. by rewrite !list_elem_of_singleton.
Qed.

(** An import joins two files. *)
Lemma linked_imports p e : linked p -> e ∈ part_edges p -> relation e = Imports ->
  node (source e) = path (source e) /\ node (target e) = path (target e).
Proof.
  assert (forall a b nm r t e, new a b nm r t = Some e -> relation e = r /\ source e = a /\ target e = b) as Hnew.
  { unfold new. intros * E. case_decide; [|done]. by injection E as <-. }
  induction 1 as [|p src nm resolution rel Hp IH Hrel|p src [[nm l] tgt] Hp IH]; cbn.
  - by intros ?%elem_of_nil.
  - unfold link. case_decide; cbn; [|done]. intros [?|He]%elem_of_app Hi; [by apply IH|].
    apply list_elem_of_omap in He as (tg & _ & [Hr _]%Hnew). congruence.
  - intros [?|He]%elem_of_app Hi; [by apply IH|]. destruct (new _ _ _ _ _) eqn:E; [|by apply elem_of_nil in He].
    apply list_elem_of_singleton in He as ->. by apply Hnew in E as (_ & -> & ->).
Qed.

(** Every edge that the ambiguous references stand for. *)
Definition all_ambiguous (g : SymbolGraph) : list SymbolEdge := flat_map (ambiguous_edges g) (ambiguous g).

Lemma imap_seq {A B} `{Inhabited A} (f : nat -> A -> B) l : imap f l = map (fun i => f i (l !!! i)) (seq 0 (length l)).
Proof.
  revert f. induction l as [|x l IH]; intros f; [done|]. cbn [imap length seq map]. f_equal.
  rewrite IH, <- seq_shift, map_map. done.
Qed.

Lemma length_omap_ne {A B K} `{EqDecision K} (f : A -> option B) (key : A -> K) (k : K) (l : list A) :
  (forall x, is_Some (f x) <-> key x <> k) ->
  length (omap f l) = (length l - length (List.filter (fun y => bool_decide (y = k)) (map key l)))%nat.
Proof.
  intros Hf. assert (length (omap f l) + length (List.filter (fun y => bool_decide (y = k)) (map key l)) = length l)%nat; [|lia].
  induction l as [|x l IH]; [done|]. cbn. specialize (Hf x). destruct (f x) eqn:E; case_bool_decide as Hk; cbn.
  - exfalso. apply Hf; [by eexists|done].
  - lia.
  - lia.
  - exfalso. destruct (proj2 Hf Hk). done.
Qed.

Lemma tally_lookup l n : default O (tally l !! n) = length (List.filter (fun m => bool_decide (m = n)) l).
Proof.
  unfold tally. induction l as [|m l IH] using rev_ind; [done|].
  rewrite foldl_app, List.filter_app, length_app. cbn. destruct (decide (m = n)) as [->|Hne].
  - rewrite lookup_insert_eq, bool_decide_true by done. cbn. by rewrite IH.
  - rewrite lookup_insert_ne, bool_decide_false by done. cbn. by rewrite IH, Nat.add_0_r.
Qed.

Lemma fold_add {A} (k : A -> str) (v : A -> nat) l m n :
  default O (foldl (fun counts x => add counts (k x) (v x)) m l !! n) =
  (default O (m !! n) + sum_list_with v (List.filter (fun x => bool_decide (k x = n)) l))%nat.
Proof.
  induction l as [|x l IH] using rev_ind; [cbn; lia|]. rewrite foldl_app, List.filter_app, sum_with_app, Nat.add_assoc, <- IH.
  cbn. unfold add at 1. destruct (Nat.ltb_spec 0 (v x)).
  - destruct (decide (k x = n)) as [<-|Hne].
    + rewrite lookup_insert_eq, bool_decide_true by done. cbn. lia.
    + rewrite lookup_insert_ne, bool_decide_false by done. cbn. lia.
  - case_bool_decide; cbn; lia.
Qed.

Lemma sum_entries {V} (f : str * V -> nat) (m : gmap str V) n :
  sum_list_with f (List.filter (fun entry => bool_decide (entry.1 = n)) (btree_iter m)) =
  match m !! n with Some v => f (n, v) | None => O end.
Proof.
  destruct (m !! n) as [v|] eqn:E.
  - apply btree_iter_elem, list_elem_of_split in E as (l1 & l2 & E). pose proof (btree_iter_NoDup m) as Hn.
    rewrite E in Hn |- *. rewrite fmap_app, fmap_cons in Hn. cbn in Hn. rewrite List.filter_app. cbn [List.filter fst].
    apply NoDup_app in Hn as (_ & Hd & Hn). apply NoDup_cons in Hn as [Hn _].
    rewrite bool_decide_true by done. rewrite !filter_nil_iff_false; [cbn; lia|..]; intros [k w] Hin%list_elem_of_In;
      apply bool_decide_eq_false; intros Ek; cbn in Ek; subst k; apply (list_elem_of_fmap_2 fst) in Hin; cbn in Hin.
    + done.
    + apply (Hd n Hin). left.
  - rewrite filter_nil_iff_false; [done|]. intros [k w] Hin%list_elem_of_In. apply bool_decide_eq_false. intros Ek. cbn in Ek. subst k.
    apply btree_iter_elem in Hin. congruence.
Qed.

Section Expansion.
Context (p : Parts) (paths : list str).
Hypothesis (Hlinked : linked p).
Let g := finish p paths.

(** Each candidate with the name that it answers. *)
Let pairs : list (str * Endpoint) := flat_map (fun '(name, targets) => map (pair name) targets) (part_candidates p).

Lemma candidates_of_at name targets : (name, targets) ∈ part_candidates p -> candidates_of g name = targets.
Proof.
  intros [i Hi]%list_elem_of_lookup. unfold candidates_of. destruct (linked_names _ Hlinked) as [_ Ha _].
  assert (part_names p !! name = Some i) as Hn by (apply Ha; by exists targets).
  change (candidate_names g) with (part_names p). rewrite Hn. change (candidates g) with (part_candidates p).
  by rewrite list_lookup_total_alt, Hi.
Qed.

Lemma references_named_filter name :
  references_named g name = List.filter (fun r => bool_decide (ref_name r = name)) (ambiguous g).
Proof.
  unfold references_named. change (by_name g) with (index_by_name (ambiguous g)). unfold index_by_name.
  rewrite group_entries_lookup, imap_seq, filter_map_comm. rewrite !map_map.
  exact (filter_seq_lookup (fun r => bool_decide (ref_name r = name)) (ambiguous g)).
Qed.

Lemma candidates_at_filter n : candidates_at_node g n = List.filter (fun q => bool_decide (node q.2 = n)) pairs.
Proof.
  unfold candidates_at_node. change (candidates_at g) with (index_candidates (part_candidates p)). unfold index_candidates.
  rewrite group_entries_lookup.
  assert (flat_map (fun '(name, targets) => map (fun target => (node target, (name, target))) targets) (part_candidates p) =
    map (fun q => (node q.2, q)) pairs) as ->.
  { unfold pairs. induction (part_candidates p) as [|[name targets] l IH]; [done|]. cbn. rewrite map_app, map_map. by rewrite IH. }
  rewrite filter_map_comm. rewrite map_map. apply map_id.
Qed.

Lemma names_nowhere name : name ∉ (part_candidates p).*1 -> candidates_of g name = [].
Proof.
  intros Hn. unfold candidates_of. change (candidate_names g) with (part_names p).
  destruct (part_names p !! name) as [i|] eqn:E; [|done]. exfalso. apply Hn.
  apply (names_at _ (linked_names _ Hlinked)) in E as [targets Hi]. apply list_elem_of_lookup. exists i.
  by rewrite list_lookup_fmap, Hi.
Qed.

(** The pairs of a name are its candidates. *)
Lemma pairs_of_name name : List.filter (fun q => bool_decide (q.1 = name)) pairs = map (pair name) (candidates_of g name).
Proof.
  assert (forall (k : str) targets, List.filter (fun q : str * Endpoint => bool_decide (q.1 = name)) (map (pair k) targets) =
    if decide (k = name) then map (pair k) targets else []) as Hone.
  { intros k targets. induction targets as [|t targets IH]; [by case_decide|]. cbn [map List.filter fst]. rewrite IH.
    case_decide; [by rewrite bool_decide_true|by rewrite bool_decide_false]. }
  assert (forall l : list (str * list Endpoint), name ∉ l.*1 ->
    List.filter (fun q : str * Endpoint => bool_decide (q.1 = name)) (flat_map (fun '(name, targets) => map (pair name) targets) l) = []) as Hnone.
  { induction l as [|[k targets] l IH]; intros Hl; [done|]. apply not_elem_of_cons in Hl as [Hk Hl].
    cbn [flat_map]. rewrite List.filter_app, Hone, decide_False by done. by apply IH. }
  destruct (decide (name ∈ (part_candidates p).*1)) as [Hin|Hout].
  - apply list_elem_of_fmap in Hin as ([k targets] & -> & Hin). cbn in *. rewrite (candidates_of_at _ _ Hin).
    pose proof (names_NoDup _ (linked_names _ Hlinked)) as Hn. unfold pairs.
    apply list_elem_of_split in Hin as (l1 & l2 & E). rewrite E in Hn |- *. rewrite fmap_app, fmap_cons in Hn. cbn in Hn.
    apply NoDup_app in Hn as (_ & Hd & Hn). apply NoDup_cons in Hn as [Hn _].
    rewrite flat_map_app, List.filter_app, Hnone by (intros Hk; apply (Hd k Hk); left). cbn [flat_map app].
    rewrite List.filter_app, Hone, decide_True, Hnone by done. by rewrite app_nil_r.
  - rewrite names_nowhere by done. exact (Hnone _ Hout).
Qed.

Lemma candidates_at_named name t n : (name, t) ∈ candidates_at_node g n <-> t ∈ candidates_of g name /\ node t = n.
Proof.
  rewrite candidates_at_filter, list_elem_of_In, filter_In, <- list_elem_of_In, bool_decide_eq_true. cbn [snd].
  enough ((name, t) ∈ pairs <-> t ∈ candidates_of g name) as -> by done.
  transitivity ((name, t) ∈ map (pair name) (candidates_of g name)).
  - rewrite <- pairs_of_name, (list_elem_of_In (List.filter _ _)), filter_In, bool_decide_eq_true, <- list_elem_of_In. tauto.
  - rewrite list_elem_of_fmap. split; [by intros (? & [= ->] & ?)|by exists t].
Qed.

Definition own (name n : str) : nat :=
  length (List.filter (fun m => bool_decide (m = n)) (map (fun r => node (ref_source r)) (references_named g name))).

Lemma new_Some src tgt nm rel t : is_Some (new src tgt nm rel t) <-> node src <> node tgt.
Proof. unfold new. case_decide; [|split; [by intros [? ?]|done]]. split; [done|by eexists]. Qed.

Lemma new_ends src tgt nm rel t e : new src tgt nm rel t = Some e -> source e = src /\ target e = tgt.
Proof. unfold new. case_decide; [|done]. by intros [= <-]. Qed.

Lemma ambiguous_edges_pairs r :
  ambiguous_edges g r =
  flat_map (fun q => if bool_decide (q.1 = ref_name r) then option_list (ambiguous_edge r q.2) else []) pairs.
Proof.
  unfold ambiguous_edges.
  transitivity (flat_map (fun q : str * Endpoint => option_list (ambiguous_edge r q.2)) (map (pair (ref_name r)) (candidates_of g (ref_name r)))).
  - induction (candidates_of g (ref_name r)) as [|t l IH]; [done|]. cbn. rewrite <- IH. by destruct (ambiguous_edge r t).
  - rewrite <- pairs_of_name. induction pairs as [|q l IH]; [done|]. cbn. case_bool_decide; cbn; by rewrite IH.
Qed.

Lemma named_edges name (t : Endpoint) :
  omap (fun r => ambiguous_edge r t) (references_named g name) =
  flat_map (fun r => if bool_decide (name = ref_name r) then option_list (ambiguous_edge r t) else []) (ambiguous g).
Proof.
  rewrite references_named_filter. induction (ambiguous g) as [|r l IH]; [done|]. cbn.
  rewrite (bool_decide_ext (ref_name r = name) (name = ref_name r)) by done.
  case_bool_decide; cbn; rewrite <- IH; [by destruct (ambiguous_edge r t)|done].
Qed.

Lemma from_filter n :
  references_from g n = List.filter (fun r => bool_decide (node (ref_source r) = n)) (ambiguous g).
Proof. apply references_from_filter. Qed.

(** The edges that leave a node, from its references. *)
Lemma ambiguous_from_filter n :
  ambiguous_from g n = List.filter (fun e => bool_decide (node (source e) = n)) (all_ambiguous g).
Proof.
  unfold ambiguous_from. rewrite from_filter. apply flat_map_filter.
  intros r e _ He. unfold ambiguous_edges in He. apply list_elem_of_omap in He as (t & _ & He%new_ends). by destruct He as [-> _].
Qed.

(** The edges that arrive at a node, from its candidates. *)
Lemma ambiguous_into_filter n :
  ambiguous_into g n ≡ₚ List.filter (fun e => bool_decide (node (target e) = n)) (all_ambiguous g).
Proof.
  unfold ambiguous_into. rewrite candidates_at_filter.
  rewrite (flat_map_filter _ _ (fun e => bool_decide (node (target e) = n))).
  2:{ intros [name t] e _ He. apply list_elem_of_omap in He as (r & _ & He%new_ends). by destruct He as [_ ->]. }
  apply filter_perm. unfold all_ambiguous.
  rewrite (flat_map_ext_in (ambiguous_edges g) _ (ambiguous g) (fun r _ => ambiguous_edges_pairs r)).
  rewrite flat_map_swap. erewrite flat_map_ext_in; [done|]. intros [name t] _. apply named_edges.
Qed.

(** ** The counts *)

Lemma from_count n : length (ambiguous_from g n) =
  sum_list_with (fun r => length (candidates_of g (ref_name r)) -
    length (List.filter (fun m => bool_decide (m = n)) (map node (candidates_of g (ref_name r)))))%nat
    (List.filter (fun r => bool_decide (node (ref_source r) = n)) (ambiguous g)).
Proof.
  unfold ambiguous_from. rewrite from_filter, length_flat_map. apply sum_with_ext.
  intros r Hr. rewrite list_elem_of_In, filter_In in Hr. destruct Hr as [_ Hr%bool_decide_eq_true].
  unfold ambiguous_edges. apply length_omap_ne. intros t. unfold ambiguous_edge. rewrite new_Some, Hr. done.
Qed.

Lemma into_count n : length (ambiguous_into g n) =
  sum_list_with (fun q => length (references_named g q.1) - own q.1 n)%nat (List.filter (fun q => bool_decide (node q.2 = n)) pairs).
Proof.
  unfold ambiguous_into. rewrite candidates_at_filter, length_flat_map. apply sum_with_ext.
  intros [name t] Hq. rewrite list_elem_of_In, filter_In in Hq. destruct Hq as [_ Hq%bool_decide_eq_true]. cbn in *.
  apply length_omap_ne. intros r. unfold ambiguous_edge. rewrite new_Some, Hq. done.
Qed.

(** What one name adds to the degrees of a node. *)
Definition name_arriving (n name : str) : nat :=
  let c := length (List.filter (fun m => bool_decide (m = n)) (map node (candidates_of g name))) in
  c * (length (references_named g name) - own name n).

Definition ref_leaving (n : str) (r : AmbiguousReference) : nat :=
  length (candidates_of g (ref_name r)) -
  length (List.filter (fun m => bool_decide (m = n)) (map node (candidates_of g (ref_name r)))).

Lemma degrees_fold n names d :
  leaving_at (foldl (name_degrees g) d names) n = (leaving_at d n +
    sum_list_with (fun name => sum_list_with (ref_leaving n)
      (List.filter (fun r => bool_decide (node (ref_source r) = n)) (references_named g name))) names)%nat /\
  arriving_at (foldl (name_degrees g) d names) n = (arriving_at d n + sum_list_with (name_arriving n) names)%nat.
Proof.
  induction names as [|name names [IHl IHa]] using rev_ind; [cbn; lia|].
  rewrite foldl_app, !sum_with_app. cbn [foldl sum_list_with]. split.
  - unfold leaving_at at 1. cbn [name_degrees leaving]. rewrite (fold_add (fun r => node (ref_source r))).
    unfold leaving_at in IHl. rewrite IHl, <- Nat.add_assoc. do 2 f_equal. rewrite Nat.add_0_r. apply sum_with_ext.
    intros r Hr. rewrite list_elem_of_In, filter_In in Hr. destruct Hr as [Hin Hr%bool_decide_eq_true].
    rewrite references_named_filter, filter_In in Hin. destruct Hin as [_ <-%bool_decide_eq_true].
    unfold ref_leaving. by rewrite Hr, tally_lookup.
  - unfold arriving_at at 1. cbn [name_degrees arriving]. rewrite (fold_add fst).
    unfold arriving_at in IHa. rewrite IHa, <- Nat.add_assoc. do 2 f_equal. rewrite Nat.add_0_r, sum_entries.
    unfold name_arriving, own. pose proof (tally_lookup (map node (candidates_of g name)) n) as Ht.
    destruct (tally (map node (candidates_of g name)) !! n) as [c|]; cbn in Ht |- *; rewrite <- Ht; [|done].
    by rewrite tally_lookup.
Qed.

Lemma names_keys : (btree_iter (by_name g)).*1 ≡ₚ (part_candidates p).*1.
Proof.
  apply NoDup_Permutation; [apply btree_iter_NoDup|apply (names_NoDup _ (linked_names _ Hlinked))|].
  intros name. rewrite (names_refs _ (linked_names _ Hlinked)).
  transitivity (is_Some (by_name g !! name)).
  { rewrite list_elem_of_fmap. split.
    - intros ([k v] & -> & Hk%btree_iter_elem). by exists v.
    - intros [v Hv]. exists (name, v). split; [done|]. by apply btree_iter_elem. }
  change (by_name g) with (index_by_name (ambiguous g)). unfold index_by_name. rewrite group_entries_Some.
  destruct (finish_ambiguous p paths) as (_ & _ & He). change (ambiguous (finish p paths)) with (ambiguous g) in He.
  rewrite !list_elem_of_fmap. split.
  - intros ([k i] & -> & Hk). apply elem_of_lookup_imap in Hk as (j & r & [= -> ->] & Hr). exists r.
    split; [done|]. apply He. by apply list_elem_of_lookup_2 in Hr.
  - intros (r & -> & Hr%He). apply list_elem_of_lookup in Hr as [i Hi]. exists (ref_name r, i). split; [done|].
    apply elem_of_lookup_imap. by exists i, r.
Qed.

Lemma ambiguous_refs_named r : r ∈ ambiguous g -> ref_name r ∈ (btree_iter (by_name g)).*1.
Proof.
  intros Hr. rewrite names_keys. apply (names_refs _ (linked_names _ Hlinked)). rewrite list_elem_of_fmap.
  exists r. split; [done|]. by apply (finish_ambiguous p paths).
Qed.

Lemma leaving_exact n : leaving_at (ambiguous_degrees g) n = length (ambiguous_from g n).
Proof.
  unfold ambiguous_degrees. rewrite (proj1 (degrees_fold n _ _)). cbn [leaving_at leaving]. rewrite from_count.
  rewrite <- (sum_with_groups _ ref_name (btree_iter (by_name g)).*1).
  - unfold leaving_at. cbn. apply sum_with_ext. intros name _. rewrite references_named_filter, filter_filter_comm. reflexivity.
  - apply btree_iter_NoDup.
  - intros r Hr. apply ambiguous_refs_named. rewrite list_elem_of_In, filter_In in Hr. destruct Hr as [Hr _]. by apply list_elem_of_In in Hr.
Qed.

Lemma arriving_exact n : arriving_at (ambiguous_degrees g) n = length (ambiguous_into g n).
Proof.
  unfold ambiguous_degrees. rewrite (proj2 (degrees_fold n _ _)), into_count.
  rewrite (sum_with_perm _ _ _ names_keys). unfold arriving_at. cbn.
  rewrite <- (sum_with_groups _ fst (part_candidates p).*1).
  - apply sum_with_ext. intros name _. unfold name_arriving.
    rewrite filter_filter_comm, pairs_of_name, !filter_map_comm, sum_with_map, length_map. cbn. by rewrite sum_with_const.
  - apply (names_NoDup _ (linked_names _ Hlinked)).
  - intros [name t] Hq. rewrite list_elem_of_In, filter_In in Hq. destruct Hq as [Hq _]. unfold pairs in Hq.
    rewrite in_flat_map in Hq. destruct Hq as ([k ts] & Hin & Hq). apply list_elem_of_In in Hin. apply list_elem_of_In in Hq.
    apply list_elem_of_fmap in Hq as (t' & [= -> ->] & _). apply list_elem_of_fmap. by exists (k, ts).
Qed.
End Expansion.

(** The two expansions of the ambiguous references agree: the edges that leave a node and the
    edges that arrive at it are those among all the edges that the references stand for.  The
    degrees count them without building one. *)
Theorem ambiguous_degrees_exact p paths n (Hlinked : linked p) :
  let g := finish p paths in
  ambiguous_from g n = List.filter (fun e => bool_decide (node (source e) = n)) (all_ambiguous g) /\
  ambiguous_into g n ≡ₚ List.filter (fun e => bool_decide (node (target e) = n)) (all_ambiguous g) /\
  leaving_at (ambiguous_degrees g) n = length (ambiguous_from g n) /\
  arriving_at (ambiguous_degrees g) n = length (ambiguous_into g n).
Proof.
  split; [by apply ambiguous_from_filter|]. split; [by apply ambiguous_into_filter|].
  split; [by apply leaving_exact|by apply arriving_exact].
Qed.

Module Demo.
Definition symbol_end (p id : str) (l : Z) : Endpoint := {| node := id; path := p; line := l; label := id; is_symbol := true |}.

Definition run_a : Endpoint := symbol_end (lit "a.py") (lit "a#run") 1.
Definition run_b : Endpoint := symbol_end (lit "b.py") (lit "b#run") 4.
Definition both : Resolution := {| res_tier := Ambiguous; res_candidates := [run_a; run_b; run_a] |}.

(** [run] has two definitions; one of them, and a file, call [run]. *)
Definition parts : Parts :=
  link (link (import_edge no_parts (lit "c.py") (lit "a", 1%Z, lit "a.py"))
    (file_endpoint (lit "c.py") 3) (lit "run") both References) run_a (lit "run") both References.

Definition graph : SymbolGraph := finish parts [lit "c.py"; lit "a.py"; lit "b.py"].

Lemma parts_linked : linked parts.
Proof. apply linked_link; [|done]. apply linked_link; [|done]. apply linked_import, linked_none. Qed.

Example degrees :
  map (arriving_at (ambiguous_degrees graph)) [lit "a#run"; lit "b#run"; lit "c.py"] = [1; 2; 0]%nat /\
  map (leaving_at (ambiguous_degrees graph)) [lit "a#run"; lit "b#run"; lit "c.py"] = [1; 0; 2]%nat.
Proof. split; vm_compute; reflexivity. Qed.

Example outgoing_import : map relation (outgoing graph (lit "c.py")) = [Imports].
Proof. vm_compute. reflexivity. Qed.
End Demo.

Lemma ambiguous_degrees_exact_witness :
  arriving_at (ambiguous_degrees Demo.graph) (lit "b#run") = 2%nat /\ length (ambiguous_into Demo.graph (lit "b#run")) = 2%nat.
Proof.
  destruct (ambiguous_degrees_exact Demo.parts [lit "c.py"; lit "a.py"; lit "b.py"] (lit "b#run") Demo.parts_linked) as (_ & _ & _ & H).
  assert (arriving_at (ambiguous_degrees Demo.graph) (lit "b#run") = 2%nat) as E by (vm_compute; reflexivity).
  split; [exact E|]. etransitivity; [symmetry; exact H|exact E].
Defined.
