(* ===== verification/Cycles.v ===== *)
(** Import cycles and chains: crates/graph/src/cycles.rs.

    The two breadth-first searches of the source, for the shortest cycle through a file and for
    the shortest chain between two, are one [search] here, over children with what each was
    reached by: the parent for a cycle, the edge for a chain.  [search_spec] is its correctness,
    and the components are those of Tarjan.v. *)

From stdpp Require Import relations.
From S2P Require Import Prelude RustStr Ordered Tarjan Symbols.

(** * Breadth first *)

Section Search.
Context {P : Type} (src : P -> str) (goal : str) (admits : str -> bool) (children : str -> list (str * P)).

(** The loop over the children of one node: what the goal was reached by, or the queue. *)
Fixpoint scan (cs : list (str * P)) (previous : gmap str P) (queue : list str)
  : (P * gmap str P) + (gmap str P * list str) :=
  match cs with
  | [] => inr (previous, queue)
  | (child, how) :: cs =>
      if decide (child = goal) then inl (how, previous)
      else if admits child && negb (bool_decide (is_Some (previous !! child)))
      then scan cs (<[child := how]> previous) (queue ++ [child])
      else scan cs previous queue
  end.

Fixpoint search (fuel : nat) (previous : gmap str P) (queue : list str) : option (option (P * gmap str P)) :=
  match queue with
  | [] => Some None
  | node :: queue =>
      match fuel with
      | O => None
      | S fuel =>
          match scan (children node) previous queue with
          | inl found => Some (Some found)
          | inr (previous, queue) => search fuel previous queue
          end
      end
  end.

(** What each node was reached by, back from [node] to [start]; [None] is an index out of the
    map, or too little fuel. *)
Fixpoint trace (fuel : nat) (node start : str) (previous : gmap str P) : option (list P) :=
  if decide (node = start) then Some []
  else
    match fuel with
    | O => None
    | S fuel =>
        how ← previous !! node;
        rest ← trace fuel (src how) start previous;
        Some (how :: rest)
    end.
End Search.

(** * Cycles *)

Definition SMALLEST_CYCLE : nat := 2.

Record Cycle := { cycle_files : list str; members : list str }.

Definition chain_back (fuel : nat) (node start : str) (previous : gmap str str) : option (list str) :=
  rest ← trace id fuel node start previous; Some (reverse (node :: rest)).

(** The outer [None] is too little fuel or a panic. *)
Definition cycle_chain (members : list str) (adjacency : Adjacency) : option (option (list str)) :=
  match members with
  | [] => Some None
  | start :: _ =>
      let fuel := S (length members) in
      found ← search start (fun child => bool_decide (child ∈ members))
        (fun node => map (fun child => (child, node)) (neighbours adjacency node)) fuel ∅ [start];
      match found with
      | Some (node, previous) => chain ← chain_back fuel node start previous; Some (Some chain)
      | None => Some None
      end
  end.

Definition import_adjacency (g : SymbolGraph) : Adjacency :=
  (fun targets => dedup (sort_strings targets)) <$>
    group_entries (map (fun e => (path (source e), path (target e))) (import_edges g)).

Definition cycle_le (a b : Cycle) : bool :=
  keys_le ([Z.of_nat (length (cycle_files a))] :: cycle_files a) ([Z.of_nat (length (cycle_files b))] :: cycle_files b).

Definition import_cycles (g : SymbolGraph) : option (list Cycle) :=
  let adjacency := import_adjacency g in
  found ← components (files g) adjacency;
  cycles ← mapM (fun members =>
      chain ← cycle_chain members adjacency;
      Some (match chain with Some files => Some {| cycle_files := files; members := members |} | None => None end))
    (List.filter (fun members => SMALLEST_CYCLE <=? length members)%nat found);
  Some (sort_by cycle_le (omap id cycles)).

(** * Chains *)

Definition edges_back (fuel : nat) (last : SymbolEdge) (from : str) (previous : gmap str SymbolEdge) : option (list SymbolEdge) :=
  rest ← trace (fun e => path (source e)) fuel (path (source last)) from previous; Some (reverse (last :: rest)).

Definition kept (keeps : str -> Z -> bool) (e : SymbolEdge) : bool :=
  bool_decide (relation e = Imports) && keeps (path (source e)) (line (source e)).

Definition import_chain (g : SymbolGraph) (from to : str) (keeps : str -> Z -> bool) : option (option (list SymbolEdge)) :=
  let fuel := S (length (edges g)) in
  found ← search to (fun child => bool_decide (child <> from))
    (fun node => map (fun e => (path (target e), e)) (List.filter (kept keeps) (outgoing g node))) fuel ∅ [from];
  match found with
  | Some (last, previous) => chain ← edges_back fuel last from previous; Some (Some chain)
  | None => Some None
  end.

(** * The search *)

Section SearchFacts.
Context {P : Type} (src : P -> str) (goal start : str) (admits : str -> bool) (children : str -> list (str * P)).
Context (within : list str).
Hypothesis src_children : forall u c h, (c, h) ∈ children u -> src h = u.
Hypothesis admits_start : admits start = true -> start = goal.
Hypothesis admits_within : forall u c h, (c, h) ∈ children u -> admits c = true -> c ∈ within.
Implicit Types (done queue : list str) (previous : gmap str P).

Definition leads x y : Prop := exists h, (y, h) ∈ children x.

(** A step to a node that may be passed through. *)
Definition passes x y : Prop := leads x y /\ admits y = true.

(** The nodes that were taken off the queue, those in it, and the distance of each. *)
Record bfs (d : str -> nat) done previous queue : Prop := {
  bfs_start : d start = O;
  bfs_NoDup : NoDup (done ++ queue);
  bfs_visited x : x ∈ done ++ queue <-> x = start \/ is_Some (previous !! x);
  bfs_previous x h : previous !! x = Some h ->
    (x, h) ∈ children (src h) /\ admits x = true /\ x <> goal /\ src h ∈ done /\ d x = S (d (src h));
  bfs_index i x : (done ++ queue) !! i = Some x -> (d x <= i)%nat;
  bfs_sorted : StronglySorted (fun x y => d x <= d y <= S (d x))%nat queue;
  bfs_done x y : x ∈ done -> y ∈ queue -> (d x <= d y)%nat;
  bfs_seen x c h : x ∈ done -> (c, h) ∈ children x ->
    c <> goal /\ (admits c = true -> c ∈ done ++ queue /\ (d c <= S (d x))%nat)
}.

(** What a scan adds. *)
Record scanned (cs : list (str * P)) previous (new : list str) previous' : Prop := {
  scanned_NoDup : NoDup new;
  scanned_new x : x ∈ new <-> previous !! x = None /\ is_Some (previous' !! x);
  scanned_old x h : previous !! x = Some h -> previous' !! x = Some h;
  scanned_how x h : x ∈ new -> previous' !! x = Some h -> (x, h) ∈ cs /\ admits x = true /\ x <> goal
}.

Lemma scan_spec cs previous queue :
  match scan goal admits cs previous queue with
  | inl (h, previous') => (goal, h) ∈ cs /\ exists new, scanned cs previous new previous'
  | inr (previous', queue') => exists new, queue' = queue ++ new /\ scanned cs previous new previous' /\
      forall c h, (c, h) ∈ cs -> c <> goal /\ (admits c = true -> is_Some (previous' !! c))
  end.
Proof.
  revert previous queue. induction cs as [|[c h] cs IH]; intros previous queue; cbn [scan].
  { exists []. rewrite app_nil_r. split; [done|]. split; [|by intros ? ? ?%elem_of_nil].
    split; [constructor| |done|by intros ? ? ?%elem_of_nil]. intros x. rewrite elem_of_nil. split; [done|]. intros [E [? E']]. congruence. }
  case_decide as Hg.
  { subst c. split; [left|]. exists []. split; [constructor| |done|by intros ? ? ?%elem_of_nil].
    intros x. rewrite elem_of_nil. split; [done|]. intros [E [? E']]. congruence. }
  assert (forall new previous' previous0, scanned cs previous0 new previous' ->
    forall x k, x ∈ new -> previous' !! x = Some k -> (x, k) ∈ (c, h) :: cs /\ admits x = true /\ x <> goal) as Hhow.
  { intros new previous' previous0 Hs x k Hx Hk. destruct (scanned_how _ _ _ _ Hs x k Hx Hk) as (? & ? & ?). split; [by right|done]. }
  destruct (admits c && negb (bool_decide (is_Some (previous !! c)))) eqn:Ea.
  - bool_hyps. match goal with H : ~ is_Some _ |- _ => apply eq_None_not_Some in H as Hc end.
    assert (forall new previous', scanned cs (<[c := h]> previous) new previous' -> scanned ((c, h) :: cs) previous (c :: new) previous') as Hadd.
    { intros new previous' Hs. assert (c ∉ new) as Hcn.
      { intros [E _]%(scanned_new _ _ _ _ Hs). by rewrite lookup_insert_eq in E. }
      assert (previous' !! c = Some h) as Hch by (apply (scanned_old _ _ _ _ Hs); apply lookup_insert_eq).
      split.
      - apply NoDup_cons. split; [done|apply Hs].
      - intros x. rewrite elem_of_cons, (scanned_new _ _ _ _ Hs). destruct (decide (x = c)) as [->|Hx].
        + rewrite Hch. split; [|by left]. intros _. split; [done|by eexists].
        + rewrite lookup_insert_ne by done. split; [intros [?|?]; done|by right].
      - intros x k Hk. apply (scanned_old _ _ _ _ Hs). rewrite lookup_insert_ne; [done|]. intros ->. congruence.
      - intros x k [->|Hx]%elem_of_cons Hk; [|by apply (Hhow _ _ _ Hs)]. rewrite Hch in Hk. injection Hk as <-. split; [left|done]. }
    specialize (IH (<[c := h]> previous) (queue ++ [c])).
    destruct (scan goal admits cs (<[c := h]> previous) (queue ++ [c])) as [[k previous']|[previous' queue']].
    + destruct IH as (Hin & new & Hs). split; [by right|]. exists (c :: new). by apply Hadd.
    + destruct IH as (new & -> & Hs & Hall). exists (c :: new). split; [by rewrite <- app_assoc|]. split; [by apply Hadd|].
      intros x k [[= -> ->]|Hx]%elem_of_cons; [|by apply (Hall x k)]. split; [done|]. intros _.
      exists h. apply (scanned_old _ _ _ _ Hs), lookup_insert_eq.
  - assert (forall new previous', scanned cs previous new previous' -> scanned ((c, h) :: cs) previous new previous') as Hsame.
    { intros new previous' Hs. split; [apply Hs..|]. by apply (Hhow _ _ _ Hs). }
    specialize (IH previous queue). destruct (scan goal admits cs previous queue) as [[k previous']|[previous' queue']].
    + destruct IH as (Hin & new & Hs). split; [by right|]. exists new. by apply Hsame.
    + destruct IH as (new & -> & Hs & Hall). exists new. split; [done|]. split; [by apply Hsame|].
      intros x k [[= -> ->]|Hx]%elem_of_cons; [|by apply (Hall x k)]. split; [done|]. intros Hac. rewrite Hac in Ea. cbn in Ea.
      bool_hyps. match goal with H : is_Some _ |- _ => destruct H as [k' Hk'] end. exists k'. by apply (scanned_old _ _ _ _ Hs).
Qed.

Lemma bfs_init : bfs (fun _ => O) [] ∅ [start].
Proof.
  split; cbn [app].
  - done.
  - apply NoDup_singleton.
  - intros x. rewrite list_elem_of_singleton, lookup_empty. split; [by left|]. by intros [?|[? ?]].
  - intros x h. by rewrite lookup_empty.
  - intros i x _. lia.
  - repeat constructor.
  - by intros x y ?%elem_of_nil.
  - by intros x c h ?%elem_of_nil.
Qed.

Lemma bfs_no_start d done previous queue : bfs d done previous queue -> previous !! start = None.
Proof.
  intros B. destruct (previous !! start) as [h|] eqn:E; [|done]. destruct (bfs_previous _ _ _ _ B _ _ E) as (_ & Ha & Hg & _).
  by destruct Hg; apply admits_start.
Qed.

Lemma bfs_step d done previous u queue previous' queue' :
  bfs d done previous (u :: queue) -> scan goal admits (children u) previous queue = inr (previous', queue') ->
  exists d', bfs d' (done ++ [u]) previous' queue'.
Proof.
  intros B E. pose proof (scan_spec (children u) previous queue) as Hs. rewrite E in Hs.
  destruct Hs as (new & -> & [Sn Snew Sold Show] & Sall). clear E.
  pose proof (bfs_visited _ _ _ _ B) as Hv. pose proof (bfs_no_start _ _ _ _ B) as Hns.
  assert (forall x, x ∈ new -> x ∉ done ++ u :: queue) as Hfresh.
  { intros x Hx [->|[h Hh]]%Hv; [|apply Snew in Hx as [? _]; congruence].
    apply Snew in Hx as Hx'. destruct Hx' as [_ [h Hh]]. destruct (Show _ _ Hx Hh) as (_ & Ha & Hg). by destruct Hg; apply admits_start. }
  set (d' x := if decide (x ∈ new) then S (d u) else d x).
  assert (forall x, x ∈ done ++ u :: queue -> d' x = d x) as Hd'.
  { intros x Hx. unfold d'. rewrite decide_False; [done|]. intros Hn. by apply (Hfresh x). }
  assert (forall x, x ∈ new -> d' x = S (d u)) as Hdn by (intros x Hx; unfold d'; by rewrite decide_True).
  assert (u ∈ done ++ u :: queue) as Hu by (apply elem_of_app; right; left).
  assert (forall x, x ∈ queue -> x ∈ done ++ u :: queue) as Hq by (intros x Hx; apply elem_of_app; right; by right).
  assert (forall x, x ∈ done -> x ∈ done ++ u :: queue) as Hdone by (intros x Hx; apply elem_of_app; by left).
  assert ((done ++ [u]) ++ queue ++ new = (done ++ u :: queue) ++ new) as Eapp by (by rewrite <- !app_assoc).
  pose proof (bfs_sorted _ _ _ _ B) as Hsort. apply StronglySorted_inv in Hsort as [Hsort Hhead]. rewrite Forall_forall in Hhead.
  assert (forall x, x ∈ (done ++ u :: queue) ++ new <-> x = start \/ is_Some (previous' !! x)) as Hvis.
  { intros x. rewrite elem_of_app, Hv, Snew. split.
    - intros [[->|[h Hh]]|[_ ?]]; [by left|right; exists h; by apply Sold|by right].
    - intros [->|Hx]; [by left; left|]. destruct (previous !! x) as [h|] eqn:Ex; [left; right; by exists h|by right]. }
  exists d'. split; rewrite ?Eapp; try done.
  - rewrite Hd'; [apply (bfs_start _ _ _ _ B)|]. apply Hv. by left.
  - apply NoDup_app. split; [apply (bfs_NoDup _ _ _ _ B)|]. split; [|done]. intros x Hx Hn. by apply (Hfresh x Hn).
  - intros x h Hh. destruct (previous !! x) as [h0|] eqn:Ex.
    + pose proof (Sold _ _ Ex) as Ho. rewrite Hh in Ho. injection Ho as <-.
      destruct (bfs_previous _ _ _ _ B _ _ Ex) as (H1 & H2 & H3 & H4 & H5).
      rewrite (Hd' x) by (apply Hv; right; by exists h). rewrite (Hd' (src h)) by auto. rewrite elem_of_app. split_and!; auto.
    + assert (x ∈ new) as Hx by (apply Snew; split; [done|by exists h]). destruct (Show _ _ Hx Hh) as (H1 & H2 & H3).
      pose proof (src_children _ _ _ H1) as ->. rewrite Hdn, Hd' by done. rewrite elem_of_app, list_elem_of_singleton. split_and!; auto.
  - intros i x Hi. apply lookup_app_Some in Hi as [Hi|[Hlen Hi]].
    + rewrite Hd' by (by apply list_elem_of_lookup_2 in Hi). by apply (bfs_index _ _ _ _ B).
    + apply list_elem_of_lookup_2 in Hi. rewrite Hdn by done. rewrite length_app in Hlen. cbn in Hlen.
      pose proof (bfs_index _ _ _ _ B (length done) u ltac:(by rewrite lookup_app_r, Nat.sub_diag)). lia.
  - apply StronglySorted_app. split; [|split].
    + intros x y Hx Hy. rewrite Hd', Hdn by auto. specialize (Hhead x Hx). lia.
    + eapply sorted_weaken; [|exact Hsort]. intros x y Hx Hy. by rewrite !Hd' by auto.
    + assert (forall l, (forall x, x ∈ l -> x ∈ new) -> StronglySorted (fun x y => d' x <= d' y <= S (d' x))%nat l) as Hl; [|by apply Hl].
      induction l as [|x l IH]; intros Hin; [constructor|]. constructor; [apply IH; intros; apply Hin; by right|].
      apply Forall_forall. intros y Hy. rewrite !Hdn; [lia|apply Hin; by right|apply Hin; left].
  - intros x y [Hx|Hx%list_elem_of_singleton]%elem_of_app [Hy|Hy]%elem_of_app; try subst x; rewrite ?Hd', ?Hdn by auto.
    + apply (bfs_done _ _ _ _ B); [done|by right].
    + pose proof (bfs_done _ _ _ _ B x u Hx ltac:(left)). lia.
    + specialize (Hhead y Hy). lia.
    + lia.
  - intros x c h [Hx|Hx%list_elem_of_singleton]%elem_of_app Hc.
    + destruct (bfs_seen _ _ _ _ B x c h Hx Hc) as [H1 H2]. split; [done|]. intros Ha. destruct (H2 Ha) as [H3 H4].
      rewrite !Hd' by auto. split; [apply elem_of_app; by left|done].
    + subst x. destruct (Sall c h Hc) as [H1 H2]. split; [done|]. intros Ha. specialize (H2 Ha).
      split; [apply Hvis; by right|]. destruct (decide (c ∈ new)) as [Hn|Hn]; [rewrite Hdn, Hd' by auto; lia|].
      assert (c ∈ done ++ u :: queue) as Hcv.
      { apply Hv. right. destruct (previous !! c) eqn:Ec; [by eexists|]. destruct Hn. by apply Snew. }
      rewrite !Hd' by auto. apply elem_of_app in Hcv as [Hcv|[->|Hcv]%elem_of_cons].
      * pose proof (bfs_done _ _ _ _ B c u Hcv ltac:(left)). lia.
      * lia.
      * specialize (Hhead c Hcv). lia.
Qed.

(** What leads back from a node to the start. *)
Fixpoint back (x : str) (hows : list P) : Prop :=
  match hows with
  | [] => x = start
  | h :: hows => (x, h) ∈ children (src h) /\ admits x = true /\ back (src h) hows
  end.

Lemma trace_spec d done previous queue previous' fuel x :
  bfs d done previous queue -> (forall y h, previous !! y = Some h -> previous' !! y = Some h) ->
  x ∈ done ++ queue -> (d x <= fuel)%nat ->
  exists hows, trace src fuel x start previous' = Some hows /\ length hows = d x /\ back x hows.
Proof.
  intros B Hsub. revert x. induction fuel as [|fuel IH]; intros x Hx Hd; cbn [trace]; case_decide as Es;
    try (subst x; exists []; split; [done|]; by rewrite (bfs_start _ _ _ _ B)).
  - apply (bfs_visited _ _ _ _ B) in Hx as [?|[h Hh]]; [done|]. destruct (bfs_previous _ _ _ _ B _ _ Hh) as (_ & _ & _ & _ & Hdx). lia.
  - apply (bfs_visited _ _ _ _ B) in Hx as [?|[h Hh]]; [done|]. destruct (bfs_previous _ _ _ _ B _ _ Hh) as (H1 & H2 & _ & H4 & Hdx).
    rewrite (Hsub _ _ Hh). cbn [mbind option_bind]. destruct (IH (src h)) as (hows & -> & Hl & Hb); [apply elem_of_app; by left|lia|].
    cbn [mbind option_bind]. exists (h :: hows). split; [done|]. split; [cbn; lia|done].
Qed.

(** A walk to the goal is no shorter than the one that the search found. *)
Lemma bfs_shortest d done previous u queue m v :
  bfs d done previous (u :: queue) -> nsteps passes m start v -> leads v goal -> (d u <= m)%nat.
Proof.
  intros B Hw [h Hg]. destruct (le_lt_dec (d u) m) as [?|Hlt]; [done|]. exfalso.
  assert (v ∈ done) as Hv; [|by destruct (bfs_seen _ _ _ _ B v goal h Hv Hg) as [? _]]. clear Hg h.
  assert (v ∈ done /\ (d v <= m)%nat) as [? _]; [|done]. revert v Hw Hlt.
  assert (forall v, v ∈ done ++ u :: queue -> (d v < d u)%nat -> v ∈ done) as Hin.
  { intros v [Hv|Hv]%elem_of_app Hlt; [done|]. pose proof (bfs_sorted _ _ _ _ B) as Hs. apply StronglySorted_inv in Hs as [_ Hs].
    rewrite Forall_forall in Hs. apply elem_of_cons in Hv as [->|Hv]; [lia|]. specialize (Hs v Hv). lia. }
  induction m as [|m IH]; intros v Hw Hlt.
  - inversion Hw; subst. pose proof (bfs_start _ _ _ _ B). split; [|lia]. apply Hin; [|lia]. apply (bfs_visited _ _ _ _ B). by left.
  - apply nsteps_inv_r in Hw as (w & Hw & [[h Hh] Ha]). destruct (IH w Hw ltac:(lia)) as [Hwd Hdw].
    destruct (bfs_seen _ _ _ _ B w v h Hwd Hh) as [_ Hv]. destruct (Hv Ha) as [Hvq Hdv]. split; [apply Hin; [done|lia]|lia].
Qed.

Lemma bfs_none d done previous m v : bfs d done previous [] -> nsteps passes m start v -> ~ leads v goal.
Proof.
  intros B Hw. assert (v ∈ done) as Hv.
  { revert v Hw. induction m as [|m IH]; intros v Hw.
    - inversion Hw; subst. pose proof (proj2 (bfs_visited _ _ _ _ B start) (or_introl eq_refl)) as H. by rewrite app_nil_r in H.
    - apply nsteps_inv_r in Hw as (w & Hw & [[h Hh] Ha]). destruct (bfs_seen _ _ _ _ B w v h (IH w Hw) Hh) as [_ Hv].
      destruct (Hv Ha) as [H _]. by rewrite app_nil_r in H. }
  intros [h Hg]. by destruct (bfs_seen _ _ _ _ B v goal h Hv Hg) as [? _].
Qed.

Lemma bfs_bound d done previous queue : bfs d done previous queue -> (length (done ++ queue) <= S (length within))%nat.
Proof.
  intros B. change (S (length within)) with (length (start :: within)). apply submseteq_length, NoDup_submseteq; [apply B|].
  intros x Hx. apply (bfs_visited _ _ _ _ B) in Hx as [->|[h Hh]]; [left|right].
  destruct (bfs_previous _ _ _ _ B _ _ Hh) as (H1 & H2 & _). by apply (admits_within _ _ _ H1).
Qed.

(** The search ends.  It answers what the goal was reached by after a shortest walk, with what
    leads back to the start; or that no walk leads to the goal. *)
Lemma search_spec fuel d done previous queue :
  bfs d done previous queue -> (S (length within) <= fuel + length done)%nat ->
  exists r, search goal admits children fuel previous queue = Some r /\
    match r with
    | Some (h, previous') => (goal, h) ∈ children (src h) /\
        exists hows, trace src (S (length within)) (src h) start previous' = Some hows /\ back (src h) hows /\
          forall m v, nsteps passes m start v -> leads v goal -> (length hows <= m)%nat
    | None => forall m v, nsteps passes m start v -> ~ leads v goal
    end.
Proof.
  revert d done previous queue. induction fuel as [|fuel IH]; intros d done previous [|u queue] B Hf; cbn [search].
  1,3: eexists; split; [done|]; intros m v; by apply (bfs_none _ _ _ _ _ B).
  - pose proof (bfs_bound _ _ _ _ B) as Hb. rewrite length_app in Hb. cbn in *. lia.
  - pose proof (scan_spec (children u) previous queue) as Hs.
    destruct (scan goal admits (children u) previous queue) as [[h previous']|[previous' queue']] eqn:E.
    + destruct Hs as (Hg & new & Hs). eexists. split; [done|]. cbv beta iota. pose proof (src_children _ _ _ Hg) as Eu. rewrite Eu. split; [done|].
      destruct (trace_spec d done previous (u :: queue) previous' (S (length within)) u B) as (hows & Ht & Hl & Hb).
      * apply (scanned_old _ _ _ _ Hs).
      * apply elem_of_app. right. left.
      * pose proof (bfs_bound _ _ _ _ B) as Hb. rewrite length_app in Hb. cbn in Hb.
        pose proof (bfs_index _ _ _ _ B (length done) u ltac:(by rewrite lookup_app_r, Nat.sub_diag)). lia.
      * exists hows. split; [done|]. split; [done|]. intros m v Hw Hl'. rewrite Hl. by apply (bfs_shortest _ _ _ _ _ _ _ B Hw).
    + destruct (bfs_step _ _ _ _ _ _ _ B E) as (d' & B'). apply (IH d' _ _ _ B'). rewrite length_app. cbn. lia.
Qed.
End SearchFacts.

(** * Cycles *)

(** Steps from [x] over [l] to [y]. *)
Fixpoint along (R : str -> str -> Prop) (x : str) (l : list str) (y : str) : Prop :=
  match l with
  | [] => R x y
  | z :: l => R x z /\ along R z l y
  end.

Lemma along_snoc (R : str -> str -> Prop) x l y z : along R x l y -> R y z -> along R x (l ++ [y]) z.
Proof. revert x. induction l as [|w l IH]; intros x; cbn; [done|]. intros [? ?] ?. split; [done|]. by apply IH. Qed.

Section Rel.
Context (R1 R2 : str -> str -> Prop).
Hypothesis same : forall x y, R1 x y <-> R2 x y.

Lemma along_iff x l y : along R1 x l y <-> along R2 x l y.
Proof. revert x. induction l as [|z l IH]; intros x; cbn; [apply same|]. by rewrite same, IH. Qed.

Lemma rtc_iff x y : rtc R1 x y <-> rtc R2 x y.
Proof. split; induction 1; try apply rtc_refl; (eapply rtc_l; [by apply same|done]). Qed.

Lemma nsteps_iff n x y : nsteps R1 n x y <-> nsteps R2 n x y.
Proof. split; induction 1; try apply nsteps_O; (eapply nsteps_l; [by apply same|done]). Qed.
End Rel.

Section CycleChain.
Context (adjacency : Adjacency) (start : str) (others : list str).
Let members := start :: others.
Hypothesis members_class : forall x y, x ∈ members -> (y ∈ members <-> mutual adjacency x y).
Hypothesis members_many : (SMALLEST_CYCLE <= length members)%nat.
Hypothesis members_NoDup : NoDup members.

Let admits child := bool_decide (child ∈ members).
Let children node := map (fun child : str => (child, node)) (neighbours adjacency node).

Lemma children_edge x c h : (c, h) ∈ children x <-> edge adjacency x c /\ h = x.
Proof.
  unfold children, edge. rewrite list_elem_of_fmap. split.
  - by intros (c' & [= -> ->] & Hc).
  - intros [Hc ->]. by exists c.
Qed.

Lemma passes_edge m v : nsteps (edge adjacency) m start v -> rtc (edge adjacency) v start -> nsteps (passes admits children) m start v.
Proof.
  revert v. induction m as [|m IH]; intros v Hw Hr; [inversion Hw; subst; constructor|].
  apply nsteps_inv_r in Hw as (w & Hw & He). eapply nsteps_r.
  - apply IH; [done|]. by eapply rtc_l.
  - split; [exists w; by apply children_edge|]. apply bool_decide_eq_true. apply (members_class start); [left|].
    split; [|done]. eapply rtc_r; [by eapply rtc_nsteps_2|done].
Qed.

Lemma cycle_chain_spec : exists rest, cycle_chain members adjacency = Some (Some (start :: rest)) /\
  along (edge adjacency) start rest start /\
  forall n, (0 < n)%nat -> nsteps (edge adjacency) n start start -> (length (start :: rest) <= n)%nat.
Proof.
  assert (forall n, (0 < n)%nat -> nsteps (edge adjacency) n start start ->
    exists m v, n = S m /\ nsteps (passes admits children) m start v /\ leads children v start) as Hclosed.
  { intros [|m] Hn Hw; [lia|]. apply nsteps_inv_r in Hw as (v & Hw & He). exists m, v. split; [done|]. split.
    - apply passes_edge; [done|]. by apply rtc_once.
    - exists v. by apply children_edge. }
  assert (cycle_chain members adjacency =
    (found ← search start admits children (S (length members)) ∅ [start];
     match found with
     | Some (node, previous) => chain ← chain_back (S (length members)) node start previous; Some (Some chain)
     | None => Some None
     end)) as -> by reflexivity.
  destruct (search_spec id start start admits children members) with (fuel := S (length members)) (d := fun _ : str => O)
    (done := @nil str) (previous := ∅ : gmap str str) (queue := [start]) as (r & -> & Hr).
  - intros u c h Hc. by apply children_edge in Hc as [_ ->].
  - done.
  - intros u c h _ Ha. by apply bool_decide_eq_true in Ha.
  - by apply bfs_init.
  - lia.
  - cbn [mbind option_bind]. destruct r as [[h previous]|].
    + destruct Hr as (Hg & hows & Ht & Hb & Hmin). change (id h) with h in *. unfold chain_back. rewrite Ht.
      cbn [mbind option_bind].
      assert (forall hows x z, back id start admits children x hows -> edge adjacency x z ->
        exists rest, reverse (x :: hows) = start :: rest /\ along (edge adjacency) start rest z) as Hback.
      { clear -children. induction hows as [|k hows IH]; intros x z; cbn [back].
        - intros -> He. by exists [].
        - intros (Hk & _ & Hb) He. apply children_edge in Hk as [Hk _]. change (id k) with k in *. destruct (IH _ _ Hb Hk) as (rest & Hrev & Hal).
          exists (rest ++ [x]). rewrite reverse_cons, Hrev. split; [done|]. by apply along_snoc. }
      apply children_edge in Hg as [Hg _]. destruct (Hback _ _ _ Hb Hg) as (rest & Hrev & Hal). exists rest. rewrite Hrev.
      split; [done|]. split; [done|]. intros n Hn Hw. destruct (Hclosed n Hn Hw) as (m & v & -> & Hm & Hv).
      rewrite <- Hrev, length_reverse. cbn. specialize (Hmin m v Hm Hv). lia.
    + exfalso. destruct others as [|y l] eqn:Eo; [unfold SMALLEST_CYCLE in *; cbn in *; lia|].
      assert (y <> start) as Hne. { intros ->. apply NoDup_cons in members_NoDup as [Hn _]. apply Hn. left. }
      destruct (proj1 (members_class start y ltac:(left)) ltac:(right; left)) as [H1 H2].
      apply rtc_nsteps in H1 as [n1 H1]. apply rtc_nsteps in H2 as [n2 H2].
      destruct (Hclosed (n1 + n2)%nat) as (m & v & _ & Hm & Hv).
      * destruct n1; [inversion H1; congruence|lia].
      * by eapply nsteps_trans.
      * by apply (Hr m v).
Qed.
End CycleChain.

(** One file imports the other. *)
Definition imports (g : SymbolGraph) (x y : str) : Prop :=
  exists e, e ∈ edges g /\ relation e = Imports /\ path (source e) = x /\ path (target e) = y.

Lemma adjacency_imports g x y : edge (import_adjacency g) x y <-> imports g x y.
Proof.
  unfold edge, neighbours, import_adjacency. rewrite lookup_fmap.
  assert (y ∈ default [] (group_entries (map (fun e => (path (source e), path (target e))) (import_edges g)) !! x) <-> imports g x y) as <-.
  - rewrite group_entries_lookup, list_elem_of_fmap. split.
    + intros ([k v] & -> & Hin). rewrite list_elem_of_In, filter_In, <- list_elem_of_In in Hin.
      destruct Hin as [Hin Hk%bool_decide_eq_true]. cbn in *. subst k. apply list_elem_of_fmap in Hin as (e & [= -> ->] & He).
      unfold import_edges in He. rewrite list_elem_of_In, filter_In, <- list_elem_of_In in He. destruct He as [He Hr%bool_decide_eq_true].
      by exists e.
    + intros (e & He & Hr & <- & <-). exists (path (source e), path (target e)). split; [done|].
      rewrite list_elem_of_In, filter_In, <- list_elem_of_In. split; [|by apply bool_decide_eq_true].
      apply list_elem_of_fmap. exists e. split; [done|]. unfold import_edges. rewrite list_elem_of_In, filter_In, <- list_elem_of_In.
      split; [done|by apply bool_decide_eq_true].
  - destruct (group_entries _ !! x) as [l|]; [|done]. cbn. by rewrite dedup_elem, sort_strings_elem.
Qed.

(** What a reported cycle promises. *)
Record is_cycle (g : SymbolGraph) (c : Cycle) : Prop := {
  cycle_sorted : sorted_strings (members c);
  cycle_many : (SMALLEST_CYCLE <= length (members c))%nat;
  cycle_class x y : x ∈ members c -> (y ∈ members c <-> rtc (imports g) x y /\ rtc (imports g) y x);
  cycle_shortest : exists start rest, cycle_files c = start :: rest /\ head (members c) = Some start /\
    along (imports g) start rest start /\
    forall n, (0 < n)%nat -> nsteps (imports g) n start start -> (length (cycle_files c) <= n)%nat
}.

Lemma cycle_le_total a b : cycle_le a b = true \/ cycle_le b a = true.
Proof. apply keys_le_total. Qed.

Lemma cycle_le_trans a b c : cycle_le a b = true -> cycle_le b c = true -> cycle_le a c = true.
Proof. apply keys_le_trans. Qed.

Lemma class_cycle g found component :
  Forall sorted_strings found -> NoDup (concat found) ->
  (forall c x y, c ∈ found -> x ∈ c -> (y ∈ c <-> mutual (import_adjacency g) x y)) ->
  component ∈ List.filter (fun members => SMALLEST_CYCLE <=? length members)%nat found ->
  exists files, cycle_chain component (import_adjacency g) = Some (Some files) /\
    is_cycle g {| cycle_files := files; members := component |}.
Proof.
  intros Hs Hn Hc Hin. rewrite list_elem_of_In, filter_In, <- list_elem_of_In in Hin. destruct Hin as [Hin Hm%Nat.leb_le].
  destruct component as [|start others]; [unfold SMALLEST_CYCLE in Hm; cbn in Hm; lia|].
  assert (NoDup (start :: others)) as Hnd.
  { apply list_elem_of_split in Hin as (l1 & l2 & ->). rewrite concat_app in Hn. cbn in Hn.
    apply NoDup_app in Hn as (_ & _ & Hn). change (start :: others ++ concat l2) with ((start :: others) ++ concat l2) in Hn.
    by apply NoDup_app in Hn as (? & _). }
  destruct (cycle_chain_spec (import_adjacency g) start others) as (rest & -> & Hal & Hmin); [by intros; apply Hc|done|done|].
  exists (start :: rest). split; [done|]. split; cbn [members cycle_files].
  - rewrite Forall_forall in Hs. by apply Hs.
  - done.
  - intros x y Hx. rewrite (Hc _ x y Hin Hx). unfold mutual. by rewrite !(rtc_iff _ _ (adjacency_imports g)).
  - exists start, rest. split; [done|]. split; [done|]. split; [by apply (along_iff _ _ (adjacency_imports g))|].
    intros n H0 H1. apply Hmin; [done|]. by apply (nsteps_iff _ _ (adjacency_imports g)).
Qed.

(** C36: The import cycles are computed for every graph, in order of length and then of files.  They
    are the classes of two or more files that import one another, each once; the chain of each
    starts at its first file, follows imports and comes back, and no way back is shorter; and
    every two scanned files that import each other, however indirectly, share a cycle. *)
Theorem import_cycles_exact p paths :
  let g := finish p paths in
  exists cycles, import_cycles g = Some cycles /\
    StronglySorted (fun a b => cycle_le a b = true) cycles /\ NoDup (concat (map members cycles)) /\
    Forall (is_cycle g) cycles /\
    forall x y, x ∈ paths -> x <> y -> rtc (imports g) x y -> rtc (imports g) y x ->
      exists c, c ∈ cycles /\ x ∈ members c /\ y ∈ members c.
Proof.
  intros g. destruct (components_partition (files g) (import_adjacency g)) as (found & Hf & Hn & Hs & Hr & Hc).
  set (chosen := List.filter (fun members => SMALLEST_CYCLE <=? length members)%nat found).
  pose proof (class_cycle g found) as Hcl. fold chosen in Hcl.
  assert (exists cycles, mapM (fun members =>
      chain ← cycle_chain members (import_adjacency g);
      Some (match chain with Some files => Some {| cycle_files := files; members := members |} | None => None end)) chosen
      = Some (map Some cycles) /\ map members cycles = chosen /\ Forall (is_cycle g) cycles) as (cycles & Hm & Hmem & Hall).
  { assert (forall c, c ∈ chosen -> exists files, cycle_chain c (import_adjacency g) = Some (Some files) /\
      is_cycle g {| cycle_files := files; members := c |}) as Hone by (intros c Hin; by apply Hcl).
    clearbody chosen. clear -Hone. induction chosen as [|c l IH]; [by exists []|].
    destruct (Hone c ltac:(left)) as (files & Ec & Hi). destruct IH as (cycles & Hm & Hmem & Hall); [intros; apply Hone; by right|].
    exists ({| cycle_files := files; members := c |} :: cycles). cbn [mapM]. rewrite Ec. cbn [mbind option_bind].
    rewrite Hm. cbn. rewrite Hmem. split; [done|]. split; [done|]. by constructor. }
  assert (omap id (map Some cycles) = cycles) as Hom by (clear; induction cycles as [|c l IH]; [done|]; cbn; by rewrite IH).
  exists (sort_by cycle_le cycles). unfold import_cycles. rewrite Hf. cbn [mbind option_bind]. fold chosen. rewrite Hm.
  cbn [mbind option_bind]. rewrite Hom. split; [done|].
  split; [apply sort_by_sorted; [apply cycle_le_total|apply cycle_le_trans]|]. split; [|split].
  - assert (concat (map members (sort_by cycle_le cycles)) ≡ₚ concat chosen) as ->.
    { rewrite <- Hmem. by rewrite (Permutation_map members (sort_by_perm cycle_le cycles)). }
    by apply NoDup_concat_filter.
  - by rewrite sort_by_perm.
  - intros x y Hx Hne Hxy Hyx. rewrite <- (rtc_iff _ _ (adjacency_imports g)) in Hxy, Hyx.
    assert (x ∈ concat found) as Hin by (apply Hr; exists x; split; [by apply sort_strings_elem|apply rtc_refl]).
    apply elem_of_concat in Hin as (c & Hxc & Hin). assert (y ∈ c) as Hyc by (by apply (Hc c x y Hin Hxc)).
    assert (c ∈ chosen) as Hch.
    { unfold chosen. rewrite list_elem_of_In, filter_In, <- list_elem_of_In. split; [done|]. apply Nat.leb_le.
      unfold SMALLEST_CYCLE. destruct c as [|a [|b l]]; [by apply elem_of_nil in Hxc| |cbn; lia].
      apply list_elem_of_singleton in Hxc as ->. by apply list_elem_of_singleton in Hyc as ->. }
    rewrite <- Hmem in Hch. apply list_elem_of_fmap in Hch as (cy & -> & Hcy). exists cy. by rewrite sort_by_perm.
Qed.

(** * Chains *)

(** Kept import edges in a row. *)
Fixpoint edges_along (g : SymbolGraph) (keeps : str -> Z -> bool) (from : str) (chain : list SymbolEdge) (to : str) : Prop :=
  match chain with
  | [] => from = to
  | e :: chain => e ∈ edges g /\ kept keeps e = true /\ path (source e) = from /\ edges_along g keeps (path (target e)) chain to
  end.

Lemma edges_along_snoc g keeps from chain e to :
  edges_along g keeps from (chain ++ [e]) to <->
  edges_along g keeps from chain (path (source e)) /\ e ∈ edges g /\ kept keeps e = true /\ path (target e) = to.
Proof.
  revert from. induction chain as [|e' chain IH]; intros from; cbn; [naive_solver|]. rewrite IH. naive_solver.
Qed.

Section Chain.
Context (p : Parts) (paths : list str) (from to : str) (keeps : str -> Z -> bool).
Hypothesis (Hlinked : linked p).
Let g := finish p paths.
Let children node := map (fun e => (path (target e), e)) (List.filter (kept keeps) (outgoing g node)).
Let admits (child : str) := bool_decide (child <> from).

Lemma chain_children u c h :
  (c, h) ∈ children u <-> h ∈ edges g /\ kept keeps h = true /\ path (source h) = u /\ c = path (target h).
Proof.
  destruct (finish_edges p paths) as (_ & _ & He). pose proof (outgoing_filter p paths u) as Ho. unfold children. fold g in Ho, He.
  cbv zeta in Ho. rewrite Ho, list_elem_of_fmap.
  assert (forall e, e ∈ edges g -> kept keeps e = true -> node (source e) = path (source e)) as Hfile.
  { intros e Hin Hk. unfold kept in Hk. bool_hyps. apply (linked_imports p e Hlinked); [by apply He|done]. }
  split.
  - intros (e & [= -> ->] & Hin). rewrite list_elem_of_In, !filter_In, <- list_elem_of_In in Hin.
    destruct Hin as [[Hin Hn%bool_decide_eq_true] Hk]. by rewrite <- (Hfile e).
  - intros (Hin & Hk & Hs & ->). exists h. split; [done|]. rewrite list_elem_of_In, !filter_In, <- list_elem_of_In.
    split; [|done]. split; [done|]. apply bool_decide_eq_true. by rewrite (Hfile h).
Qed.

Lemma chain_leads x y : leads children x y <-> exists e, e ∈ edges g /\ kept keeps e = true /\ path (source e) = x /\ path (target e) = y.
Proof.
  split.
  - intros (h & (H1 & H2 & H3 & ->)%chain_children). by exists h.
  - intros (e & H1 & H2 & H3 & H4). exists e. by apply chain_children.
Qed.

(** Coming back to the start is a detour. *)
Lemma leads_passes m v : nsteps (leads children) m from v -> exists m', (m' <= m)%nat /\ nsteps (passes admits children) m' from v.
Proof.
  revert v. induction m as [|m IH]; intros v Hw; [inversion Hw; subst; exists O; split; [done|constructor]|].
  apply nsteps_inv_r in Hw as (w & Hw & Hl). destruct (IH w Hw) as (m' & Hle & Hw').
  destruct (decide (v = from)) as [->|Hne]; [exists O; split; [lia|constructor]|].
  exists (S m'). split; [lia|]. eapply nsteps_r; [done|]. split; [done|by apply bool_decide_eq_true].
Qed.

Lemma edges_along_nsteps chain v : edges_along g keeps from chain v -> nsteps (leads children) (length chain) from v.
Proof.
  revert v. induction chain as [|e chain IH] using rev_ind; intros v; [cbn; intros <-; constructor|].
  rewrite edges_along_snoc. intros (Hc & H1 & H2 & H3). rewrite length_app, Nat.add_1_r. eapply nsteps_r; [by apply IH|].
  apply chain_leads. by exists e.
Qed.

Lemma back_edges x hows :
  back (fun e => path (source e)) from admits children x hows -> edges_along g keeps from (reverse hows) x.
Proof.
  revert x. induction hows as [|h hows IH]; intros x; cbn [back]; [by intros ->|].
  intros ((H1 & H2 & H3 & ->)%chain_children & _ & Hb). rewrite reverse_cons, edges_along_snoc. by split_and!; [apply IH|..].
Qed.

Lemma import_chain_spec :
  exists r, import_chain g from to keeps = Some r /\
    match r with
    | Some chain => chain <> [] /\ edges_along g keeps from chain to /\
        forall other, other <> [] -> edges_along g keeps from other to -> (length chain <= length other)%nat
    | None => forall chain, chain <> [] -> ~ edges_along g keeps from chain to
    end.
Proof.
  assert (forall other, other <> [] -> edges_along g keeps from other to ->
    exists m v, (S m <= length other)%nat /\ nsteps (passes admits children) m from v /\ leads children v to) as Hother.
  { intros other Hne. destruct other as [|e other _] using rev_ind; [done|]. rewrite edges_along_snoc. intros (Hc & H1 & H2 & H3).
    destruct (leads_passes _ _ (edges_along_nsteps _ _ Hc)) as (m & Hm & Hw). exists m, (path (source e)).
    rewrite length_app. cbn. split; [lia|]. split; [done|]. apply chain_leads. by exists e. }
  assert (import_chain g from to keeps =
    (found ← search to admits children (S (length (edges g))) ∅ [from];
     match found with
     | Some (last, previous) => chain ← edges_back (S (length (edges g))) last from previous; Some (Some chain)
     | None => Some None
     end)) as -> by reflexivity.
  assert (length (map (fun e => path (target e)) (edges g)) = length (edges g)) as El by apply length_map.
  destruct (search_spec (fun e => path (source e)) to from admits children (map (fun e => path (target e)) (edges g)))
    with (fuel := S (length (edges g))) (d := fun _ : str => O) (done := @nil str) (previous := ∅ : gmap str SymbolEdge)
    (queue := [from]) as (r & -> & Hr).
  - intros u c h Hc. by apply chain_children in Hc as (_ & _ & ? & _).
  - intros Ha. by apply bool_decide_eq_true in Ha.
  - intros u c h Hc _. apply chain_children in Hc as (Hin & _ & _ & ->). apply list_elem_of_fmap. by exists h.
  - apply bfs_init.
  - rewrite El. lia.
  - cbn [mbind option_bind]. destruct r as [[last previous]|].
    + destruct Hr as (Hg & hows & Ht & Hb & Hmin). rewrite El in Ht. unfold edges_back. rewrite Ht. cbn [mbind option_bind].
      eexists. split; [done|]. cbv beta iota. rewrite reverse_cons. split; [by destruct (reverse hows)|].
      apply chain_children in Hg as (H1 & H2 & H3 & H4). split.
      * rewrite edges_along_snoc. by split_and!; [apply back_edges|..].
      * intros other Hne Ho. destruct (Hother _ Hne Ho) as (m & v & Hm & Hw & Hl). specialize (Hmin m v Hw Hl).
        rewrite length_app, length_reverse. cbn. lia.
    + eexists. split; [done|]. intros other Hne Ho. destruct (Hother _ Hne Ho) as (m & v & Hm & Hw & Hl). by apply (Hr m v).
Qed.
End Chain.

(** The chain between two files is searched on every graph: it is a shortest one among the import
    edges that are kept, and there is none exactly when the search finds none. *)
Theorem import_chain_shortest p paths from to keeps (Hlinked : linked p) :
  let g := finish p paths in
  exists r, import_chain g from to keeps = Some r /\
    match r with
    | Some chain => chain <> [] /\ edges_along g keeps from chain to /\
        forall other, other <> [] -> edges_along g keeps from other to -> (length chain <= length other)%nat
    | None => forall chain, chain <> [] -> ~ edges_along g keeps from chain to
    end.
Proof. by apply import_chain_spec. Qed.

Module CycleDemo.
(** a, b and c import one another in a ring; a imports d. *)
Definition parts : Parts :=
  foldl (fun p '(x, y) => import_edge p x (y, 1%Z, y)) no_parts
    [(lit "a", lit "b"); (lit "b", lit "c"); (lit "c", lit "a"); (lit "a", lit "d")].

Definition graph : SymbolGraph := finish parts [lit "d"; lit "c"; lit "b"; lit "a"].

Lemma cycle_parts_linked : linked parts.
Proof. cbn [parts foldl]. do 4 apply linked_import. apply linked_none. Qed.

Example one_cycle : option_map (map cycle_files) (import_cycles graph) = Some [[lit "a"; lit "b"; lit "c"]].
Proof. vm_compute. reflexivity. Qed.

Definition from_b_to_d : option (option (list str)) :=
  option_map (option_map (map (fun e => path (target e)))) (import_chain graph (lit "b") (lit "d") (fun _ _ => true)).

Example chain_found : from_b_to_d = Some (Some [lit "c"; lit "a"; lit "d"]).
Proof. vm_compute. reflexivity. Qed.
End CycleDemo.

Lemma import_chain_shortest_witness :
  linked CycleDemo.parts /\
  exists chain, import_chain CycleDemo.graph (lit "b") (lit "d") (fun _ _ => true) = Some (Some chain) /\
    edges_along CycleDemo.graph (fun _ _ => true) (lit "b") chain (lit "d").
Proof.
  split; [exact CycleDemo.cycle_parts_linked|].
  destruct (import_chain_shortest CycleDemo.parts [lit "d"; lit "c"; lit "b"; lit "a"] (lit "b") (lit "d") (fun _ _ => true)
    CycleDemo.cycle_parts_linked) as ([chain|] & E & H).
  - exists chain. split; [exact E|apply H].
  - exfalso. assert (CycleDemo.from_b_to_d = Some None) as Hn by (unfold CycleDemo.from_b_to_d; unfold CycleDemo.graph; by rewrite E).
    rewrite CycleDemo.chain_found in Hn. done.
Defined.
