(* ===== verification/Flood.v ===== *)
(** The file graph and what reaches a set of files: [FileGraph] of crates/graph/src/files.rs and
    crates/graph/src/flood.rs.

    The weights that the name index gives are inputs.  [flood_exact] shows that the walk, level by
    level and up to its visit bound, reports files with the fewest hops that lead from them to a
    seed, and all of them when it does not stop early. *)

From stdpp Require Import relations.
From Stdlib Require Import Floats.SpecFloat.
From S2P Require Import Prelude RustStr Ordered JsonFloat.

Notation f64 := spec_float (only parsing).

(** * The file graph *)

Record FileGraph := {
  nodes : list str;
  edges : list (str * str * f64);
  pairs : gmap (str * str) nat
}.

(** [binary_search] of the sorted nodes. *)
Definition position (g : FileGraph) (path : str) : option nat := fst <$> list_find (fun n => n = path) (nodes g).

Definition weight (g : FileGraph) (source target : str) : option f64 :=
  i ← pairs g !! (source, target); snd <$> edges g !! i.

Definition edge_count (g : FileGraph) : nat := length (edges g).

(** [None] is the panic of a source that is not a node, or of an index out of the edges. *)
Definition add (g : FileGraph) (source target : str) (w : f64) : option FileGraph :=
  i ← position g source;
  source ← nodes g !! i;
  match pairs g !! (source, target) with
  | Some i =>
      '(_, held) ← edges g !! i;
      Some {| nodes := nodes g; edges := <[i := (source, target, f64_add held w)]> (edges g); pairs := pairs g |}
  | None =>
      Some {| nodes := nodes g; edges := edges g ++ [(source, target, f64_add f64_zero w)];
              pairs := <[(source, target) := length (edges g)]> (pairs g) |}
  end.

(** The graph of the contributions, in their order. *)
Fixpoint add_all (g : FileGraph) (contributions : list (str * str * f64)) : option FileGraph :=
  match contributions with
  | [] => Some g
  | (source, target, w) :: rest => g ← add g source target w; add_all g rest
  end.

Definition from_parts (nodes : list str) (contributions : list (str * str * f64)) : option FileGraph :=
  add_all {| nodes := nodes; edges := []; pairs := ∅ |} contributions.

(** * The flood *)

Definition MAX_FLOOD_VISITED : nat := Z.to_nat 20000.

Record Reached := { reached_path : str; depth : nat }.
Record Flood := { reached : list Reached; exhausted : bool }.

Record Walk := {
  incoming_of : gmap str (list str);
  seen : gset str;
  depths : gmap str nat;
  visited : nat
}.

Definition incoming (g : FileGraph) : gmap str (list str) :=
  sort_strings <$> group_entries (map (fun '(source, target, _) => (target, source)) (edges g)).

(** The referrers that were not seen, and what is seen with them. *)
Fixpoint fresh_of (referrers : list str) (seen : gset str) : list str * gset str :=
  match referrers with
  | [] => ([], seen)
  | other :: rest =>
      if decide (other ∈ seen) then fresh_of rest seen
      else let '(fresh, seen) := fresh_of rest ({[other]} ∪ seen) in (other :: fresh, seen)
  end.

(** One level: the walk, the next frontier, and whether the bound stopped it. *)
Fixpoint level (bound : nat) (walk : Walk) (frontier : list str) (depth : nat) (following : list str) : Walk * list str * bool :=
  match frontier with
  | [] => (walk, following, false)
  | node :: frontier =>
      let count := S (visited walk) in
      if (bound <? count)%nat
      then ({| incoming_of := incoming_of walk; seen := seen walk; depths := depths walk; visited := count |}, following, true)
      else
        let referrers := default [] (incoming_of walk !! node) in
        let '(fresh, seen) := fresh_of referrers (seen walk) in
        let depths := foldl (fun depths other => <[other := depth]> depths) (depths walk) fresh in
        level bound {| incoming_of := incoming_of walk; seen := seen; depths := depths; visited := count |}
          frontier depth (following ++ fresh)
  end.

(** The levels from [depth] on; [remaining] are left to [max_depth]. *)
Fixpoint levels (bound : nat) (remaining : nat) (walk : Walk) (frontier : list str) (depth : nat) : Walk * bool :=
  match remaining, frontier with
  | O, _ | _, [] => (walk, false)
  | S remaining, _ =>
      let '(walk, frontier, exhausted) := level bound walk frontier (S depth) [] in
      if exhausted then (walk, true) else levels bound remaining walk frontier (S depth)
  end.

Definition row_le (a b : Reached) : bool :=
  keys_le [[Z.of_nat (depth a)]; reached_path a] [[Z.of_nat (depth b)]; reached_path b].

(** With the visit bound as a parameter. *)
Definition flood_within (bound : nat) (g : FileGraph) (seeds : list str) (max_depth : nat) : Flood :=
  let frontier := dedup (sort_strings (omap (fun seed => i ← position g seed; nodes g !! i) seeds)) in
  if bool_decide (frontier = []) then {| reached := []; exhausted := false |}
  else
    let walk := {| incoming_of := incoming g; seen := list_to_set frontier; depths := ∅; visited := O |} in
    let '(walk, exhausted) := levels bound max_depth walk frontier O in
    {| reached := sort_by row_le (map (fun '(path, d) => {| reached_path := path; depth := d |}) (btree_iter (depths walk)));
       exhausted := exhausted |}.

Definition flood_backward := flood_within MAX_FLOOD_VISITED.

(** * What reaches the seeds *)

Section Facts.
Context (g : FileGraph) (seeds : list str) (bound : nat).
Implicit Types (x y : str).

(** [x] refers to [y]. *)
Definition refers x y : Prop := exists w, (x, y, w) ∈ edges g.

Definition hops n x : Prop := exists seed, seed ∈ seeds /\ seed ∈ nodes g /\ nsteps refers n x seed.

Definition fewest n x : Prop := hops n x /\ forall m, (m < n)%nat -> ~ hops m x.

Lemma incoming_refers x y : x ∈ default [] (incoming g !! y) <-> refers x y.
Proof.
  unfold incoming. rewrite lookup_fmap.
  assert (x ∈ default [] (group_entries (map (fun '(source, target, _) => (target, source)) (edges g)) !! y) <-> refers x y) as <-.
  - rewrite group_entries_lookup, list_elem_of_fmap. split.
    + intros ([k v] & -> & Hin). rewrite list_elem_of_In, filter_In, <- list_elem_of_In in Hin.
      destruct Hin as [Hin Hk%bool_decide_eq_true]. cbn in *. subst k. apply list_elem_of_fmap in Hin as ([[s t] w] & [= -> ->] & He).
      by exists w.
    + intros [w Hw]. exists (y, x). split; [done|]. rewrite list_elem_of_In, filter_In, <- list_elem_of_In.
      split; [|by apply bool_decide_eq_true]. apply list_elem_of_fmap. by exists (x, y, w).
  - destruct (group_entries _ !! y); [|done]. cbn. by rewrite sort_strings_elem.
Qed.

Lemma fresh_of_spec referrers seen0 fresh seen1 : fresh_of referrers seen0 = (fresh, seen1) ->
  NoDup fresh /\ seen1 = seen0 ∪ list_to_set fresh /\ forall x, x ∈ fresh <-> x ∈ referrers /\ x ∉ seen0.
Proof.
  revert seen0 fresh seen1. induction referrers as [|o rest IH]; intros seen0 fresh seen1; cbn [fresh_of].
  { intros [= <- <-]. split; [constructor|]. split; [set_solver|]. intros x. split; [by intros ?%elem_of_nil|]. by intros [?%elem_of_nil _]. }
  case_decide as Ho.
  - intros E. destruct (IH _ _ _ E) as (Hn & Hs & Hf). split; [done|]. split; [done|]. intros x. rewrite Hf, elem_of_cons.
    split; [tauto|]. intros [[->|?] ?]; done.
  - destruct (fresh_of rest ({[o]} ∪ seen0)) as [f s] eqn:E. intros [= <- <-]. destruct (IH _ _ _ E) as (Hn & Hs & Hf). split.
    + apply NoDup_cons. split; [|done]. rewrite Hf, elem_of_union, elem_of_singleton. tauto.
    + split; [by rewrite Hs, list_to_set_cons, (union_comm_L {[o]}), union_assoc_L|].
      intros x. rewrite !elem_of_cons, Hf, elem_of_union, elem_of_singleton.
      destruct (decide (x = o)) as [->|]; tauto.
Qed.

(** The seeds that are nodes, as the frontier of the first level. *)
Definition starts : list str := dedup (sort_strings (omap (fun seed => i ← position g seed; nodes g !! i) seeds)).

(** The walk before the levels after [k]. *)
Record flood_ok (k : nat) (walk : Walk) (frontier : list str) : Prop := {
  flood_incoming : incoming_of walk = incoming g;
  flood_frontier x : x ∈ frontier <-> fewest k x;
  flood_NoDup : NoDup frontier;
  flood_seen x : x ∈ seen walk <-> exists m, (m <= k)%nat /\ hops m x;
  flood_split x : x ∈ seen walk -> x ∈ frontier \/ exists m, (m < k)%nat /\ hops m x;
  flood_depths x d : depths walk !! x = Some d <-> fewest d x /\ (1 <= d <= k)%nat;
  flood_visited : (visited walk + length frontier = size (seen walk))%nat;
  flood_size : size (seen walk) = (size (depths walk) + length starts)%nat
}.

(** A level after the nodes [done] of its frontier. *)
Record level_ok (k : nat) (walk0 : Walk) (done : list str) (walk : Walk) (following : list str) : Prop := {
  level_incoming : incoming_of walk = incoming_of walk0;
  level_seen : seen walk = seen walk0 ∪ list_to_set following;
  level_NoDup : NoDup following;
  level_following x : x ∈ following <-> x ∉ seen walk0 /\ exists y, y ∈ done /\ refers x y;
  level_depths x d : depths walk !! x = Some d <-> (depths walk0 !! x = Some d /\ x ∉ following) \/ (x ∈ following /\ d = S k);
  level_size : size (seen walk) = (size (seen walk0) + length following)%nat;
  level_visited : visited walk = (visited walk0 + length done)%nat
}.

Lemma level_spec k walk0 frontier done walk following :
  incoming_of walk0 = incoming g ->
  level_ok k walk0 done walk following ->
  forall walk' following' ex, level bound walk frontier (S k) following = (walk', following', ex) ->
  exists done' rest, done ++ frontier = done' ++ rest /\
    if ex then (bound < visited walk')%nat /\ visited walk' = (visited walk0 + length done' + 1)%nat /\ rest <> [] /\
      exists walk'', level_ok k walk0 done' walk'' following' /\ seen walk'' = seen walk' /\ depths walk'' = depths walk'
    else rest = [] /\ level_ok k walk0 done' walk' following'.
Proof.
  intros Hinc. revert done walk following. induction frontier as [|node frontier IH]; intros done walk following L walk' following' ex; cbn [level].
  { intros [= <- <- <-]. by exists done, []. }
  destruct (Nat.ltb_spec bound (S (visited walk))) as [Hlt|Hge].
  { intros [= <- <- <-]. exists done, (node :: frontier). split; [done|]. cbn. rewrite (level_visited _ _ _ _ _ L) in *.
    split; [lia|]. split; [lia|]. split; [done|]. by exists walk. }
  destruct (fresh_of (default [] (incoming_of walk !! node)) (seen walk)) as [fresh seen1] eqn:Ef.
  destruct (fresh_of_spec _ _ _ _ Ef) as (Hn & Hs & Hf). intros E.
  replace (done ++ node :: frontier) with ((done ++ [node]) ++ frontier) by (by rewrite <- app_assoc).
  eapply IH; [|exact E]. destruct L as [L1 L2 L3 L4 L5 L6 L7].
  assert (forall x, x ∈ fresh <-> refers x node /\ x ∉ seen walk0 /\ x ∉ following) as Hfr.
  { intros x. rewrite Hf, L1, Hinc, incoming_refers, L2, elem_of_union, elem_of_list_to_set. tauto. }
  split; cbn.
  - done.
  - by rewrite Hs, L2, list_to_set_app_L, union_assoc_L.
  - apply NoDup_app. split; [done|]. split; [|done]. intros x Hx Hx'%Hfr. tauto.
  - intros x. rewrite elem_of_app, L4, Hfr. split.
    + intros [(H1 & y & H2 & H3)|(H1 & H2 & H3)]; (split; [done|]).
      * exists y. rewrite elem_of_app. auto.
      * exists node. rewrite elem_of_app, list_elem_of_singleton. auto.
    + intros (H1 & y & H2 & H3). apply elem_of_app in H2 as [H2|H2%list_elem_of_singleton]; [left; eauto|subst y].
      destruct (decide (x ∈ following)) as [Hin|Hout]; [left; by apply L4|by right].
  - assert (forall (m : gmap str nat) x d, foldl (fun depths other => <[other := S k]> depths) m fresh !! x = Some d <->
      (m !! x = Some d /\ x ∉ fresh) \/ (x ∈ fresh /\ d = S k)) as Hfold.
    { clear. intros m x d. induction fresh as [|o l IH] using rev_ind; [cbn; rewrite elem_of_nil; tauto|].
      rewrite foldl_app. cbn. rewrite elem_of_app, list_elem_of_singleton. destruct (decide (o = x)) as [->|Hne].
      - rewrite lookup_insert_eq. split; [intros [= <-]; tauto|]. intros [[_ H]|[_ ->]]; tauto.
      - rewrite lookup_insert_ne, IH by done. assert (x <> o) by congruence. tauto. }
    intros x d. rewrite Hfold, L5, elem_of_app. destruct (decide (x ∈ fresh)) as [Hin|Hout]; [|tauto].
    apply Hfr in Hin as (_ & _ & Hin). tauto.
  - rewrite Hs, size_union, L6, length_app, size_list_to_set by (done || set_solver). lia.
  - rewrite L7, length_app. cbn. lia.
Qed.

Lemma level_start k walk : level_ok k walk [] walk [].
Proof.
  split; cbn.
  - done.
  - by rewrite union_empty_r_L.
  - constructor.
  - intros x. rewrite elem_of_nil. split; [done|]. intros (_ & y & Hy%elem_of_nil & _). done.
  - intros x d. rewrite elem_of_nil. tauto.
  - lia.
  - lia.
Qed.

Lemma hops_step n x y : refers x y -> hops n y -> hops (S n) x.
Proof. intros Hr (s & ? & ? & Hn). exists s. split; [done|]. split; [done|]. by eapply nsteps_l. Qed.

Lemma hops_inv n x : hops (S n) x -> exists y, refers x y /\ hops n y.
Proof. intros (s & ? & ? & Hn). inversion Hn as [|? ? y ? Hr Hn']; subst. exists y. split; [done|]. by exists s. Qed.

(** What a level finds is one hop further than its frontier. *)
Lemma following_fewest k walk0 frontier done' rest walk following x :
  flood_ok k walk0 frontier -> frontier = done' ++ rest -> level_ok k walk0 done' walk following ->
  x ∈ following -> fewest (S k) x.
Proof.
  intros F -> L Hx. apply (level_following _ _ _ _ _ L) in Hx as (Hns & y & Hy & Hr).
  assert (hops k y) as Hh by (apply (flood_frontier _ _ _ F); apply elem_of_app; by left).
  split; [by apply (hops_step _ _ y)|]. intros m Hm Hxm. apply Hns, (flood_seen _ _ _ F). exists m. split; [lia|done].
Qed.

Lemma depths_size k walk0 frontier done' walk following :
  flood_ok k walk0 frontier -> level_ok k walk0 done' walk following ->
  size (depths walk) = (size (depths walk0) + length following)%nat.
Proof.
  intros F L. assert (dom (depths walk) = dom (depths walk0) ∪ list_to_set following) as Hd.
  { apply set_eq. intros x. rewrite elem_of_union, elem_of_list_to_set, !elem_of_dom. split.
    - intros [d [[H _]|[H _]]%(level_depths _ _ _ _ _ L)]; [left; by exists d|by right].
    - intros [[d H]|H].
      + destruct (decide (x ∈ following)) as [Hin|Hout]; [exists (S k)|exists d]; apply (level_depths _ _ _ _ _ L); tauto.
      + exists (S k). apply (level_depths _ _ _ _ _ L). by right. }
  rewrite <- !size_dom, Hd, size_union.
  - by rewrite size_list_to_set by apply L.
  - intros x Hx Hf%elem_of_list_to_set. apply elem_of_dom in Hx as [d Hx]. apply (flood_depths _ _ _ F) in Hx as [[Hh _] Hk].
    apply (level_following _ _ _ _ _ L) in Hf as [Hns _]. apply Hns, (flood_seen _ _ _ F). exists d. split; [lia|done].
Qed.

Lemma flood_next k walk0 frontier walk following :
  flood_ok k walk0 frontier -> level_ok k walk0 frontier walk following -> flood_ok (S k) walk following.
Proof.
  intros F L.
  assert (forall x, x ∈ following -> fewest (S k) x) as Hfew.
  { intros x. apply (following_fewest k walk0 frontier frontier [] walk following); [done|by rewrite app_nil_r|done]. }
  assert (forall x, x ∈ seen walk <-> exists m, (m <= S k)%nat /\ hops m x) as Hseen.
  { intros x. rewrite (level_seen _ _ _ _ _ L), elem_of_union, elem_of_list_to_set. split.
    - intros [(m & Hm & Hh)%(flood_seen _ _ _ F)|Hx]; [exists m; split; [lia|done]|exists (S k); split; [done|by apply Hfew]].
    - intros (m & Hm & Hh). destruct (decide (x ∈ seen walk0)) as [Hs|Hs]; [by left|right].
      assert (m = S k) as ->.
      { destruct (decide (m = S k)); [done|]. destruct Hs. apply (flood_seen _ _ _ F). exists m. split; [lia|done]. }
      apply hops_inv in Hh as (y & Hr & Hy). apply (level_following _ _ _ _ _ L). split; [done|]. exists y. split; [|done].
      assert (y ∈ seen walk0) as Hys by (apply (flood_seen _ _ _ F); by exists k).
      destruct (flood_split _ _ _ F y Hys) as [?|(m & Hlt & Hh)]; [done|]. destruct Hs. apply (flood_seen _ _ _ F).
      exists (S m). split; [lia|]. by apply (hops_step _ _ y). }
  split.
  - rewrite (level_incoming _ _ _ _ _ L). apply F.
  - intros x. split; [apply Hfew|]. intros [Hh Hno]. assert (x ∈ seen walk) as Hs by (apply Hseen; by exists (S k)).
    rewrite (level_seen _ _ _ _ _ L), elem_of_union, elem_of_list_to_set in Hs. destruct Hs as [Hs|?]; [|done].
    apply (flood_seen _ _ _ F) in Hs as (m & Hm & Hx). by destruct (Hno m ltac:(lia)).
  - apply L.
  - done.
  - intros x Hs. rewrite (level_seen _ _ _ _ _ L), elem_of_union, elem_of_list_to_set in Hs. destruct Hs as [Hs|?]; [right|by left].
    apply (flood_seen _ _ _ F) in Hs as (m & Hm & Hx). exists m. split; [lia|done].
  - intros x d. rewrite (level_depths _ _ _ _ _ L), (flood_depths _ _ _ F). split.
    + intros [[[H1 H2] _]|[H ->]]; [split; [done|lia]|split; [by apply Hfew|lia]].
    + intros [Hd Hr]. destruct (decide (d = S k)) as [->|Hne].
      * right. split; [|done]. apply (level_following _ _ _ _ _ L). destruct Hd as [Hh Hno].
        assert (x ∉ seen walk0) as Hs by (intros (m & Hm & Hx)%(flood_seen _ _ _ F); by destruct (Hno m ltac:(lia))).
        assert (x ∈ seen walk) as Hs' by (apply Hseen; by exists (S k)).
        rewrite (level_seen _ _ _ _ _ L), elem_of_union, elem_of_list_to_set in Hs'. destruct Hs' as [?|Hs']; [done|].
        by apply (level_following _ _ _ _ _ L) in Hs'.
      * left. split; [split; [done|lia]|]. intros Hx%Hfew. destruct Hd as [Hh _]. destruct Hx as [_ Hno]. by destruct (Hno d ltac:(lia)).
  - rewrite (level_visited _ _ _ _ _ L), (level_size _ _ _ _ _ L). pose proof (flood_visited _ _ _ F). lia.
  - rewrite (level_size _ _ _ _ _ L), (depths_size _ _ _ _ _ _ F L). pose proof (flood_size _ _ _ F). lia.
Qed.

(** The levels find the fewest hops, and everything within reach unless the bound stops them. *)
Lemma levels_spec remaining k walk frontier walk' ex :
  flood_ok k walk frontier -> levels bound remaining walk frontier k = (walk', ex) ->
  (forall x d, depths walk' !! x = Some d -> fewest d x /\ (1 <= d <= k + remaining)%nat) /\
  if ex then (bound < size (depths walk') + length starts)%nat
  else forall x d, fewest d x -> (1 <= d <= k + remaining)%nat -> depths walk' !! x = Some d.
Proof.
  revert k walk frontier. induction remaining as [|remaining IH]; intros k walk frontier F.
  { intros [= <- <-]. split.
    - intros x d [? ?]%(flood_depths _ _ _ F). split; [done|lia].
    - intros x d Hf Hd. apply (flood_depths _ _ _ F). split; [done|lia]. }
  destruct frontier as [|node frontier].
  { intros [= <- <-]. split.
    - intros x d [? ?]%(flood_depths _ _ _ F). split; [done|lia].
    - intros x d Hf Hd. apply (flood_depths _ _ _ F). split; [done|]. destruct (le_lt_dec d k); [lia|]. exfalso.
      assert (forall n y, hops n y -> (k <= n)%nat -> exists m, (m < k)%nat /\ hops m y) as Hshort.
      { induction n as [|n IHn]; intros y Hy Hn.
        - destruct (flood_split _ _ _ F y) as [?%elem_of_nil|?]; [apply (flood_seen _ _ _ F); exists O; split; [lia|done]|done|done].
        - destruct (decide (k = S n)) as [->|Hne].
          + destruct (flood_split _ _ _ F y) as [?%elem_of_nil|?]; [apply (flood_seen _ _ _ F); exists (S n); split; [lia|done]|done|done].
          + apply hops_inv in Hy as (z & Hr & Hz). destruct (IHn z Hz ltac:(lia)) as (m & Hm & Hh).
            destruct (flood_split _ _ _ F y) as [?%elem_of_nil|?]; [|done|done].
            apply (flood_seen _ _ _ F). exists (S m). split; [lia|]. by apply (hops_step _ _ z). }
      destruct Hf as [Hh Hno]. destruct (Hshort d x Hh ltac:(lia)) as (m & Hm & Hx). apply (Hno m); [lia|done]. }
  cbn [levels]. destruct (level bound walk (node :: frontier) (S k) []) as [[walk1 following] stop] eqn:E.
  destruct (level_spec k walk (node :: frontier) [] walk [] (flood_incoming _ _ _ F) (level_start _ _) _ _ _ E)
    as (done' & rest & Hsplit & Hout). cbn [app] in Hsplit.
  destruct stop.
  - destruct Hout as (Hb & Hv & Hrest & walk'' & L & Es & Ed). intros [= <- <-]. split.
    + intros x d Hd. rewrite <- Ed in Hd. apply (level_depths _ _ _ _ _ L) in Hd as [[Hd _]|[Hx ->]].
      * apply (flood_depths _ _ _ F) in Hd as [? ?]. split; [done|lia].
      * split; [|lia]. by apply (following_fewest k walk (node :: frontier) done' rest walk'' following).
    + rewrite <- Ed, (depths_size _ _ _ _ _ _ F L). pose proof (flood_size _ _ _ F). pose proof (flood_visited _ _ _ F) as Hvis.
      rewrite Hsplit, length_app in Hvis. assert (0 < length rest)%nat by (destruct rest; [done|cbn; lia]). lia.
  - destruct Hout as [-> L]. rewrite app_nil_r in Hsplit. rewrite <- Hsplit in L. intros Hl.
    destruct (IH (S k) walk1 following (flood_next _ _ _ _ _ F L) Hl) as [H1 H2]. split.
    + intros x d Hd. destruct (H1 x d Hd) as [? ?]. split; [done|lia].
    + destruct ex; [done|]. intros x d Hf Hd. apply H2; [done|lia].
Qed.

Lemma position_at path : (i ← position g path; nodes g !! i) = if decide (path ∈ nodes g) then Some path else None.
Proof.
  unfold position. destruct (list_find (fun n => n = path) (nodes g)) as [[i n]|] eqn:E.
  - apply list_find_Some in E as (Hi & -> & _). cbn. rewrite decide_True by (by apply list_elem_of_lookup_2 in Hi). done.
  - apply list_find_None in E. rewrite decide_False; [done|]. intros Hin. rewrite Forall_forall in E. by apply (E path).
Qed.

Lemma starts_elem x : x ∈ starts <-> x ∈ seeds /\ x ∈ nodes g.
Proof.
  unfold starts. rewrite dedup_elem, sort_strings_elem, list_elem_of_omap. split.
  - intros (y & Hy & E). rewrite position_at in E. case_decide; [|done]. by injection E as ->.
  - intros [Hs Hn]. exists x. split; [done|]. by rewrite position_at, decide_True.
Qed.

Lemma starts_ok : flood_ok O {| incoming_of := incoming g; seen := list_to_set starts; depths := ∅; visited := O |} starts.
Proof.
  assert (NoDup starts) as Hn by (apply dedup_sorted_NoDup, sort_strings_sorted).
  assert (forall x, x ∈ starts <-> hops O x) as Hs.
  { intros x. rewrite starts_elem. split.
    - intros [? ?]. exists x. split; [done|]. split; [done|constructor].
    - intros (s & ? & ? & Hn'). by inversion Hn'; subst. }
  split; cbn; try done.
  - intros x. rewrite Hs. split; [intros ?; split; [done|lia]|by intros [? _]].
  - intros x. rewrite elem_of_list_to_set, Hs. split; [by exists O|]. intros (m & Hm & ?). by replace m with O in * by lia.
  - intros x. rewrite elem_of_list_to_set. by left.
  - intros x d. rewrite lookup_empty. split; [done|]. intros [_ ?]. lia.
  - by rewrite size_list_to_set.
  - rewrite size_list_to_set by done. reflexivity.
Qed.
End Facts.

Lemma row_le_total a b : row_le a b = true \/ row_le b a = true.
Proof. apply keys_le_total. Qed.

Lemma row_le_trans a b c : row_le a b = true -> row_le b c = true -> row_le a c = true.
Proof. apply keys_le_trans. Qed.

(** C37: A flood reports each file at most once, in order of depth and then of path.  A depth is the
    fewest hops from the file to a seed, so no seed is reported; every file within the depth asked
    for is reported, unless the walk stopped at its bound, and then the seeds and the files
    reported are more than the bound. *)
Theorem flood_exact bound g seeds max_depth :
  let r := flood_within bound g seeds max_depth in
  StronglySorted (fun a b => row_le a b = true) (reached r) /\ NoDup (map reached_path (reached r)) /\
  (forall row, row ∈ reached r -> fewest g seeds (depth row) (reached_path row) /\ (1 <= depth row <= max_depth)%nat) /\
  if exhausted r then (bound < length (reached r) + length (starts g seeds))%nat
  else forall x d, fewest g seeds d x -> (1 <= d <= max_depth)%nat -> {| reached_path := x; depth := d |} ∈ reached r.
Proof.
  unfold flood_within. fold (starts g seeds). case_bool_decide as Hempty.
  { cbn. split; [constructor|]. split; [constructor|]. split; [by intros row ?%elem_of_nil|].
    intros x d [(s & Hs & Hn & _) _] _. exfalso. assert (s ∈ starts g seeds) as Hin by (by apply starts_elem).
    rewrite Hempty in Hin. by apply elem_of_nil in Hin. }
  destruct (levels _ _ _ _ _) as [walk ex] eqn:E.
  destruct (levels_spec g seeds bound _ _ _ _ _ _ (starts_ok g seeds) E) as [H1 H2]. cbn [reached exhausted].
  assert (forall row, row ∈ map (fun '(path, d) => {| reached_path := path; depth := d |}) (btree_iter (depths walk)) <->
    depths walk !! reached_path row = Some (depth row)) as Hrow.
  { intros [x d]. rewrite list_elem_of_fmap. cbn. rewrite <- btree_iter_elem. split.
    - by intros ([y e] & [= -> ->] & Hin).
    - intros Hin. by exists (x, d). }
  split; [apply sort_by_sorted; [apply row_le_total|apply row_le_trans]|]. split; [|split].
  - rewrite (Permutation_map reached_path (sort_by_perm row_le _)), map_map.
    assert (forall l : list (str * nat), map (fun entry => reached_path (let '(path, d) := entry in
      {| reached_path := path; depth := d |})) l = l.*1) as ->; [|apply btree_iter_NoDup].
    induction l as [|[x d] l IH]; [done|]. cbn. by rewrite IH.
  - intros row Hin. rewrite sort_by_perm, Hrow in Hin. by apply H1.
  - destruct ex.
    + rewrite (Permutation_length (sort_by_perm row_le _)), length_map, (Permutation_length (btree_iter_perm _)).
      by rewrite length_map_to_list.
    + intros x d Hf Hd. rewrite sort_by_perm, Hrow. by apply H2.
Qed.

Example flood_found :
  option_map (fun g => reached (flood_backward g [lit "a"] 2))
    (from_parts [lit "a"; lit "b"; lit "c"; lit "d"]
       [(lit "b", lit "a", f64_of 1); (lit "c", lit "b", f64_of 1); (lit "d", lit "c", f64_of 1); (lit "b", lit "a", f64_of 1)])
  = Some [{| reached_path := lit "b"; depth := 1 |}; {| reached_path := lit "c"; depth := 2 |}].
Proof. vm_compute. reflexivity. Qed.
