(* ===== verification/Owners.v ===== *)
(** Which symbol owns a line: crates/graph/src/owners.rs.

    A symbol is what the code reads of it, its first and last line.  [owners_exact] shows that the
    table of a file answers every line as the search through the symbols does: with the innermost one. *)

From S2P Require Import Prelude RustStr.
Local Open Scope Z_scope.

Record Symbol := { line : Z; end_line : Z }.

#[export] Instance Symbol_inhabited : Inhabited Symbol := populate {| line := 0; end_line := 0 |}.

(** A line number is a [u32]. *)
Definition is_u32 (n : Z) : Prop := 0 <= n < 2 ^ 32.
Definition well_formed (s : Symbol) : Prop := is_u32 (line s) /\ is_u32 (end_line s).

(** A later start is a deeper span; an equal start keeps the symbol declared first. *)
Definition wins (candidate : Symbol) (held : option Symbol) : bool :=
  match held with None => true | Some held => line held <? line candidate end.

Definition holds (s : Symbol) (l : Z) : bool := (line s <=? l) && (l <=? end_line s).

Definition enclosing_symbol (symbols : list Symbol) (l : Z) : option Symbol :=
  foldl (fun held s => if holds s l && wins s held then Some s else held) None symbols.

(** The cells between two offsets claimed for the symbol at [position]; [None] is the panic of a
    slice out of range. *)
Definition claim (cells : list (option nat)) (symbols : list Symbol) (from to : Z) (position : nat) : option (list (option nat)) :=
  if (0 <=? from) && (to <? Z.of_nat (length cells)) then
    Some (imap (fun i cell =>
      if (from <=? Z.of_nat i) && (Z.of_nat i <=? to) && wins (symbols !!! position) ((fun p : nat => symbols !!! p) <$> cell)
      then Some position else cell) cells)
  else None.

Record LineOwners := { symbols : list Symbol; first : Z; owners : list (option nat) }.

Definition spans (all : list Symbol) : list Symbol := List.filter (fun s => line s <=? end_line s) all.

Definition list_min (l : list Z) : option Z := match l with [] => None | x :: l => Some (foldl Z.min x l) end.
Definition list_max (l : list Z) : option Z := match l with [] => None | x :: l => Some (foldl Z.max x l) end.

(** The claims of the symbols from [position] on. *)
Fixpoint claim_all (all : list Symbol) (first : Z) (rest : list Symbol) (position : nat) (owners : list (option nat))
  : option (list (option nat)) :=
  match rest with
  | [] => Some owners
  | s :: rest =>
      owners ← (if line s <=? end_line s then claim owners all (line s - first) (end_line s - first) position else Some owners);
      claim_all all first rest (S position) owners
  end.

(** [None] is also the panic of a table of more than [u32::MAX] lines. *)
Definition build (all : list Symbol) : option LineOwners :=
  let first := default 0 (list_min (map line (spans all))) in
  let last := default 0 (list_max (map end_line (spans all))) in
  let size := Z.max 0 (last - first) + 1 in
  if 2 ^ 32 <=? size then None
  else
    owners ← claim_all all first all 0 (replicate (Z.to_nat size) None);
    Some {| symbols := all; first := first; owners := owners |}.

Definition owner_position (o : LineOwners) (l : Z) : option nat :=
  if l <? first o then None
  else mjoin (owners o !! Z.to_nat (l - first o)).

Definition owner (o : LineOwners) (l : Z) : option Symbol := (fun p : nat => symbols o !!! p) <$> owner_position o l.

Example owner_found :
  option_map (fun o => map (owner o) [1; 2; 3; 5; 9]) (build [{| line := 2; end_line := 6 |}; {| line := 3; end_line := 4 |}; {| line := 3; end_line := 3 |}])
  = Some [None; Some {| line := 2; end_line := 6 |}; Some {| line := 3; end_line := 4 |}; Some {| line := 2; end_line := 6 |}; None].
Proof. vm_compute. reflexivity. Qed.

(** * The table *)

Lemma fold_min_acc x l : foldl Z.min x l <= x.
Proof. revert x. induction l as [|z l IH]; intros x; cbn; [done|]. specialize (IH (Z.min x z)). lia. Qed.

Lemma fold_max_acc x l : x <= foldl Z.max x l.
Proof. revert x. induction l as [|z l IH]; intros x; cbn; [done|]. specialize (IH (Z.max x z)). lia. Qed.

Lemma fold_min_le x l y : y ∈ x :: l -> foldl Z.min x l <= y.
Proof.
  revert x. induction l as [|z l IH]; intros x; cbn; [intros ->%list_elem_of_singleton; lia|].
  intros Hy. pose proof (IH (Z.min x z)) as IHx.
  apply elem_of_cons in Hy as [Hy|[Hy|Hy]%elem_of_cons]; [| |apply IHx; by right];
    pose proof (fold_min_acc (Z.min x z) l); lia.
Qed.

Lemma fold_max_ge x l y : y ∈ x :: l -> y <= foldl Z.max x l.
Proof.
  revert x. induction l as [|z l IH]; intros x; cbn; [intros ->%list_elem_of_singleton; lia|].
  intros Hy. pose proof (IH (Z.max x z)) as IHx.
  apply elem_of_cons in Hy as [Hy|[Hy|Hy]%elem_of_cons]; [| |apply IHx; by right];
    pose proof (fold_max_acc (Z.max x z) l); lia.
Qed.

Lemma list_min_in l : default 0 (list_min l) = 0 \/ default 0 (list_min l) ∈ l.
Proof.
  destruct l as [|x l]; [by left|right]. cbn. revert x. induction l as [|z l IH]; intros x; cbn; [left|].
  destruct (Z.min_spec x z) as [[_ ->]|[_ ->]].
  - destruct (proj1 (elem_of_cons _ _ _) (IH x)) as [->|?]; [left|by do 2 right].
  - destruct (proj1 (elem_of_cons _ _ _) (IH z)) as [->|?]; [right; left|by do 2 right].
Qed.

Lemma list_max_in l : default 0 (list_max l) = 0 \/ default 0 (list_max l) ∈ l.
Proof.
  destruct l as [|x l]; [by left|right]. cbn. revert x. induction l as [|z l IH]; intros x; cbn; [left|].
  destruct (Z.max_spec x z) as [[_ ->]|[_ ->]].
  - destruct (proj1 (elem_of_cons _ _ _) (IH z)) as [->|?]; [right; left|by do 2 right].
  - destruct (proj1 (elem_of_cons _ _ _) (IH x)) as [->|?]; [left|by do 2 right].
Qed.

Lemma list_min_le l y : y ∈ l -> default 0 (list_min l) <= y.
Proof. destruct l as [|x l]; [by intros ?%elem_of_nil|]. apply fold_min_le. Qed.

Lemma list_max_ge l y : y ∈ l -> y <= default 0 (list_max l).
Proof. destruct l as [|x l]; [by intros ?%elem_of_nil|]. apply fold_max_ge. Qed.

(** What the search has found among some of the symbols. *)
Definition found (some : list Symbol) (l : Z) : option Symbol :=
  foldl (fun held s => if holds s l && wins s held then Some s else held) None some.

Definition cell_ok (all : list Symbol) (first : Z) (some : list Symbol) (owners : list (option nat)) : Prop :=
  forall i cell, owners !! i = Some cell -> (fun p : nat => all !!! p) <$> cell = found some (first + Z.of_nat i).

Lemma claim_all_spec all first rest position owners :
  drop position all = rest ->
  cell_ok all first (take position all) owners ->
  (forall s, s ∈ rest -> line s <= end_line s -> first <= line s /\ end_line s - first < Z.of_nat (length owners)) ->
  exists owners', claim_all all first rest position owners = Some owners' /\ length owners' = length owners /\
    cell_ok all first all owners'.
Proof.
  revert position owners. induction rest as [|s rest IH]; intros position owners Hrest Hok Hin; cbn [claim_all].
  { exists owners. split; [done|]. split; [done|]. pose proof (take_drop position all) as E. rewrite Hrest, app_nil_r in E. by rewrite E in Hok. }
  assert (all !! position = Some s) as Hat by (by rewrite <- (Nat.add_0_r position), <- lookup_drop, Hrest).
  assert (drop (S position) all = rest) as Hdrop by (by rewrite <- (Nat.add_1_r position), <- drop_drop, Hrest).
  assert (all !!! position = s) as Htot by (by rewrite list_lookup_total_alt, Hat).
  assert (exists owners1, (if line s <=? end_line s then claim owners all (line s - first) (end_line s - first) position else Some owners)
    = Some owners1 /\ length owners1 = length owners /\ cell_ok all first (take (S position) all) owners1) as (o1 & -> & Hlen & Hok1).
  { assert (forall i, found (take (S position) all) (first + Z.of_nat i) =
      if holds s (first + Z.of_nat i) && wins s (found (take position all) (first + Z.of_nat i)) then Some s
      else found (take position all) (first + Z.of_nat i)) as Hfound.
    { intros i. unfold found. by rewrite (take_S_r _ _ s), foldl_app by done. }
    destruct (Z.leb_spec (line s) (end_line s)) as [Hle|Hlt].
    - destruct (Hin s ltac:(left) Hle) as [H1 H2]. unfold claim.
      replace ((0 <=? line s - first) && (end_line s - first <? Z.of_nat (length owners))) with true by (symmetry; apply andb_true_iff; lia).
      eexists. split; [done|]. split; [apply length_imap|]. intros i cell Hi. rewrite list_lookup_imap in Hi.
      destruct (owners !! i) as [cell0|] eqn:E0; [|done]. cbn in Hi. injection Hi as <-. rewrite Hfound, <- (Hok i cell0 E0), Htot.
      unfold holds. replace ((line s <=? first + Z.of_nat i) && (first + Z.of_nat i <=? end_line s))
        with ((line s - first <=? Z.of_nat i) && (Z.of_nat i <=? end_line s - first)) by (apply eq_iff_eq_true; rewrite !andb_true_iff; lia).
      destruct (_ && _); [|done]. cbn. by rewrite Htot.
    - exists owners. split; [done|]. split; [done|]. intros i cell Hi. rewrite Hfound, (Hok i cell Hi).
      unfold holds. by replace ((line s <=? first + Z.of_nat i) && (first + Z.of_nat i <=? end_line s)) with false
        by (symmetry; apply andb_false_iff; lia). }
  cbn [mbind option_bind]. destruct (IH (S position) o1 Hdrop Hok1) as (o' & -> & Hlen' & Hok').
  { intros s' Hs'. rewrite Hlen. apply Hin. by right. }
  exists o'. split; [done|]. split; [congruence|done].
Qed.

(** A line outside the spans is in no symbol. *)
Lemma found_none some l : (forall s, s ∈ some -> holds s l = false) -> found some l = None.
Proof.
  intros H. induction some as [|s some IH] using rev_ind; [done|]. unfold found in *. rewrite foldl_app, IH.
  - cbn. by rewrite H by (apply elem_of_app; right; left).
  - intros s' ?. apply H. apply elem_of_app. by left.
Qed.

(** The symbol of [all] that is innermost at line [l]: its lines hold it, each other one that does
    starts before it, or with it and is declared after it. *)
Definition innermost_at (all : list Symbol) (l : Z) (held : option Symbol) : Prop :=
  match held with
  | Some s => exists i, all !! i = Some s /\ line s <= l <= end_line s /\
      forall j t, all !! j = Some t -> line t <= l <= end_line t -> line t < line s \/ (line t = line s /\ (i <= j)%nat)
  | None => forall s, s ∈ all -> ~ line s <= l <= end_line s
  end.

Lemma holds_spec s l : holds s l = true <-> line s <= l <= end_line s.
Proof. unfold holds. rewrite andb_true_iff, !Z.leb_le. done. Qed.

Lemma enclosing_innermost all l : innermost_at all l (enclosing_symbol all l).
Proof.
  induction all as [|s all IH] using rev_ind; [by intros s ?%elem_of_nil|].
  unfold enclosing_symbol in *. rewrite foldl_app. cbn. set (held := foldl _ None all) in *.
  assert (Hsnoc : forall j t, (all ++ [s]) !! j = Some t -> all !! j = Some t \/ (j = length all /\ t = s)).
  { intros j t [?|[? Hj]]%lookup_app_Some; [by left|]. apply list_lookup_singleton_Some in Hj as [? <-]. right. split; [lia|done]. }
  destruct (holds s l) eqn:Hs; cbn.
  - apply holds_spec in Hs. destruct held as [h|]; cbn.
    + destruct IH as (i & Hi & Hh & Hmax). destruct (Z.ltb_spec (line h) (line s)) as [Hlt|Hge].
      * exists (length all). split; [by apply list_lookup_middle|]. split; [done|]. intros j t [Hj|[-> ->]]%Hsnoc Ht; [|by right].
        left. destruct (Hmax j t Hj Ht); lia.
      * exists i. split; [by apply lookup_app_l_Some|]. split; [done|]. intros j t [Hj|[-> ->]]%Hsnoc Ht; [by apply Hmax|].
        apply lookup_lt_Some in Hi. lia.
    + exists (length all). split; [by apply list_lookup_middle|]. split; [done|]. intros j t [Hj|[-> ->]]%Hsnoc Ht; [|by right].
      exfalso. apply (IH t); [by eapply list_elem_of_lookup_2|done].
  - assert (Hno : ~ line s <= l <= end_line s) by (by rewrite <- holds_spec, Hs). destruct held as [h|]; cbn.
    + destruct IH as (i & Hi & Hh & Hmax). exists i. split; [by apply lookup_app_l_Some|]. split; [done|].
      intros j t [Hj|[-> ->]]%Hsnoc Ht; [by apply Hmax|done].
    + intros t [Ht|Ht%list_elem_of_singleton]%elem_of_app; [by apply IH|by subst].
Qed.

(** C40: A table of owners exists unless a symbol ends at the last line number there is; it answers every
    line as the search through the symbols does: with the innermost symbol, the first declared of
    those that start together, and with none where no symbol has the line. *)
Theorem owners_exact all (Hlines : Forall well_formed all) (Hsize : forall s, s ∈ all -> end_line s < 2 ^ 32 - 1) :
  exists o, build all = Some o /\ forall l, owner o l = enclosing_symbol all l /\ innermost_at all l (owner o l).
Proof.
  unfold build. set (first := default 0 (list_min (map line (spans all)))).
  set (last := default 0 (list_max (map end_line (spans all)))).
  assert (forall s, s ∈ all -> line s <= end_line s -> first <= line s /\ end_line s <= last) as Hrange.
  { intros s Hs Hle. assert (s ∈ spans all) as Hin.
    { unfold spans. rewrite list_elem_of_In, filter_In, <- list_elem_of_In. split; [done|]. by apply Z.leb_le. }
    split; [apply list_min_le|apply list_max_ge]; apply list_elem_of_fmap; by exists s. }
  assert (forall s, s ∈ spans all -> s ∈ all) as Hsub.
  { intros s Hs. unfold spans in Hs. rewrite list_elem_of_In, filter_In in Hs. destruct Hs as [Hs _]. by apply list_elem_of_In in Hs. }
  assert (0 <= first) as Hfirst.
  { unfold first. destruct (list_min_in (map line (spans all))) as [->|Hin]; [done|].
    apply list_elem_of_fmap in Hin as (s & -> & Hs%Hsub). rewrite Forall_forall in Hlines. by destruct (Hlines s Hs) as [[? _] _]. }
  assert (last < 2 ^ 32 - 1) as Hlast.
  { unfold last. destruct (list_max_in (map end_line (spans all))) as [->|Hin]; [done|].
    apply list_elem_of_fmap in Hin as (s & -> & Hs%Hsub). by apply Hsize. }
  destruct (Z.leb_spec (2 ^ 32) (Z.max 0 (last - first) + 1)) as [Hbig|_]; [lia|].
  destruct (claim_all_spec all first all 0 (replicate (Z.to_nat (Z.max 0 (last - first) + 1)) None)) as (owners & -> & Hlen & Hok).
  - done.
  - intros i cell Hi. by apply lookup_replicate in Hi as [-> _].
  - intros s Hs Hle. destruct (Hrange s Hs Hle). rewrite length_replicate. lia.
  - rewrite length_replicate in Hlen. cbn [mbind option_bind]. eexists. split; [done|]. intros l.
    match goal with |- ?a = _ /\ _ => enough (a = enclosing_symbol all l) as H by (rewrite H; split; [done|apply enclosing_innermost]) end.
    change (enclosing_symbol all l) with (found all l). unfold owner, owner_position. cbn.
    destruct (Z.ltb_spec l first) as [Hlt|Hge].
    { symmetry. apply found_none. intros s Hs. unfold holds. apply andb_false_iff.
      destruct (Z.leb_spec (line s) l), (Z.leb_spec l (end_line s)); auto. destruct (Hrange s Hs); lia. }
    destruct (owners !! Z.to_nat (l - first)) as [cell|] eqn:E.
    + pose proof (Hok _ _ E) as Hc. rewrite Z2Nat.id in Hc by lia. replace (first + (l - first)) with l in Hc by lia. exact Hc.
    + apply lookup_ge_None in E. symmetry. apply found_none. intros s Hs. unfold holds. apply andb_false_iff.
      destruct (Z.leb_spec (line s) l), (Z.leb_spec l (end_line s)); auto. destruct (Hrange s Hs); lia.
Qed.

Lemma owners_exact_witness :
  let all := [{| line := 2; end_line := 6 |}; {| line := 3; end_line := 4 |}] in
  exists o, build all = Some o /\ forall l, owner o l = enclosing_symbol all l /\ innermost_at all l (owner o l).
Proof.
  apply (owners_exact [{| line := 2; end_line := 6 |}; {| line := 3; end_line := 4 |}]).
  - repeat (apply List.Forall_cons; [unfold well_formed, is_u32; cbn; lia|]). apply List.Forall_nil.
  - intros s [->|[->|[]%elem_of_nil]%elem_of_cons]%elem_of_cons; cbn; lia.
Defined.
