(* ===== verification/Interrupt.v ===== *)
(** The SIGINT watch: crates/io/src/interrupt.rs.

    Threads take and drop holds while any number of SIGINTs arrive and are handled.  A step is one
    access to the shared state: a lock, an update of the count, a store of [idle], the registration
    of a flag with signal-hook, and in a handler the store of [interrupted], the load of [idle] and
    the default action that follows it.  What a handler runs is what signal-hook documents: the
    actions in the order of their registration.  [sigint_exact] shows that a hold keeps the process
    alive unless a handler had loaded [idle] before it, that SIGINT is recorded, and that with no
    hold it ends the process; [hold_race] is the run in which a hold comes between the load and the
    default action. *)

From S2P Require Import Prelude RustStr.

(** * State *)

Record Watch := { interrupted : bool; idle : bool; holds : nat }.

Definition new_watch : Watch := {| interrupted := false; idle := true; holds := 0 |}.

(** How far the registration of the watch has come; [Published] is a filled [WATCH]. *)
Inductive Stage := Absent | Recorded | Registered | Published.

(** Where a thread is: outside, in [watch], in [hold_sigint] after it, with a hold, or in its
    drop. *)
Inductive Phase :=
| Outside
| Making
| Got
| Locked
| Counted
| Stored
| Holding
| Dropping
| Uncounted
| Restored.

#[export] Instance Stage_eq_dec : EqDecision Stage.
Proof. solve_decision. Defined.
#[export] Instance Phase_eq_dec : EqDecision Phase.
Proof. solve_decision. Defined.

(** What the watch registers with signal-hook, by the number of the watch: the store of true in its
    [interrupted], and the default action of the signal when its [idle] is true. *)
Inductive Action := SetFlag (w : nat) | DefaultIfIdle (w : nat).

(** The accesses of a handler: the store of [interrupted], and the load of [idle] that decides on the
    default action. *)
Inductive Access := Store (w : nat) | Test (w : nat).

(** A SIGINT that has arrived: the accesses that its handler has made, those it has not, and whether
    it has loaded a true [idle], so that it goes on to the default action. *)
Record Arrival := { ran : list Access; todo : list Access; firing : bool }.

(** [earlier] has the watches whose registration failed, which their actions keep; [registered] the
    actions that signal-hook has for SIGINT; [ignored] says that the process started with SIGINT
    ignored. *)
Record State := {
  stage : Stage;
  watch : Watch;
  earlier : list Watch;
  slot_owner : option nat;
  holds_owner : option nat;
  registered : list Action;
  arrivals : list Arrival;
  ignored : bool;
  threads : list Phase;
  alive : bool
}.

(** The number of the current watch. *)
Definition number (s : State) : nat := length (earlier s).

Definition start (ignored : bool) (count : nat) : State :=
  {| stage := Absent; watch := new_watch; earlier := []; slot_owner := None; holds_owner := None; registered := [];
     arrivals := []; ignored := ignored; threads := replicate count Outside; alive := true |}.

Definition move (s : State) (i : nat) (p : Phase) : State :=
  {| stage := stage s; watch := watch s; earlier := earlier s; slot_owner := slot_owner s; holds_owner := holds_owner s;
     registered := registered s; arrivals := arrivals s; ignored := ignored s; threads := <[i := p]> (threads s); alive := alive s |}.

(** A change of the stage, with the actions that come to the registered ones. *)
Definition with_stage (s : State) (st : Stage) (owner : option nat) (more : list Action) : State :=
  {| stage := st; watch := watch s; earlier := earlier s; slot_owner := owner; holds_owner := holds_owner s;
     registered := registered s ++ more; arrivals := arrivals s; ignored := ignored s; threads := threads s; alive := alive s |}.

Definition with_watches (s : State) (before : list Watch) (w : Watch) : State :=
  {| stage := stage s; watch := w; earlier := before; slot_owner := slot_owner s; holds_owner := holds_owner s;
     registered := registered s; arrivals := arrivals s; ignored := ignored s; threads := threads s; alive := alive s |}.

Definition with_watch (s : State) (w : Watch) : State := with_watches s (earlier s) w.

Definition with_owner (s : State) (owner : option nat) : State :=
  {| stage := stage s; watch := watch s; earlier := earlier s; slot_owner := slot_owner s; holds_owner := owner;
     registered := registered s; arrivals := arrivals s; ignored := ignored s; threads := threads s; alive := alive s |}.

Definition with_arrivals (s : State) (l : list Arrival) (alive : bool) : State :=
  {| stage := stage s; watch := watch s; earlier := earlier s; slot_owner := slot_owner s; holds_owner := holds_owner s;
     registered := registered s; arrivals := l; ignored := ignored s; threads := threads s; alive := alive |}.

(** * Steps *)

(** signal-hook: the accesses of a handler, from the actions that are registered. *)
Class Handler := handler : list Action -> list Access.

(** What signal-hook documents of it: the actions run in the order of their registration, the one of
    [register] stores true and the one of [register_conditional_default] tests the condition. *)
Class HandlerLaws `{Handler} : Prop := {
  handler_none : handler [] = [];
  handler_flag l w : handler (l ++ [SetFlag w]) = handler l ++ [Store w];
  handler_default l w : handler (l ++ [DefaultIfIdle w]) = handler l ++ [Test w]
}.

(** SIGINT arrives.  Before any registration the process has the action that it started with. *)
Definition arrive `{Handler} (s : State) : State :=
  match registered s with
  | [] => with_arrivals s (arrivals s) (ignored s)
  | _ :: _ => with_arrivals s (arrivals s ++ [{| ran := []; todo := handler (registered s); firing := false |}]) (alive s)
  end.

Definition set_flag (w : Watch) : Watch := {| interrupted := true; idle := idle w; holds := holds w |}.

Definition store_flag (s : State) (w : nat) : State :=
  if decide (w = number s) then with_watch s (set_flag (watch s)) else with_watches s (alter set_flag w (earlier s)) (watch s).

Definition watch_at (s : State) (w : nat) : option Watch := if decide (w = number s) then Some (watch s) else earlier s !! w.

(** The next access of the handler of arrival [d]. *)
Inductive handler_step (s : State) (d : nat) : State -> Prop :=
| run_store r w l :
    arrivals s !! d = Some {| ran := r; todo := Store w :: l; firing := false |} ->
    handler_step s d (with_arrivals (store_flag s w) (<[d := {| ran := r ++ [Store w]; todo := l; firing := false |}]> (arrivals s)) (alive s))
| run_test r w l v :
    arrivals s !! d = Some {| ran := r; todo := Test w :: l; firing := false |} -> watch_at s w = Some v ->
    handler_step s d (with_arrivals s (<[d := {| ran := r ++ [Test w]; todo := l; firing := idle v |}]> (arrivals s)) (alive s))
| run_default a :
    arrivals s !! d = Some a -> firing a = true -> handler_step s d (with_arrivals s (arrivals s) false).

(** The steps of thread [i] in [watch]. *)
Inductive watch_step (s : State) (i : nat) : State -> Prop :=
| enter_new :
    threads s !! i = Some Outside -> slot_owner s = None -> stage s = Absent ->
    watch_step s i (move (with_watch (with_stage s Absent (Some i) []) new_watch) i Making)
| enter_known :
    threads s !! i = Some Outside -> slot_owner s = None -> stage s = Published -> watch_step s i (move s i Got)
| register_record :
    threads s !! i = Some Making -> stage s = Absent -> watch_step s i (with_stage s Recorded (slot_owner s) [SetFlag (number s)])
| register_default :
    threads s !! i = Some Making -> stage s = Recorded ->
    watch_step s i (with_stage s Registered (slot_owner s) [DefaultIfIdle (number s)])
| register_fails :
    threads s !! i = Some Making -> stage s = Absent \/ stage s = Recorded ->
    watch_step s i (move (with_watches (with_stage s Absent None []) (earlier s ++ [watch s]) new_watch) i Outside)
| publish :
    threads s !! i = Some Making -> stage s = Registered ->
    watch_step s i (move (with_stage s Published None []) i Got).

Definition with_holds (s : State) (n : nat) : State :=
  with_watch s {| interrupted := interrupted (watch s); idle := idle (watch s); holds := n |}.

Definition with_idle (s : State) (b : bool) : State :=
  with_watch s {| interrupted := interrupted (watch s); idle := b; holds := holds (watch s) |}.

(** The steps of thread [i] in the rest of [hold_sigint]. *)
Inductive hold_step (s : State) (i : nat) : State -> Prop :=
| lock : threads s !! i = Some Got -> holds_owner s = None -> hold_step s i (move (with_owner s (Some i)) i Locked)
| count_up : threads s !! i = Some Locked -> hold_step s i (move (with_holds s (holds (watch s) + 1)) i Counted)
| store_busy : threads s !! i = Some Counted -> hold_step s i (move (with_idle s false) i Stored)
| unlock : threads s !! i = Some Stored -> hold_step s i (move (with_owner s None) i Holding).

(** The steps of thread [i] in the drop of its hold. *)
Inductive drop_step (s : State) (i : nat) : State -> Prop :=
| drop_lock : threads s !! i = Some Holding -> holds_owner s = None -> drop_step s i (move (with_owner s (Some i)) i Dropping)
| count_down : threads s !! i = Some Dropping -> drop_step s i (move (with_holds s (holds (watch s) - 1)) i Uncounted)
| store_idle :
    threads s !! i = Some Uncounted -> drop_step s i (move (with_idle s (bool_decide (holds (watch s) = O))) i Restored)
| drop_unlock : threads s !! i = Some Restored -> drop_step s i (move (with_owner s None) i Outside).

(** A dead process takes no step. *)
Inductive step `{Handler} (s : State) : State -> Prop :=
| step_watch i t : alive s = true -> watch_step s i t -> step s t
| step_hold i t : alive s = true -> hold_step s i t -> step s t
| step_drop i t : alive s = true -> drop_step s i t -> step s t
| step_arrive : alive s = true -> step s (arrive s)
| step_handler d t : alive s = true -> handler_step s d t -> step s t.

Inductive reachable `{Handler} (s : State) : State -> Prop :=
| reachable_here : reachable s s
| reachable_step t u : reachable s t -> step t u -> reachable s u.

(** [interrupted] of the source. *)
Definition was_interrupted (s : State) : bool := bool_decide (stage s = Published) && interrupted (watch s).

(** * The invariant *)

(** The thread is counted in [holds]. *)
Definition counted (p : Phase) : bool := match p with Counted | Stored | Holding | Dropping => true | _ => false end.

(** The thread has the lock of [holds]. *)
Definition locking (p : Phase) : bool := match p with Locked | Counted | Stored | Dropping | Uncounted | Restored => true | _ => false end.

Definition count_of (l : list Phase) : nat := length (List.filter counted l).

(** What [idle] is, by what the owner of the lock is doing. *)
Definition idle_value (s : State) : bool :=
  match holds_owner s with
  | Some j =>
      match threads s !! j with
      | Some Counted => bool_decide (holds (watch s) = 1%nat)
      | Some Uncounted => false
      | _ => bool_decide (holds (watch s) = O)
      end
  | None => bool_decide (holds (watch s) = O)
  end.

Record ok (s : State) : Prop := {
  ok_count : holds (watch s) = count_of (threads s);
  ok_lock i p : threads s !! i = Some p -> (locking p = true <-> holds_owner s = Some i);
  ok_owner i : holds_owner s = Some i -> is_Some (threads s !! i);
  ok_slot i p : threads s !! i = Some p -> (p = Making <-> slot_owner s = Some i);
  ok_early i p : stage s <> Published -> threads s !! i = Some p -> p = Outside \/ p = Making;
  ok_making i : threads s !! i = Some Making -> stage s <> Published;
  ok_idle : idle (watch s) = idle_value s
}.

Lemma count_insert l i p q : l !! i = Some p ->
  (count_of (<[i := q]> l) + (if counted p then 1 else 0) = count_of l + (if counted q then 1 else 0))%nat.
Proof.
  unfold count_of. revert i. induction l as [|x l IH]; intros [|i] H; cbn in *; try done.
  - injection H as ->. destruct (counted p), (counted q); cbn; lia.
  - specialize (IH i H). destruct (counted x); cbn; [f_equal|]; exact IH.
Qed.

Lemma count_in l i p : l !! i = Some p -> counted p = true -> (0 < count_of l)%nat.
Proof.
  unfold count_of. revert i. induction l as [|x l IH]; intros [|i] H Hp; cbn in *; try done.
  - injection H as ->. rewrite Hp. cbn. lia.
  - specialize (IH i H Hp). destruct (counted x); cbn; lia.
Qed.

Lemma count_two l i j p q : i <> j -> l !! i = Some p -> l !! j = Some q -> counted p = true -> counted q = true -> (1 < count_of l)%nat.
Proof.
  intros Hij Hi Hj Hp Hq. pose proof (count_insert l i p Outside Hi) as Hc. rewrite Hp in Hc. cbn in Hc.
  assert (0 < count_of (<[i := Outside]> l))%nat; [|lia]. apply (count_in _ j q); [|done]. by rewrite list_lookup_insert_ne.
Qed.

Lemma count_early l : (forall i p, l !! i = Some p -> counted p = false) -> count_of l = O.
Proof.
  intros H. unfold count_of. rewrite filter_nil_iff_false; [done|]. intros p Hp%list_elem_of_In.
  apply list_elem_of_lookup in Hp as [i Hi]. by apply (H i).
Qed.

(** A thread that moves. *)
Lemma move_lookup s i p j q : is_Some (threads s !! i) ->
  threads (move s i p) !! j = Some q <-> (j = i /\ q = p) \/ (j <> i /\ threads s !! j = Some q).
Proof.
  intros [r Hr]. cbn. destruct (decide (j = i)) as [->|Hne].
  - rewrite list_lookup_insert_eq by (by eapply lookup_lt_Some). split; [intros [= <-]; by left|]. by intros [[_ ->]|[? _]].
  - rewrite list_lookup_insert_ne by done. split; [by right|]. by intros [[? _]|[_ ?]].
Qed.

(** A step that changes the place of one thread. *)
Lemma ok_move s t i p q : ok s -> threads s !! i = Some p -> threads t = <[i := q]> (threads s) ->
  (holds (watch t) + (if counted p then 1 else 0) = holds (watch s) + (if counted q then 1 else 0))%nat ->
  (locking q = true <-> holds_owner t = Some i) ->
  (forall j, j <> i -> holds_owner t = Some j <-> holds_owner s = Some j) ->
  (q = Making <-> slot_owner t = Some i) ->
  (forall j, j <> i -> slot_owner t = Some j <-> slot_owner s = Some j) ->
  (stage t <> Published -> stage s <> Published /\ (q = Outside \/ q = Making)) ->
  (stage t = Published -> q <> Making /\ (stage s = Published \/ p = Making)) ->
  idle (watch t) = idle_value t -> ok t.
Proof.
  intros Hok Hi Ht Hcount Hlock Hothers Hslot Hslots Hearly Hpub Hidle.
  assert (Hlook : forall j r, threads t !! j = Some r <-> (j = i /\ r = q) \/ (j <> i /\ threads s !! j = Some r)).
  { intros j r. rewrite Ht. apply (move_lookup s i q). eauto. }
  constructor; try done.
  - pose proof (count_insert _ _ _ q Hi). rewrite Ht, (ok_count s Hok) in *. lia.
  - intros j r [[-> ->]|[Hj Hr]]%Hlook; [done|]. rewrite Hothers by done. by apply (ok_lock s Hok).
  - intros j Hj. rewrite Ht. apply lookup_lt_is_Some. rewrite length_insert. apply lookup_lt_is_Some.
    destruct (decide (j = i)) as [->|Hne]; [by eexists|]. by apply (ok_owner s Hok), Hothers.
  - intros j r [[-> ->]|[Hj Hr]]%Hlook; [done|]. rewrite Hslots by done. by apply (ok_slot s Hok).
  - intros j r [Hst Hq]%Hearly [[-> ->]|[Hj Hr]]%Hlook; [done|]. by apply (ok_early s Hok j).
  - intros j [[-> Hq]|[Hj Hr]]%Hlook Hst; destruct (Hpub Hst) as [Hnq [Hs|Hp]]; [by subst q|by subst q|by apply (ok_making s Hok j)|].
    subst p. pose proof (proj1 (ok_slot s Hok i _ Hi) eq_refl). pose proof (proj1 (ok_slot s Hok j _ Hr) eq_refl). congruence.
Qed.

(** A step that changes no place. *)
Lemma ok_stay s t : ok s -> threads t = threads s -> holds (watch t) = holds (watch s) -> idle (watch t) = idle (watch s) ->
  holds_owner t = holds_owner s -> slot_owner t = slot_owner s -> (stage t = Published <-> stage s = Published) -> ok t.
Proof.
  intros Hok Ht Hh Hd Ho Hs Hst. constructor; try done.
  - rewrite Hh, Ht. apply (ok_count s Hok).
  - intros i p. rewrite Ht, Ho. apply (ok_lock s Hok).
  - intros i. rewrite Ht, Ho. apply (ok_owner s Hok).
  - intros i p. rewrite Ht, Hs. apply (ok_slot s Hok).
  - intros i p Hne. rewrite Ht. apply (ok_early s Hok). tauto.
  - intros i. rewrite Ht. intros Hi Hp. by apply (ok_making s Hok i), Hst.
  - unfold idle_value. rewrite Hd, Ho, Ht, Hh. apply (ok_idle s Hok).
Qed.

(** ** Each step *)

Lemma ok_start b n : ok (start b n).
Proof.
  assert (Hlook : forall i p, threads (start b n) !! i = Some p -> p = Outside).
  { intros i p Hi. by apply lookup_replicate in Hi as [-> _]. }
  constructor; cbn [stage watch slot_owner holds_owner start]; try done.
  - symmetry. apply count_early. by intros i p ->%Hlook.
  - by intros i p ->%Hlook.
  - by intros i p ->%Hlook.
  - intros i p _ ->%Hlook. by left.
Qed.

(** Before the watch is published no thread counts or locks. *)
Lemma early_free s : ok s -> stage s <> Published -> holds (watch s) = O /\ holds_owner s = None.
Proof.
  intros Hok Hst. split.
  - rewrite (ok_count s Hok). apply count_early. intros i p Hi. by destruct (ok_early s Hok i p Hst Hi) as [-> | ->].
  - destruct (holds_owner s) as [j|] eqn:Hj; [|done]. destruct (ok_owner s Hok j Hj) as [p Hp].
    pose proof (proj2 (ok_lock s Hok j p Hp) Hj). by destruct (ok_early s Hok j p Hst Hp) as [-> | ->].
Qed.

(** The end of the conditions of [ok_move] that speak of the threads at rest. *)
Ltac by_owner := intros; cbn in *; first [lia | solve [intuition congruence]].

Lemma published s i p : ok s -> threads s !! i = Some p -> p <> Outside -> p <> Making -> stage s = Published.
Proof.
  intros Hok Hi Hp Hq. destruct (decide (stage s = Published)) as [H|H]; [done|]. by destruct (ok_early s Hok i p H Hi).
Qed.

Lemma watch_step_ok s i t : ok s -> watch_step s i t -> ok t.
Proof.
  intros Hok Hw. inversion Hw as [Hi Hslot Hst|Hi Hslot Hst|Hi Hst|Hi Hst|Hi Hst|Hi Hst]; subst t; clear Hw.
  - destruct (early_free s Hok ltac:(congruence)) as [Hh Ho].
    eapply (ok_move s _ i Outside Making); [done|done|reflexivity|..]; try by_owner.
    unfold idle_value. cbn. by rewrite Ho.
  - pose proof (ok_lock s Hok i _ Hi) as Hl. cbn in Hl.
    eapply (ok_move s _ i Outside Got); [done|done|reflexivity|..]; try by_owner.
    + cbn. rewrite (ok_idle s Hok). unfold idle_value. cbn. destruct (holds_owner s) as [j|] eqn:Ho; [|done].
      rewrite list_lookup_insert_ne; [done|]. intros ->. discriminate (proj2 Hl eq_refl).
  - apply (ok_stay s); try done. cbn. by rewrite Hst.
  - apply (ok_stay s); try done. cbn. by rewrite Hst.
  - destruct (early_free s Hok) as [Hh Ho]; [destruct Hst; congruence|].
    pose proof (proj1 (ok_slot s Hok i _ Hi) eq_refl) as Hs.
    eapply (ok_move s _ i Making Outside); [done|done|reflexivity|..]; try by_owner.
    unfold idle_value. cbn. by rewrite Ho.
  - destruct (early_free s Hok) as [Hh Ho]; [congruence|].
    pose proof (proj1 (ok_slot s Hok i _ Hi) eq_refl) as Hs.
    eapply (ok_move s _ i Making Got); [done|done|reflexivity|..]; try by_owner.
    unfold idle_value. cbn. rewrite (ok_idle s Hok). unfold idle_value. by rewrite Ho.
Qed.

(** What [idle] is at the place [p] of the owner of the lock, and at any place when there is none. *)
Definition idle_at (p : Phase) (n : nat) : bool :=
  match p with Counted => bool_decide (n = 1%nat) | Uncounted => false | _ => bool_decide (n = O) end.

Lemma idle_before s i p : ok s -> threads s !! i = Some p -> (locking p = false -> holds_owner s = None) ->
  idle (watch s) = idle_at p (holds (watch s)).
Proof.
  intros Hok Hi Ho. rewrite (ok_idle s Hok). unfold idle_value. destruct (locking p) eqn:Hp.
  - by rewrite (proj1 (ok_lock s Hok i p Hi) Hp), Hi.
  - rewrite Ho by done. by destruct p.
Qed.

(** The steps of [hold_sigint] and of the drop: the thread takes, has or leaves the lock. *)
Lemma ok_inner s t i p q : ok s -> threads s !! i = Some p -> p <> Outside -> p <> Making -> q <> Making ->
  (locking p = false -> holds_owner s = None) ->
  stage t = stage s -> slot_owner t = slot_owner s -> threads t = <[i := q]> (threads s) ->
  (holds (watch t) + (if counted p then 1 else 0) = holds (watch s) + (if counted q then 1 else 0))%nat ->
  holds_owner t = (if locking q then Some i else None) -> idle (watch t) = idle_at q (holds (watch t)) -> ok t.
Proof.
  intros Hok Hi Hp1 Hp2 Hq Hfree Hst Hslot Ht Hcount Ho Hidle.
  pose proof (published s i p Hok Hi Hp1 Hp2) as Hpub.
  assert (Hs : holds_owner s = None \/ holds_owner s = Some i).
  { destruct (locking p) eqn:Hp; [right; by apply (ok_lock s Hok i p)|left; by apply Hfree]. }
  eapply (ok_move s t i p q); try done.
  - rewrite Ho. by destruct (locking q).
  - intros j Hj. rewrite Ho. destruct Hs as [-> | ->], (locking q); split; congruence.
  - rewrite Hslot. rewrite <- (ok_slot s Hok i p Hi). done.
  - intros j Hj. by rewrite Hslot.
  - by rewrite Hst, Hpub.
  - intros _. split; [done|by left].
  - unfold idle_value. rewrite Ho, Hidle. destruct (locking q) eqn:Hl.
    + by rewrite Ht, list_lookup_insert_eq by (by eapply lookup_lt_Some).
    + by destruct q.
Qed.

(** The facts of the thread before its step. *)
Ltac inner_facts s i Hok Hi :=
  pose proof (idle_before s i _ Hok Hi ltac:(done)) as Hidle; pose proof (proj1 (ok_lock s Hok i _ Hi)) as Hlock;
  pose proof (ok_count s Hok) as Hcount; pose proof (count_in _ i _ Hi) as Hin; cbn in Hidle, Hlock, Hin;
  repeat match goal with H : ?a = ?a -> _ |- _ => specialize (H eq_refl) end.

Ltac inner s i p q :=
  eapply (ok_inner s _ i p q); cbn; try done; try lia;
  try (match goal with H : idle _ = _ |- _ => rewrite H end; first [done | apply bool_decide_ext; lia | apply bool_decide_eq_false; lia]);
  try (symmetry; apply bool_decide_eq_false; lia).

Lemma hold_step_ok s i t : ok s -> hold_step s i t -> ok t.
Proof.
  intros Hok Hw. inversion Hw as [Hi Ho|Hi|Hi|Hi]; subst t; clear Hw; inner_facts s i Hok Hi.
  - inner s i Got Locked.
  - inner s i Locked Counted.
  - inner s i Counted Stored.
  - inner s i Stored Holding.
Qed.

Lemma drop_step_ok s i t : ok s -> drop_step s i t -> ok t.
Proof.
  intros Hok Hw. inversion Hw as [Hi Ho|Hi|Hi|Hi]; subst t; clear Hw; inner_facts s i Hok Hi.
  - inner s i Holding Dropping.
  - inner s i Dropping Uncounted.
  - inner s i Uncounted Restored.
  - inner s i Restored Outside.
Qed.

Lemma store_flag_ok s w : ok s -> ok (store_flag s w).
Proof. intros Hok. unfold store_flag. case_decide; by apply (ok_stay s). Qed.

Lemma with_arrivals_ok s l b : ok s -> ok (with_arrivals s l b).
Proof. intros Hok. by apply (ok_stay s). Qed.

Lemma arrive_ok `{Handler} s : ok s -> ok (arrive s).
Proof. unfold arrive. destruct (registered s); apply with_arrivals_ok. Qed.

Lemma handler_step_ok s d t : ok s -> handler_step s d t -> ok t.
Proof. intros Hok Hw. destruct Hw; auto using with_arrivals_ok, store_flag_ok. Qed.

Lemma step_keeps_ok `{Handler} s t : ok s -> step s t -> ok t.
Proof.
  intros Hok Hstep. destruct Hstep as [i t _ Hw|i t _ Hw|i t _ Hw|_|d t _ Hw];
    eauto using watch_step_ok, hold_step_ok, drop_step_ok, arrive_ok, handler_step_ok.
Qed.

(** * What is registered and what handlers have run *)

Definition access (a : Action) : Access := match a with SetFlag w => Store w | DefaultIfIdle w => Test w end.

(** The actions that [watch] has registered for watch [n], in their order. *)
Definition actions (st : Stage) (n : nat) : list Action :=
  match st with
  | Absent => []
  | Recorded => [SetFlag n]
  | Registered | Published => [SetFlag n; DefaultIfIdle n]
  end.

Lemma handler_access `{HandlerLaws} l : handler l = map access l.
Proof.
  induction l as [|a l IH] using rev_ind; [apply handler_none|].
  rewrite map_app, <- IH. destruct a; [apply handler_flag|apply handler_default].
Qed.

(** A handler runs the first of the accesses of what is registered, and those it has run had their
    effects. *)
Record arrival_ok (s : State) (a : Arrival) : Prop := {
  arrival_runs : ran a ++ todo a `prefix_of` map access (registered s);
  arrival_fires : firing a = true -> Test (number s) ∈ ran a;
  arrival_records : Store (number s) ∈ ran a -> interrupted (watch s) = true
}.

(** The flags of earlier watches are registered before the actions of the current one. *)
Record sound (s : State) : Prop := {
  sound_actions : exists l, registered s = map SetFlag l ++ actions (stage s) (number s) /\ Forall (fun w => w < number s)%nat l;
  sound_arrivals : Forall (arrival_ok s) (arrivals s)
}.

Lemma ran_registered s a x : arrival_ok s a -> x ∈ ran a ++ todo a -> x ∈ map access (registered s).
Proof. intros [[k ->] _ _] Hx. apply elem_of_app. by left. Qed.

Lemma store_named s w : sound s -> Store w ∈ map access (registered s) -> (w < number s)%nat \/ (w = number s /\ stage s <> Absent).
Proof.
  intros [[l [-> Hl]] _] Hw. rewrite Forall_forall in Hl. apply list_elem_of_fmap in Hw as [a [Ha Hin]].
  apply elem_of_app in Hin as [Hin|Hin].
  - apply list_elem_of_fmap in Hin as [v [-> Hv]]. injection Ha as ->. left. by apply Hl.
  - right. destruct (stage s); cbn in Hin; rewrite ?elem_of_cons, ?elem_of_nil in Hin; destruct a; naive_solver.
Qed.

Lemma test_named s w : sound s -> Test w ∈ map access (registered s) -> w = number s /\ (stage s = Registered \/ stage s = Published).
Proof.
  intros [[l [-> Hl]] _] Hw. apply list_elem_of_fmap in Hw as [a [Ha Hin]].
  apply elem_of_app in Hin as [Hin|Hin]; [by apply list_elem_of_fmap in Hin as [v [-> _]]|].
  destruct (stage s); cbn in Hin; rewrite ?elem_of_cons, ?elem_of_nil in Hin; destruct a; naive_solver.
Qed.

(** The record of the current watch comes before its test. *)
Lemma test_recorded s a : sound s -> arrival_ok s a -> Test (number s) ∈ ran a -> interrupted (watch s) = true.
Proof.
  intros Hs Ha Hin. apply (arrival_records s a Ha).
  assert (Hr : Test (number s) ∈ map access (registered s)).
  { apply (ran_registered s a); [done|]. apply elem_of_app. by left. }
  destruct (test_named s _ Hs Hr) as [_ Hst]. destruct (sound_actions s Hs) as [l [Hreg Hl]].
  assert (Hlast : map access (registered s) = (map access (map SetFlag l) ++ [Store (number s)]) ++ [Test (number s)]).
  { rewrite Hreg, map_app, <- app_assoc. by destruct Hst as [-> | ->]. }
  assert (Hp : ran a `prefix_of` map access (registered s)).
  { destruct (arrival_runs s a Ha) as [k Hk]. exists (todo a ++ k). by rewrite Hk, app_assoc. }
  rewrite Hlast in Hp. destruct Hp as [k Hk]. destruct k as [|x k _] using rev_ind.
  - rewrite app_nil_r in Hk. rewrite <- Hk, !elem_of_app, !list_elem_of_singleton. tauto.
  - rewrite app_assoc in Hk. apply app_inj_tail in Hk as [Hk _].
    assert (Hno : Test (number s) ∈ map access (map SetFlag l) ++ [Store (number s)]) by (rewrite Hk; apply elem_of_app; by left).
    apply elem_of_app in Hno as [Hno|Hno%list_elem_of_singleton]; [|done].
    apply list_elem_of_fmap in Hno as [b [Hb Hno]]. apply list_elem_of_fmap in Hno as [v [-> _]]. discriminate Hb.
Qed.

(** ** Each step *)

Lemma arrival_later s t a : number t = number s -> registered s `prefix_of` registered t ->
  (interrupted (watch s) = true -> interrupted (watch t) = true) -> arrival_ok s a -> arrival_ok t a.
Proof.
  intros Hn [m Hm] Hi [[k Hk] Hf Hr]. constructor; rewrite ?Hn; auto.
  exists (k ++ map access m). by rewrite Hm, map_app, Hk, <- app_assoc.
Qed.

Lemma sound_keep s t : sound s -> number t = number s -> registered t = registered s -> arrivals t = arrivals s ->
  actions (stage t) (number s) = actions (stage s) (number s) -> (interrupted (watch s) = true -> interrupted (watch t) = true) -> sound t.
Proof.
  intros [Ha Hb] Hn Hr Harr Hact Hi. constructor.
  - by rewrite Hr, Hn, Hact.
  - rewrite Harr. eapply Forall_impl; [exact Hb|]. intros a. apply arrival_later; [done| |done]. by rewrite Hr.
Qed.

(** An arrival has run nothing of a watch that has registered nothing. *)
Lemma nothing_ran s a w : sound s -> arrival_ok s a -> (number s < w \/ (w = number s /\ stage s = Absent))%nat -> Store w ∉ ran a.
Proof.
  intros Hs Ha Hw Hin. destruct (store_named s w Hs) as [H|[H1 H2]].
  { apply (ran_registered s a); [done|]. apply elem_of_app. by left. }
  all: destruct Hw as [?|[? ?]]; [lia|]; subst; try lia; done.
Qed.

Lemma none_fires s a : sound s -> arrival_ok s a -> stage s = Absent \/ stage s = Recorded -> firing a = false.
Proof.
  intros Hs Ha Hst. destruct (firing a) eqn:Hf; [|done]. apply (arrival_fires s a Ha) in Hf.
  destruct (test_named s (number s) Hs) as [_ Hst2]; [|destruct Hst, Hst2; congruence].
  apply (ran_registered s a); [done|]. apply elem_of_app. by left.
Qed.

Lemma watch_step_sound s i t : sound s -> watch_step s i t -> sound t.
Proof.
  intros Hs Hw. pose proof Hs as [[l [Hl Hlt]] Harr].
  inversion Hw as [Hi Hslot Hst|Hi Hslot Hst|Hi Hst|Hi Hst|Hi Hst|Hi Hst]; subst t; clear Hw.
  - constructor; cbn; [exists l; by rewrite app_nil_r, Hl, Hst|].
    rewrite Forall_forall in Harr |- *. intros a Hin. specialize (Harr a Hin). constructor; cbn.
    + rewrite app_nil_r. apply (arrival_runs s a Harr).
    + apply (arrival_fires s a Harr).
    + intros Hst2. exfalso. revert Hst2. apply (nothing_ran s a); [done..|]. right. done.
  - by apply (sound_keep s).
  - constructor; cbn; [exists l; by rewrite Hl, Hst, <- app_assoc|].
    eapply Forall_impl; [exact Harr|]. intros a. by apply arrival_later; [|exists [SetFlag (number s)]|].
  - constructor; cbn; [exists l; by rewrite Hl, Hst, <- app_assoc|].
    eapply Forall_impl; [exact Harr|]. intros a. by apply arrival_later; [|exists [DefaultIfIdle (number s)]|].
  - assert (Hn : forall t0, t0 = move (with_watches (with_stage s Absent None []) (earlier s ++ [watch s]) new_watch) i Outside ->
      number t0 = S (number s)) by (intros t0 ->; unfold number; cbn; rewrite length_app; cbn; lia).
    constructor; rewrite ?(Hn _ eq_refl); cbn.
    + rewrite !app_nil_r, Hl. destruct Hst as [Hst|Hst]; rewrite Hst; cbn.
      * exists l. rewrite app_nil_r. split; [done|]. eapply Forall_impl; [exact Hlt|]. intros w Hw. cbn in *. lia.
      * exists (l ++ [number s]). rewrite map_app, app_nil_r. split; [done|]. rewrite Forall_app, Forall_singleton.
        split; [|lia]. eapply Forall_impl; [exact Hlt|]. intros w Hw. cbn in *. lia.
    + rewrite Forall_forall in Harr |- *. intros a Hin. specialize (Harr a Hin). constructor; rewrite ?(Hn _ eq_refl); cbn.
      * rewrite app_nil_r. apply (arrival_runs s a Harr).
      * by rewrite (none_fires s a).
      * intros Hst2. exfalso. revert Hst2. apply (nothing_ran s a); [done..|]. left. lia.
  - apply (sound_keep s); try done; cbn; [by rewrite app_nil_r|by rewrite Hst].
Qed.

Lemma arrive_sound `{HandlerLaws} s : sound s -> sound (arrive s).
Proof.
  intros Hs. unfold arrive. destruct (registered s) as [|a l] eqn:Hr; [by apply (sound_keep s)|].
  rewrite <- Hr. pose proof Hs as [Ha Hb]. constructor; [exact Ha|]. cbn. rewrite Forall_app, Forall_singleton. split.
  - eapply Forall_impl; [exact Hb|]. intros x. by apply arrival_later.
  - constructor; cbn; [|done|by intros Hin%not_elem_of_nil]. rewrite handler_access. by exists []; rewrite app_nil_r.
Qed.

Lemma store_flag_at s w : interrupted (watch (store_flag s w)) = bool_decide (w = number s) || interrupted (watch s) /\
  number (store_flag s w) = number s /\ registered (store_flag s w) = registered s /\ stage (store_flag s w) = stage s /\
  arrivals (store_flag s w) = arrivals s /\ threads (store_flag s w) = threads s /\ alive (store_flag s w) = alive s.
Proof.
  unfold store_flag, number. case_decide as Hw; cbn; [rewrite bool_decide_eq_true_2 by done; by split_and!|].
  rewrite bool_decide_eq_false_2, length_alter by done. by split_and!.
Qed.

Lemma store_flag_sound s w : sound s -> sound (store_flag s w).
Proof.
  intros Hs. destruct (store_flag_at s w) as (Hi & Hn & Hr & Hst & Ha & _). apply (sound_keep s); try done.
  - by rewrite Hst.
  - rewrite Hi. intros ->. apply orb_true_r.
Qed.

(** An arrival that has gone on. *)
Lemma arrivals_sound s d a b : sound s -> arrival_ok s a -> sound (with_arrivals s (<[d := a]> (arrivals s)) b).
Proof.
  intros [Ha Hb] Hone. constructor; [exact Ha|].
  apply (Forall_impl (arrival_ok s)); [by apply Forall_insert|]. intros x. by apply arrival_later.
Qed.

Lemma handler_step_sound s d t : sound s -> handler_step s d t -> sound t.
Proof.
  intros Hs Hstep. destruct Hstep as [r w l Hd|r w l v Hd Hv|a Hd Hf]; [| |by apply (sound_keep s)].
  - pose proof (store_flag_sound s w Hs) as Hs2. destruct (store_flag_at s w) as (Hi & Hn & Hr & _ & Ha & _).
    rewrite <- Ha in Hd |- *. destruct (Forall_lookup_1 _ _ _ _ (sound_arrivals _ Hs2) Hd) as [H1 H2 H3].
    apply arrivals_sound; [done|]. constructor; cbn [ran todo firing] in *; [by rewrite <- app_assoc|done|].
    intros [Hin|Hin%list_elem_of_singleton]%elem_of_app; [by apply H3|]. injection Hin as Hin.
    rewrite Hi, bool_decide_eq_true_2; [done|]. by rewrite <- Hin, Hn.
  - pose proof (Forall_lookup_1 _ _ _ _ (sound_arrivals s Hs) Hd) as Hone.
    destruct (test_named s w Hs) as [-> _]; [apply (ran_registered s _ _ Hone); cbn; rewrite elem_of_app, elem_of_cons; tauto|].
    destruct Hone as [H1 H2 H3]. apply arrivals_sound; [done|]. constructor; cbn [ran todo firing] in *; [by rewrite <- app_assoc| |].
    + intros _. apply elem_of_app. right. by apply list_elem_of_singleton.
    + intros [Hin|Hin%list_elem_of_singleton]%elem_of_app; [by apply H3|]. discriminate Hin.
Qed.

Lemma step_sound `{HandlerLaws} s t : sound s -> step s t -> sound t.
Proof.
  intros Hs Hstep. destruct Hstep as [i t _ Hw|i t _ Hw|i t _ Hw|_|d t _ Hw];
    eauto using watch_step_sound, arrive_sound, handler_step_sound; destruct Hw; by apply (sound_keep s).
Qed.

Lemma reachable_sound `{HandlerLaws} s t : ok s /\ sound s -> reachable s t -> ok t /\ sound t.
Proof. intros Hs. induction 1 as [|t u _ [Hok Hsound] Hstep]; [done|]. eauto using step_keeps_ok, step_sound. Qed.

Lemma start_sound b n : sound (start b n).
Proof. constructor; [by exists []|constructor]. Qed.

Lemma reachable_start `{HandlerLaws} b n s : reachable (start b n) s -> ok s /\ sound s.
Proof. apply reachable_sound. split; [apply ok_start|apply start_sound]. Qed.

(** * The theorem *)

(** While a thread has a hold the watch is not idle. *)
Lemma holding_busy s i : ok s -> threads s !! i = Some Holding -> idle (watch s) = false.
Proof.
  intros Hok Hi. pose proof (count_in _ i _ Hi eq_refl) as Hin. rewrite <- (ok_count s Hok) in Hin.
  rewrite (ok_idle s Hok). unfold idle_value.
  destruct (holds_owner s) as [j|] eqn:Ho; [|apply bool_decide_eq_false; lia].
  destruct (ok_owner s Hok j Ho) as [p Hp]. rewrite Hp.
  destruct (decide (p = Counted)) as [->|Hc]; [|destruct p; try done; apply bool_decide_eq_false; lia].
  assert (Hij : i <> j) by (intros ->; congruence).
  pose proof (count_two _ i j _ _ Hij Hi Hp eq_refl eq_refl) as H2. rewrite <- (ok_count s Hok) in H2.
  apply bool_decide_eq_false. lia.
Qed.

(** With every thread at rest outside its hold the watch is idle. *)
Lemma rest_idle s : ok s -> (forall i p, threads s !! i = Some p -> p = Outside \/ p = Making \/ p = Got) -> idle (watch s) = true.
Proof.
  intros Hok Hrest. rewrite (ok_idle s Hok). unfold idle_value.
  assert (holds (watch s) = O) as ->.
  { rewrite (ok_count s Hok). apply count_early. intros i p Hi. by destruct (Hrest i p Hi) as [-> |[-> | ->]]. }
  destruct (holds_owner s) as [j|] eqn:Ho; [|done]. destruct (ok_owner s Hok j Ho) as [p Hp].
  pose proof (proj2 (ok_lock s Hok j p Hp) Ho). by destruct (Hrest j p Hp) as [-> |[-> | ->]].
Qed.

(** A run in which thread [i] has its hold all the time. *)
Inductive held `{Handler} (i : nat) (s : State) : State -> Prop :=
| held_here : threads s !! i = Some Holding -> held i s s
| held_step t u : held i s t -> step t u -> threads u !! i = Some Holding -> held i s u.

(** No handler has loaded a true [idle]. *)
Definition quiet (s : State) : Prop := Forall (fun a => firing a = false) (arrivals s).

(** No thread is between the lock that takes a hold and the end of its drop. *)
Definition at_rest (s : State) : Prop := forall i p, threads s !! i = Some p -> p = Outside \/ p = Making \/ p = Got.

Lemma published_registered s : sound s -> stage s = Published ->
  exists l, map access (registered s) = map Store l ++ [Store (number s); Test (number s)].
Proof. intros [[l [-> _]] _] Hst. exists l. rewrite map_app, map_map, Hst. done. Qed.

(** The load of [idle] in a handler is the one of the current watch. *)
Lemma test_current s d r w l v : sound s -> arrivals s !! d = Some {| ran := r; todo := Test w :: l; firing := false |} ->
  watch_at s w = Some v -> w = number s /\ v = watch s.
Proof.
  intros Hs Hd Hv. pose proof (Forall_lookup_1 _ _ _ _ (sound_arrivals s Hs) Hd) as Hone.
  destruct (test_named s w Hs) as [-> _]; [apply (ran_registered s _ _ Hone); cbn; rewrite elem_of_app, elem_of_cons; tauto|].
  unfold watch_at in Hv. rewrite decide_True in Hv by done. by injection Hv as <-.
Qed.

(** A hold that nothing overtook keeps the process alive over the next step. *)
Lemma held_step_alive `{HandlerLaws} s t i : ok s -> sound s -> threads s !! i = Some Holding -> quiet s -> step s t ->
  alive t = true /\ quiet t.
Proof.
  intros Hok Hs Hi Hq Hstep. pose proof (published s i _ Hok Hi ltac:(done) ltac:(done)) as Hst.
  destruct Hstep as [j t Ha Hw|j t Ha Hw|j t Ha Hw|Ha|d t Ha Hw]; [by destruct Hw..| |].
  - destruct (sound_actions s Hs) as [l [Hl _]]. rewrite Hst in Hl. unfold arrive.
    destruct (registered s) eqn:Hr; [by destruct l|]. split; [done|]. apply Forall_app. split; [done|]. by apply Forall_singleton.
  - destruct Hw as [r w l Hd|r w l v Hd Hv|a Hd Hf].
    + split; [done|]. by apply Forall_insert.
    + destruct (test_current s d r w l v Hs Hd Hv) as [-> ->]. split; [done|]. apply Forall_insert; [done|]. by apply (holding_busy s i).
    + rewrite (Forall_lookup_1 _ _ _ _ Hq Hd) in Hf. done.
Qed.

(** An arrival stays, with the same accesses to make, and one that goes on to the default action
    stays there. *)
Lemma arrival_goes_on `{Handler} s t d x : step s t -> arrivals s !! d = Some x ->
  exists y, arrivals t !! d = Some y /\ ran y ++ todo y = ran x ++ todo x /\ (firing x = true -> firing y = true).
Proof.
  intros Hstep Hx. assert (Hsame : forall u, arrivals u = arrivals s ->
    exists y, arrivals u !! d = Some y /\ ran y ++ todo y = ran x ++ todo x /\ (firing x = true -> firing y = true)).
  { intros u ->. by exists x. }
  destruct Hstep as [j t _ Hw|j t _ Hw|j t _ Hw|_|e t _ Hw]; [apply Hsame; by destruct Hw..| |].
  - unfold arrive. destruct (registered s); [by apply Hsame|]. exists x. split; [|done]. cbn. by apply lookup_app_l_Some.
  - destruct Hw as [r w l Hd|r w l v Hd Hv|a Hd Hf]; [| |by apply Hsame].
    all: cbn; destruct (decide (e = d)) as [->|He]; [|rewrite list_lookup_insert_ne by done; by exists x].
    all: rewrite Hd in Hx; injection Hx as <-; rewrite list_lookup_insert_eq by (by eapply lookup_lt_Some).
    all: eexists; split; [reflexivity|]; cbn; by rewrite <- app_assoc.
Qed.

Lemma published_stays `{Handler} s t : step s t -> stage s = Published -> stage t = Published /\ number t = number s.
Proof.
  intros Hstep Hst. destruct Hstep as [j t _ Hw|j t _ Hw|j t _ Hw|_|e t _ Hw]; [destruct Hw; naive_solver congruence|by destruct Hw..| |].
  - unfold arrive. by destruct (registered s).
  - destruct Hw as [r w l Hd|r w l v Hd Hv|a Hd Hf]; [|done..]. cbn.
    destruct (store_flag_at s w) as (_ & Hn & _ & Hst2 & _). rewrite Hst2. split; [done|exact Hn].
Qed.

Lemma interrupted_kept `{Handler} s t : was_interrupted s = true -> step s t -> was_interrupted t = true.
Proof.
  unfold was_interrupted. intros [Hst%bool_decide_eq_true Hi]%andb_prop Hstep.
  destruct (published_stays s t Hstep Hst) as [Hst2 _]. apply andb_true_intro. split; [by apply bool_decide_eq_true|].
  destruct Hstep as [j t _ Hw|j t _ Hw|j t _ Hw|_|e t _ Hw]; [destruct Hw; naive_solver congruence|by destruct Hw..| |].
  - unfold arrive. by destruct (registered s).
  - destruct Hw as [r w l Hd|r w l v Hd Hv|a Hd Hf]; [|done..]. cbn. destruct (store_flag_at s w) as [-> _]. rewrite Hi. apply orb_true_r.
Qed.

(** What becomes of a SIGINT that arrives when the watch is published. *)
Lemma arrival_recorded `{HandlerLaws} s t : ok s -> sound s -> stage s = Published -> reachable (arrive s) t ->
  exists l x, arrivals t !! length (arrivals s) = Some x /\
    ran x ++ todo x = map Store l ++ [Store (number s); Test (number s)] /\
    (todo x = [] \/ firing x = true -> was_interrupted t = true).
Proof.
  intros Hok Hs Hst Hrun. destruct (published_registered s Hs Hst) as [l Hl]. exists l.
  assert (Hall : stage t = Published /\ number t = number s /\ exists x, arrivals t !! length (arrivals s) = Some x /\
    ran x ++ todo x = map Store l ++ [Store (number s); Test (number s)]).
  { induction Hrun as [|t u _ (IH1 & IH2 & x & Hx & IH3) Hstep].
    - unfold arrive. destruct (registered s) eqn:Hr; [by destruct l|]. rewrite <- Hr. split; [done|]. split; [done|].
      exists {| ran := []; todo := handler (registered s); firing := false |}. split; [by apply list_lookup_middle|]. 
      cbn. by rewrite handler_access, Hr.
    - destruct (published_stays t u Hstep IH1) as [-> ->]. destruct (arrival_goes_on t u _ x Hstep Hx) as (y & Hy & Heq & _).
      split; [done|]. split; [done|]. exists y. by rewrite Heq. }
  destruct Hall as (H1 & H2 & x & Hx & Hacc). exists x. split; [done|]. split; [done|]. intros Hend.
  destruct (reachable_sound (arrive s) t) as [_ Ht]; [auto using arrive_ok, arrive_sound|done|].
  pose proof (Forall_lookup_1 _ _ _ _ (sound_arrivals t Ht) Hx) as Hone. unfold was_interrupted. rewrite bool_decide_eq_true_2 by done.
  destruct Hend as [Hend|Hf]; [|apply (test_recorded t x); [done..|]; by apply (arrival_fires t x)].
  apply (arrival_records t x Hone). rewrite Hend, app_nil_r in Hacc. rewrite Hacc, H2, elem_of_app, elem_of_cons. tauto.
Qed.

(** C35: In every interleaving of the threads' accesses with those of the handlers of any number of
    SIGINTs: while a thread has its hold the process stays alive, unless a handler had loaded a true
    [idle] before; a SIGINT that arrives once the watch is published is recorded before its handler
    loads [idle] or ends; a handler that loads [idle] with no thread in a hold goes on to the default
    action, which then ends the process, whoever takes a hold meanwhile; before the first registration
    SIGINT does what it did at the start; the record is never cleared. *)
Theorem sigint_exact `{HandlerLaws} b n s : reachable (start b n) s ->
  (forall i t, held i s t -> quiet s -> alive s = true -> alive t = true /\ quiet t) /\
  (stage s = Published -> forall t, reachable (arrive s) t ->
    exists l x, arrivals t !! length (arrivals s) = Some x /\
      ran x ++ todo x = map Store l ++ [Store (number s); Test (number s)] /\
      (todo x = [] \/ firing x = true -> was_interrupted t = true)) /\
  (at_rest s -> forall d t r w l, arrivals s !! d = Some {| ran := r; todo := Test w :: l; firing := false |} ->
    handler_step s d t -> exists y, arrivals t !! d = Some y /\ firing y = true) /\
  (forall d x, arrivals s !! d = Some x -> firing x = true ->
    (alive s = true -> exists t, step s t /\ alive t = false) /\
    (forall t, step s t -> exists y, arrivals t !! d = Some y /\ firing y = true) /\
    (forall t, handler_step s d t -> alive t = false)) /\
  (registered s = [] -> alive (arrive s) = ignored s) /\
  (forall t, was_interrupted s = true -> step s t -> was_interrupted t = true).
Proof.
  intros Hrun. destruct (reachable_start b n s Hrun) as [Hok Hs]. split_and!.
  - intros i t Hheld Hq Ha. assert (Hinv : (ok t /\ sound t) /\ threads t !! i = Some Holding /\ alive t = true /\ quiet t); [|tauto].
    induction Hheld as [Hi|t u _ IH Hstep Hi]; [done|]. destruct IH as ([Hok2 Hs2] & Hi2 & Ha2 & Hq2).
    split; [eauto using step_keeps_ok, step_sound|]. split; [done|]. by apply (held_step_alive t u i).
  - intros Hst t. by apply arrival_recorded.
  - intros Hrest d t r w l Hd Hstep.
    inversion Hstep as [r2 w2 l2 He Ht|r2 w2 l2 v He Hv Ht|x He Hf Ht]; subst t; rewrite Hd in He; [discriminate He| |by injection He as <-].
    injection He as <- <- <-. destruct (test_current s d r w l v Hs Hd Hv) as [-> ->]. cbn.
    rewrite list_lookup_insert_eq by (by eapply lookup_lt_Some). eexists. split; [reflexivity|]. by apply rest_idle.
  - intros d x Hd Hf. split_and!.
    + intros Ha. eexists. split; [by apply (step_handler s d), (run_default s d x)|done].
    + intros t Hstep. destruct (arrival_goes_on s t d x Hstep Hd) as (y & Hy & _ & Hfy). eauto.
    + intros t Hstep. inversion Hstep as [? ? ? He|? ? ? v He Hv|? He Hf2]; subst; [rewrite Hd in He; by injection He as ->..|done].
  - unfold arrive. by intros ->.
  - intros t. apply interrupted_kept.
Qed.

(** A signal-hook that does what it documents. *)
#[local] Instance demo_handler : Handler := map access.

#[local] Instance demo_handler_laws : HandlerLaws.
Proof. split; [done|by intros l w; unfold handler, demo_handler; rewrite map_app..]. Qed.

(** One more step of a run. *)
Tactic Notation "go" hyp(H) uconstr(st) :=
  match type of H with
  | reachable ?a ?s => let K := fresh in eassert (K : step s _) by (refine st; reflexivity);
      match type of K with step _ ?t => let t2 := eval vm_compute in t in change (step s t2) in K end;
      apply (reachable_step _ _ _ H) in K; clear H; rename K into H
  end.

(** One thread, in a process that started with SIGINT ignored, registers the watch. *)
Ltac run_watch H :=
  assert (H := reachable_here (start true 1));
  go H (step_watch _ O _ _ (enter_new _ O _ _ _));
  go H (step_watch _ O _ _ (register_record _ O _ _));
  go H (step_watch _ O _ _ (register_default _ O _ _));
  go H (step_watch _ O _ _ (publish _ O _ _)).

(** The rest of [hold_sigint]. *)
Ltac run_hold H :=
  go H (step_hold _ O _ _ (lock _ O _ _));
  go H (step_hold _ O _ _ (count_up _ O _));
  go H (step_hold _ O _ _ (store_busy _ O _));
  go H (step_hold _ O _ _ (unlock _ O _)).

(** SIGINT arrives and its handler runs to the load of [idle]. *)
Ltac run_handler H :=
  go H (step_arrive _ _);
  go H (step_handler _ O _ _ (run_store _ O _ _ _ _));
  go H (step_handler _ O _ _ (run_test _ O _ _ _ _ _ _)).

(** A thread that takes its hold when a handler has already loaded [idle]: it has the hold, and the
    next step ends the process. *)
Lemma hold_race : exists s t, reachable (start true 1) s /\ threads s !! O = Some Holding /\ was_interrupted s = true /\
  step s t /\ alive t = false.
Proof.
  run_watch H. run_handler H. run_hold H. eexists _, _. split; [exact H|]. split; [reflexivity|]. split; [reflexivity|].
  split; [refine (step_handler _ O _ _ (run_default _ O _ _ _)); reflexivity|reflexivity].
Qed.

(** A thread that has its hold while SIGINT arrives and is handled to the end. *)
Lemma sigint_exact_witness : exists s t, reachable (start true 1) s /\ held 0 s t /\
  arrivals t !! O = Some {| ran := [Store 0; Test 0]; todo := []; firing := false |} /\ alive t = true /\ was_interrupted t = true.
Proof.
  run_watch H. run_hold H.
  match type of H with reachable _ ?s => set (s0 := s) in H end. pose (s1 := arrive s0). assert (H1 : step s0 s1) by by apply step_arrive.
  eassert (H2 : step s1 _) by (refine (step_handler _ O _ _ (run_store _ O _ _ _ _)); reflexivity).
  match type of H2 with step _ ?s => pose (s2 := s); change (step s1 s2) in H2 end.
  eassert (H3 : step s2 _) by (refine (step_handler _ O _ _ (run_test _ O _ _ _ _ _ _)); reflexivity).
  match type of H3 with step _ ?s => pose (s3 := s); change (step s2 s3) in H3 end.
  assert (Hheld : held 0 s0 s3).
  { eapply held_step; [|exact H3|reflexivity]. eapply held_step; [|exact H2|reflexivity]. eapply held_step; [|exact H1|reflexivity].
    by apply held_here. }
  assert (Hrun : reachable (arrive s0) s3).
  { eapply reachable_step; [|exact H3]. eapply reachable_step; [|exact H2]. apply reachable_here. }
  destruct (sigint_exact true 1 s0 H) as (Hhold & Hrec & _).
  exists s0, s3. split; [exact H|]. split; [exact Hheld|]. split; [reflexivity|]. split.
  - apply (Hhold O s3 Hheld); [constructor|reflexivity].
  - destruct (Hrec eq_refl s3 Hrun) as (l & x & Hx & _ & Hdone). apply Hdone. left. by injection Hx as <-.
Defined.
