(* ===== verification/Globs.v ===== *)
(** The boundary globs: crates/checks/src/globs.rs.

    A glob is matched without backtracking: one pass over the path for each of its elements, and
    the leftmost place for each piece between the stars of an element.  [consumes] and [in_glob] are
    what a glob stands for, and [in_boundary_exact] shows that the passes answer it.  Offsets count
    characters, and the code's bytes where two lengths are compared. *)

From S2P Require Import Prelude RustStr.

(** * The matcher *)

Definition c_star : char := 42.
Definition GLOBSTAR : str := lit "**".

(** [str::ends_with] of a text. *)
Definition ends_with (p s : str) : bool := starts_with (reverse p) (reverse s).

(** The pieces between the first and the last, each at its leftmost place in the rest of the text. *)
Fixpoint find_pieces (middle : list str) (text : str) : bool :=
  match middle with
  | [] => true
  | piece :: middle =>
      match find_str piece text with
      | Some found => find_pieces middle (drop (found + length piece) text)
      | None => false
      end
  end.

Definition segment_matches (pattern text : str) : bool :=
  match split_char c_star pattern with
  | head :: (_ :: _) as pieces =>
      let tail := List.last pieces [] in
      let middle := removelast pieces in
      if (utf8_len text <? utf8_len tail)%nat then false
      else
        let end_ := (utf8_len text - utf8_len tail)%nat in
        if (end_ <? utf8_len head)%nat || negb (starts_with head text) || negb (ends_with tail text) then false
        else find_pieces middle (drop (length head) (take (length text - length tail) text))
  | _ => bool_decide (pattern = text)
  end.

Definition step (reached : list bool) (segments : list str) (element : str) : list bool :=
  false :: zip_with (fun was segment => was && segment_matches element segment) reached segments.

(** The rest of [spread], after a last element [was]. *)
Fixpoint spread_from (was : bool) (reached : list bool) (segments : list str) : list bool :=
  match segments, reached with
  | segment :: segments, r :: reached =>
      let more := negb (bool_decide (segment = [])) && (r || was) in
      more :: spread_from more reached segments
  | _, _ => []
  end.

Definition globstar (reached : list bool) (segments : list str) (last : bool) : list bool :=
  let spread := false :: spread_from false reached segments in
  if last then spread else zip_with orb reached spread.

(** The passes of the elements from [index] on. *)
Fixpoint passes (last index : nat) (elements segments : list str) (reached : list bool) : list bool :=
  match elements with
  | [] => reached
  | element :: elements =>
      let reached :=
        if decide (element = GLOBSTAR) then globstar reached segments (bool_decide (index = last))
        else step reached segments element in
      passes last (S index) elements segments reached
  end.

Definition glob_matches (elements segments : list str) : bool :=
  let reached := true :: replicate (length segments) false in
  nth (length segments) (passes (length elements - 1) 0 elements segments reached) false.

Definition in_boundary (path : str) (globs : list str) : bool :=
  let segments := split_char c_slash path in
  any (fun glob => glob_matches (split_char c_slash glob) segments) globs.

(** * What a glob stands for *)

(** A star is any text and every other character itself. *)
Inductive star_match : str -> str -> Prop :=
| star_end : star_match [] []
| star_char c p t : c <> c_star -> star_match p t -> star_match (c :: p) (c :: t)
| star_any w p t : star_match p t -> star_match (c_star :: p) (w ++ t).

(** The segments that one element consumes; [last] says that the element is the glob's last. *)
Definition consumes (last : bool) (element : str) (segments : list str) : Prop :=
  if decide (element = GLOBSTAR) then Forall (fun s => s <> []) segments /\ (last = true -> segments <> [])
  else exists segment, segments = [segment] /\ star_match element segment.

Inductive in_glob : list str -> list str -> Prop :=
| glob_done : in_glob [] []
| glob_next element elements consumed segments :
    consumes (bool_decide (elements = [])) element consumed -> in_glob elements segments ->
    in_glob (element :: elements) (consumed ++ segments).

(** * Segments *)

(** The text of pieces with anything before each of them, and anything at the end. *)
Fixpoint spread (middle : list str) (text : str) : Prop :=
  match middle with
  | [] => True
  | piece :: middle => exists w rest, text = w ++ piece ++ rest /\ spread middle rest
  end.

Lemma spread_more middle w text : spread middle text -> spread middle (w ++ text).
Proof.
  destruct middle as [|piece middle]; [done|]. intros (v & rest & -> & H).
  exists (w ++ v), rest. by rewrite app_assoc.
Qed.

(** Taking the leftmost place never loses a match. *)
Lemma find_pieces_spec middle text : find_pieces middle text = true <-> spread middle text.
Proof.
  revert text. induction middle as [|piece middle IH]; intros text; [done|]. cbn [find_pieces spread].
  destruct (find_str piece text) as [n|] eqn:E.
  - apply find_str_Some in E as ([rest Hr] & Hn & Hfirst). rewrite IH. split.
    + intros H. exists (take n text), rest. split; [by rewrite <- Hr, take_drop|].
      by rewrite <- drop_drop, Hr, drop_app_length in H.
    + intros (w & rest' & Ht & H).
      assert (n <= length w)%nat as Hle.
      { destruct (Nat.le_gt_cases n (length w)) as [|Hlt]; [done|]. exfalso. apply (Hfirst _ Hlt).
        rewrite Ht, drop_app_length. by exists rest'. }
      assert (exists u, drop (n + length piece) text = u ++ rest') as [u ->]; [|by apply spread_more].
      exists (take (length w - n) (drop (n + length piece) text)).
      rewrite <- (take_drop (length w - n) (drop (n + length piece) text)) at 1. f_equal.
      rewrite drop_drop, Ht, app_assoc, drop_app_ge by (rewrite length_app; lia).
      rewrite length_app. replace (_ - _)%nat with O by lia. done.
  - split; [done|]. intros (w & rest & -> & _). exfalso.
    apply (proj1 (find_str_None _ _) E (length w)); [rewrite length_app; lia|]. rewrite drop_app_length. by exists rest.
Qed.

Lemma star_match_free h p t : char_free c_star h -> star_match (h ++ p) t <-> exists rest, t = h ++ rest /\ star_match p rest.
Proof.
  intros Hf. revert t. induction Hf as [|c h Hc Hf IH]; intros t; cbn [app].
  - split; [by exists t|]. by intros (rest & -> & H).
  - apply is_char_false in Hc. split.
    + inversion 1 as [|? ? t' ? Hm|]; subst; [|done]. apply IH in Hm as (rest & -> & H'). by exists rest.
    + intros (rest & -> & H'). constructor; [congruence|]. apply IH. by exists rest.
Qed.

Lemma star_match_star p t : star_match (c_star :: p) t <-> exists w rest, t = w ++ rest /\ star_match p rest.
Proof.
  split; [|intros (w & rest & -> & H); by constructor].
  inversion 1 as [|c ? t' Hne|w ? t' Hm]; subst; [done|]. by exists w, t'.
Qed.

Lemma star_match_plain p t : char_free c_star p -> star_match p t <-> p = t.
Proof.
  intros Hf. rewrite <- (app_nil_r p) at 1. rewrite star_match_free by done. split.
  - intros (rest & -> & H). inversion H. by rewrite app_nil_r.
  - intros ->. exists []. rewrite app_nil_r. split; [done|constructor].
Qed.

(** A pattern by its pieces: the first at the start, the last at the end, the others spread between. *)
Lemma star_match_tail middle tail t : Forall (char_free c_star) middle -> char_free c_star tail ->
  star_match (c_star :: join_with [c_star] (middle ++ [tail])) t <-> exists x, t = x ++ tail /\ spread middle x.
Proof.
  intros Hm Ht. revert t. induction Hm as [|piece middle Hp Hm IH]; intros t; rewrite star_match_star; cbn [app spread].
  - cbn [join_with]. split.
    + intros (w & rest & -> & H). apply star_match_plain in H as <-; [|done]. by exists w.
    + intros (x & -> & _). exists x, tail. split; [done|]. by apply star_match_plain.
  - rewrite join_with_cons by (by destruct middle). cbn [app]. split.
    + intros (w & rest & -> & H). apply star_match_free in H as (rest' & -> & H); [|done].
      apply IH in H as (x & -> & Hx). exists (w ++ piece ++ x). rewrite <- !app_assoc. split; [done|]. by exists w, x.
    + intros (x & -> & w & rest & -> & Hx). exists w, (piece ++ rest ++ tail). rewrite <- !app_assoc. split; [done|].
      apply star_match_free; [done|]. exists (rest ++ tail). split; [done|]. apply IH. by exists rest.
Qed.

Lemma star_match_pieces head middle tail t :
  char_free c_star head -> Forall (char_free c_star) middle -> char_free c_star tail ->
  star_match (join_with [c_star] (head :: middle ++ [tail])) t <-> exists x, t = head ++ x ++ tail /\ spread middle x.
Proof.
  intros Hh Hm Ht. rewrite join_with_cons by (by destruct middle). cbn [app]. rewrite star_match_free by done. split.
  - intros (rest & -> & H). apply star_match_tail in H as (x & -> & Hx); [|done|done]. by exists x.
  - intros (x & -> & Hx). exists (x ++ tail). split; [done|]. apply star_match_tail; [done|done|]. by exists x.
Qed.

Lemma utf8_len_app a b : utf8_len (a ++ b) = (utf8_len a + utf8_len b)%nat.
Proof. apply sum_list_with_app. Qed.

(** The guards hold exactly when the first and the last piece stand apart at the two ends. *)
Lemma ends_apart head tail t :
  (utf8_len t <? utf8_len tail)%nat = false /\ (utf8_len t - utf8_len tail <? utf8_len head)%nat = false /\
  starts_with head t = true /\ ends_with tail t = true <->
  exists x, t = head ++ x ++ tail.
Proof.
  unfold ends_with. rewrite !starts_with_spec, !Nat.ltb_ge. split.
  - intros (H1 & H2 & [a Ha] & [b Hb]). apply (f_equal reverse) in Hb. rewrite reverse_app, !reverse_involutive in Hb.
    set (y := reverse b) in Hb.
    assert (head `prefix_of` y) as [x Hx].
    { assert (head `prefix_of` t) as Hp1 by (by exists a). assert (y `prefix_of` t) as Hp2 by (by exists tail).
      destruct (prefix_weak_total head y t) as [|[z Hz]]; [done..|].
      destruct z as [|c z]; [rewrite app_nil_r in Hz; by subst head|]. exfalso.
      rewrite Hb, Hz, !utf8_len_app in H2. cbn [utf8_len sum_list_with] in H2.
      assert (1 <= utf8_width c)%nat; [|lia]. unfold utf8_width. repeat case_match; lia. }
    exists x. by rewrite Hb, Hx, <- app_assoc.
  - intros [x ->]. rewrite !utf8_len_app. split_and!; [lia|lia|by exists (x ++ tail)|].
    rewrite app_assoc, reverse_app. by exists (reverse (head ++ x)).
Qed.

Lemma segment_matches_spec pattern text : segment_matches pattern text = true <-> star_match pattern text.
Proof.
  pose proof (join_split_char c_star pattern) as Hj. pose proof (split_char_free c_star pattern) as Hf.
  unfold segment_matches. destruct (split_char c_star pattern) as [|head [|second rest]].
  - cbn in Hj. subst pattern. rewrite bool_decide_eq_true. symmetry. apply star_match_plain. constructor.
  - cbn in Hj. subst head. apply Forall_cons in Hf as [Hf _]. rewrite bool_decide_eq_true. symmetry. by apply star_match_plain.
  - destruct (exists_last (l := second :: rest)) as (middle & tail & E); [done|]. rewrite E in *.
    rewrite last_last, removelast_last. cbv zeta.
    apply Forall_cons in Hf as [Hh Hf]. apply Forall_app in Hf as [Hm [Ht _]%Forall_cons].
    rewrite <- Hj, (star_match_pieces head middle tail text) by done.
    pose proof (ends_apart head tail text) as Ha.
    destruct (utf8_len text <? utf8_len tail)%nat eqn:E1; [split; [done|]; intros (x & Hx & _); destruct (proj2 Ha) as [? _]; [by exists x|done]|].
    destruct (utf8_len text - utf8_len tail <? utf8_len head)%nat eqn:E2;
      [split; [done|]; intros (x & Hx & _); destruct (proj2 Ha) as (_ & ? & _); [by exists x|done]|].
    destruct (starts_with head text) eqn:E3; [|split; [done|]; intros (x & Hx & _); destruct (proj2 Ha) as (_ & _ & ? & _); [by exists x|done]].
    destruct (ends_with tail text) eqn:E4; [|split; [done|]; intros (x & Hx & _); destruct (proj2 Ha) as (_ & _ & _ & ?); [by exists x|done]].
    cbn [orb negb]. destruct (proj1 Ha) as [x ->]; [done|]. rewrite find_pieces_spec.
    replace (length (head ++ x ++ tail) - length tail)%nat with (length (head ++ x)) by (rewrite !length_app; lia).
    rewrite app_assoc, take_app_length, drop_app_length, <- app_assoc. split; [by exists x|].
    intros (x' & Hx & Hs). by apply app_inv_head, app_inv_tail in Hx as ->.
Qed.

(** * Elements *)

Section Passes.
Context (segments : list str).
Implicit Types (reached : list bool).

(** After some elements, [reached] holds at the ends of what they can consume. *)
Definition holds reached (j : nat) : Prop := nth j reached false = true.

Lemma nth_zip_with {A} (f : bool -> A -> bool) reached (l : list A) j :
  nth j (zip_with f reached l) false = true <-> exists b a, reached !! j = Some b /\ l !! j = Some a /\ f b a = true.
Proof.
  revert l j. induction reached as [|r reached IH]; intros [|a l] [|j]; cbn; try apply IH; naive_solver.
Qed.

Lemma holds_lookup reached j : holds reached j <-> reached !! j = Some true.
Proof.
  unfold holds. revert j. induction reached as [|r reached IH]; intros [|j]; cbn; try apply IH; naive_solver.
Qed.

(** What the segments from [i] to [j] are. *)
Definition between (i j : nat) : list str := take (j - i) (drop i segments).

Lemma step_spec reached element j : length reached = S (length segments) ->
  holds (step reached segments element) j <->
  exists i, holds reached i /\ (i <= j <= length segments)%nat /\ exists s, between i j = [s] /\ star_match element s.
Proof.
  intros Hlen. unfold holds at 1, step. destruct j as [|j]; cbn [nth].
  - split; [done|]. intros (i & _ & Hij & s & Hb & _). unfold between in Hb. by replace (0 - i)%nat with O in Hb by lia.
  - rewrite nth_zip_with. split.
    + intros (b & s & Hb & Hs & [Hr Hm]%andb_prop). subst b. exists j. rewrite holds_lookup. split; [done|].
      pose proof (lookup_lt_Some _ _ _ Hs). split; [lia|]. exists s. split; [|by apply segment_matches_spec].
      unfold between. replace (S j - j)%nat with 1%nat by lia. by rewrite (drop_S _ _ _ Hs).
    + intros (i & Hi & Hij & s & Hb & Hm). assert (i = j) as ->.
      { apply (f_equal length) in Hb. unfold between in Hb. rewrite length_take, length_drop in Hb. cbn in Hb. lia. }
      unfold between in Hb. replace (S j - j)%nat with 1%nat in Hb by lia.
      destruct (lookup_lt_is_Some_2 segments j ltac:(lia)) as [s' Hs]. rewrite (drop_S _ _ _ Hs) in Hb. injection Hb as ->.
      exists true, s. apply holds_lookup in Hi. split; [done|]. split; [done|]. by apply segment_matches_spec.
Qed.

Notation filled := (Forall (fun s : str => s <> [])).

Lemma spread_from_spec was reached (l : list str) j : (length l <= length reached)%nat ->
  holds (spread_from was reached l) j <->
  (j < length l)%nat /\
  ((was = true /\ filled (take (S j) l)) \/ exists i, (i <= j)%nat /\ holds reached i /\ filled (take (S j - i) (drop i l))).
Proof.
  revert was reached j. induction l as [|s l IH]; intros was [|r reached] j Hlen; cbn [length] in Hlen; try lia.
  - unfold holds. cbn. destruct j; split; [done|lia|done|lia].
  - unfold holds in *. cbn. destruct j; split; [done|lia|done|lia].
  - cbn [spread_from length]. set (more := negb (bool_decide (s = [])) && (r || was)).
    assert (more = true <-> s <> [] /\ (r = true \/ was = true)) as Hmore.
    { unfold more. rewrite andb_true_iff, negb_true_iff, bool_decide_eq_false, orb_true_iff. done. }
    destruct j as [|j]; unfold holds at 1; cbn [nth].
    + rewrite Hmore. split.
      * intros (Hs & Hr). split; [lia|]. destruct Hr as [->| ->]; [right; exists O; split; [lia|]|left]; repeat constructor; done.
      * intros (_ & [[-> [Hs _]%Forall_cons]|(i & Hi & Hr & Hs)]); [by split; [|right]|].
        replace i with O in * by lia. cbn in Hs. apply Forall_cons in Hs as [Hs _]. split; [done|]. left. exact Hr.
    + change (nth j (spread_from more reached l) false = true) with (holds (spread_from more reached l) j).
      rewrite IH by lia. rewrite Hmore. cbn [take]. split.
      * intros (Hj & [[[Hs Hr] Hf]|(i & Hi & Hr & Hf)]); (split; [lia|]).
        -- destruct Hr as [->| ->]; [right|left; split; [done|by constructor]]. exists O. split; [lia|]. split; [done|]. by constructor.
        -- right. exists (S i). split; [lia|]. by split.
      * intros (Hj & [[Hw [Hs Hf]%Forall_cons]|([|i] & Hi & Hr & Hf)]); (split; [lia|]).
        -- left. split; [|done]. split; [done|by right].
        -- cbn in Hf. apply Forall_cons in Hf as [Hs Hf]. left. split; [|done]. split; [done|]. left. exact Hr.
        -- right. exists i. split; [lia|]. by split.
Qed.

Lemma length_spread_from was reached (l : list str) : (length l <= length reached)%nat -> length (spread_from was reached l) = length l.
Proof. revert was reached. induction l as [|s l IH]; intros was [|r reached] Hlen; cbn in *; try lia. f_equal. apply IH. lia. Qed.

Lemma length_step reached element : length reached = S (length segments) -> length (step reached segments element) = S (length segments).
Proof. intros Hlen. unfold step. cbn. rewrite length_zip_with. lia. Qed.

Lemma length_globstar reached last : length reached = S (length segments) -> length (globstar reached segments last) = S (length segments).
Proof.
  intros Hlen. unfold globstar. destruct last; cbn [length]; rewrite ?length_zip_with; cbn [length]; rewrite length_spread_from; lia.
Qed.

Lemma globstar_spec reached last j : length reached = S (length segments) ->
  holds (globstar reached segments last) j <->
  exists i, holds reached i /\ (i <= j <= length segments)%nat /\ filled (between i j) /\ (last = true -> between i j <> []).
Proof.
  intros Hlen. unfold globstar. set (sp := false :: spread_from false reached segments).
  assert (holds sp j <-> exists i, holds reached i /\ (i < j <= length segments)%nat /\ filled (between i j)) as Hsp.
  { unfold sp, holds at 1. destruct j as [|j]; cbn [nth]; [split; [done|]; intros (i & _ & ? & _); lia|].
    change (nth j (spread_from false reached segments) false = true) with (holds (spread_from false reached segments) j).
    rewrite spread_from_spec by lia. unfold between. split.
    - intros (Hj & [[? _]|(i & Hi & Hr & Hf)]); [done|]. exists i. split; [done|]. by split; [lia|].
    - intros (i & Hr & Hij & Hf). split; [lia|]. right. exists i. by split; [lia|]. }
  assert (forall i, (i < j <= length segments)%nat -> between i j <> []) as Hne.
  { intros i Hi Hb. apply (f_equal length) in Hb. unfold between in Hb. rewrite length_take, length_drop in Hb. cbn in Hb. lia. }
  destruct last.
  - rewrite Hsp. split.
    + intros (i & Hr & Hij & Hf). exists i. split; [done|]. split; [lia|]. split; [done|]. intros _. by apply Hne.
    + intros (i & Hr & Hij & Hf & Hl). exists i. split; [done|]. split; [|done]. split; [|lia].
      destruct (decide (i = j)) as [->|]; [|lia]. destruct (Hl eq_refl). unfold between. by rewrite Nat.sub_diag.
  - unfold holds at 1. rewrite nth_zip_with. split.
    + intros (r & sv & Hr & Hs & [->| ->]%orb_prop).
      * apply holds_lookup in Hr. exists j. pose proof (lookup_lt_Some _ _ _ (proj1 (holds_lookup _ _) Hr)).
        split; [done|]. split; [lia|]. unfold between. rewrite Nat.sub_diag. by split.
      * apply holds_lookup, Hsp in Hs as (i & Hi & Hij & Hf). exists i. split; [done|]. split; [lia|]. by split.
    + intros (i & Hr & Hij & Hf & _). destruct (decide (i = j)) as [->|Hij'].
      * exists true. destruct (lookup_lt_is_Some_2 sp j) as [b Hb]; [unfold sp; cbn; rewrite length_spread_from; lia|].
        exists b. apply holds_lookup in Hr. by split; [|split].
      * assert (holds sp j) as Hs by (apply Hsp; exists i; split; [done|]; by split; [lia|]).
        apply holds_lookup in Hs. destruct (lookup_lt_is_Some_2 reached j ltac:(lia)) as [b Hb]. exists b, true.
        split; [done|]. split; [done|]. by destruct b.
Qed.

Lemma split_between i j : (i <= j)%nat -> drop i segments = between i j ++ drop j segments.
Proof. intros Hij. unfold between. rewrite <- (take_drop (j - i) (drop i segments)) at 1. rewrite drop_drop. by replace (i + (j - i))%nat with j by lia. Qed.

Lemma in_glob_cons element elements l : in_glob (element :: elements) l <->
  exists w rest, l = w ++ rest /\ consumes (bool_decide (elements = [])) element w /\ in_glob elements rest.
Proof.
  split; [|intros (w & rest & -> & H1 & H2); by constructor].
  inversion 1; subst. eauto.
Qed.

(** One element moves [reached] over what it consumes. *)
Lemma element_spec reached element last j : length reached = S (length segments) ->
  holds (if decide (element = GLOBSTAR) then globstar reached segments last else step reached segments element) j <->
  exists i, holds reached i /\ (i <= j <= length segments)%nat /\ consumes last element (between i j).
Proof.
  intros Hlen. unfold consumes. destruct (decide (element = GLOBSTAR)); [by apply globstar_spec|by apply step_spec].
Qed.

Lemma passes_spec last index elements reached :
  length reached = S (length segments) -> (index + length elements = S last \/ elements = [])%nat ->
  holds (passes last index elements segments reached) (length segments) <->
  exists i, (i <= length segments)%nat /\ holds reached i /\ in_glob elements (drop i segments).
Proof.
  revert index reached. induction elements as [|element elements IH]; intros index reached Hlen Hlast; cbn [passes].
  - split.
    + intros H. exists (length segments). split; [done|]. split; [done|]. rewrite drop_all. constructor.
    + intros (i & Hi & Hr & Hg). destruct (drop i segments) eqn:Hd; [|inversion Hg].
      apply (f_equal length) in Hd. rewrite length_drop in Hd. cbn in Hd.
      by replace (length segments) with i by lia.
  - destruct Hlast as [Hlast|]; [|done]. cbn [length] in Hlast.
    assert (bool_decide (index = last) = bool_decide (elements = [])) as ->.
    { apply bool_decide_ext. destruct elements; cbn in *; split; intros; [done|lia|lia|done]. }
    rewrite IH; [|destruct (decide _); [by apply length_globstar|by apply length_step]|destruct elements; [by right|left; cbn in *; lia]].
    split.
    + intros (j & Hj & (i & Hi & Hij & Hc)%element_spec & Hg); [|done]. exists i. split; [lia|]. split; [done|].
      apply in_glob_cons. exists (between i j), (drop j segments). split; [apply split_between; lia|]. by split.
    + intros (i & Hi & Hr & (w & rest & Hd & Hc & Hg)%in_glob_cons). exists (i + length w)%nat.
      assert (i + length w <= length segments)%nat as Hle.
      { apply (f_equal length) in Hd. rewrite length_drop, length_app in Hd. lia. }
      split; [done|]. rewrite <- drop_drop, Hd, drop_app_length. split; [|done].
      apply element_spec; [done|]. exists i. split; [done|]. split; [lia|]. unfold between.
      by replace (i + length w - i)%nat with (length w) by lia; rewrite Hd, take_app_length.
Qed.
End Passes.

Lemma glob_matches_spec elements segments : glob_matches elements segments = true <-> in_glob elements segments.
Proof.
  unfold glob_matches. change (nth ?j ?l false = true) with (holds l j). rewrite passes_spec.
  - split; [|intros H; exists O; by split; [lia|]].
    intros ([|i] & Hi & Hr & Hg); [done|]. exfalso. apply holds_lookup in Hr. cbn in Hr. by apply lookup_replicate in Hr as [? _].
  - cbn. by rewrite length_replicate.
  - destruct elements; [by right|left; cbn; lia].
Qed.

(** C39: A path is in the boundary exactly when its segments are what one of the globs stands for: the
    passes and the leftmost places miss no match and admit no other path. *)
Theorem in_boundary_exact path globs :
  in_boundary path globs = true <-> exists glob, glob ∈ globs /\ in_glob (split_char c_slash glob) (split_char c_slash path).
Proof.
  unfold in_boundary. rewrite any_spec. split; intros (glob & Hin & H); exists glob; (split; [done|]); by apply glob_matches_spec.
Qed.

Example boundary_src : in_boundary (lit "src/a/b.rs") [lit "docs/**"; lit "src/**/*.rs"] = true.
Proof. reflexivity. Qed.
Example boundary_root : in_boundary (lit "src") [lit "src/**"; lit "s*r*c*c"] = false.
Proof. reflexivity. Qed.
