(* ===== verification/CsvLines.v ===== *)
(** The lines of the labeling file: the chunked decoder of crates/hook/src/report/csv.rs.

    A file is decoded in chunks and cut into lines that keep their endings.  [csv_lines_exact] shows
    that the lines do not depend on where the chunks end, and what a file that is no text gives. *)

From S2P Require Import Prelude RustStr CodePoints Utf8.

(** * Lines *)

Record Lines := {
  bytes : list Z;
  offset : nat;
  pending : list Z;
  text : str;
  held_cr : bool;
  ended : bool;
  failed : bool
}.

Definition is_break (c : char) : bool := bool_decide (c ∈ [c_cr; c_lf]).

(** In characters. *)
Definition line_end (text : str) : option nat :=
  let at_ := length (take_while (fun c => negb (is_break c)) text) in
  if decide (at_ = length text) then None
  else if starts_with [c_cr; c_lf] (drop at_ text) then Some (at_ + 2)%nat else Some (at_ + 1)%nat.

(** [decoded] of log.rs; [None] is a panic. *)
Definition decoded (data : list Z) : option (result str str) :=
  r ← decode_strict data;
  match r with
  | Ok text => Some (Ok text)
  | Err error => Err <$> codec_text data error
  end.

(** The text, and what stays in the data. *)
Definition incremental (data : list Z) (last : bool) : option (result (str * list Z) str) :=
  match from_utf8 data with
  | Some text => Some (Ok (text, []))
  | None =>
      let error := utf8_error data in
      if bool_decide (utf8_error_len error = None) && negb last then
        r ← decoded (take (valid_up_to error) data);
        Some (match r with Ok text => Ok (text, drop (valid_up_to error) data) | Err e => Err e end)
      else
        r ← decoded data;
        Some (match r with Ok text => Ok (text, []) | Err e => Err e end)
  end.

Section Chunks.
Context (CHUNK : nat).

(** The lines after the chunk, and the error of a chunk that is refused. *)
Definition decode_chunk (l : Lines) : option (Lines * option str) :=
  let end_ := Nat.min (offset l + CHUNK) (length (bytes l)) in
  let last := bool_decide (end_ = offset l) in
  let data := pending l ++ take (end_ - offset l) (drop (offset l) (bytes l)) in
  r ← incremental data last;
  match r with
  | Err error =>
      Some ({| bytes := bytes l; offset := end_; pending := []; text := text l; held_cr := held_cr l; ended := ended l;
               failed := failed l |}, Some error)
  | Ok (decoded, data) =>
      let release := held_cr l && (last || negb (bool_decide (decoded = []))) in
      let decoded := if release then c_cr :: decoded else decoded in
      let held := if release then false else held_cr l in
      let hold := negb last && ends_with_char (is_char c_cr) decoded in
      Some ({| bytes := bytes l; offset := end_; pending := data;
               text := text l ++ (if hold then removelast decoded else decoded);
               held_cr := hold || held; ended := last; failed := failed l |}, None)
  end.

Definition with_text (l : Lines) (t : str) : Lines :=
  {| bytes := bytes l; offset := offset l; pending := pending l; text := t; held_cr := held_cr l; ended := ended l; failed := failed l |}.

(** [Iterator::next] of [Lines]. *)
Fixpoint next_steps (fuel : nat) (l : Lines) : option (option (result str str) * Lines) :=
  match fuel with
  | O => None
  | S fuel =>
      match line_end (text l) with
      | Some end_ => Some (Some (Ok (take end_ (text l))), with_text l (drop end_ (text l)))
      | None =>
          if failed l then Some (None, l)
          else if ended l then Some (if bool_decide (text l = []) then None else Some (Ok (text l)), with_text l [])
          else
            '(l, error) ← decode_chunk l;
            match error with
            | None => next_steps fuel l
            | Some error =>
                Some (Some (Err error),
                  {| bytes := bytes l; offset := offset l; pending := pending l; text := text l; held_cr := held_cr l;
                     ended := ended l; failed := true |})
            end
      end
  end.

(** A round for each byte left, one for the end of the file and one for the answer. *)
Definition rounds_left (l : Lines) : nat := length (bytes l) - offset l + (if ended l then 1 else 2).

Definition next (l : Lines) : option (option (result str str) * Lines) := next_steps (rounds_left l) l.
End Chunks.

Definition lines_of (bytes : list Z) : Lines :=
  {| bytes := bytes; offset := 0; pending := []; text := []; held_cr := false; ended := false; failed := false |}.

(** * What the lines of a text are *)

(** Each line with its ending: LF, CRLF, or a CR that no LF follows. *)
Fixpoint lines_in (s : str) : list str :=
  match s with
  | [] => []
  | c :: s =>
      if decide (c = c_lf) then [c] :: lines_in s
      else if decide (c = c_cr) then
        match s with
        | d :: s' => if decide (d = c_lf) then [c; d] :: lines_in s' else [c] :: lines_in s
        | [] => [[c]]
        end
      else match lines_in s with l :: ls => (c :: l) :: ls | [] => [[c]] end
  end.

Definition free_of_breaks (s : str) : Prop := Forall (fun c => is_break c = false) s.

Lemma is_break_true c : is_break c = true <-> c = c_cr \/ c = c_lf.
Proof. unfold is_break. rewrite bool_decide_eq_true. set_solver. Qed.

Lemma is_break_false c : is_break c = false <-> c <> c_cr /\ c <> c_lf.
Proof. unfold is_break. rewrite bool_decide_eq_false. set_solver. Qed.

Lemma lines_in_free w s : free_of_breaks w -> w <> [] ->
  lines_in (w ++ s) = match lines_in s with l :: ls => (w ++ l) :: ls | [] => [w] end.
Proof.
  induction 1 as [|c w [Hcr Hlf]%is_break_false Hw IH]; [done|]. intros _. cbn [app lines_in].
  rewrite !decide_False by done. destruct w as [|d w]; [cbn [app]; by destruct (lines_in s)|]. rewrite IH by done. by destruct (lines_in s).
Qed.

Lemma lines_in_nonempty s : Forall (fun l => l <> []) (lines_in s).
Proof.
  remember (length s) as n eqn:Hn. revert s Hn. induction n as [n IH] using lt_wf_ind. intros s ->.
  destruct s as [|c s]; [constructor|]. cbn [lines_in].
  assert (Forall (fun l => l <> []) (lines_in s)) as Hs by (eapply IH; [|done]; cbn; lia).
  repeat case_decide; [by constructor| |].
  - destruct s as [|d s]; [by constructor|]. case_decide; constructor; try done. eapply IH; [|done]. cbn. lia.
  - destruct (lines_in s); constructor; try done. by apply Forall_cons in Hs as [_ Hs].
Qed.

Lemma concat_lines_in s : concat (lines_in s) = s.
Proof.
  remember (length s) as n eqn:Hn. revert s Hn. induction n as [n IH] using lt_wf_ind. intros s ->.
  destruct s as [|c s]; [done|]. cbn [lines_in].
  assert (concat (lines_in s) = s) as Hs by (eapply IH; [|done]; cbn; lia).
  repeat case_decide; [by cbn; rewrite Hs| |].
  - destruct s as [|d s]; [done|]. case_decide; [|by cbn [concat]; rewrite Hs].
    cbn [concat]. rewrite (IH (length s)); [done|cbn; lia|done].
  - destruct (lines_in s); cbn in *; [by subst s|by rewrite <- Hs].
Qed.

Lemma length_lines_in s : (length (lines_in s) <= length s)%nat.
Proof.
  rewrite <- (concat_lines_in s) at 2. induction (lines_in_nonempty s) as [|l ls Hl _ IH]; [done|]. cbn. rewrite length_app.
  destruct l; [done|]. cbn. lia.
Qed.

(** Whether the text does not end in a CR: nothing that follows can change its lines' ends. *)
Definition settled (s : str) : Prop := ends_with_char (is_char c_cr) s = false.

Lemma settled_cons c s : s <> [] -> settled (c :: s) <-> settled s.
Proof. intros Hs. unfold settled, ends_with_char. by destruct s. Qed.

Lemma settled_app a b : settled (a ++ b) -> settled b.
Proof. unfold settled, ends_with_char. rewrite last_app. by destruct (last b). Qed.

(** The first line end of a text is that of every longer text, unless a CRLF could be cut. *)
Lemma line_end_Some t s e : line_end t = Some e -> settled t \/ head s <> Some c_lf ->
  (0 < e <= length t)%nat /\ lines_in (t ++ s) = take e t :: lines_in (drop e t ++ s) /\ (settled t -> settled (drop e t)).
Proof.
  unfold line_end. destruct (take_while_split (fun c => negb (is_break c)) t) as (rest & Ht & Hw & Hstop).
  set (w := take_while (fun c => negb (is_break c)) t) in *.
  assert (free_of_breaks w) as Hfree by (eapply Forall_impl; [exact Hw|]; intros c Hc; by apply negb_true_iff).
  clearbody w. subst t. rewrite length_app. destruct rest as [|c rest].
  { rewrite app_nil_r. cbn [length]. rewrite Nat.add_0_r, decide_True by done. done. }
  rewrite decide_False by (cbn; lia). rewrite drop_app_length. cbn [stops] in Hstop. apply negb_false_iff, is_break_true in Hstop.
  assert (lines_in (w ++ c :: rest ++ s) = match lines_in (c :: rest ++ s) with l :: ls => (w ++ l) :: ls | [] => [w] end) as Hlines.
  { destruct w as [|d w]; [|by apply lines_in_free].
    pose proof (concat_lines_in (c :: rest ++ s)). cbn [app] in *. by destruct (lines_in (c :: rest ++ s)). }
  rewrite <- app_assoc. cbn [app]. rewrite Hlines.
  destruct (starts_with [c_cr; c_lf] (c :: rest)) eqn:E; intros [= <-] Hend.
  - apply starts_with_spec in E as [rest' E]. injection E as -> ->. split; [cbn; lia|].
    change (w ++ c_cr :: c_lf :: rest') with (w ++ [c_cr; c_lf] ++ rest').
    rewrite app_assoc, take_app_length', drop_app_length' by (rewrite length_app; done). split; [done|apply settled_app].
  - split; [cbn; lia|]. change (w ++ c :: rest) with (w ++ [c] ++ rest) at 1 2 3 4.
    rewrite app_assoc, take_app_length', drop_app_length' by (rewrite length_app; done).
    split; [|apply (settled_app (w ++ [c]))]. cbn [app]. cbn [lines_in].
    destruct (decide (c = c_lf)) as [->|Hlf]; [done|]. destruct Hstop as [->|]; [|done]. rewrite decide_True by done.
    destruct rest as [|d rest]; cbn [app].
    + destruct Hend as [Hend|Hend]; [exfalso; unfold settled, ends_with_char in Hend; by rewrite last_snoc in Hend|].
      destruct s as [|d s]; [done|]. rewrite decide_False; [done|]. intros ->. by apply Hend.
    + rewrite decide_False; [done|]. intros ->. revert E. unfold starts_with. by cbn.
Qed.

Lemma line_end_None t : line_end t = None -> free_of_breaks t.
Proof.
  unfold line_end. destruct (take_while_split (fun c => negb (is_break c)) t) as (rest & Ht & Hw & _).
  set (w := take_while (fun c => negb (is_break c)) t) in *. case_decide as Hlen; [|repeat case_match; done]. intros _.
  clearbody w. assert (t = w) as ->.
  { rewrite Ht. rewrite Ht in Hlen. rewrite length_app in Hlen. destruct rest; [apply app_nil_r|cbn in Hlen; lia]. }
  eapply Forall_impl; [exact Hw|]. intros c Hc. by apply negb_true_iff.
Qed.

(** * Decoding in chunks *)

Lemma decoded_text text : is_str text -> Forall is_byte (as_bytes text) -> decoded (as_bytes text) = Some (Ok text).
Proof. intros Ht Hb. unfold decoded. by rewrite decode_strict_text. Qed.

Lemma decoded_cut text rest : is_str text -> Forall is_byte (as_bytes text ++ rest) -> utf8_step rest = None -> rest <> [] ->
  exists e, decoded (as_bytes text ++ rest) = Some (Err e).
Proof.
  intros Ht Hb Hstep Hne. destruct (decode_strict_cut text rest Ht Hb Hstep Hne) as (e & He & s & Hs).
  exists s. unfold decoded. rewrite He. cbn [mbind option_bind]. by rewrite Hs.
Qed.

(** What a chunk decodes to: a text and the start of a form that the next chunk can complete, or an
    error of bytes that no chunk can complete. *)
Lemma incremental_spec data last : Forall is_byte data ->
  exists r, incremental data last = Some r /\
  match r with
  | Ok (text, p) => is_str text /\ data = as_bytes text ++ p /\ (p = [] \/ lead_in p /\ last = false)
  | Err _ => exists text bad, is_str text /\ data = as_bytes text ++ bad /\ bad <> [] /\ utf8_step bad = None /\
      (last = true \/ error_len bad <> None)
  end.
Proof.
  intros Hb. pose proof (valid_prefix_spec _ _ Hb (Nat.le_refl _)) as Hv.
  destruct (valid_prefix (length data) data) as [text rest] eqn:E. destruct Hv as (-> & Ht & Hstep & _).
  pose proof (proj1 (proj1 (Forall_app _ _ _) Hb)) as Hbt. pose proof (proj2 (proj1 (Forall_app _ _ _) Hb)) as Hbr.
  unfold incremental. rewrite from_utf8_cut by done. destruct rest as [|b0 rest].
  { eexists. split; [done|]. cbn. by split; [|split; [|left]]. }
  set (rest' := b0 :: rest) in *. unfold utf8_error. rewrite E. cbn [snd utf8_error_len valid_up_to].
  assert (length (as_bytes text ++ rest') - length rest' = length (as_bytes text))%nat as -> by (rewrite length_app; lia).
  rewrite take_app_length, drop_app_length, decoded_text by done.
  destruct (decoded_cut text rest' Ht Hb Hstep ltac:(done)) as [e He]. rewrite He. cbn [mbind option_bind].
  case_bool_decide as Hlen; [destruct last|]; cbn [negb andb]; eexists; (split; [done|]).
  - exists text, rest'. split_and!; [done..|by left].
  - split_and!; [done|done|]. right. split; [|done]. pose proof (error_len_spec rest' Hbr ltac:(done) Hstep) as Hs. by rewrite Hlen in Hs.
  - exists text, rest'. split_and!; [done..|by right].
Qed.

Lemma line_end_free t : free_of_breaks t -> line_end t = None.
Proof.
  intros Hf. unfold line_end. assert (take_while (fun c => negb (is_break c)) t = t) as ->; [|by rewrite decide_True].
  induction Hf as [|c t Hc Hf IH]; [done|]. cbn. by rewrite Hc, IH.
Qed.

Section ChunkFacts.
Context (CHUNK : nat) (Hchunk : (0 < CHUNK)%nat).

Definition held (l : Lines) : str := if held_cr l then [c_cr] else [].

(** [dec] is the text decoded so far. *)
Record lines_ok (l : Lines) (dec : str) : Prop := {
  lo_bytes : Forall is_byte (bytes l);
  lo_offset : (offset l <= length (bytes l))%nat;
  lo_taken : take (offset l) (bytes l) = as_bytes dec ++ pending l;
  lo_str : is_str dec;
  lo_pending : pending l = [] \/ lead_in (pending l);
  lo_settled : settled (text l) \/ held_cr l = true \/ ended l = true;
  lo_ended : ended l = true -> offset l = length (bytes l) /\ pending l = [] /\ held_cr l = false;
  lo_failed : failed l = false
}.

(** The bytes are no text. *)
Definition not_text (bytes : list Z) : Prop := forall t, is_str t -> bytes <> as_bytes t.

Lemma release_spec l (d : str) (fin : bool) :
  let release := held_cr l && (fin || negb (bool_decide (d = []))) in
  let d' := if release then c_cr :: d else d in
  let held_now := if release then false else held_cr l in
  let hold := negb fin && ends_with_char (is_char c_cr) d' in
  (if hold then removelast d' else d') ++ (if hold || held_now then [c_cr] else []) = held l ++ d /\
  (fin = true -> hold || held_now = false) /\
  (settled (text l) \/ held_cr l = true -> fin = false ->
   settled (text l ++ (if hold then removelast d' else d')) \/ hold || held_now = true).
Proof.
  assert (forall x : str, ends_with_char (is_char c_cr) x = true -> removelast x ++ [c_cr] = x) as Hlast.
  { intros x. unfold ends_with_char. destruct (last x) as [c|] eqn:E; [|done]. intros ->%is_char_true.
    apply last_Some in E as [y ->]. by rewrite removelast_last. }
  assert (forall x : str, ends_with_char (is_char c_cr) x = false -> settled (text l) \/ x <> [] -> settled (text l ++ x)) as Happ.
  { intros x Hx Ht. unfold settled, ends_with_char in *. rewrite last_app. destruct (last x) eqn:E; [done|].
    apply last_None in E. destruct Ht; [done|by subst]. }
  unfold held. destruct (held_cr l) eqn:Eh; cbn [andb].
  - destruct fin; cbn [orb negb andb]; [split_and!; [by rewrite app_nil_r|done..]|].
    destruct (bool_decide (d = [])) eqn:Ed; cbn [negb].
    + apply bool_decide_eq_true in Ed as ->. cbn. split_and!; [done|done|]. by right.
    + destruct (ends_with_char (is_char c_cr) (c_cr :: d)) eqn:E; cbn [orb].
      * split_and!; [by apply Hlast|done|]. by right.
      * split_and!; [by rewrite app_nil_r|done|]. intros _ _. left. apply Happ; [done|by right].
  - destruct fin; cbn [orb negb andb]; [split_and!; [by rewrite app_nil_r|done|by right]|].
    destruct (ends_with_char (is_char c_cr) d) eqn:E; cbn [orb].
    + split_and!; [by apply Hlast|done|]. by right.
    + split_and!; [by rewrite app_nil_r|done|]. intros [Ht|]; [|done]. intros _. left. apply Happ; [done|by left].
Qed.

Lemma decode_chunk_spec l dec : lines_ok l dec -> ended l = false ->
  (exists l' more, decode_chunk CHUNK l = Some (l', None) /\ lines_ok l' (dec ++ more) /\ bytes l' = bytes l /\
     text l' ++ held l' = text l ++ held l ++ more /\ (rounds_left l' < rounds_left l)%nat) \/
  (exists l' e, decode_chunk CHUNK l = Some (l', Some e) /\ text l' = text l /\ not_text (bytes l)).
Proof.
  intros I He. destruct I as [Hb Ho Ht Hs Hp Hset _ Hf]. unfold decode_chunk.
  set (end_ := Nat.min (offset l + CHUNK) (length (bytes l))). set (last := bool_decide (end_ = offset l)).
  set (data := pending l ++ take (end_ - offset l) (drop (offset l) (bytes l))).
  assert (offset l <= end_ <= length (bytes l))%nat as Hend by (unfold end_; lia).
  assert (last = true <-> offset l = length (bytes l)) as Hlast.
  { unfold last. rewrite bool_decide_eq_true. unfold end_. lia. }
  assert (take end_ (bytes l) = as_bytes dec ++ data) as Htaken.
  { unfold data. rewrite app_assoc, <- Ht. rewrite <- (take_drop (offset l) (take end_ (bytes l))) at 1.
    rewrite take_take, Nat.min_l, skipn_firstn_comm by lia. done. }
  assert (Forall is_byte (take end_ (bytes l))) as Hbt by (by apply Forall_take).
  assert (Forall is_byte data) as Hbd by (rewrite Htaken in Hbt; by apply Forall_app in Hbt as [_ ?]).
  destruct (incremental_spec data last Hbd) as (r & -> & Hr). cbn [mbind option_bind].
  destruct r as [[more p]|e].
  - destruct Hr as (Hm & Hdata & Hpend). pose proof (release_spec l more last) as Hrel. cbv zeta in Hrel.
    left. eexists _, more. split; [done|]. destruct Hrel as (H1 & H2 & H3). split; [|split; [done|]].
    + constructor; cbn [bytes offset pending text held_cr ended failed]; [done|lia|..].
      * rewrite Htaken, Hdata. unfold as_bytes. by rewrite fmap_app, concat_app, <- app_assoc.
      * by apply Forall_app.
      * destruct Hpend as [|[? _]]; [by left|by right].
      * destruct last eqn:El; [by right; right|]. assert (settled (text l) \/ held_cr l = true) as Hset' by (destruct Hset as [|[|]]; [by left|by right|congruence]).
        destruct (H3 Hset' eq_refl); [by left|by right; left].
      * intros Hl. split; [|split]; [|destruct Hpend as [|[_ ?]]; [done|congruence]|by apply H2].
        apply Hlast in Hl. lia.
      * done.
    + split.
      * cbn [text]. unfold held at 1. cbn [held_cr]. rewrite <- app_assoc. f_equal. exact H1.
      * unfold rounds_left. cbn [bytes offset ended]. rewrite He. destruct last eqn:El; [lia|].
        assert (offset l <> length (bytes l)) by (intros E; apply Hlast in E; congruence).
        assert (offset l < end_)%nat by (unfold end_; lia). lia.
  - right. eexists _, e. split; [done|]. split; [done|]. destruct Hr as (text' & bad & Ht' & Hdata & Hne & Hstep & Hwhy).
    intros t Hstr Hbytes.
    assert (Forall is_byte bad) as Hbb by (rewrite Hdata in Hbd; by apply Forall_app in Hbd as [_ ?]).
    apply (broken_not_text (dec ++ text') bad (drop end_ (bytes l)) t); try done.
    + by apply Forall_app.
    + destruct Hwhy as [Hl|]; [left|by right]. apply drop_ge. apply Hlast in Hl. lia.
    + rewrite <- Hbytes. transitivity (take end_ (bytes l) ++ drop end_ (bytes l)); [|apply take_drop].
      by rewrite Htaken, Hdata, as_bytes_app, <- !app_assoc.
Qed.

(** More rounds than those left change nothing. *)
Lemma next_steps_more l dec fuel : lines_ok l dec -> (rounds_left l <= fuel)%nat ->
  next_steps CHUNK fuel l = next CHUNK l.
Proof.
  unfold next. remember (rounds_left l) as n eqn:Hn. revert l dec fuel Hn.
  induction n as [n IH] using lt_wf_ind. intros l dec fuel -> I Hfuel.
  assert (0 < rounds_left l)%nat by (unfold rounds_left; destruct (ended l); lia).
  destruct fuel as [|fuel]; [lia|]. destruct (rounds_left l) as [|n] eqn:Er; [lia|]. cbn [next_steps].
  destruct (line_end (text l)); [done|]. destruct (failed l); [done|]. destruct (ended l) eqn:Ee; [done|].
  destruct (decode_chunk_spec l dec I Ee) as [(l' & more & -> & I' & _ & _ & Hlt)|(l' & e & -> & _)]; [|done].
  cbn [mbind option_bind]. rewrite (IH (rounds_left l')) with (l := l') (dec := dec ++ more) (fuel := fuel); [|lia|done|done|lia].
  rewrite (IH (rounds_left l')) with (l := l') (dec := dec ++ more) (fuel := n); [done|lia|done|done|lia].
Qed.

(** The items that the iterator gives before it ends. *)
Inductive produces : Lines -> list (result str str) -> Prop :=
| produces_end l l' : next CHUNK l = Some (None, l') -> produces l []
| produces_item l l' item items : next CHUNK l = Some (Some item, l') -> produces l' items -> produces l (item :: items).

Lemma next_line l dec e : lines_ok l dec -> line_end (text l) = Some e ->
  next CHUNK l = Some (Some (Ok (take e (text l))), with_text l (drop e (text l))).
Proof.
  intros I He. unfold next. assert (0 < rounds_left l)%nat by (unfold rounds_left; destruct (ended l); lia).
  destruct (rounds_left l) as [|n]; [lia|]. cbn [next_steps]. by rewrite He.
Qed.

Lemma with_text_ok l dec t : lines_ok l dec -> (settled (text l) -> settled t) -> lines_ok (with_text l t) dec.
Proof. intros [] Ht. constructor; try done. cbn. naive_solver. Qed.

(** What the lines still to come are: those of the text that the bytes still to come hold, or some
    of them and then an error. *)
Definition outcome (l : Lines) (dec : str) : Prop :=
  (exists more, produces l (map Ok (lines_in (text l ++ held l ++ more))) /\ is_str (dec ++ more) /\ bytes l = as_bytes (dec ++ more)) \/
  (exists more some e, produces l (map Ok some ++ [Err e]) /\ is_str (dec ++ more) /\ as_bytes (dec ++ more) `prefix_of` bytes l /\
     some `prefix_of` lines_in (text l ++ held l ++ more) /\ not_text (bytes l)).

(** Taking the lines that the text already holds. *)
Lemma drain l dec : lines_ok l dec ->
  (forall t, lines_ok (with_text l t) dec -> free_of_breaks t -> outcome (with_text l t) dec) -> outcome l dec.
Proof.
  remember (length (text l)) as n eqn:Hn. revert l Hn. induction n as [n IH] using lt_wf_ind. intros l -> I Hfree.
  assert (with_text l (text l) = l) as Hid by (by destruct l).
  destruct (line_end (text l)) as [e|] eqn:He.
  2: { rewrite <- Hid. apply Hfree; [by rewrite Hid|by apply line_end_None]. }
  assert (forall more : str, ended l = true -> is_str (dec ++ more) -> as_bytes (dec ++ more) `prefix_of` bytes l -> more = []) as Hmore.
  { intros more Hend Hs Hp. destruct (lo_ended _ _ I Hend) as (Ho & Hpend & _). pose proof (lo_taken _ _ I) as Ht.
    rewrite Ho, take_ge, Hpend, app_nil_r in Ht by lia. rewrite Ht, as_bytes_app in Hp.
    apply prefix_length in Hp. rewrite length_app in Hp. destruct more as [|c more]; [done|]. exfalso.
    apply Forall_app in Hs as [_ [Hc _]%Forall_cons]. rewrite as_bytes_cons, length_app in Hp.
    destruct (encode_shape c Hc) as [[_ E]|(_ & ? & ? & E & _)]; rewrite E in Hp; cbn in Hp; lia. }
  assert (forall more : str, is_str (dec ++ more) -> as_bytes (dec ++ more) `prefix_of` bytes l ->
    (0 < e <= length (text l))%nat /\
    lines_in (text l ++ held l ++ more) = take e (text l) :: lines_in (drop e (text l) ++ held l ++ more) /\
    (settled (text l) -> settled (drop e (text l)))) as Hline.
  { intros more Hs Hp. apply line_end_Some; [done|]. destruct (lo_settled _ _ I) as [|[Hh|Hend]]; [by left|right..].
    - unfold held. by rewrite Hh.
    - rewrite (Hmore more Hend Hs Hp). unfold held. by destruct (lo_ended _ _ I Hend) as (_ & _ & ->). }
  assert (as_bytes (dec ++ []) `prefix_of` bytes l) as Hdec.
  { rewrite app_nil_r, <- (take_drop (offset l) (bytes l)), (lo_taken _ _ I), <- app_assoc. by eexists. }
  assert (is_str (dec ++ [])) as Hstr by (rewrite app_nil_r; apply I).
  destruct (Hline [] Hstr Hdec) as (Hlen & _ & Hset).
  assert (outcome (with_text l (drop e (text l))) dec) as Ho.
  { eapply (IH _ _ (with_text l (drop e (text l)))); [reflexivity|by apply with_text_ok|]. exact Hfree.
    Unshelve. cbn [text with_text]. rewrite length_drop. lia. }
  pose proof (next_line l dec e I He) as Hnext.
  destruct Ho as [(more & Hp & Hs & Hb)|(more & some & err & Hp & Hs & Hb & Hpre & Hnot)]; cbn [text with_text bytes] in *.
  - left. exists more. split; [|done]. destruct (Hline more Hs) as (_ & -> & _); [by rewrite Hb|]. by eapply produces_item.
  - right. exists more, (take e (text l) :: some), err. split; [by eapply produces_item|]. split; [done|]. split; [done|].
    split; [|done]. destruct (Hline more Hs Hb) as (_ & -> & _). by apply prefix_cons.
Qed.

Lemma lines_outcome l dec : lines_ok l dec -> outcome l dec.
Proof.
  remember (rounds_left l) as n eqn:Hn. revert l dec Hn. induction n as [n IH] using lt_wf_ind. intros l0 dec -> I0.
  apply drain; [done|]. intros t I Hfree. set (l := with_text l0 t) in *.
  assert (rounds_left l = rounds_left l0) as Hrounds by done. assert (text l = t) as Ht by done.
  rewrite <- Ht in Hfree. rewrite <- Hrounds in IH. clearbody l. clear t I0 Ht Hrounds l0.
  assert (line_end (text l) = None) as Hnone by (by apply line_end_free).
  destruct (ended l) eqn:Ee.
  - left. exists []. destruct (lo_ended _ _ I Ee) as (Ho & Hp & Hh). unfold held. rewrite Hh, !app_nil_r. split; [|split; [apply I|]].
    + assert (next CHUNK l = Some (if bool_decide (text l = []) then None else Some (Ok (text l)), with_text l [])) as Hnext.
      { unfold next. assert (0 < rounds_left l)%nat by (unfold rounds_left; rewrite Ee; lia).
        destruct (rounds_left l) as [|m]; [lia|]. cbn [next_steps]. by rewrite Hnone, (lo_failed _ _ I), Ee. }
      case_bool_decide as Ht; [rewrite Ht; by eapply produces_end|]. assert (lines_in (text l) = [text l]) as ->.
      { rewrite <- (app_nil_r (text l)) at 1. by rewrite lines_in_free by done. }
      cbn [map]. eapply produces_item; [done|]. eapply produces_end.
      unfold next. assert (0 < rounds_left (with_text l []))%nat by (unfold rounds_left; cbn; rewrite Ee; lia).
      destruct (rounds_left (with_text l [])) as [|m]; [lia|]. cbn [next_steps with_text text failed ended].
      by rewrite (lo_failed _ _ I), Ee.
    + pose proof (lo_taken _ _ I) as Ht. by rewrite Ho, take_ge, Hp, app_nil_r in Ht by lia.
  - assert (0 < rounds_left l)%nat as Hr by (unfold rounds_left; rewrite Ee; lia).
    destruct (decode_chunk_spec l dec I Ee) as [(l' & more & Hd & I' & Hb & Htext & Hlt)|(l' & e & Hd & Htext & Hnot)].
    + assert (next CHUNK l = next CHUNK l') as Hnext.
      { rewrite <- (next_steps_more l' (dec ++ more) (pred (rounds_left l))) by (done || lia). unfold next at 1.
        destruct (rounds_left l) as [|m]; [lia|]. cbn [next_steps pred]. by rewrite Hnone, (lo_failed _ _ I), Ee, Hd. }
      assert (forall items, produces l' items -> produces l items) as Hprod.
      { intros items Hp. inversion Hp; subst; [eapply produces_end|eapply produces_item]; rewrite ?Hnext; done. }
      destruct (IH _ Hlt l' (dec ++ more) eq_refl I') as [(more' & Hp & Hs & Hbytes)|(more' & some & err & Hp & Hs & Hbytes & Hpre & Hnot)].
      * left. exists (more ++ more'). rewrite app_assoc in Htext. rewrite !app_assoc, <- Htext, <- !app_assoc.
        split; [by apply Hprod|]. rewrite <- !app_assoc in *. split; [done|]. by rewrite <- Hb.
      * right. exists (more ++ more'), some, err. rewrite app_assoc in Htext. rewrite !app_assoc, <- Htext, <- !app_assoc.
        split; [by apply Hprod|]. rewrite <- !app_assoc in *. rewrite Hb in *. done.
    + right. exists [], [], e. rewrite !app_nil_r. split; [|split; [apply I|split; [|split; [apply prefix_nil|done]]]].
      * eapply (produces_item _ _ (Err e) []).
        -- unfold next. destruct (rounds_left l) as [|m]; [lia|]. cbn [next_steps]. rewrite Hnone, (lo_failed _ _ I), Ee, Hd. reflexivity.
        -- eapply produces_end. unfold next. match goal with |- next_steps _ _ ?x = _ => set (l'' := x) end.
           assert (0 < rounds_left l'')%nat by (unfold rounds_left; destruct (ended l''); lia).
           destruct (rounds_left l'') as [|m]; [lia|]. cbn [next_steps l'' text failed]. by rewrite Htext, Hnone.
      * rewrite <- (take_drop (offset l) (bytes l)), (lo_taken _ _ I), <- app_assoc. by eexists.
Qed.
End ChunkFacts.

Lemma lines_of_ok bytes : Forall is_byte bytes -> lines_ok (lines_of bytes) [].
Proof. intros Hb. constructor; cbn; try done; [lia|constructor|by left|by left]. Qed.

Lemma lines_of_outcome CHUNK bytes : (0 < CHUNK)%nat -> Forall is_byte bytes -> outcome CHUNK (lines_of bytes) [].
Proof. intros Hc Hb. apply lines_outcome; [done|]. by apply lines_of_ok. Qed.

(** The lines of a file do not depend on its chunks.  A file that is UTF-8 text gives the lines of
    that text, each with its ending, and no CRLF or character is split by the end of a chunk.  Any
    other file gives first lines of a text that its bytes start with, and then one error. *)
Theorem csv_lines_exact CHUNK bytes (Hchunk : (0 < CHUNK)%nat) (Hbytes : Forall is_byte bytes) :
  (exists text, is_str text /\ bytes = as_bytes text /\ produces CHUNK (lines_of bytes) (map Ok (lines_in text))) \/
  (not_text bytes /\ exists text some e, is_str text /\ as_bytes text `prefix_of` bytes /\ some `prefix_of` lines_in text /\
     produces CHUNK (lines_of bytes) (map Ok some ++ [Err e])).
Proof.
  destruct (lines_of_outcome CHUNK bytes Hchunk Hbytes) as [(t & Hp & Hs & Hb)|(t & some & e & Hp & Hs & Hb & Hpre & Hnot)].
  - left. by exists t.
  - right. split; [done|]. by exists t, some, e.
Qed.

(** Chunks of one byte, which split the CRLF and the two bytes of the last character. *)
Lemma csv_lines_exact_witness :
  let bytes := [97; 13; 10; 13; 195; 169]%Z in
  (0 < 1)%nat /\ Forall is_byte bytes /\
  exists text, is_str text /\ bytes = as_bytes text /\ produces 1 (lines_of bytes) (map Ok (lines_in text)).
Proof.
  intros bytes. assert (0 < 1)%nat as Hc by lia.
  assert (Forall is_byte bytes) as Hb by (repeat (apply Forall_cons; split; [unfold is_byte; lia|]); by apply Forall_nil).
  split; [exact Hc|]. split; [exact Hb|]. destruct (csv_lines_exact 1 bytes Hc Hb) as [H|[H _]]; [exact H|].
  exfalso. apply (H [97; 13; 10; 13; 233]%Z); [by repeat constructor|reflexivity].
Defined.
