(* ===== verification/Csv.v ===== *)
(** The labeling file: the rest of crates/hook/src/report/csv.rs.

    The writer of records in the excel dialect, the reader that runs a state machine over the
    characters of each line, and the rows by the names of the header.  [labels_roundtrip] shows that
    the rows written come back by those names, whatever text their fields hold. *)

From S2P Require Import Prelude RustStr CodePoints Utf8 CsvLines.

(** * The writer *)

Definition FIELD_LIMIT : nat := Z.to_nat 131072.
Definition QUOTE : char := c_dquote.
Definition DELIMITER : char := 44.

(** [str::replace] of the quote by two. *)
Definition doubled (field : str) : str := flat_map (fun c => if decide (c = QUOTE) then [QUOTE; QUOTE] else [c]) field.

Definition is_special (c : char) : bool := bool_decide (c ∈ [DELIMITER; QUOTE; c_cr; c_lf]).

Definition excel_field (field : str) : str := if any is_special field then QUOTE :: doubled field ++ [QUOTE] else field.

Definition excel_row (fields : list str) : str :=
  concat (imap (fun index field => (if (0 <? index)%nat then [DELIMITER] else []) ++ excel_field field) fields) ++ [c_cr; c_lf].

(** * Records *)

Inductive State := StartRecord | StartField | InField | InQuotedField | QuoteInQuotedField | EatCrnl.

#[export] Instance State_eq_dec : EqDecision State.
Proof. solve_decision. Defined.

Record Parse := { fields : list str; field : str; length_ : nat; state : State }.

Definition new_parse : Parse := {| fields := []; field := []; length_ := 0; state := StartRecord |}.

Definition with_state (p : Parse) (s : State) : Parse :=
  {| fields := fields p; field := field p; length_ := length_ p; state := s |}.

Definition limit_error : str := lit "field larger than field limit (" ++ nat_text FIELD_LIMIT ++ lit ")".
Definition newline_error : str :=
  lit "new-line character seen in unquoted field - do you need to open the file with newline=''?".

Definition add (p : Parse) (c : char) : result Parse str :=
  if (FIELD_LIMIT <=? length_ p)%nat then Err limit_error
  else Ok {| fields := fields p; field := field p ++ [c]; length_ := length_ p + 1; state := state p |}.

Definition save (p : Parse) : Parse := {| fields := fields p ++ [field p]; field := []; length_ := 0; state := state p |}.

Definition end_record (p : Parse) (c : option char) : Parse :=
  with_state (save p) (match c with None => StartRecord | Some _ => EatCrnl end).

Local Open Scope rs_scope.

Definition start_field (p : Parse) (c : option char) : result Parse str :=
  match c with
  | None => Ok (end_record p c)
  | Some d =>
      if is_break d then Ok (end_record p c)
      else if decide (d = QUOTE) then Ok (with_state p InQuotedField)
      else if decide (d = DELIMITER) then Ok (save p)
      else let? p := add p d in Ok (with_state p InField)
  end.

Definition start_record (p : Parse) (c : option char) : result Parse str :=
  match c with
  | None => Ok p
  | Some d => if is_break d then Ok (with_state p EatCrnl) else start_field (with_state p StartField) c
  end.

Definition in_field (p : Parse) (c : option char) : result Parse str :=
  match c with
  | None => Ok (end_record p c)
  | Some d =>
      if is_break d then Ok (end_record p c)
      else if decide (d = DELIMITER) then Ok (with_state (save p) StartField)
      else add p d
  end.

Definition in_quoted (p : Parse) (c : option char) : result Parse str :=
  match c with
  | None => Ok p
  | Some d => if decide (d = QUOTE) then Ok (with_state p QuoteInQuotedField) else add p d
  end.

Definition quote_in_quoted (p : Parse) (c : option char) : result Parse str :=
  match c with
  | None => Ok (end_record p c)
  | Some d =>
      if decide (d = QUOTE) then let? p := add p QUOTE in Ok (with_state p InQuotedField)
      else if decide (d = DELIMITER) then Ok (with_state (save p) StartField)
      else if is_break d then Ok (end_record p c)
      else let? p := add p d in Ok (with_state p InField)
  end.

Definition eat_crnl (p : Parse) (c : option char) : result Parse str :=
  match c with
  | None => Ok (with_state p StartRecord)
  | Some d => if is_break d then Ok p else Err newline_error
  end.

Definition step (p : Parse) (c : option char) : result Parse str :=
  match state p with
  | StartRecord => start_record p c
  | StartField => start_field p c
  | InField => in_field p c
  | InQuotedField => in_quoted p c
  | QuoteInQuotedField => quote_in_quoted p c
  | EatCrnl => eat_crnl p c
  end.

(** The characters, until one is refused. *)
Fixpoint steps (p : Parse) (cs : list (option char)) : result Parse str :=
  match cs with
  | [] => Ok p
  | c :: cs => let? p := step p c in steps p cs
  end.

(** [Parse::line]. *)
Definition parse_line (p : Parse) (line : str) : result Parse str := steps p (map Some line ++ [None]).

Definition at_end (p : Parse) : option (list str) :=
  if (length_ p =? 0)%nat && bool_decide (state p <> InQuotedField) then None else Some (fields (save p)).

(** * The readers *)

Record Reader := { lines : Lines; line_num : nat }.

Section Readers.
Context (CHUNK : nat).

(** [None] is a panic, or a file with more lines than [fuel]. *)
Fixpoint record_steps (fuel : nat) (p : Parse) (r : Reader) : option (option (result (list str) str) * Reader) :=
  match fuel with
  | O => None
  | S fuel =>
      '(line, lines) ← next CHUNK (lines r);
      let r := {| lines := lines; line_num := line_num r |} in
      match line with
      | None => Some (Ok <$> at_end p, r)
      | Some (Err error) => Some (Some (Err error), r)
      | Some (Ok line) =>
          let r := {| lines := lines; line_num := line_num r + 1 |} in
          match parse_line p line with
          | Err error => Some (Some (Err error), r)
          | Ok p => if decide (state p = StartRecord) then Some (Some (Ok (fields p)), r) else record_steps fuel p r
          end
      end
  end.

(** A file has at most one line for each byte. *)
Definition lines_bound (r : Reader) : nat := length (bytes (lines r)) + 2.

Definition next_record (r : Reader) : option (option (result (list str) str) * Reader) :=
  record_steps (lines_bound r) new_parse r.

Fixpoint filled_steps (fuel : nat) (r : Reader) : option (option (result (list str) str) * Reader) :=
  match fuel with
  | O => None
  | S fuel =>
      '(record, r) ← next_record r;
      match record with
      | Some (Ok []) => filled_steps fuel r
      | _ => Some (record, r)
      end
  end.

Definition next_filled (r : Reader) : option (option (result (list str) str) * Reader) := filled_steps (lines_bound r) r.
End Readers.

(** * Rows by name *)

Inductive Cell := Text (s : str) | Missing | Rest (l : list str).

#[export] Instance Cell_eq_dec : EqDecision Cell.
Proof. solve_decision. Defined.

Notation Row := (list (option str * Cell)).

Fixpoint set_cell (row : Row) (name : option str) (cell : Cell) : Row :=
  match row with
  | [] => [(name, cell)]
  | (key, held) :: row => if decide (key = name) then (key, cell) :: row else (key, held) :: set_cell row name cell
  end.

Definition by_name (names : list str) (record : list str) : Row :=
  let count := length record in
  let kept := take (length names) record in
  let rest := drop (length names) record in
  let row := foldl (fun row '(name, value) => set_cell row (Some name) (Text value)) [] (zip names kept) in
  let row := if bool_decide (rest = []) then row else set_cell row None (Rest rest) in
  foldl (fun row name => set_cell row (Some name) Missing) row (drop count names).

Record DictReader := { reader : Reader; names : option (list str); read_header : bool }.

Section Dict.
Context (CHUNK : nat).

(** [DictReader::fieldnames]: the reader that has read the header, and the error of the header. *)
Definition fieldnames (d : DictReader) : option (DictReader * option str) :=
  if read_header d then Some (d, None)
  else
    '(record, r) ← next_record CHUNK (reader d);
    Some (match record with
          | Some (Err error) => ({| reader := r; names := names d; read_header := true |}, Some error)
          | Some (Ok names) => ({| reader := r; names := Some names; read_header := true |}, None)
          | None => ({| reader := r; names := None; read_header := true |}, None)
          end).

Definition next_row (d : DictReader) : option (option (result Row str) * DictReader) :=
  '(d, error) ← fieldnames d;
  match error with
  | Some error => Some (Some (Err error), d)
  | None =>
      '(record, r) ← next_filled CHUNK (reader d);
      let d := {| reader := r; names := names d; read_header := read_header d |} in
      Some (match record, names d with
            | Some (Ok record), Some names => Some (Ok (by_name names record))
            | Some (Err error), Some _ => Some (Err error)
            | None, _ | _, None => None
            end, d)
  end.
End Dict.

Definition new_dict (bytes : list Z) : DictReader :=
  {| reader := {| lines := lines_of bytes; line_num := 0 |}; names := None; read_header := false |}.

(** * Writing and reading back *)

(** The characters that the reader takes from the lines of a text: the end of a line is [None]. *)
Definition flat (ls : list str) : list (option char) := flat_map (fun l => map Some l ++ [None]) ls.

Fixpoint marks (s : str) : list (option char) :=
  match s with
  | [] => []
  | c :: s =>
      Some c ::
      if decide (c = c_lf) then None :: marks s
      else if decide (c = c_cr) then (if decide (head s = Some c_lf) then marks s else None :: marks s)
      else match s with [] => [None] | _ => marks s end
  end.

Lemma flat_marks s : flat (lines_in s) = marks s.
Proof.
  remember (length s) as n eqn:Hn. revert s Hn. induction n as [n IH] using lt_wf_ind. intros s ->.
  destruct s as [|c s]; [done|]. cbn [lines_in marks].
  assert (flat (lines_in s) = marks s) as Hs by (eapply IH; [|done]; cbn; lia).
  destruct (decide (c = c_lf)); [by cbn; rewrite <- Hs|]. destruct (decide (c = c_cr)).
  - destruct s as [|d s]; [done|]. destruct (decide (d = c_lf)) as [->|Hd].
    + rewrite decide_True by done. cbn [marks]. rewrite decide_True by done. cbn [flat flat_map map app].
      f_equal. f_equal. f_equal. eapply IH; [|done]. cbn. lia.
    + rewrite decide_False by (cbn; congruence). cbn [flat flat_map map app]. f_equal. f_equal. exact Hs.
  - destruct s as [|d s]; [done|]. rewrite <- Hs. pose proof (concat_lines_in (d :: s)) as Hc.
    by destruct (lines_in (d :: s)) as [|l ls].
Qed.

(** A record read from the characters: no line but the last ends the record. *)
Fixpoint runs (p : Parse) (cs : list (option char)) (record : list str) : Prop :=
  match cs with
  | [] => False
  | c :: cs =>
      match step p c with
      | Err _ => False
      | Ok p =>
          match c with
          | None => if decide (state p = StartRecord) then cs = [] /\ fields p = record else runs p cs record
          | Some _ => runs p cs record
          end
      end
  end.

Fixpoint reads_record (p : Parse) (ls : list str) (record : list str) : Prop :=
  match ls with
  | [] => False
  | l :: ls =>
      match parse_line p l with
      | Err _ => False
      | Ok p => if decide (state p = StartRecord) then ls = [] /\ fields p = record else reads_record p ls record
      end
  end.

Lemma runs_line p l cs record : runs p (map Some l ++ None :: cs) record ->
  exists p', parse_line p l = Ok p' /\ if decide (state p' = StartRecord) then cs = [] /\ fields p' = record else runs p' cs record.
Proof.
  unfold parse_line. revert p. induction l as [|c l IH]; intros p; cbn [map app runs steps].
  - destruct (step p None) as [p'|]; [|done]. intros H. by exists p'.
  - destruct (step p (Some c)) as [p'|]; [|done]. apply IH.
Qed.

Lemma runs_reads p ls record : runs p (flat ls) record -> reads_record p ls record.
Proof.
  revert p. induction ls as [|l ls IH]; intros p; [done|]. cbn [flat flat_map reads_record]. rewrite <- app_assoc. cbn [app].
  intros (p' & -> & H)%runs_line. case_decide.
  - destruct H as [H Hf]. split; [|done]. destruct ls as [|l' ls]; [done|]. cbn in H. by destruct l'.
  - by apply IH.
Qed.

(** ** Fields *)

Definition at_field (done_ : list str) : Parse := {| fields := done_; field := []; length_ := 0; state := StartField |}.

(** The parse has taken the characters of a field, and the field can end. *)
Record complete (p : Parse) (done_ : list str) (f : str) : Prop := {
  c_fields : fields p = done_;
  c_field : field p = f;
  c_state : state p = InField \/ state p = QuoteInQuotedField \/ state p = StartField
}.

Lemma complete_delimiter p done_ f : complete p done_ f -> step p (Some DELIMITER) = Ok (at_field (done_ ++ [f])).
Proof. destruct p. intros [H1 H2 H3]. cbn in *. subst. unfold step. cbn. destruct H3 as [->|[->| ->]]; reflexivity. Qed.

Lemma complete_break p done_ f : complete p done_ f ->
  step p (Some c_cr) = Ok {| fields := done_ ++ [f]; field := []; length_ := 0; state := EatCrnl |}.
Proof. destruct p. intros [H1 H2 H3]. cbn in *. subst. unfold step. cbn. destruct H3 as [->|[->| ->]]; reflexivity. Qed.

Lemma marks_cons c s : is_break c = false -> s <> [] -> marks (c :: s) = Some c :: marks s.
Proof. intros [Hcr Hlf]%is_break_false Hs. cbn [marks]. rewrite !decide_False by done. by destruct s. Qed.

Lemma special_false c : is_special c = false <-> c <> DELIMITER /\ c <> QUOTE /\ is_break c = false.
Proof. unfold is_special, is_break. rewrite !bool_decide_eq_false. set_solver. Qed.

Lemma add_ok p c : (length_ p < FIELD_LIMIT)%nat ->
  add p c = Ok {| fields := fields p; field := field p ++ [c]; length_ := length_ p + 1; state := state p |}.
Proof. intros H. unfold add. by rewrite (proj2 (Nat.leb_gt _ _)). Qed.

Lemma in_field_run done_ g f s record : Forall (fun c => is_special c = false) f -> s <> [] ->
  (length g + length f <= FIELD_LIMIT)%nat ->
  runs {| fields := done_; field := g ++ f; length_ := length (g ++ f); state := InField |} (marks s) record ->
  runs {| fields := done_; field := g; length_ := length g; state := InField |} (marks (f ++ s)) record.
Proof.
  intros Hf Hs. revert g. induction Hf as [|c f Hc Hf IH]; intros g Hlen H; [by rewrite app_nil_r in H|].
  apply special_false in Hc as (Hd & Hq & Hb). cbn [app length] in *. rewrite marks_cons by (done || by destruct f).
  cbn [runs]. unfold step. cbn [state in_field]. unfold in_field. rewrite Hb, decide_False by done. rewrite add_ok by (cbn; lia).
  cbn [fields field length_ state]. replace (length g + 1)%nat with (length (g ++ [c])) by (rewrite length_app; done).
  apply IH; [rewrite length_app; cbn; lia|]. by rewrite <- app_assoc.
Qed.

Lemma plain_field_run done_ f s record : Forall (fun c => is_special c = false) f -> s <> [] -> (length f <= FIELD_LIMIT)%nat ->
  (forall p, complete p done_ f -> runs p (marks s) record) -> runs (at_field done_) (marks (f ++ s)) record.
Proof.
  intros Hf Hs Hlen H. destruct Hf as [|c f Hc Hf]; [apply H; constructor; cbn; tauto|].
  apply special_false in Hc as (Hd & Hq & Hb). cbn [app length] in *. rewrite marks_cons by (done || by destruct f).
  cbn [runs]. unfold step, start_field, at_field. cbn [state]. rewrite Hb, !decide_False by done. rewrite add_ok by (cbn; lia).
  cbn [result_bind with_state fields field length_ app].
  apply (in_field_run done_ [c] f s record Hf Hs); [cbn; lia|]. apply H. constructor; cbn; tauto.
Qed.

(** In quotes the end of a line is no more than its characters. *)
Lemma quoted_mark done_ g cs record :
  runs {| fields := done_; field := g; length_ := length g; state := InQuotedField |} cs record ->
  runs {| fields := done_; field := g; length_ := length g; state := InQuotedField |} (None :: cs) record.
Proof. done. Qed.

Lemma quoted_run done_ g f s record : (length g + length f <= FIELD_LIMIT)%nat ->
  runs {| fields := done_; field := g ++ f; length_ := length (g ++ f); state := QuoteInQuotedField |} (marks s) record -> s <> [] ->
  runs {| fields := done_; field := g; length_ := length g; state := InQuotedField |} (marks (doubled f ++ QUOTE :: s)) record.
Proof.
  intros Hlen H Hs. revert g Hlen H. induction f as [|c f IH]; intros g Hlen H.
  - rewrite app_nil_r in H. cbn [doubled flat_map app]. rewrite marks_cons by done. exact H.
  - cbn [length] in Hlen.
    assert (runs {| fields := done_; field := g ++ [c]; length_ := length (g ++ [c]); state := InQuotedField |}
      (marks (doubled f ++ QUOTE :: s)) record) as Hrest.
    { apply IH; [rewrite length_app; cbn; lia|]. by rewrite <- app_assoc. }
    assert (doubled f ++ QUOTE :: s <> []) as Hne by (by destruct (doubled f)).
    rewrite length_app in Hrest. cbn [length] in Hrest.
    unfold doubled. cbn [flat_map]. fold (doubled f). case_decide as Hq.
    + subst c. cbn [app]. rewrite !marks_cons by done. cbn [runs]. unfold step. cbn [state]. unfold in_quoted.
      rewrite decide_True by done. cbn [with_state state]. unfold quote_in_quoted. rewrite decide_True by done.
      rewrite add_ok by (cbn; lia). cbn [result_bind with_state fields field length_]. exact Hrest.
    + cbn [app marks]. cbn [runs]. unfold step at 1. cbn [state]. unfold in_quoted at 1. rewrite decide_False by done.
      rewrite add_ok by (cbn; lia). cbn [fields field length_ state].
      destruct (doubled f ++ QUOTE :: s) as [|d rest] eqn:E; [done|]. rewrite <- E in *.
      assert (length (g ++ [c]) = length g + 1)%nat as Hl by (rewrite length_app; done). rewrite <- Hl in *.
      repeat case_decide; try done; by apply quoted_mark.
Qed.

Lemma field_run done_ f s record : s <> [] -> (length f <= FIELD_LIMIT)%nat ->
  (forall p, complete p done_ f -> runs p (marks s) record) -> runs (at_field done_) (marks (excel_field f ++ s)) record.
Proof.
  intros Hs Hlen H. unfold excel_field. destruct (any is_special f) eqn:E.
  - cbn [app]. rewrite <- app_assoc. cbn [app]. rewrite marks_cons by (done || by destruct (doubled f)). cbn [runs].
    change (step (at_field done_) (Some QUOTE)) with (Ok (E := str) (with_state (at_field done_) InQuotedField)).
    apply (quoted_run done_ [] f s record); [cbn; lia| |done]. apply H. constructor; cbn; tauto.
  - apply plain_field_run; try done. by apply any_false.
Qed.

(** ** Rows *)

(** The rows that the writer gives back: a record of no fields and of one empty field are both a
    blank line. *)
Definition writable (row : list str) : Prop :=
  row <> [] /\ row <> [[]] /\ Forall (fun f => is_str f /\ (length f <= FIELD_LIMIT)%nat) row.

Definition row_end : str := [c_cr; c_lf].

Lemma excel_row_cons f row : excel_row (f :: row) = excel_field f ++ flat_map (fun g => DELIMITER :: excel_field g) row ++ row_end.
Proof.
  unfold excel_row. cbn [imap concat]. rewrite <- app_assoc. f_equal. f_equal.
  rewrite (imap_ext _ (const (fun g => DELIMITER :: excel_field g))) by done. by rewrite imap_const, flat_map_concat_map.
Qed.

Lemma row_tail_nonempty row : flat_map (fun g => DELIMITER :: excel_field g) row ++ row_end <> [].
Proof. by destruct row. Qed.

(** The rest of a record after one of its fields. *)
Lemma row_tail_run row done_ p : Forall (fun f => length f <= FIELD_LIMIT)%nat row -> complete p done_ (field p) ->
  runs p (marks (flat_map (fun g => DELIMITER :: excel_field g) row ++ row_end)) (done_ ++ field p :: row).
Proof.
  intros Hf. revert done_ p. induction Hf as [|g row Hg Hf IH]; intros done_ p Hp.
  - cbn [flat_map app]. cbn [row_end marks runs decide]. rewrite (complete_break p done_ (field p)) by done.
    cbn. done.
  - cbn [flat_map]. rewrite <- app_assoc. cbn [app]. rewrite marks_cons; [|done|].
    2: { destruct (excel_field g); [apply row_tail_nonempty|done]. }
    cbn [runs]. rewrite (complete_delimiter p done_ (field p)) by done.
    apply field_run; [apply row_tail_nonempty|done|]. intros p' Hp'.
    replace (done_ ++ field p :: g :: row) with ((done_ ++ [field p]) ++ field p' :: row) by (rewrite <- app_assoc; cbn; by rewrite (c_field _ _ _ Hp')).
    apply IH. by rewrite (c_field _ _ _ Hp').
Qed.

(** The start of a record that does not start with a line end is the start of its first field. *)
Lemma start_record_run c s record : is_break c = false -> runs (at_field []) (marks (c :: s)) record -> runs new_parse (marks (c :: s)) record.
Proof.
  intros Hc. cbn [marks runs]. change (step new_parse (Some c)) with (start_record new_parse (Some c)). unfold start_record.
  rewrite Hc. done.
Qed.

Lemma row_run row : writable row -> runs new_parse (marks (excel_row row)) row.
Proof.
  intros (Hne & Hblank & Hf). destruct row as [|f row]; [done|]. apply Forall_cons in Hf as [[_ Hlen] Hf].
  rewrite excel_row_cons. set (tail := flat_map (fun g => DELIMITER :: excel_field g) row ++ row_end).
  assert (runs (at_field []) (marks (excel_field f ++ tail)) (f :: row)) as Hrun.
  { apply field_run; [apply row_tail_nonempty|done|]. intros p Hp. rewrite <- (c_field _ _ _ Hp). apply (row_tail_run row [] p).
    - eapply Forall_impl; [exact Hf|]. by intros g [_ ?].
    - by rewrite (c_field _ _ _ Hp). }
  assert (exists c s, excel_field f ++ tail = c :: s /\ is_break c = false) as (c & s & Hc & Hb).
  { unfold excel_field. destruct (any is_special f) eqn:E; [by eexists _, _|]. destruct f as [|c f].
    - destruct row as [|g row]; [done|]. cbn. by eexists _, _.
    - apply any_false, Forall_cons in E as [Hc _]. apply special_false in Hc as (_ & _ & Hc). by exists c, (f ++ tail). }
  rewrite Hc in *. by apply start_record_run.
Qed.

(** ** Files *)

Lemma lines_in_app w s : lines_in ((w ++ [c_lf]) ++ s) = lines_in (w ++ [c_lf]) ++ lines_in s.
Proof.
  remember (length w) as n eqn:Hn. revert w Hn. induction n as [n IH] using lt_wf_ind. intros w ->.
  destruct w as [|c w]; [done|]. cbn [app lines_in].
  assert (lines_in ((w ++ [c_lf]) ++ s) = lines_in (w ++ [c_lf]) ++ lines_in s) as Hw by (eapply IH; [|done]; cbn; lia).
  destruct (decide (c = c_lf)); [by rewrite Hw|]. destruct (decide (c = c_cr)).
  - destruct w as [|d w]; [done|]. cbn [app] in *. destruct (decide (d = c_lf)) as [->|Hd]; [|by rewrite Hw].
    rewrite (IH (length w)); [done|cbn; lia|done].
  - rewrite Hw. pose proof (concat_lines_in (w ++ [c_lf])) as Hc. destruct (lines_in (w ++ [c_lf])); [|done].
    cbn in Hc. by destruct w.
Qed.

Lemma excel_row_lf row : exists w, excel_row row = w ++ [c_lf].
Proof. unfold excel_row. eexists. rewrite (app_assoc _ [c_cr] [c_lf]). reflexivity. Qed.

Lemma lines_in_rows row s : lines_in (excel_row row ++ s) = lines_in (excel_row row) ++ lines_in s.
Proof. destruct (excel_row_lf row) as [w ->]. apply lines_in_app. Qed.

Lemma excel_row_str row : Forall is_str row -> is_str (excel_row row).
Proof.
  intros Hf. unfold excel_row. apply Forall_app. split; [|by repeat constructor].
  apply Forall_concat. apply Forall_lookup. intros i x Hx. rewrite list_lookup_imap in Hx.
  destruct (row !! i) as [f|] eqn:E; [|done]. injection Hx as <-. pose proof (Forall_lookup_1 _ _ _ _ Hf E) as Hs.
  apply Forall_app. split; [destruct (0 <? i)%nat; by repeat constructor|]. unfold excel_field. destruct (any is_special f); [|done].
  constructor; [done|]. apply Forall_app. split; [|by repeat constructor]. unfold doubled.
  clear -Hs. induction Hs as [|c f Hc Hf IH]; [constructor|]. cbn. apply Forall_app. split; [|done].
  case_decide; by repeat constructor.
Qed.

Section Reading.
Context (CHUNK : nat).

Lemma decode_chunk_bytes l l' e : decode_chunk CHUNK l = Some (l', e) -> bytes l' = bytes l.
Proof.
  unfold decode_chunk. intros H. destruct (incremental _ _) as [[[d p]|err]|]; cbn [mbind option_bind] in H; [..|done];
    by injection H as <- <-.
Qed.

Lemma next_bytes l r l' : next CHUNK l = Some (r, l') -> bytes l' = bytes l.
Proof.
  unfold next. generalize (rounds_left l) as fuel. intros fuel. revert l. induction fuel as [|fuel IH]; intros l; [done|].
  cbn [next_steps]. destruct (line_end (text l)); [by intros [= <- <-]|]. destruct (failed l); [by intros [= <- <-]|].
  destruct (ended l); [by intros [= <- <-]|]. destruct (decode_chunk CHUNK l) as [[l1 e]|] eqn:Ed; [|done]. cbn [mbind option_bind].
  apply decode_chunk_bytes in Ed. destruct e; [by intros [= <- <-]|]. intros H. rewrite <- Ed. by apply IH.
Qed.

Lemma record_steps_reads ls items p l n fuel record :
  reads_record p ls record -> produces CHUNK l (map Ok ls ++ items) -> (length ls <= fuel)%nat ->
  exists l', record_steps CHUNK fuel p {| lines := l; line_num := n |} =
      Some (Some (Ok record), {| lines := l'; line_num := n + length ls |}) /\
    produces CHUNK l' items /\ bytes l' = bytes l.
Proof.
  revert p l n fuel. induction ls as [|line ls IH]; intros p l n fuel Hr Hp Hfuel; [done|]. cbn [length] in Hfuel.
  destruct fuel as [|fuel]; [lia|]. cbn [map app] in Hp. inversion Hp as [|? l1 ? ? Hnext Hp']; subst.
  cbn [record_steps lines line_num]. rewrite Hnext. cbn [mbind option_bind]. cbn [reads_record] in Hr.
  pose proof (next_bytes _ _ _ Hnext) as Hb. destruct (parse_line p line) as [p'|]; [|done]. case_decide.
  - destruct Hr as [-> <-]. exists l1. cbn [length]. split; [done|]. by split.
  - destruct (IH p' l1 (n + 1)%nat fuel Hr Hp' ltac:(lia)) as (l' & Hs & Hi & Hb'). exists l'. rewrite Hs.
    split; [|split; [done|by rewrite Hb']]. cbn [length]. by replace (n + 1 + length ls)%nat with (n + S (length ls))%nat by lia.
Qed.

(** The rows that the reader gives before it ends. *)
Inductive gives : DictReader -> list Row -> Prop :=
| gives_end d d' : next_row CHUNK d = Some (None, d') -> gives d []
| gives_row d d' row rows : next_row CHUNK d = Some (Some (Ok row), d') -> gives d' rows -> gives d (row :: rows).

(** The reader has the rows of [rows] still to read. *)
Definition stands (l : Lines) (rows : list (list str)) : Prop :=
  produces CHUNK l (map Ok (lines_in (concat (map excel_row rows)))) /\
  (length (concat (map excel_row rows)) <= length (bytes l))%nat.

Lemma stands_next row rows l n : writable row -> stands l (row :: rows) ->
  exists l', next_record CHUNK {| lines := l; line_num := n |} =
      Some (Some (Ok row), {| lines := l'; line_num := n + length (lines_in (excel_row row)) |}) /\ stands l' rows.
Proof.
  intros Hw [Hp Hlen]. cbn [map concat] in *. rewrite lines_in_rows, map_app in Hp.
  assert (reads_record new_parse (lines_in (excel_row row)) row) as Hr.
  { apply runs_reads. rewrite flat_marks. by apply row_run. }
  rewrite length_app in Hlen.
  assert (length (lines_in (excel_row row)) <= length (excel_row row))%nat as Hl by apply length_lines_in.
  destruct (record_steps_reads _ _ _ l n (lines_bound {| lines := l; line_num := n |}) row Hr Hp) as (l' & Hs & Hp' & Hb).
  { unfold lines_bound. cbn. lia. }
  exists l'. split; [exact Hs|]. split; [done|]. rewrite Hb. lia.
Qed.

Lemma stands_end l n : stands l [] -> exists r, next_record CHUNK {| lines := l; line_num := n |} = Some (None, r).
Proof.
  intros [Hp _]. cbn in Hp. inversion Hp as [? l' Hnext|]; subst. unfold next_record, lines_bound. rewrite Nat.add_comm. cbn [plus record_steps lines].
  rewrite Hnext. by eexists.
Qed.

Lemma dict_rows names rows l n : Forall writable rows -> stands l rows ->
  gives {| reader := {| lines := l; line_num := n |}; names := Some names; read_header := true |} (map (by_name names) rows).
Proof.
  intros Hw. revert l n. induction Hw as [|row rows Hrow Hw IH]; intros l n Hs.
  - destruct (stands_end l n Hs) as [r Hr]. eapply gives_end. unfold next_row. cbn [fieldnames read_header mbind option_bind reader].
    unfold next_filled. unfold lines_bound. rewrite Nat.add_comm. cbn [plus filled_steps]. rewrite Hr. reflexivity.
  - destruct (stands_next row rows l n Hrow Hs) as (l' & Hr & Hs'). cbn [map]. eapply gives_row; [|by apply IH].
    unfold next_row. cbn [fieldnames read_header mbind option_bind reader].
    unfold next_filled. unfold lines_bound. rewrite Nat.add_comm. cbn [plus filled_steps]. rewrite Hr. cbn [mbind option_bind].
    destruct Hrow as (Hne & _ & _). by destruct row.
Qed.
End Reading.

Lemma set_cell_new (row : Row) name cell : name ∉ row.*1 -> set_cell row name cell = row ++ [(name, cell)].
Proof.
  induction row as [|[k v] row IH]; intros Hn; [done|]. cbn in *. apply not_elem_of_cons in Hn as [Hne Hn].
  rewrite decide_False by congruence. by rewrite IH.
Qed.

(** A row as long as a header of distinct names. *)
Lemma by_name_zip names record : NoDup names -> length record = length names ->
  by_name names record = zip_with (fun name value => (Some name, Text value)) names record.
Proof.
  intros Hn Hlen. unfold by_name. rewrite take_ge, !drop_ge by lia. rewrite bool_decide_true by done. cbn [foldl].
  assert (forall row : Row, (forall name, name ∈ names -> Some name ∉ row.*1) ->
    foldl (fun row '(name, value) => set_cell row (Some name) (Text value)) row (zip names record) =
    row ++ zip_with (fun name value => (Some name, Text value)) names record) as H.
  { revert record Hlen. induction Hn as [|name names Hname Hn IH]; intros [|v record] Hlen row Hrow; try done; cbn; [by rewrite app_nil_r..|].
    rewrite set_cell_new by (apply Hrow; by left). rewrite IH, <- app_assoc; [done|by injection Hlen|].
    intros other Ho. rewrite fmap_app, not_elem_of_app. split; [apply Hrow; by right|]. cbn. rewrite list_elem_of_singleton.
    intros [= ->]. by apply Hname. }
  rewrite H; [done|]. intros name _. apply not_elem_of_nil.
Qed.

(** C27: A labeling file reads back as it was written: a header of distinct names and rows of as many
    fields give each row's fields under those names, and nothing more, for any text in the fields
    within the field limit and any chunks. *)
Theorem labels_roundtrip CHUNK header rows
  (Hchunk : (0 < CHUNK)%nat) (Hheader : writable header) (Hnames : NoDup header)
  (Hrows : Forall (fun row => writable row /\ length row = length header) rows) :
  gives CHUNK (new_dict (as_bytes (concat (map excel_row (header :: rows)))))
    (map (zip_with (fun name value => (Some name, Text value)) header) rows).
Proof.
  set (content := concat (map excel_row (header :: rows))).
  assert (Forall writable rows) as Hw by (eapply Forall_impl; [exact Hrows|]; by intros row [? _]).
  assert (is_str content) as Hs.
  { unfold content, is_str. apply Forall_concat, Forall_fmap.
    assert (Forall writable (header :: rows)) as Hall by (by constructor).
    eapply Forall_impl; [exact Hall|]. intros row (_ & _ & Hf). apply excel_row_str. eapply Forall_impl; [exact Hf|]. by intros f [? _]. }
  assert (Forall is_byte (as_bytes content)) as Hb by (by apply as_bytes_range).
  assert (stands CHUNK (lines_of (as_bytes content)) (header :: rows)) as Hst.
  { split; [|by apply as_bytes_longer]. fold content.
    destruct (lines_of_outcome CHUNK _ Hchunk Hb) as [(t & Hp & Ht & E)|(t & some & e & _ & _ & _ & _ & Hnot)]; [|by destruct (Hnot content)].
    cbn [app] in Ht, E. apply as_bytes_inj in E as <-; [|done..]. done. }
  destruct (stands_next CHUNK header rows _ 0 Hheader Hst) as (l' & Hr & Hst').
  assert (map (zip_with (fun name value => (Some name, Text value)) header) rows = map (by_name header) rows) as ->.
  { clear -Hrows Hnames. induction Hrows as [|row rows [_ Hl] _ IH]; [done|]. cbn. by rewrite IH, by_name_zip. }
  pose proof (dict_rows CHUNK header rows l' (0 + length (lines_in (excel_row header))) Hw Hst') as Hg.
  inversion Hg as [d d' Hn Hd|d d' row rest Hn Hrest Hd]; subst; [eapply gives_end|eapply gives_row; [|exact Hrest]];
    unfold next_row, new_dict at 1; cbn [fieldnames read_header reader]; rewrite Hr; cbn [mbind option_bind]; exact Hn.
Qed.

(** A field with the delimiter, a quote and a line break, and an empty field, through chunks of the
    size in the source. *)
Definition CHUNK : nat := Z.to_nat 8192.

Lemma labels_roundtrip_witness :
  let header := [lit "id"; lit "note"] in
  let rows := [[lit "1"; lit "a,b" ++ [QUOTE; c_lf]]; [lit "2"; []]] in
  ((0 < CHUNK)%nat /\ writable header /\ NoDup header /\ Forall (fun row => writable row /\ length row = length header) rows) /\
  gives CHUNK (new_dict (as_bytes (concat (map excel_row (header :: rows)))))
    (map (zip_with (fun name value => (Some name, Text value)) header) rows).
Proof.
  intros header rows.
  assert (forall row : list str, row <> [] -> row <> [[]] -> Forall (fun f => is_str f /\ (length f <= 100)%nat) row -> writable row) as Hw.
  { intros row H1 H2 H3. split; [done|]. split; [done|]. eapply Forall_impl; [exact H3|]. intros f [? ?]. split; [done|].
    unfold FIELD_LIMIT. lia. }
  assert ((0 < CHUNK)%nat) as H1 by (unfold CHUNK; lia).
  assert (writable header) as H2 by (apply Hw; [done|done|]; repeat constructor).
  assert (NoDup header) as H3 by (apply (bool_decide_unpack _); vm_compute; reflexivity).
  assert (Forall (fun row => writable row /\ length row = length header) rows) as H4.
  { constructor; [split; [apply Hw; [done|done|]; repeat constructor|done]|].
    constructor; [split; [apply Hw; [done|done|]; repeat constructor|done]|]. constructor. }
  split; [by split_and!|]. exact (labels_roundtrip CHUNK header rows H1 H2 H3 H4).
Defined.
