(* ===== verification/PathSearch.v ===== *)
(** The fewest-hop path between two nodes of the symbol graph: crates/graph/src/path.rs.

    The search walks edges both ways, level by level, and expands the edges of an ambiguous name
    once.  [shortest_path_exact] shows that it misses no path by that: it answers a shortest chain of
    usable hops, each the first of its edges, none exactly when there is none, or that more nodes than the bound are in reach.
    The deadline is the answers of its checks, one before each node. *)

From stdpp Require Import relations.
From S2P Require Import Prelude RustStr Ordered Kernel Symbols.

Notation Stopped := Deadline.Stopped.

(** * Data *)

Definition DEFAULT_MAX_VISITED : nat := Z.to_nat 20000.

Record PathPolicy := { include_unique : bool; include_ambiguous : bool }.

Record Hop := { edge : SymbolEdge; forward : bool }.

Definition origin (h : Hop) : Endpoint := if forward h then source (edge h) else target (edge h).
Definition arrival (h : Hop) : Endpoint := if forward h then target (edge h) else source (edge h).

Record PathResult := { hops : list Hop; found : bool; visited : nat; exhausted : bool }.

(** The most nodes to expand, and what the deadline's check before each of them says. *)
Record PathBounds := { max_visited : nat; checks : nat -> result unit Stopped }.

Inductive Level := Found | Exhausted | Next (following : list str).

(** What changes during a search. *)
Record Search := {
  previous : gmap str (str * Hop);
  seen : gset str;
  expanded : gset (bool * str);
  walked : nat
}.

(** * The search *)

Section Walk.
Context (g : SymbolGraph) (policy : PathPolicy).

Definition undirected : gmap str (list (nat * bool)) :=
  group_entries (concat (imap (fun at_ e =>
    if bool_decide (tier e = Unique) && negb (include_unique policy) then []
    else [(node (source e), (at_, true)); (node (target e), (at_, false))]) (edges g))).

(** The places of the first references of each relation and name that were not expanded. *)
Definition first_references (expanded : gset (bool * str)) (references : list AmbiguousReference) : list (Relation * str * nat) :=
  foldl (fun first '(at_, r) =>
    let fresh := negb (bool_decide ((true, ref_name r) ∈ expanded)) in
    if fresh && negb (existsb (fun '(relation, name, _) => bool_decide ((relation, name) = (ref_relation r, ref_name r))) first)
    then first ++ [(ref_relation r, ref_name r, at_)] else first) [] (imap pair references).

(** The hops, and what is expanded with them. *)
Definition ambiguous_hops (expanded : gset (bool * str)) (n : str) : list Hop * gset (bool * str) :=
  let arriving : gset (bool * str) :=
    list_to_set (List.filter (fun key => negb (bool_decide (key ∈ expanded))) (map (fun c => (false, c.1)) (candidates_at_node g n))) in
  let into :=
    if bool_decide (arriving = ∅) then []
    else map (fun e => {| edge := e; forward := false |}) (ambiguous_into g n) in
  let references := references_from g n in
  let first := first_references expanded references in
  let leaving := flat_map (fun '(_, _, at_) =>
    map (fun e => {| edge := e; forward := true |}) (ambiguous_edges g (references !!! at_))) first in
  (into ++ leaving, expanded ∪ list_to_set (map (fun '(_, name, _) => (true, name)) first) ∪ arriving).

Definition hops_at (adjacency : gmap str (list (nat * bool))) (expanded : gset (bool * str)) (n : str) : list Hop * gset (bool * str) :=
  let hops := map (fun '(at_, forward) => {| edge := edges g !!! at_; forward := forward |}) (default [] (adjacency !! n)) in
  if include_ambiguous policy then
    let '(more, expanded) := ambiguous_hops expanded n in
    (sort_by (fun l r => cmp_sort_key (edge l) (edge r)) (hops ++ more), expanded)
  else (hops, expanded).

(** The hops of one node: each new neighbour is marked seen, up to the target. *)
Fixpoint reach_each (n target : str) (hops : list Hop) (s : Search) (following : list str) : Search * list str * bool :=
  match hops with
  | [] => (s, following, false)
  | hop :: hops =>
      let reached := node (arrival hop) in
      if decide (reached ∈ seen s) then reach_each n target hops s following
      else
        let s := {| previous := <[reached := (n, hop)]> (previous s); seen := {[reached]} ∪ seen s;
                    expanded := expanded s; walked := walked s |} in
        if decide (reached = target) then (s, following, true)
        else reach_each n target hops s (following ++ [reached])
  end.

Definition expand (adjacency : gmap str (list (nat * bool))) (s : Search) (n target : str) (following : list str) : Search * list str * bool :=
  let '(hops, expanded) := hops_at adjacency (expanded s) n in
  reach_each n target hops {| previous := previous s; seen := seen s; expanded := expanded; walked := walked s |} following.

Fixpoint level (adjacency : gmap str (list (nat * bool))) (bounds : PathBounds) (target : str) (frontier : list str)
    (s : Search) (following : list str) : Search * result Level Stopped :=
  match frontier with
  | [] => (s, Ok (Next following))
  | n :: frontier =>
      match checks bounds (walked s) with
      | Err stopped => (s, Err stopped)
      | Ok _ =>
          let s := {| previous := previous s; seen := seen s; expanded := expanded s; walked := S (walked s) |} in
          if (max_visited bounds <? walked s)%nat then (s, Ok Exhausted)
          else
            let '(s, following, reached) := expand adjacency s n target following in
            if reached then (s, Ok Found) else level adjacency bounds target frontier s following
      end
  end.

(** [None] is the panic of a node without a previous one, or that the fuel ran out. *)
Fixpoint unwind (fuel : nat) (previous : gmap str (str * Hop)) (source n : str) (hops : list Hop) : option (list Hop) :=
  match fuel with
  | O => None
  | S fuel =>
      if decide (n = source) then Some (reverse hops)
      else '(parent, hop) ← previous !! n; unwind fuel previous source parent (hops ++ [hop])
  end.

Definition search_result (s : Search) (hops : list Hop) (found exhausted : bool) : PathResult :=
  {| hops := hops; found := found; visited := walked s; exhausted := exhausted |}.

Fixpoint run (fuel : nat) (adjacency : gmap str (list (nat * bool))) (bounds : PathBounds) (source target : str)
    (frontier : list str) (s : Search) : option (result PathResult Stopped) :=
  match fuel with
  | O => None
  | S fuel =>
      match frontier with
      | [] => Some (Ok (search_result s [] false false))
      | _ =>
          let '(s, outcome) := level adjacency bounds target frontier s [] in
          match outcome with
          | Err stopped => Some (Err stopped)
          | Ok Found =>
              hops ← unwind (S (walked s)) (previous s) source target [];
              Some (Ok (search_result s hops true false))
          | Ok Exhausted => Some (Ok (search_result s [] false true))
          | Ok (Next following) => run fuel adjacency bounds source target following s
          end
      end
  end.

Definition new_search (source : str) : Search := {| previous := ∅; seen := {[source]}; expanded := ∅; walked := O |}.

(** A level visits a node at least, so there are at most as many as the bound, and one more. *)
Definition shortest_path (source target : str) (bounds : PathBounds) : option (result PathResult Stopped) :=
  if decide (source = target) then Some (Ok {| hops := []; found := true; visited := 1; exhausted := false |})
  else run (max_visited bounds + 2) undirected bounds source target [source] (new_search source).
End Walk.

(** * What a path is *)

Section Paths.
Context (g : SymbolGraph) (policy : PathPolicy).

(** The hops that the policy allows. *)
Definition usable (h : Hop) : Prop :=
  (edge h ∈ edges g /\ (tier (edge h) = Unique -> include_unique policy = true)) \/
  (include_ambiguous policy = true /\ edge h ∈ all_ambiguous g).

Fixpoint chain (x : str) (hops : list Hop) (y : str) : Prop :=
  match hops with
  | [] => x = y
  | h :: hops => usable h /\ node (origin h) = x /\ chain (node (arrival h)) hops y
  end.

(** The hop carries the first edge, by the sort key, of those that lead from where it starts to where it arrives. *)
Definition earliest (h : Hop) : Prop := forall h', usable h' -> node (origin h') = node (origin h) -> node (arrival h') = node (arrival h) ->
  cmp_sort_key (edge h) (edge h') = true.

Definition joins (x y : str) : Prop := exists h, usable h /\ node (origin h) = x /\ node (arrival h) = y.

Lemma hops_snoc x hops h : chain x hops (node (origin h)) -> usable h -> chain x (hops ++ [h]) (node (arrival h)).
Proof. revert x. induction hops as [|h' hops IH]; intros x; cbn; [by intros ->|]. intros (? & ? & ?) ?. split_and!; auto. Qed.

Lemma chain_steps x y n : (exists hops, chain x hops y /\ length hops = n) <-> nsteps joins n x y.
Proof.
  split.
  - intros (hops & Hc & <-). revert x Hc. induction hops as [|h hops IH]; intros x; cbn; [intros ->; constructor|].
    intros (Hu & <- & Hc). eapply nsteps_l; [by exists h|]. by apply IH.
  - induction 1 as [x|n x y z (h & Hu & <- & <-) _ (hops & Hc & <-)]; [by exists []|]. by exists (h :: hops).
Qed.
End Paths.

(** * The hops of a node *)

Lemma undirected_elem g policy n at_ forward :
  (at_, forward) ∈ default [] (undirected g policy !! n) <->
  exists e, edges g !! at_ = Some e /\ (tier e = Unique -> include_unique policy = true) /\
    node (origin {| edge := e; forward := forward |}) = n.
Proof.
  unfold undirected. rewrite group_entries_lookup. rewrite list_elem_of_fmap.
  setoid_rewrite list_elem_of_In. setoid_rewrite filter_In. setoid_rewrite <- list_elem_of_In. setoid_rewrite elem_of_concat.
  split.
  - intros ([k v] & [= <-] & (l & Hin & Hl) & Hk%bool_decide_eq_true). cbn in Hk. subst k.
    apply elem_of_lookup_imap in Hl as (i & e & -> & He).
    destruct (bool_decide (tier e = Unique) && negb (include_unique policy)) eqn:Eu; [by apply elem_of_nil in Hin|].
    assert (tier e = Unique -> include_unique policy = true) as Hu.
    { intros Ht. rewrite bool_decide_true in Eu by done. by destruct (include_unique policy). }
    apply elem_of_cons in Hin as [[= -> -> ->]|[= -> -> ->]%list_elem_of_singleton]; by exists e.
  - intros (e & He & Hu & Hn). exists (n, (at_, forward)). split; [done|]. split; [|by apply bool_decide_eq_true].
    eexists. split; [|apply elem_of_lookup_imap; exists at_, e; split; [reflexivity|done]].
    assert (bool_decide (tier e = Unique) && negb (include_unique policy) = false) as ->.
    { case_bool_decide as Ht; [by rewrite Hu|done]. }
    unfold origin in Hn. cbn in Hn. destruct forward; rewrite Hn; [left|right; left].
Qed.

(** Each fresh reference has one of its relation and name among the first ones. *)
Lemma first_references_spec expanded references :
  let first := first_references expanded references in
  (forall rel nm at_, (rel, nm, at_) ∈ first -> exists r, references !! at_ = Some r /\ ref_relation r = rel /\ ref_name r = nm /\ (true, nm) ∉ expanded) /\
  (forall r, r ∈ references -> (true, ref_name r) ∉ expanded ->
    exists at_ r', (ref_relation r, ref_name r, at_) ∈ first /\ references !! at_ = Some r' /\
      ref_relation r' = ref_relation r /\ ref_name r' = ref_name r).
Proof.
  unfold first_references. cbn zeta. induction references as [|r0 references [IH1 IH2]] using rev_ind.
  { cbn. split; [intros * H; by apply elem_of_nil in H|intros r H; by apply elem_of_nil in H]. }
  rewrite imap_app, foldl_app. cbn [imap foldl]. rewrite Nat.add_0_r.
  set (first := foldl _ _ _) in *.
  assert (forall at_ r, references !! at_ = Some r -> (references ++ [r0]) !! at_ = Some r) as Hl by (intros; by apply lookup_app_l_Some).
  destruct (negb (bool_decide ((true, ref_name r0) ∈ expanded)) &&
    negb (existsb (fun '(relation, name, _) => bool_decide ((relation, name) = (ref_relation r0, ref_name r0))) first)) eqn:E.
  - apply andb_true_iff in E as [E1 E2]. apply negb_true_iff, bool_decide_eq_false in E1. split.
    + intros rel nm at_ [Hin| [= -> -> ->]%list_elem_of_singleton]%elem_of_app.
      * destruct (IH1 _ _ _ Hin) as (r & Hr & ? & ? & ?). exists r. auto.
      * exists r0. split; [|done]. by rewrite lookup_app_r, Nat.sub_diag.
    + intros r [Hin| ->%list_elem_of_singleton]%elem_of_app Hf.
      * destruct (IH2 r Hin Hf) as (at_ & r' & ? & ? & ?). exists at_, r'. rewrite elem_of_app. auto.
      * exists (length references), r0. cbn. rewrite elem_of_app, list_elem_of_singleton, lookup_app_r, Nat.sub_diag by done. auto.
  - split.
    + intros rel nm at_ Hin. destruct (IH1 _ _ _ Hin) as (r & Hr & ? & ? & ?). exists r. auto.
    + intros r Hin Hf. apply elem_of_app in Hin as [Hin| ->%list_elem_of_singleton].
      * destruct (IH2 r Hin Hf) as (at_ & r' & ? & ? & ?). exists at_, r'. auto.
      * rewrite bool_decide_false in E by done. cbn in E. apply negb_false_iff, existsb_exists in E as ([[rel nm] at_] & Hin & Hk).
        apply bool_decide_eq_true in Hk. injection Hk as -> ->. apply list_elem_of_In in Hin.
        destruct (IH1 _ _ _ Hin) as (r' & Hr' & Hrel & Hn & _). exists at_, r'. auto.
Qed.

(** The first reference of a relation and name is no later than the others. *)
Lemma first_references_first expanded references (R : AmbiguousReference -> AmbiguousReference -> Prop) :
  (forall r, R r r) -> StronglySorted R references ->
  forall rel nm at_ r, (rel, nm, at_) ∈ first_references expanded references -> r ∈ references -> ref_relation r = rel -> ref_name r = nm ->
  exists r', references !! at_ = Some r' /\ R r' r.
Proof.
  intros Hrefl. unfold first_references. induction references as [|r0 references IH] using rev_ind; [by intros _ rel nm at_ r H%elem_of_nil|].
  intros Hs rel nm at_ r. rewrite imap_app, foldl_app. cbn [imap foldl]. rewrite Nat.add_0_r. set (first := foldl _ _ _) in *.
  assert (StronglySorted R references /\ forall r, r ∈ references -> R r r0) as [Hs' Hlast].
  { clear -Hs. induction references as [|y l IHl]; [split; [constructor|by intros ? ?%elem_of_nil]|]. inversion Hs as [|? ? Hs1 Hf]; subst.
    destruct (IHl Hs1) as [H1 H2]. apply Forall_app in Hf as [Hf H0]. apply Forall_cons in H0 as [H0 _]. split; [by constructor|].
    intros r [->|Hr]%elem_of_cons; auto. }
  assert (forall at_ r, references !! at_ = Some r -> (references ++ [r0]) !! at_ = Some r) as Hl by (intros; by apply lookup_app_l_Some).
  assert (forall rel nm at_, (rel, nm, at_) ∈ first -> exists r', references !! at_ = Some r') as Hat.
  { intros rel' nm' at' Hin. by destruct (proj1 (first_references_spec expanded references) _ _ _ Hin) as (r' & Hr' & _); exists r'. }
  assert ((rel, nm, at_) ∈ first -> r ∈ references ++ [r0] -> ref_relation r = rel -> ref_name r = nm -> exists r', (references ++ [r0]) !! at_ = Some r' /\ R r' r) as Hold.
  { intros Hin [Hr| ->%list_elem_of_singleton]%elem_of_app Hrel Hnm.
    - destruct (IH Hs' _ _ _ _ Hin Hr Hrel Hnm) as (r' & Hr' & HR). exists r'. auto.
    - destruct (Hat _ _ _ Hin) as (r' & Hr'). exists r'. split; [auto|]. apply Hlast. by apply list_elem_of_lookup_2 in Hr'. }
  destruct (negb _ && negb _) eqn:E; [|apply Hold]. intros [Hin|Hin]%elem_of_app; [by apply Hold|]. apply list_elem_of_singleton in Hin as [= -> -> ->].
  intros [Hr| ->%list_elem_of_singleton]%elem_of_app Hrel Hnm.
  - apply andb_true_iff in E as [E1 E2]. apply negb_true_iff, bool_decide_eq_false in E1. rewrite <- Hnm in E1.
    destruct (proj2 (first_references_spec expanded references) r Hr E1) as (at' & r' & Hin & _). exfalso. apply negb_true_iff in E2.
    assert (existsb (fun '(relation, name, _) => bool_decide ((relation, name) = (ref_relation r0, ref_name r0))) first = true) as E3; [|congruence].
    apply existsb_exists. eexists. split; [by apply list_elem_of_In, Hin|]. cbn. apply bool_decide_eq_true. congruence.
  - exists r0. rewrite lookup_app_r, Nat.sub_diag by done. auto.
Qed.

Lemma keys_le_front a b c d : length a = length b -> keys_le (a ++ c) (b ++ d) = true -> keys_le a b = true.
Proof.
  revert b. induction a as [|x a IH]; intros [|y b] Hl; [done|done|done|]. cbn. destruct (decide (x = y)); [|done]. apply IH. by injection Hl.
Qed.

Lemma cmp_total_sort a b : cmp_total a b = true -> cmp_sort_key a b = true.
Proof. by apply keys_le_front. Qed.

Section Hops.
Context (p : Parts) (paths : list str) (policy : PathPolicy) (Hlinked : linked p).
Local Notation g := (finish p paths).

(** What an expanded name leads to is seen. *)
Definition expanded_ok (expanded : gset (bool * str)) (seen : gset str) : Prop :=
  (forall name t, (true, name) ∈ expanded -> t ∈ candidates_of g name -> node t ∈ seen) /\
  (forall name r, (false, name) ∈ expanded -> r ∈ references_named g name -> node (ref_source r) ∈ seen).

Lemma into_all e n : e ∈ ambiguous_into g n <-> e ∈ all_ambiguous g /\ node (target e) = n.
Proof.
  rewrite (ambiguous_into_filter p paths Hlinked n). rewrite list_elem_of_In, filter_In, <- list_elem_of_In.
  by rewrite bool_decide_eq_true.
Qed.

Lemma all_ambiguous_elem e : e ∈ all_ambiguous g <-> exists r, r ∈ ambiguous g /\ e ∈ ambiguous_edges g r.
Proof. unfold all_ambiguous. rewrite list_elem_of_In, in_flat_map. by setoid_rewrite list_elem_of_In. Qed.

Lemma from_elem r n : r ∈ references_from g n <-> r ∈ ambiguous g /\ node (ref_source r) = n.
Proof.
  rewrite references_from_filter. rewrite list_elem_of_In, filter_In, <- list_elem_of_In.
  by rewrite bool_decide_eq_true.
Qed.

Lemma edge_ends r t e : ambiguous_edge r t = Some e -> source e = ref_source r /\ target e = t.
Proof. apply new_ends. Qed.

(** An edge between different nodes exists. *)
Lemma edge_exists r t : node (ref_source r) <> node t -> exists e, ambiguous_edge r t = Some e.
Proof. apply new_Some. Qed.

Lemma ambiguous_hops_sound exp n h : h ∈ (ambiguous_hops g exp n).1 -> edge h ∈ all_ambiguous g /\ node (origin h) = n.
Proof.
  unfold ambiguous_hops. cbn [fst]. rewrite elem_of_app. intros [Hin|Hin].
  - case_bool_decide; [by apply elem_of_nil in Hin|]. apply list_elem_of_fmap in Hin as (e & -> & He). by apply into_all.
  - apply list_elem_of_In, in_flat_map in Hin as ([[rel nm] at_] & Hf & Hin). apply list_elem_of_In in Hf, Hin.
    apply list_elem_of_fmap in Hin as (e & -> & He).
    destruct (proj1 (first_references_spec exp (references_from g n)) _ _ _ Hf) as (r & Hr & _).
    apply list_lookup_total_correct in Hr as Ht. rewrite Ht in He. apply list_elem_of_lookup_2, from_elem in Hr as [Hr <-].
    split; [apply all_ambiguous_elem; by exists r|]. apply list_elem_of_omap in He as (t & _ & He). unfold origin. cbn.
    by destruct (edge_ends _ _ _ He) as [-> _].
Qed.

Lemma hops_at_sound exp n hops exp' h :
  hops_at g policy (undirected g policy) exp n = (hops, exp') -> h ∈ hops -> usable g policy h /\ node (origin h) = n.
Proof.
  unfold hops_at.
  assert (h ∈ map (fun '(at_, forward) => {| edge := edges g !!! at_; forward := forward |})
    (default [] (undirected g policy !! n)) -> usable g policy h /\ node (origin h) = n) as Hadj.
  { intros ([at_ fw] & -> & Hin)%list_elem_of_fmap. apply undirected_elem in Hin as (e & He & Hu & Hn).
    rewrite (list_lookup_total_correct _ _ _ He). split; [|done]. left. cbn. split; [by apply list_elem_of_lookup_2 in He|done]. }
  destruct (include_ambiguous policy) eqn:Ei; [|intros [= <- _]; exact Hadj].
  pose proof (ambiguous_hops_sound exp n h) as Hs. destruct (ambiguous_hops g exp n) as [more exp1].
  intros [= <- _]. rewrite sort_by_perm, elem_of_app. intros [Hin|Hin]; [by apply Hadj|]. apply Hs in Hin as [? ?].
  split; [|done]. right. auto.
Qed.

Lemma named_at name t n : (name, t) ∈ candidates_at_node g n <-> t ∈ candidates_of g name /\ node t = n.
Proof. apply (candidates_at_named p paths Hlinked). Qed.

(** The hops of a node reach all its neighbours, those that its names were expanded to before aside,
    and all that its names are expanded to. *)
Lemma ambiguous_hops_complete exp n seen0 seen1 hops exp' :
  expanded_ok exp seen0 -> n ∈ seen0 -> seen0 ⊆ seen1 -> ambiguous_hops g exp n = (hops, exp') ->
  (forall h, h ∈ hops -> node (arrival h) ∈ seen1) ->
  expanded_ok exp' seen1 /\
  forall h, edge h ∈ all_ambiguous g -> node (origin h) = n -> node (arrival h) ∈ seen1.
Proof.
  intros [Ht Hf] Hn Hsub E Hreach. unfold ambiguous_hops in E.
  set (arriving := list_to_set (List.filter (fun key => negb (bool_decide (key ∈ exp))) (map (fun c => (false, c.1)) (candidates_at_node g n))) : gset (bool * str)) in *.
  set (first := first_references exp (references_from g n)) in *.
  assert (forall key, key ∈ arriving <-> key ∉ exp /\ exists name t, key = (false, name) /\ (name, t) ∈ candidates_at_node g n) as Harr.
  { intros key. unfold arriving. rewrite elem_of_list_to_set, list_elem_of_In, filter_In, <- list_elem_of_In, negb_true_iff, bool_decide_eq_false, list_elem_of_fmap.
    split; [intros [([nm t] & -> & Hin) ?]; eauto|]. intros [? (nm & t & -> & Hin)]. split; [|done]. by exists (nm, t). }
  assert (forall e, arriving <> ∅ -> e ∈ ambiguous_into g n -> node (source e) ∈ seen1) as Hinto.
  { intros e Hne He. rewrite bool_decide_false in E by done. injection E as <- <-.
    apply (Hreach {| edge := e; forward := false |}). apply elem_of_app. left. apply list_elem_of_fmap. by exists e. }
  assert (forall rel nm at_ r t, (rel, nm, at_) ∈ first -> references_from g n !! at_ = Some r -> ref_name r = nm ->
    t ∈ candidates_of g nm -> node t ∈ seen1) as Hleave.
  { intros rel nm at_ r t Hin Hr <- Hc. destruct (decide (node t = n)) as [->|Hne]; [by apply Hsub|].
    assert (r ∈ references_from g n) as [_ Hs]%from_elem by (by apply list_elem_of_lookup_2 in Hr).
    destruct (edge_exists r t) as [e He]; [congruence|]. destruct (edge_ends _ _ _ He) as [_ <-].
    apply (Hreach {| edge := e; forward := true |}). injection E as <- <-. apply elem_of_app. right.
    apply list_elem_of_In, in_flat_map. exists (rel, ref_name r, at_). split; [by apply list_elem_of_In|]. apply list_elem_of_In.
    apply list_elem_of_fmap. exists e. split; [done|]. rewrite (list_lookup_total_correct _ _ _ Hr). apply list_elem_of_omap. by exists (target e). }
  destruct (first_references_spec exp (references_from g n)) as [Hfirst Hall]. fold first in Hfirst, Hall.
  assert (expanded_ok exp' seen1) as Hexp.
  { injection E as _ <-. split; intros name x Hin Hx; apply elem_of_union in Hin as [[Hin|Hin]%elem_of_union|Hin].
    - apply Hsub. by eapply Ht.
    - apply elem_of_list_to_set, list_elem_of_fmap in Hin as ([[rel nm] at_] & [= ->] & Hin).
      destruct (Hfirst _ _ _ Hin) as (r & Hr & _ & Hnm & _). by eapply Hleave.
    - apply Harr in Hin as (_ & ? & ? & [=] & _).
    - apply Hsub. by eapply Hf.
    - by apply elem_of_list_to_set, list_elem_of_fmap in Hin as ([[rel nm] at_] & [=] & _).
    - assert (arriving <> ∅) as Hne by (intros He; rewrite He in Hin; set_solver).
      apply Harr in Hin as (_ & nm & t & [= ->] & Hc).
      destruct (decide (node (ref_source x) = n)) as [->|Hs]; [by apply Hsub|]. apply named_at in Hc as Ht'. destruct Ht' as [_ Htn].
      destruct (edge_exists x t) as [e He]; [congruence|]. destruct (edge_ends _ _ _ He) as [<- _].
      apply Hinto; [done|]. unfold ambiguous_into. apply list_elem_of_In, in_flat_map. exists (nm, t).
      split; [by apply list_elem_of_In|]. apply list_elem_of_In, list_elem_of_omap. by exists x. }
  split; [done|]. intros [e fw] Ha Ho. cbn in Ha. apply all_ambiguous_elem in Ha as Hr. destruct Hr as (r & Hr & He).
  apply list_elem_of_omap in He as (t & Hc & He). destruct (edge_ends _ _ _ He) as [Hes Het].
  destruct fw; unfold origin, arrival in *; cbn in *.
  - destruct (decide ((true, ref_name r) ∈ exp)) as [Hin|Hout]; [apply Hsub; rewrite Het; by eapply Ht|].
    destruct (Hall r) as (at_ & r' & Hin & Hl & Hrel & Hnm); [apply from_elem; split; [done|congruence]|done|].
    rewrite Het. by eapply Hleave.
  - destruct (decide ((false, ref_name r) ∈ exp)) as [Hin|Hout].
    + apply Hsub. rewrite Hes. eapply Hf; [done|]. rewrite references_named_filter.
      apply list_elem_of_In, filter_In. split; [by apply list_elem_of_In|]. by apply bool_decide_eq_true.
    + apply Hinto; [|by apply into_all]. intros Hempty. assert ((false, ref_name r) ∈ arriving) as Hin; [|rewrite Hempty in Hin; set_solver].
      apply Harr. split; [done|]. exists (ref_name r), t. split; [done|]. apply named_at. split; [done|]. congruence.
Qed.

Lemma expanded_more exp seen0 seen1 : expanded_ok exp seen0 -> seen0 ⊆ seen1 -> expanded_ok exp seen1.
Proof. intros [H1 H2] Hsub. split; intros name x Hin Hx; apply Hsub; [by eapply H1|by eapply H2]. Qed.

Lemma hops_at_complete exp n seen0 seen1 hops exp' :
  expanded_ok exp seen0 -> n ∈ seen0 -> seen0 ⊆ seen1 -> hops_at g policy (undirected g policy) exp n = (hops, exp') ->
  (forall h, h ∈ hops -> node (arrival h) ∈ seen1) ->
  expanded_ok exp' seen1 /\ forall h, usable g policy h -> node (origin h) = n -> node (arrival h) ∈ seen1.
Proof.
  intros Hexp Hn Hsub E Hreach. unfold hops_at in E.
  set (edges_at := map (fun '(at_, forward) => {| edge := edges g !!! at_; forward := forward |})
    (default [] (undirected g policy !! n))) in *.
  assert (forall h, edge h ∈ edges g -> (tier (edge h) = Unique -> include_unique policy = true) -> node (origin h) = n -> h ∈ edges_at) as Hadj.
  { intros [e fw] He Hu Ho. apply list_elem_of_lookup in He as [at_ He]. apply list_elem_of_fmap. exists (at_, fw).
    rewrite (list_lookup_total_correct _ _ _ He). split; [done|]. apply undirected_elem. by exists e. }
  unfold usable. destruct (include_ambiguous policy).
  - destruct (ambiguous_hops g exp n) as [more exp1] eqn:Em. injection E as <- <-.
    setoid_rewrite sort_by_perm in Hreach. setoid_rewrite elem_of_app in Hreach.
    destruct (ambiguous_hops_complete exp n seen0 seen1 more exp1 Hexp Hn Hsub Em) as [H1 H2]; [auto|].
    split; [done|]. intros h [[He Hu]|[_ Ha]] Ho; [|by apply H2]. apply Hreach. left. by apply Hadj.
  - injection E as <- <-. split; [by eapply expanded_more|]. intros h [[He Hu]|[[=] _]] Ho. apply Hreach. by apply Hadj.
Qed.

(** An earlier reference gives the earlier edge. *)
Lemma ambiguous_edge_le r1 r t e1 e : ref_cmp_total r1 r = true -> node (ref_source r1) = node (ref_source r) -> ref_relation r1 = ref_relation r -> ref_name r1 = ref_name r ->
  ambiguous_edge r1 t = Some e1 -> ambiguous_edge r t = Some e -> cmp_sort_key e1 e = true.
Proof.
  unfold ambiguous_edge, new. intros Hle Hs Hrel Hnm H1 H2. case_decide; [|done]. case_decide; [|done]. injection H1 as <-. injection H2 as <-.
  unfold ref_cmp_total, ref_total_key, ref_sort_key in Hle. unfold cmp_sort_key, sort_key. cbn [source target name relation tier app keys_le] in *.
  rewrite Hs, Hrel, Hnm in *. rewrite !decide_True in * by done. destruct (decide ([line (ref_source r1)] = [line (ref_source r)])); [by rewrite decide_True|done].
Qed.

(** The edges at a node come in the order of the graph. *)
Lemma adjacent_sorted n : StronglySorted (fun a b => a.1 <= b.1)%nat (default [] (undirected g policy !! n)).
Proof.
  unfold undirected. rewrite group_entries_lookup.
  set (entries := concat _). assert (StronglySorted (fun a b : str * (nat * bool) => a.2.1 <= b.2.1)%nat entries) as Hs.
  { unfold entries. clear entries. generalize (edges g). intros l. assert (forall k, StronglySorted (fun a b : str * (nat * bool) => a.2.1 <= b.2.1)%nat
      (concat (imap (fun i e => if bool_decide (tier e = Unique) && negb (include_unique policy) then []
        else [(node (source e), ((k + i)%nat, true)); (node (target e), ((k + i)%nat, false))]) l)) /\
      Forall (fun a : str * (nat * bool) => k <= a.2.1)%nat (concat (imap (fun i e => if bool_decide (tier e = Unique) && negb (include_unique policy) then []
        else [(node (source e), ((k + i)%nat, true)); (node (target e), ((k + i)%nat, false))]) l))) as H; [|apply (H O)].
    induction l as [|e l IHl]; intros k; [split; constructor|]. cbn [imap concat]. destruct (IHl (S k)) as [H1 H2].
    assert (imap ((fun i e => if bool_decide (tier e = Unique) && negb (include_unique policy) then [] else [(node (source e), ((k + i)%nat, true)); (node (target e), ((k + i)%nat, false))]) ∘ S) l =
      imap (fun i e => if bool_decide (tier e = Unique) && negb (include_unique policy) then [] else [(node (source e), ((S k + i)%nat, true)); (node (target e), ((S k + i)%nat, false))]) l) as ->.
    { apply imap_ext. intros i e' _. cbn. by rewrite Nat.add_succ_r. }
    rewrite Nat.add_0_r. set (rest := concat _) in *. assert (Forall (fun a : str * (nat * bool) => k <= a.2.1)%nat rest) as H3 by (eapply Forall_impl; [exact H2|]; cbn; lia).
    destruct (bool_decide _ && _); cbn [app]; [by split|]. split; [|by repeat constructor]. constructor; [by constructor|]. by constructor. }
  clearbody entries. induction Hs as [|a l Hs IH Hf]; [constructor|]. cbn. destruct (bool_decide _); cbn; [|done]. constructor; [done|].
  apply Forall_forall. intros x Hx. apply list_elem_of_fmap in Hx as (y & -> & Hy). apply list_elem_of_In, filter_In in Hy as [Hy _].
  rewrite Forall_forall in Hf. by apply Hf, list_elem_of_In.
Qed.

Lemma hops_at_sorted exp n hops exp' : hops_at g policy (undirected g policy) exp n = (hops, exp') ->
  StronglySorted (fun a b => cmp_sort_key (edge a) (edge b) = true) hops.
Proof.
  unfold hops_at. destruct (include_ambiguous policy).
  - destruct (ambiguous_hops g exp n) as [more exp1]. intros [= <- _]. apply sort_by_sorted; intros *; [apply keys_le_total|apply keys_le_trans].
  - intros [= <- _]. pose proof (adjacent_sorted n) as Hs. pose proof (undirected_elem g policy n) as Hin.
    assert (forall at_ at' e e', (at_ <= at')%nat -> edges g !! at_ = Some e -> edges g !! at' = Some e' -> cmp_sort_key e e' = true) as Hle.
    { intros at_ at' e e' Hle He He'. destruct (decide (at_ = at')) as [->|Hne]; [rewrite He in He'; injection He' as ->; apply keys_le_refl|].
      apply cmp_total_sort. destruct (finish_edges p paths) as [Hsorted _]. eapply (strongly_sorted_lookup _ _ _ _ _ _ Hsorted); [|done|done]. lia. }
    set (l := default [] _) in *. assert (forall x, x ∈ l -> exists e, edges g !! x.1 = Some e) as Hl.
    { intros [at_ fw] (e & He & _)%Hin. by exists e. }
    clearbody l. clear Hin. induction Hs as [|x l Hs IH Hf]; [constructor|]. cbn [map]. constructor; [apply IH; intros y Hy; apply Hl; by right|].
    apply Forall_forall. intros h Hh. apply list_elem_of_In, in_map_iff in Hh as ([at' fw'] & <- & Hy%list_elem_of_In). destruct x as [at_ fw]. cbn [edge].
    destruct (Hl (at_, fw) ltac:(left)) as [e He], (Hl (at', fw') ltac:(by right)) as [e' He']. cbn in He, He'.
    rewrite (list_lookup_total_correct _ _ _ He), (list_lookup_total_correct _ _ _ He'). rewrite Forall_forall in Hf. specialize (Hf _ Hy). by eapply Hle.
Qed.

(** Among the hops of a node is one to each new neighbour no later than any usable one. *)
Lemma hops_at_least exp n seen0 hops exp' h : expanded_ok exp seen0 -> n ∈ seen0 -> hops_at g policy (undirected g policy) exp n = (hops, exp') ->
  usable g policy h -> node (origin h) = n -> node (arrival h) ∉ seen0 ->
  exists h', h' ∈ hops /\ node (arrival h') = node (arrival h) /\ cmp_sort_key (edge h') (edge h) = true.
Proof.
  intros [Ht Hf] Hn E Hu Ho Ha. unfold hops_at in E.
  set (edges_at := map (fun '(at_, forward) => {| edge := edges g !!! at_; forward := forward |}) (default [] (undirected g policy !! n))) in *.
  destruct Hu as [[He Hu]|[Hpol Hamb]].
  { exists h. split; [|split; [done|apply keys_le_refl]]. assert (h ∈ edges_at) as Hin.
    { destruct h as [e fw]. cbn [edge] in He, Hu. apply list_elem_of_lookup in He as [at_ He]. apply list_elem_of_fmap. exists (at_, fw).
      rewrite (list_lookup_total_correct _ _ _ He). split; [done|]. apply undirected_elem. by exists e. }
    destruct (include_ambiguous policy); [|by injection E as <- <-]. destruct (ambiguous_hops g exp n) as [more exp1]. injection E as <- <-.
    rewrite sort_by_perm, elem_of_app. by left. }
  rewrite Hpol in E. unfold ambiguous_hops in E. cbv zeta in E. injection E as <- _. setoid_rewrite sort_by_perm. setoid_rewrite elem_of_app.
  apply all_ambiguous_elem in Hamb as Hr. destruct Hr as (r & Hr & He). apply list_elem_of_omap in He as (t & Hc & He). destruct (edge_ends _ _ _ He) as [Hes Het].
  destruct h as [e [|]]; unfold origin, arrival in Ho, Ha |- *; cbn [edge forward] in *.
  - assert ((true, ref_name r) ∉ exp) as Hfresh by (intros Hin; apply Ha; rewrite Het; by eapply Ht).
    assert (r ∈ references_from g n) as Hrn by (apply from_elem; split; [done|congruence]).
    destruct (proj2 (first_references_spec exp (references_from g n)) r Hrn Hfresh) as (at_ & r1 & Hin & Hl & Hrel & Hnm).
    assert (StronglySorted (fun a b => ref_cmp_total a b = true) (references_from g n)) as Hsorted.
    { rewrite references_from_filter. apply strongly_sorted_filter. apply (finish_ambiguous p paths). }
    destruct (first_references_first exp _ _ (fun r => keys_le_refl _) Hsorted _ _ _ r Hin Hrn eq_refl eq_refl) as (r2 & Hl2 & Hle).
    rewrite Hl in Hl2. injection Hl2 as <-. assert (r1 ∈ references_from g n) as [Hr1 Hs1]%from_elem by (by apply list_elem_of_lookup_2 in Hl).
    destruct (edge_exists r1 t) as [e1 He1]; [rewrite Hs1; intros Hnt; apply Ha; by rewrite Het, <- Hnt|]. destruct (edge_ends _ _ _ He1) as [Hes1 Het1].
    exists {| edge := e1; forward := true |}. cbn [edge forward]. split; [|split; [congruence|eapply (ambiguous_edge_le r1 r t); [done|congruence|done..]]].
    right. apply elem_of_app. right. apply list_elem_of_In, in_flat_map. exists (ref_relation r, ref_name r, at_). split; [by apply list_elem_of_In|]. apply list_elem_of_In, list_elem_of_fmap.
    exists e1. split; [done|]. rewrite (list_lookup_total_correct _ _ _ Hl). apply list_elem_of_omap. exists t. by rewrite Hnm.
  - exists {| edge := e; forward := false |}. split; [|split; [done|apply keys_le_refl]]. right. apply elem_of_app. left.
    set (arriving := list_to_set _ : gset (bool * str)). rewrite bool_decide_false.
    + apply list_elem_of_fmap. exists e. split; [done|]. by apply into_all.
    + intros Hempty. assert ((false, ref_name r) ∈ arriving) as Hin; [|rewrite Hempty in Hin; set_solver].
      unfold arriving. rewrite elem_of_list_to_set, list_elem_of_In, filter_In, <- list_elem_of_In, negb_true_iff, bool_decide_eq_false, list_elem_of_fmap. split.
      * exists (ref_name r, t). split; [done|]. apply named_at. split; [done|congruence].
      * intros Hin. apply Ha. rewrite Hes. eapply Hf; [done|]. rewrite references_named_filter. apply list_elem_of_In, filter_In. split; [by apply list_elem_of_In|]. by apply bool_decide_eq_true.
Qed.
End Hops.

(** * The levels *)

Lemma reach_each_spec n target hops s following s' following' b :
  reach_each n target hops s following = (s', following', b) ->
  exists fresh, following' = following ++ fresh /\
    let reached := fresh ++ (if b then [target] else []) in
    NoDup reached /\ target ∉ fresh /\ seen s' = seen s ∪ list_to_set reached /\ expanded s' = expanded s /\ walked s' = walked s /\
    (forall x, x ∈ reached -> x ∉ seen s /\ exists h, h ∈ hops /\ node (arrival h) = x /\ previous s' !! x = Some (n, h)) /\
    (forall x, x ∉ reached -> previous s' !! x = previous s !! x) /\
    (b = false -> forall h, h ∈ hops -> node (arrival h) ∈ seen s').
Proof.
  revert s following. induction hops as [|hop hops IH]; intros s following; cbn [reach_each].
  { intros [= <- <- <-]. exists []. rewrite !app_nil_r. cbn. split; [done|]. split; [constructor|].
    split; [apply not_elem_of_nil|]. split; [by rewrite union_empty_r_L|]. split_and!; try done.
    - intros x Hx. by apply elem_of_nil in Hx.
    - intros _ h Hh. by apply elem_of_nil in Hh. }
  case_decide as Hs.
  { intros E. destruct (IH _ _ E) as (fresh & -> & H1 & H2 & H3 & H4 & H5 & H6 & H7 & H8). exists fresh. split_and!; try done.
    - intros x Hx. destruct (H6 x Hx) as (? & h & ? & ? & ?). split; [done|]. exists h. rewrite elem_of_cons. auto.
    - intros Hb h [->|Hh]%elem_of_cons; [|auto]. rewrite H3. set_solver. }
  case_decide as Ht.
  { intros [= <- <- <-]. exists []. rewrite !app_nil_r. cbn. rewrite Ht in *. split; [done|]. split; [apply NoDup_singleton|].
    split; [apply not_elem_of_nil|]. split; [set_solver|]. split_and!; try done.
    - intros x ->%list_elem_of_singleton. split; [done|]. exists hop. rewrite lookup_insert_eq. split; [left|done].
    - intros x Hx. rewrite list_elem_of_singleton in Hx. by rewrite lookup_insert_ne. }
  intros E. destruct (IH _ _ E) as (fresh & -> & H1 & H2 & H3 & H4 & H5 & H6 & H7 & H8). cbn [seen expanded walked previous] in *.
  set (x0 := node (arrival hop)) in *. set (tail := if b then [target] else []) in *.
  assert (x0 ∉ fresh ++ tail) as Hx0 by (intros Hin; apply H6 in Hin as [Hin _]; set_solver).
  exists (x0 :: fresh). rewrite <- app_assoc. cbn [app]. split; [done|]. cbn zeta. split; [by apply NoDup_cons|].
  split; [apply not_elem_of_cons; split; congruence|]. split; [rewrite H3; cbn; set_solver|]. split; [done|]. split; [done|]. split; [|split].
  - intros x [->|Hx]%elem_of_cons.
    + split; [done|]. exists hop. split; [left|]. split; [done|]. by rewrite H7, lookup_insert_eq.
    + destruct (H6 x Hx) as (Hn & h & ? & ? & ?). split; [set_solver|]. exists h. rewrite elem_of_cons. auto.
  - intros x [Hne Hx]%not_elem_of_cons. by rewrite H7, lookup_insert_ne.
  - intros Hb h [->|Hh]%elem_of_cons; [|auto]. rewrite H3. set_solver.
Qed.

(** A new neighbour is reached by the first hop to it. *)
Lemma reach_each_first (R : Hop -> Hop -> Prop) n target hops s following s' following' b :
  (forall h, R h h) -> StronglySorted R hops -> reach_each n target hops s following = (s', following', b) ->
  forall x, x ∈ seen s' -> x ∉ seen s -> exists h, previous s' !! x = Some (n, h) /\ node (arrival h) = x /\ h ∈ hops /\
    forall h', h' ∈ hops -> node (arrival h') = x -> R h h'.
Proof.
  intros Hrefl Hs. revert s following. induction Hs as [|hop hops Hs IH Hf]; intros s following; cbn [reach_each]; [by intros [= <- _ _]|].
  rewrite Forall_forall in Hf. set (x0 := node (arrival hop)). case_decide as Hseen.
  { intros E x Hx Hxs. destruct (IH _ _ E x Hx Hxs) as (h & Hp & Ha & Hh & Hleast). exists h. rewrite elem_of_cons. split_and!; auto.
    intros h' [->|Hh']%elem_of_cons Hx'; [|auto]. destruct Hxs. by rewrite <- Hx'. }
  set (s1 := {| previous := _; seen := _; expanded := _; walked := _ |}).
  assert (forall s2, previous s2 !! x0 = Some (n, hop) -> forall x, x = x0 -> exists h, previous s2 !! x = Some (n, h) /\ node (arrival h) = x /\ h ∈ hop :: hops /\
    forall h', h' ∈ hop :: hops -> node (arrival h') = x -> R h h') as Hfirst.
  { intros s2 Hp x ->. exists hop. split; [done|]. split; [done|]. split; [left|]. intros h' [->|Hh']%elem_of_cons _; [apply Hrefl|by apply Hf]. }
  case_decide as Ht.
  { intros [= <- <- <-] x Hx Hxs. apply (Hfirst s1); [cbn; by rewrite lookup_insert_eq|]. cbn in Hx. set_solver. }
  intros E x Hx Hxs. destruct (decide (x = x0)) as [->|Hne].
  - apply (Hfirst s'); [|done]. destruct (reach_each_spec _ _ _ _ _ _ _ _ E) as (fresh & _ & _ & _ & _ & _ & _ & Hin & Hout & _).
    rewrite Hout; [cbn; by rewrite lookup_insert_eq|]. intros H. destruct (Hin _ H) as [Hno _]. cbn in Hno. set_solver.
  - destruct (IH _ _ E x Hx) as (h & Hp & Ha & Hh & Hleast); [cbn; set_solver|]. exists h. rewrite elem_of_cons. split_and!; auto.
    intros h' [->|Hh']%elem_of_cons Hx'; [by destruct Hne|auto].
Qed.

Section Levels.
Context (p : Parts) (paths : list str) (policy : PathPolicy) (Hlinked : linked p).
Context (start goal : str) (bounds : PathBounds) (Hne : start <> goal).
Local Notation g := (finish p paths).
Local Notation adjacency := (undirected g policy).

Definition reach n x : Prop := nsteps (joins g policy) n start x.

Definition fewest n x : Prop := reach n x /\ forall m, (m < n)%nat -> ~ reach m x.

Lemma fewest_unique n m x : fewest n x -> fewest m x -> n = m.
Proof.
  intros [H1 H2] [H3 H4]. destruct (Nat.lt_trichotomy n m) as [H|[H|H]]; [by destruct (H4 n)|done|by destruct (H2 m)].
Qed.

(** The way back from each node that is seen. *)
Definition links (previous : gmap str (str * Hop)) (seen : gset str) : Prop :=
  forall x, x ∈ seen -> x <> start -> exists y h d, previous !! x = Some (y, h) /\ y ∈ seen /\ usable g policy h /\ earliest g policy h /\
    node (origin h) = y /\ node (arrival h) = x /\ fewest d y /\ fewest (S d) x.

(** The search before the level of the nodes [k] hops away. *)
Record path_ok (k : nat) (s : Search) (frontier : list str) : Prop := {
  po_frontier x : x ∈ frontier <-> fewest k x;
  po_seen x : x ∈ seen s <-> exists m, (m <= k)%nat /\ reach m x;
  po_split x : x ∈ seen s -> x ∈ frontier \/ exists m, (m < k)%nat /\ reach m x;
  po_goal : goal ∉ seen s;
  po_expanded : expanded_ok p paths (expanded s) (seen s);
  po_links : links (previous s) (seen s);
  po_walked : (walked s + length frontier = size (seen s))%nat;
  po_levels : (k <= walked s)%nat
}.

(** A level after the nodes [done] of its frontier. *)
Record level_ok (s0 : Search) (done : list str) (s : Search) (following : list str) : Prop := {
  lo_seen : seen s = seen s0 ∪ list_to_set following;
  lo_following x : x ∈ following <-> x ∉ seen s0 /\ exists y, y ∈ done /\ joins g policy y x;
  lo_goal : goal ∉ following;
  lo_expanded : expanded_ok p paths (expanded s) (seen s);
  lo_links : links (previous s) (seen s);
  lo_size : size (seen s) = (size (seen s0) + length following)%nat;
  lo_walked : walked s = (walked s0 + length done)%nat
}.

Lemma seen_fewest k s frontier x : path_ok k s frontier -> reach (S k) x -> x ∉ seen s -> fewest (S k) x.
Proof. intros I Hr Hx. split; [done|]. intros m Hm Hxm. apply Hx, (po_seen _ _ _ I). exists m. split; [lia|done]. Qed.

(** What one node of the frontier adds. *)
Lemma expand_spec k s0 frontier done n s following s' following' b :
  path_ok k s0 frontier -> n ∈ frontier -> level_ok s0 done s following ->
  expand g policy adjacency {| previous := previous s; seen := seen s; expanded := expanded s; walked := S (walked s) |}
    n goal following = (s', following', b) ->
  if b then fewest (S k) goal /\ links (previous s') (seen s') /\ goal ∈ seen s' /\ walked s' = S (walked s)
  else level_ok s0 (done ++ [n]) s' following'.
Proof.
  intros I Hn L. unfold expand. cbn [expanded previous seen walked].
  destruct (hops_at g policy adjacency (expanded s) n) as [hops exp1] eqn:Eh. intros E.
  destruct (reach_each_spec _ _ _ _ _ _ _ _ E) as (fresh & -> & Hnd & Hgoal & Hseen & Hexp & Hwalk & Hin & Hout & Hall).
  cbn [seen expanded walked previous] in *. set (reached := fresh ++ (if b then [goal] else [])) in *.
  pose proof (proj1 (po_frontier _ _ _ I n) Hn) as Hfew.
  assert (n ∈ seen s0) as Hns0 by (apply (po_seen _ _ _ I); exists k; split; [lia|apply Hfew]).
  assert (n ∈ seen s) as Hns by (rewrite (lo_seen _ _ _ _ L); set_solver).
  assert (forall x, x ∈ reached -> fewest (S k) x /\ joins g policy n x) as Hreached.
  { intros x Hx. destruct (Hin x Hx) as (Hxs & h & Hh & <- & _).
    destruct (hops_at_sound p paths policy Hlinked _ _ _ _ _ Eh Hh) as [Hu Ho].
    assert (joins g policy n (node (arrival h))) as Hj by (by exists h). split; [|done].
    apply (seen_fewest _ _ _ _ I); [by eapply nsteps_r; [apply Hfew|]|]. rewrite (lo_seen _ _ _ _ L) in Hxs. set_solver. }
  assert (links (previous s') (seen s')) as Hlinks.
  { intros x Hx Hxs. rewrite Hseen in Hx |- *. destruct (decide (x ∈ reached)) as [Hr|Hr].
    - destruct (Hin x Hr) as (_ & h & Hh & Ha & Hp). destruct (hops_at_sound p paths policy Hlinked _ _ _ _ _ Eh Hh) as [Hu Ho].
      exists n, h, k. split; [done|]. split; [set_solver|]. split; [done|]. split; [|split_and!; try done; by apply Hreached].
      destruct (Hin x Hr) as [Hnew _]. destruct (reach_each_first (fun a b => cmp_sort_key (edge a) (edge b) = true) _ _ _ _ _ _ _ _ (fun h => keys_le_refl _) (hops_at_sorted p paths policy _ _ _ _ Eh) E x)
        as (h1 & Hp1 & _ & _ & Hleast); [rewrite Hseen; set_solver|done|]. rewrite Hp in Hp1. injection Hp1 as <-.
      intros h' Hu' Ho' Ha'. rewrite Ho in Ho'. rewrite Ha in Ha'.
      destruct (hops_at_least p paths policy Hlinked _ _ _ _ _ h' (lo_expanded _ _ _ _ L) Hns Eh Hu' Ho') as (h2 & Hh2 & Ha2 & Hle2); [by rewrite Ha'|].
      eapply keys_le_trans; [apply (Hleast h2 Hh2); congruence|exact Hle2].
    - assert (x ∈ seen s) as Hxs' by set_solver. destruct (lo_links _ _ _ _ L x Hxs' Hxs) as (y & h & d & Hp & Hy & Hrest).
      exists y, h, d. rewrite Hout by done. split; [done|]. split; [set_solver|done]. }
  destruct b.
  { assert (goal ∈ reached) as Hg by (apply elem_of_app; right; left). split; [by apply Hreached|]. split; [done|].
    split; [rewrite Hseen; set_solver|done]. }
  subst reached. rewrite app_nil_r in *.
  assert (seen s ⊆ seen s') as Hsub by set_solver.
  destruct (hops_at_complete p paths policy Hlinked _ _ _ _ _ _ (lo_expanded _ _ _ _ L) Hns Hsub Eh) as [He Hcomplete]; [by apply Hall|].
  destruct L as [L1 L2 L3 L4 L5 L6 L7]. split.
  - by rewrite Hseen, L1, list_to_set_app_L, union_assoc_L.
  - intros x. rewrite elem_of_app, L2. split.
    + intros [(H1 & y & H2 & H3)|Hf].
      * split; [done|]. exists y. rewrite elem_of_app. auto.
      * destruct (Hreached x Hf) as [_ Hj]. destruct (Hin x Hf) as [Hx _]. split; [set_solver|]. exists n.
        rewrite elem_of_app, list_elem_of_singleton. auto.
    + intros (H1 & y & H2 & H3). apply elem_of_app in H2 as [H2| ->%list_elem_of_singleton]; [left; eauto|].
      destruct H3 as (h & Hu & Ho & <-). specialize (Hcomplete h Hu Ho). rewrite Hseen, L1, !elem_of_union, !elem_of_list_to_set in Hcomplete.
      destruct Hcomplete as [[?|Hf]|?]; [done| |by right]. left. by apply L2.
  - rewrite elem_of_app. tauto.
  - by rewrite Hexp.
  - done.
  - rewrite Hseen, size_union, L6, length_app, size_list_to_set; [lia|done|]. intros x Hx Hf%elem_of_list_to_set.
    by destruct (Hin x Hf).
  - rewrite Hwalk, L7, length_app. cbn. lia.
Qed.

Lemma search_level_start k s frontier : path_ok k s frontier -> level_ok s [] s [].
Proof.
  intros I. split.
  - cbn. by rewrite union_empty_r_L.
  - intros x. rewrite elem_of_nil. split; [done|]. by intros (_ & y & Hy%elem_of_nil & _).
  - apply not_elem_of_nil.
  - apply I.
  - apply I.
  - cbn. lia.
  - cbn. lia.
Qed.

Lemma search_level_spec k s0 frontier0 done frontier s following s' outcome :
  path_ok k s0 frontier0 -> frontier0 = done ++ frontier -> level_ok s0 done s following -> (walked s <= max_visited bounds)%nat ->
  level g policy adjacency bounds goal frontier s following = (s', outcome) ->
  match outcome with
  | Err stopped => exists i, (i <= max_visited bounds)%nat /\ checks bounds i = Err stopped
  | Ok Found => fewest (S k) goal /\ links (previous s') (seen s') /\ goal ∈ seen s' /\ (S k <= walked s')%nat
  | Ok Exhausted => (max_visited bounds < size (seen s0))%nat
  | Ok (Next following') => level_ok s0 frontier0 s' following' /\ (walked s' <= max_visited bounds)%nat
  end.
Proof.
  intros I. revert done s following. induction frontier as [|n frontier IH]; intros done s following Hsplit L Hmax; cbn [level].
  { intros [= <- <-]. rewrite app_nil_r in Hsplit. by subst. }
  destruct (checks bounds (walked s)) as [u|stopped] eqn:Ec; [|intros [= <- <-]; eauto].
  pose proof (po_walked _ _ _ I) as Hw. rewrite Hsplit, length_app in Hw. cbn in Hw.
  pose proof (lo_walked _ _ _ _ L) as Hwl.
  cbn [walked]. destruct (Nat.ltb_spec (max_visited bounds) (S (walked s))) as [Hlt|Hge]; [intros [= <- <-]; lia|].
  destruct (expand _ _ _ _ _ _ _) as [[s1 following1] b] eqn:E.
  pose proof (expand_spec k s0 frontier0 done n s following s1 following1 b I
    ltac:(rewrite Hsplit; apply elem_of_app; right; left) L E) as Hx.
  destruct b; [intros [= <- <-]|].
  - destruct Hx as (H1 & H2 & H3 & H4). pose proof (po_levels _ _ _ I). split_and!; try done. lia.
  - intros Hl. eapply (IH (done ++ [n])); [by rewrite <- app_assoc|exact Hx| |exact Hl].
    rewrite (lo_walked _ _ _ _ Hx), length_app. cbn. lia.
Qed.

Lemma path_next k s0 frontier s following :
  path_ok k s0 frontier -> frontier <> [] -> level_ok s0 frontier s following -> path_ok (S k) s following.
Proof.
  intros I Hfr L.
  assert (forall x, x ∈ following -> fewest (S k) x) as Hfew.
  { intros x Hx. apply (lo_following _ _ _ _ L) in Hx as (Hs & y & Hy & Hj). eapply seen_fewest; [done| |done].
    eapply nsteps_r; [|done]. by apply (po_frontier _ _ _ I). }
  assert (forall x, x ∈ seen s <-> exists m, (m <= S k)%nat /\ reach m x) as Hseen.
  { intros x. rewrite (lo_seen _ _ _ _ L), elem_of_union, elem_of_list_to_set. split.
    - intros [(m & Hm & Hr)%(po_seen _ _ _ I)|Hx]; [exists m; split; [lia|done]|exists (S k); split; [done|by apply Hfew]].
    - intros (m & Hm & Hr). destruct (decide (x ∈ seen s0)) as [Hs|Hs]; [by left|right].
      assert (m = S k) as ->.
      { destruct (decide (m = S k)); [done|]. destruct Hs. apply (po_seen _ _ _ I). exists m. split; [lia|done]. }
      apply nsteps_inv_r in Hr as (y & Hy & Hj). apply (lo_following _ _ _ _ L). split; [done|]. exists y. split; [|done].
      destruct (po_split _ _ _ I y) as [?|(m & Hlt & Hr)]; [apply (po_seen _ _ _ I); by exists k|done|].
      destruct Hs. apply (po_seen _ _ _ I). exists (S m). split; [lia|]. by eapply nsteps_r. }
  split.
  - intros x. split; [apply Hfew|]. intros [Hr Hno]. assert (x ∈ seen s) as Hx by (apply Hseen; by exists (S k)).
    rewrite (lo_seen _ _ _ _ L), elem_of_union, elem_of_list_to_set in Hx. destruct Hx as [Hx|?]; [|done].
    apply (po_seen _ _ _ I) in Hx as (m & Hm & Hx). by destruct (Hno m ltac:(lia)).
  - done.
  - intros x Hx. rewrite (lo_seen _ _ _ _ L), elem_of_union, elem_of_list_to_set in Hx. destruct Hx as [Hx|?]; [right|by left].
    apply (po_seen _ _ _ I) in Hx as (m & Hm & Hx). exists m. split; [lia|done].
  - rewrite (lo_seen _ _ _ _ L), elem_of_union, elem_of_list_to_set. intros [?|?]; [by apply (po_goal _ _ _ I)|by apply (lo_goal _ _ _ _ L)].
  - apply L.
  - apply L.
  - rewrite (lo_walked _ _ _ _ L), (lo_size _ _ _ _ L). pose proof (po_walked _ _ _ I). lia.
  - rewrite (lo_walked _ _ _ _ L). pose proof (po_levels _ _ _ I). destruct frontier; [done|]. cbn. lia.
Qed.

(** Nothing more is in reach once a level found nothing. *)
Lemma closed k s n x : path_ok k s [] -> reach n x -> x ∈ seen s.
Proof.
  intros I. revert x. induction n as [|n IH]; intros x Hr.
  - apply (po_seen _ _ _ I). exists O. split; [lia|done].
  - apply nsteps_inv_r in Hr as (y & Hy & Hj). destruct (po_split _ _ _ I y (IH y Hy)) as [?%elem_of_nil|(m & Hm & Hr)]; [done|].
    apply (po_seen _ _ _ I). exists (S m). split; [lia|]. by eapply nsteps_r.
Qed.

Lemma unwind_spec previous seen d x fuel back : links previous seen -> x ∈ seen -> fewest d x -> (d < fuel)%nat ->
  exists hops, unwind fuel previous start x back = Some (hops ++ reverse back) /\ length hops = d /\ chain g policy start hops x /\ Forall (earliest g policy) hops.
Proof.
  intros Hl. revert x fuel back. induction d as [|d IH]; intros x [|fuel] back Hx Hf Hlt; try lia; cbn [unwind].
  - destruct Hf as [Hf _]. inversion Hf; subst. rewrite decide_True by done. by exists [].
  - rewrite decide_False by (intros ->; destruct Hf as [_ Hno]; apply (Hno O); [lia|constructor]).
    destruct (Hl x Hx) as (y & h & e & Hp & Hy & Hu & Hleast & Ho & Ha & Hfy & Hfx).
    { intros ->. destruct Hf as [_ Hno]. apply (Hno O); [lia|constructor]. }
    pose proof (fewest_unique _ _ _ Hf Hfx) as [= ->]. rewrite Hp. cbn [mbind option_bind].
    destruct (IH y fuel (back ++ [h]) Hy Hfy ltac:(lia)) as (hops & -> & <- & Hc & Hall). exists (hops ++ [h]).
    rewrite reverse_app, <- app_assoc, length_app. split; [done|]. split; [cbn; lia|]. split; [rewrite <- Ha; apply hops_snoc; [by rewrite Ho|done]|].
    apply Forall_app. split; [done|]. by constructor.
Qed.

(** What a search answers. *)
Definition answers (r : result PathResult Stopped) : Prop :=
  match r with
  | Err stopped => exists i, (i <= max_visited bounds)%nat /\ checks bounds i = Err stopped
  | Ok r =>
      if found r then
        chain g policy start (hops r) goal /\ Forall (earliest g policy) (hops r) /\
        forall other, chain g policy start other goal -> (length (hops r) <= length other)%nat
      else
        hops r = [] /\
        if exhausted r then
          exists within : gset str, (max_visited bounds < size within)%nat /\
            forall x, x ∈ within -> exists hops, chain g policy start hops x
        else forall other, ~ chain g policy start other goal
  end.

Lemma run_spec fuel k s frontier :
  path_ok k s frontier -> (walked s <= max_visited bounds)%nat -> (max_visited bounds + 2 <= k + fuel)%nat ->
  exists r, run g policy fuel adjacency bounds start goal frontier s = Some r /\ answers r.
Proof.
  revert k s frontier. induction fuel as [|fuel IH]; intros k s frontier I Hmax Hfuel.
  { pose proof (po_levels _ _ _ I). lia. }
  cbn [run]. destruct frontier as [|n frontier].
  { eexists. split; [done|]. cbn. split; [done|]. intros other Hc. apply (po_goal _ _ _ I).
    eapply closed; [done|]. apply chain_steps. by exists other. }
  destruct (level _ _ _ _ _ _ _ _) as [s1 outcome] eqn:E.
  pose proof (search_level_spec k s (n :: frontier) [] (n :: frontier) s [] s1 outcome I eq_refl (search_level_start _ _ _ I) Hmax E) as Hl.
  destruct outcome as [[| |following]|stopped].
  - destruct Hl as (Hf & Hlinks & Hg & Hw). destruct (unwind_spec _ _ _ _ (S (walked s1)) [] Hlinks Hg Hf ltac:(lia)) as (hs & -> & Hlen & Hc & Hleast).
    eexists. split; [done|]. cbn. rewrite app_nil_r. split; [done|]. split; [done|]. intros other Ho. rewrite Hlen.
    destruct (le_lt_dec (S k) (length other)) as [?|Hlt]; [done|]. exfalso. destruct Hf as [_ Hno]. apply (Hno (length other)); [done|].
    apply chain_steps. by exists other.
  - eexists. split; [done|]. cbn. split; [done|]. exists (seen s). split; [done|]. intros x (m & _ & Hr)%(po_seen _ _ _ I).
    apply chain_steps in Hr as (hs & ? & _). by exists hs.
  - destruct Hl as [L Hw]. pose proof (path_next k s (n :: frontier) s1 following I ltac:(done) L) as I1.
    apply (IH (S k)); [done|done|lia].
  - by eexists.
Qed.

Lemma search_start_ok : path_ok 0 (new_search start) [start].
Proof.
  assert (forall x, reach 0 x <-> x = start) as H0 by (intros x; split; [by inversion 1|intros ->; constructor]).
  split; cbn.
  - intros x. rewrite list_elem_of_singleton. unfold fewest. rewrite H0. split; [intros ->; split; [done|lia]|by intros [? _]].
  - intros x. rewrite elem_of_singleton. split; [intros ->; exists O; split; [done|constructor]|].
    intros (m & Hm & Hr). replace m with O in Hr by lia. by apply H0.
  - intros x. rewrite elem_of_singleton, list_elem_of_singleton. by left.
  - rewrite elem_of_singleton. congruence.
  - split; intros name x Hin; set_solver.
  - intros x Hx. rewrite elem_of_singleton in Hx. done.
  - by rewrite size_singleton.
  - lia.
Qed.
End Levels.

(** C38: A path search always answers.  A path that it finds is a chain of usable hops from the source to
    the target, each hop on the first edge, by the graph's sort key, of the usable ones between its two
    nodes, and no chain has fewer hops.  Where it finds none there is none, unless it
    reports that it stopped looking: then chains lead from the source to more nodes than the bound.
    An error is that of a check before one of the first nodes up to the bound.  An ambiguous name's
    edges count as hops although each is expanded once. *)
Theorem shortest_path_exact p paths policy source target bounds (Hlinked : linked p) :
  exists r, shortest_path (finish p paths) policy source target bounds = Some r /\ answers p paths policy source target bounds r.
Proof.
  unfold shortest_path. case_decide as Hst.
  - eexists. split; [done|]. cbn. rewrite Hst. split; [done|]. split; [constructor|]. intros. lia.
  - apply (run_spec p paths policy Hlinked source target bounds Hst (max_visited bounds + 2) 0); [by apply search_start_ok|cbn; lia|lia].
Qed.

(** From a file that calls an ambiguous name to one of its definitions, and back against the edge. *)
Lemma shortest_path_exact_witness :
  let policy := {| include_unique := false; include_ambiguous := true |} in
  let search := shortest_path Demo.graph policy (lit "a.py") (lit "b#run") {| max_visited := 5; checks := fun _ => Ok tt |} in
  linked Demo.parts /\ option_map (fun r => match r with Ok r => (map forward (hops r), found r) | Err _ => ([], false) end) search =
    Some ([false; true], true) /\
  exists other, chain Demo.graph policy (lit "a.py") other (lit "b#run") /\ length other = 2%nat.
Proof.
  intros policy search. split; [exact Demo.parts_linked|].
  assert (option_map (fun r => match r with Ok r => (map forward (hops r), found r) | Err _ => ([], false) end) search =
    Some ([false; true], true)) as E by (vm_compute; reflexivity).
  split; [exact E|].
  destruct (shortest_path_exact Demo.parts [lit "c.py"; lit "a.py"; lit "b.py"] policy (lit "a.py") (lit "b#run")
    {| max_visited := 5; checks := fun _ => Ok tt |} Demo.parts_linked) as (r & Hr & Ha).
  change (shortest_path (finish Demo.parts [lit "c.py"; lit "a.py"; lit "b.py"]) policy (lit "a.py") (lit "b#run") _) with search in Hr.
  rewrite Hr in E. cbn in E. destruct r as [r|e]; [|discriminate E]. injection E as E1 E2. cbn [answers] in Ha. rewrite E2 in Ha.
  destruct Ha as [Hc _]. exists (hops r). split; [exact Hc|]. rewrite <- (length_map forward), E1. reflexivity.
Defined.
