(* ===== verification/Lexer.v ===== *)
(** The scanner of Python fragments: crates/patchcheck/src/lexer.rs.

    Every index counts code points, and a text is a list of them.  [None] is a panic, or that the
    fuel ran out; [literal_end_exact] and [structure_exact] show that neither happens.  The scan of
    an f-string keeps a stack of the f-strings around it: [closes] is the recursion it stands for.
    Which parts of a text are calls is in CallSites.v. *)

From S2P Require Import Prelude RustStr Text Unicode.

(** * Characters *)

Definition QUOTES : str := [c_dquote; c_squote].
Definition OPENING : str := lit "([{".
Definition CLOSING : str := lit ")]}".
Definition COMMENT : char := 35.
Definition STRING_PREFIXES : str := lit "rRbBuUfF".
Definition LAMBDA : str := lit "lambda".
Definition POSITIONAL_ONLY : str := lit "/".
Definition TRIPLE : nat := 3.

(** The depth of a character inside a string literal or a comment. *)
Definition INSIDE_STRING : Z := -1.

(** [contains] of a set of characters. *)
Definition among (set : str) (c : char) : bool := bool_decide (c ∈ set).

Definition c_brace_open : char := 123.
Definition c_brace_close : char := 125.
Definition c_comma : char := 44.
Definition c_equals : char := 61.
Definition c_star : char := 42.
Definition c_paren_open : char := 40.

(** The slice [text[a..b]]; [None] is the panic of a slice out of range. *)
Definition slice {A} (text : list A) (a b : nat) : option (list A) :=
  if ((a <=? b) && (b <=? length text))%nat then Some (take (b - a) (drop a text)) else None.

Definition find (text needle : str) (from : nat) : option nat :=
  if (length text <? from)%nat then None else (fun at_ => (at_ + from)%nat) <$> find_str needle (drop from text).

(** * Literals *)

(** A string literal at a quote, by the length of its quote marker. *)
Inductive Literal := Plain (marker : nat) | Formatted (marker : nat).

(** An [f] among the prefix letters before [start], and no word character before them. *)
Definition opens_fstring (text : str) (start : nat) : bool :=
  let prefix_start :=
    match rposition (fun c => negb (among STRING_PREFIXES c)) (take start text) with Some at_ => S at_ | None => O end in
  if ((0 <? prefix_start)%nat && from_option is_word false (text !! (prefix_start - 1)%nat)) then false
  else any (among (lit "fF")) (drop prefix_start (take start text)).

Definition literal_at (text : str) (start : nat) : Literal :=
  let triple :=
    match slice text start (start + TRIPLE) with
    | Some (q :: run) => among QUOTES q && all (is_char q) run
    | _ => false
    end in
  let marker := if triple then TRIPLE else 1%nat in
  if opens_fstring text start then Formatted marker else Plain marker.

(** The rest of the text from [index], up to the quote or a line break outside an escape. *)
Fixpoint plain_scan (quote : char) (total : nat) (rest : str) (index : nat) : nat :=
  match rest with
  | [] => total
  | c :: rest =>
      if (c =? c_backslash)%Z then
        match rest with
        | [] => total
        | _ :: rest => plain_scan quote total rest (index + 2)
        end
      else if (c =? quote)%Z || (c =? c_lf)%Z then (index + 1)%nat
      else plain_scan quote total rest (index + 1)
  end.

Definition plain_end (text : str) (start marker : nat) : option nat :=
  if (marker =? TRIPLE)%nat then
    quote ← slice text start (start + TRIPLE);
    Some (match find text quote (start + TRIPLE) with Some found => (found + TRIPLE)%nat | None => length text end)
  else
    quote ← text !! start;
    Some (plain_scan quote (length text) (drop (start + 1) text) (start + 1)).

(** ** F-strings *)

Record Frame := { f_start : nat; f_marker : nat; f_index : nat; f_depth : nat }.

Definition opened (start marker : nat) : Frame :=
  {| f_start := start; f_marker := marker; f_index := start + marker; f_depth := 0 |}.

Definition moved (frame : Frame) (index depth : nat) : Frame :=
  {| f_start := f_start frame; f_marker := f_marker frame; f_index := index; f_depth := depth |}.

Inductive Step := Advance (index depth : nat) | Nested (frame : Frame) | End_ (end_ : nat).

Definition skip (frame : Frame) (by_ : nat) : Step := Advance (f_index frame + by_) (f_depth frame).

Definition brace_step (text : str) (frame : Frame) (c : char) : Step :=
  if (f_depth frame =? 0)%nat && bool_decide (text !! (f_index frame + 1)%nat = Some c) then skip frame 2
  else
    let depth := if (c =? c_brace_open)%Z then (f_depth frame + 1)%nat else (f_depth frame - 1)%nat in
    Advance (f_index frame + 1) depth.

Definition field_step (text : str) (frame : Frame) (c : char) : option Step :=
  if (0 <? f_depth frame)%nat && among QUOTES c then
    match literal_at text (f_index frame) with
    | Formatted nested => Some (Nested (opened (f_index frame) nested))
    | Plain nested => end_ ← plain_end text (f_index frame) nested; Some (Advance end_ (f_depth frame))
    end
  else if (c =? c_lf)%Z && negb (f_marker frame =? TRIPLE)%nat then Some (End_ (f_index frame + 1))
  else Some (skip frame 1).

Definition fstring_step (text : str) (frame : Frame) : option Step :=
  match text !! f_index frame with
  | None => Some (End_ (length text))
  | Some c =>
      if (c =? c_backslash)%Z then Some (skip frame 2)
      else
        marker ← slice text (f_start frame) (f_start frame + f_marker frame);
        if (f_depth frame =? 0)%nat && starts_with marker (drop (f_index frame) text)
        then Some (End_ (f_index frame + f_marker frame))
        else if (c =? c_brace_open)%Z || (c =? c_brace_close)%Z then Some (brace_step text frame c)
        else field_step text frame c
  end.

(** The stack of f-strings, the innermost first. *)
Fixpoint fstring_steps (fuel : nat) (text : str) (frames : list Frame) : option nat :=
  match fuel with
  | O => None
  | S fuel =>
      match frames with
      | [] => Some (length text)
      | frame :: outer =>
          step ← fstring_step text frame;
          match step with
          | Advance index depth => fstring_steps fuel text (moved frame index depth :: outer)
          | Nested nested => fstring_steps fuel text (nested :: frame :: outer)
          | End_ end_ =>
              match outer with
              | [] => Some end_
              | around :: outer => fstring_steps fuel text (moved around end_ (f_depth around) :: outer)
              end
          end
      end
  end.

(** Each step passes a character, opens an f-string at one, or closes one. *)
Definition fstring_end (text : str) (start marker : nat) : option nat :=
  fstring_steps (2 * length text + 2) text [opened start marker].

Definition literal_end (text : str) (start : nat) : option nat :=
  c ← text !! start;
  if (c =? COMMENT)%Z then Some (default (length text) (find text [c_lf] start))
  else
    match literal_at text start with
    | Formatted marker => fstring_end text start marker
    | Plain marker => plain_end text start marker
    end.

(** * Depths *)

(** [depths[index..end].fill(value)]. *)
Definition fill (depths : list Z) (index end_ : nat) (value : Z) : option (list Z) :=
  if ((index <=? end_) && (end_ <=? length depths))%nat
  then Some (take index depths ++ replicate (end_ - index) value ++ drop end_ depths) else None.

Fixpoint structure_steps (fuel : nat) (text : str) (index : nat) (depth : Z) (depths : list Z) : option (list Z) :=
  match fuel with
  | O => None
  | S fuel =>
      match text !! index with
      | None => Some depths
      | Some c =>
          if among QUOTES c || (c =? COMMENT)%Z then
            end_ ← literal_end text index;
            depths ← fill depths index end_ INSIDE_STRING;
            structure_steps fuel text end_ depth depths
          else if among OPENING c then structure_steps fuel text (index + 1) (depth + 1) (<[index := (depth + 1)%Z]> depths)
          else if among CLOSING c then structure_steps fuel text (index + 1) (depth - 1) (<[index := depth]> depths)
          else structure_steps fuel text (index + 1) depth (<[index := depth]> depths)
      end
  end.

Definition structure (text : str) : option (list Z) :=
  structure_steps (S (length text)) text 0 0 (replicate (length text) 0%Z).

(** * Arguments and parameters *)

(** The text between the bracket at [offset] and the next closing bracket at its depth; the depths
    are those of the text. *)
Definition inner_span (text : str) (depths : list Z) (offset : nat) : option str :=
  wanted ← depths !! offset;
  if (wanted =? INSIDE_STRING)%Z then None
  else
    close ← List.find (fun index => from_option (among CLOSING) false (text !! index) && bool_decide (depths !! index = Some wanted))
      (seq (offset + 1) (length text - (offset + 1)));
    Some (take (close - (offset + 1)) (drop (offset + 1) text)).

Definition trimmed (part : str) : str :=
  let start := default (length part) (position (fun c => negb (is_space c)) part) in
  let end_ := match rposition (fun c => negb (is_space c)) part with Some at_ => S at_ | None => start end in
  take (end_ - start) (drop start part).

(** The outer [None] of these is that of [structure]. *)
Definition split_top_level (text : str) : option (list str) :=
  depths ← structure text;
  let '(parts, start) :=
    foldl (fun '(parts, start) '(index, c) =>
      if (c =? c_comma)%Z && bool_decide (depths !! index = Some 0%Z)
      then (parts ++ [trimmed (take (index - start) (drop start text))], S index) else (parts, start))
      ([], O) (imap pair text) in
  Some (parts ++ [trimmed (drop start text)]).

(** A word character before the position, and at it. *)
Definition word_before (text : str) (at_ : nat) : bool :=
  match at_ with O => false | S before => from_option is_word false (text !! before) end.
Definition word_at (text : str) (at_ : nat) : bool := from_option is_word false (text !! at_).

Definition holds_top_level_lambda (text : str) : option bool :=
  depths ← structure text;
  Some (any (fun at_ => starts_with LAMBDA (drop at_ text) && bool_decide (depths !! at_ = Some 0%Z)
    && negb (word_before text at_) && negb (word_at text (at_ + length LAMBDA))) (seq 0 (length text))).

Definition names_keyword_argument (text : str) : option bool :=
  depths ← structure text;
  Some (any (fun '(index, c) => (c =? c_equals)%Z && bool_decide (depths !! index = Some 0%Z) && (0 <? index)%nat
    && negb (from_option (among (lit "=!<>")) false (text !! (index - 1)%nat))
    && negb (bool_decide (text !! (index + 1)%nat = Some c_equals))) (imap pair text)).

Definition unreadable (part : str) : bool := match part with [] => true | c :: _ => (c =? c_star)%Z end.

(** [Iterator::any] of a condition that can panic. *)
Fixpoint any_opt {A} (f : A -> option bool) (l : list A) : option bool :=
  match l with
  | [] => Some false
  | x :: l => b ← f x; if b : bool then Some true else any_opt f l
  end.

Definition positional_arguments (text : str) (depths : list Z) (offset : nat) : option (option (list str)) :=
  match inner_span text depths offset with
  | None => Some None
  | Some inner =>
      lambda ← holds_top_level_lambda inner;
      if lambda : bool then Some None
      else
        arguments ← split_top_level inner;
        if bool_decide (arguments = [[]]) then Some (Some [])
        else
          refused ← any_opt (fun part => if unreadable part then Some true else names_keyword_argument part) arguments;
          Some (if refused : bool then None else Some arguments)
  end.

(** Inside a signature's first balanced bracket pair. *)
Definition parameter_list (flattened : str) : option (option str) :=
  if starts_with (lit "...") (reverse flattened) then Some None
  else
    match position (is_char c_paren_open) flattened with
    | None => Some None
    | Some opening => depths ← structure flattened; Some (inner_span flattened depths opening)
    end.

Record Shape := { required : nat; total : nat }.

(** [Iterator::count] of a filter that can panic. *)
Fixpoint count_opt {A} (f : A -> option bool) (l : list A) : option nat :=
  match l with
  | [] => Some O
  | x :: l => b ← f x; n ← count_opt f l; Some (if b : bool then S n else n)
  end.

Definition parameter_shape (signature : str) : option (option Shape) :=
  inner ← parameter_list (strip signature);
  match inner with
  | None => Some None
  | Some inner =>
      if bool_decide (trimmed inner = []) then Some (Some {| required := 0; total := 0 |})
      else
        lambda ← holds_top_level_lambda inner;
        if lambda : bool then Some None
        else
          parts ← split_top_level inner;
          let parameters := List.filter (fun part => negb (bool_decide (part = POSITIONAL_ONLY))) parts in
          if any unreadable parameters then Some None
          else
            required ← count_opt (fun part => negb <$> names_keyword_argument part) parameters;
            Some (Some {| required := required; total := length parameters |})
  end.

(** The name of one parameter, without its default, its annotation and its stars. *)
Definition parameter_name (part : str) : option str :=
  let head := List.hd [] (split_char c_equals part) in
  let head := strip (List.hd [] (split_char 58 head)) in
  let head := strip (trim_start (is_char c_star) head) in
  if is_identifier head then Some head else None.

Definition signature_names (signature : str) : option (gset str) :=
  match position (is_char c_paren_open) signature with
  | None => Some ∅
  | Some opening =>
      depths ← structure signature;
      match inner_span signature depths opening with
      | None => Some ∅
      | Some inner => parts ← split_top_level inner; Some (list_to_set (omap parameter_name parts))
      end
  end.

(** * Where a literal ends *)

Lemma slice_Some {A} (text : list A) a b : (a <= b)%nat -> (b <= length text)%nat -> slice text a b = Some (take (b - a) (drop a text)).
Proof. intros. unfold slice. by rewrite (proj2 (Nat.leb_le a b)), (proj2 (Nat.leb_le b _)). Qed.

Lemma slice_inv {A} (text : list A) a b s : slice text a b = Some s -> (a <= b <= length text)%nat /\ s = take (b - a) (drop a text).
Proof. unfold slice. destruct (Nat.leb_spec a b), (Nat.leb_spec b (length text)); try done. intros [= <-]. done. Qed.

(** The first place of [needle] from [from] on. *)
Lemma find_spec text needle from : (from <= length text)%nat ->
  match find text needle from with
  | Some at_ => (from <= at_)%nat /\ (at_ + length needle <= length text)%nat /\ needle `prefix_of` drop at_ text /\
      forall m, (from <= m < at_)%nat -> ~ needle `prefix_of` drop m text
  | None => forall m, (from <= m <= length text)%nat -> ~ needle `prefix_of` drop m text
  end.
Proof.
  intros Hf. unfold find. rewrite (proj2 (Nat.ltb_ge _ _)) by done.
  destruct (find_str needle (drop from text)) as [n|] eqn:E; cbn.
  - apply find_str_Some in E as (Hp & Hn & Hno). rewrite length_drop in Hn. rewrite drop_drop in Hp.
    replace (n + from)%nat with (from + n)%nat by lia. split; [lia|]. split.
    { apply prefix_length in Hp as Hl. rewrite length_drop in Hl. lia. }
    split; [done|]. intros m Hm Hp'. apply (Hno (m - from)%nat); [lia|]. rewrite drop_drop. by replace (from + (m - from))%nat with m by lia.
  - intros m Hm Hp. apply (proj1 (find_str_None _ _) E (m - from)%nat); [rewrite length_drop; lia|].
    rewrite drop_drop. by replace (from + (m - from))%nat with m by lia.
Qed.

(** What one step of the scan of a one-line literal passes: an escape or another character. *)
Definition unit_ok (quote : char) (u : str) : Prop :=
  (exists c, u = [c_backslash; c]) \/ (exists c, u = [c] /\ c <> c_backslash /\ c <> quote /\ c <> c_lf).

(** The text of a one-line literal after its quote, up to and with its end. *)
Definition plain_text (quote : char) (s : str) (at_eof : Prop) : Prop :=
  exists units, Forall (unit_ok quote) units /\
    ((exists c, s = concat units ++ [c] /\ (c = quote \/ c = c_lf)) \/
     (at_eof /\ (s = concat units \/ s = concat units ++ [c_backslash]))).

Lemma plain_text_more quote u s (P Q : Prop) : unit_ok quote u -> (P -> Q) -> plain_text quote s P -> plain_text quote (u ++ s) Q.
Proof.
  intros Hu HPQ (units & Hf & H). exists (u :: units). split; [by constructor|]. cbn.
  destruct H as [(c & -> & Hc)|[HP [->| ->]]]; [left; exists c|right..]; rewrite ?app_assoc; auto.
Qed.

Lemma plain_scan_spec quote total rest index : quote <> c_backslash -> (index + length rest = total)%nat ->
  let e := plain_scan quote total rest index in
  (index <= e <= total)%nat /\ plain_text quote (take (e - index) rest) (e = total).
Proof.
  intros Hq. cbn zeta. remember (length rest) as n eqn:Hn. revert rest index Hn.
  induction n as [n IH] using lt_wf_ind. intros rest index -> Htotal. destruct rest as [|c rest]; cbn [plain_scan length] in *.
  { split; [lia|]. exists []. split; [constructor|]. right. split; [done|left; by rewrite take_nil]. }
  destruct (Z.eqb_spec c c_backslash) as [->|Hb].
  - destruct rest as [|d rest]; cbn [length] in *.
    + split; [lia|]. exists []. split; [constructor|]. right. split; [done|]. right. cbn. replace (total - index)%nat with 1%nat by lia. done.
    + destruct (IH (length rest) ltac:(lia) rest (index + 2)%nat eq_refl ltac:(lia)) as [H1 H2]. split; [lia|].
      replace (plain_scan quote total rest (index + 2) - index)%nat with (S (S (plain_scan quote total rest (index + 2) - (index + 2)))) by lia.
      apply (plain_text_more quote [c_backslash; d] _ _ _ ltac:(left; by exists d) (fun H => H) H2).
  - destruct ((c =? quote)%Z || (c =? c_lf)%Z) eqn:E.
    + split; [lia|]. replace (index + 1 - index)%nat with 1%nat by lia. exists []. split; [constructor|]. left. exists c. cbn. split; [done|]. lia.
    + destruct (IH (length rest) ltac:(lia) rest (index + 1)%nat eq_refl ltac:(lia)) as [H1 H2]. split; [lia|].
      replace (plain_scan quote total rest (index + 1) - index)%nat with (S (plain_scan quote total rest (index + 1) - (index + 1))) by lia.
      apply (plain_text_more quote [c] _ _ _ ltac:(right; exists c; split; [done|lia]) (fun H => H) H2).
Qed.

Lemma literal_at_marker text start : start < length text ->
  let marker := match literal_at text start with Plain m | Formatted m => m end in
  (marker = 1 \/ marker = TRIPLE /\ start + TRIPLE <= length text)%nat.
Proof.
  intros Hs. unfold literal_at.
  destruct (slice text start (start + TRIPLE)) as [[|q run]|] eqn:E; [destruct (opens_fstring _ _); by left| |destruct (opens_fstring _ _); by left].
  apply slice_inv in E as [Hl _].
  destruct (among QUOTES q && all (is_char q) run), (opens_fstring text start); cbn; first [by left|right; split; [done|lia]].
Qed.

(** The end of a plain literal that starts at [start]. *)
Definition plain_literal (text : str) (start marker e : nat) : Prop :=
  if (marker =? TRIPLE)%nat then
    let quote := take TRIPLE (drop start text) in
    (forall m, (start + TRIPLE <= m)%nat -> (m + TRIPLE < e)%nat -> ~ quote `prefix_of` drop m text) /\
    ((start + TRIPLE <= e - TRIPLE)%nat /\ quote `prefix_of` drop (e - TRIPLE) text \/
     e = length text /\ forall m, (start + TRIPLE <= m <= length text)%nat -> ~ quote `prefix_of` drop m text)
  else exists quote, text !! start = Some quote /\ plain_text quote (take (e - (start + 1)) (drop (start + 1) text)) (e = length text).

Lemma plain_end_spec text start marker : start < length text ->
  (exists q, text !! start = Some q /\ q <> c_backslash) -> (marker = 1 \/ marker = TRIPLE /\ start + TRIPLE <= length text)%nat ->
  exists e, plain_end text start marker = Some e /\ (start < e <= length text)%nat /\ plain_literal text start marker e.
Proof.
  intros Hs (q & Hq & Hb) [->|[-> Hl]]; unfold plain_end, plain_literal; cbn [Nat.eqb].
  - rewrite Hq. cbn [mbind option_bind].
    destruct (plain_scan_spec q (length text) (drop (start + 1) text) (start + 1) Hb) as [H1 H2]; [rewrite length_drop; lia|].
    eexists. split; [done|]. split; [lia|]. by exists q.
  - rewrite slice_Some by (unfold TRIPLE in *; lia). cbn [mbind option_bind]. replace (start + TRIPLE - start)%nat with TRIPLE by lia.
    pose proof (find_spec text (take TRIPLE (drop start text)) (start + TRIPLE) Hl) as Hf.
    assert (length (take TRIPLE (drop start text)) = TRIPLE) as Hlen by (rewrite length_take, length_drop; lia). rewrite Hlen in Hf.
    change (3 =? TRIPLE)%nat with true. cbn iota. destruct (find _ _ _) as [at_|].
    + destruct Hf as (H1 & H2 & H3 & H4). eexists. split; [done|]. split; [unfold TRIPLE in *; lia|].
      replace (at_ + TRIPLE - TRIPLE)%nat with at_ by lia. split; [|left; done]. intros m Hm Hlt. apply H4. lia.
    + eexists. split; [done|]. split; [unfold TRIPLE in *; lia|]. split; [|right; done]. intros m Hm Hlt. apply Hf. lia.
Qed.

(** ** F-strings *)

(** The recursion that the stack of f-strings stands for: from a frame to where its f-string ends. *)
Inductive closes (text : str) : Frame -> nat -> Prop :=
| closes_end frame e : fstring_step text frame = Some (End_ e) -> closes text frame e
| closes_advance frame index depth e :
    fstring_step text frame = Some (Advance index depth) -> closes text (moved frame index depth) e -> closes text frame e
| closes_nested frame nested e1 e :
    fstring_step text frame = Some (Nested nested) -> closes text nested e1 ->
    closes text (moved frame e1 (f_depth frame)) e -> closes text frame e.

Record frame_ok (text : str) (frame : Frame) : Prop := {
  fr_marker : (1 <= f_marker frame)%nat;
  fr_start : (f_start frame + f_marker frame <= length text)%nat;
  fr_index : (f_start frame + f_marker frame <= f_index frame)%nat
}.

Lemma moved_ok text frame index depth : frame_ok text frame -> (f_index frame <= index)%nat -> frame_ok text (moved frame index depth).
Proof. intros [] ?. split; cbn; lia. Qed.

Lemma quote_not_backslash q : among QUOTES q = true -> q <> c_backslash.
Proof. unfold among. rewrite bool_decide_eq_true. unfold QUOTES. set_unfold. intros [-> |[->|[]]]; done. Qed.

Lemma fstring_step_spec text frame : frame_ok text frame ->
  exists step, fstring_step text frame = Some step /\
  match step with
  | Advance index _ => (f_index frame < length text)%nat /\ (f_index frame < index)%nat
  | Nested nested => (f_index frame < length text)%nat /\ (f_index frame < f_index nested <= length text)%nat /\ frame_ok text nested
  | End_ e => (f_index frame < e <= length text)%nat \/ (length text <= f_index frame)%nat /\ e = length text
  end.
Proof.
  intros [F1 F2 F3]. unfold fstring_step. destruct (text !! f_index frame) as [c|] eqn:Ec.
  2: { apply lookup_ge_None in Ec. eexists. split; [done|]. by right. }
  pose proof (lookup_lt_Some _ _ _ Ec) as Hlt.
  destruct (c =? c_backslash)%Z; [eexists; split; [done|]; cbn; lia|].
  rewrite slice_Some by lia. cbn [mbind option_bind].
  destruct ((f_depth frame =? 0)%nat && _) eqn:Ed.
  { eexists. split; [done|]. left. apply andb_true_iff in Ed as [_ Hp]. apply starts_with_spec, prefix_length in Hp.
    rewrite length_take, !length_drop in Hp. lia. }
  destruct (_ || _) eqn:Eb.
  { eexists. split; [done|]. unfold brace_step, skip.
    destruct ((f_depth frame =? 0)%nat && bool_decide (text !! (f_index frame + 1)%nat = Some c)); cbn beta iota zeta; lia. }
  unfold field_step. destruct (_ && among QUOTES c) eqn:Eq.
  - apply andb_true_iff in Eq as [_ Hq]. pose proof (literal_at_marker text (f_index frame) Hlt) as Hm.
    destruct (literal_at text (f_index frame)) as [m|m].
    + destruct (plain_end_spec text (f_index frame) m Hlt) as (e & -> & He & _); [exists c; split; [done|by apply quote_not_backslash]|done|].
      cbn [mbind option_bind]. eexists. split; [done|]. cbn. lia.
    + eexists. split; [done|]. cbn. split; [done|]. unfold TRIPLE in *. split; [lia|]. split; cbn; lia.
  - destruct (_ && negb _); (eexists; split; [done|]); cbn; lia.
Qed.

(** Every f-string ends, past the frame unless the text ends first. *)
Lemma closes_total text frame : frame_ok text frame ->
  exists e, closes text frame e /\ (f_start frame < e <= length text)%nat /\ ((f_index frame < e)%nat \/ e = length text).
Proof.
  remember (length text - f_index frame)%nat as n eqn:Hn. revert frame Hn. induction n as [n IH] using lt_wf_ind. intros frame -> F.
  destruct (fstring_step_spec text frame F) as ([index depth|nested|e] & E & H); cbn beta iota in H.
  - destruct (IH (length text - index)%nat ltac:(lia) (moved frame index depth) eq_refl) as (e & Hc & He & Hi); [apply moved_ok; [done|lia]|].
    exists e. split; [by eapply closes_advance|]. split; [done|]. cbn in Hi. lia.
  - destruct H as (Hlt & Hx & Fn). destruct (IH (length text - f_index nested)%nat ltac:(lia) nested eq_refl Fn) as (e1 & Hc1 & He1 & Hi1).
    destruct (IH (length text - e1)%nat ltac:(lia) (moved frame e1 (f_depth frame)) eq_refl) as (e & Hc & He & Hi); [apply moved_ok; [done|lia]|].
    exists e. split; [by eapply closes_nested|]. split; [done|]. cbn in Hi. lia.
  - exists e. split; [by eapply closes_end|]. destruct F. lia.
Qed.

(** The stack does what the recursion does, in at most two steps for each character passed. *)
Lemma steps_closes text frame e : closes text frame e -> frame_ok text frame ->
  (f_index frame < e \/ e = length text)%nat /\ (e <= length text)%nat /\
  exists k, (k <= 2 * (e - f_index frame) + 1)%nat /\ forall fuel outer,
    fstring_steps (k + fuel) text (frame :: outer) =
    match outer with [] => Some e | around :: outer => fstring_steps fuel text (moved around e (f_depth around) :: outer) end.
Proof.
  induction 1 as [frame e E|frame index depth e E Hc IH|frame nested e1 e E Hc1 IH1 Hc2 IH2]; intros F;
    destruct (fstring_step_spec text frame F) as (step & E' & H); rewrite E in E'; injection E' as <-; cbn beta iota in H.
  - split; [lia|]. split; [lia|]. exists 1%nat. split; [lia|]. intros fuel outer. cbn [Nat.add fstring_steps]. by rewrite E.
  - destruct IH as (H1 & H2 & k & Hk & Hrun); [apply moved_ok; [done|lia]|]. cbn in H1, Hk. split; [lia|]. split; [done|].
    exists (S k). split; [lia|]. intros fuel outer. cbn [Nat.add fstring_steps]. rewrite E. cbn [mbind option_bind]. apply Hrun.
  - destruct H as (Hlt & Hx & Fn). destruct (IH1 Fn) as (A1 & A2 & k1 & Hk1 & Hrun1).
    destruct IH2 as (B1 & B2 & k2 & Hk2 & Hrun2); [apply moved_ok; [done|lia]|]. cbn in B1, Hk2. split; [lia|]. split; [done|].
    exists (S (k1 + k2)). split; [lia|]. intros fuel outer. cbn [Nat.add fstring_steps]. rewrite E. cbn [mbind option_bind].
    rewrite <- Nat.add_assoc, Hrun1. apply Hrun2.
Qed.

Lemma opened_ok text start marker : (1 <= marker)%nat -> (start + marker <= length text)%nat -> frame_ok text (opened start marker).
Proof. intros. split; cbn; lia. Qed.

Lemma fstring_end_closes text start marker : (1 <= marker)%nat -> (start + marker <= length text)%nat ->
  exists e, fstring_end text start marker = Some e /\ (start < e <= length text)%nat /\ closes text (opened start marker) e.
Proof.
  intros H1 H2. pose proof (opened_ok text start marker H1 H2) as F. destruct (closes_total text _ F) as (e & Hc & He & _).
  exists e. destruct (steps_closes text _ e Hc F) as (_ & _ & k & Hk & Hrun). split; [|by split].
  unfold fstring_end. specialize (Hrun (2 * length text + 2 - k)%nat []). cbn in Hk.
  by replace (k + (2 * length text + 2 - k))%nat with (2 * length text + 2)%nat in Hrun by lia.
Qed.

(** What the scan of a literal or comment from its first character says of its end. *)
Definition literal_ends (text : str) (start e : nat) : Prop :=
  if bool_decide (text !! start = Some COMMENT) then
    (forall m, (start <= m < e)%nat -> text !! m <> Some c_lf) /\ (e = length text \/ text !! e = Some c_lf)
  else
    match literal_at text start with
    | Formatted marker => closes text (opened start marker) e
    | Plain marker => plain_literal text start marker e
    end.

Lemma literal_end_some text start c : text !! start = Some c -> c <> c_backslash ->
  exists e, literal_end text start = Some e /\ (start < e <= length text)%nat /\ literal_ends text start e.
Proof.
  intros Hc Hb. pose proof (lookup_lt_Some _ _ _ Hc) as Hlt. unfold literal_end, literal_ends. rewrite Hc. cbn [mbind option_bind].
  destruct (Z.eqb_spec c COMMENT) as [->|Hn].
  - rewrite bool_decide_true by done. pose proof (find_spec text [c_lf] start ltac:(lia)) as Hf.
    destruct (find text [c_lf] start) as [at_|]; cbn [default].
    + destruct Hf as (H1 & H2 & H3 & H4). apply prefix_single in H3. exists at_. split; [done|].
      assert (start <> at_) by (intros ->; rewrite Hc in H3; done). cbn in H2. split; [lia|].
      split; [|by right]. intros m Hm. rewrite <- prefix_single. apply H4. lia.
    + exists (length text). split; [done|]. split; [lia|]. split; [|by left]. intros m Hm. rewrite <- prefix_single. apply Hf. lia.
  - rewrite bool_decide_false by congruence. pose proof (literal_at_marker text start Hlt) as Hm.
    destruct (literal_at text start) as [m|m].
    + apply plain_end_spec; [done|by exists c|done].
    + cbn beta iota zeta in Hm. apply fstring_end_closes; unfold TRIPLE in *; lia.
Qed.

(** * The pieces of a text *)

(** A character outside every literal, or a literal or comment. *)
Inductive Piece := Char (c : char) | Whole (body : str).

Definition chars (p : Piece) : str := match p with Char c => [c] | Whole body => body end.

Definition opens_literal (c : char) : bool := among QUOTES c || (c =? COMMENT)%Z.

(** The pieces of the text from [i] on. *)
Inductive cuts (text : str) : nat -> list Piece -> Prop :=
| cuts_end : cuts text (length text) []
| cuts_char i c pieces : text !! i = Some c -> opens_literal c = false -> cuts text (i + 1) pieces -> cuts text i (Char c :: pieces)
| cuts_whole i e c pieces :
    text !! i = Some c -> opens_literal c = true -> (i < e <= length text)%nat -> literal_ends text i e -> cuts text e pieces ->
    cuts text i (Whole (take (e - i) (drop i text)) :: pieces).

Fixpoint depths_of (depth : Z) (pieces : list Piece) : list Z :=
  match pieces with
  | [] => []
  | Char c :: pieces =>
      if among OPENING c then (depth + 1)%Z :: depths_of (depth + 1) pieces
      else if among CLOSING c then depth :: depths_of (depth - 1) pieces
      else depth :: depths_of depth pieces
  | Whole body :: pieces => replicate (length body) INSIDE_STRING ++ depths_of depth pieces
  end.

Lemma cuts_text text i pieces : cuts text i pieces -> concat (map chars pieces) = drop i text.
Proof.
  induction 1 as [|i c ps Hc _ _ IH|i e c ps Hc _ He _ _ IH]; cbn.
  - by rewrite drop_all.
  - rewrite IH, Nat.add_1_r. by rewrite <- (drop_S _ _ _ Hc).
  - rewrite IH. replace e with (i + (e - i))%nat at 2 by lia. rewrite <- drop_drop. apply take_drop.
Qed.

Lemma length_depths_of d pieces : length (depths_of d pieces) = length (concat (map chars pieces)).
Proof.
  revert d. induction pieces as [|[c|body] ps IH]; intros d; cbn [depths_of map concat chars]; [done| |].
  - destruct (among OPENING c), (among CLOSING c); cbn; by rewrite IH.
  - by rewrite !length_app, length_replicate, IH.
Qed.

Lemma opens_not_backslash c : opens_literal c = true -> c <> c_backslash.
Proof. unfold opens_literal. intros [H%quote_not_backslash|H]%orb_true_iff; [done|]. apply Z.eqb_eq in H as ->. done. Qed.

(** What is set at the first place that is not decided yet. *)
Lemma insert_next (done_ : list Z) n v : <[length done_ := v]> (done_ ++ replicate (S n) 0%Z) = (done_ ++ [v]) ++ replicate n 0%Z.
Proof. rewrite <- (Nat.add_0_r (length done_)), insert_app_r, <- app_assoc. done. Qed.

Lemma fill_next (done_ : list Z) n k v : (k <= n)%nat ->
  fill (done_ ++ replicate n 0%Z) (length done_) (length done_ + k) v = Some ((done_ ++ replicate k v) ++ replicate (n - k) 0%Z).
Proof.
  intros Hk. unfold fill. rewrite (proj2 (Nat.leb_le _ _)) by lia. rewrite (proj2 (Nat.leb_le _ _)) by (rewrite length_app, length_replicate; lia).
  cbn [andb]. rewrite take_app_length. replace (length done_ + k - length done_)%nat with k by lia.
  rewrite <- drop_drop, drop_app_length, drop_replicate, app_assoc. done.
Qed.

Lemma structure_steps_spec fuel text index depth (done_ : list Z) :
  length done_ = index -> (index <= length text)%nat -> (length text - index < fuel)%nat ->
  exists pieces, cuts text index pieces /\
    structure_steps fuel text index depth (done_ ++ replicate (length text - index) 0%Z) = Some (done_ ++ depths_of depth pieces).
Proof.
  revert index depth done_. induction fuel as [|fuel IH]; intros index depth done_ Hd Hi Hf; [lia|]. cbn [structure_steps].
  destruct (text !! index) as [c|] eqn:Ec.
  2: { apply lookup_ge_None in Ec. replace index with (length text) by lia. exists []. split; [constructor|].
    by rewrite Nat.sub_diag. }
  pose proof (lookup_lt_Some _ _ _ Ec) as Hlt. change (among QUOTES c || (c =? COMMENT)%Z) with (opens_literal c).
  destruct (opens_literal c) eqn:Eo.
  - destruct (literal_end_some text index c Ec (opens_not_backslash c Eo)) as (e & -> & He & Hends). cbn [mbind option_bind].
    pose proof (fill_next done_ (length text - index) (e - index) INSIDE_STRING ltac:(lia)) as Hfill.
    replace (length done_ + (e - index))%nat with e in Hfill by lia. rewrite Hd in Hfill. rewrite Hfill. cbn [mbind option_bind].
    destruct (IH e depth (done_ ++ replicate (e - index) INSIDE_STRING)) as (pieces & Hc & Hrun); [rewrite length_app, length_replicate; lia|lia|lia|].
    exists (Whole (take (e - index) (drop index text)) :: pieces). split; [by eapply cuts_whole|].
    replace (length text - index - (e - index))%nat with (length text - e)%nat by lia. rewrite Hrun, <- app_assoc. cbn [depths_of].
    rewrite length_take, length_drop. by rewrite Nat.min_l by lia.
  - assert (forall d v, exists pieces, cuts text (index + 1) pieces /\
      structure_steps fuel text (index + 1) d (<[index := v]> (done_ ++ replicate (length text - index) 0%Z)) =
        Some (done_ ++ v :: depths_of d pieces)) as Hnext.
    { intros d v. replace (length text - index)%nat with (S (length text - (index + 1))) by lia. 
      pose proof (insert_next done_ (length text - (index + 1)) v) as Hins. rewrite Hd in Hins. rewrite Hins.
      destruct (IH (index + 1)%nat d (done_ ++ [v])) as (pieces & Hc & Hrun); [rewrite length_app; cbn; lia|lia|lia|].
      exists pieces. split; [done|]. rewrite Hrun, <- app_assoc. done. }
    destruct (among OPENING c) eqn:E1; [|destruct (among CLOSING c) eqn:E2].
    + destruct (Hnext (depth + 1)%Z (depth + 1)%Z) as (ps & Hc & Hrun). exists (Char c :: ps). split; [by apply cuts_char|].
      rewrite Hrun. cbn [depths_of]. by rewrite E1.
    + destruct (Hnext (depth - 1)%Z depth) as (ps & Hc & Hrun). exists (Char c :: ps). split; [by apply cuts_char|].
      rewrite Hrun. cbn [depths_of]. by rewrite E1, E2.
    + destruct (Hnext depth depth) as (ps & Hc & Hrun). exists (Char c :: ps). split; [by apply cuts_char|].
      rewrite Hrun. cbn [depths_of]. by rewrite E1, E2.
Qed.

Lemma structure_pieces text : exists pieces, cuts text 0 pieces /\ structure text = Some (depths_of 0 pieces).
Proof.
  destruct (structure_steps_spec (S (length text)) text 0 0 []) as (pieces & Hc & Hrun); [done|lia|lia|].
  exists pieces. split; [done|]. unfold structure. by rewrite Nat.sub_0_r in Hrun.
Qed.

(** ** Brackets that match *)

(** The pieces close [n] brackets and, in themselves, each bracket that they open. *)
Inductive balanced : nat -> list Piece -> Prop :=
| balanced_end : balanced 0 []
| balanced_whole n body pieces : balanced n pieces -> balanced n (Whole body :: pieces)
| balanced_open n c pieces : among OPENING c = true -> balanced (S n) pieces -> balanced n (Char c :: pieces)
| balanced_close n c pieces : among CLOSING c = true -> balanced n pieces -> balanced (S n) (Char c :: pieces)
| balanced_char n c pieces : among OPENING c = false -> among CLOSING c = false -> balanced n pieces -> balanced n (Char c :: pieces).

Definition text_of (pieces : list Piece) : str := concat (map chars pieces).

(** The depth after the pieces. *)
Fixpoint after (depth : Z) (pieces : list Piece) : Z :=
  match pieces with
  | [] => depth
  | Char c :: pieces => after (if among OPENING c then depth + 1 else if among CLOSING c then depth - 1 else depth) pieces
  | Whole _ :: pieces => after depth pieces
  end.

Lemma text_of_app l1 l2 : text_of (l1 ++ l2) = text_of l1 ++ text_of l2.
Proof. unfold text_of. by rewrite map_app, concat_app. Qed.

Lemma depths_of_app d l1 l2 : depths_of d (l1 ++ l2) = depths_of d l1 ++ depths_of (after d l1) l2.
Proof.
  revert d. induction l1 as [|[c|body] l1 IH]; intros d; cbn [app depths_of after]; [done| |by rewrite IH, app_assoc].
  destruct (among OPENING c), (among CLOSING c); cbn; by rewrite IH.
Qed.

(** A search over places, as a search over what stands there. *)
Lemma find_places {A} (P : A -> bool) (l : list A) n (f : nat -> bool) :
  (forall i, f (n + i)%nat = from_option P false (l !! i)) -> List.find f (seq n (length l)) = Nat.add n <$> position P l.
Proof.
  revert n f. induction l as [|x l IH]; intros n f Hf; [done|]. cbn [length seq List.find position].
  pose proof (Hf 0%nat) as H0. rewrite Nat.add_0_r in H0. rewrite H0. cbn. destruct (P x); [cbn; by rewrite Nat.add_0_r|].
  rewrite (IH (S n) f); [|intros i; transitivity (f (n + S i)%nat); [f_equal; lia|exact (Hf (S i))]]. destruct (position P l); [|done]. cbn. f_equal. lia.
Qed.

Lemma lookup_zip_with_pair (l : str) (k : list Z) i : zip l k !! i = (x ← l !! i; y ← k !! i; Some (x, y)).
Proof. apply lookup_zip_with. Qed.

Definition closes_at (d : Z) (cell : char * Z) : bool := among CLOSING cell.1 && bool_decide (cell.2 = d).

Lemma opening_not_closing c : among OPENING c = true -> among CLOSING c = false.
Proof.
  unfold among. rewrite bool_decide_eq_true, bool_decide_eq_false.
  change OPENING with [40; 91; 123]%Z. change CLOSING with [41; 93; 125]%Z. rewrite !elem_of_cons, !elem_of_nil. lia.
Qed.

(** The first closing bracket at the depth is the one that matches. *)
Lemma first_close d pieces n : d <> INSIDE_STRING ->
  (forall mid c post, pieces = mid ++ Char c :: post -> among CLOSING c = true -> balanced n mid ->
    position (closes_at d) (zip (text_of pieces) (depths_of (d + Z.of_nat n) pieces)) = Some (length (text_of mid))) /\
  (forall j, position (closes_at d) (zip (text_of pieces) (depths_of (d + Z.of_nat n) pieces)) = Some j ->
    exists mid c post, pieces = mid ++ Char c :: post /\ among CLOSING c = true /\ balanced n mid /\ j = length (text_of mid)).
Proof.
  intros Hd. revert n. induction pieces as [|[c|body] ps IH]; intros n.
  { split; [by intros [|] ? ? [=]|done]. }
  - assert (forall v n', (closes_at d (c, v) = false) ->
      (forall mid, balanced n' mid -> balanced n (Char c :: mid)) ->
      (forall mid, balanced n (Char c :: mid) -> balanced n' mid) -> (among CLOSING c = true -> n <> O) ->
      depths_of (d + Z.of_nat n) (Char c :: ps) = v :: depths_of (d + Z.of_nat n') ps ->
      (forall mid c' post, Char c :: ps = mid ++ Char c' :: post -> among CLOSING c' = true -> balanced n mid ->
        position (closes_at d) (zip (text_of (Char c :: ps)) (depths_of (d + Z.of_nat n) (Char c :: ps))) = Some (length (text_of mid))) /\
      (forall j, position (closes_at d) (zip (text_of (Char c :: ps)) (depths_of (d + Z.of_nat n) (Char c :: ps))) = Some j ->
        exists mid c' post, Char c :: ps = mid ++ Char c' :: post /\ among CLOSING c' = true /\ balanced n mid /\ j = length (text_of mid))) as Hstep.
    { intros v n' Hv Hin Hout Hn ->. change (text_of (Char c :: ps)) with (c :: text_of ps). cbn [zip_with position]. rewrite Hv.
      destruct (IH n') as [IH1 IH2]. split.
      - intros [|p mid] c' post E Hc Hb; [injection E as <- _; inversion Hb; subst; by destruct (Hn Hc)|].
        injection E as <- E. rewrite (IH1 mid c' post E Hc (Hout _ Hb)). done.
      - intros j Hj. apply fmap_Some in Hj as (j' & Hj & ->). destruct (IH2 j' Hj) as (mid & c' & post & -> & Hc & Hb & ->).
        exists (Char c :: mid), c', post. split; [done|]. split; [done|]. split; [by apply Hin|done]. }
    destruct (among OPENING c) eqn:E1; [|destruct (among CLOSING c) eqn:E2].
    + pose proof (opening_not_closing c E1) as E2. apply (Hstep (d + Z.of_nat n + 1)%Z (S n)).
      * unfold closes_at. cbn. by rewrite E2.
      * intros mid Hb. by apply balanced_open.
      * intros mid Hb. inversion Hb; subst; congruence.
      * congruence.
      * cbn [depths_of]. rewrite E1. do 2 f_equal. lia.
    + destruct n as [|n].
      * change (text_of (Char c :: ps)) with (c :: text_of ps). cbn [depths_of]. rewrite E1, E2. cbn [zip_with position].
        assert (closes_at d (c, d + Z.of_nat 0)%Z = true) as ->.
        { unfold closes_at. cbn. rewrite E2. cbn. apply bool_decide_eq_true. lia. }
        split.
        -- intros [|p mid] c' post E Hc Hb; [done|]. injection E as <- E. inversion Hb; subst; congruence.
        -- intros j [= <-]. exists [], c, ps. split; [done|]. split; [done|]. split; [constructor|done].
      * apply (Hstep (d + Z.of_nat (S n))%Z n).
        -- unfold closes_at. cbn. rewrite E2. cbn. apply bool_decide_eq_false. lia.
        -- intros mid Hb. by apply balanced_close.
        -- intros mid Hb. inversion Hb; subst; congruence.
        -- done.
        -- cbn [depths_of]. rewrite E1, E2. do 2 f_equal. lia.
    + apply (Hstep (d + Z.of_nat n)%Z n).
      * unfold closes_at. cbn. by rewrite E2.
      * intros mid Hb. by apply balanced_char.
      * intros mid Hb. inversion Hb; subst; congruence.
      * congruence.
      * cbn [depths_of]. by rewrite E1, E2.
  - destruct (IH n) as [IH1 IH2]. change (text_of (Whole body :: ps)) with (body ++ text_of ps). cbn [depths_of].
    rewrite zip_with_app by (by rewrite length_replicate).
    rewrite position_app_false, length_zip_with, length_replicate, Nat.min_id.
    2: { apply Forall_lookup. intros i [x y] Hxy. rewrite lookup_zip_with_pair in Hxy. destruct (body !! i); [|done]. cbn in Hxy.
      destruct (replicate _ _ !! i) as [w|] eqn:Ez; [|done]. injection Hxy as <- <-. apply lookup_replicate in Ez as [-> _].
      unfold closes_at. cbn. rewrite bool_decide_false by congruence. apply andb_false_r. }
    split.
    + intros [|p mid] c' post E Hc Hb; [done|]. injection E as <- E. inversion Hb; subst.
      rewrite (IH1 mid c' post eq_refl Hc) by done. change (text_of (Whole body :: mid)) with (body ++ text_of mid). by rewrite length_app.
    + intros j Hj. apply fmap_Some in Hj as (j' & Hj & ->). destruct (IH2 j' Hj) as (mid & c' & post & -> & Hc & Hb & ->).
      exists (Whole body :: mid), c', post. split; [done|]. split; [done|]. split; [by apply balanced_whole|].
      change (text_of (Whole body :: mid)) with (body ++ text_of mid). by rewrite length_app.
Qed.

Lemma inner_span_balanced pre o rest inner :
  among OPENING o = true -> (after 0 pre + 1 <> INSIDE_STRING)%Z ->
  let pieces := pre ++ Char o :: rest in
  inner_span (text_of pieces) (depths_of 0 pieces) (length (text_of pre)) = Some inner <->
  exists mid c post, rest = mid ++ Char c :: post /\ among CLOSING c = true /\ balanced 0 mid /\ inner = text_of mid.
Proof.
  intros Ho Hd pieces. set (d := (after 0 pre + 1)%Z) in *.
  assert (text_of pieces = text_of pre ++ o :: text_of rest) as Etext by (unfold pieces; by rewrite text_of_app).
  assert (depths_of 0 pieces = depths_of 0 pre ++ d :: depths_of d rest) as Edepths.
  { unfold pieces. rewrite depths_of_app. cbn [depths_of]. by rewrite Ho. }
  assert (length (depths_of 0 pre) = length (text_of pre)) as Hpre by apply length_depths_of.
  assert (length (depths_of d rest) = length (text_of rest)) as Hrest by apply length_depths_of.
  unfold inner_span. rewrite Etext, Edepths. rewrite lookup_app_r, Hpre, Nat.sub_diag by lia. cbn [mbind option_bind lookup list_lookup].
  rewrite (proj2 (Z.eqb_neq d INSIDE_STRING)) by done. set (n := (length (text_of pre) + 1)%nat).
  assert (drop n (text_of pre ++ o :: text_of rest) = text_of rest) as Edrop.
  { unfold n. rewrite <- drop_drop, drop_app_length. done. }
  assert (length (text_of pre ++ o :: text_of rest) - n = length (zip (text_of rest) (depths_of d rest)))%nat as ->.
  { rewrite length_zip_with, Hrest, Nat.min_id, length_app. unfold n. cbn. lia. }
  rewrite (find_places (closes_at d)).
  2: { intros i. rewrite lookup_zip_with_pair, !lookup_app_r by (unfold n; lia). rewrite Hpre. unfold n.
    replace (length (text_of pre) + 1 + i - length (text_of pre))%nat with (S i) by lia.
    change ((o :: text_of rest) !! S i) with (text_of rest !! i). change ((d :: depths_of d rest) !! S i) with (depths_of d rest !! i).
    destruct (text_of rest !! i) as [c|] eqn:Ec; [|done]. cbn [mbind option_bind].
    destruct (lookup_lt_is_Some_2 (depths_of d rest) i) as [x Ex]; [rewrite Hrest; by apply lookup_lt_Some in Ec|].
    rewrite Ex. cbn. unfold closes_at. cbn. f_equal. apply bool_decide_ext. split; [by intros [= ->]|by intros ->]. }
  destruct (first_close d rest 0 Hd) as [H1 H2]. rewrite Z.add_0_r in H1, H2. rewrite Edrop.
  destruct (position (closes_at d) _) as [j|] eqn:Ej; cbn [fmap option_fmap option_map mbind option_bind].
  - destruct (H2 j eq_refl) as (mid & c & post & -> & Hc & Hb & ->). fold n.
    replace (n + length (text_of mid) - n)%nat with (length (text_of mid)) by lia.
    rewrite text_of_app, take_app_length. split.
    + intros [= <-]. by exists mid, c, post.
    + intros (mid' & c' & post' & E & Hc' & Hb' & ->). pose proof (H1 mid' c' post' E Hc' Hb') as [= Hl].
      assert (text_of mid ++ text_of (Char c :: post) = text_of mid' ++ text_of (Char c' :: post')) as Et by (by rewrite <- !text_of_app, E).
      by apply app_inj_1 in Et as [<- _].
  - split; [done|]. intros (mid & c & post & E & Hc & Hb & _). by pose proof (H1 mid c post E Hc Hb).
Qed.

(** ** Commas *)

Definition is_comma (d : Z) (p : Piece) : bool :=
  match p with Char c => (c =? c_comma)%Z && (d =? 0)%Z | Whole _ => false end.

(** The pieces between the commas outside every bracket, string and comment. *)
Fixpoint segments (d : Z) (pieces : list Piece) : list (list Piece) :=
  match pieces with
  | [] => [[]]
  | p :: pieces =>
      if is_comma d p then [] :: segments d pieces
      else match segments (after d [p]) pieces with s :: ss => (p :: s) :: ss | [] => [[p]] end
  end.

Lemma segments_cons d pieces : exists s ss, segments d pieces = s :: ss.
Proof.
  revert d. induction pieces as [|p ps IH]; intros d; cbn [segments]; [eauto|]. destruct (is_comma d p); [eauto|].
  destruct (segments _ ps); eauto.
Qed.

Section Split.
Context (text : str) (depths : list Z).

Definition split_step (acc : list str * nat) (cell : nat * char) : list str * nat :=
  if (cell.2 =? c_comma)%Z && bool_decide (depths !! cell.1 = Some 0%Z)
  then (acc.1 ++ [trimmed (take (cell.1 - acc.2) (drop acc.2 text))], S cell.1) else acc.

(** The parts still to come, the first of them after the text from [start] on. *)
Definition rest_parts (d : Z) (current : str) (pieces : list Piece) : list str :=
  match segments d pieces with
  | s :: ss => trimmed (current ++ text_of s) :: map (fun s => trimmed (text_of s)) ss
  | [] => []
  end.

Lemma split_skip parts start (body : str) index :
  (forall j, j < length body -> depths !! (index + j)%nat <> Some 0%Z) ->
  foldl split_step (parts, start) (imap (fun j c => ((index + j)%nat, c)) body) = (parts, start).
Proof.
  revert index. induction body as [|c body IH]; intros index H; [done|]. cbn [imap foldl]. rewrite Nat.add_0_r.
  unfold split_step at 2. cbn [fst snd]. rewrite bool_decide_false by (specialize (H O); rewrite Nat.add_0_r in H; apply H; cbn; lia).
  rewrite andb_false_r.
  transitivity (foldl split_step (parts, start) (imap (fun j c => ((S index + j)%nat, c)) body)); [|apply IH].
  - f_equal. apply imap_ext. intros j x _. cbn. f_equal. lia.
  - intros j Hj. replace (S index + j)%nat with (index + S j)%nat by lia. apply H. cbn. lia.
Qed.

Lemma split_fold pieces d done_ current parts :
  text = done_ ++ current ++ text_of pieces -> length depths = length text ->
  drop (length done_ + length current) depths = depths_of d pieces ->
  let '(parts', start) := foldl split_step (parts, length done_)
    (imap (fun j c => ((length done_ + length current + j)%nat, c)) (text_of pieces)) in
  parts' ++ [trimmed (drop start text)] = parts ++ rest_parts d current pieces.
Proof.
  revert d done_ current parts. induction pieces as [|p ps IH]; intros d done_ current parts Htext Hlen Hdepths.
  { cbn. rewrite Htext. cbn. rewrite drop_app_length, app_nil_r. done. }
  assert (forall j, depths !! (length done_ + length current + j)%nat = depths_of d (p :: ps) !! j) as Hl.
  { intros j. by rewrite <- Hdepths, lookup_drop. }
  destruct p as [c|body].
  - change (text_of (Char c :: ps)) with (c :: text_of ps) in *. cbn [imap foldl]. rewrite Nat.add_0_r.
    pose proof (Hl 0%nat) as H0. rewrite Nat.add_0_r in H0.
    assert (depths_of d (Char c :: ps) = (if among OPENING c then d + 1 else d)%Z :: depths_of (after d [Char c]) ps) as Ed.
    { cbn [depths_of after]. by destruct (among OPENING c), (among CLOSING c). }
    assert ((c =? c_comma)%Z && bool_decide (depths !! (length done_ + length current)%nat = Some 0%Z) = is_comma d (Char c)) as Ecomma.
    { cbn. destruct (Z.eqb_spec c c_comma) as [->|]; [|done]. rewrite H0, Ed. cbn. apply eq_bool_prop_intro. rewrite bool_decide_spec.
      rewrite Is_true_true, Z.eqb_eq. split; [by intros [= ->]|by intros ->]. }
    assert (drop (S (length done_ + length current)) depths = depths_of (after d [Char c]) ps) as Hnext.
    { rewrite <- Nat.add_1_r, <- drop_drop, Hdepths, Ed. done. }
    assert (imap ((fun j x => ((length done_ + length current + j)%nat, x)) ∘ S) (text_of ps) =
      imap (fun j x => ((S (length done_ + length current) + j)%nat, x)) (text_of ps)) as ->.
    { apply imap_ext. intros j x _. cbn. f_equal. lia. }
    unfold split_step at 2, rest_parts. cbn [fst snd segments]. rewrite Ecomma. destruct (is_comma d (Char c)) eqn:Ec.
    + assert (after d [Char c] = d) as Ea.
      { cbn in Ec. apply andb_true_iff in Ec as [->%Z.eqb_eq _]. done. }
      rewrite Ea in *. specialize (IH d (done_ ++ current ++ [c]) [] (parts ++ [trimmed current])).
      rewrite !length_app in IH. cbn [length] in IH. rewrite Nat.add_0_r in IH.
      replace (length done_ + (length current + 1))%nat with (S (length done_ + length current)) in IH by lia.
      replace (take (length done_ + length current - length done_) (drop (length done_) text)) with current.
      2: { rewrite Htext, drop_app_length. replace (length done_ + length current - length done_)%nat with (length current) by lia. by rewrite take_app_length. }
      destruct (foldl split_step _ _) as [parts' start]. rewrite IH; [|by rewrite Htext, <- !app_assoc|done|done].
      rewrite <- app_assoc. f_equal. unfold rest_parts. destruct (segments_cons d ps) as (s & ss & ->). cbn. by rewrite app_nil_r.
    + specialize (IH (after d [Char c]) done_ (current ++ [c]) parts). rewrite length_app in IH. cbn [length] in IH.
      replace (length done_ + (length current + 1))%nat with (S (length done_ + length current)) in IH by lia.
      destruct (foldl split_step _ _) as [parts' start]. rewrite IH; [|by rewrite Htext, <- !app_assoc|done|done].
      f_equal. unfold rest_parts. destruct (segments_cons (after d [Char c]) ps) as (s & ss & ->).
      by rewrite <- app_assoc.
  - change (text_of (Whole body :: ps)) with (body ++ text_of ps) in *. rewrite imap_app, foldl_app. cbn [depths_of] in *.
    rewrite split_skip.
    2: { intros j Hj. rewrite Hl, lookup_app_l, lookup_replicate_2 by (rewrite ?length_replicate; lia). done. }
    specialize (IH d done_ (current ++ body) parts). rewrite length_app, Nat.add_assoc in IH.
    assert (imap (fun n x => ((length done_ + length current + (length body + n))%nat, x)) (text_of ps) =
      imap (fun j x => ((length done_ + length current + length body + j)%nat, x)) (text_of ps)) as ->.
    { apply imap_ext. intros j x _. cbn. f_equal. lia. }
    destruct (foldl split_step _ _) as [parts' start]. rewrite IH.
    + unfold rest_parts. cbn [segments is_comma]. f_equal. destruct (segments_cons (after d [Whole body]) ps) as (s & ss & E).
      rewrite E. cbn [after] in E. rewrite E. by rewrite <- app_assoc.
    + by rewrite Htext, <- !app_assoc.
    + done.
    + rewrite <- drop_drop, Hdepths. rewrite <- (length_replicate (length body) INSIDE_STRING) at 1. by rewrite drop_app_length.
Qed.
End Split.

Lemma split_top_level_segments text pieces : cuts text 0 pieces -> structure text = Some (depths_of 0 pieces) ->
  split_top_level text = Some (map (fun s => trimmed (text_of s)) (segments 0 pieces)).
Proof.
  intros Hc Hs. pose proof (cuts_text _ _ _ Hc) as Ht. rewrite drop_0 in Ht. fold (text_of pieces) in Ht.
  unfold split_top_level. rewrite Hs. cbn [mbind option_bind].
  pose proof (split_fold text (depths_of 0 pieces) pieces 0 [] [] []) as H. cbn [length app] in H. rewrite Ht in H.
  assert (foldl (fun '(parts, start) '(index, c) =>
      if (c =? c_comma)%Z && bool_decide (depths_of 0 pieces !! index = Some 0%Z)
      then (parts ++ [trimmed (take (index - start) (drop start text))], S index) else (parts, start)) ([], 0) (imap pair text) =
    foldl (split_step text (depths_of 0 pieces)) ([], 0) (imap (fun j c => ((0 + 0 + j)%nat, c)) text)) as ->.
  { change (imap (fun j c => ((0 + 0 + j)%nat, c)) text) with (imap pair text).
    assert (forall l acc, foldl (fun '(parts, start) '(index, c) =>
      if (c =? c_comma)%Z && bool_decide (depths_of 0 pieces !! index = Some 0%Z)
      then (parts ++ [trimmed (take (index - start) (drop start text))], S index) else (parts, start)) acc l =
      foldl (split_step text (depths_of 0 pieces)) acc l) as Hl; [|apply Hl].
    induction l as [|[i c] l IH]; intros [parts start]; [done|]. cbn [foldl]. rewrite IH. f_equal. }
  destruct (foldl _ _ _) as [parts' start]. rewrite H; [|done|rewrite length_depths_of; by fold (text_of pieces); rewrite Ht|done].
  unfold rest_parts. by destruct (segments_cons 0 pieces) as (s & ss & ->).
Qed.

Lemma structure_total text : exists depths, structure text = Some depths.
Proof. destruct (structure_pieces text) as (pieces & _ & ->). by eexists. Qed.

Lemma split_top_level_total text : exists parts, split_top_level text = Some parts.
Proof. destruct (structure_pieces text) as (pieces & Hc & Hs). rewrite (split_top_level_segments text pieces Hc Hs). by eexists. Qed.

Lemma any_opt_total {A} (f : A -> option bool) l : (forall x, is_Some (f x)) -> is_Some (any_opt f l).
Proof. intros Hf. induction l as [|x l IH]; [by eexists|]. cbn. destruct (Hf x) as [b ->]. cbn. by destruct b. Qed.

Lemma count_opt_total {A} (f : A -> option bool) l : (forall x, is_Some (f x)) -> is_Some (count_opt f l).
Proof. intros Hf. induction l as [|x l [n IH]]; [by eexists|]. cbn. destruct (Hf x) as [b ->]. cbn. rewrite IH. by destruct b. Qed.

Lemma keyword_total text : is_Some (names_keyword_argument text).
Proof. unfold names_keyword_argument. destruct (structure_total text) as [depths ->]. by eexists. Qed.

(** The readers of calls and signatures answer every text. *)
Lemma readers_total text depths offset :
  is_Some (positional_arguments text depths offset) /\ is_Some (parameter_shape text) /\ is_Some (signature_names text).
Proof.
  assert (forall s, is_Some (holds_top_level_lambda s)) as Hlambda.
  { intros s. unfold holds_top_level_lambda. destruct (structure_total s) as [d ->]. by eexists. }
  split; [|split].
  - unfold positional_arguments. destruct (inner_span _ _ _) as [inner|]; [|by eexists].
    destruct (Hlambda inner) as [[] ->]; [by eexists|]. cbn [mbind option_bind]. destruct (split_top_level_total inner) as [parts ->]. cbn [mbind option_bind].
    case_bool_decide; [by eexists|].
    destruct (any_opt_total (fun part => if unreadable part then Some true else names_keyword_argument part) parts) as [b ->].
    { intros part. destruct (unreadable part); [by eexists|apply keyword_total]. }
    cbn [mbind option_bind]. by destruct b.
  - unfold parameter_shape, parameter_list. destruct (starts_with _ _); [by eexists|].
    destruct (position _ _) as [opening|]; [|by eexists]. destruct (structure_total (strip text)) as [d ->]. cbn [mbind option_bind].
    destruct (inner_span _ _ _) as [inner|]; [|by eexists]. case_bool_decide; [by eexists|].
    destruct (Hlambda inner) as [[] ->]; [by eexists|]. cbn [mbind option_bind]. destruct (split_top_level_total inner) as [parts ->]. cbn [mbind option_bind].
    destruct (any _ _); [by eexists|].
    destruct (count_opt_total (fun part => negb <$> names_keyword_argument part)
      (List.filter (fun part => negb (bool_decide (part = POSITIONAL_ONLY))) parts)) as [n ->]; [|by eexists].
    intros part. destruct (keyword_total part) as [b ->]. by eexists.
  - unfold signature_names. destruct (position _ _) as [opening|]; [|by eexists]. destruct (structure_total text) as [d ->]. cbn [mbind option_bind].
    destruct (inner_span _ _ _) as [inner|]; [|by eexists]. destruct (split_top_level_total inner) as [parts ->]. by eexists.
Qed.

(** The end of a string or comment is found in every text, past its first character.  A comment runs
    to the line break.  A one-line string runs over escapes to its quote or a line break, a
    triple-quoted one to its first closing quotes.  The stack of f-strings ends where the recursion
    into their replacement fields ends. *)
Theorem literal_end_exact text start c (Hc : text !! start = Some c) (Ho : opens_literal c = true) :
  exists e, literal_end text start = Some e /\ (start < e <= length text)%nat /\ literal_ends text start e.
Proof. apply (literal_end_some _ _ c Hc), opens_not_backslash, Ho. Qed.

(** An f-string with a string in a nested field. *)
Lemma literal_end_exact_witness :
  let text := lit "f'{f'{x}'}' + y" in
  text !! 1%nat = Some c_squote /\ opens_literal c_squote = true /\ literal_end text 1 = Some 11%nat /\ closes text (opened 1 1) 11.
Proof.
  intros text. assert (text !! 1%nat = Some c_squote) as H1 by reflexivity. assert (opens_literal c_squote = true) as H2 by reflexivity.
  assert (literal_end text 1 = Some 11%nat) as H3 by (vm_compute; reflexivity).
  split; [exact H1|]. split; [exact H2|]. split; [exact H3|].
  destruct (literal_end_exact text 1 c_squote H1 H2) as (e & He & _ & Hends). rewrite H3 in He. injection He as <-.
  unfold literal_ends in Hends. rewrite bool_decide_false in Hends by discriminate.
  assert (literal_at text 1 = Formatted 1) as Hl by (vm_compute; reflexivity). rewrite Hl in Hends. exact Hends.
Defined.

(** The scan of a text cuts it into literals, comments and the characters between them.  The
    depths count the brackets opened before each character and mark literals; the span of an opening
    bracket is the text to the closing bracket that matches it; the parts of a text are those
    between the commas outside every bracket, string and comment. *)
Theorem structure_exact text :
  exists pieces, cuts text 0 pieces /\ text_of pieces = text /\ structure text = Some (depths_of 0 pieces) /\
    (forall pre o rest inner, pieces = pre ++ Char o :: rest -> among OPENING o = true -> (after 0 pre + 1 <> INSIDE_STRING)%Z ->
      inner_span text (depths_of 0 pieces) (length (text_of pre)) = Some inner <->
      exists mid c post, rest = mid ++ Char c :: post /\ among CLOSING c = true /\ balanced 0 mid /\ inner = text_of mid) /\
    split_top_level text = Some (map (fun s => trimmed (text_of s)) (segments 0 pieces)).
Proof.
  destruct (structure_pieces text) as (pieces & Hc & Hs). pose proof (cuts_text _ _ _ Hc) as Ht. rewrite drop_0 in Ht. fold (text_of pieces) in Ht.
  exists pieces. split; [done|]. split; [done|]. split; [done|]. split.
  - intros pre o rest inner -> Ho Hd. rewrite <- Ht. by apply inner_span_balanced.
  - by apply split_top_level_segments.
Qed.
