(* ===== verification/FactValues.v ===== *)
(** The values that the extraction of a file gives, and the languages: crates/facts/src/values.rs,
    crates/syntax/src/language.rs with its generated tables, and the scanned file of
    crates/graph/src/scan.rs. *)

From S2P Require Import Prelude RustStr Text.

(** * Languages: language.rs and generated/languages.rs *)

Inductive Language :=
| Bash | C | Cpp | Csharp | Go | Hcl | Java | Javascript | Json | Kotlin | Lua | Php | Python | Ruby | Rust | Scala | Sql | Swift
| Toml | Tsx | Typescript | Yaml.

#[export] Instance Language_eq_dec : EqDecision Language.
Proof. solve_decision. Defined.

Definition ALL : list Language :=
  [Bash; C; Cpp; Csharp; Go; Hcl; Java; Javascript; Json; Kotlin; Lua; Php; Python; Ruby; Rust; Scala; Sql; Swift; Toml; Tsx;
   Typescript; Yaml].

Inductive ImportRule := Generic | PythonImports | RustUses | Include | Require | Source | NoImports.

#[export] Instance ImportRule_eq_dec : EqDecision ImportRule.
Proof. solve_decision. Defined.

(** The rows of the generated tables that the graph reads. *)
Definition language_name (l : Language) : str :=
  match l with
  | Bash => lit "bash"
  | C => lit "c"
  | Cpp => lit "cpp"
  | Csharp => lit "csharp"
  | Go => lit "go"
  | Hcl => lit "hcl"
  | Java => lit "java"
  | Javascript => lit "javascript"
  | Json => lit "json"
  | Kotlin => lit "kotlin"
  | Lua => lit "lua"
  | Php => lit "php"
  | Python => lit "python"
  | Ruby => lit "ruby"
  | Rust => lit "rust"
  | Scala => lit "scala"
  | Sql => lit "sql"
  | Swift => lit "swift"
  | Toml => lit "toml"
  | Tsx => lit "tsx"
  | Typescript => lit "typescript"
  | Yaml => lit "yaml"
  end.

Definition prefix (l : Language) : str :=
  match l with
  | Bash => lit "sh"
  | C => lit "c"
  | Cpp => lit "cpp"
  | Csharp => lit "cs"
  | Go => lit "go"
  | Hcl => lit "hcl"
  | Java => lit "java"
  | Javascript => lit "js"
  | Json => lit "json"
  | Kotlin => lit "kt"
  | Lua => lit "lua"
  | Php => lit "php"
  | Python => lit "py"
  | Ruby => lit "rb"
  | Rust => lit "rs"
  | Scala => lit "scala"
  | Sql => lit "sql"
  | Swift => lit "swift"
  | Toml => lit "toml"
  | Tsx => lit "tsx"
  | Typescript => lit "ts"
  | Yaml => lit "yaml"
  end.

Definition import_rule (l : Language) : ImportRule :=
  match l with
  | Bash => Source
  | C | Cpp => Include
  | Csharp | Go | Java | Javascript | Kotlin | Php | Scala | Swift | Tsx | Typescript => Generic
  | Hcl | Json | Sql | Toml | Yaml => NoImports
  | Lua | Ruby => Require
  | Python => PythonImports
  | Rust => RustUses
  end.

Definition EXTENSIONS : list (str * Language) :=
  [(lit ".bash", Bash); (lit ".c", C); (lit ".cc", Cpp); (lit ".cjs", Javascript); (lit ".cpp", Cpp);
   (lit ".cs", Csharp); (lit ".cxx", Cpp); (lit ".go", Go); (lit ".h", C); (lit ".hcl", Hcl);
   (lit ".hpp", Cpp); (lit ".hxx", Cpp); (lit ".java", Java); (lit ".js", Javascript); (lit ".json", Json);
   (lit ".kt", Kotlin); (lit ".kts", Kotlin); (lit ".lua", Lua); (lit ".mjs", Javascript); (lit ".php", Php);
   (lit ".py", Python); (lit ".rb", Ruby); (lit ".rs", Rust); (lit ".scala", Scala); (lit ".sh", Bash);
   (lit ".sql", Sql); (lit ".swift", Swift); (lit ".tf", Hcl); (lit ".toml", Toml); (lit ".ts", Typescript);
   (lit ".tsx", Tsx); (lit ".yaml", Yaml); (lit ".yml", Yaml)].

Definition from_name (name : str) : option Language := List.find (fun l => bool_decide (language_name l = name)) ALL.

(** [Path::file_name]: the last component, but not [..]. *)
Definition file_name (path : str) : option str :=
  match last (List.filter PosixPath.is_posix_part (split_char c_slash path)) with
  | Some name => if bool_decide (name = lit "..") then None else Some name
  | None => None
  end.

(** [EXTENSIONS] is sorted, so its binary search finds the row of a suffix. *)
Definition from_path (path : str) : option Language :=
  name ← file_name path;
  let suffix := (PosixPath.split_suffix name).2 in
  if bool_decide (suffix = []) then None
  else snd <$> List.find (fun row => bool_decide (row.1 = suffix)) EXTENSIONS.

Definition family (l : Language) : Language :=
  match l with
  | Tsx | Typescript => Javascript
  | Cpp => C
  | Kotlin | Scala => Java
  | other => other
  end.

(** * Facts: values.rs *)

Inductive SymbolKind := Class | Function | Method | Constant | TypeAlias | Protocol | Dataclass | Enum | Decorator.

Inductive RationaleKind := Note | Why | Hack | Todo | Citation.

Record Rationale := { rationale_kind : RationaleKind; rationale_text : str; rationale_line : Z; citations : list str; rationale_index : Z }.

Record Marks := { protocol : bool; test : bool }.

Record Symbol := {
  sym_name : str; kind : SymbolKind; sym_line : Z; sym_end_line : Z; name_line : Z; signature : str; parent : str; decorated : bool;
  bases : list str; is_public : bool; rationales : list Rationale; duplicate_index : Z; marks : Marks
}.

Inductive Runs := Load | Call | TypeOnly.

#[export] Instance Runs_eq_dec : EqDecision Runs.
Proof. solve_decision. Defined.

Record Import := {
  module : str; names : list str; local_names : list str; is_relative : bool; relative_level : Z; import_line : Z; binds_all : bool;
  alias : str; inline_depth : Z; runs : Runs
}.

Inductive Role :=
| Reference | Local | Binding | Declaration | ImportRole | Attribute | ModuleQualifier | ModuleAttribute | Keyword | Builtin.

#[export] Instance Role_eq_dec : EqDecision Role.
Proof. solve_decision. Defined.

Record Ref := { name : str; line : Z; role : Role; qualifier : str }.

Record Manifest := { package : str; lib_name : option str; lib_path : option str }.

(** The error spans, which nothing here reads, are left out. *)
Record Facts := { symbols : list Symbol; imports : list Import; refs : list Ref; manifest : option Manifest; modules : list str }.

Definition qualified (owner name : str) : str := if bool_decide (owner = []) then name else owner ++ [c_dot] ++ name.

Definition qualname (s : Symbol) : str := qualified (parent s) (sym_name s).

(** Each member with the local name that it binds. *)
Definition bound_names (i : Import) : list (str * str) :=
  zip (names i) (if bool_decide (local_names i = []) then names i else local_names i).

Definition is_reference (r : Ref) : bool := bool_decide (role r = Reference).
Definition is_resolvable (r : Ref) : bool := bool_decide (role r = Reference \/ role r = ModuleAttribute).

(** * A scanned file: graph/src/scan.rs *)

Record FileFacts := { path : str; language : Language; line_count : Z; facts : Facts }.

Definition joins_name_graph (l : Language) : bool := match l with Json | Toml | Yaml => false | _ => true end.

Definition in_name_graph (file : FileFacts) : bool := joins_name_graph (language file).

(** The tables have no row twice, so a search for a row's key finds the row. *)
Example EXTENSIONS_keys : NoDup (map fst EXTENSIONS).
Proof. apply (bool_decide_unpack _). vm_compute. exact I. Qed.

Example from_path_python : from_path (lit "src/a.b/mod.py/.") = Some Python /\ from_path (lit ".py") = None /\ from_path (lit "a.py/..") = None.
Proof. vm_compute. auto. Qed.
