(* ===== verification/StableId.v ===== *)
(** Stable ids of symbols: crates/facts/src/stable_id.rs.

    An id is the text prefix:path::qualname, where the qualified names that a file repeats carry
    ordinals.  [stable_id_exact] shows which texts are ids, and [ids_distinct] that the symbols of a
    file get distinct ones, in the order of their lines. *)

From S2P Require Import Prelude RustStr Text CodePoints FactValues.

#[local] Open Scope rs_scope.
#[local] Open Scope Z_scope.

Definition QUALNAME_SEPARATOR : str := lit "::".
Definition RATIONALE_MARKER : str := lit "::rationale@".
Definition ORDINAL_MAX_DIGITS : nat := 6.

Definition c_colon : char := 58.
Definition c_hash : char := 35.

Record StableId := { id_prefix : str; id_path : str; id_qual : str }.

Inductive StableIdError := RationaleHandle (text : str) | Malformed (text : str).

Definition quoted_text (text : str) : str := quoted_str text.

Definition error_text (e : StableIdError) : str :=
  match e with
  | RationaleHandle text =>
      lit "not a stable id: " ++ quoted_text text ++
      lit "; this is a rationale handle, which names a comment rather than a symbol. Expand the symbol it hangs off instead."
  | Malformed text =>
      lit "not a stable id: " ++ quoted_text text ++
      lit "; expected <langprefix>:<relpath>::<qualname>, for example py:src/app/svc.py::Invoice.total"
  end.

(** [Symbol::id_qualname]. *)
Definition id_qualname (s : Symbol) : str :=
  if duplicate_index s =? 0 then qualname s else qualname s ++ [c_hash] ++ dec_text (duplicate_index s + 1).

Definition of_symbol (language : Language) (path : str) (s : Symbol) : StableId :=
  {| id_prefix := prefix language; id_path := path; id_qual := id_qualname s |}.

Definition to_string (id : StableId) : str := id_prefix id ++ [c_colon] ++ id_path id ++ QUALNAME_SEPARATOR ++ id_qual id.

(** [str::split_once] of a text. *)
Definition split_once_str (p s : str) : option (str * str) := (fun at_ => (take at_ s, drop (at_ + length p) s)) <$> find_str p s.

Definition is_control (c : char) : bool := (c <=? 0x1f) || (c =? 0x7f).

Definition well_formed (part : str) : bool := negb (bool_decide (strip part = [])) && negb (any is_control part).

Definition parts (text : str) : option StableId :=
  '(prefix, rest) ← split_once c_colon text;
  '(path, qualname) ← split_once_str QUALNAME_SEPARATOR rest;
  if forallb well_formed [prefix; path; qualname] then Some {| id_prefix := prefix; id_path := path; id_qual := qualname |} else None.

Definition parse (text : str) : result StableId StableIdError :=
  if contains RATIONALE_MARKER text then Err (RationaleHandle text)
  else match parts text with Some id => Ok id | None => Err (Malformed text) end.

(** ** Ordinals *)

(** [str::parse] to a [u32], which takes one plus sign. *)
Definition parse_u32 (s : str) : option Z :=
  let digits := default s (strip_prefix [43] s) in
  if negb (bool_decide (digits = [])) && all is_ascii_digit digits && (value_of 10 (map (fun c => c - 48) digits) <? 2 ^ 32)
  then Some (value_of 10 (map (fun c => c - 48) digits)) else None.

Definition strip_lf (tail : str) : str :=
  match last tail with Some c => if c =? c_lf then removelast tail else tail | None => tail end.

Definition split_ordinal (qualname : str) : str * Z :=
  match rposition (is_char c_hash) qualname with
  | None => (qualname, 0)
  | Some hash =>
      let digits := strip_lf (drop (hash + 1) qualname) in
      let ordinal := if (1 <=? utf8_len digits)%nat && (utf8_len digits <=? ORDINAL_MAX_DIGITS)%nat then parse_u32 digits else None in
      match ordinal with
      | Some ordinal => if all is_ascii_digit digits then (take hash qualname, Z.max 0 (ordinal - 1)) else (qualname, 0)
      | None => (qualname, 0)
      end
  end.

Definition rationale_handle (language : Language) (path : str) (s : Symbol) (r : Rationale) : str :=
  let id := to_string (of_symbol language path s) in
  id ++ RATIONALE_MARKER ++ dec_text (rationale_line r)
     ++ (if rationale_index r =? 0 then [] else [c_hash] ++ dec_text (rationale_index r + 1)).

Definition with_index (s : Symbol) (index : Z) : Symbol :=
  {| sym_name := sym_name s; kind := kind s; sym_line := sym_line s; sym_end_line := sym_end_line s; name_line := name_line s;
     signature := signature s; parent := parent s; decorated := decorated s; bases := bases s; is_public := is_public s;
     rationales := rationales s; duplicate_index := index; marks := marks s |}.

Definition line_at (symbols : list Symbol) (position : nat) : Z := from_option sym_line 0 (symbols !! position).

Definition number (acc : list Symbol * gmap str Z) (position : nat) : list Symbol * gmap str Z :=
  let '(symbols, seen) := acc in
  match symbols !! position with
  | Some s =>
      let count := default 0 (seen !! qualname s) in
      (<[position := with_index s count]> symbols, <[qualname s := count + 1]> seen)
  | None => acc
  end.

Definition order_of (symbols : list Symbol) : list nat :=
  sort_by (fun a b => line_at symbols a <=? line_at symbols b) (seq 0 (length symbols)).

Definition disambiguate (symbols : list Symbol) : list Symbol := (foldl number (symbols, ∅) (order_of symbols)).1.

(** * Which texts are ids *)

Lemma split_once_Some c s a b : split_once c s = Some (a, b) <-> char_free c a /\ s = a ++ c :: b.
Proof.
  split; [|intros [Ha ->]; by apply split_once_free]. revert a b. induction s as [|d s IH]; intros a b; [done|]. cbn [split_once].
  destruct (is_char c d) eqn:Ed; [apply is_char_true in Ed as ->; intros [= <- <-]; split; [constructor|done]|].
  destruct (split_once c s) as [[a' b']|]; [|done]. intros [= <- <-]. destruct (IH _ _ eq_refl) as [Ha ->]. by split; [constructor|].
Qed.

Lemma double_prefix {A} `{EqDecision A} (c : A) m s : [c; c] `prefix_of` drop m s <-> s !! m = Some c /\ s !! S m = Some c.
Proof.
  rewrite <- (Nat.add_0_r m) at 2. rewrite <- (Nat.add_1_r m), <- !lookup_drop. split.
  - intros [r E]. by rewrite E.
  - destruct (drop m s) as [|x [|y r]]; cbn; [by intros []..|]. intros [[= ->] [= ->]]. by exists r.
Qed.

Lemma double_contained {A} `{EqDecision A} (c : A) s : contains [c; c] s = true <-> exists m, s !! m = Some c /\ s !! S m = Some c.
Proof.
  rewrite contains_spec. split.
  - intros (l & r & ->). exists (length l). apply double_prefix. rewrite drop_app_length. by exists r.
  - intros (m & H). apply double_prefix in H as [r E]. exists (take m s), r. by rewrite <- E, take_drop.
Qed.

(** A text is split at its first double. *)
Lemma split_once_double c s a b :
  split_once_str [c; c] s = Some (a, b) <-> contains [c; c] (a ++ [c]) = false /\ s = a ++ [c; c] ++ b.
Proof.
  unfold split_once_str. rewrite fmap_Some. split.
  - intros (n & (Hp & Hn & Hfirst)%find_str_Some & [= -> ->]). destruct Hp as [r E]. rewrite <- drop_drop, E. cbn [length drop app].
    split; [|by rewrite <- (take_drop n s) at 1; rewrite E]. apply not_true_iff_false. rewrite double_contained. intros (m & H1 & H2).
    assert (m < n)%nat as Hm by (apply lookup_lt_Some in H2; rewrite length_app, length_take in H2; cbn in H2; lia).
    apply (Hfirst m Hm), double_prefix. assert (s = take n s ++ [c] ++ c :: r) as Es by (rewrite <- (take_drop n s) at 1; by rewrite E).
    rewrite Es, app_assoc. split; apply lookup_app_l_Some; done.
  - intros [Hno ->]. exists (length a). split; [|by rewrite take_app_length, <- drop_drop, drop_app_length].
    apply find_str_Some. split; [rewrite drop_app_length; by exists b|]. rewrite length_app. split; [lia|].
    intros m Hm H. apply not_true_iff_false in Hno. apply Hno, double_contained. exists m. apply double_prefix in H as [H1 H2].
    change ([c; c] ++ b) with ([c] ++ c :: b) in H1, H2. rewrite app_assoc in H1, H2.
    rewrite lookup_app_l in H1, H2 by (rewrite length_app; cbn; lia). done.
Qed.

(** The parts of an id that its text separates. *)
Definition id_ok (id : StableId) : Prop :=
  char_free c_colon (id_prefix id) /\ contains QUALNAME_SEPARATOR (id_path id ++ [c_colon]) = false /\
  Forall (fun part => well_formed part = true) [id_prefix id; id_path id; id_qual id] /\ contains RATIONALE_MARKER (to_string id) = false.

Lemma stable_id_parts text :
  (forall id, parse text = Ok id <-> id_ok id /\ text = to_string id) /\
  (parse text = Err (RationaleHandle text) <-> contains RATIONALE_MARKER text = true) /\
  (forall e, parse text = Err e -> e = RationaleHandle text \/ e = Malformed text).
Proof.
  assert (forall id, parts text = Some id <-> (char_free c_colon (id_prefix id) /\
    contains QUALNAME_SEPARATOR (id_path id ++ [c_colon]) = false /\
    forallb well_formed [id_prefix id; id_path id; id_qual id] = true) /\ text = to_string id) as Hparts.
  { intros [p q n]. unfold parts, to_string. cbn [id_prefix id_path id_qual]. split.
    - rewrite bind_Some. intros ([p' rest] & [Hp ->]%split_once_Some & H). rewrite bind_Some in H.
      destruct H as ([q' n'] & [Hq ->]%split_once_double & H). destruct (forallb _ _) eqn:Hf; [|done]. injection H as <- <- <-. done.
    - intros [(Hp & Hq & Hf) ->]. change ([c_colon] ++ q ++ QUALNAME_SEPARATOR ++ n) with (c_colon :: q ++ QUALNAME_SEPARATOR ++ n). rewrite (proj2 (split_once_Some _ _ p (q ++ QUALNAME_SEPARATOR ++ n)) (conj Hp eq_refl)). cbn [mbind option_bind].
      assert (split_once_str QUALNAME_SEPARATOR (q ++ QUALNAME_SEPARATOR ++ n) = Some (q, n)) as -> by by apply (split_once_double c_colon).
      cbn [mbind option_bind]. by rewrite Hf. }
  unfold parse, id_ok. destruct (contains RATIONALE_MARKER text) eqn:Hm.
  - split; [|split; [done|]]; [|intros e [= <-]; by left]. intros id. split; [done|]. intros [(_ & _ & _ & H) E]. congruence.
  - split; [|split]; [|by destruct (parts text)|destruct (parts text); [done|]; intros e [= <-]; by right].
    intros id. specialize (Hparts id). rewrite Forall_forall. setoid_rewrite list_elem_of_In. rewrite <- forallb_forall.
    destruct (parts text) as [found|]; split.
    + intros [= ->]. destruct Hparts as [(H1 & E) _]; [done|]. rewrite <- E. tauto.
    + intros [(H1 & H2 & H3 & _) E]. destruct Hparts as [_ H]. by injection H as ->; [|tauto].
    + done.
    + intros [(H1 & H2 & H3 & _) E]. destruct Hparts as [_ H]. discriminate H. tauto.
Qed.

(** A text is an id exactly when it is the id's own text, its parts hold no separator, no control
    character and not only spaces, and it is no handle; a handle is refused as such. *)
Theorem stable_id_exact text :
  (forall id, parse text = Ok id <-> id_ok id /\ text = to_string id) /\
  (parse text = Err (RationaleHandle text) <-> contains RATIONALE_MARKER text = true) /\
  (forall e, parse text = Err e -> e = RationaleHandle text \/ e = Malformed text).
Proof. exact (stable_id_parts text). Qed.

(** * The ordinals of repeated names *)

Section Numbered.
Context (symbols : list Symbol).

Definition same (q : str) (j : nat) : bool := from_option (fun s => bool_decide (qualname s = q)) false (symbols !! j).

(** The symbols among those places that have a qualified name. *)
Definition namesakes (q : str) (places : list nat) : Z := Z.of_nat (length (List.filter (same q) places)).

Lemma namesakes_snoc q places j s : symbols !! j = Some s ->
  namesakes q (places ++ [j]) = namesakes q places + (if bool_decide (qualname s = q) then 1 else 0).
Proof.
  intros Hj. unfold namesakes. rewrite List.filter_app, length_app. cbn [List.filter]. unfold same at 2. rewrite Hj. cbn [from_option].
  case_bool_decide; cbn [length]; lia.
Qed.

Lemma number_fold places : NoDup places -> Forall (fun j => j < length symbols)%nat places ->
  let '(out, seen) := foldl number (symbols, ∅) places in
  length out = length symbols /\ (forall q, default 0 (seen !! q) = namesakes q places) /\ (forall i, i ∉ places -> out !! i = symbols !! i) /\
  (forall l1 i l2 s, places = l1 ++ i :: l2 -> symbols !! i = Some s -> out !! i = Some (with_index s (namesakes (qualname s) l1))).
Proof.
  induction places as [|i places IH] using rev_ind; intros Hn Hf.
  { cbn. split; [done|]. split; [intros q; by rewrite lookup_empty|]. split; [done|]. intros [|? ?] ? ? ? [=]. }
  apply NoDup_app in Hn as (Hn & Hd & _).
  assert (i ∉ places) as Hnot by (intros Hin; apply (Hd i Hin); by left). clear Hd. apply Forall_app in Hf as [Hf Hi]. apply Forall_cons in Hi as [Hi _].
  rewrite foldl_app. cbn [foldl]. specialize (IH Hn Hf). destruct (foldl number (symbols, ∅) places) as [out seen].
  destruct IH as (Hl & Hc & Hrest & Hd). unfold number. rewrite (Hrest i Hnot). apply lookup_lt_is_Some in Hi as [s Hs]. rewrite Hs. rewrite Hc.
  split; [by rewrite length_insert|]. split; [|split].
  - intros q. rewrite (namesakes_snoc q places i s Hs). case_bool_decide as E; [subst; by rewrite lookup_insert_eq|].
    rewrite lookup_insert_ne by done. rewrite Hc. lia.
  - intros j Hj. rewrite not_elem_of_app, list_elem_of_singleton in Hj. destruct Hj as [Hj Hne]. rewrite list_lookup_insert_ne by congruence. by apply Hrest.
  - intros l1 j l2 s' E Hj. destruct l2 as [|x l2] using rev_ind.
    + apply app_inj_tail in E as [-> ->]. rewrite Hs in Hj. injection Hj as <-.
      rewrite list_lookup_insert_eq; [done|]. rewrite Hl. by apply lookup_lt_Some in Hs.
    + clear IHl2. rewrite app_comm_cons, app_assoc in E. apply app_inj_tail in E as [-> <-]. rewrite list_lookup_insert_ne; [by apply (Hd l1 j l2)|].
      intros ->. apply Hnot, elem_of_app. right. left.
Qed.

Lemma order_perm : order_of symbols ≡ₚ seq 0 (length symbols).
Proof. apply sort_by_perm. Qed.

Lemma disambiguate_spec : let out := disambiguate symbols in
  length out = length symbols /\
  forall l1 i l2 s, order_of symbols = l1 ++ i :: l2 -> symbols !! i = Some s -> out !! i = Some (with_index s (namesakes (qualname s) l1)).
Proof.
  cbn zeta. unfold disambiguate. pose proof (number_fold (order_of symbols)) as H.
  destruct (foldl number _ _) as [out seen]. destruct H as (Hl & _ & _ & H).
  - rewrite order_perm. apply NoDup_seq.
  - rewrite order_perm. apply Forall_seq. lia.
  - done.
Qed.

(** Of two symbols with one qualified name, the one that comes first in the order has the smaller index. *)
Lemma namesakes_grow q l1 i l2 j l3 : same q i = true -> namesakes q l1 < namesakes q (l1 ++ i :: l2 ++ j :: l3) /\
  namesakes q l1 < namesakes q (l1 ++ i :: l2).
Proof.
  intros Hs. unfold namesakes. rewrite !List.filter_app. cbn [List.filter]. rewrite Hs. rewrite !length_app. cbn [length]. lia.
Qed.
End Numbered.

(** ** Ordinals in texts *)

Lemma digits_text n : 0 <= n -> let digits := dec_text n in
  digits <> [] /\ Forall (fun c => is_ascii_digit c = true) digits /\ value_of 10 (map (fun c => c - 48) digits) = n.
Proof.
  intros Hn. destruct (digits_of_spec 10 n ltac:(lia) Hn) as (Hne & Hv & Hf & _). unfold dec_text. split; [|split].
  - by destruct (digits_of 10 n).
  - apply Forall_fmap. eapply Forall_impl; [exact Hf|]. intros d Hd. cbn in Hd |- *. unfold is_ascii_digit. apply andb_true_iff. split; apply Z.leb_le; lia.
  - rewrite <- Hv at 2. f_equal. rewrite List.map_map. rewrite <- (List.map_id (digits_of 10 n)) at 2. apply List.map_ext. intros; lia.
Qed.

Lemma hash_free_digits n : 0 <= n -> Forall (fun c => is_char c_hash c = false) (dec_text n).
Proof.
  intros Hn. destruct (digits_text n Hn) as (_ & Hf & _). eapply Forall_impl; [exact Hf|]. cbn. intros c. unfold is_ascii_digit, is_char, c_hash. rewrite andb_true_iff, !Z.leb_le. intros. apply Z.eqb_neq. lia.
Qed.

Lemma strip_lf_digits ds : Forall (fun c => is_ascii_digit c = true) ds -> strip_lf ds = ds.
Proof.
  intros H. unfold strip_lf. destruct (last ds) as [c|] eqn:E; [|done]. rewrite Forall_forall in H. specialize (H c (last_Some_elem_of _ _ E)).
  cbn in H. unfold is_ascii_digit, c_lf in *. rewrite andb_true_iff, !Z.leb_le in H. destruct (Z.eqb_spec c 10); [lia|done].
Qed.

Lemma ascii_len ds : Forall (fun c => is_ascii_digit c = true) ds -> utf8_len ds = length ds.
Proof.
  induction 1 as [|c ds Hc _ IH]; [done|]. change (utf8_len (c :: ds)) with (utf8_width c + utf8_len ds)%nat. rewrite IH.
  unfold utf8_width. assert (48 <= c <= 57) by (unfold is_ascii_digit in Hc; rewrite andb_true_iff, !Z.leb_le in Hc; done). destruct (Z.ltb_spec c 0x80); cbn [length]; lia.
Qed.

Lemma parse_digits n : 0 <= n < 2 ^ 32 -> parse_u32 (dec_text n) = Some n.
Proof.
  intros Hn. destruct (digits_text n) as (Hne & Hf & Hv); [lia|]. unfold parse_u32.
  assert (default (dec_text n) (strip_prefix [43] (dec_text n)) = dec_text n) as ->.
  { destruct (dec_text n) as [|c r]; [done|]. apply Forall_cons in Hf as [Hc _]. cbn [strip_prefix].
    unfold is_ascii_digit in Hc. rewrite andb_true_iff, !Z.leb_le in Hc. by rewrite decide_False by lia. }
  rewrite Hv, bool_decide_false by done. rewrite (proj2 (all_spec _ _) Hf). cbn [negb andb].
  by rewrite (proj2 (Z.ltb_lt n (2 ^ 32))) by lia.
Qed.

(** A name with an ordinal of at most six digits splits into the name and the ordinal. *)
Lemma split_ordinal_text base n : 0 <= n < 999999 -> split_ordinal (base ++ [c_hash] ++ dec_text (n + 1)) = (base, n).
Proof.
  intros Hn. unfold split_ordinal. destruct (digits_text (n + 1)) as (Hne & Hf & Hv); [lia|].
  change ([c_hash] ++ dec_text (n + 1)) with (c_hash :: dec_text (n + 1)).
  rewrite rposition_last by (done || by apply hash_free_digits; lia).
  rewrite <- drop_drop, drop_app_length, take_app_length. change (drop 1 (c_hash :: ?l)) with l. rewrite (strip_lf_digits _ Hf), (ascii_len _ Hf).
  assert (length (dec_text (n + 1)) <= 6)%nat as Hlen.
  { unfold dec_text. rewrite length_fmap. apply length_digits_of; [lia..|]. change (10 ^ Z.of_nat 6) with 1000000. lia. }
  assert (1 <= length (dec_text (n + 1)))%nat by (destruct (dec_text (n + 1)); [done|cbn; lia]).
  rewrite (proj2 (Nat.leb_le 1 _)), (proj2 (Nat.leb_le _ ORDINAL_MAX_DIGITS)) by done. cbn [andb].
  rewrite parse_digits by lia.
  rewrite (proj2 (all_spec _ _) Hf). f_equal. lia.
Qed.

Lemma split_ordinal_free base : char_free c_hash base -> split_ordinal base = (base, 0).
Proof.
  intros H. unfold split_ordinal. assert (rposition (is_char c_hash) base = None) as ->; [|done].
  induction H as [|c base Hc _ IH]; [done|]. cbn. by rewrite IH, Hc.
Qed.

(** ** The ids of a file *)

(** The symbol at [j] comes before the one at [i]: by line, then by place. *)
Definition before (symbols : list Symbol) (j i : nat) : bool :=
  (line_at symbols j <? line_at symbols i) || ((line_at symbols j =? line_at symbols i) && (j <? i)%nat).

Lemma order_before symbols : StronglySorted (fun a b => before symbols a b = true) (order_of symbols).
Proof.
  pose proof (sort_by_lex (fun a b => line_at symbols a <=? line_at symbols b)) as H.
  eapply sorted_weaken; [|apply H with (R := fun a b => (a < b)%nat)].
  - intros a b _ _. cbn. unfold before. intros [Hab Hba]. apply Z.leb_le in Hab. destruct (Z.ltb_spec (line_at symbols a) (line_at symbols b)); [done|].
    assert (line_at symbols a = line_at symbols b) as E by lia. rewrite E, Z.eqb_refl in *. cbn. apply Nat.ltb_lt, Hba, Z.leb_le. lia.
  - intros x y. rewrite !Z.leb_le. lia.
  - intros x y z. rewrite !Z.leb_le. lia.
  - generalize 0%nat. induction (length symbols) as [|n IH]; intros k; [constructor|]. cbn. constructor; [apply IH|]. apply Forall_seq. lia.
Qed.

Lemma before_irrefl symbols i : before symbols i i = false.
Proof. unfold before. rewrite Z.ltb_irrefl, Nat.ltb_irrefl. by rewrite andb_false_r. Qed.

Lemma before_asym symbols i j : before symbols i j = true -> before symbols j i = false.
Proof. unfold before. rewrite orb_true_iff, orb_false_iff, andb_true_iff, andb_false_iff, !Z.ltb_lt, !Z.ltb_ge, Z.eqb_eq, Z.eqb_neq, Nat.ltb_lt, Nat.ltb_ge. lia. Qed.

(** How many symbols of the file come before the one at [i] under its name. *)
Definition earlier (symbols : list Symbol) (q : str) (i : nat) : Z :=
  namesakes symbols q (List.filter (fun j => before symbols j i) (seq 0 (length symbols))).

Lemma namesakes_earlier symbols q l1 i l2 : order_of symbols = l1 ++ i :: l2 -> namesakes symbols q l1 = earlier symbols q i.
Proof.
  intros E. unfold earlier, namesakes. f_equal. rewrite filter_filter_comm. set (p := List.filter (same symbols q)).
  assert (p (seq 0 (length symbols)) ≡ₚ p (order_of symbols)) as Hp by (subst p; by rewrite order_perm).
  pose proof (order_before symbols) as Hs. rewrite E in Hs. apply StronglySorted_app in Hs as (H12 & _ & H2).
  assert (List.filter (fun j => before symbols j i) (order_of symbols) = l1) as Hl.
  { rewrite E, List.filter_app. cbn [List.filter]. rewrite before_irrefl, filter_all, filter_none; [by rewrite app_nil_r| |].
    - inversion H2 as [|? ? _ Hf]; subst. eapply Forall_impl; [exact Hf|]. intros j. apply before_asym.
    - apply Forall_forall. intros j Hj. apply H12; [done|left]. }
  rewrite <- Hl at 1. subst p. rewrite filter_filter_comm. by rewrite Hp.
Qed.

Lemma NoDup_split_unique {A} (l l1 l1' l2 l2' : list A) x : NoDup l -> l = l1 ++ x :: l2 -> l = l1' ++ x :: l2' -> l1 = l1'.
Proof.
  intros Hn -> E. assert (length l1 = length l1') as Hl.
  { eapply (NoDup_lookup _ _ _ x Hn); [by apply list_lookup_middle|rewrite E; by apply list_lookup_middle]. }
  by apply app_inj_1 in E as [-> _].
Qed.

(** ** Ids as texts *)

Lemma split_index s n : char_free c_hash (qualname s) -> 0 <= n < 999999 -> split_ordinal (id_qualname (with_index s n)) = (qualname s, n).
Proof.
  intros Hf Hn. unfold id_qualname. cbn [duplicate_index with_index]. change (qualname (with_index s n)) with (qualname s).
  destruct (Z.eqb_spec n 0) as [->|]; [by apply split_ordinal_free|by apply split_ordinal_text].
Qed.

Lemma char_free_app_inj c a b x y : char_free c a -> char_free c b -> a ++ c :: x = b ++ c :: y -> a = b /\ x = y.
Proof. intros Ha Hb E. pose proof (split_once_free c a x Ha) as H. rewrite E, split_once_free in H by done. by injection H as -> ->. Qed.

(** Distinct names, or distinct indices of one name, have distinct texts. *)
Lemma id_qualname_inj s t m n : char_free c_hash (qualname s) -> char_free c_hash (qualname t) -> 0 <= m -> 0 <= n ->
  id_qualname (with_index s m) = id_qualname (with_index t n) -> qualname s = qualname t /\ m = n.
Proof.
  intros Hs Ht Hm Hn. unfold id_qualname. cbn [duplicate_index with_index].
  change (qualname (with_index s m)) with (qualname s). change (qualname (with_index t n)) with (qualname t).
  assert (forall q r x, char_free c_hash q -> q <> r ++ [c_hash] ++ x) as Hno.
  { intros q r x H ->. apply Forall_app in H as [_ H]. apply Forall_cons in H as [H _]. by rewrite is_char_refl in H. }
  destruct (Z.eqb_spec m 0) as [->|], (Z.eqb_spec n 0) as [->|]; intros E; try done.
  - by apply Hno in E.
  - symmetry in E. by apply Hno in E.
  - apply char_free_app_inj in E as [-> E]; [|done..]. split; [done|].
    destruct (digits_text (m + 1)) as (_ & _ & Vm), (digits_text (n + 1)) as (_ & _ & Vn); [lia..|]. rewrite E in Vm. lia.
Qed.

Lemma before_total symbols i j : i <> j -> before symbols i j = true \/ before symbols j i = true.
Proof. unfold before. rewrite !orb_true_iff, !andb_true_iff, !Z.ltb_lt, !Z.eqb_eq, !Nat.ltb_lt. lia. Qed.

Lemma order_split symbols i : (i < length symbols)%nat -> exists l1 l2, order_of symbols = l1 ++ i :: l2.
Proof. intros Hi. apply list_elem_of_split. rewrite order_perm. apply elem_of_seq. lia. Qed.

Lemma earlier_lt symbols q i j : same symbols q i = true -> before symbols i j = true -> (i < length symbols)%nat -> (j < length symbols)%nat ->
  earlier symbols q i < earlier symbols q j.
Proof.
  intros Hs Hb Hi Hj. destruct (order_split symbols i Hi) as (k1 & k2 & Ei), (order_split symbols j Hj) as (l1 & l2 & E).
  rewrite <- (namesakes_earlier _ _ _ _ _ E), <- (namesakes_earlier _ _ _ _ _ Ei).
  pose proof (order_before symbols) as Hso. rewrite E in Hso. apply StronglySorted_app in Hso as (_ & _ & Hso).
  assert (i ∈ l1) as Hin.
  { assert (i ∈ order_of symbols) as Hin by (rewrite Ei; apply elem_of_app; right; left). rewrite E in Hin.
    apply elem_of_app in Hin as [|[->|Hin]%elem_of_cons]; [done|by rewrite before_irrefl in Hb|]. inversion Hso as [|? ? _ Hf]; subst.
    rewrite Forall_forall in Hf. apply Hf in Hin. by rewrite (before_asym symbols i j Hb) in Hin. }
  apply list_elem_of_split in Hin as (m1 & m2 & ->). rewrite <- app_assoc in E.
  assert (NoDup (order_of symbols)) as Hn by (rewrite order_perm; apply NoDup_seq).
  assert (m1 = k1) as <- by (eapply (NoDup_split_unique (order_of symbols)); eauto). by apply namesakes_grow.
Qed.

(** The symbols of a file keep their places; each gets as its index the number of those before it,
    by line and then by place, under its qualified name.  When no name holds the ordinal's mark
    their ids are distinct, and up to 999 999 namesakes an id splits into the name and the index. *)
Theorem ids_distinct symbols : let out := disambiguate symbols in
  length out = length symbols /\
  (forall i s, symbols !! i = Some s -> out !! i = Some (with_index s (earlier symbols (qualname s) i))) /\
  (Forall (fun s => char_free c_hash (qualname s)) symbols -> NoDup (map id_qualname out) /\
   forall i s, symbols !! i = Some s -> earlier symbols (qualname s) i < 999999 ->
     split_ordinal (id_qualname (with_index s (earlier symbols (qualname s) i))) = (qualname s, earlier symbols (qualname s) i)).
Proof.
  cbn zeta. destruct (disambiguate_spec symbols) as [Hl H]. split; [done|].
  assert (forall i s, symbols !! i = Some s -> exists l1 l2, order_of symbols = l1 ++ i :: l2) as Hsplit.
  { intros i s Hi. apply order_split. by apply lookup_lt_Some in Hi. }
  assert (forall i s, symbols !! i = Some s -> disambiguate symbols !! i = Some (with_index s (earlier symbols (qualname s) i))) as Hat.
  { intros i s Hi. destruct (Hsplit i s Hi) as (l1 & l2 & E). rewrite (H l1 i l2 s E Hi). by rewrite (namesakes_earlier _ _ _ _ _ E). }
  split; [done|]. intros Hfree. rewrite Forall_forall in Hfree.
  assert (forall i s, symbols !! i = Some s -> char_free c_hash (qualname s)) as Hname by (intros i s Hi; by eapply Hfree, list_elem_of_lookup_2).
  split; [|intros i s Hi Hn; by apply split_index; [eapply Hname|unfold earlier, namesakes in *; lia]].
  apply NoDup_alt. intros i j q. rewrite !list_lookup_fmap, !fmap_Some. intros (si & Hi & ->) (sj & Hj & E).
  assert (forall k s, disambiguate symbols !! k = Some s -> is_Some (symbols !! k)) as Hsome
    by (intros k s Hk; apply lookup_lt_is_Some; rewrite <- Hl; by apply lookup_lt_Some in Hk).
  destruct (Hsome i si Hi) as [ti Hti], (Hsome j sj Hj) as [tj Htj]. rewrite (Hat i ti Hti) in Hi. rewrite (Hat j tj Htj) in Hj.
  injection Hi as <-. injection Hj as <-. apply id_qualname_inj in E as [Eq En]; [|by eapply Hname|by eapply Hname|unfold earlier, namesakes; lia|unfold earlier, namesakes; lia].
  destruct (decide (i = j)) as [|Hne]; [done|exfalso].
  destruct (before_total symbols i j Hne) as [Hb|Hb].
  - pose proof (earlier_lt symbols (qualname ti) i j). rewrite Eq in *. assert (same symbols (qualname tj) i = true) as Hs.
    { unfold same. rewrite Hti. cbn. by apply bool_decide_eq_true. }
    specialize (H0 Hs Hb (lookup_lt_Some _ _ _ Hti) (lookup_lt_Some _ _ _ Htj)). lia.
  - pose proof (earlier_lt symbols (qualname ti) j i). rewrite Eq in *. assert (same symbols (qualname tj) j = true) as Hs.
    { unfold same. rewrite Htj. cbn. by apply bool_decide_eq_true. }
    specialize (H0 Hs Hb (lookup_lt_Some _ _ _ Htj) (lookup_lt_Some _ _ _ Hti)). lia.
Qed.

(** Two functions of one name and a third between them: the first keeps the plain id. *)
Example ordinals : let symbol name line := {| sym_name := lit name; kind := Function; sym_line := line; sym_end_line := line; name_line := line;
    signature := []; parent := lit "C"; decorated := false; bases := []; is_public := true; rationales := []; duplicate_index := 0;
    marks := {| protocol := false; test := false |} |} in
  map id_qualname (disambiguate [symbol "f" 9; symbol "g" 4; symbol "f" 2]) = [lit "C.f#2"; lit "C.g"; lit "C.f"] /\
  parse (lit "py:a/b.py::C.f#2") = Ok {| id_prefix := lit "py"; id_path := lit "a/b.py"; id_qual := lit "C.f#2" |} /\
  split_ordinal (lit "f#1000000") = (lit "f#1000000", 0).
Proof. vm_compute. auto. Qed.
