(* ===== verification/ModulePaths.v ===== *)
(** POSIX path rules of import resolution: crates/graph/src/paths.rs.

    [normpath_exact] shows that a normalised path is what cancelling its parts gives, and
    [path_index_exact] that the sorted list of paths and the table of tails answer what their
    definitions over all scanned paths say.  Strings are ordered by code points, which is the order
    of their UTF-8 bytes. *)

From S2P Require Import Prelude RustStr Ordered Text.
Import PosixPath PosixPathFacts.

#[local] Open Scope rs_scope.
#[local] Open Scope nat_scope.

Definition PACKAGE_ENTRY_STEMS : list str := [lit "__init__"; lit "index"].

Definition DOTDOT : str := lit "..".

(** * Normal paths *)

Definition keep_part (anchor : str) (kept : list str) (part : str) : list str :=
  if negb (is_posix_part part) then kept
  else
    let climbs := bool_decide (part = DOTDOT) in
    if negb climbs || (bool_decide (anchor = []) && bool_decide (kept = [])) || bool_decide (last kept = Some DOTDOT)
    then kept ++ [part] else removelast kept.

Definition kept_parts (path : str) : list str := foldl (keep_part (posix_anchor path)) [] (split_char c_slash path).

Definition normpath (path : str) : str :=
  if bool_decide (path = []) then lit "."
  else
    let joined := posix_anchor path ++ join_with [c_slash] (kept_parts path) in
    if bool_decide (joined = []) then lit "." else joined.

Definition normalized (path : str) : str :=
  let collapsed := normpath path in
  if bool_decide (collapsed = lit ".") then [] else collapsed.

Definition stem (path : str) : str := render (without_suffix (parse path)).

Definition module_stems (path : str) : list str :=
  let full := stem path in
  full :: match rsplit_once c_slash full with
          | Some (head, last) => if bool_decide (last ∈ PACKAGE_ENTRY_STEMS) then [head] else []
          | None => []
          end.

(** [str::replace] of a character by a character. *)
Definition replace_char (from to : char) (s : str) : str := map (fun c => if is_char from c then to else c) s.

Definition module_tail (module : str) : option str :=
  let tail := replace_char c_dot c_slash module in
  if any (is_char c_slash) tail then Some tail else None.

(** * The index of paths *)

Record PathIndex := { paths : list str; by_tail : gmap str str }.

Definition str_lt (a b : str) : bool := negb (bytes_le b a).

Definition shorter (path held : str) : bool :=
  (length path <? length held) || ((length path =? length held) && str_lt path held).

Definition index_tail (path : str) (segments : list str) (by_tail : gmap str str) (start : nat) : gmap str str :=
  let key := join_with [c_slash] (drop start segments) in
  let held := default path (by_tail !! key) in
  <[key := if shorter path held then path else held]> by_tail.

Definition index_tails (path : str) (by_tail : gmap str str) (stem : str) : gmap str str :=
  let segments := split_char c_slash stem in
  foldl (index_tail path segments) by_tail (seq 0 (length segments)).

Definition build (all : list str) : PathIndex :=
  let sorted := dedup (sort_strings all) in
  {| paths := sorted; by_tail := foldl (fun by_tail path => foldl (index_tails path) by_tail (module_stems path)) ∅ sorted |}.

(** The place of the first path at or after a text. *)
Definition first_from (index : PathIndex) (text : str) : nat := partition_point (fun path => str_lt path text) (paths index).

(** [slice::binary_search] in the sorted paths, which hold no path twice. *)
Definition get (index : PathIndex) (path : str) : option str :=
  found ← paths index !! first_from index path;
  if bool_decide (found = path) then Some found else None.

Definition has_prefix (index : PathIndex) (prefix : str) : bool :=
  from_option (starts_with prefix) false (paths index !! first_from index prefix).

Definition suffix_match (index : PathIndex) (module : str) : option str :=
  tail ← module_tail module; by_tail index !! tail.

(** * Normal paths are reduced ones *)

(** One cancellation: a name with the climb after it, or a climb at the anchor. *)
Inductive cancels (anchored : bool) : list str -> list str -> Prop :=
| cancel_name l name r : name <> DOTDOT -> cancels anchored (l ++ name :: DOTDOT :: r) (l ++ r)
| cancel_root r : anchored = true -> cancels anchored (DOTDOT :: r) r.

Definition reduced (anchored : bool) (kept : list str) : Prop := forall kept', ~ cancels anchored kept kept'.

(** Climbs only at the front, and none after an anchor. *)
Definition climbs_first (anchored : bool) (kept : list str) : Prop :=
  exists k names, kept = replicate k DOTDOT ++ names /\ DOTDOT ∉ names /\ (anchored = true -> k = 0).

Lemma climbs_first_reduced anchored kept : climbs_first anchored kept -> reduced anchored kept.
Proof.
  intros (k & names & -> & Hn & Hk) kept' H. inversion H as [l name r Hname E|r Ha E]; subst.
  - assert (exists i, (replicate k DOTDOT ++ names) !! i = Some name /\ (replicate k DOTDOT ++ names) !! S i = Some DOTDOT) as (i & H1 & H2).
    { exists (length l). rewrite <- E. split; [by apply list_lookup_middle|]. rewrite lookup_app_r by lia. by replace (S (length l) - length l) with 1 by lia. }
    destruct (decide (S i < k)) as [Hi|Hi].
    + rewrite lookup_app_l in H1 by (rewrite length_replicate; lia). apply lookup_replicate in H1 as [-> _]. done.
    + rewrite lookup_app_r in H2 by (rewrite length_replicate; lia). by apply Hn, (list_elem_of_lookup_2 _ _ _ H2).
  - rewrite (Hk eq_refl) in E. cbn in E. apply Hn. rewrite <- E. left.
Qed.

Lemma keep_part_climbs anchor kept part : climbs_first (negb (bool_decide (anchor = []))) kept ->
  climbs_first (negb (bool_decide (anchor = []))) (keep_part anchor kept part) /\
  (is_posix_part part = true -> rtc (cancels (negb (bool_decide (anchor = [])))) (kept ++ [part]) (keep_part anchor kept part)) /\
  (is_posix_part part = false -> keep_part anchor kept part = kept).
Proof.
  intros Hkept. pose proof Hkept as (k & names & -> & Hn & Hk). unfold keep_part. destruct (is_posix_part part); [|done]. cbn [negb].
  destruct (bool_decide_reflect (part = DOTDOT)) as [Hd|Hd]; cbn [negb orb].
  - subst part. destruct names as [|name names _] using rev_ind.
    + rewrite app_nil_r in *. destruct k as [|k].
      * cbn [replicate]. rewrite (bool_decide_false (last [] = Some DOTDOT)), orb_false_r, (bool_decide_true ([] = [])), andb_true_r by done.
        destruct (bool_decide_reflect (anchor = [])) as [Ha|Ha]; cbn [negb] in *.
        -- split; [exists 1, []; by split_and!|]. by split.
        -- split; [by exists 0, []|]. split; [|done]. intros _. apply rtc_once. by apply cancel_root.
      * rewrite (bool_decide_true (last _ = _)), orb_true_r by (by rewrite replicate_S_end, last_snoc).
        split; [|by split]. exists (S (S k)), []. rewrite app_nil_r. split; [|by split; [apply not_elem_of_nil|intros H; apply Hk in H]].
        change [DOTDOT] with (replicate 1 DOTDOT). by rewrite <- replicate_add, Nat.add_1_r.
    + apply not_elem_of_app in Hn as [Hn Hname]. rewrite not_elem_of_cons in Hname. destruct Hname as [Hname _].
      assert ((replicate k DOTDOT ++ names) ++ [name] <> []) by by destruct (replicate k DOTDOT ++ names).
      assert (Some name <> Some DOTDOT) by (intros [=]; by apply Hname).
      rewrite app_assoc, last_snoc, (bool_decide_false ((replicate k DOTDOT ++ names) ++ [name] = [])), andb_false_r, (bool_decide_false (Some name = _)) by done.
      cbn [orb]. rewrite removelast_last. split; [by exists k, names|]. split; [|done]. intros _. apply rtc_once.
      pose proof (cancel_name (negb (bool_decide (anchor = []))) (replicate k DOTDOT ++ names) name [] ltac:(congruence)) as Hc.
      rewrite app_nil_r in Hc. by rewrite <- app_assoc.
  - split; [|by split]. exists k, (names ++ [part]). rewrite app_assoc. split; [done|]. split; [|done].
    apply not_elem_of_app. split; [done|]. rewrite not_elem_of_cons. split; [congruence|apply not_elem_of_nil].
Qed.

Lemma cancels_app anchored l l' r : cancels anchored l l' -> cancels anchored (l ++ r) (l' ++ r).
Proof.
  intros [l0 name r0 Hn|r0 Ha].
  - rewrite <- !app_assoc. by apply cancel_name.
  - by apply cancel_root.
Qed.

Lemma keep_parts anchor parts : forall kept, climbs_first (negb (bool_decide (anchor = []))) kept ->
  climbs_first (negb (bool_decide (anchor = []))) (foldl (keep_part anchor) kept parts) /\
  rtc (cancels (negb (bool_decide (anchor = [])))) (kept ++ List.filter is_posix_part parts) (foldl (keep_part anchor) kept parts).
Proof.
  induction parts as [|part parts IH]; intros kept Hkept; [cbn; by rewrite app_nil_r|]. cbn [foldl List.filter].
  destruct (keep_part_climbs anchor kept part Hkept) as (H1 & H2 & H3). destruct (IH _ H1) as [H4 H5]. split; [done|].
  destruct (is_posix_part part).
  - etrans; [|exact H5]. change (part :: List.filter is_posix_part parts) with ([part] ++ List.filter is_posix_part parts). rewrite app_assoc.
    specialize (H2 eq_refl). clear -H2. induction H2 as [|x y z Hxy _ IH]; [done|]. eapply rtc_l; [by apply cancels_app|exact IH].
  - rewrite (H3 eq_refl) in *. exact H5.
Qed.

Lemma climbs_first_nil anchored : climbs_first anchored [].
Proof. exists 0, []. split; [done|]. split; [apply not_elem_of_nil|done]. Qed.

Lemma kept_parts_spec path : climbs_first (negb (bool_decide (posix_anchor path = []))) (kept_parts path) /\
  rtc (cancels (negb (bool_decide (posix_anchor path = [])))) (parts (parse path)) (kept_parts path) /\
  Forall (fun part => is_posix_part part = true /\ char_free c_slash part) (kept_parts path).
Proof.
  destruct (keep_parts (posix_anchor path) (split_char c_slash path) [] (climbs_first_nil _)) as [H1 H2]. split; [done|]. split; [done|].
  unfold kept_parts. set (a := posix_anchor path). clearbody a. clear.
  pose proof (split_char_free c_slash path) as Hf. assert (forall kept, Forall (fun part => is_posix_part part = true /\ char_free c_slash part) kept ->
    Forall (fun part => is_posix_part part = true /\ char_free c_slash part) (foldl (keep_part a) kept (split_char c_slash path))) as H; [|by apply H].
  induction Hf as [|part l Hp _ IH]; intros kept Hk; [done|]. cbn [foldl]. apply IH. unfold keep_part. destruct (is_posix_part part) eqn:E; [|done].
  cbn [negb]. destruct (_ || _); [by apply Forall_app; repeat constructor|]. rewrite removelast_firstn_len. by apply Forall_take.
Qed.

(** The parsed form of a normalised path. *)
Lemma normpath_parsed path : path <> [] -> normpath path = render {| anchor := posix_anchor path; parts := kept_parts path |}.
Proof.
  intros Hne. unfold normpath. rewrite bool_decide_false by done. unfold render. cbn [anchor parts].
  destruct (posix_anchor path) as [|c a]; cbn [is_nonempty negb andb app].
  - destruct (join_with [c_slash] (kept_parts path)); [done|]. by rewrite bool_decide_false.
  - by rewrite bool_decide_false.
Qed.

(** A normalised path has the anchor of the path and the parts that cancelling leaves: no name is
    before a climb, and no climb after an anchor.  It is the same when it is normalised again. *)
Theorem normpath_exact path :
  let anchored := negb (bool_decide (posix_anchor path = [])) in
  anchor (parse (normpath path)) = posix_anchor path /\
  rtc (cancels anchored) (parts (parse path)) (parts (parse (normpath path))) /\
  reduced anchored (parts (parse (normpath path))) /\ normpath (normpath path) = normpath path.
Proof.
  cbn zeta. destruct (decide (path = [])) as [->|Hne]; [split; [done|]; split; [apply rtc_refl|]; split; [|done]; apply climbs_first_reduced, climbs_first_nil|].
  destruct (kept_parts_spec path) as (Hc & Hr & Hf). rewrite (normpath_parsed path Hne).
  assert (normal {| anchor := posix_anchor path; parts := kept_parts path |}) as Hn by (split; [apply posix_anchor_cases|done]).
  rewrite (parse_rendered _ Hn). cbn [anchor parts]. split; [done|]. split; [done|]. split; [by apply climbs_first_reduced|].
  set (p := {| anchor := posix_anchor path; parts := kept_parts path |}) in *.
  assert (render p <> []) as Hrne.
  { unfold render. destruct (anchor p) as [|c a]; cbn [is_nonempty negb andb]; [|done]. by destruct (join_with [c_slash] (parts p)). }
  rewrite (normpath_parsed _ Hrne). pose proof (f_equal anchor (parse_rendered p Hn)) as Ea. cbn in Ea. rewrite Ea.
  destruct (kept_parts_spec (render p)) as (_ & Hr2 & _). rewrite (parse_rendered p Hn), Ea in Hr2. cbn [parts p] in Hr2.
  assert (kept_parts (render p) = kept_parts path) as ->; [|done].
  apply climbs_first_reduced in Hc. inversion Hr2 as [|? y ? Hy]; [done|]. by apply Hc in Hy.
Qed.

Example normpath_cases : normpath (lit "a/./b//../../../c") = lit "../c" /\ normpath (lit "//../x/..") = lit "//" /\ normalized (lit "a/..") = [].
Proof. vm_compute. auto. Qed.

(** * The index answers for all scanned paths *)

Lemma str_lt_true a b : str_lt a b = true <-> bytes_le a b = true /\ a <> b.
Proof.
  unfold str_lt. rewrite negb_true_iff. split.
  - intros H. destruct (bytes_le_total a b) as [Hab|Hba]; [|congruence]. split; [done|]. intros ->. by rewrite bytes_le_refl in H.
  - intros [Hab Hne]. apply not_true_iff_false. intros Hba. by apply Hne, bytes_le_antisym.
Qed.

Lemma str_lt_false a b : str_lt a b = false <-> bytes_le b a = true.
Proof. unfold str_lt. by rewrite negb_false_iff. Qed.

(** In a sorted list the first place at or after a text splits it. *)
Lemma partition_sorted (l : list str) text : sorted_strings l ->
  exists l1 l2, l = l1 ++ l2 /\ partition_point (fun path => str_lt path text) l = length l1 /\
    Forall (fun path => str_lt path text = true) l1 /\ Forall (fun path => bytes_le text path = true) l2.
Proof.
  unfold partition_point. induction 1 as [|x l Hl (l1 & l2 & -> & E & H1 & H2) Hx]; [by exists [], []|]. cbn [take_while].
  destruct (str_lt x text) eqn:Ex.
  - exists (x :: l1), l2. split; [done|]. split; [by cbn; rewrite E|]. split; [by constructor|done].
  - exists [], (x :: l1 ++ l2). split; [done|]. split; [done|]. split; [constructor|]. apply str_lt_false in Ex. constructor; [done|].
    eapply Forall_impl; [exact Hx|]. intros y Hy. by eapply bytes_le_trans.
Qed.

Lemma prefix_le prefix path : prefix `prefix_of` path -> bytes_le prefix path = true.
Proof. intros [r ->]. rewrite <- (app_nil_r prefix) at 1. by rewrite bytes_le_prefix. Qed.

(** What is between a prefix and a text that starts with it starts with it. *)
Lemma prefix_between prefix path mid : bytes_le prefix mid = true -> bytes_le mid path = true -> prefix `prefix_of` path -> prefix `prefix_of` mid.
Proof.
  revert mid path. induction prefix as [|c prefix IH]; intros mid path H1 H2 Hp; [apply prefix_nil|].
  destruct Hp as [r ->]. destruct mid as [|d mid]; [done|]. cbn in H1, H2.
  destruct (Z.ltb_spec c d), (Z.eqb_spec c d), (Z.ltb_spec d c), (Z.eqb_spec d c); try lia; try done. subst.
  apply prefix_cons, (IH mid (prefix ++ r)); [done|done|by exists r].
Qed.

Lemma shorter_irrefl a : shorter a a = false.
Proof. unfold shorter. rewrite Nat.ltb_irrefl, Nat.eqb_refl. cbn. apply str_lt_false, bytes_le_refl. Qed.

Lemma shorter_true a b : shorter a b = true <-> length a < length b \/ (length a = length b /\ bytes_le a b = true /\ a <> b).
Proof. unfold shorter. by rewrite orb_true_iff, andb_true_iff, Nat.ltb_lt, Nat.eqb_eq, str_lt_true. Qed.

Lemma shorter_trans a b c : shorter a b = true -> shorter b c = true -> shorter a c = true.
Proof.
  rewrite !shorter_true. intros [H1|(H1 & H2 & H3)] [H4|(H4 & H5 & H6)]; [left; lia..|]. right. split; [lia|]. split; [by eapply bytes_le_trans|].
  intros ->. by apply H3, bytes_le_antisym.
Qed.

Lemma shorter_asym a b : shorter a b = true -> shorter b a = false.
Proof. intros H. apply not_true_iff_false. intros H'. pose proof (shorter_trans _ _ _ H H') as Ht. by rewrite shorter_irrefl in Ht. Qed.

Lemma shorter_total a b : a = b \/ shorter a b = true \/ shorter b a = true.
Proof.
  destruct (decide (a = b)) as [|Hne]; [by left|right]. rewrite !shorter_true. destruct (Nat.lt_total (length a) (length b)) as [H|[H|H]]; [auto| |auto].
  destruct (bytes_le_total a b); [left|right]; right; auto.
Qed.

(** Some path of those under a key is before the others. *)
Lemma best_exists (es : list (str * str)) key x : (x, key) ∈ es ->
  exists b, (b, key) ∈ es /\ forall q, (q, key) ∈ es -> q = b \/ shorter b q = true.
Proof.
  revert x. induction es as [|[p k] es IH]; intros x Hx; [by apply not_elem_of_nil in Hx|].
  assert (k <> key \/ (forall q, (q, key) ∉ es) \/ exists b, (b, key) ∈ es /\ forall q, (q, key) ∈ es -> q = b \/ shorter b q = true) as Hcases.
  { destruct (decide (Exists (fun e : str * str => e.2 = key) es)) as [([q' k'] & He & Hk)%Exists_exists|Hno];
      [right; right; cbn in Hk; subst; by eapply IH|].
    right. left. intros q Hq. apply Hno, Exists_exists. by exists (q, key). }
  destruct (decide (k = key)) as [->|Hne].
  - destruct Hcases as [?|[Hno|(b & Hb & Hbest)]]; [done| |].
    + exists p. split; [left|]. intros q [[= ->]|Hq]%elem_of_cons; [by left|by apply Hno in Hq].
    + destruct (shorter_total p b) as [->|[H|H]].
      * exists b. split; [left|]. intros q [[= ->]|Hq]%elem_of_cons; [by left|by apply Hbest].
      * exists p. split; [left|]. intros q [[= ->]|Hq]%elem_of_cons; [by left|]. right. destruct (Hbest q Hq) as [->|]; [done|by eapply shorter_trans].
      * exists b. split; [by right|]. intros q [[= ->]|Hq]%elem_of_cons; [by right|by apply Hbest].
  - apply elem_of_cons in Hx as [[= -> ->]|Hx]; [done|]. destruct (IH x Hx) as (b & Hb & Hbest). exists b. split; [by right|].
    intros q [[= -> ->]|Hq]%elem_of_cons; [done|by apply Hbest].
Qed.

Lemma foldl_flat_map {A B C} (f : A -> C -> A) (g : B -> list C) l a : foldl f a (flat_map g l) = foldl (fun a x => foldl f a (g x)) a l.
Proof. revert a. induction l as [|x l IH]; intros a; [done|]. cbn. by rewrite foldl_app, IH. Qed.

Lemma foldl_same {A B} (f g : A -> B -> A) l a : (forall a x, f a x = g a x) -> foldl f a l = foldl g a l.
Proof. intros H. revert a. induction l as [|x l IH]; intros a; [done|]. cbn. by rewrite H, IH. Qed.

Lemma foldl_map {A B C} (f : A -> C -> A) (g : B -> C) l a : foldl f a (map g l) = foldl (fun a x => f a (g x)) a l.
Proof. revert a. induction l as [|x l IH]; intros a; [done|]. cbn. by rewrite IH. Qed.

Section Built.
Context (all : list str).
Local Notation index := (build all).

Lemma paths_sorted : sorted_strings (paths index).
Proof. apply dedup_sorted, sort_strings_sorted. Qed.

Lemma paths_elem path : path ∈ paths index <-> path ∈ all.
Proof. cbn. by rewrite dedup_elem, sort_strings_elem. Qed.

Lemma first_from_spec text : exists l1 l2, paths index = l1 ++ l2 /\ paths index !! first_from index text = head l2 /\
  Forall (fun path => str_lt path text = true) l1 /\ Forall (fun path => bytes_le text path = true) l2.
Proof.
  destruct (partition_sorted (paths index) text paths_sorted) as (l1 & l2 & E & Ep & H1 & H2). exists l1, l2. split; [done|]. split; [|done].
  unfold first_from. rewrite Ep, E, lookup_app_r, Nat.sub_diag by done. by destruct l2.
Qed.

Lemma get_spec p q : get index p = Some q <-> q = p /\ p ∈ all.
Proof.
  unfold get. destruct (first_from_spec p) as (l1 & l2 & E & -> & H1 & H2). rewrite <- paths_elem, E. rewrite Forall_forall in H1, H2. split.
  - destruct l2 as [|x l2]; [done|]. cbn. case_bool_decide as Hx; [|done]. intros [= <-]. subst. split; [done|]. apply elem_of_app. right. left.
  - intros [-> Hin]. apply elem_of_app in Hin as [Hin|Hin].
    { apply H1, str_lt_true in Hin as [_ ?]. done. }
    destruct l2 as [|x l2]; [by apply not_elem_of_nil in Hin|]. cbn. assert (x = p) as ->; [|by rewrite bool_decide_true].
    apply elem_of_cons in Hin as [->|Hin]; [done|]. apply bytes_le_antisym; [|apply H2; left].
    pose proof paths_sorted as Hs. rewrite E in Hs. apply StronglySorted_app in Hs as (_ & _ & Hs). inversion Hs as [|? ? _ Hf]; subst.
    rewrite Forall_forall in Hf. by apply Hf.
Qed.

Lemma has_prefix_spec prefix : has_prefix index prefix = true <-> exists path, path ∈ all /\ prefix `prefix_of` path.
Proof.
  unfold has_prefix. destruct (first_from_spec prefix) as (l1 & l2 & E & -> & H1 & H2). setoid_rewrite <- paths_elem. rewrite E.
  rewrite Forall_forall in H1, H2. split.
  - destruct l2 as [|x l2]; [done|]. cbn. rewrite starts_with_spec. intros Hx. exists x. split; [|done]. apply elem_of_app. right. left.
  - intros (path & Hin & Hp). apply elem_of_app in Hin as [Hin|Hin].
    { apply H1, str_lt_true in Hin as [Hle Hne]. exfalso. by apply Hne, bytes_le_antisym, prefix_le. }
    destruct l2 as [|x l2]; [by apply not_elem_of_nil in Hin|]. cbn. apply starts_with_spec.
    apply (prefix_between prefix path x); [apply H2; left| |done].
    apply elem_of_cons in Hin as [->|Hin]; [apply bytes_le_refl|].
    pose proof paths_sorted as Hs. rewrite E in Hs. apply StronglySorted_app in Hs as (_ & _ & Hs). inversion Hs as [|? ? _ Hf]; subst.
    rewrite Forall_forall in Hf. by apply Hf.
Qed.

(** ** Tails *)

Definition put (by_tail : gmap str str) (entry : str * str) : gmap str str :=
  let '(path, key) := entry in
  let held := default path (by_tail !! key) in <[key := if shorter path held then path else held]> by_tail.

Definition entries (path : str) : list (str * str) :=
  flat_map (fun stem => map (fun start => (path, join_with [c_slash] (drop start (split_char c_slash stem)))) (seq 0 (length (split_char c_slash stem))))
    (module_stems path).

Lemma by_tail_entries : by_tail index = foldl put ∅ (flat_map entries (paths index)).
Proof.
  cbn [by_tail build paths]. rewrite foldl_flat_map. apply foldl_same. intros t path. unfold entries. rewrite foldl_flat_map.
  apply foldl_same. intros t' stem. unfold index_tails. by rewrite foldl_map.
Qed.

Lemma put_entries es key p : foldl put ∅ es !! key = Some p <->
  (p, key) ∈ es /\ forall q, (q, key) ∈ es -> q = p \/ shorter p q = true.
Proof.
  revert p. induction es as [|[q k] es IH] using rev_ind; intros p; [cbn; rewrite lookup_empty; split; [done|intros [H _]; by apply not_elem_of_nil in H]|].
  rewrite foldl_app. cbn [foldl put]. setoid_rewrite elem_of_app. setoid_rewrite list_elem_of_singleton.
  destruct (decide (k = key)) as [->|Hne].
  2:{ rewrite lookup_insert_ne, IH by done. split; intros [H1 H2].
      - split; [by left|]. intros x [Hx|[= -> ->]]; [by apply H2|done].
      - destruct H1 as [H1|[= -> ->]]; [|done]. split; [done|]. intros x Hx. apply H2. by left. }
  rewrite lookup_insert_eq. destruct (foldl put ∅ es !! key) as [held|] eqn:E; cbn [default from_option id].
  - destruct (proj1 (IH held) eq_refl) as [E1 E2]. split.
    + intros [= <-]. destruct (shorter q held) eqn:Es.
      * split; [by right|]. intros x [Hx|[= ->]]; [|by left]. right. destruct (E2 x Hx) as [->|Hx']; [done|by eapply shorter_trans].
      * split; [by left|]. intros x [Hx|[= ->]]; [by apply E2|]. destruct (shorter_total q held) as [->|[|]]; [by left|congruence|by right].
    + intros [H1 H2]. f_equal. destruct (shorter q held) eqn:Es.
      * destruct (H2 q (or_intror eq_refl)) as [->|Hq]; [done|]. destruct H1 as [H1|[= ->]]; [|done]. destruct (E2 p H1) as [->|Hp].
        -- by rewrite (shorter_asym _ _ Hq) in Es.
        -- pose proof (shorter_trans _ _ _ Hq Es) as Ht. by rewrite (shorter_asym _ _ Hp) in Ht.
      * destruct H1 as [H1|[= ->]].
        -- destruct (E2 p H1) as [->|Hp]; [done|]. destruct (H2 held (or_introl E1)) as [->|Hh]; [done|]. by rewrite (shorter_asym _ _ Hp) in Hh.
        -- destruct (H2 held (or_introl E1)) as [->|Hh]; [done|congruence].
  - assert (forall x, (x, key) ∉ es) as Hno.
    { intros x Hx. destruct (best_exists es key x Hx) as (b & Hb1 & Hb2). assert (None = Some b) by by apply IH. done. }
    rewrite shorter_irrefl. split.
    + intros [= <-]. split; [by right|]. intros x [Hx|[= ->]]; [by apply Hno in Hx|by left].
    + intros [[H1|[= ->]] _]; [by apply Hno in H1|done].
Qed.

(** The tails of a stem: itself, and what follows one of its slashes. *)
Lemma tails_spec s key :
  (exists n, n < length (split_char c_slash s) /\ key = join_with [c_slash] (drop n (split_char c_slash s))) <->
  s = key \/ exists l, s = l ++ c_slash :: key.
Proof.
  pose proof (join_split_char c_slash s) as Hj. split.
  - intros (n & Hn & ->). destruct n as [|n]; [left; by rewrite drop_0|right]. exists (join_with [c_slash] (take (S n) (split_char c_slash s))).
    rewrite <- Hj at 1. rewrite <- (take_drop (S n) (split_char c_slash s)) at 1. rewrite join_with_app; [done| |].
    + intros E. apply (f_equal length) in E. rewrite length_take_le in E by lia. done.
    + intros E. apply (f_equal length) in E. rewrite length_drop in E. cbn [length] in E. lia.
  - intros [<-|[l ->]].
    + exists 0. rewrite drop_0, Hj. split; [|done]. pose proof (split_char_nonempty c_slash s). destruct (split_char c_slash s); [done|cbn; lia].
    + assert (split_char c_slash (l ++ c_slash :: key) = split_char c_slash l ++ split_char c_slash key) as ->.
      { rewrite <- (split_join_char c_slash (split_char c_slash l ++ split_char c_slash key)).
        - rewrite join_with_app by apply split_char_nonempty. by rewrite !join_split_char.
        - pose proof (split_char_nonempty c_slash l). by destruct (split_char c_slash l).
        - apply Forall_app. split; apply split_char_free. }
      exists (length (split_char c_slash l)). rewrite length_app, drop_app_length, join_split_char. split; [|done].
      pose proof (split_char_nonempty c_slash key). destruct (split_char c_slash key); [done|cbn; lia].
Qed.

(** The path answers to a tail: one of its module stems is the tail or ends with a slash and it. *)
Definition answers (path tail : str) : Prop := exists stem, stem ∈ module_stems path /\ (stem = tail \/ exists l, stem = l ++ c_slash :: tail).

Lemma entries_elem path key p : (path, key) ∈ entries p <-> path = p /\ answers p key.
Proof.
  unfold entries, answers. rewrite list_elem_of_In, in_flat_map. setoid_rewrite in_map_iff. setoid_rewrite in_seq. setoid_rewrite <- tails_spec. split.
  - intros (s & Hs & n & [= <- <-] & Hn). split; [done|]. exists s. split; [by apply list_elem_of_In|]. exists n. split; [lia|done].
  - intros (-> & s & Hs & n & Hn & ->). exists s. split; [by apply list_elem_of_In|]. exists n. split; [done|lia].
Qed.

Lemma by_tail_spec key p : by_tail index !! key = Some p <->
  (p ∈ all /\ answers p key) /\ forall q, q ∈ all -> answers q key -> q = p \/ shorter p q = true.
Proof.
  rewrite by_tail_entries, put_entries. assert (forall q, (q, key) ∈ flat_map entries (paths index) <-> q ∈ all /\ answers q key) as H.
  { intros q. rewrite list_elem_of_In, in_flat_map. setoid_rewrite <- list_elem_of_In. setoid_rewrite entries_elem. setoid_rewrite paths_elem.
    split; [by intros (? & ? & -> & ?)|]. intros []. by exists q. }
  rewrite H. setoid_rewrite H. naive_solver.
Qed.

Lemma path_index_parts :
  (forall p q, get index p = Some q <-> q = p /\ p ∈ all) /\
  (forall prefix, has_prefix index prefix = true <-> exists path, path ∈ all /\ prefix `prefix_of` path) /\
  (forall module p, suffix_match index module = Some p <->
    let tail := replace_char c_dot c_slash module in
    c_slash ∈ tail /\ p ∈ all /\ answers p tail /\ forall q, q ∈ all -> answers q tail -> q = p \/ shorter p q = true).
Proof.
  split; [exact get_spec|]. split; [exact has_prefix_spec|]. intros module p. cbn zeta. unfold suffix_match, module_tail.
  set (tail := replace_char _ _ _). assert (any (is_char c_slash) tail = true <-> c_slash ∈ tail) as Ha.
  { rewrite any_spec. split; [by intros (c & Hc & <-%is_char_true)|]. intros H. exists c_slash. by rewrite is_char_refl. }
  destruct (any (is_char c_slash) tail); cbn [mbind option_bind].
  - rewrite by_tail_spec. rewrite <- Ha. tauto.
  - split; [done|]. intros [H%Ha _]. done.
Qed.

(** The index of a scan finds exactly its paths, knows exactly the prefixes of its paths, and
    answers a dotted module with the shortest path, first in order, that has a module stem ending
    with it; a module without a separator has no answer. *)
Theorem path_index_exact :
  (forall p q, get index p = Some q <-> q = p /\ p ∈ all) /\
  (forall prefix, has_prefix index prefix = true <-> exists path, path ∈ all /\ prefix `prefix_of` path) /\
  (forall module p, suffix_match index module = Some p <->
    let tail := replace_char c_dot c_slash module in
    c_slash ∈ tail /\ p ∈ all /\ answers p tail /\ forall q, q ∈ all -> answers q tail -> q = p \/ shorter p q = true).
Proof. exact path_index_parts. Qed.
End Built.

Example path_index_python : let index := build [lit "lib/pkg/__init__.py"; lit "a/lib/pkg.py"; lit "b.py"] in
  suffix_match index (lit "lib.pkg") = Some (lit "a/lib/pkg.py") /\ suffix_match index (lit "b") = None /\ has_prefix index (lit "lib/p") = true.
Proof. vm_compute. auto. Qed.
