(* ===== verification/ImportTargets.v ===== *)
(** Import statements as repository paths: crates/graph/src/imports.rs.

    [resolve_import_exact] shows that a module is tried as its candidates in their order, that no
    skipped prefix hides one, and that only a module that is not relative falls back to a tail. *)

From S2P Require Import Prelude RustStr Ordered Text FactValues ModulePaths.
Import PosixPath.

#[local] Open Scope rs_scope.
#[local] Open Scope nat_scope.

Definition PACKAGE_ENTRY : str := lit "__init__.py".

Definition MODULE_SUFFIXES : list str :=
  [lit ".py"; lit ".ts"; lit ".tsx"; lit ".js"; lit ".jsx"; lit ".mjs"; lit ".cjs"; lit ".go"; lit ".rb"; lit ".rs"; lit ".java"; lit ".lua";
   lit ".c"; lit ".h"; lit ".cpp"; lit ".hpp"; lit ".sh"; lit ".php"; lit ".kt"; lit ".swift"; lit "/__init__.py"; lit "/index.ts";
   lit "/index.tsx"; lit "/index.js"; []].

Definition candidate_of (base suffix : str) : str :=
  if bool_decide (base = []) then default suffix (strip_prefix [c_slash] suffix) else base ++ suffix.

Definition first_candidate (bases : list str) (paths : PathIndex) : option str :=
  find_map (fun base => if negb (has_prefix paths base) then None
                        else find_map (fun suffix => get paths (candidate_of base suffix)) MODULE_SUFFIXES) bases.

(** [u32] subtraction of a positive level. *)
Definition level_base (module : str) (relative_level : Z) (directory : PosixPath) : option str :=
  let steps := Z.to_nat (relative_level - 1) in
  if part_count directory <? steps then None
  else
    let base := Nat.iter steps PosixPath.parent directory in
    let tail := replace_char c_dot c_slash module in
    Some (normalized (if bool_decide (tail = []) then render base else join base tail)).

Definition candidate_bases (module : str) (relative_level : Z) (directory : PosixPath) (beside : bool) : list str :=
  if (0 <? relative_level)%Z then option_list (level_base module relative_level directory)
  else if starts_with [c_dot] module then [normalized (join directory module)]
  else if beside then [normalized (join directory module); module] else [module].

Definition reads_own_directory (importer : str) (directory : PosixPath) (paths : PathIndex) : bool :=
  let python := from_option (fun l => bool_decide (import_rule l = PythonImports)) false (from_path importer) in
  negb python || bool_decide (get paths (normalized (join directory PACKAGE_ENTRY)) = None).

Definition resolve_import_target (importer module : str) (relative_level : Z) (paths : PathIndex) : option str :=
  let module := strip module in
  let relative := (0 <? relative_level)%Z || starts_with [c_dot] module in
  if bool_decide (module = []) && negb relative then None
  else
    let directory := PosixPath.parent (parse importer) in
    let beside := reads_own_directory importer directory paths in
    match first_candidate (candidate_bases module relative_level directory beside) paths with
    | Some found => Some found
    | None => if relative then None else suffix_match paths module
    end.

Definition resolve_imported_submodule (importer module : str) (relative_level : Z) (name : str) (paths : PathIndex) : option str :=
  let dotted := if bool_decide (module = []) then name else module ++ [c_dot] ++ name in
  resolve_import_target importer dotted relative_level paths.

(** [str::strip_suffix]. *)
Definition strip_suffix (suffix s : str) : option str := reverse <$> strip_prefix (reverse suffix) (reverse s).

Definition package_directory (path : str) : option str :=
  directory ← strip_suffix PACKAGE_ENTRY path;
  if bool_decide (directory = []) || bool_decide (last directory = Some c_slash) then Some directory else None.

Definition inside_package (importer target : str) : bool := from_option (fun directory => starts_with directory importer) false (package_directory target).

Definition is_package_entry (path : str) : bool := bool_decide (is_Some (package_directory path)).

Definition module_object (i : Import) : str * str :=
  if bool_decide (alias i = []) then
    let package := default [] (head (split_char c_dot (module i))) in (package, package)
  else (alias i, module i).

(** [ImportTargets]. *)
Definition resolve (paths : PathIndex) (importer : str) (i : Import) : option str :=
  resolve_import_target importer (module i) (relative_level i) paths.

(** * Candidates in order *)

(** The texts that a module is tried as. *)
Definition candidates (bases : list str) : list str := flat_map (fun base => map (candidate_of base) MODULE_SUFFIXES) bases.

Lemma find_map_flat {A B C} (f : B -> option C) (g : A -> list B) l : find_map f (flat_map g l) = find_map (fun x => find_map f (g x)) l.
Proof.
  induction l as [|x l IH]; [done|]. cbn. rewrite <- IH. generalize (flat_map g l). induction (g x) as [|y ys IHy]; intros r; [done|].
  cbn. destruct (f y); [done|apply IHy].
Qed.

Lemma find_map_map {A B C} (f : B -> option C) (g : A -> B) l : find_map f (map g l) = find_map (fun x => f (g x)) l.
Proof. induction l as [|x l IH]; [done|]. cbn. by rewrite IH. Qed.

Lemma find_map_ext {A B} (f g : A -> option B) l : (forall x, x ∈ l -> f x = g x) -> find_map f l = find_map g l.
Proof.
  induction l as [|x l IH]; intros H; [done|]. cbn. rewrite H by left. rewrite IH; [done|]. intros y Hy. apply H. by right.
Qed.

Lemma find_map_none {A B} (f : A -> option B) l : (forall x, x ∈ l -> f x = None) -> find_map f l = None.
Proof. induction l as [|x l IH]; intros H; [done|]. cbn. rewrite H by left. apply IH. intros y Hy. apply H. by right. Qed.

Lemma candidate_prefix base suffix : base `prefix_of` candidate_of base suffix.
Proof. unfold candidate_of. case_bool_decide; [subst; apply prefix_nil|by exists suffix]. Qed.

(** The skip of bases that no path starts with loses no candidate. *)
Lemma first_candidate_all bases all : first_candidate bases (build all) = find_map (get (build all)) (candidates bases).
Proof.
  unfold candidates. rewrite find_map_flat. apply find_map_ext. intros base _. rewrite find_map_map.
  destruct (has_prefix (build all) base) eqn:E; [done|]. symmetry. apply find_map_none. intros suffix _.
  destruct (get (build all) (candidate_of base suffix)) as [q|] eqn:Eg; [|done]. apply get_spec in Eg as [-> Hin].
  assert (has_prefix (build all) base = true); [|congruence]. apply has_prefix_spec. exists (candidate_of base suffix). split; [done|apply candidate_prefix].
Qed.

(** The first of the candidates that is a scanned path. *)
Inductive first_of (all : list str) : list str -> option str -> Prop :=
| first_none l : Forall (fun c => c ∉ all) l -> first_of all l None
| first_some l1 c l2 : Forall (fun c => c ∉ all) l1 -> c ∈ all -> first_of all (l1 ++ c :: l2) (Some c).

Lemma first_candidate_spec bases all : first_of all (candidates bases) (first_candidate bases (build all)).
Proof.
  rewrite first_candidate_all. destruct (find_map _ _) as [c|] eqn:E.
  - apply find_map_Some in E as (l1 & x & l2 & -> & Hx & Hno). apply get_spec in Hx as [-> Hin]. constructor; [|done].
    apply Forall_forall. intros y Hy Hy'. assert (get (build all) y = Some y) by by apply get_spec. by rewrite Hno in *.
  - constructor. apply Forall_forall. intros y Hy Hy'. assert (get (build all) y = Some y) by by apply get_spec.
    by rewrite (find_map_None _ _ E y Hy) in *.
Qed.

Lemma first_of_in all l p : first_of all l (Some p) -> p ∈ all.
Proof. inversion 1; done. Qed.

(** What a module names is a scanned path. *)
Lemma resolve_target_in all importer module level p : resolve_import_target importer module level (build all) = Some p -> p ∈ all.
Proof.
  unfold resolve_import_target. set (bases := candidate_bases _ _ _ _). pose proof (first_candidate_spec bases all) as Hf.
  pose proof (proj2 (proj2 (path_index_parts all)) (strip module)) as Hs. cbn zeta in Hs. destruct (_ && _); [done|].
  destruct (first_candidate bases (build all)) as [q|]; [intros [= <-]; by eapply first_of_in|].
  destruct (_ || _); [done|]. intros H. by apply Hs in H as (_ & H & _).
Qed.

(** C21: What a module names, seen from the importing file: the first of its candidates that is a scanned
    path, before it the directory's own file and before that the file as written where the importer
    reads its own directory; a module that is not relative falls back to the shortest path that
    answers to its tail.  The answer is a scanned path. *)
Theorem resolve_import_exact all importer module level :
  let text := strip module in
  let directory := PosixPath.parent (parse importer) in
  let relative := (0 <? level)%Z || starts_with [c_dot] text in
  let bases := candidate_bases text level directory (reads_own_directory importer directory (build all)) in
  let found := resolve_import_target importer module level (build all) in
  (text = [] -> relative = false -> found = None) /\
  (text <> [] \/ relative = true -> exists first, first_of all (candidates bases) first /\
    match first with
    | Some p => found = Some p
    | None => if relative then found = None
              else forall p, found = Some p <-> let tail := replace_char c_dot c_slash text in
                     c_slash ∈ tail /\ p ∈ all /\ answers p tail /\ forall q, q ∈ all -> answers q tail -> q = p \/ shorter p q = true
    end) /\
  (forall p, found = Some p -> p ∈ all).
Proof.
  cbn zeta. unfold resolve_import_target. set (text := strip module). set (relative := (0 <? level)%Z || _). set (bases := candidate_bases _ _ _ _).
  pose proof (first_candidate_spec bases all) as Hf. pose proof (proj2 (proj2 (path_index_parts all)) text) as Hs. cbn zeta in Hs.
  split; [|split].
  - intros -> ->. done.
  - intros H. rewrite (proj2 (andb_false_iff _ _)) by (destruct H as [H| ->]; [left; by apply bool_decide_eq_false|by right]).
    exists (first_candidate bases (build all)). split; [done|]. destruct (first_candidate bases (build all)); [done|]. by destruct relative.
  - intros p. apply resolve_target_in.
Qed.

(** A package's entry point loses to a module of its name; a script reads its own directory. *)
Example resolve_import_cases :
  let all := [lit "pkg/__init__.py"; lit "pkg.py"; lit "app/util.py"; lit "app/main.py"; lit "deep/app/util/x.py"] in
  resolve_import_target (lit "app/main.py") (lit "util") 0 (build all) = Some (lit "app/util.py") /\
  resolve_import_target (lit "app/main.py") (lit "pkg") 0 (build all) = Some (lit "pkg.py") /\
  resolve_import_target (lit "app/main.py") (lit "x") 5 (build all) = None /\
  resolve_import_target (lit "app/main.py") (lit "util.x") 0 (build all) = Some (lit "deep/app/util/x.py") /\
  module_object {| module := lit "a.b"; names := []; local_names := []; is_relative := false; relative_level := 0; import_line := 1;
    binds_all := false; alias := []; inline_depth := 0; runs := Load |} = (lit "a", lit "a").
Proof. vm_compute. auto 10. Qed.
