(* ===== verification/Names.v ===== *)
(** The name index: crates/graph/src/names.rs.

    One pass over the scanned files collects, for each name, its definitions and its spellings, with
    counts of files.  [name_index_exact] shows that the pass does not panic and that each query
    answers what a filter of the scan answers. *)

From S2P Require Import Prelude RustStr Ordered Text FactValues.

#[local] Open Scope rs_scope.
#[local] Open Scope nat_scope.

Record Definition_ := { d_file : FileFacts; d_symbol : Symbol; d_position : nat * nat }.

Definition d_path (d : Definition_) : str := path (d_file d).

Record Site := { site_file : FileFacts; site_ref : Ref }.

Record NameEntry := {
  definitions : list Definition_;
  sites : list Site;
  defining : list str;
  referencing : nat;
  spelling : nat;
  last_referencing : option nat;
  last_spelling : option nat
}.

Definition no_entry : NameEntry :=
  {| definitions := []; sites := []; defining := []; referencing := 0; spelling := 0; last_referencing := None; last_spelling := None |}.

Record NameIndex := { files : list FileFacts; names : list str; positions : gmap str nat; entries : list NameEntry }.

(** The distinct names of the files in the name graph, sorted. *)
Definition spelled_names (file : FileFacts) : list str := map sym_name (symbols (facts file)) ++ map name (refs (facts file)).

Definition sorted_names (files : list FileFacts) : list str :=
  sort_strings (remove_dups (flat_map spelled_names (List.filter in_name_graph files))).

Definition position (index : NameIndex) (name : str) : option nat := positions index !! name.

(** The count of files and the last file counted. *)
Definition count_file (count : nat) (last : option nat) (file_index : nat) : nat * option nat :=
  if bool_decide (last = Some file_index) then (count, last) else (count + 1, Some file_index).

Definition with_entries (index : NameIndex) (es : list NameEntry) : NameIndex :=
  {| files := files index; names := names index; positions := positions index; entries := es |}.

(** [entry_mut] and a change of the entry; [None] is the panic of a name that the index does not hold. *)
Definition at_entry (index : NameIndex) (name : str) (f : NameEntry -> NameEntry) : option NameIndex :=
  found ← position index name;
  entry ← entries index !! found;
  Some (with_entries index (<[found := f entry]> (entries index))).

Definition push_definition (d : Definition_) (e : NameEntry) : NameEntry :=
  {| definitions := definitions e ++ [d]; sites := sites e; defining := defining e; referencing := referencing e; spelling := spelling e;
     last_referencing := last_referencing e; last_spelling := last_spelling e |}.

Definition push_site (file : FileFacts) (file_index : nat) (reference : Ref) (e : NameEntry) : NameEntry :=
  let '(spelled, last) := count_file (spelling e) (last_spelling e) file_index in
  let '(referenced, last_referenced) :=
    if is_reference reference then count_file (referencing e) (last_referencing e) file_index else (referencing e, last_referencing e) in
  {| definitions := definitions e; sites := sites e ++ [{| site_file := file; site_ref := reference |}]; defining := defining e;
     referencing := referenced; spelling := spelled; last_referencing := last_referenced; last_spelling := last |}.

(** A loop whose steps can panic. *)
Fixpoint each {A S} (f : S -> A -> option S) (s : S) (l : list A) : option S :=
  match l with
  | [] => Some s
  | x :: l => s ← f s x; each f s l
  end.

Definition add_symbol (file : FileFacts) (file_index : nat) (index : NameIndex) (cell : nat * Symbol) : option NameIndex :=
  let '(symbol_index, symbol) := cell in
  at_entry index (sym_name symbol) (push_definition {| d_file := file; d_symbol := symbol; d_position := (file_index, symbol_index) |}).

Definition add_ref (file : FileFacts) (file_index : nat) (index : NameIndex) (reference : Ref) : option NameIndex :=
  at_entry index (name reference) (push_site file file_index reference).

Definition add_file (index : NameIndex) (cell : nat * FileFacts) : option NameIndex :=
  let '(file_index, file) := cell in
  if in_name_graph file then
    index ← each (add_symbol file file_index) index (imap pair (symbols (facts file)));
    each (add_ref file file_index) index (refs (facts file))
  else Some index.

Definition with_defining (e : NameEntry) : NameEntry :=
  {| definitions := definitions e; sites := sites e; defining := dedup (sort_strings (map d_path (definitions e)));
     referencing := referencing e; spelling := spelling e; last_referencing := last_referencing e; last_spelling := last_spelling e |}.

Definition build (files : list FileFacts) : option NameIndex :=
  let names := sorted_names files in
  let index := {| files := files; names := names; positions := list_to_map (imap (fun at_ name => (name, at_)) names);
                  entries := map (fun _ => no_entry) names |} in
  index ← each add_file index (imap pair files);
  Some (with_entries index (map with_defining (entries index))).

Definition listed {T} (index : NameIndex) (name : str) (pick : NameEntry -> list T) : list T :=
  default [] (found ← position index name; pick <$> entries index !! found).

Definition counted (index : NameIndex) (name : str) (pick : NameEntry -> nat) : nat :=
  default 0 (found ← position index name; pick <$> entries index !! found).

Definition definitions_of (index : NameIndex) (name : str) : list Definition_ := listed index name definitions.
Definition sites_of (index : NameIndex) (name : str) : list Site := listed index name sites.
Definition defining_paths (index : NameIndex) (name : str) : list str := listed index name defining.

Definition caller_spread (index : NameIndex) (name : str) : nat :=
  match counted index name referencing with 0 => 1 | files => files end.

Definition spelling_spread (index : NameIndex) (name : str) : nat := counted index name spelling.
Definition edge_spread (index : NameIndex) (name : str) : nat := counted index name referencing.

(** * The pass, entry by entry *)

Definition entry_of (index : NameIndex) (n : str) : NameEntry := default no_entry (found ← position index n; entries index !! found).

(** The positions are those of the names, which are distinct, and there is an entry for each. *)
Record shaped (index : NameIndex) : Prop := {
  sh_names : NoDup (names index);
  sh_positions : positions index = list_to_map (imap (fun at_ name => (name, at_)) (names index));
  sh_entries : length (entries index) = length (names index)
}.

Lemma imap_fst {A} (l : list A) (k : nat) : map fst (imap (fun at_ x => (x, k + at_)) l) = l.
Proof.
  revert k. induction l as [|x l IH]; intros k; [done|]. cbn. f_equal. rewrite <- (IH (S k)) at 2. f_equal. apply imap_ext. intros i y _. cbn. f_equal. lia.
Qed.

Lemma index_position_spec index n i : shaped index -> position index n = Some i <-> names index !! i = Some n.
Proof.
  intros H. unfold position. rewrite (sh_positions _ H). rewrite <- elem_of_list_to_map.
  - rewrite elem_of_lookup_imap. split; [by intros (j & y & [= -> ->] & Hj)|]. intros Hi. by exists i, n.
  - pose proof (sh_names _ H) as Hn. rewrite <- (imap_fst (names index) 0) in Hn. exact Hn.
Qed.

(** Two indexes that differ in entries alone. *)
Definition alike (a b : NameIndex) : Prop := files a = files b /\ names a = names b /\ positions a = positions b.

Lemma at_entry_spec index n f : shaped index -> n ∈ names index ->
  exists index', at_entry index n f = Some index' /\ shaped index' /\ alike index index' /\
    forall m, entry_of index' m = if bool_decide (n = m) then f (entry_of index m) else entry_of index m.
Proof.
  intros H Hn. apply list_elem_of_lookup in Hn as [i Hi]. pose proof (proj2 (index_position_spec index n i H) Hi) as Hp.
  assert (is_Some (entries index !! i)) as [e He] by (apply lookup_lt_is_Some; rewrite (sh_entries _ H); by apply lookup_lt_Some in Hi).
  unfold at_entry. rewrite Hp. cbn [mbind option_bind]. rewrite He. eexists. split; [done|]. split; [|split; [by split|]].
  - destruct H. constructor; [done|done|]. cbn. by rewrite length_insert.
  - intros m. unfold entry_of, position. cbn [positions with_entries entries]. fold (position index m). case_bool_decide as Hm.
    + subst m. rewrite Hp. cbn. rewrite He, list_lookup_insert_eq by by apply lookup_lt_Some in He. done.
    + destruct (position index m) as [j|] eqn:Ej; [|done]. cbn. rewrite list_lookup_insert_ne; [done|]. intros <-.
      apply (index_position_spec index m i H) in Ej. congruence.
Qed.

Lemma alike_trans a b c : alike a b -> alike b c -> alike a c.
Proof. intros (H1 & H2 & H3) (H4 & H5 & H6). split; [congruence|]. split; congruence. Qed.

(** A loop over changes of entries changes each entry by the changes under its name, in order. *)
Lemma each_spec {A} (k : A -> str) (g : A -> NameEntry -> NameEntry) l : forall index, shaped index ->
  (forall x, x ∈ l -> k x ∈ names index) ->
  exists index', each (fun index x => at_entry index (k x) (g x)) index l = Some index' /\ shaped index' /\ alike index index' /\
    forall m, entry_of index' m = foldl (fun e x => if bool_decide (k x = m) then g x e else e) (entry_of index m) l.
Proof.
  induction l as [|x l IH]; intros index H Hk; [exists index; by split_and!|]. cbn [each].
  destruct (at_entry_spec index (k x) (g x) H (Hk x ltac:(left))) as (i1 & E1 & H1 & A1 & S1). rewrite E1. cbn [mbind option_bind].
  destruct (IH i1 H1) as (i2 & E2 & H2 & A2 & S2).
  { intros y Hy. destruct A1 as (_ & <- & _). apply Hk. by right. }
  exists i2. split; [done|]. split; [done|]. split; [by eapply alike_trans|]. intros m. rewrite S2, S1. done.
Qed.

Lemma each_ext {A S} (f g : S -> A -> option S) l : (forall s x, f s x = g s x) -> forall s, each f s l = each g s l.
Proof. intros H. induction l as [|x l IH]; intros s; [done|]. cbn. rewrite H. destruct (g s x); [apply IH|done]. Qed.

(** What one file does to the entry of a name. *)
Definition symbol_change (file : FileFacts) (i : nat) (m : str) (e : NameEntry) (cell : nat * Symbol) : NameEntry :=
  if bool_decide (sym_name cell.2 = m) then push_definition {| d_file := file; d_symbol := cell.2; d_position := (i, cell.1) |} e else e.

Definition ref_change (file : FileFacts) (i : nat) (m : str) (e : NameEntry) (r : Ref) : NameEntry :=
  if bool_decide (name r = m) then push_site file i r e else e.

Definition file_change (m : str) (e : NameEntry) (cell : nat * FileFacts) : NameEntry :=
  let '(i, file) := cell in
  if in_name_graph file then
    foldl (ref_change file i m) (foldl (symbol_change file i m) e (imap pair (symbols (facts file)))) (refs (facts file))
  else e.

Lemma add_file_spec index i file : shaped index -> (in_name_graph file = true -> forall n, n ∈ spelled_names file -> n ∈ names index) ->
  exists index', add_file index (i, file) = Some index' /\ shaped index' /\ alike index index' /\
    forall m, entry_of index' m = file_change m (entry_of index m) (i, file).
Proof.
  intros H Hn. unfold add_file, file_change. destruct (in_name_graph file); [|by exists index]. specialize (Hn eq_refl).
  destruct (each_spec (fun c : nat * Symbol => sym_name c.2) (fun c => push_definition {| d_file := file; d_symbol := c.2; d_position := (i, c.1) |})
    (imap pair (symbols (facts file))) index H) as (i1 & E1 & H1 & A1 & S1).
  { intros [j s] Hs. apply elem_of_lookup_imap in Hs as (j' & s' & [= -> ->] & Hs). apply Hn, elem_of_app. left.
    apply list_elem_of_fmap_2. by eapply list_elem_of_lookup_2. }
  rewrite (each_ext _ (fun index c => at_entry index (sym_name c.2) (push_definition {| d_file := file; d_symbol := c.2; d_position := (i, c.1) |})))
    by by intros ? []. rewrite E1. cbn [mbind option_bind].
  destruct (each_spec name (push_site file i) (refs (facts file)) i1 H1) as (i2 & E2 & H2 & A2 & S2).
  { intros r Hr. destruct A1 as (_ & <- & _). apply Hn, elem_of_app. right. by apply list_elem_of_fmap_2. }
  exists i2. split; [exact E2|]. split; [done|]. split; [by eapply alike_trans|]. intros m. rewrite S2, S1. done.
Qed.

Lemma add_files_spec cells : forall index, shaped index ->
  (forall i file, (i, file) ∈ cells -> in_name_graph file = true -> forall n, n ∈ spelled_names file -> n ∈ names index) ->
  exists index', each add_file index cells = Some index' /\ shaped index' /\ alike index index' /\
    forall m, entry_of index' m = foldl (file_change m) (entry_of index m) cells.
Proof.
  induction cells as [|[i file] cells IH]; intros index H Hn; [exists index; by split_and!|]. cbn [each].
  destruct (add_file_spec index i file H) as (i1 & E1 & H1 & A1 & S1); [by apply (Hn i); left|]. rewrite E1. cbn [mbind option_bind].
  destruct (IH i1 H1) as (i2 & E2 & H2 & A2 & S2).
  { intros j f Hf. destruct A1 as (_ & <- & _). apply (Hn j). by right. }
  exists i2. split; [done|]. split; [done|]. split; [by eapply alike_trans|]. intros m. rewrite S2, S1. done.
Qed.

(** ** What the pass leaves under a name *)

Section Name.
Context (m : str).

(** The definitions and the spellings of the name in a file, and whether the file spells or references it. *)
Definition defined_in (cell : nat * FileFacts) : list Definition_ :=
  if in_name_graph cell.2 then
    omap (fun c : nat * Symbol => if bool_decide (sym_name c.2 = m) then Some {| d_file := cell.2; d_symbol := c.2; d_position := (cell.1, c.1) |} else None)
      (imap pair (symbols (facts cell.2)))
  else [].

Definition named (r : Ref) : bool := bool_decide (name r = m).

Definition spelled_in (file : FileFacts) : list Site :=
  if in_name_graph file then map (fun r => {| site_file := file; site_ref := r |}) (List.filter named (refs (facts file))) else [].

Definition spells (file : FileFacts) : bool := in_name_graph file && any named (refs (facts file)).
Definition references (file : FileFacts) : bool := in_name_graph file && any (fun r => named r && is_reference r) (refs (facts file)).

Lemma symbols_changed file i cells : forall e, let e' := foldl (symbol_change file i m) e cells in
  definitions e' = definitions e ++
    omap (fun c : nat * Symbol => if bool_decide (sym_name c.2 = m) then Some {| d_file := file; d_symbol := c.2; d_position := (i, c.1) |} else None) cells /\
  sites e' = sites e /\ (spelling e', last_spelling e') = (spelling e, last_spelling e) /\
  (referencing e', last_referencing e') = (referencing e, last_referencing e).
Proof.
  induction cells as [|c cells IH]; intros e; cbn zeta; [by rewrite app_nil_r|]. cbn [foldl omap list_omap].
  destruct (IH (symbol_change file i m e c)) as (-> & -> & -> & ->). unfold symbol_change. case_bool_decide; [|done].
  cbn. by rewrite <- app_assoc.
Qed.

Lemma count_file_again count last i : let '(count, last) := count_file count last i in count_file count last i = (count, last).
Proof. unfold count_file. case_bool_decide as E; [by rewrite bool_decide_true|by rewrite bool_decide_true]. Qed.

(** Counting a file once for all of its spellings. *)
Definition count_if (b : bool) (count : nat) (last : option nat) (i : nat) : nat * option nat := if b then count_file count last i else (count, last).

Lemma count_if_after (b : bool) count last i : let '(count', last') := count_file count last i in count_if b count' last' i = count_file count last i.
Proof. pose proof (count_file_again count last i) as H. destruct (count_file count last i) as [c l]. by destruct b. Qed.

Lemma refs_changed file i rs : forall e, let e' := foldl (ref_change file i m) e rs in
  definitions e' = definitions e /\ sites e' = sites e ++ map (fun r => {| site_file := file; site_ref := r |}) (List.filter named rs) /\
  (spelling e', last_spelling e') = count_if (any named rs) (spelling e) (last_spelling e) i /\
  (referencing e', last_referencing e') = count_if (any (fun r => named r && is_reference r) rs) (referencing e) (last_referencing e) i.
Proof.
  induction rs as [|r rs IH]; intros e; cbn zeta; [by rewrite app_nil_r|]. cbn [foldl any existsb List.filter]. fold (any named rs).
  fold (any (fun r => named r && is_reference r) rs). destruct (IH (ref_change file i m e r)) as (-> & -> & -> & ->). unfold ref_change. fold (named r).
  destruct (named r); [|done]. cbn [orb andb]. unfold push_site.
  pose proof (count_if_after (any named rs) (spelling e) (last_spelling e) i) as Hs. destruct (count_file (spelling e) (last_spelling e) i) as [s l] eqn:Es.
  destruct (is_reference r).
  - pose proof (count_if_after (any (fun r => named r && is_reference r) rs) (referencing e) (last_referencing e) i) as Hr.
    destruct (count_file (referencing e) (last_referencing e) i) as [c l'] eqn:Er. cbn [definitions sites spelling last_spelling referencing last_referencing orb map].
    rewrite <- app_assoc. split; [done|]. split; [done|]. split; [rewrite Hs; cbn [count_if]; by rewrite Es|rewrite Hr; cbn [count_if]; by rewrite Er].
  - cbn [definitions sites spelling last_spelling referencing last_referencing orb map]. rewrite <- app_assoc. split; [done|]. split; [done|].
    split; [rewrite Hs; cbn [count_if]; by rewrite Es|done].
Qed.

Definition recent (last : option nat) (n : nat) : Prop := forall j, last = Some j -> j < n.

Lemma count_if_fresh b count last n : recent last n ->
  (count_if b count last n).1 = count + (if b then 1 else 0) /\ recent (count_if b count last n).2 (S n).
Proof.
  intros H. unfold count_if, count_file. destruct b; cbn.
  - rewrite bool_decide_false by (intros E; apply H in E; lia). cbn. split; [done|]. intros j [= <-]. lia.
  - split; [lia|]. intros j E. apply H in E. lia.
Qed.

Lemma count_one {A} (b : bool) (x : A) : (if b then 1 else 0) = length (if b then [x] else []).
Proof. by destruct b. Qed.

Lemma files_changed files : let e := foldl (file_change m) no_entry (imap pair files) in
  definitions e = flat_map defined_in (imap pair files) /\ sites e = flat_map spelled_in files /\
  (spelling e = length (List.filter spells files) /\ recent (last_spelling e) (length files)) /\
  (referencing e = length (List.filter references files) /\ recent (last_referencing e) (length files)).
Proof.
  cbn zeta. induction files as [|file files IH] using rev_ind; [cbn; by split_and!|]. rewrite imap_app, foldl_app. cbn [imap foldl]. rewrite Nat.add_0_r.
  set (e := foldl (file_change m) no_entry (imap pair files)) in *. destruct IH as (H1 & H2 & (H3 & H4) & (H5 & H6)).
  rewrite !flat_map_app, !List.filter_app, !length_app. cbn [flat_map List.filter length]. rewrite !app_nil_r. unfold file_change.
  unfold defined_in at 2, spelled_in at 2, spells at 2, references at 2. cbn [fst snd]. destruct (in_name_graph file); cbn [andb].
  2:{ cbn [length]. rewrite !app_nil_r, !Nat.add_0_r, Nat.add_1_r. split_and!; try done; intros j Hj; [apply H4 in Hj|apply H6 in Hj]; lia. }
  destruct (symbols_changed file (length files) (imap pair (symbols (facts file))) e) as (S1 & S2 & S3 & S4).
  set (e1 := foldl (symbol_change _ _ _) e _) in *. destruct (refs_changed file (length files) (refs (facts file)) e1) as (R1 & R2 & R3 & R4).
  set (e2 := foldl (ref_change _ _ _) e1 _) in *. injection S3 as S3 S3'. injection S4 as S4 S4'. rewrite S3, S3' in R3. rewrite S4, S4' in R4.
  destruct (count_if_fresh (any named (refs (facts file))) (spelling e) (last_spelling e) _ H4) as [C1 C2].
  destruct (count_if_fresh (any (fun r => named r && is_reference r) (refs (facts file))) (referencing e) (last_referencing e) _ H6) as [C3 C4].
  rewrite <- R3 in C1, C2. rewrite <- R4 in C3, C4. cbn [fst snd] in *. rewrite R1, R2, S1, S2, H1, H2, C1, C3, H3, H5, Nat.add_1_r.
  split; [done|]. split; [done|]. split; (split; [|done]); f_equal; apply count_one.
Qed.
End Name.

Lemma name_index_parts scan : exists index, build scan = Some index /\ files index = scan /\ forall m,
  definitions_of index m = flat_map (defined_in m) (imap pair scan) /\ sites_of index m = flat_map (spelled_in m) scan /\
  (StronglySorted (fun a b => bytes_le a b = true) (defining_paths index m) /\ NoDup (defining_paths index m) /\
   forall p, p ∈ defining_paths index m <-> exists d, d ∈ definitions_of index m /\ d_path d = p) /\
  spelling_spread index m = length (List.filter (spells m) scan) /\
  edge_spread index m = length (List.filter (references m) scan) /\
  caller_spread index m = Nat.max 1 (edge_spread index m).
Proof.
  unfold build. set (ns := sorted_names scan).
  set (start := {| files := scan; names := ns; positions := list_to_map (imap (fun at_ name => (name, at_)) ns); entries := map (fun _ => no_entry) ns |}).
  assert (shaped start) as Hs.
  { constructor; [|done|by cbn; rewrite length_map]. cbn. unfold ns, sorted_names. rewrite sort_strings_perm. apply NoDup_remove_dups. }
  destruct (add_files_spec (imap pair scan) start Hs) as (index & E & H & (Hf & Hn & Hp) & Hat).
  { intros i file Hin Hg n Hn. apply elem_of_lookup_imap in Hin as (j & f & [= -> ->] & Hj). cbn. unfold ns, sorted_names.
    rewrite sort_strings_elem, elem_of_remove_dups, list_elem_of_In, in_flat_map. exists f. split; [|by apply list_elem_of_In].
    apply filter_In. split; [|done]. apply list_elem_of_In. by eapply list_elem_of_lookup_2. }
  rewrite E. cbn [mbind option_bind]. eexists. split; [done|]. split; [by cbn; rewrite <- Hf|]. intros m.
  assert (entry_of start m = no_entry) as Hno.
  { unfold entry_of. destruct (position start m) as [i|]; [|done]. cbn. rewrite list_lookup_fmap. by destruct (ns !! i). }
  specialize (Hat m). rewrite Hno in Hat. destruct (files_changed m scan) as (H1 & H2 & (H3 & _) & (H4 & _)). rewrite <- Hat in H1, H2, H3, H4.
  set (final := with_entries _ _).
  assert (forall T (pick : NameEntry -> T), pick no_entry = pick (with_defining no_entry) -> forall d, d = pick no_entry ->
    default d (found ← position final m; pick <$> entries final !! found) = pick (with_defining (entry_of index m))) as Hpick.
  { intros T pick Hpick d ->. unfold entry_of, position. cbn [positions final with_entries entries]. destruct (positions index !! m) as [i|]; [|done].
    cbn. rewrite list_lookup_fmap. by destruct (entries index !! i). }
  unfold definitions_of, sites_of, defining_paths, spelling_spread, edge_spread, caller_spread, listed, counted.
  rewrite !Hpick by done. cbn [definitions sites defining spelling referencing with_defining]. rewrite H1, H2, H3, H4.
  split; [done|]. split; [done|]. split; [|split; [done|]; split; [done|]; by destruct (length _)].
  split; [apply dedup_sorted, sort_strings_sorted|]. split; [apply dedup_sorted_NoDup, sort_strings_sorted|].
  intros p. rewrite dedup_elem, sort_strings_elem, list_elem_of_fmap. naive_solver.
Qed.

(** C22: The pass over a scan ends without a panic, and its queries answer what filters of the scan
    answer: the definitions of a name with the places they are at, in scan order; its spellings, in
    scan order; the distinct paths that define it, sorted; and the numbers of files that spell it and
    that reference it, the latter read as one where there is none.  Files outside the name graph count for nothing. *)
Theorem name_index_exact scan : exists index, build scan = Some index /\ files index = scan /\ forall m,
  definitions_of index m = flat_map (defined_in m) (imap pair scan) /\ sites_of index m = flat_map (spelled_in m) scan /\
  (StronglySorted (fun a b => bytes_le a b = true) (defining_paths index m) /\ NoDup (defining_paths index m) /\
   forall p, p ∈ defining_paths index m <-> exists d, d ∈ definitions_of index m /\ d_path d = p) /\
  spelling_spread index m = length (List.filter (spells m) scan) /\
  edge_spread index m = length (List.filter (references m) scan) /\
  caller_spread index m = Nat.max 1 (edge_spread index m).
Proof. exact (name_index_parts scan). Qed.

(** A data file's keys stay out, and a file that spells a name twice counts once. *)
Example name_index_example :
  let ref name := {| name := lit name; line := 1; role := Reference; qualifier := [] |} in
  let file path language refs := {| path := lit path; language := language; line_count := 1;
    facts := {| symbols := []; imports := []; refs := refs; manifest := None; modules := [] |} |} in
  option_map (fun index => (caller_spread index (lit "f"), spelling_spread index (lit "g"), length (sites_of index (lit "f"))))
    (build [file "a.py" Python [ref "f"; ref "f"]; file "b.json" Json [ref "f"]; file "c.rs" Rust [ref "g"]]) = Some (1, 1, 2).
Proof. vm_compute. reflexivity. Qed.

(** A definition of a name is a symbol of a scanned file, at its place. *)
Lemma definition_scanned files index name d : build files = Some index -> d ∈ definitions_of index name ->
  files !! (d_position d).1 = Some (d_file d) /\ symbols (facts (d_file d)) !! (d_position d).2 = Some (d_symbol d) /\
  sym_name (d_symbol d) = name /\ in_name_graph (d_file d) = true.
Proof.
  intros Hb. destruct (name_index_parts files) as (index' & E & _ & H). rewrite Hb in E. injection E as <-. destruct (H name) as (-> & _).
  rewrite list_elem_of_In, in_flat_map. intros ([k file] & Hk & Hd). unfold defined_in in Hd. cbn [fst snd] in Hd.
  destruct (in_name_graph file) eqn:Eg; [|done]. apply list_elem_of_In, list_elem_of_omap in Hd as ([j s] & Hj & Hd). cbn [fst snd] in Hd.
  case_bool_decide; [|done]. injection Hd as <-. apply list_elem_of_In, elem_of_lookup_imap in Hk as (? & ? & [= <- <-] & Hk).
  apply elem_of_lookup_imap in Hj as (? & ? & [= <- <-] & Hj). done.
Qed.
