(* ===== verification/RustPaths.v ===== *)
(** Rust module paths over the scanned files: crates/graph/src/rust_paths.rs.

    The crates come from the Cargo manifests and the module tree from the layout of the files.
    [rust_resolve_exact] shows that a path walks from its first module as far as its segments name
    modules, and that the answer is a scanned file with the number of segments it stands for. *)

From S2P Require Import Prelude RustStr Ordered Text FactValues ModulePaths ImportTargets.

#[local] Open Scope rs_scope.
#[local] Open Scope nat_scope.

Definition MANIFEST : str := lit "Cargo.toml".
Definition DEFAULT_LIBRARY : str := lit "src/lib.rs".
Definition BINARIES : str := lit "src/bin/".
Definition TARGET_DIRS : list str := [lit "tests/"; lit "benches/"; lit "examples/"].

Record RustTree := {
  paths : PathIndex;
  crates : gmap str str;
  packages : list (str * option str);
  manifests : bool;
  exports : gmap (str * str) str
}.

Inductive Module := File (file : str) | Dir (dir : str).

Definition ends_with (suffix s : str) : bool := bool_decide (is_Some (strip_suffix suffix s)).

Definition parent_dir (path : str) : str := from_option fst [] (rsplit_once c_slash path).

(** [path] is below the directory; every path is below the root. *)
Definition holds (dir path : str) : bool := bool_decide (dir = []) || from_option (starts_with [c_slash]) false (strip_prefix dir path).

Definition is_manifest (file : FileFacts) : bool :=
  bool_decide (language file = Toml) && (bool_decide (path file = MANIFEST) || ends_with ([c_slash] ++ MANIFEST) (path file)).

Definition target_dir (inside : str) : option (str * str) :=
  find_map (fun top => rest ← strip_prefix top inside; Some (top, rest)) (BINARIES :: TARGET_DIRS).

Definition dash_to_underscore (name : str) : str := replace_char 45 95 name.

(** One manifest: its crate, unless a manifest before it has the name, and its package. *)
Definition add_manifest (index : PathIndex) (acc : gmap str str * list (str * option str)) (file : FileFacts) :
    gmap str str * list (str * option str) :=
  let '(crates, packages) := acc in
  match manifest (facts file) with
  | None => acc
  | Some m =>
      let dir := default [] (strip_suffix MANIFEST (path file)) in
      let library := default DEFAULT_LIBRARY (lib_path m) in
      let root := get index (normalized (dir ++ library)) in
      let name := dash_to_underscore (default (package m) (lib_name m)) in
      (match root with
       | Some root => if bool_decide (is_Some (crates !! name)) then crates else <[name := root]> crates
       | None => crates
       end, packages ++ [(dir, root)])
  end.

Definition build (files : list FileFacts) (index : PathIndex) : RustTree :=
  let manifests := List.filter is_manifest files in
  let '(crates, packages) := foldl (add_manifest index) (∅, []) manifests in
  {| paths := index; crates := crates; packages := sort_by (fun l r => utf8_len r.1 <=? utf8_len l.1) packages;
     manifests := negb (bool_decide (manifests = [])); exports := ∅ |}.

Definition with_exports (tree : RustTree) (e : gmap (str * str) str) : RustTree :=
  {| paths := paths tree; crates := crates tree; packages := packages tree; manifests := manifests tree; exports := e |}.

Section Tree.
Context (tree : RustTree).

Definition target_root (path dir : str) (target : str * str) : option str :=
  let '(top, rest) := target in
  match split_once c_slash rest with
  | None => Some path
  | Some (name, _) => get (paths tree) (dir ++ top ++ name ++ lit "/main.rs")
  end.

Definition crate_root (path : str) : option str :=
  '(dir, library) ← List.find (fun package => starts_with package.1 path) (packages tree);
  let inside := drop (length dir) path in
  match target_dir inside with
  | Some target => target_root path dir target
  | None =>
      let main := get (paths tree) (dir ++ lit "src/main.rs") in
      if bool_decide (main = Some path) then main
      else
        match (library ← library; if holds (parent_dir library) path then Some library else None) with
        | Some library => Some library
        | None => if starts_with (lit "src/") inside then main else Some path
        end
  end.

Definition is_root (path : str) : bool := bool_decide (crate_root path = Some path).

Definition module_dir (path : str) : str :=
  if is_root path || ends_with (lit "/mod.rs") path || bool_decide (path = lit "mod.rs") then parent_dir path
  else default path (strip_suffix (lit ".rs") path).

Definition module_at (dir : str) : option Module :=
  if bool_decide (dir = []) then File <$> get (paths tree) (lit "mod.rs")
  else
    let file := match get (paths tree) (dir ++ lit "/mod.rs") with
                | Some file => Some file
                | None => get (paths tree) (dir ++ lit ".rs")
                end in
    Some (from_option File (Dir dir) file).

Definition parent_module (module : Module) (importer : str) : option Module :=
  root ← crate_root importer;
  up ← match module with
       | File file => if bool_decide (file = root) then None else Some (parent_dir (module_dir file))
       | Dir dir => Some (parent_dir dir)
       end;
  if bool_decide (parent_dir root = up) then Some (File root) else module_at up.

(** One segment down from a module. *)
Definition step (module : Module) (segment : str) : option Module :=
  let dir := match module with File file => module_dir file | Dir dir => dir end in
  let prefix := if bool_decide (dir = []) then [] else dir ++ [c_slash] in
  let found := match get (paths tree) (prefix ++ segment ++ lit ".rs") with
               | Some found => Some found
               | None => get (paths tree) (prefix ++ segment ++ lit "/mod.rs")
               end in
  match found with
  | Some found => Some (File found)
  | None =>
      let bound := match module with File file => exports tree !! (file, segment) | Dir _ => None end in
      match bound with
      | Some bound => Some (File bound)
      | None =>
          let inner := prefix ++ segment in
          if has_prefix (paths tree) (inner ++ [c_slash]) then Some (Dir inner) else None
      end
  end.

(** The [super] segments at the front, one parent for each. *)
Fixpoint climb (importer : str) (current : Module) (used : nat) (segments : list str) : option (Module * nat) :=
  match segments with
  | segment :: segments =>
      if bool_decide (segment = lit "super") then parent ← parent_module current importer; climb importer parent (used + 1) segments
      else Some (current, used)
  | [] => Some (current, used)
  end.

Definition first (importer : str) (segments : list str) : option (Module * nat) :=
  name ← head segments;
  if bool_decide (name = lit "crate") || bool_decide (name = lit "$crate") then root ← crate_root importer; Some (File root, 1)
  else if bool_decide (name = lit "self") then Some (File importer, 1)
  else if bool_decide (name = lit "super") then climb importer (File importer) 0 segments
  else if bool_decide (name = []) then krate ← segments !! 1; root ← crates tree !! krate; Some (File root, 2)
  else
    match step (File importer) name with
    | Some found => Some (found, 1)
    | None => root ← crates tree !! name; Some (File root, 1)
    end.

(** The walk below [current]; [last_file] is the last module file with the segments it took. *)
Fixpoint walk_down (current : Module) (used : nat) (last_file : str * nat) (segments : list str) : option (str * nat) :=
  let stop := match current with
              | File file => Some (file, used)
              | Dir _ => if 0 <? last_file.2 then Some last_file else None
              end in
  match segments with
  | [] => stop
  | segment :: segments =>
      match step current segment with
      | None => stop
      | Some next =>
          walk_down next (used + 1) (match next with File file => (file, used + 1) | Dir _ => last_file end) segments
      end
  end.

Definition walk (importer : str) (segments : list str) (start : Module) (used : nat) : option (str * nat) :=
  walk_down start used (match start with File file => (file, used) | Dir _ => (importer, 0) end) (drop used segments).

(** [resolve] outside inline modules. *)
Definition resolve_flat (importer : str) (segments : list str) : option (str * nat) :=
  '(start, used) ← first importer segments; walk importer segments start used.

Definition resolve_in_file (importer : str) (segments : list str) (lead : nat) : option (str * nat) :=
  let rest := drop lead segments in
  match rest with
  | [] => Some (importer, lead)
  | segment :: _ =>
      if bool_decide (segment = lit "super") then '(file, used) ← resolve_flat importer rest; Some (file, used + lead)
      else '(file, used) ← resolve_flat importer (lit "self" :: rest); Some (file, used - 1 + lead)
  end.

Definition resolve (importer : str) (segments : list str) (inline : nat) : option (str * nat) :=
  let lead := length (take_while (fun segment => bool_decide (segment = lit "super")) (take inline segments)) in
  if 0 <? lead then resolve_in_file importer segments lead else resolve_flat importer segments.

Definition names_repository_module (importer first : str) : bool :=
  bool_decide (first ∈ [lit "crate"; lit "$crate"; lit "self"; lit "super"]) || bool_decide (is_Some (crates tree !! first))
    || match step (File importer) first with Some (File _) => true | _ => false end.

(** * The walk *)

(** The modules that a walk goes through, one for each segment. *)
Inductive walks : Module -> list str -> Module -> Prop :=
| walks_here m : walks m [] m
| walks_on m segment m' segments m'' : step m segment = Some m' -> walks m' segments m'' -> walks m (segment :: segments) m''.

(** The last module file of a walk, with the segments up to it. *)
Inductive last_on (start : Module) (segments : list str) : option (str * nat) -> Prop :=
| last_file k file : k <= length segments -> walks start (take k segments) (File file) ->
    (forall j m, k < j <= length segments -> walks start (take j segments) m -> exists dir, m = Dir dir) -> last_on start segments (Some (file, k))
| last_none : (forall j m, j <= length segments -> walks start (take j segments) m -> exists dir, m = Dir dir) -> last_on start segments None.

Lemma walks_unique m segments m1 m2 : walks m segments m1 -> walks m segments m2 -> m1 = m2.
Proof.
  intros H. revert m2. induction H as [m|m s m' ss m'' Hs _ IH]; intros m2 H2; inversion H2 as [|? ? ? ? ? Hs2 H2']; subst; [done|].
  rewrite Hs in Hs2. injection Hs2 as <-. by apply IH.
Qed.

Lemma walks_snoc m segments m' segment m'' : walks m segments m' -> step m' segment = Some m'' -> walks m (segments ++ [segment]) m''.
Proof. induction 1 as [m|m s m1 ss m2 Hs _ IH]; intros H; [econstructor; [done|constructor]|]. cbn. econstructor; [done|by apply IH]. Qed.

Lemma last_on_file start segments file : walks start segments (File file) -> last_on start segments (Some (file, length segments)).
Proof. intros H. apply last_file; [done|by rewrite take_ge|]. intros j m Hj. lia. Qed.

(** A directory at the end leaves the last file of the walk as it was. *)
Lemma last_on_dir start segments segment dir lo : walks start (segments ++ [segment]) (Dir dir) -> last_on start segments lo ->
  last_on start (segments ++ [segment]) lo.
Proof.
  intros Hd H.
  assert (forall j m, j <= length (segments ++ [segment]) -> walks start (take j (segments ++ [segment])) m ->
    m = Dir dir \/ (j <= length segments /\ walks start (take j segments) m)) as Hcase.
  { intros j m Hj Hm. rewrite length_app in Hj. cbn [length] in Hj. destruct (decide (j <= length segments)) as [Hle|Hgt].
    - right. rewrite take_app_le in Hm by done. done.
    - left. rewrite take_ge in Hm by (rewrite length_app; cbn [length]; lia). by eapply walks_unique. }
  destruct H as [k file Hk Hw Hafter|Hnone].
  - apply last_file; [rewrite length_app; lia|by rewrite take_app_le|]. intros j m Hj Hm. destruct (Hcase j m ltac:(lia) Hm) as [->|[Hle Hm']]; [by eexists|].
    apply (Hafter j m); [lia|done].
  - apply last_none. intros j m Hj Hm. destruct (Hcase j m Hj Hm) as [->|[Hle Hm']]; [by eexists|]. by apply (Hnone j m).
Qed.

Lemma last_on_unique start segments lo1 lo2 : last_on start segments lo1 -> last_on start segments lo2 -> lo1 = lo2.
Proof.
  assert (forall k file, k <= length segments -> walks start (take k segments) (File file) -> ~ exists dir, File file = Dir dir) as Hno by by intros ? ? ? ? [].
  intros [k1 f1 Hk1 Hw1 Ha1|Hn1] [k2 f2 Hk2 Hw2 Ha2|Hn2]; [| | |done].
  - destruct (Nat.lt_total k1 k2) as [Hlt|[->|Hlt]].
    + by destruct (Ha1 k2 _ ltac:(lia) Hw2).
    + pose proof (walks_unique _ _ _ _ Hw1 Hw2) as E. by injection E as ->.
    + by destruct (Ha2 k1 _ ltac:(lia) Hw1).
  - by destruct (Hn2 k1 _ Hk1 Hw1).
  - by destruct (Hn1 k2 _ Hk2 Hw2).
Qed.

Definition shift (u : nat) (lo : option (str * nat)) : option (str * nat) := (fun found => (found.1, u + found.2)) <$> lo.

(** Where a walk from a module ends: at the first segment that is no module below, with its last file. *)
Definition walk_ends (start : Module) (segments : list str) (u : nat) (r : option (str * nat)) : Prop :=
  exists k m lo, k <= length segments /\ walks start (take k segments) m /\ (forall s, segments !! k = Some s -> step m s = None) /\
    last_on start (take k segments) lo /\ r = shift u lo.

(** The answer of a walk that stops is its last file. *)
Lemma stop_spec start all current k u importer lo : 0 < u -> k <= length all -> walks start (take k all) current -> last_on start (take k all) lo ->
  match current with
  | File file => Some (file, u + k)
  | Dir _ => if 0 <? (default (importer, 0) (shift u lo)).2 then Some (default (importer, 0) (shift u lo)) else None
  end = shift u lo.
Proof.
  intros Hu Hk Hw Hlo. destruct current as [file|dir].
  - pose proof (last_on_file _ _ _ Hw) as Hf. rewrite length_take_le in Hf by done. by rewrite (last_on_unique _ _ _ _ Hlo Hf).
  - destruct lo as [[f j]|]; [|done]. change (shift u (Some (f, j))) with (Some (f, u + j)). cbn [default from_option id snd].
    by rewrite (proj2 (Nat.ltb_lt 0 (u + j))) by lia.
Qed.

Lemma walk_down_spec start all u importer : 0 < u -> forall segments current k last_file lo, all = take k all ++ segments -> k <= length all ->
  walks start (take k all) current -> last_on start (take k all) lo -> last_file = default (importer, 0) (shift u lo) ->
  walk_ends start all u (walk_down current (u + k) last_file segments).
Proof.
  intros Hu. induction segments as [|segment segments IH]; intros current k last_file lo Hall Hk Hw Hlo Hl.
  - pose proof (stop_spec start all current k u importer lo Hu Hk Hw Hlo) as Hstop. rewrite <- Hl in Hstop.
    exists k, current, lo. split; [done|]. split; [done|]. split; [|split; [done|exact Hstop]].
    intros s Hs. apply lookup_lt_Some in Hs. rewrite app_nil_r in Hall. rewrite Hall, length_take_le in Hs by done. lia.
  - pose proof (stop_spec start all current k u importer lo Hu Hk Hw Hlo) as Hstop. rewrite <- Hl in Hstop.
    assert (all !! k = Some segment) as Hat.
    { rewrite Hall, lookup_app_r by (rewrite length_take_le; done). by rewrite length_take_le, Nat.sub_diag. }
    cbn [walk_down]. destruct (step current segment) as [next|] eqn:Es.
    + assert (take (S k) all = take k all ++ [segment]) as Htake by by apply take_S_r.
      assert (walks start (take (S k) all) next) as Hw' by (rewrite Htake; by eapply walks_snoc).
      replace (u + k + 1) with (u + S k) by lia. eapply (IH next (S k) _ (match next with File file => Some (file, S k) | Dir _ => lo end)).
      * rewrite Htake, <- app_assoc. exact Hall.
      * apply lookup_lt_Some in Hat. lia.
      * done.
      * destruct next as [file|dir]; [|by rewrite Htake in *; eapply last_on_dir].
        pose proof (last_on_file _ _ _ Hw') as Hf. rewrite length_take_le in Hf by (apply lookup_lt_Some in Hat; lia). done.
      * destruct next; [done|done].
    + exists k, current, lo. split; [done|]. split; [done|]. split; [|split; [done|exact Hstop]]. intros s Hs. congruence.
Qed.

Lemma walk_exact importer segments start used : 0 < used -> walk_ends start (drop used segments) used (walk importer segments start used).
Proof.
  intros Hu. unfold walk. set (last := match start with File file => (file, used) | Dir _ => (importer, 0) end).
  pose proof (walk_down_spec start (drop used segments) used importer Hu (drop used segments) start 0 last
    (match start with File file => Some (file, 0) | Dir _ => None end)) as H. rewrite Nat.add_0_r in H. apply H.
  - done.
  - lia.
  - constructor.
  - destruct start as [file|dir]; cbn [take].
    + apply (last_on_file (File file) []). constructor.
    + apply last_none. intros j m Hj Hm. destruct j; inversion Hm; subst; by eexists.
  - unfold last. destruct start; [|done]. cbn. by rewrite Nat.add_0_r.
Qed.

(** * Scanned files *)

Section Scanned.
Context (all : list str) (Hpaths : paths tree = ModulePaths.build all).
Context (Hcrates : map_Forall (fun _ file => file ∈ all) (crates tree)).
Context (Hpackages : Forall (fun package => forall root, package.2 = Some root -> root ∈ all) (packages tree)).
Context (Hexports : map_Forall (fun _ file => file ∈ all) (exports tree)).

Definition scanned (m : Module) : Prop := match m with File file => file ∈ all | Dir _ => True end.

Lemma get_scanned p q : get (paths tree) p = Some q -> q ∈ all.
Proof. rewrite Hpaths, get_spec. by intros [-> ?]. Qed.

Lemma crate_root_scanned path root : path ∈ all -> crate_root path = Some root -> root ∈ all.
Proof.
  intros Hp. unfold crate_root. destruct (List.find _ _) as [[dir library]|] eqn:Ef; [|done]. cbn [mbind option_bind].
  assert (forall root, library = Some root -> root ∈ all) as Hl.
  { apply find_some in Ef as [Hin _]. rewrite Forall_forall in Hpackages. apply (Hpackages (dir, library)), list_elem_of_In, Hin. }
  destruct (target_dir _) as [[top rest]|]; cbn [target_root].
  - destruct (split_once c_slash rest) as [[name r]|]; [apply get_scanned|by intros [= <-]].
  - case_bool_decide; [apply get_scanned|]. destruct library as [library|]; cbn [mbind option_bind].
    + destruct (holds _ _); [intros [= <-]; by apply Hl|]. destruct (starts_with _ _); [apply get_scanned|by intros [= <-]].
    + destruct (starts_with _ _); [apply get_scanned|by intros [= <-]].
Qed.

Lemma step_scanned m segment m' : step m segment = Some m' -> scanned m'.
Proof.
  unfold step. set (dir := match m with File file => module_dir file | Dir dir => dir end). set (p := if bool_decide (dir = []) then _ else _). clearbody p.
  destruct (get (paths tree) (p ++ segment ++ lit ".rs")) as [q|] eqn:E1; [intros [= <-]; by eapply get_scanned|].
  destruct (get (paths tree) (p ++ segment ++ lit "/mod.rs")) as [q|] eqn:E2; [intros [= <-]; by eapply get_scanned|].
  destruct m as [file|d].
  - destruct (exports tree !! (file, segment)) as [b|] eqn:Eb; [intros [= <-]; by eapply Hexports|]. destruct (has_prefix _ _); [by intros [= <-]|done].
  - destruct (has_prefix _ _); [by intros [= <-]|done].
Qed.

Lemma parent_scanned m importer m' : importer ∈ all -> parent_module m importer = Some m' -> scanned m'.
Proof.
  intros Hi. unfold parent_module. destruct (crate_root importer) as [root|] eqn:Er; [|done]. cbn [mbind option_bind].
  pose proof (crate_root_scanned _ _ Hi Er) as Hroot.
  destruct (match m with File file => _ | Dir dir => _ end) as [up|]; [|done]. cbn [mbind option_bind].
  case_bool_decide; [by intros [= <-]|]. unfold module_at. case_bool_decide.
  - destruct (get _ _) as [q|] eqn:E; [|done]. intros [= <-]. by eapply get_scanned.
  - destruct (get (paths tree) (up ++ lit "/mod.rs")) as [q|] eqn:E; [intros [= <-]; by eapply get_scanned|].
    destruct (get (paths tree) (up ++ lit ".rs")) as [q|] eqn:E2; intros [= <-]; [by eapply get_scanned|done].
Qed.

Lemma climb_scanned importer segments : importer ∈ all -> forall m used m' used', scanned m -> climb importer m used segments = Some (m', used') ->
  scanned m' /\ used <= used' <= used + length segments /\ (head segments = Some (lit "super") -> used < used').
Proof.
  intros Hi. induction segments as [|s segments IH]; intros m used m' used' Hm; cbn [climb]; [intros [= <- <-]; cbn; split; [done|]; split; [lia|done]|].
  case_bool_decide as Hs.
  - destruct (parent_module m importer) as [p|] eqn:Ep; [|done]. cbn [mbind option_bind]. intros Hc.
    destruct (IH _ _ _ _ (parent_scanned _ _ _ Hi Ep) Hc) as (H1 & H2 & _). cbn [length]. split; [done|]. split; [lia|]. intros _. lia.
  - intros [= <- <-]. cbn [length head]. split; [done|]. split; [lia|]. intros [= ->]. done.
Qed.

Lemma first_scanned importer segments start used : importer ∈ all -> first importer segments = Some (start, used) ->
  scanned start /\ 0 < used <= length segments.
Proof.
  intros Hi. unfold first. destruct segments as [|name segments]; [done|]. cbn [head mbind option_bind length].
  destruct (_ || _).
  { destruct (crate_root importer) as [root|] eqn:Er; [|done]. intros [= <- <-]. split; [by eapply crate_root_scanned|lia]. }
  case_bool_decide; [intros [= <- <-]; split; [done|lia]|].
  case_bool_decide as Hs.
  { intros Hc. apply (climb_scanned importer (name :: segments) Hi) in Hc as (H1 & H2 & H3); [|done]. split; [done|].
    subst name. specialize (H3 eq_refl). cbn [length] in H2. lia. }
  case_bool_decide.
  { destruct segments as [|krate segments]; [done|]. cbn [lookup list_lookup mbind option_bind]. destruct (crates tree !! krate) as [root|] eqn:Er; [|done].
    intros [= <- <-]. split; [by eapply Hcrates|cbn [length]; lia]. }
  destruct (step (File importer) name) as [m|] eqn:Em; [intros [= <- <-]; split; [by eapply step_scanned|lia]|].
  destruct (crates tree !! name) as [root|] eqn:Er; [|done]. intros [= <- <-]. split; [by eapply Hcrates|lia].
Qed.

Lemma walks_scanned m segments m' : walks m segments m' -> scanned m -> scanned m'.
Proof. induction 1 as [m|m s m1 ss m2 Hs _ IH]; [done|]. intros _. by eapply IH, step_scanned. Qed.

(** The path, outside inline modules, names this file by these many segments. *)
Definition flat_names (importer : str) (segments : list str) (r : option (str * nat)) : Prop :=
  match first importer segments with
  | None => r = None
  | Some (start, used) => walk_ends start (drop used segments) used r
  end.

Lemma resolve_flat_spec importer segments : importer ∈ all -> flat_names importer segments (resolve_flat importer segments).
Proof.
  intros Hi. unfold flat_names, resolve_flat. destruct (first importer segments) as [[start used]|] eqn:E; [|done]. cbn [mbind option_bind].
  apply first_scanned in E as [_ [Hu _]]; [|done]. by apply walk_exact.
Qed.

Lemma flat_scanned importer segments file used : importer ∈ all -> resolve_flat importer segments = Some (file, used) ->
  file ∈ all /\ 0 < used <= length segments.
Proof.
  intros Hi H. pose proof (resolve_flat_spec importer segments Hi) as Hf. unfold flat_names in Hf.
  destruct (first importer segments) as [[start u]|] eqn:E; [|congruence]. apply first_scanned in E as [Hs Hu]; [|done].
  destruct Hf as (k & m & lo & Hk & _ & _ & Hlo & Hr). rewrite H in Hr. destruct Hlo as [j f Hj Hw _|]; [|done]. injection Hr as -> ->.
  rewrite length_take, length_drop in *. cbn [fst snd]. split; [by apply (walks_scanned _ _ _ Hw Hs)|lia].
Qed.

(** The file and the number of segments that a path names are within the scan and the path. *)
Lemma resolve_scanned importer segments inline file used : importer ∈ all -> resolve importer segments inline = Some (file, used) ->
  file ∈ all /\ 0 < used <= length segments.
Proof.
  intros Hi. unfold resolve. destruct (take_while_split (fun s => bool_decide (s = lit "super")) (take inline segments)) as (rest & Hsplit & _).
  apply (f_equal length) in Hsplit. rewrite length_app in Hsplit. pose proof (f_equal length (take_drop inline segments)) as Hle.
  rewrite length_app in Hle. set (lead := length (take_while _ _)) in *.
  destruct (Nat.ltb_spec 0 lead); [|apply flat_scanned; done]. unfold resolve_in_file.
  destruct (drop lead segments) as [|s more] eqn:Ed; [intros [= <- <-]; split; [done|lia]|].
  assert (length (s :: more) = length segments - lead) as Hd by (rewrite <- Ed; apply length_drop). cbn [length] in Hd.
  case_bool_decide.
  + destruct (resolve_flat importer (s :: more)) as [[f u]|] eqn:Ef; [|done]. intros [= <- <-]. apply flat_scanned in Ef as [Hin Hu]; [|done].
    cbn [length] in Hu. split; [done|lia].
  + destruct (resolve_flat importer (lit "self" :: s :: more)) as [[f u]|] eqn:Ef; [|done]. intros [= <- <-].
    apply flat_scanned in Ef as [Hin Hu]; [|done]. cbn [length] in Hu. split; [done|lia].
Qed.

(** C20: A path of segments written in a scanned file inside inline modules names a scanned file and by
    how many of its segments.  The [super] segments that stay inside the file, as many as the inline
    modules allow, leave the rest to be read at the top of the file; the rest starts at its first
    module, walks down while a segment names a module, and answers with the last module file on
    that walk.  The subtraction of the [self] put before it does not wrap. *)
Theorem rust_resolve_exact importer segments inline : importer ∈ all ->
  (exists lead, lead <= inline /\ Forall (fun s => s = lit "super") (take lead segments) /\
    (lead < inline -> segments !! lead <> Some (lit "super")) /\ lead <= length segments /\
    match drop lead segments with
    | [] => if bool_decide (lead = 0) then resolve importer segments inline = None else resolve importer segments inline = Some (importer, lead)
    | s :: _ => if bool_decide (lead = 0) || bool_decide (s = lit "super")
                then exists r, flat_names importer (drop lead segments) r /\ resolve importer segments inline = shift lead r
                else exists r, flat_names importer (lit "self" :: drop lead segments) r /\
                       resolve importer segments inline = (fun found => (found.1, found.2 - 1 + lead)) <$> r
    end) /\
  (forall file used, resolve importer segments inline = Some (file, used) -> file ∈ all /\ 0 < used <= length segments) /\
  (forall file used, resolve_flat importer (lit "self" :: segments) = Some (file, used) -> 1 <= used).
Proof.
  intros Hi. destruct (take_while_split (fun s => bool_decide (s = lit "super")) (take inline segments)) as (rest & Hsplit & Hall & Hstop).
  unfold resolve. set (front := take_while _ (take inline segments)) in *. set (lead := length front).
  assert (segments = front ++ rest ++ drop inline segments) as Hsegs by (rewrite app_assoc, <- Hsplit; by rewrite take_drop).
  assert (take lead segments = front) as Hfront by (rewrite Hsegs at 1; apply take_app_length).
  assert (lead + length rest <= inline) as Hle by (apply (f_equal length) in Hsplit; rewrite length_take, length_app in Hsplit; fold lead in Hsplit; lia).
  assert (lead <= length segments) as Hlen by (rewrite Hsegs; rewrite length_app; fold lead; lia).
  split; [|split; [|intros file used H; by apply flat_scanned in H as [_ [? _]]]].
  - exists lead. split; [lia|]. split; [|split; [|split; [done|]]].
    + rewrite Hfront. eapply Forall_impl; [exact Hall|]. intros s. apply bool_decide_eq_true.
    + intros Hlt. rewrite Hsegs, lookup_app_r, Nat.sub_diag by done. destruct rest as [|c rest]; cbn [app lookup list_lookup].
      * rewrite app_nil_r in Hsplit. apply (f_equal length) in Hsplit. fold lead in Hsplit. rewrite length_take in Hsplit.
        rewrite (drop_ge segments inline) by lia. done.
      * intros [= ->]. cbn [stops] in Hstop. by rewrite bool_decide_true in Hstop.
    + unfold resolve_in_file. destruct (drop lead segments) as [|s more] eqn:Ed.
      * case_bool_decide as H0; [|by rewrite (proj2 (Nat.ltb_lt 0 lead)) by lia].
        rewrite H0 in *. cbn [drop] in Ed. rewrite drop_0 in Ed. by rewrite Ed.
      * case_bool_decide as H0; cbn [orb].
        -- rewrite H0 in *. rewrite drop_0 in Ed. rewrite <- Ed. exists (resolve_flat importer segments). split; [by apply resolve_flat_spec|].
           cbn. by destruct (resolve_flat importer segments) as [[]|].
        -- rewrite (proj2 (Nat.ltb_lt 0 lead)) by lia. case_bool_decide.
           ++ exists (resolve_flat importer (s :: more)). split; [by apply resolve_flat_spec|]. destruct (resolve_flat importer (s :: more)) as [[f u]|]; [|done].
              cbn. by rewrite Nat.add_comm.
           ++ exists (resolve_flat importer (lit "self" :: s :: more)). split; [by apply resolve_flat_spec|].
              by destruct (resolve_flat importer (lit "self" :: s :: more)) as [[f u]|].
  - intros file used. by apply resolve_scanned.
Qed.
End Scanned.
End Tree.

(** The crates and packages that the manifests of a scan give are scanned files. *)
Lemma build_scanned files all : let tree := build files (ModulePaths.build all) in
  paths tree = ModulePaths.build all /\ map_Forall (fun _ file => file ∈ all) (crates tree) /\
  Forall (fun package => forall root, package.2 = Some root -> root ∈ all) (packages tree) /\ map_Forall (fun _ file => file ∈ all) (exports tree).
Proof.
  unfold build. set (ms := List.filter is_manifest files).
  assert (forall acc, map_Forall (fun _ file => file ∈ all) acc.1 -> Forall (fun package : str * option str => forall root, package.2 = Some root -> root ∈ all) acc.2 ->
    let '(crates, packages) := foldl (add_manifest (ModulePaths.build all)) acc ms in
    map_Forall (fun _ file => file ∈ all) crates /\ Forall (fun package : str * option str => forall root, package.2 = Some root -> root ∈ all) packages) as H.
  { induction ms as [|file ms IH]; intros [cs ps] Hc Hp; [done|]. cbn [foldl]. apply IH; unfold add_manifest; destruct (manifest (facts file)) as [m|]; try done; cbn [fst snd] in *.
    - destruct (get _ _) as [root|] eqn:E; [|done]. case_bool_decide; [done|]. apply get_spec in E as [-> Hin]. by apply map_Forall_insert_2.
    - apply Forall_app. split; [done|]. constructor; [|done]. cbn. intros root E. by apply get_spec in E as [-> ?]. }
  specialize (H (∅, []) (map_Forall_empty _) (Forall_nil_2 _)). destruct (foldl _ _ ms) as [cs ps]. destruct H as [H1 H2].
  cbn. split; [done|]. split; [done|]. split; [by rewrite sort_by_perm|apply map_Forall_empty].
Qed.

(** A crate with a nested module and an inline one. *)
Definition sample_manifest : FileFacts :=
  {| path := lit "app/Cargo.toml"; language := Toml; line_count := 1;
     facts := {| symbols := []; imports := []; refs := []; manifest := Some {| package := lit "my-app"; lib_name := None; lib_path := None |}; modules := [] |} |}.

Definition sample_paths : list str := [lit "app/Cargo.toml"; lit "app/src/lib.rs"; lit "app/src/a.rs"; lit "app/src/a/b.rs"; lit "app/src/x/y/z.rs"].

Lemma rust_resolve_exact_witness :
  let tree := build [sample_manifest] (ModulePaths.build sample_paths) in
  lit "app/src/a/b.rs" ∈ sample_paths /\
  resolve tree (lit "app/src/a/b.rs") [lit "super"; lit "super"; lit "a"; lit "b"; lit "f"] 1 = Some (lit "app/src/a.rs", 2) /\
  resolve tree (lit "app/src/a/b.rs") [lit "my_app"; lit "a"; lit "b"; lit "f"] 0 = Some (lit "app/src/a/b.rs", 3) /\
  resolve tree (lit "app/src/lib.rs") [lit "x"; lit "y"; lit "z"; lit "g"] 0 = Some (lit "app/src/x/y/z.rs", 3) /\
  lit "app/src/x/y/z.rs" ∈ sample_paths.
Proof.
  intros tree. destruct (build_scanned [sample_manifest] sample_paths) as (H1 & H2 & H3 & H4).
  assert (lit "app/src/lib.rs" ∈ sample_paths) as Hi by (apply (bool_decide_unpack _); vm_compute; exact I).
  assert (resolve tree (lit "app/src/lib.rs") [lit "x"; lit "y"; lit "z"; lit "g"] 0 = Some (lit "app/src/x/y/z.rs", 3)) as E by (vm_compute; reflexivity).
  split; [apply (bool_decide_unpack _); vm_compute; exact I|]. split; [vm_compute; reflexivity|]. split; [vm_compute; reflexivity|]. split; [exact E|].
  destruct (rust_resolve_exact tree sample_paths H1 H2 H3 H4 (lit "app/src/lib.rs") [lit "x"; lit "y"; lit "z"; lit "g"] 0 Hi) as (_ & H & _).
  by apply H in E as [E _].
Defined.
