(* ===== verification/Scopes.v ===== *)
(** What the import statements of each file bind: crates/graph/src/scopes.rs and entries.rs.

    A file's statements resolve to scanned files: those of Rust through the module tree of
    RustPaths.v, the others through ImportTargets.v.  [bind_file_exact] says what each statement of a
    file that is not Rust binds, and [scopes_scanned] that every target of every scope is a scanned
    file, after the passes that let Rust paths go through re-exports too. *)

From S2P Require Import Prelude RustStr Ordered Text FactValues ModulePaths ImportTargets RustPaths.

#[local] Open Scope rs_scope.
#[local] Open Scope nat_scope.

(** * The names of package entries: entries.rs *)

Record EntryNames := { objects : gmap (str * str) (gset (option str)) }.

Definition insert_object (entry name : str) (object : option str) (names : EntryNames) : EntryNames :=
  {| objects := <[(entry, name) := {[object]} ∪ default ∅ (objects names !! (entry, name))]> (objects names) |}.

Definition bound_objects (entry : str) (i : Import) (paths : PathIndex) : list (str * option str) :=
  let level := relative_level i in
  if bool_decide (names i = []) then
    let '(binding, referenced) := module_object i in [(binding, resolve_import_target entry referenced level paths)]
  else map (fun '(member, local) => (local, resolve_imported_submodule entry (module i) level member paths)) (bound_names i).

Definition add_entry (paths : PathIndex) (names : EntryNames) (file : FileFacts) : EntryNames :=
  let entry := path file in
  let names := foldl (fun names s => insert_object entry (sym_name s) None names) names
                 (List.filter (fun s => bool_decide (parent s = [])) (symbols (facts file))) in
  foldl (fun names i => foldl (fun names bound => insert_object entry bound.1 bound.2 names) names (bound_objects entry i paths)) names
    (List.filter (fun i => bool_decide (runs i = Load) && negb (binds_all i)) (imports (facts file))).

Definition build_entries (files : list FileFacts) (paths : PathIndex) : EntryNames :=
  foldl (add_entry paths) {| objects := ∅ |} (List.filter (fun file => is_package_entry (path file)) files).

Definition rebinds (names : EntryNames) (entry : str) (members : list (str * option str)) : bool :=
  any (fun '(member, module) =>
    from_option (fun objs => any (fun object => negb (bool_decide (object = module))) (elements objs)) false (objects names !! (entry, member))) members.

(** * Scopes *)

Record ResolvedImport := { row_module : str; row_line : Z; resolved : option str; relative : bool; statement : nat }.

Inductive Qualified := QModule (module : str) | Foreign.

Record ImportScope := {
  wholesale : gset str;
  module_bindings : gmap str (gset str);
  named : gmap str (gset str);
  members : gmap str (gset (str * str));
  statements : list ResolvedImport;
  qualified_paths : gmap str Qualified
}.

Definition empty_scope : ImportScope :=
  {| wholesale := ∅; module_bindings := ∅; named := ∅; members := ∅; statements := []; qualified_paths := ∅ |}.

(** [entry(k).or_default().insert(v)]. *)
Definition bind_to {V} `{Countable V} (bindings : gmap str (gset V)) (k : str) (v : V) : gmap str (gset V) :=
  <[k := {[v]} ∪ default ∅ (bindings !! k)]> bindings.

Definition add_wholesale (p : str) (s : ImportScope) : ImportScope :=
  {| wholesale := {[p]} ∪ wholesale s; module_bindings := module_bindings s; named := named s; members := members s;
     statements := statements s; qualified_paths := qualified_paths s |}.

Definition add_module (local p : str) (s : ImportScope) : ImportScope :=
  {| wholesale := wholesale s; module_bindings := bind_to (module_bindings s) local p; named := named s; members := members s;
     statements := statements s; qualified_paths := qualified_paths s |}.

Definition add_named (local p : str) (s : ImportScope) : ImportScope :=
  {| wholesale := wholesale s; module_bindings := module_bindings s; named := bind_to (named s) local p; members := members s;
     statements := statements s; qualified_paths := qualified_paths s |}.

Definition add_member (local p member : str) (s : ImportScope) : ImportScope :=
  {| wholesale := wholesale s; module_bindings := module_bindings s; named := named s; members := bind_to (members s) local (p, member);
     statements := statements s; qualified_paths := qualified_paths s |}.

Definition push_row (row : ResolvedImport) (s : ImportScope) : ImportScope :=
  {| wholesale := wholesale s; module_bindings := module_bindings s; named := named s; members := members s;
     statements := statements s ++ [row]; qualified_paths := qualified_paths s |}.

Definition add_qualified (qualifier : str) (q : Qualified) (s : ImportScope) : ImportScope :=
  {| wholesale := wholesale s; module_bindings := module_bindings s; named := named s; members := members s;
     statements := statements s; qualified_paths := <[qualifier := q]> (qualified_paths s) |}.

(** The import edges of the scope of the file at [path]. *)
Definition edge_rows (s : ImportScope) (path : str) : list (ResolvedImport * str) :=
  omap (fun row => target ← resolved row; if bool_decide (target = path) then None else Some (row, target)) (statements s).

Definition resolved_edges (s : ImportScope) (path : str) : list (str * Z * str) :=
  map (fun '(row, target) => (row_module row, row_line row, target)) (edge_rows s path).

Definition binds (s : ImportScope) (name path : str) : bool :=
  bool_decide (path ∈ wholesale s) || from_option (fun paths => bool_decide (path ∈ paths)) false (named s !! name).

(** * Statements that are not Rust's *)

Definition dotted (module member : str) : str := if bool_decide (module = []) then member else module ++ [c_dot] ++ member.

Definition loads_target (importer : str) (target : option str) (members : list (str * option str)) (entries : EntryNames) : bool :=
  let only_modules := negb (bool_decide (members = [])) && all (fun m => bool_decide (is_Some m.2)) members in
  let entry := target ← target; if inside_package importer target then Some target else None in
  negb only_modules || from_option (fun entry => rebinds entries entry members) true entry.

Record Statement := { st_path : str; st_import : Import; bound : option str; st_relative : bool; st_position : nat }.

Definition bind_member (st : Statement) (s : ImportScope) (cell : (str * str) * option str) : ImportScope :=
  let '((member, local), module) := cell in
  let i := st_import st in
  let submodule := submodule ← module; if bool_decide (submodule = st_path st) then None else Some submodule in
  match submodule with
  | Some submodule =>
      push_row {| row_module := dotted (FactValues.module i) member; row_line := import_line i; resolved := Some submodule;
                  relative := st_relative st; statement := st_position st |}
        (add_module local submodule (add_named local submodule s))
  | None =>
      match bound st with
      | Some bound => add_member local bound member (add_named local bound s)
      | None => s
      end
  end.

Definition bind_module_object (path : str) (i : Import) (paths : PathIndex) (s : ImportScope) : ImportScope :=
  let '(binding, referenced) := module_object i in
  if bool_decide (binding = []) then s
  else
    match resolve_import_target path referenced (relative_level i) paths with
    | Some target => if bool_decide (target = path) then s else add_module binding target s
    | None => s
    end.

Definition bind_statement (path : str) (paths : PathIndex) (entries : EntryNames) (s : ImportScope) (cell : nat * Import) : ImportScope :=
  let '(position, i) := cell in
  let level := relative_level i in
  let target := resolve_import_target path (module i) level paths in
  let relative := is_relative i || (0 <? level)%Z in
  let members := map (fun '(member, _) => (member, resolve_imported_submodule path (module i) level member paths)) (bound_names i) in
  let s := if loads_target path target members entries
           then push_row {| row_module := module i; row_line := import_line i; resolved := target; relative := relative; statement := position |} s
           else s in
  let bound := target ← target; if bool_decide (target = path) then None else Some target in
  let s := match bound with Some bound => if binds_all i then add_wholesale bound s else s | None => s end in
  if bool_decide (names i = []) then bind_module_object path i paths s
  else
    let st := {| st_path := path; st_import := i; bound := bound; st_relative := relative; st_position := position |} in
    foldl (bind_member st) s (zip (bound_names i) (map snd members)).

(** * Rust's statements *)

Section Rust.
Context (tree : RustTree).

(** The module that a whole path names. *)
Definition whole (path : str) (inline : nat) (segments : list str) : option str :=
  '(target, used) ← RustPaths.resolve tree path segments inline;
  if (used =? length segments)%nat then Some target else None.

Definition bind_module (local target : str) (s : ImportScope) : ImportScope :=
  if bool_decide (local = []) || bool_decide (local = lit "_") then s else add_module local target (add_named local target s).

Definition bind_item (path : str) (inline : nat) (segments : list str) (local : str) (s : ImportScope) : ImportScope * option str :=
  match RustPaths.resolve tree path segments inline with
  | None => (s, None)
  | Some (target, used) =>
      ((if (used =? length segments)%nat then bind_module local target s
        else if (used + 1 =? length segments)%nat && negb (bool_decide (local = [])) && negb (bool_decide (local = lit "_")) then
          add_member local target (nth used segments []) (add_named local target s)
        else s), Some target)
  end.

(** The binding and the target of one leaf, with the segments of the module that its row names. *)
Definition bind_leaf (path : str) (inline : nat) (segments : list str) (local : str) (s : ImportScope) :
    ImportScope * list str * option str :=
  let last_ := default [] (last segments) in
  let front := removelast segments in
  if bool_decide (last_ = lit "*") then
    let target := whole path inline front in
    (from_option (fun target => add_wholesale target s) s target, front, target)
  else if bool_decide (last_ = lit "self") then
    let target := whole path inline front in
    let local := if bool_decide (local = lit "self") then default [] (last front) else local in
    (from_option (fun target => bind_module local target s) s target, front, target)
  else
    let '(s, target) := bind_item path inline (front ++ [last_]) local s in (s, front ++ [last_], target).

Definition split_path (module : str) : list str := split_str (lit "::") module.

Definition rust_row (i : Import) (position : nat) (module : str) (target : option str) : ResolvedImport :=
  {| row_module := module; row_line := import_line i; resolved := target; relative := is_relative i; statement := position |}.

Definition push_target (i : Import) (position : nat) (acc : ImportScope * list str) (cell : str * str) : ImportScope * list str :=
  let '(s, seen) := acc in
  let '(module, target) := cell in
  if bool_decide (target ∈ seen) then (s, seen) else (push_row (rust_row i position module (Some target)) s, seen ++ [target]).

(** One row for each distinct target, or one that is not resolved. *)
Definition push_rust_rows (i : Import) (position : nat) (targets : list (str * str)) (s : ImportScope) : ImportScope :=
  let '(s, seen) := foldl (push_target i position) (s, []) targets in
  if bool_decide (seen = []) then push_row (rust_row i position (module i) None) s else s.

Definition bind_names (path : str) (i : Import) (base : list str) (acc : ImportScope * list (str * str)) (cell : str * str) :
    ImportScope * list (str * str) :=
  let '(s, targets) := acc in
  let '(member, local) := cell in
  let '(s, segments, target) := bind_leaf path (Z.to_nat (inline_depth i)) (base ++ split_path member) local s in
  (s, match target with Some target => targets ++ [(join_with (lit "::") segments, target)] | None => targets end).

Definition bind_rust_statement (path : str) (s : ImportScope) (cell : nat * Import) : ImportScope :=
  let '(position, i) := cell in
  let inline := Z.to_nat (inline_depth i) in
  let base := if bool_decide (module i = []) then [] else split_path (module i) in
  let '(s, targets) :=
    match (if bool_decide (names i = []) then whole path inline base else None) with
    | Some target =>
        ((if binds_all i then add_wholesale target s else bind_module (default [] (last base)) target s), [(module i, target)])
    | None => (s, [])
    end in
  let '(s, targets) := foldl (bind_names path i base) (s, targets) (bound_names i) in
  push_rust_rows i position targets s.

Definition first_segment (text : str) : str := default [] (head (split_path text)).

Definition internal_locals (path : str) (imps : list Import) : gset str :=
  list_to_set (flat_map (fun i =>
    let first := first_segment (module i) in
    omap (fun cell : str * str =>
      let lead := if bool_decide (first = []) then first_segment cell.1 else first in
      if names_repository_module tree path lead then Some cell.2 else None) (bound_names i)
    ++ (if bool_decide (names i = []) && names_repository_module tree path first
        then [default [] (last (split_path (module i)))] else [])) imps).

Definition qualified_module (file : FileFacts) (s : ImportScope) (qualifier : str) : option Qualified :=
  let segments := split_path qualifier in
  let first := default [] (head segments) in
  let further :=
    match RustPaths.resolve tree (path file) segments 0 with
    | Some (module, used) => if (used =? length segments)%nat then Some (QModule module) else None
    | None =>
        if bool_decide (is_Some (module_bindings s !! first)) || bool_decide (is_Some (named s !! first))
           || bool_decide (first ∈ modules (facts file)) || names_repository_module tree (path file) first
        then None else Some Foreign
    end in
  if (length segments =? 1)%nat then
    match module_bindings s !! first with
    | Some targets => match elements targets with [only] => Some (QModule only) | _ => None end
    | None => further
    end
  else further.

Definition qualify_ref (file : FileFacts) (internal : gset str) (s : ImportScope) (reference : Ref) : ImportScope :=
  let qualifier := qualifier reference in
  if bool_decide (qualifier = []) || bool_decide (is_Some (qualified_paths s !! qualifier)) then s
  else
    let first := first_segment qualifier in
    if bool_decide (first ∈ internal) && negb (bool_decide (is_Some (module_bindings s !! first))) then s
    else match qualified_module file s qualifier with Some found => add_qualified qualifier found s | None => s end.

Definition bind_rust_file (file : FileFacts) : ImportScope :=
  let s := foldl (bind_rust_statement (path file)) empty_scope (imap pair (imports (facts file))) in
  foldl (qualify_ref file (internal_locals (path file) (imports (facts file)))) s (refs (facts file)).
End Rust.

(** * All files *)

Definition bind_file (paths : PathIndex) (entries : EntryNames) (tree : RustTree) (file : FileFacts) : ImportScope :=
  if bool_decide (language file = Rust) then bind_rust_file tree file
  else foldl (bind_statement (path file) paths entries) empty_scope (imap pair (imports (facts file))).

Definition add_export (path : str) (exports : gmap (str * str) str) (binding : str * gset str) : gmap (str * str) str :=
  match elements binding.2 with [target] => <[(path, binding.1) := target]> exports | _ => exports end.

(** The module file that each Rust file binds, alone, under a local name. *)
Definition exports_of (files : list FileFacts) (per_file : list ImportScope) : gmap (str * str) str :=
  foldl (fun exports cell => foldl (add_export (path cell.1)) exports (btree_iter (module_bindings cell.2))) ∅
    (List.filter (fun cell => bool_decide (language cell.1 = Rust)) (zip files per_file)).

Definition rebind_rust (files : list FileFacts) (per_file : list ImportScope) (tree : RustTree) : list ImportScope :=
  zip_with (fun (file : FileFacts) (s : ImportScope) => if bool_decide (language file = Rust) then bind_rust_file tree file else s) files per_file.

Definition EXPORT_PASSES : nat := 2.

Record Scopes := { scanned_files : list FileFacts; per_file : list ImportScope; by_path : list (str * nat) }.

Definition place_le (a b : str * nat) : bool := str_lt a.1 b.1 || (bool_decide (a.1 = b.1) && (a.2 <=? b.2)).

Definition export_pass (files : list FileFacts) (acc : RustTree * list ImportScope) : RustTree * list ImportScope :=
  let tree := with_exports acc.1 (exports_of files acc.2) in (tree, rebind_rust files acc.2 tree).

Definition build (files : list FileFacts) : Scopes :=
  let paths := ModulePaths.build (map path files) in
  let entries := build_entries files paths in
  let tree := RustPaths.build files paths in
  let per_file := map (bind_file paths entries tree) files in
  let per_file := if manifests tree then (Nat.iter EXPORT_PASSES (export_pass files) (tree, per_file)).2 else per_file in
  {| scanned_files := files; per_file := per_file; by_path := sort_by place_le (imap (fun position file => (path file, position)) files) |}.

(** The scan position of the file at [path]: of files with one path the last. *)
Definition position (scopes : Scopes) (path : str) : option nat :=
  let end_ := partition_point (fun place => bytes_le place.1 path) (by_path scopes) in
  '(held, position) ← last (take end_ (by_path scopes));
  if bool_decide (held = path) then Some position else None.

Definition get (scopes : Scopes) (path : str) : option ImportScope := position ← position scopes path; per_file scopes !! position.
Definition language_of (scopes : Scopes) (path : str) : option Language := position ← position scopes path; language <$> scanned_files scopes !! position.

Definition iter (scopes : Scopes) : list (str * ImportScope) :=
  omap (fun place => (fun s => (place.1, s)) <$> per_file scopes !! place.2) (by_path scopes).

Definition import_pairs (scopes : Scopes) : gset (str * str) :=
  list_to_set (flat_map (fun '(file, s) => map (fun edge => (path file, edge.2)) (resolved_edges s (path file))) (zip (scanned_files scopes) (per_file scopes))).

(** * Folds that only add *)

Lemma foldl_adds {S A} (P : S -> Prop) (D : A -> Prop) (f : S -> A -> S) l : forall s,
  (forall s x, x ∈ l -> P (f s x) <-> P s \/ D x) -> P (foldl f s l) <-> P s \/ exists x, x ∈ l /\ D x.
Proof.
  induction l as [|y l IH]; intros s H; [set_solver|]. cbn [foldl]. rewrite IH by (intros; apply H; by right). rewrite H by left.
  setoid_rewrite elem_of_cons. naive_solver.
Qed.

Lemma foldl_appends {S A B} (g : S -> list B) (h : A -> list B) (f : S -> A -> S) l : forall s,
  (forall s x, g (f s x) = g s ++ h x) -> g (foldl f s l) = g s ++ flat_map h l.
Proof. induction l as [|y l IH]; intros s H; [by rewrite app_nil_r|]. cbn. by rewrite IH, H, app_assoc. Qed.

Lemma foldl_keeps {S A} (P : S -> Prop) (f : S -> A -> S) l : forall s, (forall s x, x ∈ l -> P s -> P (f s x)) -> P s -> P (foldl f s l).
Proof.
  induction l as [|y l IH]; intros s H Hs; [done|]. cbn. apply IH; [|apply H; [left|done]]. intros s' x Hx. apply H. by right.
Qed.

Lemma exists_local (l : list (str * str)) local (Q : str -> Prop) : (exists c, c ∈ l /\ local = c.2 /\ Q c.1) <-> exists m, (m, local) ∈ l /\ Q m.
Proof. split; [intros ([m ?] & ? & -> & ?); by exists m|intros (m & ? & ?); by exists (m, local)]. Qed.

Lemma exists_or {A} (l : list A) (P Q : A -> Prop) : (exists c, c ∈ l /\ (P c \/ Q c)) <-> (exists c, c ∈ l /\ P c) \/ exists c, c ∈ l /\ Q c.
Proof. naive_solver. Qed.

Lemma exists_imap {A} (D : A -> Prop) (l : list A) : (exists c, c ∈ imap pair l /\ D c.2) <-> exists i, i ∈ l /\ D i.
Proof.
  setoid_rewrite list_elem_of_lookup. setoid_rewrite list_lookup_imap_Some. split.
  - intros ([k i] & (n & y & Hn & [= -> ->]) & HD). exists y. split; [by exists n|done].
  - intros (i & [n Hn] & HD). exists (n, i). split; [by exists n, i|done].
Qed.

(** The values bound to a name. *)
Definition held {V} `{Countable V} (bindings : gmap str (gset V)) (k : str) : gset V := default ∅ (bindings !! k).

Lemma held_bind {V} `{Countable V} (bindings : gmap str (gset V)) k v k' v' :
  v' ∈ held (bind_to bindings k v) k' <-> v' ∈ held bindings k' \/ (k' = k /\ v' = v).
Proof.
  unfold held, bind_to. destruct (decide (k' = k)) as [->|Hn].
  - rewrite lookup_insert_eq. cbn [default from_option id]. set_solver.
  - rewrite lookup_insert_ne by done. naive_solver.
Qed.

(** * What a statement of a file that is not Rust's binds *)

Section Statements.
Context (path : str) (paths : PathIndex) (entries : EntryNames).

Definition target_of (i : Import) : option str := resolve_import_target path (module i) (relative_level i) paths.
Definition submodule_of (i : Import) (member : str) : option str := resolve_imported_submodule path (module i) (relative_level i) member paths.
Definition other (p : option str) : option str := p ← p; if bool_decide (p = path) then None else Some p.

(** A member that is a module of its own binds a module; an import of a module binds it under its
    first segment, or its alias. *)
Definition binds_module (i : Import) (local target : str) : Prop :=
  (names i = [] /\ local <> [] /\ exists referenced, module_object i = (local, referenced) /\
    other (resolve_import_target path referenced (relative_level i) paths) = Some target) \/
  (exists member, (member, local) ∈ bound_names i /\ other (submodule_of i member) = Some target).

(** Any other member is a name of the module. *)
Definition binds_member (i : Import) (local target member : str) : Prop :=
  (member, local) ∈ bound_names i /\ other (submodule_of i member) = None /\ other (target_of i) = Some target.

Definition row_of (position : nat) (i : Import) (text : str) (target : option str) : ResolvedImport :=
  {| row_module := text; row_line := import_line i; resolved := target; relative := is_relative i || (0 <? relative_level i)%Z; statement := position |}.

(** The statement only loads modules of a package that the file is inside: each name it binds is a
    module of its own, and the entry of the package gives none of these names another meaning. *)
Definition only_loads (i : Import) : Prop :=
  bound_names i <> [] /\ (forall member local, (member, local) ∈ bound_names i -> is_Some (submodule_of i member)) /\
  exists directory, target_of i = Some (directory ++ PACKAGE_ENTRY) /\ (directory = [] \/ last directory = Some c_slash) /\
    directory `prefix_of` path /\
    forall member local meanings, (member, local) ∈ bound_names i -> objects entries !! (directory ++ PACKAGE_ENTRY, member) = Some meanings ->
      meanings ⊆ {[submodule_of i member]}.

(** The statement's own row if [own] says so, then one for each member that is a module. *)
Definition rows_of (own : Import -> bool) (cell : nat * Import) : list ResolvedImport :=
  let i := cell.2 in
  (if own i then [row_of cell.1 i (module i) (target_of i)] else []) ++
  flat_map (fun c => option_list ((fun s => row_of cell.1 i (dotted (module i) c.1) (Some s)) <$> other (submodule_of i c.1))) (bound_names i).

Definition own_row (i : Import) : bool :=
  loads_target path (target_of i) (map (fun c => (c.1, submodule_of i c.1)) (bound_names i)) entries.

Lemma rebinds_false entry i : rebinds entries entry (map (fun c => (c.1, submodule_of i c.1)) (bound_names i)) = false <->
  forall member local meanings, (member, local) ∈ bound_names i -> objects entries !! (entry, member) = Some meanings ->
    meanings ⊆ {[submodule_of i member]}.
Proof.
  unfold rebinds. rewrite <- not_true_iff_false, any_spec. split.
  - intros Hno member local meanings Hin Hm object Hobj. apply elem_of_singleton. destruct (decide (object = submodule_of i member)) as [|Hne]; [done|].
    exfalso. apply Hno. exists (member, submodule_of i member). split; [apply list_elem_of_fmap; by exists (member, local)|].
    rewrite Hm. cbn. apply any_spec. exists object. split; [by apply elem_of_elements|]. by rewrite bool_decide_eq_false_2.
  - intros Hall ([member m] & Hin & Hany). apply list_elem_of_fmap in Hin as ([member2 local] & [= -> ->] & Hin). cbn in Hany.
    destruct (objects entries !! _) as [meanings|] eqn:Hm; [|done]. cbn in Hany. apply any_spec in Hany as (object & Hobj & Hne).
    apply elem_of_elements in Hobj. apply (Hall _ _ _ Hin Hm) in Hobj. apply elem_of_singleton in Hobj. by rewrite bool_decide_eq_true_2 in Hne.
Qed.

Lemma strip_suffix_spec suffix s r : strip_suffix suffix s = Some r <-> s = r ++ suffix.
Proof.
  unfold strip_suffix. rewrite fmap_Some. setoid_rewrite strip_prefix_Some. split.
  - intros (t & Ht & ->). rewrite <- (reverse_involutive s), Ht, reverse_app. by rewrite reverse_involutive.
  - intros ->. exists (reverse r). by rewrite reverse_app, reverse_involutive.
Qed.

Lemma inside_package_spec target : inside_package path target = true <->
  exists directory, target = directory ++ PACKAGE_ENTRY /\ (directory = [] \/ last directory = Some c_slash) /\ directory `prefix_of` path.
Proof.
  unfold inside_package, package_directory. split.
  - destruct (strip_suffix _ _) as [directory|] eqn:Hs; [|done]. apply strip_suffix_spec in Hs. cbn.
    destruct (_ || _) eqn:Hd; [|done]. cbn. rewrite starts_with_spec. intros Hp. exists directory. split; [done|]. split; [|done].
    apply orb_true_iff in Hd as [Hd|Hd]; apply bool_decide_eq_true in Hd; auto.
  - intros (directory & -> & Hd & Hp). rewrite (proj2 (strip_suffix_spec _ _ directory)) by done. cbn.
    assert (bool_decide (directory = []) || bool_decide (last directory = Some c_slash) = true) as ->; [|by apply starts_with_spec].
    apply orb_true_iff. rewrite !bool_decide_eq_true. done.
Qed.

Lemma own_row_spec i : own_row i = false <-> only_loads i.
Proof.
  unfold own_row, loads_target, only_loads. rewrite orb_false_iff, negb_false_iff, andb_true_iff, negb_true_iff, bool_decide_eq_false, all_spec, Forall_forall.
  assert (map (fun c => (c.1, submodule_of i c.1)) (bound_names i) <> [] <-> bound_names i <> []) as -> by (by destruct (bound_names i)).
  assert ((forall m, m ∈ map (fun c => (c.1, submodule_of i c.1)) (bound_names i) -> bool_decide (is_Some m.2) = true) <->
    (forall member local, (member, local) ∈ bound_names i -> is_Some (submodule_of i member))) as ->.
  { split.
    - intros H member local Hin. apply (bool_decide_eq_true _), (H (member, submodule_of i member)), list_elem_of_fmap. by exists (member, local).
    - intros H m ([member local] & -> & Hin)%list_elem_of_fmap. apply bool_decide_eq_true_2. by apply (H member local). }
  rewrite Corelib.Init.Logic.and_assoc. apply and_iff_compat_l, and_iff_compat_l. destruct (target_of i) as [target|]; cbn; [|naive_solver].
  destruct (inside_package path target) eqn:Hp; cbn.
  - rewrite rebinds_false. apply inside_package_spec in Hp as (directory & -> & Hd & Hp). split; [intros Hr; by exists directory|].
    intros (d2 & Heq & _ & _ & H). injection Heq as Heq. apply app_inv_tail in Heq as ->. exact H.
  - split; [done|]. intros (directory & [= ->] & Hd & Hpre & _). rewrite <- Hp. symmetry. apply inside_package_spec. by exists directory.
Qed.

Lemma other_some p target : other p = Some target <-> p = Some target /\ target <> path.
Proof. unfold other. destruct p as [p|]; cbn; [case_bool_decide|]; naive_solver. Qed.

Lemma bound_names_nil i : names i = [] -> bound_names i = [].
Proof. unfold bound_names. by intros ->. Qed.

Lemma zip_map {A B} (f : A -> B) l : zip l (map f l) = map (fun x => (x, f x)) l.
Proof. induction l as [|x l IH]; [done|]. cbn. by rewrite IH. Qed.

Section Member.
Context (i : Import) (position : nat).
Definition statement_at : Statement :=
  {| st_path := path; st_import := i; bound := other (target_of i); st_relative := is_relative i || (0 <? relative_level i)%Z; st_position := position |}.
Definition bind_cell (s : ImportScope) (c : str * str) : ImportScope := bind_member statement_at s (c, submodule_of i c.1).

Lemma cell_binds s c : let s' := bind_cell s c in
  wholesale s' = wholesale s /\ qualified_paths s' = qualified_paths s /\
  (forall local target, target ∈ held (module_bindings s') local <-> target ∈ held (module_bindings s) local \/ (local = c.2 /\ other (submodule_of i c.1) = Some target)) /\
  (forall local target member, (target, member) ∈ held (members s') local <->
     (target, member) ∈ held (members s) local \/ (c = (member, local) /\ other (submodule_of i member) = None /\ other (target_of i) = Some target)) /\
  (forall local target, target ∈ held (named s') local <->
     target ∈ held (named s) local \/ (local = c.2 /\ other (submodule_of i c.1) = Some target)
     \/ (local = c.2 /\ other (submodule_of i c.1) = None /\ other (target_of i) = Some target)) /\
  statements s' = statements s ++ option_list ((fun t => row_of position i (dotted (module i) c.1) (Some t)) <$> other (submodule_of i c.1)).
Proof.
  destruct c as [member local]. unfold bind_cell, bind_member. cbn [fst snd st_path st_import bound statement_at].
  change (submodule ← submodule_of i member; if bool_decide (submodule = path) then None else Some submodule) with (other (submodule_of i member)).
  destruct (other (submodule_of i member)) as [sub|] eqn:Es; [|destruct (other (target_of i)) as [b|]]; cbn [wholesale qualified_paths module_bindings members named
    statements push_row add_module add_named add_member fmap option_fmap option_map option_list]; rewrite ?app_nil_r;
    split_and!; try done; intros; rewrite ?held_bind; naive_solver.
Qed.
End Member.

Definition bind_object (i : Import) (s : ImportScope) : ImportScope := if bool_decide (names i = []) then bind_module_object path i paths s else s.

Lemma object_binds i s : let s' := bind_object i s in
  wholesale s' = wholesale s /\ qualified_paths s' = qualified_paths s /\ members s' = members s /\ named s' = named s /\ statements s' = statements s /\
  (forall local target, target ∈ held (module_bindings s') local <-> target ∈ held (module_bindings s) local \/
     (names i = [] /\ local <> [] /\ exists referenced, module_object i = (local, referenced) /\
        other (resolve_import_target path referenced (relative_level i) paths) = Some target)).
Proof.
  unfold bind_object, bind_module_object. case_bool_decide as Hn; [|split_and!; naive_solver].
  destruct (module_object i) as [binding referenced]. case_bool_decide as Hb; [split_and!; naive_solver|].
  destruct (resolve_import_target path referenced _ paths) as [target|] eqn:Et; [|split_and!; try done; intros; split; [by left|]; intros [?|(_ & _ & ? & [= <- <-] & H)]; [done|];
    apply other_some in H; naive_solver].
  case_bool_decide as Hp.
  - split_and!; try done. intros local t. split; [by left|]. intros [?|(_ & _ & ? & [= <- <-] & H)]; [done|]. apply other_some in H. naive_solver.
  - split_and!; try done. intros local t. cbn [add_module module_bindings]. rewrite held_bind. setoid_rewrite other_some. naive_solver.
Qed.

(** The statement, as its row, its star, its module and its members in turn. *)
Lemma bind_statement_steps s position i :
  let s1 := if own_row i then push_row (row_of position i (module i) (target_of i)) s else s in
  let s2 := match other (target_of i) with Some b => if binds_all i then add_wholesale b s1 else s1 | None => s1 end in
  bind_statement path paths entries s (position, i) = foldl (bind_cell i position) (bind_object i s2) (bound_names i).
Proof.
  cbn zeta. unfold bind_statement, own_row. fold (target_of i).
  assert (map (fun '(member, _) => (member, resolve_imported_submodule path (module i) (relative_level i) member paths)) (bound_names i)
    = map (fun c => (c.1, submodule_of i c.1)) (bound_names i)) as -> by (apply map_ext; by intros []).
  fold (row_of position i (module i) (target_of i)).
  change (target ← target_of i; if bool_decide (target = path) then None else Some target) with (other (target_of i)).
  rewrite map_map. cbn [snd]. rewrite (zip_map (fun c : str * str => submodule_of i c.1)). rewrite foldl_map. unfold bind_object. case_bool_decide as Hn; [|done].
  by rewrite (bound_names_nil i Hn).
Qed.

Lemma statement_binds s position i : let s' := bind_statement path paths entries s (position, i) in
  (forall t, t ∈ wholesale s' <-> t ∈ wholesale s \/ (binds_all i = true /\ other (target_of i) = Some t)) /\
  (forall local t, t ∈ held (module_bindings s') local <-> t ∈ held (module_bindings s) local \/ binds_module i local t) /\
  (forall local t member, (t, member) ∈ held (members s') local <-> (t, member) ∈ held (members s) local \/ binds_member i local t member) /\
  (forall local t, t ∈ held (named s') local <-> t ∈ held (named s) local \/
     ((exists member, (member, local) ∈ bound_names i /\ other (submodule_of i member) = Some t) \/ exists member, binds_member i local t member)) /\
  statements s' = statements s ++ rows_of own_row (position, i) /\ qualified_paths s' = qualified_paths s.
Proof.
  cbn zeta. rewrite bind_statement_steps. cbn zeta. set (s1 := if own_row i then _ else _).
  assert (wholesale s1 = wholesale s /\ module_bindings s1 = module_bindings s /\ members s1 = members s /\ named s1 = named s /\ qualified_paths s1 = qualified_paths s)
    as (W1 & B1 & M1 & N1 & Q1) by (unfold s1; by destruct (own_row i)).
  set (s2 := match other _ with Some _ => _ | None => _ end).
  assert (statements s2 = statements s1 /\ module_bindings s2 = module_bindings s1 /\ members s2 = members s1 /\ named s2 = named s1 /\ qualified_paths s2 = qualified_paths s1)
    as (R2 & B2 & M2 & N2 & Q2) by (unfold s2; destruct (other _); [destruct (binds_all i)|]; done).
  assert (forall t, t ∈ wholesale s2 <-> t ∈ wholesale s1 \/ (binds_all i = true /\ other (target_of i) = Some t)) as W2.
  { intros t. unfold s2. destruct (other _) as [b|]; [destruct (binds_all i)|]; cbn [add_wholesale wholesale]; set_solver. }
  destruct (object_binds i s2) as (W3 & Q3 & M3 & N3 & R3 & B3). pose proof (cell_binds i position) as Hc. cbn zeta in Hc. split_and!.
  - intros t. rewrite (foldl_keeps (fun s => wholesale s = wholesale s2)); [by rewrite W2, W1| |done]. intros s' c _ <-. apply Hc.
  - intros local t. rewrite (foldl_adds (fun s => t ∈ held (module_bindings s) local) (fun c => local = c.2 /\ other (submodule_of i c.1) = Some t));
      [|intros; apply Hc]. rewrite B3, B2, B1. rewrite (exists_local _ _ (fun m => other (submodule_of i m) = Some t)). unfold binds_module. clear. tauto.
  - intros local t member. rewrite (foldl_adds (fun s => (t, member) ∈ held (members s) local)
      (fun c => c = (member, local) /\ other (submodule_of i member) = None /\ other (target_of i) = Some t)); [|intros; apply Hc].
    rewrite M3, M2, M1. unfold binds_member. clear. naive_solver.
  - intros local t. rewrite (foldl_adds (fun s => t ∈ held (named s) local)
      (fun c => (local = c.2 /\ other (submodule_of i c.1) = Some t) \/ (local = c.2 /\ other (submodule_of i c.1) = None /\ other (target_of i) = Some t)));
      [|intros; apply Hc]. rewrite N3, N2, N1. rewrite exists_or. rewrite (exists_local _ _ (fun m => other (submodule_of i m) = Some t)).
    rewrite (exists_local _ _ (fun m => other (submodule_of i m) = None /\ other (target_of i) = Some t)). unfold binds_member. clear. tauto.
  - erewrite (foldl_appends statements); [|intros s' c; apply Hc]. rewrite R3, R2. unfold rows_of, s1. cbn [fst snd].
    destruct (own_row i); cbn [push_row statements]; [by rewrite <- app_assoc|done].
  - apply (foldl_keeps (fun s' => qualified_paths s' = qualified_paths s)); [|by rewrite Q3, Q2]. intros s' c _ <-. apply Hc.
Qed.
End Statements.

(** C19: The scope of a file that is not Rust's, from its statements: the modules that a star brings in
    whole, the modules bound to a local name, the names bound to members of a module, and the rows in
    statement order: a statement has a row of its own unless it only loads modules of a package that the
    file is inside.  A file never binds itself. *)
Theorem bind_file_exact paths entries tree file : language file <> Rust ->
  let s := bind_file paths entries tree file in
  let p := path file in
  let imps := imports (facts file) in
  (forall t, t ∈ wholesale s <-> exists i, i ∈ imps /\ binds_all i = true /\ other p (target_of p paths i) = Some t) /\
  (forall local t, t ∈ held (module_bindings s) local <-> exists i, i ∈ imps /\ binds_module p paths i local t) /\
  (forall local t member, (t, member) ∈ held (members s) local <-> exists i, i ∈ imps /\ binds_member p paths i local t member) /\
  (forall local t, t ∈ held (named s) local <-> exists i, i ∈ imps /\
     ((exists member, (member, local) ∈ bound_names i /\ other p (submodule_of p paths i member) = Some t) \/ exists member, binds_member p paths i local t member)) /\
  (exists own, (forall i, own i = false <-> only_loads p paths entries i) /\ statements s = flat_map (rows_of p paths own) (imap pair imps)) /\
  (forall t local, t ∈ wholesale s \/ t ∈ held (named s) local \/ t ∈ held (module_bindings s) local -> t <> p).
Proof.
  intros Hl. cbn zeta. unfold bind_file. rewrite bool_decide_false by done. set (p := path file). set (imps := imports (facts file)).
  set (s := foldl _ _ _). pose proof (statement_binds p paths entries) as Hc. cbn zeta in Hc.
  assert (forall t, t ∈ wholesale s <-> exists i, i ∈ imps /\ binds_all i = true /\ other p (target_of p paths i) = Some t) as HW.
  { intros t. unfold s. rewrite (foldl_adds (fun s => t ∈ wholesale s) (fun c => binds_all c.2 = true /\ other p (target_of p paths c.2) = Some t));
      [|intros s' [k i] _; apply Hc]. rewrite (exists_imap (fun i => binds_all i = true /\ other p (target_of p paths i) = Some t)). set_solver. }
  assert (forall local t, t ∈ held (module_bindings s) local <-> exists i, i ∈ imps /\ binds_module p paths i local t) as HB.
  { intros local t. unfold s. rewrite (foldl_adds (fun s => t ∈ held (module_bindings s) local) (fun c => binds_module p paths c.2 local t));
      [|intros s' [k i] _; apply Hc]. rewrite (exists_imap (fun i => binds_module p paths i local t)). clear. set_solver. }
  assert (forall local t, t ∈ held (named s) local <-> exists i, i ∈ imps /\
     ((exists member, (member, local) ∈ bound_names i /\ other p (submodule_of p paths i member) = Some t) \/ exists member, binds_member p paths i local t member)) as HN.
  { intros local t. unfold s. rewrite (foldl_adds (fun s => t ∈ held (named s) local)
      (fun c => (exists member, (member, local) ∈ bound_names c.2 /\ other p (submodule_of p paths c.2 member) = Some t) \/ exists member, binds_member p paths c.2 local t member));
      [|intros s' [k i] _; apply Hc]. rewrite (exists_imap (fun i => (exists member, (member, local) ∈ bound_names i /\ other p (submodule_of p paths i member) = Some t) \/
        exists member, binds_member p paths i local t member)). clear. set_solver. }
  split_and!; [exact HW|exact HB| |exact HN| |].
  - intros local t member. unfold s. rewrite (foldl_adds (fun s => (t, member) ∈ held (members s) local) (fun c => binds_member p paths c.2 local t member));
      [|intros s' [k i] _; apply Hc]. rewrite (exists_imap (fun i => binds_member p paths i local t member)). clear. set_solver.
  - exists (own_row p paths entries). split; [apply own_row_spec|]. unfold s. erewrite (foldl_appends statements); [reflexivity|]. intros s' [k i]. apply Hc.
  - intros t local. rewrite HW, HN, HB. clear. unfold binds_module, binds_member. setoid_rewrite other_some.
    intros [(i & H)|[(i & _ & [(m & H)|(m & H)])|(i & _ & [H|(m & H)])]]; try tauto. destruct H as (_ & _ & ? & H). tauto.
Qed.

(** * Scanned files *)

Section Scanned.
Context (all : list str).

Definition held_in (bindings : gmap str (gset str)) : Prop := forall local t, t ∈ held bindings local -> t ∈ all.

(** Every file that a scope names is scanned. *)
Record scope_in (s : ImportScope) : Prop := {
  wholesale_in : forall t, t ∈ wholesale s -> t ∈ all;
  modules_in : held_in (module_bindings s);
  named_in : held_in (named s);
  members_in : forall local t member, (t, member) ∈ held (members s) local -> t ∈ all;
  rows_in : forall row t, row ∈ statements s -> resolved row = Some t -> t ∈ all;
  qualified_in : forall q m, qualified_paths s !! q = Some (QModule m) -> m ∈ all
}.

Lemma empty_scope_in : scope_in empty_scope.
Proof. split; unfold held_in, held; cbn; set_solver. Qed.

Lemma add_wholesale_in t s : t ∈ all -> scope_in s -> scope_in (add_wholesale t s).
Proof. intros Ht []. split; cbn [add_wholesale wholesale module_bindings named members statements qualified_paths]; [set_solver|done..]. Qed.

Lemma add_module_in local t s : t ∈ all -> scope_in s -> scope_in (add_module local t s).
Proof.
  intros Ht []. split; cbn [add_module wholesale module_bindings named members statements qualified_paths]; try done.
  intros l t'. rewrite held_bind. intros [?|[_ ->]]; [by eapply modules_in0|done].
Qed.

Lemma add_named_in local t s : t ∈ all -> scope_in s -> scope_in (add_named local t s).
Proof.
  intros Ht []. split; cbn [add_named wholesale module_bindings named members statements qualified_paths]; try done.
  intros l t'. rewrite held_bind. intros [?|[_ ->]]; [by eapply named_in0|done].
Qed.

Lemma add_member_in local t member s : t ∈ all -> scope_in s -> scope_in (add_member local t member s).
Proof.
  intros Ht []. split; cbn [add_member wholesale module_bindings named members statements qualified_paths]; try done.
  intros l t' m'. rewrite held_bind. intros [?|[_ [= -> ->]]]; [by eapply members_in0|done].
Qed.

Lemma push_row_in row s : (forall t, resolved row = Some t -> t ∈ all) -> scope_in s -> scope_in (push_row row s).
Proof.
  intros Ht []. split; cbn [push_row wholesale module_bindings named members statements qualified_paths]; try done.
  intros r t [Hr|Hr%list_elem_of_singleton]%elem_of_app; [by apply rows_in0|subst r; apply Ht].
Qed.

Lemma add_qualified_in qualifier q s : (forall m, q = QModule m -> m ∈ all) -> scope_in s -> scope_in (add_qualified qualifier q s).
Proof.
  intros Hq []. split; cbn [add_qualified wholesale module_bindings named members statements qualified_paths]; try done.
  intros q' m. destruct (decide (q' = qualifier)) as [->|Hn]; [rewrite lookup_insert_eq; intros [= ->]; by apply Hq|].
  rewrite lookup_insert_ne by done. apply qualified_in0.
Qed.

#[local] Hint Resolve empty_scope_in add_wholesale_in add_module_in add_named_in add_member_in push_row_in add_qualified_in : scope.

Lemma other_in path p t : (forall t, p = Some t -> t ∈ all) -> other path p = Some t -> t ∈ all.
Proof. intros H Ho. apply other_some in Ho as [Ho _]. by apply H. Qed.

Lemma bind_statement_in path entries s cell : scope_in s -> scope_in (bind_statement path (ModulePaths.build all) entries s cell).
Proof.
  destruct cell as [position i]. intros Hs. rewrite bind_statement_steps. cbn zeta.
  assert (forall t, target_of path (ModulePaths.build all) i = Some t -> t ∈ all) as Ht by (intros t; apply resolve_target_in).
  apply foldl_keeps.
  - intros s' [member local] _ Hs'. unfold bind_cell, bind_member. cbn [statement_at st_import st_path bound fst].
    destruct (submodule ← _; _) as [sub|] eqn:Esub.
    + change (other path (submodule_of path (ModulePaths.build all) i member) = Some sub) in Esub.
      apply other_in in Esub; [|intros t; apply resolve_target_in]. apply push_row_in; [by intros ? [= <-]|]. auto with scope.
    + destruct (other _ _) as [b|] eqn:Eb; [|done]. apply other_in in Eb; [|done]. auto with scope.
  - unfold bind_object, bind_module_object. set (s2 := match other _ _ with Some _ => _ | None => _ end). assert (scope_in s2) as H2.
    { unfold s2. destruct (own_row _ _ _ _); (destruct (other _ _) as [b|] eqn:Eb; [apply other_in in Eb; [|done]; destruct (binds_all i)|]); auto with scope. }
    case_bool_decide; [|done]. destruct (module_object i) as [binding referenced]. case_bool_decide; [done|].
    destruct (resolve_import_target _ _ _ _) as [t|] eqn:Et; [|done]. case_bool_decide; [done|]. apply resolve_target_in in Et. auto with scope.
Qed.

Section Tree.
Context (tree : RustTree).
Context (Hresolve : forall path segments inline t used, path ∈ all -> RustPaths.resolve tree path segments inline = Some (t, used) -> t ∈ all).

Lemma whole_in path inline segments t : path ∈ all -> whole tree path inline segments = Some t -> t ∈ all.
Proof.
  intros Hp. unfold whole. destruct (RustPaths.resolve _ _ _ _) as [[t' used]|] eqn:E; [|done]. cbn [mbind option_bind].
  destruct (_ =? _); [|done]. intros [= <-]. by eapply Hresolve.
Qed.

Lemma bind_module_in local t s : t ∈ all -> scope_in s -> scope_in (bind_module local t s).
Proof. unfold bind_module. destruct (_ || _); auto with scope. Qed.

#[local] Hint Resolve bind_module_in : scope.

Lemma bind_item_in path inline segments local s : path ∈ all -> scope_in s ->
  scope_in (bind_item tree path inline segments local s).1 /\ forall t, (bind_item tree path inline segments local s).2 = Some t -> t ∈ all.
Proof.
  intros Hp Hs. unfold bind_item. destruct (RustPaths.resolve _ _ _ _) as [[t used]|] eqn:E; [|done]. apply Hresolve in E; [|done].
  cbn [fst snd]. split; [|by intros ? [= <-]]. destruct (_ =? _); [auto with scope|]. destruct (_ && _); auto with scope.
Qed.

Lemma bind_leaf_in path inline segments local s : path ∈ all -> scope_in s -> let r := bind_leaf tree path inline segments local s in
  scope_in r.1.1 /\ forall t, r.2 = Some t -> t ∈ all.
Proof.
  intros Hp Hs. cbn zeta. unfold bind_leaf. case_bool_decide; [|case_bool_decide].
  - cbn [fst snd]. destruct (whole _ _ _ _) as [t|] eqn:E; [apply whole_in in E; [|done]|done]. split; [cbn [from_option]; auto with scope|by intros ? [= <-]].
  - cbn [fst snd]. destruct (whole _ _ _ _) as [t|] eqn:E; [apply whole_in in E; [|done]|done]. split; [cbn [from_option]; auto with scope|by intros ? [= <-]].
  - pose proof (bind_item_in path inline (removelast segments ++ [default [] (last segments)]) local s Hp Hs) as Hi.
    destruct (bind_item _ _ _ _ _ _) as [s' t']. exact Hi.
Qed.

Lemma push_rust_rows_in i position targets s : Forall (fun c => c.2 ∈ all) targets -> scope_in s -> scope_in (push_rust_rows i position targets s).
Proof.
  intros Ht Hs. unfold push_rust_rows. assert (scope_in (foldl (push_target i position) (s, []) targets).1) as H.
  { apply (foldl_keeps (fun acc => scope_in acc.1)); [|done]. intros [s' seen] [m t] Hin Hs'. cbn [push_target fst]. case_bool_decide; [done|]. cbn [fst].
    rewrite Forall_forall in Ht. apply push_row_in; [|done]. intros ? [= <-]. by apply (Ht (m, t)). }
  destruct (foldl _ _ _) as [s' seen]. cbn [fst] in H. case_bool_decide; [|done]. by apply push_row_in.
Qed.

Lemma bind_rust_statement_in path s cell : path ∈ all -> scope_in s -> scope_in (bind_rust_statement tree path s cell).
Proof.
  intros Hp Hs. destruct cell as [position i]. unfold bind_rust_statement. set (base := if bool_decide (module i = []) then _ else _).
  set (s0 := match _ with Some _ => _ | None => _ end). assert (scope_in s0.1 /\ Forall (fun c : str * str => c.2 ∈ all) s0.2) as H0.
  { unfold s0. case_bool_decide; [|done]. destruct (whole _ _ _ _) as [t|] eqn:E; [apply whole_in in E; [|done]|done]. cbn [fst snd].
    split; [destruct (binds_all i); auto with scope|by repeat constructor]. }
  clearbody s0. destruct s0 as [s0 targets]. cbn [fst snd] in H0.
  assert (let r := foldl (bind_names tree path i base) (s0, targets) (bound_names i) in scope_in r.1 /\ Forall (fun c : str * str => c.2 ∈ all) r.2) as H.
  { apply (foldl_keeps (fun acc => scope_in acc.1 /\ Forall (fun c : str * str => c.2 ∈ all) acc.2)); [|done].
    intros [s1 ts] [member local] _ [H1 H2]. cbn [fst snd] in *. unfold bind_names.
    pose proof (bind_leaf_in path (Z.to_nat (inline_depth i)) (base ++ split_path member) local s1 Hp H1) as [H3 H4].
    destruct (bind_leaf _ _ _ _ _ _) as [[s2 segs] t]. cbn [fst snd] in *. split; [done|]. destruct t as [t|]; [|done].
    apply Forall_app. split; [done|]. constructor; [by apply H4|constructor]. }
  cbn zeta in H. destruct (foldl _ _ _) as [s1 ts]. apply push_rust_rows_in; apply H.
Qed.

Lemma qualified_module_in file s qualifier m : path file ∈ all -> scope_in s -> qualified_module tree file s qualifier = Some (QModule m) -> m ∈ all.
Proof.
  intros Hp Hs. unfold qualified_module. set (further := match RustPaths.resolve _ _ _ _ with Some _ => _ | None => _ end).
  assert (further = Some (QModule m) -> m ∈ all) as Hf.
  { unfold further. destruct (RustPaths.resolve _ _ _ _) as [[t used]|] eqn:E; [apply Hresolve in E; [|done]; destruct (_ =? _); [by intros [= <-]|done]|].
    destruct (_ || _); done. }
  destruct (_ =? 1); [|done]. destruct (module_bindings s !! _) as [targets|] eqn:E; [|done].
  destruct (elements targets) as [|only [|]] eqn:Ee; try done. intros [= <-]. eapply (modules_in _ Hs). unfold held. rewrite E. cbn.
  apply elem_of_elements. rewrite Ee. by left.
Qed.

Lemma bind_rust_file_in file : path file ∈ all -> scope_in (bind_rust_file tree file).
Proof.
  intros Hp. unfold bind_rust_file. apply foldl_keeps.
  - intros s r _ Hs. unfold qualify_ref. destruct (_ || _); [done|]. destruct (_ && _); [done|].
    destruct (qualified_module _ _ _ _) as [q|] eqn:E; [|done]. apply add_qualified_in; [|done]. intros m ->. by eapply qualified_module_in.
  - apply foldl_keeps; [|auto with scope]. intros s c _. by apply bind_rust_statement_in.
Qed.
End Tree.
End Scanned.

(** * The scopes of a scan *)

Definition tree_in (all : list str) (tree : RustTree) : Prop :=
  RustPaths.paths tree = ModulePaths.build all /\ map_Forall (fun _ file => file ∈ all) (crates tree) /\
  Forall (fun package => forall root, package.2 = Some root -> root ∈ all) (packages tree) /\ map_Forall (fun _ file => file ∈ all) (exports tree).

Lemma tree_resolve all tree path segments inline t used : tree_in all tree -> path ∈ all ->
  RustPaths.resolve tree path segments inline = Some (t, used) -> t ∈ all.
Proof. intros (H1 & H2 & H3 & H4) Hp H. by apply (resolve_scanned tree all H1 H2 H3 H4) in H as [? _]. Qed.

Lemma exports_in all files scopes : Forall (scope_in all) scopes -> map_Forall (fun _ file => file ∈ all) (exports_of files scopes).
Proof.
  intros Hs. unfold exports_of. apply foldl_keeps; [|apply map_Forall_empty]. intros m [file s] Hin Hm.
  apply list_elem_of_In, filter_In in Hin as [Hin%list_elem_of_In _]. apply list_elem_of_lookup in Hin as [k Hk].
  apply lookup_zip_Some in Hk as [_ Hk]. assert (scope_in all s) as H by (rewrite Forall_lookup in Hs; by eapply Hs).
  apply foldl_keeps; [|done]. intros m' [local targets] Hl Hm'. unfold add_export. cbn [fst snd] in *. destruct (elements targets) as [|target [|]] eqn:E; try done.
  apply map_Forall_insert_2; [|done]. apply (modules_in _ _ H local). unfold held. apply btree_iter_elem in Hl. rewrite Hl. cbn.
  apply elem_of_elements. rewrite E. by left.
Qed.

Lemma bind_file_in all entries tree file : tree_in all tree -> FactValues.path file ∈ all -> scope_in all (bind_file (ModulePaths.build all) entries tree file).
Proof.
  intros Ht Hp. unfold bind_file. case_bool_decide.
  - apply bind_rust_file_in; [|done]. intros. by eapply tree_resolve.
  - apply foldl_keeps; [|apply empty_scope_in]. intros s c _. apply bind_statement_in.
Qed.

(** The scopes of a scan: one for each file, of scanned files, and for a file that is not Rust's
    the one of its statements alone. *)
Definition scopes_of (all : list str) (files : list FileFacts) (scopes : list ImportScope) : Prop :=
  length scopes = length files /\ Forall (scope_in all) scopes /\
  forall k file s, files !! k = Some file -> scopes !! k = Some s -> language file <> Rust ->
    s = foldl (bind_statement (path file) (ModulePaths.build all) (build_entries files (ModulePaths.build all))) empty_scope (imap pair (imports (facts file))).

Lemma export_pass_in files acc : let all := map path files in
  tree_in all acc.1 -> scopes_of all files acc.2 -> let r := export_pass files acc in tree_in all r.1 /\ scopes_of all files r.2.
Proof.
  cbn zeta. intros (T1 & T2 & T3 & T4) (S1 & S2 & S3). cbn [export_pass fst snd]. set (tree := with_exports _ _).
  assert (tree_in (map path files) tree) as Ht by (split_and!; [done..|by apply exports_in]). split; [done|]. unfold rebind_rust. split_and!.
  - rewrite length_zip_with. lia.
  - apply Forall_lookup. intros k s Hk. apply lookup_zip_with_Some in Hk as (file & s0 & -> & Hf & Hs). case_bool_decide.
    + apply bind_rust_file_in; [intros; by eapply tree_resolve|]. apply list_elem_of_lookup. exists k. by rewrite list_lookup_fmap, Hf.
    + rewrite Forall_lookup in S2. by eapply S2.
  - intros k file s Hf Hk Hl. apply lookup_zip_with_Some in Hk as (file' & s0 & -> & Hf' & Hs). rewrite Hf' in Hf. injection Hf as ->.
    rewrite bool_decide_false by done. by eapply S3.
Qed.

Lemma build_in files : scopes_of (map path files) files (per_file (build files)).
Proof.
  unfold build. cbn [per_file]. set (all := map path files). set (tree := RustPaths.build files (ModulePaths.build all)). set (entries := build_entries _ _).
  assert (tree_in all tree) as Ht by apply build_scanned.
  assert (scopes_of all files (map (bind_file (ModulePaths.build all) entries tree) files)) as H0.
  { split_and!; [by rewrite length_map| |].
    - apply Forall_map, Forall_lookup. intros k file Hk. apply bind_file_in; [done|]. apply list_elem_of_lookup. exists k. unfold all. by rewrite list_lookup_fmap, Hk.
    - intros k file s Hf Hk Hl. change (map ?f ?l) with (f <$> l) in Hk. rewrite list_lookup_fmap, Hf in Hk. injection Hk as <-. unfold bind_file. by rewrite bool_decide_false. }
  destruct (manifests tree); [|done].
  assert (forall n, let r := Nat.iter n (export_pass files) (tree, map (bind_file (ModulePaths.build all) entries tree) files) in tree_in all r.1 /\ scopes_of all files r.2) as H.
  { induction n as [|n IH]; [done|]. cbn zeta in *. destruct IH. by apply export_pass_in. }
  apply (H EXPORT_PASSES).
Qed.

Lemma place_le_total a b : place_le a b = true \/ place_le b a = true.
Proof.
  unfold place_le. destruct (bytes_le_total a.1 b.1) as [H|H], (decide (a.1 = b.1)) as [E|E]; rewrite ?E in *; rewrite ?(bool_decide_true (b.1 = b.1)) by done;
    rewrite ?orb_true_iff, ?andb_true_iff, ?Nat.leb_le, ?str_lt_true.
  1,3: destruct (Nat.le_ge_cases a.2 b.2); tauto.
  - left. by left.
  - right. left. split; [done|congruence].
Qed.

Lemma place_le_spec a b : place_le a b = true <-> (bytes_le a.1 b.1 = true /\ a.1 <> b.1) \/ (a.1 = b.1 /\ a.2 <= b.2).
Proof. unfold place_le. by rewrite orb_true_iff, andb_true_iff, Nat.leb_le, str_lt_true, bool_decide_eq_true. Qed.

Lemma place_le_trans a b c : place_le a b = true -> place_le b c = true -> place_le a c = true.
Proof.
  rewrite !place_le_spec. intros [[H1 H2]|[H1 H2]] [[H3 H4]|[H3 H4]].
  - left. split; [by eapply bytes_le_trans|]. intros E. apply H2. apply bytes_le_antisym; [done|]. by rewrite E.
  - left. by rewrite <- H3.
  - left. by rewrite H1.
  - right. split; [congruence|lia].
Qed.

(** The places of a list sorted by path split at a path's last place. *)
Lemma places_split l p : StronglySorted (fun a b => place_le a b = true) l ->
  exists l1 l2, l = l1 ++ l2 /\ partition_point (fun place : str * nat => bytes_le place.1 p) l = length l1 /\
    Forall (fun place => bytes_le place.1 p = true) l1 /\ Forall (fun place => place.1 <> p) l2.
Proof.
  unfold partition_point. induction 1 as [|x l Hl (l1 & l2 & -> & E & H1 & H2) Hx]; [by exists [], []|]. cbn [take_while].
  destruct (bytes_le x.1 p) eqn:Ex.
  - exists (x :: l1), l2. split; [done|]. split; [by cbn; rewrite E|]. split; [by constructor|done].
  - exists [], (x :: l1 ++ l2). split; [done|]. split; [done|]. split; [constructor|].
    assert (forall y, place_le x y = true -> y.1 <> p) as Hy.
    { intros y Hy <-. apply place_le_spec in Hy as [[Hy _]|[Hy _]]; [congruence|]. by rewrite Hy, bytes_le_refl in Ex. }
    constructor; [intros E'; by rewrite E', bytes_le_refl in Ex|]. eapply Forall_impl; [exact Hx|]. exact Hy.
Qed.

Lemma by_path_elem files place : place ∈ by_path (build files) <-> exists file, files !! place.2 = Some file /\ path file = place.1.
Proof.
  unfold build. cbn [by_path]. rewrite sort_by_perm, list_elem_of_lookup. setoid_rewrite list_lookup_imap_Some. destruct place as [p n]. cbn. split.
  - intros (k & file & Hk & [= -> ->]). by exists file.
  - intros (file & Hk & <-). by exists n, file.
Qed.

Lemma scan_position_spec files p k : position (build files) p = Some k <->
  (exists file, files !! k = Some file /\ path file = p) /\ forall j file, files !! j = Some file -> path file = p -> j <= k.
Proof.
  assert (StronglySorted (fun a b => place_le a b = true) (by_path (build files))) as Hs by apply (sort_by_sorted _ place_le_total place_le_trans).
  destruct (places_split _ p Hs) as (l1 & l2 & Hl & Hp & H1 & H2). unfold position. rewrite Hp, Hl, take_app_length.
  assert (forall k, (p, k) ∈ l1 <-> exists file, files !! k = Some file /\ path file = p) as Hin.
  { intros j. rewrite <- (by_path_elem files (p, j)), Hl, elem_of_app. split; [tauto|]. intros [?|Hj]; [done|]. rewrite Forall_forall in H2. by apply H2 in Hj. }
  assert (forall x l, l1 = l ++ [x] -> Forall (fun y => place_le y x = true) l) as Hlast.
  { intros x l ->. rewrite Hl, <- app_assoc in Hs. clear -Hs. induction l as [|y l IH]; [constructor|]. inversion Hs as [|? ? Hs' Hy]; subst. constructor; [|by apply IH].
    rewrite Forall_forall in Hy. apply Hy. set_solver. }
  assert (forall k, (last l1 = Some (p, k)) <-> (p, k) ∈ l1 /\ forall j, (p, j) ∈ l1 -> j <= k) as Hk.
  { intros n. destruct l1 as [|x l _] using rev_ind; [split; [done|intros [[]%not_elem_of_nil _]]|]. rewrite last_snoc. specialize (Hlast _ _ eq_refl). split.
    - intros [= ->]. split; [set_solver|]. intros j [Hj|[= ->]%list_elem_of_singleton]%elem_of_app; [|lia]. rewrite Forall_forall in Hlast.
      apply Hlast, place_le_spec in Hj as [[_ []]|[_ Hj]]; done.
    - intros [Hn Hmax]. apply elem_of_app in Hn as [Hn|Hn%list_elem_of_singleton]; [|by subst]. rewrite Forall_forall in Hlast.
      pose proof Hn as Hle. apply Hlast in Hle. apply place_le_spec in Hle as [[Hle Hne]|[Hle Hne]]; cbn [fst snd] in *.
      + apply Forall_app in H1 as [_ H1]. apply Forall_cons in H1 as [H1 _]. destruct Hne. by apply bytes_le_antisym.
      + destruct x as [q m]. cbn in *. subst q. assert (m <= n) by (apply Hmax; set_solver). do 3 f_equal. lia. }
  transitivity (last l1 = Some (p, k)).
  - destruct (last l1) as [[held n]|]; cbn [mbind option_bind]; [|done]. case_bool_decide; [|split; [done|intros [= -> ->]; done]].
    subst. split; intros [= ->]; done.
  - rewrite Hk, Hin. setoid_rewrite Hin. clear. naive_solver.
Qed.

Lemma last_with_path files p : p ∈ map path files ->
  exists k, (exists file, files !! k = Some file /\ path file = p) /\ forall j file, files !! j = Some file -> path file = p -> j <= k.
Proof.
  induction files as [|file files IH] using rev_ind; [by intros ?%not_elem_of_nil|]. intros Hp. destruct (decide (path file = p)) as [Hf|Hf].
  - exists (length files). split; [exists file; by rewrite list_lookup_middle|]. intros j g Hj _. apply lookup_lt_Some in Hj. rewrite length_app in Hj. cbn in Hj. lia.
  - rewrite map_app, elem_of_app in Hp. destruct Hp as [Hp|Hp%list_elem_of_singleton]; [|done]. destruct (IH Hp) as (k & (g & Hg & Hgp) & Hmax).
    exists k. split; [exists g; split; [|done]; by apply lookup_app_l_Some|]. intros j h Hj Hh. apply lookup_app_Some in Hj as [Hj|[_ Hj]]; [by eapply Hmax|].
    destruct (j - length files) as [|[|]]; cbn in Hj; [|done..]. injection Hj as ->. done.
Qed.

Lemma scope_of_path files p : is_Some (get (build files) p) <-> p ∈ map path files.
Proof.
  unfold get. split.
  - destruct (position (build files) p) as [k|] eqn:E; [|by intros []]. intros _. apply scan_position_spec in E as [(file & Hf & <-) _].
    apply list_elem_of_lookup. exists k. change (map ?f ?l) with (f <$> l). by rewrite list_lookup_fmap, Hf.
  - intros Hp. destruct (last_with_path files p Hp) as (k & Hk). apply scan_position_spec in Hk as Hpos. rewrite Hpos. cbn [mbind option_bind].
    apply lookup_lt_is_Some. rewrite (proj1 (build_in files)). destruct Hk as [(file & Hf & _) _]. by eapply lookup_lt_Some.
Qed.

(** C18: The scopes of a scan are those of its files, in order: every file that a scope names is scanned,
    the passes that follow re-exports change only the scopes of Rust files, a path finds the scope of
    its last file, and an import edge goes from a scanned file to another. *)
Theorem scopes_scanned files : let scopes := build files in
  length (per_file scopes) = length files /\ Forall (scope_in (map path files)) (per_file scopes) /\
  (forall k file s, files !! k = Some file -> per_file scopes !! k = Some s -> language file <> Rust ->
     s = foldl (bind_statement (path file) (ModulePaths.build (map path files)) (build_entries files (ModulePaths.build (map path files)))) empty_scope
           (imap pair (imports (facts file)))) /\
  (forall p k, position scopes p = Some k <->
     (exists file, files !! k = Some file /\ path file = p) /\ forall j file, files !! j = Some file -> path file = p -> j <= k) /\
  (forall p, is_Some (get scopes p) <-> p ∈ map path files) /\
  (forall a b, (a, b) ∈ import_pairs scopes -> a ∈ map path files /\ b ∈ map path files /\ a <> b).
Proof.
  cbn zeta. destruct (build_in files) as (H1 & H2 & H3). split_and!; [done|done|exact H3|intros; apply scan_position_spec|apply scope_of_path|].
  - intros a b. unfold import_pairs. rewrite elem_of_list_to_set, list_elem_of_In, in_flat_map. intros ([file s] & Hz & He).
    apply list_elem_of_In, list_elem_of_lookup in Hz as [k Hk]. apply lookup_zip_Some in Hk as [Hf Hs]. cbn [build scanned_files fst snd] in Hf, Hs.
    apply in_map_iff in He as ([[m l] t] & [= <- <-] & He). unfold resolved_edges in He. apply in_map_iff in He as ([row t'] & [= <- <- <-] & He). cbn [snd] in *.
    apply list_elem_of_In, list_elem_of_omap in He as (row' & Hrow & He). destruct (resolved row') as [t|] eqn:Er; [|done]. cbn [mbind option_bind] in He.
    case_bool_decide as Hne; [done|]. injection He as -> ->. rewrite Forall_lookup in H2. split_and!; [| |congruence].
    + apply list_elem_of_lookup. exists k. change (map ?f ?l) with (f <$> l). by rewrite list_lookup_fmap, Hf.
    + by eapply (rows_in _ _ (H2 _ _ Hs)).
Qed.

(** A Python file that imports a module of a package, a name of it and an alias. *)
Definition sample_import (module : str) (names locals : list str) (alias : str) : Import :=
  {| module := module; names := names; local_names := locals; is_relative := false; relative_level := 0; import_line := 1; binds_all := false;
     alias := alias; inline_depth := 0; runs := Load |}.

Definition sample_file (path : str) (language : Language) (imports : list Import) : FileFacts :=
  {| path := path; language := language; line_count := 1; facts := {| symbols := []; imports := imports; refs := []; manifest := None; modules := [] |} |}.

Definition sample_files : list FileFacts :=
  [sample_file (lit "pkg/__init__.py") Python []; sample_file (lit "pkg/a.py") Python [];
   sample_file (lit "main.py") Python [sample_import (lit "pkg") [lit "a"; lit "f"] [lit "a"; lit "g"] []; sample_import (lit "pkg.a") [] [] (lit "pa")]].

Lemma bind_file_exact_witness :
  let all := map path sample_files in
  let paths := ModulePaths.build all in
  let file := nth 2 sample_files (sample_file [] Python []) in
  language file <> Rust /\
  let s := bind_file paths (build_entries sample_files paths) (RustPaths.build sample_files paths) file in
  held (module_bindings s) (lit "a") = {[lit "pkg/a.py"]} /\ held (module_bindings s) (lit "pa") = {[lit "pkg/a.py"]} /\
  held (members s) (lit "g") = {[(lit "pkg/__init__.py", lit "f")]} /\
  map resolved (statements s) = [Some (lit "pkg/__init__.py"); Some (lit "pkg/a.py"); Some (lit "pkg/a.py")] /\
  exists own, (forall i, own i = false <-> only_loads (lit "main.py") paths (build_entries sample_files paths) i) /\
    statements s = flat_map (rows_of (lit "main.py") paths own) (imap pair (imports (facts file))).
Proof.
  intros all paths file. assert (language file <> Rust) as Hl by (vm_compute; discriminate). split; [exact Hl|]. intros s.
  split; [apply (bool_decide_unpack _); vm_compute; exact I|]. split; [apply (bool_decide_unpack _); vm_compute; exact I|].
  split; [apply (bool_decide_unpack _); vm_compute; exact I|]. split; [vm_compute; reflexivity|].
  destruct (bind_file_exact paths (build_entries sample_files paths) (RustPaths.build sample_files paths) file Hl) as (_ & _ & _ & _ & H & _). exact H.
Defined.

(** A Rust file reaches a module through the re-export of its crate root. *)
Example scopes_reexport :
  let files := [{| path := lit "c/Cargo.toml"; language := Toml; line_count := 1;
      facts := {| symbols := []; imports := []; refs := []; manifest := Some {| package := lit "c"; lib_name := None; lib_path := None |}; modules := [] |} |};
    sample_file (lit "c/src/lib.rs") Rust [sample_import (lit "self::deep::inner") [] [] []]; sample_file (lit "c/src/deep.rs") Rust [];
    sample_file (lit "c/src/deep/inner.rs") Rust []; sample_file (lit "c/src/user.rs") Rust [sample_import (lit "crate::inner") [lit "f"] [lit "f"] []]] in
  (s ← get (build files) (lit "c/src/user.rs"); Some (map resolved (statements s), elements (held (members s) (lit "f")))) =
    Some ([Some (lit "c/src/deep/inner.rs")], [(lit "c/src/deep/inner.rs", lit "f")]) /\
  language_of (build files) (lit "c/src/user.rs") = Some Rust /\ get (build files) (lit "d") = None.
Proof. vm_compute. auto. Qed.
