(* ===== verification/CallSites.v ===== *)
(** The calls of a fragment: [call_sites] of crates/patchcheck/src/lexer.rs, and [Declared] of
    crates/facts/src/declared.rs, which says where names are declared.

    [call_match] is the regular expression that the scan stands for.  [call_sites_exact] shows that the
    scan finds its leftmost matches that do not overlap, and keeps those that are references and no
    declarations; [declared_exact] that the table of declarations counts symbols and spellings.
    The occurrences and symbols are those of FactValues.v. *)

From S2P Require Import Prelude RustStr Text Unicode Lexer FactValues.

(** * Declared names *)

Record Spelled := { symbols : nat; declarations : nat; spellings : nat }.

Definition no_spelling : Spelled := {| symbols := 0; declarations := 0; spellings := 0 |}.

Notation Declared := (gmap (str * Z) Spelled).

Definition add_symbol (s : Spelled) : Spelled := {| symbols := symbols s + 1; declarations := declarations s; spellings := spellings s |}.
Definition add_declaration (s : Spelled) : Spelled := {| symbols := symbols s; declarations := declarations s + 1; spellings := spellings s |}.
Definition add_spelling (s : Spelled) : Spelled := {| symbols := symbols s; declarations := declarations s; spellings := spellings s + 1 |}.

(** [entry(key).or_default()] and a change of it. *)
Definition at_entry (f : Spelled -> Spelled) (lines : Declared) (key : str * Z) : Declared :=
  <[key := f (default no_spelling (lines !! key))]> lines.

Definition declared_of (introduced : list Symbol) (refs : list Ref) : Declared :=
  let lines := foldl (fun lines s => at_entry add_symbol lines (sym_name s, name_line s)) ∅ introduced in
  let declaring := List.filter (fun r => bool_decide (role r = Declaration)) refs in
  let lines := foldl (fun lines r => at_entry add_declaration lines (name r, line r)) lines declaring in
  foldl (fun lines r => match lines !! (name r, line r) with
                        | Some spelled => <[(name r, line r) := add_spelling spelled]> lines
                        | None => lines
                        end) lines refs.

Definition holds (d : Declared) (n : str) (l : Z) : bool :=
  match d !! (n, l) with Some spelled => (0 <? symbols spelled)%nat | None => false end.

Definition declares (d : Declared) (r : Ref) : bool := bool_decide (role r = Declaration) || holds d (name r) (line r).

Definition only_declares (d : Declared) (n : str) (l : Z) : bool :=
  match d !! (n, l) with
  | Some spelled => (spellings spelled <=? Nat.max (symbols spelled) (declarations spelled))%nat
  | None => false
  end.

(** * Calls *)

Record CallSite := { site_name : str; site_line : Z; site_offset : nat }.

Definition is_ascii_alphabetic (c : char) : bool := ((65 <=? c) && (c <=? 90) || (97 <=? c) && (c <=? 122))%Z.
Definition c_underscore : char := 95.
Definition starts_name (c : char) : bool := is_ascii_alphabetic c || (c =? c_underscore)%Z.
Definition in_name (c : char) : bool := is_ascii_alphabetic c || is_ascii_digit c || (c =? c_underscore)%Z.

(** [find] of the first place from [from] on whose character is as asked. *)
Definition find_char (f : char -> bool) (text : str) (from : nat) : option nat :=
  Nat.add from <$> position f (drop from text).

Definition call_at (text : str) (at_ : nat) : option (nat * nat) :=
  first ← text !! at_;
  if negb (starts_name first) then None
  else if (0 <? at_)%nat && from_option (fun c => is_word c || (c =? c_dot)%Z) false (text !! (at_ - 1)%nat) then None
  else
    let name_end := default (length text) (find_char (fun c => negb (in_name c)) text (at_ + 1)) in
    paren ← find_char (fun c => negb (is_space c)) text name_end;
    if bool_decide (text !! paren = Some c_paren_open) then Some (name_end, (paren + 1)%nat) else None.

Definition line_starts (text : str) : list nat :=
  O :: map (fun '(index, _) => (index + 1)%nat) (List.filter (fun '(_, c) => (c =? c_lf)%Z) (imap pair text)).

Definition U32_MAX : Z := 2 ^ 32 - 1.

Definition line_of (starts : list nat) (offset : nat) : Z :=
  let line := Nat.max (partition_point (fun start => (start <=? offset)%nat) starts) 1 in
  Z.min (Z.of_nat line) U32_MAX.

Section Scan.
Context (coded : gset (str * Z)) (declared : Declared) (starts : list nat).

(** The site of a match, when its name is a reference on that line and no declaration. *)
Definition site_of (text : str) (at_ name_end end_ : nat) : option CallSite :=
  let name := take (name_end - at_) (drop at_ text) in
  let line := line_of starts at_ in
  if bool_decide ((name, line) ∈ coded) && negb (holds declared name line)
  then Some {| site_name := name; site_line := line; site_offset := end_ - 1 |} else None.

(** From [at_] on. *)
Fixpoint scan (fuel : nat) (text : str) (at_ : nat) (sites : list CallSite) : option (list CallSite) :=
  match fuel with
  | O => None
  | S fuel =>
      if (at_ <? length text)%nat then
        match call_at text at_ with
        | None => scan fuel text (at_ + 1) sites
        | Some (name_end, end_) => scan fuel text end_ (sites ++ option_list (site_of text at_ name_end end_))
        end
      else Some sites
  end.
End Scan.

Definition call_sites (text : str) (refs : list Ref) (introduced : list Symbol) : option (list CallSite) :=
  let coded := list_to_set (map (fun r => (name r, line r)) (List.filter is_reference refs)) in
  scan coded (declared_of introduced refs) (line_starts text) (S (length text)) text 0 [].

(** * What a declaration table counts *)

Definition count_at {A} (key : A -> str * Z) (k : str * Z) (l : list A) : nat := length (List.filter (fun x => bool_decide (key x = k)) l).

Lemma entry_fold {A} (f : Spelled -> Spelled) (key : A -> str * Z) (field : Spelled -> nat) (l : list A) (d : Declared) k :
  (forall s, field (f s) = S (field s)) ->
  (forall other : Spelled -> nat, (forall s, other (f s) = other s) ->
    other (default no_spelling (foldl (fun d x => at_entry f d (key x)) d l !! k)) = other (default no_spelling (d !! k))) /\
  field (default no_spelling (foldl (fun d x => at_entry f d (key x)) d l !! k)) = (field (default no_spelling (d !! k)) + count_at key k l)%nat /\
  (is_Some (foldl (fun d x => at_entry f d (key x)) d l !! k) <-> is_Some (d !! k) \/ exists x, x ∈ l /\ key x = k).
Proof.
  intros Hf. induction l as [|x l (IH1 & IH2 & IH3)] using rev_ind.
  { cbn. split; [done|]. split; [lia|]. split; [by left|]. intros [?|(x & Hx & _)]; [done|]. by apply elem_of_nil in Hx. }
  rewrite foldl_app. cbn [foldl]. set (d' := foldl _ d l) in *. unfold at_entry.
  unfold count_at in *. rewrite List.filter_app, length_app. cbn [List.filter].
  destruct (decide (key x = k)) as [<-|Hne].
  - rewrite lookup_insert_eq, bool_decide_true by done. cbn [default from_option id length]. split; [|split].
    + intros other Ho. rewrite Ho. by apply IH1.
    + rewrite Hf, IH2. lia.
    + split; [|by eexists]. intros _. right. exists x. split; [apply elem_of_app; right; left|done].
  - rewrite lookup_insert_ne, bool_decide_false by done. cbn [length]. split; [done|]. split; [lia|]. rewrite IH3.
    setoid_rewrite elem_of_app. setoid_rewrite list_elem_of_singleton. split.
    + intros [?|(y & ? & ?)]; [by left|right; exists y; auto].
    + intros [?|(y & [?| ->] & ?)]; [by left|right; eauto|done].
Qed.

Definition sym_key (s : Symbol) : str * Z := (sym_name s, name_line s).
Definition ref_key (r : Ref) : str * Z := (name r, line r).
Definition declarations_in (refs : list Ref) : list Ref := List.filter (fun r => bool_decide (role r = Declaration)) refs.

Lemma spelling_fold (refs : list Ref) (d : Declared) k :
  foldl (fun lines r => match lines !! (name r, line r) with
                        | Some spelled => <[(name r, line r) := add_spelling spelled]> lines
                        | None => lines
                        end) d refs !! k =
  (fun s => {| symbols := symbols s; declarations := declarations s; spellings := spellings s + count_at ref_key k refs |}) <$> d !! k.
Proof.
  unfold count_at. induction refs as [|r refs IH] using rev_ind.
  { cbn. destruct (d !! k) as [[]|]; [|done]. cbn. by rewrite Nat.add_0_r. }
  rewrite foldl_app, List.filter_app, length_app. cbn [foldl List.filter]. set (d' := foldl _ d refs) in *.
  destruct (decide (ref_key r = k)) as [<-|Hne].
  - rewrite bool_decide_true by done. change (ref_key r) with (name r, line r) in *. destruct (d' !! (name r, line r)) as [s|] eqn:E.
    + rewrite lookup_insert_eq. destruct (d !! (name r, line r)) as [s0|]; [|done]. injection IH as ->. cbn. unfold add_spelling. cbn. do 2 f_equal. lia.
    + rewrite E. by destruct (d !! (name r, line r)).
  - rewrite bool_decide_false by done. cbn [length]. rewrite Nat.add_0_r, <- IH.
    destruct (d' !! (name r, line r)); [|done]. by rewrite lookup_insert_ne.
Qed.

Lemma count_at_pos {A} (key : A -> str * Z) k l : (0 < count_at key k l)%nat <-> exists x, x ∈ l /\ key x = k.
Proof.
  unfold count_at. split.
  - destruct (List.filter (fun x => bool_decide (key x = k)) l) as [|x f] eqn:E; [cbn; lia|]. intros _. exists x.
    assert (In x (List.filter (fun x => bool_decide (key x = k)) l)) as Hx by (rewrite E; by left).
    apply filter_In in Hx as [Hx Hk%bool_decide_eq_true]. split; [by apply list_elem_of_In|done].
  - intros (x & Hx & Hk). assert (In x (List.filter (fun x => bool_decide (key x = k)) l)) as Hin.
    { apply filter_In. split; [by apply list_elem_of_In|by apply bool_decide_eq_true]. }
    destruct (List.filter _ l); [done|cbn; lia].
Qed.

Lemma declared_lookup introduced refs k :
  let declared := declared_of introduced refs in
  let syms := count_at sym_key k introduced in
  let decls := count_at ref_key k (declarations_in refs) in
  declared !! k =
    if (0 <? syms + decls)%nat then Some {| symbols := syms; declarations := decls; spellings := count_at ref_key k refs |} else None.
Proof.
  cbn zeta. unfold declared_of. rewrite spelling_fold. fold (declarations_in refs).
  set (d1 := foldl (fun lines s => at_entry add_symbol lines (sym_name s, name_line s)) ∅ introduced).
  set (d2 := foldl (fun lines r => at_entry add_declaration lines (name r, line r)) d1 (declarations_in refs)).
  destruct (entry_fold add_symbol sym_key symbols introduced ∅ k ltac:(intros; cbn; lia)) as (A1 & A2 & A3).
  change (foldl (fun d x => at_entry add_symbol d (sym_key x)) ∅ introduced) with d1 in *.
  destruct (entry_fold add_declaration ref_key declarations (declarations_in refs) d1 k ltac:(intros; cbn; lia)) as (B1 & B2 & B3).
  change (foldl (fun d x => at_entry add_declaration d (ref_key x)) d1 (declarations_in refs)) with d2 in *.
  rewrite lookup_empty in *. cbn [default from_option] in *.
  pose proof (A1 declarations ltac:(done)) as A4. pose proof (A1 spellings ltac:(done)) as A5.
  pose proof (B1 symbols ltac:(done)) as B4. pose proof (B1 spellings ltac:(done)) as B5.
  rewrite <- count_at_pos in A3. rewrite <- count_at_pos in B3.
  destruct (Nat.ltb_spec 0 (count_at sym_key k introduced + count_at ref_key k (declarations_in refs))) as [Hpos|Hz].
  - assert (is_Some (d2 !! k)) as [s Hs].
    { apply B3. destruct (decide (0 < count_at ref_key k (declarations_in refs))%nat); [by right|left; apply A3; right; lia]. }
    rewrite Hs in *. cbn in *. do 2 f_equal; lia.
  - destruct (d2 !! k) as [s|] eqn:Hs; [|done]. exfalso. assert (is_Some (Some s)) as Hsome by (by eexists).
    apply B3 in Hsome as [Hsome|?]; [|lia]. apply A3 in Hsome as [[? ?]|?]; [done|lia].
Qed.

(** The table of declarations counts: a line holds a name's symbol when one has its name there, and
    only declares it when the occurrences of the name there, which a symbol or a declaration marks,
    are no more than the symbols or than the declarations. *)
Theorem declared_exact introduced refs n l :
  let d := declared_of introduced refs in
  (holds d n l = true <-> exists s, s ∈ introduced /\ sym_name s = n /\ name_line s = l) /\
  (only_declares d n l = true <->
    ((exists s, s ∈ introduced /\ sym_key s = (n, l)) \/ (exists r, r ∈ declarations_in refs /\ ref_key r = (n, l))) /\
    (count_at ref_key (n, l) refs <= Nat.max (count_at sym_key (n, l) introduced) (count_at ref_key (n, l) (declarations_in refs)))%nat).
Proof.
  cbn zeta. unfold holds, only_declares. rewrite declared_lookup. rewrite <- !count_at_pos.
  assert ((exists s, s ∈ introduced /\ sym_name s = n /\ name_line s = l) <-> (0 < count_at sym_key (n, l) introduced)%nat) as ->.
  { rewrite count_at_pos. unfold sym_key. split; intros (s & Hs & H); exists s; (split; [done|]); [by destruct H as [-> ->]|by injection H]. }
  destruct (Nat.ltb_spec 0 (count_at sym_key (n, l) introduced + count_at ref_key (n, l) (declarations_in refs))); cbn [symbols declarations spellings].
  - rewrite Nat.ltb_lt, Nat.leb_le. split; [done|]. split; [|by intros [_ ?]]. intros ?. split; [lia|done].
  - split; [split; [done|lia]|]. split; [done|]. intros [? _]. lia.
Qed.

(** * The scan *)

(** The regular expression [(?<![\w.])([A-Za-z_][A-Za-z0-9_]* )\s*\(] (without its blank) from [at_]:
    the end of the name and of the match. *)
Definition call_match (text : str) (at_ name_end end_ : nat) : Prop :=
  (at_ < name_end < end_)%nat /\ (end_ <= length text)%nat /\
  (exists c, text !! at_ = Some c /\ starts_name c = true) /\
  (forall i c, (at_ < i < name_end)%nat -> text !! i = Some c -> in_name c = true) /\
  (forall i c, (name_end <= i < end_ - 1)%nat -> text !! i = Some c -> is_space c = true) /\
  text !! (end_ - 1)%nat = Some c_paren_open /\
  (forall c, (0 < at_)%nat -> text !! (at_ - 1)%nat = Some c -> is_word c = false /\ c <> c_dot).

Lemma find_char_spec f text from :
  match find_char f text from with
  | Some n => (from <= n)%nat /\ (exists x, text !! n = Some x /\ f x = true) /\ forall i x, (from <= i < n)%nat -> text !! i = Some x -> f x = false
  | None => forall i x, (from <= i)%nat -> text !! i = Some x -> f x = false
  end.
Proof.
  unfold find_char. pose proof (position_spec f (drop from text)) as H. destruct (position f (drop from text)) as [n|]; cbn.
  - setoid_rewrite lookup_drop in H. destruct H as [Hx Hno]. split; [lia|]. split; [done|]. intros i x Hi Hl.
    apply (Hno (i - from)%nat); [lia|]. by replace (from + (i - from))%nat with i by lia.
  - intros i x Hi Hl. apply (H (i - from)%nat). rewrite lookup_drop. by replace (from + (i - from))%nat with i by lia.
Qed.

Lemma in_name_not_space c : in_name c = true -> is_space c = false /\ c <> c_paren_open.
Proof. unfold in_name, is_ascii_alphabetic, is_ascii_digit, is_space, c_underscore, c_paren_open. lia. Qed.

Lemma call_at_exact text at_ name_end end_ : call_at text at_ = Some (name_end, end_) <-> call_match text at_ name_end end_.
Proof.
  unfold call_at, call_match. destruct (text !! at_) as [first|] eqn:Efirst.
  2: { split; [done|]. intros (_ & _ & (c & [=] & _) & _). }
  cbn [mbind option_bind]. pose proof (lookup_lt_Some _ _ _ Efirst) as Hlt.
  destruct (starts_name first) eqn:Es; cbn [negb].
  2: { split; [done|]. intros (_ & _ & (c & [= <-] & Hc) & _). congruence. }
  destruct ((0 <? at_)%nat && _) eqn:Eb.
  { split; [done|]. intros (_ & _ & _ & _ & _ & _ & Hb). exfalso. apply andb_true_iff in Eb as [Hpos%Nat.ltb_lt Hw].
    destruct (text !! (at_ - 1)%nat) as [c|]; [|done]. cbn [from_option] in Hw. destruct (Hb c Hpos eq_refl) as [Hw1 Hw2].
    rewrite Hw1 in Hw. by apply Z.eqb_eq in Hw. }
  assert (forall c, (0 < at_)%nat -> text !! (at_ - 1)%nat = Some c -> is_word c = false /\ c <> c_dot) as Hbefore.
  { intros c Hpos Hc. rewrite (proj2 (Nat.ltb_lt _ _) Hpos), Hc in Eb. cbn [from_option andb] in Eb. apply orb_false_iff in Eb as [? ?%Z.eqb_neq]. done. }
  pose proof (find_char_spec (fun c => negb (in_name c)) text (at_ + 1)) as Hname.
  set (ne := default (length text) (find_char (fun c => negb (in_name c)) text (at_ + 1))).
  assert ((at_ < ne <= length text)%nat /\ (forall i c, (at_ < i < ne)%nat -> text !! i = Some c -> in_name c = true) /\
    (forall c, text !! ne = Some c -> in_name c = false)) as (Hne & Hin & Hout).
  { unfold ne. destruct (find_char _ text (at_ + 1)) as [n|]; cbn.
    - destruct Hname as (H1 & (x & Hx & Hf) & H2). split; [apply lookup_lt_Some in Hx; lia|]. split.
      + intros i c Hi Hc. apply negb_false_iff, (H2 i); [lia|done].
      + intros c Hc. rewrite Hx in Hc. injection Hc as <-. by apply negb_true_iff.
    - split; [lia|]. split.
      + intros i c Hi Hc. apply negb_false_iff, (Hname i); [lia|done].
      + intros c Hc%lookup_lt_Some. lia. }
  clearbody ne. clear Hname. pose proof (find_char_spec (fun c => negb (is_space c)) text ne) as Hspace.
  (* The end of the name is where its characters end: none of them is a space or a parenthesis. *)
  assert (forall n e, (at_ < n < e)%nat -> (e <= length text)%nat ->
    (forall i c, (at_ < i < n)%nat -> text !! i = Some c -> in_name c = true) ->
    (forall i c, (n <= i < e - 1)%nat -> text !! i = Some c -> is_space c = true) ->
    text !! (e - 1)%nat = Some c_paren_open -> n = ne) as Hunique.
  { intros n e Hn He H1 H2 H3. destruct (Nat.lt_trichotomy n ne) as [H|[H|H]]; [exfalso|done|exfalso].
    - destruct (lookup_lt_is_Some_2 text n) as [c Hc]; [lia|]. pose proof (Hin n c ltac:(lia) Hc) as Hname.
      apply in_name_not_space in Hname as [Hs Hp]. destruct (decide (n = (e - 1)%nat)) as [->|].
      + rewrite Hc in H3. by injection H3.
      + rewrite (H2 n c) in Hs by (lia || done). done.
    - destruct (lookup_lt_is_Some_2 text ne) as [c Hc]; [lia|]. pose proof (Hout c Hc). rewrite (H1 ne c) in * by (lia || done). done. }
  destruct (find_char (fun c => negb (is_space c)) text ne) as [paren|]; cbn [mbind option_bind].
  - destruct Hspace as (H1 & (x & Hx & Hf) & H2). case_bool_decide as Hp.
    + assert (forall i c, (ne <= i < paren)%nat -> text !! i = Some c -> is_space c = true) as Hsp.
      { intros i c Hi Hc. apply negb_false_iff, (H2 i); [lia|done]. }
      pose proof (lookup_lt_Some _ _ _ Hp). split.
      * intros [= <- <-]. split_and!; try done; try lia; [by exists first|intros i c Hi; apply Hsp; lia|].
        by replace (paren + 1 - 1)%nat with paren by lia.
      * intros (A1 & A2 & _ & A3 & A4 & A5 & _). pose proof (Hunique name_end end_ A1 A2 A3 A4 A5) as ->. do 2 f_equal.
        destruct (Nat.lt_trichotomy paren (end_ - 1)) as [H'|[H'|H']]; [exfalso|lia|exfalso].
        -- pose proof (A4 paren x ltac:(lia) Hx) as Hs. by rewrite Hs in Hf.
        -- assert (is_space c_paren_open = true) by (apply (Hsp (end_ - 1)%nat); [lia|done]). done.
    + split; [done|]. intros (A1 & A2 & _ & A3 & A4 & A5 & _). exfalso. pose proof (Hunique name_end end_ A1 A2 A3 A4 A5) as ->.
      destruct (Nat.lt_trichotomy paren (end_ - 1)) as [H'|[H'|H']].
      * rewrite (A4 paren x) in Hf by (lia || done). done.
      * subst paren. by rewrite A5 in Hp.
      * pose proof (H2 (end_ - 1)%nat c_paren_open ltac:(lia) A5). done.
  - split; [done|]. intros (A1 & A2 & _ & A3 & A4 & A5 & _). exfalso. pose proof (Hunique name_end end_ A1 A2 A3 A4 A5) as ->.
    pose proof (Hspace (end_ - 1)%nat c_paren_open ltac:(lia) A5). done.
Qed.

(** The leftmost matches from a place on that do not overlap. *)
Inductive matches (text : str) : nat -> list (nat * nat * nat) -> Prop :=
| matches_end at_ : (length text <= at_)%nat -> matches text at_ []
| matches_skip at_ found :
    (at_ < length text)%nat -> (forall name_end end_, ~ call_match text at_ name_end end_) -> matches text (at_ + 1) found ->
    matches text at_ found
| matches_hit at_ name_end end_ found :
    call_match text at_ name_end end_ -> matches text end_ found -> matches text at_ ((at_, name_end, end_) :: found).

(** The line of a place: one more than the line breaks before it. *)
Definition line_at (text : str) (offset : nat) : Z := Z.min (Z.of_nat (1 + count (is_char c_lf) (take offset text))) U32_MAX.

Lemma line_of_exact text offset : line_of (line_starts text) offset = line_at text offset.
Proof.
  unfold line_of, line_at, line_starts, partition_point. cbn [take_while]. change (0 <=? offset)%nat with true. cbn [length].
  assert (forall k (l : str), length (take_while (fun start => (start <=? offset)%nat)
      (map (fun '(index, _) => (index + 1)%nat) (List.filter (fun '(_, c) => (c =? c_lf)%Z) (imap (fun j c => ((k + j)%nat, c)) l)))) =
    count (is_char c_lf) (take (offset - k) l)) as H.
  { intros k l. revert k. induction l as [|c l IH]; intros k; [by rewrite take_nil|]. cbn [imap List.filter].
    assert (imap ((fun j x => ((k + j)%nat, x)) ∘ S) l = imap (fun j x => ((S k + j)%nat, x)) l) as ->.
    { apply imap_ext. intros j x _. cbn. f_equal. lia. }
    specialize (IH (S k)). rewrite Nat.add_0_r. destruct (Nat.leb_spec (k + 1) offset) as [Hle|Hgt].
    - replace (offset - k)%nat with (S (offset - S k)) by lia. cbn [take]. unfold count in *. cbn [List.filter]. unfold is_char at 1.
      rewrite (Z.eqb_sym c_lf c). destruct (c =? c_lf)%Z; [|done]. cbn [map take_while length].
      rewrite (proj2 (Nat.leb_le _ _) Hle). cbn [length]. by rewrite IH.
    - replace (offset - k)%nat with O by lia. replace (offset - S k)%nat with O in IH by lia. cbn [take] in *.
      destruct (c =? c_lf)%Z; [|done]. cbn [map take_while]. by rewrite (proj2 (Nat.leb_gt _ _) Hgt). }
  specialize (H O text). rewrite Nat.sub_0_r in H. rewrite <- H. rewrite Nat.max_l by lia. done.
Qed.

Lemma sites_spec coded declared starts fuel text at_ sites : (length text - at_ < fuel)%nat ->
  exists found, matches text at_ found /\
    scan coded declared starts fuel text at_ sites =
    Some (sites ++ omap (fun '(at_, name_end, end_) => site_of coded declared starts text at_ name_end end_) found).
Proof.
  revert at_ sites. induction fuel as [|fuel IH]; intros at_ sites Hf; [lia|]. cbn [scan].
  destruct (Nat.ltb_spec at_ (length text)) as [Hlt|Hge].
  2: { exists []. split; [by constructor|]. cbn. by rewrite app_nil_r. }
  destruct (call_at text at_) as [[name_end end_]|] eqn:Ec.
  - apply call_at_exact in Ec as Hm. destruct Hm as ((H1 & H2) & H3 & _).
    destruct (IH end_ (sites ++ option_list (site_of coded declared starts text at_ name_end end_)) ltac:(lia)) as (found & Hfound & ->).
    exists ((at_, name_end, end_) :: found). split; [apply matches_hit; [by apply call_at_exact|done]|].
    rewrite <- app_assoc. cbn. by destruct (site_of _ _ _ _ _ _ _).
  - destruct (IH (at_ + 1)%nat sites ltac:(lia)) as (found & Hfound & ->). exists found. split; [|done].
    apply matches_skip; [done| |done]. intros ne e Hm%call_at_exact. congruence.
Qed.

(** The site of a match whose name is a reference on its line that no symbol there has. *)
Definition kept (text : str) (refs : list Ref) (introduced : list Symbol) (at_ name_end end_ : nat) : option CallSite :=
  let n := take (name_end - at_) (drop at_ text) in
  let l := line_at text at_ in
  if any (fun r => is_reference r && bool_decide (ref_key r = (n, l))) refs && negb (any (fun s => bool_decide (sym_key s = (n, l))) introduced)
  then Some {| site_name := n; site_line := l; site_offset := end_ - 1 |} else None.

(** The calls of a fragment are the leftmost matches of the expression that do not overlap, those
    whose name is a reference on its line that no symbol there has, each with its name, its line
    and the place of its parenthesis. *)
Theorem call_sites_exact text refs introduced :
  exists found, matches text 0 found /\
    call_sites text refs introduced =
    Some (omap (fun '(at_, name_end, end_) => kept text refs introduced at_ name_end end_) found).
Proof.
  unfold call_sites. set (coded := list_to_set _). set (declared := declared_of _ _).
  destruct (sites_spec coded declared (line_starts text) (S (length text)) text 0 [] ltac:(lia)) as (found & Hm & ->).
  exists found. split; [done|]. cbn [app]. f_equal. apply list_omap_ext. apply Forall2_same_length_lookup_2; [done|].
  intros i [[at1 n1] e1] m2 H1 H2. rewrite H1 in H2. injection H2 as <-. unfold site_of, kept. rewrite line_of_exact.
  set (n := take _ _). set (l := line_at _ _).
  assert (bool_decide ((n, l) ∈ coded) = any (fun r => is_reference r && bool_decide (ref_key r = (n, l))) refs) as ->.
  { apply eq_bool_prop_intro. rewrite bool_decide_spec, Is_true_true, any_spec. unfold coded. rewrite elem_of_list_to_set, list_elem_of_fmap. split.
    - intros (r & Hr & Hin). apply list_elem_of_In, filter_In in Hin as [Hin Href]. exists r. split; [by apply list_elem_of_In|].
      rewrite Href. by apply bool_decide_eq_true.
    - intros (r & Hin & [Href Hk%bool_decide_eq_true]%andb_true_iff). exists r. split; [done|]. apply list_elem_of_In, filter_In.
      split; [by apply list_elem_of_In|done]. }
  assert (holds declared n l = any (fun s => bool_decide (sym_key s = (n, l))) introduced) as ->; [|done].
  apply eq_bool_prop_intro. rewrite !Is_true_true, any_spec. unfold holds, declared. rewrite declared_lookup.
  setoid_rewrite bool_decide_eq_true. rewrite <- count_at_pos.
  destruct (Nat.ltb_spec 0 (count_at sym_key (n, l) introduced + count_at ref_key (n, l) (declarations_in refs))); cbn [symbols].
  - apply Nat.ltb_lt.
  - split; [done|lia].
Qed.

Example two_calls :
  call_sites (lit "f(x).g(y)" ++ [c_lf] ++ lit "h (z)")
    [{| name := lit "f"; line := 1; role := Reference; qualifier := [] |}; {| name := lit "g"; line := 1; role := Reference; qualifier := [] |};
     {| name := lit "h"; line := 2; role := Reference; qualifier := [] |}] [] =
  Some [{| site_name := lit "f"; site_line := 1; site_offset := 1 |}; {| site_name := lit "h"; site_line := 2; site_offset := 12 |}].
Proof. vm_compute. reflexivity. Qed.
