(* ===== verification/Resolver.v ===== *)
(** Names as definitions: crates/graph/src/resolver.rs.

    A name in a file is resolved through the definitions of the file, then through the imports of its
    scope (Scopes.v), then by its name alone in the index of Names.v.  [follow_exact] shows that the
    walk along re-exports ends and reaches exactly the definitions within its bound of hops;
    [resolve_exact] that the tiers are tried in their order and hold exactly the definitions they
    should, whatever the groups that the table of candidates is split into. *)

From S2P Require Import Prelude RustStr Ordered Text FactValues ModulePaths Names Scopes CallSites.

#[local] Open Scope rs_scope.
#[local] Open Scope nat_scope.

Definition MAX_IMPORT_HOPS : nat := 32.

Inductive Tier := SameFile | Imported | Unique | Ambiguous.

#[export] Instance Tier_eq_dec : EqDecision Tier.
Proof. solve_decision. Defined.

Definition TIERS : list Tier := [SameFile; Imported; Unique; Ambiguous].

(** [as usize] of the tier. *)
Definition tier_index (t : Tier) : nat := match t with SameFile => 0 | Imported => 1 | Unique => 2 | Ambiguous => 3 end.

Definition TIER_VALUES : list str := [lit "same_file"; lit "imported"; lit "unique"; lit "ambiguous"].
Definition TIER_LABELS : list str := [lit "same-file"; lit "resolved-via-import"; lit "unique"; lit "name-only-ambiguous"].

Definition as_str (t : Tier) : str := nth (tier_index t) TIER_VALUES [].
Definition label (t : Tier) : str := nth (tier_index t) TIER_LABELS [].
Definition tier_binds (t : Tier) : bool := match t with SameFile | Imported => true | _ => false end.

Record Resolution := { tier : Tier; candidates : list Definition_ }.

Definition imported (ds : list Definition_) : Resolution := {| tier := Imported; candidates := ds |}.

(** * The candidates of a name *)

Record Candidates := { in_order : list Definition_; path_groups : list (str * nat * nat) }.

Definition d_line (d : Definition_) : Z := sym_line (d_symbol d).
Definition d_top (d : Definition_) : bool := bool_decide (parent (d_symbol d) = []).

(** [(path, line, qualified name)] tuples compared. *)
Definition definition_le (a b : Definition_) : bool :=
  str_lt (d_path a) (d_path b) ||
  bool_decide (d_path a = d_path b) &&
    ((d_line a <? d_line b)%Z || (d_line a =? d_line b)%Z && bytes_le (qualname (d_symbol a)) (qualname (d_symbol b))).

Definition add_group (groups : list (str * nat * nat)) (cell : nat * Definition_) : list (str * nat * nat) :=
  let '(position, entry) := cell in
  match last groups with
  | Some (path, start, _) =>
      if bool_decide (path = d_path entry) then removelast groups ++ [(path, start, position + 1)]
      else groups ++ [(d_path entry, position, position + 1)]
  | None => groups ++ [(d_path entry, position, position + 1)]
  end.

Definition ordered (ds : list Definition_) : Candidates :=
  let in_order := sort_by definition_le ds in
  {| in_order := in_order; path_groups := foldl add_group [] (imap pair in_order) |}.

Definition slice (known : Candidates) (g : str * nat * nat) : list Definition_ := take (g.2 - g.1.2) (drop g.1.2 (in_order known)).

(** The groups are sorted by path, each path once, so the binary search finds the one of the path. *)
Definition group (known : Candidates) (path : str) : list Definition_ :=
  match List.find (fun g => bool_decide (g.1.1 = path)) (path_groups known) with Some g => slice known g | None => [] end.

Definition groups (known : Candidates) : list (str * list Definition_) := map (fun g => (g.1.1, slice known g)) (path_groups known).

Definition in_module_scope (d : Definition_) (path : str) : bool := bool_decide (d_path d = path) && d_top d.

Definition bare_name_reaches (spelled : option Language) (d : Definition_) : bool := negb (bool_decide (spelled = Some Rust)) || d_top d.

(** * The walk along re-exports *)

(** A [BTreeSet] of pairs, in order. *)
Definition pair_le (a b : str * str) : bool := str_lt a.1 b.1 || bool_decide (a.1 = b.1) && bytes_le a.2 b.2.
Definition pairs_iter (pairs : gset (str * str)) : list (str * str) := sort_by pair_le (elements pairs).
Definition set_iter (paths : gset str) : list str := sort_strings (elements paths).

Definition re_exports (s : ImportScope) (member : str) : list (str * str) :=
  let explicit := default ∅ (members s !! member) in
  if negb (bool_decide (explicit = ∅)) then pairs_iter explicit
  else if starts_with (lit "_") member then []
  else map (fun module => (module, member)) (set_iter (wholesale s)).

Record Found := { keys : gset (str * Z); definitions_found : list Definition_ }.

Definition d_key (d : Definition_) : str * Z := (d_path d, d_line d).

Definition extend_one (found : Found) (d : Definition_) : Found :=
  if bool_decide (d_key d ∈ keys found) then found
  else {| keys := {[d_key d]} ∪ keys found; definitions_found := definitions_found found ++ [d] |}.

Definition extend (found : Found) (defined : list Definition_) : Found := foldl extend_one found defined.

Record Resolver := { r_index : NameIndex; r_scopes : Scopes; r_candidates : list Candidates }.

Definition new (index : NameIndex) (scopes : Scopes) : Resolver :=
  {| r_index := index; r_scopes := scopes; r_candidates := map (fun e => ordered (definitions e)) (Names.entries index) |}.

Section Resolver.
Context (r : Resolver).

Definition known (name : str) : option Candidates := position ← Names.position (r_index r) name; r_candidates r !! position.

Definition defined_at (member target : str) : list Definition_ :=
  match known member with
  | Some known => List.filter (fun d => in_module_scope d target) (group known target)
  | None => []
  end.

(** Breadth first over the pending members with their depths; [None] is the end of the fuel. *)
Fixpoint follow_loop (fuel : nat) (pending : list (str * str * nat)) (visited : gset (str * str)) (found : Found) : option Found :=
  match fuel with
  | O => None
  | S fuel =>
      match pending with
      | [] => Some found
      | (target, member, depth) :: pending =>
          if bool_decide ((target, member) ∈ visited) then follow_loop fuel pending visited found
          else
            let visited := {[(target, member)]} ∪ visited in
            let defined := defined_at member target in
            let found := extend found defined in
            if negb (bool_decide (defined = [])) || (MAX_IMPORT_HOPS <=? depth) then follow_loop fuel pending visited found
            else
              match Scopes.get (r_scopes r) target with
              | Some onward => follow_loop fuel (pending ++ map (fun hop => (hop, depth + 1)) (re_exports onward member)) visited found
              | None => follow_loop fuel pending visited found
              end
      end
  end.

(** The members that a walk can reach: of a scanned file, under a name of the first hops or of a scope. *)
Definition member_names (s : ImportScope) : list str := flat_map (fun cell => map snd (elements cell.2)) (map_to_list (members s)).

Definition reachable_names (first : list (str * str)) : list str := remove_dups (map snd first ++ flat_map member_names (per_file (r_scopes r))).

Definition out_degree (node : str * str) : nat :=
  match Scopes.get (r_scopes r) node.1 with Some s => length (re_exports s node.2) | None => 0 end.

Definition nodes (first : list (str * str)) : list (str * str) :=
  flat_map (fun path => map (fun name => (path, name)) (reachable_names first)) (remove_dups (map path (scanned_files (r_scopes r)))).

Definition follow_fuel (first : list (str * str)) : nat := S (length first + sum_list_with out_degree (nodes first)).

(** The definitions that the members reach, in order; with this fuel the walk ends. *)
Definition follow (first : list (str * str)) : list Definition_ :=
  match follow_loop (follow_fuel first) (map (fun hop => (hop, 1)) first) ∅ {| keys := ∅; definitions_found := [] |} with
  | Some found => in_order (ordered (definitions_found found))
  | None => []
  end.

(** * Names *)

Definition through_imports (name path : str) : list Definition_ :=
  match Scopes.get (r_scopes r) path with
  | None => []
  | Some scope =>
      let first := pairs_iter (default ∅ (members scope !! name)) in
      let first := if bool_decide (first = []) && bool_decide (language_of (r_scopes r) path = Some Rust)
                   then map (fun module => (module, name)) (set_iter (wholesale scope)) else first in
      follow first
  end.

Definition bound_here (known : Candidates) (name path : str) : option Resolution :=
  let same_file := List.filter (fun d => in_module_scope d path) (group known path) in
  if negb (bool_decide (same_file = [])) then Some {| tier := SameFile; candidates := same_file |}
  else
    scope ← Scopes.get (r_scopes r) path;
    let spelled := language_of (r_scopes r) path in
    let named := List.filter (bare_name_reaches spelled) (flat_map snd (List.filter (fun g => binds scope name g.1) (groups known))) in
    if bool_decide (named = []) then None else Some (imported named).

Definition resolve (name path : str) : option Resolution :=
  let known := known name in
  match (known ← known; bound_here known name path) with
  | Some found => Some found
  | None =>
      let followed := through_imports name path in
      if negb (bool_decide (followed = [])) then Some (imported followed)
      else
        let ordered := from_option in_order [] known in
        let ordered := match language_of (r_scopes r) path with
                       | Some spelled =>
                           List.filter (bare_name_reaches (Some spelled))
                             (List.filter (fun d => bool_decide (family (language (d_file d)) = family spelled)) ordered)
                       | None => ordered
                       end in
        match ordered with
        | [] => None
        | [d] => Some {| tier := Unique; candidates := [d] |}
        | ds => Some {| tier := Ambiguous; candidates := ds |}
        end
  end.

Definition qualified_at (qualifier path : str) : option Qualified := scope ← Scopes.get (r_scopes r) path; qualified_paths scope !! qualifier.

#[export] Instance Qualified_eq_dec : EqDecision Qualified.
Proof. solve_decision. Defined.

Definition names_outside (reference : Ref) (path : str) : bool :=
  negb (bool_decide (role reference = ModuleAttribute)) && negb (bool_decide (qualifier reference = []))
  && bool_decide (qualified_at (qualifier reference) path = Some Foreign).

Definition resolve_qualified (name path qualifier : str) : option Resolution :=
  match qualified_at qualifier path with
  | Some (QModule module) =>
      let reached := defined_at name module in
      let reached := if bool_decide (reached = []) then follow [(module, name)] else reached in
      if bool_decide (reached = []) then resolve name path else Some (imported reached)
  | Some Foreign => None
  | None => resolve name path
  end.

Definition resolve_module_attribute (name path qualifier : str) : option Resolution :=
  scope ← Scopes.get (r_scopes r) path;
  let targets := default ∅ (module_bindings scope !! qualifier) in
  let direct := match known name with
                | Some known => flat_map snd (List.filter (fun g => bool_decide (g.1 ∈ targets)) (groups known))
                | None => []
                end in
  let candidates := if bool_decide (direct = []) then follow (map (fun module => (module, name)) (set_iter targets)) else direct in
  if bool_decide (candidates = []) then None else Some (imported candidates).

Definition resolve_site (reference : Ref) (path : str) : option Resolution :=
  if bool_decide (role reference = ModuleAttribute) then resolve_module_attribute (name reference) path (qualifier reference)
  else if negb (bool_decide (qualifier reference = [])) then resolve_qualified (name reference) path (qualifier reference)
  else resolve (name reference) path.

Definition resolved_sites (file : FileFacts) (wanted : option (gset str)) : list (Ref * Resolution) :=
  let declared := declared_of (FactValues.symbols (facts file)) (refs (facts file)) in
  omap (fun reference =>
    let wanted := from_option (fun names => bool_decide (name reference ∈ names)) true wanted in
    if negb wanted || negb (is_resolvable reference) || declares declared reference then None
    else (fun found => (reference, found)) <$> resolve_site reference (path file)) (refs (facts file)).
End Resolver.

(** * The groups of the candidates *)

Definition cut (l : list Definition_) (g : str * nat * nat) : list Definition_ := take (g.2 - g.1.2) (drop g.1.2 l).

(** The groups cut the list into runs of one path each, the paths increasing. *)
Record grouped (l : list Definition_) (gs : list (str * nat * nat)) : Prop := {
  gr_all : concat (map (cut l) gs) = l;
  gr_path : Forall (fun g => Forall (fun d => d_path d = g.1.1) (cut l g) /\ g.1.2 < g.2 <= length l) gs;
  gr_sorted : StronglySorted (fun g h => str_lt g.1.1 h.1.1 = true) gs;
  gr_last : from_option snd 0 (last gs) = length l
}.

Lemma cut_elem l g d : d ∈ cut l g -> d ∈ l.
Proof.
  intros H. rewrite <- (take_drop g.1.2 l), elem_of_app. right. rewrite <- (take_drop (g.2 - g.1.2) (drop g.1.2 l)), elem_of_app. by left.
Qed.

Lemma cut_app l x g : g.2 <= length l -> cut (l ++ [x]) g = cut l g.
Proof.
  intros H. unfold cut. destruct (le_lt_dec (length l) g.1.2) as [Hl|Hl].
  - replace (g.2 - g.1.2) with 0 by lia. done.
  - rewrite drop_app_le by lia. rewrite take_app_le; [done|]. rewrite length_drop. lia.
Qed.

Lemma cuts_app l x gs : Forall (fun g => Forall (fun d => d_path d = g.1.1) (cut l g) /\ g.1.2 < g.2 <= length l) gs ->
  map (cut (l ++ [x])) gs = map (cut l) gs.
Proof. intros H. apply map_ext_in. intros g Hg%list_elem_of_In. rewrite Forall_forall in H. apply H in Hg as [_ ?]. apply cut_app. lia. Qed.

Lemma sorted_snoc {A} (R : A -> A -> Prop) l x : StronglySorted R l -> Forall (fun y => R y x) l -> StronglySorted R (l ++ [x]).
Proof.
  induction 1 as [|y l Hl IH Hy]; intros H; [repeat constructor|]. apply Forall_cons in H as [H1 H2]. cbn. constructor; [by apply IH|].
  apply Forall_app. split; [done|by constructor].
Qed.

Lemma sorted_init {A} (R : A -> A -> Prop) l x : StronglySorted R (l ++ [x]) -> StronglySorted R l /\ Forall (fun y => R y x) l.
Proof.
  induction l as [|y l IH]; [by split; constructor|]. intros H. inversion H as [|? ? H1 H2]; subst. destruct (IH H1) as [Ha Hb]. apply Forall_app in H2 as [H2 H3].
  apply Forall_cons in H3 as [H3 _]. by split; constructor.
Qed.

Lemma str_lt_trans a b c : str_lt a b = true -> str_lt b c = true -> str_lt a c = true.
Proof.
  rewrite !str_lt_true. intros [H1 N1] [H2 N2]. split; [by eapply bytes_le_trans|]. intros ->. apply N1. by apply bytes_le_antisym.
Qed.

Lemma add_group_grouped l gs x : grouped l gs -> Forall (fun d => bytes_le (d_path d) (d_path x) = true) l -> grouped (l ++ [x]) (add_group gs (length l, x)).
Proof.
  intros [Ha Hp Hs Hl] Hx. assert (cut (l ++ [x]) (d_path x, length l, length l + 1) = [x]) as Hnew.
  { unfold cut. cbn [fst snd]. rewrite drop_app_length. by replace (length l + 1 - length l) with 1 by lia. }
  assert (length (l ++ [x]) = length l + 1) as Hlen by by rewrite length_app.
  assert (Forall (fun g : str * nat * nat => Forall (fun d => d_path d = g.1.1) (cut (l ++ [x]) g) /\ g.1.2 < g.2 <= length (l ++ [x])) gs) as Hp'.
  { rewrite Forall_forall in Hp |- *. intros g Hg. apply Hp in Hg as [H1 H2]. rewrite cut_app, Hlen by lia. split; [done|lia]. }
  assert (Forall (fun g : str * nat * nat => g.1.1 = d_path x \/ str_lt g.1.1 (d_path x) = true) gs) as Hle.
  { rewrite Forall_forall in Hp |- *. intros g Hg. pose proof (Hp g Hg) as [H1 H2]. destruct (cut l g) as [|d c] eqn:Ec.
    - apply (f_equal length) in Ec. unfold cut in Ec. rewrite length_take, length_drop in Ec. cbn in Ec. lia.
    - apply Forall_cons in H1 as [H1 _]. assert (d ∈ l) as Hd.
      { apply (cut_elem l g). rewrite Ec. left. }
      rewrite Forall_forall in Hx. apply Hx in Hd. rewrite H1 in Hd. destruct (decide (g.1.1 = d_path x)); [by left|]. right. by apply str_lt_true. }
  assert (forall gs0 g0, gs = gs0 ++ [g0] -> g0.1.1 <> d_path x -> Forall (fun g : str * nat * nat => str_lt g.1.1 (d_path x) = true) gs) as Hlt.
  { intros gs0 g0 -> Hne. apply sorted_init in Hs as [_ Hs]. apply Forall_app in Hle as [_ Hle]. apply Forall_cons in Hle as [[?|Hle] _]; [done|].
    apply Forall_app. split; [|by repeat constructor]. eapply Forall_impl; [exact Hs|]. cbn. intros g Hg. by eapply str_lt_trans. }
  assert (Forall (fun g : str * nat * nat => str_lt g.1.1 (d_path x) = true) gs -> grouped (l ++ [x]) (gs ++ [(d_path x, length l, length l + 1)])) as Hpush.
  { intros Hg. constructor.
    - rewrite map_app, concat_app, cuts_app, Ha by done. cbn [map concat]. by rewrite Hnew, app_nil_r.
    - apply Forall_app. split; [done|]. constructor; [|constructor]. rewrite Hnew, Hlen. cbn. split; [by repeat constructor|lia].
    - by apply sorted_snoc.
    - rewrite last_snoc, Hlen. done. }
  unfold add_group. destruct gs as [|[[p s] e] gs _] using rev_ind; [by apply Hpush|]. rewrite last_snoc. case_bool_decide as Hpx.
  2:{ apply Hpush. by eapply Hlt. }
  rewrite removelast_last. subst p. rewrite last_snoc in Hl. cbn in Hl. subst e. apply Forall_app in Hp as [Hp1 Hp2]. apply Forall_cons in Hp2 as [[Hp2 Hp3] _].
  cbn [fst snd] in *. assert (cut (l ++ [x]) (d_path x, s, length l + 1) = cut l (d_path x, s, length l) ++ [x]) as Hc.
  { unfold cut. cbn [fst snd]. rewrite drop_app_le by lia. rewrite !take_ge by (rewrite ?length_app, length_drop; cbn; lia). done. }
  rewrite map_app, concat_app in Ha. cbn [map concat] in Ha. rewrite app_nil_r in Ha. constructor.
  - rewrite map_app, concat_app, cuts_app by done. cbn [map concat]. by rewrite Hc, app_nil_r, app_assoc, Ha.
  - apply Forall_app in Hp' as [Hp' _]. apply Forall_app. split; [done|]. constructor; [|constructor]. rewrite Hc, Hlen. cbn [fst snd].
    split; [apply Forall_app; split; [done|by repeat constructor]|lia].
  - apply sorted_init in Hs as [Hs1 Hs2]. apply sorted_snoc; [done|]. exact Hs2.
  - rewrite last_snoc, Hlen. done.
Qed.

Lemma groups_grouped l : StronglySorted (fun a b => bytes_le (d_path a) (d_path b) = true) l -> grouped l (foldl add_group [] (imap pair l)).
Proof.
  induction l as [|x l IH] using rev_ind; intros H; [constructor; by try constructor|]. apply sorted_init in H as [H1 H2].
  rewrite imap_app, foldl_app. cbn [imap foldl]. rewrite Nat.add_0_r. by apply add_group_grouped; [apply IH|].
Qed.

Lemma definition_le_spec a b : definition_le a b = true <->
  str_lt (d_path a) (d_path b) = true \/ (d_path a = d_path b /\ ((d_line a < d_line b)%Z \/ (d_line a = d_line b /\ bytes_le (qualname (d_symbol a)) (qualname (d_symbol b)) = true))).
Proof.
  unfold definition_le. by rewrite orb_true_iff, andb_true_iff, orb_true_iff, andb_true_iff, bool_decide_eq_true, Z.ltb_lt, Z.eqb_eq.
Qed.

Lemma definition_le_total a b : definition_le a b = true \/ definition_le b a = true.
Proof.
  rewrite !definition_le_spec. destruct (decide (d_path a = d_path b)) as [E|E].
  - rewrite E. destruct (Z.lt_trichotomy (d_line a) (d_line b)) as [?|[?|?]]; [tauto| |tauto].
    destruct (bytes_le_total (qualname (d_symbol a)) (qualname (d_symbol b))); [left|right]; right; split; auto.
  - destruct (bytes_le_total (d_path a) (d_path b)); [left|right]; left; apply str_lt_true; split; congruence.
Qed.

Lemma definition_le_trans a b c : definition_le a b = true -> definition_le b c = true -> definition_le a c = true.
Proof.
  rewrite !definition_le_spec. intros [H1|[E1 H1]] [H2|[E2 H2]].
  - left. by eapply str_lt_trans.
  - left. by rewrite <- E2.
  - left. by rewrite E1.
  - right. split; [congruence|]. destruct H1 as [H1|[L1 H1]], H2 as [H2|[L2 H2]]; [left; lia..|]. right. split; [lia|]. by eapply bytes_le_trans.
Qed.

Lemma definition_le_path a b : definition_le a b = true -> bytes_le (d_path a) (d_path b) = true.
Proof. rewrite definition_le_spec. intros [H|[-> _]]; [by apply str_lt_true in H as [? _]|apply bytes_le_refl]. Qed.

Lemma ordered_sorted ds : StronglySorted (fun a b => definition_le a b = true) (in_order (ordered ds)).
Proof. apply (sort_by_sorted _ definition_le_total definition_le_trans). Qed.

Lemma ordered_perm ds : in_order (ordered ds) ≡ₚ ds.
Proof. apply sort_by_perm. Qed.

Lemma ordered_grouped ds : grouped (in_order (ordered ds)) (path_groups (ordered ds)).
Proof. apply groups_grouped. eapply sorted_weaken; [|apply ordered_sorted]. intros a b _ _. apply definition_le_path. Qed.

(** The groups of the kept paths hold what a filter of the definitions keeps. *)
Lemma groups_filter ds (f : str -> bool) :
  flat_map snd (List.filter (fun g => f g.1) (groups (ordered ds))) = List.filter (fun d => f (d_path d)) (in_order (ordered ds)).
Proof.
  destruct (ordered_grouped ds) as [Ha Hp _ _]. unfold groups, slice. set (l := in_order (ordered ds)) in *. set (gs := path_groups _) in *.
  transitivity (List.filter (fun d => f (d_path d)) (concat (map (cut l) gs))); [|by rewrite Ha]. clear Ha. clearbody l gs.
  induction Hp as [|g gs [Hg _] _ IH]; [done|]. cbn [map List.filter concat]. rewrite List.filter_app, <- IH. cbn [fst].
  assert (List.filter (fun d => f (d_path d)) (cut l g) = if f g.1.1 then cut l g else []) as ->.
  { destruct (f g.1.1) eqn:E; [apply filter_all|apply filter_none]; (eapply Forall_impl; [exact Hg|]); by intros d ->. }
  by destruct (f g.1.1).
Qed.

Lemma group_filter ds p : group (ordered ds) p = List.filter (fun d => bool_decide (d_path d = p)) (in_order (ordered ds)).
Proof.
  pose proof (groups_filter ds (fun q => bool_decide (q = p))) as Hf. cbn beta in Hf. rewrite <- Hf. clear Hf. pose proof (gr_sorted _ _ (ordered_grouped ds)) as Hs. unfold group, groups.
  induction Hs as [|g gs Hs IH Hg]; [done|]. cbn [List.find map List.filter fst]. case_bool_decide as E; [|exact IH].
  cbn [flat_map snd]. rewrite filter_none; [by rewrite app_nil_r|]. apply Forall_map. eapply Forall_impl; [exact Hg|]. cbn. intros h Hh.
  apply bool_decide_eq_false. intros <-. apply str_lt_true in Hh as [_ Hne]. by rewrite E in Hne.
Qed.

(** * What the walk reaches *)

Section Walk.
Context (r : Resolver).

Definition succ (n : str * str) : list (str * str) :=
  if bool_decide (defined_at r n.2 n.1 = []) then match Scopes.get (r_scopes r) n.1 with Some s => re_exports s n.2 | None => [] end else [].

(** A member that its file does not define is re-exported from another. *)
Inductive hops : nat -> str * str -> str * str -> Prop :=
| hops_none n : hops 0 n n
| hops_more k n m m' : hops k n m -> m' ∈ succ m -> hops (S k) n m'.

Section Bound.
Context (first : list (str * str)).

Definition served (depths : gmap (str * str) nat) (pending : list (str * str * nat)) (m : str * str) (e : nat) : Prop :=
  (exists e', depths !! m = Some e' /\ e' <= e) \/ exists e', (m, e') ∈ pending /\ e' <= e.

Record found_of (visited : gset (str * str)) (found : Found) : Prop := {
  fo_keys : forall k, k ∈ keys found <-> exists d, d ∈ definitions_found found /\ d_key d = k;
  fo_once : NoDup (map d_key (definitions_found found));
  fo_sound : forall d, d ∈ definitions_found found -> exists n, n ∈ visited /\ d ∈ defined_at r n.2 n.1;
  fo_complete : forall n d, n ∈ visited -> d ∈ defined_at r n.2 n.1 -> d_key d ∈ keys found
}.

(** The members visited, with the depths they were visited at, and those pending, in order of depth. *)
Record walking (depths : gmap (str * str) nat) (pending : list (str * str * nat)) : Prop := {
  wa_visited : forall n d, depths !! n = Some d -> 1 <= d <= MAX_IMPORT_HOPS /\ exists f, f ∈ first /\ hops (d - 1) f n;
  wa_pending : forall n d, (n, d) ∈ pending -> 1 <= d <= MAX_IMPORT_HOPS /\ exists f, f ∈ first /\ hops (d - 1) f n;
  wa_first : forall f, f ∈ first -> served depths pending f 1;
  wa_next : forall n d m, depths !! n = Some d -> d < MAX_IMPORT_HOPS -> m ∈ succ n -> served depths pending m (d + 1);
  wa_order : exists d0 l1 l2, (forall n d, depths !! n = Some d -> d <= d0) /\ pending = l1 ++ l2 /\
    (forall n d, (n, d) ∈ l1 -> d = d0) /\ (forall n d, (n, d) ∈ l2 -> d = d0 + 1)
}.

Lemma wa_head depths n d pending : walking depths ((n, d) :: pending) ->
  (forall n' d', depths !! n' = Some d' -> d' <= d) /\ exists l1 l2, pending = l1 ++ l2 /\
    (forall n' d', (n', d') ∈ l1 -> d' = d) /\ (forall n' d', (n', d') ∈ l2 -> d' = d + 1).
Proof.
  intros [_ _ _ _ (d0 & l1 & l2 & Hd & Hl & H1 & H2)]. destruct l1 as [|c l1].
  - cbn in Hl. subst l2. assert (d = d0 + 1) as -> by (apply (H2 n); left). split; [intros n' d' Hn; apply Hd in Hn; lia|].
    exists pending, []. rewrite app_nil_r. split; [done|]. split; [intros n' d' Hn; apply (H2 n'); by right|]. by intros ? ? ?%not_elem_of_nil.
  - injection Hl as <- ->. assert (d = d0) as -> by (apply (H1 n); left). split; [done|]. exists l1, l2. split; [done|]. split; [|done].
    intros n' d' Hn. apply (H1 n'). by right.
Qed.

Lemma walking_skip depths n d pending : walking depths ((n, d) :: pending) -> is_Some (depths !! n) -> walking depths pending.
Proof.
  intros H [e He]. destruct (wa_head _ _ _ _ H) as (Hle & l1 & l2 & -> & H1 & H2). destruct H as [Hv Hp Hf Hn _]. pose proof (Hle _ _ He) as Hed.
  assert (forall m k, served depths ((n, d) :: l1 ++ l2) m k -> served depths (l1 ++ l2) m k) as Hs.
  { intros m k [?|(k' & [[= -> ->]|Hin]%elem_of_cons & Hk)]; [by left|left; exists e; split; [done|lia]|right; by exists k']. }
  constructor; [done| | | |].
  - intros m k Hm. apply Hp. by right.
  - intros f Hin. by apply Hs, Hf.
  - intros m k m' Hm Hk Hm'. by eapply Hs, Hn.
  - by exists d, l1, l2.
Qed.

Lemma walking_visit depths n d pending : walking depths ((n, d) :: pending) -> depths !! n = None ->
  walking (<[n := d]> depths) (pending ++ (if MAX_IMPORT_HOPS <=? d then [] else map (fun hop => (hop, d + 1)) (succ n))).
Proof.
  intros H Hnew. destruct (wa_head _ _ _ _ H) as (Hle & l1 & l2 & -> & H1 & H2). destruct H as [Hv Hp Hf Hn _].
  set (more := if MAX_IMPORT_HOPS <=? d then [] else map (fun hop => (hop, d + 1)) (succ n)).
  assert (forall m k, (m, k) ∈ more -> k = d + 1 /\ d < MAX_IMPORT_HOPS /\ m ∈ succ n) as Hmore.
  { intros m k. unfold more. destruct (Nat.leb_spec MAX_IMPORT_HOPS d); [by intros ?%not_elem_of_nil|]. intros Hin.
    apply list_elem_of_In, in_map_iff in Hin as (x & [= -> <-] & Hx). split_and!; [done|done|by apply list_elem_of_In]. }
  destruct (Hp n d) as (Hd & f0 & Hf0 & Hh0); [left|].
  assert (forall m k, served depths ((n, d) :: l1 ++ l2) m k -> served (<[n := d]> depths) ((l1 ++ l2) ++ more) m k) as Hs.
  { intros m k [(k' & Hm & Hk)|(k' & [[= -> ->]|Hin]%elem_of_cons & Hk)].
    - left. exists k'. split; [|done]. rewrite lookup_insert_ne; [done|]. intros ->. congruence.
    - left. exists d. by rewrite lookup_insert_eq.
    - right. exists k'. split; [|done]. apply elem_of_app. by left. }
  constructor.
  - intros m k. destruct (decide (m = n)) as [->|Hne]; [rewrite lookup_insert_eq; intros [= <-]; split; [done|by exists f0]|].
    rewrite lookup_insert_ne by done. apply Hv.
  - intros m k [Hin|Hin]%elem_of_app; [apply Hp; by right|]. apply Hmore in Hin as (-> & Hlt & Hm). split; [lia|].
    exists f0. split; [done|]. replace (d + 1 - 1) with (S (d - 1)) by lia. by eapply hops_more.
  - intros f Hin. by apply Hs, Hf.
  - intros m k m' Hm Hk Hm'. destruct (decide (m = n)) as [->|Hne].
    + rewrite lookup_insert_eq in Hm. injection Hm as <-. right. exists (d + 1). split; [|done]. apply elem_of_app. right. unfold more.
      destruct (Nat.leb_spec MAX_IMPORT_HOPS d); [lia|]. apply list_elem_of_In, in_map_iff. exists m'. split; [done|by apply list_elem_of_In].
    + rewrite lookup_insert_ne in Hm by done. by eapply Hs, Hn.
  - exists d, l1, (l2 ++ more). split_and!; [|by rewrite app_assoc|done|].
    + intros m k. destruct (decide (m = n)) as [->|Hne]; [rewrite lookup_insert_eq; by intros [= <-]|rewrite lookup_insert_ne by done; apply Hle].
    + intros m k [Hin|Hin]%elem_of_app; [by apply (H2 m)|by apply Hmore in Hin as [-> _]].
Qed.

(** What a finished walk has visited: the members within the bound of hops. *)
Lemma walking_done depths n : walking depths [] -> is_Some (depths !! n) <-> exists f k, f ∈ first /\ k < MAX_IMPORT_HOPS /\ hops k f n.
Proof.
  intros [Hv _ Hf Hn _]. split.
  - intros [d Hd]. apply Hv in Hd as (Hd & f & Hin & Hh). exists f, (d - 1). split_and!; [done|lia|done].
  - intros (f & k & Hin & Hk & Hh). assert (forall m e, served depths [] m e -> exists e', depths !! m = Some e' /\ e' <= e) as Hs.
    { intros m e [?|(? & ?%not_elem_of_nil & _)]; done. }
    assert (exists d, depths !! n = Some d /\ d <= S k) as (d & Hd & _); [|by exists d].
    induction Hh as [f|k f m m' Hh IH Hm]; [apply Hs; by apply Hf|]. destruct IH as (d & Hd & Hle); [done|lia|].
    destruct (Hs m' (d + 1)) as (e & He & Hle'); [eapply Hn; [exact Hd|lia|done]|]. exists e. split; [done|lia].
Qed.

Lemma extend_spec ds : forall found, (forall k, k ∈ keys found <-> exists d, d ∈ definitions_found found /\ d_key d = k) ->
  NoDup (map d_key (definitions_found found)) -> let found' := extend found ds in
  (forall k, k ∈ keys found' <-> exists d, d ∈ definitions_found found' /\ d_key d = k) /\ NoDup (map d_key (definitions_found found')) /\
  (forall d, d ∈ definitions_found found' -> d ∈ definitions_found found \/ d ∈ ds) /\
  (forall d, d ∈ ds -> d_key d ∈ keys found') /\ keys found ⊆ keys found'.
Proof.
  induction ds as [|d ds IH]; intros found Hk Hn; [by split_and!; try done; [by left|intros ? ?%not_elem_of_nil]|]. cbn zeta. cbn [extend foldl].
  fold (extend (extend_one found d) ds). assert (let f := extend_one found d in (forall k, k ∈ keys f <-> exists d, d ∈ definitions_found f /\ d_key d = k) /\
    NoDup (map d_key (definitions_found f)) /\ (forall d', d' ∈ definitions_found f -> d' ∈ definitions_found found \/ d' = d) /\ d_key d ∈ keys f /\ keys found ⊆ keys f)
    as (H1 & H2 & H3 & H4 & H5).
  { unfold extend_one. case_bool_decide as Hd; [by split_and!; try done; left|]. cbn. split_and!.
    - intros k. rewrite elem_of_union, elem_of_singleton, Hk. setoid_rewrite elem_of_app. setoid_rewrite list_elem_of_singleton. split.
      + intros [->|(d' & ? & <-)]; [exists d; by split; [right|]|exists d'; by split; [left|]].
      + intros (d' & [?| ->] & <-); [right; by exists d'|by left].
    - change (map d_key) with (fmap (M := list) d_key) in *. rewrite fmap_app. cbn. apply NoDup_app. split; [done|]. split; [|apply NoDup_singleton].
      intros k Hin ->%list_elem_of_singleton. apply Hd, Hk. apply list_elem_of_fmap in Hin as (d' & -> & Hin). by exists d'.
    - intros d' [?|?%list_elem_of_singleton]%elem_of_app; [by left|by right].
    - set_solver.
    - set_solver. }
  destruct (IH _ H1 H2) as (H6 & H7 & H8 & H9 & H10). split_and!; [done|done| | |].
  - intros d' Hd'. apply H8 in Hd' as [Hd'|Hd']; [apply H3 in Hd' as [?| ->]; [by left|right; left]|right; by right].
  - intros d' [->|Hd']%elem_of_cons; [by apply H10|by apply H9].
  - by etransitivity.
Qed.

Lemma extend_found visited found n : found_of visited found -> found_of ({[n]} ∪ visited) (extend found (defined_at r n.2 n.1)).
Proof.
  intros [Hk Hn Hs Hc]. destruct (extend_spec (defined_at r n.2 n.1) found Hk Hn) as (H1 & H2 & H3 & H4 & H5). constructor; [done|done| |].
  - intros d Hd. apply H3 in Hd as [Hd|Hd]; [apply Hs in Hd as (m & Hm & Hd); exists m; split; [set_solver|done]|exists n; split; [set_solver|done]].
  - intros m d [->%elem_of_singleton|Hm]%elem_of_union Hd; [by apply H4|]. apply H5. by eapply Hc.
Qed.

(** ** Enough fuel *)

Context (Hget : forall p, is_Some (Scopes.get (r_scopes r) p) -> p ∈ map path (scanned_files (r_scopes r))).

Definition unvisited (visited : gset (str * str)) : nat :=
  sum_list_with (fun n => if bool_decide (n ∈ visited) then 0 else out_degree r n) (nodes r first).

Lemma unvisited_visit visited n : n ∉ visited -> (n ∈ nodes r first \/ out_degree r n = 0) -> unvisited ({[n]} ∪ visited) + out_degree r n <= unvisited visited.
Proof.
  intros Hn Hin. unfold unvisited. assert (forall l, sum_list_with (fun m => if bool_decide (m ∈ ({[n]} ∪ visited : gset (str * str))) then 0 else out_degree r m) l
    + (if bool_decide (n ∈ l) then out_degree r n else 0) <= sum_list_with (fun m => if bool_decide (m ∈ visited) then 0 else out_degree r m) l) as H.
  { induction l as [|m l IH]; [done|]. cbn [sum_list_with]. destruct (decide (m = n)) as [->|Hm].
    - rewrite (bool_decide_true (n ∈ {[n]} ∪ visited)) by set_solver. rewrite (bool_decide_false (n ∈ visited)) by done.
      rewrite (bool_decide_true (n ∈ n :: l)) by left. destruct (bool_decide (n ∈ l)); lia.
    - rewrite (bool_decide_ext (n ∈ m :: l) (n ∈ l)) by (rewrite elem_of_cons; naive_solver).
      rewrite (bool_decide_ext (m ∈ {[n]} ∪ visited) (m ∈ visited)) by set_solver. lia. }
  specialize (H (nodes r first)). case_bool_decide as Hn'; [done|]. destruct Hin as [?|E]; [done|lia].
Qed.

Lemma re_exports_names s m n : n ∈ re_exports s m -> n.2 = m \/ n.2 ∈ member_names s.
Proof.
  unfold re_exports. case_bool_decide as He; cbn [negb].
  - destruct (starts_with _ _); [by intros ?%not_elem_of_nil|]. intros Hn. apply list_elem_of_In, in_map_iff in Hn as (? & <- & _). by left.
  - unfold pairs_iter. rewrite sort_by_perm, elem_of_elements. intros Hn. right. unfold member_names. rewrite list_elem_of_In, in_flat_map.
    destruct (members s !! m) as [pairs|] eqn:E; [|cbn in Hn; set_solver]. exists (m, pairs). split; [by apply list_elem_of_In, elem_of_map_to_list|].
    apply in_map, list_elem_of_In, elem_of_elements, Hn.
Qed.

Lemma get_in_files p s : Scopes.get (r_scopes r) p = Some s -> s ∈ per_file (r_scopes r).
Proof. unfold Scopes.get. destruct (Scopes.position _ p) as [k|]; [|done]. cbn. by apply list_elem_of_lookup_2. Qed.

Lemma node_in n : n.2 ∈ reachable_names r first -> n ∈ nodes r first \/ out_degree r n = 0.
Proof.
  intros Hn. unfold out_degree. destruct (Scopes.get (r_scopes r) n.1) as [s|] eqn:E; [|by right]. left. unfold nodes. rewrite list_elem_of_In, in_flat_map.
  exists n.1. split; [apply list_elem_of_In, elem_of_remove_dups, Hget; by rewrite E|]. apply in_map_iff. exists n.2. split; [by destruct n|by apply list_elem_of_In].
Qed.

Lemma succ_names n m : n.2 ∈ reachable_names r first -> m ∈ succ n -> m.2 ∈ reachable_names r first.
Proof.
  intros Hn. unfold succ. case_bool_decide; [|by intros ?%not_elem_of_nil]. destruct (Scopes.get (r_scopes r) n.1) as [s|] eqn:E; [|by intros ?%not_elem_of_nil].
  intros Hm. apply re_exports_names in Hm as [->|Hm]; [done|]. unfold reachable_names. apply elem_of_remove_dups, elem_of_app. right.
  apply get_in_files in E. rewrite list_elem_of_In, in_flat_map. exists s. split; by apply list_elem_of_In.
Qed.

Lemma succ_length n : length (succ n) <= out_degree r n.
Proof. unfold succ, out_degree. case_bool_decide; cbn; [|lia]. by destruct (Scopes.get _ _). Qed.

Lemma follow_loop_ends fuel : forall depths pending found, walking depths pending -> found_of (dom depths) found ->
  (forall n d, (n, d) ∈ pending -> n.2 ∈ reachable_names r first) -> length pending + unvisited (dom depths) < fuel ->
  exists depths' found', follow_loop r fuel pending (dom depths) found = Some found' /\ walking depths' [] /\ found_of (dom depths') found'.
Proof.
  induction fuel as [|fuel IH]; intros depths pending found Hw Hf Hnames Hfuel; [lia|]. cbn [follow_loop]. destruct pending as [|[[t m] d] pending]; [by exists depths, found|].
  cbn [length] in Hfuel. assert (forall n d', (n, d') ∈ pending -> n.2 ∈ reachable_names r first) as Hnames' by (intros n d' Hn; apply (Hnames n d'); by right).
  case_bool_decide as Hv.
  - apply elem_of_dom in Hv. apply IH; [by eapply walking_skip|done|done|lia].
  - assert (depths !! (t, m) = None) as Hnew by by apply not_elem_of_dom. pose proof (walking_visit _ _ _ _ Hw Hnew) as Hw'.
    apply extend_found with (n := (t, m)) in Hf. cbn [fst snd] in Hf. assert (m ∈ reachable_names r first) as Hm by (apply (Hnames (t, m) d); left).
    pose proof (unvisited_visit (dom depths) (t, m) Hv (node_in (t, m) Hm)) as Hu. pose proof (succ_length (t, m)) as Hl.
    rewrite <- (dom_insert_L depths (t, m) d) in Hf, Hu. rewrite <- (dom_insert_L depths (t, m) d).
    assert (forall more, walking (<[(t, m) := d]> depths) (pending ++ more) -> (more = [] \/ more = map (fun hop => (hop, d + 1)) (succ (t, m))) ->
      exists depths' found', follow_loop r fuel (pending ++ more) (dom (<[(t, m) := d]> depths)) (extend found (defined_at r m t)) = Some found' /\ walking depths' [] /\ found_of (dom depths') found') as Hgo.
    { intros more Hw2 Hmore. apply IH; [done|done| |].
      - intros n d' [Hn|Hn]%elem_of_app; [by eapply Hnames'|]. destruct Hmore as [-> | ->]; [by apply not_elem_of_nil in Hn|].
        apply list_elem_of_In, in_map_iff in Hn as (x & [= -> <-] & Hx). apply (succ_names (t, m)); [done|by apply list_elem_of_In].
      - rewrite length_app. destruct Hmore as [-> | ->]; rewrite ?length_map; cbn [length]; lia. }
    case_bool_decide as Hd; cbn [negb orb].
    + destruct (MAX_IMPORT_HOPS <=? d); [specialize (Hgo [] Hw' (or_introl eq_refl)); by rewrite app_nil_r in Hgo|].
      specialize (Hgo _ Hw' (or_intror eq_refl)). unfold succ in Hgo. cbn [fst snd] in Hgo. rewrite bool_decide_true in Hgo by done.
      destruct (Scopes.get (r_scopes r) t) as [s|]; [exact Hgo|]. by rewrite app_nil_r in Hgo.
    + unfold succ in Hw'. cbn [fst snd] in Hw'. rewrite bool_decide_false in Hw' by done. specialize (Hgo []). rewrite app_nil_r in Hgo. apply Hgo; [|by left].
      by destruct (MAX_IMPORT_HOPS <=? d); rewrite app_nil_r in Hw'.
Qed.
End Bound.
End Walk.

(** * The theorems *)

Lemma known_new index scopes name : known (new index scopes) name = None /\ definitions_of index name = [] \/
  known (new index scopes) name = Some (ordered (definitions_of index name)).
Proof.
  unfold known, definitions_of, listed. cbn [new r_index r_candidates]. destruct (Names.position index name) as [k|]; [|by left]. cbn [mbind option_bind].
  change (map ?f ?l) with (f <$> l). rewrite list_lookup_fmap. destruct (Names.entries index !! k) as [e|]; [by right|by left].
Qed.

Lemma defined_at_new index scopes member target :
  defined_at (new index scopes) member target = List.filter (fun d => in_module_scope d target) (in_order (ordered (definitions_of index member))).
Proof.
  unfold defined_at. destruct (known_new index scopes member) as [[-> ->]| ->]; [done|]. rewrite group_filter.
  induction (in_order _) as [|d l IH]; [done|]. cbn [List.filter]. case_bool_decide as E; cbn [List.filter]; [by rewrite IH|].
  unfold in_module_scope at 2. by rewrite bool_decide_false.
Qed.

Lemma defined_at_elem index scopes member target d :
  d ∈ defined_at (new index scopes) member target <-> d ∈ definitions_of index member /\ d_path d = target /\ parent (d_symbol d) = [].
Proof.
  rewrite defined_at_new, list_elem_of_In, filter_In, <- list_elem_of_In, ordered_perm. unfold in_module_scope, d_top.
  by rewrite andb_true_iff, !bool_decide_eq_true.
Qed.

(** The members that a walk reaches: those within 31 hops of its first members. *)
Definition within (r : Resolver) (first : list (str * str)) (n : str * str) : Prop := exists f k, f ∈ first /\ k < MAX_IMPORT_HOPS /\ hops r k f n.

Lemma follow_spec files index first : let r := new index (Scopes.build files) in
  exists found, follow_loop r (follow_fuel r first) (map (fun hop => (hop, 1)) first) ∅ {| keys := ∅; definitions_found := [] |} = Some found /\
    follow r first = in_order (ordered (definitions_found found)) /\ NoDup (map d_key (definitions_found found)) /\
    (forall d, d ∈ definitions_found found -> exists n, within r first n /\ d ∈ defined_at r n.2 n.1) /\
    (forall n d, within r first n -> d ∈ defined_at r n.2 n.1 -> exists d', d' ∈ definitions_found found /\ d_key d' = d_key d).
Proof.
  cbn zeta. set (r := new index (Scopes.build files)). unfold follow. destruct (follow_loop_ends r first) with (fuel := follow_fuel r first)
    (depths := ∅ : gmap (str * str) nat) (pending := map (fun hop => (hop, 1)) first) (found := {| keys := ∅; definitions_found := [] |}) as (depths & found & E & Hw & Hf).
  - intros p. apply scope_of_path.
  - assert (forall n d, (n, d) ∈ map (fun hop : str * str => (hop, 1)) first -> d = 1 /\ n ∈ first) as Hin.
    { intros n d Hn. apply list_elem_of_In, in_map_iff in Hn as (x & [= -> <-] & Hx). split; [done|by apply list_elem_of_In]. }
    constructor; [by intros ? ? ?| | |by intros ? ? ? ?|].
    + intros n d [-> Hn]%Hin. split; [unfold MAX_IMPORT_HOPS; lia|]. exists n. split; [done|constructor].
    + intros f Hf. right. exists 1. split; [|done]. apply list_elem_of_In, in_map_iff. exists f. split; [done|by apply list_elem_of_In].
    + exists 1, (map (fun hop => (hop, 1)) first), []. rewrite app_nil_r. split_and!; [by intros ? ? ?|done| |by intros ? ? ?%not_elem_of_nil].
      intros n d Hn. by apply Hin in Hn as [-> _].
  - rewrite dom_empty_L. constructor; cbn; [set_solver|constructor|by intros ? ?%not_elem_of_nil|set_solver].
  - intros n d Hn. apply list_elem_of_In, in_map_iff in Hn as (x & [= -> <-] & Hx). unfold reachable_names. apply elem_of_remove_dups, elem_of_app. left.
    by apply list_elem_of_In, in_map.
  - unfold follow_fuel, unvisited. rewrite length_map. enough (forall l, sum_list_with (fun n => if bool_decide (n ∈ dom (∅ : gmap (str * str) nat)) then 0 else out_degree r n) l
      <= sum_list_with (out_degree r) l) as H by (specialize (H (nodes r first)); lia).
    intros l. apply sum_with_le. intros x _. case_bool_decide; lia.
  - rewrite dom_empty_L in E. exists found. rewrite E. split; [done|]. split; [done|]. destruct Hf as [Hk Hn Hs Hc]. split; [done|].
    assert (forall n, n ∈ dom depths <-> within r first n) as Hd by (intros n; rewrite elem_of_dom; by apply walking_done). split.
    + intros d Hd'. apply Hs in Hd' as (n & Hn' & Hd'). exists n. split; [by apply Hd|done].
    + intros n d Hn' Hd'. apply Hk. eapply Hc; [by apply Hd|done].
Qed.

Lemma follow_elem files index first d : d ∈ follow (new index (Scopes.build files)) first -> exists n, d ∈ definitions_of index n.
Proof.
  destruct (follow_spec files index first) as (found & _ & -> & _ & Hs & _). rewrite ordered_perm. intros Hd.
  apply Hs in Hd as (n & _ & Hd). apply defined_at_elem in Hd as [Hd _]. by exists n.2.
Qed.

(** C15: The walk along aliases and re-exports ends with its computed fuel, cycles included.  It answers
    top-level definitions of the members within 31 hops of its first ones, where a member hops only
    while its file does not define it; of the definitions at one line of a file it keeps one, and
    loses none besides; they come in order of path, line and qualified name. *)
Theorem follow_exact files index first : let r := new index (Scopes.build files) in
  let defs := follow r first in
  (exists found, follow_loop r (follow_fuel r first) (map (fun hop => (hop, 1)) first) ∅ {| keys := ∅; definitions_found := [] |} = Some found) /\
  StronglySorted (fun a b => definition_le a b = true) defs /\ NoDup (map d_key defs) /\
  (forall d, d ∈ defs -> exists n, within r first n /\ d ∈ definitions_of index n.2 /\ d_path d = n.1 /\ parent (d_symbol d) = []) /\
  (forall n d, within r first n -> d ∈ definitions_of index n.2 -> d_path d = n.1 -> parent (d_symbol d) = [] ->
     exists d', d' ∈ defs /\ d_path d' = d_path d /\ d_line d' = d_line d).
Proof.
  cbn zeta. destruct (follow_spec files index first) as (found & E & -> & Hn & Hs & Hc). split_and!.
  - by exists found.
  - apply ordered_sorted.
  - change (map d_key) with (fmap (M := list) d_key) in *. by rewrite ordered_perm.
  - intros d. rewrite ordered_perm. intros Hd. apply Hs in Hd as (n & Hw & Hd). apply defined_at_elem in Hd. by exists n.
  - intros n d Hw Hd Hp Ht. destruct (Hc n d Hw) as (d' & Hd' & [= Hk1 Hk2]); [by apply defined_at_elem|]. exists d'. by rewrite ordered_perm.
Qed.

Section Resolve.
Context (index : NameIndex) (scopes : Scopes).
Local Notation r := (new index scopes).

(** The definitions that the file itself makes visible, those that its imports bind by the file that
    defines them, and those that a bare name may mean. *)
Definition is_here (path : str) (d : Definition_) : Prop := d_path d = path /\ parent (d_symbol d) = [].

Definition reaches (path : str) (d : Definition_) : Prop := language_of scopes path = Some Rust -> parent (d_symbol d) = [].

Definition is_bound (name path : str) (d : Definition_) : Prop :=
  (exists s, Scopes.get scopes path = Some s /\ binds s name (d_path d) = true) /\ reaches path d.

Definition is_named (path : str) (d : Definition_) : Prop :=
  forall l, language_of scopes path = Some l -> family (language (d_file d)) = family l /\ reaches path d.

Lemma kept_sorted (f : Definition_ -> bool) ds : StronglySorted (fun a b => definition_le a b = true) (List.filter f (in_order (ordered ds))).
Proof.
  pose proof (ordered_sorted ds) as H. induction H as [|d l Hl IH Hd]; [constructor|]. cbn. destruct (f d); [|done]. constructor; [done|].
  rewrite Forall_forall in *. intros x Hx. apply Hd. apply list_elem_of_In, filter_In in Hx as [Hx _]. by apply list_elem_of_In.
Qed.

Lemma filter_elem (f : Definition_ -> bool) ds d : d ∈ List.filter f (in_order (ordered ds)) <-> d ∈ ds /\ f d = true.
Proof. by rewrite list_elem_of_In, filter_In, <- list_elem_of_In, ordered_perm. Qed.

Lemma in_module_scope_true d path : in_module_scope d path = true <-> is_here path d.
Proof. unfold in_module_scope, d_top, is_here. by rewrite andb_true_iff, !bool_decide_eq_true. Qed.

Lemma bare_true path d : bare_name_reaches (language_of scopes path) d = true <-> reaches path d.
Proof.
  unfold bare_name_reaches, d_top, reaches. rewrite orb_true_iff, negb_true_iff, bool_decide_eq_false, bool_decide_eq_true.
  destruct (decide (language_of scopes path = Some Rust)); tauto.
Qed.

Lemma filter_nil_forall (f : Definition_ -> bool) ds : List.filter f (in_order (ordered ds)) = [] <-> forall d, d ∈ ds -> f d <> true.
Proof.
  split.
  - intros H d Hd Hf. assert (d ∈ List.filter f (in_order (ordered ds))) as Hin by by apply filter_elem. rewrite H in Hin. by apply not_elem_of_nil in Hin.
  - intros H. destruct (List.filter f _) as [|d l] eqn:E; [done|]. assert (d ∈ List.filter f (in_order (ordered ds))) as Hin by (rewrite E; left).
    apply filter_elem in Hin as [Hd Hf]. by apply H in Hf.
Qed.

Definition same_file_of (name path : str) : list Definition_ :=
  List.filter (fun d => in_module_scope d path) (in_order (ordered (definitions_of index name))).

Definition bound_of (name path : str) : list Definition_ :=
  match Scopes.get scopes path with
  | Some s => List.filter (fun d => binds s name (d_path d) && bare_name_reaches (language_of scopes path) d) (in_order (ordered (definitions_of index name)))
  | None => []
  end.

Definition named_of (name path : str) : list Definition_ :=
  List.filter (fun d => match language_of scopes path with
                        | Some l => bool_decide (family (language (d_file d)) = family l) && bare_name_reaches (Some l) d
                        | None => true
                        end) (in_order (ordered (definitions_of index name))).

Lemma filter_and {A} (f g : A -> bool) l : List.filter f (List.filter g l) = List.filter (fun x => g x && f x) l.
Proof. induction l as [|x l IH]; [done|]. cbn. destruct (g x); cbn; [|done]. by rewrite IH. Qed.

(** The resolution without the table of groups. *)
Lemma resolve_steps name path : resolve r name path =
  if negb (bool_decide (same_file_of name path = [])) then Some {| tier := SameFile; candidates := same_file_of name path |}
  else if negb (bool_decide (bound_of name path = [])) then Some (imported (bound_of name path))
  else if negb (bool_decide (through_imports r name path = [])) then Some (imported (through_imports r name path))
  else match named_of name path with
       | [] => None
       | [d] => Some {| tier := Unique; candidates := [d] |}
       | ds => Some {| tier := Ambiguous; candidates := ds |}
       end.
Proof.
  unfold resolve. destruct (known_new index scopes name) as [[-> E]| ->]; cbn [mbind option_bind from_option r_scopes new].
  - assert (same_file_of name path = [] /\ bound_of name path = [] /\ named_of name path = []) as (-> & -> & ->).
    { unfold same_file_of, bound_of, named_of. rewrite E. change (in_order (ordered [])) with (@nil Definition_). cbn. by destruct (Scopes.get _ _). }
    rewrite !(bool_decide_true (@nil Definition_ = [])) by done. cbn [negb]. by destruct (language_of _ _).
  - assert (List.filter (fun d => in_module_scope d path) (group (ordered (definitions_of index name)) path) = same_file_of name path) as Hs.
    { rewrite group_filter. unfold same_file_of. induction (in_order _) as [|d l IH]; [done|]. cbn [List.filter]. case_bool_decide as Ep; cbn [List.filter]; [by rewrite IH|].
      unfold in_module_scope at 2. by rewrite bool_decide_false. }
    unfold bound_here. rewrite Hs. cbn [r_scopes new]. destruct (bool_decide (same_file_of name path = [])); [|done]. cbn [negb].
    assert (forall s, List.filter (bare_name_reaches (language_of scopes path)) (flat_map snd (List.filter (fun g => binds s name g.1) (groups (ordered (definitions_of index name)))))
      = List.filter (fun d => binds s name (d_path d) && bare_name_reaches (language_of scopes path) d) (in_order (ordered (definitions_of index name)))) as Hb.
    { intros s. rewrite (groups_filter _ (fun p => binds s name p)). apply filter_and. }
    assert ((match language_of scopes path with
             | Some spelled => List.filter (bare_name_reaches (Some spelled)) (List.filter (fun d => bool_decide (family (language (d_file d)) = family spelled))
                 (in_order (ordered (definitions_of index name))))
             | None => in_order (ordered (definitions_of index name)) end) = named_of name path) as ->.
    { unfold named_of. destruct (language_of scopes path); [apply filter_and|]. symmetry. apply filter_all. by apply Forall_forall. }
    unfold bound_of. destruct (Scopes.get scopes path) as [s|]; cbn [mbind option_bind].
    + rewrite Hb. case_bool_decide; [|done]. cbn [negb]. by destruct (named_of name path) as [|? []].
    + rewrite (bool_decide_true (@nil Definition_ = [])) by done. cbn [negb]. by destruct (named_of name path) as [|? []].
Qed.

Lemma same_file_elem name path d : d ∈ same_file_of name path <-> d ∈ definitions_of index name /\ is_here path d.
Proof. unfold same_file_of. by rewrite filter_elem, in_module_scope_true. Qed.

Lemma bound_elem name path d : d ∈ bound_of name path <-> d ∈ definitions_of index name /\ is_bound name path d.
Proof.
  unfold bound_of, is_bound. destruct (Scopes.get scopes path) as [s|]; [rewrite filter_elem, andb_true_iff, bare_true|]; [naive_solver|].
  split; [by intros ?%not_elem_of_nil|naive_solver].
Qed.

Lemma named_elem name path d : d ∈ named_of name path <-> d ∈ definitions_of index name /\ is_named path d.
Proof.
  unfold named_of, is_named. rewrite filter_elem. pose proof (bare_true path d) as Hb. destruct (language_of scopes path) as [l|]; [|naive_solver].
  rewrite andb_true_iff, bool_decide_eq_true, Hb. naive_solver.
Qed.

Lemma nil_forall {A} (l : list A) (P : A -> Prop) : (forall d, d ∈ l <-> P d) -> l = [] <-> forall d, ~ P d.
Proof. intros H. setoid_rewrite <- H. split; [intros -> d; apply not_elem_of_nil|]. destruct l as [|d l]; [done|]. intros Hn. destruct (Hn d). left. Qed.
End Resolve.

(** C14: A name resolves at the first tier that has candidates: the top-level definitions of the file, then
    those in the files that its imports bind the name to, then what a walk along its imports reaches,
    then the definitions of the name in the language family of the file, unique or not.  The candidates
    are exactly the definitions of their tier, in order; a Rust name reaches no method outside its file. *)
Theorem resolve_exact index scopes name path : let r := new index scopes in
  let defs := definitions_of index name in
  let followed := through_imports r name path in
  match resolve r name path with
  | Some found =>
      let cs := candidates found in
      cs <> [] /\
      match tier found with
      | SameFile => StronglySorted (fun a b => definition_le a b = true) cs /\ forall d, d ∈ cs <-> d ∈ defs /\ is_here path d
      | Imported => (forall d, d ∈ defs -> ~ is_here path d) /\
          ((StronglySorted (fun a b => definition_le a b = true) cs /\ forall d, d ∈ cs <-> d ∈ defs /\ is_bound scopes name path d) \/
           ((forall d, d ∈ defs -> ~ is_bound scopes name path d) /\ cs = followed))
      | t => (forall d, d ∈ defs -> ~ is_here path d /\ ~ is_bound scopes name path d) /\ followed = [] /\
          StronglySorted (fun a b => definition_le a b = true) cs /\ (forall d, d ∈ cs <-> d ∈ defs /\ is_named scopes path d) /\
          (t = Unique <-> length cs = 1)
      end
  | None => followed = [] /\ forall d, d ∈ defs -> ~ is_here path d /\ ~ is_bound scopes name path d /\ ~ is_named scopes path d
  end.
Proof.
  cbn zeta. rewrite resolve_steps. set (followed := through_imports _ _ _).
  pose proof (same_file_elem index name path) as Hs. pose proof (bound_elem index scopes name path) as Hb. pose proof (named_elem index scopes name path) as Hn.
  pose proof (kept_sorted (fun d => in_module_scope d path) (definitions_of index name) : StronglySorted _ (same_file_of index name path)) as Ss.
  assert (StronglySorted (fun a b => definition_le a b = true) (bound_of index scopes name path)) as Sb.
  { unfold bound_of. destruct (Scopes.get _ _); [apply kept_sorted|constructor]. }
  assert (StronglySorted (fun a b => definition_le a b = true) (named_of index scopes name path)) as Sn by apply kept_sorted.
  case_bool_decide as Es; cbn [negb]; [|by split_and!].
  assert (forall d, d ∈ definitions_of index name -> ~ is_here path d) as Hs' by (intros d Hd Hh; rewrite Es in Hs; by apply (not_elem_of_nil d), Hs).
  case_bool_decide as Eb; cbn [negb]; [|cbn [imported tier candidates]; split_and!; [done..|by left]].
  assert (forall d, d ∈ definitions_of index name -> ~ is_bound scopes name path d) as Hb' by (intros d Hd Hh; rewrite Eb in Hb; by apply (not_elem_of_nil d), Hb).
  case_bool_decide as Ef; cbn [negb]; [|cbn [imported tier candidates]; split_and!; [done..|by right]].
  assert (forall d, d ∈ definitions_of index name -> ~ is_here path d /\ ~ is_bound scopes name path d) as Hsb by (intros d Hd; split; [by apply Hs'|by apply Hb']).
  destruct (named_of index scopes name path) as [|d1 [|d2 ds]]; cbn [tier candidates].
  - split; [done|]. intros d Hd. destruct (Hsb d Hd) as [H1 H2]. split_and!; [done..|]. intros H3. by apply (not_elem_of_nil d), Hn.
  - split_and!; done.
  - split_and!; done.
Qed.

Lemma resolve_from index files name path found : let r := new index (Scopes.build files) in
  resolve r name path = Some found -> candidates found <> [] /\ forall d, d ∈ candidates found -> exists n, d ∈ definitions_of index n.
Proof.
  cbn zeta. rewrite resolve_steps. set (scopes := Scopes.build files).
  assert (forall d, d ∈ through_imports (new index scopes) name path -> exists n, d ∈ definitions_of index n) as Ht.
  { intros d. unfold through_imports. destruct (Scopes.get _ _); [apply follow_elem|by intros ?%not_elem_of_nil]. }
  case_bool_decide as Es; cbn [negb]; [|intros [= <-]; split; [done|]; intros d Hd; by apply same_file_elem in Hd as [? _]; exists name].
  case_bool_decide as Eb; cbn [negb]; [|intros [= <-]; split; [done|]; intros d Hd; by apply bound_elem in Hd as [? _]; exists name].
  case_bool_decide as Ef; cbn [negb]; [|intros [= <-]; split; [done|exact Ht]].
  destruct (named_of index scopes name path) as [|d1 [|d2 ds]] eqn:En; [done| |]; intros [= <-]; (split; [done|]); intros d Hd; exists name; cbn [candidates] in Hd;
    rewrite <- En in Hd; by apply named_elem in Hd as [? _].
Qed.

Lemma attribute_from index files name path qualifier found : let r := new index (Scopes.build files) in
  resolve_module_attribute r name path qualifier = Some found ->
  tier found = Imported /\ candidates found <> [] /\ forall d, d ∈ candidates found -> exists n, d ∈ definitions_of index n.
Proof.
  cbn zeta. set (r := new index (Scopes.build files)). unfold resolve_module_attribute. destruct (Scopes.get _ _) as [scope|]; [|done]. cbn [mbind option_bind].
  set (targets := default ∅ (module_bindings scope !! qualifier)). set (direct := match known r name with Some _ => _ | None => _ end).
  assert (forall d, d ∈ direct -> d ∈ definitions_of index name) as Hd.
  { intros d. unfold direct, r. destruct (known_new index (Scopes.build files) name) as [[-> _]| ->]; [by intros ?%not_elem_of_nil|].
    pose proof (groups_filter (definitions_of index name) (fun p => bool_decide (p ∈ targets))) as Hg. cbn beta in Hg.
    intros Hd. by apply (eq_ind _ (fun l => d ∈ l) Hd), filter_elem in Hg as [? _]. }
  case_bool_decide as E1; case_bool_decide as E2; try done; intros [= <-]; (split; [done|]); (split; [done|]).
  - intros d. apply follow_elem.
  - intros d Hin. exists name. by apply Hd.
Qed.

Lemma qualified_from index files name path qualifier found : let r := new index (Scopes.build files) in
  resolve_qualified r name path qualifier = Some found ->
  qualified_at r qualifier path <> Some Foreign /\ candidates found <> [] /\ forall d, d ∈ candidates found -> exists n, d ∈ definitions_of index n.
Proof.
  cbn zeta. set (r := new index (Scopes.build files)). unfold resolve_qualified. destruct (qualified_at r qualifier path) as [[module|]|] eqn:Eq; [|done|].
  2:{ intros H. split; [done|]. by apply resolve_from in H. }
  set (reached := if bool_decide (defined_at r name module = []) then _ else _).
  assert (forall d, d ∈ reached -> exists n, d ∈ definitions_of index n) as Hr.
  { intros d. unfold reached. case_bool_decide; [apply follow_elem|]. intros Hd. apply defined_at_elem in Hd as [? _]. by exists name. }
  case_bool_decide; [intros H'; split; [done|]; by apply resolve_from in H'|]. intros [= <-]. by split_and!.
Qed.

(** C16: The occurrences of a file that bind a definition: of its references that resolve through a name or
    a module and declare nothing, wanted ones only; no occurrence under a module outside the repository;
    a module's attribute by imports alone.  Each has candidates, and each candidate is a symbol of a
    scanned file of the name graph, at its place. *)
Theorem resolved_sites_safe files index file wanted reference found : Names.build files = Some index ->
  let r := new index (Scopes.build files) in
  (reference, found) ∈ resolved_sites r file wanted ->
  reference ∈ refs (facts file) /\ (forall ns, wanted = Some ns -> name reference ∈ ns) /\
  (role reference = Reference \/ role reference = ModuleAttribute) /\
  (forall s, s ∈ FactValues.symbols (facts file) -> (sym_name s, name_line s) <> (name reference, line reference)) /\
  names_outside r reference (path file) = false /\
  (role reference = ModuleAttribute -> tier found = Imported) /\
  candidates found <> [] /\
  forall d, d ∈ candidates found -> files !! (d_position d).1 = Some (d_file d) /\
    FactValues.symbols (facts (d_file d)) !! (d_position d).2 = Some (d_symbol d) /\ in_name_graph (d_file d) = true.
Proof.
  intros Hb r Hin. apply list_elem_of_omap in Hin as (reference' & Href & Hs). cbn zeta in Hs.
  set (w := from_option _ true wanted) in Hs. set (declared := declared_of _ _) in Hs.
  destruct (negb w || negb (is_resolvable reference') || declares declared reference') eqn:Ec; [done|]. apply orb_false_iff in Ec as [[Ew Er]%orb_false_iff Ed].
  destruct (resolve_site r reference' (path file)) as [found'|] eqn:Es; [|done]. injection Hs as -> ->. apply negb_false_iff in Ew, Er.
  assert (role reference = Reference \/ role reference = ModuleAttribute) as Hrole by (unfold is_resolvable in Er; by apply bool_decide_eq_true in Er).
  assert ((candidates found <> [] /\ forall d, d ∈ candidates found -> exists n, d ∈ definitions_of index n) /\
    (role reference = ModuleAttribute -> tier found = Imported) /\ names_outside r reference (path file) = false) as ((H1 & H2) & H3 & H4).
  { unfold resolve_site in Es. unfold names_outside. case_bool_decide as Em; cbn [negb andb].
    - apply attribute_from in Es as (? & ? & ?). by split_and!.
    - case_bool_decide as Eq; cbn [negb andb] in *; [apply resolve_from in Es as (? & ?); by split_and!|].
      apply qualified_from in Es as (? & ? & ?). split_and!; [done..|]. by apply bool_decide_eq_false. }
  split_and!; try done.
  - intros ns ->. unfold w in Ew. cbn in Ew. by apply bool_decide_eq_true in Ew.
  - intros s Hs Hk. unfold declares in Ed. apply orb_false_iff in Ed as [_ Ed]. apply Bool.not_true_iff_false in Ed. apply Ed.
    apply (proj1 (declared_exact _ _ _ _)). injection Hk as H5 H6. by exists s.
  - intros d Hd. apply H2 in Hd as [n Hd]. by apply (definition_scanned files index n d Hb) in Hd as (? & ? & _ & ?).
Qed.

(** A name reached through the re-export of a package. *)
Definition sample_symbol (name : str) (line : Z) : Symbol :=
  {| sym_name := name; kind := Function; sym_line := line; sym_end_line := line + 1; name_line := line; signature := []; parent := []; decorated := false;
     bases := []; is_public := true; rationales := []; duplicate_index := 0; marks := {| protocol := false; test := false |} |}.

Definition sample_source (path : str) (symbols : list Symbol) (imports : list Import) (refs : list Ref) : FileFacts :=
  {| path := path; language := Python; line_count := 9;
     facts := {| FactValues.symbols := symbols; imports := imports; refs := refs; manifest := None; modules := [] |} |}.

Definition sample_ref (name : str) (line : Z) : Ref := {| name := name; line := line; role := Reference; qualifier := [] |}.

Definition sample_scan : list FileFacts :=
  [sample_source (lit "pkg/__init__.py") [] [sample_import (lit "pkg.a") [lit "f"] [lit "f"] []] [];
   sample_source (lit "pkg/a.py") [sample_symbol (lit "f") 3] [] [];
   sample_source (lit "main.py") [sample_symbol (lit "g") 1] [sample_import (lit "pkg") [lit "f"] [lit "f"] []]
     [sample_ref (lit "f") 2; sample_ref (lit "g") 1; sample_ref (lit "h") 2]].

Definition sample_sites : list (str * Tier * list (str * Z)) :=
  match Names.build sample_scan with
  | Some index => map (fun site => (name site.1, tier site.2, map d_key (candidates site.2)))
      (resolved_sites (new index (Scopes.build sample_scan)) (nth 2 sample_scan (sample_source [] [] [] [])) None)
  | None => []
  end.

Lemma resolved_sites_safe_witness : exists index reference found,
  Names.build sample_scan = Some index /\
  let file := nth 2 sample_scan (sample_source [] [] [] []) in
  (reference, found) ∈ resolved_sites (new index (Scopes.build sample_scan)) file None /\
  sample_sites = [(lit "f", Imported, [(lit "pkg/a.py", 3%Z)])] /\ candidates found <> [].
Proof.
  assert (sample_sites = [(lit "f", Imported, [(lit "pkg/a.py", 3%Z)])]) as E by (vm_compute; reflexivity).
  pose proof E as E'. unfold sample_sites in E. destruct (Names.build sample_scan) as [index|] eqn:Eb; [|discriminate E].
  destruct (resolved_sites (new index (Scopes.build sample_scan)) (nth 2 sample_scan (sample_source [] [] [] [])) None) as [|[reference found] rest] eqn:Es;
    [discriminate E|].
  assert ((reference, found) ∈ resolved_sites (new index (Scopes.build sample_scan)) (nth 2 sample_scan (sample_source [] [] [] [])) None) as Hin by (rewrite Es; left).
  exists index, reference, found. split; [reflexivity|]. split; [exact Hin|]. split; [exact E'|].
  destruct (resolved_sites_safe sample_scan index (nth 2 sample_scan (sample_source [] [] [] [])) None reference found Eb Hin) as (_ & _ & _ & _ & _ & _ & H & _). exact H.
Defined.

Example tier_texts : map as_str TIERS = TIER_VALUES /\ map label TIERS = TIER_LABELS /\ List.filter tier_binds TIERS = [SameFile; Imported].
Proof. done. Qed.
