(* ===== verification/Lookup.v ===== *)
(** What a caller means by a symbol: crates/graph/src/lookup.rs.

    A target is a stable id, a path with a name, a path with a line, or a name.  [target_forms] shows
    how the texts of each form are read, [own_id_found] that the id of a definition finds it and nothing
    else unless its name has a dot, and [innermost_line] which symbol a line means. *)

From S2P Require Import Prelude RustStr Ordered Text FactValues StableId ModulePaths ImportTargets RustPaths Owners Names.

#[local] Open Scope rs_scope.
#[local] Open Scope nat_scope.

Inductive TargetForm := FormStableId | FormPathName | FormPathLine | FormPath | FormQualifiedName | FormName.

(** [as usize] of the form. *)
Definition form_index (f : TargetForm) : nat :=
  match f with FormStableId => 0 | FormPathName => 1 | FormPathLine => 2 | FormPath => 3 | FormQualifiedName => 4 | FormName => 5 end.

Definition FORM_VALUES : list str := [lit "stable_id"; lit "path_name"; lit "path_line"; lit "path"; lit "qualified_name"; lit "name"].

Definition as_str (f : TargetForm) : str := nth (form_index f) FORM_VALUES [].

Inductive Target := TargetId (id : StableId) (form : TargetForm) | TargetLine (path : str) (line : Z) | TargetNamed (text : str).

Record Lookup := { found : list Definition_; scoped : bool; form : TargetForm }.

(** * Reading a target *)

(** Parts joined with two colons, none of them empty, are joined with dots. *)
Definition qualified (text : str) : str :=
  let parts := split_str (lit "::") text in
  if contains (lit "::") text && all (fun part => negb (bool_decide (part = []))) parts then join_with [c_dot] parts else text.

Definition path_name_id (text : str) : option StableId :=
  '(path, qualname) ← split_once_str (lit "::") text;
  if any (is_char c_colon) path then None
  else
    language ← from_path path;
    let prefix := prefix language in
    let qualname := qualified qualname in
    match StableId.parse (prefix ++ lit ":" ++ path ++ lit "::" ++ qualname) with Ok id => Some id | Err _ => None end.

Definition path_line (text : str) : option (str * Z) :=
  '(path, digits) ← rsplit_once c_colon text;
  if bool_decide (digits = []) || negb (all is_ascii_digit digits) then None
  else
    line ← parse_u32 digits;
    if negb (any (is_char c_colon) path) && bool_decide (is_Some (from_path path)) then Some (path, line) else None.

Definition parse_target (text : str) : Target :=
  let named := match path_line text with Some (path, line) => TargetLine path line | None => TargetNamed (qualified text) end in
  let located := match path_name_id text with Some id => TargetId id FormPathName | None => named end in
  match StableId.parse text with
  | Ok id => if negb (starts_with (lit ":") (id_path id)) then TargetId id FormStableId else located
  | Err _ => located
  end.

(** In bytes. *)
Definition path_end (text : str) : nat :=
  match split_once_str (lit "::") text with
  | Some (path, _) => utf8_len path
  | None => from_option (fun found => utf8_len found.1) (utf8_len text) (path_line text)
  end.

Definition last_name (base : str) : str :=
  match rsplit_once c_dot base with Some (_, last_) => if bool_decide (last_ = []) then base else last_ | None => base end.

Definition target_name (t : Target) : option str :=
  match t with
  | TargetId id _ => Some (last_name (split_ordinal (id_qual id)).1)
  | TargetLine _ _ => None
  | TargetNamed text => Some (last_name (split_ordinal text).1)
  end.

(** * Finding it *)

Definition stable_id (d : Definition_) : StableId := of_symbol (language (d_file d)) (d_path d) (d_symbol d).

Definition span (s : FactValues.Symbol) : Owners.Symbol := {| Owners.line := sym_line s; Owners.end_line := sym_end_line s |}.

(** The place of the symbol that [enclosing_symbol] returns. *)
Definition enclosing_place (symbols : list FactValues.Symbol) (l : Z) : option nat :=
  foldl (fun held cell => if Owners.holds (span cell.2) l && wins (span cell.2) (place ← held; span <$> symbols !! place) then Some cell.1 else held)
    None (imap pair symbols).

Definition innermost (files : list FileFacts) (at_ : nat) (line : Z) : option Definition_ :=
  file ← files !! at_;
  place ← enclosing_place (FactValues.symbols (facts file)) line;
  symbol ← FactValues.symbols (facts file) !! place;
  Some {| d_file := file; d_symbol := symbol; d_position := (at_, place) |}.

(** [Iterator::position]. *)
Definition place_of (f : FileFacts -> bool) (files : list FileFacts) : option nat := Text.position f files.

Definition data_key_at (index : NameIndex) (p : str) (line : Z) : option StableId :=
  at_ ← place_of (fun file => bool_decide (path file = p) && negb (in_name_graph file)) (files index);
  stable_id <$> innermost (files index) at_ line.

Definition holds_file (index : NameIndex) (p : str) : bool := any (fun file => bool_decide (path file = p)) (files index).

Definition path_confirms (d : Definition_) (target : str) : bool :=
  let base := (split_ordinal (id_qualname (d_symbol d))).1 in
  if length target <=? length base then false
  else
    let dotted := replace_char c_slash c_dot (stem (d_path d)) ++ lit "." ++ base in
    bool_decide (dotted = target) || ends_with (lit "." ++ target) dotted.

Definition by_name (index : NameIndex) (target : str) : Lookup :=
  let base := (split_ordinal target).1 in
  let candidates := definitions_of index (last_name base) in
  let confirmed := List.filter (fun d => path_confirms d base) candidates in
  let dotted := any (is_char c_dot) base in
  let form := if dotted then FormQualifiedName else FormName in
  if negb (bool_decide (confirmed = [])) then {| found := confirmed; scoped := true; form := form |}
  else {| found := candidates; scoped := negb dotted; form := form |}.

Definition by_line (index : NameIndex) (p : str) (line : Z) : Lookup :=
  let at_ := place_of (fun file => bool_decide (path file = p) && in_name_graph file) (files index) in
  let held := at_ ← at_; innermost (files index) at_ line in
  {| found := option_list held; scoped := bool_decide (is_Some held); form := FormPathLine |}.

Definition by_stable_id (index : NameIndex) (parsed : StableId) : Lookup :=
  let base := (split_ordinal (id_qual parsed)).1 in
  let all := definitions_of index (last_name base) in
  let scoped := List.filter (fun d => bool_decide (d_path d = id_path parsed) && bool_decide (id_qualname (d_symbol d) = id_qual parsed)) all in
  let held := negb (bool_decide (scoped = [])) in
  {| found := if held then scoped else all; scoped := held; form := FormStableId |}.

Definition lookup_target (index : NameIndex) (t : Target) : Lookup :=
  match t with
  | TargetId id form => let l := by_stable_id index id in {| found := found l; scoped := scoped l; form := form |}
  | TargetLine p line => by_line index p line
  | TargetNamed text => if holds_file index text then {| found := []; scoped := false; form := FormPath |} else by_name index text
  end.

Definition resolve_definitions (index : NameIndex) (target : str) : Lookup := lookup_target index (parse_target target).

Definition definitions_for (index : NameIndex) (target : str) : list Definition_ := found (resolve_definitions index target).

Definition references_to (index : NameIndex) (d : Definition_) : list Site :=
  let s := d_symbol d in
  let inside (site : Site) :=
    bool_decide (path (site_file site) = d_path d) && (sym_line s <=? FactValues.line (site_ref site))%Z && (FactValues.line (site_ref site) <=? sym_end_line s)%Z in
  List.filter (fun site => negb (inside site)) (sites_of index (sym_name s)).

(** * Reading back *)

Lemma colon_free_double a : char_free c_colon a -> contains [c_colon; c_colon] (a ++ [c_colon]) = false.
Proof.
  intros H. apply not_true_iff_false. rewrite double_contained. intros (m & H1 & H2). apply lookup_lt_Some in H2. rewrite length_app in H2. cbn in H2.
  rewrite lookup_app_l in H1 by lia. apply list_elem_of_lookup_2 in H1. unfold char_free in H. rewrite Forall_forall in H. apply H in H1. by rewrite is_char_refl in H1.
Qed.

Lemma colon_once a b i : char_free c_colon a -> char_free c_colon b -> (a ++ c_colon :: b) !! i = Some c_colon -> i = length a.
Proof.
  unfold char_free. rewrite !Forall_forall. intros Ha Hb H. apply lookup_app_Some in H as [H|[Hle H]].
  - apply list_elem_of_lookup_2, Ha in H. by rewrite is_char_refl in H.
  - destruct (i - length a) as [|j] eqn:E; [lia|]. cbn in H. apply list_elem_of_lookup_2, Hb in H. by rewrite is_char_refl in H.
Qed.

Lemma one_colon_no_double a b : char_free c_colon a -> char_free c_colon b -> contains [c_colon; c_colon] (a ++ c_colon :: b) = false.
Proof.
  intros Ha Hb. apply not_true_iff_false. rewrite double_contained. intros (m & H1 & H2). apply (colon_once _ _ _ Ha Hb) in H1, H2. lia.
Qed.

Lemma free_no_double a : char_free c_colon a -> contains [c_colon; c_colon] a = false.
Proof.
  intros Ha. apply not_true_iff_false. rewrite double_contained. intros (m & H1 & _). apply list_elem_of_lookup_2 in H1.
  unfold char_free in Ha. rewrite Forall_forall in Ha. apply Ha in H1. by rewrite is_char_refl in H1.
Qed.

Lemma no_double_no_split s : contains [c_colon; c_colon] s = false -> split_once_str (lit "::") s = None.
Proof. unfold contains, split_once_str. change (lit "::") with [c_colon; c_colon]. by destruct (find_str _ s). Qed.

Lemma colon_free_any a : char_free c_colon a -> any (is_char c_colon) a = false.
Proof. intros H. apply not_true_iff_false. rewrite any_spec. unfold char_free in H. rewrite Forall_forall in H. intros (c & Hc & E). by rewrite H in E. Qed.

Lemma parse_parts text id : StableId.parse text = Ok id -> exists rest, text = id_prefix id ++ c_colon :: rest /\ char_free c_colon (id_prefix id) /\
  rest = id_path id ++ [c_colon; c_colon] ++ id_qual id /\ id_path id <> [].
Proof.
  intros H. apply (proj1 (stable_id_parts text)) in H as ((H1 & _ & H2 & _) & ->). exists (id_path id ++ [c_colon; c_colon] ++ id_qual id). split; [done|]. split; [done|].
  split; [done|]. apply Forall_cons in H2 as [_ H2]. apply Forall_cons in H2 as [H2 _]. by intros E; rewrite E in H2.
Qed.

Lemma digits_colon_free n : (0 <= n)%Z -> char_free c_colon (dec_text n).
Proof.
  intros Hn. destruct (digits_text n Hn) as (_ & Hf & _). eapply Forall_impl; [exact Hf|]. cbn. intros c. unfold is_ascii_digit, is_char, c_colon.
  rewrite andb_true_iff, !Z.leb_le. intros. apply Z.eqb_neq. lia.
Qed.

(** How a target is read: the text of a stable id as the id; a path of a known language and a name as
    the id that they make, even where the text has the shape of an id; such a path and a line as the
    line; and a text without a colon as a name. *)
Theorem target_forms :
  (forall id, id_ok id -> starts_with (lit ":") (id_path id) = false -> parse_target (to_string id) = TargetId id FormStableId) /\
  (forall p name l, char_free c_colon p -> from_path p = Some l -> let id := {| id_prefix := prefix l; id_path := p; id_qual := qualified name |} in
     id_ok id -> parse_target (p ++ lit "::" ++ name) = TargetId id FormPathName) /\
  (forall p n, char_free c_colon p -> is_Some (from_path p) -> (0 <= n < 2 ^ 32)%Z -> parse_target (p ++ lit ":" ++ dec_text n) = TargetLine p n) /\
  (forall text, char_free c_colon text -> parse_target text = TargetNamed text).
Proof.
  split_and!.
  - intros id Hid Hp. unfold parse_target. rewrite (proj2 (proj1 (stable_id_parts _) id) (conj Hid eq_refl)). by rewrite Hp.
  - intros p name l Hp Hl. cbn zeta. set (id := {| id_prefix := prefix l; id_path := p; id_qual := qualified name |}). intros Hid. unfold parse_target.
    assert (path_name_id (p ++ lit "::" ++ name) = Some id) as ->.
    { unfold path_name_id. assert (split_once_str (lit "::") (p ++ lit "::" ++ name) = Some (p, name)) as ->.
      { apply (split_once_double c_colon). split; [by apply colon_free_double|done]. }
      cbn [mbind option_bind]. rewrite (colon_free_any p Hp), Hl. cbn [mbind option_bind].
      change (prefix l ++ lit ":" ++ p ++ lit "::" ++ qualified name) with (to_string id). by rewrite (proj2 (proj1 (stable_id_parts _) id) (conj Hid eq_refl)). }
    destruct (StableId.parse (p ++ lit "::" ++ name)) as [id'|] eqn:E; [|done]. apply parse_parts in E as (rest & E & Hfree & Hrest & Hne).
    change (p ++ lit "::" ++ name) with (p ++ c_colon :: c_colon :: name) in E. apply char_free_app_inj in E as [_ E]; [|done..]. rewrite <- E in Hrest.
    destruct (id_path id') as [|c r]; [done|]. injection Hrest as <- _. done.
  - intros p n Hp [l Hl] Hn. unfold parse_target. pose proof (digits_colon_free n ltac:(lia)) as Hd. change (p ++ lit ":" ++ dec_text n) with (p ++ c_colon :: dec_text n).
    assert (path_line (p ++ c_colon :: dec_text n) = Some (p, n)) as ->.
    { unfold path_line, rsplit_once. rewrite rposition_last by (apply is_char_refl || done). rewrite <- Nat.add_1_r, <- drop_drop, take_app_length, drop_app_length.
      change (drop 1 (c_colon :: dec_text n)) with (dec_text n). cbn [mbind option_bind]. destruct (digits_text n) as (Hne & Hf & _); [lia|].
      rewrite bool_decide_false by done. rewrite (proj2 (all_spec _ _) Hf). cbn [negb orb]. rewrite parse_digits by done. cbn [mbind option_bind].
      rewrite (colon_free_any p Hp), bool_decide_true; [done|]. by rewrite Hl. }
    assert (path_name_id (p ++ c_colon :: dec_text n) = None) as -> by (unfold path_name_id; rewrite no_double_no_split; [done|by apply one_colon_no_double]).
    destruct (StableId.parse (p ++ c_colon :: dec_text n)) as [id|] eqn:E; [|done]. apply parse_parts in E as (rest & E & Hfree & Hrest & Hne).
    apply char_free_app_inj in E as [_ E]; [|done..]. rewrite Hrest in E. rewrite E in Hd. unfold char_free in Hd. apply Forall_app in Hd as [_ Hd].
    apply Forall_app in Hd as [Hd _]. apply Forall_cons in Hd as [Hd _]. by rewrite is_char_refl in Hd.
  - intros text Ht. unfold parse_target. assert (path_line text = None) as ->.
    { unfold path_line, rsplit_once. destruct (rposition (is_char c_colon) text) as [n|] eqn:E; [|done]. exfalso.
      assert (forall s k, rposition (is_char c_colon) s = Some k -> ~ char_free c_colon s) as H; [|by apply (H text n E)].
      clear. induction s as [|c s IH]; intros k; [done|]. cbn. destruct (rposition _ s) as [j|] eqn:Ej.
      - intros _ [_ Hf]%Forall_cons. by apply (IH j).
      - destruct (is_char c_colon c) eqn:Ec; [|done]. intros _ [Hf _]%Forall_cons. congruence. }
    assert (path_name_id text = None) as -> by (unfold path_name_id; rewrite no_double_no_split; [done|by apply free_no_double]).
    assert (qualified text = text) as ->.
    { unfold qualified. change (lit "::") with [c_colon; c_colon]. by rewrite free_no_double. }
    destruct (StableId.parse text) as [id|] eqn:E; [|done]. apply parse_parts in E as (rest & E & _). rewrite E in Ht. unfold char_free in Ht.
    apply Forall_app in Ht as [_ Ht]. apply Forall_cons in Ht as [Ht _]. by rewrite is_char_refl in Ht.
Qed.

(** * Finding a definition by its own id *)

Lemma position_unique files index name name' d d' : Names.build files = Some index -> d ∈ definitions_of index name -> d' ∈ definitions_of index name' ->
  d_position d = d_position d' -> d = d'.
Proof.
  intros Hb Hd Hd' E. apply (definition_scanned _ _ _ _ Hb) in Hd as (H1 & H2 & _), Hd' as (H3 & H4 & _). rewrite E in H1, H2.
  destruct d as [f s p], d' as [f' s' p']. cbn in *. subst p'. rewrite H1 in H3. injection H3 as <-. rewrite H2 in H4. by injection H4 as <-.
Qed.

Lemma definitions_once files index name : Names.build files = Some index -> NoDup (definitions_of index name).
Proof.
  intros Hb. destruct (name_index_parts files) as (index' & E & _ & H). rewrite Hb in E. injection E as <-. destruct (H name) as (-> & _). clear.
  assert (forall i l, NoDup (flat_map (defined_in name) (imap (fun k file => (i + k, file)) l)) /\
    forall d, d ∈ flat_map (defined_in name) (imap (fun k file => (i + k, file)) l) -> i <= (d_position d).1) as H; [|by apply (H 0)].
  intros i l. revert i. induction l as [|file l IH]; intros i; [split; [constructor|by intros ? ?%not_elem_of_nil]|]. cbn [imap flat_map].
  assert (imap ((fun k file0 => (i + k, file0)) ∘ S) l = imap (fun k file0 => (S i + k, file0)) l) as -> by (apply imap_ext; intros k x _; cbn; f_equal; lia).
  destruct (IH (S i)) as [H1 H2]. assert (forall d, d ∈ defined_in name (i + 0, file) -> (d_position d).1 = i) as Hi.
  { intros d. unfold defined_in. cbn [fst snd]. destruct (in_name_graph file); [|by intros ?%not_elem_of_nil]. intros (c & _ & Hc)%list_elem_of_omap.
    case_bool_decide; [|done]. injection Hc as <-. cbn. lia. }
  split.
  - apply NoDup_app. split; [|split; [|done]].
    + unfold defined_in. cbn [fst snd]. destruct (in_name_graph file); [|constructor]. rewrite Nat.add_0_r. generalize (FactValues.symbols (facts file)) as ss. intros ss.
      assert (forall j, NoDup (omap (fun c : nat * FactValues.Symbol => if bool_decide (sym_name c.2 = name) then Some {| d_file := file; d_symbol := c.2; d_position := (i, c.1) |} else None)
        (imap (fun k s => (j + k, s)) ss)) /\ forall d, d ∈ omap (fun c : nat * FactValues.Symbol => if bool_decide (sym_name c.2 = name) then Some {| d_file := file; d_symbol := c.2;
          d_position := (i, c.1) |} else None) (imap (fun k s => (j + k, s)) ss) -> j <= (d_position d).2) as Hs; [|by apply (Hs 0)].
      induction ss as [|s ss IHs]; intros j; [split; [constructor|by intros ? ?%not_elem_of_nil]|]. cbn [imap].
      assert (imap ((fun k s0 => (j + k, s0)) ∘ S) ss = imap (fun k s0 => (S j + k, s0)) ss) as -> by (apply imap_ext; intros k x _; cbn; f_equal; lia).
      destruct (IHs (S j)) as [H3 H4]. cbn [omap list_omap fst snd]. case_bool_decide.
      * split; [constructor; [|done]|]; [intros Hin; apply H4 in Hin; cbn in Hin; lia|]. intros d [->|Hd]%elem_of_cons; [cbn; lia|]. apply H4 in Hd. lia.
      * split; [done|]. intros d Hd. apply H4 in Hd. lia.
    + intros d Hd Hd'. apply Hi in Hd. apply H2 in Hd'. lia.
  - intros d [Hd|Hd]%elem_of_app; [apply Hi in Hd; lia|apply H2 in Hd; lia].
Qed.

Lemma singleton_list {A} (l : list A) x : NoDup l -> x ∈ l -> (forall y, y ∈ l -> y = x) -> l = [x].
Proof.
  intros Hn Hx H. destruct l as [|y [|z l]]; [by apply not_elem_of_nil in Hx|f_equal; apply H; left|].
  assert (y = x) as -> by (apply H; left). assert (z = x) as -> by (apply H; right; left). apply NoDup_cons in Hn as [Hn _]. destruct Hn. left.
Qed.

(** A qualified name that ends as one with the mark of an ordinal does. *)
Definition marked (q : str) : Prop :=
  exists base digits tail, q = base ++ [c_hash] ++ digits ++ tail /\ digits <> [] /\ Forall (fun c => is_ascii_digit c = true) digits /\ (tail = [] \/ tail = [c_lf]).

Lemma split_ordinal_unmarked q : ~ marked q -> split_ordinal q = (q, 0%Z).
Proof.
  intros Hm. unfold split_ordinal. destruct (rposition (is_char c_hash) q) as [hash|] eqn:Er; [|done]. cbv zeta.
  destruct ((1 <=? utf8_len _) && _) eqn:El; [|done]. destruct (parse_u32 _); [|done]. destruct (all is_ascii_digit _) eqn:Ea; [|done].
  destruct Hm. apply PosixPathFacts.rposition_char_Some in Er as (b & Hdrop & _). apply andb_true_iff in El as [El _].
  assert (drop (hash + 1) q = b) as E by (by rewrite <- drop_drop, Hdrop). rewrite E in *.
  assert (exists tail, b = strip_lf b ++ tail /\ (tail = [] \/ tail = [c_lf])) as (tail & Hb & Ht).
  { unfold strip_lf. destruct b as [|c b' _] using rev_ind; [by exists []; auto|]. rewrite last_snoc. destruct (Z.eqb_spec c c_lf) as [->|]; [|exists []; rewrite app_nil_r; auto].
    rewrite removelast_last. exists [c_lf]. auto. }
  exists (take hash q), (strip_lf b), tail. change ([c_hash] ++ strip_lf b ++ tail) with (c_hash :: strip_lf b ++ tail). rewrite <- Hb, <- Hdrop, take_drop.
  split; [done|]. split; [intros E'; by rewrite E' in El|]. split; [by apply all_spec|done].
Qed.

Lemma dot_free_last name : char_free c_dot name -> rposition (is_char c_dot) name = None.
Proof. induction 1 as [|c l Hc Hd IH]; [done|]. cbn. by rewrite IH, Hc. Qed.

Lemma last_name_after front last_ : char_free c_dot last_ -> last_ <> [] -> last_name (front ++ [c_dot] ++ last_) = last_.
Proof.
  intros Hd Hn. unfold last_name, rsplit_once. change ([c_dot] ++ last_) with (c_dot :: last_). rewrite rposition_last by (apply is_char_refl || done).
  rewrite <- Nat.add_1_r, <- drop_drop, drop_app_length. change (drop 1 (c_dot :: last_)) with last_. by rewrite bool_decide_false.
Qed.

Lemma last_name_qualname s : char_free c_dot (sym_name s) -> sym_name s <> [] -> last_name (qualname s) = sym_name s.
Proof.
  intros Hd Hn. unfold qualname, FactValues.qualified. case_bool_decide; [|by apply last_name_after].
  unfold last_name, rsplit_once. by rewrite dot_free_last.
Qed.

Lemma last_name_dotted s front last_ : sym_name s = front ++ [c_dot] ++ last_ -> char_free c_dot last_ -> last_ <> [] -> last_name (qualname s) = last_.
Proof.
  intros Hs Hd Hn. unfold qualname, FactValues.qualified. rewrite Hs. case_bool_decide; [by apply last_name_after|].
  rewrite (app_assoc [c_dot] front), (app_assoc _ ([c_dot] ++ front)). by apply last_name_after.
Qed.

(** C17: The id of a definition whose name has no dot finds the definitions with its path and its id, itself
    among them, and says so; in a scan without repeated paths whose files give distinct ids it finds
    that definition alone.  The id of one whose name is dotted, as that of the Lua function M.f, never
    finds it: it finds the definitions of the last part.  The text of the id must be an id that no
    other form takes, its names without the mark of an ordinal and its ordinal one of six digits. *)
Theorem own_id_found files index d (Hb : Names.build files = Some index) (Hd : d ∈ definitions_of index (sym_name (d_symbol d)))
  (Hid : id_ok (stable_id d)) (Hp : starts_with (lit ":") (d_path d) = false)
  (Hmark : ~ marked (qualname (d_symbol d))) (Hi : (0 <= duplicate_index (d_symbol d) < 999999)%Z) :
  let l := resolve_definitions index (to_string (stable_id d)) in
  form l = FormStableId /\
  (char_free c_dot (sym_name (d_symbol d)) -> sym_name (d_symbol d) <> [] -> scoped l = true /\
    (forall d', d' ∈ found l <-> d' ∈ definitions_of index (sym_name (d_symbol d)) /\ d_path d' = d_path d /\ id_qualname (d_symbol d') = id_qualname (d_symbol d)) /\
    (NoDup (map path files) -> NoDup (map id_qualname (FactValues.symbols (facts (d_file d)))) -> found l = [d])) /\
  (forall front last_, sym_name (d_symbol d) = front ++ [c_dot] ++ last_ -> char_free c_dot last_ -> last_ <> [] ->
    d ∉ found l /\ (scoped l = false -> found l = definitions_of index last_)).
Proof.
  cbn zeta. unfold resolve_definitions.
  assert (parse_target (to_string (stable_id d)) = TargetId (stable_id d) FormStableId) as ->.
  { unfold parse_target. rewrite (proj2 (proj1 (stable_id_parts _) (stable_id d)) (conj Hid eq_refl)). change (id_path (stable_id d)) with (d_path d). by rewrite Hp. }
  unfold lookup_target, by_stable_id. change (id_qual (stable_id d)) with (id_qualname (d_symbol d)). change (id_path (stable_id d)) with (d_path d).
  assert ((split_ordinal (id_qualname (d_symbol d))).1 = qualname (d_symbol d)) as ->.
  { unfold id_qualname. destruct (Z.eqb_spec (duplicate_index (d_symbol d)) 0); [by rewrite split_ordinal_unmarked|by rewrite split_ordinal_text]. }
  split; [done|]. split.
  2:{ intros front last_ Hs Hdot Hne. rewrite (last_name_dotted _ front last_) by done. cbn [found scoped].
    set (same := List.filter _ (definitions_of index last_)).
    assert (d ∉ definitions_of index last_) as Hmiss.
    { intros (_ & _ & Hname & _)%(definition_scanned _ _ _ _ Hb). rewrite Hs in Hname. apply (f_equal length) in Hname. rewrite !length_app in Hname. cbn in Hname. lia. }
    case_bool_decide as Hsame; cbn [negb]; [done|]. split; [|done]. intros Hin. apply Hmiss. unfold same in Hin. apply list_elem_of_In, filter_In in Hin as [Hin _]. by apply list_elem_of_In. }
  intros Hdot Hne. rewrite last_name_qualname by done. set (same := List.filter _ (definitions_of index (sym_name (d_symbol d)))).
  assert (forall d', d' ∈ same <-> d' ∈ definitions_of index (sym_name (d_symbol d)) /\ d_path d' = d_path d /\ id_qualname (d_symbol d') = id_qualname (d_symbol d)) as Hsame.
  { intros d'. unfold same. by rewrite list_elem_of_In, filter_In, <- list_elem_of_In, andb_true_iff, !bool_decide_eq_true. }
  assert (d ∈ same) as Hin by by apply Hsame. assert (same <> []) as Hs by (intros E; rewrite E in Hin; by apply not_elem_of_nil in Hin).
  rewrite bool_decide_false by done. cbn [negb found scoped form]. split_and!; [done|exact Hsame|]. intros Hpaths Hids.
  apply singleton_list; [|done|].
  - unfold same. apply NoDup_ListNoDup, List.NoDup_filter, NoDup_ListNoDup. by eapply definitions_once.
  - intros d' [Hd' [Hpath Hq]]%Hsame. eapply (position_unique files index); [done|exact Hd'|exact Hd|].
    apply (definition_scanned _ _ _ _ Hb) in Hd as (H1 & H2 & _), Hd' as (H3 & H4 & _).
    assert ((d_position d').1 = (d_position d).1) as E1.
    { rewrite NoDup_alt in Hpaths. apply (Hpaths _ _ (d_path d)); change (map path) with (fmap (M := list) path); rewrite list_lookup_fmap; [by rewrite H3, <- Hpath|by rewrite H1]. }
    rewrite E1, H1 in H3. injection H3 as E2. rewrite <- E2 in H4. rewrite NoDup_alt in Hids.
    assert ((d_position d').2 = (d_position d).2) as E3.
    { apply (Hids _ _ (id_qualname (d_symbol d))); change (map id_qualname) with (fmap (M := list) id_qualname); rewrite list_lookup_fmap; [by rewrite H4, <- Hq|by rewrite H2]. }
    destruct (d_position d), (d_position d'). cbn in *. congruence.
Qed.

(** * The symbol of a line *)

(** The deepest symbol that spans the line: it starts last, and of those that start there it is declared first. *)
Definition deepest (symbols : list FactValues.Symbol) (l : Z) (j : nat) : Prop :=
  exists s, symbols !! j = Some s /\ (sym_line s <= l <= sym_end_line s)%Z /\
    forall j' s', symbols !! j' = Some s' -> (sym_line s' <= l <= sym_end_line s')%Z -> (sym_line s' < sym_line s)%Z \/ (sym_line s' = sym_line s /\ j <= j').

Lemma enclosing_place_spec symbols l :
  match enclosing_place symbols l with
  | Some j => deepest symbols l j
  | None => forall j s, symbols !! j = Some s -> ~ (sym_line s <= l <= sym_end_line s)%Z
  end.
Proof.
  unfold enclosing_place. assert (forall ss, ss `prefix_of` symbols -> match foldl (fun held cell => if Owners.holds (span cell.2) l && wins (span cell.2) (place ← held; span <$> symbols !! place) then Some cell.1 else held)
      None (imap pair ss) with
    | Some j => deepest ss l j
    | None => forall j s, ss !! j = Some s -> ~ (sym_line s <= l <= sym_end_line s)%Z end) as H; [|by apply H].
  induction ss as [|s ss IH] using rev_ind; [done|]. intros Hp. assert (ss `prefix_of` symbols) as Hp' by (etransitivity; [|exact Hp]; by apply prefix_app_r).
  specialize (IH Hp'). rewrite imap_app, foldl_app. cbn [imap foldl]. rewrite Nat.add_0_r. set (held := foldl _ None (imap pair ss)) in *. cbn [fst snd].
  assert (Owners.holds (span s) l = true <-> (sym_line s <= l <= sym_end_line s)%Z) as Hh by (unfold Owners.holds; cbn; by rewrite andb_true_iff, !Z.leb_le).
  assert (forall j t, (ss ++ [s]) !! j = Some t <-> ss !! j = Some t \/ (j = length ss /\ t = s)) as Hat.
  { intros j t. rewrite lookup_app_Some. split.
    - intros [?|[Hle E]]; [by left|right]. destruct (j - length ss) as [|[|]] eqn:Ej; [|done..]. injection E as ->. split; [lia|done].
    - intros [?|[-> ->]]; [by left|right]. by rewrite Nat.sub_diag. }
  assert (wins (span s) (place ← held; span <$> symbols !! place) = true <-> match held with Some j => forall t, ss !! j = Some t -> (sym_line t < sym_line s)%Z | None => True end) as Hw.
  { destruct held as [j|]; [|done]. destruct IH as (t & Ht & _). destruct Hp' as [r ->]. cbn [mbind option_bind]. rewrite (lookup_app_l_Some _ _ _ _ Ht). cbn [fmap option_fmap option_map wins].
    change (Owners.line (span t)) with (sym_line t). change (Owners.line (span s)) with (sym_line s). rewrite Z.ltb_lt, Ht. split; [by intros ? ? [= <-]|auto]. }
  destruct (Owners.holds (span s) l && wins (span s) _) eqn:E.
  - apply andb_true_iff in E as [E1%Hh E2%Hw]. exists s. split; [apply Hat; by right|]. split; [done|]. intros j' t [Ht|[-> ->]]%Hat Hl; [|right; split; [done|lia]].
    left. destruct held as [j|]; [|by destruct (IH j' t Ht)]. destruct IH as (t0 & Ht0 & _ & Hmax). specialize (E2 t0 Ht0). destruct (Hmax j' t Ht Hl) as [?|[? _]]; lia.
  - apply andb_false_iff in E. destruct held as [j|].
    + destruct IH as (t0 & Ht0 & Hl0 & Hmax). exists t0. split; [apply Hat; by left|]. split; [done|]. intros j' t [Ht|[-> ->]]%Hat Hl; [by apply (Hmax j')|].
      destruct E as [E|E]; [by rewrite (proj2 Hh Hl) in E|]. apply lookup_lt_Some in Ht0 as Hj. destruct (Z.lt_ge_cases (sym_line t0) (sym_line s)) as [Hlt|Hge].
      * rewrite (proj2 Hw) in E; [done|]. intros t Ht. rewrite Ht0 in Ht. by injection Ht as <-.
      * destruct (decide (sym_line s = sym_line t0)); [right|left]; [split; [done|]|]; lia.
    + intros j t [Ht|[-> ->]]%Hat; [by apply (IH j)|]. destruct E as [E|E]; [intros Hl; by rewrite (proj2 Hh Hl) in E|]. by rewrite (proj2 Hw I) in E.
Qed.

(** A path and a line find the deepest symbol that spans the line in the first file of the name graph
    at the path, and nothing when there is none; the target is scoped exactly when it finds one. *)
Theorem innermost_line files index p n : files = Names.files index -> let l := by_line index p n in
  (forall d, found l = [d] <-> exists k j, d_position d = (k, j) /\ files !! k = Some (d_file d) /\ path (d_file d) = p /\ in_name_graph (d_file d) = true /\
     (forall k' file, k' < k -> files !! k' = Some file -> ~ (path file = p /\ in_name_graph file = true)) /\
     FactValues.symbols (facts (d_file d)) !! j = Some (d_symbol d) /\ deepest (FactValues.symbols (facts (d_file d))) n j) /\
  (length (found l) <= 1) /\ (scoped l = true <-> found l <> []) /\ form l = FormPathLine.
Proof.
  intros ->. cbn zeta. unfold by_line, place_of. set (test := fun file => bool_decide (path file = p) && in_name_graph file).
  assert (forall file, test file = true <-> path file = p /\ in_name_graph file = true) as Ht.
  { intros file. unfold test. by rewrite andb_true_iff, bool_decide_eq_true. }
  set (held := (at_ ← _; innermost _ at_ n)). cbn [found scoped form]. split_and!; [|by destruct held; cbn; lia|rewrite bool_decide_eq_true; destruct held; cbn; split; [done|by eexists|by intros []|done]|done].
  intros d. transitivity (held = Some d); [destruct held; cbn; split; [by intros [= ->]|by intros [= ->]|done|done]|]. unfold held, innermost. split.
  - pose proof (Text.position_spec test (files index)) as Hpos. destruct (Text.position test (files index)) as [k|]; [|done]. cbn [mbind option_bind].
    destruct Hpos as [(file & Hk & Hf) Hfirst]. rewrite Hk. cbn [mbind option_bind]. apply Ht in Hf as [Hp Hg].
    pose proof (enclosing_place_spec (FactValues.symbols (facts file)) n) as Hs. destruct (enclosing_place _ n) as [j|]; [|done]. cbn [mbind option_bind].
    destruct Hs as (s & Hj & Hl & Hmax). rewrite Hj. intros [= <-]. cbn. exists k, j. split_and!; try done.
    + intros k' file' Hlt Hk' Hf%Ht. by rewrite (Hfirst k' file' Hlt Hk') in Hf.
    + by exists s.
  - intros (k & j & Hpos & Hk & Hp & Hg & Hfirst & Hj & Hdeep).
    assert (Text.position test (files index) = Some k) as ->.
    { pose proof (Text.position_spec test (files index)) as Hs. pose proof (proj2 (Ht (d_file d)) (conj Hp Hg)) as Hd.
      destruct (Text.position test (files index)) as [m|]; [|by rewrite (Hs k _ Hk) in Hd]. destruct Hs as [(file & Hm & Hf%Ht) Hs]. f_equal.
      destruct (Nat.lt_trichotomy m k) as [?|[?|?]]; [by destruct (Hfirst m file)|done|]. by rewrite (Hs k (d_file d)) in Hd. }
    cbn [mbind option_bind]. rewrite Hk. cbn [mbind option_bind].
    pose proof (enclosing_place_spec (FactValues.symbols (facts (d_file d))) n) as Hs. destruct Hdeep as (s & Hs' & Hl & Hmax). rewrite Hj in Hs'. injection Hs' as <-.
    destruct (enclosing_place _ n) as [j'|]; [|by destruct (Hs j (d_symbol d) Hj)]. destruct Hs as (s' & Hj' & Hl' & Hmax'). cbn [mbind option_bind].
    assert (j' = j) as ->. { destruct (Hmax j' s' Hj' Hl') as [?|[? ?]], (Hmax' j (d_symbol d) Hj Hl) as [?|[? ?]]; lia. }
    rewrite Hj. cbn. destruct d as [f s pos]. cbn in *. by rewrite Hpos.
Qed.

(** * A method and its call *)

Definition sample_symbol (name parent : str) (first last_ : Z) : FactValues.Symbol :=
  {| sym_name := name; kind := Method; sym_line := first; sym_end_line := last_; name_line := first; signature := []; parent := parent; decorated := false;
     bases := []; is_public := true; rationales := []; duplicate_index := 0; marks := {| protocol := false; test := false |} |}.

Definition sample_lookup : list FileFacts :=
  [{| path := lit "src/svc.py"; language := Python; line_count := 9;
      facts := {| FactValues.symbols := [sample_symbol (lit "Invoice") [] 1 8; sample_symbol (lit "total") (lit "Invoice") 3 5]; imports := []; refs := []; manifest := None; modules := [] |} |}].

Definition sample_definition : Definition_ :=
  {| d_file := nth 0 sample_lookup {| path := []; language := Python; line_count := 0; facts := {| FactValues.symbols := []; imports := []; refs := []; manifest := None; modules := [] |} |};
     d_symbol := sample_symbol (lit "total") (lit "Invoice") 3 5; d_position := (0, 1) |}.

Lemma own_id_found_witness : exists index, Names.build sample_lookup = Some index /\
  to_string (stable_id sample_definition) = lit "py:src/svc.py::Invoice.total" /\
  found (resolve_definitions index (lit "py:src/svc.py::Invoice.total")) = [sample_definition] /\
  map d_position (found (resolve_definitions index (lit "src/svc.py::Invoice::total"))) = [(0, 1)] /\
  map d_position (found (resolve_definitions index (lit "src/svc.py:6"))) = [(0, 0)].
Proof.
  destruct (Names.build sample_lookup) as [index|] eqn:Eb; [|vm_compute in Eb; discriminate Eb]. exists index. split; [reflexivity|].
  assert (to_string (stable_id sample_definition) = lit "py:src/svc.py::Invoice.total") as Et by (vm_compute; reflexivity). split; [exact Et|].
  pose proof Eb as Ei. vm_compute in Ei. injection Ei as Ei.
  assert (sample_definition ∈ definitions_of index (sym_name (d_symbol sample_definition))) as Hd by (rewrite <- Ei; vm_compute; left).
  assert (id_ok (stable_id sample_definition)) as Hid.
  { split; [repeat constructor|]. split; [vm_compute; reflexivity|]. split; [repeat constructor; vm_compute; reflexivity|vm_compute; reflexivity]. }
  assert (~ marked (qualname (d_symbol sample_definition))) as Hm.
  { intros (base & digits & tail & E & _). assert (c_hash ∈ qualname (d_symbol sample_definition)) as H by (rewrite E; apply elem_of_app; right; left).
    revert H. apply (bool_decide_unpack _). vm_compute. exact I. }
  destruct (own_id_found sample_lookup index sample_definition Eb Hd Hid eq_refl Hm ltac:(vm_compute; split; [discriminate|reflexivity])) as (_ & H & _). rewrite Et in H.
  split; [|rewrite <- Ei; vm_compute; split; reflexivity].
  apply H; [repeat constructor|discriminate|apply (bool_decide_unpack _); vm_compute; exact I..].
Defined.

(** The function M.f of a Lua module and a function f of another file: the id of the first finds the second. *)
Definition sample_lua : list FileFacts :=
  [{| path := lit "m.lua"; language := Lua; line_count := 9;
      facts := {| FactValues.symbols := [sample_symbol (lit "M.f") [] 1 3]; imports := []; refs := []; manifest := None; modules := [] |} |};
   {| path := lit "n.py"; language := Python; line_count := 9;
      facts := {| FactValues.symbols := [sample_symbol (lit "f") [] 1 3]; imports := []; refs := []; manifest := None; modules := [] |} |}].

Example lua_id_missed : (fun index => (map d_position (definitions_of index (lit "M.f")), map (fun d => to_string (stable_id d)) (definitions_of index (lit "M.f")),
    map d_position (found (resolve_definitions index (lit "lua:m.lua::M.f"))))) <$> Names.build sample_lua = Some ([(0, 0)], [lit "lua:m.lua::M.f"], [(1, 0)]).
Proof. vm_compute. reflexivity. Qed.
