(* ===== verification/Nargs.v ===== *)
(** The argument counts of positionals: crates/cli/src/args/nargs.rs.

    A command line is a pattern of values, options and the separator; each positional takes a run of
    it that its own expression allows.  The search backtracks; [match_partial_exact] shows that it
    gives the longest prefix of the positionals that can match and, of the counts that do, the greatest
    in the order of the positionals. *)

From S2P Require Import Prelude RustStr.

(** * Data *)

(** [Arity] of app/ops.rs. *)
Inductive Arity := One | Optional | OneOrMore | Any.

Inductive Nargs := OfArity (a : Arity) | Command_.

(** The characters of a pattern: a value, an option and the separator. *)
Definition VALUE : Z := 65.
Definition OPTION : Z := 79.
Definition SEPARATOR : Z := 45.

Inductive Token := Star (set : list Z) | Maybe (c : Z) | Single (c : Z).

Definition DASHES : Token := Star [SEPARATOR].

Definition tokens (n : Nargs) : list Token :=
  match n with
  | OfArity One => [DASHES; Single VALUE; DASHES]
  | OfArity Optional => [DASHES; Maybe VALUE; DASHES]
  | OfArity Any => [DASHES; Star [VALUE; SEPARATOR]]
  | OfArity OneOrMore => [DASHES; Single VALUE; Star [VALUE; SEPARATOR]]
  | Command_ => [DASHES; Single VALUE; Star [SEPARATOR; VALUE; OPTION]]
  end.

(** * The match *)

Definition in_set (set : list Z) (c : Z) : bool := bool_decide (c ∈ set).

(** The length of the run of a set from [at_] on. *)
Definition run_of (set : list Z) (pattern : list Z) (at_ : nat) : nat := length (take_while (in_set set) (drop at_ pattern)).

(** The ends of the tokens, in the order in which they are tried. *)
Fixpoint ends_of (toks : list Token) (pattern : list Z) (at_ : nat) : list nat :=
  match toks with
  | [] => [at_]
  | Star set :: rest => flat_map (fun taken => ends_of rest pattern (at_ + taken)) (rev (seq 0 (S (run_of set pattern at_))))
  | Maybe c :: rest =>
      (if bool_decide (pattern !! at_ = Some c) then ends_of rest pattern (at_ + 1) else []) ++ ends_of rest pattern at_
  | Single c :: rest => if bool_decide (pattern !! at_ = Some c) then ends_of rest pattern (at_ + 1) else []
  end.

Fixpoint matched (nargs : list Nargs) (pattern : list Z) (at_ : nat) : option (list nat) :=
  match nargs with
  | [] => Some []
  | first :: rest =>
      find_map (fun end_ => counts ← matched rest pattern end_; Some ((end_ - at_)%nat :: counts)) (ends_of (tokens first) pattern at_)
  end.

(** Pops the zeros at the end. *)
Definition pop_zeros (counts : list nat) : list nat := reverse (trim_start (Nat.eqb 0) (reverse counts)).

Definition match_partial (nargs : list Nargs) (pattern : list Z) : list nat :=
  match find_map (fun n => matched (take n nargs) pattern 0) (rev (seq 1 (length nargs))) with
  | None => []
  | Some counts => if bool_decide (pattern !! sum_list counts = Some OPTION) then pop_zeros counts else counts
  end.

Definition strips_separator (n : Nargs) (pattern : list Z) : bool :=
  match n with
  | Command_ => bool_decide (head pattern = Some SEPARATOR)
  | OfArity _ => bool_decide (SEPARATOR ∈ pattern)
  end.

(** * What a match is *)

(** The runs that a token stands for. *)
Definition token_match (t : Token) (s : list Z) : Prop :=
  match t with
  | Star set => Forall (fun c => c ∈ set) s
  | Maybe c => s = [] \/ s = [c]
  | Single c => s = [c]
  end.

Fixpoint tokens_match (toks : list Token) (s : list Z) : Prop :=
  match toks with
  | [] => s = []
  | t :: toks => exists s1 s2, s = s1 ++ s2 /\ token_match t s1 /\ tokens_match toks s2
  end.

(** The counts cut the start of the pattern into runs of the positionals. *)
Fixpoint fits (nargs : list Nargs) (pattern : list Z) (counts : list nat) : Prop :=
  match nargs, counts with
  | [], [] => True
  | n :: nargs, c :: counts => (c <= length pattern)%nat /\ tokens_match (tokens n) (take c pattern) /\ fits nargs (drop c pattern) counts
  | _, _ => False
  end.

Fixpoint lex_le (a b : list nat) : Prop :=
  match a, b with
  | x :: a, y :: b => (x < y)%nat \/ x = y /\ lex_le a b
  | [], _ => True
  | _ :: _, [] => False
  end.

(** ** The ends *)

Lemma in_set_true set c : in_set set c = true <-> c ∈ set.
Proof. apply bool_decide_eq_true. Qed.

Lemma prefix_drop (s1 s2 : list Z) pattern at_ :
  s1 ++ s2 `prefix_of` drop at_ pattern <-> s1 `prefix_of` drop at_ pattern /\ s2 `prefix_of` drop (at_ + length s1) pattern.
Proof.
  rewrite <- drop_drop. split.
  - intros [r E]. rewrite E, <- app_assoc, drop_app_length. split; by eexists.
  - intros [[r E] [r' E']]. rewrite E, drop_app_length in E'. subst r. exists r'. by rewrite E, app_assoc.
Qed.

Lemma run_of_spec set pattern at_ taken :
  (taken <= run_of set pattern at_)%nat <-> exists s, length s = taken /\ s `prefix_of` drop at_ pattern /\ Forall (fun c => c ∈ set) s.
Proof.
  unfold run_of. destruct (take_while_split (in_set set) (drop at_ pattern)) as (rest & E & Hall & Hstop).
  set (w := take_while (in_set set) (drop at_ pattern)) in *. split.
  - intros Hle. exists (take taken w). split; [rewrite length_take; lia|]. split.
    + rewrite E. exists (drop taken w ++ rest). by rewrite app_assoc, take_drop.
    + apply Forall_take. eapply Forall_impl; [exact Hall|]. intros c. apply in_set_true.
  - intros (s & <- & [r Hr] & Hf). destruct (le_lt_dec (length s) (length w)) as [?|Hlt]; [done|]. exfalso.
    rewrite E in Hr. assert (w `prefix_of` s) as [s' ->].
    { destruct (prefix_weak_total w s (s ++ r)) as [?|Hp]; [by exists rest|by exists r|done|]. apply prefix_length in Hp. lia. }
    rewrite <- app_assoc in Hr. apply app_inv_head in Hr. destruct s' as [|c s']; [rewrite app_nil_r in Hlt; lia|].
    subst rest. cbn in Hstop. apply Forall_app in Hf as [_ [Hc _]%Forall_cons]. apply in_set_true in Hc. congruence.
Qed.

Lemma elem_of_down taken n : taken ∈ rev (seq 0 (S n)) <-> (taken <= n)%nat.
Proof. rewrite list_elem_of_In, <- in_rev, in_seq. lia. Qed.

(** The ends are those of the runs that the tokens allow. *)
Lemma ends_of_spec toks pattern at_ e :
  e ∈ ends_of toks pattern at_ <-> exists s, s `prefix_of` drop at_ pattern /\ e = (at_ + length s)%nat /\ tokens_match toks s.
Proof.
  revert at_. induction toks as [|t toks IH]; intros at_.
  { cbn. rewrite list_elem_of_singleton. split; [intros ->; exists []; split; [apply prefix_nil|]; split; [cbn; lia|done]|].
    intros (s & _ & -> & ->). cbn. lia. }
  assert ((exists s, s `prefix_of` drop at_ pattern /\ e = (at_ + length s)%nat /\ tokens_match (t :: toks) s) <->
    exists s1, token_match t s1 /\ s1 `prefix_of` drop at_ pattern /\ e ∈ ends_of toks pattern (at_ + length s1)) as ->.
  { setoid_rewrite IH. split.
    - intros (s & Hp & -> & s1 & s2 & -> & Ht & Hm). apply prefix_drop in Hp as [Hp1 Hp2]. exists s1. split; [done|]. split; [done|].
      exists s2. split; [done|]. split; [rewrite length_app; lia|done].
    - intros (s1 & Ht & Hp1 & s2 & Hp2 & -> & Hm). exists (s1 ++ s2). rewrite prefix_drop, length_app. split; [done|]. split; [lia|].
      by exists s1, s2. }
  destruct t as [set|c|c]; cbn [ends_of token_match].
  - rewrite list_elem_of_In, in_flat_map. setoid_rewrite <- list_elem_of_In. setoid_rewrite elem_of_down. setoid_rewrite run_of_spec. split.
    + intros (taken & (s & <- & Hp & Hf) & Hin). by exists s.
    + intros (s & Hf & Hp & Hin). exists (length s). split; [by exists s|done].
  - rewrite elem_of_app. split.
    + intros [Hin|Hin].
      * case_bool_decide as Hc; [|by apply elem_of_nil in Hin]. exists [c]. rewrite prefix_single. auto.
      * exists []. rewrite Nat.add_0_r. split; [by left|]. split; [apply prefix_nil|done].
    + intros (s & [-> | ->] & Hp & Hin); [right; by rewrite Nat.add_0_r in Hin|left]. apply prefix_single in Hp. by rewrite bool_decide_true.
  - split.
    + intros Hin. case_bool_decide as Hc; [|by apply elem_of_nil in Hin]. exists [c]. by rewrite prefix_single.
    + intros (s & -> & Hp & Hin). apply prefix_single in Hp. by rewrite bool_decide_true.
Qed.

(** ** Their order *)

(** Whatever lies past an end and is an end too has been tried before it. *)
Definition greedy (ends : list nat) : Prop := forall l1 e l2 e', ends = l1 ++ e :: l2 -> e' ∈ l2 -> (e < e')%nat -> e' ∈ l1.

(** The places from [lo + n] down to [lo]. *)
Definition descend (lo n : nat) : list nat := map (Nat.add lo) (rev (seq 0 (S n))).

Lemma descend_S lo n : descend lo (S n) = (lo + S n)%nat :: descend lo n.
Proof. unfold descend. rewrite (seq_S (S n)), rev_app_distr. done. Qed.

Lemma descend_elem lo n e : e ∈ descend lo n <-> (lo <= e <= lo + n)%nat.
Proof.
  unfold descend. rewrite list_elem_of_fmap. setoid_rewrite elem_of_down. split; [intros (k & -> & ?); lia|]. intros He. exists (e - lo)%nat. lia.
Qed.

(** In a run of places that goes down, those after one are below it and those before it are all above. *)
Lemma descend_split lo n l1 e l2 : descend lo n = l1 ++ e :: l2 ->
  (forall e', e' ∈ l2 -> (e' < e)%nat) /\ (forall e', (e < e' <= lo + n)%nat -> e' ∈ l1).
Proof.
  revert l1. induction n as [|n IH]; intros l1 E.
  - destruct l1 as [|x l1]; [|destruct l1; done]. injection E as <- <-. split; [intros e' He'; by apply elem_of_nil in He'|intros; lia].
  - rewrite descend_S in E. destruct l1 as [|x l1].
    + injection E as <- <-. split; [intros e' He'; apply descend_elem in He'; lia|intros; lia].
    + injection E as <- E. destruct (IH l1 E) as [H1 H2]. split; [done|]. intros e' He'. apply elem_of_cons.
      destruct (decide (e' = lo + S n)%nat); [by left|right; apply H2; lia].
Qed.

Lemma greedy_descend lo n : greedy (descend lo n).
Proof. intros l1 e l2 e' E Hin Hlt. destruct (descend_split _ _ _ _ _ E) as [H _]. specialize (H e' Hin). lia. Qed.

(** A run, and then ends that lie no further than it and of which none it leaves out is above its foot. *)
Lemma greedy_app lo n l : greedy l -> (forall e, e ∈ l -> (e <= lo + n)%nat) -> greedy (descend lo n ++ l).
Proof.
  intros Hl Hle l1 e l2 e' E Hin Hlt. symmetry in E. apply app_eq_inv in E as [(k & -> & E)|(k & E & E2)].
  - apply elem_of_app. right. by apply (Hl k e l2 e').
  - destruct k as [|x k].
    + pose proof (Hl [] e l2 e' (eq_sym E2) Hin Hlt) as Hn. by apply elem_of_nil in Hn.
    + injection E2 as <- ->. destruct (descend_split _ _ _ _ _ E) as [H1 H2]. apply elem_of_app in Hin as [Hin|Hin].
      * specialize (H1 e' Hin). lia.
      * apply H2. specialize (Hle e' Hin). lia.
Qed.

Lemma flat_down {B} (f : nat -> list B) r : flat_map f (rev (seq 0 (S r))) = f r ++ flat_map f (rev (seq 0 r)).
Proof. by rewrite seq_S, rev_app_distr. Qed.

Lemma flat_down_nil {B} (f : nat -> list B) r : (forall t, (t < r)%nat -> f t = []) -> flat_map f (rev (seq 0 r)) = [].
Proof.
  induction r as [|r IH]; intros H; [done|]. rewrite flat_down, (H r), IH by (intros; try apply H; lia). done.
Qed.

Lemma ends_of_star set pattern at_ : ends_of [Star set] pattern at_ = descend at_ (run_of set pattern at_).
Proof. cbn [ends_of]. unfold descend. induction (rev _) as [|x l IH]; [done|]. cbn. by rewrite IH. Qed.

(** The characters of a run of one. *)
Lemma dash_at pattern at_ t : (t < run_of [SEPARATOR] pattern at_)%nat -> pattern !! (at_ + t)%nat = Some SEPARATOR.
Proof.
  intros Ht. destruct (proj1 (run_of_spec [SEPARATOR] pattern at_ (run_of [SEPARATOR] pattern at_)) ltac:(lia)) as (s & Hl & [r Hp] & Hf).
  rewrite <- lookup_drop, Hp. rewrite lookup_app_l by lia. destruct (lookup_lt_is_Some_2 s t) as [c Hc]; [lia|]. rewrite Hc. f_equal.
  eapply Forall_lookup_1 in Hf; [|exact Hc]. by apply list_elem_of_singleton in Hf.
Qed.

(** A longer run starts a run. *)
Lemma run_of_more set pattern at_ t : (t <= run_of set pattern at_)%nat -> run_of set pattern (at_ + t) = (run_of set pattern at_ - t)%nat.
Proof.
  intros Ht.
  assert (forall k, (k <= run_of set pattern (at_ + t))%nat <-> (t + k <= run_of set pattern at_)%nat) as H.
  { apply run_of_spec in Ht as (s0 & <- & Hp0 & Hf0). intros k. rewrite !run_of_spec. split.
    - intros (s & <- & Hp & Hf). exists (s0 ++ s). rewrite length_app, prefix_drop. split; [done|]. split; [done|]. by apply Forall_app.
    - intros (s & Hl & Hp & Hf). exists (drop (length s0) s). rewrite length_drop. split; [lia|].
      destruct (prefix_weak_total s0 s (drop at_ pattern)) as [[s' ->]|Hps]; [done|done| |].
      + rewrite drop_app_length. apply prefix_drop in Hp as [_ ?]. apply Forall_app in Hf as [_ ?]. done.
      + apply prefix_length in Hps as Hk. rewrite drop_ge by lia. split; [apply prefix_nil|constructor]. }
  destruct (Nat.lt_trichotomy (run_of set pattern (at_ + t)) (run_of set pattern at_ - t)) as [Hlt|[?|Hgt]]; [|done|].
  - specialize (H (run_of set pattern at_ - t)%nat). lia.
  - specialize (H (run_of set pattern (at_ + t))). lia.
Qed.

Lemma run_of_subset set1 set2 pattern at_ : (forall c, c ∈ set1 -> c ∈ set2) -> (run_of set1 pattern at_ <= run_of set2 pattern at_)%nat.
Proof.
  intros Hsub. apply run_of_spec. destruct (proj1 (run_of_spec set1 pattern at_ (run_of set1 pattern at_)) ltac:(lia)) as (s & Hl & Hp & Hf).
  exists s. split; [done|]. split; [done|]. eapply Forall_impl; [exact Hf|done].
Qed.

(** After the dashes, nothing but the last of them comes before what is no dash. *)
Lemma dashes_single pattern at_ rest : ends_of (DASHES :: Single VALUE :: rest) pattern at_ =
  ends_of (Single VALUE :: rest) pattern (at_ + run_of [SEPARATOR] pattern at_).
Proof.
  unfold DASHES. change (ends_of (Star [SEPARATOR] :: Single VALUE :: rest) pattern at_) with
    (flat_map (fun t => ends_of (Single VALUE :: rest) pattern (at_ + t)) (rev (seq 0 (S (run_of [SEPARATOR] pattern at_))))).
  rewrite flat_down, flat_down_nil, app_nil_r; [done|]. intros t Ht. cbn [ends_of]. by rewrite (dash_at _ _ _ Ht), bool_decide_false by done.
Qed.

Lemma greedy_blocks at_ m r : (r <= m)%nat ->
  greedy (flat_map (fun t => descend (at_ + t) (m - t)) (rev (seq 0 r))) /\ forall e, e ∈ flat_map (fun t => descend (at_ + t) (m - t)) (rev (seq 0 r)) -> (e <= at_ + m)%nat.
Proof.
  induction r as [|r IH]; intros Hr.
  { cbn. split; [intros [|] ? ? ? [=]|intros e He; by apply elem_of_nil in He]. }
  rewrite flat_down. destruct (IH ltac:(lia)) as [H1 H2]. split.
  - apply greedy_app; [done|]. intros e He. specialize (H2 e He). lia.
  - intros e [He|He]%elem_of_app; [apply descend_elem in He; lia|by apply H2].
Qed.

Lemma tokens_greedy n pattern at_ : greedy (ends_of (tokens n) pattern at_).
Proof.
  set (r := run_of [SEPARATOR] pattern at_).
  assert (forall set, greedy (ends_of [Single VALUE; Star set] pattern (at_ + r))) as Hsingle.
  { intros set. cbn [ends_of]. case_bool_decide; [|intros [|] ? ? ? [=]].
    change (flat_map _ _) with (ends_of [Star set] pattern (at_ + r + 1)). rewrite ends_of_star. apply greedy_descend. }
  destruct n as [[]|]; cbn [tokens].
  - rewrite dashes_single. apply Hsingle.
  - unfold DASHES at 1. change (ends_of (Star [SEPARATOR] :: [Maybe VALUE; DASHES]) pattern at_) with
      (flat_map (fun t => ends_of [Maybe VALUE; DASHES] pattern (at_ + t)) (rev (seq 0 (S r)))).
    rewrite flat_down.
    assert (flat_map (fun t => ends_of [Maybe VALUE; DASHES] pattern (at_ + t)) (rev (seq 0 r)) =
      flat_map (fun t => descend (at_ + t) (r - t)) (rev (seq 0 r))) as ->.
    { apply flat_map_ext_in. intros t Ht. assert (t < r)%nat as Hlt by (apply list_elem_of_In in Ht; rewrite <- in_rev, in_seq in Ht; lia).
      change (ends_of [Maybe VALUE; DASHES] pattern (at_ + t)) with
        ((if bool_decide (pattern !! (at_ + t)%nat = Some VALUE) then ends_of [DASHES] pattern (at_ + t + 1) else []) ++ ends_of [DASHES] pattern (at_ + t)).
      rewrite (dash_at _ _ _ Hlt), bool_decide_false by done. cbn [app]. unfold DASHES.
      rewrite ends_of_star, run_of_more by (unfold r in *; lia). done. }
    destruct (greedy_blocks at_ r r ltac:(lia)) as [H1 H2].
    change (ends_of [Maybe VALUE; DASHES] pattern (at_ + r)) with
      ((if bool_decide (pattern !! (at_ + r)%nat = Some VALUE) then ends_of [DASHES] pattern (at_ + r + 1) else []) ++ ends_of [DASHES] pattern (at_ + r)).
    unfold DASHES. rewrite !ends_of_star. rewrite (run_of_more [SEPARATOR] pattern at_ r) by (unfold r; lia). rewrite Nat.sub_diag.
    case_bool_decide.
    + assert (forall k, descend (at_ + r + 1) k ++ descend (at_ + r) 0 = descend (at_ + r) (S k)) as ->.
      { intros k. induction k as [|k IH]; [rewrite descend_S; unfold descend at 1; cbn; f_equal; lia|]. rewrite descend_S, <- app_comm_cons, IH.
        rewrite (descend_S (at_ + r) (S k)). f_equal. lia. }
      apply greedy_app; [done|]. intros e He. specialize (H2 e He). lia.
    + apply greedy_app; [done|]. intros e He. specialize (H2 e He). lia.
  - rewrite dashes_single. apply Hsingle.
  - unfold DASHES. change (ends_of (Star [SEPARATOR] :: [Star [VALUE; SEPARATOR]]) pattern at_) with
      (flat_map (fun t => ends_of [Star [VALUE; SEPARATOR]] pattern (at_ + t)) (rev (seq 0 (S r)))).
    set (m := run_of [VALUE; SEPARATOR] pattern at_).
    assert (r <= m)%nat as Hrm by (apply run_of_subset; set_solver).
    assert (flat_map (fun t => ends_of [Star [VALUE; SEPARATOR]] pattern (at_ + t)) (rev (seq 0 (S r))) =
      flat_map (fun t => descend (at_ + t) (m - t)) (rev (seq 0 (S r)))) as ->.
    { apply flat_map_ext_in. intros t Ht%elem_of_down. rewrite ends_of_star, run_of_more by (unfold m in *; lia). done. }
    rewrite flat_down. destruct (greedy_blocks at_ m r Hrm) as [H1 H2]. apply greedy_app; [done|].
    intros e He. specialize (H2 e He). lia.
  - rewrite dashes_single. apply Hsingle.
Qed.

(** * The search *)

Lemma fits_cons n nargs pattern at_ c counts :
  fits (n :: nargs) (drop at_ pattern) (c :: counts) <->
  (at_ + c)%nat ∈ ends_of (tokens n) pattern at_ /\ fits nargs (drop (at_ + c) pattern) counts.
Proof.
  cbn [fits]. rewrite drop_drop, ends_of_spec. split.
  - intros (Hc & Hm & Hf). split; [|done]. exists (take c (drop at_ pattern)). split; [exists (drop c (drop at_ pattern)); by rewrite take_drop|].
    rewrite length_take. split; [lia|done].
  - intros [(s & [r Hp] & Hc & Hm) Hf]. assert (c = length s) as -> by lia. rewrite Hp, length_app, take_app_length. split; [lia|done].
Qed.

Lemma matched_spec nargs pattern at_ :
  match matched nargs pattern at_ with
  | Some counts => fits nargs (drop at_ pattern) counts /\ forall other, fits nargs (drop at_ pattern) other -> lex_le other counts
  | None => forall other, ~ fits nargs (drop at_ pattern) other
  end.
Proof.
  revert at_. induction nargs as [|n nargs IH]; intros at_.
  { cbn. split; [done|]. by intros [|]. }
  cbn [matched]. set (f := fun end_ => counts ← matched nargs pattern end_; Some ((end_ - at_)%nat :: counts)).
  assert (forall e, e ∈ ends_of (tokens n) pattern at_ -> (at_ <= e)%nat) as Hends by (intros e (s & _ & -> & _)%ends_of_spec; lia).
  destruct (find_map f (ends_of (tokens n) pattern at_)) as [counts|] eqn:E.
  - apply find_map_Some in E as (l1 & e & l2 & El & Hf & Hno). unfold f in Hf.
    assert (e ∈ ends_of (tokens n) pattern at_) as Hin by (rewrite El; apply elem_of_app; right; left).
    pose proof (Hends e Hin) as Hle. pose proof (IH e) as IHe. destruct (matched nargs pattern e) as [rest|]; [|done].
    injection Hf as <-. destruct IHe as [Hfit Hmax]. split.
    + apply fits_cons. replace (at_ + (e - at_))%nat with e by lia. done.
    + intros [|c other] Ho; [done|]. apply fits_cons in Ho as [Hc Ho]. cbn [lex_le].
      destruct (Nat.lt_trichotomy c (e - at_)) as [Hlt|[->|Hgt]]; [by left|right; split; [done|]; apply Hmax|exfalso].
      * by replace (at_ + (e - at_))%nat with e in Ho by lia.
      * assert ((at_ + c)%nat ∈ l1) as Hl1.
        { rewrite El in Hc. apply elem_of_app in Hc as [?|[Hc|Hc]%elem_of_cons]; [done|lia|].
          apply (tokens_greedy n pattern at_ l1 e l2); [done|done|lia]. }
        specialize (Hno _ Hl1). unfold f in Hno. specialize (IH (at_ + c)%nat). destruct (matched nargs pattern (at_ + c)); [done|].
        by apply (IH other).
  - intros [|c other] Ho; [done|]. apply fits_cons in Ho as [Hc Ho]. pose proof (find_map_None _ _ E _ Hc) as Hnone. unfold f in Hnone.
    specialize (IH (at_ + c)%nat). destruct (matched nargs pattern (at_ + c)); [done|]. by apply (IH other).
Qed.

Lemma pop_zeros_spec counts : exists zeros, counts = pop_zeros counts ++ zeros /\ Forall (fun c => c = 0%nat) zeros /\ last (pop_zeros counts) <> Some 0%nat.
Proof.
  unfold pop_zeros. destruct (trim_start_suffix (Nat.eqb 0) (reverse counts)) as (p & E & Hp).
  exists (reverse p). split; [|split].
  - rewrite <- reverse_app, <- E. by rewrite reverse_involutive.
  - apply Forall_reverse. eapply Forall_impl; [exact Hp|]. intros c Hc%Nat.eqb_eq. done.
  - rewrite last_reverse. destruct (trim_start (Nat.eqb 0) (reverse counts)) as [|c l] eqn:Et; [done|]. cbn. intros [= ->].
    by apply trim_start_head in Et.
Qed.

(** The counts are for the longest prefix of the positionals whose expressions match the start of
    the pattern one after the other.  Of the counts that do they are the greatest, compared from the
    first positional on.  Where an option follows, positionals at the end that took nothing are left
    for a later run. *)
Theorem match_partial_exact nargs pattern :
  exists n counts, (n <= length nargs)%nat /\
    fits (take n nargs) pattern counts /\ (forall other, fits (take n nargs) pattern other -> lex_le other counts) /\
    (forall m other, (n < m <= length nargs)%nat -> ~ fits (take m nargs) pattern other) /\
    if bool_decide (pattern !! sum_list counts = Some OPTION)
    then exists zeros, counts = match_partial nargs pattern ++ zeros /\ Forall (fun c => c = 0%nat) zeros /\
      last (match_partial nargs pattern) <> Some 0%nat
    else match_partial nargs pattern = counts.
Proof.
  unfold match_partial. destruct (find_map _ _) as [counts|] eqn:E.
  - apply find_map_Some in E as (l1 & n & l2 & El & Hm & Hno). pose proof (matched_spec (take n nargs) pattern 0) as Hs. rewrite Hm in Hs.
    destruct Hs as [Hfit Hmax]. rewrite drop_0 in Hfit, Hmax.
    assert (n ∈ rev (seq 1 (length nargs))) as Hn by (rewrite El; apply elem_of_app; right; left).
    rewrite list_elem_of_In, <- in_rev, in_seq in Hn. exists n, counts. split; [lia|]. split; [done|]. split; [done|]. split.
    + intros m other Hm' Hf. assert (m ∈ l1) as Hl1.
      { assert (m ∈ rev (seq 1 (length nargs))) as Hin by (rewrite list_elem_of_In, <- in_rev, in_seq; lia).
        assert (greedy (rev (seq 1 (length nargs)))) as Hg.
        { destruct (length nargs) as [|k]; [intros [|] ? ? ? [=]|]. assert (rev (seq 1 (S k)) = descend 1 k) as ->; [|apply greedy_descend].
          unfold descend. by rewrite <- seq_shift, map_rev. }
        rewrite El in Hin. apply elem_of_app in Hin as [?|[->|Hin]%elem_of_cons]; [done|lia|]. apply (Hg l1 n l2); [done|done|lia]. }
      specialize (Hno m Hl1). pose proof (matched_spec (take m nargs) pattern 0) as Hs. rewrite Hno, drop_0 in Hs. by apply (Hs other).
    + case_bool_decide; [|done]. apply pop_zeros_spec.
  - exists 0%nat, []. split; [lia|]. split; [done|]. split; [by intros [|]|]. split.
    + intros m other Hm Hf. assert (m ∈ rev (seq 1 (length nargs))) as Hin by (rewrite list_elem_of_In, <- in_rev, in_seq; lia).
      pose proof (find_map_None _ _ E m Hin) as Hnone. cbn in Hnone. pose proof (matched_spec (take m nargs) pattern 0) as Hs.
      rewrite Hnone, drop_0 in Hs. by apply (Hs other).
    + case_bool_decide; [|done]. exists []. done.
Qed.

(** Two positionals share the values before an option; the last waits for those after it. *)
Example files_then_options :
  match_partial [OfArity One; OfArity Any; OfArity Optional] [VALUE; VALUE; SEPARATOR; VALUE; OPTION] = [1; 3]%nat.
Proof. vm_compute. reflexivity. Qed.
