(* ===== verification/ArgParse.v ===== *)
(** The parse of one command line: crates/cli/src/args/parse.rs, and the types of args.rs.

    Each argument is classified as an option or a value; then options and positionals are consumed
    from left to right.  What the help layer prints ([usage_text] and the like) and the check of a
    caller, with the state its closure holds, are inputs.  [Panics] is a panic, or that the fuel ran
    out: [command_line_total] shows that there is neither.  [parse_written] shows that settings written as
    arguments are read back. *)

From S2P Require Import Prelude RustStr Text CodePoints Utf8 Nargs.

(** * Data: args.rs *)

(** One argument: its text for matching and messages, and its bytes. *)
Record Arg := { text : str; raw : list Z }.

#[export] Instance Arg_eq_dec : EqDecision Arg.
Proof. solve_decision. Defined.

Definition new_arg (raw : list Z) : Arg := {| text := from_utf8_lossy raw; raw := raw |}.

Definition c_equals : char := 61.
Definition c_dash : char := 45.

(** The part after the first [=]. *)
Definition after_equals (a : Arg) : Arg :=
  let start := match position (is_char c_equals) (raw a) with Some at_ => S at_ | None => length (raw a) end in
  new_arg (drop start (raw a)).

(** An argument from a part of another's text. *)
Definition arg_of_text (s : str) : Arg := new_arg (as_bytes s).

(** [IntArg] of app/args.rs. *)
Record IntArg := { int_negative : bool; int_digits : str }.

Inductive Value := VFlag | VText (a : Arg) | VNames (names : list str) | VList (l : list Arg) | VInt (n : IntArg).

(** The values of a run, by destination. *)
Definition Namespace : Type := list (str * Value).

Definition ns_set (ns : Namespace) (dest : str) (value : Value) : Namespace :=
  List.filter (fun entry => negb (bool_decide (entry.1 = dest))) ns ++ [(dest, value)].

Definition ns_get (ns : Namespace) (dest : str) : option Value :=
  snd <$> List.find (fun entry => bool_decide (entry.1 = dest)) ns.

Definition ns_list (ns : Namespace) (dest : str) : list Arg :=
  match ns_get ns dest with Some (VList l) => l | _ => [] end.

Definition ns_append (ns : Namespace) (dest : str) (a : Arg) : Namespace := ns_set ns dest (VList (ns_list ns dest ++ [a])).

(** The members of the group are the actions from [g_first] up to [g_end]. *)
Record Group := { g_first : nat; g_end : nat; g_required : bool }.

(** A read operation's parser comes from its declaration; here it is given with it. *)
Inductive Parser := MkParser (prog : str) (actions : list Action) (group : option Group)
with Action := MkAction (strings : list str) (dest : str) (metavar : option str) (kind : Kind) (required : bool)
with Kind :=
| Help
| Flag
| KValue (convert : Arg -> result Value str) (choices : list str) (repeat_ : bool)
| Positional (arity : Arity)
| Commands (commands : list Command)
| Version (version : str)
with Command := MkCommand (name : str) (form : Form)
with Form := Built (parser : Parser) | Read (op : str) (parser : Parser).

Definition prog (p : Parser) : str := let 'MkParser prog _ _ := p in prog.
Definition actions (p : Parser) : list Action := let 'MkParser _ actions _ := p in actions.
Definition group (p : Parser) : option Group := let 'MkParser _ _ group := p in group.
Definition strings (a : Action) : list str := let 'MkAction strings _ _ _ _ := a in strings.
Definition dest (a : Action) : str := let 'MkAction _ dest _ _ _ := a in dest.
Definition metavar (a : Action) : option str := let 'MkAction _ _ metavar _ _ := a in metavar.
Definition kind (a : Action) : Kind := let 'MkAction _ _ _ kind _ := a in kind.
Definition required (a : Action) : bool := let 'MkAction _ _ _ _ required := a in required.
Definition command_name (c : Command) : str := let 'MkCommand name _ := c in name.
Definition command_form (c : Command) : Form := let 'MkCommand _ form := c in form.

(** [Command::parser]. *)
Definition command_parser (c : Command) : Parser := match command_form c with Built p => p | Read _ p => p end.

(** Each option string with its action, in declaration order. *)
Definition option_strings (p : Parser) : list (nat * str) :=
  concat (imap (fun index a => map (pair index) (strings a)) (actions p)).

Definition option_named (p : Parser) (name : str) : option nat :=
  fst <$> List.find (fun entry => bool_decide (entry.2 = name)) (option_strings p).

(** The other members of the group of an action. *)
Definition conflicts (p : Parser) (index : nat) : list nat :=
  match group p with
  | None => []
  | Some g =>
      let grouped := ((g_first g <=? index) && (index <? g_end g))%nat in
      List.filter (fun other => grouped && negb (other =? index)%nat) (seq (g_first g) (g_end g - g_first g))
  end.

(** The name an error message gives an action. *)
Definition action_name (a : Action) : str :=
  if bool_decide (strings a = []) then default (dest a) (metavar a) else join_with [c_slash] (strings a).

Inductive Chosen := Ported (path : list str) (ns : Namespace) | ReadOp (op : str) (ns : Namespace).

Record Parsed := { top : Namespace; parsed_chosen : Chosen }.

Inductive Exit := HelpText (t : str) | Usage (t : str).

(** What a step of the parse gives. *)
Inductive Outcome (A : Type) := Done (a : A) | Exits (e : Exit) | Panics.
Arguments Done {A} a.
Arguments Exits {A} e.
Arguments Panics {A}.

Definition bind {A B} (m : Outcome A) (k : A -> Outcome B) : Outcome B :=
  match m with Done a => k a | Exits e => Exits e | Panics => Panics end.

Notation "'do!' x := m 'in' k" := (bind m (fun x => k)) (at level 10, x pattern, m at level 100, k at level 200) : rs_scope.

(** [None] is the panic of an index out of range. *)
Definition expect {A} (o : option A) : Outcome A := match o with Some a => Done a | None => Panics end.

(** * Classification *)

Record Tuple := { t_action : option nat; t_option : str; t_equals : bool; t_explicit : option Arg }.

Definition tuple (action : option nat) (option_ : str) (equals : bool) (explicit : option Arg) : Tuple :=
  {| t_action := action; t_option := option_; t_equals := equals; t_explicit := explicit |}.

(** [-] and then digits, with an optional decimal point; one final line break is allowed. *)
Definition negative_number (text : str) : bool :=
  let text := if ends_with_char (is_char c_lf) text then removelast text else text in
  match text with
  | [] => false
  | c :: number =>
      if negb (c =? c_dash)%Z then false
      else
        let '(whole, fraction) := default (number, []) (split_once c_dot number) in
        if existsb (is_char c_dot) number
        then all is_ascii_digit whole && negb (bool_decide (fraction = [])) && all is_ascii_digit fraction
        else negb (bool_decide (whole = [])) && all is_ascii_digit whole
  end.

(** The option strings that an argument abbreviates. *)
Definition prefixed (p : Parser) (a : Arg) : list Tuple :=
  let '(prefix_, explicit) :=
    match split_once c_equals (text a) with
    | Some (prefix_, _) => (prefix_, Some (after_equals a))
    | None => (text a, None)
    end in
  let equals := bool_decide (is_Some explicit) in
  if starts_with (lit "--") (text a) then
    map (fun '(i, s) => tuple (Some i) s equals explicit) (List.filter (fun '(_, s) => starts_with prefix_ s) (option_strings p))
  else
    let short := take 2 (text a) in
    let rest := arg_of_text (drop 2 (text a)) in
    omap (fun '(i, s) =>
      if bool_decide (s = short) then Some (tuple (Some i) s false (Some rest))
      else if starts_with prefix_ s then Some (tuple (Some i) s equals explicit) else None) (option_strings p).

(** The readings of an argument as an option, or [None] when it is a value. *)
Definition optional (p : Parser) (a : Arg) : option (list Tuple) :=
  if negb (starts_with [c_dash] (text a)) then None
  else
    match option_named p (text a) with
    | Some action => Some [tuple (Some action) (text a) false None]
    | None =>
        if bool_decide (length (text a) = 1%nat) then None
        else
          match (split_once c_equals (text a) ≫= fun '(name, _) => (fun action => (name, action)) <$> option_named p name) with
          | Some (name, action) => Some [tuple (Some action) name true (Some (after_equals a))]
          | None =>
              match prefixed p a with
              | [] =>
                  if negative_number (text a) || existsb (is_char c_space) (text a) then None
                  else Some [tuple None (text a) false None]
              | tuples => Some tuples
              end
          end
    end.

(** The pattern of the arguments, and the readings of the options by their places, in order. *)
Definition classify_step (p : Parser) (acc : list Z * list (nat * list Tuple)) (cell : nat * Arg) : list Z * list (nat * list Tuple) :=
  let '(pattern, options) := acc in
  let '(index, a) := cell in
  if bool_decide (SEPARATOR ∈ pattern) then (pattern ++ [VALUE], options)
  else if bool_decide (text a = lit "--") then (pattern ++ [SEPARATOR], options)
  else
    match optional p a with
    | Some tuples => (pattern ++ [OPTION], options ++ [(index, tuples)])
    | None => (pattern ++ [VALUE], options)
    end.

Definition classify (p : Parser) (args : list Arg) : list Z * list (nat * list Tuple) :=
  foldl (classify_step p) ([], []) (imap pair args).

(** * The run *)

Record Known (S : Type) := { k_namespace : Namespace; k_extras : list str; k_chosen : option Chosen; k_state : S }.
Arguments k_namespace {S} k.
Arguments k_extras {S} k.
Arguments k_chosen {S} k.
Arguments k_state {S} k.

(** What changes during a run: what is left of the options and positionals, and what is set. *)
Record Run (S : Type) := {
  options : list (nat * list Tuple);
  positionals : list nat;
  namespace : Namespace;
  seen : list bool;
  used : list bool;
  extras : list str;
  sub_extras : list str;
  chosen : option Chosen;
  state : S
}.
Arguments options {S} r.
Arguments positionals {S} r.
Arguments namespace {S} r.
Arguments seen {S} r.
Arguments used {S} r.
Arguments extras {S} r.
Arguments sub_extras {S} r.
Arguments chosen {S} r.
Arguments state {S} r.

Definition with_options {S} (r : Run S) (o : list (nat * list Tuple)) : Run S :=
  Build_Run S o (positionals r) (namespace r) (seen r) (used r) (extras r) (sub_extras r) (chosen r) (state r).
Definition with_positionals {S} (r : Run S) (p : list nat) : Run S :=
  Build_Run S (options r) p (namespace r) (seen r) (used r) (extras r) (sub_extras r) (chosen r) (state r).
Definition with_namespace {S} (r : Run S) (ns : Namespace) : Run S :=
  Build_Run S (options r) (positionals r) ns (seen r) (used r) (extras r) (sub_extras r) (chosen r) (state r).
Definition with_seen {S} (r : Run S) (marks : list bool) : Run S :=
  Build_Run S (options r) (positionals r) (namespace r) marks (used r) (extras r) (sub_extras r) (chosen r) (state r).
Definition with_used {S} (r : Run S) (marks : list bool) : Run S :=
  Build_Run S (options r) (positionals r) (namespace r) (seen r) marks (extras r) (sub_extras r) (chosen r) (state r).
Definition with_extras {S} (r : Run S) (more : list str) : Run S :=
  Build_Run S (options r) (positionals r) (namespace r) (seen r) (used r) (extras r ++ more) (sub_extras r) (chosen r) (state r).
Definition with_state {S} (r : Run S) (s : S) : Run S :=
  Build_Run S (options r) (positionals r) (namespace r) (seen r) (used r) (extras r) (sub_extras r) (chosen r) s.
Definition with_chosen {S} (r : Run S) (sub : list str) (c : Chosen) (s : S) : Run S :=
  Build_Run S (options r) (positionals r) (namespace r) (seen r) (used r) (extras r) sub (Some c) s.

#[local] Open Scope rs_scope.

(** The part of a list from one index to another. *)
Definition slice {A} (l : list A) (a b : nat) : Outcome (list A) :=
  if ((a <=? b) && (b <=? length l))%nat then Done (take (b - a) (drop a l)) else Panics.

(** [l\[index\] = true]. *)
Definition mark (l : list bool) (index : nat) : Outcome (list bool) :=
  if (index <? length l)%nat then Done (<[index := true]> l) else Panics.

(** The first of the indexes that is marked. *)
Fixpoint first_used (used : list bool) (others : list nat) : Outcome (option nat) :=
  match others with
  | [] => Done None
  | o :: others => do! b := expect (used !! o) in if (b : bool) then Done (Some o) else first_used used others
  end.

Fixpoint each {A B} (f : A -> Outcome B) (l : list A) : Outcome (list B) :=
  match l with
  | [] => Done []
  | x :: l => do! y := f x in do! ys := each f l in Done (y :: ys)
  end.

(** [Vec::remove] of the first separator. *)
Definition without_separator (values : list Arg) : list Arg :=
  match position (fun a => bool_decide (text a = lit "--")) values with
  | Some at_ => take at_ values ++ drop (S at_) values
  | None => values
  end.

(** A positional of one value keeps its text; an optional one that took nothing keeps no value. *)
Definition positional_value (arity : Arity) (values : list Arg) : option Value :=
  match arity, values with
  | One, [one] | Optional, [one] => Some (VText one)
  | Optional, [] => None
  | _, _ => Some (VList values)
  end.

(** The command that a parse chose: a nested choice with the name of the command first. *)
Definition chosen_of (c : Command) (ns : Namespace) (nested : option Chosen) : Chosen :=
  match command_form c, nested with
  | Read op _, _ => ReadOp op ns
  | Built _, Some (Ported path ns) => Ported (command_name c :: path) ns
  | Built _, Some (ReadOp op ns) => ReadOp op ns
  | Built _, None => Ported [command_name c] ns
  end.

Section Parse.
Context {S : Type} (check : S -> str -> Value -> S * result Value str).
Context (help_text usage_text : Parser -> str) (version_text : str -> str).

(** The usage error of a parser. *)
Definition error (parser : Parser) (message : str) : Exit :=
  Usage (usage_text parser ++ prog parser ++ lit ": error: " ++ message ++ [c_lf]).

Section Steps.
(** The parse of a subcommand's arguments, this parser and its arguments, and their pattern. *)
Context (sub : Parser -> list Arg -> S -> Outcome (Known S)) (parser : Parser) (args : list Arg) (pattern : list Z).

Definition action_error (a : Action) (message : str) : Exit :=
  error parser (lit "argument " ++ action_name a ++ lit ": " ++ message).

Definition takes_value (a : Action) : bool := match kind a with KValue _ _ _ => true | _ => false end.

Definition nargs (index : nat) : Outcome Nargs :=
  do! a := expect (actions parser !! index) in
  Done (match kind a with Positional arity => OfArity arity | _ => Command_ end).

Definition checked_choice (r : Run S) (a : Action) (value : Value) (choices : list str) (first : Arg)
    : Outcome (Run S * option Value) :=
  if bool_decide (choices = []) || bool_decide (text first ∈ choices) then Done (r, Some value)
  else
    Exits (action_error a (lit "invalid choice: " ++ quoted_str (text first) ++ lit " (choose from " ++ join_with (lit ", ") choices ++ lit ")")).

Definition convert (r : Run S) (a : Action) (values : list Arg) : Outcome (Run S * option Value) :=
  match kind a with
  | Help | Flag | Version _ => Done (r, Some VFlag)
  | Positional arity => Done (r, positional_value arity values)
  | KValue converter choices _ =>
      do! first := expect (head values) in
      match converter first with
      | Err m => Exits (action_error a m)
      | Ok v =>
          match check (state r) (dest a) v with
          | (_, Err m) => Exits (action_error a m)
          | (s, Ok v) => checked_choice (with_state r s) a v choices first
          end
      end
  | Commands commands =>
      do! first := expect (head values) in
      checked_choice r a (VText first) (map command_name commands) first
  end.

(** Notes that the run names the action, and refuses a second member of its group. *)
Definition use (r : Run S) (index : nat) (a : Action) : Outcome (Run S) :=
  do! marks := mark (used r) index in
  do! other := first_used marks (conflicts parser index) in
  match other with
  | None => Done (with_used r marks)
  | Some o =>
      do! b := expect (actions parser !! o) in
      Exits (action_error a (lit "not allowed with argument " ++ action_name b))
  end.

Definition choose (r : Run S) (commands : list Command) (values : list Arg) : Outcome (Run S) :=
  do! first := expect (head values) in
  match List.find (fun c => bool_decide (command_name c = text first)) commands with
  | None => Done r
  | Some c =>
      do! known := sub (command_parser c) (drop 1 values) (state r) in
      Done (with_chosen r (k_extras known) (chosen_of c (k_namespace known) (k_chosen known)) (k_state known))
  end.

Definition take_action (r : Run S) (index : nat) (values : list Arg) : Outcome (Run S) :=
  do! marks := mark (seen r) index in
  do! a := expect (actions parser !! index) in
  do! (r, value) := convert (with_seen r marks) a values in
  do! r := (if negb (bool_decide (strings a = [])) || negb (bool_decide (values = [])) then use r index a else Done r) in
  match kind a, value with
  | Help, _ => Exits (HelpText (help_text parser))
  | Version version, _ => Exits (HelpText (version_text version))
  | Commands commands, _ => choose r commands values
  | KValue _ _ true, Some (VText arg) => Done (with_namespace r (ns_append (namespace r) (dest a) arg))
  | _, Some value => Done (with_namespace r (ns_set (namespace r) (dest a) value))
  | _, None => Done r
  end.

Fixpoint take_positionals (r : Run S) (rest : list (nat * Nargs)) (counts : list nat) (at_ : nat) {struct counts} : Outcome (Run S * nat) :=
  match counts, rest with
  | [], _ => Done (r, at_)
  | _ :: _, [] => Panics
  | count :: counts, (index, n) :: rest =>
      do! values := slice args at_ (at_ + count) in
      do! cells := slice pattern at_ (at_ + count) in
      do! r := take_action r index (if strips_separator n cells then without_separator values else values) in
      take_positionals r rest counts (at_ + count)
  end.

Definition consume_positionals (r : Run S) (start : nat) : Outcome (Run S * nat) :=
  do! expressions := each nargs (positionals r) in
  do! cells := slice pattern start (length pattern) in
  let counts := match_partial expressions cells in
  do! (r', stop) := take_positionals r (zip (positionals r) expressions) counts start in
  Done (with_positionals r' (drop (length counts) (positionals r)), stop).

(** The count of values that an action takes from [from] on. *)
Definition match_argument (a : Action) (from : nat) : Outcome nat :=
  if negb (takes_value a) then Done 0%nat
  else if bool_decide (pattern !! from = Some VALUE) then Done 1%nat
  else Exits (action_error a (lit "expected one argument")).

(** After a short flag, the next character of the same argument names the next short option. *)
Definition next_short (a : Action) (reading : Tuple) (value : Arg) : Outcome (option Tuple) :=
  let long := bool_decide (as_bytes (t_option reading) !! 1%nat = Some c_dash) in
  match text value with
  | c :: rest =>
      if long || t_equals reading || (c =? c_dash)%Z
      then Exits (action_error a (lit "ignored explicit argument " ++ quoted_str (text value)))
      else
        let option_ := [c_dash; c] in
        match option_named parser option_ with
        | None => Done None
        | Some next =>
            Done (Some (match rest with
                        | [] => tuple (Some next) option_ false None
                        | d :: after =>
                            if (d =? c_equals)%Z then tuple (Some next) option_ true (Some (arg_of_text after))
                            else tuple (Some next) option_ false (Some (arg_of_text rest))
                        end))
        end
  | [] => Exits (action_error a (lit "ignored explicit argument " ++ quoted_str (text value)))
  end.

(** The actions that an option names, with their values, and the index after them. *)
Fixpoint match_optional (fuel : nat) (r : Run S) (start : nat) (taken : list (nat * list Arg)) (reading : Tuple)
    : Outcome (Run S * list (nat * list Arg) * nat) :=
  match fuel with
  | O => Panics
  | Datatypes.S fuel =>
      match t_action reading with
      | None => do! a := expect (args !! start) in Done (with_extras r [text a], taken, (start + 1)%nat)
      | Some index =>
          do! a := expect (actions parser !! index) in
          match t_explicit reading with
          | None =>
              do! count := match_argument a (start + 1) in
              do! values := slice args (start + 1) (start + 1 + count) in
              Done (r, taken ++ [(index, values)], (start + 1 + count)%nat)
          | Some value =>
              if takes_value a then Done (r, taken ++ [(index, [value])], (start + 1)%nat)
              else
                do! next := next_short a reading value in
                match next with
                | None => Done (with_extras r [c_dash :: text value], taken ++ [(index, [])], (start + 1)%nat)
                | Some next => match_optional fuel r start (taken ++ [(index, [])]) next
                end
          end
      end
  end.

(** A bound of the readings that one argument has. *)
Definition readings (reading : Tuple) : nat :=
  match t_explicit reading with Some value => Datatypes.S (Datatypes.S (length (text value))) | None => 1%nat end.

Fixpoint take_each (r : Run S) (taken : list (nat * list Arg)) : Outcome (Run S) :=
  match taken with
  | [] => Done r
  | (index, values) :: taken => do! r := take_action r index values in take_each r taken
  end.

Definition consume_optional (r : Run S) (start : nat) : Outcome (Run S * nat) :=
  let tuples := default [] (snd <$> List.find (fun entry => entry.1 =? start)%nat (options r)) in
  let r := with_options r (List.filter (fun entry => negb (entry.1 =? start)%nat) (options r)) in
  match tuples with
  | [] => Done (r, (start + 1)%nat)
  | [first] =>
      do! (r, taken, stop) := match_optional (readings first) r start [] first in
      do! r := take_each r taken in
      Done (r, stop)
  | _ =>
      do! a := expect (args !! start) in
      Exits (error parser (lit "ambiguous option: " ++ text a ++ lit " could match " ++ join_with (lit ", ") (map t_option tuples)))
  end.

(** The values before the option at [next]: the positionals take what they match. *)
Definition consume_values (r : Run S) (start next : nat) : Outcome (Run S * option nat) :=
  if (start =? next)%nat then Done (r, None)
  else
    do! (r, end_) := consume_positionals r start in
    if (start <? end_)%nat then Done (r, Some end_)
    else
      do! values := slice args start next in
      Done (with_extras r (map text values), None).

Fixpoint consume_options (fuel : nat) (r : Run S) (start : nat) : Outcome (Run S * nat) :=
  match List.find (fun entry => start <=? entry.1)%nat (options r) with
  | None => Done (r, start)
  | Some (next, _) =>
      match fuel with
      | O => Panics
      | Datatypes.S fuel =>
          do! (r, end_) := consume_values r start next in
          match end_ with
          | Some end_ => consume_options fuel r end_
          | None => do! (r, stop) := consume_optional r next in consume_options fuel r stop
          end
      end
  end.

(** Consumes values and options alternately until no option is left, then the last values. *)
Definition consume_all (r : Run S) : Outcome (Run S) :=
  do! (r, start) := consume_options (length args) r 0 in
  do! (r, stop) := consume_positionals r start in
  do! values := slice args stop (length args) in
  Done (with_extras r (map text values)).

(** Every required action that the run did not see, then the required group. *)
Definition check_required (r : Run S) : Outcome unit :=
  do! missing := each (fun cell : nat * Action =>
    let '(index, a) := cell in
    if required a then do! b := expect (seen r !! index) in Done (if (b : bool) then [] else [action_name a]) else Done [])
    (imap pair (actions parser)) in
  if negb (bool_decide (concat missing = []))
  then Exits (error parser (lit "the following arguments are required: " ++ join_with (lit ", ") (concat missing)))
  else
    match group parser with
    | None => Done tt
    | Some g =>
        if negb (g_required g) then Done tt
        else
          let members := seq (g_first g) (g_end g - g_first g) in
          do! found := first_used (used r) members in
          match found with
          | Some _ => Done tt
          | None =>
              do! names := each (fun m => do! a := expect (actions parser !! m) in Done (action_name a)) members in
              Exits (error parser (lit "one of the arguments " ++ join_with [c_space] names ++ lit " is required"))
          end
    end.
End Steps.

(** The run before the first argument. *)
Definition new_run (parser : Parser) (options : list (nat * list Tuple)) (s : S) : Run S :=
  let marks := repeat false (length (actions parser)) in
  let positionals :=
    omap (fun '(index, a) => if bool_decide (strings a = []) then Some index else None) (imap pair (actions parser)) in
  Build_Run S options positionals [] marks marks [] [] None s.

Definition known (r : Run S) : Known S :=
  {| k_namespace := namespace r; k_extras := extras r ++ sub_extras r; k_chosen := chosen r; k_state := state r |}.

(** The fuel bounds the depth of the subcommands: each has fewer arguments than its command. *)
Fixpoint parse_known (fuel : nat) (parser : Parser) (args : list Arg) (s : S) : Outcome (Known S) :=
  match fuel with
  | O => Panics
  | Datatypes.S fuel =>
      let '(pattern, options) := classify parser args in
      do! r := consume_all (parse_known fuel) parser args pattern (new_run parser options s) in
      do! _ := check_required parser r in
      Done (known r)
  end.

Definition no_extras (parser : Parser) (extras : list str) : Outcome unit :=
  if bool_decide (extras = []) then Done tt
  else Exits (error parser (lit "unrecognized arguments: " ++ join_with [c_space] extras)).

(** The values of a parser that has no commands, each value through the caller's check. *)
Definition parse_alone_checked (parser : Parser) (args : list Arg) (s : S) : Outcome Namespace :=
  do! k := parse_known (Datatypes.S (length args)) parser args s in
  do! _ := no_extras parser (k_extras k) in
  Done (k_namespace k).

End Parse.

(** The check of a parse that has none. *)
Definition unchecked (s : unit) (dest : str) (value : Value) : unit * result Value str := (s, Ok value).

Definition parse (help_text usage_text : Parser -> str) (version_text : str -> str) (top : Parser) (args : list Arg) : Outcome Parsed :=
  do! k := parse_known unchecked help_text usage_text version_text (S (length args)) top args tt in
  do! c := expect (k_chosen k) in
  do! _ := no_extras usage_text top (k_extras k) in
  Done {| top := k_namespace k; parsed_chosen := c |}.

Definition parse_alone (help_text usage_text : Parser -> str) (version_text : str -> str) (parser : Parser) (args : list Arg) : Outcome Namespace :=
  parse_alone_checked unchecked help_text usage_text version_text parser args tt.

(** * No panic *)

(** The step does not panic, and what it gives has the property. *)
Definition good {A} (P : A -> Prop) (m : Outcome A) : Prop :=
  match m with Done a => P a | Exits _ => True | Panics => False end.

Lemma good_bind {A B} (P : A -> Prop) (Q : B -> Prop) m (k : A -> Outcome B) :
  good P m -> (forall a, P a -> good Q (k a)) -> good Q (bind m k).
Proof. destruct m; cbn; auto. Qed.

Lemma good_weaken {A} (P Q : A -> Prop) m : good P m -> (forall a, P a -> Q a) -> good Q m.
Proof. destruct m; cbn; auto. Qed.

Lemma good_expect {A} (P : A -> Prop) o a : o = Some a -> P a -> good P (expect o).
Proof. by intros ->. Qed.

Lemma good_slice {A} (l : list A) a b : (a <= b <= length l)%nat -> slice l a b = Done (take (b - a) (drop a l)).
Proof. intros H. unfold slice. destruct (Nat.leb_spec a b), (Nat.leb_spec b (length l)); done || lia. Qed.

Lemma good_mark l index : (index < length l)%nat -> mark l index = Done (<[index := true]> l).
Proof. intros H. unfold mark. destruct (Nat.ltb_spec index (length l)); done || lia. Qed.

Lemma first_used_good used others : Forall (fun o => o < length used)%nat others ->
  good (fun found => match found with Some o => o ∈ others | None => True end) (first_used used others).
Proof.
  induction 1 as [|o others Ho _ IH]; [done|]. cbn [first_used]. apply lookup_lt_is_Some in Ho as [b Hb].
  rewrite Hb. cbn [expect bind]. destruct b; [left|]. eapply good_weaken; [exact IH|]. intros [o'|]; [by right|done].
Qed.

Lemma each_good {A B} (P : A -> B -> Prop) (f : A -> Outcome B) l : (forall x, x ∈ l -> good (P x) (f x)) -> good (Forall2 P l) (each f l).
Proof.
  induction l as [|x l IH]; intros H; cbn [each]; [by constructor|]. eapply good_bind; [apply H; left|]. intros y Hy.
  eapply good_bind; [apply IH; intros; apply H; by right|]. intros ys Hys. by constructor.
Qed.

(** ** Arguments *)

(** What the types of an argument give: its text is a [String], its bytes are bytes. *)
Definition arg_ok (a : Arg) : Prop := is_str (text a) /\ Forall is_byte (raw a).

Lemma lossy_is_str bytes : Forall is_byte bytes -> is_str (from_utf8_lossy bytes).
Proof.
  unfold from_utf8_lossy. generalize (S (length bytes)). intros fuel. revert bytes. induction fuel as [|fuel IH]; intros bytes Hb; [constructor|].
  cbn [lossy_steps]. pose proof (valid_prefix_spec (length bytes) bytes Hb (Nat.le_refl _)) as Hv.
  destruct (valid_prefix (length bytes) bytes) as [text rest]. destruct Hv as (Hbytes & Ht & _). destruct rest as [|b0 rest]; [done|].
  apply Forall_app. split; [done|]. constructor; [done|]. destruct (error_len (b0 :: rest)) as [n|]; [|constructor].
  apply IH, Forall_drop. rewrite Hbytes in Hb. by apply Forall_app in Hb as [_ ?].
Qed.

Lemma new_arg_ok bytes : Forall is_byte bytes -> arg_ok (new_arg bytes).
Proof. intros H. split; [by apply lossy_is_str|done]. Qed.

Lemma arg_of_text_ok s : is_str s -> arg_ok (arg_of_text s) /\ text (arg_of_text s) = s.
Proof. intros H. split; [apply new_arg_ok; by apply as_bytes_range|]. by apply lossy_of_text. Qed.

Lemma after_equals_ok a : arg_ok a -> arg_ok (after_equals a).
Proof. intros [_ H]. by apply new_arg_ok, Forall_drop. Qed.

Lemma without_separator_sub values : Forall arg_ok values ->
  Forall arg_ok (without_separator values) /\ (length (without_separator values) <= length values <= S (length (without_separator values)))%nat.
Proof.
  intros H. unfold without_separator. destruct (position _ values); [|split; [done|lia]]. split.
  - apply Forall_app. split; [by apply Forall_take|by apply Forall_drop].
  - rewrite length_app, length_take, length_drop. lia.
Qed.

(** ** Parsers *)

(** What the declared parsers have: the group names actions that exist, and subcommands are not
    named by an option.  The same holds of each subcommand. *)
Inductive parser_ok (p : Parser) : Prop := {
  ok_group : forall g, group p = Some g -> (g_end g <= length (actions p))%nat;
  ok_commands : forall a commands, a ∈ actions p -> kind a = Commands commands -> strings a = [];
  ok_parsers : forall a commands, a ∈ actions p -> kind a = Commands commands -> forall c, c ∈ commands -> parser_ok (command_parser c)
}.

(** An action that the parser has, named by an option string or not. *)
Definition has_action (p : Parser) (index : nat) (named : bool) : Prop :=
  exists a, actions p !! index = Some a /\ bool_decide (strings a = []) = negb named.

Lemma imap_pair_elem {A} (l : list A) i x : (i, x) ∈ imap pair l <-> l !! i = Some x.
Proof.
  rewrite list_elem_of_lookup. split.
  - intros [k Hk]. rewrite list_lookup_imap in Hk. destruct (l !! k) eqn:E; cbn in Hk; [|done]. by injection Hk as <- <-.
  - intros H. exists i. by rewrite list_lookup_imap, H.
Qed.

Lemma option_strings_has p i s : (i, s) ∈ option_strings p -> has_action p i true.
Proof.
  unfold option_strings. rewrite list_elem_of_In, in_concat. intros (l & Hl & Hs). apply list_elem_of_In, list_elem_of_lookup in Hl as [k Hk].
  rewrite list_lookup_imap in Hk. destruct (actions p !! k) as [a|] eqn:E; cbn in Hk; [|done]. injection Hk as <-.
  apply in_map_iff in Hs as (s' & [= <- <-] & Hs). exists a. split; [done|]. apply bool_decide_eq_false. intros E'. by rewrite E' in Hs.
Qed.

Lemma option_named_has p name i : option_named p name = Some i -> has_action p i true.
Proof.
  unfold option_named. destruct (List.find _ _) as [[k s]|] eqn:E; cbn; [|done]. intros [= <-].
  apply find_some in E as [E _]. by apply list_elem_of_In, option_strings_has in E.
Qed.

Definition tuple_ok (p : Parser) (t : Tuple) : Prop :=
  (forall i, t_action t = Some i -> has_action p i true) /\ (forall v, t_explicit t = Some v -> arg_ok v).

Lemma prefixed_ok p a : arg_ok a -> Forall (tuple_ok p) (prefixed p a).
Proof.
  intros Ha. unfold prefixed. destruct (match split_once c_equals (text a) with Some _ => _ | None => _ end) as [pre explicit] eqn:E.
  assert (forall v, explicit = Some v -> arg_ok v) as Hv.
  { intros v ->. destruct (split_once c_equals (text a)) as [[]|]; [|done]. injection E as _ <-. by apply after_equals_ok. }
  destruct (starts_with _ _).
  - apply Forall_forall. intros t Ht. apply list_elem_of_In, in_map_iff in Ht as ([i s] & <- & Hin). split; [|done].
    intros ? [= <-]. apply filter_In in Hin as [Hin _]. by eapply option_strings_has, list_elem_of_In.
  - apply Forall_forall. intros t Ht. apply list_elem_of_omap in Ht as ([i s] & Hin & Ht).
    assert (forall equals e, (forall v, e = Some v -> arg_ok v) -> tuple_ok p (tuple (Some i) s equals e)) as Hok.
    { intros equals e He. split; [|done]. intros ? [= <-]. by eapply option_strings_has. }
    case_bool_decide; [injection Ht as <-|destruct (starts_with _ _); [injection Ht as <-|done]]; apply Hok; [|done].
    intros v [= <-]. apply arg_of_text_ok, Forall_drop, Ha.
Qed.

Lemma optional_ok p a tuples : arg_ok a -> optional p a = Some tuples -> Forall (tuple_ok p) tuples.
Proof.
  intros Ha. unfold optional. destruct (negb _); [done|]. destruct (option_named p (text a)) as [i|] eqn:Ei.
  { intros [= <-]. apply Forall_singleton. split; [|done]. intros ? [= <-]. by eapply option_named_has. }
  case_bool_decide; [done|]. destruct (split_once c_equals (text a) ≫= _) as [[name i]|] eqn:En.
  { intros [= <-]. apply Forall_singleton. destruct (split_once _ _) as [[name' value]|]; cbn in En; [|done].
    destruct (option_named p name') as [j|] eqn:Ej; cbn in En; [|done]. injection En as <- <-.
    split; [intros ? [= <-]; by eapply option_named_has|]. intros v [= <-]. by apply after_equals_ok. }
  pose proof (prefixed_ok p a Ha) as Hp. destruct (prefixed p a); [|by intros [= <-]].
  destruct (_ || _); [done|]. intros [= <-]. apply Forall_singleton. by split.
Qed.

Lemma classify_snoc p args a : classify p (args ++ [a]) = classify_step p (classify p args) (length args, a).
Proof. unfold classify. rewrite imap_app, foldl_app. cbn. by rewrite Nat.add_0_r. Qed.

Lemma classify_ok p args : Forall arg_ok args ->
  let '(pattern, options) := classify p args in
  length pattern = length args /\ Forall (fun entry => (entry.1 < length args)%nat /\ Forall (tuple_ok p) entry.2) options.
Proof.
  induction args as [|a args IH] using rev_ind; intros H; [by split|]. apply Forall_app in H as [H [Ha _]%Forall_cons].
  specialize (IH H). rewrite classify_snoc. destruct (classify p args) as [pattern options]. destruct IH as [Hl Ho].
  assert (Forall (fun entry : nat * list Tuple => (entry.1 < length (args ++ [a]))%nat /\ Forall (tuple_ok p) entry.2) options) as Ho'.
  { eapply Forall_impl; [exact Ho|]. cbn. intros [] []. rewrite length_app. cbn in *. split; [lia|done]. }
  unfold classify_step. repeat case_bool_decide; try (split; [rewrite !length_app; cbn; lia|done]).
  destruct (optional p a) as [tuples|] eqn:E; (split; [rewrite !length_app; cbn; lia|]); [|done].
  apply Forall_app. split; [done|]. apply Forall_singleton. cbn. rewrite length_app. cbn. split; [lia|]. by eapply optional_ok.
Qed.

(** ** The matched positionals *)

(** The counts are those of a prefix of the positionals, less zeros at the end. *)
Lemma match_partial_fits expressions pattern :
  exists front back zeros, expressions = front ++ back /\ fits front pattern (match_partial expressions pattern ++ zeros).
Proof.
  unfold match_partial. destruct (find_map _ _) as [counts|] eqn:E; [|by exists [], expressions, []].
  apply find_map_elem in E as (n & _ & E). pose proof (matched_spec (take n expressions) pattern 0) as Hs. rewrite E, drop_0 in Hs.
  destruct Hs as [Hs _]. case_bool_decide.
  - destruct (pop_zeros_spec counts) as (zeros & Ez & _). exists (take n expressions), (drop n expressions), zeros.
    rewrite take_drop. split; [done|]. by rewrite <- Ez.
  - exists (take n expressions), (drop n expressions), []. rewrite take_drop, app_nil_r. done.
Qed.

(** A subcommand has a name left when its separator is stripped. *)
Lemma command_values cells values : tokens_match (tokens Command_) cells -> length values = length cells ->
  (if strips_separator Command_ cells then without_separator values else values) <> [].
Proof.
  intros (dashes & rest & -> & Hd & one & more & -> & -> & _) Hl E. cbn [token_match] in Hd. cbn [strips_separator] in E.
  rewrite !length_app in Hl. cbn [length] in Hl. case_bool_decide as Hh.
  - assert (length (without_separator values) = 0%nat) as E' by by rewrite E. destruct dashes as [|d dashes]; [done|]. cbn [length] in Hl.
    unfold without_separator in E'. destruct (position _ values); [|lia]. rewrite length_app, length_take, length_drop in E'. lia.
  - rewrite E in Hl. cbn in Hl. lia.
Qed.

(** ** The run *)

(** The action is a choice among subcommands. *)
Definition chooses (a : Action) : bool := match kind a with Commands (_ :: _) => true | _ => false end.

(** A value option and a subcommand need a value. *)
Definition values_ok (a : Action) (values : list Arg) : Prop :=
  match kind a with KValue _ _ _ | Commands _ => values <> [] | _ => True end.

(** The parser requires a choice among its subcommands. *)
Definition requires_choice (parser : Parser) : Prop := exists i a, actions parser !! i = Some a /\ required a = true /\ chooses a = true.

(** The choice names a subcommand of the parser: a path of hand-built ones that ends at one that
    leaves no choice open, or a read operation. *)
Inductive chosen_in (parser : Parser) : Chosen -> Prop :=
| chosen_last a commands c p ns : a ∈ actions parser -> kind a = Commands commands -> c ∈ commands -> command_form c = Built p ->
    ~ requires_choice p -> chosen_in parser (Ported [command_name c] ns)
| chosen_nested a commands c p path ns : a ∈ actions parser -> kind a = Commands commands -> c ∈ commands -> command_form c = Built p ->
    chosen_in p (Ported path ns) -> chosen_in parser (Ported (command_name c :: path) ns)
| chosen_inner a commands c p op ns : a ∈ actions parser -> kind a = Commands commands -> c ∈ commands -> command_form c = Built p ->
    chosen_in p (ReadOp op ns) -> chosen_in parser (ReadOp op ns)
| chosen_read a commands c op p ns : a ∈ actions parser -> kind a = Commands commands -> c ∈ commands -> command_form c = Read op p ->
    chosen_in parser (ReadOp op ns).

(** What a parse of a parser gives: a choice that is one of its own, and one where it requires one. *)
Definition choice_ok (p : Parser) (c : option Chosen) : Prop :=
  match c with Some c => chosen_in p c | None => ~ requires_choice p end.

Lemma chosen_of_in parser a commands c ns nested : a ∈ actions parser -> kind a = Commands commands -> c ∈ commands ->
  choice_ok (command_parser c) nested -> chosen_in parser (chosen_of c ns nested).
Proof.
  intros Ha Hk Hc. unfold command_parser, chosen_of. destruct (command_form c) as [p|op p] eqn:Hf; [|intros _; by eapply chosen_read].
  destruct nested as [[path ns'|op ns']|]; cbn; intros H; [by eapply chosen_nested|by eapply chosen_inner|by eapply chosen_last].
Qed.

Section Total.
Context {S : Type} (check : S -> str -> Value -> S * result Value str).
Context (help_text usage_text : Parser -> str) (version_text : str -> str).

Section Steps.
Context (sub : Parser -> list Arg -> S -> Outcome (Known S)) (parser : Parser) (args : list Arg) (pattern : list Z).
Context (Hparser : parser_ok parser) (Hargs : Forall arg_ok args) (Hpattern : length pattern = length args).
Context (Hsub : forall p l s, parser_ok p -> Forall arg_ok l -> (length l < length args)%nat -> good (fun k => choice_ok p (k_chosen k)) (sub p l s)).

(** What holds between the steps of a run. *)
Record run_ok (r : Run S) : Prop := {
  ok_seen : length (seen r) = length (actions parser);
  ok_used : length (used r) = length (actions parser);
  ok_positionals : Forall (fun i => has_action parser i false) (positionals r);
  ok_options : Forall (fun entry => (entry.1 < length args)%nat /\ Forall (tuple_ok parser) entry.2) (options r);
  ok_chosen : forall i a, seen r !! i = Some true -> actions parser !! i = Some a -> chooses a = true -> is_Some (chosen r);
  ok_choice : forall c, chosen r = Some c -> chosen_in parser c
}.

(** The steps of one action keep what the loops read. *)
Definition keeps (r r' : Run S) : Prop := options r' = options r /\ positionals r' = positionals r.

Lemma conflicts_range index : Forall (fun o => o < length (actions parser))%nat (conflicts parser index).
Proof.
  unfold conflicts. destruct (group parser) as [g|] eqn:Eg; [|constructor]. apply Forall_forall. intros o Ho.
  apply list_elem_of_In, filter_In in Ho as [Ho _]. apply in_seq in Ho. pose proof (ok_group _ Hparser g Eg). lia.
Qed.

Lemma checked_choice_good (r : Run S) a value choices first :
  good (fun '(r', v) => r' = r /\ (choices = [] \/ text first ∈ choices)) (checked_choice usage_text parser r a value choices first).
Proof. unfold checked_choice. repeat case_bool_decide; cbn; auto. Qed.

(** The conversion changes only the state of the check, and passes only a known subcommand. *)
Lemma convert_good (r : Run S) a values : values_ok a values ->
  good (fun '(r', _) => (exists s, r' = with_state r s) /\
    match kind a with Commands (c :: commands) => exists first, head values = Some first /\ text first ∈ map command_name (c :: commands) | _ => True end)
    (convert check usage_text parser r a values).
Proof.
  intros Hv. unfold convert, values_ok in *. assert (r = with_state r (state r)) as Hr by by destruct r.
  destruct (kind a) as [| |converter choices rep|arity|commands|version]; cbn [good]; eauto.
  - destruct values as [|first values]; [done|]. cbn [head expect bind]. destruct (converter first); [|done].
    destruct (check (state r) (dest a) _) as [s []]; [|done]. eapply good_weaken; [apply checked_choice_good|]. intros [r' v] [-> _]. eauto.
  - destruct values as [|first values]; [done|]. cbn [head expect bind]. eapply good_weaken; [apply checked_choice_good|].
    intros [r' v] [-> Hc]. split; [eauto|]. destruct commands as [|c commands]; [done|]. exists first. split; [done|]. by destruct Hc.
Qed.

Lemma use_good (r : Run S) index a : length (used r) = length (actions parser) -> (index < length (actions parser))%nat ->
  good (fun r' => exists marks, length marks = length (used r) /\ r' = with_used r marks) (use usage_text parser r index a).
Proof.
  intros Hu Hi. unfold use. rewrite good_mark by (by rewrite Hu). cbn [bind].
  eapply good_bind; [apply first_used_good; rewrite length_insert, Hu; apply conflicts_range|].
  intros [o|] Ho; [|cbn; eexists; split; [|done]; by rewrite length_insert].
  pose proof (conflicts_range index) as Hc. rewrite Forall_forall in Hc. specialize (Hc o Ho).
  apply lookup_lt_is_Some in Hc as [b Hb]. by rewrite Hb.
Qed.

Lemma choose_good r a commands values : a ∈ actions parser -> kind a = Commands commands -> values <> [] -> Forall arg_ok values ->
  (length values <= length args)%nat ->
  good (fun r' => r' = r /\ (forall first, head values = Some first -> text first ∉ map command_name commands)
    \/ exists e c s, chosen_in parser c /\ r' = with_chosen r e c s) (choose sub r commands values).
Proof.
  intros Ha Hk Hne Hv Hl. unfold choose. destruct values as [|first values]; [done|]. cbn [head expect bind].
  destruct (List.find _ commands) as [c|] eqn:E.
  - apply find_some in E as [Hc _]. apply list_elem_of_In in Hc.
    apply (good_bind (fun k => choice_ok (command_parser c) (k_chosen k))).
    2: { intros k Hk'. cbn. right. do 3 eexists. split; [|done]. by apply (chosen_of_in parser a commands). }
    apply Hsub; [by eapply ok_parsers|by apply Forall_cons in Hv as [_ ?]|].
    rewrite length_drop. cbn [length] in *. lia.
  - left. split; [done|]. intros ? [= <-]. intros (c & Hc & Hin)%list_elem_of_In%in_map_iff.
    apply (find_none _ _ E) in Hin. by rewrite bool_decide_eq_false in Hin.
Qed.

Lemma run_ok_updated r r' index a : run_ok r -> actions parser !! index = Some a -> seen r' = <[index := true]> (seen r) ->
  length (used r') = length (used r) -> keeps r r' -> chosen r' = chosen r /\ chooses a = false \/ (exists c, chosen r' = Some c /\ chosen_in parser c) -> run_ok r'.
Proof.
  intros Hr Ha Hseen Hused [Ho Hp] Hc. split.
  - rewrite Hseen, length_insert. apply Hr.
  - rewrite Hused. apply Hr.
  - rewrite Hp. apply Hr.
  - rewrite Ho. apply Hr.
  - intros i b Hm Hb Hch. destruct Hc as [[-> Hno]|(c & -> & _)]; [|done]. destruct (decide (i = index)) as [->|Hne].
    + rewrite Ha in Hb. injection Hb as <-. by rewrite Hno in Hch.
    + rewrite Hseen, list_lookup_insert_ne in Hm by done. by eapply ok_chosen.
  - intros c Hch. destruct Hc as [[E _]|(c' & E & Hin)]; [rewrite E in Hch; by apply Hr|congruence].
Qed.

Lemma take_action_good r index a values : run_ok r -> actions parser !! index = Some a -> values_ok a values -> Forall arg_ok values ->
  (length values <= length args)%nat ->
  good (fun r' => run_ok r' /\ keeps r r') (take_action check help_text usage_text version_text sub parser r index values).
Proof.
  intros Hr Ha Hv Hargs' Hl. unfold take_action. pose proof (lookup_lt_Some _ _ _ Ha) as Hi.
  rewrite good_mark by (rewrite (ok_seen _ Hr); done). rewrite Ha. cbn [expect bind].
  eapply good_bind; [by apply convert_good|]. intros [r1 v] [[s ->] Hchoice].
  eapply good_bind with (P := fun r' => exists u, length u = length (used r) /\ r' = with_used (with_state (with_seen r (<[index:=true]> (seen r))) s) u).
  { destruct (_ || _); [|cbn; exists (used r); by destruct r].
    eapply good_weaken; [apply use_good; [apply Hr|done]|]. intros r' (u & Hu & ->). eauto. }
  intros r1 (u & Hu & ->). set (r1 := with_used _ u).
  assert (forall r', seen r' = seen r1 -> used r' = u -> keeps r r' -> chosen r' = chosen r /\ chooses a = false \/ (exists c, chosen r' = Some c /\ chosen_in parser c) ->
    run_ok r' /\ keeps r r') as Hok.
  { intros r' Hs Hu' Hk Hc. split; [|done]. eapply run_ok_updated; eauto. by rewrite Hu'. }
  unfold chooses, values_ok in *. destruct (kind a) as [| |converter choices rep|arity|commands|version] eqn:Hk; try done.
  + destruct v; cbn [good]; apply Hok; auto; by split.
  + destruct rep, v as [[]|]; cbn [good]; apply Hok; auto; by split.
  + destruct v; cbn [good]; apply Hok; auto; by split.
  + eapply good_weaken; [apply (choose_good r1 a commands values); auto; by eapply list_elem_of_lookup_2|].
    intros r' [[-> Hno]|(e & c & s' & Hc & ->)]; apply Hok; try done; [|by right; exists c].
    left. split; [done|]. destruct commands as [|c commands]; [done|]. destruct Hchoice as (first & Hf & Hin). by destruct (Hno first Hf).
Qed.

Lemma nargs_good index : has_action parser index false -> exists a, actions parser !! index = Some a /\
  nargs parser index = Done (match kind a with Positional arity => OfArity arity | _ => Command_ end).
Proof. intros (a & Ha & _). exists a. split; [done|]. unfold nargs. by rewrite Ha. Qed.

(** The positionals of a run, each with its expression. *)
Definition waiting (rest : list (nat * Nargs)) : Prop :=
  Forall (fun cell => has_action parser cell.1 false /\ nargs parser cell.1 = Done cell.2) rest.

Lemma each_nargs positionals : Forall (fun i => has_action parser i false) positionals ->
  exists expressions, each (nargs parser) positionals = Done expressions /\ length expressions = length positionals /\
    waiting (zip positionals expressions).
Proof.
  induction 1 as [|i positionals Hi _ (expressions & E & Hl & Hw)]; [exists []; split_and!; [done|done|constructor]|].
  destruct (nargs_good i Hi) as (a & _ & En). eexists (_ :: expressions). cbn [each]. rewrite En. cbn [bind]. rewrite E. cbn [bind zip zip_with length].
  split; [done|]. split; [by rewrite Hl|]. constructor; [by split|done].
Qed.

Lemma take_positionals_good front : forall counts zeros back r at_, run_ok r -> (at_ <= length args)%nat -> waiting (front ++ back) ->
  fits (map snd front) (drop at_ pattern) (counts ++ zeros) ->
  good (fun '(r', stop) => run_ok r' /\ keeps r r' /\ (at_ <= stop <= length args)%nat)
    (take_positionals check help_text usage_text version_text sub parser args pattern r (front ++ back) counts at_).
Proof.
  induction front as [|[index n] front IH]; intros counts zeros back r at_ Hr Hat Hw Hf.
  { destruct counts; [|done]. cbn. split; [done|]. split; [by split|lia]. }
  destruct counts as [|count counts]; [cbn; split; [done|]; split; [by split|lia]|].
  cbn [map fits app snd] in Hf. destruct Hf as (Hc & Ht & Hf). rewrite length_drop in Hc. rewrite drop_drop in Hf.
  apply Forall_cons in Hw as [[Hi Hn] Hw]. cbn [fst snd] in *. cbn [take_positionals app].
  rewrite !good_slice by lia. cbn [bind]. replace (at_ + count - at_)%nat with count by lia.
  destruct (nargs_good index Hi) as (a & Ha & Hn'). rewrite Hn in Hn'. injection Hn' as ->.
  set (values := take count (drop at_ args)). set (cells := take count (drop at_ pattern)) in *.
  assert (length values = length cells) as Hl by (unfold values, cells; rewrite !length_take, !length_drop; lia).
  assert (Forall arg_ok values) as Hv by by apply Forall_take, Forall_drop.
  destruct (without_separator_sub values Hv) as [Hv' Hl'].
  assert (length values <= length args)%nat as Hle by (unfold values; rewrite length_take, length_drop; lia).
  eapply good_bind.
  - eapply take_action_good; [done|done| |by destruct (strips_separator _ _)|destruct (strips_separator _ _); lia].
    unfold values_ok. destruct (kind a); try done; by apply command_values.
  - intros r' [Hr' Hk]. eapply good_weaken; [apply (IH counts zeros back r' (at_ + count)%nat); [done|lia|done|done]|].
    intros [r2 stop] (H1 & H2 & H3). split; [done|]. split; [|lia]. destruct Hk, H2. split; congruence.
Qed.

Lemma consume_positionals_good r start : run_ok r -> (start <= length args)%nat ->
  good (fun '(r', stop) => run_ok r' /\ (start <= stop <= length args)%nat)
    (consume_positionals check help_text usage_text version_text sub parser args pattern r start).
Proof.
  intros Hr Hs. unfold consume_positionals. destruct (each_nargs _ (ok_positionals _ Hr)) as (expressions & -> & Hl & Hw). cbn [bind].
  rewrite good_slice by lia. cbn [bind]. rewrite firstn_all2 by (rewrite length_drop; lia).
  destruct (match_partial_fits expressions (drop start pattern)) as (front & back & zeros & Hsplit & Hf).
  set (n := length front). assert (zip (positionals r) expressions = zip (take n (positionals r)) front ++ zip (drop n (positionals r)) back) as E.
  { by rewrite Hsplit, zip_with_app_r. }
  rewrite E in *. eapply good_bind.
  - eapply take_positionals_good; [done|done|done|]. rewrite snd_zip; [exact Hf|].
    rewrite Hsplit, length_app in Hl. rewrite length_take. unfold n. lia.
  - intros [r' stop] (Hr' & [Ho Hp] & Hstop). cbn. split; [|done]. destruct Hr'. split; cbn; try done. apply Forall_drop, Hr.
Qed.

Lemma match_argument_good a from : (from <= length args)%nat ->
  good (fun count => (from + count <= length args)%nat /\ (takes_value a = true -> count = 1%nat) ) (match_argument usage_text parser pattern a from).
Proof.
  intros Hf. unfold match_argument. destruct (takes_value a); cbn [negb good]; [|split; [lia|done]].
  case_bool_decide as H; [|done]. apply lookup_lt_Some in H. cbn. split; [lia|done].
Qed.

Lemma next_short_good a reading value : arg_ok value ->
  good (fun next => match next with Some next => tuple_ok parser next /\ (readings next <= length (text value) + 1)%nat | None => True end)
    (next_short usage_text parser a reading value).
Proof.
  intros [Hv _]. unfold next_short. destruct (text value) as [|c rest]; [done|]. destruct (_ || _ || _); [done|].
  destruct (option_named parser _) as [i|] eqn:Ei; [|done]. cbn [good]. apply Forall_cons in Hv as [_ Hv].
  assert (forall equals e, (forall v, e = Some v -> arg_ok v) -> tuple_ok parser (tuple (Some i) [c_dash; c] equals e)) as Hok.
  { intros equals e He. split; [|done]. intros ? [= <-]. by eapply option_named_has. }
  destruct rest as [|d after]; [split; [by apply Hok|cbn; lia]|]. apply Forall_cons in Hv as Hv'. destruct Hv' as [_ Hafter].
  destruct (d =? c_equals)%Z; (split; [apply Hok; intros ? [= <-]; by apply arg_of_text_ok|]).
  - cbn [readings tuple t_explicit]. rewrite (proj2 (arg_of_text_ok after Hafter)). cbn. lia.
  - cbn [readings tuple t_explicit]. rewrite (proj2 (arg_of_text_ok _ Hv)). cbn. lia.
Qed.

(** An action to take with its values. *)
Definition taken_ok (cell : nat * list Arg) : Prop :=
  exists a, actions parser !! cell.1 = Some a /\ values_ok a cell.2 /\ Forall arg_ok cell.2 /\ (length cell.2 <= length args)%nat.

Lemma named_values index a values : has_action parser index true -> actions parser !! index = Some a ->
  (takes_value a = true -> values <> []) -> values_ok a values.
Proof.
  intros (a' & Ha' & Hn) Ha Hv. rewrite Ha in Ha'. injection Ha' as <-. unfold values_ok, takes_value in *.
  destruct (kind a) as [| | | |commands|] eqn:Hk; auto. exfalso. apply bool_decide_eq_false in Hn. apply Hn.
  eapply ok_commands; [done| |done]. by eapply list_elem_of_lookup_2.
Qed.

Lemma run_ok_extras r more : run_ok r -> run_ok (with_extras r more).
Proof. intros []. by split. Qed.

Lemma match_optional_good fuel : forall r start taken reading, run_ok r -> (start < length args)%nat -> Forall taken_ok taken ->
  tuple_ok parser reading -> (readings reading <= fuel)%nat ->
  good (fun '(r', taken, stop) => run_ok r' /\ Forall taken_ok taken /\ (start < stop <= length args)%nat)
    (match_optional usage_text parser args pattern fuel r start taken reading).
Proof.
  induction fuel as [|fuel IH]; intros r start taken reading Hr Hs Ht [Hi Hv] Hf.
  { unfold readings in Hf. destruct (t_explicit reading); lia. }
  cbn [match_optional]. destruct (t_action reading) as [index|]; last first.
  { apply lookup_lt_is_Some in Hs as Ha. destruct Ha as [a Ha]. rewrite Ha. cbn. split; [by apply run_ok_extras|]. split; [done|lia]. }
  specialize (Hi index eq_refl). pose proof Hi as (a & Ha & _).
  rewrite Ha. cbn [expect bind].
  assert (forall values, (takes_value a = true -> values <> []) -> Forall arg_ok values -> (length values <= length args)%nat ->
    Forall taken_ok (taken ++ [(index, values)])) as Hok.
  { intros values H1 H2 H3. apply Forall_app. split; [done|]. apply Forall_singleton. exists a. split; [done|]. split; [by eapply named_values|done]. }
  unfold readings in Hf. destruct (t_explicit reading) as [value|].
  - specialize (Hv value eq_refl). destruct (takes_value a).
    { cbn. split; [done|]. split; [|lia]. apply Hok; [done|by apply Forall_singleton|cbn; lia]. }
    eapply good_bind; [by apply next_short_good|]. assert (Forall taken_ok (taken ++ [(index, [])])) as Ht' by (apply Hok; [done|constructor|cbn; lia]).
    intros [next|] Hnext; [apply IH; [done|done|done|apply Hnext|]|cbn; split; [by apply run_ok_extras|]; split; [done|lia]].
    destruct Hnext. lia.
  - eapply good_bind; [apply match_argument_good; lia|]. intros count [Hc H1]. rewrite good_slice by lia. cbn [bind good].
    replace (start + 1 + count - (start + 1))%nat with count by lia. split; [done|]. split; [|lia].
    assert (length (take count (drop (start + 1) args)) = count) as Hl by (rewrite length_take, length_drop; lia).
    apply Hok; [intros ->%H1 E; by rewrite E in Hl|by apply Forall_take, Forall_drop|lia].
Qed.

Lemma take_each_good taken : forall r, run_ok r -> Forall taken_ok taken ->
  good run_ok (take_each check help_text usage_text version_text sub parser r taken).
Proof.
  induction taken as [|[index values] taken IH]; intros r Hr Ht; [done|]. apply Forall_cons in Ht as [(a & Ha & Hv & Hl & Hle) Ht].
  cbn [take_each]. eapply good_bind; [by eapply take_action_good|]. intros r' [Hr' _]. by apply IH.
Qed.

Lemma consume_optional_good r start : run_ok r -> (start < length args)%nat ->
  good (fun '(r', stop) => run_ok r' /\ (start < stop <= length args)%nat)
    (consume_optional check help_text usage_text version_text sub parser args pattern r start).
Proof.
  intros Hr Hs. unfold consume_optional. set (r' := with_options r _).
  assert (run_ok r') as Hr'.
  { destruct Hr. split; try done. cbn. apply Forall_forall. intros e He. apply list_elem_of_In, filter_In in He as [He _].
    rewrite Forall_forall in ok_options0. by apply ok_options0, list_elem_of_In. }
  assert (Forall (tuple_ok parser) (default [] (snd <$> List.find (fun entry => entry.1 =? start)%nat (options r)))) as Ht.
  { destruct (List.find _ _) as [e|] eqn:E; [|constructor]. apply find_some in E as [E _]. cbn.
    pose proof (ok_options _ Hr) as Ho. rewrite Forall_forall in Ho. destruct e as [k tuples]. cbn. apply list_elem_of_In in E. by apply (Ho (k, tuples)). }
  destruct (default [] _) as [|first [|second more]]; [cbn; split; [done|lia]| |].
  - apply Forall_cons in Ht as [Ht _]. eapply good_bind; [apply match_optional_good; [done|done|apply Forall_nil; done|done|done]|]. intros [[r2 taken] stop] (H2 & Ht2 & Hstop).
    eapply good_bind; [by apply take_each_good|]. intros r3 H3. by split.
  - apply lookup_lt_is_Some in Hs as [a Ha]. by rewrite Ha.
Qed.

Lemma consume_values_good r start next : run_ok r -> (start <= next <= length args)%nat ->
  good (fun '(r', end_) => run_ok r' /\ match end_ with Some end_ => (start < end_ <= length args)%nat | None => True end)
    (consume_values check help_text usage_text version_text sub parser args pattern r start next).
Proof.
  intros Hr Hs. unfold consume_values. destruct (start =? next)%nat; [by split|].
  eapply good_bind; [apply consume_positionals_good; [done|lia]|]. intros [r' end_] [Hr' He].
  destruct (Nat.ltb_spec start end_); [cbn; split; [done|lia]|]. rewrite good_slice by lia. cbn. split; [by apply run_ok_extras|done].
Qed.

Lemma consume_options_good fuel : forall r start, run_ok r -> (start <= length args)%nat -> (length args <= fuel + start)%nat ->
  good (fun '(r', stop) => run_ok r' /\ (stop <= length args)%nat)
    (consume_options check help_text usage_text version_text sub parser args pattern fuel r start).
Proof.
  induction fuel as [|fuel IH]; intros r start Hr Hs Hf; cbn [consume_options];
    (destruct (List.find _ (options r)) as [[next tuples]|] eqn:E; [|by split]);
    apply find_some in E as [E Hle]; cbn [fst] in Hle; apply Nat.leb_le in Hle;
    (assert (next < length args)%nat as Hn by (pose proof (ok_options _ Hr) as Ho; rewrite Forall_forall in Ho; by apply (Ho (next, tuples)), list_elem_of_In)).
  { lia. }
  eapply good_bind; [apply consume_values_good; [done|lia]|]. intros [r' [end_|]] [Hr' He]; [apply IH; done || lia|].
  eapply good_bind; [by apply consume_optional_good|]. intros [r2 stop] [H2 Hstop]. apply IH; done || lia.
Qed.

Lemma consume_all_good r : run_ok r -> good run_ok (consume_all check help_text usage_text version_text sub parser args pattern r).
Proof.
  intros Hr. unfold consume_all. eapply good_bind; [apply consume_options_good; done || lia|]. intros [r1 start] [H1 Hs].
  eapply good_bind; [by apply consume_positionals_good|]. intros [r2 stop] [H2 Hstop]. rewrite good_slice by lia. cbn. by apply run_ok_extras.
Qed.

(** A run that is not refused has seen every required action. *)
Lemma check_required_good r : run_ok r ->
  good (fun _ => forall i a, actions parser !! i = Some a -> required a = true -> seen r !! i = Some true) (check_required usage_text parser r).
Proof.
  intros Hr. unfold check_required.
  eapply good_bind.
  { apply each_good with (P := fun cell names => required cell.2 = true -> names = [] -> seen r !! cell.1 = Some true).
    intros [i a] Ha%imap_pair_elem. cbn. destruct (required a); [|done].
    pose proof (lookup_lt_Some _ _ _ Ha) as Hi. rewrite <- (ok_seen _ Hr) in Hi. apply lookup_lt_is_Some in Hi as [b Hb]. rewrite Hb. cbn.
    by destruct b. }
  intros missing Hm. case_bool_decide as Hnone; [cbn [negb]|done].
  assert (forall i a, actions parser !! i = Some a -> required a = true -> seen r !! i = Some true) as Hseen.
  { intros i a Ha Hq. apply imap_pair_elem, list_elem_of_lookup in Ha as [k Hk].
    destruct (Forall2_lookup_l _ _ _ _ _ Hm Hk) as (names & Hn & Hi). apply (Hi Hq).
    destruct names as [|name names]; [done|]. apply list_elem_of_lookup_2, list_elem_of_split in Hn as (l1 & l2 & ->).
    rewrite concat_app in Hnone. cbn in Hnone. by destruct (concat l1). }
  destruct (group parser) as [g|] eqn:Eg; [|done]. destruct (g_required g); [cbn [negb]|done].
  assert (Forall (fun o => o < length (actions parser))%nat (seq (g_first g) (g_end g - g_first g))) as Hg.
  { apply Forall_forall. intros o Ho%list_elem_of_In%in_seq. pose proof (ok_group _ Hparser g Eg). lia. }
  eapply good_bind; [apply first_used_good; by rewrite (ok_used _ Hr)|]. intros [o|] _; [done|].
  eapply good_bind; [apply (each_good (fun _ _ => True))|by intros]. rewrite Forall_forall in Hg.
  intros o Ho%Hg. apply lookup_lt_is_Some in Ho as [a Ha]. by rewrite Ha.
Qed.
End Steps.

Lemma new_run_ok parser args options s :
  Forall (fun entry => (entry.1 < length args)%nat /\ Forall (tuple_ok parser) entry.2) options -> run_ok parser args (new_run parser options s).
Proof.
  intros Ho. split; cbn [new_run seen used positionals chosen]; cbn; [by rewrite repeat_length|by rewrite repeat_length| |done| |done].
  - apply Forall_forall. intros i Hi. apply list_elem_of_omap in Hi as ([k a] & Ha%imap_pair_elem & Hi).
    case_bool_decide as E; [|done]. injection Hi as ->. exists a. split; [done|]. by rewrite bool_decide_true.
  - intros i a Hi. apply list_elem_of_lookup_2 in Hi. apply list_elem_of_In, repeat_spec in Hi. done.
Qed.

Lemma parse_known_good fuel : forall parser args s, parser_ok parser -> Forall arg_ok args -> (length args < fuel)%nat ->
  good (fun k => choice_ok parser (k_chosen k)) (parse_known check help_text usage_text version_text fuel parser args s).
Proof.
  induction fuel as [|fuel IH]; intros parser args s Hp Ha Hf; [lia|]. cbn [parse_known].
  pose proof (classify_ok parser args Ha) as Hc. destruct (classify parser args) as [pattern options]. destruct Hc as [Hl Ho].
  eapply good_bind; [apply consume_all_good; [done|done|done| |by apply new_run_ok]|].
  { intros p l s' Hp' Hl' Hlen. apply IH; done || lia. }
  intros r Hr. eapply good_bind; [by eapply check_required_good|]. intros u Hseen. cbn.
  destruct (chosen r) as [c|] eqn:E; [cbn; by eapply ok_choice|]. cbn. intros (i & a & Hi & Hq & Hch).
  destruct (ok_chosen _ _ _ Hr i a) as [c Hc]; [by eapply Hseen|done|done|congruence].
Qed.
End Total.

Lemma new_args_ok raws : Forall (Forall is_byte) raws -> Forall arg_ok (map new_arg raws).
Proof. intros H. apply Forall_fmap. eapply Forall_impl; [exact H|]. intros raw. apply new_arg_ok. Qed.

(** C9: A parse does not panic, and needs no more depth than it has arguments: no index is out of
    range, and the command that the top parser requires is there.  It is help, a usage error, or the
    values with a command of the parser: a path of hand-built subcommands that leaves no required
    choice open, or a read operation.  The top parser may be any that has its group among its
    actions, subcommands as positionals and a required choice. *)
Theorem command_line_total help_text usage_text version_text top_parser raws (Htop : parser_ok top_parser) (Hchoice : requires_choice top_parser)
    (Hraws : Forall (Forall is_byte) raws) :
  match parse help_text usage_text version_text top_parser (map new_arg raws) with
  | Done parsed => chosen_in top_parser (parsed_chosen parsed)
  | Exits _ => True
  | Panics => False
  end.
Proof.
  pose proof (parse_known_good unchecked help_text usage_text version_text (S (length (map new_arg raws))) top_parser _ tt Htop
    (new_args_ok raws Hraws) (Nat.lt_succ_diag_r _)) as Hg.
  unfold parse. destruct (parse_known _ _ _ _ _ _ _ _) as [k| |]; [|done|done]. cbn [good bind] in *.
  destruct (k_chosen k) as [c|]; [|by apply Hg]. cbn. unfold no_extras. by case_bool_decide.
Qed.

(** * Settings written as arguments *)

(** A flag, an option with its value in one argument, and one with its value in the next. *)
Inductive Setting := Bare (name : str) | Joined (name value : str) | Apart (name value : str).

Definition setting_name (s : Setting) : str := match s with Bare name | Joined name _ | Apart name _ => name end.

Definition written (s : Setting) : list str :=
  match s with Bare name => [name] | Joined name value => [name ++ [c_equals] ++ value] | Apart name value => [name; value] end.

(** The values of the setting's action. *)
Definition setting_values (s : Setting) : list Arg := match s with Bare _ => [] | Joined _ value | Apart _ value => [arg_of_text value] end.

(** Every action of the parser is an option, and the names are such that an [=] ends them. *)
Definition plain_parser (p : Parser) : bool :=
  forallb (fun a => negb (bool_decide (strings a = [])) && match kind a with Commands _ => false | _ => true end) (actions p) &&
  forallb (fun '(_, name) => forallb (fun c => negb (is_char c_equals c)) name) (option_strings p).

(** The setting names an option of the parser and has a value when the option takes one.  A value
    of its own argument does not look like an option. *)
Definition setting_ok (p : Parser) (s : Setting) : bool :=
  starts_with [c_dash] (setting_name s) && negb (bool_decide (setting_name s = lit "--")) && forallb is_scalar (setting_name s) &&
  match option_named p (setting_name s) ≫= (fun i => actions p !! i) with
  | None => false
  | Some a =>
      match s with
      | Bare _ => negb (takes_value a)
      | Joined _ value => takes_value a && forallb is_scalar value
      | Apart _ value => takes_value a && forallb is_scalar value && negb (starts_with [c_dash] value)
      end
  end.

Definition setting_index (p : Parser) (s : Setting) : nat := default 0%nat (option_named p (setting_name s)).

(** The reading and the pattern of a setting. *)
Definition reading (p : Parser) (s : Setting) : Tuple :=
  match s with
  | Bare name | Apart name _ => tuple (Some (setting_index p s)) name false None
  | Joined name value => tuple (Some (setting_index p s)) name true (Some (arg_of_text value))
  end.

Definition cells (s : Setting) : list Z := match s with Apart _ _ => [OPTION; VALUE] | _ => [OPTION] end.

Fixpoint entries (p : Parser) (at_ : nat) (settings : list Setting) : list (nat * list Tuple) :=
  match settings with
  | [] => []
  | s :: settings => (at_, [reading p s]) :: entries p (at_ + length (written s)) settings
  end.

Lemma entries_app p at_ l1 l2 : entries p at_ (l1 ++ l2) = entries p at_ l1 ++ entries p (at_ + length (concat (map written l1))) l2.
Proof.
  revert at_. induction l1 as [|s l1 IH]; intros at_; cbn [app entries map concat]; [by rewrite Nat.add_0_r|].
  rewrite IH, length_app. cbn. by rewrite Nat.add_assoc.
Qed.

Lemma after_equals_joined name value : char_free c_equals name -> is_str name -> is_str value ->
  after_equals (arg_of_text (name ++ [c_equals] ++ value)) = arg_of_text value.
Proof.
  intros Hf Hn Hv. unfold after_equals, arg_of_text. f_equal. cbn [new_arg raw]. rewrite as_bytes_app.
  assert (as_bytes ([c_equals] ++ value) = c_equals :: as_bytes value) as -> by done.
  rewrite position_app_false.
  - cbn [position]. rewrite is_char_refl. cbn [fmap option_fmap option_map].
    rewrite Nat.add_0_r, cons_middle, app_assoc.
    replace (S (length (as_bytes name))) with (length (as_bytes name ++ [c_equals])) by (rewrite length_app; cbn; lia). by rewrite drop_app_length.
  - clear Hv. induction Hn as [|c name Hc Hn IH]; [constructor|]. apply Forall_cons in Hf as [Hce Hf]. rewrite as_bytes_cons. apply Forall_app.
    split; [|by apply IH]. destruct (encode_shape c Hc) as [[_ ->]|(_ & b & more & -> & Hb & _ & Hmore)]; [by constructor|].
    constructor; [apply is_char_false; unfold c_equals; lia|]. eapply Forall_impl; [exact Hmore|]. intros d Hd. apply is_char_false.
    apply continuation_range in Hd. unfold c_equals. lia.
Qed.

Lemma forallb_scalar s : forallb is_scalar s = true <-> is_str s.
Proof. unfold is_str. rewrite forallb_forall, Forall_forall. by setoid_rewrite list_elem_of_In. Qed.

(** What the hypotheses on a setting give. *)
Record named (p : Parser) (s : Setting) (a : Action) : Prop := {
  named_option : option_named p (setting_name s) = Some (setting_index p s);
  named_action : actions p !! setting_index p s = Some a;
  named_dash : starts_with [c_dash] (setting_name s) = true;
  named_separator : setting_name s <> lit "--";
  named_free : char_free c_equals (setting_name s);
  named_str : is_str (setting_name s);
  named_kind : match s with
               | Bare _ => takes_value a = false
               | Joined _ value => takes_value a = true /\ is_str value
               | Apart _ value => takes_value a = true /\ is_str value /\ starts_with [c_dash] value = false
               end
}.

Lemma option_named_in p name i : option_named p name = Some i -> (i, name) ∈ option_strings p.
Proof.
  unfold option_named. destruct (List.find _ _) as [[k s]|] eqn:E; cbn; [|done]. intros [= <-].
  apply find_some in E as [E <-%bool_decide_eq_true]. by apply list_elem_of_In.
Qed.

Lemma option_free p i name : plain_parser p = true -> (i, name) ∈ option_strings p -> char_free c_equals name.
Proof.
  intros [_ H]%andb_true_iff Hin. rewrite forallb_forall in H. apply list_elem_of_In, H in Hin. cbn in Hin.
  rewrite forallb_forall in Hin. apply Forall_forall. intros c Hc%list_elem_of_In%Hin. by apply negb_true_iff.
Qed.

Lemma setting_named p s : plain_parser p = true -> setting_ok p s = true -> exists a, named p s a.
Proof.
  unfold setting_ok. intros Hp H. rewrite !andb_true_iff in H. destruct H as [[[Hd Hne] Hs] Ha].
  destruct (option_named p (setting_name s)) as [i|] eqn:Ei; [cbn [mbind option_bind] in Ha|done].
  destruct (actions p !! i) as [a|] eqn:Ea; [|done].
  assert (setting_index p s = i) as Hi by (unfold setting_index; by rewrite Ei). exists a. split; rewrite ?Hi; try done.
  - intros E. by rewrite E in Hne.
  - by eapply option_free, option_named_in.
  - by apply forallb_scalar.
  - destruct s; rewrite ?andb_true_iff, ?forallb_scalar, ?negb_true_iff in Ha; tauto.
Qed.

Lemma dash_not_joined name value : starts_with [c_dash] name = true -> starts_with [c_dash] (name ++ value) = true.
Proof. destruct name as [|c name]; [done|]. unfold starts_with. cbn. by destruct (decide _). Qed.

Lemma optional_bare p name i : starts_with [c_dash] name = true -> is_str name -> option_named p name = Some i ->
  optional p (arg_of_text name) = Some [tuple (Some i) name false None].
Proof. intros Hd Hs Hi. unfold optional. rewrite (proj2 (arg_of_text_ok name Hs)), Hd. cbn [negb]. by rewrite Hi. Qed.

Lemma joined_str name value : is_str name -> is_str value -> is_str (name ++ [c_equals] ++ value).
Proof. intros Hn Hv. apply Forall_app. split; [done|by constructor]. Qed.

Lemma optional_joined p name value i : plain_parser p = true -> starts_with [c_dash] name = true -> is_str name -> is_str value ->
  option_named p name = Some i ->
  optional p (arg_of_text (name ++ [c_equals] ++ value)) = Some [tuple (Some i) name true (Some (arg_of_text value))].
Proof.
  intros Hp Hd Hs Hv Hi. pose proof (joined_str name value Hs Hv) as Hs'.
  assert (char_free c_equals name) as Hf by by eapply option_free, option_named_in.
  unfold optional. rewrite (proj2 (arg_of_text_ok _ Hs')), dash_not_joined by done. cbn [negb].
  destruct (option_named p (name ++ _)) as [j|] eqn:Ej.
  { apply option_named_in, (option_free p) in Ej; [|done]. apply Forall_app in Ej as [_ [Ej _]%Forall_cons]. by rewrite is_char_refl in Ej. }
  rewrite bool_decide_false by (destruct name; [done|]; rewrite !length_app; cbn; lia).
  rewrite (split_once_free c_equals name value Hf : split_once c_equals (name ++ [c_equals] ++ value) = _). cbn [mbind option_bind]. rewrite Hi. cbn [fmap option_fmap option_map].
  by rewrite after_equals_joined.
Qed.

Lemma optional_value p value : is_str value -> starts_with [c_dash] value = false -> optional p (arg_of_text value) = None.
Proof. intros Hs Hd. unfold optional. by rewrite (proj2 (arg_of_text_ok value Hs)), Hd. Qed.

(** ** Classification *)

Lemma cells_length settings : length (concat (map cells settings)) = length (concat (map written settings)).
Proof. induction settings as [|[] settings IH]; cbn; [done|by rewrite IH..]. Qed.

Lemma cells_open settings : SEPARATOR ∉ concat (map cells settings).
Proof.
  induction settings as [|s settings IH]; cbn [map concat]; [by intros ?%elem_of_nil|]. intros [H|H]%elem_of_app; [|done].
  destruct s; cbn in H; repeat (apply elem_of_cons in H as [H|H]; [done|]); by apply elem_of_nil in H.
Qed.

Lemma classify_settings p settings : plain_parser p = true -> forallb (setting_ok p) settings = true ->
  classify p (map arg_of_text (concat (map written settings))) = (concat (map cells settings), entries p 0 settings).
Proof.
  intros Hp. induction settings as [|s settings IH] using rev_ind; intros Hs; [done|]. rewrite forallb_app in Hs. cbn in Hs.
  rewrite !andb_true_iff in Hs. destruct Hs as [Hs [Hok _]]. specialize (IH Hs). destruct (setting_named p s Hp Hok) as [a Hn].
  rewrite !map_app, !concat_app, entries_app, map_app. cbn [map concat entries]. rewrite !app_nil_r, Nat.add_0_l.
  set (pre := concat (map written settings)) in *.
  assert (forall x acc, SEPARATOR ∉ acc.1 -> text (arg_of_text x) <> lit "--" -> forall i, classify_step p acc (i, arg_of_text x) =
    match optional p (arg_of_text x) with Some tuples => (acc.1 ++ [OPTION], acc.2 ++ [(i, tuples)]) | None => (acc.1 ++ [VALUE], acc.2) end) as Hstep.
  { intros x [pat opts] Ho Hx i. unfold classify_step. cbn [fst snd] in *. by rewrite !bool_decide_false. }
  pose proof (cells_open settings) as Hopen. destruct Hn as [Hi Ha Hd Hsep Hf Hstr Hk]. destruct s as [name|name value|name value]; cbn [written map cells reading setting_name] in *.
  - rewrite classify_snoc, IH, Hstep by (rewrite ?(proj2 (arg_of_text_ok name Hstr)); done). cbn [fst snd].
    by rewrite (optional_bare p name _ Hd Hstr Hi), length_map.
  - destruct Hk as [Hk Hv]. rewrite classify_snoc, IH, Hstep; [|done|].
    + cbn [fst snd]. by rewrite (optional_joined p name value _ Hp Hd Hstr Hv Hi), length_map.
    + rewrite (proj2 (arg_of_text_ok _ (joined_str name value Hstr Hv))).
      intros E. apply (f_equal (fun l => bool_decide (c_equals ∈ l))) in E. rewrite bool_decide_true in E; [done|].
      apply elem_of_app. right. left.
  - destruct Hk as (Hk & Hv & Hdv). assert (text (arg_of_text value) <> lit "--") as Hnv.
    { rewrite (proj2 (arg_of_text_ok value Hv)). intros ->. done. }
    assert (map arg_of_text pre ++ [arg_of_text name; arg_of_text value] = (map arg_of_text pre ++ [arg_of_text name]) ++ [arg_of_text value]) as ->
      by by rewrite <- app_assoc.
    rewrite !classify_snoc, IH, (Hstep name) by (rewrite ?(proj2 (arg_of_text_ok name Hstr)); done). cbn [fst snd].
    rewrite (optional_bare p name _ Hd Hstr Hi), Hstep; [|cbn|done].
    + cbn [fst snd]. by rewrite (optional_value p value Hv Hdv), length_map, <- app_assoc.
    + intros [H|H]%elem_of_app; [done|]. apply elem_of_cons in H as [H|H]; [done|by apply elem_of_nil in H].
Qed.

(** ** The run *)

Section Written.
Context {S : Type} (check : S -> str -> Value -> S * result Value str).
Context (help_text usage_text : Parser -> str) (version_text : str -> str) (p : Parser).

(** The parse of a subcommand, in a parser that has none. *)
Definition no_sub : Parser -> list Arg -> S -> Outcome (Known S) := fun _ _ _ => Panics.

(** A run with the lists that the loops read, and the choice, of another. *)
Definition rebase (r r' : Run S) : Run S :=
  Build_Run S (options r) (positionals r) (namespace r') (seen r') (used r') (extras r) (sub_extras r) (chosen r) (state r').

Definition base (r : Run S) : Run S := Build_Run S [] [] (namespace r) (seen r) (used r) [] [] None (state r).

Lemma take_action_base sub r index values : (forall a, actions p !! index = Some a -> match kind a with Commands _ => False | _ => True end) ->
  take_action check help_text usage_text version_text sub p r index values =
  (do! r' := take_action check help_text usage_text version_text no_sub p (base r) index values in Done (rebase r r')).
Proof.
  intros Hk. unfold take_action. cbn [base seen]. destruct (mark (seen r) index) as [marks| |]; [|done|done]. cbn [bind].
  destruct (actions p !! index) as [a|]; [|done]. specialize (Hk a eq_refl). cbn [expect bind].
  assert (forall r1, use usage_text p (rebase r r1) index a = (do! r' := use usage_text p r1 index a in Done (rebase r r'))) as Huse.
  { intros r1. unfold use. cbn [rebase used]. destruct (mark (used r1) index) as [u| |]; [|done|done]. cbn [bind].
    destruct (first_used u _) as [[o|]| |]; [|done..]. cbn [bind]. by destruct (actions p !! o). }
  assert (convert check usage_text p (with_seen r marks) a values =
    (do! (r', v) := convert check usage_text p (with_seen (base r) marks) a values in Done (rebase r r', v))) as Hconv.
  { unfold convert, checked_choice. destruct (kind a) as [| |converter choices rep|arity|commands|version]; try done.
    destruct (head values) as [first|]; [cbn [expect bind]|done]. destruct (converter first); [|done]. cbn [state with_seen base].
    destruct (check _ _ _) as [s []]; [|done]. by destruct (_ || _). }
  rewrite Hconv. destruct (convert check usage_text p (with_seen (base r) marks) a values) as [[r0 v]| |]; [|done|done]. cbn [bind].
  assert (forall c, (if c : bool then use usage_text p (rebase r r0) index a else Done (rebase r r0)) =
    (do! r' := (if c then use usage_text p r0 index a else Done r0) in Done (rebase r r'))) as Hif by by intros [].
  rewrite Hif. destruct (if _ : bool then _ else _) as [r1| |]; [|done|done]. cbn [bind].
  destruct (kind a) as [| |converter choices [] |arity|commands|version]; try done; by destruct v as [[]|].
Qed.

Lemma take_action_run r index values : base r = r -> (forall a, actions p !! index = Some a -> match kind a with Commands _ => False | _ => True end) ->
  (forall sub o, take_action check help_text usage_text version_text sub p (with_options r o) index values =
    (do! r' := take_action check help_text usage_text version_text no_sub p r index values in Done (with_options r' o))) /\
  (forall r', take_action check help_text usage_text version_text no_sub p r index values = Done r' -> base r' = r').
Proof.
  intros Hb Hk. assert (forall r', take_action check help_text usage_text version_text no_sub p r index values = Done r' -> base r' = r') as Hr.
  { intros r' E. pose proof E as E'. rewrite take_action_base, Hb, E in E' by done. injection E' as E'. by rewrite <- E', <- Hb. }
  split; [|done]. intros sub o. rewrite take_action_base by done. assert (base (with_options r o) = r) as -> by done.
  destruct (take_action check help_text usage_text version_text no_sub p r index values) as [r'| |]; [|done|done]. cbn [bind]. f_equal.
  rewrite <- (Hr r' eq_refl), <- Hb. done.
Qed.

Context (args : list Arg) (pattern : list Z) (Hp : plain_parser p = true).

Lemma match_setting (r : Run S) at_ s settings : setting_ok p s = true ->
  drop at_ args = map arg_of_text (written s ++ concat (map written settings)) -> drop at_ pattern = cells s ++ concat (map cells settings) ->
  match_optional usage_text p args pattern (readings (reading p s)) r at_ [] (reading p s) =
  Done (r, [(setting_index p s, setting_values s)], (at_ + length (written s))%nat).
Proof.
  intros Hs Ha Hc. destruct (setting_named p s Hp Hs) as [a [Hi Haction _ _ _ _ Hk]].
  assert (length args = at_ + length (written s) + length (concat (map written settings)))%nat as Hlen.
  { assert (at_ < length args)%nat by (apply (f_equal length) in Ha; rewrite length_drop, length_map, length_app in Ha; destruct s; cbn [written length] in Ha; lia).
    apply (f_equal length) in Ha. rewrite length_drop, length_map, length_app in Ha. lia. }
  destruct s as [name|name value|name value]; cbn [reading readings tuple t_action t_explicit match_optional written length] in *; rewrite Haction; cbn [expect bind].
  - unfold match_argument. rewrite Hk. cbn [negb bind]. rewrite good_slice by lia. cbn [bind]. by rewrite Nat.add_0_r, Nat.sub_diag.
  - destruct Hk as [-> _]. done.
  - destruct Hk as [Hk _]. unfold match_argument. rewrite Hk. cbn [negb].
    assert (pattern !! (at_ + 1)%nat = Some VALUE) as Hv by by rewrite <- lookup_drop, Hc.
    rewrite bool_decide_true by done. cbn [bind]. rewrite good_slice by lia. cbn [bind]. rewrite <- drop_drop, Ha.
    replace (at_ + 1 + 1 - (at_ + 1))%nat with 1%nat by lia. by replace (at_ + 1 + 1)%nat with (at_ + 2)%nat by lia.
Qed.

Lemma entries_later settings : forall at_ from, (at_ < from)%nat ->
  List.filter (fun entry => negb (entry.1 =? at_)%nat) (entries p from settings) = entries p from settings.
Proof.
  induction settings as [|s settings IH]; intros at_ from H; [done|]. cbn [entries List.filter fst].
  destruct (Nat.eqb_spec from at_); [lia|]. cbn [negb]. f_equal. apply IH. lia.
Qed.

Definition setting_cell (s : Setting) : nat * list Arg := (setting_index p s, setting_values s).

Lemma consume_settings sub settings : forall fuel (r : Run S) at_, base r = r -> forallb (setting_ok p) settings = true ->
  drop at_ args = map arg_of_text (concat (map written settings)) -> drop at_ pattern = concat (map cells settings) -> (length settings <= fuel)%nat ->
  consume_options check help_text usage_text version_text sub p args pattern fuel (with_options r (entries p at_ settings)) at_ =
  (do! r' := take_each check help_text usage_text version_text no_sub p r (map setting_cell settings) in
   Done (with_options r' [], (at_ + length (concat (map written settings)))%nat)) /\
  forall r', take_each check help_text usage_text version_text no_sub p r (map setting_cell settings) = Done r' -> base r' = r'.
Proof.
  induction settings as [|s settings IH]; intros fuel r at_ Hb Hs Ha Hc Hf.
  { destruct fuel; cbn; rewrite Nat.add_0_r; (split; [done|by intros ? [= <-]]). }
  destruct fuel as [|fuel]; [cbn in Hf; lia|]. cbn [forallb] in Hs. apply andb_true_iff in Hs as [Hok Hs].
  cbn [map concat entries consume_options with_options options List.find fst] in *. rewrite Nat.leb_refl. unfold consume_values. rewrite Nat.eqb_refl.
  cbn [bind]. unfold consume_optional. cbn [with_options options List.find List.filter fst]. rewrite Nat.eqb_refl. cbn [negb fmap option_fmap option_map snd default].
  rewrite entries_later by (destruct s; cbn; lia).
  cbn [id]. rewrite (match_setting _ at_ s settings) by done. cbn [bind take_each setting_cell].
  assert (forall a, actions p !! setting_index p s = Some a -> match kind a with Commands _ => False | _ => True end) as Hcmd.
  { intros a Haction. apply andb_true_iff in Hp as [Hall _]. rewrite forallb_forall in Hall.
    apply list_elem_of_lookup_2, list_elem_of_In, Hall, andb_true_iff in Haction as [_ Hk]. by destruct (kind a). }
  destruct (take_action_run r (setting_index p s) (setting_values s) Hb Hcmd) as [Hrun Hkeep].
  set (rest := entries p _ settings). assert (with_options (with_options r ((at_, [reading p s]) :: rest)) rest = with_options r rest) as -> by done.
  rewrite Hrun. destruct (take_action _ _ _ _ no_sub _ _ _ _) as [r1| |]; [|by split..]. cbn [bind].
  specialize (IH fuel r1 (at_ + length (written s))%nat (Hkeep r1 eq_refl) Hs).
  rewrite <- !drop_drop, Ha, Hc, map_app in IH. rewrite !drop_app_length' in IH by (by destruct s).
  cbn [length] in Hf. specialize (IH eq_refl eq_refl ltac:(lia)). destruct IH as [IH1 IH2]. unfold rest. rewrite IH1. split; [|done].
  by rewrite length_app, Nat.add_assoc.
Qed.
End Written.

Lemma plain_no_positionals {S} p (s : S) options : plain_parser p = true -> new_run p options s = with_options (new_run p [] s) options /\
  base (new_run p [] s) = new_run p [] s.
Proof.
  intros [Hall _]%andb_true_iff. assert (positionals (new_run p [] s) = []) as Hp.
  { cbn. destruct (omap _ _) as [|i l] eqn:E; [done|]. exfalso. assert (i ∈ i :: l) as Hi by left. rewrite <- E in Hi.
    apply list_elem_of_omap in Hi as ([k a] & Ha%imap_pair_elem & Hi). rewrite forallb_forall in Hall.
    apply list_elem_of_lookup_2, list_elem_of_In, Hall, andb_true_iff in Ha as [Ha _]. by case_bool_decide. }
  split; [done|]. unfold base, new_run in *. cbn [positionals] in Hp. rewrite Hp. done.
Qed.

(** C10: Settings written as arguments are read back: a parse takes the action of each setting, in order,
    with its value (of the same argument or the next), and then checks what is required.  The
    result, errors and help included, is that of the actions alone; no argument is left over. *)
Theorem parse_written {S} (check : S -> str -> Value -> S * result Value str) help_text usage_text version_text p settings s
    (Hp : plain_parser p = true) (Hs : forallb (setting_ok p) settings = true) :
  parse_alone_checked check help_text usage_text version_text p (map arg_of_text (concat (map written settings))) s =
  (do! r := take_each check help_text usage_text version_text no_sub p (new_run p [] s) (map (setting_cell p) settings) in
   do! _ := check_required usage_text p r in Done (namespace r)).
Proof.
  unfold parse_alone_checked. pose proof (classify_settings p settings Hp Hs) as Hc. set (args := map arg_of_text _) in *. cbn [parse_known]. rewrite Hc.
  destruct (plain_no_positionals p s (entries p 0 settings) Hp) as [-> Hb]. unfold consume_all.
  assert (length settings <= length args)%nat as Hf.
  { unfold args. rewrite length_map. clear. induction settings as [|[] settings IH]; cbn; lia. }
  edestruct (consume_settings check help_text usage_text version_text p args (concat (map cells settings)) Hp
    (parse_known check help_text usage_text version_text (length args)) settings (length args) _ 0 Hb Hs eq_refl eq_refl Hf) as [-> Hbase].
  destruct (take_each _ _ _ _ no_sub _ _ _) as [r| |] eqn:E; [|done|done]. cbn [bind].
  specialize (Hbase r eq_refl). rewrite Nat.add_0_l.
  assert (length args = length (concat (map written settings))) as Hl by apply length_map.
  unfold consume_positionals. rewrite <- Hbase. cbn [with_options base positionals each bind]. rewrite good_slice by (rewrite cells_length; lia).
  cbn [bind zip zip_with]. cbn [match_partial length seq rev find_map take_positionals bind drop].
  rewrite good_slice by lia. rewrite Hl, Nat.sub_diag. cbn [bind take map].
  change (check_required usage_text p (with_extras _ _)) with (check_required usage_text p (base r)).
  by destruct (check_required usage_text p (base r)).
Qed.

(** A parser with a flag, a value option and a repeated one. *)
Definition sample_parser : Parser :=
  let text_value := KValue (fun a => Ok (VText a)) [] in
  MkParser (lit "diff")
    [ MkAction [lit "-h"; lit "--help"] (lit "help") None Help false;
      MkAction [lit "-q"; lit "--quiet"] (lit "quiet") None Flag false;
      MkAction [lit "--base"] (lit "base") None (text_value false) true;
      MkAction [lit "--path"; lit "-p"] (lit "path") None (text_value true) false ] None.

(** A command with a subcommand, and a positional of any count for it. *)
Definition sample_top : Parser :=
  MkParser (lit "tool")
    [ MkAction [lit "-v"] (lit "verbose") None Flag false;
      MkAction [] (lit "command") None (Commands [MkCommand (lit "diff") (Built sample_parser)]) true ] None.

Lemma sample_parser_ok : parser_ok sample_parser.
Proof.
  split; [done| |]; intros a commands Ha Hk; exfalso; repeat (apply elem_of_cons in Ha as [->|Ha]; [discriminate Hk|]);
    by apply elem_of_nil in Ha.
Qed.

Lemma sample_top_ok : parser_ok sample_top /\ requires_choice sample_top.
Proof.
  split; [|by exists 1%nat; eexists]. split; [done| |]; intros a commands Ha Hk;
    repeat (apply elem_of_cons in Ha as [->|Ha]; [try discriminate Hk|]); try (by apply elem_of_nil in Ha); [done|].
  injection Hk as <-. intros c [->|Hc]%elem_of_cons; [apply sample_parser_ok|by apply elem_of_nil in Hc].
Qed.

Definition sample_words (words : list string) : list (list Z) := map lit words.

Definition no_text (_ : Parser) : str := [].

(** A value option of the subcommand, after a flag of the top parser. *)
Lemma command_line_total_witness :
  let raws := sample_words ["-v"; "diff"; "--base"; "main"; "-qp"; "x"]%string in
  parser_ok sample_top /\ requires_choice sample_top /\ Forall (Forall is_byte) raws /\
  match parse no_text no_text id sample_top (map new_arg raws) with
  | Done parsed => chosen_in sample_top (parsed_chosen parsed)
  | Exits _ => True
  | Panics => False
  end.
Proof.
  intros raws. assert (Forall (Forall is_byte) raws) as Hraws.
  { unfold raws. vm_compute. repeat constructor; intros [=]. }
  pose proof sample_top_ok as [Hok Hchoice]. split; [exact Hok|]. split; [exact Hchoice|]. split; [exact Hraws|].
  exact (command_line_total no_text no_text id sample_top raws Hok Hchoice Hraws).
Defined.

(** The flag and the list of a subcommand: [-qp] is two options. *)
Example parse_combined :
  match parse no_text no_text id sample_top (map new_arg (sample_words ["-v"; "diff"; "--base"; "main"; "-qp"; "x"]%string)) with
  | Done parsed =>
      parsed_chosen parsed = Ported [lit "diff"]
        [(lit "base", VText (new_arg (lit "main"))); (lit "quiet", VFlag); (lit "path", VList [new_arg (lit "x")])]
  | _ => False
  end.
Proof. vm_compute. reflexivity. Qed.

Lemma parse_written_witness :
  let settings := [Bare (lit "-q"); Apart (lit "--path") (lit "a b"); Joined (lit "--base") (lit "v=1"); Joined (lit "-p") []] in
  let parsed := [(lit "quiet", VFlag); (lit "base", VText (arg_of_text (lit "v=1"))); (lit "path", VList [arg_of_text (lit "a b"); arg_of_text []])] in
  plain_parser sample_parser = true /\ forallb (setting_ok sample_parser) settings = true /\
  parse_alone no_text no_text id sample_parser (map arg_of_text (concat (map written settings))) = Done parsed.
Proof.
  intros settings parsed. assert (plain_parser sample_parser = true) as Hp by (vm_compute; reflexivity).
  assert (forallb (setting_ok sample_parser) settings = true) as Hs by (vm_compute; reflexivity).
  split; [exact Hp|]. split; [exact Hs|]. unfold parse_alone.
  rewrite (parse_written unchecked no_text no_text id sample_parser settings tt Hp Hs). vm_compute. reflexivity.
Defined.
