(* ===== verification/Tokenize.v ===== *)
(** The scan for Python code lines: crates/metrics/src/tokenize.rs.

    The scanner walks the text one token at a time, with a stack of indentations and a stack of open
    f-strings, and notes the lines on which a counted token starts.  [python_sloc_total] shows that
    the scan ends without a panic on every text; [scanner_bounds] shows the limits that every state
    of a scan keeps. *)

From S2P Require Import Prelude RustStr Text Unicode.

#[local] Open Scope Z_scope.
#[local] Open Scope rs_scope.

(** * Data *)

Definition MAX_INDENT : nat := 100.
Definition MAX_LEVEL : nat := 200.
Definition MAX_FSTRING_LEVEL : nat := 150.
Definition MAX_EXPR_NESTING : Z := 3.
Definition TAB_SIZE : nat := 8.
Definition UNEXPECTED_EOF : str := lit "unexpected EOF in multi-line statement".
Definition FORMAT_SPEC_NEWLINE : str :=
  lit "f-string: newlines are not allowed in format specifiers for single quoted f-strings".

Inductive TokenizeErrorKind := Token | Indentation | Tab.

Definition class_name (kind : TokenizeErrorKind) : str :=
  match kind with Token => lit "TokenError" | Indentation => lit "IndentationError" | Tab => lit "TabError" end.

Record TokenizeError := { kind : TokenizeErrorKind; message : str }.

(** [TokenizeError] as text. *)
Definition error_text (e : TokenizeError) : str := class_name (kind e) ++ lit ": " ++ message e.

Definition token_error (message : str) : TokenizeError := {| kind := Token; message := message |}.
Definition indentation_error (message : str) : TokenizeError := {| kind := Indentation; message := message |}.
Definition tab_error : TokenizeError :=
  {| kind := Tab; message := lit "inconsistent use of tabs and spaces in indentation" |}.

(** [fields] is the depth of the open replacement field, from 0; -1 in the top-level text. *)
Record FString := {
  quote : char;
  size : nat;
  raw : bool;
  in_literal : bool;
  brackets : Z;
  fields : Z;
  format_spec : bool
}.

Definition in_format_spec (f : FString) : bool := format_spec f && (0 <=? fields f).

Record Prefix := { p_len : nat; p_quote : char; p_fstring : bool; p_raw : bool }.

(** The stacks and the lines are here with their last entry first. *)
Record Scanner := {
  chars : str;
  cut_at_null : bool;
  pos : nat;
  line : Z;
  level : nat;
  at_line_start : bool;
  indents : list (nat * nat);
  fstrings : list FString;
  lines : list Z
}.

Definition c_hash : char := 35.
Definition c_tab : char := 9.
Definition c_form_feed : char := 12.
Definition c_colon : char := 58.
Definition c_open_brace : char := 123.
Definition c_close_brace : char := 125.
Definition c_underscore : char := 95.
Definition c_zero : char := 48.

(** A step of the scan: a value and the scanner after it, the failure, or a panic, which is also
    what a loop gives that runs out of fuel. *)
Inductive Scan (A : Type) := Got (a : A) (s : Scanner) | Fails (e : TokenizeError) | Panics.
Arguments Got {A} a s.
Arguments Fails {A} e.
Arguments Panics {A}.

Definition bind {A B} (m : Scan A) (k : A -> Scanner -> Scan B) : Scan B :=
  match m with Got a s => k a s | Fails e => Fails e | Panics => Panics end.

Notation "'scan!' a ',' s := m 'in' k" := (bind m (fun a s => k)) (at level 10, a pattern, s name, m at level 100, k at level 200) : rs_scope.

(** A loop goes on with a new value or ends with its result. *)
Inductive Turn (A B : Type) := Again (a : A) | End_ (b : B).
Arguments Again {A B} a.
Arguments End_ {A B} b.

Fixpoint loop {A B} (fuel : nat) (body : A -> Scanner -> Scan (Turn A B)) (a : A) (s : Scanner) : Scan B :=
  match fuel with
  | O => Panics
  | S fuel => scan! turn, s := body a s in match turn with Again a => loop fuel body a s | End_ b => Got b s end
  end.

(** Enough turns for a loop whose every turn but the last moves on. *)
Definition turns (s : Scanner) : nat := S (length (chars s) - pos s).

(** * Characters *)

Definition is_ascii_alphabetic (c : char) : bool := (65 <=? c) && (c <=? 90) || (97 <=? c) && (c <=? 122).
Definition is_hex_digit (c : char) : bool :=
  is_ascii_digit c || (65 <=? c) && (c <=? 70) || (97 <=? c) && (c <=? 102).
Definition is_octal_digit (c : char) : bool := (48 <=? c) && (c <=? 55).
Definition is_binary_digit (c : char) : bool := (c =? 48) || (c =? 49).
Definition is_name_start (c : char) : bool := is_ascii_alphabetic c || (c =? c_underscore) || (127 <? c).
Definition is_name_char (c : char) : bool := is_name_start c || is_ascii_digit c.
Definition is_ascii_control (c : char) : bool := (c <? 32) || (c =? 127).
Definition to_ascii_lowercase (c : char) : char := if (65 <=? c) && (c <=? 90) then c + 32 else c.
Definition is_quote (c : char) : bool := (c =? c_squote) || (c =? c_dquote).

(** [char::is_some_and] of a peeked character. *)
Definition some_char (f : char -> bool) (c : option char) : bool := from_option f false c.

(** * Moving *)

Definition peek (s : Scanner) : option char := chars s !! pos s.
Definition peek_at (s : Scanner) (offset : nat) : option char := chars s !! (pos s + offset)%nat.

(** A [u32] sum, wrapped. *)
Definition u32_add (a b : Z) : Z := (a + b) mod 2 ^ 32.

Definition moved (s : Scanner) (pos : nat) (line : Z) : Scanner :=
  {| chars := chars s; cut_at_null := cut_at_null s; pos := pos; line := line; level := level s;
     at_line_start := at_line_start s; indents := indents s; fstrings := fstrings s; lines := lines s |}.

Definition bump (s : Scanner) : Scanner :=
  match peek s with
  | Some c => moved s (pos s + 1) (u32_add (line s) (if c =? c_lf then 1 else 0))
  | None => s
  end.

Definition skip (s : Scanner) (count : nat) : Scanner := Nat.iter count bump s.

(** The loop bumps over the accepted characters. *)
Definition skip_while (s : Scanner) (accept : char -> bool) : Scanner :=
  skip s (length (take_while accept (drop (pos s) (chars s)))).

Definition at_quotes (s : Scanner) (quote : char) (size : nat) : bool :=
  forallb (fun offset => bool_decide (peek_at s offset = Some quote)) (seq 0 size).

Definition with_lines (s : Scanner) (lines : list Z) : Scanner :=
  {| chars := chars s; cut_at_null := cut_at_null s; pos := pos s; line := line s; level := level s;
     at_line_start := at_line_start s; indents := indents s; fstrings := fstrings s; lines := lines |}.
Definition with_line_start (s : Scanner) (b : bool) : Scanner :=
  {| chars := chars s; cut_at_null := cut_at_null s; pos := pos s; line := line s; level := level s;
     at_line_start := b; indents := indents s; fstrings := fstrings s; lines := lines s |}.
Definition with_indents (s : Scanner) (indents : list (nat * nat)) : Scanner :=
  {| chars := chars s; cut_at_null := cut_at_null s; pos := pos s; line := line s; level := level s;
     at_line_start := at_line_start s; indents := indents; fstrings := fstrings s; lines := lines s |}.
Definition with_level (s : Scanner) (level : nat) : Scanner :=
  {| chars := chars s; cut_at_null := cut_at_null s; pos := pos s; line := line s; level := level;
     at_line_start := at_line_start s; indents := indents s; fstrings := fstrings s; lines := lines s |}.
Definition with_fstrings (s : Scanner) (fstrings : list FString) : Scanner :=
  {| chars := chars s; cut_at_null := cut_at_null s; pos := pos s; line := line s; level := level s;
     at_line_start := at_line_start s; indents := indents s; fstrings := fstrings; lines := lines s |}.

Definition with_state (f : FString) (in_literal : bool) (brackets fields : Z) (format_spec : bool) : FString :=
  {| quote := quote f; size := size f; raw := raw f; in_literal := in_literal; brackets := brackets; fields := fields;
     format_spec := format_spec |}.

Definition count_line (s : Scanner) (line : Z) : Scanner :=
  if bool_decide (head (lines s) = Some line) then s else with_lines s (line :: lines s).

Definition count (s : Scanner) : Scanner := count_line s (line s).

(** At the end of input the scanner has passed the last line feed. *)
Definition detected_line (s : Scanner) : Z := (line s - (if bool_decide (peek s = None) then 1 else 0)) mod 2 ^ 32.

Definition eof_error (s : Scanner) (error : TokenizeError) : TokenizeError :=
  if cut_at_null s then token_error (lit "source code cannot contain null bytes") else error.

(** [top_fstring]: a step that runs only while an f-string is open changes it. *)
Definition on_top (s : Scanner) (f : FString -> FString) : Scan unit :=
  match fstrings s with [] => Panics | top :: rest => Got tt (with_fstrings s (f top :: rest)) end.

(** * Lines and indentation *)

Definition comment (s : Scanner) : Scanner := skip_while s (fun c => negb (c =? c_lf)).

Definition newline (s : Scanner) : Scanner := with_line_start (bump s) true.

Definition continuation (s : Scanner) : Scan unit :=
  let s := bump s in
  if negb (bool_decide (peek s = Some c_lf))
  then Fails (token_error (lit "unexpected character after line continuation character"))
  else
    let s := bump s in
    match peek s with None => Fails (eof_error s (token_error UNEXPECTED_EOF)) | Some _ => Got tt s end.

Definition end_of_input (s : Scanner) : Scan unit :=
  if (0 <? level s)%nat || cut_at_null s then Fails (eof_error s (token_error UNEXPECTED_EOF)) else Got tt s.

Definition skip_spaces (s : Scanner) : Scanner :=
  skip_while s (fun c => (c =? c_space) || (c =? c_tab) || (c =? c_form_feed)).

Definition indent_columns_turn (a : nat * nat * nat) (s : Scanner) : Scan (Turn (nat * nat * nat) (nat * nat * nat)) :=
  let '(col, alt, continued_at) := a in
  let c := peek s in
  let continued_at := if bool_decide (c = Some c_backslash) && (continued_at =? 0)%nat then col else continued_at in
  match c with
  | Some c =>
      if c =? c_space then Got (Again ((col + 1)%nat, (alt + 1)%nat, continued_at)) (bump s)
      else if c =? c_tab then Got (Again (((col / TAB_SIZE + 1) * TAB_SIZE)%nat, (alt + 1)%nat, continued_at)) (bump s)
      else if c =? c_form_feed then Got (Again (0%nat, 0%nat, continued_at)) (bump s)
      else if c =? c_backslash then scan! _, s := continuation s in Got (Again (col, alt, continued_at)) s
      else Got (End_ (col, alt, continued_at)) s
  | None => Got (End_ (col, alt, continued_at)) s
  end.

Definition indent_columns (s : Scanner) : Scan (nat * nat) :=
  scan! (col, alt, continued_at), s := loop (turns s) indent_columns_turn (0%nat, 0%nat, 0%nat) s in
  Got (if (continued_at =? 0)%nat then (col, alt) else (continued_at, continued_at)) s.

Fixpoint pop_indents (col : nat) (indents : list (nat * nat)) : list (nat * nat) :=
  match indents with
  | top :: (_ :: _) as rest => if (col <? top.1)%nat then pop_indents col rest else indents
  | _ => indents
  end.

Definition check_indent (s : Scanner) (col alt : nat) : Scan unit :=
  match indents s with
  | [] => Panics
  | (top_col, top_alt) :: _ =>
      if (top_col <? col)%nat then
        if (MAX_INDENT <=? length (indents s))%nat then Fails (indentation_error (lit "too many levels of indentation"))
        else if (alt <=? top_alt)%nat then Fails tab_error
        else Got tt (with_indents s ((col, alt) :: indents s))
      else
        let s := with_indents s (pop_indents col (indents s)) in
        match indents s with
        | [] => Panics
        | (top_col, top_alt) :: _ =>
            if negb (col =? top_col)%nat then Fails (indentation_error (lit "unindent does not match any outer indentation level"))
            else if negb (alt =? top_alt)%nat then Fails tab_error
            else Got tt s
        end
  end.

Definition indentation (s : Scanner) : Scan unit :=
  scan! (col, alt), s := indent_columns s in
  if some_char (fun c => (c =? c_hash) || (c =? c_lf)) (peek s) || (0 <? level s)%nat then Got tt s else check_indent s col alt.

(** * Strings *)

Definition open_quote (s : Scanner) (quote : char) : nat * Scanner :=
  let size := if at_quotes s quote 3 then 3%nat else 1%nat in (size, skip s size).

(** Steps over a backslash and the character after it; whether that one is the quote. *)
Definition skip_escape (s : Scanner) (quote : char) : bool * Scanner :=
  let s := bump s in (bool_decide (peek s = Some quote), bump s).

Definition unterminated_string (s : Scanner) (q : char) (n : nat) (escaped_quote : bool) : TokenizeError :=
  if from_option (fun f => (quote f =? q) && (size f =? n)%nat) false (head (fstrings s))
  then token_error (lit "f-string: expecting '}'")
  else if (n =? 3)%nat then token_error (lit "EOF in multi-line string")
  else
    token_error (lit "unterminated string literal (detected at line " ++ dec_text (detected_line s) ++ lit ")"
                   ++ (if escaped_quote then lit "; perhaps you escaped the end quote?" else [])).

Definition string_turn (quote : char) (size : nat) (escaped_quote : bool) (s : Scanner) : Scan (Turn bool unit) :=
  if at_quotes s quote size then Got (End_ tt) s
  else
    match peek s with
    | None => Fails (eof_error s (unterminated_string s quote size escaped_quote))
    | Some c =>
        if (c =? c_lf) && (size =? 1)%nat then Fails (unterminated_string s quote size escaped_quote)
        else if c =? c_backslash then
          let '(escaped, s) := skip_escape s quote in Got (Again (escaped_quote || escaped)) s
        else Got (Again escaped_quote) (bump s)
    end.

Definition string_body (s : Scanner) (quote : char) : Scan unit :=
  let '(size, s) := open_quote s quote in
  scan! _, s := loop (turns s) (string_turn quote size) false s in
  Got tt (skip s size).

Definition string_ (s : Scanner) (quote : char) : Scan unit := string_body (count s) quote.

Definition PREFIXES : list str := [lit "b"; lit "r"; lit "u"; lit "f"; lit "br"; lit "rb"; lit "fr"; lit "rf"].

(** The letters before a quote one or two characters ahead. *)
Definition string_prefix (s : Scanner) : option Prefix :=
  len ← List.find (fun offset => some_char is_quote (peek_at s offset)) [1; 2]%nat;
  let letters := map to_ascii_lowercase (take len (drop (pos s) (chars s))) in
  if negb (bool_decide (letters ∈ PREFIXES)) then None
  else
    quote ← peek_at s len;
    Some {| p_len := len; p_quote := quote; p_fstring := bool_decide (102 ∈ letters); p_raw := bool_decide (114 ∈ letters) |}.

Definition fstring_start (s : Scanner) (prefix : Prefix) : Scan unit :=
  let s := skip s (p_len prefix) in
  let '(size, s) := open_quote s (p_quote prefix) in
  if (MAX_FSTRING_LEVEL <=? length (fstrings s) + 1)%nat then Fails (token_error (lit "too many nested f-strings"))
  else
    Got tt (with_fstrings s
      ({| quote := p_quote prefix; size := size; raw := p_raw prefix; in_literal := true; brackets := 0; fields := -1;
          format_spec := false |} :: fstrings s)).

Definition name_or_string (s : Scanner) : Scan unit :=
  let s := count s in
  match string_prefix s with
  | Some prefix => if p_fstring prefix then fstring_start s prefix else string_body (skip s (p_len prefix)) (p_quote prefix)
  | None => Got tt (skip_while s is_name_char)
  end.

(** * Numbers *)

Definition decimal_turn (_ : unit) (s : Scanner) : Scan (Turn unit unit) :=
  let s := skip_while s is_ascii_digit in
  if negb (bool_decide (peek s = Some c_underscore)) then Got (End_ tt) s
  else
    let s := bump s in
    if negb (some_char is_ascii_digit (peek s)) then Fails (token_error (lit "invalid decimal literal")) else Got (Again tt) s.

Definition decimal_digits (s : Scanner) : Scan unit := loop (turns s) decimal_turn tt s.

Definition exponent (s : Scanner) : Scan unit :=
  if negb (some_char (fun c => (c =? 101) || (c =? 69)) (peek s)) then Got tt s
  else
    let sign := if some_char (fun c => (c =? 43) || (c =? 45)) (peek_at s 1) then 1%nat else 0%nat in
    if negb (some_char is_ascii_digit (peek_at s (1 + sign))) then
      if (sign =? 1)%nat then Fails (token_error (lit "invalid decimal literal")) else Got tt s
    else decimal_digits (skip s (1 + sign)).

Definition radix (marker : option char) : str * (char -> bool) :=
  if some_char (fun c => (c =? 120) || (c =? 88)) marker then (lit "hexadecimal", is_hex_digit)
  else if some_char (fun c => (c =? 111) || (c =? 79)) marker then (lit "octal", is_octal_digit)
  else (lit "binary", is_binary_digit).

Definition radix_error (name : str) (found : option char) : TokenizeError :=
  match found with
  | Some c =>
      if is_ascii_digit c then token_error (lit "invalid digit '" ++ [c] ++ lit "' in " ++ name ++ lit " literal")
      else token_error (lit "invalid " ++ name ++ lit " literal")
  | None => token_error (lit "invalid " ++ name ++ lit " literal")
  end.

Definition radix_turn (name : str) (is_digit : char -> bool) (_ : unit) (s : Scanner) : Scan (Turn unit unit) :=
  let s := if bool_decide (peek s = Some c_underscore) then bump s else s in
  if negb (some_char is_digit (peek s)) then Fails (radix_error name (peek s))
  else
    let s := skip_while s is_digit in
    if bool_decide (peek s = Some c_underscore) then Got (Again tt) s else Got (End_ tt) s.

Definition radix_number (s : Scanner) : Scan unit :=
  let s := bump s in
  let '(name, is_digit) := radix (peek s) in
  let s := bump s in
  scan! _, s := loop (turns s) (radix_turn name is_digit) tt s in
  if some_char is_ascii_digit (peek s) then Fails (radix_error name (peek s)) else Got tt s.

Definition number (s : Scanner) : Scan unit :=
  let s := count s in
  if bool_decide (peek s = Some c_zero)
     && some_char (fun c => (c =? 120) || (c =? 88) || (c =? 111) || (c =? 79) || (c =? 98) || (c =? 66)) (peek_at s 1)
  then radix_number s
  else
    scan! _, s := decimal_digits s in
    scan! _, s := (if bool_decide (peek s = Some c_dot) then
                     let s := bump s in if some_char is_ascii_digit (peek s) then decimal_digits s else Got tt s
                   else Got tt s) in
    scan! _, s := exponent s in
    Got tt (if some_char (fun c => (c =? 106) || (c =? 74)) (peek s) then bump s else s).

(** * Punctuation *)

Definition starts_format_spec (s : Scanner) : bool :=
  from_option (fun f => (0 <=? fields f) && (brackets f - 1 =? fields f)) false (head (fstrings s)).

Definition open_bracket (s : Scanner) : Scan unit :=
  if (MAX_LEVEL <=? level s)%nat then Fails (token_error (lit "too many nested parentheses"))
  else
    let s := with_level s (level s + 1) in
    Got tt match fstrings s with
           | [] => s
           | top :: rest => with_fstrings s (with_state top (in_literal top) (brackets top + 1) (fields top) (format_spec top) :: rest)
           end.

Definition close_bracket (s : Scanner) (c : char) : Scan unit :=
  let s := with_level s (level s - 1) in
  match fstrings s with
  | [] => Got tt s
  | top :: rest =>
      if (c =? c_close_brace) && (brackets top =? 0) then Fails (token_error (lit "f-string: single '}' is not allowed"))
      else
        let brackets := brackets top - 1 in
        if brackets <? 0 then Fails (token_error (lit "f-string: unmatched '" ++ [c] ++ lit "'"))
        else
          let top :=
            if (c =? c_close_brace) && (brackets =? fields top) then with_state top true brackets (fields top - 1) false
            else with_state top (in_literal top) brackets (fields top) (format_spec top) in
          Got tt (with_fstrings s (top :: rest))
  end.

(** [{:04X}]. *)
Definition hex_upper (n : Z) : str := map (fun d => if (97 <=? d) && (d <=? 102) then d - 32 else d) (hex_padded 4 n).

Definition is_opening (c : char) : bool := (c =? 40) || (c =? 91) || (c =? c_open_brace).
Definition is_closing (c : char) : bool := (c =? 41) || (c =? 93) || (c =? c_close_brace).

Definition punctuation (s : Scanner) (c : char) : Scan unit :=
  if (c =? c_colon) && starts_format_spec s then
    let s := bump (count s) in
    on_top s (fun top => with_state top true (brackets top) (fields top) true)
  else
    scan! _, s := (if is_opening c then open_bracket s
                   else if is_closing c then close_bracket s c
                   else if is_ascii_control c
                   then Fails (token_error (lit "invalid non-printable character U+" ++ hex_upper c))
                   else Got tt s) in
    Got tt (bump (count s)).

(** * F-strings *)

Definition unterminated_fstring (s : Scanner) (size : nat) : TokenizeError :=
  token_error (lit "unterminated " ++ (if (size =? 3)%nat then lit "triple-quoted " else [])
                 ++ lit "f-string literal (detected at line " ++ dec_text (detected_line s) ++ lit ")").

Definition open_field (s : Scanner) : Scan unit :=
  match fstrings s with
  | [] => Panics
  | top :: rest =>
      let top := with_state top false (brackets top) (fields top + 1) (format_spec top) in
      if MAX_EXPR_NESTING <=? fields top then Fails (token_error (lit "f-string: expressions nested too deeply"))
      else Got tt (with_fstrings s (top :: rest))
  end.

Definition middle_open (s : Scanner) (f : FString) : Scan unit :=
  if bool_decide (peek_at s 1 = Some c_open_brace) && negb (in_format_spec f) then Got tt (skip s 2)
  else
    scan! _, s := on_top s (fun top => with_state top (in_literal top) (brackets top) (fields top) false) in
    open_field s.

Definition middle_close (s : Scanner) (f : FString) (named_escape : bool) : Scan unit :=
  if named_escape then Got tt (bump s)
  else if bool_decide (peek_at s 1 = Some c_close_brace) && negb (in_format_spec f) && (brackets f =? 0) then Got tt (skip s 2)
  else on_top s (fun top => with_state top false (brackets top) (fields top) false).

Definition middle_escape (s : Scanner) (raw : bool) : bool * Scanner :=
  let s := bump s in
  if some_char (fun c => (c =? c_open_brace) || (c =? c_close_brace)) (peek s) then (false, s)
  else if bool_decide (peek s = Some 78) && negb raw then
    let s := bump s in
    if bool_decide (peek s = Some c_open_brace) then (true, bump s) else (false, s)
  else (false, bump s).

Definition middle_newline (s : Scanner) (f : FString) : TokenizeError :=
  if in_format_spec f then token_error FORMAT_SPEC_NEWLINE else unterminated_fstring s (size f).

(** Whether the literal part ends here, and whether a named escape was opened in it. *)
Definition middle_step (f : FString) (named_escape : bool) (s : Scanner) : Scan (bool * bool) :=
  match peek s with
  | None => Fails (eof_error s (unterminated_fstring s (size f)))
  | Some c =>
      if (c =? c_lf) && (size f =? 1)%nat then Fails (middle_newline s f)
      else if c =? c_open_brace then scan! _, s := middle_open s f in Got (true, named_escape) s
      else if c =? c_close_brace then scan! _, s := middle_close s f named_escape in Got (true, named_escape) s
      else if c =? c_backslash then let '(named, s) := middle_escape s (raw f) in Got (false, named_escape || named) s
      else Got (false, named_escape) (bump s)
  end.

Definition middle_turn (f : FString) (named_escape : bool) (s : Scanner) : Scan (Turn bool unit) :=
  if at_quotes s (quote f) (size f) then Got (End_ tt) s
  else
    scan! (ends, named_escape), s := middle_step f named_escape s in
    Got (if ends : bool then End_ tt else Again named_escape) s.

Definition fstring_middle (s : Scanner) (f : FString) : Scan unit :=
  let start := pos s in
  let line := line s in
  scan! _, s := loop (turns s) (middle_turn f) false s in
  Got tt (if (start <? pos s)%nat then count_line s line else s).

Definition fstring_part (s : Scanner) (f : FString) : Scan unit :=
  if bool_decide (peek s = Some c_open_brace) && negb (bool_decide (peek_at s 1 = Some c_open_brace)) then open_field s
  else if at_quotes s (quote f) (size f) then
    let s := skip (count s) (size f) in
    Got tt (with_fstrings s (tail (fstrings s)))
  else fstring_middle s f.

(** * The scan *)

Definition token (s : Scanner) (c : char) : Scan unit :=
  if c =? c_hash then Got tt (comment s)
  else if c =? c_lf then Got tt (newline s)
  else if c =? c_backslash then continuation s
  else if is_quote c then string_ s c
  else if is_ascii_digit c then number s
  else if is_name_start c then name_or_string s
  else punctuation s c.

Definition normal_token (s : Scanner) : Scan bool :=
  scan! _, s := (if at_line_start s then indentation (with_line_start s false) else Got tt s) in
  let s := skip_spaces s in
  match peek s with
  | None => scan! _, s := end_of_input s in Got false s
  | Some c => scan! _, s := token s c in Got true s
  end.

(** Whether a token was read; none is left at the end. *)
Definition next_token (s : Scanner) : Scan bool :=
  match fstrings s with
  | f :: _ => if in_literal f then scan! _, s := fstring_part s f in Got true s else normal_token s
  | [] => normal_token s
  end.

(** Every line ends in one line feed; a line with a null byte stops the scan. *)
Fixpoint scan_lines (pieces : list str) : str * bool :=
  match pieces with
  | [] => ([], false)
  | piece :: pieces =>
      if bool_decide (0 ∈ piece) then ([], true)
      else
        let body := if ends_with_char (is_char c_lf) piece then removelast piece else piece in
        let body := if ends_with_char (is_char c_cr) body then removelast body else body in
        let '(chars, cut) := scan_lines pieces in
        (body ++ [c_lf] ++ chars, cut)
  end.

Definition scan_buffer (source : str) : str * bool := scan_lines (splitlines source true).

Definition new_scanner (source : str) : Scanner :=
  let '(chars, cut) := scan_buffer source in
  {| chars := chars; cut_at_null := cut; pos := 0; line := 1; level := 0; at_line_start := true;
     indents := [(0%nat, 0%nat)]; fstrings := []; lines := [] |}.

Definition run_turn (_ : unit) (s : Scanner) : Scan (Turn unit unit) :=
  scan! more, s := next_token s in Got (if more : bool then Again tt else End_ tt) s.

(** A token moves on, or an f-string goes from its text to a field: twice the characters, and one. *)
Definition run (s : Scanner) : option (result (gset Z) TokenizeError) :=
  match loop (2 * turns s) run_turn tt s with
  | Got _ s => Some (Ok (list_to_set (lines s)))
  | Fails e => Some (Err e)
  | Panics => None
  end.

(** The line numbers on which a counted token of the source starts, or the failure to tokenize it. *)
Definition python_sloc (source : str) : option (result (gset Z) TokenizeError) := run (new_scanner source).

(** * The invariant of a scan *)

(** The step does not panic, and what it gives has the property. *)
Definition runs {A} (P : A -> Scanner -> Prop) (m : Scan A) : Prop :=
  match m with Got a s => P a s | Fails _ => True | Panics => False end.

Lemma runs_bind {A B} (P : A -> Scanner -> Prop) (Q : B -> Scanner -> Prop) m (k : A -> Scanner -> Scan B) :
  runs P m -> (forall a s, P a s -> runs Q (k a s)) -> runs Q (bind m k).
Proof. destruct m; cbn; auto. Qed.

Lemma runs_weaken {A} (P Q : A -> Scanner -> Prop) m : runs P m -> (forall a s, P a s -> Q a s) -> runs Q m.
Proof. destruct m; cbn; auto. Qed.

(** A loop ends when a measure decreases with each turn. *)
Lemma runs_loop {A B} (m : Scanner -> nat) (I : A -> Scanner -> Prop) (Q : B -> Scanner -> Prop) body :
  (forall a s, I a s -> runs (fun turn s' => match turn with Again a' => I a' s' /\ (m s' < m s)%nat | End_ b => Q b s' end) (body a s)) ->
  forall fuel a s, (m s < fuel)%nat -> I a s -> runs Q (loop fuel body a s).
Proof.
  intros Hbody. induction fuel as [|fuel IH]; intros a s Hf HI; [lia|]. cbn [loop]. eapply runs_bind; [by apply Hbody|].
  intros [a'|b] s'; cbn; [|done]. intros [H1 H2]. apply IH; [lia|done].
Qed.

Definition lfs (s : str) : nat := length (List.filter (fun c => c =? c_lf) s).

Definition total_brackets (l : list FString) : nat := sum_list_with (fun f => Z.to_nat (brackets f)) l.

Record fstring_ok (f : FString) : Prop := {
  ok_quote : is_quote (quote f) = true;
  ok_size : size f = 1%nat \/ size f = 3%nat;
  ok_brackets : 0 <= brackets f;
  ok_fields : -1 <= fields f < MAX_EXPR_NESTING
}.

Section Invariant.
Context (text : str) (cut : bool) (Hlen : Z.of_nat (length text) < 2 ^ 32 - 1) (Hend : text = [] \/ exists t, text = t ++ [c_lf]).

(** The line of a position. *)
Definition line_at (p : nat) : Z := 1 + Z.of_nat (lfs (take p text)).

Record ok (s : Scanner) : Prop := {
  ok_chars : chars s = text;
  ok_cut : cut_at_null s = cut;
  ok_pos : (pos s <= length text)%nat;
  ok_line : line s = line_at (pos s);
  ok_level : (level s <= MAX_LEVEL)%nat;
  ok_indents : (1 <= length (indents s) <= MAX_INDENT)%nat;
  ok_sorted : StronglySorted (fun a b : nat * nat => (b.1 < a.1)%nat) (indents s);
  ok_depth : (length (fstrings s) < MAX_FSTRING_LEVEL)%nat;
  ok_fstrings : Forall fstring_ok (fstrings s);
  ok_total : (total_brackets (fstrings s) <= level s)%nat;
  ok_lines : Forall (fun l => 1 <= l <= Z.min (line s) (Z.of_nat (lfs text))) (lines s);
  ok_distinct : StronglySorted (fun a b => b < a) (lines s)
}.

Lemma lfs_app a b : lfs (a ++ b) = (lfs a + lfs b)%nat.
Proof. unfold lfs. by rewrite List.filter_app, length_app. Qed.

Lemma lfs_le a : (lfs a <= length a)%nat.
Proof. apply List.filter_length_le. Qed.

Lemma line_at_mono p q : (p <= q)%nat -> line_at p <= line_at q.
Proof.
  intros H. unfold line_at. rewrite <- (take_drop p (take q text)), lfs_app, take_take, Nat.min_l by done. lia.
Qed.

(** Before its end the text has a line break left. *)
Lemma line_at_range p : (p < length text)%nat -> 1 <= line_at p <= Z.of_nat (lfs text).
Proof.
  intros Hp. destruct Hend as [->|[t E]]; [cbn in Hp; lia|]. unfold line_at. split; [lia|].
  rewrite E in *. rewrite length_app in Hp. cbn in Hp. rewrite take_app_le by lia. rewrite lfs_app. cbn.
  rewrite <- (take_drop p t) at 2. rewrite lfs_app. lia.
Qed.

Lemma line_at_S p c : text !! p = Some c -> line_at (S p) = u32_add (line_at p) (if c =? c_lf then 1 else 0).
Proof.
  intros Hc. unfold line_at, u32_add. rewrite (take_S_r _ _ _ Hc), lfs_app. pose proof (lfs_le (take p text)) as H.
  rewrite length_take in H. pose proof (lookup_lt_Some _ _ _ Hc). rewrite Z.mod_small by (destruct (c =? c_lf); lia).
  unfold lfs at 2. cbn. destruct (c =? c_lf); cbn; lia.
Qed.

(** ** Moving *)

(** The scanner only moved on. *)
Definition moves (s s' : Scanner) : Prop := ok s' /\ (pos s <= pos s')%nat /\ s' = moved s (pos s') (line s').

(** Where the scanner is at a place. *)
Definition at_ (s : Scanner) (p : nat) : Scanner := moved s p (line_at p).

Lemma moves_at s p : ok s -> (pos s <= p <= length text)%nat -> moves s (at_ s p).
Proof.
  intros [] Hp. split; [|split; [cbn; lia|done]]. split; try done; [cbn; lia|]. cbn.
  eapply Forall_impl; [exact ok_lines0|]. cbn. intros l Hl. pose proof (line_at_mono (pos s) p ltac:(lia)). lia.
Qed.

Lemma moves_refl s : ok s -> moves s s.
Proof. intros H. split; [done|]. split; [lia|by destruct s]. Qed.

Lemma moves_trans s1 s2 s3 : moves s1 s2 -> moves s2 s3 -> moves s1 s3.
Proof. intros (H1 & H2 & E) (H3 & H4 & E'). split; [done|]. split; [lia|]. rewrite E', E. done. Qed.

Lemma moves_ok s s' : moves s s' -> ok s'.
Proof. by intros []. Qed.

Lemma peek_None s : ok s -> peek s = None <-> pos s = length text.
Proof. intros []. unfold peek. rewrite ok_chars0. rewrite lookup_ge_None. lia. Qed.

Lemma peek_Some s c : ok s -> peek s = Some c -> (pos s < length text)%nat /\ text !! pos s = Some c.
Proof. intros [] Hp. unfold peek in Hp. rewrite ok_chars0 in Hp. split; [by eapply lookup_lt_Some|done]. Qed.

Lemma bump_at s : ok s -> bump s = at_ s (Nat.min (S (pos s)) (length text)).
Proof.
  intros Hs. unfold bump. destruct (peek s) as [c|] eqn:E.
  - apply peek_Some in E as [Hp Hc]; [|done]. rewrite Nat.min_l by lia. unfold at_. rewrite (line_at_S _ c) by done.
    rewrite (ok_line _ Hs). by rewrite Nat.add_comm.
  - apply peek_None in E; [|done]. rewrite Nat.min_r by lia. rewrite <- E. unfold at_. rewrite <- (ok_line _ Hs). by destruct s.
Qed.

Lemma at_at s p q : at_ (at_ s p) q = at_ s q.
Proof. done. Qed.

Lemma skip_at s n : ok s -> skip s n = at_ s (Nat.min (pos s + n) (length text)).
Proof.
  intros Hs. induction n as [|n IH].
  - cbn. rewrite Nat.add_0_r, Nat.min_l by apply Hs. unfold at_. rewrite <- (ok_line _ Hs). by destruct s.
  - unfold skip in *. rewrite Nat.iter_succ, IH, bump_at, at_at; [|apply moves_ok with s, moves_at; [done|pose proof (ok_pos _ Hs); lia]].
    cbn [at_ moved pos]. f_equal. lia.
Qed.

Lemma skip_moves s n : ok s -> moves s (skip s n) /\ pos (skip s n) = Nat.min (pos s + n) (length text).
Proof. intros Hs. rewrite skip_at by done. split; [apply moves_at; [done|pose proof (ok_pos _ Hs); lia]|done]. Qed.

Lemma bump_moves s : ok s -> moves s (bump s).
Proof. intros Hs. apply (skip_moves s 1 Hs). Qed.

Lemma bump_pos s c : ok s -> peek s = Some c -> pos (bump s) = S (pos s).
Proof. intros Hs Hc. apply peek_Some in Hc as [Hp _]; [|done]. rewrite bump_at by done. cbn [at_ moved pos]. lia. Qed.

Lemma skip_while_moves s f : ok s -> moves s (skip_while s f).
Proof. intros Hs. by apply skip_moves. Qed.

Lemma skip_while_pos s f c : ok s -> peek s = Some c -> f c = true -> (pos s < pos (skip_while s f))%nat.
Proof.
  intros Hs Hc Hf. unfold skip_while. rewrite (proj2 (skip_moves s _ Hs)). pose proof (peek_Some _ _ Hs Hc) as [Hp Ht].
  rewrite (ok_chars _ Hs), (drop_S _ _ _ Ht). cbn [take_while]. rewrite Hf. cbn [length]. lia.
Qed.

(** ** Steps *)

(** The scanner moved on, and is not where it was. *)
Definition passes (s s' : Scanner) : Prop := moves s s' /\ (pos s < pos s')%nat.

Lemma passes_moves s1 s2 s3 : passes s1 s2 -> moves s2 s3 -> passes s1 s3.
Proof. intros [H1 H2] H3. split; [by eapply moves_trans|]. destruct H3 as (_ & H3 & _). lia. Qed.

Lemma moves_passes s1 s2 s3 : moves s1 s2 -> passes s2 s3 -> passes s1 s3.
Proof. intros H1 [H2 H3]. split; [by eapply moves_trans|]. destruct H1 as (_ & H1 & _). lia. Qed.

Lemma bump_passes s c : ok s -> peek s = Some c -> passes s (bump s).
Proof. intros Hs Hc. split; [by apply bump_moves|]. rewrite (bump_pos s c) by done. lia. Qed.

Lemma skip_passes s c n : ok s -> peek s = Some c -> (0 < n)%nat -> passes s (skip s n).
Proof.
  intros Hs Hc Hn. destruct (skip_moves s n Hs) as [H E]. split; [done|]. rewrite E. apply peek_Some in Hc as [Hp _]; [|done]. lia.
Qed.

(** What a loop counts down. *)
Definition left_ (s : Scanner) : nat := (length text - pos s)%nat.

Lemma passes_left s s' : passes s s' -> (left_ s' < left_ s)%nat.
Proof. intros [(H & _) Hp]. pose proof (ok_pos _ H). unfold left_. lia. Qed.

Lemma left_turns s : ok s -> (left_ s < turns s)%nat.
Proof. intros []. unfold left_, turns. rewrite ok_chars0. lia. Qed.

Lemma continuation_runs s c : ok s -> peek s = Some c -> runs (fun _ s' => passes s s') (continuation s).
Proof.
  intros Hs Hc. pose proof (bump_passes s c Hs Hc) as H1. unfold continuation.
  case_bool_decide as H; [cbn [negb]|done]. destruct (peek (bump (bump s))); [cbn|done].
  eapply passes_moves; [done|]. apply bump_moves. eapply moves_ok, H1.
Qed.

Lemma some_char_true f o : some_char f o = true -> exists c, o = Some c /\ f c = true.
Proof. destruct o as [c|]; [|done]. cbn. by exists c. Qed.

Lemma indent_columns_runs s : ok s -> runs (fun _ s' => moves s s') (indent_columns s).
Proof.
  intros Hs. unfold indent_columns. apply (runs_bind (fun _ s' => moves s s')); [|by intros [[col alt] continued_at] s' H].
  apply (runs_loop left_ (fun _ s' => moves s s')); [|by apply left_turns|by apply moves_refl].
  intros [[col alt] continued_at] s1 H1. unfold indent_columns_turn. pose proof (moves_ok _ _ H1) as Hs1.
  destruct (peek s1) as [c|] eqn:Hc; [|done]. pose proof (bump_passes s1 c Hs1 Hc) as Hb.
  repeat (case_match; [cbn; split; [by eapply moves_trans, Hb|by apply passes_left]|]).
  destruct (c =? c_backslash); [|done]. eapply runs_bind; [by eapply continuation_runs|]. intros u s2 Hm. cbn.
  split; [by eapply moves_trans, Hm|by apply passes_left].
Qed.

Lemma pop_indents_sub col l : exists front, l = front ++ pop_indents col l /\ (l <> [] -> pop_indents col l <> []).
Proof.
  induction l as [|top l [front [IH Hne]]]; [by exists []|]. cbn [pop_indents]. destruct l as [|next l]; [by exists []|].
  destruct (col <? top.1)%nat; [|by exists []]. exists (top :: front). split; [exact (f_equal (cons top) IH)|]. intros _. by apply Hne.
Qed.

Lemma check_indent_runs s col alt : ok s -> runs (fun _ s' => ok s' /\ pos s' = pos s /\ fstrings s' = fstrings s) (check_indent s col alt).
Proof.
  intros Hs. unfold check_indent. destruct (indents s) as [|[top_col top_alt] rest] eqn:E.
  { pose proof (ok_indents _ Hs) as H. rewrite E in H. cbn in H. lia. }
  destruct (Nat.ltb_spec top_col col).
  - destruct (Nat.leb_spec MAX_INDENT (length ((top_col, top_alt) :: rest))) as [|Hl]; [done|]. destruct (alt <=? top_alt)%nat; [done|].
    cbn. split; [|done]. pose proof (ok_sorted _ Hs) as Hsort. rewrite E in Hsort. destruct Hs. split; try done; cbn [indents with_indents].
    + cbn [length] in *. lia.
    + constructor; [done|]. constructor; [cbn; lia|]. apply StronglySorted_inv in Hsort as [_ Hsort]. eapply Forall_impl; [exact Hsort|].
      cbn. intros. lia.
  - rewrite <- E. destruct (pop_indents_sub col (indents s)) as (front & Hsplit & Hne). cbn [indents with_indents].
    destruct (pop_indents col (indents s)) as [|[c a] popped] eqn:Ep; [by rewrite E in Hne; destruct Hne|].
    repeat (case_match; [done|]). cbn. split; [|done]. pose proof (ok_indents _ Hs) as Hi. pose proof (ok_sorted _ Hs) as Hsort.
    rewrite Hsplit in Hi, Hsort. destruct Hs. split; try done; cbn [indents with_indents].
    + rewrite length_app in Hi. cbn [length] in *. lia.
    + clear -Hsort. induction front as [|f front IH]; [done|]. apply StronglySorted_inv in Hsort as [Hsort _]. by apply IH.
Qed.

Lemma indentation_runs s : ok s -> runs (fun _ s' => ok s' /\ (pos s <= pos s')%nat /\ fstrings s' = fstrings s) (indentation s).
Proof.
  intros Hs. unfold indentation. eapply runs_bind; [by apply indent_columns_runs|]. intros [col alt] s1 (H1 & H2 & H3).
  assert (fstrings s1 = fstrings s) as Hf by by rewrite H3.
  destruct (_ || _); [done|]. eapply runs_weaken; [by apply check_indent_runs|]. cbn. intros _ s2 (H4 & -> & ->). done.
Qed.

(** ** Lines *)

Lemma count_line_ok s l : ok s -> 1 <= l <= Z.min (line s) (Z.of_nat (lfs text)) -> Forall (fun l' => l' <= l) (lines s) -> ok (count_line s l).
Proof.
  intros Hs Hl Hle. unfold count_line. case_bool_decide as Hh; [done|]. destruct Hs. split; try done; cbn [lines with_lines].
  - by constructor.
  - constructor; [done|]. apply Forall_forall. intros l' Hin. rewrite Forall_forall in Hle. pose proof (Hle l' Hin) as H.
    destruct (decide (l' = l)) as [->|]; [|lia]. exfalso. apply Hh. destruct (lines s) as [|h rest]; [by apply elem_of_nil in Hin|].
    cbn. apply elem_of_cons in Hin as [->|Hin]; [done|]. apply StronglySorted_inv in ok_distinct0 as [_ Hd]. rewrite Forall_forall in Hd.
    specialize (Hd l Hin). specialize (Hle h ltac:(left)). lia.
Qed.

(** Counting where a character is. *)
Lemma count_ok s c : ok s -> peek s = Some c -> ok (count s) /\ pos (count s) = pos s /\ peek (count s) = Some c /\ fstrings (count s) = fstrings s
  /\ level (count s) = level s.
Proof.
  intros Hs Hc. split.
  - apply count_line_ok; [done| |].
    + apply peek_Some in Hc as [Hp _]; [|done]. pose proof (line_at_range _ Hp). rewrite <- (ok_line _ Hs) in *. lia.
    + eapply Forall_impl; [apply (ok_lines _ Hs)|]. cbn. lia.
  - unfold count, count_line. by case_bool_decide.
Qed.

(** ** Strings *)

Lemma open_quote_passes s q c : ok s -> peek s = Some c ->
  passes s (open_quote s q).2 /\ ((open_quote s q).1 = 1%nat \/ (open_quote s q).1 = 3%nat).
Proof. intros Hs Hc. unfold open_quote. destruct (at_quotes s q 3); (split; [by eapply skip_passes; [| |lia]|auto]). Qed.

Lemma string_body_runs s q c : ok s -> peek s = Some c -> runs (fun _ s' => passes s s') (string_body s q).
Proof.
  intros Hs Hc. unfold string_body. pose proof (open_quote_passes s q c Hs Hc) as [H1 _]. destruct (open_quote s q) as [size s1].
  cbn [fst snd] in *. pose proof (moves_ok _ _ (proj1 H1)) as Hs1.
  apply (runs_bind (fun _ s' => moves s1 s')).
  - apply (runs_loop left_ (fun _ s' => moves s1 s')); [|by apply left_turns|by apply moves_refl].
    intros escaped s2 H2. pose proof (moves_ok _ _ H2) as Hs2. unfold string_turn. destruct (at_quotes s2 q size); [done|].
    destruct (peek s2) as [d|] eqn:Hd; [|done]. pose proof (bump_passes s2 d Hs2 Hd) as Hb. destruct (_ && _); [done|].
    destruct (d =? c_backslash); [cbn [skip_escape]|cbn; split; [by eapply moves_trans, Hb|by apply passes_left]].
    assert (passes s2 (bump (bump s2))) as Hbb by (eapply passes_moves; [done|]; apply bump_moves, (moves_ok _ _ (proj1 Hb))).
    cbn. split; [by eapply moves_trans, Hbb|by apply passes_left].
  - intros u s2 H2. cbn. eapply passes_moves; [done|]. eapply moves_trans; [done|]. apply skip_moves, (moves_ok _ _ H2).
Qed.

(** What a token leaves: a good state further on. *)
Definition further (s s' : Scanner) : Prop := ok s' /\ (pos s < pos s')%nat.

Lemma passes_further s1 s2 s3 : pos s1 = pos s2 -> passes s2 s3 -> further s1 s3.
Proof. intros E [[H _] Hp]. split; [done|lia]. Qed.

Lemma string_prefix_spec s p : string_prefix s = Some p ->
  (1 <= p_len p)%nat /\ peek_at s (p_len p) = Some (p_quote p) /\ is_quote (p_quote p) = true.
Proof.
  unfold string_prefix. destruct (List.find _ _) as [len|] eqn:E; [cbn [mbind option_bind]|done].
  apply find_some in E as [Hin Hq]. destruct (negb _); [done|]. destruct (peek_at s len) as [q|] eqn:Eq; [cbn|done].
  intros [= <-]. cbn in *. split; [|done]. destruct Hin as [<-|[<-|[]]]; lia.
Qed.

Lemma stacks_ok s n l : ok s -> (n <= MAX_LEVEL)%nat -> (length l < MAX_FSTRING_LEVEL)%nat -> Forall fstring_ok l -> (total_brackets l <= n)%nat ->
  ok (with_fstrings (with_level s n) l).
Proof. intros []; split; done. Qed.

Lemma fstrings_ok s l : ok s -> (length l < MAX_FSTRING_LEVEL)%nat -> Forall fstring_ok l -> (total_brackets l <= level s)%nat ->
  ok (with_fstrings s l).
Proof. intros H. apply (stacks_ok s (level s) l H). apply H. Qed.

Lemma name_or_string_runs s c : ok s -> peek s = Some c -> is_name_start c = true -> runs (fun _ s' => further s s') (name_or_string s).
Proof.
  intros Hs Hc Hn. unfold name_or_string. destruct (count_ok s c Hs Hc) as (Hs1 & Hp & Hc1 & Hf & Hl). set (s1 := count s) in *. clearbody s1.
  unfold fstring_start. destruct (string_prefix s1) as [p|] eqn:E.
  - apply string_prefix_spec in E as (Hlen1 & Hq & Hquote).
    assert (passes s1 (skip s1 (p_len p))) as H2 by by eapply skip_passes.
    assert (peek (skip s1 (p_len p)) = Some (p_quote p)) as Hc2.
    { unfold peek, peek_at in *. rewrite (ok_chars _ Hs1) in Hq. rewrite (ok_chars _ (moves_ok _ _ (proj1 H2))), (proj2 (skip_moves s1 _ Hs1)).
      rewrite Nat.min_l; [done|]. apply lookup_lt_Some in Hq. lia. }
    set (s2 := skip s1 (p_len p)) in *. clearbody s2. pose proof (moves_ok _ _ (proj1 H2)) as Hs2.
    destruct (p_fstring p).
    + destruct (open_quote_passes s2 (p_quote p) _ Hs2 Hc2) as [H3 Hsize]. destruct (open_quote s2 (p_quote p)) as [size s3]. cbn [fst snd] in *.
      destruct (Nat.leb_spec MAX_FSTRING_LEVEL (length (fstrings s3) + 1)) as [|Hd]; [done|]. pose proof (moves_ok _ _ (proj1 H3)) as Hs3.
      cbn [runs]. split; [|destruct H2 as [_ H2], H3 as [_ H3]; cbn [with_fstrings pos]; lia]. apply fstrings_ok; [done|cbn [length]; lia| |].
      * constructor; [split; cbn; unfold MAX_EXPR_NESTING; auto; lia|apply Hs3].
      * cbn. apply Hs3.
    + eapply runs_weaken; [by eapply string_body_runs|]. intros u s3 [[H3 _] H4]. split; [done|]. destruct H2. lia.
  - cbn. pose proof (skip_while_moves s1 is_name_char Hs1) as [H _]. split; [done|]. rewrite <- Hp.
    apply (skip_while_pos s1 _ c); [done|done|]. unfold is_name_char. by rewrite Hn.
Qed.

(** ** Numbers *)

Lemma decimal_digits_runs s : ok s ->
  runs (fun _ s' => moves s s' /\ (some_char is_ascii_digit (peek s) = true -> (pos s < pos s')%nat)) (decimal_digits s).
Proof.
  intros Hs. unfold decimal_digits. apply (runs_loop left_ (fun _ s' => s' = s \/ passes s s')); [|by apply left_turns|by left].
  intros u s1 H1. assert (moves s s1) as Hm by (destruct H1 as [->|[]]; [by apply moves_refl|done]). pose proof (moves_ok _ _ Hm) as Hs1.
  unfold decimal_turn. pose proof (skip_while_moves s1 is_ascii_digit Hs1) as H2. set (s2 := skip_while s1 is_ascii_digit) in *.
  case_bool_decide as Hu; cbn [negb].
  - pose proof (bump_passes s2 _ (moves_ok _ _ H2) Hu) as H3. destruct (negb _); [done|]. cbn.
    pose proof (moves_passes _ _ _ H2 H3) as H4. split; [right; by eapply moves_passes|by apply passes_left].
  - cbn. split; [by eapply moves_trans|]. intros Hd. destruct H1 as [->|H1]; [|by eapply passes_moves].
    apply some_char_true in Hd as (c & Hc & Hd). by apply (skip_while_pos s _ c).
Qed.

Lemma exponent_runs s : ok s -> runs (fun _ s' => moves s s') (exponent s).
Proof.
  intros Hs. unfold exponent. destruct (negb _); [by apply moves_refl|]. set (n := (1 + _)%nat).
  destruct (negb _); [destruct (_ =? _)%nat; [done|by apply moves_refl]|].
  destruct (skip_moves s n Hs) as [H _]. eapply runs_weaken; [apply decimal_digits_runs, (moves_ok _ _ H)|].
  intros u s' [H' _]. by eapply moves_trans.
Qed.

Lemma radix_number_runs s c : ok s -> peek s = Some c -> runs (fun _ s' => passes s s') (radix_number s).
Proof.
  intros Hs Hc. unfold radix_number. pose proof (bump_passes s c Hs Hc) as H1. set (s1 := bump s) in *. pose proof (moves_ok _ _ (proj1 H1)) as Hs1.
  destruct (radix (peek s1)) as [name is_digit]. pose proof (bump_moves s1 Hs1) as H2. set (s2 := bump s1) in *. pose proof (moves_ok _ _ H2) as Hs2.
  apply (runs_bind (fun _ s' => moves s2 s')).
  - apply (runs_loop left_ (fun _ s' => moves s2 s')); [|by apply left_turns|by apply moves_refl].
    intros u s3 H3. unfold radix_turn. set (s4 := if _ : bool then bump s3 else s3). pose proof (moves_ok _ _ H3) as Hs3.
    assert (moves s3 s4) as H4 by (unfold s4; case_bool_decide; [by apply bump_moves|by apply moves_refl]). pose proof (moves_ok _ _ H4) as Hs4.
    destruct (some_char is_digit (peek s4)) eqn:Hd; [cbn [negb]|done]. apply some_char_true in Hd as (d & Hd & Hdig).
    assert (passes s4 (skip_while s4 is_digit)) as H5 by (split; [by apply skip_while_moves|by eapply skip_while_pos]).
    pose proof (moves_passes _ _ _ H4 H5) as H6. case_bool_decide; cbn.
    + split; [by eapply moves_trans, H6|by apply passes_left].
    + by eapply moves_trans, H6.
  - intros u s3 H3. destruct (some_char _ _); [done|]. cbn. eapply passes_moves; [done|]. by eapply moves_trans.
Qed.

Lemma number_runs s c : ok s -> peek s = Some c -> is_ascii_digit c = true -> runs (fun _ s' => further s s') (number s).
Proof.
  intros Hs Hc Hd. unfold number. destruct (count_ok s c Hs Hc) as (Hs1 & Hp & Hc1 & _). set (s1 := count s) in *. clearbody s1.
  destruct (_ && _).
  { eapply runs_weaken; [by eapply radix_number_runs|]. intros u s2 H2. by apply (passes_further s s1). }
  eapply runs_bind; [by apply decimal_digits_runs|]. intros u1 s2 [H2 Hlt]. rewrite Hc1 in Hlt. specialize (Hlt Hd).
  assert (passes s1 s2) as H12 by done. pose proof (moves_ok _ _ H2) as Hs2.
  apply (runs_bind (fun _ s' => moves s2 s')).
  { case_bool_decide as Hdot; [|by apply moves_refl]. pose proof (bump_moves s2 Hs2) as H3. destruct (some_char _ _); [|done].
    eapply runs_weaken; [apply decimal_digits_runs, (moves_ok _ _ H3)|]. intros u s3 [H4 _]. by eapply moves_trans. }
  intros u2 s3 H3. eapply runs_bind; [apply exponent_runs, (moves_ok _ _ H3)|]. intros u3 s4 H4. cbn. apply (passes_further s s1); [done|].
  assert (passes s1 s4) as H14 by (eapply passes_moves; [done|]; by eapply moves_trans).
  destruct (some_char _ _); [|done]. eapply passes_moves; [done|]. apply bump_moves, (moves_ok _ _ H4).
Qed.

(** ** Punctuation *)

Lemma total_cons f l : total_brackets (f :: l) = (Z.to_nat (brackets f) + total_brackets l)%nat.
Proof. done. Qed.

Lemma top_ok s top rest top' n : ok s -> fstrings s = top :: rest -> fstring_ok top' -> (n <= MAX_LEVEL)%nat ->
  (Z.to_nat (brackets top') + total_brackets rest <= n)%nat -> ok (with_fstrings (with_level s n) (top' :: rest)).
Proof.
  intros Hs E Ht Hn Hb. pose proof (ok_fstrings _ Hs) as Hf. pose proof (ok_depth _ Hs) as Hd. rewrite E in Hf, Hd. cbn [length] in Hd.
  apply Forall_cons in Hf as [_ Hf]. apply stacks_ok; [done|done|cbn [length]; lia|by constructor|done].
Qed.

(** A change of the top that keeps its brackets. *)
Lemma retop_ok s top rest b fields spec : ok s -> fstrings s = top :: rest -> -1 <= fields < MAX_EXPR_NESTING ->
  ok (with_fstrings s (with_state top b (brackets top) fields spec :: rest)).
Proof.
  intros Hs E Hf. pose proof (ok_fstrings _ Hs) as Hall. rewrite E in Hall. apply Forall_cons in Hall as [[] _].
  apply (top_ok s top rest _ (level s)); [done|done|by split|apply Hs|]. pose proof (ok_total _ Hs) as Ht. rewrite E in Ht. exact Ht.
Qed.

Lemma punctuation_runs s c : ok s -> peek s = Some c -> runs (fun _ s' => further s s') (punctuation s c).
Proof.
  intros Hs Hc. unfold punctuation. destruct (_ && _) eqn:Hspec.
  - destruct (count_ok s c Hs Hc) as (Hs1 & Hp & Hc1 & Hf & _). pose proof (bump_passes _ c Hs1 Hc1) as [[H2 H3] H4]. unfold on_top.
    destruct (fstrings (bump (count s))) as [|top rest] eqn:E.
    + exfalso. destruct H3 as [_ ->] in E. cbn in E. rewrite Hf in E. unfold starts_format_spec in Hspec. rewrite E in Hspec. by rewrite andb_false_r in Hspec.
    + pose proof (ok_fstrings _ H2) as Hall. rewrite E in Hall. apply Forall_cons in Hall as [[] _]. cbn. split; [by apply retop_ok|cbn; lia].
  - apply (runs_bind (fun _ s' => ok s' /\ pos s' = pos s /\ peek s' = Some c)).
    + destruct (is_opening c); [|destruct (is_closing c); [|destruct (is_ascii_control c); done]].
      * unfold open_bracket. destruct (Nat.leb_spec MAX_LEVEL (level s)); [done|]. cbn [runs]. pose proof (ok_total _ Hs) as Ht.
        destruct (fstrings s) as [|top rest] eqn:E; cbn [fstrings with_level]; rewrite E.
        -- split; [|done]. pose proof (stacks_ok s (level s + 1) (fstrings s) Hs) as H'. rewrite E in H'.
           replace (with_level s (level s + 1)) with (with_fstrings (with_level s (level s + 1)) []) by (rewrite <- E; by destruct s).
           apply H'; [lia|cbn; unfold MAX_FSTRING_LEVEL; lia|constructor|cbn; lia].
        -- split; [|done]. pose proof (ok_fstrings _ Hs) as Hall. rewrite E in Hall. apply Forall_cons in Hall as [[] _].
           apply (top_ok s top rest); [done|done|split; cbn; auto; lia|lia|]. rewrite total_cons in Ht. cbn [with_state brackets]. lia.
      * unfold close_bracket. cbn [fstrings with_level]. pose proof (ok_level _ Hs) as Hl. pose proof (ok_total _ Hs) as Ht.
        destruct (fstrings s) as [|top rest] eqn:E; cbn [runs].
        -- split; [|done]. replace (with_level s (level s - 1)) with (with_fstrings (with_level s (level s - 1)) []) by (rewrite <- E; by destruct s).
           apply stacks_ok; [done|lia|cbn; unfold MAX_FSTRING_LEVEL; lia|constructor|cbn; lia].
        -- pose proof (ok_fstrings _ Hs) as Hall. rewrite E in Hall. apply Forall_cons in Hall as [[] _].
           destruct (_ && (_ =? 0)) eqn:E1; [done|]. destruct (Z.ltb_spec (brackets top - 1) 0); [done|]. cbn [runs]. split; [|done].
           rewrite total_cons in Ht. apply (top_ok s top rest); [done|done| |lia|].
           ++ destruct ((c =? c_close_brace) && (brackets top - 1 =? fields top)) eqn:E2; [|by split; cbn; auto; lia].
              apply andb_true_iff in E2 as [_ E2%Z.eqb_eq]. split; cbn; auto; lia.
           ++ destruct (_ && (_ =? fields top)); cbn [with_state brackets]; lia.
    + intros u s1 (Hs1 & Hp & Hc1). cbn. destruct (count_ok s1 c Hs1 Hc1) as (Hs2 & Hp2 & Hc2 & _). pose proof (bump_passes _ c Hs2 Hc2) as [[H3 _] H4].
      split; [done|lia].
Qed.

(** ** F-strings *)

(** The turns that are left: an f-string whose text is being read has one more. *)
Definition reads_literal (s : Scanner) : nat := match fstrings s with f :: _ => if in_literal f then 1%nat else 0%nat | [] => 0%nat end.
Definition tokens_left (s : Scanner) : nat := (2 * left_ s + reads_literal s)%nat.

Lemma further_left s s' : further s s' -> (tokens_left s' < tokens_left s)%nat.
Proof.
  intros [H Hp]. pose proof (ok_pos _ H). assert (reads_literal s' <= 1)%nat by (unfold reads_literal; repeat case_match; lia).
  unfold tokens_left, left_. lia.
Qed.

Lemma passes_tokens s s' : passes s s' -> (tokens_left s' < tokens_left s)%nat.
Proof. intros [[H _] Hp]. by apply further_left. Qed.

(** A step inside the text of an f-string that ends it, or goes to a field. *)
Definition leaves (s s' : Scanner) : Prop :=
  ok s' /\ lines s' = lines s /\ (pos s <= pos s')%nat /\ (tokens_left s' < tokens_left s)%nat.

Lemma passes_leaves s s' : passes s s' -> leaves s s'.
Proof. intros H. pose proof (passes_tokens _ _ H). destruct H as [(H & Hp & E) _]. split; [done|]. split; [by rewrite E|done]. Qed.

Lemma close_literal s top rest fields spec : ok s -> fstrings s = top :: rest -> in_literal top = true -> -1 <= fields < MAX_EXPR_NESTING ->
  leaves s (with_fstrings s (with_state top false (brackets top) fields spec :: rest)).
Proof.
  intros Hs E Hl Hf. split; [by apply retop_ok|]. split; [done|]. split; [done|].
  unfold tokens_left, reads_literal, left_. rewrite E, Hl. cbn. lia.
Qed.

Lemma open_field_runs s top rest : ok s -> fstrings s = top :: rest -> in_literal top = true -> runs (fun _ s' => leaves s s') (open_field s).
Proof.
  intros Hs E Hl. unfold open_field. rewrite E. pose proof (ok_fstrings _ Hs) as Hall. rewrite E in Hall. apply Forall_cons in Hall as [[] _].
  destruct (Z.leb_spec MAX_EXPR_NESTING (fields (with_state top false (brackets top) (fields top + 1) (format_spec top)))); [done|]. cbn in *.
  apply close_literal; [done..|lia].
Qed.

Lemma middle_escape_passes s b c : ok s -> peek s = Some c -> passes s (middle_escape s b).2.
Proof.
  intros Hs Hc. pose proof (bump_passes s c Hs Hc) as Hb. pose proof (moves_ok _ _ (proj1 Hb)) as Hs1.
  pose proof (bump_moves _ Hs1) as H2. pose proof (bump_moves _ (moves_ok _ _ H2)) as H3. unfold middle_escape.
  repeat case_match; cbn [snd]; [exact Hb|eapply passes_moves; [exact Hb|by eapply moves_trans]|by eapply passes_moves..].
Qed.

Lemma middle_step_runs s f named top rest : ok s -> fstrings s = top :: rest -> in_literal top = true ->
  runs (fun out s' => if out.1 : bool then leaves s s' else passes s s') (middle_step f named s).
Proof.
  intros Hs E Hl. unfold middle_step. destruct (peek s) as [c|] eqn:Hc; [|done]. pose proof (bump_passes s c Hs Hc) as Hb.
  pose proof (ok_fstrings _ Hs) as Hall. rewrite E in Hall. apply Forall_cons in Hall as [[] _].
  destruct (_ && _); [done|]. destruct (c =? c_open_brace).
  - apply (runs_bind (fun _ s' => leaves s s')); [|done]. unfold middle_open. destruct (_ && _).
    { apply passes_leaves. by eapply skip_passes; [| |lia]. }
    unfold on_top. rewrite E. cbn [bind]. set (s1 := with_fstrings s _).
    assert (ok s1) as Hs1 by by apply retop_ok.
    eapply runs_weaken; [by eapply open_field_runs|]. intros u s2 (H1 & H2 & H3 & H4). split; [done|]. split; [done|]. split; [done|].
    eapply Nat.lt_le_trans; [exact H4|]. unfold tokens_left, reads_literal, left_. rewrite E. cbn. by rewrite Hl.
  - destruct (c =? c_close_brace); [|destruct (c =? c_backslash)].
    + apply (runs_bind (fun _ s' => leaves s s')); [|done]. unfold middle_close. destruct named; [by apply passes_leaves|]. destruct (_ && _ && _).
      { apply passes_leaves. by eapply skip_passes; [| |lia]. }
      unfold on_top. rewrite E. by apply close_literal.
    + pose proof (middle_escape_passes s (raw f) c Hs Hc) as He. destruct (middle_escape s (raw f)) as [b s1]. exact He.
    + exact Hb.
Qed.

Lemma fstring_middle_runs s f rest : ok s -> fstrings s = f :: rest -> in_literal f = true -> at_quotes s (quote f) (size f) = false ->
  runs (fun _ s' => ok s' /\ (tokens_left s' < tokens_left s)%nat) (fstring_middle s f).
Proof.
  intros Hs E Hl Hq. unfold fstring_middle.
  apply (runs_bind (fun _ s' => leaves s s')).
  - apply (runs_loop left_ (fun _ s' => s' = s \/ passes s s')); [|by apply left_turns|by left].
    intros named s1 H1. assert (moves s s1) as (Hs1 & Hp & Hm) by (destruct H1 as [->|[]]; [by apply moves_refl|done]).
    assert (fstrings s1 = f :: rest) as E1 by (rewrite Hm; exact E). unfold middle_turn.
    destruct (at_quotes s1 _ _) eqn:Hq1.
    { cbn. destruct H1 as [->|H1]; [congruence|by apply passes_leaves]. }
    eapply runs_bind; [by eapply middle_step_runs|]. intros [ends named'] s2. cbn [fst]. destruct ends; cbn.
    + intros (H2 & H3 & H4 & H5). split; [done|]. split; [rewrite H3, Hm; done|]. split; [lia|].
      eapply Nat.lt_le_trans; [exact H5|]. destruct H1 as [->|H1%passes_tokens]; lia.
    + intros H2. split; [right; destruct H1 as [->|[H1 _]]; [done|by eapply moves_passes]|by apply passes_left].
  - intros u s1 (H1 & H2 & H3 & H4). destruct (Nat.ltb_spec (pos s) (pos s1)); cbn; [|done]. split.
    + apply count_line_ok; [done| |].
      * rewrite (ok_line _ Hs). pose proof (ok_pos _ H1). pose proof (line_at_range (pos s) ltac:(lia)).
        rewrite (ok_line _ H1). pose proof (line_at_mono (pos s) (pos s1) ltac:(lia)). lia.
      * rewrite H2. eapply Forall_impl; [apply (ok_lines _ Hs)|]. cbn. lia.
    + unfold count_line. by case_bool_decide.
Qed.

Lemma fstring_part_runs s f rest : ok s -> fstrings s = f :: rest -> in_literal f = true ->
  runs (fun _ s' => ok s' /\ (tokens_left s' < tokens_left s)%nat) (fstring_part s f).
Proof.
  intros Hs E Hl. unfold fstring_part. destruct (_ && _).
  { eapply runs_weaken; [by eapply open_field_runs|]. intros u s' (H1 & _ & _ & H4). done. }
  destruct (at_quotes s (quote f) (size f)) eqn:Hq; [|by eapply fstring_middle_runs].
  pose proof (ok_fstrings _ Hs) as Hall. rewrite E in Hall. apply Forall_cons in Hall as [[] Hall].
  assert (peek s = Some (quote f)) as Hc.
  { unfold at_quotes in Hq. rewrite forallb_forall in Hq. unfold peek_at in Hq. specialize (Hq 0%nat). rewrite Nat.add_0_r in Hq.
    eapply bool_decide_eq_true_1, Hq, in_seq. lia. }
  destruct (count_ok s _ Hs Hc) as (Hs1 & Hp1 & Hc1 & Hf1 & _).
  assert (passes (count s) (skip (count s) (size f))) as [[H2 [_ H3]] H4] by (eapply skip_passes; [done|done|lia]).
  assert (fstrings (skip (count s) (size f)) = f :: rest) as E2 by (rewrite H3; cbn; congruence). rewrite E2. cbn [tail].
  pose proof (ok_depth _ H2) as Hd. pose proof (ok_total _ H2) as Ht. rewrite E2 in Hd, Ht. rewrite total_cons in Ht. cbn [length] in Hd.
  assert (further s (with_fstrings (skip (count s) (size f)) rest)) as H5.
  { split; [apply fstrings_ok; [done|lia|done|lia]|cbn [with_fstrings pos]; lia]. }
  split; [apply H5|by apply further_left].
Qed.

(** ** Tokens *)

Lemma line_start_ok s b : ok s -> ok (with_line_start s b).
Proof. intros []; by split. Qed.

Lemma token_runs s c : ok s -> peek s = Some c -> runs (fun _ s' => further s s') (token s c).
Proof.
  intros Hs Hc. unfold token. destruct (c =? c_hash) eqn:E1.
  { split; [apply skip_while_moves, Hs|]. apply (skip_while_pos s _ c Hs Hc). apply Z.eqb_eq in E1 as ->. done. }
  destruct (c =? c_lf).
  { pose proof (bump_passes s c Hs Hc) as [[H _] Hp]. split; [by apply line_start_ok|done]. }
  destruct (c =? c_backslash).
  { eapply runs_weaken; [by eapply continuation_runs|]. intros u s' H. by apply (passes_further s s). }
  destruct (is_quote c).
  { destruct (count_ok s c Hs Hc) as (Hs1 & Hp & Hc1 & _). eapply runs_weaken; [by eapply string_body_runs|]. intros u s' H. by eapply passes_further. }
  destruct (is_ascii_digit c) eqn:E2; [by eapply number_runs|]. destruct (is_name_start c) eqn:E3; [by eapply name_or_string_runs|].
  by apply punctuation_runs.
Qed.

(** What a token leaves; the last one leaves a text that was not cut. *)
Definition token_out (s : Scanner) (more : bool) (s' : Scanner) : Prop :=
  ok s' /\ if more then (tokens_left s' < tokens_left s)%nat else cut = false.

Lemma normal_token_runs s : ok s -> runs (token_out s) (normal_token s).
Proof.
  intros Hs. unfold normal_token. apply (runs_bind (fun _ s' => ok s' /\ (pos s <= pos s')%nat)).
  { destruct (at_line_start s); [|done]. eapply runs_weaken; [apply indentation_runs; by apply line_start_ok|]. intros u s' (H1 & H2 & _). done. }
  intros u s1 [H1 Hp1]. pose proof (skip_while_moves s1 (fun c => (c =? c_space) || (c =? c_tab) || (c =? c_form_feed)) H1) as (H2 & Hp2 & _).
  fold (skip_spaces s1) in *. destruct (peek (skip_spaces s1)) as [c|] eqn:Hc.
  - eapply runs_bind; [by apply token_runs|]. intros u' s2 [H3 Hp3]. split; [done|]. apply further_left. split; [done|lia].
  - unfold end_of_input. destruct (_ || _) eqn:E; [done|]. cbn. split; [done|]. apply orb_false_iff in E as [_ E]. by rewrite <- (ok_cut _ H2).
Qed.

Lemma next_token_runs s : ok s -> runs (token_out s) (next_token s).
Proof.
  intros Hs. unfold next_token. destruct (fstrings s) as [|f rest] eqn:E; [by apply normal_token_runs|].
  destruct (in_literal f) eqn:Hl; [|by apply normal_token_runs]. eapply runs_bind; [by eapply fstring_part_runs|]. by intros u s' H.
Qed.

Lemma run_runs s : ok s -> runs (fun _ s' => ok s' /\ cut = false) (loop (2 * turns s) run_turn tt s).
Proof.
  intros Hs. apply (runs_loop tokens_left (fun _ s' => ok s')); [| |done].
  - intros u s1 H1. unfold run_turn. eapply runs_bind; [by apply next_token_runs|]. intros [|] s2 [H2 H3]; done.
  - pose proof (left_turns s Hs). unfold tokens_left. assert (reads_literal s <= 1)%nat by (unfold reads_literal; repeat case_match; lia). lia.
Qed.
End Invariant.

(** ** The text of a scan *)

(** A piece without its line break. *)
Definition bare_piece (piece : str) : str :=
  let body := if ends_with_char (is_char c_lf) piece then removelast piece else piece in
  if ends_with_char (is_char c_cr) body then removelast body else body.

Lemma scan_lines_cons piece pieces :
  scan_lines (piece :: pieces) =
  if bool_decide (0 ∈ piece) then ([], true) else (bare_piece piece ++ [c_lf] ++ (scan_lines pieces).1, (scan_lines pieces).2).
Proof. cbn [scan_lines]. fold (bare_piece piece). by destruct (scan_lines pieces). Qed.

Lemma lfs_zero s : lfs s = 0%nat <-> Forall (fun c => c <> c_lf) s.
Proof.
  unfold lfs. induction s as [|c s IH]; [done|]. cbn. rewrite Forall_cons, <- IH. destruct (Z.eqb_spec c c_lf); cbn; [|tauto]. split; [lia|tauto].
Qed.

(** Dropping one character at the end of a text whose line feeds are at most that character. *)
Lemma strip_end (P : char -> bool) t : lfs (removelast t) = 0%nat -> (lfs t = 0%nat \/ P c_lf = true) ->
  let t' := if ends_with_char P t then removelast t else t in lfs t' = 0%nat /\ (length t' <= length t)%nat.
Proof.
  intros Ht Hc. destruct t as [|d t _] using rev_ind; [done|]. rewrite removelast_last in *. unfold ends_with_char. rewrite last_snoc. cbn zeta.
  destruct (P d) eqn:E; [rewrite length_app; split; [done|lia]|]. split; [|done]. destruct Hc as [|Hc]; [done|]. rewrite lfs_app, Ht. cbn.
  destruct (Z.eqb_spec d c_lf) as [->|]; [congruence|done].
Qed.

Lemma bare_piece_spec bare brk : Forall (fun c => is_line_break c = false) bare -> brk = [] \/ is_break_text brk ->
  lfs (bare_piece (bare ++ brk)) = 0%nat /\ (length (bare_piece (bare ++ brk)) <= length (bare ++ brk))%nat.
Proof.
  intros Hf Hb. assert (Forall (fun c => c <> c_lf) bare) as Hbare by (eapply Forall_impl; [exact Hf|]; by intros c H ->).
  assert (lfs (removelast (bare ++ brk)) = 0%nat) as Hl.
  { apply lfs_zero. destruct Hb as [->|[->|(c & -> & _)]].
    - rewrite app_nil_r. destruct bare as [|d t _] using rev_ind; [done|]. rewrite removelast_last. by apply Forall_app in Hbare as [].
    - change [c_cr; c_lf] with ([c_cr] ++ [c_lf]). rewrite app_assoc, removelast_last. apply Forall_app. split; [done|by constructor].
    - by rewrite removelast_last. }
  destruct (strip_end (is_char c_lf) _ Hl) as [H1 H2]; [by right|]. unfold bare_piece. set (body := if _ : bool then removelast (bare ++ brk) else _) in *.
  destruct (strip_end (is_char c_cr) body) as [H3 H4]; [|by left|split; [done|lia]].
  clearbody body. apply lfs_zero. apply lfs_zero in H1. destruct body as [|d t _] using rev_ind; [done|]. rewrite removelast_last. by apply Forall_app in H1 as [].
Qed.

Lemma scan_lines_spec kept bare : Forall2 (fun kept bare => exists brk, kept = bare ++ brk /\ (brk = [] \/ is_break_text brk)) kept bare ->
  Forall (Forall (fun c => is_line_break c = false)) bare -> Forall (fun p => p <> []) kept ->
  let '(chars, cut) := scan_lines kept in
  (chars = [] \/ exists t, chars = t ++ [c_lf]) /\ (length chars <= 2 * length (concat kept))%nat /\ (lfs chars <= length kept)%nat /\
  (cut = false -> 0 ∉ concat kept).
Proof.
  induction 1 as [|piece b kept bare (brk & -> & Hbrk) _ IH]; intros Hf Hne; [cbn; split; [by left|]; split; [lia|]; split; [lia|by intros _ ?%elem_of_nil]|].
  apply Forall_cons in Hf as [Hb Hf]. apply Forall_cons in Hne as [Hp Hne]. specialize (IH Hf Hne). rewrite scan_lines_cons.
  destruct (scan_lines kept) as [chars cut]. destruct IH as (H1 & H2 & H3 & H4). cbn [fst snd concat]. case_bool_decide as Hz.
  { split; [by left|]. split; [cbn; lia|]. split; [cbn; lia|done]. }
  destruct (bare_piece_spec b brk Hb Hbrk) as [Hl Hlen]. assert (1 <= length (b ++ brk))%nat as Hp' by (destruct (b ++ brk); [done|cbn; lia]).
  set (piece := b ++ brk) in *. clearbody piece. split; [|split; [|split]].
  - right. destruct H1 as [->|[t ->]]; [by exists (bare_piece piece)|]. exists (bare_piece piece ++ [c_lf] ++ t). by rewrite <- !app_assoc.
  - rewrite !length_app. cbn [length]. lia.
  - rewrite !lfs_app, Hl. cbn [length]. change (lfs [c_lf]) with 1%nat. lia.
  - intros Hc [H|H]%elem_of_app; [done|]. by apply (H4 Hc).
Qed.

Lemma kept_nonempty line s : Forall (fun p => p <> []) (splitlines_from true line s).
Proof.
  remember (length s) as n eqn:Hn. revert line s Hn. induction n as [n IH] using lt_wf_ind. intros line s ->.
  assert (forall l (x : char), l ++ [x] <> []) as Happ by by intros [].
  destruct s as [|c rest]; cbn [splitlines_from]; [destruct line as [|d line]; [done|]; rewrite reverse_cons; by constructor|].
  destruct (is_line_break c); cbn [negb]; [|by apply (IH (length rest)); [cbn; lia|]].
  destruct rest as [|d rest]; [by constructor|]. destruct (_ && _).
  - constructor; [by destruct (reverse line)|]. apply (IH (length rest)); [cbn; lia|done].
  - constructor; [done|]. apply (IH (length (d :: rest))); [cbn; lia|done].
Qed.

(** What a scan starts with, for a source of less than 2 GiB. *)
Lemma new_scanner_ok source (Hlen : Z.of_nat (length source) < 2 ^ 31 - 1) :
  exists text cut, Z.of_nat (length text) < 2 ^ 32 - 1 /\ (text = [] \/ exists t, text = t ++ [c_lf]) /\
    (lfs text <= length (splitlines source true))%nat /\ (cut = false -> 0 ∉ source) /\ ok text cut (new_scanner source).
Proof.
  destruct (splitlines_from_spec [] source) as (Hjoin & Hf & H2); [constructor|].
  pose proof (scan_lines_spec _ _ H2 Hf (kept_nonempty [] source)) as Hs. rewrite Hjoin in Hs. cbn [reverse app] in Hs.
  unfold new_scanner, scan_buffer, splitlines. destruct (scan_lines (splitlines_from true [] source)) as [text cut].
  destruct Hs as (H1 & Hl & Hn & Hz). exists text, cut. split; [change (reverse [] ++ source) with source in Hl; lia|]. split; [done|]. split; [done|].
  split; [done|]. split; cbn; try done; try lia; try constructor; unfold MAX_LEVEL, MAX_INDENT, MAX_FSTRING_LEVEL; try lia; constructor.
Qed.

(** C23: The scan of a source ends, and does not panic: no stack is empty where the code takes its top,
    no read is past the text.  It returns lines of the source, and only of a source without null
    bytes, or it fails. *)
Theorem python_sloc_total source (Hlen : Z.of_nat (length source) < 2 ^ 31 - 1) :
  exists r, python_sloc source = Some r /\
  match r with
  | Ok found => 0 ∉ source /\ forall l, l ∈ found -> 1 <= l <= Z.of_nat (length (splitlines source true))
  | Err _ => True
  end.
Proof.
  destruct (new_scanner_ok source Hlen) as (text & cut & Ht & He & Hn & Hz & Hs). pose proof (run_runs text cut Ht He _ Hs) as Hr.
  unfold python_sloc, run. destruct (loop _ _ _ _) as [u s|e|]; [|by exists (Err e)|done]. destruct Hr as [H ->].
  eexists. split; [done|]. split; [by apply Hz|]. intros l Hl%elem_of_list_to_set. pose proof (ok_lines _ _ _ H) as Hall.
  rewrite Forall_forall in Hall. specialize (Hall l Hl). cbn in Hall. lia.
Qed.

(** A statement over two lines and an f-string with a format. *)
Lemma python_sloc_total_witness :
  let source := lit "x = (1," ++ [c_lf] ++ lit " 2)" ++ [c_lf] ++ lit "# no code" ++ [c_lf] ++ lit "f'{x:>{w}}'" in
  Z.of_nat (length source) < 2 ^ 31 - 1 /\ python_sloc source = Some (Ok (list_to_set [1; 2; 4])) /\ 0 ∉ source.
Proof.
  intros source. assert (Z.of_nat (length source) < 2 ^ 31 - 1) as Hlen by (vm_compute; reflexivity). split; [exact Hlen|].
  assert (python_sloc source = Some (Ok (list_to_set [1; 2; 4]))) as E by (vm_compute; reflexivity). split; [exact E|].
  destruct (python_sloc_total source Hlen) as (r & Hr & H). rewrite E in Hr. injection Hr as <-. apply H.
Defined.

(** The states of the scan of a source. *)
Inductive reached (source : str) : Scanner -> Prop :=
| reached_start : reached source (new_scanner source)
| reached_token s more s' : reached source s -> next_token s = Got more s' -> reached source s'.

(** C24: The limits of a scan: every state has at most 100 indentations, of growing columns, at most 200
    open brackets and less than 150 open f-strings; the counters of an f-string, machine integers in
    the code, stay between 0 and 200 and between -1 and 2; the position is in the text and the line
    number is at most one more than the source has lines; each counted line is in the list once. *)
Theorem scanner_bounds source s (Hlen : Z.of_nat (length source) < 2 ^ 31 - 1) (Hr : reached source s) :
  (1 <= length (indents s) <= MAX_INDENT)%nat /\ StronglySorted (fun a b : nat * nat => (b.1 < a.1)%nat) (indents s) /\
  (level s <= MAX_LEVEL)%nat /\ (length (fstrings s) < MAX_FSTRING_LEVEL)%nat /\
  Forall (fun f => 0 <= brackets f <= Z.of_nat MAX_LEVEL /\ -1 <= fields f < MAX_EXPR_NESTING) (fstrings s) /\
  (pos s <= length (chars s))%nat /\ 1 <= line s <= Z.of_nat (length (splitlines source true)) + 1 /\
  StronglySorted (fun a b => b < a) (lines s).
Proof.
  destruct (new_scanner_ok source Hlen) as (text & cut & Ht & He & Hn & _ & Hs).
  assert (ok text cut s) as Hok.
  { induction Hr as [|s more s' _ IH E]; [done|]. pose proof (next_token_runs text cut Ht He s IH) as H. rewrite E in H. apply H. }
  pose proof (ok_fstrings _ _ _ Hok) as Hf. pose proof (ok_total _ _ _ Hok) as Htotal. pose proof (ok_level _ _ _ Hok) as Hl.
  assert (line_at text (pos s) <= 1 + Z.of_nat (lfs text)) as Hline.
  { unfold line_at. rewrite <- (take_drop (pos s) text) at 2. rewrite lfs_app. lia. }
  pose proof (ok_line _ _ _ Hok) as Hli. assert (1 <= line_at text (pos s)) by (unfold line_at; lia).
  destruct Hok. split_and!; try done; try lia; [|by rewrite ok_chars0].
  apply Forall_forall. intros f Hin. rewrite Forall_forall in Hf. destruct (Hf f Hin) as [_ _ Hb Hfl]. split; [|done]. split; [done|].
  enough (Z.to_nat (brackets f) <= total_brackets (fstrings s))%nat by lia. clear -Hin.
  induction (fstrings s) as [|g l IH]; [by apply elem_of_nil in Hin|]. rewrite total_cons. apply elem_of_cons in Hin as [->|Hin]; [lia|]. specialize (IH Hin). lia.
Qed.

(** The state after some tokens. *)
Fixpoint after (n : nat) (s : Scanner) : option Scanner :=
  match n with
  | O => Some s
  | S n => match next_token s with Got _ s => after n s | _ => None end
  end.

Lemma after_reached source n s s' : reached source s -> after n s = Some s' -> reached source s'.
Proof.
  revert s. induction n as [|n IH]; intros s Hr E; cbn in E; [by injection E as <-|].
  destruct (next_token s) as [more s1|e|] eqn:E1; [|done|done]. eapply IH; [|done]. by eapply reached_token.
Qed.

(** Inside a nested field of an f-string. *)
Lemma scanner_bounds_witness :
  let source := lit "f'{x:>{w" in
  Z.of_nat (length source) < 2 ^ 31 - 1 /\
  exists s, reached source s /\ map fields (fstrings s) = [1] /\ map brackets (fstrings s) = [2] /\ (level s <= MAX_LEVEL)%nat.
Proof.
  intros source. assert (Z.of_nat (length source) < 2 ^ 31 - 1) as Hlen by (vm_compute; reflexivity). split; [exact Hlen|].
  destruct (after 9 (new_scanner source)) as [s|] eqn:E; [|vm_compute in E; discriminate E].
  pose proof (after_reached source 9 _ s (reached_start source) E) as Hr. exists s. split; [exact Hr|].
  assert (map fields (fstrings s) = [1] /\ map brackets (fstrings s) = [2]) as [H1 H2] by (vm_compute in E; injection E as <-; split; reflexivity).
  split; [exact H1|]. split; [exact H2|]. apply (scanner_bounds source s Hlen Hr).
Defined.
