(* ===== verification/Changes.v ===== *)
(** The files that differ from a commit: the parsers of crates/git/src/changes.rs.

    Git prints records of NUL-ended fields.  [parse_changes_exact] shows that the records of git's
    documented form are read back, whatever bytes their paths hold, and that the parser ends on any
    output; the calls of the git program are not modelled. *)

From S2P Require Import Prelude RustStr Text CodePoints Utf8.

#[local] Open Scope Z_scope.
#[local] Open Scope rs_scope.

(** * Data *)

Definition BINARY_PROBE_BYTES : nat := Z.to_nat 8000.
Definition UNTRACKED : char := 63.
Definition COMPARED_STATUSES : list char := lit "ACDMRT" ++ [UNTRACKED].
Definition TWO_PATH_STATUSES : list char := lit "RC".
Definition MODE_SHOWN_CHARS : nat := 12.

Inductive Side := Absent | File | Link | Gitlink.

Record Change := { status : char; path : str; old_path : str; old : Side; new : Side }.

Inductive Malformed := NoMeta | NoPath | Mode (mode : str) | NotOneObjectName.

(** [Malformed] as text. *)
Definition malformed_text (m : Malformed) : str :=
  match m with
  | NoMeta => lit "a diff record does not open with ':<mode> <mode> <sha> <sha> <status>'"
  | NoPath => lit "a diff record ends before its path"
  | Mode mode =>
      lit "a diff record carries the mode " ++ quoted_str (take MODE_SHOWN_CHARS mode) ++ lit ", which names no file type"
  | NotOneObjectName => lit "rev-parse did not print one full object name"
  end.

Definition c_colon : char := 58.
Definition c_nul : Z := 0.
Definition c_copied : char := 67.

(** * Parsers *)

(** A final NUL ends the last field. *)
Definition fields (raw : list Z) : list (list Z) :=
  let body := if ends_with_char (is_char c_nul) raw then removelast raw else raw in
  match raw with [] => [] | _ => split_on (is_char c_nul) body end.

(** A name that is not UTF-8 decodes with replacement characters. *)
Definition decoded (field : list Z) : str := from_utf8_lossy field.

Definition side (mode : str) : result Side Malformed :=
  if bool_decide (mode = lit "000000") then Ok Absent
  else if bool_decide (mode = lit "100644") || bool_decide (mode = lit "100755") then Ok File
  else if bool_decide (mode = lit "120000") then Ok Link
  else if bool_decide (mode = lit "160000") then Ok Gitlink
  else Err (Mode mode).

(** The metadata field is ":<old mode> <new mode> <old sha> <new sha> <status>". *)
Definition meta_parts (text : str) : result (str * str * char) Malformed :=
  match text with
  | c :: rest =>
      if negb (c =? c_colon) then Err NoMeta
      else
        match split_char c_space rest with
        | [old; new; _; _; status] => match status with s :: _ => Ok (old, new, s) | [] => Err NoMeta end
        | _ => Err NoMeta
        end
  | [] => Err NoMeta
  end.

Definition next_path (fields : list (list Z)) : result (str * list (list Z)) Malformed :=
  match fields with field :: fields => Ok (decoded field, fields) | [] => Err NoPath end.

(** A copy leaves its source in place, so the old side of a copy is absent. *)
Definition record (meta : list Z) (fields : list (list Z)) : result (Change * list (list Z)) Malformed :=
  let? (old_mode, new_mode, status) := meta_parts (decoded meta) in
  let? (old_path, fields) := next_path fields in
  let? (path, fields) := (if bool_decide (status ∈ TWO_PATH_STATUSES) then next_path fields else Ok (old_path, fields)) in
  let? old := (if status =? c_copied then Ok Absent else side old_mode) in
  let? new := side new_mode in
  Ok ({| status := status; path := path; old_path := old_path; old := old; new := new |}, fields).

(** [None] is that the fuel ran out. *)
Fixpoint records (fuel : nat) (fields : list (list Z)) : option (result (list Change) Malformed) :=
  match fields with
  | [] => Some (Ok [])
  | meta :: fields =>
      match fuel with
      | O => None
      | S fuel =>
          match record meta fields with
          | Err e => Some (Err e)
          | Ok (change, fields) => r ← records fuel fields; Some (let? changes := r in Ok (change :: changes))
          end
      end
  end.

Definition parse_changes (raw : list Z) : option (result (list Change) Malformed) := records (length (fields raw)) (fields raw).

Definition untracked (name : str) : Change :=
  let '(path, new) :=
    if ends_with_char (is_char c_slash) name then (trim_end_of (is_char c_slash) name, Gitlink) else (name, File) in
  {| status := UNTRACKED; path := path; old_path := path; old := Absent; new := new |}.

Definition parse_untracked (raw : list Z) : list Change := map (fun field => untracked (decoded field)) (fields raw).

Definition is_hex (byte : Z) : bool := (48 <=? byte) && (byte <=? 57) || (97 <=? byte) && (byte <=? 102).

Definition parse_commit (stdout : list Z) : result str Malformed :=
  let name := strip (from_utf8_lossy stdout) in
  if all is_hex (as_bytes name) && (bool_decide (utf8_len name = 40%nat) || bool_decide (utf8_len name = 64%nat))
  then Ok name else Err NotOneObjectName.

Definition looks_binary (data : list Z) : bool := bool_decide (0 ∈ take (Nat.min (length data) BINARY_PROBE_BYTES) data).

(** * Git's documented records *)

(** The type of a side as git's file modes tell it; a mode of no such type is kept as its text. *)
Inductive GitMode := Missing | Regular | Executable | SymbolicLink | Submodule | OtherMode (text : str).

Definition mode_text (m : GitMode) : str :=
  match m with
  | Missing => lit "000000" | Regular => lit "100644" | Executable => lit "100755" | SymbolicLink => lit "120000" | Submodule => lit "160000"
  | OtherMode text => text
  end.

(** The statuses of git's raw format; a rename and a copy carry a similarity score and the bytes of a
    second path, and a rewrite a score. *)
Inductive GitStatus :=
| Added | Deleted | Modified (score : str) | TypeChanged | Unmerged | Unknown
| Renamed (score : str) (to : list Z)
| Copied (score : str) (to : list Z).

Definition status_text (s : GitStatus) : str :=
  match s with
  | Added => lit "A" | Deleted => lit "D" | Modified score => lit "M" ++ score | TypeChanged => lit "T" | Unmerged => lit "U" | Unknown => lit "X"
  | Renamed score _ => lit "R" ++ score | Copied score _ => lit "C" ++ score
  end.

(** A record as git writes it: the modes, the object names, the status, and the bytes of the path. *)
Record Entry := {
  e_old_mode : GitMode;
  e_new_mode : GitMode;
  e_old_sha : str;
  e_new_sha : str;
  e_status : GitStatus;
  e_path : list Z
}.

Definition second_path (s : GitStatus) : option (list Z) := match s with Renamed _ to | Copied _ to => Some to | _ => None end.

Definition meta_words (e : Entry) : list str :=
  [mode_text (e_old_mode e); mode_text (e_new_mode e); e_old_sha e; e_new_sha e; status_text (e_status e)].

Definition meta_text (e : Entry) : str := [c_colon] ++ join_with [c_space] (meta_words e).

Definition entry_fields (e : Entry) : list (list Z) := as_bytes (meta_text e) :: e_path e :: option_list (second_path (e_status e)).

Definition printed (fields : list (list Z)) : list Z := concat (map (fun field => field ++ [c_nul]) fields).

(** A word of a record: visible ASCII characters. *)
Definition word (s : str) : bool := forallb (fun c => (33 <=? c) && (c <=? 126)) s.

Definition mode_ok (m : GitMode) : bool :=
  match m with OtherMode text => negb (bool_decide (text ∈ map mode_text [Missing; Regular; Executable; SymbolicLink; Submodule])) | _ => true end.

Definition entry_ok (e : Entry) : bool :=
  forallb word (meta_words e) && mode_ok (e_old_mode e) && mode_ok (e_new_mode e) &&
  negb (bool_decide (0 ∈ e_path e)) && forallb (fun to => negb (bool_decide (0 ∈ to))) (option_list (second_path (e_status e))).

(** What a mode says of its side, or that it names no file type. *)
Definition side_of (m : GitMode) : result Side Malformed :=
  match m with
  | Missing => Ok Absent | Regular | Executable => Ok File | SymbolicLink => Ok Link | Submodule => Ok Gitlink
  | OtherMode text => Err (Mode text)
  end.

(** What a record stands for, or the mode that names no type, the old one first.  The source of a copy stays, so
    the old side of the new path is absent. *)
Definition change_of (e : Entry) : result Change Malformed :=
  let first := from_utf8_lossy (e_path e) in
  let letter := match status_text (e_status e) with c :: _ => c | [] => 0 end in
  match e_status e, side_of (e_old_mode e), side_of (e_new_mode e) with
  | Copied _ to, _, Ok new => Ok {| status := letter; path := from_utf8_lossy to; old_path := first; old := Absent; new := new |}
  | Renamed _ to, Ok old, Ok new => Ok {| status := letter; path := from_utf8_lossy to; old_path := first; old := old; new := new |}
  | _, Ok old, Ok new => Ok {| status := letter; path := first; old_path := first; old := old; new := new |}
  | Copied _ _, _, Err m => Err m
  | _, Err m, _ => Err m
  | _, _, Err m => Err m
  end.

(** All the results, or the first error. *)
Fixpoint first_error {A E} (l : list (result A E)) : result (list A) E :=
  match l with [] => Ok [] | r :: l => let? a := r in let? rest := first_error l in Ok (a :: rest) end.

(** * Lemmas *)

Definition nul_free (field : list Z) : Prop := 0 ∉ field.

Lemma nul_free_char field : nul_free field -> char_free c_nul field.
Proof. intros H. apply Forall_forall. intros c Hc. apply is_char_false. unfold c_nul. by intros <-. Qed.

Lemma printed_joined fs : fs <> [] -> printed fs = join_with [c_nul] fs ++ [c_nul].
Proof.
  induction fs as [|f fs IH]; [done|]. intros _. cbn [printed map concat]. destruct fs as [|g fs]; [by rewrite app_nil_r|].
  change (concat (map (fun field => field ++ [c_nul]) (g :: fs))) with (printed (g :: fs)). rewrite IH by done.
  rewrite (join_with_cons _ f (g :: fs)) by done. by rewrite <- !app_assoc.
Qed.

(** The fields of a print are the fields. *)
Lemma fields_printed fs : Forall nul_free fs -> fields (printed fs) = fs.
Proof.
  intros Hf. destruct (decide (fs = [])) as [->|Hne]; [done|]. rewrite printed_joined by done. unfold fields.
  unfold ends_with_char. rewrite last_snoc, is_char_refl, removelast_last. destruct (join_with [c_nul] fs ++ [c_nul]) eqn:E; [by destruct (join_with [c_nul] fs)|].
  apply split_join_char; [done|]. eapply Forall_impl; [exact Hf|]. apply nul_free_char.
Qed.

(** The parser takes at least one field for each record. *)
Lemma record_shorter meta fs change rest : record meta fs = Ok (change, rest) -> (length rest <= length fs)%nat.
Proof.
  unfold record. destruct (meta_parts _) as [[[old_mode new_mode] st]|]; [cbn [result_bind]|done]. destruct fs as [|f fs]; [done|]. cbn [next_path result_bind].
  destruct (bool_decide _); [destruct fs as [|g fs]; [done|]|]; cbn [next_path result_bind];
    (destruct (if _ : bool then _ else side old_mode); [cbn [result_bind]|done]); (destruct (side new_mode); [cbn|done]); intros [= _ <-]; cbn; lia.
Qed.

Lemma records_total fuel fs : (length fs <= fuel)%nat -> is_Some (records fuel fs).
Proof.
  revert fs. induction fuel as [|fuel IH]; intros [|meta fs] Hl; cbn [records length] in *; [by eexists|lia|by eexists|].
  destruct (record meta fs) as [[change rest]|e] eqn:E; [|by eexists]. apply record_shorter in E.
  destruct (IH rest ltac:(lia)) as [r ->]. by eexists.
Qed.

Lemma word_spec s : word s = true -> is_str s /\ Forall is_ascii s /\ char_free c_space s /\ nul_free s.
Proof.
  unfold word. rewrite forallb_forall. intros H. assert (forall c, c ∈ s -> 33 <= c <= 126) as Hr.
  { intros c Hc%list_elem_of_In%H. lia. }
  split_and!; [apply Forall_forall; intros c Hc%Hr; apply is_scalar_range; lia|apply Forall_forall; intros c Hc%Hr; unfold is_ascii; lia| |].
  - apply Forall_forall. intros c Hc%Hr. apply is_char_false. unfold c_space. lia.
  - intros Hc%Hr. lia.
Qed.

Lemma words_joined parts : forallb word parts = true ->
  let text := join_with [c_space] parts in is_str text /\ Forall is_ascii text /\ nul_free text /\ Forall (char_free c_space) parts.
Proof.
  cbn zeta. induction parts as [|p parts IH]; [intros _; split_and!; [constructor|constructor|by intros ?%elem_of_nil|constructor]|]. cbn [forallb].
  intros [(H1 & H2 & H3 & H4)%word_spec H]%andb_true_iff. destruct (IH H) as (H5 & H6 & H7 & H8). destruct parts as [|q parts]; [split_and!; auto|].
  rewrite join_with_cons by done. split_and!; [| | |by constructor].
  - apply Forall_app. split; [done|]. by constructor.
  - apply Forall_app. split; [done|]. constructor; [by unfold is_ascii, c_space|done].
  - intros [|[Hz|]%elem_of_cons]%elem_of_app; [by apply H4|by unfold c_space in Hz|by apply H7].
Qed.

Lemma side_mode m : mode_ok m = true -> side (mode_text m) = side_of m.
Proof.
  destruct m as [| | | | |text]; try done. cbn [mode_ok mode_text side_of map]. rewrite negb_true_iff, bool_decide_eq_false, !not_elem_of_cons.
  intros (H1 & H2 & H3 & H4 & H5 & _). unfold side. by rewrite !bool_decide_false.
Qed.

Lemma status_head st : exists c rest, status_text st = c :: rest /\ (c ∈ TWO_PATH_STATUSES <-> is_Some (second_path st)) /\ (c = c_copied <-> exists score to, st = Copied score to).
Proof.
  destruct st; eexists _, _; (split; [reflexivity|]); cbn [second_path]; unfold TWO_PATH_STATUSES, c_copied; cbn [lit map app];
    (split; [split; [intros H|intros [? H]]|split; [intros H|intros (? & ? & H)]]);
    first [done | by eexists | by eexists _, _ | by vm_compute in H | (apply (bool_decide_unpack _); vm_compute; exact I) | (exfalso; revert H; apply (bool_decide_unpack _); vm_compute; exact I)].
Qed.

Lemma entry_spec e : entry_ok e = true ->
  Forall nul_free (entry_fields e) /\ mode_ok (e_old_mode e) = true /\ mode_ok (e_new_mode e) = true /\
  forall c rest, status_text (e_status e) = c :: rest -> meta_parts (decoded (as_bytes (meta_text e))) = Ok (mode_text (e_old_mode e), mode_text (e_new_mode e), c).
Proof.
  unfold entry_ok. rewrite !andb_true_iff, negb_true_iff, bool_decide_eq_false. intros [[[[Hw Ho] Hn] Hf] Hs].
  destruct (words_joined _ Hw) as (H1 & H2 & H3 & H4). assert (is_str (meta_text e)) as Hm by (by constructor). split; [|split; [done|split; [done|]]].
  - unfold entry_fields. constructor; [|constructor; [done|]].
    + rewrite as_bytes_ascii by (constructor; [by unfold is_ascii, c_colon|done]). intros [Hz|Hz]%elem_of_cons; [done|by apply H3].
    + destruct (second_path (e_status e)) as [to|]; [|constructor]. cbn in Hs. rewrite andb_true_r, negb_true_iff, bool_decide_eq_false in Hs. by repeat constructor.
  - intros c rest Hst. unfold decoded. rewrite lossy_of_text by done. unfold meta_text, meta_parts. cbn [app].
    change (c_colon =? c_colon) with true. cbn [negb]. rewrite (split_join_char c_space (meta_words e)) by done. unfold meta_words. by rewrite Hst.
Qed.

Lemma record_entry e rest : entry_ok e = true ->
  record (as_bytes (meta_text e)) (e_path e :: option_list (second_path (e_status e)) ++ rest) = let? c := change_of e in Ok (c, rest).
Proof.
  intros (_ & Ho & Hn & Hm)%entry_spec. destruct (status_head (e_status e)) as (c & more & Hst & Htwo & Hcopy).
  unfold record. rewrite (Hm c more Hst). cbn [result_bind next_path]. unfold change_of, decoded. rewrite Hst, !side_mode by done.
  destruct (e_status e) as [| | | | | |score to|score to]; cbn [second_path option_list app] in *;
    (destruct (bool_decide_reflect (c ∈ TWO_PATH_STATUSES)) as [H2|H2]; [try (by apply Htwo in H2 as [? ?])|try (by destruct H2; apply Htwo)]);
    (destruct (Z.eqb_spec c c_copied) as [Hc|Hc]; [try (by apply Hcopy in Hc as (? & ? & ?))|try (by destruct Hc; apply Hcopy; eexists _, _)]);
    cbn [next_path result_bind]; destruct (side_of (e_old_mode e)), (side_of (e_new_mode e)); done.
Qed.

Lemma records_entries es : forallb entry_ok es = true -> forall fuel, (length (concat (map entry_fields es)) <= fuel)%nat ->
  records fuel (concat (map entry_fields es)) = Some (first_error (map change_of es)).
Proof.
  induction es as [|e es IH]; intros H fuel Hf; [by destruct fuel|]. cbn [forallb] in H. apply andb_true_iff in H as [He H].
  cbn [map concat entry_fields app] in *. cbn [length] in Hf. destruct fuel as [|fuel]; [lia|]. cbn [records]. rewrite record_entry by done.
  cbn [first_error]. destruct (change_of e) as [c|m]; cbn [result_bind]; [|done].
  rewrite IH; [done|done|]. rewrite length_app in Hf. lia.
Qed.

Lemma entries_nul_free es : forallb entry_ok es = true -> Forall nul_free (concat (map entry_fields es)).
Proof.
  induction es as [|e es IH]; [constructor|]. cbn [forallb]. intros [He H]%andb_true_iff. cbn [map concat]. apply Forall_app.
  split; [by apply entry_spec|by apply IH].
Qed.

(** C28: The parser ends on every output; the records of git's raw format are read back as their changes, in
    order: the sides by the modes, the paths with any bytes, renames and copies with both paths and a
    copy with no old side; a record whose mode names no file type is the error, the first such first. *)
Theorem parse_changes_exact :
  (forall raw, is_Some (parse_changes raw)) /\
  (forall es, forallb entry_ok es = true -> parse_changes (printed (concat (map entry_fields es))) = Some (first_error (map change_of es))).
Proof.
  split; [intros raw; by apply records_total|]. intros es H. unfold parse_changes. rewrite fields_printed by by apply entries_nul_free.
  by apply records_entries.
Qed.

(** A rename of a path that is not UTF-8, a copy of a submodule, and a record whose mode names no file type. *)
Lemma parse_changes_exact_witness :
  let e mode st := {| e_old_mode := Regular; e_new_mode := mode; e_old_sha := lit "0a"; e_new_sha := lit "0b"; e_status := st; e_path := [0xff; 97] |} in
  let es := [e Executable (Renamed (lit "095") [98]); e Submodule (Copied (lit "100") [99])] in
  let bad := [e Executable TypeChanged; e (OtherMode (lit "040000")) (Modified [])] in
  forallb entry_ok es = true /\ parse_changes (printed (concat (map entry_fields es))) = Some (Ok
    [ {| status := 82; path := lit "b"; old_path := [0xfffd; 97]; old := File; new := File |};
      {| status := 67; path := lit "c"; old_path := [0xfffd; 97]; old := Absent; new := Gitlink |} ]) /\
  parse_changes (printed (concat (map entry_fields bad))) = Some (Err (Mode (lit "040000"))).
Proof.
  intros e es bad. assert (forallb entry_ok es = true) as H by (vm_compute; reflexivity). split; [exact H|].
  split; [rewrite (proj2 parse_changes_exact es H)|rewrite (proj2 parse_changes_exact bad ltac:(vm_compute; reflexivity))]; vm_compute; reflexivity.
Defined.

(** A listing of untracked names is read back; a name that ends in [/] is a nested repository. *)
Theorem parse_untracked_exact names (Hn : Forall nul_free names) :
  parse_untracked (printed names) = map (fun name => untracked (from_utf8_lossy name)) names.
Proof. unfold parse_untracked. by rewrite fields_printed. Qed.

(** A rename, a copy and a deleted link. *)
Example changes_parsed :
  let sha := lit "0123abc" in
  parse_changes (as_bytes (lit ":100644 100755 0123abc 0123abc R095" ++ [0] ++ lit "a b" ++ [0] ++ lit "c" ++ [0]
    ++ lit ":100644 100644 0123abc 0123abc C100" ++ [0] ++ lit "x" ++ [0] ++ lit "y" ++ [0]
    ++ lit ":120000 000000 0123abc 0123abc D" ++ [0] ++ lit "l" ++ [0])) =
  Some (Ok [ {| status := 82; path := lit "c"; old_path := lit "a b"; old := File; new := File |};
             {| status := 67; path := lit "y"; old_path := lit "x"; old := Absent; new := File |};
             {| status := 68; path := lit "l"; old_path := lit "l"; old := Link; new := Absent |} ]).
Proof. vm_compute. reflexivity. Qed.
