(* ===== verification/IndexPlan.v ===== *)
(** The incremental index: crates/store/src/plan.rs, with the rows and the one write of writer.rs.

    A run decides for each walked file whether its stored row is reused, and joins the parses of the
    others to that plan.  [incremental_is_full] shows that the write never breaks the uniqueness of
    the paths and leaves exactly the rows that an index of the whole repository would have.  The
    parser, the encoder's blobs and the digest are inputs; the database is the table that its
    statements describe. *)

From S2P Require Import Prelude RustStr CodePoints Ordered.

#[local] Open Scope rs_scope.

(** * Data *)

Section Index.
Context {Language Unparsable SqlError : Type}.
(** [Language::name], the reason of an [Unparsable] and the sha256 of a text. *)
Context (language_name : Language -> str) (unparsable_text : Unparsable -> str) (text_digest : str -> list Z).

Record FileText := { ft_path : str; ft_language : Language; ft_text : str }.

Definition digest (file : FileText) : list Z := text_digest (ft_text file).

Inductive Read := Oversize (size : Z) | Unreadable (reason : str) | TextRead (file : FileText).

Record Observed := { o_path : str; o_language : Language; o_measure : bool; o_read : Read }.

Record Entry := { e_language : str; e_digest : list Z; e_measured : bool }.

Record Previous := { p_entries : gmap (list Z) Entry; p_analysis : option (list Z) }.

Record Extract := { x_file : FileText; x_measure : bool; x_digest : list Z }.

Record IndexFailure := { f_path : str; f_reason : str }.
Record IndexSkip := { s_path : str; s_reason : str }.

Record Plan := {
  extract : list Extract;
  positions : list nat;
  seen : gset (list Z);
  recorded : list str;
  reused : nat;
  pruned : nat;
  failures : list (nat * IndexFailure);
  skips : list IndexSkip
}.

(** [Encoded] and [Blobs] of blob.rs. *)
Record Blobs := { b_metrics : option (list Z); b_symbols : list Z; b_rest : list Z }.
Record Encoded := { n_symbols : nat; n_imports : nat; n_refs : nat; blobs : result Blobs SqlError }.

Record NewRow := { r_file : FileText; r_digest : list Z; r_encoded : Encoded }.

Record Settled := {
  rows : list NewRow;
  delete : list str;
  settled_reused : nat;
  settled_pruned : nat;
  settled_failures : list IndexFailure;
  settled_skips : list IndexSkip
}.

(** The order of the texts: that of their bytes. *)
Definition path_le (a b : str) : bool := bytes_le (as_bytes a) (as_bytes b).

(** * The plan *)

(** The row describes the text now. *)
Definition row_matches (entry : Entry) (planned : Extract) (language : Language) : bool :=
  bool_decide (e_language entry = language_name language) && bool_decide (e_digest entry = x_digest planned)
    && Bool.eqb (e_measured entry) (x_measure planned).

(** [Skipped::TooLarge] as text, of io/read.rs. *)
Definition too_large_text (size : Z) : str :=
  lit "skipped: " ++ dec_text size ++ lit " bytes exceeds the per-file cap of " ++ dec_text 1000000 ++ lit " bytes".

Definition readable (plan : Plan) (position : nat) (planned : Extract) (unchanged : bool) : Plan :=
  let seen := {[ft_path (x_file planned)]} ∪ seen plan in
  if unchanged then
    {| extract := extract plan; positions := positions plan; seen := seen; recorded := recorded plan; reused := reused plan + 1;
       pruned := pruned plan; failures := failures plan; skips := skips plan |}
  else
    {| extract := extract plan ++ [planned]; positions := positions plan ++ [position]; seen := seen; recorded := recorded plan;
       reused := reused plan; pruned := pruned plan; failures := failures plan; skips := skips plan |}.

Definition consider (plan : Plan) (position : nat) (file : Observed) (entry : option Entry) : Plan :=
  match o_read file with
  | Oversize size =>
      {| extract := extract plan; positions := positions plan; seen := seen plan; recorded := recorded plan; reused := reused plan;
         pruned := pruned plan; failures := failures plan;
         skips := skips plan ++ [{| s_path := o_path file; s_reason := too_large_text size |}] |}
  | Unreadable reason =>
      {| extract := extract plan; positions := positions plan; seen := seen plan; recorded := recorded plan; reused := reused plan;
         pruned := pruned plan; failures := failures plan ++ [(position, {| f_path := o_path file; f_reason := reason |})];
         skips := skips plan |}
  | TextRead text =>
      let planned := {| x_file := text; x_measure := o_measure file; x_digest := digest text |} in
      let unchanged := from_option (fun entry => row_matches entry planned (o_language file)) false entry in
      readable plan position planned unchanged
  end.

Definition empty_plan (previous : Previous) : Plan :=
  {| extract := []; positions := []; seen := ∅; recorded := sort_by path_le (map fst (map_to_list (p_entries previous))); reused := 0;
     pruned := 0; failures := []; skips := [] |}.

Definition reusable (previous : Previous) (analysis : list Z) (force : bool) : bool :=
  negb force && bool_decide (p_analysis previous = Some analysis).

Definition plan_step (previous : Previous) (analysis : list Z) (force : bool) (plan : Plan) (cell : nat * Observed) : Plan :=
  let '(position, file) := cell in
  let entry := if reusable previous analysis force then p_entries previous !! o_path file else None in
  consider plan position file entry.

Definition plan_ (previous : Previous) (observed : list Observed) (analysis : list Z) (force : bool) : Plan :=
  let plan := foldl (plan_step previous analysis force) (empty_plan previous) (imap pair observed) in
  let present : gset (list Z) := list_to_set (map o_path observed) in
  {| extract := extract plan; positions := positions plan; seen := seen plan; recorded := recorded plan; reused := reused plan;
     pruned := length (List.filter (fun path => negb (bool_decide (path ∈ present))) (recorded plan));
     failures := failures plan; skips := skips plan |}.

(** * The join *)

(** The rows, the seen paths and the failures so far. *)
Definition join_step (acc : list NewRow * gset (list Z) * list (nat * IndexFailure)) (cell : Extract * nat * result Encoded Unparsable) :
    list NewRow * gset (list Z) * list (nat * IndexFailure) :=
  let '(rows, seen, failures) := acc in
  let '(planned, position, parsed) := cell in
  match parsed with
  | Ok encoded => (rows ++ [{| r_file := x_file planned; r_digest := x_digest planned; r_encoded := encoded |}], seen, failures)
  | Err unparsable =>
      let path := ft_path (x_file planned) in
      (rows, seen ∖ {[path]}, failures ++ [(position, {| f_path := path; f_reason := unparsable_text unparsable |})])
  end.

Definition row_le (a b : NewRow) : bool := path_le (ft_path (r_file a)) (ft_path (r_file b)).

(** [None] is the panic of a result count that is not the file count. *)
Definition settle (plan : Plan) (parsed : list (result Encoded Unparsable)) : option Settled :=
  if negb (bool_decide (length (extract plan) = length parsed)) then None
  else
    let '(rows, seen, failures) :=
      foldl join_step ([], seen plan, failures plan) (zip (zip (extract plan) (positions plan)) parsed) in
    let failures := sort_by (fun a b : nat * IndexFailure => (a.1 <=? b.1)%nat) failures in
    let rows := sort_by row_le rows in
    let written : gset (list Z) := list_to_set (map (fun row => ft_path (r_file row)) rows) in
    let delete := List.filter (fun path => negb (bool_decide (path ∈ seen)) || bool_decide (path ∈ written)) (recorded plan) in
    Some {| rows := rows; delete := delete; settled_reused := reused plan; settled_pruned := pruned plan;
            settled_failures := map snd failures; settled_skips := skips plan |}.

(** * The database: schema.rs and writer.rs *)

(** A row of the files table, without its path and its id. *)
Record Row := { w_language : str; w_digest : list Z; w_tags : nat; w_imports : nat; w_refs : nat; w_metrics : option (list Z);
                w_symbols : list Z; w_facts : list Z }.

Record Meta := { m_repo_root : str; m_generation : str; m_analysis : list Z; m_created : Z }.

Record Database := { files : gmap (list Z) Row; meta : option Meta }.

(** Why a write fails: a path that is stored twice, or a row whose blobs did not encode. *)
Inductive WriteFailure := NotUnique (path : str) | NotEncoded (e : SqlError).

(** [load_previous]: the entries, and the analysis of the meta row. *)
Definition entry_of (row : Row) : Entry :=
  {| e_language := w_language row; e_digest := w_digest row; e_measured := bool_decide (is_Some (w_metrics row)) |}.

Definition load_previous (db : Database) : Previous :=
  {| p_entries := entry_of <$> files db; p_analysis := m_analysis <$> meta db |}.

Definition row_of (file : FileText) (digest : list Z) (encoded : Encoded) (blobs : Blobs) : Row :=
  {| w_language := language_name (ft_language file); w_digest := digest; w_tags := n_symbols encoded; w_imports := n_imports encoded;
     w_refs := n_refs encoded; w_metrics := b_metrics blobs; w_symbols := b_symbols blobs; w_facts := b_rest blobs |}.

(** The INSERT of a row: the path is UNIQUE. *)
Definition insert_row (table : gmap (list Z) Row) (row : NewRow) : result (gmap (list Z) Row) WriteFailure :=
  let path := ft_path (r_file row) in
  let? blobs := map_err NotEncoded (blobs (r_encoded row)) in
  if bool_decide (is_Some (table !! path)) then Err (NotUnique path)
  else Ok (<[path := row_of (r_file row) (r_digest row) (r_encoded row) blobs]> table).

Fixpoint insert_rows (table : gmap (list Z) Row) (rows : list NewRow) : result (gmap (list Z) Row) WriteFailure :=
  match rows with
  | [] => Ok table
  | row :: rows => let? table := insert_row table row in insert_rows table rows
  end.

(** [Writer::write]: one transaction, so a failure leaves the database as it was. *)
Definition write (db : Database) (settled : Settled) (new_meta : Meta) : result Database WriteFailure :=
  let deleted := foldl (fun table path => base.delete path table) (files db) (delete settled) in
  let? table := insert_rows deleted (rows settled) in
  Ok {| files := table; meta := Some new_meta |}.

(** * The index of a whole repository *)

Context (parse : FileText -> bool -> result Encoded Unparsable).

(** The row that a parse of an observed file gives. *)
Definition indexed (o : Observed) : option (str * Row) :=
  match o_read o with
  | TextRead file =>
      match parse file (o_measure o) with
      | Ok encoded => match blobs encoded with Ok b => Some (o_path o, row_of file (digest file) encoded b) | Err _ => None end
      | Err _ => None
      end
  | _ => None
  end.

Definition full_index (observed : list Observed) : gmap (list Z) Row := list_to_map (omap indexed observed).

(** The rows of a database whose meta row names this analysis were made by it, of files among those [known]. *)
Definition valid (analysis : list Z) (known : list FileText) (db : Database) : Prop :=
  m_analysis <$> meta db = Some analysis -> forall path row, files db !! path = Some row ->
    exists file measure encoded b, file ∈ known /\ ft_path file = path /\ parse file measure = Ok encoded /\ blobs encoded = Ok b /\
      row = row_of file (digest file) encoded b.

(** The texts of a walk. *)
Definition texts (observed : list Observed) : list FileText :=
  omap (fun o => match o_read o with TextRead file => Some file | _ => None end) observed.

(** The read of a file is of that file. *)
Definition observed_ok (o : Observed) : Prop :=
  match o_read o with TextRead file => ft_path file = o_path o /\ ft_language file = o_language o | _ => True end.

(** ** The plan, observation by observation *)

Section Plan.
Context (previous : Previous) (analysis : list Z) (force : bool).

Definition entry_for (o : Observed) : option Entry := if reusable previous analysis force then p_entries previous !! o_path o else None.

Definition planned_of (o : Observed) : option Extract :=
  match o_read o with TextRead text => Some {| x_file := text; x_measure := o_measure o; x_digest := digest text |} | _ => None end.

Definition unchanged (o : Observed) : bool :=
  from_option (fun planned => from_option (fun entry => row_matches entry planned (o_language o)) false (entry_for o)) false (planned_of o).

Definition extracted (o : Observed) : option Extract := if unchanged o then None else planned_of o.
Definition read_path (o : Observed) : option str := (fun planned => ft_path (x_file planned)) <$> planned_of o.

Definition unread (o : Observed) : option IndexFailure :=
  match o_read o with Unreadable reason => Some {| f_path := o_path o; f_reason := reason |} | _ => None end.
Definition skipped (o : Observed) : option IndexSkip :=
  match o_read o with Oversize size => Some {| s_path := o_path o; s_reason := too_large_text size |} | _ => None end.

Lemma plan_fold observed :
  let plan := foldl (plan_step previous analysis force) (empty_plan previous) (imap pair observed) in
  extract plan = omap extracted observed /\ length (positions plan) = length (extract plan) /\
  seen plan = list_to_set (omap read_path observed) /\ recorded plan = recorded (empty_plan previous) /\
  reused plan = length (List.filter unchanged observed) /\ map snd (failures plan) = omap unread observed /\ skips plan = omap skipped observed.
Proof.
  cbn zeta. induction observed as [|o observed IH] using rev_ind; [by cbn|]. rewrite imap_app, foldl_app. cbn [imap foldl]. rewrite Nat.add_0_r.
  set (plan := foldl _ _ _) in *. destruct IH as (H1 & H2 & H3 & H4 & H5 & H6 & H7).
  rewrite !omap_app, List.filter_app, length_app, list_to_set_app_L. cbn [omap list_omap list_to_set List.filter].
  unfold plan_step. fold (entry_for o). unfold consider, extracted, unchanged, read_path, planned_of, unread, skipped.
  destruct (o_read o) as [size|reason|text] eqn:Hr.
  - cbn. rewrite ?app_nil_r, ?union_empty_r_L, ?Nat.add_0_r, H7. auto 10.
  - cbn. rewrite ?app_nil_r, ?union_empty_r_L, ?Nat.add_0_r, map_app, H6. auto 10.
  - cbn. destruct (from_option _ false (entry_for o)); cbn; rewrite ?app_nil_r, ?Nat.add_0_r, ?H1, ?H3, ?H5, ?length_app, ?H2, ?H1; cbn;
      (split_and!; auto; set_solver).
Qed.
End Plan.

(** ** The join *)

Definition parsed_of (x : Extract) : result Encoded Unparsable := parse (x_file x) (x_measure x).

Definition new_row (x : Extract) : option NewRow :=
  match parsed_of x with Ok encoded => Some {| r_file := x_file x; r_digest := x_digest x; r_encoded := encoded |} | Err _ => None end.

Definition unparsed (x : Extract) : option str :=
  match parsed_of x with Ok _ => None | Err _ => Some (ft_path (x_file x)) end.

Lemma new_row_cons x xs : omap new_row (x :: xs) =
  match parsed_of x with
  | Ok encoded => {| r_file := x_file x; r_digest := x_digest x; r_encoded := encoded |} :: omap new_row xs
  | Err _ => omap new_row xs
  end.
Proof. cbn [omap list_omap]. unfold new_row at 1. by destruct (parsed_of x). Qed.

Lemma unparsed_cons x xs : omap unparsed (x :: xs) =
  match parsed_of x with Ok _ => omap unparsed xs | Err _ => ft_path (x_file x) :: omap unparsed xs end.
Proof. cbn [omap list_omap]. unfold unparsed at 1. by destruct (parsed_of x). Qed.

Lemma join_fold xs : forall places rows0 seen0 failures0, length places = length xs ->
  let '(rows, seen, failures) := foldl join_step (rows0, seen0, failures0) (zip (zip xs places) (map parsed_of xs)) in
  rows = rows0 ++ omap new_row xs /\ seen = seen0 ∖ list_to_set (omap unparsed xs) /\
  length failures = (length failures0 + length (omap unparsed xs))%nat.
Proof.
  induction xs as [|x xs IH]; intros places rows0 seen0 failures0 Hl; [cbn; split_and!; [by rewrite app_nil_r|set_solver|lia]|].
  destruct places as [|place places]; [done|]. apply eq_add_S in Hl. cbn [map zip zip_with foldl join_step].
  rewrite new_row_cons, unparsed_cons. destruct (parsed_of x) as [encoded|u] eqn:E.
  - specialize (IH places (rows0 ++ [{| r_file := x_file x; r_digest := x_digest x; r_encoded := encoded |}]) seen0 failures0 Hl).
    destruct (foldl _ _ _) as [[rows seen] failures]. destruct IH as (-> & -> & ->). by rewrite <- app_assoc.
  - specialize (IH places rows0 (seen0 ∖ {[ft_path (x_file x)]}) (failures0 ++ [(place, {| f_path := ft_path (x_file x); f_reason := unparsable_text u |})])
      Hl).
    destruct (foldl _ _ _) as [[rows seen] failures]. destruct IH as (-> & -> & ->). rewrite length_app. cbn [length list_to_set]. split_and!; [done|set_solver|lia].
Qed.

(** What the join of a plan with its parses gives. *)
Lemma settle_spec plan : length (positions plan) = length (extract plan) ->
  exists settled, settle plan (map parsed_of (extract plan)) = Some settled /\
  rows settled ≡ₚ omap new_row (extract plan) /\
  (forall path, path ∈ delete settled <-> path ∈ recorded plan /\
    (path ∉ seen plan \/ path ∈ omap unparsed (extract plan) \/ path ∈ map (fun row => ft_path (r_file row)) (omap new_row (extract plan)))) /\
  settled_reused settled = reused plan /\ settled_skips settled = skips plan /\
  length (settled_failures settled) = (length (failures plan) + length (omap unparsed (extract plan)))%nat.
Proof.
  intros Hl. unfold settle. rewrite bool_decide_true by by rewrite length_map. cbn [negb].
  pose proof (join_fold (extract plan) (positions plan) [] (seen plan) (failures plan) Hl) as Hj.
  destruct (foldl _ _ _) as [[rows' seen'] failures']. destruct Hj as (-> & -> & Hf). eexists. split; [done|]. cbn [app rows delete settled_reused settled_skips settled_failures].
  split; [apply sort_by_perm|]. split_and!; [|done|done|by rewrite length_map, sort_by_perm].
  intros path. rewrite list_elem_of_In, filter_In, <- list_elem_of_In, orb_true_iff, negb_true_iff, bool_decide_eq_false, bool_decide_eq_true.
  rewrite not_elem_of_difference, !elem_of_list_to_set, sort_by_perm. tauto.
Qed.

(** ** The write *)

Definition row_path (row : NewRow) : str := ft_path (r_file row).

Lemma delete_all (table : gmap (list Z) Row) paths path :
  foldl (fun table path => base.delete path table) table paths !! path = if bool_decide (path ∈ paths) then None else table !! path.
Proof.
  revert table. induction paths as [|p paths IH]; intros table; [done|]. cbn [foldl]. rewrite IH. destruct (decide (path = p)) as [->|Hne].
  - rewrite lookup_delete_eq, (bool_decide_true (p ∈ p :: paths)) by left. by case_bool_decide.
  - rewrite lookup_delete_ne by done. by rewrite (bool_decide_ext (path ∈ p :: paths) (path ∈ paths)) by set_solver.
Qed.

(** The rows are inserted when their blobs are encoded and no path is stored twice. *)
Lemma insert_rows_spec rows (row_value : NewRow -> Row) : forall table,
  (forall row, row ∈ rows -> exists b, blobs (r_encoded row) = Ok b /\ row_value row = row_of (r_file row) (r_digest row) (r_encoded row) b) ->
  NoDup (map row_path rows) -> (forall row, row ∈ rows -> table !! row_path row = None) ->
  exists table', insert_rows table rows = Ok table' /\
    forall path, table' !! path = from_option (fun row => Some (row_value row)) (table !! path) (List.find (fun row => bool_decide (row_path row = path)) rows).
Proof.
  induction rows as [|row rows IH]; intros table Hb Hn Ht; [by exists table|]. cbn [insert_rows map] in *. apply NoDup_cons in Hn as [Hnot Hn].
  destruct (Hb row ltac:(left)) as (b & Eb & Ev). unfold insert_row. rewrite Eb. cbn [map_err result_bind]. fold (row_path row).
  rewrite bool_decide_false by (rewrite (Ht row) by left; by intros []). cbn [result_bind]. rewrite <- Ev.
  destruct (IH (<[row_path row := row_value row]> table)) as (table' & E & H).
  - intros r Hr. apply Hb. by right.
  - done.
  - intros r Hr. rewrite lookup_insert_ne; [apply Ht; by right|]. intros Heq. apply Hnot. rewrite Heq. apply list_elem_of_fmap_2, Hr.
  - exists table'. split; [done|]. intros path. rewrite H. cbn [List.find]. case_bool_decide as Hp.
    + subst path. destruct (List.find _ rows) as [r|] eqn:Ef; [|cbn; by rewrite lookup_insert_eq]. exfalso.
      apply find_some in Ef as [Hr Er%bool_decide_eq_true]. apply Hnot. rewrite <- Er. apply list_elem_of_fmap_2, list_elem_of_In, Hr.
    + destruct (List.find _ rows); [done|]. cbn. by rewrite lookup_insert_ne.
Qed.

(** ** Lists with a key *)

Lemma omap_omap {A B C} (f : A -> option B) (g : B -> option C) (l : list A) : omap g (omap f l) = omap (fun a => f a ≫= g) l.
Proof.
  induction l as [|a l IH]; [done|]. cbn [omap list_omap]. destruct (f a) as [b|]; cbn [omap list_omap mbind option_bind]; [|done].
  by rewrite IH.
Qed.

Section Keys.
Context {A B K : Type} (P : A -> Prop) (k : A -> K) (g : B -> K) (f : A -> option B).
Context (Hkey : forall a b, P a -> f a = Some b -> g b = k a).

Lemma omap_keys (l : list A) key : Forall P l -> key ∈ map g (omap f l) -> key ∈ map k l.
Proof.
  intros Hl (b & -> & Hb)%list_elem_of_fmap. apply list_elem_of_omap in Hb as (a & Ha & E). rewrite Forall_forall in Hl.
  rewrite (Hkey a b (Hl a Ha) E). by apply list_elem_of_fmap_2.
Qed.

Lemma omap_keys_NoDup (l : list A) : Forall P l -> NoDup (map k l) -> NoDup (map g (omap f l)).
Proof.
  induction l as [|a l IH]; [done|]. cbn [map]. intros [Ha Hl]%Forall_cons [Hn H]%NoDup_cons. cbn [omap list_omap].
  destruct (f a) as [b|] eqn:E; [|by apply IH]. cbn [map]. apply NoDup_cons. split; [|by apply IH]. rewrite (Hkey a b Ha E).
  by intros H'%omap_keys.
Qed.

(** The value of the one element with a key. *)
Lemma omap_key_unique (l : list A) a b : Forall P l -> NoDup (map k l) -> a ∈ l -> b ∈ omap f l -> g b = k a -> f a = Some b.
Proof.
  intros Hl Hn Ha Hb E. rewrite Forall_forall in Hl. apply list_elem_of_omap in Hb as (a' & Ha' & E').
  rewrite (Hkey a' b (Hl a' Ha') E') in E. apply list_elem_of_lookup in Ha as [i Hi], Ha' as [j Hj].
  assert (i = j) as ->; [|congruence]. eapply (NoDup_lookup (map k l)); [done| |]; rewrite list_lookup_fmap; [by rewrite Hi|rewrite Hj; cbn; by rewrite E].
Qed.

Lemma omap_key_elem (l : list A) a : Forall P l -> NoDup (map k l) -> a ∈ l -> k a ∈ map g (omap f l) <-> is_Some (f a).
Proof.
  intros Hl Hn Ha. split.
  - intros (b & E & Hb)%list_elem_of_fmap. exists b. by eapply omap_key_unique.
  - intros [b Hb]. rewrite <- (Hkey a b) by (done || by eapply Forall_forall). apply list_elem_of_fmap_2, list_elem_of_omap. by exists a.
Qed.
End Keys.

Lemma find_key {A} (k : A -> str) (l : list A) a : NoDup (map k l) -> a ∈ l -> List.find (fun b => bool_decide (k b = k a)) l = Some a.
Proof.
  induction l as [|b l IH]; intros Hn Ha; [by apply elem_of_nil in Ha|]. cbn [map List.find] in *. apply NoDup_cons in Hn as [Hnot Hn].
  case_bool_decide as E; apply elem_of_cons in Ha as [->|Ha]; try done; [|by apply IH].
  exfalso. apply Hnot. rewrite E. by apply list_elem_of_fmap_2.
Qed.

Lemma find_no_key {A} (k : A -> str) (l : list A) key : key ∉ map k l -> List.find (fun b => bool_decide (k b = key)) l = None.
Proof.
  intros H. destruct (List.find _ l) as [b|] eqn:E; [|done]. apply find_some in E as [Hb <-%bool_decide_eq_true]. exfalso. apply H.
  apply list_elem_of_fmap_2, list_elem_of_In, Hb.
Qed.

(** ** The run *)

Section Run.
Context (db : Database) (observed : list Observed) (analysis : list Z) (force : bool) (known : list FileText).
Context (Hpaths : NoDup (map o_path observed)) (Hobserved : Forall observed_ok observed) (Hvalid : valid analysis known db).
Context (Hdigest : forall old new, old ∈ known -> new ∈ texts observed -> digest old = digest new -> ft_text old = ft_text new) (Hname : Inj eq eq language_name).
Context (Hencode : forall file measure encoded, parse file measure = Ok encoded ->
  exists b, blobs encoded = Ok b /\ bool_decide (is_Some (b_metrics b)) = measure).

Let previous := load_previous db.
Local Notation extracts := (extracted previous analysis force).
Local Notation same := (unchanged previous analysis force).

Lemma planned_path o planned : observed_ok o -> planned_of o = Some planned -> ft_path (x_file planned) = o_path o /\ ft_language (x_file planned) = o_language o.
Proof.
  unfold planned_of, observed_ok. destruct (o_read o); [done..|]. by intros ? [= <-].
Qed.

Lemma extracted_path o x : observed_ok o -> extracts o = Some x -> ft_path (x_file x) = o_path o.
Proof. intros Ho. unfold extracted. destruct (same o); [done|]. intros E. by eapply planned_path. Qed.

(** A row that is reused is the one that a parse of the file would give. *)
Lemma unchanged_row o : o ∈ observed -> same o = true -> exists row, files db !! o_path o = Some row /\ indexed o = Some (o_path o, row).
Proof.
  intros Ho. assert (Hok : observed_ok o) by by eapply Forall_forall. unfold unchanged, indexed. destruct (planned_of o) as [planned|] eqn:Ep; [cbn [from_option]|done].
  destruct (planned_path o planned Hok Ep) as [Hpath Hlang]. unfold entry_for, reusable, previous. cbn [p_analysis load_previous p_entries].
  destruct (negb force && bool_decide (m_analysis <$> meta db = Some analysis)) eqn:Er; [|done].
  apply andb_true_iff in Er as [_ Er%bool_decide_eq_true]. rewrite lookup_fmap. destruct (files db !! o_path o) as [row|] eqn:Erow; [cbn|done].
  unfold row_matches. rewrite !andb_true_iff, !bool_decide_eq_true. intros [[Hl Hd] Hm%eqb_prop].
  destruct (Hvalid Er _ _ Erow) as (file & measure & encoded & b & Hknown & Hfp & Hparse & Hb & ->). cbn in Hl, Hd, Hm.
  exists (row_of file (digest file) encoded b). split; [done|]. unfold planned_of in Ep. destruct (o_read o) as [| |text] eqn:Eread; [done..|].
  injection Ep as <-. cbn in *. apply Hname in Hl. apply Hdigest in Hd; [|done|apply list_elem_of_omap; exists o; by rewrite Eread].
  assert (text = file) as -> by (destruct text, file; cbn in *; congruence).
  destruct (Hencode _ _ _ Hparse) as (b' & Hb' & Hmeasure). rewrite Hb in Hb'. injection Hb' as <-.
  assert (measure = o_measure o) as -> by congruence. by rewrite Hparse, Hb.
Qed.

Lemma recorded_elem path : path ∈ recorded (empty_plan previous) <-> is_Some (files db !! path).
Proof.
  cbn. rewrite sort_by_perm. rewrite list_elem_of_fmap. split.
  - intros ([p e] & -> & H%elem_of_map_to_list). rewrite lookup_fmap in H. cbn. by destruct (files db !! p).
  - intros [row Hrow]. exists (path, entry_of row). split; [done|]. apply elem_of_map_to_list. by rewrite lookup_fmap, Hrow.
Qed.

Definition fresh (o : Observed) : option NewRow := extracts o ≫= new_row.
Definition broken (o : Observed) : option str := extracts o ≫= unparsed.

Lemma fresh_path o row : observed_ok o -> fresh o = Some row -> row_path row = o_path o.
Proof.
  intros Ho. unfold fresh. destruct (extracts o) as [x|] eqn:E; [|done]. cbn. unfold new_row. destruct (parsed_of x); [|done].
  intros [= <-]. by apply extracted_path.
Qed.

Lemma broken_path o path : observed_ok o -> broken o = Some path -> path = o_path o.
Proof.
  intros Ho. unfold broken. destruct (extracts o) as [x|] eqn:E; [|done]. cbn. unfold unparsed. destruct (parsed_of x); [done|].
  intros [= <-]. by apply extracted_path.
Qed.

Lemma read_path_path o path : observed_ok o -> read_path o = Some path -> path = o_path o.
Proof.
  intros Ho. unfold read_path. destruct (planned_of o) as [x|] eqn:E; [|done]. intros [= <-]. by eapply planned_path.
Qed.

Lemma indexed_path o cell : observed_ok o -> indexed o = Some cell -> cell.1 = o_path o.
Proof. intros _. unfold indexed. destruct (o_read o); try done. destruct (parse _ _); [|done]. destruct (blobs _); [|done]. by intros [= <-]. Qed.

(** The value of a row whose blobs are encoded. *)
Definition row_value (row : NewRow) : Row :=
  match blobs (r_encoded row) with
  | Ok b => row_of (r_file row) (r_digest row) (r_encoded row) b
  | Err _ => {| w_language := []; w_digest := []; w_tags := 0; w_imports := 0; w_refs := 0; w_metrics := None; w_symbols := []; w_facts := [] |}
  end.

Lemma fresh_encodes o row : fresh o = Some row -> exists b, blobs (r_encoded row) = Ok b /\
  row_value row = row_of (r_file row) (r_digest row) (r_encoded row) b.
Proof.
  unfold fresh. destruct (extracts o) as [x|]; [|done]. cbn. unfold new_row. destruct (parsed_of x) as [encoded|] eqn:E; [|done].
  intros [= <-]. destruct (Hencode _ _ _ E) as (b & Hb & _). exists b. unfold row_value. cbn. by rewrite Hb.
Qed.

(** What the plan and the parse make of an observation, case by case. *)
Lemma observation_cases o : o ∈ observed ->
  (exists row, files db !! o_path o = Some row /\ indexed o = Some (o_path o, row) /\ fresh o = None /\ broken o = None /\ is_Some (read_path o)) \/
  (exists row, fresh o = Some row /\ indexed o = Some (o_path o, row_value row)) \/
  (indexed o = None /\ fresh o = None /\ (read_path o = None \/ is_Some (broken o))).
Proof.
  intros Ho. destruct (same o) eqn:Es.
  - left. destruct (unchanged_row o Ho Es) as (row & H1 & H2). exists row. unfold fresh, broken, extracted. rewrite Es. split_and!; try done.
    unfold read_path. unfold unchanged in Es. destruct (planned_of o); [by eexists|done].
  - right. unfold fresh, broken, extracted, read_path, indexed. rewrite Es. unfold planned_of. destruct (o_read o) as [| |text]; [by right; auto..|].
    cbn. unfold new_row, unparsed, parsed_of. cbn. destruct (parse text (o_measure o)) as [encoded|u] eqn:Ep; [left|right; eauto].
    destruct (Hencode _ _ _ Ep) as (b & Hb & _). eexists. split; [done|]. unfold row_value. cbn. by rewrite Hb.
Qed.

Lemma full_index_elem o : o ∈ observed -> full_index observed !! o_path o = snd <$> indexed o.
Proof.
  intros Ho. unfold full_index. assert (Hn : NoDup (map fst (omap indexed observed))).
  { by apply (omap_keys_NoDup observed_ok o_path fst indexed indexed_path). }
  destruct (indexed o) as [[p row]|] eqn:E; cbn.
  - assert (p = o_path o) as -> by (apply (indexed_path o (p, row)); [by eapply Forall_forall|done]).
    apply elem_of_list_to_map_1; [done|]. apply list_elem_of_omap. by exists o.
  - apply not_elem_of_list_to_map_1. intros H. apply (omap_key_elem observed_ok o_path fst indexed indexed_path) in H as [? H]; [|done..]. congruence.
Qed.

Lemma full_index_none path : path ∉ map o_path observed -> full_index observed !! path = None.
Proof.
  intros H. apply not_elem_of_list_to_map_1. contradict H. by apply (omap_keys observed_ok o_path fst indexed indexed_path) in H.
Qed.

(** What a run settles, observation by observation. *)
Lemma run_settled : let plan := plan_ previous observed analysis force in
  exists settled, settle plan (map parsed_of (extract plan)) = Some settled /\ rows settled ≡ₚ omap fresh observed /\
  (forall path, path ∈ delete settled <-> is_Some (files db !! path) /\
    (path ∉ omap read_path observed \/ path ∈ omap broken observed \/ path ∈ map row_path (omap fresh observed))) /\
  settled_reused settled = length (List.filter same observed) /\ settled_skips settled = omap skipped observed /\
  length (settled_failures settled) = (length (omap unread observed) + length (omap broken observed))%nat.
Proof.
  cbn zeta. pose proof (plan_fold previous analysis force observed) as H. cbn zeta in H. unfold plan_. set (plan := foldl _ _ _) in *.
  destruct H as (H1 & H2 & H3 & H4 & H5 & H6 & H7).
  destruct (settle_spec {| extract := extract plan; positions := positions plan; seen := seen plan; recorded := recorded plan; reused := reused plan;
     pruned := length (List.filter (fun path => negb (bool_decide (path ∈ (list_to_set (map o_path observed) : gset (list Z))))) (recorded plan));
     failures := failures plan; skips := skips plan |} H2) as (settled & E & Hrows & Hdelete & Hreused & Hskips & Hfailures).
  cbn [extract positions seen recorded reused failures skips] in *.
  exists settled. split; [done|]. rewrite <- H5, <- H7. rewrite H1, !omap_omap in *. split; [done|]. split.
  - intros path. rewrite Hdelete, H3, H4, recorded_elem, elem_of_list_to_set. done.
  - split; [done|]. split; [done|]. rewrite Hfailures, <- H6. by rewrite length_map.
Qed.

Lemma files_none path : path ∉ map o_path observed -> path ∉ omap read_path observed.
Proof.
  intros H. contradict H. rewrite <- (map_id (omap read_path observed)) in H. eapply (omap_keys observed_ok o_path id read_path); [|done|done].
  intros o p Ho Hp. by apply read_path_path.
Qed.

(** The paths that a run deletes. *)
Lemma read_elem o : o ∈ observed -> o_path o ∈ omap read_path observed <-> is_Some (read_path o).
Proof.
  intros Ho. rewrite <- (map_id (omap read_path observed)). apply (omap_key_elem observed_ok o_path id read_path); try done.
  intros o' p Ho' Hp. by apply read_path_path.
Qed.

Lemma broken_elem o : o ∈ observed -> o_path o ∈ omap broken observed <-> is_Some (broken o).
Proof.
  intros Ho. rewrite <- (map_id (omap broken observed)). apply (omap_key_elem observed_ok o_path id broken); try done.
  intros o' p Ho' Hp. by apply broken_path.
Qed.

Lemma fresh_elem o : o ∈ observed -> o_path o ∈ map row_path (omap fresh observed) <-> is_Some (fresh o).
Proof. intros Ho. by apply (omap_key_elem observed_ok o_path row_path fresh fresh_path). Qed.

(** The row that is found for an observed path. *)
Lemma find_fresh found o : found ≡ₚ omap fresh observed -> o ∈ observed -> List.find (fun row => bool_decide (row_path row = o_path o)) found = fresh o.
Proof.
  intros Hp Ho. destruct (fresh o) as [row|] eqn:E.
  - rewrite <- (fresh_path o row) by (done || by eapply Forall_forall). apply find_key.
    + rewrite Hp. by apply (omap_keys_NoDup observed_ok o_path row_path fresh fresh_path).
    + rewrite Hp. apply list_elem_of_omap. by exists o.
  - apply find_no_key. rewrite Hp, fresh_elem by done. rewrite E. by intros [].
Qed.

(** What the deletes leave for a path. *)
Lemma after_deletes settled path :
  (forall path, path ∈ delete settled <-> is_Some (files db !! path) /\
    (path ∉ omap read_path observed \/ path ∈ omap broken observed \/ path ∈ map row_path (omap fresh observed))) ->
  path ∉ omap read_path observed \/ path ∈ omap broken observed \/ path ∈ map row_path (omap fresh observed) ->
  foldl (fun table path => base.delete path table) (files db) (delete settled) !! path = None.
Proof.
  intros Hd H. rewrite delete_all. case_bool_decide as Hin; [done|]. destruct (files db !! path) eqn:E; [|done]. destruct Hin. apply Hd. eauto.
Qed.

Lemma texts_elem o text : o ∈ observed -> o_read o = TextRead text -> text ∈ texts observed.
Proof. intros Ho E. apply list_elem_of_omap. exists o. by rewrite E. Qed.

(** The rows of a whole index are those of its texts. *)
Lemma full_index_valid new_meta : valid analysis (texts observed) {| files := full_index observed; meta := Some new_meta |}.
Proof.
  intros _ path row. cbn. unfold full_index. intros H%elem_of_list_to_map_2. apply list_elem_of_omap in H as (o & Ho & E).
  assert (Hok : observed_ok o) by by eapply Forall_forall. unfold indexed, observed_ok in *. destruct (o_read o) as [| |text] eqn:Er; [done..|].
  destruct (parse text (o_measure o)) as [encoded|] eqn:Ep; [|done]. destruct (blobs encoded) as [b|] eqn:Eb; [|done]. injection E as <- <-.
  exists text, (o_measure o), encoded, b. split; [by eapply texts_elem|]. split; [apply Hok|done].
Qed.

Definition count {A : Type} (x : option A) : nat := match x with Some _ => 1 | None => 0 end.

Lemma length_omap_cons {A B : Type} (f : A -> option B) a (l : list A) : length (omap f (a :: l)) = (count (f a) + length (omap f l))%nat.
Proof. cbn [omap list_omap]. by destruct (f a). Qed.

(** Every observed file is a new row, a row that is reused, a failure or a skip. *)
Lemma one_counted o : (count (fresh o) + (if same o then 1 else 0) + count (unread o) + count (broken o) + count (skipped o) = 1)%nat.
Proof.
  unfold fresh, broken, extracted, unchanged, unread, skipped, planned_of. destruct (o_read o) as [size|reason|text]; cbn; [done..|].
  destruct (from_option _ false _); [done|]. cbn. unfold new_row, unparsed. by destruct (parsed_of _).
Qed.

Lemma observations_counted (l : list Observed) : length l =
  (length (omap fresh l) + length (List.filter same l) + (length (omap unread l) + length (omap broken l)) + length (omap skipped l))%nat.
Proof.
  induction l as [|o l IH]; [done|]. rewrite !length_omap_cons. cbn [List.filter length]. pose proof (one_counted o).
  destruct (same o); cbn [length]; lia.
Qed.

(** C6: When the stored rows are those of earlier parses, the run joins its plan and writes it without a
    repeated path, and the table then is the index of the whole walk, as if nothing had been stored. *)
Theorem incremental_is_full new_meta : m_analysis new_meta = analysis ->
  let plan := plan_ (load_previous db) observed analysis force in
  exists settled db', settle plan (map parsed_of (extract plan)) = Some settled /\ write db settled new_meta = Ok db' /\
    files db' = full_index observed /\ meta db' = Some new_meta /\ valid analysis (texts observed) db' /\
    (length (rows settled) + settled_reused settled + length (settled_failures settled) + length (settled_skips settled) = length observed)%nat.
Proof.
  intros Hmeta. cbn zeta. fold previous. destruct run_settled as (settled & E & Hrows & Hdelete & Hreused & Hskips & Hfailures).
  pose proof (after_deletes settled) as Hafter. specialize (fun path => Hafter path Hdelete). set (table := foldl _ _ _) in Hafter.
  assert (Hkeys : NoDup (map row_path (omap fresh observed))) by by apply (omap_keys_NoDup observed_ok o_path row_path fresh fresh_path).
  destruct (insert_rows_spec (rows settled) row_value table) as (table' & Einsert & Htable).
  - intros row. rewrite Hrows. intros (o & _ & Ho)%list_elem_of_omap. by eapply fresh_encodes.
  - by rewrite Hrows.
  - intros row Hrow. apply Hafter. right. right. rewrite Hrows in Hrow. by apply list_elem_of_fmap_2.
  - exists settled, {| files := table'; meta := Some new_meta |}. split; [done|]. unfold write. fold table. rewrite Einsert. split; [done|].
    assert (table' = full_index observed) as ->.
    { apply map_eq. intros path. rewrite Htable. destruct (decide (path ∈ map o_path observed)) as [(o & -> & Ho)%list_elem_of_fmap|Hno].
      - rewrite (find_fresh (rows settled)), full_index_elem by done.
        destruct (observation_cases o Ho) as [(row & H1 & -> & H2 & H3 & H4)|[(row & -> & ->)|(-> & -> & H)]]; [| done |].
        + rewrite H2. cbn. unfold table. rewrite delete_all, bool_decide_false; [done|]. rewrite Hdelete, read_elem, broken_elem, fresh_elem by done.
          rewrite H2, H3. intros [_ [?|[[]|[]]]]; done.
        + cbn. apply Hafter. rewrite read_elem, broken_elem by done. destruct H as [->|H]; [left; by intros []|by right; left].
      - rewrite full_index_none, find_no_key; [|rewrite Hrows; contradict Hno|done].
        + cbn. apply Hafter. left. by apply files_none.
        + eapply (omap_keys observed_ok o_path row_path fresh fresh_path); done. }
    split; [done|]. split; [done|]. split; [apply full_index_valid|]. rewrite (observations_counted observed), Hreused, Hskips, Hfailures, Hrows. lia.
Qed.
End Run.
End Index.

(** A repository with one stored file that did not change, one that did, one that is gone, one that no longer parses and one that is too large. *)
Definition sample_name (python : bool) : str := if python then lit "python" else lit "rust".

Definition sample_parse (file : FileText (Language := bool)) (measure : bool) : result (Encoded (SqlError := unit)) str :=
  if bool_decide (ft_text file = lit "(") then Err (lit "unbalanced")
  else Ok {| n_symbols := length (ft_text file); n_imports := 0; n_refs := 0;
             blobs := Ok {| b_metrics := if measure then Some [] else None; b_symbols := ft_text file; b_rest := [] |} |}.

Definition sample_file (path text : str) : FileText (Language := bool) := {| ft_path := path; ft_language := true; ft_text := text |}.

Definition sample_observed (path text : str) : Observed (Language := bool) :=
  {| o_path := path; o_language := true; o_measure := true; o_read := TextRead (sample_file path text) |}.

Definition sample_row (path text : str) : Row :=
  row_of sample_name (sample_file path text) text {| n_symbols := length text; n_imports := 0; n_refs := 0; blobs := @Ok Blobs unit {| b_metrics := Some []; b_symbols := text; b_rest := [] |} |}
    {| b_metrics := Some []; b_symbols := text; b_rest := [] |}.

Definition sample_meta : Meta := {| m_repo_root := lit "/r"; m_generation := lit "g"; m_analysis := [1%Z]; m_created := 0 |}.

Definition sample_db : Database :=
  {| files := <[lit "same.py" := sample_row (lit "same.py") (lit "x")]> (<[lit "changed.py" := sample_row (lit "changed.py") (lit "y")]>
       (<[lit "gone.py" := sample_row (lit "gone.py") (lit "z")]> {[lit "broken.py" := sample_row (lit "broken.py") (lit "w")]}));
     meta := Some sample_meta |}.

Definition sample_walk : list (Observed (Language := bool)) :=
  [sample_observed (lit "broken.py") (lit "("); sample_observed (lit "changed.py") (lit "yy");
   {| o_path := lit "huge.py"; o_language := true; o_measure := true; o_read := Oversize 2000000 |}; sample_observed (lit "same.py") (lit "x")].

Definition sample_known : list (FileText (Language := bool)) :=
  [sample_file (lit "same.py") (lit "x"); sample_file (lit "changed.py") (lit "y"); sample_file (lit "gone.py") (lit "z"); sample_file (lit "broken.py") (lit "w")].

Lemma sample_row_ok path text : sample_file path text ∈ sample_known -> text <> lit "(" ->
  exists file measure encoded b, file ∈ sample_known /\ ft_path file = path /\ sample_parse file measure = Ok encoded /\ blobs encoded = Ok b /\
    sample_row path text = row_of sample_name file (digest (fun text => text) file) encoded b.
Proof.
  intros Hin Ht. eexists (sample_file path text), true, _, _. split; [done|]. split; [done|]. unfold sample_parse. rewrite bool_decide_false by done.
  split; [done|]. by split.
Qed.

Lemma sample_valid : valid sample_name (fun text => text) sample_parse [1%Z] sample_known sample_db.
Proof.
  intros _ path row. cbn [files sample_db]. rewrite !lookup_insert_Some, lookup_singleton_Some.
  intros [[<- <-]|[_ [[<- <-]|[_ [[<- <-]|[_ [<- <-]]]]]]]; apply sample_row_ok; (done || by unfold sample_known; set_solver).
Qed.

Lemma incremental_is_full_witness :
  exists settled db', settle (fun reason => reason) (plan_ sample_name (fun text => text) (load_previous sample_db) sample_walk [1%Z] false)
      [Err (lit "unbalanced"); sample_parse (sample_file (lit "changed.py") (lit "yy")) true] = Some settled /\
    write (SqlError := unit) sample_name sample_db settled sample_meta = Ok db' /\
    files db' = full_index sample_name (fun text => text) sample_parse sample_walk /\
    map (fun row => ft_path (r_file row)) (rows settled) = [lit "changed.py"] /\ settled_reused settled = 1%nat.
Proof.
  destruct (incremental_is_full sample_name (fun reason => reason) (fun text => text) sample_parse sample_db sample_walk [1%Z] false sample_known)
    with (new_meta := sample_meta) as (settled & db' & E & Hwrite & Hfiles & _).
  - vm_compute. repeat constructor; set_solver.
  - by repeat constructor.
  - apply sample_valid.
  - done.
  - by intros [] [].
  - intros file measure encoded. unfold sample_parse. case_bool_decide; [done|]. intros [= <-]. eexists. split; [done|]. by destruct measure.
  - done.
  - exists settled, db'. split; [exact E|]. split; [done|]. split; [done|]. clear Hwrite Hfiles. revert E. vm_compute. intros [= <-]. by split.
Defined.
