(* ===== verification/Twister.v ===== *)
(** The draw of a sample: crates/hook/src/report/random.rs.

    A Mersenne Twister of 32-bit words, seeded from a text, and the positions it draws without
    replacement.  [mix_words] and [twist_words] show that no step leaves its table or its words,
    [key_words] that the words of a seed write the number of its bytes, [below_first] that a bounded draw
    is the first number below the bound, [sample_draws] that a sample is of distinct positions in range,
    and [seed_sample] all of it for a seed.  SHA-512 is a parameter. *)

From S2P Require Import Prelude RustStr CodePoints Utf8.

#[local] Open Scope Z_scope.

(** * Words *)

Definition N : nat := 624.
Definition M : nat := 397.
Definition MATRIX_A : Z := 0x9908b0df.
Definition UPPER_MASK : Z := 0x80000000.
Definition LOWER_MASK : Z := 0x7fffffff.
Definition INIT_SEED : Z := 19650218.
Definition SMALL_SET : nat := 21.
Definition SMALL_SAMPLE : nat := 5.

(** [u32] operations that wrap; a shift to the left drops what leaves the word. *)
Definition wrap (a : Z) : Z := a mod 2 ^ 32.
Definition wrapping_mul (a b : Z) : Z := wrap (a * b).
Definition wrapping_add (a b : Z) : Z := wrap (a + b).
Definition wrapping_sub (a b : Z) : Z := wrap (a - b).
Definition shl (a n : Z) : Z := wrap (Z.shiftl a n).

Record Twister := { state : list Z; index : nat }.

(** [u32::try_from] of an index. *)
Definition word_of (n : nat) : Z := if Z.of_nat n <? 2 ^ 32 then Z.of_nat n else 2 ^ 32 - 1.

(** [mt[i - 1] ^ (mt[i - 1] >> 30)]. *)
Definition folded (previous : Z) : Z := Z.lxor previous (Z.shiftr previous 30).

(** * The seed *)

(** A list that panics out of range: [None]. *)
Definition set_at (i : nat) (w : Z) (mt : list Z) : option (list Z) := if (i <? length mt)%nat then Some (<[i := w]> mt) else None.

Definition seed_step (mt : option (list Z)) (i : nat) : option (list Z) :=
  mt ← mt; previous ← mt !! (i - 1)%nat; set_at i (wrapping_add (wrapping_mul 1812433253 (folded previous)) (word_of i)) mt.

Definition with_seed (seed : Z) : option Twister :=
  mt ← foldl seed_step (Some (<[0%nat := seed]> (replicate N 0))) (seq 1 (N - 1)); Some {| state := mt; index := N |}.

(** The indices of the next step; past the end, the first word takes the last. *)
Definition wrap_state (i : nat) (mt : list Z) : option (list Z * nat) :=
  if (N <=? i)%nat then last ← mt !! (N - 1)%nat; mt ← set_at 0 last mt; Some (mt, 1%nat) else Some (mt, i).

Definition mix_key_step (key : list Z) (acc : option (list Z * nat * nat)) (_ : nat) : option (list Z * nat * nat) :=
  '(mt, i, j) ← acc;
  before ← mt !! (i - 1)%nat; held ← mt !! i; word ← key !! j;
  mt ← set_at i (wrapping_add (wrapping_add (Z.lxor held (wrapping_mul (folded before) 1664525)) word) (word_of j)) mt;
  '(mt, i) ← wrap_state (i + 1) mt;
  Some (mt, i, if (length key <=? j + 1)%nat then 0%nat else (j + 1)%nat).

Definition mix_step (acc : option (list Z * nat)) (_ : nat) : option (list Z * nat) :=
  '(mt, i) ← acc;
  before ← mt !! (i - 1)%nat; held ← mt !! i;
  mt ← set_at i (wrapping_sub (Z.lxor held (wrapping_mul (folded before) 1566083941)) (word_of i)) mt;
  wrap_state (i + 1) mt.

Definition mix (key : list Z) (t : Twister) : option Twister :=
  '(mt, i, _) ← foldl (mix_key_step key) (Some (state t, 1%nat, 0%nat)) (seq 0 (Nat.max N (length key)));
  '(mt, _) ← foldl mix_step (Some (mt, i)) (seq 1 (N - 1));
  mt ← set_at 0 UPPER_MASK mt;
  Some {| state := mt; index := index t |}.

(** The words of a number written in bytes, the least significant first: [rchunks(4)]. *)
Fixpoint words_of (fuel : nat) (bytes : list Z) : list Z :=
  match fuel with
  | O => []
  | S fuel =>
      if bool_decide (bytes = []) then []
      else
        let start := (length bytes - 4)%nat in
        foldl (fun word byte => Z.lor (shl word 8) byte) 0 (drop start bytes) :: words_of fuel (take start bytes)
  end.

Definition key_of (bytes : list Z) : list Z :=
  let start := default (length bytes) (fst <$> list_find (fun byte => byte <> 0) bytes) in
  let significant := drop start bytes in
  let key := words_of (length significant) significant in
  if bool_decide (key = []) then [0] else key.

(** * Draws *)

Definition twist_step (mt : option (list Z)) (kk : nat) : option (list Z) :=
  mt ← mt; here ← mt !! kk; next ← mt !! ((kk + 1) mod N)%nat; far ← mt !! ((kk + M) mod N)%nat;
  let y := Z.lor (Z.land here UPPER_MASK) (Z.land next LOWER_MASK) in
  let odd := if Z.land y 1 =? 1 then MATRIX_A else 0 in
  set_at kk (Z.lxor (Z.lxor far (Z.shiftr y 1)) odd) mt.

Definition twist (t : Twister) : option Twister := mt ← foldl twist_step (Some (state t)) (seq 0 N); Some {| state := mt; index := 0 |}.

Definition temper (y : Z) : Z :=
  let y := Z.lxor y (Z.shiftr y 11) in
  let y := Z.lxor y (Z.land (shl y 7) 0x9d2c5680) in
  let y := Z.lxor y (Z.land (shl y 15) 0xefc60000) in
  Z.lxor y (Z.shiftr y 18).

Definition next_u32 (t : Twister) : option (Z * Twister) :=
  t ← (if (N <=? index t)%nat then twist t else Some t);
  y ← state t !! index t;
  Some (temper y, {| state := state t; index := index t + 1 |}).

(** [k] bits; the fuel is the words, and a shift of 64 or more panics. *)
Fixpoint bits_from (fuel : nat) (t : Twister) (value rest shift : Z) : option (Z * Twister) :=
  match fuel with
  | O => Some (value, t)
  | S fuel =>
      if rest <=? 0 then Some (value, t)
      else
        '(word, t) ← next_u32 t;
        let taken := Z.min rest 32 in
        if shift <? 64 then bits_from fuel t (Z.lor value (Z.shiftl (Z.shiftr word (32 - taken)) shift mod 2 ^ 64)) (rest - taken) (shift + 32)
        else None
  end.

Definition bits (k : Z) (t : Twister) : option (Z * Twister) := bits_from (Z.to_nat k) t 0 k 0.

(** [u64::BITS - n.leading_zeros()]. *)
Definition bit_length (n : Z) : Z := if n <=? 0 then 0 else Z.log2 n + 1.

(** Draws until one is below [n]; [None] is the end of the fuel. *)
Fixpoint below (fuel : nat) (n : Z) (t : Twister) : option (Z * Twister) :=
  match fuel with
  | O => None
  | S fuel => '(drawn, t) ← bits (bit_length n) t; if drawn <? n then Some (drawn, t) else below fuel n t
  end.

Fixpoint pool_loop (fuel n : nat) (rest i : nat) (pool drawn : list nat) (t : Twister) : option (list nat * Twister) :=
  match rest with
  | O => Some (drawn, t)
  | S rest =>
      '(j, t) ← below fuel (Z.of_nat (n - i)) t;
      position ← pool !! Z.to_nat j;
      moved ← pool !! (n - i - 1)%nat;
      pool_loop fuel n rest (i + 1) (<[Z.to_nat j := moved]> pool) (drawn ++ [position]) t
  end.

Definition pool_sample (fuel n k : nat) (t : Twister) : option (list nat * Twister) := pool_loop fuel n k 0 (seq 0 n) [] t.

(** Draws until one is not drawn yet. *)
Fixpoint fresh (fuel tries n : nat) (selected : list nat) (t : Twister) : option (nat * Twister) :=
  match tries with
  | O => None
  | S tries => '(j, t) ← below fuel (Z.of_nat n) t; if bool_decide (Z.to_nat j ∈ selected) then fresh fuel tries n selected t else Some (Z.to_nat j, t)
  end.

(** The set of the positions drawn holds what the list of them holds. *)
Fixpoint set_loop (fuel n : nat) (rest : nat) (drawn : list nat) (t : Twister) : option (list nat * Twister) :=
  match rest with
  | O => Some (drawn, t)
  | S rest => '(j, t) ← fresh fuel fuel n drawn t; set_loop fuel n rest (drawn ++ [j]) t
  end.

Definition set_sample (fuel n k : nat) (t : Twister) : option (list nat * Twister) := set_loop fuel n k [] t.

(** The least [w] for which four to the power [w] is at least [3k]: the ceiling of its logarithm, which
    no float of a [u32] rounds past a whole number. *)
Fixpoint ceiling_log4 (fuel : nat) (whole : nat) (power target : Z) : nat :=
  match fuel with
  | O => whole
  | S fuel => if power <? target then ceiling_log4 fuel (S whole) (power * 4) target else whole
  end.

(** [None] is the search for a whole number above infinity, which does not end. *)
Definition set_size (k : nat) : option Z :=
  if (k <=? SMALL_SAMPLE)%nat then Some (Z.of_nat SMALL_SET)
  else if Z.of_nat k <? 2 ^ 32 then Some (Z.of_nat SMALL_SET + 4 ^ Z.of_nat (ceiling_log4 20 0 1 (3 * Z.of_nat k)))
  else None.

Definition sample (fuel n k : nat) (t : Twister) : option (list nat * Twister) :=
  size ← set_size k; if Z.of_nat n <=? size then pool_sample fuel n k t else set_sample fuel n k t.

Section Seeded.
Context (sha512 : list Z -> list Z).

Definition from_text (seed : str) : option Twister :=
  let bytes := as_bytes seed ++ sha512 (as_bytes seed) in
  t ← with_seed INIT_SEED; mix (key_of bytes) t.
End Seeded.

(** The first outputs of the reference implementation for its array of keys. *)
Example reference_outputs :
  (t ← with_seed INIT_SEED; t ← mix [0x123; 0x234; 0x345; 0x456] t; '(a, t) ← next_u32 t; '(b, t) ← next_u32 t; '(c, t) ← next_u32 t; Some (a, b, c))
    = Some (1067595299, 955945823, 477289528).
Proof. vm_compute. reflexivity. Qed.

(** * Words stay words *)

Definition word (w : Z) : Prop := 0 <= w < 2 ^ 32.

Lemma below_power n a : 0 <= n -> 0 <= a -> (a < 2 ^ n <-> forall i, n <= i -> Z.testbit a i = false).
Proof.
  intros Hn Ha. split.
  - intros H i Hi. destruct (decide (a = 0)) as [->|Hz]; [apply Z.bits_0|]. apply Z.bits_above_log2; [done|]. apply Z.log2_lt_pow2 in H; lia.
  - intros H. destruct (decide (a = 0)) as [->|Hz]; [lia|]. apply Z.log2_lt_pow2; [lia|]. destruct (Z.lt_ge_cases (Z.log2 a) n) as [|Hge]; [done|].
    pose proof (Z.bit_log2 a ltac:(lia)) as Hb. by rewrite (H _ Hge) in Hb.
Qed.

Lemma power_bits (f : bool -> bool -> bool) (op : Z -> Z -> Z) n a b : f false false = false -> (forall x y i, Z.testbit (op x y) i = f (Z.testbit x i) (Z.testbit y i)) ->
  0 <= n -> 0 <= op a b -> 0 <= a < 2 ^ n -> 0 <= b < 2 ^ n -> op a b < 2 ^ n.
Proof.
  intros Hf Hop Hn H0 [Ha Ha'] [Hb Hb']. apply below_power; [done|done|]. intros i Hi. rewrite Hop.
  rewrite (proj1 (below_power n a Hn Ha) Ha' i Hi), (proj1 (below_power n b Hn Hb) Hb' i Hi). exact Hf.
Qed.

Lemma lxor_below n a b : 0 <= n -> 0 <= a < 2 ^ n -> 0 <= b < 2 ^ n -> 0 <= Z.lxor a b < 2 ^ n.
Proof. intros Hn Ha Hb. assert (0 <= Z.lxor a b) by (apply Z.lxor_nonneg; lia). split; [done|]. by apply (power_bits xorb); [|apply Z.lxor_spec|..]. Qed.

Lemma lor_below n a b : 0 <= n -> 0 <= a < 2 ^ n -> 0 <= b < 2 ^ n -> 0 <= Z.lor a b < 2 ^ n.
Proof. intros Hn Ha Hb. assert (0 <= Z.lor a b) by (apply Z.lor_nonneg; lia). split; [done|]. by apply (power_bits orb); [|apply Z.lor_spec|..]. Qed.

Lemma land_word a b : word a -> 0 <= b -> word (Z.land a b).
Proof.
  intros Ha Hb. assert (0 <= Z.land a b) by (apply Z.land_nonneg; lia). split; [done|]. apply below_power; [done|done|]. intros i Hi. rewrite Z.land_spec.
  by rewrite (proj1 (below_power 32 a ltac:(lia) (proj1 Ha)) (proj2 Ha) i Hi).
Qed.

Lemma shiftr_below n a k : 0 <= n -> 0 <= k -> 0 <= a < 2 ^ n -> 0 <= Z.shiftr a k < 2 ^ n.
Proof.
  intros Hn Hk [Ha Ha']. assert (0 <= Z.shiftr a k) by by apply Z.shiftr_nonneg. split; [done|]. apply below_power; [done|done|]. intros i Hi.
  rewrite Z.shiftr_spec by lia. apply (proj1 (below_power n a Hn Ha) Ha'). lia.
Qed.

Lemma wrap_word a : word (wrap a).
Proof. apply Z.mod_pos_bound. lia. Qed.

Lemma word_lxor a b : word a -> word b -> word (Z.lxor a b).
Proof. by apply lxor_below. Qed.

Lemma word_lor a b : word a -> word b -> word (Z.lor a b).
Proof. by apply lor_below. Qed.

Lemma word_shiftr a k : 0 <= k -> word a -> word (Z.shiftr a k).
Proof. intros Hk. by apply shiftr_below. Qed.

Lemma word_folded a : word a -> word (folded a).
Proof. intros H. apply word_lxor; [done|]. by apply word_shiftr. Qed.

Lemma temper_word y : word y -> word (temper y).
Proof.
  intros H. unfold temper. assert (forall a b, word a -> 0 <= b -> word (Z.lxor a (Z.land (shl a b) 0x9d2c5680)) /\ word (Z.lxor a (Z.land (shl a b) 0xefc60000))) as Hl.
  { intros a b Ha Hb. split; (apply word_lxor; [done|apply land_word; [apply wrap_word|lia]]). }
  assert (word (Z.lxor y (Z.shiftr y 11))) as H1 by (apply word_lxor; [done|by apply word_shiftr]).
  set (y1 := Z.lxor y (Z.shiftr y 11)) in *. destruct (Hl y1 7 H1 ltac:(lia)) as [H2 _]. set (y2 := Z.lxor y1 _) in *.
  destruct (Hl y2 15 H2 ltac:(lia)) as [_ H3]. set (y3 := Z.lxor y2 _) in *. apply word_lxor; [done|by apply word_shiftr].
Qed.

(** A table of its length, of words. *)
Definition table (mt : list Z) : Prop := length mt = N /\ Forall word mt.

Definition words (t : Twister) : Prop := table (state t) /\ (index t <= N)%nat.

Lemma table_at mt i : table mt -> (i < N)%nat -> exists w, mt !! i = Some w /\ word w.
Proof.
  intros [Hl Hw] Hi. destruct (lookup_lt_is_Some_2 mt i) as [w E]; [lia|]. exists w. split; [done|]. rewrite Forall_forall in Hw. apply Hw.
  by eapply list_elem_of_lookup_2.
Qed.

Lemma set_at_table mt i w : table mt -> (i < N)%nat -> word w -> exists mt', set_at i w mt = Some mt' /\ table mt'.
Proof.
  intros [Hl Hw] Hi H. unfold set_at. rewrite Hl, (proj2 (Nat.ltb_lt _ _) Hi). eexists. split; [done|]. split; [by rewrite length_insert|]. by apply Forall_insert.
Qed.

(** A loop whose steps keep a property does not panic and keeps it. *)
Lemma foldl_ends {S A} (P : S -> Prop) (f : option S -> A -> option S) l : (forall s x, P s -> x ∈ l -> exists s', f (Some s) x = Some s' /\ P s') ->
  forall s, P s -> exists s', foldl f (Some s) l = Some s' /\ P s'.
Proof.
  induction l as [|x l IH]; intros H s Hs; [by exists s|]. cbn. destruct (H s x Hs ltac:(left)) as (s' & -> & Hs'). apply IH; [|done].
  intros s0 y Hs0 Hy. apply H; [done|by right].
Qed.

Lemma with_seed_words seed : word seed -> exists t, with_seed seed = Some t /\ words t.
Proof.
  intros H. unfold with_seed. destruct (foldl_ends table seed_step (seq 1 (N - 1))) with (s := <[0%nat := seed]> (replicate N 0)) as (mt & E & Hmt).
  - intros mt i Hmt Hi. apply elem_of_seq in Hi. unfold N in Hi. unfold seed_step. cbn [mbind option_bind].
    destruct (table_at mt (i - 1) Hmt) as (w & -> & Hw); [unfold N; lia|]. cbn [mbind option_bind]. apply set_at_table; [done|unfold N; lia|apply wrap_word].
  - split; [by rewrite length_insert, length_replicate|]. apply Forall_insert; [|done]. apply Forall_replicate. unfold word. lia.
  - rewrite E. cbn [mbind option_bind]. eexists. split; [done|]. by split.
Qed.

Lemma wrap_state_table mt i : table mt -> (1 <= i <= N)%nat -> exists mt' i', wrap_state i mt = Some (mt', i') /\ table mt' /\ (1 <= i' < N)%nat.
Proof.
  intros Hmt Hi. unfold wrap_state. destruct (Nat.leb_spec N i); [|exists mt, i; split_and!; [done|done|lia..]].
  destruct (table_at mt (N - 1) Hmt) as (w & -> & Hw); [unfold N; lia|]. cbn [mbind option_bind].
  destruct (set_at_table mt 0 w Hmt) as (mt' & -> & Hmt'); [unfold N; lia|done|]. exists mt', 1%nat. split_and!; [done|done|unfold N; lia..].
Qed.

Lemma mix_words key t : words t -> key <> [] -> Forall word key -> exists t', mix key t = Some t' /\ words t'.
Proof.
  intros [Ht Hi] Hkey Hw. unfold mix. destruct (foldl_ends (fun acc => table acc.1.1 /\ (1 <= acc.1.2 < N)%nat /\ (acc.2 < length key)%nat) (mix_key_step key)
    (seq 0 (Nat.max N (length key)))) with (s := (state t, 1%nat, 0%nat)) as ([[mt i] j] & E & Hmt & Hi' & _).
  - intros [[mt i] j] x (Hmt & Hi' & Hj) _. cbn [fst snd] in *. unfold mix_key_step. cbn [mbind option_bind].
    destruct (table_at mt (i - 1) Hmt) as (before & -> & Hb); [lia|]. destruct (table_at mt i Hmt) as (held & -> & Hh); [lia|]. cbn [mbind option_bind].
    destruct (lookup_lt_is_Some_2 key j Hj) as [w ->]. cbn [mbind option_bind].
    match goal with |- context [set_at i ?v mt] => destruct (set_at_table mt i v Hmt ltac:(lia) (wrap_word _)) as (mt1 & -> & H1) end. cbn [mbind option_bind].
    destruct (wrap_state_table mt1 (i + 1) H1) as (mt2 & i2 & -> & H2 & Hi2); [lia|]. cbn [mbind option_bind]. eexists. split; [done|]. cbn [fst snd].
    split_and!; [done|lia|lia|]. destruct (Nat.leb_spec (length key) (j + 1)); lia.
  - cbn. split_and!; [done|unfold N; lia..|]. by destruct key; [|cbn; lia].
  - rewrite E. cbn [fst snd mbind option_bind] in *. destruct (foldl_ends (fun acc => table acc.1 /\ (1 <= acc.2 < N)%nat) mix_step (seq 1 (N - 1))) with (s := (mt, i)) as ([mt' i'] & E' & Hmt' & _).
    + intros [mt0 i0] x (H0 & Hi0) _. cbn [fst snd] in *. unfold mix_step. cbn [mbind option_bind].
      destruct (table_at mt0 (i0 - 1) H0) as (before & -> & Hb); [lia|]. destruct (table_at mt0 i0 H0) as (held & -> & Hh); [lia|]. cbn [mbind option_bind].
      match goal with |- context [set_at i0 ?v mt0] => destruct (set_at_table mt0 i0 v H0 ltac:(lia) (wrap_word _)) as (mt1 & -> & H1) end. cbn [mbind option_bind].
      destruct (wrap_state_table mt1 (i0 + 1) H1) as (mt2 & i2 & -> & H2 & Hi2); [lia|]. by exists (mt2, i2).
    + by split.
    + rewrite E'. cbn [fst mbind option_bind] in *. destruct (set_at_table mt' 0 UPPER_MASK Hmt') as (mt2 & -> & H2); [unfold N; lia|unfold word, UPPER_MASK; lia|].
      cbn [mbind option_bind]. eexists. split; [done|]. by split.
Qed.

Lemma twist_words t : table (state t) -> exists t', twist t = Some t' /\ table (state t') /\ index t' = 0%nat.
Proof.
  intros Ht. unfold twist. destruct (foldl_ends table twist_step (seq 0 N)) with (s := state t) as (mt & E & Hmt); [|done|].
  - intros mt kk Hmt Hk. apply elem_of_seq in Hk. unfold twist_step. cbn [mbind option_bind].
    destruct (table_at mt kk Hmt) as (here & -> & Hh); [lia|]. cbn [mbind option_bind].
    destruct (table_at mt ((kk + 1) mod N)%nat Hmt) as (next & -> & Hn); [apply Nat.mod_upper_bound; unfold N; lia|]. cbn [mbind option_bind].
    destruct (table_at mt ((kk + M) mod N)%nat Hmt) as (far & -> & Hf); [apply Nat.mod_upper_bound; unfold N; lia|]. cbn [mbind option_bind].
    apply set_at_table; [done|lia|]. apply word_lxor; [apply word_lxor; [done|]|].
    + apply word_shiftr; [lia|]. apply word_lor; (apply land_word; [done|unfold UPPER_MASK, LOWER_MASK; lia]).
    + destruct (_ =? 1); unfold word, MATRIX_A; lia.
  - rewrite E. cbn [mbind option_bind]. by eexists.
Qed.

Lemma next_words t : words t -> exists w t', next_u32 t = Some (w, t') /\ word w /\ words t'.
Proof.
  intros [Ht Hi]. unfold next_u32. assert (exists t1, (if (N <=? index t)%nat then twist t else Some t) = Some t1 /\ table (state t1) /\ (index t1 < N)%nat) as (t1 & E1 & H1 & Hi1).
  { destruct (Nat.leb_spec N (index t)); [|by exists t]. destruct (twist_words t Ht) as (t1 & E1 & H1 & E2). exists t1. rewrite E2. split_and!; [done|done|unfold N; lia]. }
  rewrite E1. cbn [mbind option_bind]. destruct (table_at (state t1) (index t1) H1 Hi1) as (w & -> & Hw). cbn [mbind option_bind]. eexists _, _. split; [done|].
  split; [by apply temper_word|]. split; [done|cbn; lia].
Qed.

(** * Bits *)

Lemma power_split a b : 0 <= a -> 0 <= b -> 2 ^ (a + b) = 2 ^ a * 2 ^ b.
Proof. apply Z.pow_add_r. Qed.

(** The generators after some words of a first one. *)
Definition step (t t' : Twister) : Prop := exists w, next_u32 t = Some (w, t').
Definition reached (t0 t : Twister) : Prop := words t /\ rtc step t0 t.

Lemma reached_next t0 t : reached t0 t -> exists w t', next_u32 t = Some (w, t') /\ word w /\ reached t0 t'.
Proof.
  intros [Ht Hr]. destruct (next_words t Ht) as (w & t' & E & Hw & Ht'). exists w, t'. refine (conj E (conj Hw (conj Ht' _))). eapply rtc_r; [done|by exists w].
Qed.

(** A word cut to its upper bits and shifted above a value keeps it a value of so many bits. *)
Lemma chunk_below value w taken shift : 1 <= taken <= 32 -> 0 <= shift -> shift + taken <= 64 -> word w -> 0 <= value < 2 ^ shift ->
  0 <= Z.lor value (Z.shiftl (Z.shiftr w (32 - taken)) shift mod 2 ^ 64) < 2 ^ (shift + taken).
Proof.
  intros Ht Hs Hst Hw Hv. assert (0 <= Z.shiftr w (32 - taken) < 2 ^ taken) as Hc.
  { split; [apply Z.shiftr_nonneg, Hw|]. rewrite Z.shiftr_div_pow2 by lia. apply Z.div_lt_upper_bound; [lia|]. rewrite <- power_split by lia.
    replace (32 - taken + taken) with 32 by lia. apply Hw. }
  assert (0 <= Z.shiftl (Z.shiftr w (32 - taken)) shift < 2 ^ (shift + taken)) as Hsh.
  { rewrite Z.shiftl_mul_pow2, power_split by lia. nia. }
  assert (2 ^ (shift + taken) <= 2 ^ 64) by (apply Z.pow_le_mono_r; lia). assert (2 ^ shift <= 2 ^ (shift + taken)) by (apply Z.pow_le_mono_r; lia).
  rewrite Z.mod_small by lia. apply lor_below; lia.
Qed.

Lemma bits_from_range t0 k fuel : k <= 64 -> forall t value rest shift, reached t0 t -> 0 <= rest <= Z.of_nat fuel -> 0 <= value < 2 ^ (k - rest) -> (rest = 0 \/ shift = k - rest) -> 0 <= k - rest ->
  exists v t', bits_from fuel t value rest shift = Some (v, t') /\ 0 <= v < 2 ^ k /\ reached t0 t'.
Proof.
  intros Hk. induction fuel as [|fuel IH]; intros t value rest shift Ht Hrest Hv Hs H0; cbn [bits_from].
  - exists value, t. replace (k - rest) with k in Hv by lia. by split; [|split].
  - destruct (Z.leb_spec rest 0). { exists value, t. replace (k - rest) with k in Hv by lia. by split; [|split]. }
    destruct (reached_next t0 t Ht) as (w & t1 & -> & Hw & Ht1). cbn [mbind option_bind]. destruct Hs as [|Hs]; [lia|]. subst shift.
    rewrite (proj2 (Z.ltb_lt _ _)) by lia.
    assert (1 <= Z.min rest 32 <= 32) by lia.
    apply IH; [done|lia| |lia|lia].
    replace (k - (rest - Z.min rest 32)) with (k - rest + Z.min rest 32) by lia. apply chunk_below; [lia..|done|done].
Qed.

Lemma bits_range t0 k t : 0 <= k <= 64 -> reached t0 t -> exists v t', bits k t = Some (v, t') /\ 0 <= v < 2 ^ k /\ reached t0 t'.
Proof. intros Hk Ht. apply bits_from_range; [lia|done|lia| |by right; lia|lia]. rewrite Z.sub_diag. lia. Qed.

Lemma bit_length_fits n : 0 < n < 2 ^ 64 -> 0 < bit_length n <= 64.
Proof.
  intros H. unfold bit_length. rewrite (proj2 (Z.leb_gt _ _)) by lia. pose proof (Z.log2_nonneg n). pose proof (proj1 (Z.log2_lt_pow2 n 64 ltac:(lia)) ltac:(lia)). lia.
Qed.

(** A bound is one of the values its draws reach. *)
Lemma bit_length_bound n : 0 < n -> n < 2 ^ bit_length n <= 2 * n.
Proof.
  intros H. unfold bit_length. rewrite (proj2 (Z.leb_gt _ _)) by lia. pose proof (Z.log2_spec n H). pose proof (Z.log2_nonneg n).
  replace (Z.log2 n + 1) with (Z.succ (Z.log2 n)) by lia. rewrite Z.pow_succ_r in * by lia. lia.
Qed.

(** * Bounded draws *)

(** The [i]-th number of [k] bits the generator gives. *)
Fixpoint nth_draw (k : Z) (i : nat) (t : Twister) : option (Z * Twister) :=
  match i with
  | O => bits k t
  | S i => '(_, t) ← bits k t; nth_draw k i t
  end.

(** So many numbers are not below [n]. *)
Definition refused (n : Z) (fuel : nat) (t : Twister) : Prop := forall i, (i < fuel)%nat -> exists v t', nth_draw (bit_length n) i t = Some (v, t') /\ n <= v.

Definition drawn_at (n : Z) (i : nat) (t : Twister) (v : Z) (t' : Twister) : Prop := nth_draw (bit_length n) i t = Some (v, t') /\ refused n i t.

Lemma below_first t0 n fuel : 0 < n < 2 ^ 64 -> forall t, reached t0 t ->
  match below fuel n t with
  | Some (v, t') => (exists i, (i < fuel)%nat /\ drawn_at n i t v t') /\ 0 <= v < n /\ reached t0 t'
  | None => refused n fuel t
  end.
Proof.
  intros Hn. induction fuel as [|fuel IH]; intros t Ht; cbn [below]; [by intros i Hi; lia|].
  destruct (bits_range t0 (bit_length n) t) as (v & t1 & E & Hv & Ht1); [pose proof (bit_length_fits n Hn); lia|done|]. rewrite E. cbn [mbind option_bind].
  assert (forall i, refused n i t1 -> n <= v -> refused n (S i) t) as Hmore.
  { intros i Hr Hle [|j] Hj; cbn [nth_draw]; [by exists v, t1|]. rewrite E. cbn [mbind option_bind]. apply Hr. lia. }
  destruct (Z.ltb_spec v n) as [Hlt|Hge].
  - split; [|by split; [lia|]]. exists 0%nat. split; [lia|]. split; [done|]. intros i Hi. lia.
  - specialize (IH t1 Ht1). destruct (below fuel n t1) as [[u t2]|]; [|by apply Hmore]. destruct IH as ((i & Hi & Hd & Hr) & IH). split; [|done]. exists (S i). split; [lia|].
    split; [|by apply Hmore]. cbn [nth_draw]. by rewrite E.
Qed.

(** * Samples *)

Lemma length_Z n m : (m < n)%nat -> Z.of_nat n < 2 ^ 64 -> 0 < Z.of_nat (n - m) < 2 ^ 64.
Proof. lia. Qed.

Lemma insert_swap {A} (l : list A) j x p : l !! j = Some p -> p :: <[j := x]> l ≡ₚ x :: l.
Proof.
  intros H. rewrite <- (take_drop_middle l j p H) at 2. rewrite insert_take_drop by by eapply lookup_lt_Some.
  rewrite !(Permutation_middle (take j l)). rewrite <- !Permutation_middle. apply perm_swap.
Qed.

(** The places a pool has not given, once one gives way to the last. *)
Lemma take_swap {A} (l : list A) m j p x : (j < S m)%nat -> l !! j = Some p -> l !! m = Some x -> p :: take m (<[j := x]> l) ≡ₚ take (S m) l.
Proof.
  intros Hj Hp Hx. rewrite (take_S_r l m x Hx). destruct (decide (j = m)) as [->|Hne].
  - rewrite take_insert_ge by lia. simplify_eq. by rewrite Permutation_cons_append.
  - rewrite take_insert_lt by lia. rewrite insert_swap by by rewrite lookup_take_lt by lia. by rewrite Permutation_cons_append.
Qed.

(** All the draws of a search are of positions already drawn. *)
Fixpoint repeated (fuel tries n : nat) (selected : list nat) (t : Twister) : Prop :=
  match tries with
  | O => True
  | S tries => match below fuel (Z.of_nat n) t with Some (j, t') => Z.to_nat j ∈ selected /\ repeated fuel tries n selected t' | None => False end
  end.

(** The draws that use their fuel up: numbers that are not below a bound, or positions that repeat. *)
Definition used_up (fuel n k : nat) (t0 : Twister) : Prop :=
  exists t, reached t0 t /\ ((exists m, (0 < m <= n)%nat /\ refused (Z.of_nat m) fuel t) \/ exists drawn, (length drawn < k)%nat /\ repeated fuel fuel n drawn t).

Lemma pool_loop_draws fuel n k t0 : (k <= n)%nat -> Z.of_nat n < 2 ^ 64 ->
  forall rest i pool drawn t, (i + rest = k)%nat -> length pool = n -> length drawn = i -> drawn ++ take (n - i) pool ≡ₚ seq 0 n -> reached t0 t ->
  match pool_loop fuel n rest i pool drawn t with
  | Some (positions, t') => length positions = k /\ (exists others, positions ++ others ≡ₚ seq 0 n) /\ reached t0 t'
  | None => used_up fuel n k t0
  end.
Proof.
  intros Hk Hn. induction rest as [|rest IH]; intros i pool drawn t Hi Hp Hd Hperm Ht; cbn [pool_loop].
  - split_and!; [lia|by eexists|apply Ht..].
  - assert (0 < Z.of_nat (n - i) < 2 ^ 64) as Hb by (apply length_Z; lia). pose proof (below_first t0 _ fuel Hb t Ht) as H.
    destruct (below fuel (Z.of_nat (n - i)) t) as [[j t1]|]; cbn [mbind option_bind].
    2:{ exists t. split; [done|]. left. exists (n - i)%nat. split; [lia|done]. }
    destruct H as (_ & Hj & Ht1). destruct (lookup_lt_is_Some_2 pool (Z.to_nat j)) as [p Ep]; [lia|]. destruct (lookup_lt_is_Some_2 pool (n - i - 1)) as [x Ex]; [lia|].
    rewrite Ep. cbn [mbind option_bind]. rewrite Ex. cbn [mbind option_bind]. apply IH; [lia|by rewrite length_insert|rewrite length_app; cbn; lia| |done].
    rewrite <- Hperm, <- app_assoc. apply Permutation_app_head. cbn [app]. replace (n - (i + 1))%nat with (n - i - 1)%nat by lia.
    rewrite (take_swap pool (n - i - 1) (Z.to_nat j) p x) by (done || lia). by replace (S (n - i - 1)) with (n - i)%nat by lia.
Qed.

Lemma fresh_new fuel n selected t0 : (0 < n)%nat -> Z.of_nat n < 2 ^ 64 -> forall tries t, reached t0 t ->
  match fresh fuel tries n selected t with
  | Some (j, t') => (j < n)%nat /\ j ∉ selected /\ reached t0 t'
  | None => repeated fuel tries n selected t \/ exists t', reached t0 t' /\ refused (Z.of_nat n) fuel t'
  end.
Proof.
  intros H0 Hn. induction tries as [|tries IH]; intros t Ht; cbn [fresh repeated]; [by left|].
  pose proof (below_first t0 (Z.of_nat n) fuel ltac:(lia) t Ht) as H. destruct (below fuel (Z.of_nat n) t) as [[j t1]|]; cbn [mbind option_bind].
  2:{ right. by exists t. }
  destruct H as (_ & Hj & Ht1). destruct (bool_decide_reflect (Z.to_nat j ∈ selected)) as [Hin|Hout]; [|split_and!; [lia|done|apply Ht1..]].
  specialize (IH t1 Ht1). destruct (fresh fuel tries n selected t1) as [[j' t2]|]; [done|]. destruct IH as [IH|IH]; [by left|by right].
Qed.

Lemma set_loop_draws fuel n k t0 : (k <= n)%nat -> Z.of_nat n < 2 ^ 64 -> forall rest drawn t, (length drawn + rest = k)%nat -> NoDup drawn -> Forall (fun j => (j < n)%nat) drawn -> reached t0 t ->
  match set_loop fuel n rest drawn t with
  | Some (positions, t') => length positions = k /\ NoDup positions /\ Forall (fun j => (j < n)%nat) positions /\ reached t0 t'
  | None => used_up fuel n k t0
  end.
Proof.
  intros Hk Hn. induction rest as [|rest IH]; intros drawn t Hl Hd Hf Ht; cbn [set_loop]; [split_and!; [lia|done|done|apply Ht..]|].
  pose proof (fresh_new fuel n drawn t0 ltac:(lia) Hn fuel t Ht) as H. destruct (fresh fuel fuel n drawn t) as [[j t1]|]; cbn [mbind option_bind].
  - destruct H as (Hj & Hnew & Ht1). apply IH; [rewrite length_app; cbn; lia| |apply Forall_app; split; [done|by apply Forall_singleton]|done].
    apply NoDup_app. split_and!; [done| |apply NoDup_singleton]. intros x Hx ->%list_elem_of_singleton. done.
  - destruct H as [H|(t1 & Ht1 & H)].
    + exists t. split; [done|]. right. exists drawn. split; [lia|done].
    + exists t1. split; [done|]. left. exists n. split; [lia|done].
Qed.

Lemma set_size_some k : Z.of_nat k < 2 ^ 32 -> exists size, set_size k = Some size.
Proof. intros H. unfold set_size. rewrite (proj2 (Z.ltb_lt _ _) H). destruct (_ <=? _)%nat; by eexists. Qed.

(** A sample of [k] of [n] positions is [k] distinct positions below [n], whichever way they are drawn; it is not given only where the numbers drawn use the fuel up. *)
Lemma sample_draws fuel n k t : words t -> (k <= n)%nat -> Z.of_nat n < 2 ^ 64 -> Z.of_nat k < 2 ^ 32 ->
  match sample fuel n k t with
  | Some (drawn, t') => length drawn = k /\ NoDup drawn /\ Forall (fun j => (j < n)%nat) drawn /\ reached t t'
  | None => used_up fuel n k t
  end.
Proof.
  intros Ht Hk Hn Hk'. unfold sample. destruct (set_size_some k Hk') as [size ->]. cbn [mbind option_bind].
  assert (reached t t) as Hr by (split; [done|constructor]). destruct (_ <=? size).
  - pose proof (pool_loop_draws fuel n k t Hk Hn k 0 (seq 0 n) [] t eq_refl (length_seq _ _) eq_refl) as H. unfold pool_sample.
    rewrite Nat.sub_0_r, take_ge in H by by rewrite length_seq. specialize (H ltac:(done) Hr).
    destruct (pool_loop _ _ _ _ _ _ _) as [[positions t']|]; [|done]. destruct H as (Hl & [others Hperm] & Ht').
    assert (NoDup (positions ++ others)) as Hnd by (rewrite Hperm; apply NoDup_seq). split_and!; [done|by apply NoDup_app in Hnd as [? _]| |apply Ht'..].
    apply Forall_forall. intros j Hj. assert (j ∈ seq 0 n) as Hin by (rewrite <- Hperm; by apply elem_of_app; left). apply elem_of_seq in Hin. lia.
  - apply (set_loop_draws fuel n k t Hk Hn); [done|constructor|constructor|done].
Qed.

(** * The key of a seed *)

(** The number that bytes write, the most significant first, and the one that words write, the least significant first. *)
Definition big_endian (bytes : list Z) : Z := foldl (fun v b => v * 256 + b) 0 bytes.
Definition little_endian (key : list Z) : Z := foldr (fun w v => w + 2 ^ 32 * v) 0 key.

Lemma big_endian_from bytes : forall v, foldl (fun v b => v * 256 + b) v bytes = v * 256 ^ Z.of_nat (length bytes) + big_endian bytes.
Proof.
  unfold big_endian. induction bytes as [|b bytes IH]; intros v; cbn [foldl length]; [lia|]. rewrite IH, (IH (0 * 256 + b)), Nat2Z.inj_succ, Z.pow_succ_r by lia. lia.
Qed.

Lemma big_endian_app l l' : big_endian (l ++ l') = big_endian l * 256 ^ Z.of_nat (length l') + big_endian l'.
Proof. unfold big_endian at 1. rewrite foldl_app. apply big_endian_from. Qed.

Lemma chunk_value chunk m : (m + length chunk <= 4)%nat -> Forall is_byte chunk -> forall w, 0 <= w < 256 ^ Z.of_nat m ->
  let v := foldl (fun word byte => Z.lor (shl word 8) byte) w chunk in v = foldl (fun v b => v * 256 + b) w chunk /\ word v.
Proof.
  revert m. induction chunk as [|b chunk IH]; intros m Hm Hb w Hw; cbn [foldl length] in *.
  - split; [done|]. assert (256 ^ Z.of_nat m <= 256 ^ 4) by (apply Z.pow_le_mono_r; lia). unfold word. lia.
  - apply Forall_cons in Hb as [[Hb Hb'] Hbs]. assert (256 ^ Z.of_nat m <= 256 ^ 3) by (apply Z.pow_le_mono_r; lia).
    assert (Z.lor (shl w 8) b = w * 256 + b) as ->.
    { unfold shl, wrap. rewrite Z.mod_small by (rewrite Z.shiftl_mul_pow2 by lia; lia). rewrite (lor_shiftl_add w b 8) by lia. lia. }
    apply (IH (S m)); [lia|done|]. rewrite Nat2Z.inj_succ, Z.pow_succ_r by lia. lia.
Qed.

Lemma words_of_value fuel : forall bytes, (length bytes <= fuel)%nat -> Forall is_byte bytes -> little_endian (words_of fuel bytes) = big_endian bytes /\ Forall word (words_of fuel bytes).
Proof.
  induction fuel as [|fuel IH]; intros bytes Hl Hb; cbn [words_of]; [by destruct bytes; [|cbn in Hl; lia]|].
  destruct (bool_decide_reflect (bytes = [])) as [->|Hne]; [done|]. set (start := (length bytes - 4)%nat).
  assert (0 < length bytes)%nat by by destruct bytes; [|cbn; lia].
  destruct (IH (take start bytes)) as [Hv Hw]; [rewrite length_take; lia|by apply Forall_take|].
  destruct (chunk_value (drop start bytes) 0 ltac:(rewrite length_drop; lia) (Forall_drop _ _ _ Hb) 0 ltac:(cbn; lia)) as [Hc Hcw].
  split; [|by constructor]. cbn [little_endian foldr]. fold (little_endian (words_of fuel (take start bytes))). rewrite Hv. cbv zeta in Hc. rewrite Hc.
  fold (big_endian (drop start bytes)). rewrite <- (take_drop start bytes) at 3. rewrite big_endian_app, length_drop.
  destruct (decide (length bytes <= 4)%nat).
  - unfold start. replace (length bytes - 4)%nat with 0%nat by lia. rewrite take_0. change (big_endian []) with 0. lia.
  - replace (length bytes - start)%nat with 4%nat by lia. change (256 ^ Z.of_nat 4) with (2 ^ 32). lia.
Qed.

Lemma big_endian_zeros bytes : let start := default (length bytes) (fst <$> list_find (fun byte => byte <> 0) bytes) in big_endian (drop start bytes) = big_endian bytes.
Proof.
  cbv zeta. induction bytes as [|b bytes IH]; [done|]. cbn [list_find]. destruct (decide (b <> 0)) as [|Hz]; [done|]. apply dec_stable in Hz as ->.
  change (big_endian (0 :: bytes)) with (big_endian bytes). rewrite <- IH. by destruct (list_find (fun byte => byte <> 0) bytes) as [[i b]|].
Qed.

(** The words of a key, of which there is one at least, write the number that the bytes write. *)
Lemma key_words bytes : Forall is_byte bytes -> little_endian (key_of bytes) = big_endian bytes /\ Forall word (key_of bytes) /\ key_of bytes <> [].
Proof.
  intros Hb. unfold key_of. pose proof (big_endian_zeros bytes) as Hz. cbv zeta in Hz. set (start := default _ _) in *.
  destruct (words_of_value (length (drop start bytes)) (drop start bytes) (reflexivity _) (Forall_drop _ _ _ Hb)) as [Hv Hw]. rewrite Hz in Hv.
  destruct (bool_decide_reflect (words_of (length (drop start bytes)) (drop start bytes) = [])) as [E|Hne]; [|done].
  rewrite E in Hv. split_and!; [done|constructor; [unfold word; lia|constructor]|done].
Qed.

(** * Fuel *)

Lemma below_more n fuel more : (fuel <= more)%nat -> forall t r, below fuel n t = Some r -> below more n t = Some r.
Proof.
  revert more. induction fuel as [|fuel IH]; intros [|more] Hle t r H; [done|done|lia|]. cbn [below] in *.
  destruct (bits (bit_length n) t) as [[v t1]|]; [|done]. cbn [mbind option_bind] in *. destruct (v <? n); [done|]. apply (IH more); [lia|done].
Qed.

Lemma pool_loop_more fuel more n rest : (fuel <= more)%nat -> forall i pool drawn t r, pool_loop fuel n rest i pool drawn t = Some r -> pool_loop more n rest i pool drawn t = Some r.
Proof.
  intros Hle. induction rest as [|rest IH]; intros i pool drawn t r H; [done|]. cbn [pool_loop] in *.
  destruct (below fuel (Z.of_nat (n - i)) t) as [[j t1]|] eqn:E; [|done]. rewrite (below_more _ _ more Hle _ _ E). cbn [mbind option_bind] in *.
  destruct (pool !! Z.to_nat j); [|done]. cbn [mbind option_bind] in *. destruct (pool !! (n - i - 1)%nat); [|done]. by apply IH.
Qed.

Lemma fresh_more fuel more n selected : (fuel <= more)%nat -> forall tries tries' t r, (tries <= tries')%nat -> fresh fuel tries n selected t = Some r -> fresh more tries' n selected t = Some r.
Proof.
  intros Hle. induction tries as [|tries IH]; intros [|tries'] t r Ht H; [done|done|lia|]. cbn [fresh] in *.
  destruct (below fuel (Z.of_nat n) t) as [[j t1]|] eqn:E; [|done]. rewrite (below_more _ _ more Hle _ _ E). cbn [mbind option_bind] in *.
  destruct (bool_decide _); [|done]. apply IH; [lia|done].
Qed.

Lemma set_loop_more fuel more n rest : (fuel <= more)%nat -> forall drawn t r, set_loop fuel n rest drawn t = Some r -> set_loop more n rest drawn t = Some r.
Proof.
  intros Hle. induction rest as [|rest IH]; intros drawn t r H; [done|]. cbn [set_loop] in *.
  destruct (fresh fuel fuel n drawn t) as [[j t1]|] eqn:E; [|done]. rewrite (fresh_more fuel more n drawn Hle _ more _ _ Hle E). by apply IH.
Qed.

(** More fuel draws the same sample. *)
Lemma sample_more fuel more n k t r : (fuel <= more)%nat -> sample fuel n k t = Some r -> sample more n k t = Some r.
Proof.
  intros Hle. unfold sample. destruct (set_size k) as [size|]; [|done]. cbn [mbind option_bind].
  destruct (_ <=? size); [by apply pool_loop_more|by apply set_loop_more].
Qed.

(** * The sample of a seed *)

Lemma from_text_words sha512 seed : is_str seed -> (forall l, Forall is_byte (sha512 l)) -> exists t, from_text sha512 seed = Some t /\ words t.
Proof.
  intros Hs Hd. unfold from_text. destruct (with_seed_words INIT_SEED) as (t & -> & Ht); [unfold word, INIT_SEED; lia|]. cbn [mbind option_bind].
  destruct (key_words (as_bytes seed ++ sha512 (as_bytes seed))) as (_ & Hw & Hne); [apply Forall_app; split; [by apply as_bytes_range|apply Hd]|]. by apply mix_words.
Qed.

(** A seed draws from a list of [n] rows [k] distinct positions of it, the same ones with more fuel; it does not only where the numbers it gives use the fuel up. *)
Theorem seed_sample sha512 seed fuel n k : is_str seed -> (forall l, Forall is_byte (sha512 l)) -> (k <= n)%nat -> Z.of_nat n < 2 ^ 64 -> Z.of_nat k < 2 ^ 32 ->
  exists t, from_text sha512 seed = Some t /\
  match sample fuel n k t with
  | Some (drawn, _) => length drawn = k /\ NoDup drawn /\ Forall (fun j => (j < n)%nat) drawn /\
      forall more, (fuel <= more)%nat -> sample more n k t = sample fuel n k t
  | None => used_up fuel n k t
  end.
Proof.
  intros Hs Hd Hk Hn Hk'. destruct (from_text_words sha512 seed Hs Hd) as (t & E & Ht). exists t. split; [done|].
  pose proof (sample_draws fuel n k t Ht Hk Hn Hk') as H. destruct (sample fuel n k t) as [[drawn t']|] eqn:Es; [|done].
  destruct H as (Hl & Hnd & Hlt & _). split_and!; [done..|]. intros more Hm. by rewrite (sample_more _ more _ _ _ _ Hm Es).
Qed.

Example seed_sample_draws : (t ← from_text (fun _ => []) [97; 98]; fst <$> sample 20 30 3 t) <> None.
Proof. vm_compute. discriminate. Qed.

Lemma seed_sample_witness : exists t, from_text (fun _ => []) [97; 98] = Some t /\
  match sample 20 30 3 t with
  | Some (drawn, _) => length drawn = 3%nat /\ NoDup drawn /\ Forall (fun j => (j < 30)%nat) drawn /\
      forall more, (20 <= more)%nat -> sample more 30 3 t = sample 20 30 3 t
  | None => used_up 20 30 3 t
  end.
Proof. apply (seed_sample (fun _ => []) [97; 98] 20 30 3); [repeat constructor; vm_compute; intuition discriminate|intros l; constructor|lia..]. Defined.
