(* ===== verification/TreeWalk.v ===== *)
(** A bounded walk of a directory tree: crates/io/src/walk.rs.

    The walker keeps a stack of directories, the directories it entered by device and inode, the
    files it took and the bytes a scan reads of them.  [run_enter] shows that it ends on every tree
    that a world can answer, links and mounts that loop included, and computes the recursion over
    the tree; [tree_walk_exact] which files it lists and when each of its bounds stops it.  What the
    operating system answers is a class of queries, as in Contain.v. *)

From S2P Require Import Prelude RustStr Ordered CodePoints Utf8 Text Contain.

#[local] Open Scope Z_scope.
#[local] Open Scope rs_scope.

(** * The operating system *)

(** An entry of a directory; the type of one that cannot be read is [None]. *)
Record DirEntry := { file_name : str; entry_type : option FileType }.

(** [fs::read_dir], whose entries can fail one by one, and the device and the inode of
    [fs::metadata]. *)
Class Listings (W E : Type) := {
  read_dir : W -> str -> result (list (result DirEntry E)) E;
  identity : W -> str -> result (Z * Z) E
}.

(** * Data *)

Definition MAX_WALK_DEPTH : nat := 20.
Definition MAX_WALK_FILES : nat := Z.to_nat 20000.
Definition MAX_WALK_BYTES : Z := 200000000.

Inductive WalkSkip (E : Type) :=
| Unlisted (path : str) (error : E)
| Unstatable (path : str) (error : E)
| Revisited (path : str) (device inode : Z).
Arguments Unlisted {E}.
Arguments Unstatable {E}.
Arguments Revisited {E}.

Inductive WalkRefusal :=
| NotDirectory (root : str)
| TooDeep (depth limit : nat) (root : str)
| TooManyFiles (limit : nat) (root : str)
| TooManyBytes (limit : Z) (root : str).

(** The error that a refusal becomes: a root that does not resolve, or a bound. *)
Definition is_resolution_error (refusal : WalkRefusal) : bool := match refusal with NotDirectory _ => true | _ => false end.

Record Bounds := { b_depth : nat; b_files : nat; b_bytes : Z }.

Definition BOUNDS : Bounds := {| b_depth := MAX_WALK_DEPTH; b_files := MAX_WALK_FILES; b_bytes := MAX_WALK_BYTES |}.

Record Walker (E : Type) := { seen : gset (Z * Z); bytes : Z; files : list str; skipped : list (WalkSkip E) }.
Arguments seen {E}.
Arguments bytes {E}.
Arguments files {E}.
Arguments skipped {E}.

Record Walk (E : Type) := { walk_files : result (list str) WalkRefusal; walk_skipped : list (WalkSkip E) }.
Arguments walk_files {E}.
Arguments walk_skipped {E}.

Record Listing := { directories : list str; others : list str }.

Definition U64_MAX : Z := 2 ^ 64 - 1.
Definition saturating_add (a b : Z) : Z := Z.min (a + b) U64_MAX.

(** The file's size when a scan reads it. *)
Definition counted_bytes (reads : str -> Z -> bool) (path : str) (size : Z) : Z := if reads path size then size else 0.

(** * Operations *)

(** [Path::strip_prefix], as the components left. *)
Definition stripped (path root : str) : option (list Component) := strip_prefix (components root) (components path).

Definition component_text (c : Component) : str :=
  match c with RootDir => [c_slash] | CurDir => lit "." | ParentDir => lit ".." | Normal name => name end.

(** Names sort by code point. *)
Definition name_key (name : str) : list Z := cps_bytes (from_utf8_escaped name).
Definition sorted (names : list str) : list str := sort_by (fun a b => bytes_le (name_key a) (name_key b)) names.

Section Walking.
Context {W E : Type} {F : Files W E} {L : Listings W E} (w : W).

(** [Path::is_dir]. *)
Definition is_dir (path : str) : bool := match metadata w path with Ok meta => bool_decide (file_type meta = Directory) | Err _ => false end.

Definition names_directory (directory : str) (entry : DirEntry) : bool :=
  match entry_type entry with
  | Some Symlink => is_dir (path_join directory (file_name entry))
  | Some kind => bool_decide (kind = Directory)
  | None => false
  end.

Definition put (directory : str) (entry : DirEntry) (listing : Listing) : Listing :=
  if names_directory directory entry then {| directories := directories listing ++ [file_name entry]; others := others listing |}
  else {| directories := directories listing; others := others listing ++ [file_name entry] |}.

Fixpoint list_entries (directory : str) (entries : list (result DirEntry E)) (listing : Listing) : result Listing E :=
  match entries with
  | [] => Ok listing
  | entry :: entries => let? entry := entry in list_entries directory entries (put directory entry listing)
  end.

Definition list_ (directory : str) : result Listing E :=
  let? entries := read_dir w directory in list_entries directory entries {| directories := []; others := [] |}.

(** The resolved root, when it names a directory; [None] is the fuel of the resolution. *)
Definition walkable (fuel : nat) (root : str) : option (result str WalkRefusal) :=
  resolved ← resolve fuel w root;
  Some match resolved with
       | Err _ => Err (NotDirectory root)
       | Ok resolved => if is_dir resolved then Ok resolved else Err (NotDirectory resolved)
       end.

Context (bounds : Bounds) (reads : str -> Z -> bool) (root : str).
Implicit Types (s : Walker E) (directory candidate : str).

Definition check_depth directory : result unit WalkRefusal :=
  let depth := match stripped directory root with Some relative => length relative | None => O end in
  if (depth <=? b_depth bounds)%nat then Ok tt else Err (TooDeep depth (b_depth bounds) root).

Definition skip (record : WalkSkip E) s : Walker E := {| seen := seen s; bytes := bytes s; files := files s; skipped := skipped s ++ [record] |}.

Definition claim directory s : bool * Walker E :=
  match identity w directory with
  | Err error => (false, skip (Unstatable directory error) s)
  | Ok (device, inode) =>
      if bool_decide ((device, inode) ∈ seen s) then (false, skip (Revisited directory device inode) s)
      else (true, {| seen := {[(device, inode)]} ∪ seen s; bytes := bytes s; files := files s; skipped := skipped s |})
  end.

(** A name that is not UTF-8 adds no bytes. *)
Definition counted candidate (size : Z) : Z :=
  match relative ← stripped candidate root; from_utf8 (join_with [c_slash] (map component_text relative)) with
  | Some path => counted_bytes reads path size
  | None => 0
  end.

Definition take_file candidate s : result unit WalkRefusal * Walker E :=
  match contained_file_size w candidate root with
  | None => (Ok tt, s)
  | Some (Err error) => (Ok tt, skip (Unstatable candidate error) s)
  | Some (Ok size) =>
      if (b_files bounds <=? length (files s))%nat then (Err (TooManyFiles (b_files bounds) root), s)
      else
        let total := saturating_add (bytes s) (counted candidate size) in
        let s' := {| seen := seen s; bytes := total; files := files s; skipped := skipped s |} in
        if b_bytes bounds <? total then (Err (TooManyBytes (b_bytes bounds) root), s')
        else (Ok tt, {| seen := seen s; bytes := total; files := files s ++ [candidate]; skipped := skipped s |})
  end.

(** A loop that ends at the first error. *)
Fixpoint each {A} (f : A -> Walker E -> result unit WalkRefusal * Walker E) (l : list A) s : result unit WalkRefusal * Walker E :=
  match l with
  | [] => (Ok tt, s)
  | x :: l => match f x s with (Err e, s) => (Err e, s) | (Ok _, s) => each f l s end
  end.

Definition subdirectories directory (listing : Listing) : list str :=
  List.filter (fun path => negb (is_symlink w path)) (map (path_join directory) (sorted (directories listing))).

Definition visit directory s : result (list str) WalkRefusal * Walker E :=
  match list_ directory with
  | Err error => (Ok [], skip (Unlisted directory error) s)
  | Ok listing =>
      match check_depth directory with
      | Err refusal => (Err refusal, s)
      | Ok _ =>
          let '(claimed, s) := claim directory s in
          if negb claimed then (Ok [], s)
          else
            match each take_file (map (path_join directory) (sorted (others listing))) s with
            | (Err refusal, s) => (Err refusal, s)
            | (Ok _, s) => (Ok (subdirectories directory listing), s)
            end
      end
  end.

(** The stack has its top first; [None] is the end of the fuel. *)
Fixpoint run (fuel : nat) (pending : list str) s : option (result unit WalkRefusal * Walker E) :=
  match pending with
  | [] => Some (Ok tt, s)
  | directory :: pending =>
      match fuel with
      | O => None
      | S fuel => match visit directory s with (Err refusal, s) => Some (Err refusal, s) | (Ok subdirectories, s) => run fuel (subdirectories ++ pending) s end
      end
  end.

Definition initial : Walker E := {| seen := ∅; bytes := 0; files := []; skipped := [] |}.

Definition finished (outcome : result unit WalkRefusal * Walker E) : Walk E :=
  {| walk_files := (let? _ := outcome.1 in Ok (files outcome.2)); walk_skipped := skipped outcome.2 |}.
End Walking.

Section Whole.
Context {W E : Type} {F : Files W E} {L : Listings W E} (w : W).

(** One fuel is for the links of the root, the other for the directories. *)
Definition walk_within (links fuel : nat) (root : str) (bounds : Bounds) (reads : str -> Z -> bool) : option (Walk E) :=
  resolved ← walkable w links root;
  match resolved with
  | Err refusal => Some {| walk_files := Err refusal; walk_skipped := [] |}
  | Ok root => finished <$> run w bounds reads root fuel [root] initial
  end.

Definition walk (links fuel : nat) (root : str) (reads : str -> Z -> bool) : option (Walk E) := walk_within links fuel root BOUNDS reads.
End Whole.

(** * Paths of a walk *)

Lemma ends_with_snoc f l (x : Z) : ends_with_char f (l ++ [x]) = f x.
Proof. unfold ends_with_char. by rewrite last_snoc. Qed.

Lemma clean_relative name : clean name -> is_absolute name = false.
Proof.
  intros [Hf [Hne _]]. unfold is_absolute. destruct name as [|c name]; [done|]. apply Forall_cons in Hf as [Hc _]. unfold starts_with. cbn [strip_prefix].
  destruct (decide (c_slash = c)) as [<-|]; [|done]. unfold is_char in Hc. by rewrite Z.eqb_refl in Hc.
Qed.

Lemma path_of_open names : Forall clean names -> names <> [] -> ends_with_char (is_char c_slash) (path_of names) = false.
Proof.
  intros Hc Hne. destruct names as [|name names _] using rev_ind; [done|]. apply Forall_app in Hc as [_ [Hf [Hn _]]%Forall_singleton].
  destruct name as [|c name _] using rev_ind; [done|]. apply Forall_app in Hf as [_ Hf]. apply Forall_cons in Hf as [Hc _].
  assert (exists l, path_of (names ++ [name ++ [c]]) = l ++ [c]) as [l ->]; [|rewrite ends_with_snoc; exact Hc].
  destruct (decide (names = [])) as [->|Hn']; [by exists (c_slash :: name)|]. rewrite path_of_app by done. exists (path_of names ++ c_slash :: name). by rewrite <- app_assoc.
Qed.

Lemma join_clean names name : Forall clean names -> clean name -> path_join (path_of names) name = path_of (names ++ [name]).
Proof.
  intros Hns Hn. rewrite <- path_of_below by done. unfold path_join, below. rewrite clean_relative by done.
  destruct (bool_decide_reflect (path_of names = [c_slash])) as [->|Hne]; [done|].
  destruct (decide (names = [])) as [->|Hns']; [done|]. rewrite path_of_open by done.
  assert (is_nonempty (path_of names) = true) as -> by (pose proof (path_of_length names); by destruct (path_of names); [cbn in *; lia|]). by rewrite <- app_assoc.
Qed.

Lemma stripped_below base names : Forall clean (base ++ names) -> stripped (path_of (base ++ names)) (path_of base) = Some (map Normal names).
Proof.
  intros Hc. unfold stripped. rewrite !components_path_of by (done || by apply Forall_app in Hc as [? _]). rewrite map_app. apply (strip_prefix_app (RootDir :: map Normal base)).
Qed.

(** * The recursion *)

Section Recursion.
Context {W E : Type} {F : Files W E} {L : Listings W E} (w : W) (bounds : Bounds) (reads : str -> Z -> bool) (base : list str).
Implicit Types (s : Walker E).

(** The names of a listing are those of directory entries: no separator, not [.] or [..]. *)
Definition clean_listings : Prop := forall directory entries entry, read_dir w directory = Ok entries -> Ok entry ∈ entries -> clean (file_name entry).

Hypothesis Hclean : clean_listings.
Hypothesis Hbase : Forall clean base.

Notation root := (path_of base).
Notation visit := (visit w bounds reads root).
Notation run := (run w bounds reads root).

(** A directory and then, each in its turn, the directories of it; it stops at the first refusal. *)
Fixpoint enter (levels : nat) (directory : str) s : result unit WalkRefusal * Walker E :=
  match visit directory s with
  | (Err refusal, s) => (Err refusal, s)
  | (Ok subdirectories, s) => match levels with O => (Ok tt, s) | S levels => each (enter levels) subdirectories s end
  end.

Lemma list_entries_names directory entries listing0 listing : list_entries w directory entries listing0 = Ok listing ->
  forall name, name ∈ directories listing \/ name ∈ others listing -> (name ∈ directories listing0 \/ name ∈ others listing0) \/ exists entry, Ok entry ∈ entries /\ file_name entry = name.
Proof.
  revert listing0. induction entries as [|[entry|] entries IH]; intros listing0; cbn [list_entries result_bind]; [by intros [= ->]; auto| |done].
  intros H name Hn. destruct (IH _ H name Hn) as [H0|(e & He & Hf)]; [|right; exists e; split; [by right|done]]. clear IH H Hn.
  revert H0. unfold put. destruct (names_directory w directory entry); cbn [directories others]; rewrite elem_of_app, list_elem_of_singleton; intros H0;
    (assert ((name ∈ directories listing0 \/ name ∈ others listing0) \/ name = file_name entry) as [H1| ->] by tauto; [by left|right; exists entry; split; [by left|done]]).
Qed.

Lemma listing_clean directory listing name : list_ w directory = Ok listing -> name ∈ directories listing \/ name ∈ others listing -> clean name.
Proof.
  unfold list_. destruct (read_dir w directory) as [entries|] eqn:Er; [|done]. cbn [result_bind]. intros H Hn.
  destruct (list_entries_names _ _ _ _ H name Hn) as [[H0|H0]|(entry & He & <-)]; [by apply not_elem_of_nil in H0..|]. by eapply Hclean.
Qed.

Lemma sorted_elem name names : name ∈ sorted names <-> name ∈ names.
Proof. unfold sorted. by rewrite sort_by_perm. Qed.

(** The subdirectories that a visit pushes are one level deeper, and none is past the bound. *)
Lemma visit_below rel s : Forall clean rel -> match visit (path_of (base ++ rel)) s with
  | (Ok subs, _) => forall sub, sub ∈ subs -> (length rel <= b_depth bounds)%nat /\ exists name, clean name /\ sub = path_of (base ++ (rel ++ [name]))
  | _ => True
  end.
Proof.
  intros Hr. unfold TreeWalk.visit. destruct (list_ w (path_of (base ++ rel))) as [listing|] eqn:El; [|by intros sub H%not_elem_of_nil].
  assert (Forall clean (base ++ rel)) as Hbr by (by apply Forall_app). unfold check_depth. rewrite stripped_below by done. rewrite length_map.
  destruct (Nat.leb_spec (length rel) (b_depth bounds)) as [Hd|]; [|done]. destruct (claim _ _ _) as [[] s1]; cbn [negb]; [|by intros sub H%not_elem_of_nil].
  destruct (each _ _ _) as [[[]|] s2]; [|done]. intros sub Hsub. split; [done|]. unfold subdirectories in Hsub. apply list_elem_of_In, filter_In in Hsub as [Hsub _].
  apply in_map_iff in Hsub as (name & <- & Hn). apply list_elem_of_In in Hn. rewrite sorted_elem in Hn. exists name. assert (clean name) as Hcn by (eapply listing_clean; [done|by left]).
  split; [done|]. rewrite join_clean by done. by rewrite app_assoc.
Qed.

Lemma run_each (f : str -> Walker E -> result unit WalkRefusal * Walker E) subs :
  (forall sub, sub ∈ subs -> forall s, exists n, forall fuel pending, run (n + fuel) (sub :: pending) s = match f sub s with (Err e, s') => Some (Err e, s') | (Ok _, s') => run fuel pending s' end) ->
  forall s, exists n, forall fuel pending, run (n + fuel) (subs ++ pending) s = match each f subs s with (Err e, s') => Some (Err e, s') | (Ok _, s') => run fuel pending s' end.
Proof.
  induction subs as [|sub subs IH]; intros H s; [by exists 0%nat|]. cbn [each app].
  destruct (H sub ltac:(left) s) as (n & Hn). destruct (f sub s) as [[u|e] s1] eqn:Ef.
  - destruct (IH ltac:(intros x Hx; apply H; by right) s1) as (m & Hm). exists (n + m)%nat. intros fuel pending. by rewrite <- Nat.add_assoc, Hn, Hm.
  - exists n. intros fuel pending. by rewrite Hn.
Qed.

(** The stack is the recursion. *)
Lemma run_enter levels : forall rel s, Forall clean rel -> (length rel + levels = S (b_depth bounds))%nat ->
  exists n, forall fuel pending, run (n + fuel) (path_of (base ++ rel) :: pending) s = match enter levels (path_of (base ++ rel)) s with (Err e, s') => Some (Err e, s') | (Ok _, s') => run fuel pending s' end.
Proof.
  induction levels as [|levels IH]; intros rel s Hr Hl; pose proof (visit_below rel s Hr) as Hv; cbn [enter]; destruct (visit (path_of (base ++ rel)) s) as [[subs|e] s1] eqn:Ev;
    try (by exists 1%nat; intros fuel pending; cbn [run Nat.add]; rewrite Ev).
  - destruct subs as [|sub subs]; [|destruct (Hv sub ltac:(left)); lia]. exists 1%nat. intros fuel pending. cbn [TreeWalk.run Nat.add]. by rewrite Ev.
  - destruct (run_each (enter levels) subs) with (s := s1) as (n & Hn).
    + intros sub Hsub s0. destruct (Hv sub Hsub) as (_ & name & Hn & ->). apply IH; [apply Forall_app; split; [done|by apply Forall_singleton]|rewrite length_app; cbn; lia].
    + exists (S n). intros fuel pending. cbn [TreeWalk.run Nat.add]. by rewrite Ev, Hn.
Qed.

Lemma run_ends s : exists enough, forall fuel, (enough <= fuel)%nat -> exists outcome, run fuel [root] s = Some outcome.
Proof.
  destruct (run_enter (S (b_depth bounds)) [] s (Forall_nil_2 _) eq_refl) as (n & Hn). rewrite app_nil_r in Hn. exists n. intros fuel Hf.
  specialize (Hn (fuel - n)%nat []). replace (n + (fuel - n))%nat with fuel in Hn by lia. rewrite Hn.
  destruct (enter _ _ _) as [[u|e] s1]; [destruct (fuel - n)%nat|]; by eexists.
Qed.
End Recursion.

(** * What a tree holds *)

(** How a file name reads as code points: the characters of its UTF-8 forms, and each byte that starts none as the lone surrogate U+DC00 plus the byte. *)
Inductive reads_as : list Z -> list Z -> Prop :=
| reads_end : reads_as [] []
| reads_char c rest codes : is_scalar c = true -> reads_as rest codes -> reads_as (encode_utf8 c ++ rest) (c :: codes)
| reads_byte b rest codes : (forall c tail, is_scalar c = true -> b :: rest <> encode_utf8 c ++ tail) -> reads_as rest codes -> reads_as (b :: rest) ((0xdc00 + b) :: codes).

(** The order of names: that of their code points. *)
Definition before (a b : str) : Prop := exists codes codes', reads_as a codes /\ reads_as b codes' /\ bytes_le codes codes' = true.

Section Holds.
Context {W E : Type} {F : Files W E} {L : Listings W E} (w : W) (root : str).

Definition linked (path : str) : Prop := exists meta, symlink_metadata w path = Some meta /\ file_type meta = Symlink.

(** The entry is a directory, or a link to one. *)
Definition leads_in (directory : str) (entry : DirEntry) : Prop :=
  entry_type entry = Some Directory \/
  entry_type entry = Some Symlink /\ exists meta, metadata w (path_join directory (file_name entry)) = Ok meta /\ file_type meta = Directory.

(** A directory that lists whole: the names of the entries that lead into no directory, and those that do and are no links, each in the order of names. *)
Definition holds (directory : str) (plain subs : list str) : Prop :=
  exists entries others links directories, read_dir w directory = Ok (Ok <$> entries) /\ entries ≡ₚ others ++ links ++ directories /\
    Forall (fun entry => ~ leads_in directory entry) others /\
    Forall (fun entry => leads_in directory entry /\ linked (path_join directory (file_name entry))) links /\
    Forall (fun entry => leads_in directory entry /\ ~ linked (path_join directory (file_name entry))) directories /\
    plain ≡ₚ file_name <$> others /\ StronglySorted before plain /\ subs ≡ₚ file_name <$> directories /\ StronglySorted before subs.

(** A directory that does not list whole. *)
Definition unlisted (directory : str) : Prop :=
  (exists error, read_dir w directory = Err error) \/ exists entries error, read_dir w directory = Ok entries /\ Err error ∈ entries.

(** A file that stays inside the root, with its size: a regular one, or a link to what resolves below the root. *)
Inductive stays (file : str) : Z -> Prop :=
| stays_regular meta : symlink_metadata w file = Some meta -> file_type meta = RegularFile -> stays file (len meta)
| stays_linked meta target size : symlink_metadata w file = Some meta -> file_type meta = Symlink ->
    canonicalize w file = Some target -> components root `prefix_of` components target -> metadata w file = Ok size -> stays file (len size).

Inductive insiders : list str -> list (str * Z) -> Prop :=
| insiders_end : insiders [] []
| insiders_in file size files sized : stays file size -> insiders files sized -> insiders (file :: files) ((file, size) :: sized)
| insiders_out file files sized : (forall size, ~ stays file size) -> insiders files sized -> insiders (file :: files) sized.

(** The files below a directory, with the directories entered before and after it: its own files, then those of
    its subdirectories.  A directory past the levels, one that does not list or has no identity, and one entered before add none. *)
Inductive tree : nat -> str -> gset (Z * Z) -> list (str * Z) -> gset (Z * Z) -> Prop :=
| tree_past directory entered : tree 0 directory entered [] entered
| tree_unlisted levels directory entered : unlisted directory -> tree (S levels) directory entered [] entered
| tree_unstatable levels directory entered plain subs error :
    holds directory plain subs -> identity w directory = Err error -> tree (S levels) directory entered [] entered
| tree_again levels directory entered plain subs id :
    holds directory plain subs -> identity w directory = Ok id -> id ∈ entered -> tree (S levels) directory entered [] entered
| tree_entered levels directory entered plain subs id files below entered' :
    holds directory plain subs -> identity w directory = Ok id -> id ∉ entered ->
    insiders (path_join directory <$> plain) files -> trees levels (path_join directory <$> subs) ({[id]} ∪ entered) below entered' ->
    tree (S levels) directory entered (files ++ below) entered'
with trees : nat -> list str -> gset (Z * Z) -> list (str * Z) -> gset (Z * Z) -> Prop :=
| trees_end levels entered : trees levels [] entered [] entered
| trees_next levels directory directories entered files entered' more entered'' :
    tree levels directory entered files entered' -> trees levels directories entered' more entered'' ->
    trees levels (directory :: directories) entered (files ++ more) entered''.

(** The root, and what a directory of the tree leads into. *)
Inductive reaches : str -> Prop :=
| reaches_root : reaches root
| reaches_sub directory plain subs name : reaches directory -> holds directory plain subs -> name ∈ subs -> reaches (path_join directory name).

(** ** The listing finds it *)

(** File names are bytes. *)
Definition byte_names : Prop := forall directory entries entry, read_dir w directory = Ok entries -> Ok entry ∈ entries -> Forall is_byte (file_name entry).

Lemma escaped_reads fuel bytes text codes : Forall is_byte bytes -> (length bytes <= fuel)%nat -> built text codes ->
  exists more, built (from_utf8_escaped_steps fuel bytes text) (codes ++ more) /\ reads_as bytes more.
Proof.
  revert bytes text codes. induction fuel as [|fuel IH]; intros bytes text codes Hb Hlen Ht.
  { destruct bytes; [|cbn in Hlen; lia]. exists []. rewrite app_nil_r. by split; [|constructor]. }
  destruct bytes as [|b bytes]; [exists []; rewrite app_nil_r; by split; [|constructor]|].
  cbn [from_utf8_escaped_steps]. destruct (utf8_step (b :: bytes)) as [[c rest]|] eqn:Es.
  - destruct (utf8_step_sound _ _ _ Hb Es) as [Heq Hs].
    assert (length rest < length (b :: bytes))%nat as Hlt by (rewrite Heq, length_app; unfold encode_utf8; repeat case_match; simpl; lia).
    assert (Forall is_byte rest) as Hrest by (rewrite Heq in Hb; by apply Forall_app in Hb as [_ ?]).
    destruct (IH rest (push_str text [c]) (codes ++ [c])) as (more & Hmore & Hr); [done|simpl in *; lia|apply built_push_str; [done|by constructor]|].
    exists (c :: more). rewrite <- app_assoc in Hmore. split; [done|]. rewrite Heq. by constructor.
  - apply Forall_cons in Hb as [Hb0 Hb]. unfold is_byte in Hb0.
    assert (is_code_point (0xdc00 + b)) as Hc by (unfold is_code_point, LAST_CODE_POINT; lia). rewrite push_spec by done. cbn [default].
    destruct (IH bytes {| cps_bytes := cps_bytes text ++ encode_code_point (0xdc00 + b) |} (codes ++ [0xdc00 + b])) as (more & Hmore & Hr);
      [done|simpl in *; lia|by eapply built_push, push_spec|].
    exists ((0xdc00 + b) :: more). rewrite <- app_assoc in Hmore. split; [done|]. constructor; [|done]. intros c tail Hs Heq.
    assert (is_code_point c) as Hcc by (apply scalar_range in Hs; done). pose proof (utf8_step_encode c tail Hcc) as Hu.
    unfold encode_code_point in Hu. rewrite Hs in Hu. congruence.
Qed.

Lemma name_key_reads name : Forall is_byte name -> exists codes, reads_as name codes /\ Forall is_code_point codes /\ name_key name = concat (encode_code_point <$> codes).
Proof.
  intros Hb. destruct (escaped_reads (length name) name cps_default [] Hb ltac:(lia) built_default) as (codes & [Hc Hk] & Hr). by exists codes.
Qed.

(** The keys put names in their order. *)
Lemma key_before a b : Forall is_byte a -> Forall is_byte b -> bytes_le (name_key a) (name_key b) = true -> before a b.
Proof.
  intros (ca & Ha & Hca & ->)%name_key_reads (cb & Hb & Hcb & ->)%name_key_reads. rewrite code_point_order by done. by exists ca, cb.
Qed.

Lemma sorted_names_before names : Forall (Forall is_byte) names -> StronglySorted before (sorted names).
Proof.
  intros Hb. assert (StronglySorted (fun a b => bytes_le (name_key a) (name_key b) = true) (sorted names)) as Hs
    by (apply sort_by_sorted; intros *; [apply bytes_le_total|apply bytes_le_trans]).
  assert (Forall (Forall is_byte) (sorted names)) as Hb' by (unfold sorted; by rewrite sort_by_perm). clear Hb.
  induction Hs as [|name l Hs IH Hf]; [constructor|]. apply Forall_cons in Hb' as [Hn Hl]. constructor; [by apply IH|].
  rewrite Forall_forall in *. intros x Hx. by apply key_before; [|apply Hl|apply Hf].
Qed.

Lemma names_directory_leads directory entry : names_directory w directory entry = true <-> leads_in directory entry.
Proof.
  unfold names_directory, leads_in, is_dir. destruct (entry_type entry) as [[]|]; try (rewrite bool_decide_eq_true); try naive_solver.
  destruct (metadata w _) as [meta|]; [rewrite bool_decide_eq_true; naive_solver|naive_solver].
Qed.

Lemma is_symlink_linked path : is_symlink w path = true <-> linked path.
Proof. unfold is_symlink, linked. destruct (symlink_metadata w path) as [meta|]; [rewrite bool_decide_eq_true|]; naive_solver. Qed.

Lemma list_entries_split directory entries listing0 : match list_entries w directory entries listing0 with
  | Ok listing => exists es, entries = Ok <$> es /\
      directories listing = directories listing0 ++ (file_name <$> List.filter (names_directory w directory) es) /\
      others listing = others listing0 ++ (file_name <$> List.filter (fun entry => negb (names_directory w directory entry)) es)
  | Err _ => exists error, Err error ∈ entries
  end.
Proof.
  revert listing0. induction entries as [|[entry|error] entries IH]; intros listing0; cbn [list_entries result_bind].
  - exists []. by rewrite !app_nil_r.
  - specialize (IH (put w directory entry listing0)). destruct (list_entries w directory entries _) as [listing|];
      [|destruct IH as (error & He); exists error; by right].
    destruct IH as (es & -> & Hd & Ho). exists (entry :: es). split; [done|]. rewrite Hd, Ho. unfold put. cbn [List.filter].
    destruct (names_directory w directory entry); cbn [negb directories others fmap list_fmap]; by rewrite <- ?app_assoc.
  - exists error. left.
Qed.

Lemma filter_split {A} (f : A -> bool) (l : list A) : l ≡ₚ List.filter (fun x => negb (f x)) l ++ List.filter f l.
Proof.
  induction l as [|x l IH]; [done|]. cbn. destruct (f x); cbn; [rewrite <- Permutation_middle|]; by constructor.
Qed.

Lemma Forall_filtered {A} (f : A -> bool) (P : A -> Prop) (l : list A) : (forall x, x ∈ l -> f x = true -> P x) -> Forall P (List.filter f l).
Proof. intros H. apply Forall_forall. intros x Hx%list_elem_of_In%filter_In. destruct Hx as [Hx Hf]. apply H; [by apply list_elem_of_In|done]. Qed.

Lemma filter_map_names {A B} (g : A -> B) (f : B -> bool) (l : list A) : List.filter f (g <$> l) = g <$> List.filter (fun x => f (g x)) l.
Proof. induction l as [|x l IH]; [done|]. cbn. destruct (f (g x)); cbn; by rewrite IH. Qed.

(** The names of the subdirectories that a visit enters. *)
Definition entered_names (directory : str) (listing : Listing) : list str :=
  List.filter (fun name => negb (is_symlink w (path_join directory name))) (sorted (directories listing)).

Lemma subdirectories_names directory listing : subdirectories w directory listing = path_join directory <$> entered_names directory listing.
Proof. exact (filter_map_names (path_join directory) (fun path => negb (is_symlink w path)) _). Qed.

Lemma list_holds directory : byte_names -> match list_ w directory with
  | Ok listing => holds directory (sorted (others listing)) (entered_names directory listing)
  | Err _ => unlisted directory
  end.
Proof.
  intros Hbytes. unfold list_. destruct (read_dir w directory) as [entries|error] eqn:Er; cbn [result_bind]; [|left; eauto].
  pose proof (list_entries_split directory entries {| directories := []; others := [] |}) as H.
  destruct (list_entries w directory entries _) as [listing|]; [|destruct H as (error & He); right; eauto].
  destruct H as (es & -> & Hd & Ho). cbn [directories others app] in Hd, Ho.
  assert (forall f, Forall (Forall is_byte) (file_name <$> List.filter f es)) as Hb.
  { intros f. apply Forall_fmap, Forall_filtered. intros x Hx _. eapply Hbytes; [exact Er|]. by apply list_elem_of_fmap_2. }
  set (at_link := fun entry => is_symlink w (path_join directory (file_name entry))).
  exists es, (List.filter (fun entry => negb (names_directory w directory entry)) es),
    (List.filter at_link (List.filter (names_directory w directory) es)), (List.filter (fun entry => negb (at_link entry)) (List.filter (names_directory w directory) es)).
  split; [done|]. split; [etransitivity; [apply (filter_split (names_directory w directory))|]; apply Permutation_app_head; rewrite Permutation_app_comm; apply filter_split|].
  split; [apply Forall_filtered; intros x _ Hx Hl%names_directory_leads; by rewrite Hl in Hx|].
  split; [apply Forall_filtered; intros x Hx Hl; split; [apply list_elem_of_In, filter_In in Hx as [_ Hx]; by apply names_directory_leads|by apply is_symlink_linked]|].
  split; [apply Forall_filtered; intros x Hx Hl; split; [apply list_elem_of_In, filter_In in Hx as [_ Hx]; by apply names_directory_leads|
    intros Hs%is_symlink_linked; unfold at_link in Hl; by rewrite Hs in Hl]|].
  split; [rewrite Ho; apply sort_by_perm|]. split; [apply sorted_names_before; by rewrite Ho|].
  unfold entered_names. split; [|apply strongly_sorted_filter, sorted_names_before; by rewrite Hd].
  rewrite (filter_perm _ (sorted (directories listing)) (directories listing)) by apply sort_by_perm. by rewrite Hd, filter_map_names.
Qed.

Lemma stays_sized file size : stays file size <-> contained_file_size w file root = Some (Ok size).
Proof.
  unfold contained_file_size, file_size. destruct (symlink_metadata w file) as [meta|] eqn:El; cbn [mbind option_bind]; [|split; [by intros []; congruence|done]]. split.
  - intros [meta' El' Ht|meta' target size' El' Ht Hc Hp Hm]; rewrite El in El'; injection El' as <-; rewrite Ht; [done|].
    rewrite Hc. unfold path_starts_with. rewrite (proj2 (starts_with_spec _ _)) by (destruct Hp as [k Hp]; by exists k). by rewrite Hm.
  - destruct (file_type meta) eqn:Ht; try done; [intros [= <-]; by apply stays_regular|].
    destruct (canonicalize w file) as [target|] eqn:Hc; [|done]. destruct (path_starts_with target root) eqn:Hp; [|done].
    destruct (metadata w file) as [m|] eqn:Hm; [|done]. cbn. intros [= <-]. eapply stays_linked; [done..| |done].
    apply starts_with_spec in Hp as [k Hp]. by exists k.
Qed.
End Holds.

(** * The files of a tree *)

Section Files.
Context {W E : Type} {F : Files W E} {L : Listings W E} (w : W) (bounds : Bounds) (reads : str -> Z -> bool) (root : str).
Implicit Types (s : Walker E).

(** A file that stays inside the root, with its size. *)
Definition sized (candidate : str) : option (str * Z) :=
  match contained_file_size w candidate root with Some (Ok size) => Some (candidate, size) | _ => None end.

(** Each element in turn, with the directories entered before it. *)
Fixpoint gather (f : str -> gset (Z * Z) -> list (str * Z) * gset (Z * Z)) (l : list str) (entered : gset (Z * Z)) : list (str * Z) * gset (Z * Z) :=
  match l with
  | [] => ([], entered)
  | x :: l => let here := f x entered in let more := gather f l here.2 in (here.1 ++ more.1, more.2)
  end.

(** The files of a directory, then those of its subdirectories, no directory entered twice; no bound stops it. *)
Fixpoint taken_files (levels : nat) (directory : str) (entered : gset (Z * Z)) : list (str * Z) * gset (Z * Z) :=
  match levels, list_ w directory, identity w directory with
  | S levels, Ok listing, Ok id =>
      if bool_decide (id ∈ entered) then ([], entered)
      else
        let below := gather (taken_files levels) (subdirectories w directory listing) ({[id]} ∪ entered) in
        (omap sized (map (path_join directory) (sorted (others listing))) ++ below.1, below.2)
  | _, _, _ => ([], entered)
  end.

(** The bytes that a scan reads of files. *)
Definition total (from : Z) (l : list (str * Z)) : Z := foldl (fun sum file => saturating_add sum (counted reads root file.1 file.2)) from l.

(** Why a walk that took some of the files of a tree stops. *)
Definition refused (s s' : Walker E) (fs taken : list (str * Z)) (refusal : WalkRefusal) : Prop :=
  match refusal with
  | TooManyFiles limit named => limit = b_files bounds /\ named = root /\ (limit <= length (files s'))%nat /\ exists next, (taken ++ [next]) `prefix_of` fs
  | TooManyBytes limit named => limit = b_bytes bounds /\ named = root /\ exists next, (taken ++ [next]) `prefix_of` fs /\ limit < total (bytes s) (taken ++ [next])
  | TooDeep depth limit named => limit = b_depth bounds /\ named = root /\ (limit < depth)%nat /\
      exists directory plain subs relative, reaches w root directory /\ holds w directory plain subs /\ stripped directory root = Some relative /\ length relative = depth
  | NotDirectory _ => False
  end.

(** A part of a walk over the files [fs]. *)
Definition covers (fs : list (str * Z)) s (entered : gset (Z * Z)) (outcome : result unit WalkRefusal * Walker E) : Prop :=
  let '(r, s') := outcome in
  match r with
  | Ok _ => files s' = files s ++ fs.*1 /\ bytes s' = total (bytes s) fs /\ seen s' = entered /\
      ((length (files s) <= b_files bounds)%nat -> (length (files s') <= b_files bounds)%nat) /\ (bytes s <= b_bytes bounds -> bytes s' <= b_bytes bounds)
  | Err refusal => exists taken, taken `prefix_of` fs /\ files s' = files s ++ taken.*1 /\ refused s s' fs taken refusal
  end.

Lemma insiders_sized l : insiders w root l (omap sized l : list (str * Z)).
Proof.
  induction l as [|file l IH]; [constructor|]. assert (omap sized (file :: l) = match sized file with Some y => y :: omap sized l | None => omap sized l end) as -> by done. unfold sized at 1. destruct (contained_file_size w file root) as [[size|]|] eqn:Es;
    [apply insiders_in; [by apply stays_sized|done]|apply insiders_out; [intros size H%stays_sized; congruence|done]..].
Qed.

Lemma total_app from l l' : total from (l ++ l') = total (total from l) l'.
Proof. apply foldl_app. Qed.

Lemma covers_more fs fs' s entered s1 refusal : covers fs s entered (Err refusal, s1) -> forall entered', covers (fs ++ fs') s entered' (Err refusal, s1).
Proof.
  intros (taken & Hp & Hf & Hr) entered'. exists taken. split_and!; [by apply prefix_app_r|done|]. destruct refusal; cbn [refused] in *; try done.
  - destruct Hr as (? & ? & ? & next & Hn). split_and!; [done..|]. exists next. by apply prefix_app_r.
  - destruct Hr as (? & ? & next & Hn & Hb). split_and!; [done..|]. exists next. split; [by apply prefix_app_r|done].
Qed.

Lemma covers_then fs fs' s entered entered' s1 u outcome : covers fs s entered (Ok u, s1) -> covers fs' s1 entered' outcome -> covers (fs ++ fs') s entered' outcome.
Proof.
  intros (Hf & Hb & Hs & Hl & Hm). destruct outcome as [[u'|refusal] s2]; cbn [covers].
  - intros (Hf' & Hb' & Hs' & Hl' & Hm'). split_and!; [by rewrite Hf', Hf, fmap_app, app_assoc|by rewrite total_app, <- Hb|done|tauto|tauto].
  - intros (taken & Hp & Hf' & Hr). exists (fs ++ taken). split_and!; [by apply prefix_app|by rewrite Hf', Hf, fmap_app, app_assoc|].
    destruct refusal; cbn [refused] in *; try done.
    + destruct Hr as (? & ? & ? & next & Hn). split_and!; [done..|]. exists next. rewrite <- app_assoc. by apply prefix_app.
    + destruct Hr as (? & ? & next & Hn & Hlt). split_and!; [done..|]. exists next. rewrite <- app_assoc. split; [by apply prefix_app|]. by rewrite total_app, <- Hb.
Qed.

Lemma covers_none s u s' : files s' = files s -> bytes s' = bytes s -> covers [] s (seen s') (Ok u, s').
Proof. intros Hf Hb. cbn [covers]. rewrite Hf, Hb, app_nil_r. by split_and!. Qed.

Lemma take_file_covers candidate s : covers (match sized candidate with Some file => [file] | None => [] end) s (seen s) (take_file w bounds reads root candidate s).
Proof.
  unfold take_file, sized. destruct (contained_file_size w candidate root) as [[size|error]|]; [|by apply (covers_none s tt (skip _ s))|by apply covers_none].
  destruct (Nat.leb_spec (b_files bounds) (length (files s))) as [Hle|Hgt].
  - exists []. rewrite app_nil_r. split_and!; [apply prefix_nil|done|]. cbn [refused]. split_and!; [done..|]. by exists (candidate, size).
  - destruct (Z.ltb_spec (b_bytes bounds) (saturating_add (bytes s) (counted reads root candidate size))) as [Hlt|Hge].
    + exists []. cbn [files]. rewrite app_nil_r. split_and!; [apply prefix_nil|done|]. cbn [refused]. split_and!; [done..|]. by exists (candidate, size).
    + cbn [covers files bytes seen fmap list_fmap fst total foldl snd]. split_and!; [done..|rewrite length_app; cbn; lia|done].
Qed.

Lemma each_covers (f : str -> Walker E -> result unit WalkRefusal * Walker E) (fs : str -> gset (Z * Z) -> list (str * Z) * gset (Z * Z)) l :
  (forall x s, x ∈ l -> covers (fs x (seen s)).1 s (fs x (seen s)).2 (f x s)) -> forall s, covers (gather fs l (seen s)).1 s (gather fs l (seen s)).2 (each f l s).
Proof.
  induction l as [|x l IH]; intros H s; [by apply covers_none|]. cbn [each gather fst snd].
  pose proof (H x s ltac:(left)) as Hx. destruct (f x s) as [[u|refusal] s1]; [|by eapply covers_more].
  assert (seen s1 = (fs x (seen s)).2) as Hs by apply Hx. eapply covers_then; [done|]. rewrite <- Hs. apply IH. intros y s' Hy. apply H. by right.
Qed.

Lemma take_files_covers l s : covers (omap sized l) s (seen s) (each (take_file w bounds reads root) l s).
Proof.
  pose proof (each_covers (take_file w bounds reads root) (fun x entered => (match sized x with Some file => [file] | None => [] end, entered)) l
    (fun x s _ => take_file_covers x s) s) as H.
  assert (forall entered, gather (fun x entered => (match sized x with Some file => [file] | None => [] end, entered)) l entered = (omap sized l, entered)) as Hg.
  { clear H. induction l as [|x l IH]; intros entered; [done|]. cbn [gather fst snd omap list_omap]. rewrite IH. by destruct (sized x). }
  by rewrite Hg in H.
Qed.
End Files.

Section Exact.
Context {W E : Type} {F : Files W E} {L : Listings W E} (w : W) (bounds : Bounds) (reads : str -> Z -> bool) (base : list str).
Implicit Types (s : Walker E).
Hypothesis Hclean : clean_listings w.
Hypothesis Hbase : Forall clean base.
Hypothesis Hbytes : byte_names w.
Notation root := (path_of base).
Notation enter := (enter w bounds reads base).
Notation taken_files := (taken_files w root).
Notation covers := (covers w bounds reads root).

Lemma too_deep_refused rel s : Forall clean rel -> length rel = S (b_depth bounds) -> reaches w root (path_of (base ++ rel)) -> covers [] s (seen s) (enter 0 (path_of (base ++ rel)) s).
Proof.
  intros Hr Hl Hre. cbn [TreeWalk.enter]. unfold visit. pose proof (list_holds w (path_of (base ++ rel)) Hbytes) as Hh. destruct (list_ w _) as [listing|error] eqn:El; [|by apply (covers_none w bounds reads root s tt (skip _ s))].
  unfold check_depth. rewrite stripped_below by by apply Forall_app. rewrite length_map, Hl. destruct (Nat.leb_spec (S (b_depth bounds)) (b_depth bounds)); [lia|].
  exists []. rewrite app_nil_r. split_and!; [done|done|]. cbn [refused]. split_and!; [done|done|lia|]. exists (path_of (base ++ rel)), (sorted (others listing)), (entered_names w (path_of (base ++ rel)) listing), (map Normal rel).
  split; [done|]. split; [done|]. split_and!; [by apply stripped_below, Forall_app|by rewrite length_map].
Qed.

Lemma enter_covers levels : forall rel s, Forall clean rel -> (length rel + levels = S (b_depth bounds))%nat -> reaches w root (path_of (base ++ rel)) ->
  covers (taken_files levels (path_of (base ++ rel)) (seen s)).1 s (taken_files levels (path_of (base ++ rel)) (seen s)).2 (enter levels (path_of (base ++ rel)) s).
Proof.
  induction levels as [|levels IH]; intros rel s Hr Hl Hre; [apply too_deep_refused; [done|lia|done]|].
  pose proof (visit_below w bounds reads base Hclean Hbase rel s Hr) as Hv. cbn [TreeWalk.enter TreeWalk.taken_files]. unfold visit in *.
  set (directory := path_of (base ++ rel)) in *. destruct (list_ w directory) as [listing|error] eqn:El; [|by apply (covers_none w bounds reads root s tt (skip _ s))].
  assert (check_depth bounds root directory = Ok tt) as Hd.
  { unfold check_depth, directory. rewrite stripped_below by by apply Forall_app. rewrite length_map. by rewrite (proj2 (Nat.leb_le _ _)) by lia. }
  rewrite Hd in *. unfold claim in *. destruct (identity w directory) as [[device inode]|error] eqn:Ei; [|by apply (covers_none w bounds reads root s tt (skip _ s))].
  case_bool_decide as Hin; [by apply (covers_none w bounds reads root s tt (skip _ s))|]. cbn [negb] in *.
  set (s0 := {| seen := _; bytes := bytes s; files := files s; skipped := skipped s |}) in *.
  pose proof (take_files_covers w bounds reads root (map (path_join directory) (sorted (others listing))) s0) as Ht. change (covers ?fs s) with (covers fs s0).
  destruct (each (take_file w bounds reads root) _ s0) as [[u|refusal] s1]; [|by eapply covers_more].
  pose proof (list_holds w directory Hbytes) as Hh. rewrite El in Hh. cbn [fst snd]. eapply covers_then; [exact Ht|]. assert (seen s1 = {[(device, inode)]} ∪ seen s) as <- by apply Ht.
  apply each_covers. intros sub s2 Hsub. destruct (Hv sub Hsub) as (_ & name & Hn & Hsub'). assert (reaches w root sub) as Hrs.
  { rewrite subdirectories_names in Hsub. apply list_elem_of_fmap in Hsub as (name' & -> & Hin'). by eapply reaches_sub. }
  subst sub. apply IH; [apply Forall_app; split; [done|by apply Forall_singleton]|rewrite length_app; cbn; lia|done].
Qed.

(** The files taken are those of the tree. *)
Lemma taken_files_tree levels : forall directory entered, tree w root levels directory entered (taken_files levels directory entered).1 (taken_files levels directory entered).2.
Proof.
  induction levels as [|levels IH]; intros directory entered; cbn [TreeWalk.taken_files]; [constructor|]. pose proof (list_holds w directory Hbytes) as Hh.
  destruct (list_ w directory) as [listing|error]; [|by constructor]. destruct (identity w directory) as [id|error] eqn:Ei; [|by eapply tree_unstatable].
  case_bool_decide as Hin; [by eapply tree_again|]. cbn [fst snd]. rewrite subdirectories_names. eapply tree_entered; [done..| |].
  - apply insiders_sized.
  - generalize ({[id]} ∪ entered). intros entered1. revert entered1. induction (path_join directory <$> entered_names w directory listing) as [|sub subs IHs]; intros entered1; [constructor|].
    cbn [gather fst snd]. econstructor; [apply IH|apply IHs].
Qed.

(** What a walk of a resolved root answers. *)
Definition answers (walk : Walk E) : Prop :=
  let fs := (taken_files (S (b_depth bounds)) root ∅).1 in
  match walk_files walk with
  | Ok listed => listed = fs.*1 /\ (length listed <= b_files bounds)%nat /\ total reads root 0 fs <= b_bytes bounds
  | Err refusal => exists taken s', taken `prefix_of` fs /\ files s' = taken.*1 /\ refused w bounds reads root initial s' fs taken refusal
  end.

Lemma run_answers : 0 <= b_bytes bounds -> exists enough, forall fuel, (enough <= fuel)%nat ->
  exists outcome, run w bounds reads root fuel [root] initial = Some outcome /\ answers (finished outcome).
Proof.
  intros H0. destruct (run_enter w bounds reads base Hclean Hbase (S (b_depth bounds)) [] initial (Forall_nil_2 _) eq_refl) as (n & Hn).
  pose proof (enter_covers (S (b_depth bounds)) [] initial (Forall_nil_2 _) eq_refl) as Hc. rewrite app_nil_r in *. specialize (Hc (reaches_root w root)).
  exists n. intros fuel Hf. specialize (Hn (fuel - n)%nat []). replace (n + (fuel - n))%nat with fuel in Hn by lia. rewrite Hn. clear Hn.
  destruct (enter (S (b_depth bounds)) root initial) as [[u|refusal] s']; unfold answers.
  - exists (Ok tt, s'). split; [by destruct (fuel - n)%nat|]. cbn [finished walk_files fst snd result_bind]. destruct Hc as (Hfs & Hb & _ & Hl & Hm).
    split_and!; [exact Hfs|apply Hl; cbn; lia|]. specialize (Hm H0). rewrite Hb in Hm. exact Hm.
  - exists (Err refusal, s'). split; [done|]. cbn [finished walk_files fst snd result_bind]. destruct Hc as (taken & Hp & Hfs & Hr). by exists taken, s'.
Qed.
End Exact.


(** * A concrete world *)

Module Rooms.
(** The directory /r holds a, d and a link back to itself; d holds b. *)
Definition directory (path : str) : bool := bool_decide (path = lit "/r") || bool_decide (path = lit "/r/d").

Definition meta (path : str) : Metadata := {| file_type := if directory path then Directory else RegularFile; len := 3; mode := 420 |}.

#[export] Instance room_files : Files unit unit := {
  current_dir _ := Ok (lit "/r");
  symlink_metadata _ path := Some (if bool_decide (path = lit "/r/self") then {| file_type := Symlink; len := 1; mode := 420 |} else meta path);
  metadata _ path := Ok (if bool_decide (path = lit "/r/self") then meta (lit "/r") else meta path);
  read_link _ path := if bool_decide (path = lit "/r/self") then Some (lit ".") else None;
  canonicalize _ path := Some path;
  invalid_input := tt
}.

#[export] Instance room_listings : Listings unit unit := {
  read_dir _ path :=
    if bool_decide (path = lit "/r") then
      Ok [Ok {| file_name := lit "self"; entry_type := Some Symlink |}; Ok {| file_name := lit "d"; entry_type := Some Directory |};
          Ok {| file_name := lit "a"; entry_type := Some RegularFile |}]
    else if bool_decide (path = lit "/r/d") then Ok [Ok {| file_name := lit "b"; entry_type := Some RegularFile |}]
    else Err tt;
  identity _ path := Ok (if bool_decide (path = lit "/r/d") then (1, 2) else (1, 1))
}.

Example rooms_listed : walk (E := unit) tt 10 10 (lit ".") (fun _ _ => true) = Some {| walk_files := Ok [lit "/r/a"; lit "/r/d/b"]; walk_skipped := [] |}.
Proof. vm_compute. reflexivity. Qed.

Example rooms_bounded : walk_files <$> walk_within (E := unit) tt 10 10 (lit "/r") {| b_depth := 20; b_files := 9; b_bytes := 5 |} (fun _ _ => true)
  = Some (Err (TooManyBytes 5 (lit "/r"))).
Proof. vm_compute. reflexivity. Qed.

Lemma rooms_clean : clean_listings (E := unit) tt.
Proof.
  intros path entries entry. cbn. destruct (bool_decide (path = lit "/r")); [|destruct (bool_decide (path = lit "/r/d")); [|done]]; intros [= <-] H;
    repeat (apply elem_of_cons in H as [H|H]; [injection H as ->; repeat split; [repeat constructor|done..]|]); by apply not_elem_of_nil in H.
Defined.

Lemma rooms_bytes : byte_names (E := unit) tt.
Proof.
  intros path entries entry. cbn. destruct (bool_decide (path = lit "/r")); [|destruct (bool_decide (path = lit "/r/d")); [|done]]; intros [= <-] H;
    repeat (apply elem_of_cons in H as [H|H]; [injection H as ->; repeat constructor; vm_compute; congruence|]); by apply not_elem_of_nil in H.
Defined.

Lemma rooms_cwd : canonical_cwd (E := unit) tt.
Proof. intros path [= <-]. exists [lit "r"]. split; [|done]. apply Forall_singleton. repeat split; [repeat constructor|done..]. Defined.

End Rooms.
Import Rooms.

