(* ===== verification/GitCalls.v ===== *)
(** How a git call ends: the pure parts of crates/git/src/run.rs, toplevel.rs and snapshot.rs.

    The command line and the environment that git gets, the outcome that a bounded run becomes, and the
    receipt of the repository's state.  [git_environment_exact] says which variables of the parent git
    sees, [git_command_hardened] where the arguments of a caller stand, and [receipt_whole] that a
    receipt reports nothing of an answer that was cut or failed. *)

From S2P Require Import Prelude RustStr Ordered Text CodePoints Utf8 Contain Txn.

#[local] Open Scope Z_scope.
#[local] Open Scope rs_scope.

(** * Runs of a program: the types of crates/io/src/runner.rs and testrun.rs *)

(** std::process::ExitStatus: a code, a signal, or neither. *)
Inductive ExitStatus := Code (code : Z) | Signal (signal : Z) | Raw (raw : Z).

Definition exit_code (status : ExitStatus) : Z := match status with Code code => code | Signal signal => - signal | Raw raw => raw end.

Inductive NotRun (E : Type) := ProgramNotFound (error : E) | Spawn (error : E).
Arguments ProgramNotFound {E}.
Arguments Spawn {E}.

Inductive Outcome (E : Type) :=
| Exited (status : ExitStatus) (stdout stderr : list Z)
| Truncated (stdout : list Z)
| TimedOut
| NotStarted (reason : NotRun E)
| Lost (error : E).
Arguments Exited {E}.
Arguments Truncated {E}.
Arguments TimedOut {E}.
Arguments NotStarted {E}.
Arguments Lost {E}.

(** * Data *)

Definition HARDENING_PREFIX : list str :=
  [lit "--no-optional-locks"; lit "-c"; lit "core.fsmonitor=false"; lit "-c"; lit "core.pager=cat"; lit "-c"; lit "diff.external=";
   lit "-c"; lit "core.quotePath=false"; lit "-c"; lit "log.showSignature=false"].

Definition CONFIG_KEPT : list str := [lit "GIT_CONFIG_GLOBAL"; lit "GIT_CONFIG_NOSYSTEM"].

Definition LC_ALL : str := lit "LC_ALL".

Record Failure := { subcommand : str; code : Z; detail : str }.

Inductive Unfinished :=
| UnfinishedTimedOut (subcommand after : str)
| NotInstalled
| UnfinishedNotRun (subcommand reason : str).

Inductive GitOutcome :=
| Printed (stdout : list Z)
| Capped (stdout : list Z)
| Failed (failure : Failure)
| GitUnfinished (unfinished : Unfinished).

Record Call := { config : list str; call_subcommand : str; rest : list str }.

Record Limits := { seconds : Z; shown : str; cap : Z }.

(** * The call *)

Definition inherited (name : str) : bool :=
  if bool_decide (name = LC_ALL) then false else negb (starts_with (lit "GIT_") name) || bool_decide (name ∈ CONFIG_KEPT).

(** The environment of every call. *)
Definition new_env (base : list (str * str)) : list (str * str) := List.filter (fun entry => inherited (fst entry)) base ++ [(LC_ALL, lit "C")].

(** The arguments of a call in a directory. *)
Definition call_args (dir : str) (call : Call) : list str :=
  HARDENING_PREFIX ++ config call ++ [lit "-C"; dir] ++ [call_subcommand call] ++ rest call.

Definition first_line (stderr : list Z) : str :=
  match splitlines (strip (from_utf8_lossy stderr)) false with line :: _ => line | [] => lit "no detail" end.

Definition failure_text (f : Failure) : str := lit "git " ++ subcommand f ++ lit " exited " ++ decimal (code f) ++ lit ": " ++ detail f.

Definition unfinished_text (u : Unfinished) : str :=
  match u with
  | UnfinishedTimedOut subcommand after => lit "git " ++ subcommand ++ lit " timed out after " ++ after ++ lit "s"
  | NotInstalled => lit "git is not installed, so repository state is unknown"
  | UnfinishedNotRun subcommand reason => lit "git " ++ subcommand ++ lit " could not be run: " ++ reason
  end.

Definition exited (subcommand : str) (status : ExitStatus) (stdout stderr : list Z) : GitOutcome :=
  let code := exit_code status in
  if code =? 0 then Printed stdout else Failed {| subcommand := subcommand; code := code; detail := first_line stderr |}.

(** * The top level: toplevel.rs *)

Definition NOT_A_REPOSITORY : list Z := lit "not a git repository".

Inductive Toplevel :=
| Found (stdout : list Z)
| NotRepository
| ToplevelFailed (code : Z) (stderr : list Z)
| ToplevelCapped
| ToplevelTimedOut
| ToplevelNotInstalled
| ToplevelNotRun (errno : option Z) (message : str).

Definition toplevel_exited (code : Z) (stdout stderr : list Z) : Toplevel :=
  if code =? 0 then Found stdout else if contains NOT_A_REPOSITORY stderr then NotRepository else ToplevelFailed code stderr.

Section Classify.
Context {E : Type} {I : IoError E}.

(** A [NotRun] as text. *)
Definition not_run_text (reason : NotRun E) : str := match reason with ProgramNotFound error | Spawn error => strerror error end.

Definition classify (subcommand : str) (limits : Limits) (outcome : Outcome E) : GitOutcome :=
  match outcome with
  | Exited status stdout stderr => exited subcommand status stdout stderr
  | Truncated stdout => Capped stdout
  | TimedOut => GitUnfinished (UnfinishedTimedOut subcommand (shown limits))
  | NotStarted (ProgramNotFound _) => GitUnfinished NotInstalled
  | NotStarted reason => GitUnfinished (UnfinishedNotRun subcommand (not_run_text reason))
  | Lost error => GitUnfinished (UnfinishedNotRun subcommand (not_run_text (Spawn error)))
  end.

Definition classify_toplevel (outcome : Outcome E) : Toplevel :=
  match outcome with
  | Exited status stdout stderr => toplevel_exited (exit_code status) stdout stderr
  | Truncated _ => ToplevelCapped
  | TimedOut => ToplevelTimedOut
  | NotStarted (ProgramNotFound _) => ToplevelNotInstalled
  | NotStarted (Spawn error) | Lost error => ToplevelNotRun (raw_os_error error) (strerror error)
  end.
End Classify.

(** * Receipts: snapshot.rs *)

Definition RECEIPT : Limits := {| seconds := 5; shown := lit "5.0"; cap := 8000000 |}.
Definition SHORT_SHA_LENGTH : nat := 8.

Record Snapshot := { head_sha : option str; tree_oid : option str; dirty : option nat; note : str }.

(** The stripped stdout, or the note that says why there is none. *)
Definition receipt (subcommand : str) (outcome : GitOutcome) : result str str :=
  match outcome with
  | Printed stdout => Ok (from_utf8_lossy (strip_bytes stdout))
  | Capped _ => Err (lit "git " ++ subcommand ++ lit " printed more than " ++ dec_text (cap RECEIPT) ++ lit " bytes")
  | Failed failure => Err (failure_text failure)
  | GitUnfinished unfinished => Err (unfinished_text unfinished)
  end.

Definition dirty_count (text : str) : nat := count (fun line => is_nonempty (strip line)) (splitlines text false).

Definition ok {A B} (r : result A B) : option A := match r with Ok a => Some a | Err _ => None end.
Definition err {A B} (r : result A B) : option B := match r with Ok _ => None | Err b => Some b end.

Definition outside (root : str) : Snapshot :=
  {| head_sha := None; tree_oid := None; dirty := None; note := root ++ lit " is not inside a git repository: HEAD and dirty count are unknown" |}.

(** [borrowed] names the enclosing top level when it is not the root itself. *)
Definition read_snapshot (root : str) (borrowed : option str) (head tree status : result str str) : Snapshot :=
  let borrowed_note := option_map (fun enclosing => root ++ lit " is not the top of its git repository: HEAD and dirty count describe " ++ enclosing) borrowed in
  let notes := omap (fun note : option str => note) [borrowed_note; err head; err tree; err status] in
  {| head_sha := ok head; tree_oid := ok tree; dirty := option_map dirty_count (ok status); note := join_with (lit "; ") notes |}.

(** * What git sees *)

Lemma inherited_spec name : inherited name = true <-> name <> LC_ALL /\ (starts_with (lit "GIT_") name = false \/ name ∈ CONFIG_KEPT).
Proof.
  unfold inherited. case_bool_decide as E; [split; [done|by intros [? _]]|]. rewrite orb_true_iff, negb_true_iff, bool_decide_eq_true. tauto.
Qed.

(** Git sees LC_ALL=C, and of the parent's variables those that do not set it and do not start with
    GIT_, besides the two that only say where its configuration is. *)
Theorem git_environment_exact base name value :
  (name, value) ∈ new_env base <->
  (name = LC_ALL /\ value = lit "C") \/ ((name, value) ∈ base /\ name <> LC_ALL /\ (starts_with (lit "GIT_") name = false \/ name ∈ CONFIG_KEPT)).
Proof.
  unfold new_env. rewrite elem_of_app, list_elem_of_singleton, list_elem_of_In, filter_In, <- list_elem_of_In. cbn [fst]. rewrite inherited_spec.
  split; [intros [H|[= -> ->]]; [by right|by left]|intros [[-> ->]|H]; [by right|by left]].
Qed.

(** The hardening settings come first, then those of the call, the directory, the subcommand and its arguments. *)
Lemma git_command_hardened dir call : exists before, call_args dir call = HARDENING_PREFIX ++ before ++ call_subcommand call :: rest call /\ before = config call ++ [lit "-C"; dir].
Proof. eexists. split; [|done]. unfold call_args. by rewrite <- !app_assoc. Qed.

(** * What a call answers *)

Section Answers.
Context {E : Type} {I : IoError E}.

(** A call printed exactly when git exited with 0; it never reads as printed when it was killed. *)
Lemma classify_printed command limits (outcome : Outcome E) stdout :
  classify command limits outcome = Printed stdout <-> exists status stderr, outcome = Exited status stdout stderr /\ exit_code status = 0.
Proof.
  split.
  - destruct outcome as [status out stderr|out| |[]|]; cbn; try done. unfold exited. destruct (Z.eqb_spec (exit_code status) 0); [|done]. intros [= ->]. by exists status, stderr.
  - intros (status & stderr & -> & Hc). cbn. unfold exited. by rewrite Hc.
Qed.

Lemma git_note (text why : str) : Err (A := str) (lit "git " ++ text) = Err why -> why <> [].
Proof. intros H Hw. subst why. discriminate H. Qed.

Lemma unknown_says_why command outcome why : receipt command outcome = Err why -> why <> [].
Proof.
  destruct outcome as [stdout|out|f|[]]; unfold receipt, failure_text, unfinished_text; [discriminate|apply git_note..| |apply git_note].
  intros H Hw. subst why. discriminate H.
Qed.

Lemma join_nonempty (sep : str) parts : Forall (fun part => part <> []) parts -> parts <> [] -> join_with sep parts <> [].
Proof. intros H Hne. destruct parts as [|p [|q parts]]; [done|..]; apply Forall_cons in H as [Hp _]; [done|by destruct p]. Qed.

(** What a receipt leaves open it says: a value is known exactly when its call printed, and the note
    is empty exactly when every value is known and the root is the top of its own repository. *)
Theorem receipt_whole root borrowed (head tree status : result str str) (commands : list (str * GitOutcome)) :
  [head; tree; status] = map (fun call => receipt call.1 call.2) commands ->
  let s := read_snapshot root borrowed head tree status in
  (note s = [] <-> borrowed = None /\ is_Some (head_sha s) /\ is_Some (tree_oid s) /\ is_Some (dirty s)) /\
  (forall id, head_sha s = Some id <-> head = Ok id) /\ (forall id, tree_oid s = Some id <-> tree = Ok id).
Proof.
  intros Hc. cbv zeta. assert (forall why, head = Err why \/ tree = Err why \/ status = Err why -> why <> []) as Hwhy.
  { destruct commands as [|[c1 o1] [|[c2 o2] [|[c3 o3] [|]]]]; try done. cbn in Hc. simplify_eq. intros why [H|[H|H]]; by eapply unknown_says_why. }
  split; [|by destruct head, tree; cbn; split; intros id; split; congruence].
  assert (forall parts : list (option str), Forall (fun part : option str => part <> Some []) parts -> join_with (lit "; ") (omap (fun note : option str => note) parts) = [] <-> Forall (fun part : option str => part = None) parts) as Hj.
  { intros parts H. assert (Forall (fun part => part <> []) (omap (fun note : option str => note) parts)) as Hf.
    { induction H as [|[part|] parts Hp _ IH]; [constructor|constructor; [congruence|done]|done]. }
    destruct (decide (omap (fun note : option str => note) parts = [])) as [E0|Hne].
    - rewrite E0. split; [|done]. intros _. clear H Hf. induction parts as [|[part|] parts IH]; [constructor|done|]. constructor; [done|]. by apply IH.
    - split; [intros Hn; by apply join_nonempty in Hn|]. intros Hn. exfalso. apply Hne. clear H Hf Hne. induction Hn as [|part parts -> _ IH]; [done|]. exact IH. }
  unfold read_snapshot. cbn [note head_sha tree_oid dirty]. rewrite Hj.
  - rewrite !Forall_cons. destruct borrowed, head, tree, status; cbn; split; intros H; repeat match goal with H : _ /\ _ |- _ => destruct H end; try done; try (by destruct (is_Some_None ltac:(eassumption)));
      split_and!; try done; by eexists.
  - repeat (apply Forall_cons; split); try constructor.
    + destruct borrowed; cbn; [|done]. intros [= Hn]. by destruct root.
    + destruct head as [|why]; cbn; [done|]. intros [= ->]. by apply (Hwhy []); [left|].
    + destruct tree as [|why]; cbn; [done|]. intros [= ->]. by apply (Hwhy []); [right; left|].
    + destruct status as [|why]; cbn; [done|]. intros [= ->]. by apply (Hwhy []); [right; right|].
Qed.

Lemma receipt_whole_witness : let s := read_snapshot (lit "/r") None (Ok (lit "0a1b2c3d")) (Err (unfinished_text NotInstalled)) (Ok (lit "M a")) in
  (note s = [] <-> (None : option str) = None /\ is_Some (head_sha s) /\ is_Some (tree_oid s) /\ is_Some (dirty s)) /\
  (forall id, head_sha s = Some id <-> Ok (E := str) (lit "0a1b2c3d") = Ok id) /\ (forall id, tree_oid s = Some id <-> Err (A := str) (unfinished_text NotInstalled) = Ok id).
Proof.
  apply (receipt_whole (lit "/r") None _ _ _ [(lit "rev-parse", Printed (lit "0a1b2c3d")); (lit "rev-parse", GitUnfinished NotInstalled); (lit "status", Printed (lit " M a"))]).
  vm_compute. reflexivity.
Defined.
End Answers.
