(* ===== verification/GitHistory.v ===== *)
(** The history of files: crates/git/src/history.rs and churn.rs.

    The commits that touched a span of lines and the commit activity of files, from what git prints.
    [parse_log_cut] shows that a log in git's pinned format is read back and what is kept of one cut
    anywhere, [parse_log_sound] that nothing else is accepted, and [tally_exact] that
    the counts of a file are those of the records that name it. *)

From S2P Require Import Prelude RustStr Ordered Text CodePoints Utf8 GitCalls.

#[local] Open Scope Z_scope.
#[local] Open Scope rs_scope.

(** * Spans and commits *)

Definition MAX_HISTORY_OUTPUT_BYTES : Z := 2000000.
Definition HISTORY : Limits := {| seconds := 30; shown := lit "30.0"; cap := MAX_HISTORY_OUTPUT_BYTES |}.
Definition PROBE : Limits := {| seconds := 5; shown := lit "5.0"; cap := 4096 |}.

Definition FORMAT : str := lit "--format=%H%x00%aI%x00%s%x00%b".
Definition FIELDS_PER_COMMIT : nat := 4.
Definition SHA1_DIGITS : nat := 40.
Definition SHA256_DIGITS : nat := 64.
Definition SHOWN_ANSWER_CHARS : nat := 80.

Record LineRange := { start : Z; end_ : Z }.

Definition line_range (start end_ : Z) : option LineRange := if (1 <=? start) && (start <=? end_) then Some {| start := start; end_ := end_ |} else None.

Definition is_hex (byte : Z) : bool := (48 <=? byte) && (byte <=? 57) || (97 <=? byte) && (byte <=? 102).

Definition is_full_sha (text : str) : bool :=
  ((utf8_len text =? SHA1_DIGITS)%nat || (utf8_len text =? SHA256_DIGITS)%nat) && all is_hex (as_bytes text).

(** [CommitId::parse]: an id is the text it spells. *)
Definition commit_id (text : str) : option str := if is_full_sha text then Some text else None.

Record SpanQuery := { path : str; lines : LineRange; revision : str; max_count : Z }.

Record Commit := { sha : str; authored : str; subject : str; body : str }.

Record SpanLog := { commits : list Commit; capped : bool }.

Inductive SpanLogError := Unanswered (note : str) | Malformed (text : str).

Inductive HistoryFailure := NoPath | SpanBeyondHead | NoGit | OtherFailure.

Definition failure_of (note : str) : HistoryFailure :=
  let has words := contains (lit words) note in
  if has "There is no path" || has "does not exist in" || has "but not in" then NoPath
  else if has "has only" && has "lines" then SpanBeyondHead
  else if has "not installed" || has "could not be run" then NoGit
  else OtherFailure.

(** The arguments of the log of a span. *)
Definition log_args (query : SpanQuery) : list str :=
  [lit "-L" ++ dec_text (start (lines query)) ++ lit "," ++ dec_text (end_ (lines query)) ++ lit ":" ++ path query;
   lit "--no-patch"; lit "-z"; FORMAT; lit "--max-count=" ++ dec_text (max_count query); revision query; lit "--"].

(** * Answers *)

(** The stdout of a call and whether the cap cut it, or the note of a call that gave none. *)
Definition answer (outcome : GitOutcome) : result (list Z * bool) str :=
  match outcome with
  | Printed stdout => Ok (stdout, false)
  | Capped stdout => Ok (stdout, true)
  | Failed failure => Err (failure_text failure)
  | GitUnfinished unfinished => Err (unfinished_text unfinished)
  end.

Definition shallow_answer (text : str) : result bool str :=
  let other := strip text in
  if bool_decide (other = lit "true") then Ok true
  else if bool_decide (other = lit "false") then Ok false
  else Err (lit "git rev-parse printed " ++ quoted_str (take SHOWN_ANSWER_CHARS other)).

Definition is_shallow (outcome : GitOutcome) : result bool str := let? a := answer outcome in shallow_answer (from_utf8_lossy a.1).

(** [diff --quiet]: exit 1 says that the file differs. *)
Definition differs (outcome : GitOutcome) : result bool str :=
  match outcome with
  | Printed _ => Ok false
  | Failed failure => if code failure =? 1 then Ok true else Err (failure_text failure)
  | Capped _ => Err []
  | GitUnfinished unfinished => Err (unfinished_text unfinished)
  end.

Definition commit (number : nat) (fields : str * str * str * str) : result Commit str :=
  let '(sha, authored, subject, body) := fields in
  if negb (is_full_sha sha) then Err (lit "commit " ++ nat_text number ++ lit " does not open with a full sha")
  else if negb (is_nonempty authored) then Err (lit "commit " ++ nat_text number ++ lit " carries no author date")
  else Ok {| sha := sha; authored := authored; subject := subject; body := body |}.

(** The whole commits, four fields each, numbered from one. *)
Fixpoint commits_of (number : nat) (fields : list str) : result (list Commit) str :=
  match fields with
  | sha :: authored :: subject :: body :: fields =>
      let? first := commit number (sha, authored, subject, body) in let? more := commits_of (S number) fields in Ok (first :: more)
  | _ => Ok []
  end.

Definition log_fields (text : str) : list str :=
  let fields := split_char 0 text in
  match last fields with Some [] => removelast fields | _ => fields end.

Definition parse_log (text : str) (capped : bool) : result (list Commit) str :=
  let fields := log_fields text in
  if negb (length fields mod FIELDS_PER_COMMIT =? 0)%nat && negb capped then
    Err (nat_text (length fields) ++ lit " fields is not a whole number of " ++ nat_text FIELDS_PER_COMMIT ++ lit "-field commits")
  else commits_of 1 fields.

Definition log_span (outcome : GitOutcome) : result SpanLog SpanLogError :=
  match answer outcome with
  | Err note => Err (Unanswered note)
  | Ok (stdout, capped) => let? commits := map_err Malformed (parse_log (from_utf8_lossy stdout) capped) in Ok {| commits := commits; capped := capped |}
  end.

(** * Churn *)

Definition CHURN_WINDOW_DAYS : Z := 90.
Definition PRETTY : str := lit "--pretty=%x00%ct".

Record Churn := { churn_commits : nat; last_commit_ts : option Z }.

Definition none : Churn := {| churn_commits := 0; last_commit_ts := None |}.

(** ASCII digits that a 64-bit integer holds. *)
Definition commit_time (digits : str) : option Z :=
  if is_nonempty digits && all is_ascii_digit (as_bytes digits) then
    let n := value_of 10 (map (fun d => d - 48) digits) in if n <=? 2 ^ 63 - 1 then Some n else None
  else None.

Definition tally_line (acc : gmap str Churn * option Z) (raw : str) : gmap str Churn * option Z :=
  let '(counts, stamp) := acc in
  let line := strip raw in
  match line with
  | [] => (counts, stamp)
  | c :: digits =>
      if c =? 0 then (counts, commit_time digits)
      else
        match counts !! line, stamp with
        | Some churn, Some time =>
            (<[line := {| churn_commits := S (churn_commits churn); last_commit_ts := Some (default time (last_commit_ts churn)) |}]> counts, stamp)
        | _, _ => (counts, stamp)
        end
  end.

Definition tally (log : str) (paths : list str) : gmap str Churn :=
  (foldl tally_line (list_to_map (map (fun path => (path, none)) paths), None) (splitlines log false)).1.

(** The arguments of the log of files. *)
Definition churn_args (paths : list str) : list str :=
  [lit "--since=" ++ dec_text CHURN_WINDOW_DAYS ++ lit ".days"; PRETTY; lit "--name-only"; lit "--relative"; lit "--"] ++ map (fun path => lit "./" ++ path) paths.

(** A cut log is unknown, not partial. *)
Definition churn (paths : list str) (outcome : GitOutcome) : option (gmap str Churn) :=
  match paths with
  | [] => Some ∅
  | _ => match outcome with Printed stdout => Some (tally (from_utf8_lossy (strip_bytes stdout)) paths) | _ => None end
  end.

(** * Logs *)

(** Fields as git prints them, each ended by a NUL. *)
Definition printed (fields : list str) : str := concat (map (fun field => field ++ [0]) fields).

Definition commit_fields (c : Commit) : list str := [sha c; authored c; subject c; body c].
Definition log_text (cs : list Commit) : str := printed (concat (map commit_fields cs)).

(** A commit of git: a full object name, a date, and no field with a NUL. *)
Definition well_formed (c : Commit) : Prop := is_full_sha (sha c) = true /\ authored c <> [].
Definition git_commit (c : Commit) : Prop := well_formed c /\ Forall (char_free 0) (commit_fields c).

Lemma printed_app l l' : printed (l ++ l') = printed l ++ printed l'.
Proof. unfold printed. by rewrite map_app, concat_app. Qed.

Lemma log_text_app cs cs' : log_text (cs ++ cs') = log_text cs ++ log_text cs'.
Proof. unfold log_text. by rewrite map_app, concat_app, printed_app. Qed.

(** What is left of the last field, when a cut left any of it. *)
Definition partly (part : str) : list str := match part with [] => [] | _ => [part] end.

Lemma split_printed fs part : Forall (char_free 0) fs -> char_free 0 part -> split_char 0 (printed fs ++ part) = fs ++ [part].
Proof.
  intros Hf Hp. induction Hf as [|f fs Hf _ IH]; [by apply split_on_of_free|].
  change (printed (f :: fs)) with ((f ++ [0]) ++ printed fs). rewrite <- !app_assoc. cbn [app]. rewrite split_char_app by done. by rewrite IH.
Qed.

Lemma fields_of_printed fs part : Forall (char_free 0) fs -> char_free 0 part -> log_fields (printed fs ++ part) = fs ++ partly part.
Proof.
  intros Hf Hp. unfold log_fields. rewrite split_printed by done. rewrite last_snoc. destruct part as [|c part]; [|done]. by rewrite removelast_last, app_nil_r.
Qed.

Lemma commit_ok number c : well_formed c -> commit number (sha c, authored c, subject c, body c) = Ok c.
Proof. intros [Hs Ha]. unfold commit. rewrite Hs. cbn [negb]. destruct (authored c) as [|d l] eqn:E; [done|]. cbn [is_nonempty negb]. rewrite <- E. by destruct c. Qed.

Lemma commits_of_whole cs : Forall well_formed cs -> forall number more, (length more < 4)%nat -> commits_of number (concat (map commit_fields cs) ++ more) = Ok cs.
Proof.
  induction 1 as [|c cs Hc _ IH]; intros number more Hm; [by destruct more as [|? [|? [|? [|]]]]; [..|cbn in Hm; lia]|].
  cbn [map concat commit_fields app commits_of]. rewrite commit_ok by done. cbn [result_bind]. by rewrite IH.
Qed.

(** A prefix of a print ends inside some field. *)
Lemma prefix_printed p fs : p `prefix_of` printed fs -> exists k part, p = printed (take k fs) ++ part /\ (k <= length fs)%nat /\
  (part = [] \/ exists f, fs !! k = Some f /\ part `prefix_of` f).
Proof.
  revert p. induction fs as [|f fs IH]; intros p Hp.
  - exists 0%nat, []. apply prefix_nil_inv in Hp as ->. by split_and!; [|lia|left].
  - change (printed (f :: fs)) with ((f ++ [0]) ++ printed fs) in Hp. rewrite <- app_assoc in Hp. cbn [app] in Hp.
    destruct Hp as [rest Hp]. apply app_eq_app in Hp as (l & [[-> H]|[-> H]]).
    + exists 0%nat, p. split_and!; [done|cbn; lia|]. right. exists (p ++ l). split; [done|by exists l].
    + destruct l as [|z l]; [exists 0%nat, f; rewrite app_nil_r; split_and!; [done|cbn; lia|right; by exists f]|]. injection H as <- H.
      destruct (IH l) as (k & part & -> & Hk & Hpart); [by exists rest|]. exists (S k), part. split_and!; [|cbn; lia|done].
      cbn [take]. change (printed (f :: take k fs)) with ((f ++ [0]) ++ printed (take k fs)). by rewrite <- !app_assoc.
Qed.

Lemma char_free_prefix c (a b : str) : a `prefix_of` b -> char_free c b -> char_free c a.
Proof. intros [k ->] H. by apply Forall_app in H as [H _]. Qed.

Lemma commits_free cs : Forall git_commit cs -> Forall well_formed cs /\ Forall (char_free 0) (concat (map commit_fields cs)).
Proof.
  intros H. split; [eapply Forall_impl; [exact H|by intros c []]|]. induction H as [|c cs [_ Hc] _ IH]; [constructor|]. cbn [map concat]. by apply Forall_app.
Qed.

(** The fields before the body. *)
Definition head_fields (c : Commit) : list str := [sha c; authored c; subject c].

Definition with_body (part : str) (c : Commit) : Commit := {| sha := sha c; authored := authored c; subject := subject c; body := part |}.

(** A log of commits reads back as those commits, cut or not.  Of a log cut in its next commit, the
    commits before it are kept; that commit is dropped when the cut is before its body, and kept with
    the part of its body that was printed when any of it was. *)
Theorem parse_log_cut cs c part cut : Forall git_commit cs -> git_commit c -> part <> [] -> part `prefix_of` body c -> cut `prefix_of` printed (head_fields c) ->
  (forall capped, parse_log (log_text cs) capped = Ok cs) /\
  parse_log (log_text cs ++ cut) true = Ok cs /\
  parse_log (log_text cs ++ printed (head_fields c) ++ part) true = Ok (cs ++ [with_body part c]).
Proof.
  intros Hcs [Hc Hfree] Hne Hpart Hcut. destruct (commits_free cs Hcs) as [Hw Hf]. unfold commit_fields in Hfree. rewrite !Forall_cons in Hfree.
  destruct Hfree as (H1 & H2 & H3 & H4 & _). assert (Forall (char_free 0) (head_fields c)) as Hh by by repeat constructor.
  split_and!.
  - intros capped. unfold parse_log. pose proof (fields_of_printed (concat (map commit_fields cs)) [] Hf ltac:(constructor)) as E. rewrite app_nil_r in E.
    fold (log_text cs) in E. rewrite E. cbn [partly]. rewrite app_nil_r.
    assert (length (concat (map commit_fields cs)) mod FIELDS_PER_COMMIT = 0)%nat as Hmod.
    { assert (length (concat (map commit_fields cs)) = length cs * FIELDS_PER_COMMIT)%nat as ->; [|by apply Nat.Div0.mod_mul].
      clear. induction cs as [|c cs IH]; [done|]. cbn [map concat]. rewrite length_app, IH. done. }
    rewrite Hmod. cbn [Nat.eqb negb andb]. pose proof (commits_of_whole cs Hw 1 [] ltac:(cbn; lia)) as Hr. by rewrite app_nil_r in Hr.
  - destruct (prefix_printed cut _ Hcut) as (k & q & -> & Hk & Hq). assert (char_free 0 q) as Hqf.
    { destruct Hq as [->|(f & Hf' & Hp)]; [constructor|]. eapply char_free_prefix; [done|]. rewrite Forall_lookup in Hh. by eapply Hh. }
    unfold parse_log, log_text. rewrite app_assoc, <- printed_app. rewrite fields_of_printed; [|apply Forall_app; split; [done|by apply Forall_take]|done].
    rewrite andb_false_r, <- app_assoc. apply commits_of_whole; [done|]. rewrite length_app, length_take. cbn [head_fields length] in *.
    destruct Hq as [->|(f & Hf' & _)]; [cbn; lia|]. apply lookup_lt_Some in Hf'. cbn in Hf'. destruct q; cbn; lia.
  - unfold parse_log, log_text. rewrite app_assoc, <- printed_app. rewrite fields_of_printed; [|by apply Forall_app|by eapply char_free_prefix].
    rewrite andb_false_r, <- app_assoc. assert (head_fields c ++ partly part = concat (map commit_fields [with_body part c])) as -> by by destruct part.
    rewrite <- concat_app, <- map_app, <- (app_nil_r (concat _)). apply commits_of_whole; [|cbn; lia]. apply Forall_app. split; [done|]. by constructor; [|constructor].
Qed.

Lemma commits_of_sound fields : forall number cs, commits_of number fields = Ok cs ->
  Forall well_formed cs /\ exists more, fields = concat (map commit_fields cs) ++ more /\ (length more < 4)%nat.
Proof.
  assert (forall n fields, (length fields <= n)%nat -> forall number cs, commits_of number fields = Ok cs ->
    Forall well_formed cs /\ exists more, fields = concat (map commit_fields cs) ++ more /\ (length more < 4)%nat) as H; [|by intros number; apply (H _ _ (reflexivity _))].
  induction n as [n IH] using lt_wf_ind. intros [|f1 [|f2 [|f3 [|f4 more]]]] Hn number cs; cbn [commits_of];
    try (intros [= <-]; split; [constructor|eexists; split; [done|cbn; lia]]).
  destruct (commit number (f1, f2, f3, f4)) as [c|] eqn:Ec; [|done]. cbn [result_bind]. destruct (commits_of (S number) more) as [cs'|] eqn:Em; [|done]. intros [= <-].
  unfold commit in Ec. destruct (is_full_sha f1) eqn:Es; [|done]. destruct f2 as [|d f2]; [done|]. injection Ec as <-.
  destruct (IH (length more)) with (fields := more) (number := S number) (cs := cs') as (Hw & rest & -> & Hr); [cbn in Hn; lia|lia|done|].
  split; [by constructor|]. exists rest. by split.
Qed.

(** Only a log of full object names with dates is read, and one that was not cut is exactly its commits. *)
Theorem parse_log_sound text capped cs : parse_log text capped = Ok cs ->
  Forall well_formed cs /\ exists more, log_fields text = concat (map commit_fields cs) ++ more /\ (length more < 4)%nat /\ (capped = false -> more = []).
Proof.
  unfold parse_log. destruct (negb _ && negb capped) eqn:E; [done|]. intros H. destruct (commits_of_sound _ _ _ H) as (Hw & more & Hf & Hm).
  split; [done|]. exists more. split_and!; [done|done|]. intros ->. rewrite andb_true_r, negb_false_iff in E. apply Nat.eqb_eq in E. rewrite Hf, length_app in E.
  assert (length (concat (map commit_fields cs)) = length cs * 4)%nat as El.
  { clear. induction cs as [|c cs IH]; [done|]. cbn [map concat]. rewrite length_app, IH. done. }
  rewrite El, Nat.add_comm, Nat.Div0.mod_add in E. rewrite Nat.mod_small in E by done. by destruct more.
Qed.

(** * Counts *)

(** The records of a log: each line that names a file, with the time of the commit that it stands under. *)
Fixpoint records (stamp : option Z) (lines : list str) : list (str * Z) :=
  match lines with
  | [] => []
  | raw :: lines =>
      match strip raw with
      | [] => records stamp lines
      | c :: digits =>
          if c =? 0 then records (commit_time digits) lines
          else match stamp with Some time => (strip raw, time) :: records stamp lines | None => records stamp lines end
      end
  end.

Definition records_of (file : str) (l : list (str * Z)) : list (str * Z) := List.filter (fun record => bool_decide (fst record = file)) l.

(** A count after some records of the file. *)
Definition counted (churn : Churn) (l : list (str * Z)) : Churn :=
  {| churn_commits := churn_commits churn + length l;
     last_commit_ts := match last_commit_ts churn with Some time => Some time | None => snd <$> head l end |}.

Lemma counted_none churn : counted churn [] = churn.
Proof. destruct churn as [n [t|]]; unfold counted; cbn; by rewrite Nat.add_0_r. Qed.

Lemma tally_lines lines : forall counts stamp file,
  (foldl tally_line (counts, stamp) lines).1 !! file = (fun churn => counted churn (records_of file (records stamp lines))) <$> counts !! file.
Proof.
  induction lines as [|raw lines IH]; intros counts stamp file; cbn [foldl records].
  - cbn [fst records_of List.filter]. destruct (counts !! file) as [churn|] eqn:E; cbn; [by rewrite counted_none|done].
  - unfold tally_line at 2. destruct (strip raw) as [|c digits] eqn:El; [apply IH|]. destruct (c =? 0); [apply IH|]. destruct stamp as [time|].
    2:{ destruct (counts !! (c :: digits)); apply IH. }
    unfold records_of. cbn [List.filter fst]. destruct (bool_decide_reflect (c :: digits = file)) as [<-|Hne].
    + destruct (counts !! (c :: digits)) as [churn|] eqn:E; rewrite IH; [rewrite lookup_insert_eq|by rewrite E]. cbn [fmap option_fmap option_map].
      f_equal. unfold counted, records_of. cbn [churn_commits last_commit_ts length head fmap option_fmap option_map snd]. f_equal; [lia|]. by destruct (last_commit_ts churn).
    + destruct (counts !! (c :: digits)) as [churn|] eqn:E; rewrite IH; [by rewrite lookup_insert_ne by done|done].
Qed.

(** The count of a path that was asked for is the number of the records that name it, and its time is that of the first of them; no other path is counted. *)
Theorem tally_exact log paths file :
  tally log paths !! file =
    if bool_decide (file ∈ paths) then
      let mine := records_of file (records None (splitlines log false)) in Some {| churn_commits := length mine; last_commit_ts := snd <$> head mine |}
    else None.
Proof.
  unfold tally. rewrite tally_lines. case_bool_decide as Hin.
  - assert (list_to_map (M := gmap str Churn) (map (fun path => (path, none)) paths) !! file = Some none) as ->; [|done].
    induction paths as [|path paths IH]; [by apply not_elem_of_nil in Hin|]. cbn [map list_to_map foldr uncurry fst snd]. destruct (decide (path = file)) as [->|Hne]; [apply lookup_insert_eq|].
    rewrite lookup_insert_ne by done. apply IH. by apply elem_of_cons in Hin as [->|].
  - rewrite not_elem_of_list_to_map_1; [done|]. rewrite <- list_fmap_compose. unfold compose. cbn [fst]. by rewrite list_fmap_id.
Qed.

(** A name that starts or ends in a space is not counted: the lines of the log are stripped. *)
Example spaced_name_missed : tally ([0] ++ lit "1700000000" ++ [10; 10] ++ lit "a " ++ [10]) [lit "a "] = {[lit "a " := none]}.
Proof. vm_compute. reflexivity. Qed.

Example name_counted : tally ([0] ++ lit "1700000000" ++ [10; 10] ++ lit "a" ++ [10]) [lit "a"] = {[lit "a" := {| churn_commits := 1; last_commit_ts := Some 1700000000 |}]}.
Proof. vm_compute. reflexivity. Qed.

Lemma parse_log_cut_witness :
  let id := replicate 40 48 in
  let c := {| sha := id; authored := lit "2024-01-01"; subject := lit "s"; body := lit "body" |} in
  (forall capped, parse_log (log_text [c]) capped = Ok [c]) /\
  parse_log (log_text [c] ++ id) true = Ok [c] /\
  parse_log (log_text [c] ++ printed (head_fields c) ++ lit "bo") true = Ok ([c] ++ [with_body (lit "bo") c]).
Proof.
  apply (parse_log_cut [_] {| sha := replicate 40 48; authored := lit "2024-01-01"; subject := lit "s"; body := lit "body" |} (lit "bo") (replicate 40 48)).
  - apply Forall_singleton. split; [by split|]. repeat constructor.
  - split; [by split|]. repeat constructor.
  - done.
  - by exists (lit "dy").
  - eexists. cbn [head_fields printed map concat]. cbn [replicate sha app]. reflexivity.
Defined.
