(* ===== verification/GitWalk.v ===== *)
(** The repository walk: crates/git/src/walk.rs.

    The names that git lists under a root it owns, or those of the bounded walk of TreeWalk.v, and which
    of them are files of the repository.  [listing_exact] shows which names a listing gives, and
    [admitted_spec] which files a walk admits and when it is refused.  The git program is a parameter:
    how each of its calls ended. *)

From S2P Require Import Prelude RustStr Ordered Text CodePoints Contain Txn Kernel TreeWalk GitCalls.

#[local] Open Scope Z_scope.
#[local] Open Scope rs_scope.

(** * Data *)

Definition LISTING : Limits := {| seconds := 30; shown := lit "30"; cap := 16000000 |}.
Definition IGNORE : Limits := {| seconds := 30; shown := lit "30"; cap := 65536 |}.

Record RepoFile := { path : str; size : Z }.

Inductive WalkWarning (E : Type) :=
| IgnoreUnchecked (top root : str) (reason : Unfinished)
| NotUtf8 (count : nat) (root : str)
| NotUtf8Walked (count : nat) (root : str)
| Skipped (skip : WalkSkip E).
Arguments IgnoreUnchecked {E}.
Arguments NotUtf8 {E}.
Arguments NotUtf8Walked {E}.
Arguments Skipped {E}.

Inductive WalkError :=
| Refused (refusal : WalkRefusal)
| ListedTooDeep (depth limit : nat) (root : str)
| ListingCapped (root : str)
| NotListed (root : str) (note : str).

Record Walk (E : Type) := { repo_files : result (list RepoFile) WalkError; warnings : list (WalkWarning E) }.
Arguments repo_files {E}.
Arguments warnings {E}.

(** The names below the root, or why they could not be listed, and the warnings raised first. *)
Record Found (E : Type) := { names : result (list str) WalkError; found_warnings : list (WalkWarning E) }.
Arguments names {E}.
Arguments found_warnings {E}.

(** The kinds of error that a refusal becomes. *)
Definition kernel_error (text : str) (error : WalkError) : Kernel.Error :=
  match error with
  | Refused (NotDirectory _) | NotListed _ _ => RepoResolution text
  | _ => WalkBoundExceeded text
  end.

Definition too_many_files (limit : nat) (root : str) : WalkError := Refused (TooManyFiles limit root).

(** * The names that git lists *)

(** Each name is decoded on its own; one listed again is passed over. *)
Fixpoint decode_names (records : list (list Z)) (root : str) (max_files : nat) (names : list str) (undecodable : nat) : result (list str * nat) WalkError :=
  match records with
  | [] => Ok (names, undecodable)
  | record :: records =>
      match from_utf8 record with
      | None => decode_names records root max_files names (S undecodable)
      | Some name =>
          if bool_decide (name ∈ names) then decode_names records root max_files names undecodable
          else
            let names := names ++ [name] in
            if (max_files <? length names)%nat then Err (too_many_files max_files root) else decode_names records root max_files names undecodable
      end
  end.

Definition decoded_names (stdout : list Z) (root : str) (max_files : nat) : result (list str * nat) WalkError :=
  decode_names (List.filter is_nonempty (split_on (is_char 0) stdout)) root max_files [] 0.

Definition warned {E} (count : nat) (warning : nat -> WalkWarning E) : list (WalkWarning E) := if (0 <? count)%nat then [warning count] else [].

Definition listed_names {E} (root : str) (outcome : GitOutcome) (max_files : nat) : result (list str * list (WalkWarning E)) WalkError :=
  match outcome with
  | Printed stdout => let? (names, count) := decoded_names stdout root max_files in Ok (names, warned count (fun count => NotUtf8 count root))
  | Capped _ => Err (ListingCapped root)
  | Failed failure => Err (NotListed root (failure_text failure))
  | GitUnfinished reason => Err (NotListed root (unfinished_text reason))
  end.

(** Exit 0 says ignored and exit 1 says not; any other answer keeps the listing of git. *)
Definition ignore_verdict {E} (top root : str) (outcome : GitOutcome) : bool * option (WalkWarning E) :=
  match outcome with
  | Printed _ => (true, None)
  | Capped _ | Failed _ => (false, None)
  | GitUnfinished reason => (false, Some (IgnoreUnchecked top root reason))
  end.

(** * The files of the repository *)

Section Admitting.
Context {E : Type} (root : str) (bounds : Bounds) (reads : str -> Z -> bool) (probe : str -> option (result Z E)).

Definition refused_walk (error : WalkError) (warnings : list (WalkWarning E)) : Walk E := {| repo_files := Err error; warnings := warnings |}.

Definition depth_of (name : str) : nat := length (components (as_bytes name)) - 1.

Fixpoint admit_loop (names : list str) (files : list RepoFile) (total : Z) (warnings : list (WalkWarning E)) : Walk E :=
  match names with
  | [] => {| repo_files := Ok files; warnings := warnings |}
  | name :: names =>
      let candidate := path_join root (as_bytes name) in
      match probe candidate with
      | None => admit_loop names files total warnings
      | Some size =>
          if (b_depth bounds <? depth_of name)%nat then refused_walk (ListedTooDeep (depth_of name) (b_depth bounds) root) warnings
          else
            match size with
            | Err error => admit_loop names files total (warnings ++ [Skipped (Unstatable candidate error)])
            | Ok size =>
                let total := saturating_add total (counted_bytes reads name size) in
                if (b_files bounds <=? length files)%nat then refused_walk (too_many_files (b_files bounds) root) warnings
                else if b_bytes bounds <? total then refused_walk (Refused (TooManyBytes (b_bytes bounds) root)) warnings
                else admit_loop names (files ++ [{| path := name; size := size |}]) total warnings
            end
      end
  end.

Definition admit_names (names : list str) : Walk E := admit_loop (dedup (sort_strings names)) [] 0 [].
End Admitting.

(** * The walk *)

Section Walking.
Context {W E : Type} {F : Files W E} {L : Listings W E} (w : W).

(** How [git rev-parse --show-toplevel], [git check-ignore] and [git ls-files] end. *)
Context (show_toplevel : str -> GitOutcome) (check_ignore : str -> str -> GitOutcome) (ls_files : str -> GitOutcome).

(** The resolved top level of the repository that encloses a directory; [None] is the fuel. *)
Definition git_root (links : nat) (directory : str) : option (option str) :=
  match receipt (lit "rev-parse") (show_toplevel directory) with
  | Err _ => Some None
  | Ok top => resolved ← resolve (E := E) links w (as_bytes top); Some (match resolved with Ok top => Some top | Err _ => None end)
  end.

Definition listing_speaks_for (links : nat) (root : str) : option (bool * option (WalkWarning E)) :=
  top ← git_root links root;
  Some match top with
       | None => (false, None)
       | Some top =>
           if bool_decide (top = root) then (true, None)
           else let '(ignored, warning) := ignore_verdict top root (check_ignore top root) in (negb ignored, warning)
       end.

(** A path below the root is named by what follows the root; another keeps its absolute form. *)
Definition relative_name (root file : str) : str :=
  match stripped file root with Some relative => join_with [c_slash] (map component_text relative) | None => file end.

Definition walked (links fuel : nat) (root : str) (reads : str -> Z -> bool) : option (Found E) :=
  walk ← TreeWalk.walk w links fuel root reads;
  let skips := map Skipped (walk_skipped walk) in
  Some match walk_files walk with
       | Err refusal => {| names := Err (Refused refusal); found_warnings := skips |}
       | Ok files =>
           let names := omap (fun file => from_utf8 (relative_name root file)) files in
           {| names := Ok names; found_warnings := skips ++ warned (length files - length names) (fun count => NotUtf8Walked count root) |}
       end.

Definition find_names (links fuel : nat) (root : str) (max_files : nat) (reads : str -> Z -> bool) : option (Found E) :=
  '(listed, unchecked) ← listing_speaks_for links root;
  found ← (if (listed : bool) then
             Some match listed_names root (ls_files root) max_files with
                  | Ok (names, warnings) => {| names := Ok names; found_warnings := warnings |}
                  | Err error => {| names := Err error; found_warnings := [] |}
                  end
           else walked links fuel root reads);
  Some {| names := names found; found_warnings := option_list unchecked ++ found_warnings found |}.

Definition git_walk_within (links fuel : nat) (root : str) (bounds : Bounds) (reads : str -> Z -> bool) : option (Walk E) :=
  directory ← walkable w links root;
  match directory with
  | Err refusal => Some {| repo_files := Err (Refused refusal); warnings := [] |}
  | Ok root =>
      found ← find_names links fuel root (b_files bounds) reads;
      Some match names found with
           | Err error => {| repo_files := Err error; warnings := found_warnings found |}
           | Ok names =>
               let admitted := admit_names root bounds reads (fun candidate => contained_file_size w candidate root) names in
               {| repo_files := repo_files admitted; warnings := found_warnings found ++ warnings admitted |}
           end
  end.

Definition git_walk (links fuel : nat) (root : str) (reads : str -> Z -> bool) : option (Walk E) := git_walk_within links fuel root BOUNDS reads.
End Walking.

(** * What is listed *)

Section Listed.
Context (root : str) (max_files : nat).

(** The names that decode, each once, in the order they are first listed. *)
Lemma decode_names_spec records : forall names undecodable, NoDup names ->
  let all := first_occurrences (names ++ omap from_utf8 records) in
  match decode_names records root max_files names undecodable with
  | Ok (found, count) => found = all /\ count = (undecodable + length (List.filter (fun record => negb (bool_decide (is_Some (from_utf8 record)))) records))%nat /\
      ((length names <= max_files)%nat -> (length all <= max_files)%nat)
  | Err error => error = too_many_files max_files root /\ (max_files < length all)%nat
  end.
Proof.
  assert (forall (l m : list str), NoDup l -> (length (first_occurrences l) <= length (first_occurrences (l ++ m)))%nat) as Hmono.
  { intros l m _. apply submseteq_length, NoDup_submseteq; [apply first_occurrences_NoDup|]. intros x. rewrite !first_occurrences_elem, elem_of_app. by left. }
  assert (forall l : list str, NoDup l -> first_occurrences l = l) as Hid.
  { induction l as [|x l IH] using rev_ind; [done|]. intros [H1 [H2 _]]%NoDup_app. rewrite first_occurrences_snoc, IH by done.
    case_decide as Hx; [|done]. exfalso. apply (H2 x Hx). by left. }
  induction records as [|record records IH]; intros names undecodable Hn; cbn zeta; cbn [decode_names omap list_omap List.filter].
  - rewrite app_nil_r, Hid by done. cbn [length]. by rewrite Nat.add_0_r.
  - destruct (from_utf8 record) as [name|] eqn:Er.
    + rewrite (bool_decide_eq_true_2 (is_Some (Some name))) by by eexists. cbn [negb]. change (name :: omap from_utf8 records) with ([name] ++ omap from_utf8 records). rewrite app_assoc.
      case_bool_decide as Hin.
      * assert (first_occurrences ((names ++ [name]) ++ omap from_utf8 records) = first_occurrences (names ++ omap from_utf8 records)) as Hsame.
        { generalize (omap from_utf8 records : list str). intros l. induction l as [|y l IHl] using rev_ind.
          - by rewrite !app_nil_r, first_occurrences_snoc, decide_True by done.
          - rewrite !app_assoc, !first_occurrences_snoc, IHl. assert (y ∈ (names ++ [name]) ++ l <-> y ∈ names ++ l) as Hy by (rewrite !elem_of_app, list_elem_of_singleton; naive_solver).
            by rewrite (decide_ext _ _ _ _ Hy). }
        rewrite Hsame. apply IH, Hn.
      * assert (NoDup (names ++ [name])) as Hn' by (apply NoDup_app; split_and!; [done|intros x Hx ->%list_elem_of_singleton; done|apply NoDup_singleton]).
        destruct (Nat.ltb_spec max_files (length (names ++ [name]))) as [Hlt|Hle].
        -- split; [done|]. pose proof (Hmono (names ++ [name]) (omap from_utf8 records) Hn') as Hm. rewrite Hid in Hm by done. lia.
        -- specialize (IH (names ++ [name]) undecodable Hn'). cbn zeta in IH. destruct (decode_names records root max_files (names ++ [name]) undecodable) as [[found count]|error]; [|done].
           destruct IH as (H1 & H2 & H3). split_and!; [done|done|]. intros _. by apply H3.
    + rewrite (bool_decide_eq_false_2 (is_Some None)) by (by intros [? ?]). cbn [negb length]. specialize (IH names (S undecodable) Hn). cbn zeta in IH.
      destruct (decode_names records root max_files names (S undecodable)) as [[found count]|error]; [|done]. destruct IH as (H1 & H2 & H3). split_and!; [done|lia|done].
Qed.
End Listed.

(** * What is admitted *)

Section Kept.
Context {E : Type} (root : str) (bounds : Bounds) (reads : str -> Z -> bool) (probe : str -> option (result Z E)).

Definition place (name : str) : str := path_join root (as_bytes name).

Definition file_of (name : str) : option RepoFile := match probe (place name) with Some (Ok size) => Some {| path := name; size := size |} | _ => None end.

Definition admitted (names : list str) : list RepoFile := omap file_of (dedup (sort_strings names)).

Definition read_bytes (from : Z) (files : list RepoFile) : Z := foldl (fun sum file => saturating_add sum (counted_bytes reads (path file) (size file))) from files.

(** Why the names of a walk are refused. *)
Definition over_bounds (names : list str) (files : list RepoFile) (from : Z) (before : nat) (error : WalkError) : Prop :=
  (exists name, name ∈ names /\ is_Some (probe (place name)) /\ (b_depth bounds < depth_of name)%nat /\ error = ListedTooDeep (depth_of name) (b_depth bounds) root) \/
  (error = too_many_files (b_files bounds) root /\ (b_files bounds < before + length files)%nat) \/
  (error = Refused (TooManyBytes (b_bytes bounds) root) /\ exists taken, taken `prefix_of` files /\ b_bytes bounds < read_bytes from taken).

Lemma admit_loop_exact names : forall files total warnings, (length files <= b_files bounds)%nat -> total <= b_bytes bounds ->
  let more := omap file_of names in
  match repo_files (admit_loop root bounds reads probe names files total warnings) with
  | Ok listed => listed = files ++ more /\ (length listed <= b_files bounds)%nat /\ read_bytes total more <= b_bytes bounds /\
      (forall name, name ∈ names -> is_Some (probe (place name)) -> (depth_of name <= b_depth bounds)%nat)
  | Err error => over_bounds names more total (length files) error
  end.
Proof.
  induction names as [|name names IH]; intros files total warnings Hf Ht; cbn zeta; cbn [admit_loop omap list_omap].
  - rewrite app_nil_r. split_and!; [done|done|done|]. intros name H. by apply not_elem_of_nil in H.
  - fold (place name). assert (forall error fs from n, over_bounds names fs from n error -> over_bounds (name :: names) fs from n error) as Hmore.
    { intros error fs from n [(x & Hx & H)|H]; [left; exists x; split; [by right|done]|by right]. }
    assert (forall files total warnings more, (length files <= b_files bounds)%nat -> total <= b_bytes bounds -> (is_Some (probe (place name)) -> (depth_of name <= b_depth bounds)%nat) ->
      more = omap file_of names -> match repo_files (admit_loop root bounds reads probe names files total warnings) with
      | Ok listed => listed = files ++ more /\ (length listed <= b_files bounds)%nat /\ read_bytes total more <= b_bytes bounds /\
          (forall x, x ∈ name :: names -> is_Some (probe (place x)) -> (depth_of x <= b_depth bounds)%nat)
      | Err error => over_bounds (name :: names) more total (length files) error end) as Hnext.
    { intros fs t ws more Hf' Ht' Hd ->. specialize (IH fs t ws Hf' Ht'). cbn zeta in IH. destruct (repo_files _) as [listed|error]; [|by apply Hmore].
      destruct IH as (H1 & H2 & H3 & H4). split_and!; [done|done|done|]. intros x [->|Hx]%elem_of_cons Hp; [by apply Hd|by apply H4]. }
    assert (forall r, probe (place name) = r -> file_of name = match r with Some (Ok size) => Some {| path := name; size := size |} | _ => None end) as Hfile by (intros r Hr; unfold file_of; by rewrite Hr).
    destruct (probe (place name)) as [size|] eqn:Ep; rewrite (Hfile _ eq_refl); clear Hfile; [|by apply Hnext; [..|intros [? ?]|]].
    destruct (Nat.ltb_spec (b_depth bounds) (depth_of name)) as [Hd|Hd]; [left; exists name; split_and!; [by left|by eexists|done|done]|].
    destruct size as [size|error]; [|by apply Hnext].
    destruct (Nat.leb_spec (b_files bounds) (length files)) as [Hle|Hgt]; [right; left; split; [done|cbn; lia]|].
    destruct (Z.ltb_spec (b_bytes bounds) (saturating_add total (counted_bytes reads name size))) as [Hb|Hb].
    + right. right. split; [done|]. exists [{| path := name; size := size |}]. split; [by eexists|done].
    + specialize (Hnext (files ++ [{| path := name; size := size |}]) _ warnings _ ltac:(rewrite length_app; cbn; lia) Hb (fun _ => Hd) eq_refl).
      destruct (repo_files _) as [listed|error].
      * destruct Hnext as (-> & H2 & H3 & H4). split_and!; [by rewrite <- app_assoc|done|done|done].
      * destruct Hnext as [H|[[H1 H2]|(H1 & taken & Hp & Hlt)]]; [by left|right; left; split; [done|]; rewrite length_app in H2; cbn in *; lia|].
        right. right. split; [done|]. exists ({| path := name; size := size |} :: taken). split; [by apply prefix_cons|done].
Qed.

Lemma StronglySorted_sublist {A} (R : A -> A -> Prop) l l' : l `sublist_of` l' -> StronglySorted R l' -> StronglySorted R l.
Proof.
  induction 1 as [|x l l' Hl IH|x l l' Hl IH]; intros Hs; [done|..]; apply StronglySorted_inv in Hs as [Hs Hx]; [|by apply IH].
  constructor; [by apply IH|]. rewrite Forall_forall in *. intros y Hy. apply Hx. by eapply elem_of_sublist.
Qed.

Lemma admitted_sublist names : map path (omap file_of names) `sublist_of` names.
Proof.
  induction names as [|name names IH]; [done|]. cbn [omap list_omap]. unfold file_of at 1. destruct (probe (place name)) as [[size|]|]; [by apply sublist_skip|by apply sublist_cons..].
Qed.

(** The files that a walk admits are those of its names whose file stays inside the root and can be
    measured, each once in path order, and they are within the bounds; it is refused where a name
    that stays inside is too deep, or the files are too many or too large. *)
Lemma admitted_spec names : 0 <= b_bytes bounds ->
  match repo_files (admit_names root bounds reads probe names) with
  | Ok files => files = admitted names /\ (length files <= b_files bounds)%nat /\ read_bytes 0 files <= b_bytes bounds /\
      (forall name, name ∈ names -> is_Some (probe (place name)) -> (depth_of name <= b_depth bounds)%nat) /\
      sorted_strings (map path files) /\ NoDup (map path files)
  | Err error => over_bounds names (admitted names) 0 0 error
  end.
Proof.
  intros H0. unfold admit_names. pose proof (admit_loop_exact (dedup (sort_strings names)) [] 0 [] ltac:(cbn; lia) H0) as H. cbn zeta in H. fold (admitted names) in H.
  assert (forall name, name ∈ dedup (sort_strings names) <-> name ∈ names) as Hel by (intros name; by rewrite dedup_elem, sort_strings_elem).
  destruct (repo_files _) as [files|error].
  - destruct H as (-> & Hl & Hr & Hd). cbn [app] in *. split_and!; [done|done|done|by intros name Hn; apply Hd, Hel| |].
    + eapply StronglySorted_sublist; [apply admitted_sublist|]. apply dedup_sorted, sort_strings_sorted.
    + eapply sublist_NoDup; [|apply admitted_sublist]. apply dedup_sorted_NoDup, sort_strings_sorted.
  - destruct H as [(name & Hn & H)|H]; [left; exists name; by rewrite <- Hel|by right].
Qed.
End Kept.

(** The names that git lists: each that decodes, once, in order, with the count of the others; only a listing past the bound is refused. *)
Theorem listing_exact root max_files stdout :
  let records := List.filter is_nonempty (split_on (is_char 0) stdout) in
  match decoded_names stdout root max_files with
  | Ok (names, count) => names = first_occurrences (omap from_utf8 records) /\ (length names <= max_files)%nat /\
      count = length (List.filter (fun record => negb (bool_decide (is_Some (from_utf8 record)))) records)
  | Err error => error = too_many_files max_files root /\ (max_files < length (first_occurrences (omap from_utf8 records)))%nat
  end.
Proof.
  cbn zeta. pose proof (decode_names_spec root max_files (List.filter is_nonempty (split_on (is_char 0) stdout)) [] 0 ltac:(constructor)) as H. cbn zeta in H.
  unfold decoded_names. destruct (decode_names _ _ _ _ _) as [[names count]|error]; [|done]. destruct H as (-> & -> & H). split_and!; [done|apply H; cbn; lia|done].
Qed.

(** * The whole walk *)

Section Whole.
Context {W E : Type} {F : Files W E} {L : Listings W E} (w : W).
Context (show_toplevel : str -> GitOutcome) (check_ignore : str -> str -> GitOutcome) (ls_files : str -> GitOutcome).
Notation probe top := (fun candidate => contained_file_size w candidate top).

(** The names come to an end. *)
Lemma find_names_ends links fuel_root top max_files reads : canonical_cwd w -> clean_listings w -> resolve links w fuel_root = Some (Ok top) -> is_Some (resolve links w top) ->
  is_Some (git_root w show_toplevel links top) ->
  exists enough, forall fuel, (enough <= fuel)%nat -> is_Some (find_names w show_toplevel check_ignore ls_files links fuel top max_files reads).
Proof.
  intros Hcwd Hclean Hroot [again Hagain] [git Hgit].
  assert (exists enough, forall fuel, (enough <= fuel)%nat -> is_Some (walked w links fuel top reads)) as (n & Hn).
  { unfold walked, TreeWalk.walk, walk_within, walkable. rewrite Hagain. cbn [mbind option_bind]. destruct again as [top'|error]; [|by exists 0%nat].
    destruct (is_dir w top'); [|by exists 0%nat]. destruct (resolve_canonical _ _ _ _ Hcwd Hagain) as (base & Hb & ->).
    destruct (run_ends w BOUNDS reads base Hclean Hb initial) as (n & Hn). exists n. intros fuel Hf. destruct (Hn fuel Hf) as (outcome & ->). cbn [fmap option_fmap option_map mbind option_bind].
    by eexists. }
  exists n. intros fuel Hf. destruct (Hn fuel Hf) as [found Hfound]. unfold find_names, listing_speaks_for. rewrite Hgit. cbn [mbind option_bind].
  destruct (match git with None => _ | Some _ => _ end) as [listed unchecked]. destruct listed; [|rewrite Hfound]; cbn [mbind option_bind]; by eexists.
Qed.

End Whole.

(** * A concrete world *)

Import Rooms.

Definition no_git (_ : str) : GitOutcome := GitUnfinished NotInstalled.
Definition top_level (_ : str) : GitOutcome := Printed (lit "/r").
Definition listing (_ : str) : GitOutcome := Printed (lit "d/b" ++ [0] ++ lit "a" ++ [0] ++ lit "a" ++ [0; 0xff; 0]).

Example walked_without_git : git_walk (E := unit) tt no_git (fun _ => no_git) no_git 10 10 (lit ".") (fun _ _ => true) =
  Some {| repo_files := Ok [{| path := lit "a"; size := 3 |}; {| path := lit "d/b"; size := 3 |}]; warnings := [] |}.
Proof. vm_compute. reflexivity. Qed.

Example listed_by_git : git_walk (E := unit) tt top_level (fun _ => no_git) listing 10 10 (lit ".") (fun _ _ => true) =
  Some {| repo_files := Ok [{| path := lit "a"; size := 3 |}; {| path := lit "d/b"; size := 3 |}]; warnings := [NotUtf8 1 (lit "/r")] |}.
Proof. vm_compute. reflexivity. Qed.

